(* ===== verification/_CoqProject ===== *)
-Q . S2P
Prelude.v
Glob.v
Floats.v
Sort.v
TopK.v
Std.v
Model.v
TextPred.v
Filter.v
Postings.v
Literal.v
Findex.v
Narrow.v
Backend.v
Codec.v
Log.v
Data.v
IndexCache.v
Manifest.v
Segments.v
Config.v
Lease.v
Fuzzy.v
Analyzer.v
Fts.v
FtsStore.v
Replay.v
Store.v
StoreWrite.v
StoreOk.v
Upsert.v
Atomic.v
ReadBack.v
Recovery.v
LogOnly.v
Sweep.v
Compact.v
Hits.v
Mmr.v
Aggregate.v
Expand.v
Rank.v
Scoring.v
Quant.v
Search.v
SearchSpec.v
SearchPaths.v
StoreOpen.v
Effect.v
LiveIndex.v
Live.v
Highlight.v
TextSearch.v
TextSpec.v
SuggestSpec.v
SqlDate.v
SqlLex.v
SqlParse.v
SqlParseOk.v
SqlPrint.v
SqlRound.v
SqlCompile.v
SqlQuery.v
Chunk.v
ChunkOk.v
Ann.v
IvfOk.v
HnswWalk.v
HnswOk.v
HnswPar.v
HnswParOk.v
AnnStore.v
AnnSpec.v
Memory.v
MemoryOk.v
RecallOk.v
Rerank.v
EmbedCache.v
Commit.v
CommitOk.v
