(* ===== verification/Prelude.v ===== *)
(** * Verification of nidus, an embedded vector store

    A model of the store, its query paths and its query language, translated
    from the Rust source under [src/src], with the theorems that make each part
    correct.  This file opens the development and holds what all files share:
    characters, byte strings, results and the small lemmas on them.

    ** The program and its model

    A store keeps records (an id, named vectors, attributes) in collections.
    Every write is a batch of operations appended to a log
    ([src/src/log/mod.rs]); vectors are rows of append-only segments
    ([src/src/data]); a manifest object ([src/src/manifest]) is the commit
    point that names the live segments.  The index in RAM is the replay of
    the log; the filter, full-text and approximate indexes are derived from it and
    cached.  A query gathers candidates, scores them and hands the ranking to one
    tail; text queries, SQL text and completion go through the same store.

    - Data.  [Model] has the types every component shares ([model.rs]); [Floats]
      is IEEE arithmetic on bit patterns; [Sort] and [Std] are the parts of
      the standard library the code relies on.
    - Predicates.  [Glob] ([glob/mod.rs]), [TextPred] ([filter/text.rs]) and
      [Filter] ([filter/mod.rs], [filter/pattern.rs]) evaluate a filter;
      [Postings], [Literal], [Findex] and [Narrow] ([findex], [filter/narrow.rs])
      are the index that narrows its candidates.
    - Storage.  [Backend] ([backend]) is a world of named objects with a fault
      script: each call into it may succeed, fail or end the process with its work
      undone, half done or done.  [Codec] is the framing of payloads, [Log],
      [Data], [Segments], [IndexCache] and [Manifest] are the objects of a
      store, [Lease] its writer lock and cluster lease ([backend/object.rs]),
      [Config] its options ([config.rs], [meta.rs]).
    - The store.  [Replay] and [Store] are its state and helpers
      ([store/mod.rs]), [StoreWrite] every write ([store/write.rs]),
      [StoreOpen] open, refresh and pinned open.  [StoreOk], [Upsert],
      [Atomic], [ReadBack], [Recovery], [LogOnly], [Sweep] and [Compact]
      prove what the writes promise; [Effect], [LiveIndex] and [Live] that
      the derived indexes follow the documents.
    - Ranking.  [TopK] ([search/mod.rs]), [Scoring], [Rank], [Mmr],
      [Aggregate], [Expand], [Quant] ([store]) and [Hits] ([fuse.rs]);
      [Search] composes them as [store/read.rs] does, [SearchSpec] and
      [SearchPaths] say what a query answers.
    - Approximate indexes ([ann]).  [Ann] is the walk, the inverted file and
      the graph built row by row; [HnswPar] the graph built by several threads,
      a step relation over the mutexes they take and release; [AnnStore] the
      indexes beside a store.  [IvfOk], [HnswWalk], [HnswOk], [HnswParOk]
      and [AnnSpec] are their theorems.
    - Text.  [Fuzzy], [Analyzer], [Fts], [FtsStore], [Highlight] ([fts]) and
      [TextSearch] ([store/text.rs]), specified by [TextSpec] and
      [SuggestSpec].
    - SQL ([sql]).  [SqlDate], [SqlLex], [SqlParse], [SqlCompile]; [SqlQuery]
      runs a text against a store as [lib.rs] does.  [SqlPrint] writes
      statements, [SqlParseOk] and [SqlRound] are about parsing them back.
    - Texts.  [Chunk], with [ChunkOk], cuts documents ([chunk]); [Memory]
      remembers and recalls them through the facade of a store ([memory.rs],
      [lib.rs]), with [MemoryOk] and [RecallOk].
    - Around the services.  [Rerank] ([store/rerank.rs], [rerank/apply.rs])
      and [EmbedCache] ([embed/cache.rs]) are what the program does with a
      reranker and an embedder.
    - The server's write path ([server/commit.rs]).  [Commit] is the queue and
      its leaders, a step relation over a store; [CommitOk] its invariant.

    ** What the theorems show

    - Durability: a batch is all or nothing whatever the backend does
      ([Atomic]), a crash leaves files that reopen to a prefix of it
      ([Recovery]), a committed batch reads back ([ReadBack]); the same for
      sweeps, reinforcement, compaction and the manifest.  Torn logs and
      segments recover to their longest whole prefix ([Log], [Data]); a lease
      is taken over only from the very version read and found stale ([Lease]).
    - Derived state: after any history of writes, failed ones included, the
      filter and full-text indexes describe exactly the live documents ([Live];
      the words recorded for completion may be older), and narrowing loses no
      match ([Narrow]).
    - Queries: the exact paths equal a reference that scores every live
      candidate, whatever the threads, the hash order and the caches do
      ([SearchSpec]); no path returns a wrong hit ([SearchPaths]); text
      search, completion, fusion, diversity and aggregates equal references over
      the documents (text and completion: and the words the index has recorded).
    - Approximation: both indexes are well formed and answer with scored rows,
      nearest first, however they were built; a search through one
      is exact over the rows proposed, and exact when every list is probed.
    - Texts: writing a document again replaces its chunks and nothing else
      ([MemoryOk]); a recall answers with live, unexpired hits, of the
      embedder's own space where the collection is pinned to one, and stamps
      those alone ([RecallOk]).
    - Services and writers: reranking loses and invents no hit ([Rerank]), the
      embedding cache is transparent ([EmbedCache]), and grouped writes are
      answered once, in order, after the barrier of their own group ([CommitOk]).
    - Languages: parsing ends on every text without a panic, printed statements
      parse back, and the SQL of typed options runs as the typed call.
    - Kernels and formats: integer kernels do not overflow, edit distance is
      optimal, tokens and fragments cut their text, chunks tile and stitch back.

    ** Conventions

    Rust's [Result] is [result]; a panic is [None] or a [Dead] computation, an
    I/O error a value.  A computation that meets the backend is a function of
    the state and the world ([Backend.M]); pure ones are functions.  Integers
    keep their width where the code can wrap, saturate or overflow; row numbers
    and lengths, bounded by memory, are [nat].  Loops that are not structural
    run on fuel chosen where they start — the length of what they walk, the
    tokens or characters left, one more than the nodes of a graph — and each
    has a lemma that the fuel suffices, so no theorem is about runs that end
    only by luck.  Mutable state is explicit; threads are interleavings of
    steps ([HnswPar], [Commit]), the instances that contend for a lease
    interleavings of their requests ([Lease]), and the workers of a parallel scan
    a fold over their chunks ([Scoring]).

    What is not the repository's code is a class, with its documented laws as
    another where a theorem needs them: the encodings and the checksum
    ([Codec], [Crc32]), the regular expressions ([RegexEngine],
    [RegexSyntax]), the Unicode tables ([UnicodeAlnum], [UnicodeLower]),
    logarithms and powers ([Ln], [Ln64], [Powf]), the orders the standard
    library leaves open ([HashOrder], [HashIter], [SortUnstable], [BinaryHeap],
    [SelectNth]), the text of a float ([FloatText]) and the grammars of the
    code strategy ([TreeSitter]).  Theorems hold for every instance; each
    class has a concrete one for the witnesses.

    ** Not modelled

    The remote and browser backends ([backend/s3.rs], [gcs.rs], [redis.rs],
    [opfs.rs]): HTTP clients, met by the store only as a [Persistence].  The
    providers themselves — embedders, rerankers, summarisers — are arguments of
    the operations that call them.  The SIMD variants of the kernels beyond
    their lane-wise meaning.  The memory tier, metrics, plans for display and
    tuning; the rest of the server, the namespaces and the command line; the
    bindings and the benchmarks: presentation and policy over the operations
    modelled here. *)
From Stdlib Require Export ZArith NArith Lia String Ascii.
From stdpp Require Export base list gmap sorting strings.

(** ** Characters and strings

    A Rust [char] is a Unicode scalar value, modelled by its code point in
    [N]; a Rust [String] or [&str] is modelled by the list of its [char]s.
    Code-point lexicographic order is the byte order of the UTF-8 encodings,
    which is the [Ord] instance of [str].  [str] is an abbreviation and not a
    definition, so that the lemmas of [list] and [gmap] apply to it. *)
Abbreviation char := N (only parsing).
Abbreviation rstring := (list N) (only parsing).

(** ASCII literals of the source: [lit "data"] is the string [data]. *)
Definition lit (s : String.string) : rstring :=
  map N_of_ascii (list_ascii_of_string s).

(** A single ASCII character. *)
Definition chr (a : Ascii.ascii) : char := N_of_ascii a.

(** [char::to_ascii_lowercase]. *)
Definition to_ascii_lowercase (c : char) : char :=
  if ((65 <=? c) && (c <=? 90))%N then (c + 32)%N else c.

Definition str_to_lower (s : rstring) : rstring := map to_ascii_lowercase s.

(** [str::eq_ignore_ascii_case]. *)
Definition eq_ignore_ascii_case (a b : rstring) : bool :=
  bool_decide (str_to_lower a = str_to_lower b).

Lemma str_to_lower_length s : length (str_to_lower s) = length s.
Proof. apply length_map. Qed.

Lemma to_ascii_lowercase_idem c :
  to_ascii_lowercase (to_ascii_lowercase c) = to_ascii_lowercase c.
Proof.
  unfold to_ascii_lowercase at 2 3.
  destruct ((65 <=? c) && (c <=? 90))%N eqn:E; unfold to_ascii_lowercase.
  - apply andb_prop in E as [E1 E2].
    apply N.leb_le in E1, E2.
    destruct (c + 32 <=? 90)%N eqn:E3; [apply N.leb_le in E3; lia|].
    by rewrite andb_false_r.
  - by rewrite E.
Qed.

(** ** Tactics of the development *)

(** Hints of the components: constructors and closing lemmas. *)
Create HintDb nidus.

(** Turn the boolean comparisons of the context into propositions. *)
Ltac bdestr :=
  repeat match goal with
  | H : _ && _ = true |- _ => apply andb_prop in H as [? ?]
  | H : (_ =? _)%N = true |- _ => apply N.eqb_eq in H
  | H : (_ =? _)%N = false |- _ => apply N.eqb_neq in H
  | H : (_ <=? _)%N = true |- _ => apply N.leb_le in H
  | H : (_ <=? _)%N = false |- _ => apply N.leb_gt in H
  | H : (_ <? _)%N = true |- _ => apply N.ltb_lt in H
  | H : (_ <? _)%N = false |- _ => apply N.ltb_ge in H
  | H : (_ =? _)%Z = true |- _ => apply Z.eqb_eq in H
  | H : (_ =? _)%Z = false |- _ => apply Z.eqb_neq in H
  | H : (_ <=? _)%Z = true |- _ => apply Z.leb_le in H
  | H : (_ <=? _)%Z = false |- _ => apply Z.leb_gt in H
  | H : (_ <? _)%Z = true |- _ => apply Z.ltb_lt in H
  | H : (_ <? _)%Z = false |- _ => apply Z.ltb_ge in H
  | H : (_ =? _)%nat = true |- _ => apply Nat.eqb_eq in H
  | H : (_ =? _)%nat = false |- _ => apply Nat.eqb_neq in H
  | H : (_ <=? _)%nat = true |- _ => apply Nat.leb_le in H
  | H : (_ <=? _)%nat = false |- _ => apply Nat.leb_gt in H
  | H : (_ <? _)%nat = true |- _ => apply Nat.ltb_lt in H
  | H : (_ <? _)%nat = false |- _ => apply Nat.ltb_ge in H
  end.

(** Destruct the next [match] or [if] of the goal, keeping the equation. *)
Ltac step_case :=
  match goal with
  | |- context [match ?x with _ => _ end] => destruct x eqn:?
  end.

(** ** String order and ordered maps

    [str_leb] is the [Ord] of [str]; [bt_entries m] lists a map in the order
    in which a Rust [BTreeMap<String, _>] iterates over it. *)
Fixpoint str_cmp (a b : rstring) : comparison :=
  match a, b with
  | [], [] => Eq
  | [], _ :: _ => Lt
  | _ :: _, [] => Gt
  | x :: a', y :: b' =>
      match N.compare x y with Eq => str_cmp a' b' | c => c end
  end.

Definition str_leb (a b : rstring) : bool :=
  match str_cmp a b with Gt => false | _ => true end.

Lemma str_cmp_eq a b : str_cmp a b = Eq <-> a = b.
Proof.
  revert b. induction a as [|x a IH]; intros [|y b]; simpl; try done.
  destruct (N.compare_spec x y) as [->|?|?].
  - rewrite IH. naive_solver.
  - split; [done|]. intros [= -> ->]. lia.
  - split; [done|]. intros [= -> ->]. lia.
Qed.

Lemma str_cmp_antisym a b : str_cmp b a = CompOpp (str_cmp a b).
Proof.
  revert b. induction a as [|x a IH]; intros [|y b]; simpl; try done.
  rewrite N.compare_antisym. destruct (N.compare x y); simpl; auto.
Qed.

Lemma str_cmp_lt_trans a b c :
  str_cmp a b = Lt -> str_cmp b c = Lt -> str_cmp a c = Lt.
Proof.
  revert b c. induction a as [|x a IH]; intros [|y b] [|z c]; simpl; try done.
  destruct (N.compare_spec x y), (N.compare_spec y z), (N.compare_spec x z);
    simplify_eq; try done; try lia; eauto.
Qed.

Lemma str_leb_alt a b : str_leb a b = true <-> str_cmp a b = Lt \/ a = b.
Proof. unfold str_leb. rewrite <- str_cmp_eq. destruct (str_cmp a b); naive_solver. Qed.

Lemma str_leb_trans a b c : str_leb a b = true -> str_leb b c = true -> str_leb a c = true.
Proof.
  rewrite !str_leb_alt. intros [?| ->] [?| ->]; auto.
  left. by eapply str_cmp_lt_trans.
Qed.

Lemma str_leb_total a b : str_leb a b = true \/ str_leb b a = true.
Proof.
  unfold str_leb. rewrite (str_cmp_antisym a b). destruct (str_cmp a b); simpl; auto.
Qed.

Section btree.
Context {V : Type}.
Implicit Types m : gmap rstring V.

Definition key_le (p q : rstring * V) : Prop := str_leb p.1 q.1 = true.

#[export] Instance key_le_dec p q : Decision (key_le p q).
Proof. unfold key_le. apply _. Defined.

Definition bt_entries m : list (rstring * V) := merge_sort key_le (map_to_list m).
Definition bt_keys m : list rstring := (bt_entries m).*1.
Definition bt_values m : list V := (bt_entries m).*2.

Lemma bt_entries_perm m : bt_entries m ≡ₚ map_to_list m.
Proof. apply merge_sort_Permutation. Qed.

Lemma elem_of_bt_entries m k v : (k, v) ∈ bt_entries m <-> m !! k = Some v.
Proof. rewrite bt_entries_perm. apply elem_of_map_to_list. Qed.

Lemma bt_keys_NoDup m : NoDup (bt_keys m).
Proof. unfold bt_keys. rewrite bt_entries_perm. apply NoDup_fst_map_to_list. Qed.

Lemma list_to_map_bt_entries m : list_to_map (bt_entries m) = m.
Proof.
  rewrite <- (list_to_map_to_list m) at 2.
  apply list_to_map_proper; [apply bt_keys_NoDup|apply bt_entries_perm].
Qed.

Lemma length_bt_entries m : length (bt_entries m) = size m.
Proof. by rewrite bt_entries_perm, length_map_to_list. Qed.

Lemma elem_of_bt_keys m k : k ∈ bt_keys m <-> is_Some (m !! k).
Proof.
  unfold bt_keys. rewrite list_elem_of_fmap. split.
  - intros ([k' v] & -> & H%elem_of_bt_entries). by exists v.
  - intros [v Hv]. exists (k, v). by rewrite elem_of_bt_entries.
Qed.

Lemma bt_entries_nil m : bt_entries m = [] <-> m = ∅.
Proof.
  split; [|by intros ->]. intros H. rewrite <- map_to_list_empty_iff.
  apply Permutation_nil_r. by rewrite <- H, bt_entries_perm.
Qed.
End btree.

(** ** Results

    The source's [anyhow::Result]: the error carries a message in Rust; here
    it is an error tag chosen by the component. *)
Inductive result (E A : Type) : Type :=
| Ok (a : A)
| Err (e : E).
Arguments Ok {E A} a.
Arguments Err {E A} e.

Definition res_bind {E A B} (r : result E A) (f : A -> result E B) : result E B :=
  match r with Ok a => f a | Err e => Err e end.

Definition is_ok {E A} (r : result E A) : bool :=
  match r with Ok _ => true | Err _ => false end.

Declare Scope res_scope.
Delimit Scope res_scope with res.
Notation "'let?' x ':=' r 'in' k" := (res_bind r (fun x => k))
  (at level 10, x name, r at level 100, k at level 200) : res_scope.

(** [Iterator::try_for_each]. *)
Fixpoint try_for_each {E A} (f : A -> result E unit) (l : list A) : result E unit :=
  match l with
  | [] => Ok tt
  | a :: l' => match f a with Ok _ => try_for_each f l' | Err e => Err e end
  end.

Lemma try_for_each_ok {E A} (f : A -> result E unit) l :
  try_for_each f l = Ok tt <-> Forall (fun a => f a = Ok tt) l.
Proof.
  induction l as [|a l IH]; simpl.
  { split; [constructor|done]. }
  rewrite Forall_cons. destruct (f a) as [[]|e]; [rewrite IH; tauto|]. naive_solver.
Qed.

(** ** Little-endian integers *)

(** [to_le_bytes] of an unsigned integer of [n] bytes, and [from_le_bytes]. *)
Fixpoint to_le (n : nat) (z : Z) : list Z :=
  match n with
  | O => []
  | S n' => (z mod 256)%Z :: to_le n' (z / 256)%Z
  end.

Fixpoint from_le (bs : list Z) : Z :=
  match bs with
  | [] => 0%Z
  | b :: bs' => (b + 256 * from_le bs')%Z
  end.

Lemma length_to_le n z : length (to_le n z) = n.
Proof. revert z. induction n; simpl; auto. Qed.

Lemma from_to_le n z : (0 <= z < 256 ^ Z.of_nat n)%Z -> from_le (to_le n z) = z.
Proof.
  revert z. induction n as [|n IH]; intros z Hz; cbn [to_le from_le].
  - rewrite Nat2Z.inj_0 in Hz. simpl in Hz. lia.
  - rewrite Nat2Z.inj_succ, Z.pow_succ_r in Hz by lia.
    rewrite IH; [|split; [apply Z.div_pos; lia|apply Z.div_lt_upper_bound; lia]].
    pose proof (Z.div_mod z 256). lia.
Qed.

Lemma to_le_bytes_ok n z : Forall (fun b => 0 <= b < 256)%Z (to_le n z).
Proof.
  revert z. induction n as [|n IH]; intros z; constructor; [|apply IH].
  apply Z.mod_pos_bound. lia.
Qed.

(** Machine-width bounds and saturating signed arithmetic ([i64]). *)
Definition u32_max : Z := 2 ^ 32 - 1.
Definition i64_min : Z := - 2 ^ 63.
Definition i64_max : Z := 2 ^ 63 - 1.
Definition i64_sat (z : Z) : Z := Z.max i64_min (Z.min i64_max z).
Definition is_i64 (z : Z) : Prop := (i64_min <= z <= i64_max)%Z.

Lemma i64_sat_range z : is_i64 (i64_sat z).
Proof. unfold is_i64, i64_sat, i64_min, i64_max. lia. Qed.

Lemma i64_sat_id z : is_i64 z -> i64_sat z = z.
Proof. unfold is_i64, i64_sat, i64_min, i64_max. lia. Qed.
