(* ===== verification/Glob.v ===== *)
(** * Glob: the GLOB matcher of [src/src/glob/mod.rs]

    [glob_match] walks the pattern and the text with two indices and one
    remembered [*]; on a mismatch it returns to that star and lets it swallow
    one more character.  [gmatch] is the declarative meaning of a pattern, and
    [glob_match_spec] shows that backtracking to the last star alone is enough
    to decide it.  The loop is run on fuel; [glob_loop_total] shows that the
    fuel given always suffices. *)
From S2P Require Import Prelude.

Local Open Scope N_scope.

Definition c_star : char := chr "*".
Definition c_quest : char := chr "?".
Definition c_lbr : char := chr "[".
Definition c_rbr : char := chr "]".
Definition c_bang : char := chr "!".
Definition c_caret : char := chr "^".
Definition c_dash : char := chr "-".

(** The scan of [match_class] after the negation mark: [i] characters of the
    class were consumed, [matched] is the accumulated answer. *)
Fixpoint class_scan (cs : list char) (ch : char) (matched : bool) (i : nat)
  : option (bool * nat) :=
  match cs with
  | [] => None
  | c :: rest =>
      if c =? c_rbr then Some (matched, S i)
      else
        match rest with
        | d :: hi :: rest' =>
            if (d =? c_dash) && negb (hi =? c_rbr)
            then class_scan rest' ch (matched || ((c <=? ch) && (ch <=? hi))) (3 + i)
            else class_scan rest ch (matched || (c =? ch)) (1 + i)
        | _ => class_scan rest ch (matched || (c =? ch)) (1 + i)
        end
  end.

(** [match_class]: the class after a [[], and how many characters it took. *)
Definition match_class (class_chars : list char) (ch : char) : option (bool * nat) :=
  let negate := match class_chars with
                | c :: _ => (c =? c_bang) || (c =? c_caret)
                | [] => false
                end in
  match class_scan (if negate then tail class_chars else class_chars) ch false
          (if negate then 1 else 0)%nat with
  | None => None
  | Some (matched, i) => Some (if negate then negb matched else matched, i)
  end.

(** The state of the loop of [match_pattern]. *)
Record gstate := GState {
  g_pi : nat;
  g_ti : nat;
  g_star_pi : option nat;
  g_star_ti : nat
}.

(** [while pi < pat.len() && pat[pi] == '*' { pi += 1 }]. *)
Fixpoint skip_stars (p : list char) (pi : nat) : nat :=
  match p with
  | c :: p' => if c =? c_star then skip_stars p' (S pi) else pi
  | [] => pi
  end.

(** The backtracking tail of the loop body. *)
Definition glob_backtrack (txt : list char) (s : gstate) : gstate + bool :=
  match g_star_pi s with
  | Some spi =>
      if (S (g_star_ti s) <=? length txt)%nat
      then inl (GState spi (S (g_star_ti s)) (Some spi) (S (g_star_ti s)))
      else inr false
  | None => inr false
  end.

(** One iteration of the loop of [match_pattern]: the next state, or the
    returned value. *)
Definition glob_step (pat txt : list char) (s : gstate) : gstate + bool :=
  let advance (k : nat) :=
    inl (GState (g_pi s + k) (S (g_ti s)) (g_star_pi s) (g_star_ti s)) in
  match pat !! g_pi s with
  | Some pc =>
      if pc =? c_star then
        let pi := skip_stars (drop (g_pi s) pat) (g_pi s) in
        if (pi =? length pat)%nat then inr true
        else inl (GState pi (g_ti s) (Some pi) (g_ti s))
      else if pc =? c_quest then
        if (g_ti s <? length txt)%nat then advance 1%nat else glob_backtrack txt s
      else if pc =? c_lbr then
        match match_class (drop (S (g_pi s)) pat) (default 0 (txt !! g_ti s)) with
        | Some (matched, consumed) =>
            if (g_ti s <? length txt)%nat && matched
            then advance (1 + consumed)%nat else glob_backtrack txt s
        | None =>
            if bool_decide (txt !! g_ti s = Some c_lbr)
            then advance 1%nat else glob_backtrack txt s
        end
      else if bool_decide (txt !! g_ti s = Some pc)
      then advance 1%nat else glob_backtrack txt s
  | None => if (g_ti s =? length txt)%nat then inr true else glob_backtrack txt s
  end.

Fixpoint glob_loop (fuel : nat) (pat txt : list char) (s : gstate) : option bool :=
  match fuel with
  | O => None
  | S fuel' =>
      match glob_step pat txt s with
      | inl s' => glob_loop fuel' pat txt s'
      | inr b => Some b
      end
  end.

(** Iterations the loop can make: the position of the star never moves left,
    for one star its text position only grows, and in between the pattern
    index only grows. *)
Definition glob_measure (pat txt : list char) (s : gstate) : nat :=
  let P := length pat in let T := length txt in
  (match g_star_pi s with Some spi => P - spi | None => S P end)
    * (S (S T) * S P)
  + (S T - g_star_ti s) * S P
  + (P - g_pi s).

Definition glob_init : gstate := GState 0 0 None 0.

Definition match_pattern (pat txt : list char) : bool :=
  default false
    (glob_loop (S (glob_measure pat txt glob_init)) pat txt glob_init).

Definition glob_match (pattern text : rstring) : bool :=
  match_pattern pattern text.

Definition glob_match_ascii_ci (pattern text : rstring) : bool :=
  match_pattern (str_to_lower pattern) (str_to_lower text).

(** ** The meaning of a pattern *)

(** [gmatch p t]: the whole text [t] is an instance of the pattern [p]. *)
Inductive gmatch : list char -> list char -> Prop :=
| gm_nil : gmatch [] []
| gm_star_end p t : gmatch p t -> gmatch (c_star :: p) t
| gm_star_more p c t : gmatch (c_star :: p) t -> gmatch (c_star :: p) (c :: t)
| gm_quest p c t : gmatch p t -> gmatch (c_quest :: p) (c :: t)
| gm_class p c t n :
    match_class p c = Some (true, n) ->
    gmatch (drop n p) t -> gmatch (c_lbr :: p) (c :: t)
| gm_lbr p t :
    match_class p c_lbr = None ->
    gmatch p t -> gmatch (c_lbr :: p) (c_lbr :: t)
| gm_lit p c t :
    c <> c_star -> c <> c_quest -> c <> c_lbr ->
    gmatch p t -> gmatch (c :: p) (c :: t).

(** ** Classes: the characters taken do not depend on the character tested *)

Lemma class_scan_cons c rest ch m i :
  class_scan (c :: rest) ch m i =
  if c =? c_rbr then Some (m, S i)
  else
    match rest with
    | d :: hi :: rest' =>
        if (d =? c_dash) && negb (hi =? c_rbr)
        then class_scan rest' ch (m || ((c <=? ch) && (ch <=? hi))) (3 + i)
        else class_scan rest ch (m || (c =? ch)) (1 + i)
    | _ => class_scan rest ch (m || (c =? ch)) (1 + i)
    end.
Proof. done. Qed.

Lemma class_scan_len ch1 ch2 n : forall cs m1 m2 i,
  (length cs <= n)%nat ->
  snd <$> class_scan cs ch1 m1 i = snd <$> class_scan cs ch2 m2 i.
Proof.
  induction n as [|n IH]; intros [|c rest] m1 m2 i Hn; simpl in Hn; try lia; try done.
  rewrite !class_scan_cons.
  repeat case_match; try done; apply IH; simpl in *; lia.
Qed.

Lemma class_scan_bound ch n : forall cs m i b k,
  (length cs <= n)%nat ->
  class_scan cs ch m i = Some (b, k) -> (i < k <= i + length cs)%nat.
Proof.
  induction n as [|n IH]; intros [|c rest] m i b k Hn H; simpl in Hn; try lia; try done.
  rewrite class_scan_cons in H. simpl length.
  repeat case_match; simplify_eq; try lia;
    apply IH in H; simpl in *; lia.
Qed.

Lemma match_class_len cs ch1 ch2 :
  snd <$> match_class cs ch1 = snd <$> match_class cs ch2.
Proof.
  unfold match_class.
  set (neg := match cs with c :: _ => _ | [] => _ end).
  pose proof (class_scan_len ch1 ch2 _ (if neg then tail cs else cs) false false
    (if neg then 1 else 0)%nat (le_n _)) as H.
  destruct (class_scan _ ch1 _ _) as [[b1 k1]|],
    (class_scan _ ch2 _ _) as [[b2 k2]|]; naive_solver.
Qed.

Lemma match_class_bound cs ch b k :
  match_class cs ch = Some (b, k) -> (1 <= k <= length cs)%nat.
Proof.
  unfold match_class. destruct cs as [|c cs]; [done|].
  destruct ((c =? c_bang) || (c =? c_caret)); cbn [tail].
  all: destruct (class_scan _ _ _ _) as [[b' k']|] eqn:E; [|done].
  all: intros [= <- <-]; eapply class_scan_bound in E; [|done]; simpl in *; lia.
Qed.

(** ** One pattern element *)

(** What is left of the pattern after the non-star element that starts with
    [c], and whether that element accepts the character [x]. *)
Definition head_rest (c : char) (p : list char) : list char :=
  if c =? c_lbr then
    match match_class p 0 with Some (_, n) => drop n p | None => p end
  else p.

Definition head_ok (c : char) (p : list char) (x : char) : bool :=
  if c =? c_quest then true
  else if c =? c_lbr then
    match match_class p x with Some (b, _) => b | None => x =? c_lbr end
  else x =? c.

Lemma match_class_rest p x :
  match match_class p x with Some (_, n) => drop n p | None => p end
  = match match_class p 0 with Some (_, n) => drop n p | None => p end.
Proof.
  pose proof (match_class_len p x 0) as H.
  destruct (match_class p x) as [[? ?]|], (match_class p 0) as [[? ?]|];
    naive_solver.
Qed.

Lemma gmatch_cons c p t :
  c <> c_star ->
  gmatch (c :: p) t <->
  match t with
  | [] => False
  | x :: t' => head_ok c p x = true /\ gmatch (head_rest c p) t'
  end.
Proof.
  intros Hc. split.
  - intros H. inversion H; subst; try done; unfold head_ok, head_rest; simpl.
    + match goal with E : match_class _ _ = _ |- _ =>
        rewrite <- (match_class_rest _ c0), E end. by split.
    + match goal with E : match_class _ _ = _ |- _ =>
        rewrite <- (match_class_rest _ c_lbr), E end. by split.
    + repeat match goal with E : c <> _ |- _ => apply N.eqb_neq in E; try rewrite E end.
      by rewrite N.eqb_refl.
  - destruct t as [|x t]; [done|]. unfold head_ok, head_rest.
    destruct (N.eqb_spec c c_quest) as [->|Hq]; simpl.
    { intros [_ ?]. by constructor. }
    destruct (N.eqb_spec c c_lbr) as [->|Hl].
    + rewrite <- (match_class_rest _ x).
      destruct (match_class p x) as [[b n]|] eqn:E.
      * intros [-> ?]. by eapply gm_class.
      * intros [->%N.eqb_eq ?]. by apply gm_lbr.
    + intros [->%N.eqb_eq ?]. by apply gm_lit.
Qed.

Lemma gmatch_nil t : gmatch [] t <-> t = [].
Proof. split; [by inversion 1|intros ->; constructor]. Qed.

Lemma gmatch_star p t :
  gmatch (c_star :: p) t <-> exists k, (k <= length t)%nat /\ gmatch p (drop k t).
Proof.
  split.
  - remember (c_star :: p) as q eqn:E. induction 1; simplify_eq.
    + exists 0%nat. rewrite drop_0. split; [lia|done].
    + destruct IHgmatch as (k & ? & ?); [done|]. exists (S k). simpl. split; [lia|done].
  - intros (k & Hk & H). revert t Hk H.
    induction k as [|k IH]; intros t Hk H.
    + rewrite drop_0 in H. by constructor.
    + destruct t as [|x t]; simpl in *; [lia|].
      apply gm_star_more, IH; [lia|done].
Qed.

(** [ones m p p']: the pattern [p] starts with [m] non-star elements and
    continues as [p']. *)
Inductive ones : nat -> list char -> list char -> Prop :=
| ones_0 p : ones 0 p p
| ones_S m c p p' :
    c <> c_star -> ones m (head_rest c p) p' -> ones (S m) (c :: p) p'.

Lemma ones_snoc m p c q :
  c <> c_star -> ones m p (c :: q) -> ones (S m) p (head_rest c q).
Proof.
  intros Hc H. remember (c :: q) as r eqn:E. induction H; simplify_eq.
  - by repeat constructor.
  - constructor; auto.
Qed.

Lemma ones_gmatch m p p' t :
  ones m p p' -> gmatch p t -> (m <= length t)%nat /\ gmatch p' (drop m t).
Proof.
  intros H. revert t. induction H as [p|m c p p' Hc _ IH]; intros t Ht.
  - rewrite drop_0. split; [lia|done].
  - apply gmatch_cons in Ht; [|done]. destruct t as [|x t]; [done|].
    destruct Ht as [_ Ht]. apply IH in Ht as [??]. simpl. split; [lia|done].
Qed.

(** ** The loop *)

Ltac gsimpl := cbn [g_pi g_ti g_star_pi g_star_ti] in *.

Section loop.
Context (pat txt : list char).

(** What every reachable state satisfies: between the remembered star and
    the pattern index lie exactly the single elements that matched the
    characters between the star's text position and the text index. *)
Definition loop_inv (s : gstate) : Prop :=
  (g_pi s <= length pat)%nat /\ (g_ti s <= length txt)%nat /\
  match g_star_pi s with
  | Some spi =>
      (spi <= g_pi s)%nat /\ (g_star_ti s <= g_ti s)%nat /\
      ones (g_ti s - g_star_ti s) (drop spi pat) (drop (g_pi s) pat)
  | None => g_star_ti s = 0%nat
  end.

(** What the state still has to decide: the rest of the pattern matches the
    rest of the text, or some later choice for the star does. *)
Definition loop_goal (s : gstate) : Prop :=
  gmatch (drop (g_pi s) pat) (drop (g_ti s) txt) \/
  match g_star_pi s with
  | Some spi =>
      exists k, (g_star_ti s < k <= length txt)%nat /\
        gmatch (drop spi pat) (drop k txt)
  | None => False
  end.

Definition step_ok (s : gstate) (r : gstate + bool) : Prop :=
  match r with
  | inl s' =>
      loop_inv s' /\ (loop_goal s <-> loop_goal s') /\
      (glob_measure pat txt s' < glob_measure pat txt s)%nat
  | inr b => b = true <-> loop_goal s
  end.

Lemma backtrack_ok s :
  loop_inv s ->
  ~ gmatch (drop (g_pi s) pat) (drop (g_ti s) txt) ->
  step_ok s (glob_backtrack txt s).
Proof.
  destruct s as [pi ti [spi|] sti]; unfold glob_backtrack, loop_inv; gsimpl;
    intros (Hpi & Hti & Hs) Hno.
  2: { unfold step_ok, loop_goal; gsimpl. naive_solver. }
  destruct Hs as (Hle & Hsti & Hones).
  destruct (S sti <=? length txt)%nat eqn:E; bdestr; unfold step_ok, loop_inv; gsimpl; cycle 1.
  { unfold loop_goal; gsimpl. split; [done|]. intros [?|(k & ? & _)]; [done|lia]. }
  split_and!; [lia..|rewrite Nat.sub_diag; constructor| |unfold glob_measure; simpl; nia].
  unfold loop_goal; simpl. split.
  - intros [?|(k & ? & ?)]; [done|].
    destruct (decide (k = S sti)) as [->|]; [by left|].
    right. exists k. split; [lia|done].
  - intros [?|(k & ? & ?)]; right; [exists (S sti)|exists k]; (split; [lia|done]).
Qed.

(** The remembered star never has to be reconsidered once a new star is
    met: whatever an older choice would match, the newer star matches. *)
Lemma star_subsumes s p :
  loop_inv s -> drop (g_pi s) pat = c_star :: p ->
  loop_goal s <-> gmatch (c_star :: p) (drop (g_ti s) txt).
Proof.
  destruct s as [pi ti star sti]; unfold loop_inv, loop_goal; simpl.
  intros (Hpi & Hti & Hs) Hd. rewrite Hd. split; [|by left].
  intros [?|H]; [done|]. destruct star as [spi|]; [|done].
  destruct Hs as (_ & Hsti & Hones); destruct H as (k & Hk & Hm).
  rewrite Hd in Hones. eapply ones_gmatch in Hones as [Hlen Hm']; [|done].
  rewrite drop_drop, gmatch_star in Hm'. rewrite gmatch_star.
  destruct Hm' as (j & Hj & Hm'). rewrite length_drop in *.
  exists (k + (ti - sti) + j - ti)%nat. rewrite drop_drop in Hm' |- *.
  split; [lia|]. replace (ti + _)%nat with (k + (ti - sti) + j)%nat by lia. done.
Qed.

Lemma skip_stars_spec p pi :
  exists n, skip_stars p pi = (pi + n)%nat /\ p = replicate n c_star ++ drop n p /\
    hd_error (drop n p) <> Some c_star.
Proof.
  revert pi. induction p as [|c p IH]; intros pi; simpl.
  { exists 0%nat. split_and!; [lia|done|done]. }
  destruct (N.eqb_spec c c_star) as [->|Hc].
  - destruct (IH (S pi)) as (n & -> & Hp & Hh). exists (S n). simpl.
    split_and!; [lia|by f_equal|done].
  - exists 0%nat. simpl. split_and!; [lia|done|congruence].
Qed.

Lemma gmatch_stars n p t :
  gmatch (c_star :: replicate n c_star ++ p) t <-> gmatch (c_star :: p) t.
Proof.
  revert t. induction n as [|n IH]; intros t; simpl; [done|].
  rewrite gmatch_star. setoid_rewrite IH. setoid_rewrite gmatch_star. split.
  - intros (k & ? & j & ? & H). rewrite length_drop, drop_drop in *.
    exists (k + j)%nat. split; [lia|done].
  - intros (k & ? & H). exists 0%nat. split; [lia|]. rewrite drop_0. eauto.
Qed.

Lemma advance_ok s c p x t k :
  loop_inv s -> c <> c_star ->
  drop (g_pi s) pat = c :: p -> drop (g_ti s) txt = x :: t ->
  head_ok c p x = true ->
  drop (g_pi s + k) pat = head_rest c p -> (1 <= k <= S (length p))%nat ->
  step_ok s (inl (GState (g_pi s + k) (S (g_ti s)) (g_star_pi s) (g_star_ti s))).
Proof.
  destruct s as [pi ti star sti]; unfold step_ok, loop_inv; simpl.
  intros (Hpi & Hti & Hs) Hc Hp Ht Hok Hrest Hk.
  assert (length pat - pi = S (length p))%nat as HlP
    by (rewrite <- length_drop, Hp; done).
  assert (length txt - ti = S (length t))%nat as HlT
    by (rewrite <- length_drop, Ht; done).
  assert (drop (S ti) txt = t) as Ht'.
  { replace (S ti) with (ti + 1)%nat by lia. by rewrite <- drop_drop, Ht. }
  split_and!; [lia|lia| | |].
  - destruct star as [spi|]; [|done]. destruct Hs as (? & ? & Hones).
    split_and!; [lia|lia|]. rewrite Hrest.
    replace (S ti - sti)%nat with (S (ti - sti)) by lia.
    apply ones_snoc; [done|]. by rewrite <- Hp.
  - unfold loop_goal; simpl. rewrite Hp, Ht, Ht', Hrest, gmatch_cons by done.
    naive_solver.
  - unfold glob_measure; simpl. lia.
Qed.

Lemma no_match_ok s c p :
  loop_inv s -> c <> c_star -> drop (g_pi s) pat = c :: p ->
  (forall x t, drop (g_ti s) txt = x :: t -> head_ok c p x = false) ->
  step_ok s (glob_backtrack txt s).
Proof.
  intros Hinv Hc Hp Hno. apply backtrack_ok; [done|].
  rewrite Hp, gmatch_cons by done.
  destruct (drop (g_ti s) txt) as [|x t] eqn:E; [tauto|].
  rewrite (Hno x t) by done. by intros [??].
Qed.

Lemma drop_head (l : list char) i c :
  l !! i = Some c -> drop i l = c :: drop (S i) l.
Proof. apply drop_S. Qed.

Lemma drop_lookup_head (l : list char) i c r :
  drop i l = c :: r -> l !! i = Some c.
Proof. intros H. by rewrite <- (Nat.add_0_r i), <- lookup_drop, H. Qed.

(** A literal element: [[] of an unterminated class, or any other
    character. *)
Lemma literal_ok s c q :
  loop_inv s -> pat !! g_pi s = Some c -> c <> c_star ->
  head_rest c (drop (S (g_pi s)) pat) = drop (S (g_pi s)) pat ->
  (forall x, head_ok c (drop (S (g_pi s)) pat) x = bool_decide (x = q)) ->
  step_ok s
    (if bool_decide (txt !! g_ti s = Some q)
     then inl (GState (g_pi s + 1) (S (g_ti s)) (g_star_pi s) (g_star_ti s))
     else glob_backtrack txt s).
Proof.
  intros Hinv Hc Hns Hrest Hok. apply drop_head in Hc. case_bool_decide as Ht.
  - apply drop_head in Ht. eapply advance_ok; try done.
    + by rewrite Hok, bool_decide_eq_true.
    + by rewrite Hrest, Nat.add_1_r.
    + lia.
  - eapply no_match_ok; try done.
    intros x t Hx%drop_lookup_head. rewrite Hok, bool_decide_eq_false. congruence.
Qed.

(** A star: the run of stars is collapsed and its end remembered. *)
Lemma star_ok s :
  loop_inv s -> pat !! g_pi s = Some c_star ->
  step_ok s
    (let pi := skip_stars (drop (g_pi s) pat) (g_pi s) in
     if (pi =? length pat)%nat then inr true
     else inl (GState pi (g_ti s) (Some pi) (g_ti s))).
Proof.
  intros Hinv Hc. pose proof (drop_head _ _ _ Hc) as Hd. cbv zeta.
  destruct (skip_stars_spec (drop (g_pi s) pat) (g_pi s)) as (n & -> & Hp & Hh).
  rewrite drop_drop in Hp, Hh. destruct n as [|n]; [by rewrite Nat.add_0_r, Hd in Hh|].
  pose proof (star_subsumes s _ Hinv Hd) as Hsub.
  rewrite Hd in Hp; cbn [replicate app] in Hp; injection Hp as Hp.
  rewrite Hp, gmatch_stars in Hsub.
  pose proof Hinv as (Hpi & Hti & Hs).
  destruct (Nat.eqb_spec (g_pi s + S n) (length pat)) as [E|E].
  - rewrite drop_ge in Hsub by lia. split; [intros _; apply Hsub|done].
    apply gmatch_star. exists (length (drop (g_ti s) txt)).
    rewrite drop_all. split; [lia|constructor].
  - assert (g_pi s + S n < length pat)%nat as Hlt.
    { destruct (drop (g_pi s + S n) pat) as [|y r] eqn:E'.
      - apply lookup_lt_Some in Hc. apply (f_equal length) in Hp.
        rewrite length_drop, length_app, length_replicate in Hp. simpl in Hp. lia.
      - apply drop_lookup_head, lookup_lt_Some in E'. done. }
    unfold step_ok, loop_inv; gsimpl. split_and!; [lia..|rewrite Nat.sub_diag; constructor| |].
    + rewrite Hsub, gmatch_star. unfold loop_goal; gsimpl. split.
      * intros (k & Hk & H). rewrite length_drop, drop_drop in *.
        destruct k as [|k]; [left; by rewrite Nat.add_0_r in H|].
        right. exists (g_ti s + S k)%nat. split; [lia|done].
      * intros [H|(k & Hk & H)]; [exists 0%nat; rewrite drop_0; split; [lia|done]|].
        exists (k - g_ti s)%nat. rewrite length_drop, drop_drop. split; [lia|].
        by replace (g_ti s + (k - g_ti s))%nat with k by lia.
    + unfold glob_measure; gsimpl. destruct (g_star_pi s); nia.
Qed.

(** A class, terminated or not. *)
Lemma class_ok s :
  loop_inv s -> pat !! g_pi s = Some c_lbr ->
  step_ok s
    (match match_class (drop (S (g_pi s)) pat) (default 0 (txt !! g_ti s)) with
     | Some (matched, consumed) =>
         if (g_ti s <? length txt)%nat && matched
         then inl (GState (g_pi s + (1 + consumed)) (S (g_ti s)) (g_star_pi s) (g_star_ti s))
         else glob_backtrack txt s
     | None =>
         if bool_decide (txt !! g_ti s = Some c_lbr)
         then inl (GState (g_pi s + 1) (S (g_ti s)) (g_star_pi s) (g_star_ti s))
         else glob_backtrack txt s
     end).
Proof.
  intros Hinv Hc. pose proof (drop_head _ _ _ Hc) as Hd.
  assert (c_lbr <> c_star) as Hstar by (by vm_compute).
  set (p := drop (S (g_pi s)) pat) in *.
  destruct (match_class p (default 0 (txt !! g_ti s))) as [[b n]|] eqn:E; cycle 1.
  { apply (literal_ok s c_lbr c_lbr); try done; fold p; unfold head_rest, head_ok; simpl.
    - pose proof (match_class_rest p (default 0 (txt !! g_ti s))) as Hr.
      rewrite E in Hr. by rewrite <- Hr.
    - intros x. pose proof (match_class_len p (default 0 (txt !! g_ti s)) x) as Hl.
      rewrite E in Hl. destruct (match_class p x); [done|].
      destruct (N.eqb_spec x c_lbr); case_bool_decide; congruence. }
  destruct (txt !! g_ti s) as [x|] eqn:Ht; cycle 1.
  { apply lookup_ge_None in Ht. rewrite (proj2 (Nat.ltb_ge _ _)) by lia. simpl.
    eapply no_match_ok; try done. intros y t Hy%drop_lookup_head%lookup_lt_Some. lia. }
  pose proof (lookup_lt_Some _ _ _ Ht) as Hlt. apply drop_head in Ht. simpl in E.
  rewrite (proj2 (Nat.ltb_lt _ _)) by lia. destruct b; simpl.
  - eapply advance_ok; try done.
    + unfold head_ok; simpl. by rewrite E.
    + unfold head_rest; simpl. rewrite <- (match_class_rest p x), E.
      unfold p. rewrite drop_drop. f_equal. lia.
    + apply match_class_bound in E. lia.
  - eapply no_match_ok; try done. intros y t Hy. rewrite Ht in Hy. injection Hy as <- <-.
    unfold head_ok; simpl. by rewrite E.
Qed.

Lemma glob_step_ok s : loop_inv s -> step_ok s (glob_step pat txt s).
Proof.
  intros Hinv. unfold glob_step.
  destruct (pat !! g_pi s) as [c|] eqn:Hc; cycle 1.
  { (* the pattern is exhausted *)
    apply lookup_ge_None in Hc. pose proof Hinv as (? & ? & _).
    assert (drop (g_pi s) pat = []) as Hp by (apply drop_ge; lia).
    destruct (Nat.eqb_spec (g_ti s) (length txt)) as [Ht|Ht].
    - split; [intros _; left|done].
      rewrite Hp, drop_ge by lia. constructor.
    - apply backtrack_ok; [done|]. rewrite Hp, gmatch_nil.
      intros Hd%(f_equal length). rewrite length_drop in Hd. simpl in Hd. lia. }
  pose proof (drop_head _ _ _ Hc) as Hd.
  destruct (N.eqb_spec c c_star) as [->|Hstar].
  { eapply star_ok; eauto. }
  destruct (N.eqb_spec c c_quest) as [->|Hq].
  { destruct (g_ti s <? length txt)%nat eqn:Ht; bdestr.
    - apply lookup_lt_is_Some in Ht as [x Ht%drop_head].
      eapply advance_ok; try done; [by rewrite Nat.add_1_r|lia].
    - eapply no_match_ok; try done. intros x t Hx%drop_lookup_head%lookup_lt_Some. lia. }
  destruct (N.eqb_spec c c_lbr) as [->|Hl]; cycle 1.
  { apply (literal_ok s c c); try done; unfold head_rest, head_ok.
    - by rewrite (proj2 (N.eqb_neq _ _) Hl).
    - intros x. rewrite (proj2 (N.eqb_neq _ _) Hl), (proj2 (N.eqb_neq _ _) Hq).
      destruct (N.eqb_spec x c); case_bool_decide; congruence. }
  by apply class_ok.
Qed.

Lemma glob_loop_ok fuel s :
  loop_inv s -> (glob_measure pat txt s < fuel)%nat ->
  exists b, glob_loop fuel pat txt s = Some b /\ (b = true <-> loop_goal s).
Proof.
  revert s. induction fuel as [|fuel IH]; intros s Hinv Hm; [lia|]. simpl.
  pose proof (glob_step_ok s Hinv) as Hok.
  destruct (glob_step pat txt s) as [s'|b]; [|by exists b].
  destruct Hok as (Hinv' & Hiff & Hlt).
  destruct (IH s' Hinv') as (b & ? & ?); [lia|].
  exists b. by rewrite Hiff.
Qed.
End loop.

Lemma glob_init_inv pat txt : loop_inv pat txt glob_init.
Proof. unfold loop_inv, glob_init; simpl. lia. Qed.

(** the matching loop terminates on every pattern and text: the fuel of
    [match_pattern] is never exhausted, so [glob_match] always returns. *)
Theorem glob_loop_total pat txt :
  exists b, glob_loop (S (glob_measure pat txt glob_init)) pat txt glob_init = Some b.
Proof.
  destruct (glob_loop_ok pat txt (S (glob_measure pat txt glob_init)) glob_init)
    as (b & H & _); [apply glob_init_inv|lia|eauto].
Qed.

Lemma match_pattern_gmatch pat txt : match_pattern pat txt = true <-> gmatch pat txt.
Proof.
  unfold match_pattern.
  destruct (glob_loop_ok pat txt (S (glob_measure pat txt glob_init)) glob_init)
    as (b & -> & Hb); [apply glob_init_inv|lia|].
  simpl. rewrite Hb. unfold loop_goal; simpl. rewrite !drop_0. tauto.
Qed.

(** C31: the iterative matcher with one remembered star decides exactly the
    declarative meaning of patterns. *)
Theorem glob_match_spec pattern text :
  glob_match pattern text = true <-> gmatch pattern text.
Proof. apply match_pattern_gmatch. Qed.

Example glob_ex1 : glob_match (lit "src/*.r[a-z]") (lit "src/a.b.rs") = true.
Proof. vm_compute. reflexivity. Qed.
Example glob_ex2 : glob_match (lit "a*b?[!x-z]c") (lit "aXbbbyc") = false.
Proof. vm_compute. reflexivity. Qed.
Example glob_ex3 : glob_match_ascii_ci (lit "*.MD") (lit "README.md") = true.
Proof. vm_compute. reflexivity. Qed.
