(* ===== verification/Floats.v ===== *)
(** * Floats: IEEE-754 [f32] and [f64] by their bit patterns

    A float is stored, copied and serialized by its bits, so an [f32] is a
    [Z] in [0, 2^32) and an [f64] a [Z] in [0, 2^64) ([f32::to_bits]).
    Arithmetic decodes the bits into the Standard Library's [spec_float],
    which computes with the rounding of IEEE-754 (round to nearest, ties to
    even), and encodes the result; a NaN result is the canonical quiet NaN, as
    Rust leaves its payload unspecified. *)
From S2P Require Import Prelude.
From Stdlib Require Import SpecFloat.

Local Open Scope Z_scope.

Section format.
(** Mantissa and exponent widths. *)
Context (mw ew : Z).

Definition f_prec : Z := mw + 1.
Definition f_emax : Z := 2 ^ (ew - 1).
Definition f_emin : Z := 3 - f_emax - f_prec.

Definition sf_of_bits (b : Z) : spec_float :=
  let s := Z.testbit b (mw + ew) in
  let e := (b / 2 ^ mw) mod 2 ^ ew in
  let m := b mod 2 ^ mw in
  if e =? 0 then
    match m with Zpos p => S754_finite s p f_emin | _ => S754_zero s end
  else if e =? 2 ^ ew - 1 then
    if m =? 0 then S754_infinity s else S754_nan
  else
    match m + 2 ^ mw with
    | Zpos p => S754_finite s p (e + f_emin - 1)
    | _ => S754_nan
    end.

Definition join_bits (s : bool) (m e : Z) : Z :=
  (if s then 2 ^ (mw + ew) else 0) + e * 2 ^ mw + m.

(** Cut to the width of the format, which no valid float exceeds. *)
Definition bits_of_sf (x : spec_float) : Z :=
  (match x with
  | S754_zero s => join_bits s 0 0
  | S754_infinity s => join_bits s 0 (2 ^ ew - 1)
  | S754_nan => join_bits false (2 ^ (mw - 1)) (2 ^ ew - 1)
  | S754_finite s p e =>
      if Zpos p <? 2 ^ mw then join_bits s (Zpos p) 0
      else join_bits s (Zpos p - 2 ^ mw) (e - f_emin + 1)
  end) mod 2 ^ (1 + (mw + ew)).

Definition fop1 (op : spec_float -> spec_float) (a : Z) : Z :=
  bits_of_sf (op (sf_of_bits a)).
Definition fop2 (op : spec_float -> spec_float -> spec_float) (a b : Z) : Z :=
  bits_of_sf (op (sf_of_bits a) (sf_of_bits b)).

Definition f_add := fop2 (SFadd f_prec f_emax).
Definition f_sub := fop2 (SFsub f_prec f_emax).
Definition f_mul := fop2 (SFmul f_prec f_emax).
Definition f_div := fop2 (SFdiv f_prec f_emax).
Definition f_sqrt := fop1 (SFsqrt f_prec f_emax).

(** [PartialOrd::partial_cmp]: [None] when either side is a NaN. *)
Definition f_partial_cmp (a b : Z) : option comparison :=
  SFcompare (sf_of_bits a) (sf_of_bits b).

(** [==], [<] of floats. *)
Definition f_eqb (a b : Z) : bool :=
  match f_partial_cmp a b with Some Eq => true | _ => false end.
Definition f_ltb (a b : Z) : bool :=
  match f_partial_cmp a b with Some Lt => true | _ => false end.
Definition f_leb (a b : Z) : bool :=
  match f_partial_cmp a b with Some Lt | Some Eq => true | _ => false end.

Definition f_is_nan (a : Z) : bool :=
  match sf_of_bits a with S754_nan => true | _ => false end.
Definition f_is_finite (a : Z) : bool :=
  match sf_of_bits a with S754_nan | S754_infinity _ => false | _ => true end.

(** [-a], [a.abs()], [a.max(b)]: the maximum ignores a NaN. *)
Definition f_opp := fop1 SFopp.
Definition f_abs := fop1 SFabs.
Definition f_max (a b : Z) : Z :=
  if f_is_nan a then b else if f_is_nan b then a else if f_ltb a b then b else a.

(** [a.round()], half away from zero, as an integer; [None] for an infinity or
    a NaN. *)
Definition f_round (a : Z) : option Z :=
  match sf_of_bits a with
  | S754_zero _ => Some 0
  | S754_finite s p e =>
      let r := if 0 <=? e then Zpos p * 2 ^ e else (Zpos p + 2 ^ (- e - 1)) / 2 ^ (- e) in
      Some (if s then - r else r)
  | _ => None
  end.

(** [a.round().clamp(lo, hi) as iN], for integers [lo <= hi] of the type: a NaN
    becomes [0]. *)
Definition f_round_clamp (lo hi a : Z) : Z :=
  match f_round a with
  | Some z => Z.max lo (Z.min hi z)
  | None =>
      match sf_of_bits a with
      | S754_infinity true => lo
      | S754_infinity false => hi
      | _ => 0
      end
  end.

(** An integer converted with [as]. *)
Definition f_of_Z (z : Z) : Z :=
  bits_of_sf (binary_normalize f_prec f_emax z 0 false).

(** [as usize]/[as u64] on a float: truncation, saturating at [0] and
    [2^64 - 1], NaN to [0]. *)
Definition f_to_u64 (a : Z) : Z :=
  match sf_of_bits a with
  | S754_finite false p e =>
      Z.min (2 ^ 64 - 1) (if 0 <=? e then Zpos p * 2 ^ e else Zpos p / 2 ^ (- e))
  | S754_infinity false => 2 ^ 64 - 1
  | _ => 0
  end.

Lemma f_partial_cmp_swap a b :
  f_partial_cmp b a = CompOpp <$> f_partial_cmp a b.
Proof.
  unfold f_partial_cmp.
  generalize (sf_of_bits a) (sf_of_bits b). intros x y.
  assert (forall p q, Pos.compare_cont Eq q p = CompOpp (Pos.compare_cont Eq p q)) as Hp
    by (intros p q; apply (Pos.compare_antisym p q)).
  destruct x as [[]|[]| |[] mx ex], y as [[]|[]| |[] my ey]; try done; simpl;
    rewrite (Z.compare_antisym ex ey); destruct (Z.compare ex ey); simpl; try done;
    rewrite (Hp mx my); by destruct (Pos.compare_cont Eq mx my).
Qed.

Lemma f_eqb_sym a b : f_eqb a b = f_eqb b a.
Proof.
  unfold f_eqb. rewrite (f_partial_cmp_swap a b).
  by destruct (f_partial_cmp a b) as [[]|].
Qed.

Lemma f_eqb_refl a : f_eqb a a = negb (f_is_nan a).
Proof.
  unfold f_eqb, f_partial_cmp, f_is_nan.
  destruct (sf_of_bits a) as [[]|[]| |[] m e]; try done; simpl;
    rewrite Z.compare_refl; change (Pos.compare_cont Eq m m) with (Pos.compare m m);
    by rewrite Pos.compare_refl.
Qed.
End format.

(** The two formats of the source. *)
Abbreviation f32 := Z (only parsing).
Abbreviation f64 := Z (only parsing).
Definition f32_add := f_add 23 8.
Definition f32_sub := f_sub 23 8.
Definition f32_mul := f_mul 23 8.
Definition f32_div := f_div 23 8.
Definition f32_sqrt := f_sqrt 23 8.
Definition f32_ltb := f_ltb 23 8.
Definition f32_leb := f_leb 23 8.
Definition f32_partial_cmp := f_partial_cmp 23 8.
Definition f32_is_finite := f_is_finite 23 8.
Definition f32_is_nan := f_is_nan 23 8.
Definition f32_opp := f_opp 23 8.
Definition f32_abs := f_abs 23 8.
Definition f32_max := f_max 23 8.
Definition f32_round_clamp := f_round_clamp 23 8.
Definition f32_of_Z := f_of_Z 23 8.
Definition f64_mul := f_mul 52 11.
Definition f64_eqb := f_eqb 52 11.
Definition f64_partial_cmp := f_partial_cmp 52 11.
Definition f64_is_nan := f_is_nan 52 11.
Definition f64_of_Z := f_of_Z 52 11.
Definition f64_to_u64 := f_to_u64 52 11.

(** Literals of the source, by their bits. *)
Definition f32_zero : f32 := 0.
Definition f32_neg_zero : f32 := 2 ^ 31.
Definition f32_half : f32 := 0x3F000000.
Definition f32_one : f32 := 0x3F800000.
Definition f32_ten : f32 := 0x41200000.
Definition f32_sixty : f32 := 0x42700000.
(** [1e-12] rounded to [f32]. *)
Definition f32_1e_12 : f32 := 0x2B8CBCCC.
Definition f64_half : f64 := 0x3FE0000000000000.

(** Lengths of the encodings on disk. *)
Definition f32_to_le_bytes (x : f32) : list Z := to_le 4 x.
Definition f32_from_le_bytes (bs : list Z) : f32 := from_le bs.
Definition is_f32 (x : f32) : Prop := 0 <= x < 2 ^ 32.

Lemma f32_le_roundtrip x : is_f32 x -> f32_from_le_bytes (f32_to_le_bytes x) = x.
Proof. intros H. apply from_to_le. exact H. Qed.

Example f32_ops_ex :
  f32_add f32_one f32_one = f32_of_Z 2 /\ f32_mul f32_ten f32_half = f32_of_Z 5 /\
  f32_div f32_one (f32_of_Z 2) = f32_half /\ f32_sqrt (f32_of_Z 9) = f32_of_Z 3 /\
  f32_of_Z 60 = f32_sixty.
Proof. vm_compute. repeat split; reflexivity. Qed.

(** [search::normalize]: scale to unit length, leaving a vector whose norm is
    near zero, infinite or NaN as it is. *)
Definition normalize (v : list f32) : list f32 :=
  let norm_sq := fold_left (fun acc x => f32_add acc (f32_mul x x)) v f32_neg_zero in
  let norm := f32_sqrt norm_sq in
  if f32_ltb norm f32_1e_12 || negb (f32_is_finite norm) then v
  else
    let inv := f32_div f32_one norm in
    map (fun x => f32_mul x inv) v.

Lemma f32_mul_range x y : is_f32 (f32_mul x y).
Proof. apply Z.mod_pos_bound. done. Qed.

Lemma normalize_range v : Forall is_f32 v -> Forall is_f32 (normalize v).
Proof.
  intros H. unfold normalize. case_match; [done|].
  apply Forall_map, Forall_forall. intros x _. apply f32_mul_range.
Qed.

Lemma length_normalize v : length (normalize v) = length v.
Proof. unfold normalize. case_match; [done|apply length_map]. Qed.

Example normalize_ex :
  normalize [f32_of_Z 3; f32_of_Z 4] = [0x3F19999A; 0x3F4CCCCD].
Proof. vm_compute. reflexivity. Qed.
