(* ===== verification/Sort.v ===== *)
(** * Sort: comparisons and sorting, as the query path uses them

    A Rust [Ord] is a three-way comparison function; [Ordering::then_with] is
    [cmp_then] and [Ordering::reverse] is [cmp_flip].  [slice::sort_by] is
    [sort_by], an insertion sort: the standard library's sort is stable, and a
    stable sort by a total preorder has one result ([sort_by_unique]).  The
    class [CmpOrder] is the contract of [Ord] that its clients rely on. *)
From S2P Require Import Prelude Floats.
From Stdlib Require Import SpecFloat.

Definition cmp_le {A} (cmp : A -> A -> comparison) (x y : A) : Prop := cmp x y <> Gt.

Class CmpOrder {A} (cmp : A -> A -> comparison) := {
  cmp_antisym (x y : A) : cmp y x = CompOpp (cmp x y);
  cmp_le_trans (x y z : A) : cmp_le cmp x y -> cmp_le cmp y z -> cmp_le cmp x z
}.

Arguments cmp_antisym {A} cmp {_} x y.
Arguments cmp_le_trans {A} cmp {_} x y z.

(** Orders whose [Eq] is equality. *)
Class CmpExact {A} (cmp : A -> A -> comparison) := cmp_eq (x y : A) : cmp x y = Eq -> x = y.

(** ** The combinators of [Ordering] *)

Definition cmp_then {A} (c1 c2 : A -> A -> comparison) (x y : A) : comparison :=
  match c1 x y with Eq => c2 x y | c => c end.
Definition cmp_flip {A} (c : A -> A -> comparison) (x y : A) : comparison := c y x.
Definition cmp_on {A B} (f : A -> B) (c : B -> B -> comparison) (x y : A) : comparison :=
  c (f x) (f y).

#[export] Typeclasses Opaque cmp_then cmp_flip cmp_on.

(** [partial_cmp(..).unwrap_or(Ordering::Equal)]. *)
Definition or_equal (c : option comparison) : comparison := default Eq c.

Section order.
Context {A : Type} (cmp : A -> A -> comparison) `{!CmpOrder cmp}.

Lemma cmp_refl x : cmp x x = Eq.
Proof. pose proof (cmp_antisym cmp x x). by destruct (cmp x x). Qed.

Lemma cmp_total x y : cmp_le cmp x y \/ cmp_le cmp y x.
Proof. unfold cmp_le. rewrite (cmp_antisym cmp x y). destruct (cmp x y); naive_solver. Qed.

Lemma cmp_gt_le x y : cmp x y = Gt -> cmp_le cmp y x.
Proof. unfold cmp_le. rewrite (cmp_antisym cmp x y). by intros ->. Qed.

Lemma cmp_eq_sym x y : cmp x y = Eq -> cmp y x = Eq.
Proof. rewrite (cmp_antisym cmp x y). by intros ->. Qed.

Lemma cmp_le_eq x y : cmp_le cmp x y -> cmp_le cmp y x -> cmp x y = Eq.
Proof. unfold cmp_le. rewrite (cmp_antisym cmp x y). by destruct (cmp x y). Qed.

Lemma cmp_eq_trans x y z : cmp x y = Eq -> cmp y z = Eq -> cmp x z = Eq.
Proof.
  intros H1 H2. apply cmp_le_eq.
  - apply (cmp_le_trans cmp x y z); unfold cmp_le; congruence.
  - apply (cmp_le_trans cmp z y x); unfold cmp_le; rewrite cmp_eq_sym; done.
Qed.

(** Comparing with equals. *)
Lemma cmp_eq_l x y z : cmp x y = Eq -> cmp x z = cmp y z.
Proof.
  intros H. pose proof (cmp_eq_sym _ _ H) as H'.
  assert (cmp_le cmp x z <-> cmp_le cmp y z) as H1.
  { split; [apply (cmp_le_trans cmp y x z)|apply (cmp_le_trans cmp x y z)]; unfold cmp_le; congruence. }
  assert (cmp_le cmp z x <-> cmp_le cmp z y) as H2.
  { split; intros Hz; [apply (cmp_le_trans cmp z x y)|apply (cmp_le_trans cmp z y x)];
      unfold cmp_le in *; congruence. }
  revert H1 H2. unfold cmp_le. rewrite (cmp_antisym cmp x z), (cmp_antisym cmp y z).
  destruct (cmp x z), (cmp y z); cbn; intros H1 H2; try done; exfalso;
    first [by apply H1|by apply H2|by apply H1; congruence|naive_solver].
Qed.

Lemma cmp_lt_le_trans x y z : cmp x y = Lt -> cmp_le cmp y z -> cmp x z = Lt.
Proof.
  intros H1 H2. assert (cmp_le cmp x z) as H3
    by (apply (cmp_le_trans cmp x y z); [unfold cmp_le; congruence|done]).
  destruct (cmp x z) eqn:E; [|done|done]. exfalso.
  rewrite (cmp_eq_l _ _ y E) in H1. unfold cmp_le in H2. rewrite (cmp_antisym cmp z y), H1 in H2. done.
Qed.

Lemma cmp_le_lt_trans x y z : cmp_le cmp x y -> cmp y z = Lt -> cmp x z = Lt.
Proof.
  intros H1 H2. destruct (cmp x z) eqn:E; [|done|]; exfalso.
  - apply (cmp_le_trans cmp z x y); [unfold cmp_le; by rewrite (cmp_eq_sym _ _ E)|done|].
    by rewrite (cmp_antisym cmp y z), H2.
  - apply (cmp_le_trans cmp z x y); [by apply cmp_gt_le|done|]. by rewrite (cmp_antisym cmp y z), H2.
Qed.
End order.

(** ** Instances *)

#[export] Instance nat_cmp_order : CmpOrder Nat.compare.
Proof.
  split; [intros; apply Nat.compare_antisym|]. unfold cmp_le. intros x y z.
  destruct (Nat.compare_spec x y), (Nat.compare_spec y z), (Nat.compare_spec x z); (done || lia).
Qed.
#[export] Instance N_cmp_order : CmpOrder N.compare.
Proof.
  split; [intros; apply N.compare_antisym|]. unfold cmp_le. intros x y z.
  destruct (N.compare_spec x y), (N.compare_spec y z), (N.compare_spec x z); (done || lia).
Qed.
#[export] Instance Z_cmp_order : CmpOrder Z.compare.
Proof.
  split; [intros; apply Z.compare_antisym|]. unfold cmp_le. intros x y z.
  destruct (Z.compare_spec x y), (Z.compare_spec y z), (Z.compare_spec x z); (done || lia).
Qed.
#[export] Instance nat_cmp_exact : CmpExact Nat.compare.
Proof. intros x y. apply Nat.compare_eq. Qed.
#[export] Instance N_cmp_exact : CmpExact N.compare.
Proof. intros x y. apply N.compare_eq. Qed.
#[export] Instance Z_cmp_exact : CmpExact Z.compare.
Proof. intros x y. apply Z.compare_eq. Qed.

#[export] Instance str_cmp_order : CmpOrder str_cmp.
Proof.
  split; [intros; apply str_cmp_antisym|]. unfold cmp_le. intros x y z H1 H2.
  destruct (str_cmp x y) eqn:E1; [apply str_cmp_eq in E1 as ->; done| |done].
  destruct (str_cmp y z) eqn:E2; [apply str_cmp_eq in E2 as ->; congruence| |done].
  by rewrite (str_cmp_lt_trans x y z).
Qed.
#[export] Instance str_cmp_exact : CmpExact str_cmp.
Proof. intros x y. apply str_cmp_eq. Qed.

#[export] Instance cmp_flip_order {A} (c : A -> A -> comparison) : CmpOrder c -> CmpOrder (cmp_flip c).
Proof.
  intros H. split; [intros; apply (cmp_antisym c)|]. unfold cmp_flip, cmp_le. intros x y z H1 H2.
  by apply (cmp_le_trans c z y x).
Qed.
#[export] Instance cmp_on_order {A B} (f : A -> B) (c : B -> B -> comparison) :
  CmpOrder c -> CmpOrder (cmp_on f c).
Proof.
  intros H. split; [intros; apply (cmp_antisym c)|]. intros x y z. apply (cmp_le_trans c (f x) (f y) (f z)).
Qed.
#[export] Instance cmp_then_order {A} (c1 c2 : A -> A -> comparison) :
  CmpOrder c1 -> CmpOrder c2 -> CmpOrder (cmp_then c1 c2).
Proof.
  intros H1 H2. split.
  - intros x y. unfold cmp_then. rewrite (cmp_antisym c1 x y). destruct (c1 x y); cbn; try done.
    apply (cmp_antisym c2).
  - intros x y z. unfold cmp_le, cmp_then. intros Hxy Hyz.
    destruct (c1 x y) eqn:E1; [| |done].
    + rewrite (cmp_eq_l c1 x y z E1). destruct (c1 y z) eqn:E2; [|done|done].
      by apply (cmp_le_trans c2 x y z).
    + rewrite (cmp_lt_le_trans c1 x y z E1); [done|]. unfold cmp_le. by destruct (c1 y z).
Qed.
#[export] Instance cmp_then_exact_r {A} (c1 c2 : A -> A -> comparison) :
  CmpExact c2 -> CmpExact (cmp_then c1 c2).
Proof. intros H x y. unfold cmp_then. destruct (c1 x y); try done. apply H. Qed.

(** ** [slice::sort_by] *)

Fixpoint insert_by {A} (cmp : A -> A -> comparison) (x : A) (l : list A) : list A :=
  match l with
  | [] => [x]
  | y :: l' => match cmp x y with Gt => y :: insert_by cmp x l' | _ => x :: l end
  end.

Definition sort_by {A} (cmp : A -> A -> comparison) (l : list A) : list A :=
  foldr (insert_by cmp) [] l.

Section sorting.
Context {A : Type} (cmp : A -> A -> comparison).

Lemma insert_by_perm x l : insert_by cmp x l ≡ₚ x :: l.
Proof.
  induction l as [|y l IH]; cbn; [done|]. destruct (cmp x y); [done|done|].
  rewrite IH. constructor.
Qed.

Lemma sort_by_perm l : sort_by cmp l ≡ₚ l.
Proof. induction l as [|x l IH]; cbn; [done|]. by rewrite insert_by_perm, IH. Qed.

Lemma length_sort_by l : length (sort_by cmp l) = length l.
Proof. by rewrite sort_by_perm. Qed.

Context `{!CmpOrder cmp}.

Lemma insert_by_sorted x l :
  StronglySorted (cmp_le cmp) l -> StronglySorted (cmp_le cmp) (insert_by cmp x l).
Proof.
  induction 1 as [|y l Hs IH Hy]; cbn; [by repeat constructor|].
  assert (cmp_le cmp x y -> StronglySorted (cmp_le cmp) (x :: y :: l)) as Hle.
  { intros Hxy. constructor; [by constructor|]. constructor; [done|].
    eapply Forall_impl; [exact Hy|]. intros z. by apply (cmp_le_trans cmp x y z). }
  destruct (cmp x y) eqn:E; [apply Hle; unfold cmp_le; congruence..|].
  constructor; [done|]. rewrite insert_by_perm. constructor; [|done]. by apply cmp_gt_le.
Qed.

Lemma sort_by_sorted l : StronglySorted (cmp_le cmp) (sort_by cmp l).
Proof. induction l; cbn; [constructor|]. by apply insert_by_sorted. Qed.

(** A sorted list is determined by its elements, when no two of them compare equal. *)
Lemma sorted_unique (l1 l2 : list A) :
  (forall x y, x ∈ l1 -> y ∈ l1 -> cmp x y = Eq -> x = y) ->
  l1 ≡ₚ l2 -> StronglySorted (cmp_le cmp) l1 -> StronglySorted (cmp_le cmp) l2 -> l1 = l2.
Proof.
  intros Hex Hp Hs1. revert l2 Hp.
  induction Hs1 as [|x l1 Hs1 IH Hx]; intros l2 Hp Hs2.
  { by apply Permutation_nil_l. }
  destruct l2 as [|y l2]; [by apply Permutation_nil_r in Hp|].
  inversion Hs2 as [|? ? Hs2' Hy]; subst.
  assert (x = y) as ->.
  { assert (x ∈ y :: l2) as Hxin by (rewrite <- Hp; constructor).
    assert (y ∈ x :: l1) as Hyin by (rewrite Hp; constructor).
    apply elem_of_cons in Hxin as [->|Hxin]; [done|].
    assert (Hyin' := Hyin). apply elem_of_cons in Hyin' as [->|Hyin']; [done|].
    apply Hex; [constructor|by constructor|]. apply cmp_le_eq; [done|..].
    - by eapply Forall_forall in Hx.
    - by eapply Forall_forall in Hy. }
  f_equal. apply IH; [|by apply Permutation_cons_inv in Hp|done].
  intros a b Ha Hb. apply Hex; by constructor.
Qed.

Lemma sort_by_unique (l l' : list A) :
  (forall x y, x ∈ l -> y ∈ l -> cmp x y = Eq -> x = y) ->
  l' ≡ₚ l -> StronglySorted (cmp_le cmp) l' -> sort_by cmp l = l'.
Proof.
  intros Hex Hp Hs. apply sorted_unique; [|by rewrite sort_by_perm, Hp|apply sort_by_sorted|done].
  intros x y Hx Hy. rewrite sort_by_perm in Hx, Hy. by apply Hex.
Qed.

Lemma sort_by_id (l : list A) : StronglySorted (cmp_le cmp) l -> sort_by cmp l = l.
Proof.
  induction 1 as [|x l Hs IH Hx]; [done|].
  change (insert_by cmp x (sort_by cmp l) = x :: l). rewrite IH. destruct l as [|y l]; [done|]. cbn.
  apply Forall_cons in Hx as [Hx _]. unfold cmp_le in Hx. by destruct (cmp x y).
Qed.
End sorting.

(** ** Scores *)

(** The order of [SFcompare] is the lexicographic order of a key: the rank of
    the class and sign, then exponent and mantissa, reversed for the negative. *)
Definition sf_key (x : spec_float) : Z * (Z * Z) :=
  match x with
  | S754_nan => (-3, (0, 0))
  | S754_infinity true => (-2, (0, 0))
  | S754_finite true p e => (-1, (- e, - Zpos p))
  | S754_zero _ => (0, (0, 0))
  | S754_finite false p e => (1, (e, Zpos p))
  | S754_infinity false => (2, (0, 0))
  end%Z.

Definition key_cmp : Z * (Z * Z) -> Z * (Z * Z) -> comparison :=
  cmp_then (cmp_on fst Z.compare) (cmp_on snd (cmp_then (cmp_on fst Z.compare) (cmp_on snd Z.compare))).

Lemma sf_compare_key x y :
  x <> S754_nan -> y <> S754_nan -> SFcompare x y = Some (key_cmp (sf_key x) (sf_key y)).
Proof.
  intros Hx Hy.
  destruct x as [[]|[]| |[] p e], y as [[]|[]| |[] q e']; try done; cbn;
    unfold key_cmp, cmp_then, cmp_on; cbn.
  rewrite (Z.compare_opp e e'), (Z.compare_antisym e e'). by destruct (Z.compare e e').
Qed.

(** [OrdF32]: NaN is the lowest score. *)
Definition ord_f32 (a b : f32) : comparison :=
  match f32_is_nan a, f32_is_nan b with
  | true, true => Eq
  | true, false => Lt
  | false, true => Gt
  | false, false => or_equal (f32_partial_cmp a b)
  end.

Lemma is_nan_sf a : f32_is_nan a = true <-> sf_of_bits 23 8 a = S754_nan.
Proof. unfold f32_is_nan, f_is_nan. by destruct (sf_of_bits 23 8 a). Qed.

Lemma ord_f32_key a b :
  ord_f32 a b = key_cmp (sf_key (sf_of_bits 23 8 a)) (sf_key (sf_of_bits 23 8 b)).
Proof.
  unfold ord_f32, f32_partial_cmp, f_partial_cmp.
  destruct (f32_is_nan a) eqn:Ea, (f32_is_nan b) eqn:Eb.
  - apply is_nan_sf in Ea as ->. by apply is_nan_sf in Eb as ->.
  - apply is_nan_sf in Ea as ->. apply not_true_iff_false in Eb. rewrite is_nan_sf in Eb.
    by destruct (sf_of_bits 23 8 b) as [[]|[]| |[]].
  - apply is_nan_sf in Eb as ->. apply not_true_iff_false in Ea. rewrite is_nan_sf in Ea.
    by destruct (sf_of_bits 23 8 a) as [[]|[]| |[]].
  - apply not_true_iff_false in Ea, Eb. rewrite is_nan_sf in Ea, Eb. by rewrite sf_compare_key.
Qed.

Definition score_key (a : f32) : Z * (Z * Z) := sf_key (sf_of_bits 23 8 a).

#[export] Instance ord_f32_order : CmpOrder ord_f32.
Proof.
  assert (CmpOrder (cmp_on score_key key_cmp)) as H by (unfold key_cmp; apply _).
  split; [intros x y|intros x y z; unfold cmp_le]; rewrite !ord_f32_key.
  - exact (cmp_antisym (cmp_on score_key key_cmp) x y).
  - exact (cmp_le_trans (cmp_on score_key key_cmp) x y z).
Qed.

(** The sort keeps equals in their order of arrival. *)
Definition same_rank {A} (cmp : A -> A -> comparison) (x y : A) : bool :=
  match cmp x y with Eq => true | _ => false end.

Section stable.
Context {A : Type} (cmp : A -> A -> comparison) `{!CmpOrder cmp}.

Lemma insert_by_stable x y l :
  StronglySorted (cmp_le cmp) l ->
  List.filter (same_rank cmp x) (insert_by cmp y l) =
  List.filter (same_rank cmp x) (y :: l).
Proof.
  induction 1 as [|z l Hs IH Hz]; [done|]. cbn [insert_by].
  destruct (cmp y z) eqn:E; [done|done|].
  cbn [List.filter] in *. rewrite IH. unfold same_rank.
  destruct (cmp x y) eqn:Exy; [|by destruct (cmp x z)..].
  rewrite (cmp_eq_l cmp x y z Exy), E. done.
Qed.

Lemma sort_by_stable x l :
  List.filter (same_rank cmp x) (sort_by cmp l) = List.filter (same_rank cmp x) l.
Proof.
  induction l as [|y l IH]; [done|].
  change (sort_by cmp (y :: l)) with (insert_by cmp y (sort_by cmp l)).
  rewrite insert_by_stable by (by apply sort_by_sorted). cbn [List.filter]. by rewrite IH.
Qed.
End stable.

(** [b.partial_cmp(&a).unwrap_or(Equal)] on scores is a total order away from NaN. *)
Definition score_desc (a b : f32) : comparison := or_equal (f32_partial_cmp b a).

Lemma score_desc_ord a b :
  f32_is_nan a = false -> f32_is_nan b = false -> score_desc a b = ord_f32 b a.
Proof. intros Ha Hb. unfold ord_f32. by rewrite Ha, Hb. Qed.

(** Sorting only depends on how the elements of the list compare. *)
Lemma sort_by_ext {A} (c1 c2 : A -> A -> comparison) l :
  (forall x y, x ∈ l -> y ∈ l -> c1 x y = c2 x y) -> sort_by c1 l = sort_by c2 l.
Proof.
  intros H. induction l as [|x l IH]; [done|].
  change (insert_by c1 x (sort_by c1 l) = insert_by c2 x (sort_by c2 l)).
  rewrite IH by (intros; apply H; by constructor).
  assert (forall y, y ∈ sort_by c2 l -> c1 x y = c2 x y) as Hx.
  { intros y Hy. rewrite sort_by_perm in Hy. apply H; by constructor. }
  revert Hx. generalize (sort_by c2 l). intros s. induction s as [|y s IHs]; intros Hx; [done|].
  cbn. rewrite Hx by constructor. destruct (c2 x y); [done|done|]. f_equal. apply IHs.
  intros z Hz. apply Hx. by constructor.
Qed.
