(* ===== verification/TopK.v ===== *)
(** * TopK: similarity kernels and bounded selection ([src/src/search/mod.rs])

    The kernels run in [DOT_LANES] independent lanes which are then folded
    pairwise; [lanes] is that loop, over any accumulator.  The integer kernels
    accumulate in an [i32] whose overflow is a panic (checked build): their
    accumulator is an [option Z].  [TopK] is a [BinaryHeap] of entries kept at
    most [k] long; the heap is the list of its entries and its [peek] the
    greatest of them. *)
From S2P Require Import Prelude Floats Sort.

Local Open Scope Z_scope.

Definition DOT_LANES : nat := 8.

(** ** The lane loops *)

(** [as_chunks::<DOT_LANES>]: the whole chunks and the rest. *)
Fixpoint as_chunks_fuel {X} (fuel : nat) (l : list X) : list (list X) * list X :=
  match fuel with
  | O => ([], l)
  | S fuel' =>
      if (length l <? DOT_LANES)%nat then ([], l)
      else let r := as_chunks_fuel fuel' (drop DOT_LANES l) in (take DOT_LANES l :: r.1, r.2)
  end.
Definition as_chunks {X} (l : list X) : list (list X) * list X := as_chunks_fuel (length l) l.

Section lanes.
Context {X T : Type} (zero : T) (step : T -> X -> X -> T) (add : T -> T -> T).

Definition lane_step (acc : list T) (ca cb : list X) : list T :=
  zip_with (fun t xy => step t xy.1 xy.2) acc (zip ca cb).

Fixpoint chunk_loop (acc : list T) (a_chunks b_chunks : list (list X)) : list T :=
  match a_chunks, b_chunks with
  | ca :: a_chunks', cb :: b_chunks' => chunk_loop (lane_step acc ca cb) a_chunks' b_chunks'
  | _, _ => acc
  end.

(** One round of the pairwise fold. *)
Definition fold_half (half : nat) (acc : list T) : list T :=
  foldl (fun acc lane =>
    match acc !! lane, acc !! (lane + half)%nat with
    | Some x, Some y => <[lane := add x y]> acc
    | _, _ => acc
    end) acc (seq 0 half).

Fixpoint fold_lanes (fuel half : nat) (acc : list T) : list T :=
  match fuel with
  | O => acc
  | S fuel' =>
      if (1 <=? half)%nat then fold_lanes fuel' (half / 2) (fold_half half acc) else acc
  end.

Definition tail_loop (sum : T) (a_tail b_tail : list X) : T :=
  foldl (fun t xy => step t xy.1 xy.2) sum (zip a_tail b_tail).

Definition lanes (a b : list X) : T :=
  let acc := chunk_loop (replicate DOT_LANES zero) (as_chunks a).1 (as_chunks b).1 in
  let acc := fold_lanes DOT_LANES (DOT_LANES / 2) acc in
  tail_loop (default zero (acc !! 0%nat)) (as_chunks a).2 (as_chunks b).2.
End lanes.

(** ** The float kernels *)

Definition dot (a b : list f32) : f32 :=
  lanes f32_zero (fun t x y => f32_add t (f32_mul x y)) f32_add a b.

Definition euclidean_neg_sq (a b : list f32) : f32 :=
  f32_opp (lanes f32_zero
    (fun t x y => let d := f32_sub x y in f32_add t (f32_mul d d)) f32_add a b).

(** ** int8 quantization *)

Record QuantParams := { qp_scale : f32 }.

Definition f32_127 : f32 := f32_of_Z 127.

Definition from_vectors (vectors : list f32) : QuantParams :=
  let max_abs := foldl (fun m v => f32_max m (f32_abs v)) f32_zero vectors in
  {| qp_scale := if f32_ltb f32_zero max_abs then f32_div max_abs f32_127 else f32_zero |}.

(** [quantize], into a slice as long as [v]. *)
Definition quantize (p : QuantParams) (v : list f32) : list Z :=
  if f32_leb (qp_scale p) f32_zero then map (fun _ => 0) v
  else
    let inv := f32_div f32_one (qp_scale p) in
    map (fun val => f32_round_clamp (-127) 127 (f32_mul val inv)) v.

Definition quantize_all (p : QuantParams) (vectors : list f32) : list Z := quantize p vectors.

(** An [i32] operation that overflows panics. *)
Definition i32_check (z : Z) : option Z :=
  if (- 2 ^ 31 <=? z) && (z <? 2 ^ 31) then Some z else None.
Definition i32_add (a b : option Z) : option Z := x ← a; y ← b; i32_check (x + y).

Definition dot_i8 (a b : list Z) : option Z :=
  lanes (Some 0) (fun t x y => i32_add t (i32_check (x * y))) i32_add a b.

Definition euclidean_neg_sq_i8 (a b : list Z) : option Z :=
  sum ← lanes (Some 0)
    (fun t x y => d ← i32_check (x - y); i32_add t (i32_check (d * d))) i32_add a b;
  i32_check (- sum).

(** ** Sign bits *)

Definition sign_bit (x : f32) : bool := f32_leb f32_zero x.

Definition set_bit (out : list Z) (i : nat) : list Z :=
  alter (fun w => Z.lor w (Z.shiftl 1 (Z.of_nat (i mod 64)))) (i / 64)%nat out.

(** [pack_signs_into], over words that are first zeroed. *)
Definition pack_signs_into (v : list f32) (out : list Z) : list Z :=
  foldl (fun out ix => if sign_bit ix.2 then set_bit out ix.1 else out)
    (map (fun _ => 0) out) (imap pair v).

Definition pack_signs (v : list f32) : list Z :=
  pack_signs_into v (replicate ((length v + 63) / 64) 0).

Definition count (P : nat -> bool) (n : nat) : nat := length (List.filter P (seq 0 n)).

(** [u64::count_ones]. *)
Definition count_ones (w : Z) : nat := count (fun i => Z.testbit w (Z.of_nat i)) 64.

(** A word takes part with at most 64, so the [u32] accumulators of any vector
    that fits in memory do not overflow. *)
Definition hamming (a b : list Z) : nat :=
  let step (t : nat) (x y : Z) := (t + count_ones (Z.lxor x y))%nat in
  let acc := chunk_loop step (replicate DOT_LANES 0%nat) (as_chunks a).1 (as_chunks b).1 in
  tail_loop step (list_sum acc) (as_chunks a).2 (as_chunks b).2.

(** ** Top-k *)

Section topk.
Context {T : Type} (item_cmp : T -> T -> comparison).

(** Rank: score descending, ties by item ascending; also [Ord for Entry]. *)
Definition entry_cmp : f32 * T -> f32 * T -> comparison :=
  cmp_then (cmp_flip (cmp_on fst ord_f32)) (cmp_on snd item_cmp).

Record TopK := { tk_k : nat; tk_heap : list (f32 * T) }.

Definition TopK_new (k : nat) : TopK := {| tk_k := k; tk_heap := [] |}.

(** [BinaryHeap::peek] and the heap left by [pop]. *)
Fixpoint heap_pop (l : list (f32 * T)) : option ((f32 * T) * list (f32 * T)) :=
  match l with
  | [] => None
  | x :: l' =>
      match heap_pop l' with
      | None => Some (x, [])
      | Some (w, rest) =>
          match entry_cmp w x with
          | Gt => Some (w, x :: rest)
          | _ => Some (x, w :: rest)
          end
      end
  end.

Definition offer (score : f32) (item : T) (t : TopK) : TopK :=
  if (tk_k t =? 0)%nat then t
  else if (length (tk_heap t) <? tk_k t)%nat then
    {| tk_k := tk_k t; tk_heap := (score, item) :: tk_heap t |}
  else
    match heap_pop (tk_heap t) with
    | Some (worst, rest) =>
        let better :=
          match ord_f32 score worst.1 with
          | Gt => true
          | Eq => match item_cmp item worst.2 with Lt => true | _ => false end
          | Lt => false
          end in
        if better then {| tk_k := tk_k t; tk_heap := (score, item) :: rest |} else t
    | None => t
    end.

Definition into_sorted_desc (t : TopK) : list (f32 * T) := sort_by entry_cmp (tk_heap t).

(** A scan that offers every scored item in turn. *)
Definition topk_scan (k : nat) (l : list (f32 * T)) : list (f32 * T) :=
  into_sorted_desc (foldl (fun t x => offer x.1 x.2 t) (TopK_new k) l).
End topk.

Lemma elem_of_take_in {A} (x : A) n l : x ∈ take n l -> x ∈ l.
Proof. intros H. rewrite <- (take_drop n l). apply elem_of_app. by left. Qed.

Section topk_spec.
Context {T : Type} (item_cmp : T -> T -> comparison) `{!CmpOrder item_cmp} `{!CmpExact item_cmp}.
Let cmp := entry_cmp item_cmp.

#[local] Instance entry_cmp_order : CmpOrder cmp.
Proof. unfold cmp, entry_cmp. apply _. Qed.

Lemma entry_eq_item x y : cmp x y = Eq -> x.2 = y.2.
Proof.
  unfold cmp, entry_cmp, cmp_then, cmp_flip, cmp_on. destruct (ord_f32 _ _); try done. apply cmp_eq.
Qed.

(** Items distinguish the entries. *)
Lemma entries_exact (l : list (f32 * T)) x y :
  NoDup l.*2 -> x ∈ l -> y ∈ l -> cmp x y = Eq -> x = y.
Proof.
  intros Hnd [i Hi]%list_elem_of_lookup [j Hj]%list_elem_of_lookup E%entry_eq_item.
  assert (i = j) as <-; [|congruence].
  eapply (NoDup_lookup l.*2); [done|by rewrite list_lookup_fmap, Hi|].
  rewrite list_lookup_fmap, Hj. cbn. by f_equal.
Qed.

Lemma heap_pop_spec (l : list (f32 * T)) :
  match heap_pop item_cmp l with
  | Some (w, rest) => l ≡ₚ w :: rest /\ Forall (fun x => cmp_le cmp x w) l
  | None => l = []
  end.
Proof.
  induction l as [|x l IH]; [done|]. cbn. destruct (heap_pop item_cmp l) as [[w rest]|]; cycle 1.
  { subst l. split; [done|]. repeat constructor. unfold cmp_le. by rewrite cmp_refl by apply _. }
  destruct IH as [Hp Hw]. fold cmp.
  assert (cmp_le cmp w x -> Forall (fun y => cmp_le cmp y x) (x :: l)) as Hx.
  { intros Hwx. constructor; [unfold cmp_le; by rewrite cmp_refl by apply _|].
    eapply Forall_impl; [exact Hw|]. intros y Hy. by apply (cmp_le_trans cmp y w x). }
  destruct (cmp w x) eqn:E.
  - split; [by rewrite Hp|]. apply Hx. unfold cmp_le. congruence.
  - split; [by rewrite Hp|]. apply Hx. unfold cmp_le. congruence.
  - split; [rewrite Hp; constructor|]. constructor; [|done]. by apply cmp_gt_le; [apply _|].
Qed.

Lemma better_lt score item (w : f32 * T) :
  match ord_f32 score w.1 with
  | Gt => true
  | Eq => match item_cmp item w.2 with Lt => true | _ => false end
  | Lt => false
  end = match cmp (score, item) w with Lt => true | _ => false end.
Proof.
  unfold cmp, entry_cmp, cmp_then, cmp_flip, cmp_on. cbn.
  rewrite (cmp_antisym ord_f32 score w.1). by destruct (ord_f32 score w.1).
Qed.

Lemma insert_before x w (l1 l2 : list (f32 * T)) :
  cmp x w = Lt -> insert_by cmp x (l1 ++ w :: l2) = insert_by cmp x l1 ++ w :: l2.
Proof.
  intros H. induction l1 as [|y l1 IH]; cbn; [by rewrite H|]. destruct (cmp x y); [done|done|].
  cbn. by rewrite IH.
Qed.

Lemma insert_after x (l1 l2 : list (f32 * T)) :
  Forall (fun y => cmp x y = Gt) l1 -> insert_by cmp x (l1 ++ l2) = l1 ++ insert_by cmp x l2.
Proof. induction 1 as [|y l1 H _ IH]; cbn; [done|]. by rewrite H, IH. Qed.

Lemma sort_snoc (l : list (f32 * T)) x :
  NoDup (l ++ [x]).*2 -> sort_by cmp (l ++ [x]) = insert_by cmp x (sort_by cmp l).
Proof.
  intros Hnd. apply sort_by_unique; [apply _| | |].
  - intros y z. by apply entries_exact.
  - rewrite insert_by_perm, sort_by_perm. by rewrite Permutation_app_comm.
  - apply insert_by_sorted; [apply _|]. apply sort_by_sorted. apply _.
Qed.

Lemma take_insert (k : nat) (S : list (f32 * T)) x worst rest (h : list (f32 * T)) :
  (0 < k <= length S)%nat -> StronglySorted (cmp_le cmp) S -> NoDup (x :: S).*2 ->
  h ≡ₚ take k S -> heap_pop item_cmp h = Some (worst, rest) ->
  match cmp x worst with Lt => x :: rest | _ => h end ≡ₚ take k (insert_by cmp x S).
Proof.
  intros Hk Hs Hnd Hh Hpop. pose proof (heap_pop_spec h) as Hw. rewrite Hpop in Hw.
  destruct Hw as [Hp Hmax].
  assert (exists S1 w, take k S = S1 ++ [w]) as (S1 & w & Ht).
  { destruct (take k S) as [|w S1 _] eqn:E using rev_ind; [|by eauto].
    assert (length (take k S) = k) as Hl by (rewrite length_take; lia). rewrite E in Hl. cbn in Hl. lia. }
  assert (S = S1 ++ w :: drop k S) as HS.
  { rewrite <- (take_drop k S) at 1. rewrite Ht. by rewrite <- app_assoc. }
  assert (length S1 = k - 1)%nat as Hl1.
  { assert (length (take k S) = k) as Hl by (rewrite length_take; lia).
    rewrite Ht, length_app in Hl. cbn in Hl. lia. }
  assert (Forall (fun y => cmp_le cmp y w) (S1 ++ [w])) as Hle.
  { rewrite HS in Hs. apply StronglySorted_app in Hs as (Hs1 & _ & _).
    apply Forall_app. split; [|repeat constructor; unfold cmp_le; by rewrite cmp_refl by apply _].
    apply Forall_forall. intros y Hy. eapply Hs1; [exact Hy|constructor]. }
  assert (worst = w) as ->.
  { assert (worst ∈ S1 ++ [w]) as Hin by (rewrite <- Ht, <- Hh, Hp; constructor).
    assert (w ∈ h) as Hin' by (rewrite Hh, Ht; apply elem_of_app; right; constructor).
    apply (entries_exact S); [by inversion Hnd|..].
    - apply (elem_of_take_in _ k). by rewrite Ht.
    - rewrite HS. apply elem_of_app. right. constructor.
    - apply cmp_le_eq; [apply _|..]; [by eapply Forall_forall in Hle|by eapply Forall_forall in Hmax]. }
  assert (rest ≡ₚ S1) as Hrest.
  { apply (Permutation_cons_inv (a := w)). rewrite <- Hp, Hh, Ht, Permutation_app_comm. done. }
  destruct (cmp x w) eqn:E.
  - exfalso. apply entry_eq_item in E. inversion Hnd as [|? ? Hx]; subst. apply Hx.
    rewrite E. apply list_elem_of_fmap. exists w. split; [done|]. rewrite HS. apply elem_of_app. right. constructor.
  - rewrite HS at 1. rewrite insert_before by done.
    rewrite take_app_length'; [by rewrite insert_by_perm, Hrest|].
    rewrite insert_by_perm. cbn. lia.
  - rewrite Hh, Ht. rewrite HS at 1. change (w :: drop k S) with ([w] ++ drop k S).
    rewrite app_assoc, insert_after, take_app_length'; [done|rewrite length_app; cbn; lia|].
    eapply Forall_impl; [exact Hle|]. intros y Hy. cbn in Hy.
    destruct (cmp x y) eqn:Exy; [| |done]; exfalso.
    + rewrite (cmp_eq_l cmp x y w) in E by done. done.
    + rewrite (cmp_lt_le_trans cmp x y w) in E; done.
Qed.

Lemma offer_k x (t : TopK) : tk_k (offer item_cmp x.1 x.2 t) = tk_k t.
Proof. unfold offer. by repeat (case_match; try done). Qed.

Lemma offer_step k (l : list (f32 * T)) x (h : list (f32 * T)) :
  NoDup (l ++ [x]).*2 -> h ≡ₚ take k (sort_by cmp l) ->
  tk_heap (offer item_cmp x.1 x.2 {| tk_k := k; tk_heap := h |}) ≡ₚ
  take k (sort_by cmp (l ++ [x])).
Proof.
  intros Hnd Hh. rewrite sort_snoc by done.
  assert (length h = k `min` length l)%nat as Hlen by (rewrite Hh, length_take, length_sort_by; lia).
  unfold offer. cbn [tk_k tk_heap]. destruct (Nat.eqb_spec k 0) as [->|Hk]; [done|].
  destruct (Nat.ltb_spec (length h) k) as [Hlt|Hge].
  - cbn [tk_heap]. rewrite Hh, !take_ge; [|rewrite insert_by_perm, sort_by_perm; cbn; lia|
      rewrite length_sort_by; lia]. destruct x. by rewrite insert_by_perm.
  - destruct (heap_pop item_cmp h) as [[w rest]|] eqn:Hpop; cycle 1.
    { pose proof (heap_pop_spec h) as He. rewrite Hpop in He. subst h. cbn in Hge. lia. }
    rewrite <- (take_insert k (sort_by cmp l) x w rest h); [|rewrite length_sort_by; lia| | |done|done].
    + rewrite better_lt. destruct x as [score item]. cbn. by destruct (cmp (score, item) w).
    + apply sort_by_sorted. apply _.
    + rewrite fmap_app in Hnd. rewrite fmap_cons, sort_by_perm.
      apply (NoDup_app _ _) in Hnd as (H1 & H2 & _). constructor; [|done].
      intros Hx. apply (H2 _ Hx). cbn. constructor.
Qed.

(** What a scan of distinct items has collected. *)
Lemma scan_heap (k : nat) (l : list (f32 * T)) (t := foldl (fun t x => offer item_cmp x.1 x.2 t) (TopK_new k) l) :
  NoDup l.*2 -> tk_k t = k /\ tk_heap t ≡ₚ take k (sort_by cmp l).
Proof.
  unfold t. clear t. intros Hnd.
  induction l as [|x l IH] using rev_ind; [split; [done|by destruct k]|].
  rewrite foldl_app. cbn [foldl].
  assert (NoDup l.*2) as Hnd' by (rewrite fmap_app in Hnd; by apply NoDup_app in Hnd as [? _]).
  destruct (IH Hnd') as [Hk Hh]. destruct (foldl _ _ l) as [k' h]. cbn in Hk. subst k'.
  split; [by rewrite offer_k|]. by apply offer_step.
Qed.

Lemma sorted_heap (k : nat) (l : list (f32 * T)) (t : TopK) :
  NoDup l.*2 -> tk_heap t ≡ₚ take k (sort_by cmp l) -> into_sorted_desc item_cmp t = take k (sort_by cmp l).
Proof.
  intros Hnd Hh. apply sort_by_unique; [unfold entry_cmp; apply _| | |].
  - intros x y Hx Hy. rewrite Hh in Hx, Hy.
    apply elem_of_take_in in Hx, Hy.
    rewrite sort_by_perm in Hx, Hy. by apply (entries_exact l).
  - by rewrite Hh.
  - pose proof (sort_by_sorted cmp l) as Hs.
    rewrite <- (take_drop k (sort_by _ l)) in Hs. by apply StronglySorted_app in Hs as (_ & ? & _).
Qed.

(** Sorting what a scan may visit in any order. *)
Lemma sort_entries (l1 l2 : list (f32 * T)) :
  NoDup l1.*2 -> l1 ≡ₚ l2 -> sort_by cmp l1 = sort_by cmp l2.
Proof.
  intros Hnd Hp. apply sort_by_unique; [apply _| | |].
  - intros x y. by apply entries_exact.
  - by rewrite sort_by_perm.
  - apply sort_by_sorted. apply _.
Qed.
End topk_spec.

(** The bounded collector returns exactly the [k] best-ranked items, best first:
    scanning any sequence of distinctly identified scored items gives the
    first [k] of the whole sequence sorted by score descending, ties by item
    ascending, NaN last, whatever order the scan visits them in. *)
Theorem topk_scan_spec {T} (item_cmp : T -> T -> comparison) `{!CmpOrder item_cmp} `{!CmpExact item_cmp}
    (k : nat) (l l' : list (f32 * T)) :
  NoDup l.*2 -> l ≡ₚ l' -> topk_scan item_cmp k l' = take k (sort_by (entry_cmp item_cmp) l).
Proof.
  intros Hnd Hp. rewrite (sort_entries item_cmp l l') by done. rewrite Hp in Hnd.
  apply (sorted_heap item_cmp k l'); [done|]. by apply (scan_heap item_cmp k l').
Qed.

(** ** The integer kernels are exact *)

Definition sumz (l : list Z) : Z := foldr Z.add 0 l.
#[local] Arguments sumz : simpl never.

Lemma sumz_cons x l : sumz (x :: l) = x + sumz l.
Proof. done. Qed.

Lemma sumz_app l1 l2 : sumz (l1 ++ l2) = sumz l1 + sumz l2.
Proof. induction l1 as [|x l1 IH]; cbn; [done|]. rewrite !sumz_cons, IH. lia. Qed.

Lemma sumz_zip_add (l1 l2 : list Z) :
  length l1 = length l2 -> sumz (zip_with Z.add l1 l2) = sumz l1 + sumz l2.
Proof.
  revert l2. induction l1 as [|x l1 IH]; intros [|y l2]; cbn; try done. intros [= H].
  rewrite !sumz_cons, IH by done. lia.
Qed.

Lemma as_chunks_fuel_spec {X} (fuel : nat) (l : list X) :
  (length l <= fuel)%nat ->
  mjoin (as_chunks_fuel fuel l).1 ++ (as_chunks_fuel fuel l).2 = l /\
  Forall (fun c => length c = DOT_LANES) (as_chunks_fuel fuel l).1 /\
  length (as_chunks_fuel fuel l).1 = (length l / DOT_LANES)%nat.
Proof.
  unfold DOT_LANES. revert l. induction fuel as [|fuel IH]; intros l Hl.
  { destruct l; [|cbn in Hl; lia]. by repeat constructor. }
  cbn [as_chunks_fuel]. unfold DOT_LANES. destruct (Nat.ltb_spec (length l) 8) as [Hlt|Hge].
  { repeat constructor. cbn [fst length]. symmetry. by apply Nat.div_small. }
  destruct (IH (drop 8 l)) as (H1 & H2 & H3); [rewrite length_drop; lia|].
  cbn [fst snd]. split; [|split].
  - change (mjoin (take 8 l :: ?x)) with (take 8 l ++ mjoin x). rewrite <- app_assoc, H1. apply take_drop.
  - constructor; [|done]. rewrite length_take. lia.
  - cbn [length]. rewrite H3, length_drop. set (n := length l) in *.
    assert (n = 1 * 8 + (n - 8))%nat as Hn by lia. rewrite Hn at 2.
    rewrite Nat.div_add_l by lia. lia.
Qed.

Lemma length_chunks (l : list (list Z)) :
  Forall (fun c => length c = DOT_LANES) l -> length (mjoin l) = (length l * 8)%nat.
Proof.
  induction 1 as [|c l Hc _ IH]; [done|].
  change (mjoin (c :: l)) with (c ++ mjoin l). rewrite length_app, Hc, IH. unfold DOT_LANES. cbn. lia.
Qed.

Section exact.
Context (f : Z -> Z -> Z) (step : option Z -> Z -> Z -> option Z) (ok : Z -> Prop) (B : Z).
Context (HB : 0 <= B) (Hf : forall x y, ok x -> ok y -> Z.abs (f x y) <= B).
Context (Hstep : forall z x y, ok x -> ok y -> Z.abs z + B <= 2 ^ 31 - 1 ->
  step (Some z) x y = Some (z + f x y)).

Lemma lane_step_exact (c : Z) (zs ca cb : list Z) :
  length ca = length zs -> length cb = length zs -> Forall ok ca -> Forall ok cb ->
  c + B <= 2 ^ 31 - 1 -> Forall (fun z => Z.abs z <= c) zs ->
  lane_step step (Some <$> zs) ca cb = Some <$> zip_with Z.add zs (zip_with f ca cb) /\
  Forall (fun z => Z.abs z <= c + B) (zip_with Z.add zs (zip_with f ca cb)).
Proof.
  unfold lane_step. intros H1 H2 Ha Hb Hc Hz. revert ca cb H1 H2 Ha Hb.
  induction Hz as [|z zs Hz _ IH]; intros [|x ca] [|y cb]; cbn; try done.
  intros [= H1] [= H2] [Hx Ha]%Forall_cons [Hy Hb]%Forall_cons.
  destruct (IH ca cb H1 H2 Ha Hb) as [E F]. rewrite E, Hstep by (done || lia).
  split; [done|]. constructor; [|done]. pose proof (Hf x y Hx Hy). lia.
Qed.

Definition chunk_sum (cs ds : list (list Z)) : Z :=
  sumz (zip_with (fun ca cb => sumz (zip_with f ca cb)) cs ds).

Lemma chunk_loop_exact (c : Z) (cs ds : list (list Z)) (zs : list Z) :
  length cs = length ds -> length zs = DOT_LANES ->
  Forall (fun l => length l = DOT_LANES /\ Forall ok l) cs ->
  Forall (fun l => length l = DOT_LANES /\ Forall ok l) ds ->
  Forall (fun z => Z.abs z <= c) zs -> c + Z.of_nat (length cs) * B <= 2 ^ 31 - 1 ->
  exists zs', chunk_loop step (Some <$> zs) cs ds = Some <$> zs' /\ length zs' = DOT_LANES /\
    Forall (fun z => Z.abs z <= c + Z.of_nat (length cs) * B) zs' /\
    sumz zs' = sumz zs + chunk_sum cs ds.
Proof.
  intros Hl Hlz Hcs. revert c ds zs Hl Hlz.
  induction Hcs as [|ca cs [Hca Hka] _ IH]; intros c ds zs Hl Hlz Hds Hz Hc.
  { destruct ds; [|done]. exists zs. split_and!; [done..| |by rewrite Z.add_0_r].
    eapply Forall_impl; [exact Hz|]. cbn. lia. }
  destruct ds as [|cb ds]; [done|]. apply Forall_cons in Hds as [[Hcb Hkb] Hds].
  injection Hl as Hl. cbn [chunk_loop length] in *.
  destruct (lane_step_exact c zs ca cb) as [E F]; try done; try congruence; [nia|].
  assert (length (zip_with f ca cb) = DOT_LANES) as Hlf by (rewrite length_zip_with, Hca, Hcb; done).
  destruct (IH (c + B) ds (zip_with Z.add zs (zip_with f ca cb))) as (zs' & E' & Hl' & F' & S');
    try done; [by rewrite length_zip_with, Hlf, Hlz|lia|].
  exists zs'. rewrite E. split_and!; [done..| |].
  - eapply Forall_impl; [exact F'|]. cbn. intros z. lia.
  - change (chunk_sum (ca :: cs) (cb :: ds)) with (sumz (zip_with f ca cb) + chunk_sum cs ds).
    rewrite S', sumz_zip_add by congruence. lia.
Qed.

Lemma tail_exact (s : Z) (ta tb : list Z) :
  length ta = length tb -> Forall ok ta -> Forall ok tb ->
  Z.abs s + Z.of_nat (length ta) * B <= 2 ^ 31 - 1 ->
  tail_loop step (Some s) ta tb = Some (s + sumz (zip_with f ta tb)).
Proof.
  unfold tail_loop. intros Hl Ha. revert s tb Hl.
  induction Ha as [|x ta Hx _ IH]; intros s [|y tb] Hl Hb Hs; try done; cbn in *.
  { change (sumz []) with 0. by rewrite Z.add_0_r. }
  apply Forall_cons in Hb as [Hy Hb]. rewrite Hstep; [|done|done|nia].
  pose proof (Hf x y Hx Hy). rewrite IH, sumz_cons; [f_equal; lia|congruence|done|nia].
Qed.

Lemma i32_check_ok z : Z.abs z <= 2 ^ 31 - 1 -> i32_check z = Some z.
Proof. intros H. unfold i32_check. destruct ((_ <=? _) && _) eqn:E; [done|lia]. Qed.

Lemma i32_add_exact x y :
  Z.abs x + Z.abs y <= 2 ^ 31 - 1 -> i32_add (Some x) (Some y) = Some (x + y).
Proof. intros H. cbn. apply i32_check_ok. lia. Qed.

Lemma fold_lanes_exact (c : Z) (zs : list Z) :
  length zs = DOT_LANES -> Forall (fun z => Z.abs z <= c) zs -> 8 * c <= 2 ^ 31 - 1 ->
  fold_lanes i32_add DOT_LANES (DOT_LANES / 2) (Some <$> zs) !! 0%nat = Some (Some (sumz zs)).
Proof.
  intros Hl Hz Hc. do 8 (destruct zs as [|? zs]; [done|]). destruct zs; [|done].
  repeat match goal with H : Forall _ (_ :: _) |- _ => apply Forall_cons in H as [? H] end.
  Opaque i32_add. cbn. Transparent i32_add.
  rewrite !(i32_add_exact _ _); try lia. rewrite !sumz_cons.
  change (sumz []) with 0. f_equal. f_equal. lia.
Qed.

Lemma sumz_bound (a b : list Z) :
  length a = length b -> Forall ok a -> Forall ok b ->
  Z.abs (sumz (zip_with f a b)) <= Z.of_nat (length a) * B.
Proof.
  intros Hl Ha. revert b Hl. induction Ha as [|x a Hx _ IH]; intros [|y b] Hl Hb; try done.
  apply Forall_cons in Hb as [Hy Hb]. injection Hl as Hl. specialize (IH b Hl Hb).
  pose proof (Hf x y Hx Hy). cbn [zip_with length]. rewrite sumz_cons. lia.
Qed.

Lemma zip_chunks (cs ds : list (list Z)) (ta tb : list Z) :
  length cs = length ds -> Forall (fun c => length c = DOT_LANES) cs ->
  Forall (fun c => length c = DOT_LANES) ds ->
  sumz (zip_with f (mjoin cs ++ ta) (mjoin ds ++ tb)) = chunk_sum cs ds + sumz (zip_with f ta tb).
Proof.
  intros Hl Hcs. revert ds Hl. induction Hcs as [|ca cs Hca _ IH]; intros [|cb ds] Hl Hds; try done.
  apply Forall_cons in Hds as [Hcb Hds]. injection Hl as Hl.
  change (mjoin (ca :: cs)) with (ca ++ mjoin cs). change (mjoin (cb :: ds)) with (cb ++ mjoin ds).
  change (chunk_sum (ca :: cs) (cb :: ds)) with (sumz (zip_with f ca cb) + chunk_sum cs ds).
  rewrite <- !app_assoc, zip_with_app, sumz_app, IH by congruence. lia.
Qed.

Lemma Forall_chunks (cs : list (list Z)) (t : list Z) :
  Forall ok (mjoin cs ++ t) -> Forall (fun c => length c = DOT_LANES) cs ->
  Forall (fun l => length l = DOT_LANES /\ Forall ok l) cs /\ Forall ok t.
Proof.
  intros [H Ht]%Forall_app Hcs. split; [|done]. induction Hcs as [|c cs Hc _ IH]; [constructor|].
  change (mjoin (c :: cs)) with (c ++ mjoin cs) in H. apply Forall_app in H as [? ?].
  constructor; auto.
Qed.

Lemma lanes_exact (a b : list Z) :
  length a = length b -> Forall ok a -> Forall ok b ->
  Z.of_nat (length a) * B <= 2 ^ 31 - 1 ->
  lanes (Some 0) step i32_add a b = Some (sumz (zip_with f a b)).
Proof.
  intros Hl Ha Hb Hlen. unfold lanes, as_chunks.
  destruct (as_chunks_fuel_spec (length a) a) as (Ea & Fa & La); [done|].
  destruct (as_chunks_fuel_spec (length b) b) as (Eb & Fb & Lb); [done|].
  destruct (as_chunks_fuel (length a) a) as [cs ta], (as_chunks_fuel (length b) b) as [ds tb].
  cbn [fst snd] in *. subst a b.
  assert (length cs = length ds) as Hcd by (rewrite La, Lb; congruence).
  pose proof length_chunks as Hj.
  rewrite !length_app, (Hj cs Fa) in Hlen. rewrite !length_app, (Hj cs Fa), (Hj ds Fb) in Hl.
  destruct (Forall_chunks cs ta Ha Fa) as [Hcs Hta], (Forall_chunks ds tb Hb Fb) as [Hds Htb].
  destruct (chunk_loop_exact 0 cs ds (replicate DOT_LANES 0)) as (zs & E & Hlz & Fz & S); try done.
  { repeat (constructor; [done|]). constructor. } { nia. }
  change (Some <$> replicate DOT_LANES 0) with (replicate DOT_LANES (Some 0)) in E. rewrite E.
  rewrite (fold_lanes_exact (Z.of_nat (length cs) * B) zs); [|done|done|nia].
  change (sumz (replicate DOT_LANES 0)) with 0 in S. cbn [from_option id].
  rewrite tail_exact, zip_chunks; try done; [f_equal; lia|lia|].
  assert (Z.abs (sumz zs) <= 8 * (Z.of_nat (length cs) * B)) as Hs; [|nia].
  clear -Hlz Fz. do 8 (destruct zs as [|? zs]; [done|]). destruct zs; [|done].
  repeat match goal with H : Forall _ (_ :: _) |- _ => apply Forall_cons in H as [? H] end.
  rewrite !sumz_cons. change (sumz []) with 0. lia.
Qed.
End exact.

Definition is_i8 (x : Z) : Prop := -128 <= x <= 127.

(** C34: the integer kernels are exact: for int8 vectors of equal length the
    eight-lane loops of [dot_i8] and [euclidean_neg_sq_i8] never overflow an
    [i32], in any lane or any fold, up to 131071 dimensions (33025 for the
    distance), and give the plain sums. *)
Theorem int8_kernels_exact (a b : list Z) :
  length a = length b -> Forall is_i8 a -> Forall is_i8 b ->
  (Z.of_nat (length a) <= 131071 -> dot_i8 a b = Some (sumz (zip_with Z.mul a b))) /\
  (Z.of_nat (length a) <= 33025 ->
     euclidean_neg_sq_i8 a b = Some (- sumz (zip_with (fun x y => (x - y) * (x - y)) a b))).
Proof.
  assert (forall z d, Z.abs z + Z.abs d <= 2 ^ 31 - 1 -> i32_add (Some z) (i32_check d) = Some (z + d))
    as Hadd.
  { intros z d Hz. rewrite i32_check_ok by lia. apply i32_add_exact. lia. }
  intros Hl Ha Hb. split; intros Hn.
  - apply (lanes_exact Z.mul _ is_i8 16384); try done; [| |lia].
    + intros x y [] []. nia.
    + intros z x y [] [] Hz. apply Hadd. assert (Z.abs (x * y) <= 16384) by nia. lia.
  - assert (forall x y, is_i8 x -> is_i8 y -> Z.abs ((x - y) * (x - y)) <= 65025) as Hf
      by (intros x y [] []; assert (-255 <= x - y <= 255) by lia; nia).
    unfold euclidean_neg_sq_i8.
    rewrite (lanes_exact (fun x y => (x - y) * (x - y)) _ is_i8 65025); try done; [| |lia].
    + cbn. apply i32_check_ok. pose proof (sumz_bound _ is_i8 65025 (ltac:(done)) Hf a b Hl Ha Hb). lia.
    + intros z x y Hx Hy Hz. pose proof (Hf x y Hx Hy). destruct Hx, Hy.
      rewrite i32_check_ok by lia. cbn [mbind option_bind]. apply Hadd. lia.
Qed.

Lemma int8_kernels_exact_witness :
  dot_i8 (replicate 20 (-128)) (replicate 20 (-128)) = Some (20 * 16384) /\
  euclidean_neg_sq_i8 (replicate 20 (-128)) (replicate 20 127) = Some (-(20 * 65025)).
Proof.
  destruct (int8_kernels_exact (replicate 20 (-128)) (replicate 20 (-128))) as [H _];
    [done|by apply Forall_replicate..|].
  destruct (int8_kernels_exact (replicate 20 (-128)) (replicate 20 127)) as [_ H'];
    [done|by apply Forall_replicate..|].
  split; [rewrite H|rewrite H']; (done || (cbn; lia)).
Defined.

(** ** Sign bits and the Hamming distance *)

Lemma filter_seq_shift P m n :
  length (List.filter P (seq m n)) = count (fun i => P (m + i)%nat) n.
Proof.
  unfold count. replace m with (m + 0)%nat at 1 by lia. rewrite <- (fmap_add_seq m 0 n).
  induction (seq 0 n) as [|i l IH]; [done|]. cbn. by destruct (P (m + i)%nat); cbn; rewrite IH.
Qed.

Lemma count_add P m n : count P (m + n) = (count P m + count (fun i => P (m + i)%nat) n)%nat.
Proof.
  unfold count at 1. rewrite seq_app, List.filter_app, length_app.
  by rewrite (filter_seq_shift P (0 + m) n).
Qed.

Lemma count_ext P Q n : (forall i, (i < n)%nat -> P i = Q i) -> count P n = count Q n.
Proof.
  intros H. unfold count. f_equal. apply List.filter_ext_in. intros i Hi%in_seq. apply H. lia.
Qed.

Lemma count_none P n : (forall i, (i < n)%nat -> P i = false) -> count P n = 0%nat.
Proof.
  intros H. rewrite (count_ext P (fun _ => false)) by done. unfold count.
  by induction (seq 0 n).
Qed.

(** Bit [n] of a packed vector. *)
Definition packed_bit (ws : list Z) (n : nat) : bool :=
  Z.testbit (default 0 (ws !! (n / 64)%nat)) (Z.of_nat (n mod 64)).

Lemma set_bit_spec (ws : list Z) i n :
  (i / 64 < length ws)%nat -> packed_bit (set_bit ws i) n = packed_bit ws n || (n =? i)%nat.
Proof.
  intros Hi. unfold packed_bit, set_bit.
  pose proof (Nat.div_mod_eq n 64) as Hn. pose proof (Nat.div_mod_eq i 64) as Hdi.
  pose proof (Nat.mod_upper_bound n 64 ltac:(lia)). pose proof (Nat.mod_upper_bound i 64 ltac:(lia)).
  destruct (decide (n / 64 = i / 64)%nat) as [E|E].
  - rewrite E, list_lookup_alter_eq. destruct (lookup_lt_is_Some_2 ws (i / 64) Hi) as [w ->].
    cbn [fmap option_fmap option_map from_option id]. rewrite Z.lor_spec. f_equal.
    rewrite Z.shiftl_1_l, Z.pow2_bits_eqb by lia.
    destruct (Nat.eqb_spec n i) as [->|Hne]; [apply Z.eqb_refl|]. apply Z.eqb_neq. lia.
  - rewrite list_lookup_alter_ne by congruence. destruct (Nat.eqb_spec n i) as [->|_]; [done|].
    by rewrite orb_false_r.
Qed.

Lemma length_set_bit ws i : length (set_bit ws i) = length ws.
Proof. apply length_alter. Qed.

Lemma pack_signs_bit (v : list f32) (ws : list Z) n :
  (length v <= 64 * length ws)%nat ->
  packed_bit (pack_signs_into v ws) n = default false (sign_bit <$> v !! n) /\
  length (pack_signs_into v ws) = length ws.
Proof.
  unfold pack_signs_into. intros Hl. induction v as [|x v IH] using rev_ind.
  { split; [|apply length_map]. unfold packed_bit. cbn [imap foldl].
    change (map (λ _ : Z, 0) ws) with ((fun _ : Z => 0) <$> ws).
    rewrite list_lookup_fmap, lookup_nil.
    destruct (ws !! (n / 64)%nat); apply Z.testbit_0_l. }
  rewrite length_app in Hl. cbn in Hl. destruct IH as [IH IHl]; [lia|].
  rewrite imap_app, foldl_app. cbn [imap foldl fst snd]. rewrite Nat.add_0_r.
  split; [|destruct (sign_bit x); [by rewrite length_set_bit|done]].
  assert (length v / 64 < length ws)%nat as Hi by (apply Nat.Div0.div_lt_upper_bound; lia).
  destruct (Nat.lt_trichotomy n (length v)) as [H|[->|H]].
  - rewrite lookup_app_l by done. destruct (sign_bit x); [|done].
    rewrite set_bit_spec by (by rewrite IHl). rewrite IH.
    destruct (Nat.eqb_spec n (length v)); [lia|]. apply orb_false_r.
  - rewrite list_lookup_middle by done. rewrite lookup_ge_None_2 in IH by done.
    change (default false (sign_bit <$> Some x)) with (sign_bit x).
    destruct (sign_bit x); [|done]. rewrite set_bit_spec by (by rewrite IHl).
    by rewrite IH, Nat.eqb_refl.
  - rewrite (lookup_ge_None_2 (v ++ [x])) by (rewrite length_app; cbn; lia).
    rewrite lookup_ge_None_2 in IH by lia. destruct (sign_bit x); [|done].
    rewrite set_bit_spec by (by rewrite IHl). rewrite IH. by destruct (Nat.eqb_spec n (length v)); [lia|].
Qed.

Lemma list_sum_lanes (g : Z -> Z -> nat) (zs : list nat) (cs ds : list (list Z)) :
  length cs = length ds -> length zs = DOT_LANES ->
  Forall (fun c => length c = DOT_LANES) cs -> Forall (fun c => length c = DOT_LANES) ds ->
  list_sum (chunk_loop (fun t x y => (t + g x y)%nat) zs cs ds) =
  (list_sum zs + list_sum (zip_with g (mjoin cs) (mjoin ds)))%nat.
Proof.
  intros Hl Hz Hcs. revert ds zs Hl Hz.
  induction Hcs as [|ca cs Hca _ IH]; intros [|cb ds] zs Hl Hz Hds; try done.
  apply Forall_cons in Hds as [Hcb Hds]. injection Hl as Hl. cbn [chunk_loop].
  assert (lane_step (fun t x y => (t + g x y)%nat) zs ca cb = zip_with Nat.add zs (zip_with g ca cb)) as ->.
  { unfold lane_step. clear. revert ca cb.
    induction zs as [|z zs IHz]; intros [|x ca] [|y cb]; cbn; try done. by rewrite IHz. }
  assert (length (zip_with g ca cb) = length zs) as Hlg by (rewrite length_zip_with, Hca, Hcb, Hz; done).
  rewrite IH; [|done|by rewrite length_zip_with, Hlg, Nat.min_id|done].
  change (mjoin (ca :: cs)) with (ca ++ mjoin cs). change (mjoin (cb :: ds)) with (cb ++ mjoin ds).
  rewrite zip_with_app by congruence. rewrite list_sum_app.
  assert (list_sum (zip_with Nat.add zs (zip_with g ca cb)) = (list_sum zs + list_sum (zip_with g ca cb))%nat)
    as ->; [|lia].
  clear -Hlg. symmetry in Hlg. revert Hlg. generalize (zip_with g ca cb). intros l.
  revert l. induction zs as [|z zs IH]; intros [|x l]; try done. intros [= H]. cbn.
  specialize (IH l H). unfold list_sum in *. lia.
Qed.

Lemma tail_sum (g : Z -> Z -> nat) (s : nat) (l1 l2 : list Z) :
  tail_loop (fun t x y => (t + g x y)%nat) s l1 l2 = (s + list_sum (zip_with g l1 l2))%nat.
Proof.
  unfold tail_loop. revert s l2. induction l1 as [|x l1 IH]; intros s [|y l2]; cbn; try lia.
  rewrite IH. unfold list_sum. lia.
Qed.

Lemma lanes_sum (g : Z -> Z -> nat) (a b : list Z) :
  length a = length b ->
  let step t x y := (t + g x y)%nat in
  tail_loop step
    (list_sum (chunk_loop step (replicate DOT_LANES 0%nat) (as_chunks a).1 (as_chunks b).1))
    (as_chunks a).2 (as_chunks b).2 = list_sum (zip_with g a b).
Proof.
  intros Hl step. unfold as_chunks.
  destruct (as_chunks_fuel_spec (length a) a) as (Ea & Fa & La); [done|].
  destruct (as_chunks_fuel_spec (length b) b) as (Eb & Fb & Lb); [done|].
  destruct (as_chunks_fuel (length a) a) as [cs ta], (as_chunks_fuel (length b) b) as [ds tb].
  cbn [fst snd] in *. unfold step.
  rewrite (list_sum_lanes g); [|congruence|done|done|done].
  change (list_sum (replicate DOT_LANES 0%nat)) with 0%nat. rewrite Nat.add_0_l.
  rewrite tail_sum, <- list_sum_app, <- zip_with_app; [by rewrite Ea, Eb|].
  rewrite !length_chunks by done. congruence.
Qed.

Lemma hamming_sum (a b : list Z) :
  length a = length b ->
  hamming a b = list_sum (zip_with (fun x y => count_ones (Z.lxor x y)) a b).
Proof. exact (lanes_sum (fun x y => count_ones (Z.lxor x y)) a b). Qed.

Lemma word_sum (a b : list Z) :
  length a = length b ->
  list_sum (zip_with (fun x y => count_ones (Z.lxor x y)) a b) =
  count (fun n => xorb (packed_bit a n) (packed_bit b n)) (64 * length a).
Proof.
  revert b. induction a as [|x a IH]; intros [|y b] Hl; try done. injection Hl as Hl.
  replace (64 * length (x :: a))%nat with (64 + 64 * length a)%nat by (cbn; lia).
  rewrite count_add. cbn [zip_with].
  change (list_sum (?u :: ?l)) with (u + list_sum l)%nat. rewrite (IH b Hl). f_equal.
  - unfold count_ones. apply count_ext. intros i Hi. unfold packed_bit.
    rewrite Nat.div_small, Nat.mod_small by done. cbn. apply Z.lxor_spec.
  - apply count_ext. intros i _. unfold packed_bit.
    replace (64 + i)%nat with (1 * 64 + i)%nat by lia.
    rewrite Nat.div_add_l by lia. rewrite (Nat.add_comm (1 * 64)), Nat.Div0.mod_add. done.
Qed.

Definition differ (p : f32 * f32) : bool := xorb (sign_bit p.1) (sign_bit p.2).

Lemma count_zip (a b : list f32) :
  length a = length b ->
  length (List.filter differ (zip a b)) =
  count (fun n => xorb (default false (sign_bit <$> a !! n)) (default false (sign_bit <$> b !! n)))
    (length a).
Proof.
  revert b. induction a as [|x a IH]; intros [|y b] Hl; try done. injection Hl as Hl.
  change (length (x :: a)) with (1 + length a)%nat. rewrite count_add.
  match goal with |- _ = (_ + ?c)%nat => assert (c = length (List.filter differ (zip a b))) as -> end.
  { exact (eq_sym (IH b Hl)). }
  cbn [zip zip_with List.filter]. unfold count. cbn. unfold differ at 1. cbn [fst snd].
  by destruct (xorb (sign_bit x) (sign_bit y)).
Qed.

(** Binary codes measure signs: the Hamming distance of the packed codes of
    two vectors of equal length is the number of components whose signs
    differ; the padding of the last word never counts. *)
Theorem hamming_signs (a b : list f32) :
  length a = length b ->
  hamming (pack_signs a) (pack_signs b) = length (List.filter differ (zip a b)).
Proof.
  intros Hl. set (W := ((length a + 63) / 64)%nat).
  assert (length a <= 64 * W)%nat as HW.
  { unfold W. pose proof (Nat.div_mod_eq (length a + 63) 64).
    pose proof (Nat.mod_upper_bound (length a + 63) 64). lia. }
  unfold pack_signs. rewrite <- Hl. fold W.
  assert (forall v n, length v = length a ->
    packed_bit (pack_signs_into v (replicate W 0)) n = default false (sign_bit <$> v !! n) /\
    length (pack_signs_into v (replicate W 0)) = W) as Hp.
  { intros v n Hv. destruct (pack_signs_bit v (replicate W 0) n) as [H1 H2];
      rewrite length_replicate in *; [lia|done]. }
  assert (length (pack_signs_into a (replicate W 0)) = length (pack_signs_into b (replicate W 0))) as Hab
    by (rewrite (proj2 (Hp a 0%nat eq_refl)); symmetry; exact (proj2 (Hp b 0%nat (eq_sym Hl)))).
  rewrite hamming_sum, word_sum by done.
  rewrite (proj2 (Hp a 0%nat eq_refl)), count_zip by done.
  replace (64 * W)%nat with (length a + (64 * W - length a))%nat by lia.
  rewrite count_add.
  match goal with |- (_ + ?c)%nat = _ => assert (c = 0)%nat as -> end.
  { apply count_none. intros i _. rewrite (proj1 (Hp a _ eq_refl)), (proj1 (Hp b _ (eq_sym Hl))).
    by rewrite !lookup_ge_None_2 by lia. }
  rewrite Nat.add_0_r. apply count_ext. intros i _.
  by rewrite (proj1 (Hp a i eq_refl)), (proj1 (Hp b i (eq_sym Hl))).
Qed.

Lemma hamming_signs_witness :
  hamming (pack_signs (replicate 70 f32_one)) (pack_signs (replicate 69 f32_one ++ [f32_opp f32_one]))
  = 1%nat.
Proof.
  rewrite (hamming_signs (replicate 70 f32_one) (replicate 69 f32_one ++ [f32_opp f32_one]));
    [by vm_compute|done].
Defined.

Lemma topk_scan_spec_witness :
  topk_scan Nat.compare 2 [(f32_half, 1); (f32_one, 2); (f32_one, 0); (f32_zero, 3)]%nat
  = [(f32_one, 0); (f32_one, 2)]%nat.
Proof.
  rewrite (topk_scan_spec Nat.compare 2 [(f32_one, 2); (f32_half, 1); (f32_one, 0); (f32_zero, 3)]%nat);
    [by vm_compute| |].
  - cbn. repeat (constructor; [set_solver|]). constructor.
  - constructor.
Defined.
