(* ===== verification/Std.v ===== *)
(** * Std: the parts of the standard library the query side leans on

    White space and trimming, wrapping 64-bit arithmetic, fixed-size chunks,
    and [sort_unstable_by], whose order of equal elements is unspecified: a
    class states what it promises, and results must hold for every instance. *)
From S2P Require Import Prelude Sort.

(** ** Characters *)

(** [char::is_whitespace], the Unicode property [White_Space]. *)
Definition is_whitespace (c : char) : bool :=
  ((9 <=? c) && (c <=? 13) || (c =? 32) || (c =? 0x85) || (c =? 0xA0) || (c =? 0x1680)
   || (0x2000 <=? c) && (c <=? 0x200A) || (c =? 0x2028) || (c =? 0x2029) || (c =? 0x202F)
   || (c =? 0x205F) || (c =? 0x3000))%N.

Fixpoint skip_while {A} (p : A -> bool) (l : list A) : list A :=
  match l with
  | [] => []
  | x :: l' => if p x then skip_while p l' else l
  end.
Fixpoint take_while {A} (p : A -> bool) (l : list A) : list A :=
  match l with
  | [] => []
  | x :: l' => if p x then x :: take_while p l' else []
  end.

Definition trim_end (s : rstring) : rstring := rev (skip_while is_whitespace (rev s)).
(** [str::trim]. *)
Definition trim (s : rstring) : rstring := trim_end (skip_while is_whitespace s).
Definition is_blank (s : rstring) : bool := forallb is_whitespace s.

Lemma take_skip_while {A} (p : A -> bool) (l : list A) : take_while p l ++ skip_while p l = l.
Proof. induction l as [|x l IH]; cbn; [done|]. destruct (p x); cbn; [by rewrite IH|done]. Qed.

Lemma skip_while_nil {A} (p : A -> bool) (l : list A) : skip_while p l = [] <-> forallb p l = true.
Proof. induction l as [|x l IH]; cbn; [done|]. by destruct (p x). Qed.

Lemma skip_while_head {A} (p : A -> bool) (l : list A) x r : skip_while p l = x :: r -> p x = false.
Proof. induction l as [|y l IH]; cbn; [done|]. destruct (p y) eqn:E; [exact IH|]. by intros [= <- _]. Qed.

Lemma take_while_all {A} (p : A -> bool) (l : list A) : Forall (fun x => p x = true) (take_while p l).
Proof. induction l as [|x l IH]; cbn; [done|]. destruct (p x) eqn:E; by repeat constructor. Qed.

Lemma length_skip_while {A} (p : A -> bool) (l : list A) : (length (skip_while p l) <= length l)%nat.
Proof. induction l as [|x l IH]; cbn; [done|]. destruct (p x); cbn; lia. Qed.

Lemma trim_nil s : trim s = [] <-> is_blank s = true.
Proof.
  unfold trim, trim_end, is_blank. split.
  - intros H. apply (f_equal (@rev N)) in H. rewrite rev_involutive in H. cbn in H.
    apply skip_while_nil in H. rewrite forallb_forall in H. apply skip_while_nil.
    destruct (skip_while is_whitespace s) as [|x r] eqn:E; [done|].
    apply skip_while_head in E. rewrite (H x) in E; [done|]. apply in_rev. rewrite rev_involutive. by left.
  - intros H. apply skip_while_nil in H. by rewrite H.
Qed.

(** ** 64-bit words *)

(** Reduction of an integer to the range of [i64]. *)
Definition i64_wrap (z : Z) : Z := ((z + 2 ^ 63) mod 2 ^ 64 - 2 ^ 63)%Z.

Lemma i64_wrap_id z : is_i64 z -> i64_wrap z = z.
Proof. unfold is_i64, i64_min, i64_max, i64_wrap. intros H. rewrite Z.mod_small; lia. Qed.

Lemma i64_wrap_range z : is_i64 (i64_wrap z).
Proof.
  unfold is_i64, i64_min, i64_max, i64_wrap.
  pose proof (Z.mod_pos_bound (z + 2 ^ 63) (2 ^ 64) ltac:(lia)). lia.
Qed.

(** A [usize] saturating operation never wraps; [usize] is 64 bits wide. *)
Definition usize_max : N := 2 ^ 64 - 1.
Definition sat_add (a b : N) : N := N.min (a + b) usize_max.
Definition sat_mul (a b : N) : N := N.min (a * b) usize_max.

(** ** Chunks *)

(** [slice::chunks]: consecutive pieces of [n] elements, the last one shorter. *)
Fixpoint chunks_fuel {A} (fuel n : nat) (l : list A) : list (list A) :=
  match fuel, l with
  | S fuel', _ :: _ => take n l :: chunks_fuel fuel' n (drop n l)
  | _, _ => []
  end.
Definition chunks {A} (n : nat) (l : list A) : list (list A) := chunks_fuel (length l) n l.

Lemma chunks_fuel_join {A} (fuel n : nat) (l : list A) :
  (0 < n)%nat -> (length l <= fuel)%nat -> mjoin (chunks_fuel fuel n l) = l.
Proof.
  intros Hn. revert l. induction fuel as [|fuel IH]; intros l Hl; [by destruct l; [|cbn in Hl; lia]|].
  destruct l as [|x l]; [done|]. cbn [chunks_fuel].
  change (mjoin (?c :: ?cs)) with (c ++ mjoin cs).
  rewrite IH by (rewrite length_drop; cbn in *; lia). apply take_drop.
Qed.

Lemma chunks_join {A} (n : nat) (l : list A) : (0 < n)%nat -> mjoin (chunks n l) = l.
Proof. intros Hn. by apply chunks_fuel_join. Qed.

Definition div_ceil (a b : nat) : nat := (a + b - 1) / b.

(** ** Unstable sorting *)

(** [slice::sort_unstable_by] and [sort_unstable_by_key]: some sorted
    permutation of the input. *)
Class SortUnstable := {
  sort_unstable : forall {A : Type}, (A -> A -> comparison) -> list A -> list A;
  sort_unstable_perm : forall {A} (cmp : A -> A -> comparison) l, sort_unstable cmp l ≡ₚ l;
  sort_unstable_sorted : forall {A} (cmp : A -> A -> comparison) l, CmpOrder cmp ->
    StronglySorted (cmp_le cmp) (sort_unstable cmp l)
}.

(** The stable sort is one. *)
#[export] Instance stable_is_unstable : SortUnstable | 100 := {|
  sort_unstable := @sort_by;
  sort_unstable_perm := @sort_by_perm;
  sort_unstable_sorted := fun A cmp l H => @sort_by_sorted A cmp H l
|}.

Lemma sort_unstable_exact `{SortUnstable} {A} (cmp : A -> A -> comparison) `{!CmpOrder cmp} l :
  (forall x y, x ∈ l -> y ∈ l -> cmp x y = Eq -> x = y) -> sort_unstable cmp l = sort_by cmp l.
Proof.
  intros Hex. symmetry. apply sort_by_unique; [done|done|apply sort_unstable_perm|].
  by apply sort_unstable_sorted.
Qed.

(** ** Byte indices into a string *)

Definition len_utf8 (c : char) : nat :=
  (if (c <? 0x80)%N then 1 else if (c <? 0x800)%N then 2 else if (c <? 0x10000)%N then 3 else 4)%nat.
(** [str::len]. *)
Definition str_len (s : rstring) : nat := list_sum (map len_utf8 s).

(** [str::split_at]: [None] when the index is not a character boundary. *)
Fixpoint split_at (s : rstring) (n : nat) : option (rstring * rstring) :=
  match n, s with
  | O, _ => Some ([], s)
  | S _, [] => None
  | S _, c :: s' =>
      if (n <? len_utf8 c)%nat then None
      else '(a, b) ← split_at s' (n - len_utf8 c); Some (c :: a, b)
  end.

(** [&s[a..b]]. *)
Definition str_slice (s : rstring) (a b : nat) : option rstring :=
  if (b <? a)%nat then None
  else '(_, t) ← split_at s a; '(u, _) ← split_at t (b - a); Some u.

(** [str::char_indices]. *)
Fixpoint char_indices_from (i : nat) (s : rstring) : list (nat * char) :=
  match s with
  | [] => []
  | c :: s' => (i, c) :: char_indices_from (i + len_utf8 c) s'
  end.
Definition char_indices (s : rstring) : list (nat * char) := char_indices_from 0 s.

(** [str::starts_with] and [str::ends_with] a string. *)
Definition starts_with (s p : rstring) : bool := bool_decide (take (length p) s = p).
Definition ends_with (s suf : rstring) : bool := bool_decide (drop (length s - length suf) s = suf).

Lemma len_utf8_pos c : (1 <= len_utf8 c <= 4)%nat.
Proof. unfold len_utf8. repeat case_match; lia. Qed.

Lemma str_len_app a b : str_len (a ++ b) = (str_len a + str_len b)%nat.
Proof. unfold str_len. by rewrite map_app, list_sum_app. Qed.

Lemma str_len_cons c s : str_len (c :: s) = (len_utf8 c + str_len s)%nat.
Proof. done. Qed.

Lemma str_len_nil s : str_len s = 0%nat <-> s = [].
Proof.
  destruct s as [|c s]; [done|]. rewrite str_len_cons. pose proof (len_utf8_pos c). split; [lia|done].
Qed.

Lemma split_at_app a b : split_at (a ++ b) (str_len a) = Some (a, b).
Proof.
  induction a as [|c a IH]; [by destruct b|]. cbn [app]. rewrite str_len_cons.
  pose proof (len_utf8_pos c). destruct (len_utf8 c + str_len a)%nat as [|n] eqn:E; [lia|].
  cbn [split_at]. rewrite <- E. rewrite (proj2 (Nat.ltb_ge _ _)) by lia.
  replace (len_utf8 c + str_len a - len_utf8 c)%nat with (str_len a) by lia. by rewrite IH.
Qed.

Lemma split_at_Some s n a b : split_at s n = Some (a, b) <-> s = a ++ b /\ n = str_len a.
Proof.
  split; [|intros [-> ->]; apply split_at_app]. revert n a.
  induction s as [|c s IH]; intros [|n] a; cbn [split_at]; try (by intros [= <- <-]).
  destruct (Nat.ltb_spec (S n) (len_utf8 c)); [done|].
  destruct (split_at s (S n - len_utf8 c)) as [[a' b']|] eqn:E; [|done].
  intros [= <- <-]. apply IH in E as [-> E]. split; [done|]. rewrite str_len_cons. lia.
Qed.

Lemma str_slice_Some s i j u :
  str_slice s i j = Some u <-> exists a b, s = a ++ u ++ b /\ i = str_len a /\ j = str_len (a ++ u).
Proof.
  unfold str_slice. split.
  - destruct (Nat.ltb_spec j i) as [|Hij]; [done|].
    destruct (split_at s i) as [[a t]|] eqn:E; [|done]. apply split_at_Some in E as [-> ->].
    cbn [mbind option_bind]. destruct (split_at t _) as [[v b]|] eqn:E; [|done].
    apply split_at_Some in E as [-> E]. intros [= ->]. exists a, b. rewrite str_len_app. split_and!; [done..|lia].
  - intros (a & b & -> & -> & ->). rewrite str_len_app, (proj2 (Nat.ltb_ge _ _)) by lia.
    rewrite split_at_app. cbn [mbind option_bind].
    replace (str_len a + str_len u - str_len a)%nat with (str_len u) by lia. by rewrite split_at_app.
Qed.

Lemma starts_with_spec s p : starts_with s p = true <-> p `prefix_of` s.
Proof.
  unfold starts_with. rewrite bool_decide_eq_true. split.
  - intros <-. apply prefix_take.
  - intros [t ->]. apply take_app_length.
Qed.

Lemma ends_with_spec s suf : ends_with s suf = true <-> suf `suffix_of` s.
Proof.
  unfold ends_with. rewrite bool_decide_eq_true. split.
  - intros <-. exists (take (length s - length suf) s). by rewrite take_drop.
  - intros [t ->]. rewrite length_app, Nat.add_sub. apply drop_app_length.
Qed.

(** ** Binary search

    [slice::binary_search_by]: the window of [size] elements from [base] on is
    halved until one is left. *)
Section binary_search.
Context {A : Type} (cmp : A -> comparison).

Fixpoint bsearch_loop (fuel : nat) (l : list A) (size base : nat) : nat :=
  match fuel with
  | O => base
  | S fuel' =>
      if (size <=? 1)%nat then base
      else
        let half := (size / 2)%nat in
        let mid := (base + half)%nat in
        bsearch_loop fuel' l (size - half)
          (match cmp <$> l !! mid with Some Gt => base | _ => mid end)
  end.

(** Whether the search finds an element that compares equal. *)
Definition binary_search (l : list A) : bool :=
  match l !! bsearch_loop (length l) l (length l) 0 with
  | Some x => match cmp x with Eq => true | _ => false end
  | None => false
  end.

(** The elements compare [Lt], then [Eq], then [Gt]. *)
Definition partitioned (l : list A) : Prop :=
  forall i j x y, (i <= j)%nat -> l !! i = Some x -> l !! j = Some y ->
    (cmp x = Gt -> cmp y = Gt) /\ (cmp y = Lt -> cmp x = Lt).

Definition hit_in (l : list A) (lo hi : nat) : Prop :=
  exists i x, (lo <= i < hi)%nat /\ l !! i = Some x /\ cmp x = Eq.

Lemma bsearch_loop_spec fuel l size base :
  partitioned l -> (size <= fuel)%nat -> (0 < size)%nat -> (base + size <= length l)%nat ->
  hit_in l base (base + size) ->
  exists x, l !! bsearch_loop fuel l size base = Some x /\ cmp x = Eq.
Proof.
  intros Hp. revert size base.
  induction fuel as [|fuel IH]; intros size base Hf Hs Hb Hh; [lia|]. cbn [bsearch_loop].
  destruct (Nat.leb_spec size 1) as [H1|H1].
  { destruct Hh as (i & x & Hi & Hx & Ex). assert (i = base) as -> by lia. eauto. }
  pose proof (Nat.div_mod size 2 ltac:(lia)). pose proof (Nat.mod_upper_bound size 2 ltac:(lia)).
  set (half := (size / 2)%nat) in *.
  destruct (lookup_lt_is_Some_2 l (base + half)) as [y Hy]; [lia|]. rewrite Hy. cbn [fmap option_fmap option_map].
  destruct Hh as (i & x & Hi & Hx & Ex).
  destruct (cmp y) eqn:Ey.
  - apply IH; [lia..|]. exists (base + half)%nat, y. split; [lia|done].
  - apply IH; [lia..|]. exists i, x. split; [|done].
    destruct (decide (i <= base + half)%nat) as [Hle|]; [|lia].
    destruct (Hp i (base + half)%nat x y Hle Hx Hy) as [_ H']. rewrite H' in Ex; done.
  - apply IH; [lia..|]. exists i, x. split; [|done].
    destruct (decide (base + half <= i)%nat) as [Hle|]; [|lia].
    destruct (Hp (base + half)%nat i y x Hle Hy Hx) as [H' _]. rewrite H' in Ex; done.
Qed.

Lemma binary_search_spec l :
  partitioned l -> binary_search l = true <-> exists x, x ∈ l /\ cmp x = Eq.
Proof.
  intros Hp. unfold binary_search. split.
  - destruct (l !! _) as [x|] eqn:E; [|done]. destruct (cmp x) eqn:Ex; [|done..]. intros _.
    exists x. split; [by eapply list_elem_of_lookup_2|done].
  - intros (x & [i Hi]%list_elem_of_lookup & Ex).
    pose proof (lookup_lt_Some _ _ _ Hi) as Hl.
    destruct (bsearch_loop_spec (length l) l (length l) 0 Hp) as (y & -> & Ey); [lia..| |by rewrite Ey].
    exists i, x. split; [lia|done].
Qed.
End binary_search.

Lemma sorted_partitioned {A} (cmp : A -> A -> comparison) `{!CmpOrder cmp} (t : A) l :
  StronglySorted (cmp_le cmp) l -> partitioned (fun x => cmp x t) l.
Proof.
  intros Hs i j x y Hij Hx Hy.
  assert (cmp_le cmp x y) as Hxy.
  { destruct (decide (i = j)) as [->|Hne].
    - assert (x = y) as -> by congruence. unfold cmp_le. by rewrite cmp_refl.
    - revert i j Hij Hx Hy Hne. induction Hs as [|z l Hs IH Hz]; intros [|i] [|j] Hij Hx Hy Hne; try done; try lia.
      + cbn in Hx. injection Hx as ->. rewrite Forall_forall in Hz. apply Hz. by eapply list_elem_of_lookup_2.
      + apply (IH i j); [lia|done|done|lia]. }
  split; intros E.
  - destruct (cmp y t) eqn:Ey; [| |done]; exfalso.
    + assert (cmp_le cmp x t) as H by (apply (cmp_le_trans cmp x y t); [done|unfold cmp_le; congruence]).
      by apply H.
    + assert (cmp_le cmp x t) as H by (apply (cmp_le_trans cmp x y t); [done|unfold cmp_le; congruence]).
      by apply H.
  - by apply (cmp_le_lt_trans cmp x y t).
Qed.

(** Sortedness by evaluation. *)
Fixpoint sortedb {A} (cmp : A -> A -> comparison) (l : list A) : bool :=
  match l with
  | x :: ((y :: _) as l') => match cmp x y with Gt => false | _ => sortedb cmp l' end
  | _ => true
  end.

Lemma sortedb_sorted {A} (cmp : A -> A -> comparison) `{!CmpOrder cmp} l :
  sortedb cmp l = true -> StronglySorted (cmp_le cmp) l.
Proof.
  intros H. apply Sorted_StronglySorted; [intros x y z; apply (cmp_le_trans cmp)|].
  induction l as [|x l IH]; [constructor|]. destruct l as [|y l]; [by repeat constructor|].
  cbn [sortedb] in H. destruct (cmp x y) eqn:E; [| |done]; (constructor; [by apply IH|]);
    constructor; unfold cmp_le; congruence.
Qed.

(** ** Iteration over a hash map or a hash set: in some order *)
Class HashIter := {
  hash_iter : forall {A : Type}, list A -> list A;
  hash_iter_perm : forall {A} (l : list A), hash_iter l ≡ₚ l
}.
#[export] Instance list_iter : HashIter | 100 := {|
  hash_iter := fun _ l => l;
  hash_iter_perm := fun _ _ => Permutation_refl _
|}.

(** [BTreeMap::range(p..)] cut by [take_while(starts_with(p))]. *)
Definition prefix_range {V} (m : gmap rstring V) (p : rstring) : list (rstring * V) :=
  take_while (fun kv => starts_with kv.1 p)
    (skip_while (fun kv => match str_cmp kv.1 p with Lt => true | _ => false end) (bt_entries m)).

Lemma starts_with_not_lt s p : starts_with s p = true -> str_cmp s p <> Lt.
Proof.
  intros [t ->]%starts_with_spec. induction p as [|c p IH]; cbn; [by destruct t|].
  by rewrite N.compare_refl.
Qed.

(** The strings that start with [p] are contiguous. *)
Lemma starts_with_between a b p :
  str_cmp a p <> Lt -> str_cmp a b <> Gt -> starts_with b p = true -> starts_with a p = true.
Proof.
  intros Ha Hab [t ->]%starts_with_spec. apply starts_with_spec.
  revert a Ha Hab. induction p as [|c p IH]; intros a Ha Hab; [apply prefix_nil|].
  destruct a as [|x a]; [done|]. cbn in Ha, Hab. destruct (N.compare_spec x c) as [->|Hlt|Hgt].
  - apply prefix_cons. by apply IH.
  - done.
  - done.
Qed.

Lemma bt_entries_sorted {V} (m : gmap rstring V) :
  StronglySorted (fun x y => str_cmp x.1 y.1 <> Gt) (bt_entries m).
Proof.
  assert (Transitive (@key_le V)) as Ht by (intros a b c; apply str_leb_trans).
  assert (Total (@key_le V)) as Hl by (intros a b; apply str_leb_total).
  pose proof (StronglySorted_merge_sort (@key_le V) (map_to_list m)) as H.
  change (StronglySorted key_le (bt_entries m)) in H. revert H. generalize (bt_entries m).
  induction 1 as [|x l Hs IH Hx]; constructor; [done|]. eapply Forall_impl; [exact Hx|].
  intros y. unfold key_le, str_leb. by destruct (str_cmp x.1 y.1).
Qed.

Lemma filter_false {A} (f : A -> bool) l : (forall x, x ∈ l -> f x = false) -> List.filter f l = [].
Proof.
  induction l as [|x l IH]; intros H; [done|]. cbn. rewrite (H x) by constructor.
  apply IH. intros y Hy. apply H. by constructor.
Qed.

Lemma prefix_run {V} (l : list (rstring * V)) p :
  StronglySorted (fun x y => str_cmp x.1 y.1 <> Gt) l -> Forall (fun x => str_cmp x.1 p <> Lt) l ->
  take_while (fun kv => starts_with kv.1 p) l = List.filter (fun kv => starts_with kv.1 p) l.
Proof.
  induction 1 as [|x l Hs IH Hx]; [done|]. intros [Hxp Hl]%Forall_cons. cbn [take_while List.filter].
  destruct (starts_with x.1 p) eqn:E; [by rewrite IH|]. symmetry. apply filter_false. intros z Hz.
  rewrite Forall_forall in Hx. destruct (starts_with z.1 p) eqn:Ez; [|done].
  by rewrite (starts_with_between x.1 z.1 p Hxp (Hx z Hz) Ez) in E.
Qed.

Lemma prefix_range_spec {V} (m : gmap rstring V) p :
  prefix_range m p = List.filter (fun kv => starts_with kv.1 p) (bt_entries m).
Proof.
  unfold prefix_range. induction (bt_entries_sorted m) as [|x l Hs IH Hx]; [done|].
  assert (str_cmp x.1 p <> Lt ->
    take_while (fun kv : rstring * V => starts_with kv.1 p) (x :: l)
    = List.filter (fun kv => starts_with kv.1 p) (x :: l)) as Hrun.
  { intros Hxp. apply prefix_run; [by constructor|]. constructor; [done|].
    eapply Forall_impl; [exact Hx|]. cbn. intros z Hz Hzp. apply Hxp.
    by apply (cmp_le_lt_trans str_cmp x.1 z.1 p). }
  cbn [skip_while]. destruct (str_cmp x.1 p) eqn:Ec; [by apply Hrun| |by apply Hrun].
  rewrite IH. cbn [List.filter]. destruct (starts_with x.1 p) eqn:E; [|done].
  by apply starts_with_not_lt in E.
Qed.

(** ** Sums *)

Lemma list_sum_perm (l1 l2 : list nat) : l1 ≡ₚ l2 -> list_sum l1 = list_sum l2.
Proof. unfold list_sum. induction 1; cbn in *; lia. Qed.
