(* ===== verification/Model.v ===== *)
(** * Model: the data vocabulary ([src/src/model.rs] and the declarations it uses)

    The types every component shares: values and filters, records and hits,
    query options, and the operations of the log.  [usize] lengths and row
    numbers are [nat] (they are bounded by what is in memory), [u64] counters
    and caps are [N], [i64] is [Z], floats are their bits ([Floats]). *)
From S2P Require Import Prelude Floats.

(** ** Metric, quantization, index configuration *)

Inductive Distance := Cosine | Euclidean | DotProduct.
#[export] Instance Distance_eq_dec : EqDecision Distance.
Proof. solve_decision. Defined.

Inductive QuantKind := Int8 | Binary.
#[export] Instance QuantKind_eq_dec : EqDecision QuantKind.
Proof. solve_decision. Defined.

Record Quantization := { q_kind : QuantKind; q_rescore : nat }.
#[export] Instance Quantization_eq_dec : EqDecision Quantization.
Proof. solve_decision. Defined.

Definition Quantization_int8 : Quantization := {| q_kind := Int8; q_rescore := 4 |}.
Definition Quantization_binary : Quantization := {| q_kind := Binary; q_rescore := 16 |}.
Definition set_rescore (q : Quantization) (n : nat) : Quantization :=
  {| q_kind := q_kind q; q_rescore := Nat.max n 1 |}.

Inductive AnnKind := Hnsw | Ivf.
#[export] Instance AnnKind_eq_dec : EqDecision AnnKind.
Proof. solve_decision. Defined.

Record AnnConfig := {
  a_kind : AnnKind;
  a_m : nat;
  a_ef_construction : nat;
  a_ef_search : nat;
  a_n_lists : nat;
  a_n_probe : nat;
  a_overscan : nat;
  a_seed : N
}.
#[export] Instance AnnConfig_eq_dec : EqDecision AnnConfig.
Proof. solve_decision. Defined.

Definition ann_default_seed : N := 0x9E3779B97F4A7C15.
Definition AnnConfig_hnsw : AnnConfig :=
  {| a_kind := Hnsw; a_m := 16; a_ef_construction := 200; a_ef_search := 64;
     a_n_lists := 0; a_n_probe := 8; a_overscan := 4; a_seed := ann_default_seed |}.
Definition AnnConfig_ivf : AnnConfig :=
  {| a_kind := Ivf; a_m := 16; a_ef_construction := 200; a_ef_search := 64;
     a_n_lists := 0; a_n_probe := 8; a_overscan := 4; a_seed := ann_default_seed |}.

(** ** Values and records *)

Inductive Value :=
| VNull
| VStr (s : rstring)
| VInt (n : Z)
| VBool (b : bool)
| VList (l : list rstring)
| VFloat (x : f64)
| VDateTime (ms : Z).
#[export] Instance Value_eq_dec : EqDecision Value.
Proof. solve_decision. Defined.

(** [PartialEq for Value]: structural, except that floats compare by IEEE
    equality, so a NaN equals nothing and the two zeros are equal. *)
Definition value_eqb (a b : Value) : bool :=
  match a, b with
  | VNull, VNull => true
  | VStr s, VStr t => bool_decide (s = t)
  | VInt m, VInt n => Z.eqb m n
  | VBool p, VBool q => Bool.eqb p q
  | VList l, VList k => bool_decide (l = k)
  | VFloat x, VFloat y => f64_eqb x y
  | VDateTime m, VDateTime n => Z.eqb m n
  | _, _ => false
  end.

(** An attribute map, [BTreeMap<String, Value>]. *)
Abbreviation attrs_map := (gmap rstring Value) (only parsing).

Definition DEFAULT_VECTOR : rstring := lit "default".
Definition MAX_VECTOR_NAMES : nat := 16.

Record VRecord := {
  rec_id : rstring;
  rec_vector : option (list f32);
  rec_vectors : gmap rstring (list f32);
  rec_attrs : attrs_map
}.

Definition Record_new (id : rstring) (v : list f32) (attrs : attrs_map) : VRecord :=
  {| rec_id := id; rec_vector := Some v; rec_vectors := ∅; rec_attrs := attrs |}.
Definition Record_text_only (id : rstring) (attrs : attrs_map) : VRecord :=
  {| rec_id := id; rec_vector := None; rec_vectors := ∅; rec_attrs := attrs |}.
Definition Record_named (id : rstring) (vectors : gmap rstring (list f32))
    (attrs : attrs_map) : VRecord :=
  {| rec_id := id; rec_vector := None; rec_vectors := vectors; rec_attrs := attrs |}.

(** ** Filters *)

Inductive Predicate :=
| PEq (key : rstring) (v : Value)
| PNe (key : rstring) (v : Value)
| PGlob (key pattern : rstring)
| PIGlob (key pattern : rstring)
| PIn (key : rstring) (set : list Value)
| PNotIn (key : rstring) (set : list Value)
| PLt (key : rstring) (v : Value)
| PLe (key : rstring) (v : Value)
| PGt (key : rstring) (v : Value)
| PGe (key : rstring) (v : Value)
| PContains (key : rstring) (v : Value)
| PNotContains (key : rstring) (v : Value)
| PContainsAny (key : rstring) (set : list Value)
| PAll (ps : list Predicate)
| PAny (ps : list Predicate)
| PNot (p : Predicate)
| PFuzzy (key needle : rstring) (max_edits : nat)
| PContainsAllTokens (key query : rstring)
| PContainsAnyToken (key query : rstring)
| PContainsTokenSequence (key query : rstring)
| PRegex (key pattern : rstring).

Record Filter := { filter_preds : list Predicate }.
Definition Filter_default : Filter := {| filter_preds := [] |}.

(** ** Full-text and filter-index declarations *)

Inductive Language := English.
#[export] Instance Language_eq_dec : EqDecision Language.
Proof. solve_decision. Defined.

Record Analyzer := {
  an_language : Language;
  an_ascii_folding : bool;
  an_max_token_len : option nat
}.
#[export] Instance Analyzer_eq_dec : EqDecision Analyzer.
Proof. solve_decision. Defined.

Definition Analyzer_default : Analyzer :=
  {| an_language := English; an_ascii_folding := false; an_max_token_len := None |}.

Record FtsField := {
  fts_field : rstring;
  fts_k1 : f32;
  fts_b : f32;
  fts_analyzer : Analyzer
}.
#[export] Instance FtsField_eq_dec : EqDecision FtsField.
Proof. solve_decision. Defined.

(** [1.2] and [0.75] as [f32]. *)
Definition DEFAULT_K1 : f32 := 0x3F99999A.
Definition DEFAULT_B : f32 := 0x3F400000.
Definition FtsField_new (field : rstring) : FtsField :=
  {| fts_field := field; fts_k1 := DEFAULT_K1; fts_b := DEFAULT_B;
     fts_analyzer := Analyzer_default |}.
Definition FtsField_language (f : FtsField) (l : Language) : FtsField :=
  {| fts_field := fts_field f; fts_k1 := fts_k1 f; fts_b := fts_b f;
     fts_analyzer := {| an_language := l;
       an_ascii_folding := an_ascii_folding (fts_analyzer f);
       an_max_token_len := an_max_token_len (fts_analyzer f) |} |}.

(** [fts::schema::validate]. *)
Inductive fts_error := FtsEmptyField | FtsBadK1 | FtsBadB | FtsBadTokenLen.

Definition fts_validate_one (f : FtsField) : result fts_error unit :=
  if bool_decide (fts_field f = []) then Err FtsEmptyField
  else if negb (f32_is_finite (fts_k1 f)) || f32_ltb (fts_k1 f) f32_zero then Err FtsBadK1
  else if negb (f32_is_finite (fts_b f)) ||
          negb (f32_leb f32_zero (fts_b f) && f32_leb (fts_b f) f32_one) then Err FtsBadB
  else if bool_decide (an_max_token_len (fts_analyzer f) = Some 0%nat) then Err FtsBadTokenLen
  else Ok tt.

Definition fts_validate (fields : list FtsField) : result fts_error unit :=
  try_for_each fts_validate_one fields.

Record FilterIndexField := { fi_field : rstring; fi_tokens : bool; fi_trigrams : bool }.
#[export] Instance FilterIndexField_eq_dec : EqDecision FilterIndexField.
Proof. solve_decision. Defined.

Definition FilterIndexField_new (field : rstring) : FilterIndexField :=
  {| fi_field := field; fi_tokens := true; fi_trigrams := true |}.
Definition FilterIndexField_tokens (f : FilterIndexField) (on : bool) : FilterIndexField :=
  {| fi_field := fi_field f; fi_tokens := on; fi_trigrams := fi_trigrams f |}.
Definition FilterIndexField_trigrams (f : FilterIndexField) (on : bool) : FilterIndexField :=
  {| fi_field := fi_field f; fi_tokens := fi_tokens f; fi_trigrams := on |}.

(** [findex::schema::validate]: the fields are walked once with the set of the
    names already seen. *)
Inductive findex_error := FindexEmptyField | FindexNothing | FindexTwice.

Fixpoint findex_validate_from (seen : gset rstring) (fields : list FilterIndexField)
  : result findex_error unit :=
  match fields with
  | [] => Ok tt
  | f :: fs =>
      if bool_decide (fi_field f = []) then Err FindexEmptyField
      else if negb (fi_tokens f) && negb (fi_trigrams f) then Err FindexNothing
      else if bool_decide (fi_field f ∈ seen) then Err FindexTwice
      else findex_validate_from ({[fi_field f]} ∪ seen) fs
  end.
Definition findex_validate (fields : list FilterIndexField) : result findex_error unit :=
  findex_validate_from ∅ fields.

Lemma findex_validate_from_ok seen fields :
  findex_validate_from seen fields = Ok tt <->
  Forall (fun f => fi_field f <> [] /\ fi_tokens f || fi_trigrams f = true /\
                   fi_field f ∉ seen) fields /\
  NoDup (map fi_field fields).
Proof.
  revert seen. induction fields as [|f fs IH]; intros seen; simpl.
  { split; [|done]. intros _. split; constructor. }
  rewrite Forall_cons, NoDup_cons. case_bool_decide as Hf; [split; [done|]; intros [[(? & _) _] _]; done|].
  destruct (fi_tokens f || fi_trigrams f) eqn:Ht; cycle 1.
  { apply orb_false_elim in Ht as [-> ->]. simpl. split; [done|]. intros [[(_ & ? & _) _] _]. done. }
  replace (negb (fi_tokens f) && negb (fi_trigrams f)) with false
    by (rewrite <- negb_orb, Ht; done).
  case_bool_decide as Hs; [split; [done|]; intros [[(_ & _ & ?) _] _]; done|].
  rewrite IH, !Forall_forall. split.
  - intros [H Hnd]. split_and!; try done.
    + intros g Hg. destruct (H g Hg) as (? & ? & ?). set_solver.
    + rewrite list_elem_of_fmap. intros (g & E & Hg). destruct (H g Hg) as (_ & _ & Hn).
      rewrite E in Hn. set_solver.
  - intros [[_ H] [Hn Hnd]]. split; [|done]. intros g Hg.
    destruct (H g Hg) as (? & ? & ?). split_and!; try done.
    apply not_elem_of_union. split; [|done]. intros E%elem_of_singleton.
    apply Hn. rewrite <- E. by apply list_elem_of_fmap_2.
Qed.

(** ** The recorded open-time profile ([src/src/profile.rs]) *)

Record OpenProfile := {
  op_ann : option AnnConfig;
  op_quantization : option Quantization;
  op_query_threads : option nat;
  op_mmap : option bool
}.
#[export] Instance OpenProfile_eq_dec : EqDecision OpenProfile.
Proof. solve_decision. Defined.

Definition OpenProfile_default : OpenProfile :=
  {| op_ann := None; op_quantization := None; op_query_threads := None; op_mmap := None |}.

Definition opt_or {A} (a b : option A) : option A :=
  match a with Some _ => a | None => b end.

Definition OpenProfile_overlay (self newer : OpenProfile) : OpenProfile :=
  {| op_ann := opt_or (op_ann newer) (op_ann self);
     op_quantization := opt_or (op_quantization newer) (op_quantization self);
     op_query_threads := opt_or (op_query_threads newer) (op_query_threads self);
     op_mmap := opt_or (op_mmap newer) (op_mmap self) |}.

(** ** The operations of the log *)

Inductive Op :=
| OpCreateCollection (collection : rstring)
| OpDropCollection (collection : rstring)
| OpSetMeta (collection : rstring) (meta : gmap rstring rstring)
| OpUpsert (collection id : rstring) (row : nat) (attrs : attrs_map)
| OpDelete (collection id : rstring)
| OpUpsertText (collection id : rstring) (attrs : attrs_map)
| OpSetFtsSchema (collection : rstring) (fields : list (rstring * Language))
| OpSetFtsFields (collection : rstring) (fields : list FtsField)
| OpSetFilterIndex (collection : rstring) (fields : list FilterIndexField)
| OpReinforce (collection id : rstring) (access_count last_accessed : Z)
    (expires_at : option Z)
| OpUpsertVectors (collection id : rstring) (rows : list (rstring * nat)) (attrs : attrs_map)
| OpSetVectorNames (collection : rstring) (names : list rstring).

#[export] Instance Op_eq_dec : EqDecision Op.
Proof. solve_decision. Defined.

(** ** Encodings of the vocabulary as numbers

    Used by the concrete codec of the examples. *)

Definition value_rep : Type := unit + rstring + Z + bool + list rstring + Z + Z.

Definition value_to_rep (v : Value) : value_rep :=
  match v with
  | VNull => inl (inl (inl (inl (inl (inl tt)))))
  | VStr s => inl (inl (inl (inl (inl (inr s)))))
  | VInt n => inl (inl (inl (inl (inr n))))
  | VBool b => inl (inl (inl (inr b)))
  | VList l => inl (inl (inr l))
  | VFloat x => inl (inr x)
  | VDateTime m => inr m
  end.

Definition value_of_rep (r : value_rep) : Value :=
  match r with
  | inl (inl (inl (inl (inl (inl _))))) => VNull
  | inl (inl (inl (inl (inl (inr s))))) => VStr s
  | inl (inl (inl (inl (inr n)))) => VInt n
  | inl (inl (inl (inr b))) => VBool b
  | inl (inl (inr l)) => VList l
  | inl (inr x) => VFloat x
  | inr m => VDateTime m
  end.

#[export] Program Instance Value_countable : Countable Value :=
  inj_countable' (A := value_rep) value_to_rep value_of_rep _.
Next Obligation. by intros []. Qed.

#[export] Program Instance Language_countable : Countable Language :=
  inj_countable' (fun _ => tt) (fun _ => English) _.
Next Obligation. by intros []. Qed.

#[export] Program Instance FtsField_countable : Countable FtsField :=
  inj_countable'
    (fun f => (fts_field f, fts_k1 f, fts_b f,
               (an_language (fts_analyzer f), an_ascii_folding (fts_analyzer f),
                an_max_token_len (fts_analyzer f))))
    (fun '(n, k, b, (l, a, m)) =>
       {| fts_field := n; fts_k1 := k; fts_b := b;
          fts_analyzer := {| an_language := l; an_ascii_folding := a; an_max_token_len := m |} |}) _.
Next Obligation. by intros [n k b []]. Qed.

#[export] Program Instance FilterIndexField_countable : Countable FilterIndexField :=
  inj_countable' (fun f => (fi_field f, fi_tokens f, fi_trigrams f))
    (fun '(n, t, g) => {| fi_field := n; fi_tokens := t; fi_trigrams := g |}) _.
Next Obligation. by intros []. Qed.

(** The sum of the operations' fields. *)
Definition op_rep : Type :=
  (rstring + rstring + (rstring * gmap rstring rstring) + (rstring * rstring * nat * gmap rstring Value))
  + ((rstring * rstring) + (rstring * rstring * gmap rstring Value)
     + (rstring * list (rstring * Language)) + (rstring * list FtsField))
  + ((rstring * list FilterIndexField) + (rstring * rstring * Z * Z * option Z)
     + (rstring * rstring * list (rstring * nat) * gmap rstring Value) + (rstring * list rstring)).

Definition op_to_rep (op : Op) : op_rep :=
  match op with
  | OpCreateCollection c => inl (inl (inl (inl (inl c))))
  | OpDropCollection c => inl (inl (inl (inl (inr c))))
  | OpSetMeta c m => inl (inl (inl (inr (c, m))))
  | OpUpsert c id row attrs => inl (inl (inr (c, id, row, attrs)))
  | OpDelete c id => inl (inr (inl (inl (inl (c, id)))))
  | OpUpsertText c id attrs => inl (inr (inl (inl (inr (c, id, attrs)))))
  | OpSetFtsSchema c fs => inl (inr (inl (inr (c, fs))))
  | OpSetFtsFields c fs => inl (inr (inr (c, fs)))
  | OpSetFilterIndex c fs => inr (inl (inl (inl (c, fs))))
  | OpReinforce c id a l e => inr (inl (inl (inr (c, id, a, l, e))))
  | OpUpsertVectors c id rows attrs => inr (inl (inr (c, id, rows, attrs)))
  | OpSetVectorNames c ns => inr (inr (c, ns))
  end.

Definition op_of_rep (r : op_rep) : Op :=
  match r with
  | inl (inl (inl (inl (inl c)))) => OpCreateCollection c
  | inl (inl (inl (inl (inr c)))) => OpDropCollection c
  | inl (inl (inl (inr (c, m)))) => OpSetMeta c m
  | inl (inl (inr (c, id, row, attrs))) => OpUpsert c id row attrs
  | inl (inr (inl (inl (inl (c, id))))) => OpDelete c id
  | inl (inr (inl (inl (inr (c, id, attrs))))) => OpUpsertText c id attrs
  | inl (inr (inl (inr (c, fs)))) => OpSetFtsSchema c fs
  | inl (inr (inr (c, fs))) => OpSetFtsFields c fs
  | inr (inl (inl (inl (c, fs)))) => OpSetFilterIndex c fs
  | inr (inl (inl (inr (c, id, a, l, e)))) => OpReinforce c id a l e
  | inr (inl (inr (c, id, rows, attrs))) => OpUpsertVectors c id rows attrs
  | inr (inr (c, ns)) => OpSetVectorNames c ns
  end.

#[export] Program Instance Op_countable : Countable Op :=
  inj_countable' (A := op_rep) op_to_rep op_of_rep _.
Next Obligation. by intros []. Qed.

#[export] Program Instance AnnKind_countable : Countable AnnKind :=
  inj_countable' (A := bool) (fun k => match k with Hnsw => true | Ivf => false end)
    (fun b => if b then Hnsw else Ivf) _.
Next Obligation. by intros []. Qed.
#[export] Program Instance QuantKind_countable : Countable QuantKind :=
  inj_countable' (A := bool) (fun k => match k with Int8 => true | Binary => false end)
    (fun b => if b then Int8 else Binary) _.
Next Obligation. by intros []. Qed.
#[export] Program Instance Quantization_countable : Countable Quantization :=
  inj_countable' (A := QuantKind * nat) (fun q => (q_kind q, q_rescore q))
    (fun r => {| q_kind := r.1; q_rescore := r.2 |}) _.
Next Obligation. by intros []. Qed.
#[export] Program Instance AnnConfig_countable : Countable AnnConfig :=
  inj_countable' (A := AnnKind * nat * nat * nat * nat * nat * nat * N)
    (fun c => (a_kind c, a_m c, a_ef_construction c, a_ef_search c, a_n_lists c, a_n_probe c,
               a_overscan c, a_seed c))
    (fun '(k, m, efc, efs, nl, np, os, sd) =>
       {| a_kind := k; a_m := m; a_ef_construction := efc; a_ef_search := efs; a_n_lists := nl;
          a_n_probe := np; a_overscan := os; a_seed := sd |}) _.
Next Obligation. by intros []. Qed.
#[export] Program Instance OpenProfile_countable : Countable OpenProfile :=
  inj_countable' (A := option AnnConfig * option Quantization * option nat * option bool)
    (fun p => (op_ann p, op_quantization p, op_query_threads p, op_mmap p))
    (fun '(a, q, t, m) =>
       {| op_ann := a; op_quantization := q; op_query_threads := t; op_mmap := m |}) _.
Next Obligation. by intros []. Qed.
#[export] Program Instance Distance_countable : Countable Distance :=
  inj_countable' (A := option bool)
    (fun d => match d with Cosine => None | Euclidean => Some true | DotProduct => Some false end)
    (fun o => match o with None => Cosine | Some true => Euclidean | Some false => DotProduct end) _.
Next Obligation. by intros []. Qed.
