(* ===== verification/TextPred.v ===== *)
(** * TextPred: fuzzy and token predicates ([src/src/filter/text.rs])

    The Levenshtein distance is the two-row dynamic program of the source;
    [levenshtein_optimal] shows that it is the least number of edits of any
    edit script.  Tokens are the maximal runs of alphanumeric characters; which
    characters are alphanumeric is the Unicode table of the standard library,
    reached through the interface [UnicodeAlnum]. *)
From S2P Require Import Prelude Floats Model.

(** [char::is_alphanumeric].  Only its behaviour on ASCII is relied on. *)
Definition ascii_alnum (c : char) : bool :=
  ((48 <=? c) && (c <=? 57) || (65 <=? c) && (c <=? 90) || (97 <=? c) && (c <=? 122))%N.

Class UnicodeAlnum := {
  is_alphanumeric : char -> bool;
  is_alphanumeric_ascii : forall c, (c < 128)%N -> is_alphanumeric c = ascii_alnum c
}.

(** The table cut down to ASCII, for evaluation. *)
Program Definition ascii_only_alnum : UnicodeAlnum :=
  {| is_alphanumeric := fun c => ((c <? 128)%N && ascii_alnum c) |}.
Next Obligation. intros c Hc. simpl. by rewrite (proj2 (N.ltb_lt _ _) Hc). Qed.

Definition MAX_FUZZY_EDITS : nat := 8.

(** A text attribute offers itself, a list each of its elements. *)
Definition any_text (v : option Value) (pred : rstring -> bool) : bool :=
  match v with
  | Some (VStr s) => pred s
  | Some (VList items) => existsb pred items
  | _ => false
  end.

(** ** Levenshtein distance *)

(** The inner loop: [cur[1..]] from the previous row, [left] being [cur[j]]. *)
Fixpoint lev_inner (ca : char) (b : list char) (prev : list nat) (left : nat) : list nat :=
  match b, prev with
  | cb :: b', p0 :: ((p1 :: _) as prev') =>
      let subst := (p0 + (if (ca =? cb)%N then 0 else 1))%nat in
      let x := Nat.min (Nat.min subst (p1 + 1)) (left + 1) in
      x :: lev_inner ca b' prev' x
  | _, _ => []
  end.

(** The outer loop; the swapped buffer is overwritten entirely, so only the
    previous row is carried. *)
Fixpoint lev_outer (a b : list char) (i : nat) (prev : list nat) : list nat :=
  match a with
  | [] => prev
  | ca :: a' => lev_outer a' b (S i) (S i :: lev_inner ca b prev (S i))
  end.

Definition lev_rows (a b : list char) : nat :=
  if bool_decide (a = []) || bool_decide (b = []) then Nat.max (length a) (length b)
  else default 0%nat (lev_outer a b 0 (seq 0 (S (length b))) !! length b).

Definition levenshtein_ascii_ci (a b : rstring) : nat :=
  lev_rows (str_to_lower a) (str_to_lower b).

(** ** Tokens *)

(** [text.split(p)]: the pieces between the separators. *)
Fixpoint split_on (p : char -> bool) (t : list char) : list (list char) :=
  match t with
  | [] => [[]]
  | c :: t' =>
      if p c then [] :: split_on p t'
      else match split_on p t' with
           | piece :: pieces => (c :: piece) :: pieces
           | [] => [[c]]
           end
  end.

Definition is_separator `{UnicodeAlnum} (c : char) : bool := negb (is_alphanumeric c).
Definition is_nonempty (token : rstring) : bool := negb (bool_decide (token = [])).

Definition tokens `{UnicodeAlnum} (text : rstring) : list rstring :=
  List.filter is_nonempty (split_on is_separator text).

(** [starts_with_tokens have want]. *)
Fixpoint starts_with_tokens (have want : list rstring) : bool :=
  match want with
  | [] => true
  | w :: want' =>
      match have with
      | h :: have' => eq_ignore_ascii_case h w && starts_with_tokens have' want'
      | [] => false
      end
  end.

(** The restart loop of [contains_token_sequence]. *)
Fixpoint token_sequence_loop (cursor want : list rstring) : bool :=
  starts_with_tokens cursor want ||
  match cursor with
  | [] => false
  | _ :: cursor' => token_sequence_loop cursor' want
  end.

Section predicates.
Context `{UnicodeAlnum}.

Definition fuzzy (v : option Value) (needle : rstring) (max_edits : nat) : bool :=
  any_text v (fun text =>
    (* [usize::abs_diff] *)
    (Nat.max (length text) (length needle) - Nat.min (length text) (length needle)
       <=? max_edits)%nat
    && (levenshtein_ascii_ci text needle <=? max_edits)%nat).

Definition contains_all_tokens (v : option Value) (query : rstring) : bool :=
  any_text v (fun text =>
    forallb (fun w => existsb (fun h => eq_ignore_ascii_case h w) (tokens text))
      (tokens query)).

Definition contains_any_token (v : option Value) (query : rstring) : bool :=
  any_text v (fun text =>
    existsb (fun w => existsb (fun h => eq_ignore_ascii_case h w) (tokens text))
      (tokens query)).

Definition contains_token_sequence (v : option Value) (query : rstring) : bool :=
  any_text v (fun text => token_sequence_loop (tokens text) (tokens query)).
End predicates.

(** ** The distance is optimal *)

(** [edit_script a b n]: [n] insertions, deletions and substitutions turn [a]
    into [b]. *)
Inductive edit_script : list char -> list char -> nat -> Prop :=
| es_nil : edit_script [] [] 0
| es_keep x a b n : edit_script a b n -> edit_script (x :: a) (x :: b) n
| es_subst x y a b n : edit_script a b n -> edit_script (x :: a) (y :: b) (S n)
| es_delete x a b n : edit_script a b n -> edit_script (x :: a) b (S n)
| es_insert y a b n : edit_script a b n -> edit_script a (y :: b) (S n).

#[export] Hint Constructors edit_script : nidus.

(** The textbook recursion, on the last characters (the lists are reversed
    prefixes of the two words). *)
Fixpoint lev_ref (ra : list char) : list char -> nat :=
  match ra with
  | [] => fun rb => length rb
  | x :: ra' =>
      fix inner (rb : list char) : nat :=
        match rb with
        | [] => S (length ra')
        | y :: rb' =>
            Nat.min (Nat.min (lev_ref ra' rb' + (if (x =? y)%N then 0 else 1))
                             (lev_ref ra' rb + 1))
                    (inner rb' + 1)
        end
  end.

Lemma lev_ref_cons x ra y rb :
  lev_ref (x :: ra) (y :: rb) =
  Nat.min (Nat.min (lev_ref ra rb + (if (x =? y)%N then 0 else 1))
                   (lev_ref ra (y :: rb) + 1))
          (lev_ref (x :: ra) rb + 1).
Proof. done. Qed.

Lemma lev_ref_nil_r ra : lev_ref ra [] = length ra.
Proof. by destruct ra. Qed.

(** Row [ra] of the table from column [rb] on. *)
Fixpoint lev_row (ra rb b : list char) : list nat :=
  lev_ref ra rb :: match b with [] => [] | y :: b' => lev_row ra (y :: rb) b' end.

Lemma lev_inner_row ca ra b : forall rb,
  lev_ref (ca :: ra) rb :: lev_inner ca b (lev_row ra rb b) (lev_ref (ca :: ra) rb)
  = lev_row (ca :: ra) rb b.
Proof.
  induction b as [|y b IH]; intros rb; [done|].
  cbn [lev_row]. f_equal. rewrite <- (IH (y :: rb)).
  destruct b as [|z b]; cbn [lev_row lev_inner]; rewrite (lev_ref_cons ca ra y rb); done.
Qed.

Lemma lev_outer_row a b : forall ra,
  lev_outer a b (length ra) (lev_row ra [] b) = lev_row (rev a ++ ra) [] b.
Proof.
  induction a as [|ca a IH]; intros ra; [done|]. cbn [lev_outer].
  pose proof (lev_inner_row ca ra b []) as E. rewrite lev_ref_nil_r in E.
  cbn [length] in E. rewrite E. change (S (length ra)) with (length (ca :: ra)).
  rewrite IH. cbn [rev]. by rewrite <- app_assoc.
Qed.

Lemma lev_row_seq b : forall rb, lev_row [] rb b = seq (length rb) (S (length b)).
Proof.
  induction b as [|y b IH]; intros rb; [done|]. cbn [lev_row seq length].
  f_equal. apply (IH (y :: rb)).
Qed.

Lemma lev_row_last ra b : forall rb, lev_row ra rb b !! length b = Some (lev_ref ra (rev b ++ rb)).
Proof.
  induction b as [|y b IH]; intros rb; [done|]. cbn [lev_row length rev].
  rewrite <- app_assoc. apply (IH (y :: rb)).
Qed.

(** The dynamic program computes the textbook recursion. *)
Lemma lev_rows_ref a b : lev_rows a b = lev_ref (rev a) (rev b).
Proof.
  unfold lev_rows. case_bool_decide as Ha; simpl.
  { subst a. simpl. rewrite length_rev. lia. }
  case_bool_decide as Hb; simpl.
  { subst b. simpl. rewrite lev_ref_nil_r, length_rev. lia. }
  pose proof (lev_row_seq b []) as E. cbn [length] in E.
  change (0 :: seq 1 (length b)) with (seq 0 (S (length b))). rewrite <- E.
  pose proof (lev_outer_row a b []) as E'. cbn [length] in E'.
  rewrite E', app_nil_r, lev_row_last, app_nil_r. done.
Qed.

(** The recursion counts the edits of a script, and no script has fewer. *)
Lemma lev_ref_script ra rb : edit_script ra rb (lev_ref ra rb).
Proof.
  revert rb. induction ra as [|x ra IH]; intros rb.
  { induction rb as [|y rb IHb]; simpl; eauto with nidus. }
  induction rb as [|y rb IHb].
  { simpl. specialize (IH []). rewrite lev_ref_nil_r in IH. by constructor. }
  rewrite lev_ref_cons.
  destruct (Nat.min_spec (Nat.min (lev_ref ra rb + (if (x =? y)%N then 0 else 1))
                             (lev_ref ra (y :: rb) + 1)) (lev_ref (x :: ra) rb + 1))
    as [[_ ->]|[_ ->]]; [|rewrite Nat.add_1_r; by constructor].
  destruct (Nat.min_spec (lev_ref ra rb + (if (x =? y)%N then 0 else 1))
                         (lev_ref ra (y :: rb) + 1))
    as [[_ ->]|[_ ->]]; [|rewrite Nat.add_1_r; by constructor].
  destruct (N.eqb_spec x y) as [->|]; rewrite ?Nat.add_0_r, ?Nat.add_1_r; by constructor.
Qed.

Lemma lev_ref_minimal ra rb n : edit_script ra rb n -> (lev_ref ra rb <= n)%nat.
Proof.
  induction 1 as [|x a b n _ IH|x y a b n _ IH|x a b n _ IH|y a b n _ IH]; [done|..].
  - rewrite lev_ref_cons, N.eqb_refl. lia.
  - rewrite lev_ref_cons. destruct (x =? y)%N; lia.
  - destruct b as [|y b]; [rewrite lev_ref_nil_r in *; simpl; lia|].
    rewrite lev_ref_cons. lia.
  - destruct a as [|x a]; [simpl in *; lia|]. rewrite lev_ref_cons. lia.
Qed.

Lemma edit_script_app a b m c d n :
  edit_script a b m -> edit_script c d n -> edit_script (a ++ c) (b ++ d) (m + n).
Proof. induction 1; simpl; eauto with nidus. Qed.

Lemma edit_script_rev a b n : edit_script a b n -> edit_script (rev a) (rev b) n.
Proof.
  assert (forall u v k, edit_script u v k -> forall a b n, edit_script a b n ->
    edit_script (a ++ u) (b ++ v) (k + n)) as Happ
    by (intros; rewrite Nat.add_comm; by apply edit_script_app).
  induction 1 as [|x a b n _ IH|x y a b n _ IH|x a b n _ IH|y a b n _ IH]; simpl.
  - constructor.
  - eapply (Happ [x] [x] 0%nat); eauto with nidus.
  - eapply (Happ [x] [y] 1%nat); eauto with nidus.
  - rewrite <- (app_nil_r (rev b)). eapply (Happ [x] [] 1%nat); eauto with nidus.
  - rewrite <- (app_nil_r (rev a)). eapply (Happ [] [y] 1%nat); eauto with nidus.
Qed.

Lemma levenshtein_script a b :
  edit_script (str_to_lower a) (str_to_lower b) (levenshtein_ascii_ci a b).
Proof.
  unfold levenshtein_ascii_ci. rewrite lev_rows_ref.
  pose proof (edit_script_rev _ _ _
    (lev_ref_script (rev (str_to_lower a)) (rev (str_to_lower b)))) as H.
  by rewrite !rev_involutive in H.
Qed.

Lemma levenshtein_minimal a b n :
  edit_script (str_to_lower a) (str_to_lower b) n -> (levenshtein_ascii_ci a b <= n)%nat.
Proof.
  intros Hn. unfold levenshtein_ascii_ci. rewrite lev_rows_ref.
  by apply lev_ref_minimal, edit_script_rev.
Qed.

Lemma any_text_true v pred :
  any_text v pred = true <->
  exists s, (v = Some (VStr s) \/ exists items, v = Some (VList items) /\ s ∈ items) /\
    pred s = true.
Proof.
  unfold any_text. destruct v as [[| t| | |items| |]|];
    try (split; [done|intros (s & [E|(i & E & _)] & _); done]).
  - split; [eauto|]. intros (s & [[= ->]|(i & E & _)] & Hp); done.
  - rewrite existsb_exists. split.
    + intros (s & Hs%list_elem_of_In & Hp). eauto 6.
    + intros (s & [E|(i & [= <-] & Hs%list_elem_of_In)] & Hp); [done|eauto].
Qed.

(** C32: the two-row dynamic program of the fuzzy predicate computes the least
    number of edits between the case-folded words: some edit script has that
    many edits, and every edit script has at least as many. *)
Theorem levenshtein_optimal a b :
  edit_script (str_to_lower a) (str_to_lower b) (levenshtein_ascii_ci a b) /\
  forall n, edit_script (str_to_lower a) (str_to_lower b) n ->
    (levenshtein_ascii_ci a b <= n)%nat.
Proof.
  split; [apply levenshtein_script|intros n; apply levenshtein_minimal].
Qed.

(** A script of [n] edits changes the length by at most [n]: the length
    pre-check of [fuzzy] never rejects a match. *)
Lemma edit_script_length a b n :
  edit_script a b n ->
  (Nat.max (length a) (length b) - Nat.min (length a) (length b) <= n)%nat.
Proof. induction 1; cbn [length]; lia. Qed.

Lemma fuzzy_any_text v needle max_edits :
  fuzzy v needle max_edits =
  any_text v (fun text => (levenshtein_ascii_ci text needle <=? max_edits)%nat).
Proof.
  unfold fuzzy.
  assert (forall text, (Nat.max (length text) (length needle) -
      Nat.min (length text) (length needle) <=? max_edits)%nat
      && (levenshtein_ascii_ci text needle <=? max_edits)%nat
    = (levenshtein_ascii_ci text needle <=? max_edits)%nat) as E.
  { intros text. destruct (levenshtein_ascii_ci text needle <=? max_edits)%nat eqn:Hl;
      [|apply andb_false_r].
    bdestr. rewrite andb_true_r. apply Nat.leb_le.
    pose proof (levenshtein_script text needle) as Hs.
    apply edit_script_length in Hs. rewrite !str_to_lower_length in Hs. lia. }
  destruct v as [[]|]; simpl; try done. induction l as [|s l IH]; simpl; [done|].
  by rewrite E, IH.
Qed.

(** The fuzzy predicate accepts an attribute exactly when one of its texts
    can be turned into the needle, letter case aside, by at most the allowed
    number of insertions, deletions and substitutions: the length pre-check is
    only a shortcut. *)
Theorem fuzzy_spec v needle max_edits :
  fuzzy v needle max_edits = true <->
  exists text n, (v = Some (VStr text) \/ exists items, v = Some (VList items) /\ text ∈ items) /\
    (n <= max_edits)%nat /\ edit_script (str_to_lower text) (str_to_lower needle) n.
Proof.
  rewrite fuzzy_any_text, any_text_true. split.
  - intros (s & Hs & Hle%Nat.leb_le). exists s, (levenshtein_ascii_ci s needle).
    split_and!; [done|done|apply levenshtein_script].
  - intros (s & n & Hs & Hn & Hscr). exists s. split; [done|]. apply Nat.leb_le.
    apply levenshtein_minimal in Hscr. lia.
Qed.

(** ** Tokens *)

Lemma token_sequence_loop_spec cursor want :
  token_sequence_loop cursor want = true <->
  exists pre rest, cursor = pre ++ rest /\ starts_with_tokens rest want = true.
Proof.
  revert want. induction cursor as [|h cursor IH]; intros want; cbn [token_sequence_loop].
  - rewrite orb_false_r. split.
    + intros H. by exists [], [].
    + intros (pre & rest & E & H). by apply eq_sym, app_eq_nil in E as [-> ->].
  - rewrite orb_true_iff, IH. split.
    + intros [H|(pre & rest & -> & H)]; [by exists [], (h :: cursor)|].
      by exists (h :: pre), rest.
    + intros ([|h' pre] & rest & E & H); simpl in E; [left; by rewrite E|].
      injection E as -> ->. right. by exists pre, rest.
Qed.

(** The folded comparison is equality of the folded words. *)
Lemma eq_ignore_ascii_case_true a b :
  eq_ignore_ascii_case a b = true <-> str_to_lower a = str_to_lower b.
Proof. apply bool_decide_eq_true. Qed.

Lemma starts_with_tokens_in have want w :
  starts_with_tokens have want = true -> w ∈ want ->
  exists h, h ∈ have /\ str_to_lower h = str_to_lower w.
Proof.
  revert have. induction want as [|w' want IH]; intros have Hs Hw; [by apply elem_of_nil in Hw|].
  destruct have as [|h have]; [done|]. simpl in Hs.
  apply andb_prop in Hs as [Heq%eq_ignore_ascii_case_true Hs].
  apply elem_of_cons in Hw as [->|Hw]; [exists h; split; [set_solver|done]|].
  destruct (IH _ Hs Hw) as (h' & ? & ?). exists h'. split; [set_solver|done].
Qed.

Lemma split_on_app p a sep b :
  p sep = true -> split_on p (a ++ sep :: b) = split_on p a ++ split_on p b.
Proof.
  intros Hsep. induction a as [|c a IH]; simpl.
  - by rewrite Hsep.
  - rewrite IH. destruct (p c); [done|].
    destruct (split_on p a) as [|piece pieces] eqn:E; [|done].
    exfalso. destruct a as [|c' a]; simpl in E; [done|].
    destruct (p c'); [done|]. by destruct (split_on p a).
Qed.

Lemma tokens_app `{UnicodeAlnum} a sep b :
  is_separator sep = true -> tokens (a ++ sep :: b) = tokens a ++ tokens b.
Proof. intros Hs. unfold tokens. by rewrite split_on_app, List.filter_app. Qed.

Lemma space_is_separator `{UnicodeAlnum} : is_separator 32 = true.
Proof. unfold is_separator. by rewrite is_alphanumeric_ascii. Qed.

Example lev_ex : levenshtein_ascii_ci (lit "Kitten") (lit "sitting") = 3%nat.
Proof. vm_compute. reflexivity. Qed.
#[local] Existing Instance ascii_only_alnum.
Example seq_ex :
  contains_token_sequence (Some (VStr (lit "a a a b"))) (lit "A, a b") = true.
Proof. vm_compute. reflexivity. Qed.
