(* ===== verification/Filter.v ===== *)
(** * Filter: predicates over attributes ([src/src/filter/mod.rs], [pattern.rs])

    [matches] evaluates a filter on the attributes of a record; [validate] is
    run once per query before any record is looked at.  The regular-expression
    engine is the [regex] crate, reached through the interface [RegexEngine]. *)
From S2P Require Import Prelude Floats Model Glob TextPred.

(** ** Compiled patterns ([filter/pattern.rs]) *)

(** [Regex::new]: the [is_match] of the compiled expression, or a syntax
    error. *)
Class RegexEngine := regex_new : rstring -> option (rstring -> bool).

Definition CACHE_CAPACITY : nat := 256.

(** [format!("^(?:{pattern})$")]. *)
Definition anchored (pattern : rstring) : rstring :=
  lit "^(?:" ++ pattern ++ lit ")$".

Section pattern.
Context `{RegexEngine}.

(** The state of the process-wide cache, keyed by the caller's pattern. *)
Implicit Types cache : gmap rstring (rstring -> bool).

(** [compile]: the compiled pattern and the cache after the call. *)
Definition compile cache (pattern : rstring)
  : option (rstring -> bool) * gmap rstring (rstring -> bool) :=
  match cache !! pattern with
  | Some hit => (Some hit, cache)
  | None =>
      match regex_new (anchored pattern) with
      | None => (None, cache)
      | Some compiled =>
          let cache := if (CACHE_CAPACITY <=? size cache)%nat then ∅ else cache in
          (Some compiled, <[pattern := compiled]> cache)
      end
  end.

(** Every entry is what compiling its key gives. *)
Definition cache_ok cache : Prop :=
  forall p re, cache !! p = Some re -> regex_new (anchored p) = Some re.

Lemma compile_transparent cache p :
  cache_ok cache ->
  (compile cache p).1 = regex_new (anchored p) /\ cache_ok (compile cache p).2.
Proof.
  intros Hok. unfold compile. destruct (cache !! p) as [re|] eqn:E.
  { simpl. split; [symmetry; by apply Hok|done]. }
  destruct (regex_new (anchored p)) as [re|] eqn:Er; [|done].
  simpl. split; [done|]. intros q re'.
  destruct (decide (p = q)) as [<-|Hne].
  - rewrite lookup_insert_eq. congruence.
  - rewrite lookup_insert_ne by done. case_match; [|apply Hok].
    by rewrite lookup_empty.
Qed.

Lemma compile_size cache p :
  (size cache <= CACHE_CAPACITY)%nat -> (size (compile cache p).2 <= CACHE_CAPACITY)%nat.
Proof.
  intros Hs. unfold compile. destruct (cache !! p) eqn:E; [done|].
  destruct (regex_new (anchored p)); [|done]. cbn [snd].
  destruct (CACHE_CAPACITY <=? size cache)%nat eqn:Hc; bdestr.
  - rewrite map_size_insert, lookup_empty, map_size_empty. unfold CACHE_CAPACITY. lia.
  - rewrite map_size_insert, E. lia.
Qed.

(** The queries of a run of the process, in order, from an empty cache. *)
Definition compile_run (ps : list rstring) : gmap rstring (rstring -> bool) :=
  fold_left (fun cache p => (compile cache p).2) ps ∅.

(** the shared pattern cache is transparent and bounded: whatever
    patterns were compiled before, compiling [p] gives what compiling it
    afresh gives, and the cache never holds more than its capacity. *)
Theorem compile_cache_transparent ps p :
  (compile (compile_run ps) p).1 = regex_new (anchored p) /\
  (size (compile_run ps) <= CACHE_CAPACITY)%nat.
Proof.
  unfold compile_run.
  assert (forall ps c, cache_ok c -> (size c <= CACHE_CAPACITY)%nat ->
    cache_ok (fold_left (fun c p => (compile c p).2) ps c) /\
    (size (fold_left (fun c p => (compile c p).2) ps c) <= CACHE_CAPACITY)%nat) as Hrun.
  { clear. induction ps as [|q ps IH]; intros c Hc Hs; simpl; [done|].
    apply IH; [by apply compile_transparent|by apply compile_size]. }
  destruct (Hrun ps ∅) as [Hok Hs].
  - intros q re. by rewrite lookup_empty.
  - rewrite map_size_empty. lia.
  - split; [by apply compile_transparent|done].
Qed.

(** With the cache transparent, evaluation reads the engine directly. *)
Definition regex_matches (v : option Value) (pattern : rstring) : bool :=
  match regex_new (anchored pattern) with
  | Some is_match => any_text v is_match
  | None => false
  end.
End pattern.

(** ** Evaluation ([filter/mod.rs]) *)

(** Same-type ordering; [None] for mismatched or unorderable values and for
    NaN. *)
Definition value_cmp (a b : Value) : option comparison :=
  match a, b with
  | VInt x, VInt y => Some (Z.compare x y)
  | VStr x, VStr y => Some (str_cmp x y)
  | VBool x, VBool y => Some (Bool.compare x y)
  | VFloat x, VFloat y => f64_partial_cmp x y
  | VDateTime x, VDateTime y => Some (Z.compare x y)
  | _, _ => None
  end.

#[export] Instance comparison_eq_dec : EqDecision comparison.
Proof. solve_decision. Defined.

Definition range_matches (attrs : attrs_map) (key : rstring) (bound : Value)
    (wanted : list comparison) : bool :=
  match attrs !! key ≫= (fun v => value_cmp v bound) with
  | Some ord => bool_decide (ord ∈ wanted)
  | None => false
  end.

Definition list_matches (attrs : attrs_map) (key : rstring)
    (pred : list rstring -> bool) : bool :=
  match attrs !! key with
  | Some (VList items) => pred items
  | _ => false
  end.

Definition needle (v : Value) : option rstring :=
  match v with VStr s => Some s | _ => None end.

(** [items.iter().any(|i| i == want)]. *)
Definition str_mem (want : rstring) (items : list rstring) : bool :=
  existsb (fun i => bool_decide (i = want)) items.

(** [set.contains(v)]. *)
Definition value_mem (set : list Value) (v : Value) : bool :=
  existsb (fun w => value_eqb w v) set.

Section filter.
Context `{UnicodeAlnum} `{RegexEngine}.

Fixpoint matches_one (p : Predicate) (attrs : attrs_map) : bool :=
  match p with
  | PEq key expected =>
      match attrs !! key with Some v => value_eqb v expected | None => false end
  | PNe key expected =>
      match attrs !! key with Some v => negb (value_eqb v expected) | None => false end
  | PGlob key pattern =>
      match attrs !! key with Some (VStr s) => glob_match pattern s | _ => false end
  | PIGlob key pattern =>
      match attrs !! key with
      | Some (VStr s) => glob_match_ascii_ci pattern s
      | _ => false
      end
  | PIn key set =>
      match attrs !! key with Some v => value_mem set v | None => false end
  | PNotIn key set =>
      match attrs !! key with Some v => negb (value_mem set v) | None => false end
  | PLt key bound => range_matches attrs key bound [Lt]
  | PLe key bound => range_matches attrs key bound [Lt; Eq]
  | PGt key bound => range_matches attrs key bound [Gt]
  | PGe key bound => range_matches attrs key bound [Gt; Eq]
  | PContains key v =>
      match needle v with
      | Some want => list_matches attrs key (str_mem want)
      | None => false
      end
  | PNotContains key v =>
      match needle v with
      | Some want => list_matches attrs key (fun items => negb (str_mem want items))
      | None => list_matches attrs key (fun _ => true)
      end
  | PContainsAny key set =>
      list_matches attrs key (fun items =>
        existsb (fun want => str_mem want items) (omap needle set))
  | PAll preds => forallb (fun p => matches_one p attrs) preds
  | PAny preds => existsb (fun p => matches_one p attrs) preds
  | PNot p => negb (matches_one p attrs)
  | PFuzzy key needle max_edits => fuzzy (attrs !! key) needle max_edits
  | PContainsAllTokens key query => contains_all_tokens (attrs !! key) query
  | PContainsAnyToken key query => contains_any_token (attrs !! key) query
  | PContainsTokenSequence key query => contains_token_sequence (attrs !! key) query
  | PRegex key pattern => regex_matches (attrs !! key) pattern
  end.

Definition matches (f : Filter) (attrs : attrs_map) : bool :=
  forallb (fun p => matches_one p attrs) (filter_preds f).

Inductive filter_error := TooManyEdits (key : rstring) (n : nat) | BadRegex (key : rstring).

Fixpoint validate_one (p : Predicate) : result filter_error unit :=
  match p with
  | PFuzzy key _ max_edits =>
      if (MAX_FUZZY_EDITS <? max_edits)%nat then Err (TooManyEdits key max_edits) else Ok tt
  | PRegex key pattern =>
      match regex_new (anchored pattern) with
      | Some _ => Ok tt
      | None => Err (BadRegex key)
      end
  | PAll preds | PAny preds => try_for_each validate_one preds
  | PNot p => validate_one p
  | _ => Ok tt
  end.

Definition filter_validate (f : Filter) : result filter_error unit :=
  try_for_each validate_one (filter_preds f).
End filter.

(** ** Induction over predicates, through the lists of the groups *)
Section predicate_ind.
Context (P : Predicate -> Prop).
Hypothesis Hleaf : forall p,
  match p with PAll _ | PAny _ | PNot _ => True | _ => P p end.
Hypothesis Hall : forall ps, Forall P ps -> P (PAll ps).
Hypothesis Hany : forall ps, Forall P ps -> P (PAny ps).
Hypothesis Hnot : forall p, P p -> P (PNot p).

Fixpoint predicate_nested_ind (p : Predicate) : P p.
Proof.
  pose proof (Hleaf p) as HL. destruct p; try exact HL.
  - apply Hall. induction ps as [|q ps IH]; constructor; [apply predicate_nested_ind|apply IH].
  - apply Hany. induction ps as [|q ps IH]; constructor; [apply predicate_nested_ind|apply IH].
  - apply Hnot, predicate_nested_ind.
Defined.
End predicate_ind.

(** The attribute a leaf predicate reads; [None] for the boolean groups. *)
Definition leaf_key (p : Predicate) : option rstring :=
  match p with
  | PEq k _ | PNe k _ | PGlob k _ | PIGlob k _ | PIn k _ | PNotIn k _
  | PLt k _ | PLe k _ | PGt k _ | PGe k _ | PContains k _ | PNotContains k _
  | PContainsAny k _ | PFuzzy k _ _ | PContainsAllTokens k _ | PContainsAnyToken k _
  | PContainsTokenSequence k _ | PRegex k _ => Some k
  | PAll _ | PAny _ | PNot _ => None
  end.

(** ** Properties *)

Lemma list_matches_absent (attrs : attrs_map) key f :
  attrs !! key = None -> list_matches attrs key f = false.
Proof. unfold list_matches. by intros ->. Qed.

Lemma range_matches_absent (attrs : attrs_map) key b w :
  attrs !! key = None -> range_matches attrs key b w = false.
Proof. unfold range_matches. by intros ->. Qed.

#[export] Hint Resolve list_matches_absent range_matches_absent : nidus.

Section properties.
Context `{UnicodeAlnum} `{RegexEngine}.

Lemma any_text_none f : any_text None f = false.
Proof. done. Qed.

(** No attribute, no match: a leaf predicate (the negative ones
    included) is false on a document that lacks the attribute it reads, so
    that [Not] of it is true there. *)
Theorem leaf_absent (p : Predicate) (k : rstring) (attrs : attrs_map) :
  leaf_key p = Some k -> attrs !! k = None ->
  matches_one p attrs = false /\ matches_one (PNot p) attrs = true.
Proof.
  intros Hk Hn. cut (matches_one p attrs = false); [intros E; simpl; by rewrite E|].
  destruct p; simpl in Hk; simplify_eq; simpl; rewrite ?Hn; auto with nidus.
  - destruct (needle v); auto with nidus.
  - destruct (needle v); auto with nidus.
  - unfold regex_matches. destruct (regex_new _); auto.
Qed.

Lemma value_cmp_eqb a b : value_cmp a b = Some Eq -> value_eqb a b = true.
Proof.
  destruct a, b; simpl; try done.
  - intros [= E%str_cmp_eq]. by apply bool_decide_eq_true.
  - intros [= E%Z.compare_eq]. by apply Z.eqb_eq.
  - destruct b0, b; simpl; done.
  - unfold f64_eqb, f_eqb, f64_partial_cmp. by intros ->.
  - intros [= E%Z.compare_eq]. by apply Z.eqb_eq.
Qed.

Lemma value_eqb_cmp a b c : value_cmp a b = Some c -> value_eqb a b = true -> c = Eq.
Proof.
  destruct a, b; simpl; try done.
  - intros [= <-] E%bool_decide_eq_true. by apply str_cmp_eq.
  - intros [= <-] E%Z.eqb_eq. by apply Z.compare_eq_iff.
  - destruct b0, b; simpl; congruence.
  - unfold f64_eqb, f_eqb, f64_partial_cmp. intros ->. by destruct c.
  - intros [= <-] E%Z.eqb_eq. by apply Z.compare_eq_iff.
Qed.
Lemma range_matches_some (attrs : attrs_map) key b w v c :
  attrs !! key = Some v -> value_cmp v b = Some c ->
  range_matches attrs key b w = bool_decide (c ∈ w).
Proof. unfold range_matches. intros -> E. simpl. by rewrite E. Qed.

(** Comparisons agree with equality: on a value comparable with the
    bound exactly one of [Lt], [Eq], [Gt] holds, [Le] and [Ge] are the
    disjunctions with [Eq], and on an incomparable one (another type, a NaN)
    no range predicate holds. *)
Theorem range_trichotomy (attrs : attrs_map) (key : rstring) v b :
  attrs !! key = Some v ->
  let lt := matches_one (PLt key b) attrs in
  let eq := matches_one (PEq key b) attrs in
  let gt := matches_one (PGt key b) attrs in
  let le := matches_one (PLe key b) attrs in
  let ge := matches_one (PGe key b) attrs in
  match value_cmp v b with
  | Some _ =>
      le = lt || eq /\ ge = gt || eq /\
      (lt, eq, gt) ∈ [(true, false, false); (false, true, false); (false, false, true)]
  | None => lt = false /\ gt = false /\ le = false /\ ge = false
  end.
Proof.
  intros Hv. cbn -[range_matches]. rewrite Hv.
  destruct (value_cmp v b) as [c|] eqn:Hc.
  - rewrite !(range_matches_some _ _ _ _ _ _ Hv Hc).
    destruct (value_eqb v b) eqn:He.
    + rewrite (value_eqb_cmp _ _ _ Hc He). repeat split; set_solver.
    + assert (c <> Eq) by (intros ->; apply value_cmp_eqb in Hc; congruence).
      destruct c; try done; repeat split; set_solver.
  - unfold range_matches. rewrite Hv. simpl. by rewrite Hc.
Qed.

(** The predicates nested in [p], itself included. *)
Inductive subpred : Predicate -> Predicate -> Prop :=
| sub_refl p : subpred p p
| sub_all q p ps : p ∈ ps -> subpred q p -> subpred q (PAll ps)
| sub_any q p ps : p ∈ ps -> subpred q p -> subpred q (PAny ps)
| sub_not q p : subpred q p -> subpred q (PNot p).

Definition leaf_valid (p : Predicate) : Prop :=
  match p with
  | PFuzzy _ _ n => (n <= MAX_FUZZY_EDITS)%nat
  | PRegex _ pattern => is_Some (regex_new (anchored pattern))
  | _ => True
  end.

Definition all_valid (p : Predicate) : Prop := forall q, subpred q p -> leaf_valid q.

Lemma validate_group ps :
  Forall (fun p => validate_one p = Ok tt <-> all_valid p) ps ->
  try_for_each validate_one ps = Ok tt <-> Forall all_valid ps.
Proof.
  intros HF. rewrite try_for_each_ok, !Forall_forall in *.
  split; intros Hp p Hin; by apply HF, Hp.
Qed.

Lemma validate_one_spec p : validate_one p = Ok tt <-> all_valid p.
Proof.
  revert p. apply (predicate_nested_ind (fun p => validate_one p = Ok tt <-> all_valid p));
    [intros p|intros ps IH|intros ps IH|intros p IH].
  - assert (leaf_key p <> None -> validate_one p = Ok tt <-> leaf_valid p) as Hl.
    { destruct p; try done; intros _; simpl.
      - destruct (MAX_FUZZY_EDITS <? max_edits)%nat eqn:E; bdestr; split; try done; lia.
      - destruct (regex_new _); split; try done; intros [? ?]; done. }
    destruct (leaf_key p) eqn:Hk; [|by destruct p].
    assert (validate_one p = Ok tt <-> all_valid p) as Hgoal; [|by destruct p].
    rewrite Hl by done. split; [|intros Hq; apply Hq; constructor].
    intros Hp q Hq. by inversion Hq; subst.
  - change (validate_one (PAll ps)) with (try_for_each validate_one ps).
    rewrite (validate_group _ IH), Forall_forall. split.
    + intros Hp q Hq. inversion Hq; subst; [done|]. by eapply Hp.
    + intros Hp p Hin q Hq. apply Hp. by econstructor.
  - change (validate_one (PAny ps)) with (try_for_each validate_one ps).
    rewrite (validate_group _ IH), Forall_forall. split.
    + intros Hp q Hq. inversion Hq; subst; [done|]. by eapply Hp.
    + intros Hp p Hin q Hq. apply Hp. by econstructor.
  - change (validate_one (PNot p)) with (validate_one p). rewrite IH. split.
    + intros Hp q Hq. inversion Hq; subst; [done|]. by apply Hp.
    + intros Hp q Hq. apply Hp. by constructor.
Qed.

(** [validate] accepts a filter exactly when every fuzzy predicate in
    it, at any depth under [And], [Or] and [Not], allows at most eight edits
    and every pattern compiles; so the [false] a regex predicate gives for an
    uncompilable pattern is never reached by a validated query. *)
Theorem filter_validate_spec f :
  filter_validate f = Ok tt <->
  forall p q, p ∈ filter_preds f -> subpred q p -> leaf_valid q.
Proof.
  unfold filter_validate. rewrite try_for_each_ok, Forall_forall.
  split; intros Hf.
  - intros p q Hin. by apply validate_one_spec, Hf.
  - intros p Hin. apply validate_one_spec. intros q. by apply Hf.
Qed.
End properties.

(** ** Concrete inputs *)

Section example.
#[local] Instance no_engine : RegexEngine := fun _ => None.
#[local] Existing Instance ascii_only_alnum.

Definition ex_row : attrs_map := {[lit "price" := VFloat f64_half]}.
Definition ex_bound : Value := VFloat (f64_of_Z 3).

Lemma leaf_absent_witness :
  matches_one (PNe (lit "name") (VInt 3)) ex_row = false /\
  matches_one (PNot (PNe (lit "name") (VInt 3))) ex_row = true.
Proof. apply (leaf_absent _ (lit "name")); vm_compute; reflexivity. Defined.

Lemma range_trichotomy_witness :
  let holds p := matches_one (p (lit "price") ex_bound) ex_row in
  holds PLe = holds PLt || holds PEq /\ holds PGe = holds PGt || holds PEq /\
  (holds PLt, holds PEq, holds PGt)
    ∈ [(true, false, false); (false, true, false); (false, false, true)].
Proof.
  exact (range_trichotomy ex_row (lit "price") (VFloat f64_half) ex_bound
    ltac:(vm_compute; reflexivity)).
Defined.
End example.
