(* ===== verification/Postings.v ===== *)
(** * Postings: the two posting stores of the filter index
    ([src/src/findex/tokens.rs], [src/src/findex/trigram.rs])

    Both map a term to the ascending list of the docnums carrying it.  The
    central lemma is [edit_script_shares]: a text within [n] edits of a needle
    shares all but [3 * n] of the needle's distinct trigrams. *)
From S2P Require Import Prelude Model TextPred.

(** ** [sort_unstable] followed by [dedup] *)

Section sort_dedup.
Context {A : Type} `{EqDecision A} (R : relation A) `{!RelDecision R}.
Context `{!Transitive R, !AntiSymm (=) R, !Total R}.

(** [Vec::dedup]: consecutive repeated elements are removed. *)
Fixpoint dedup (l : list A) : list A :=
  match l with
  | x :: ((y :: _) as l') => if decide (x = y) then dedup l' else x :: dedup l'
  | _ => l
  end.

Definition sort_dedup (l : list A) : list A := dedup (merge_sort R l).

Lemma elem_of_dedup x l : x ∈ dedup l <-> x ∈ l.
Proof.
  induction l as [|y [|z l] IH]; [done..|].
  change (dedup (y :: z :: l)) with
    (if decide (y = z) then dedup (z :: l) else y :: dedup (z :: l)).
  destruct (decide (y = z)) as [->|Hne].
  - rewrite IH. set_solver.
  - rewrite !elem_of_cons in *. rewrite IH. done.
Qed.

Lemma dedup_NoDup l : StronglySorted R l -> NoDup (dedup l).
Proof.
  induction l as [|y [|z l] IH]; intros Hs; [constructor|by apply NoDup_singleton|].
  change (dedup (y :: z :: l)) with
    (if decide (y = z) then dedup (z :: l) else y :: dedup (z :: l)).
  inversion Hs as [|? ? Hs' Hall]; subst.
  destruct (decide (y = z)) as [->|Hne]; [by apply IH|].
  constructor; [|by apply IH]. rewrite elem_of_dedup. intros Hin.
  inversion Hs' as [|? ? _ Hz]; subst. inversion Hall as [|? ? Hyz Hyl]; subst.
  apply elem_of_cons in Hin as [->|Hin]; [done|].
  rewrite Forall_forall in Hz. by apply Hne, (anti_symm R), Hz.
Qed.

Lemma elem_of_sort_dedup x l : x ∈ sort_dedup l <-> x ∈ l.
Proof. unfold sort_dedup. by rewrite elem_of_dedup, (merge_sort_Permutation R). Qed.

Lemma sort_dedup_NoDup l : NoDup (sort_dedup l).
Proof. apply dedup_NoDup. apply (StronglySorted_merge_sort R). Qed.
End sort_dedup.

Definition str_le (a b : rstring) : Prop := str_leb a b = true.
#[export] Instance str_le_dec : RelDecision str_le.
Proof. unfold str_le. intros a b. apply _. Defined.
#[export] Instance str_le_trans : Transitive str_le.
Proof. intros a b c. apply str_leb_trans. Qed.
#[export] Instance str_le_total : Total str_le.
Proof. intros a b. apply str_leb_total. Qed.
#[export] Instance str_le_antisymm : AntiSymm (=) str_le.
Proof.
  intros a b. unfold str_le. rewrite !str_leb_alt. intros [H| ->] [H'|E]; auto.
  rewrite str_cmp_antisym, H in H'. done.
Qed.

(** ** Posting lists *)

Section postings.
Context {K : Type} `{Countable K}.
Implicit Types m : gmap K (list N).

Definition post_get m (k : K) : list N := default [] (m !! k).

(** [entry(k).or_default()], then push unless the last docnum is [d]. *)
Definition add_posting (d : N) m (k : K) : gmap K (list N) :=
  let list := post_get m k in
  <[k := if bool_decide (last list = Some d) then list else list ++ [d]]> m.

Definition add_postings (d : N) m (ks : list K) : gmap K (list N) :=
  fold_left (add_posting d) ks m.

Lemma post_get_add_eq d m k :
  post_get (add_posting d m k) k =
  if bool_decide (last (post_get m k) = Some d) then post_get m k else post_get m k ++ [d].
Proof. unfold add_posting, post_get at 1. by rewrite lookup_insert_eq. Qed.

Lemma post_get_add_ne d m k k' :
  k <> k' -> post_get (add_posting d m k) k' = post_get m k'.
Proof. intros. unfold add_posting, post_get at 1. by rewrite lookup_insert_ne. Qed.

Lemma elem_of_add_posting d m k k' e :
  e ∈ post_get (add_posting d m k) k' <-> e ∈ post_get m k' \/ (k = k' /\ e = d).
Proof.
  destruct (decide (k = k')) as [<-|Hne].
  - rewrite post_get_add_eq. case_bool_decide as Hl.
    + split; [auto|]. intros [?|[_ ->]]; [done|].
      apply last_Some_elem_of in Hl. done.
    + rewrite elem_of_app, list_elem_of_singleton. naive_solver.
  - rewrite post_get_add_ne by done. naive_solver.
Qed.

Lemma elem_of_add_postings d ks m k e :
  e ∈ post_get (add_postings d m ks) k <-> e ∈ post_get m k \/ (k ∈ ks /\ e = d).
Proof.
  revert m. induction ks as [|k' ks IH]; intros m; simpl; [set_solver|].
  rewrite IH, elem_of_add_posting, elem_of_cons. naive_solver.
Qed.

(** Docnums are below [n] and every list is strictly ascending. *)
Definition post_ok (n : N) m : Prop :=
  forall k, StronglySorted N.lt (post_get m k) /\ Forall (fun e => e < n)%N (post_get m k).

Definition post_ok_upto (d : N) m : Prop :=
  forall k, exists l, StronglySorted N.lt l /\ Forall (fun e => e < d)%N l /\
    (post_get m k = l \/ post_get m k = l ++ [d]).

Lemma post_ok_empty n : post_ok n ∅.
Proof. intros k. unfold post_get. rewrite lookup_empty. split; constructor. Qed.

Lemma post_ok_weaken n n' m : (n <= n')%N -> post_ok n m -> post_ok n' m.
Proof.
  intros Hn Hm k. destruct (Hm k) as [Hs Hl]. split; [done|].
  eapply Forall_impl; [exact Hl|]. intros; cbn in *; lia.
Qed.

Lemma add_postings_upto d ks m : post_ok_upto d m -> post_ok_upto d (add_postings d m ks).
Proof.
  revert m. induction ks as [|k ks IH]; intros m Hm; simpl; [done|].
  apply IH. intros k'. destruct (Hm k') as (l & Hs & Hl & Hg).
  exists l. split_and!; [done..|].
  destruct (decide (k = k')) as [<-|Hne]; [|by rewrite post_get_add_ne].
  rewrite post_get_add_eq. destruct Hg as [Hg|Hg]; rewrite Hg.
  - case_bool_decide; auto.
  - right. rewrite last_snoc. by rewrite bool_decide_eq_true_2.
Qed.

Lemma StronglySorted_snoc (l : list N) d :
  StronglySorted N.lt l -> Forall (fun e => e < d)%N l -> StronglySorted N.lt (l ++ [d]).
Proof.
  induction 1 as [|x l Hs IH Hx]; intros Hl; simpl; [repeat constructor|].
  inversion Hl; subst. constructor; [by apply IH|]. apply Forall_app; auto.
Qed.

Lemma add_postings_ok n ks m : post_ok n m -> post_ok (n + 1) (add_postings n m ks).
Proof.
  intros Hm. assert (post_ok_upto n m) as Hu.
  { intros k. destruct (Hm k). exists (post_get m k). auto. }
  apply (add_postings_upto n ks) in Hu. intros k.
  destruct (Hu k) as (l & Hs & Hl & [-> | ->]).
  - split; [done|]. eapply Forall_impl; [exact Hl|]. intros; cbn in *; lia.
  - split; [by apply StronglySorted_snoc|]. apply Forall_app. split; [|repeat constructor; lia].
    eapply Forall_impl; [exact Hl|]. intros; cbn in *; lia.
Qed.
End postings.

(** [slice::binary_search(..).is_ok()]; on an ascending slice it decides
    membership, and [post_ok] keeps every posting list ascending. *)
Definition binary_search_ok (l : list N) (d : N) : bool := bool_decide (d ∈ l).

(** [tokens::intersect]: the loop stops early on an empty accumulator. *)
Fixpoint intersect_loop (acc : list N) (rest : list (list N)) : list N :=
  match rest with
  | [] => acc
  | l :: rest' =>
      let acc := List.filter (binary_search_ok l) acc in
      if bool_decide (acc = []) then acc else intersect_loop acc rest'
  end.

Definition intersect (lists : list (list N)) : option (list N) :=
  match lists with
  | [] => None
  | first :: rest => Some (intersect_loop first rest)
  end.

(** [tokens::union]. *)
Definition union_lists (lists : list (list N)) : list N :=
  sort_dedup N.le (List.concat lists).

Lemma elem_of_intersect_loop acc rest d :
  d ∈ intersect_loop acc rest <-> d ∈ acc /\ Forall (fun l => d ∈ l) rest.
Proof.
  revert acc. induction rest as [|l rest IH]; intros acc; simpl.
  { split; [intros; split; [done|constructor]|tauto]. }
  rewrite Forall_cons. pose proof (list_elem_of_In (List.filter (binary_search_ok l) acc) d) as Hi.
  rewrite filter_In, <- list_elem_of_In in Hi. unfold binary_search_ok in Hi at 2.
  rewrite bool_decide_eq_true in Hi.
  case_bool_decide as He.
  - rewrite Hi. split; [|tauto]. intros [? ?]. exfalso.
    assert (d ∈ List.filter (binary_search_ok l) acc) as Hd by tauto.
    rewrite He in Hd. by apply elem_of_nil in Hd.
  - rewrite IH. tauto.
Qed.

(** The intersection of at least one list holds the docnums of all of them. *)
Lemma elem_of_intersect lists out d :
  intersect lists = Some out -> d ∈ out <-> Forall (fun l => d ∈ l) lists.
Proof.
  destruct lists as [|l ls]; [done|]. intros [= <-].
  by rewrite elem_of_intersect_loop, Forall_cons.
Qed.

Lemma elem_of_union_lists lists d : d ∈ union_lists lists <-> exists l, l ∈ lists /\ d ∈ l.
Proof.
  unfold union_lists. rewrite (elem_of_sort_dedup N.le), list_elem_of_In, in_concat.
  split; intros (l & Hl & Hd); exists l; rewrite ?list_elem_of_In in *; auto.
Qed.

(** ** Token postings *)

Section token_postings.
Context `{UnicodeAlnum}.

(** [TokenPostings::index] and [TokenPostings::get]. *)
Definition index_tokens (d : N) (p : gmap rstring (list N)) (text : rstring)
  : gmap rstring (list N) :=
  add_postings d p (map str_to_lower (tokens text)).

Definition get_token (p : gmap rstring (list N)) (token : rstring) : list N :=
  post_get p (str_to_lower token).

Lemma elem_of_index_tokens d p text token e :
  e ∈ get_token (index_tokens d p text) token <->
  e ∈ get_token p token \/
  ((exists h, h ∈ tokens text /\ str_to_lower h = str_to_lower token) /\ e = d).
Proof.
  unfold get_token, index_tokens. rewrite elem_of_add_postings.
  change (map str_to_lower (tokens text)) with (str_to_lower <$> tokens text).
  rewrite list_elem_of_fmap. split; intros [?|[(h & ? & ?) ->]]; eauto 6.
Qed.
End token_postings.

(** ** Trigrams

    A [[char; 3]] is the list of its three characters; the derived order of
    arrays is the lexicographic one. *)
Abbreviation Trigram := (list N) (only parsing).

(** [chars.windows(3)]. *)
Fixpoint windows3 (cs : list char) : list Trigram :=
  match cs with
  | a :: ((b :: c :: _) as cs') => [a; b; c] :: windows3 cs'
  | _ => []
  end.

Definition trigrams (text : rstring) : list Trigram := windows3 (str_to_lower text).
Definition distinct_trigrams (text : rstring) : list Trigram :=
  sort_dedup str_le (trigrams text).

Lemma distinct_trigrams_NoDup text : NoDup (distinct_trigrams text).
Proof. apply sort_dedup_NoDup; apply _. Qed.

Lemma elem_of_distinct_trigrams t text : t ∈ distinct_trigrams text <-> t ∈ trigrams text.
Proof. apply (elem_of_sort_dedup str_le). Qed.

(** [TrigramPostings::index], [TrigramPostings::get]. *)
Definition index_trigrams (d : N) (p : gmap Trigram (list N)) (text : rstring)
  : gmap Trigram (list N) :=
  add_postings d p (distinct_trigrams text).

(** The counting map of [TrigramPostings::at_least]. *)
Definition hit (hits : gmap N nat) (d : N) : gmap N nat :=
  <[d := S (default 0%nat (hits !! d))]> hits.
Definition count_hits (p : gmap Trigram (list N)) (wanted : list Trigram) : gmap N nat :=
  fold_left (fun hits t => fold_left hit (post_get p t) hits) wanted ∅.
Definition at_least (p : gmap Trigram (list N)) (wanted : list Trigram) (threshold : nat)
  : list N :=
  merge_sort N.le
    (map fst (List.filter (fun dn => (threshold <=? dn.2)%nat)
      (map_to_list (count_hits p wanted)))).

(** [fuzzy_threshold]: [checked_sub] with [saturating_mul], then the vacuous
    bound is refused.  Saturation does not show: the lengths are far below
    [usize::MAX], so a saturated product and the exact one both refuse. *)
Definition fuzzy_threshold (needle : rstring) (max_edits : nat) : option nat :=
  let n := length (distinct_trigrams needle) in
  if (n <? 3 * max_edits)%nat then None
  else let t := (n - 3 * max_edits)%nat in
       if (0 <? t)%nat then Some t else None.

(** *** Counting *)

Definition hits_of (hits : gmap N nat) (d : N) : nat := default 0%nat (hits !! d).

Lemma hit_list l : forall hits d,
  hits_of (fold_left hit l hits) d = (hits_of hits d + count_occ N.eq_dec l d)%nat /\
  ((is_Some (fold_left hit l hits !! d)) <-> is_Some (hits !! d) \/ d ∈ l).
Proof.
  induction l as [|e l IH]; intros hits d; simpl.
  { split; [lia|]. set_solver. }
  destruct (IH (hit hits e) d) as [-> ->]. unfold hit, hits_of. destruct (N.eq_dec e d) as [->|Hne].
  - rewrite lookup_insert_eq. simpl. split; [lia|]. set_solver.
  - rewrite lookup_insert_ne by done. set_solver.
Qed.

Lemma count_hits_spec p wanted d :
  (length (List.filter (fun t => bool_decide (d ∈ post_get p t)) wanted)
     <= hits_of (count_hits p wanted) d)%nat /\
  (is_Some (count_hits p wanted !! d) <-> exists t, t ∈ wanted /\ d ∈ post_get p t).
Proof.
  unfold count_hits.
  assert (forall hits,
    (hits_of hits d + length (List.filter (fun t => bool_decide (d ∈ post_get p t)) wanted)
      <= hits_of (fold_left (fun hits t => fold_left hit (post_get p t) hits) wanted hits) d)%nat
    /\ (is_Some (fold_left (fun hits t => fold_left hit (post_get p t) hits) wanted hits !! d)
      <-> is_Some (hits !! d) \/ exists t, t ∈ wanted /\ d ∈ post_get p t)) as Hg.
  { induction wanted as [|t wanted IH]; intros hits; simpl.
    - split; [lia|]. set_solver.
    - destruct (IH (fold_left hit (post_get p t) hits)) as [IH1 IH2].
      destruct (hit_list (post_get p t) hits d) as [Hc Hs].
      rewrite IH2, Hs. split.
      + rewrite Hc in IH1. case_bool_decide as Hd; cbn [length]; [|lia].
        rewrite list_elem_of_In in Hd. apply (count_occ_In N.eq_dec) in Hd. lia.
      + set_solver. }
  destruct (Hg ∅) as [H1 H2]. rewrite H2, lookup_empty. unfold hits_of in H1 at 1.
  rewrite lookup_empty in H1. split; [done|]. split; [|auto].
  intros [[? ?]|?]; done.
Qed.

(** Sharing enough of the wanted trigrams makes a docnum a candidate. *)
Lemma elem_of_at_least p wanted threshold d :
  (0 < threshold)%nat ->
  (threshold <= length (List.filter (fun t => bool_decide (d ∈ post_get p t)) wanted))%nat ->
  d ∈ at_least p wanted threshold.
Proof.
  intros Hpos Ht. destruct (count_hits_spec p wanted d) as [Hc [_ Hs]].
  destruct Hs as [n Hn].
  { destruct (List.filter _ wanted) as [|t l] eqn:E; cbn [length] in Ht; [lia|].
    exists t. assert (In t (t :: l)) as Hin by (left; done). rewrite <- E in Hin.
    apply filter_In in Hin as [Hin Hd]. apply bool_decide_eq_true in Hd.
    by rewrite list_elem_of_In. }
  unfold at_least. rewrite merge_sort_Permutation, list_elem_of_In, in_map_iff.
  exists (d, n). split; [done|]. apply filter_In. split.
  - by apply list_elem_of_In, elem_of_map_to_list.
  - unfold hits_of in Hc. rewrite Hn in Hc. simpl in *. apply Nat.leb_le. lia.
Qed.

(** *** One edit destroys at most three windows *)

(** The windows of [b] that [a] lacks. *)
Definition lost (a b : list char) : nat :=
  length (List.filter (fun t => negb (bool_decide (t ∈ windows3 a))) (windows3 b)).

(** How many windows the next common characters can still lose. *)
Definition defect (a b : list char) : nat :=
  if decide (take 2 a = take 2 b) then 0
  else if decide (take 1 a = take 1 b) then 1 else 2.

Lemma windows3_grow x a t : t ∈ windows3 a -> t ∈ windows3 (x :: a).
Proof. destruct a as [|y [|z a]]; simpl; [done..|]. set_solver. Qed.

Lemma filter_length_mono {A} (f g : A -> bool) l :
  (forall x, f x = true -> g x = true) ->
  (length (List.filter f l) <= length (List.filter g l))%nat.
Proof.
  intros Hfg. induction l as [|x l IH]; [done|]. cbn [List.filter].
  destruct (f x) eqn:Ef; [rewrite (Hfg _ Ef); cbn [length]; lia|].
  destruct (g x); cbn [length]; lia.
Qed.

Lemma lost_grow_l x a b : (lost (x :: a) b <= lost a b)%nat.
Proof.
  apply filter_length_mono. intros t. rewrite !negb_true_iff, !bool_decide_eq_false.
  intros Hn Hin. by apply Hn, windows3_grow.
Qed.

Lemma lost_cons_r a y b : (lost a (y :: b) <= S (lost a b))%nat.
Proof.
  unfold lost. destruct b as [|z [|w b]]; [cbn [windows3 List.filter length]; lia..|].
  change (windows3 (y :: z :: w :: b)) with ([y; z; w] :: windows3 (z :: w :: b)).
  cbn [List.filter]. destruct (negb _); cbn [length]; lia.
Qed.

(** A common first character loses its window only when the next two differ. *)
Lemma lost_keep x a b :
  (lost (x :: a) (x :: b) + defect (x :: a) (x :: b) <= lost a b + defect a b)%nat.
Proof.
  pose proof (lost_grow_l x a b) as Hg. pose proof (lost_cons_r (x :: a) x b) as Hc.
  unfold defect at 2. destruct (decide (take 2 a = take 2 b)) as [E|Hne].
  - assert (lost (x :: a) (x :: b) <= lost (x :: a) b)%nat as Hk.
    { destruct b as [|z [|w b]]; [done|done|].
      destruct a as [|z' [|w' a]]; simpl in E; simplify_eq.
      unfold lost. change (windows3 (x :: z :: w :: b)) with ([x; z; w] :: windows3 (z :: w :: b)).
      cbn [List.filter]. rewrite bool_decide_eq_true_2; [done|]. simpl. set_solver. }
    unfold defect. rewrite decide_True; [lia|].
    destruct a as [|z a], b as [|w b]; simpl in E |- *; simplify_eq; try done; congruence.
  - destruct (decide (take 1 a = take 1 b)) as [E|Hne1].
    + unfold defect. rewrite decide_True; [lia|].
      destruct a as [|z a], b as [|w b]; simpl in *; congruence.
    + unfold defect. destruct (decide (take 2 (x :: a) = _)); [lia|].
      rewrite decide_True by done. lia.
Qed.

Lemma defect_le a b : (defect a b <= 2)%nat.
Proof. unfold defect. repeat case_decide; lia. Qed.

Lemma edit_script_lost a b n : edit_script a b n -> (lost a b + defect a b <= 3 * n)%nat.
Proof.
  induction 1 as [|x a b n _ IH|x y a b n _ IH|x a b n _ IH|y a b n _ IH].
  - done.
  - pose proof (lost_keep x a b). lia.
  - pose proof (defect_le (x :: a) (y :: b)). pose proof (lost_grow_l x a (y :: b)).
    pose proof (lost_cons_r a y b). lia.
  - pose proof (defect_le (x :: a) b). pose proof (lost_grow_l x a b). lia.
  - pose proof (defect_le a (y :: b)). pose proof (lost_cons_r a y b). lia.
Qed.

(** The distinct wanted trigrams of which the text has none number at most
    three per edit. *)
Lemma edit_script_shares text needle n :
  edit_script (str_to_lower text) (str_to_lower needle) n ->
  (length (distinct_trigrams needle) <=
   length (List.filter (fun t => bool_decide (t ∈ trigrams text)) (distinct_trigrams needle))
   + 3 * n)%nat.
Proof.
  intros Hs%edit_script_lost.
  set (f := fun t => bool_decide (t ∈ trigrams text)).
  assert (length (distinct_trigrams needle) =
    length (List.filter f (distinct_trigrams needle)) +
    length (List.filter (fun t => negb (f t)) (distinct_trigrams needle)))%nat as Hsplit.
  { symmetry. apply List.filter_length. }
  assert (length (List.filter (fun t => negb (f t)) (distinct_trigrams needle))
    <= lost (str_to_lower text) (str_to_lower needle))%nat as Hlost; [|lia].
  apply NoDup_incl_length.
  - apply List.NoDup_filter, NoDup_ListNoDup, distinct_trigrams_NoDup.
  - intros t. rewrite !filter_In, <- !list_elem_of_In, elem_of_distinct_trigrams. done.
Qed.
