(* ===== verification/Literal.v ===== *)
(** * Literal: required literals of a regular expression
    ([src/src/findex/literal.rs])

    [Hir] mirrors the syntax tree of the [regex_syntax] crate, whose parser is
    reached through the interface [RegexSyntax]; [required_sound] shows that a
    literal the analysis reports occurs in every string the tree matches. *)
From S2P Require Import Prelude Model TextPred Filter Postings.

(** [HirKind].  A literal is its bytes read by [String::from_utf8] ([None]
    when they are not UTF-8), a class its membership test. *)
Inductive Hir :=
| HEmpty
| HLiteral (lit : option rstring)
| HClass (member : char -> bool)
| HLook
| HRepetition (min : nat) (max : option nat) (sub : Hir)
| HCapture (sub : Hir)
| HConcat (parts : list Hir)
| HAlternation (branches : list Hir).

Section loops.
Context (required : Hir -> list rstring).

(** The loop over a concatenation: [run] joins adjacent literals. *)
Fixpoint concat_loop (parts : list Hir) (out : list rstring) (run : rstring)
  : list rstring :=
  match parts with
  | [] => if is_nonempty run then out ++ [run] else out
  | p :: parts' =>
      match p with
      | HLiteral (Some s) => concat_loop parts' out (run ++ s)
      | _ =>
          let out := if is_nonempty run then out ++ [run] else out in
          concat_loop parts' (out ++ required p) []
      end
  end.

(** The loop over an alternation, with its two early returns. *)
Fixpoint alternation_loop (branches : list Hir) (common : option (list rstring))
  : list rstring :=
  match branches with
  | [] => default [] common
  | b :: branches' =>
      let here := required b in
      if bool_decide (here = []) then []
      else
        let common :=
          match common with
          | None => here
          | Some prev => List.filter (fun l => str_mem l here) prev
          end in
        if bool_decide (common = []) then [] else alternation_loop branches' (Some common)
  end.
End loops.

Fixpoint required (hir : Hir) : list rstring :=
  match hir with
  | HLiteral (Some s) => [s]
  | HConcat parts => concat_loop required parts [] []
  | HAlternation branches => alternation_loop required branches None
  | HRepetition min _ sub => if (1 <=? min)%nat then required sub else []
  | HCapture sub => required sub
  | HEmpty | HLiteral None | HClass _ | HLook => []
  end.

(** [regex_syntax::parse]. *)
Class RegexSyntax := hir_parse : rstring -> option Hir.

Definition required_literals `{RegexSyntax} (pattern : rstring) : list rstring :=
  match hir_parse pattern with
  | None => []
  | Some hir => sort_dedup str_le (List.filter is_nonempty (required hir))
  end.

(** ** What a tree matches

    Look-around assertions are taken as always true and a non-UTF-8 literal as
    any text: the relation holds at least of every match. *)
Inductive hmatch : Hir -> rstring -> Prop :=
| hm_empty : hmatch HEmpty []
| hm_literal s : hmatch (HLiteral (Some s)) s
| hm_raw s : hmatch (HLiteral None) s
| hm_class f c : f c = true -> hmatch (HClass f) [c]
| hm_look : hmatch HLook []
| hm_rep_done max sub : hmatch (HRepetition 0 max sub) []
| hm_rep_step min max sub s t :
    max <> Some 0%nat -> hmatch sub s ->
    hmatch (HRepetition (pred min) (pred <$> max) sub) t ->
    hmatch (HRepetition min max sub) (s ++ t)
| hm_capture sub s : hmatch sub s -> hmatch (HCapture sub) s
| hm_concat_nil : hmatch (HConcat []) []
| hm_concat_cons p ps s t :
    hmatch p s -> hmatch (HConcat ps) t -> hmatch (HConcat (p :: ps)) (s ++ t)
| hm_alternation b bs s : b ∈ bs -> hmatch b s -> hmatch (HAlternation bs) s.

(** The documented meaning of an anchored pattern: it accepts a text only when
    the parsed expression matches the whole of it. *)
Class RegexLaws `{RegexEngine} `{RegexSyntax} : Prop :=
  anchored_matches : forall pattern hir is_match s,
    hir_parse pattern = Some hir -> regex_new (anchored pattern) = Some is_match ->
    is_match s = true -> hmatch hir s.

(** [str::contains]. *)
Definition infix (l s : rstring) : Prop := exists u v, s = u ++ l ++ v.

Lemma infix_refl l : infix l l.
Proof. exists [], []. by rewrite app_nil_r. Qed.

Lemma infix_app_l l s t : infix l s -> infix l (s ++ t).
Proof. intros (u & v & ->). exists u, (v ++ t). by rewrite !app_assoc. Qed.

Lemma infix_app_r l s t : infix l t -> infix l (s ++ t).
Proof. intros (u & v & ->). exists (s ++ u), v. by rewrite !app_assoc. Qed.

#[export] Hint Resolve infix_refl infix_app_l infix_app_r : nidus.

Lemma windows3_app_l a b t : t ∈ windows3 a -> t ∈ windows3 (a ++ b).
Proof.
  induction a as [|x [|y [|z a]] IH]; simpl; try (by intros ?%elem_of_nil).
  simpl in IH. set_solver.
Qed.

Lemma windows3_app_r a b t : t ∈ windows3 b -> t ∈ windows3 (a ++ b).
Proof. induction a as [|x a IH]; simpl; [done|]. intros. by apply windows3_grow, IH. Qed.

Lemma infix_trigrams l s t : infix l s -> t ∈ trigrams l -> t ∈ trigrams s.
Proof.
  intros (u & v & ->) Ht. unfold trigrams, str_to_lower in *. rewrite !map_app.
  by apply windows3_app_r, windows3_app_l.
Qed.

(** ** Soundness *)

Lemma str_mem_true want items : str_mem want items = true <-> want ∈ items.
Proof.
  unfold str_mem. rewrite existsb_exists, list_elem_of_In. split.
  - intros (i & Hi & ->%bool_decide_eq_true). done.
  - intros Hi. exists want. by rewrite bool_decide_eq_true.
Qed.

Lemma push_run out run l :
  l ∈ (if is_nonempty run then out ++ [run] else out) -> l ∈ out \/ l = run.
Proof. destruct (is_nonempty run); [rewrite elem_of_app|]; set_solver. Qed.

(** Where the literals of a concatenation come from: already collected, or
    inside the pending run followed by the match of the rest. *)
Definition concat_sound (parts : list Hir) (s : rstring) : Prop :=
  forall out run l, l ∈ concat_loop required parts out run -> l ∈ out \/ infix l (run ++ s).

Definition required_ok (h : Hir) (s : rstring) : Prop :=
  (forall l, l ∈ required h -> infix l s) /\
  match h with HConcat parts => concat_sound parts s | _ => True end.

Lemma concat_sound_cons p ps s t :
  (forall l, l ∈ required p -> infix l s) -> (forall x, p = HLiteral (Some x) -> s = x) ->
  concat_sound ps t -> concat_sound (p :: ps) (s ++ t).
Proof.
  intros Hp Hlit Hps out run l.
  assert (l ∈ concat_loop required ps
      ((if is_nonempty run then out ++ [run] else out) ++ required p) [] ->
    l ∈ out \/ infix l (run ++ s ++ t)) as Hother.
  { intros [Hl|Hl]%Hps; [|auto with nidus].
    apply elem_of_app in Hl as [[?| ->]%push_run|?]; auto with nidus. }
  destruct p as [|[x|]| | | | | |]; try exact Hother.
  specialize (Hlit x eq_refl) as ->. simpl. intros [Hl|Hl]%Hps; [auto|].
  rewrite <- app_assoc in Hl. auto.
Qed.

Lemma alternation_loop_sound branches : forall common l,
  l ∈ alternation_loop required branches common ->
  (forall c, common = Some c -> l ∈ c) /\ Forall (fun b => l ∈ required b) branches.
Proof.
  induction branches as [|b bs IH]; intros common l; simpl.
  { destruct common; simpl; [|by intros ?%elem_of_nil]. split; [congruence|constructor]. }
  case_bool_decide; [by intros ?%elem_of_nil|].
  case_bool_decide; [by intros ?%elem_of_nil|].
  intros [Hc Hf]%IH. specialize (Hc _ eq_refl). destruct common as [c|].
  - apply list_elem_of_In, filter_In in Hc as [Hc Hb%str_mem_true].
    split; [intros ? [= <-]; by apply list_elem_of_In|by constructor].
  - split; [done|by constructor].
Qed.

Lemma required_sound_aux h s : hmatch h s -> required_ok h s.
Proof.
  induction 1 as [|s|s|f c Hf| |max sub|min max sub s t Hm Hs [IH _] Ht _|sub s Hs [IH _]|
    |p ps s t Hp [IH _] Hps [_ IHs]|b bs s Hb Hs [IH _]]; split; try done;
    try (by intros l ?%elem_of_nil).
  - intros l ->%list_elem_of_singleton. auto with nidus.
  - intros l. cbn [required]. destruct (1 <=? min)%nat; [|by intros ?%elem_of_nil].
    intros. by apply infix_app_l, IH.
  - intros out run l Hl. simpl in Hl. apply push_run in Hl as [?| ->]; auto with nidus.
  - assert (concat_sound (p :: ps) (s ++ t)) as Hc.
    { apply concat_sound_cons; [done| |done]. intros x ->. by inversion Hp. }
    intros l Hl. destruct (Hc [] [] l Hl) as [?%elem_of_nil|?]; done.
  - apply concat_sound_cons; [done| |done]. intros x ->. by inversion Hp.
  - intros l Hl. apply alternation_loop_sound in Hl as [_ Hall].
    rewrite Forall_forall in Hall. by apply IH, Hall.
Qed.

Lemma required_literals_in `{RegexSyntax} pattern hir s l :
  hir_parse pattern = Some hir -> hmatch hir s -> l ∈ required_literals pattern -> infix l s.
Proof.
  intros Hp Hs. unfold required_literals. rewrite Hp, (elem_of_sort_dedup str_le).
  rewrite list_elem_of_In, filter_In, <- list_elem_of_In. intros [Hl _].
  by apply (required_sound_aux _ _ Hs).
Qed.

(** every literal reported as required occurs in every string the parsed
    pattern matches: joining adjacent literals, keeping only what all branches
    of an alternation share and dropping optional parts never reports one that
    a match can lack. *)
Theorem required_sound `{RegexSyntax} pattern hir s :
  hir_parse pattern = Some hir -> hmatch hir s ->
  Forall (fun l => infix l s) (required_literals pattern).
Proof.
  intros Hp Hs. apply Forall_forall. intros l. by apply (required_literals_in _ hir).
Qed.

(** [a(b|cb)+x?y] requires [a], nothing of the group, and [y]. *)
Example required_ex :
  required (HConcat [HLiteral (Some (lit "a"));
    HRepetition 1 None (HAlternation [HLiteral (Some (lit "b")); HLiteral (Some (lit "cb"))]);
    HRepetition 0 (Some 1%nat) (HLiteral (Some (lit "x"))); HLiteral (Some (lit "y"))])
  = [lit "a"; lit "y"].
Proof. reflexivity. Qed.

(** ** A concrete instance

    An engine that knows plain words only: such a pattern matches itself. *)
Definition plain_word (p : rstring) : bool := forallb ascii_alnum p.

Module PlainEngine.
Definition strip (q : rstring) : option rstring :=
  let p := take (length q - 6) (drop 4 q) in
  if bool_decide (q = anchored p) && plain_word p then Some p else None.

#[export] Instance engine : RegexEngine := fun q =>
  (fun p s => bool_decide (s = p)) <$> strip q.
#[export] Instance syntax : RegexSyntax := fun p =>
  if plain_word p then Some (HLiteral (Some p)) else None.

Lemma strip_anchored p : plain_word p = true -> strip (anchored p) = Some p.
Proof.
  intros Hp. unfold strip.
  assert (take (length (anchored p) - 6) (drop 4 (anchored p)) = p) as ->.
  { unfold anchored. rewrite !length_app.
    change (length (lit "^(?:")) with 4%nat. change (length (lit ")$")) with 2%nat.
    replace (4 + (length p + 2) - 6)%nat with (length p) by lia.
    change (drop 4 (lit "^(?:" ++ p ++ lit ")$")) with (p ++ lit ")$").
    by rewrite take_app_length. }
  by rewrite bool_decide_eq_true_2, Hp.
Qed.

#[export] Instance laws : RegexLaws.
Proof.
  intros p hir im s Hp He Hm. unfold hir_parse, syntax in Hp.
  destruct (plain_word p) eqn:Hw; [|done]. injection Hp as <-.
  unfold regex_new, engine in He. rewrite strip_anchored in He by done.
  injection He as <-. apply bool_decide_eq_true in Hm as ->. constructor.
Qed.
End PlainEngine.

Section example.
Import PlainEngine.

Lemma required_sound_witness :
  Forall (fun l => infix l (lit "zeta")) (required_literals (lit "zeta")).
Proof.
  apply (required_sound (lit "zeta") (HLiteral (Some (lit "zeta")))).
  - reflexivity.
  - constructor.
Defined.
End example.
