(* ===== verification/Findex.v ===== *)
(** * Findex: the filter index ([src/src/findex/mod.rs])

    Token and trigram postings per indexed attribute, kept beside the
    documents; a query asks for candidate documents.  [field_ok] is what a
    query needs of one attribute's index and [findex_ok] of the whole;
    [field_exact] and [findex_exact] are the invariants of the writes, which
    say besides that nothing else is posted of a live document;
    [leaf_candidates_sound] is what narrowing relies on. *)
From S2P Require Import Prelude Floats Model TextPred Filter Postings Literal.

(** [items.join(" ")]. *)
Fixpoint join_spaces (items : list rstring) : rstring :=
  match items with
  | [] => []
  | [s] => s
  | s :: items' => s ++ 32%N :: join_spaces items'
  end.

Definition field_text (attrs : attrs_map) (field : rstring) : rstring :=
  match attrs !! field with
  | Some (VStr s) => s
  | Some (VList items) => join_spaces items
  | _ => []
  end.

Record FieldIndex := {
  fx_cfg_tokens : bool;
  fx_cfg_trigrams : bool;
  fx_tokens : gmap rstring (list N);
  fx_trigrams : gmap Trigram (list N);
  fx_docnum_to_id : list (option rstring);
  fx_id_to_docnum : gmap rstring N
}.

Record Findex := {
  fx_fields : gmap (rstring * rstring) FieldIndex;
  fx_schema : gmap rstring (list FilterIndexField)
}.

Definition Findex_default : Findex := {| fx_fields := ∅; fx_schema := ∅ |}.

(** [len as u32]: the conversion wraps. *)
Definition as_u32 (n : nat) : N := (N.of_nat n mod 2 ^ 32)%N.

Definition FieldIndex_new (f : FilterIndexField) : FieldIndex :=
  {| fx_cfg_tokens := fi_tokens f; fx_cfg_trigrams := fi_trigrams f;
     fx_tokens := ∅; fx_trigrams := ∅; fx_docnum_to_id := []; fx_id_to_docnum := ∅ |}.

(** The write to the docnum's slot is an indexing expression in the source; the
    invariant keeps every recorded docnum in range. *)
Definition tombstone (idx : FieldIndex) (id : rstring) : FieldIndex :=
  match fx_id_to_docnum idx !! id with
  | None => idx
  | Some d =>
      {| fx_cfg_tokens := fx_cfg_tokens idx; fx_cfg_trigrams := fx_cfg_trigrams idx;
         fx_tokens := fx_tokens idx; fx_trigrams := fx_trigrams idx;
         fx_docnum_to_id := <[N.to_nat d := None]> (fx_docnum_to_id idx);
         fx_id_to_docnum := delete id (fx_id_to_docnum idx) |}
  end.

Section findex.
Context `{UnicodeAlnum} `{RegexSyntax}.

Definition index (idx : FieldIndex) (id text : rstring) : FieldIndex :=
  let idx := tombstone idx id in
  let docnum := as_u32 (length (fx_docnum_to_id idx)) in
  {| fx_cfg_tokens := fx_cfg_tokens idx;
     fx_cfg_trigrams := fx_cfg_trigrams idx;
     fx_tokens := if fx_cfg_tokens idx
                  then index_tokens docnum (fx_tokens idx) text else fx_tokens idx;
     fx_trigrams := if fx_cfg_trigrams idx
                    then index_trigrams docnum (fx_trigrams idx) text else fx_trigrams idx;
     fx_docnum_to_id := fx_docnum_to_id idx ++ [Some id];
     fx_id_to_docnum := <[id := docnum]> (fx_id_to_docnum idx) |}.

Definition live_count (idx : FieldIndex) : nat := size (fx_id_to_docnum idx).

(** Docnums to live ids, dropping tombstoned slots. *)
Definition ids (idx : FieldIndex) (docnums : list N) : list rstring :=
  omap (fun d => mjoin (fx_docnum_to_id idx !! N.to_nat d)) docnums.

(** ** The store's filter index *)

Definition is_active (fx : Findex) : bool := negb (bool_decide (fx_schema fx = ∅)).

Definition schema_for (fx : Findex) (collection : rstring) : option (list FilterIndexField) :=
  fx_schema fx !! collection.

Definition retain_others (collection : rstring)
    (m : gmap (rstring * rstring) FieldIndex) : gmap (rstring * rstring) FieldIndex :=
  filter (fun kv => kv.1.1 <> collection) m.

Definition insert_fields (collection : rstring) (fields : list FilterIndexField)
    (m : gmap (rstring * rstring) FieldIndex) : gmap (rstring * rstring) FieldIndex :=
  fold_left (fun m f => <[(collection, fi_field f) := FieldIndex_new f]> m) fields m.

Definition set_schema (fx : Findex) (collection : rstring)
    (fields : list FilterIndexField) : Findex :=
  {| fx_fields := insert_fields collection fields (retain_others collection (fx_fields fx));
     fx_schema := if bool_decide (fields = []) then delete collection (fx_schema fx)
                  else <[collection := fields]> (fx_schema fx) |}.

Definition index_fields (collection id : rstring) (attrs : attrs_map)
    (fields : list FilterIndexField) (m : gmap (rstring * rstring) FieldIndex)
  : gmap (rstring * rstring) FieldIndex :=
  fold_left (fun m f =>
    alter (fun idx => index idx id (field_text attrs (fi_field f)))
      (collection, fi_field f) m) fields m.

Definition index_doc (fx : Findex) (collection id : rstring) (attrs : attrs_map) : Findex :=
  match fx_schema fx !! collection with
  | None => fx
  | Some fields =>
      {| fx_fields := index_fields collection id attrs fields (fx_fields fx);
         fx_schema := fx_schema fx |}
  end.

Definition remove_doc (fx : Findex) (collection id : rstring) : Findex :=
  {| fx_fields := map_imap (fun k idx =>
       Some (if decide (k.1 = collection) then tombstone idx id else idx)) (fx_fields fx);
     fx_schema := fx_schema fx |}.

Definition findex_drop_collection (fx : Findex) (collection : rstring) : Findex :=
  {| fx_fields := retain_others collection (fx_fields fx);
     fx_schema := delete collection (fx_schema fx) |}.

(** The schema is taken, each collection declared afresh, and put back. *)
Definition clear_indexes (fx : Findex) : Findex :=
  let rebuilt := fold_left (fun acc cf => set_schema acc cf.1 cf.2)
    (map_to_list (fx_schema fx)) Findex_default in
  {| fx_fields := fx_fields rebuilt; fx_schema := fx_schema fx |}.

Definition index_for (fx : Findex) (collection field : rstring) : option FieldIndex :=
  fx_fields fx !! (collection, field).

(** ** Candidates *)

Definition shortest (lists : list (list N)) : option nat :=
  match lists with
  | [] => None
  | l :: ls => Some (fold_left Nat.min (map length ls) (length l))
  end.

Definition longest (lists : list (list N)) : option nat :=
  match lists with
  | [] => None
  | l :: ls => Some (fold_left Nat.max (map length ls) (length l))
  end.

Definition guard_opt (b : bool) : option unit := if b then Some tt else None.

(** The shared body of the two conjunctive token predicates. *)
Definition all_token_candidates (idx : FieldIndex) (query : rstring) (limit : nat)
  : option (list N) :=
  let want := tokens query in
  if bool_decide (want = []) then None
  else
    let lists := map (get_token (fx_tokens idx)) want in
    n ← shortest lists;
    if (limit <? n)%nat then None else intersect lists.

Definition candidates (fx : Findex) (collection : rstring) (pred : Predicate)
    (limit : nat) : option (FieldIndex * list N) :=
  match pred with
  | PContainsAllTokens key query | PContainsTokenSequence key query =>
      idx ← index_for fx collection key;
      _ ← guard_opt (fx_cfg_tokens idx);
      docnums ← all_token_candidates idx query limit;
      Some (idx, docnums)
  | PContainsAnyToken key query =>
      idx ← index_for fx collection key;
      _ ← guard_opt (fx_cfg_tokens idx);
      let want := tokens query in
      if bool_decide (want = []) then Some (idx, [])
      else
        let lists := map (get_token (fx_tokens idx)) want in
        n ← longest lists;
        if (limit <? n)%nat then None else Some (idx, union_lists lists)
  | PFuzzy key needle max_edits =>
      idx ← index_for fx collection key;
      _ ← guard_opt (fx_cfg_trigrams idx);
      threshold ← fuzzy_threshold needle max_edits;
      Some (idx, at_least (fx_trigrams idx) (distinct_trigrams needle) threshold)
  | PRegex key pattern =>
      idx ← index_for fx collection key;
      _ ← guard_opt (fx_cfg_trigrams idx);
      let want := List.concat (map distinct_trigrams (required_literals pattern)) in
      if bool_decide (want = []) then None
      else
        let want := sort_dedup str_le want in
        let n := length want in
        let lists := map (post_get (fx_trigrams idx)) want in
        s ← shortest lists;
        if (limit <? s)%nat then None
        else Some (idx, at_least (fx_trigrams idx) want n)
  | _ => None
  end.

Definition findex_candidate_ids (fx : Findex) (collection : rstring) (pred : Predicate)
    (limit : nat) : option (list rstring) :=
  '(field, docnums) ← candidates fx collection pred limit;
  if (limit <? length docnums)%nat then None else Some (ids field docnums).

(** The first attribute of the collection the iteration meets. *)
Definition live_docs (fx : Findex) (collection : rstring) : option nat :=
  (fun kv => live_count kv.2) <$>
    List.find (fun kv => bool_decide (kv.1.1 = collection)) (map_to_list (fx_fields fx)).
End findex.

(** ** Text of an attribute *)

Lemma join_spaces_cons s t items :
  join_spaces (s :: t :: items) = s ++ 32%N :: join_spaces (t :: items).
Proof. done. Qed.

Lemma join_spaces_infix s items : s ∈ items -> infix s (join_spaces items).
Proof.
  induction items as [|x [|y items] IH]; intros Hs; [by apply elem_of_nil in Hs|..].
  - apply list_elem_of_singleton in Hs as ->. apply infix_refl.
  - rewrite join_spaces_cons. apply elem_of_cons in Hs as [->|Hs]; [auto with nidus|].
    apply infix_app_r. change (32%N :: ?l) with ([32%N] ++ l). by apply infix_app_r, IH.
Qed.

Lemma join_spaces_tokens `{UnicodeAlnum} s items w :
  s ∈ items -> w ∈ tokens s -> w ∈ tokens (join_spaces items).
Proof.
  intros Hs Hw. induction items as [|x [|y items] IH]; [by apply elem_of_nil in Hs|..].
  - by apply list_elem_of_singleton in Hs as ->.
  - rewrite join_spaces_cons, (tokens_app _ _ _ space_is_separator), elem_of_app.
    apply elem_of_cons in Hs as [->|Hs]; auto.
Qed.

(** A text predicate that holds was satisfied by a text inside the indexed one. *)
Lemma any_text_field_text `{UnicodeAlnum} (attrs : attrs_map) key pred :
  any_text (attrs !! key) pred = true ->
  exists s, pred s = true /\ infix s (field_text attrs key) /\
    forall w, w ∈ tokens s -> w ∈ tokens (field_text attrs key).
Proof.
  unfold any_text, field_text. destruct (attrs !! key) as [[| s| | |items| |]|]; try done.
  - intros Hp. exists s. auto with nidus.
  - intros (s & Hs & Hp)%existsb_exists. apply list_elem_of_In in Hs.
    exists s. split_and!; [done|by apply join_spaces_infix|].
    intros w. by apply join_spaces_tokens.
Qed.

(** ** The invariant of one attribute's index *)

Section field_ok.
Context `{UnicodeAlnum}.

(** [texts] gives the current text of every indexed document. *)
Record field_ok (idx : FieldIndex) (texts : gmap rstring rstring) : Prop := {
  fo_dom : forall id, is_Some (fx_id_to_docnum idx !! id) <-> is_Some (texts !! id);
  fo_slot : forall id d, fx_id_to_docnum idx !! id = Some d ->
    fx_docnum_to_id idx !! N.to_nat d = Some (Some id);
  fo_live : forall i id, fx_docnum_to_id idx !! i = Some (Some id) ->
    fx_id_to_docnum idx !! id = Some (N.of_nat i);
  fo_tokens : forall id d text, fx_id_to_docnum idx !! id = Some d ->
    texts !! id = Some text -> fx_cfg_tokens idx = true ->
    forall w h, h ∈ tokens text -> str_to_lower h = str_to_lower w ->
    d ∈ get_token (fx_tokens idx) w;
  fo_trigrams : forall id d text, fx_id_to_docnum idx !! id = Some d ->
    texts !! id = Some text -> fx_cfg_trigrams idx = true ->
    forall t, t ∈ trigrams text -> d ∈ post_get (fx_trigrams idx) t;
  fo_sorted_tokens : post_ok (N.of_nat (length (fx_docnum_to_id idx))) (fx_tokens idx);
  fo_sorted_trigrams : post_ok (N.of_nat (length (fx_docnum_to_id idx))) (fx_trigrams idx)
}.

Lemma field_ok_new f : field_ok (FieldIndex_new f) ∅.
Proof.
  split; simpl; try apply post_ok_empty; intros *; rewrite ?lookup_empty; try done.
Qed.

Lemma tombstone_length idx id :
  length (fx_docnum_to_id (tombstone idx id)) = length (fx_docnum_to_id idx).
Proof. unfold tombstone. case_match; [|done]. apply length_insert. Qed.

Lemma tombstone_ids idx id : fx_id_to_docnum (tombstone idx id) = delete id (fx_id_to_docnum idx).
Proof. unfold tombstone. case_match eqn:E; [done|]. by rewrite delete_id. Qed.

Lemma tombstone_posts idx id :
  fx_tokens (tombstone idx id) = fx_tokens idx /\
  fx_trigrams (tombstone idx id) = fx_trigrams idx /\
  fx_cfg_tokens (tombstone idx id) = fx_cfg_tokens idx /\
  fx_cfg_trigrams (tombstone idx id) = fx_cfg_trigrams idx.
Proof. unfold tombstone. by case_match. Qed.

Lemma tombstone_slot idx texts id i id' :
  field_ok idx texts ->
  fx_docnum_to_id (tombstone idx id) !! i = Some (Some id') <->
  fx_docnum_to_id idx !! i = Some (Some id') /\ id' <> id.
Proof.
  intros Hok. unfold tombstone. destruct (fx_id_to_docnum idx !! id) as [d|] eqn:E; simpl.
  - pose proof (fo_slot _ _ Hok _ _ E) as Hs.
    destruct (decide (N.to_nat d = i)) as [<-|Hne].
    + rewrite list_lookup_insert_eq by (by eapply lookup_lt_Some). rewrite Hs.
      split; [done|]. intros [[= ->] ?]. done.
    + rewrite list_lookup_insert_ne by done. split; [|tauto]. intros Hi. split; [done|].
      intros ->. apply (fo_live _ _ Hok) in Hi. rewrite E in Hi. injection Hi as ->. lia.
  - split; [|tauto]. intros Hi. split; [done|]. intros ->.
    apply (fo_live _ _ Hok) in Hi. congruence.
Qed.

Lemma tombstone_ok idx texts id :
  field_ok idx texts -> field_ok (tombstone idx id) (delete id texts).
Proof.
  intros Hok. destruct (tombstone_posts idx id) as (Et & Eg & Ect & Ecg).
  split; rewrite ?tombstone_ids, ?Et, ?Eg, ?Ect, ?Ecg, ?tombstone_length;
    try apply Hok.
  - intros id'. destruct (decide (id = id')) as [<-|Hne].
    + rewrite !lookup_delete_eq. done.
    + rewrite !lookup_delete_ne by done. apply Hok.
  - intros id' d [Hne Hd]%lookup_delete_Some.
    apply (tombstone_slot _ _ _ _ _ Hok). split; [by apply Hok|done].
  - intros i id' [Hi Hne]%(tombstone_slot _ _ _ _ _ Hok).
    rewrite lookup_delete_ne by done. by apply Hok.
  - intros id' d text [Hne Hd]%lookup_delete_Some [_ Ht]%lookup_delete_Some.
    by eapply fo_tokens.
  - intros id' d text [Hne Hd]%lookup_delete_Some [_ Ht]%lookup_delete_Some.
    by eapply fo_trigrams.
Qed.

Lemma as_u32_id n : (N.of_nat n < 2 ^ 32)%N -> as_u32 n = N.of_nat n.
Proof. intros. unfold as_u32. by apply N.mod_small. Qed.

(** While the docnums fit in [u32], indexing a document records its new text
    and keeps the others'. *)
Lemma index_ok idx texts id text :
  (N.of_nat (length (fx_docnum_to_id idx)) < 2 ^ 32)%N ->
  field_ok idx texts -> field_ok (index idx id text) (<[id := text]> texts).
Proof.
  intros Hlen Hok%(tombstone_ok _ _ id). unfold index.
  rewrite <- (tombstone_length idx id) in Hlen.
  rewrite <- (insert_delete_eq texts id text).
  assert (delete id texts !! id = None) as Hfresh by apply lookup_delete_eq.
  revert Hlen Hok Hfresh.
  generalize (tombstone idx id) as idx', (delete id texts) as texts'. clear idx texts.
  intros idx texts Hlen Hok Hfresh.
  rewrite (as_u32_id _ Hlen). set (n := length (fx_docnum_to_id idx)) in *.
  assert (fx_id_to_docnum idx !! id = None) as Hid.
  { apply eq_None_not_Some. rewrite (fo_dom _ _ Hok), Hfresh. by intros [? ?]. }
  split; cbn [fx_docnum_to_id fx_id_to_docnum fx_tokens fx_trigrams fx_cfg_tokens fx_cfg_trigrams].
  - intros id'. destruct (decide (id = id')) as [<-|Hne].
    + rewrite !lookup_insert_eq. split; intros _; eauto.
    + rewrite !lookup_insert_ne by done. apply Hok.
  - intros id' d [[<- <-]|[Hne Hd]]%lookup_insert_Some.
    + rewrite Nat2N.id, lookup_app_r by lia. by rewrite Nat.sub_diag.
    + apply lookup_app_l_Some. by apply Hok.
  - intros i id' [Hi|[Hi Hs]]%lookup_app_Some.
    + rewrite lookup_insert_ne; [by apply Hok|]. intros <-.
      apply (fo_live _ _ Hok) in Hi. congruence.
    + apply list_lookup_singleton_Some in Hs as [Hs [= ->]].
      rewrite lookup_insert_eq. do 2 f_equal. lia.
  - intros id' d text' Hd Ht Hc w h Hh Hw. rewrite Hc.
    apply elem_of_index_tokens. apply lookup_insert_Some in Ht.
    destruct Ht as [[<- <-]|[Hne Ht]].
    + rewrite lookup_insert_eq in Hd. injection Hd as <-. right. eauto.
    + rewrite lookup_insert_ne in Hd by done. left. by eapply (fo_tokens _ _ Hok).
  - intros id' d text' Hd Ht Hc t Hin. rewrite Hc.
    apply elem_of_add_postings. apply lookup_insert_Some in Ht.
    destruct Ht as [[<- <-]|[Hne Ht]].
    + rewrite lookup_insert_eq in Hd. injection Hd as <-. right.
      by rewrite elem_of_distinct_trigrams.
    + rewrite lookup_insert_ne in Hd by done. left. by eapply (fo_trigrams _ _ Hok).
  - rewrite length_app, Nat2N.inj_add. cbn [length]. case_match.
    + apply add_postings_ok, Hok.
    + eapply post_ok_weaken; [|apply Hok]. lia.
  - rewrite length_app, Nat2N.inj_add. cbn [length]. case_match.
    + apply add_postings_ok, Hok.
    + eapply post_ok_weaken; [|apply Hok]. lia.
Qed.

Lemma index_length idx id text :
  length (fx_docnum_to_id (index idx id text)) = S (length (fx_docnum_to_id idx)).
Proof. unfold index. cbn. rewrite length_app, tombstone_length. cbn [length]. lia. Qed.

(** And nothing else of them: a live document is posted under the tokens and
    trigrams of its own text only. *)
Record field_exact (idx : FieldIndex) (texts : gmap rstring rstring) : Prop := {
  fe_ok : field_ok idx texts;
  fe_tokens : forall id d text, fx_id_to_docnum idx !! id = Some d -> texts !! id = Some text ->
    forall w, d ∈ get_token (fx_tokens idx) w -> exists h, h ∈ tokens text /\ str_to_lower h = str_to_lower w;
  fe_trigrams : forall id d text, fx_id_to_docnum idx !! id = Some d -> texts !! id = Some text ->
    forall t, d ∈ post_get (fx_trigrams idx) t -> t ∈ trigrams text
}.

Lemma field_exact_new f : field_exact (FieldIndex_new f) ∅.
Proof. split; [apply field_ok_new|..]; intros *; cbn; by rewrite lookup_empty. Qed.

Lemma tombstone_exact idx texts id : field_exact idx texts -> field_exact (tombstone idx id) (delete id texts).
Proof.
  intros [Hok Ht Hg]. destruct (tombstone_posts idx id) as (Et & Eg & _). split; [by apply tombstone_ok|..];
    intros id' d text; rewrite tombstone_ids, ?Et, ?Eg; intros [_ Hd]%lookup_delete_Some [_ Hx]%lookup_delete_Some;
    [by eapply Ht|by eapply Hg].
Qed.

(** A docnum not handed out yet is posted nowhere. *)
Lemma post_ok_fresh {K} `{Countable K} n (m : gmap K (list N)) k : post_ok (N.of_nat n) m -> N.of_nat n ∉ post_get m k.
Proof. intros Hm Hin. destruct (Hm k) as [_ Hlt]. rewrite Forall_forall in Hlt. specialize (Hlt _ Hin). cbn in Hlt. lia. Qed.

Lemma index_exact idx texts id text :
  (N.of_nat (length (fx_docnum_to_id idx)) < 2 ^ 32)%N ->
  field_exact idx texts -> field_exact (index idx id text) (<[id := text]> texts).
Proof.
  intros Hlen Hex. split; [apply index_ok; [done|apply Hex]|..]; intros id' d text'; unfold index;
    rewrite <- (tombstone_length idx id) in Hlen; apply (tombstone_exact _ _ id) in Hex;
    cbn [fx_id_to_docnum fx_tokens fx_trigrams]; rewrite (as_u32_id _ Hlen);
    set (n := length (fx_docnum_to_id (tombstone idx id))) in *; destruct Hex as [Hok Ht Hg].
  - intros Hd Hx w Hin. assert (d = N.of_nat n -> id' = id) as Hn.
    { intros ->. apply lookup_insert_Some in Hd as [[-> _]|[_ Hd]]; [done|]. apply (fo_slot _ _ Hok) in Hd.
      rewrite Nat2N.id in Hd. apply lookup_lt_Some in Hd. lia. }
    assert (d ∈ get_token (fx_tokens (tombstone idx id)) w \/ (exists h, h ∈ tokens text /\ str_to_lower h = str_to_lower w) /\ d = N.of_nat n) as [Hold|[Hnew Ed]].
    { destruct (fx_cfg_tokens _); [by apply elem_of_index_tokens|by left]. }
    + apply lookup_insert_Some in Hd as [[<- <-]|[Hne Hd]].
      * exfalso. by eapply post_ok_fresh; [apply (fo_sorted_tokens _ _ Hok)|exact Hold].
      * rewrite lookup_insert_ne in Hx by done. eapply Ht; [exact Hd| |exact Hold]. by rewrite lookup_delete_ne.
    + rewrite (Hn Ed), lookup_insert_eq in Hx. by injection Hx as <-.
  - intros Hd Hx t Hin. assert (d = N.of_nat n -> id' = id) as Hn.
    { intros ->. apply lookup_insert_Some in Hd as [[-> _]|[_ Hd]]; [done|]. apply (fo_slot _ _ Hok) in Hd.
      rewrite Nat2N.id in Hd. apply lookup_lt_Some in Hd. lia. }
    assert (d ∈ post_get (fx_trigrams (tombstone idx id)) t \/ t ∈ trigrams text /\ d = N.of_nat n) as [Hold|[Hnew Ed]].
    { destruct (fx_cfg_trigrams _); [|by left]. apply elem_of_add_postings in Hin as [?|[Hin ?]]; [by left|right].
      split; [by apply elem_of_distinct_trigrams|done]. }
    + apply lookup_insert_Some in Hd as [[<- <-]|[Hne Hd]].
      * exfalso. by eapply post_ok_fresh; [apply (fo_sorted_trigrams _ _ Hok)|exact Hold].
      * rewrite lookup_insert_ne in Hx by done. eapply Hg; [exact Hd| |exact Hold]. by rewrite lookup_delete_ne.
    + rewrite (Hn Ed), lookup_insert_eq in Hx. by injection Hx as <-.
Qed.

(** ** Candidates of one attribute *)

Lemma ids_docnum idx texts id d docnums :
  field_ok idx texts -> fx_id_to_docnum idx !! id = Some d -> d ∈ docnums ->
  id ∈ ids idx docnums.
Proof.
  intros Hok Hd Hin. unfold ids. apply list_elem_of_omap. exists d. split; [done|].
  by rewrite (fo_slot _ _ Hok _ _ Hd).
Qed.

Lemma ids_live idx texts id docnums :
  field_ok idx texts -> id ∈ ids idx docnums -> is_Some (texts !! id).
Proof.
  intros Hok (d & _ & Hd)%list_elem_of_omap. apply (fo_dom _ _ Hok).
  destruct (fx_docnum_to_id idx !! N.to_nat d) as [[id'|]|] eqn:E; simpl in Hd; simplify_eq.
  apply (fo_live _ _ Hok) in E. eauto.
Qed.
End field_ok.

Section leaf.
Context `{UnicodeAlnum} `{RegexEngine} `{RegexSyntax} `{!RegexLaws}.
Context (idx : FieldIndex) (texts : gmap rstring rstring) (id text : rstring) (d : N).
Context (Hok : field_ok idx texts) (Hd : fx_id_to_docnum idx !! id = Some d)
  (Ht : texts !! id = Some text).

Lemma all_token_candidates_sound query limit docnums :
  fx_cfg_tokens idx = true ->
  all_token_candidates idx query limit = Some docnums ->
  (forall w, w ∈ tokens query -> exists h, h ∈ tokens text /\ str_to_lower h = str_to_lower w) ->
  d ∈ docnums.
Proof.
  intros Hc Hcand Hall. unfold all_token_candidates in Hcand. case_bool_decide; [done|].
  apply bind_Some in Hcand as (n & _ & Hcand). destruct (limit <? n)%nat; [done|].
  apply (elem_of_intersect _ _ d Hcand), Forall_forall.
  intros l (w & <- & Hw%list_elem_of_In)%list_elem_of_In%in_map_iff.
  destruct (Hall w Hw) as (h & Hh & E). by eapply fo_tokens.
Qed.

Lemma at_least_sound wanted threshold :
  fx_cfg_trigrams idx = true -> (0 < threshold)%nat ->
  (threshold <=
    length (List.filter (fun t => bool_decide (t ∈ trigrams text)) wanted))%nat ->
  d ∈ at_least (fx_trigrams idx) wanted threshold.
Proof.
  intros Hc Hpos Hle. apply elem_of_at_least; [done|].
  etrans; [exact Hle|]. apply filter_length_mono. intros t Hin%bool_decide_eq_true.
  apply bool_decide_eq_true. by eapply fo_trigrams.
Qed.

Lemma fuzzy_candidates_sound needle max_edits threshold :
  fx_cfg_trigrams idx = true -> fuzzy_threshold needle max_edits = Some threshold ->
  forall s, infix s text -> (levenshtein_ascii_ci s needle <= max_edits)%nat ->
  d ∈ at_least (fx_trigrams idx) (distinct_trigrams needle) threshold.
Proof.
  intros Hc Hth s Hs Hle. unfold fuzzy_threshold in Hth.
  destruct (_ <? 3 * max_edits)%nat eqn:E1; [done|].
  destruct (0 <? _)%nat eqn:E2; [|done]. injection Hth as <-. bdestr.
  apply at_least_sound; [done|done|].
  pose proof (edit_script_shares _ _ _ (levenshtein_script s needle)) as Hsh.
  assert (length (List.filter (fun t => bool_decide (t ∈ trigrams s)) (distinct_trigrams needle))
    <= length (List.filter (fun t => bool_decide (t ∈ trigrams text))
         (distinct_trigrams needle)))%nat; [|lia].
  apply filter_length_mono. intros t. rewrite !bool_decide_eq_true. by apply infix_trigrams.
Qed.

Lemma regex_candidates_sound pattern is_match s :
  fx_cfg_trigrams idx = true ->
  List.concat (map distinct_trigrams (required_literals pattern)) <> [] ->
  regex_new (anchored pattern) = Some is_match -> is_match s = true -> infix s text ->
  let want := sort_dedup str_le
    (List.concat (map distinct_trigrams (required_literals pattern))) in
  d ∈ at_least (fx_trigrams idx) want (length want).
Proof.
  intros Hc Hne Hre Hm Hs want.
  assert (forall t, t ∈ want -> t ∈ trigrams text) as Hall.
  { intros t. unfold want. rewrite (elem_of_sort_dedup str_le), list_elem_of_In, in_concat.
    intros (ts & (l & <- & Hl)%in_map_iff & Hin). apply (infix_trigrams s); [done|].
    rewrite <- list_elem_of_In, elem_of_distinct_trigrams in Hin.
    rewrite <- list_elem_of_In in Hl. eapply infix_trigrams, Hin.
    destruct (hir_parse pattern) as [hir|] eqn:Ep.
    - by eapply required_literals_in, Hl; [|eapply anchored_matches].
    - unfold required_literals in Hl. rewrite Ep in Hl. by apply elem_of_nil in Hl. }
  apply at_least_sound; [done| |].
  - destruct want as [|t w] eqn:Ew; [|cbn [length]; lia]. exfalso. apply Hne.
    destruct (List.concat _) as [|t l] eqn:El; [done|]. exfalso.
    assert (t ∈ want) as Hin; [|rewrite Ew in Hin; by apply elem_of_nil in Hin].
    unfold want. rewrite (elem_of_sort_dedup str_le). set_solver.
  - rewrite (List.filter_ext_in _ (fun _ => true)).
    + by rewrite List.filter_true.
    + intros t Hin%list_elem_of_In. by apply bool_decide_eq_true, Hall.
Qed.
End leaf.

(** ** The invariant of the whole index

    [docs] gives, per indexed collection, the attributes of its documents;
    [n] bounds the docnums handed out so far. *)

Abbreviation findex_docs := (gmap rstring (gmap rstring attrs_map)) (only parsing).

Definition docs_text (field : rstring) (m : gmap rstring attrs_map) : gmap rstring rstring :=
  (fun attrs => field_text attrs field) <$> m.

Section whole.
Context `{UnicodeAlnum} `{RegexEngine} `{RegexSyntax}.

Record findex_ok (n : nat) (fx : Findex) (docs : findex_docs) : Prop := {
  xo_dom : forall c, is_Some (fx_schema fx !! c) <-> is_Some (docs !! c);
  xo_nodup : forall c fs, fx_schema fx !! c = Some fs -> NoDup (map fi_field fs);
  xo_field : forall c f idx, fx_fields fx !! (c, f) = Some idx ->
    exists m fs, docs !! c = Some m /\ fx_schema fx !! c = Some fs /\
      f ∈ map fi_field fs /\ field_ok idx (docs_text f m) /\
      (length (fx_docnum_to_id idx) <= n)%nat
}.

Lemma findex_ok_default : findex_ok 0 Findex_default ∅.
Proof. split; simpl; intros *; rewrite ?lookup_empty; done. Qed.

(** What the writes keep: every declared attribute has an index, of the kinds
    declared, and it is exact. *)
Record findex_exact (n : nat) (fx : Findex) (docs : findex_docs) : Prop := {
  xe_dom : forall c, is_Some (fx_schema fx !! c) <-> is_Some (docs !! c);
  xe_nodup : forall c fs, fx_schema fx !! c = Some fs -> NoDup (map fi_field fs);
  xe_total : forall c fs g, fx_schema fx !! c = Some fs -> g ∈ fs -> is_Some (fx_fields fx !! (c, fi_field g));
  xe_field : forall c f idx, fx_fields fx !! (c, f) = Some idx ->
    exists m fs g, docs !! c = Some m /\ fx_schema fx !! c = Some fs /\ g ∈ fs /\ fi_field g = f /\
      fx_cfg_tokens idx = fi_tokens g /\ fx_cfg_trigrams idx = fi_trigrams g /\
      field_exact idx (docs_text f m) /\ (length (fx_docnum_to_id idx) <= n)%nat
}.

Lemma findex_exact_ok n fx docs : findex_exact n fx docs -> findex_ok n fx docs.
Proof.
  intros Hx. split; [apply Hx..|]. intros c f idx Hf.
  destruct (xe_field _ _ _ Hx _ _ _ Hf) as (m & fs & g & Hm & Hs & Hg & <- & _ & _ & Hfo & Hl).
  exists m, fs. split_and!; [done|done|by apply list_elem_of_fmap_2|apply Hfo|done].
Qed.

Lemma findex_exact_default : findex_exact 0 Findex_default ∅.
Proof. split; simpl; intros *; rewrite ?lookup_empty; done. Qed.

Lemma findex_exact_weaken n n' fx docs : (n <= n')%nat -> findex_exact n fx docs -> findex_exact n' fx docs.
Proof.
  intros Hn Hok. split; [apply Hok..|]. intros c f idx Hf.
  destruct (xe_field _ _ _ Hok _ _ _ Hf) as (m & fs & g & ? & ? & ? & ? & ? & ? & ? & ?).
  exists m, fs, g. split_and!; try done. lia.
Qed.

Lemma lookup_retain_others c m k idx :
  retain_others c m !! k = Some idx <-> m !! k = Some idx /\ k.1 <> c.
Proof. unfold retain_others. by rewrite map_lookup_filter_Some. Qed.

Lemma lookup_insert_fields c fs m k idx :
  insert_fields c fs m !! k = Some idx ->
  m !! k = Some idx \/
  exists f, f ∈ fs /\ k = (c, fi_field f) /\ idx = FieldIndex_new f.
Proof.
  revert m. induction fs as [|f fs IH]; intros m; simpl; [auto|].
  intros [[[<- <-]|[_ Hm]]%lookup_insert_Some|(g & Hg & -> & ->)]%IH.
  - right. exists f. set_solver.
  - by left.
  - right. exists g. set_solver.
Qed.

Lemma insert_fields_total c fs m g :
  g ∈ fs \/ is_Some (m !! (c, fi_field g)) -> is_Some (insert_fields c fs m !! (c, fi_field g)).
Proof.
  revert m. induction fs as [|f fs IH]; intros m; simpl; [by intros [Hx%elem_of_nil|?]|].
  intros Hor. apply IH. destruct Hor as [[->|?]%elem_of_cons|Hs]; [right|by left|right].
  - rewrite lookup_insert_eq. eauto.
  - destruct (decide ((c, fi_field f) = (c, fi_field g))) as [->|]; [rewrite lookup_insert_eq; eauto|by rewrite lookup_insert_ne].
Qed.
Lemma insert_fields_other c fs m k : k.1 <> c -> insert_fields c fs m !! k = m !! k.
Proof.
  intros Hk. revert m. induction fs as [|f fs IH]; intros m; [done|]. simpl. rewrite IH.
  rewrite lookup_insert_ne; [done|]. by intros <-.
Qed.

(** Declarations change nothing of other collections. *)
Lemma set_schema_other fx c fs k : k.1 <> c -> fx_fields (set_schema fx c fs) !! k = fx_fields fx !! k.
Proof.
  intros Hk. cbn. rewrite insert_fields_other by done. unfold retain_others. rewrite map_lookup_filter.
  destruct (fx_fields fx !! k); [|done]. cbn. by rewrite option_guard_True.
Qed.

Lemma lookup_index_fields c id attrs fs m k :
  NoDup (map fi_field fs) ->
  index_fields c id attrs fs m !! k =
  if decide (k.1 = c /\ k.2 ∈ map fi_field fs)
  then (fun idx => index idx id (field_text attrs k.2)) <$> m !! k
  else m !! k.
Proof.
  revert m. induction fs as [|f fs IH]; intros m Hnd; simpl.
  { rewrite decide_False; [done|]. intros [_ Hin]. by apply elem_of_nil in Hin. }
  apply NoDup_cons in Hnd as [Hf Hnd]. rewrite (IH _ Hnd).
  destruct (decide (k = (c, fi_field f))) as [->|Hk]; cbn [fst snd].
  - rewrite decide_False by tauto.
    rewrite decide_True by set_solver. by rewrite lookup_alter_eq.
  - rewrite lookup_alter_ne by done.
    destruct (decide (k.1 = c /\ k.2 ∈ map fi_field fs)) as [[? ?]|Hn].
    + rewrite decide_True; [done|]. set_solver.
    + rewrite decide_False; [done|]. intros [Hc Hin]. apply elem_of_cons in Hin as [Hin|Hin].
      * apply Hk. destruct k. simpl in *. congruence.
      * tauto.
Qed.

(** Declaring fields empties the collection's index. *)
Lemma set_schema_ok n fx docs c fs :
  findex_exact n fx docs -> NoDup (map fi_field fs) ->
  findex_exact n (set_schema fx c fs)
    (if bool_decide (fs = []) then delete c docs else <[c := ∅]> docs).
Proof.
  intros Hok Hnd. split.
  - intros c'. cbn. case_bool_decide; destruct (decide (c = c')) as [<-|Hne];
      rewrite ?lookup_delete_eq, ?lookup_insert_eq, ?lookup_delete_ne, ?lookup_insert_ne by done;
      try apply Hok; split; eauto; intros [? ?]; done.
  - intros c' fs'. cbn. case_bool_decide; destruct (decide (c = c')) as [<-|Hne];
      rewrite ?lookup_delete_eq, ?lookup_insert_eq, ?lookup_delete_ne, ?lookup_insert_ne by done;
      try apply Hok; congruence.
  - intros c' fs' g Hs Hg. destruct (decide (c' = c)) as [->|Hne].
    + cbn in Hs. case_bool_decide; [by rewrite lookup_delete_eq in Hs|]. rewrite lookup_insert_eq in Hs. injection Hs as <-.
      apply insert_fields_total. by left.
    + rewrite set_schema_other by done. cbn in Hs.
      case_bool_decide; rewrite ?lookup_delete_ne, ?lookup_insert_ne in Hs by done; by eapply xe_total.
  - intros c' f idx. cbn. intros [[Hf Hne]%lookup_retain_others|(g & Hg & [= -> ->] & ->)]%lookup_insert_fields.
    + cbn in Hne. destruct (xe_field _ _ _ Hok _ _ _ Hf) as (m & fs' & g & ? & ? & ? & ? & ? & ? & ? & ?).
      exists m, fs', g. case_bool_decide;
        by rewrite ?lookup_delete_ne, ?lookup_insert_ne by congruence.
    + rewrite bool_decide_eq_false_2 by (intros ->; by apply elem_of_nil in Hg).
      exists ∅, fs, g. rewrite !lookup_insert_eq. split_and!; try done.
      * unfold docs_text. rewrite fmap_empty. apply field_exact_new.
      * simpl. lia.
Qed.

Lemma index_doc_ok n fx docs c id attrs :
  (N.of_nat n < 2 ^ 32)%N -> findex_exact n fx docs ->
  findex_exact (S n) (index_doc fx c id attrs) (alter <[id := attrs]> c docs).
Proof.
  intros Hn Hok. unfold index_doc. destruct (fx_schema fx !! c) as [fs|] eqn:Hs; cycle 1.
  { assert (docs !! c = None) as Hc.
    { apply eq_None_not_Some. rewrite <- (xe_dom _ _ _ Hok), Hs. by intros [? ?]. }
    replace (alter <[id:=attrs]> c docs) with docs.
    - apply (findex_exact_weaken n); [lia|done].
    - apply map_eq. intros c'. rewrite lookup_alter. case_decide; [|done].
      subst. by rewrite Hc. }
  pose proof (xe_nodup _ _ _ Hok _ _ Hs) as Hnd. split; cbn [fx_schema fx_fields].
  - intros c'. rewrite lookup_alter. case_decide as E; [subst c'|apply Hok].
    rewrite fmap_is_Some. apply Hok.
  - apply Hok.
  - intros c' fs' g Hs' Hg. rewrite lookup_index_fields by done. pose proof (xe_total _ _ _ Hok _ _ _ Hs' Hg).
    case_decide; [by rewrite fmap_is_Some|done].
  - intros c' f idx Hf. rewrite lookup_index_fields in Hf by done. cbn [fst snd] in Hf.
    destruct (decide _) as [[-> Hin]|Hnin].
    + apply fmap_Some in Hf as (idx0 & Hf & ->).
      destruct (xe_field _ _ _ Hok _ _ _ Hf) as (m & fs' & g & Hm & Hfs & Hg & Hgf & Ht & Hr & Hfo & Hl).
      destruct (tombstone_posts idx0 id) as (_ & _ & Ect & Ecg).
      exists (<[id := attrs]> m), fs', g. rewrite lookup_alter_eq, Hm, index_length.
      split_and!; try done; [cbn; by rewrite Ect|cbn; by rewrite Ecg| |lia].
      unfold docs_text. rewrite fmap_insert. apply index_exact; [lia|done].
    + destruct (xe_field _ _ _ Hok _ _ _ Hf) as (m & fs' & g & Hm & Hfs & Hg & Hgf & Ht & Hr & Hfo & Hl).
      exists m, fs', g. rewrite lookup_alter_ne; [split_and!; try done; lia|].
      intros <-. apply Hnin. split; [done|]. rewrite <- Hgf. apply list_elem_of_fmap_2. congruence.
Qed.

Lemma remove_doc_ok n fx docs c id :
  findex_exact n fx docs -> findex_exact n (remove_doc fx c id) (alter (delete id) c docs).
Proof.
  intros Hok. unfold remove_doc. split; cbn [fx_schema fx_fields].
  - intros c'. rewrite lookup_alter. case_decide as E; [subst c'|apply Hok].
    rewrite fmap_is_Some. apply Hok.
  - apply Hok.
  - intros c' fs g Hs Hg. rewrite map_lookup_imap. destruct (xe_total _ _ _ Hok _ _ _ Hs Hg) as [idx ->]. by eexists.
  - intros c' f idx. rewrite map_lookup_imap. intros (idx0 & Hf & E)%bind_Some.
    cbn [fst] in E. injection E as <-.
    destruct (xe_field _ _ _ Hok _ _ _ Hf) as (m & fs' & g & Hm & Hfs & Hg & Hgf & Ht & Hr & Hfo & Hl).
    destruct (decide (c' = c)) as [->|Hne].
    + destruct (tombstone_posts idx0 id) as (_ & _ & Ect & Ecg).
      exists (delete id m), fs', g. rewrite lookup_alter_eq, Hm, tombstone_length, Ect, Ecg.
      split_and!; try done. unfold docs_text. rewrite fmap_delete. by apply tombstone_exact.
    + exists m, fs', g. by rewrite lookup_alter_ne.
Qed.

Lemma findex_drop_collection_ok n fx docs c :
  findex_exact n fx docs -> findex_exact n (findex_drop_collection fx c) (delete c docs).
Proof.
  intros Hok. pose proof (set_schema_ok n fx docs c [] Hok) as Hs.
  rewrite bool_decide_eq_true_2 in Hs by done. apply Hs. constructor.
Qed.

Lemma lookup_redeclare (l : list (rstring * list FilterIndexField)) acc k idx :
  fx_fields (fold_left (fun acc cf => set_schema acc cf.1 cf.2) l acc) !! k = Some idx ->
  fx_fields acc !! k = Some idx \/
  exists c fs g, (c, fs) ∈ l /\ g ∈ fs /\ k = (c, fi_field g) /\ idx = FieldIndex_new g.
Proof.
  revert acc. induction l as [|[c fs] l IH]; intros acc; simpl; [auto|].
  intros [Hk|(c' & fs' & g & ? & ? & ? & ?)]%IH.
  - cbn [set_schema fx_fields] in Hk.
    apply lookup_insert_fields in Hk as [[? _]%lookup_retain_others|(g & ? & ? & ?)]; [auto|].
    right. exists c, fs, g. set_solver.
  - right. exists c', fs', g. set_solver.
Qed.
Lemma redeclare_total (l : list (rstring * list FilterIndexField)) acc c fs g :
  NoDup l.*1 -> ((c, fs) ∈ l /\ g ∈ fs \/ is_Some (fx_fields acc !! (c, fi_field g)) /\ c ∉ l.*1) ->
  is_Some (fx_fields (fold_left (fun acc cf => set_schema acc cf.1 cf.2) l acc) !! (c, fi_field g)).
Proof.
  revert acc. induction l as [|[c' fs'] l IH]; intros acc Hnd Hor; cbn [fold_left fst snd].
  { by destruct Hor as [[?%elem_of_nil _]|[? _]]. }
  cbn in Hnd. apply NoDup_cons in Hnd as [Hc' Hnd]. apply IH; [done|]. destruct Hor as [[[[= <- <-]|Hin]%elem_of_cons Hg]|[Hs Hn]].
  - right. split; [|done]. apply insert_fields_total. by left.
  - by left.
  - right. cbn in Hn. apply not_elem_of_cons in Hn as [Hne Hn]. split; [|done]. by rewrite set_schema_other.
Qed.

Lemma clear_indexes_ok n fx docs :
  findex_exact n fx docs -> findex_exact n (clear_indexes fx) ((fun _ => ∅) <$> docs).
Proof.
  intros Hok. unfold clear_indexes. split; cbn [fx_schema fx_fields].
  - intros c. rewrite lookup_fmap, fmap_is_Some. apply Hok.
  - apply Hok.
  - intros c fs g Hs Hg. apply (redeclare_total _ _ _ fs); [apply NoDup_fst_map_to_list|]. left.
    split; [by apply elem_of_map_to_list|done].
  - intros c f idx [Hf|(c' & fs & g & Hin & Hg & [= -> ->] & ->)]%lookup_redeclare.
    { cbn in Hf. by rewrite lookup_empty in Hf. }
    apply elem_of_map_to_list in Hin. destruct (xe_dom _ _ _ Hok c') as [Hd _].
    destruct (Hd (ex_intro _ _ Hin)) as [m Hm]. exists ∅, fs, g.
    rewrite lookup_fmap, Hm. split_and!; try done.
    + unfold docs_text. rewrite fmap_empty. apply field_exact_new.
    + simpl. lia.
Qed.

(** *** Leaf candidates *)

Lemma candidates_field fx c p limit idx docnums :
  candidates fx c p limit = Some (idx, docnums) ->
  exists key, index_for fx c key = Some idx.
Proof.
  destruct p; try done; cbn [candidates]; intros (i & Hi & Hc)%bind_Some;
    apply bind_Some in Hc as (u & _ & Hc); exists key; rewrite Hi; f_equal.
  - apply bind_Some in Hc as (? & _ & Hc). congruence.
  - apply bind_Some in Hc as (? & _ & Hc). congruence.
  - case_bool_decide; [congruence|]. apply bind_Some in Hc as (? & _ & Hc).
    destruct (limit <? _)%nat; congruence.
  - apply bind_Some in Hc as (? & _ & Hc). congruence.
  - case_bool_decide; [congruence|]. apply bind_Some in Hc as (? & _ & Hc).
    destruct (limit <? _)%nat; congruence.
Qed.
End whole.

Section candidates.
Context `{UnicodeAlnum} `{RegexEngine} `{RegexSyntax} `{!RegexLaws}.

(** A document that satisfies a predicate has its docnum among the candidates
    of that predicate. *)
Lemma candidates_sound (fx : Findex) (c : rstring) (p : Predicate) (limit : nat) (idx : FieldIndex) (docnums : list N) (m : gmap rstring attrs_map) (id : rstring)
    (attrs : attrs_map) (d : N) :
  candidates fx c p limit = Some (idx, docnums) ->
  (forall key idx, index_for fx c key = Some idx -> field_ok idx (docs_text key m)) ->
  m !! id = Some attrs -> fx_id_to_docnum idx !! id = Some d ->
  matches_one p attrs = true -> d ∈ docnums.
Proof.
  intros Hc Hok Hm Hd Hp.
  assert (forall key, docs_text key m !! id = Some (field_text attrs key)) as Ht
    by (intros; unfold docs_text; by rewrite lookup_fmap, Hm).
  destruct p; try done; cbn [candidates] in Hc; apply bind_Some in Hc as (i & Hi & Hc);
    apply bind_Some in Hc as (u & Hcfg & Hc); cbn [matches_one] in Hp;
    unfold guard_opt in Hcfg; specialize (Hok _ _ Hi); specialize (Ht key).
  - destruct (fx_cfg_trigrams i) eqn:Ecfg; [|done].
    apply bind_Some in Hc as (th & Hth & [= <- <-]). rewrite fuzzy_any_text in Hp.
    apply any_text_field_text in Hp as (s & Hs & Hin & _). bdestr.
    by eapply fuzzy_candidates_sound.
  - destruct (fx_cfg_tokens i) eqn:Ecfg; [|done].
    apply bind_Some in Hc as (l & Hl & [= <- <-]).
    apply any_text_field_text in Hp as (s & Hs & _ & Htok).
    rewrite forallb_forall in Hs.
    eapply all_token_candidates_sound; try done. intros w Hw%list_elem_of_In.
    apply Hs, existsb_exists in Hw as (h & Hh%list_elem_of_In & E%eq_ignore_ascii_case_true).
    eauto.
  - destruct (fx_cfg_tokens i) eqn:Ecfg; [|done].
    apply any_text_field_text in Hp as (s & (w & Hw & Hs)%existsb_exists & _ & Htok).
    apply existsb_exists in Hs as (h & Hh%list_elem_of_In & E%eq_ignore_ascii_case_true).
    case_bool_decide as Hw0.
    { rewrite Hw0 in Hw. done. }
    apply bind_Some in Hc as (n & _ & Hc). destruct (limit <? n)%nat; [done|].
    injection Hc as <- <-. apply elem_of_union_lists. exists (get_token (fx_tokens i) w).
    split; [|by eapply fo_tokens; eauto]. by apply list_elem_of_In, in_map.
  - destruct (fx_cfg_tokens i) eqn:Ecfg; [|done].
    apply bind_Some in Hc as (l & Hl & [= <- <-]).
    apply any_text_field_text in Hp as (s & Hs & _ & Htok).
    apply token_sequence_loop_spec in Hs as (pre & rest & Hpre & Hs).
    eapply all_token_candidates_sound; try done. intros w Hw.
    destruct (starts_with_tokens_in _ _ _ Hs Hw) as (h & Hh & E).
    exists h. split; [|done]. apply Htok. rewrite Hpre. set_solver.
  - destruct (fx_cfg_trigrams i) eqn:Ecfg; [|done].
    unfold regex_matches in Hp. destruct (regex_new _) as [im|] eqn:Hre; [|done].
    apply any_text_field_text in Hp as (s & Hs & Hin & _).
    case_bool_decide as Hne; [done|]. apply bind_Some in Hc as (n & _ & Hc).
    destruct (limit <? n)%nat; [done|]. injection Hc as <- <-.
    by eapply regex_candidates_sound.
Qed.

Lemma leaf_candidates_sound (n : nat) (fx : Findex) (docs : findex_docs) (c : rstring)
    (m : gmap rstring attrs_map) (p : Predicate) (limit : nat) (out : list rstring)
    (id : rstring) (attrs : attrs_map) :
  findex_ok n fx docs -> docs !! c = Some m -> m !! id = Some attrs ->
  matches_one p attrs = true -> findex_candidate_ids fx c p limit = Some out ->
  id ∈ out.
Proof.
  intros Hok Hc Hm Hp Hout.
  assert (forall key idx, index_for fx c key = Some idx -> field_ok idx (docs_text key m)) as Hf.
  { intros key idx Hi. destruct (xo_field _ _ _ Hok _ _ _ Hi) as (m' & fs & Hm' & _ & _ & Hfo & _).
    congruence. }
  unfold findex_candidate_ids in Hout. apply bind_Some in Hout as ([idx docnums] & Hcand & Hout).
  destruct (limit <? length docnums)%nat; [done|]. injection Hout as <-.
  destruct (candidates_field _ _ _ _ _ _ Hcand) as [key Hk].
  pose proof (Hf _ _ Hk) as Hfo.
  destruct (fo_dom _ _ Hfo id) as [_ [d Hd]].
  { unfold docs_text. rewrite lookup_fmap, Hm. done. }
  eapply ids_docnum; [exact Hfo|exact Hd|]. by eapply candidates_sound.
Qed.

Lemma leaf_candidates_live (n : nat) (fx : Findex) (docs : findex_docs) (c : rstring)
    (m : gmap rstring attrs_map) (p : Predicate) (limit : nat) (out : list rstring)
    (id : rstring) :
  findex_ok n fx docs -> docs !! c = Some m ->
  findex_candidate_ids fx c p limit = Some out -> id ∈ out -> is_Some (m !! id).
Proof.
  intros Hok Hc Hout Hin. unfold findex_candidate_ids in Hout.
  apply bind_Some in Hout as ([idx docnums] & Hcand & Hout).
  destruct (limit <? length docnums)%nat; [done|]. injection Hout as <-.
  destruct (candidates_field _ _ _ _ _ _ Hcand) as [key Hk].
  destruct (xo_field _ _ _ Hok _ _ _ Hk) as (m' & fs & Hm' & _ & _ & Hfo & _).
  rewrite Hc in Hm'. injection Hm' as <-.
  pose proof (ids_live _ _ _ _ Hfo Hin) as Ht. unfold docs_text in Ht.
  by rewrite lookup_fmap, fmap_is_Some in Ht.
Qed.
End candidates.
