(* ===== verification/Narrow.v ===== *)
(** * Narrow: candidate narrowing of a whole filter
    ([src/src/filter/narrow.rs])

    [candidate_ids] walks a filter through the filter index.  The theorem
    [narrowing_sound] is the contract of the index: whatever the history of
    declarations, writes and removals, a document that matches the filter is
    among the candidates whenever candidates are returned at all. *)
From S2P Require Import Prelude Floats Model TextPred Filter Postings Literal Findex.

(** The [f64] literal [0.5]. *)
Definition MAX_CANDIDATE_SHARE : f64 := f64_half.

(** [(live as f64 * MAX_CANDIDATE_SHARE) as usize]. *)
Definition candidate_limit (live : nat) : nat :=
  Z.to_nat (f64_to_u64 (f64_mul (f64_of_Z (Z.of_nat live)) MAX_CANDIDATE_SHARE)).

Section loops.
Context (one : Predicate -> option (gset rstring)).

(** A [BTreeSet<String>] is a [gset]. *)
Fixpoint conjunction (preds : list Predicate) (acc : option (gset rstring))
  : option (gset rstring) :=
  match preds with
  | [] => acc
  | p :: preds' =>
      match one p with
      | None => conjunction preds' acc
      | Some here =>
          let set := match acc with None => here | Some prev => prev ∩ here end in
          if bool_decide (set = ∅) then Some set else conjunction preds' (Some set)
      end
  end.

Fixpoint disjunction (preds : list Predicate) (acc : gset rstring)
  : option (gset rstring) :=
  match preds with
  | [] => Some acc
  | p :: preds' => here ← one p; disjunction preds' (acc ∪ here)
  end.
End loops.

Section narrow.
Context `{UnicodeAlnum} `{RegexEngine} `{RegexSyntax}.

Fixpoint one (fx : Findex) (collection : rstring) (limit : nat) (pred : Predicate)
  : option (gset rstring) :=
  match pred with
  | PAll preds => conjunction (one fx collection limit) preds None
  | PAny preds => disjunction (one fx collection limit) preds ∅
  | PNot _ => None
  | _ => list_to_set <$> findex_candidate_ids fx collection pred limit
  end.

Definition candidate_ids (fx : Findex) (collection : rstring) (filter : Filter)
  : option (list rstring) :=
  if negb (is_active fx) then None
  else
    live ← live_docs fx collection;
    let limit := candidate_limit live in
    set ← conjunction (one fx collection limit) (filter_preds filter) None;
    if (limit <? size set)%nat then None else Some (merge_sort str_le (elements set)).

(** ** The walk is sound *)

(** [set] holds every document for which [p] holds. *)
Definition covers (m : gmap rstring attrs_map) (set : gset rstring) (p : attrs_map -> bool)
  : Prop :=
  forall id attrs, m !! id = Some attrs -> p attrs = true -> id ∈ set.

Definition live_set (m : gmap rstring attrs_map) (set : gset rstring) : Prop :=
  forall id, id ∈ set -> is_Some (m !! id).

(** What [one] promises of a predicate on the documents [m]. *)
Definition one_ok (m : gmap rstring attrs_map) (one : Predicate -> option (gset rstring))
    (p : Predicate) : Prop :=
  forall set, one p = Some set -> covers m set (matches_one p) /\ live_set m set.

Lemma conjunction_ok m f preds acc set :
  Forall (one_ok m f) preds ->
  conjunction f preds acc = Some set ->
  (forall prev, acc = Some prev -> live_set m prev) ->
  live_set m set /\
  forall id attrs, m !! id = Some attrs ->
    (forall prev, acc = Some prev -> id ∈ prev) ->
    forallb (fun p => matches_one p attrs) preds = true -> id ∈ set.
Proof.
  intros Hall. revert acc. induction Hall as [|p preds Hp Hall IH]; intros acc Hc Hlive.
  { simpl in Hc. subst. auto. }
  cbn [conjunction] in Hc. cbn [forallb]. destruct (f p) as [here|] eqn:Ep; cycle 1.
  { destruct (IH _ Hc Hlive) as [Hl Hin]. split; [done|].
    intros id attrs Hm Hacc [_ Hps]%andb_prop. eauto. }
  destruct (Hp _ Ep) as [Hcov Hlv].
  set (s := match acc with None => here | Some prev => prev ∩ here end) in Hc.
  assert (live_set m s) as Hs.
  { unfold s. destruct acc as [prev|]; [|done]. intros id Hid. apply Hlv. set_solver. }
  assert (forall id attrs, m !! id = Some attrs -> (forall prev, acc = Some prev -> id ∈ prev) ->
    matches_one p attrs = true -> id ∈ s) as Hsin.
  { intros id attrs Hm Hacc Hmp. specialize (Hcov _ _ Hm Hmp). unfold s.
    destruct acc as [prev|]; [|done]. specialize (Hacc _ eq_refl). set_solver. }
  case_bool_decide as He.
  - injection Hc as <-. split; [done|]. intros id attrs Hm Hacc [Hmp _]%andb_prop. eauto.
  - destruct (IH _ Hc) as [Hl Hin]; [by intros ? [= <-]|].
    split; [done|]. intros id attrs Hm Hacc [Hmp Hps]%andb_prop.
    eapply Hin; [done| |done]. intros ? [= <-]. eauto.
Qed.

Lemma disjunction_ok m f preds acc set :
  Forall (one_ok m f) preds ->
  disjunction f preds acc = Some set -> live_set m acc ->
  live_set m set /\ acc ⊆ set /\
  forall id attrs, m !! id = Some attrs ->
    existsb (fun p => matches_one p attrs) preds = true -> id ∈ set.
Proof.
  intros Hall. revert acc. induction Hall as [|p preds Hp Hall IH]; intros acc Hc Hlive.
  { simpl in Hc. simplify_eq. done. }
  cbn [disjunction] in Hc. apply bind_Some in Hc as (here & Ep & Hc).
  destruct (Hp _ Ep) as [Hcov Hlv].
  destruct (IH _ Hc) as (Hl & Hsub & Hin).
  { intros id [?|?]%elem_of_union; auto. }
  split_and!; [done|set_solver|]. cbn [existsb].
  intros id attrs Hm [Hmp|Hps]%orb_prop; [|eauto].
  specialize (Hcov _ _ Hm Hmp). set_solver.
Qed.
End narrow.

Section narrow_ok.
Context `{UnicodeAlnum} `{RegexEngine} `{RegexSyntax} `{!RegexLaws}.

Lemma leaf_ok (n : nat) (fx : Findex) (docs : findex_docs) (c : rstring)
    (m : gmap rstring attrs_map) (limit : nat) (p : Predicate) :
  findex_ok n fx docs -> docs !! c = Some m ->
  leaf_key p <> None -> one_ok m (one fx c limit) p.
Proof.
  intros Hok Hc Hk set Hone.
  assert (list_to_set <$> findex_candidate_ids fx c p limit = Some set) as Hs
    by (destruct p; done).
  apply fmap_Some in Hs as (out & Hout & ->). split.
  - intros id attrs Hm Hp. apply elem_of_list_to_set. by eapply leaf_candidates_sound.
  - intros id Hid%elem_of_list_to_set. by eapply leaf_candidates_live.
Qed.

Lemma one_sound (n : nat) (fx : Findex) (docs : findex_docs) (c : rstring)
    (m : gmap rstring attrs_map) (limit : nat) (p : Predicate) :
  findex_ok n fx docs -> docs !! c = Some m -> one_ok m (one fx c limit) p.
Proof.
  intros Hok Hc. revert p. apply (predicate_nested_ind (one_ok m (one fx c limit))).
  - intros p. pose proof (leaf_ok n fx docs c m limit p Hok Hc) as Hl.
    destruct p; try exact I; by apply Hl.
  - intros ps Hps set Hset. destruct (conjunction_ok _ _ _ _ _ Hps Hset) as [Hl Hin].
    { done. }
    split; [|done]. intros id attrs Hm Hp. by eapply Hin.
  - intros ps Hps set Hset. destruct (disjunction_ok _ _ _ _ _ Hps Hset) as (Hl & _ & Hin).
    { intros id ?%not_elem_of_empty. done. }
    split; [|done]. intros id attrs Hm Hp. by eapply Hin.
  - by intros p _ set Hset.
Qed.

Lemma candidate_ids_sound (n : nat) (fx : Findex) (docs : findex_docs) (c : rstring) (f : Filter)
    (out : list rstring) :
  findex_ok n fx docs -> candidate_ids fx c f = Some out ->
  exists m, docs !! c = Some m /\ NoDup out /\
    (forall id attrs, m !! id = Some attrs -> matches f attrs = true -> id ∈ out) /\
    (forall id, id ∈ out -> is_Some (m !! id)).
Proof.
  intros Hok Hcand. unfold candidate_ids in Hcand.
  destruct (negb (is_active fx)); [done|].
  apply bind_Some in Hcand as (live & Hlive & Hcand).
  apply bind_Some in Hcand as (set & Hset & Hcand).
  destruct (_ <? size set)%nat; [done|]. injection Hcand as <-.
  unfold live_docs in Hlive. apply fmap_Some in Hlive as ([[c' fld] idx] & Hfind & _).
  apply List.find_some in Hfind as [Hin Hc%bool_decide_eq_true].
  apply list_elem_of_In, elem_of_map_to_list in Hin. cbn [fst] in Hc. subst c'.
  destruct (xo_field _ _ _ Hok _ _ _ Hin) as (m & fs & Hm & _).
  exists m. destruct (conjunction_ok m _ _ _ _
    (proj2 (Forall_forall _ _) (fun p _ => one_sound n fx docs c m _ p Hok Hm)) Hset)
    as [Hl Hcov]; [done|].
  split_and!; [done| |..].
  - rewrite (merge_sort_Permutation str_le). apply NoDup_elements.
  - intros id attrs Hid Hmt. rewrite (merge_sort_Permutation str_le), elem_of_elements.
    by eapply Hcov.
  - intros id. rewrite (merge_sort_Permutation str_le), elem_of_elements. apply Hl.
Qed.
End narrow_ok.

(** ** Histories of the index *)

Inductive findex_event :=
| EvSchema (c : rstring) (fields : list FilterIndexField)
| EvIndex (c id : rstring) (attrs : attrs_map)
| EvRemove (c id : rstring)
| EvDrop (c : rstring)
| EvClear.

(** Declarations reach the index through [schema::validate]. *)
Definition event_valid (e : findex_event) : Prop :=
  match e with EvSchema _ fields => findex_validate fields = Ok tt | _ => True end.

Section history.
Context `{UnicodeAlnum} `{RegexEngine} `{RegexSyntax} `{!RegexLaws}.

Definition findex_apply (fx : Findex) (e : findex_event) : Findex :=
  match e with
  | EvSchema c fields => set_schema fx c fields
  | EvIndex c id attrs => index_doc fx c id attrs
  | EvRemove c id => remove_doc fx c id
  | EvDrop c => findex_drop_collection fx c
  | EvClear => clear_indexes fx
  end.

(** The documents the index stands for: those written since the collection
    was last declared. *)
Definition docs_apply (docs : findex_docs) (e : findex_event) : findex_docs :=
  match e with
  | EvSchema c fields => if bool_decide (fields = []) then delete c docs else <[c := ∅]> docs
  | EvIndex c id attrs => alter <[id := attrs]> c docs
  | EvRemove c id => alter (delete id) c docs
  | EvDrop c => delete c docs
  | EvClear => (fun _ => ∅) <$> docs
  end.

Definition findex_run (es : list findex_event) : Findex :=
  fold_left findex_apply es Findex_default.
Definition docs_run (es : list findex_event) : findex_docs :=
  fold_left docs_apply es ∅.

Lemma findex_apply_ok n fx docs e :
  (N.of_nat n < 2 ^ 32)%N -> event_valid e -> findex_exact n fx docs ->
  findex_exact (S n) (findex_apply fx e) (docs_apply docs e).
Proof.
  intros Hn He Hok. assert (findex_exact (S n) fx docs) as Hok'
    by (apply (findex_exact_weaken n); [lia|done]).
  destruct e as [c fields|c id attrs|c id|c|]; simpl.
  - apply set_schema_ok; [done|]. by apply findex_validate_from_ok in He as [_ ?].
  - by apply index_doc_ok.
  - by apply remove_doc_ok.
  - by apply findex_drop_collection_ok.
  - by apply clear_indexes_ok.
Qed.

Lemma findex_run_ok es :
  (N.of_nat (length es) < 2 ^ 32)%N -> Forall event_valid es ->
  findex_ok (length es) (findex_run es) (docs_run es).
Proof.
  unfold findex_run, docs_run. intros Hlen Hall.
  assert (forall n fx docs, (N.of_nat (n + length es) < 2 ^ 32)%N -> findex_exact n fx docs ->
    findex_exact (n + length es) (fold_left findex_apply es fx) (fold_left docs_apply es docs))
    as Hrun.
  { clear Hlen. induction Hall as [|e es He Hall IH]; intros n fx docs Hn Hok; cbn [fold_left length].
    - by rewrite Nat.add_0_r.
    - rewrite <- Nat.add_succ_comm. cbn [length] in Hn. apply IH; [lia|].
      apply findex_apply_ok; [lia|done..]. }
  apply findex_exact_ok, (Hrun 0%nat); [done|]. apply findex_exact_default.
Qed.

(** C18: narrowing never loses a match: after any history of declarations,
    writes, rewrites, removals, drops and rebuilds of fewer than [2^32]
    steps, when the filter index offers candidates for a filter, every
    indexed document on which the filter evaluates to true is among them,
    and every candidate is a document currently indexed. *)
Theorem narrowing_sound es (c : rstring) (f : Filter) (out : list rstring) :
  (N.of_nat (length es) < 2 ^ 32)%N -> Forall event_valid es ->
  candidate_ids (findex_run es) c f = Some out ->
  exists m, docs_run es !! c = Some m /\ NoDup out /\
    (forall id attrs, m !! id = Some attrs -> matches f attrs = true -> id ∈ out) /\
    (forall id, id ∈ out -> is_Some (m !! id)).
Proof. intros Hlen Hev. by apply (candidate_ids_sound (length es)), findex_run_ok. Qed.
End history.

(** ** A concrete history *)

Section example.
Import PlainEngine.
#[local] Existing Instance ascii_only_alnum.

Definition ex_attrs (s : String.string) : attrs_map := {[lit "text" := VStr (lit s)]}.

(** Five documents, one of them rewritten, one removed. *)
Definition ex_events : list findex_event :=
  [EvSchema (lit "c") [FilterIndexField_new (lit "text")];
   EvIndex (lit "c") (lit "a") (ex_attrs "stale words");
   EvIndex (lit "c") (lit "b") (ex_attrs "beta delta");
   EvIndex (lit "c") (lit "a") (ex_attrs "alpha beta gamma");
   EvIndex (lit "c") (lit "d") (ex_attrs "kitten");
   EvIndex (lit "c") (lit "e") (ex_attrs "zeta");
   EvIndex (lit "c") (lit "f") (ex_attrs "alpha");
   EvRemove (lit "c") (lit "f")].

Definition ex_filter : Filter :=
  {| filter_preds := [PAny [PFuzzy (lit "text") (lit "KITTEM") 1; PRegex (lit "text") (lit "zeta")]] |}.

Lemma narrowing_sound_witness :
  candidate_ids (findex_run ex_events) (lit "c") ex_filter = Some [lit "d"; lit "e"] /\
  exists m, docs_run ex_events !! lit "c" = Some m /\ NoDup [lit "d"; lit "e"] /\
    (forall id attrs, m !! id = Some attrs -> matches ex_filter attrs = true ->
      id ∈ [lit "d"; lit "e"]) /\
    (forall id, id ∈ [lit "d"; lit "e"] -> is_Some (m !! id)).
Proof.
  assert (candidate_ids (findex_run ex_events) (lit "c") ex_filter = Some [lit "d"; lit "e"])
    as E by (vm_compute; reflexivity).
  split; [exact E|].
  refine (narrowing_sound ex_events (lit "c") ex_filter _ _ _ E); [done|].
  repeat constructor.
Defined.
End example.
