(* ===== verification/Backend.v ===== *)
(** * Backend: storage backends with faults ([src/src/backend/])

    A world holds the named byte objects of one store and a fault script, one
    entry per call into the backend: a call may succeed, fail or end the
    process, having done nothing, part or all of its work.  [LocalFs] keeps
    files with native append handles; an object store keeps whole objects with
    a compare-and-swap token.  The operations are those of the traits
    [Persistence] and [Appender]. *)
From S2P Require Import Prelude.

Abbreviation byte := Z (only parsing).
Abbreviation bytes := (list Z) (only parsing).

(** ** Outcomes

    [Dead]: the process ended inside the computation; no handler runs. *)
Inductive err :=
| EIo          (* an injected backend failure *)
| ECorrupt     (* a decoding or consistency check failed *)
| EMismatch    (* the store was created with other parameters *)
| EInvalid     (* an argument was refused *)
| ELimit       (* a configured ceiling was exceeded *)
| EReadOnly
| ELocked
| ELeaseLost
| EFenced
| EMissing.    (* a version that cannot be read *)
#[export] Instance err_eq_dec : EqDecision err.
Proof. solve_decision. Defined.

Inductive outcome (A : Type) :=
| Ret (a : A)
| Fail (e : err)
| Dead.
Arguments Ret {A} a.
Arguments Fail {A} e.
Arguments Dead {A}.

(** ** The world *)

Inductive extent := Nothing | Part (n : nat) | Whole.
Inductive fault := Fine | Fails (ex : extent) | Dies (ex : extent).

Inductive backend_kind := LocalFs | ObjectStore (cas : bool).

Record World := {
  w_kind : backend_kind;
  w_objects : gmap rstring (bytes * N);  (* contents and version token *)
  w_next : N;                            (* the next version token *)
  w_faults : list fault;
  w_clock : list N                       (* the readings [now_secs] will give *)
}.

Definition set_objects (f : gmap rstring (bytes * N) -> gmap rstring (bytes * N)) (w : World)
  : World :=
  {| w_kind := w_kind w; w_objects := f (w_objects w); w_next := w_next w;
     w_faults := w_faults w; w_clock := w_clock w |}.

(** The contents of an object, [None] when absent. *)
Definition object (w : World) (key : rstring) : option bytes := fst <$> w_objects w !! key.

(** Store [bs] under [key] with a fresh version token. *)
Definition write_object (key : rstring) (bs : bytes) (w : World) : World :=
  {| w_kind := w_kind w; w_objects := <[key := (bs, w_next w)]> (w_objects w);
     w_next := (w_next w + 1)%N; w_faults := w_faults w; w_clock := w_clock w |}.

Definition remove_object (key : rstring) (w : World) : World := set_objects (delete key) w.

Definition pop_fault (w : World) : fault * World :=
  match w_faults w with
  | [] => (Fine, w)
  | f :: fs => (f, {| w_kind := w_kind w; w_objects := w_objects w; w_next := w_next w;
                      w_faults := fs; w_clock := w_clock w |})
  end.

Definition read_clock (w : World) : N * World :=
  match w_clock w with
  | [] => (0%N, w)
  | t :: ts => (t, {| w_kind := w_kind w; w_objects := w_objects w; w_next := w_next w;
                      w_faults := w_faults w; w_clock := ts |})
  end.

(** ** Computations over a component state and the world *)

Definition M (X A : Type) : Type := X -> World -> outcome A * X * World.

Section monad.
Context {X : Type}.

Definition ret {A} (a : A) : M X A := fun x w => (Ret a, x, w).
Definition throw {A} (e : err) : M X A := fun x w => (Fail e, x, w).
Definition bind {A B} (m : M X A) (k : A -> M X B) : M X B := fun x w =>
  match m x w with
  | (Ret a, x', w') => k a x' w'
  | (Fail e, x', w') => (Fail e, x', w')
  | (Dead, x', w') => (Dead, x', w')
  end.
(** [if let Err(e) = m { h; return Err(e) }] and the like. *)
Definition catch {A} (m : M X A) (h : err -> M X A) : M X A := fun x w =>
  match m x w with
  | (Fail e, x', w') => h e x' w'
  | r => r
  end.
(** [let _ = m;] *)
Definition ignore {A} (m : M X A) : M X unit := fun x w =>
  match m x w with
  | (Dead, x', w') => (Dead, x', w')
  | (_, x', w') => (Ret tt, x', w')
  end.
Definition get_st : M X X := fun x w => (Ret x, x, w).
Definition put_st (x : X) : M X unit := fun _ w => (Ret tt, x, w).
Definition modify (f : X -> X) : M X unit := fun x w => (Ret tt, f x, w).
Definition gets {A} (f : X -> A) : M X A := fun x w => (Ret (f x), x, w).
Definition of_result {A} (r : result err A) : M X A :=
  match r with Ok a => ret a | Err e => throw e end.
Definition when (b : bool) (m : M X unit) : M X unit := if b then m else ret tt.

(** [for a in l { f a?; }] *)
Fixpoint for_each {A} (l : list A) (f : A -> M X unit) : M X unit :=
  match l with
  | [] => ret tt
  | a :: l' => bind (f a) (fun _ => for_each l' f)
  end.
End monad.

Declare Scope m_scope.
Delimit Scope m_scope with m.
Bind Scope m_scope with M.
Notation "'let*' x ':=' m 'in' k" := (bind m (fun x => k))
  (at level 10, x name, m at level 100, k at level 200) : m_scope.
Notation "'do*' m 'in' k" := (bind m (fun _ => k))
  (at level 10, m at level 100, k at level 200) : m_scope.

(** ** Weakest preconditions

    [wp m R E x w]: from [x] and [w], [m] ends in [R] when it returns and in
    [E] when it fails ([Some e]) or the process ends ([None]). *)
Section wp.
Context {X : Type}.
Implicit Types E : option err -> X -> World -> Prop.

Definition wp {A} (m : M X A) (R : A -> X -> World -> Prop) E (x : X) (w : World) : Prop :=
  match m x w with
  | (Ret a, x', w') => R a x' w'
  | (Fail e, x', w') => E (Some e) x' w'
  | (Dead, x', w') => E None x' w'
  end.

Lemma wp_intro {A} (m : M X A) R E x w :
  (forall o x' w', m x w = (o, x', w') ->
     match o with Ret a => R a x' w' | Fail e => E (Some e) x' w' | Dead => E None x' w' end) ->
  wp m R E x w.
Proof. unfold wp. intros H. destruct (m x w) as [[[a|e|] x'] w'] eqn:Em; by apply (H _ _ _ eq_refl). Qed.

Lemma wp_elim {A} (m : M X A) R E x w o x' w' :
  wp m R E x w -> m x w = (o, x', w') ->
  match o with Ret a => R a x' w' | Fail e => E (Some e) x' w' | Dead => E None x' w' end.
Proof. unfold wp. intros Hwp Em. by rewrite Em in Hwp. Qed.

Lemma wp_conseq {A} (m : M X A) (R R' : A -> X -> World -> Prop) E E' x w :
  wp m R E x w -> (forall a x' w', R a x' w' -> R' a x' w') ->
  (forall e x' w', E e x' w' -> E' e x' w') -> wp m R' E' x w.
Proof. unfold wp. intros. destruct (m x w) as [[[a|e|] x'] w']; auto. Qed.

Lemma wp_bind {A B} (m : M X A) (k : A -> M X B) R E x w :
  wp m (fun a x' w' => wp (k a) R E x' w') E x w -> wp (bind m k) R E x w.
Proof. unfold wp, bind. by destruct (m x w) as [[[a|e|] x'] w']. Qed.

Lemma wp_catch {A} (m : M X A) h R E x w :
  wp m R (fun e x' w' => match e with Some e => wp (h e) R E x' w' | None => E None x' w' end) x w ->
  wp (catch m h) R E x w.
Proof. unfold wp, catch. by destruct (m x w) as [[[a|e|] x'] w']. Qed.

Lemma wp_ignore {A} (m : M X A) R E x w :
  wp m (fun _ x' w' => R tt x' w')
    (fun e x' w' => match e with Some _ => R tt x' w' | None => E None x' w' end) x w ->
  wp (ignore m) R E x w.
Proof. unfold wp, ignore. by destruct (m x w) as [[[a|e|] x'] w']. Qed.

Lemma wp_ret {A} (a : A) (R : A -> X -> World -> Prop) E x w : R a x w -> wp (ret a) R E x w.
Proof. done. Qed.

Lemma wp_throw {A} e (R : A -> X -> World -> Prop) E x w : E (Some e) x w -> wp (throw e) R E x w.
Proof. done. Qed.

Lemma wp_get_st (R : X -> X -> World -> Prop) E x w : R x x w -> wp get_st R E x w.
Proof. done. Qed.

Lemma wp_gets {A} (f : X -> A) (R : A -> X -> World -> Prop) E x w : R (f x) x w -> wp (gets f) R E x w.
Proof. done. Qed.

Lemma wp_put_st y (R : unit -> X -> World -> Prop) E x w : R tt y w -> wp (put_st y) R E x w.
Proof. done. Qed.

Lemma wp_modify f (R : unit -> X -> World -> Prop) E x w : R tt (f x) w -> wp (modify f) R E x w.
Proof. done. Qed.

Lemma wp_of_result {A} (r : result err A) (R : A -> X -> World -> Prop) E x w :
  (forall a, r = Ok a -> R a x w) -> (forall e, r = Err e -> E (Some e) x w) ->
  wp (of_result r) R E x w.
Proof. intros HR HE. destruct r as [a|e]; [by apply HR|by apply HE]. Qed.

Lemma wp_when b m (R : unit -> X -> World -> Prop) E x w :
  (b = true -> wp m R E x w) -> (b = false -> R tt x w) -> wp (when b m) R E x w.
Proof. intros Ht Hf. destruct b; [by apply Ht|by apply Hf]. Qed.

(** A loop, by an invariant on the elements left. *)
Lemma wp_for_each {A} (f : A -> M X unit) (I : list A -> X -> World -> Prop) E l x w :
  I l x w ->
  (forall a l' x w, I (a :: l') x w -> wp (f a) (fun _ => I l') E x w) ->
  wp (for_each l f) (fun _ => I []) E x w.
Proof.
  intros HI Hf. revert x w HI. induction l as [|a l IH]; intros x w HI; simpl; [done|].
  apply wp_bind. eapply wp_conseq; [by apply Hf| |auto]. intros [] x' w'. apply IH.
Qed.
End wp.

(** Run a computation on a part of the state. *)
Definition zoom {X Y A} (get : X -> Y) (set : Y -> X -> X) (m : M Y A) : M X A := fun x w =>
  match m (get x) w with (o, y, w') => (o, set y x, w') end.

Lemma wp_zoom {X Y A} (get : X -> Y) set (m : M Y A) R E x w :
  wp m (fun a y w' => R a (set y x) w') (fun e y w' => E e (set y x) w') (get x) w ->
  wp (zoom get set m) R E x w.
Proof. unfold wp, zoom. by destruct (m (get x) w) as [[[a|e|] y] w']. Qed.

(** ** [Persistence] *)

(** [validate_key]: a single flat object name. *)
Definition is_sep (c : char) : bool := (c =? chr "/")%N || (c =? chr "\")%N.
Definition validate_key (key : rstring) : result err unit :=
  if bool_decide (key = []) then Err EInvalid
  else if existsb is_sep key || bool_decide (key = lit "..") then Err EInvalid
  else Ok tt.

(** One backend call: [work ex] is its effect on the objects when it did [ex] of
    its work, [res] its result when it succeeds. *)
Definition backend_call {X A} (work : extent -> World -> World) (res : World -> A) : M X A :=
  fun x w =>
    let (f, w) := pop_fault w in
    match f with
    | Fine => (Ret (res w), x, work Whole w)
    | Fails ex => (Fail EIo, x, work ex w)
    | Dies ex => (Dead, x, work ex w)
    end.

(** An atomic effect: all of it or none. *)
Definition atomic (f : World -> World) (ex : extent) (w : World) : World :=
  match ex with Whole => f w | _ => w end.

(** A call that only reads. *)
Definition reads {X A} (res : World -> A) : M X A := backend_call (fun _ w => w) res.

Inductive CasOutcome := Written (token : option N) | Stale | Unsupported.

Section persistence.
Context {X : Type}.

Definition p_get (key : rstring) : M X (option bytes) :=
  (do* of_result (validate_key key) in reads (fun w => object w key))%m.

Definition p_put (key : rstring) (bs : bytes) : M X unit :=
  (do* of_result (validate_key key) in
   backend_call (atomic (write_object key bs)) (fun _ => tt))%m.

Definition p_delete (key : rstring) : M X unit :=
  (do* of_result (validate_key key) in
   backend_call (atomic (remove_object key)) (fun _ => tt))%m.

Definition p_list : M X (list rstring) := reads (fun w => bt_keys (w_objects w)).

Definition has_native_lock (w : World) : bool :=
  match w_kind w with LocalFs => true | ObjectStore _ => false end.
Definition supports_cas (w : World) : bool :=
  match w_kind w with ObjectStore c => c | LocalFs => false end.

(** [get_cas]: without compare-and-swap there is no token. *)
Definition p_get_cas (key : rstring) : M X (option (bytes * option N)) :=
  (do* of_result (validate_key key) in
   reads (fun w => (fun bg => (bg.1, if supports_cas w then Some bg.2 else None))
                     <$> w_objects w !! key))%m.

(** Whether the precondition of a conditional write holds. *)
Definition cas_ok (w : World) (key : rstring) (expected : option N) : bool :=
  bool_decide (snd <$> w_objects w !! key = expected).

Definition p_put_cas (key : rstring) (bs : bytes) (expected : option N) : M X CasOutcome :=
  fun x w =>
    if supports_cas w then
      (do* of_result (validate_key key) in
       backend_call
         (fun ex w => if cas_ok w key expected then atomic (write_object key bs) ex w else w)
         (fun w => if cas_ok w key expected then Written (Some (w_next w)) else Stale))%m x w
    else (Ret Unsupported, x, w).

Definition p_try_create_exclusive (key : rstring) (bs : bytes) : M X (option bool) :=
  (let* o := p_put_cas key bs None in
   ret (match o with
        | Written _ => Some true
        | Stale => Some false
        | Unsupported => None
        end))%m.
End persistence.

(** ** [Appender]

    [ApFile]: the native handle of a local file; every write goes to the file,
    always at its end.  [ApObject]: an in-memory mirror of a whole object,
    written back on [sync], with the token of the version last seen when
    fencing is on.  [ApMem]: the mirror alone. *)
Inductive Appender :=
| ApFile (key : rstring)
| ApObject (key : rstring) (buf : bytes) (cas_token : option (option N))
| ApMem (buf : bytes).

(** What the handle's [len] and reads see. *)
Definition ap_contents (ap : Appender) (w : World) : bytes :=
  match ap with
  | ApFile key => default [] (object w key)
  | ApObject _ buf _ => buf
  | ApMem buf => buf
  end.

(** Append [bs] to the file [key], keeping its version token. *)
Definition file_extend (key : rstring) (bs : bytes) (w : World) : World :=
  write_object key (default [] (object w key) ++ bs) w.

(** A failed [write_all] is rolled back with [set_len]; [Fails (Part n)] is the
    case where that rollback fails too. *)
Definition append_work (key : rstring) (bs : bytes) (ok_or_dies : bool) (ex : extent) (w : World)
  : World :=
  match ex with
  | Nothing => w
  | Part n => file_extend key (take n bs) w
  | Whole => if ok_or_dies then file_extend key bs w else w
  end.

Definition file_append {X} (key : rstring) (bs : bytes) : M X unit := fun x w =>
  let (f, w) := pop_fault w in
  match f with
  | Fine => (Ret tt, x, append_work key bs true Whole w)
  | Fails ex => (Fail EIo, x, append_work key bs false ex w)
  | Dies ex => (Dead, x, append_work key bs true ex w)
  end.

(** [set_len]: a longer offset zero-extends the file. *)
Definition file_set_len (key : rstring) (n : nat) (w : World) : World :=
  let old := default [] (object w key) in
  write_object key (take n old ++ replicate (n - length old) 0%Z) w.

Definition ap_len : M Appender nat := fun ap w =>
  match ap with
  | ApFile key => reads (fun w => length (ap_contents ap w)) ap w
  | ApObject _ buf _ | ApMem buf => (Ret (length buf), ap, w)
  end.

Definition read_range (bs : bytes) (offset n : nat) : option bytes :=
  if (offset + n <=? length bs)%nat then Some (take n (drop offset bs)) else None.

Definition ap_read_exact_at (offset n : nat) : M Appender bytes := fun ap w =>
  match ap with
  | ApFile key =>
      (let* r := reads (fun w => read_range (ap_contents ap w) offset n) in
       match r with Some bs => ret bs | None => throw EIo end)%m ap w
  | ApObject _ buf _ | ApMem buf =>
      match read_range buf offset n with
      | Some bs => (Ret bs, ap, w)
      | None => (Fail EIo, ap, w)
      end
  end.

Definition ap_append (bs : bytes) : M Appender unit := fun ap w =>
  match ap with
  | ApFile key => file_append key bs ap w
  | ApObject key buf tok => (Ret tt, ApObject key (buf ++ bs) tok, w)
  | ApMem buf => (Ret tt, ApMem (buf ++ bs), w)
  end.

Definition ap_truncate_to (n : nat) : M Appender unit := fun ap w =>
  match ap with
  | ApFile key =>
      backend_call (fun ex => atomic (file_set_len key n) ex) (fun _ => tt) ap w
  | ApObject key buf tok =>
      if (length buf <? n)%nat then (Fail EInvalid, ap, w)
      else (Ret tt, ApObject key (take n buf) tok, w)
  | ApMem buf =>
      if (length buf <? n)%nat then (Fail EInvalid, ap, w)
      else (Ret tt, ApMem (take n buf), w)
  end.

(** [flush_object]. *)
Definition flush_object : M Appender unit := fun ap w =>
  match ap with
  | ApObject key buf None => p_put key buf ap w
  | ApObject key buf (Some token) =>
      (let* o := p_put_cas key buf token in
       match o with
       | Written (Some t) => put_st (ApObject key buf (Some (Some t)))
       | Written None =>
           let* cur := p_get_cas key in
           put_st (ApObject key buf (Some (cur ≫= snd)))
       | Stale => throw EFenced
       | Unsupported => p_put key buf
       end)%m ap w
  | _ => (Ret tt, ap, w)
  end.

Definition ap_sync : M Appender unit := fun ap w =>
  match ap with
  | ApFile _ => reads (fun _ => tt) ap w
  | ApObject _ _ _ => flush_object ap w
  | ApMem _ => (Ret tt, ap, w)
  end.

(** [rewrite]: for a file the temporary is written, synced and renamed over it,
    so the replacement is atomic. *)
Definition ap_rewrite (bs : bytes) : M Appender unit := fun ap w =>
  match ap with
  | ApFile key => backend_call (atomic (write_object key bs)) (fun _ => tt) ap w
  | ApObject key _ tok => flush_object (ApObject key bs tok) w
  | ApMem _ => (Ret tt, ApMem bs, w)
  end.

(** [read_to_end]: the provided method, [len] then one exact read. *)
Definition ap_read_to_end : M Appender bytes :=
  (let* n := ap_len in ap_read_exact_at 0 n)%m.

(** [FileAppender::open] creates the file; [ObjectAppender::open] loads the
    object. *)
Definition create_if_absent (key : rstring) (w : World) : World :=
  match object w key with Some _ => w | None => write_object key [] w end.

Definition appender_for {X} (key : rstring) (cas : bool) : M X Appender := fun x w =>
  match w_kind w with
  | LocalFs =>
      (do* of_result (validate_key key) in
       backend_call (atomic (create_if_absent key)) (fun _ => ApFile key))%m x w
  | ObjectStore _ =>
      (do* of_result (validate_key key) in
       if cas then
         let* cur := p_get_cas key in
         ret (match cur with
              | Some (bs, token) => ApObject key bs (Some token)
              | None => ApObject key [] (Some None)
              end)
       else
         let* cur := p_get key in
         ret (ApObject key (default [] cur) None))%m x w
  end.

(** ** What the operations promise *)

(** A step that changes at most the objects [ks] and only consumes faults. *)
Definition touches (ks : list rstring) (w w' : World) : Prop :=
  w_kind w' = w_kind w /\
  (forall k, k ∉ ks -> w_objects w' !! k = w_objects w !! k) /\
  w_faults w' `suffix_of` w_faults w.

(** No failed write leaves bytes behind: the documented contract of
    [Appender::append], whose rollback is a [set_len]. *)
Definition torn_fault (f : fault) : bool := match f with Fails (Part _) => true | _ => false end.
Definition clean (w : World) : Prop := Forall (fun f => torn_fault f = false) (w_faults w).

Lemma touches_refl ks w : touches ks w w.
Proof. done. Qed.

Lemma touches_trans ks w1 w2 w3 : touches ks w1 w2 -> touches ks w2 w3 -> touches ks w1 w3.
Proof.
  intros (K1 & O1 & F1) (K2 & O2 & F2). split_and!; [congruence| |by etrans].
  intros k Hk. by rewrite O2, O1.
Qed.

Lemma touches_mono ks ks' w w' :
  (forall k, k ∈ ks -> k ∈ ks') -> touches ks w w' -> touches ks' w w'.
Proof. intros Hks (K & O & F). split_and!; auto. Qed.

Lemma touches_clean ks w w' : touches ks w w' -> clean w -> clean w'.
Proof. intros (_ & _ & [l E]) Hc. unfold clean in *. rewrite E in Hc. by apply Forall_app in Hc as [_ ?]. Qed.

Lemma touches_object ks w w' k : touches ks w w' -> k ∉ ks -> object w' k = object w k.
Proof. intros (_ & O & _) Hk. unfold object. by rewrite O. Qed.

#[export] Hint Resolve touches_refl touches_trans touches_clean : nidus.

Lemma pop_fault_spec w f w' :
  pop_fault w = (f, w') ->
  w_objects w' = w_objects w /\ w_kind w' = w_kind w /\ w_next w' = w_next w /\
  w_faults w' `suffix_of` w_faults w /\ (clean w -> torn_fault f = false).
Proof.
  unfold pop_fault, clean. destruct (w_faults w) as [|f0 fs] eqn:E; intros [= <- <-]; simpl.
  - by rewrite E.
  - split_and!; try done; [by exists [f0]|]. by intros [? _]%Forall_cons_1.
Qed.

Lemma pop_fault_touches ks w f w' : pop_fault w = (f, w') -> touches ks w w'.
Proof. intros (O & K & _ & F & _)%pop_fault_spec. split_and!; [done| |done]. intros. by rewrite O. Qed.

Lemma write_object_touches key bs w : touches [key] w (write_object key bs w).
Proof.
  split_and!; [done| |done]. intros k Hk. simpl. rewrite lookup_insert_ne; [done|].
  intros ->. apply Hk. by left.
Qed.

Lemma write_object_object key bs w : object (write_object key bs w) key = Some bs.
Proof. unfold object. simpl. by rewrite lookup_insert_eq. Qed.

(** The objects a handle may change. *)
Definition ap_keys (ap : Appender) : list rstring :=
  match ap with ApFile key | ApObject key _ _ => [key] | ApMem _ => [] end.

Definition ap_same (ap ap' : Appender) : Prop :=
  match ap, ap' with
  | ApFile k, ApFile k' => k = k'
  | ApObject k _ _, ApObject k' _ _ => k = k'
  | ApMem _, ApMem _ => True
  | _, _ => False
  end.

Lemma ap_same_keys ap ap' : ap_same ap ap' -> ap_keys ap' = ap_keys ap.
Proof. destruct ap, ap'; simpl; naive_solver. Qed.

Lemma ap_same_refl ap : ap_same ap ap.
Proof. by destruct ap. Qed.

Lemma ap_same_trans ap1 ap2 ap3 : ap_same ap1 ap2 -> ap_same ap2 ap3 -> ap_same ap1 ap3.
Proof. destruct ap1, ap2, ap3; simpl; naive_solver. Qed.

Lemma ap_contents_touches ap w w' ks :
  touches ks w w' -> (forall k, k ∈ ap_keys ap -> k ∉ ks) ->
  ap_contents ap w' = ap_contents ap w.
Proof.
  intros Ht Hk. destruct ap; simpl; try done.
  f_equal. eapply touches_object; [done|]. apply Hk. by left.
Qed.

(** How a write ended: done, refused with nothing changed, or cut by the end of
    the process. *)
Lemma ap_append_spec bs ap w o ap' w' :
  ap_append bs ap w = (o, ap', w') -> clean w ->
  ap_same ap ap' /\ touches (ap_keys ap) w w' /\
  match o with
  | Ret _ => ap_contents ap' w' = ap_contents ap w ++ bs
  | Fail _ => ap_contents ap' w' = ap_contents ap w
  | Dead => exists n, ap_contents ap' w' = ap_contents ap w ++ take n bs
  end.
Proof.
  intros E Hc. destruct ap as [key|key buf tok|buf]; simpl in E; [|by simplify_eq..].
  unfold file_append in E. destruct (pop_fault w) as [f w1] eqn:Hp.
  pose proof (pop_fault_touches [key] _ _ _ Hp) as Ht.
  apply pop_fault_spec in Hp as (O & _ & _ & _ & Hf). specialize (Hf Hc).
  assert (object w1 key = object w key) as Ho by (unfold object; by rewrite O).
  assert (forall b, touches [key] w (file_extend key b w1)) as Hext.
  { intros b. eapply touches_trans; [done|]. apply write_object_touches. }
  assert (forall b, ap_contents (ApFile key) (file_extend key b w1)
    = ap_contents (ApFile key) w ++ b) as Hcon.
  { intros b. simpl. unfold file_extend. by rewrite write_object_object, Ho. }
  assert (ap_contents (ApFile key) w1 = ap_contents (ApFile key) w) as Hw1 by (simpl; by rewrite Ho).
  destruct f as [|[|n|]|[|n|]]; simplify_eq; cbn [append_work ap_same ap_keys];
    (split_and!; [done|done|]); auto.
  - exists 0%nat. by rewrite Hw1, take_0, app_nil_r.
  - by exists n.
  - exists (length bs). by rewrite Hcon, firstn_all.
Qed.

Lemma ap_truncate_spec n ap w o ap' w' :
  ap_truncate_to n ap w = (o, ap', w') -> (n <= length (ap_contents ap w))%nat ->
  ap_same ap ap' /\ touches (ap_keys ap) w w' /\
  match o with
  | Ret _ => ap_contents ap' w' = take n (ap_contents ap w)
  | _ => ap_contents ap' w' = ap_contents ap w \/ ap_contents ap' w' = take n (ap_contents ap w)
  end.
Proof.
  intros E Hn. unfold ap_truncate_to in E.
  destruct ap as [key|key buf tok|buf]; cbn [ap_contents] in Hn; cycle 1.
  { rewrite (proj2 (Nat.ltb_ge _ _)) in E by lia. by simplify_eq. }
  { rewrite (proj2 (Nat.ltb_ge _ _)) in E by lia. by simplify_eq. }
  unfold backend_call in E. destruct (pop_fault w) as [f w1] eqn:Hp.
  pose proof (pop_fault_touches [key] _ _ _ Hp) as Ht.
  apply pop_fault_spec in Hp as (O & _ & _ & _ & _).
  assert (object w1 key = object w key) as Ho by (unfold object; by rewrite O).
  assert (touches [key] w (file_set_len key n w1)) as Hset.
  { eapply touches_trans; [done|]. apply write_object_touches. }
  assert (ap_contents (ApFile key) (file_set_len key n w1) = take n (ap_contents (ApFile key) w))
    as Hcon.
  { cbn [ap_contents]. unfold file_set_len. rewrite write_object_object, Ho.
    revert Hn. generalize (default [] (object w key)). intros c Hn. cbn [default]. unfold id.
    replace (n - _)%nat with 0%nat by lia. by rewrite app_nil_r. }
  assert (ap_contents (ApFile key) w1 = ap_contents (ApFile key) w) as Hw1
    by (cbn [ap_contents]; by rewrite Ho).
  destruct f as [|[|m|]|[|m|]]; simplify_eq; cbn [atomic ap_same ap_keys];
    (split_and!; [done|done|]); auto.
Qed.

Lemma backend_call_spec {X A} work (res : World -> A) (x : X) w o x' w' :
  backend_call work res x w = (o, x', w') ->
  exists f w1 ex, pop_fault w = (f, w1) /\ x' = x /\ w' = work ex w1 /\
    match o with
    | Ret a => f = Fine /\ ex = Whole /\ a = res w1
    | Fail e => f = Fails ex /\ e = EIo
    | Dead => f = Dies ex
    end.
Proof.
  unfold backend_call. destruct (pop_fault w) as [f w1] eqn:E.
  destruct f as [|ex|ex]; intros [= <- <- <-]; [exists Fine, w1, Whole|exists (Fails ex), w1, ex|exists (Dies ex), w1, ex];
    done.
Qed.

Lemma atomic_write_touches key bs ex w : touches [key] w (atomic (write_object key bs) ex w).
Proof. destruct ex; [apply touches_refl..|apply write_object_touches]. Qed.

Lemma remove_object_touches key w : touches [key] w (remove_object key w).
Proof.
  split_and!; [done| |done]. intros k Hk. simpl. rewrite lookup_delete_ne; [done|].
  intros ->. apply Hk. by left.
Qed.

Lemma reads_spec {X A} (res : World -> A) (x : X) w o x' w' :
  reads res x w = (o, x', w') ->
  x' = x /\ touches [] w w' /\ w_objects w' = w_objects w /\
  (forall a, o = Ret a -> exists w1, w_objects w1 = w_objects w /\ w_kind w1 = w_kind w /\ a = res w1).
Proof.
  intros (f & w1 & ex & Hp & -> & -> & Ho)%backend_call_spec.
  pose proof (pop_fault_touches [] _ _ _ Hp) as Ht.
  apply pop_fault_spec in Hp as (O & K & _). split_and!; try done.
  intros a ->. destruct Ho as (_ & _ & ->). by exists w1.
Qed.

Lemma p_put_spec {X} key bs (x : X) w o x' w' :
  p_put key bs x w = (o, x', w') ->
  x' = x /\ touches [key] w w' /\
  (w_objects w' !! key = w_objects w !! key \/ object w' key = Some bs) /\
  (forall a, o = Ret a -> object w' key = Some bs).
Proof.
  unfold p_put, bind, of_result. destruct (validate_key key) as [[]|ev]; cbn [ret throw]; cycle 1.
  { unfold throw. intros [= <- <- <-]. split_and!; auto with nidus; done. }
  unfold ret. intros (f & w1 & ex & Hp & -> & -> & Ho)%backend_call_spec.
  pose proof (pop_fault_touches [key] _ _ _ Hp) as Ht.
  apply pop_fault_spec in Hp as (O & K & _). split_and!; [done| | |].
  - eapply touches_trans; [done|apply atomic_write_touches].
  - destruct ex; cbn [atomic]; [left; by rewrite O..|right; apply write_object_object].
  - intros a ->. destruct Ho as (_ & -> & _). apply write_object_object.
Qed.

Lemma p_put_cas_spec {X} key bs expected (x : X) w o x' w' :
  p_put_cas key bs expected x w = (o, x', w') ->
  x' = x /\ touches [key] w w' /\
  (w_objects w' !! key = w_objects w !! key \/
     object w' key = Some bs /\ snd <$> w_objects w !! key = expected) /\
  match o with
  | Ret (Written t) => object w' key = Some bs /\ snd <$> w_objects w !! key = expected
  | Ret Stale => w_objects w' !! key = w_objects w !! key /\ snd <$> w_objects w !! key <> expected
  | Ret Unsupported => w' = w /\ supports_cas w = false
  | _ => True
  end.
Proof.
  unfold p_put_cas. destruct (supports_cas w) eqn:Hs; cycle 1.
  { intros [= <- <- <-]. split_and!; auto with nidus. }
  unfold bind, of_result. destruct (validate_key key) as [[]|ev]; cycle 1.
  { unfold throw. intros [= <- <- <-]. split_and!; auto with nidus. }
  unfold ret. intros (f & w1 & ex & Hp & -> & -> & Ho)%backend_call_spec.
  pose proof (pop_fault_touches [key] _ _ _ Hp) as Ht.
  apply pop_fault_spec in Hp as (O & K & _). unfold cas_ok in *. rewrite O in *.
  split_and!; [done| | |].
  - case_bool_decide; [|done]. eapply touches_trans; [done|apply atomic_write_touches].
  - case_bool_decide; [|left; by rewrite O].
    destruct ex; cbn [atomic]; [left; by rewrite O..|right; split; [apply write_object_object|done]].
  - destruct o as [a| |]; [|done..]. destruct Ho as (_ & -> & ->).
    case_bool_decide; cbn [atomic]; [split; [apply write_object_object|done]|by rewrite O].
Qed.

Lemma flush_object_spec key buf tok w o ap' w' :
  flush_object (ApObject key buf tok) w = (o, ap', w') ->
  (exists tok', ap' = ApObject key buf tok') /\ touches [key] w w' /\
  (w_objects w' !! key = w_objects w !! key \/ object w' key = Some buf) /\
  (forall a, o = Ret a -> object w' key = Some buf).
Proof.
  unfold flush_object. destruct tok as [token|]; cycle 1.
  { intros (-> & Ht & Ho & Hr)%p_put_spec. split_and!; eauto. }
  unfold bind at 1. destruct (p_put_cas key buf token (ApObject key buf (Some token)) w)
    as [[oc apc] wc] eqn:Ec.
  apply p_put_cas_spec in Ec as (-> & Ht & Ho & Hr).
  assert (w_objects wc !! key = w_objects w !! key \/ object wc key = Some buf) as Ho'
    by tauto.
  destruct oc as [[t| |]|e|]; cycle 1.
  { unfold throw. intros [= <- <- <-]. split_and!; eauto. done. }
  { destruct Hr as [-> _]. intros (-> & Ht2 & Ho2 & Hr2)%p_put_spec. split_and!; eauto. }
  { intros [= <- <- <-]. split_and!; eauto. done. }
  { intros [= <- <- <-]. split_and!; eauto. done. }
  destruct Hr as [Hr _]. destruct t as [t|].
  { unfold put_st. intros [= <- <- <-]. split_and!; eauto. }
  unfold bind, p_get_cas, of_result. destruct (validate_key key) as [[]|ev]; cycle 1.
  { cbv [bind throw]. intros [= <- <- <-]. split_and!; eauto. }
  cbv [bind ret]. destruct (reads _ _ wc) as [[og apg] wg] eqn:Eg.
  apply reads_spec in Eg as (-> & Htg & Og & _).
  assert (touches [key] w wg) as Htw
    by (eapply touches_trans; [done|]; eapply touches_mono, Htg; set_solver).
  assert (object wg key = Some buf) as Hg by (unfold object; rewrite Og; exact Hr).
  destruct og as [cur|e|]; [unfold put_st|..]; intros [= <- <- <-]; split_and!; eauto.
Qed.

Lemma ap_sync_spec ap w o ap' w' :
  ap_sync ap w = (o, ap', w') ->
  ap_same ap ap' /\ touches (ap_keys ap) w w' /\ ap_contents ap' w' = ap_contents ap w /\
  (forall key, key ∈ ap_keys ap -> o = Ret tt -> (exists b, object w key = Some b) ->
     object w' key = Some (ap_contents ap w)).
Proof.
  destruct ap as [key|key buf tok|buf]; unfold ap_sync.
  - intros (-> & Ht & O & _)%reads_spec. cbn [ap_contents ap_keys].
    assert (object w' key = object w key) as Ho by (unfold object; by rewrite O).
    split_and!; [done|by eapply touches_mono, Ht; set_solver|by rewrite Ho|].
    intros k ->%list_elem_of_singleton _ [b Hb]. by rewrite Ho, Hb.
  - intros ([tok' ->] & Ht & Ho & Hr)%flush_object_spec. split_and!; try done.
    intros k ->%list_elem_of_singleton -> _. by apply (Hr tt).
  - intros [= <- <- <-]. split_and!; auto with nidus; try done. set_solver.
Qed.

Lemma ap_rewrite_spec bs ap w o ap' w' :
  ap_rewrite bs ap w = (o, ap', w') ->
  ap_same ap ap' /\ touches (ap_keys ap) w w' /\
  (ap_contents ap' w' = ap_contents ap w \/ ap_contents ap' w' = bs) /\
  (forall a, o = Ret a -> ap_contents ap' w' = bs).
Proof.
  destruct ap as [key|key buf tok|buf]; unfold ap_rewrite.
  - intros (f & w1 & ex & Hp & -> & -> & Ho)%backend_call_spec.
    pose proof (pop_fault_touches [key] _ _ _ Hp) as Ht.
    apply pop_fault_spec in Hp as (O & K & _).
    split_and!; [done| | |].
    + eapply touches_trans; [done|apply atomic_write_touches].
    + destruct ex; cbn [atomic ap_contents]; [left; unfold object; by rewrite O..|].
      right. by rewrite write_object_object.
    + intros a ->. destruct Ho as (_ & -> & _). cbn [atomic ap_contents].
      by rewrite write_object_object.
  - intros ([tok' ->] & Ht & _ & _)%flush_object_spec. split_and!; cbn; auto.
  - intros [= <- <- <-]. split_and!; auto with nidus. done.
Qed.

(** ** The same promises as preconditions *)

(** The exits of a call that changes nothing: the backend failed. *)
Definition read_exits {X} (E : option err -> X -> World -> Prop) (x : X) (w : World) : Prop :=
  forall e w', touches [] w w' -> w_faults w <> [] -> E e x w'.

Lemma pop_fault_bad w f w' : pop_fault w = (f, w') -> f <> Fine -> w_faults w <> [].
Proof. unfold pop_fault. destruct (w_faults w); [|done]. intros [= <- _]. done. Qed.

Lemma wp_backend_call {X A} work (res : World -> A) R E (x : X) w :
  (forall w', touches [] w w' -> w_objects w' = w_objects w -> w_next w' = w_next w ->
     R (res w') x (work Whole w')) ->
  (forall e ex w', touches [] w w' -> w_objects w' = w_objects w -> w_faults w <> [] ->
     E e x (work ex w')) ->
  wp (backend_call work res) R E x w.
Proof.
  intros HR HE. apply wp_intro. intros o x' w' (f & w1 & ex & Hp & -> & -> & Ho)%backend_call_spec.
  pose proof (pop_fault_touches [] _ _ _ Hp) as Ht. pose proof (pop_fault_bad _ _ _ Hp) as Hb.
  apply pop_fault_spec in Hp as (O & K & N & _).
  destruct o as [a|e|].
  - destruct Ho as (_ & -> & ->). by apply HR.
  - destruct Ho as (-> & ->). apply HE; [done..|by apply Hb].
  - subst. apply HE; [done..|by apply Hb].
Qed.

Lemma wp_reads {X A} (res : World -> A) R E (x : X) w :
  (forall w', touches [] w w' -> w_objects w' = w_objects w -> R (res w') x w') ->
  read_exits E x w ->
  wp (reads res) R E x w.
Proof. intros HR HE. apply wp_backend_call; auto. Qed.

Lemma touches_weaken ks w w' : touches [] w w' -> touches ks w w'.
Proof. apply touches_mono. intros k Hk. by apply elem_of_nil in Hk. Qed.

#[export] Hint Resolve touches_weaken : nidus.

Lemma touches_nil_contents ap w w' : touches [] w w' -> ap_contents ap w' = ap_contents ap w.
Proof.
  intros Ht. eapply ap_contents_touches; [done|]. intros k _ Hk. by apply elem_of_nil in Hk.
Qed.

Lemma wp_ap_len R E ap w :
  (forall w', touches [] w w' -> R (length (ap_contents ap w)) ap w') ->
  read_exits E ap w -> wp ap_len R E ap w.
Proof.
  intros HR HE. destruct ap as [key|key buf tok|buf]; [|apply HR, touches_refl..].
  apply wp_reads; [|done]. intros w' Ht _. rewrite (touches_nil_contents _ _ _ Ht). by apply HR.
Qed.

Lemma wp_ap_read offset n R E ap w :
  (offset + n <= length (ap_contents ap w))%nat ->
  (forall w', touches [] w w' -> R (take n (drop offset (ap_contents ap w))) ap w') ->
  read_exits E ap w -> wp (ap_read_exact_at offset n) R E ap w.
Proof.
  intros Hl HR HE. unfold ap_read_exact_at.
  assert (forall c, c = ap_contents ap w ->
    read_range c offset n = Some (take n (drop offset (ap_contents ap w)))) as Hr.
  { intros c ->. unfold read_range. by rewrite (proj2 (Nat.leb_le _ _)). }
  destruct ap as [key|key buf tok|buf].
  - apply wp_bind, wp_reads; [|done]. intros w' Ht _. rewrite Hr by (by apply touches_nil_contents).
    apply wp_ret. by apply HR.
  - unfold wp. rewrite Hr by done. apply HR, touches_refl.
  - unfold wp. rewrite Hr by done. apply HR, touches_refl.
Qed.

Lemma file_append_bad key bs ap w e ap' w' :
  ap_append bs ap w = (Fail e, ap', w') \/ ap_append bs ap w = (Dead, ap', w') ->
  ap = ApFile key -> w_faults w <> [].
Proof.
  intros E ->. simpl in E. unfold file_append in E. destruct (pop_fault w) as [f w1] eqn:Hp.
  apply (pop_fault_bad _ _ _ Hp). intros ->. destruct E; congruence.
Qed.

Lemma wp_ap_append bs R E ap w :
  clean w ->
  (forall ap' w', ap_same ap ap' -> touches (ap_keys ap) w w' ->
     ap_contents ap' w' = ap_contents ap w ++ bs -> R tt ap' w') ->
  (forall e ap' w', ap_same ap ap' -> touches (ap_keys ap) w w' -> w_faults w <> [] ->
     match e with
     | Some _ => ap_contents ap' w' = ap_contents ap w
     | None => exists n, ap_contents ap' w' = ap_contents ap w ++ take n bs
     end -> E e ap' w') ->
  wp (ap_append bs) R E ap w.
Proof.
  intros Hc HR HE. apply wp_intro. intros o ap' w' Ho.
  pose proof (ap_append_spec _ _ _ _ _ _ Ho Hc) as (Hs & Ht & Hres).
  destruct o as [[]|e|]; [by apply HR|..].
  - apply HE; try done. destruct ap as [key|key buf tok|buf]; [|by simpl in Ho..].
    by eapply (file_append_bad key); [left|].
  - apply HE; try done. destruct ap as [key|key buf tok|buf]; [|by simpl in Ho..].
    by eapply (file_append_bad key _ _ _ EIo); [right|].
Qed.

Lemma wp_ap_truncate n R E ap w :
  (n <= length (ap_contents ap w))%nat ->
  (forall ap' w', ap_same ap ap' -> touches (ap_keys ap) w w' ->
     ap_contents ap' w' = take n (ap_contents ap w) -> R tt ap' w') ->
  (forall e ap' w', ap_same ap ap' -> touches (ap_keys ap) w w' -> w_faults w <> [] ->
     ap_contents ap' w' = ap_contents ap w \/ ap_contents ap' w' = take n (ap_contents ap w) ->
     E e ap' w') ->
  wp (ap_truncate_to n) R E ap w.
Proof.
  intros Hn HR HE. apply wp_intro. intros o ap' w' Ho.
  pose proof (ap_truncate_spec _ _ _ _ _ _ Ho Hn) as (Hs & Ht & Hres).
  destruct o as [[]|e|]; [by apply HR|..]; apply HE; try done;
    (destruct ap as [key|key buf tok|buf]; cycle 1;
      [unfold ap_truncate_to in Ho; cbn [ap_contents] in Hn;
       rewrite (proj2 (Nat.ltb_ge _ _)) in Ho by lia; done..|]);
    apply backend_call_spec in Ho as (f & w1 & ex & Hp & _ & _ & Hf);
    apply (pop_fault_bad _ _ _ Hp); [by destruct Hf as [-> _]|by subst].
Qed.

Lemma wp_ap_sync R E ap w :
  (forall ap' w', ap_same ap ap' -> touches (ap_keys ap) w w' ->
     ap_contents ap' w' = ap_contents ap w ->
     (forall key b, key ∈ ap_keys ap -> object w key = Some b \/ (exists bf t, ap = ApObject key bf t) ->
        object w' key = Some (ap_contents ap w)) -> R tt ap' w') ->
  (forall e ap' w', ap_same ap ap' -> touches (ap_keys ap) w w' ->
     ap_contents ap' w' = ap_contents ap w -> E e ap' w') ->
  wp ap_sync R E ap w.
Proof.
  intros HR HE. apply wp_intro. intros o ap' w' Ho. pose proof Ho as Ho'.
  apply ap_sync_spec in Ho as (Hs & Ht & Hc & Hd).
  destruct o as [[]|e|]; [apply HR|apply HE|apply HE]; try done.
  intros key b Hk [Hb|(bf & t & ->)]; [by apply Hd; eauto|].
  apply flush_object_spec in Ho' as (_ & _ & _ & Hr). by apply (Hr tt).
Qed.

Lemma wp_ap_rewrite bs R E ap w :
  (forall ap' w', ap_same ap ap' -> touches (ap_keys ap) w w' -> ap_contents ap' w' = bs ->
     R tt ap' w') ->
  (forall e ap' w', ap_same ap ap' -> touches (ap_keys ap) w w' ->
     ap_contents ap' w' = ap_contents ap w \/ ap_contents ap' w' = bs -> E e ap' w') ->
  wp (ap_rewrite bs) R E ap w.
Proof.
  intros HR HE. apply wp_intro. intros o ap' w' Ho.
  apply ap_rewrite_spec in Ho as (Hs & Ht & Hc & Hr).
  destruct o as [[]|e|]; [apply HR|apply HE|apply HE]; try done. by apply (Hr tt).
Qed.

Lemma wp_p_put {X} key bs R E (x : X) w :
  (forall w', touches [key] w w' -> object w' key = Some bs -> R tt x w') ->
  (forall e w', touches [key] w w' ->
     w_objects w' !! key = w_objects w !! key \/ object w' key = Some bs -> E e x w') ->
  wp (p_put key bs) R E x w.
Proof.
  intros HR HE. apply wp_intro. intros o x' w' (-> & Ht & Ho & Hr)%p_put_spec.
  destruct o as [[]|e|]; [apply HR|apply HE|apply HE]; try done. by apply (Hr tt).
Qed.

Lemma wp_p_get {X} key R E (x : X) w :
  (forall w', touches [] w w' -> R (object w key) x w') ->
  (forall e w', touches [] w w' -> E e x w') ->
  wp (p_get key) R E x w.
Proof.
  intros HR HE. unfold p_get. apply wp_bind, wp_of_result.
  - intros [] _. apply wp_reads; [|intros e w' Ht _; by apply HE].
    intros w' Ht O. unfold object. rewrite O. by apply HR.
  - intros e _. apply HE, touches_refl.
Qed.

Lemma wp_p_delete {X} key R E (x : X) w :
  (forall w', touches [key] w w' -> object w' key = None -> R tt x w') ->
  (forall e w', touches [key] w w' -> E e x w') ->
  wp (p_delete key) R E x w.
Proof.
  intros HR HE. unfold p_delete. apply wp_bind, wp_of_result.
  - intros [] _. apply wp_backend_call.
    + intros w' Ht O _. apply HR.
      * eapply touches_trans; [by apply touches_weaken|apply remove_object_touches].
      * unfold object, remove_object, set_objects. simpl. by rewrite lookup_delete_eq.
    + intros e ex w' Ht O _. apply HE.
      eapply touches_trans; [by apply touches_weaken|].
      destruct ex; [apply touches_refl..|apply remove_object_touches].
  - intros e _. apply HE, touches_refl.
Qed.

(** ** Recovering from one failure

    After the single failing call of a script a local rollback succeeds; a
    rollback of an object's or a memory mirror never touches the backend. *)
Definition is_fine (f : fault) : Prop := f = Fine.
Definition calm (w : World) : Prop := Forall is_fine (w_faults w).
Definition one_fault (w : World) : Prop :=
  forall l f r, w_faults w = l ++ f :: r -> f <> Fine -> Forall is_fine r.
Definition recoverable (w : World) : Prop := w_kind w = LocalFs -> calm w.

Definition ap_fits (ap : Appender) (w : World) : Prop :=
  match ap with
  | ApFile _ => w_kind w = LocalFs
  | ApObject _ _ _ => w_kind w <> LocalFs
  | ApMem _ => True
  end.

Lemma touches_one_fault ks w w' : touches ks w w' -> one_fault w -> one_fault w'.
Proof.
  intros (_ & _ & [l El]) Ho l' f r E Hf. apply (Ho (l ++ l') f r); [|done].
  by rewrite El, E, app_assoc.
Qed.

Lemma touches_fits ks ap w w' : touches ks w w' -> ap_fits ap w -> ap_fits ap w'.
Proof. intros (K & _ & _). destruct ap; simpl; by rewrite ?K. Qed.

Lemma same_fits ap ap' w : ap_same ap ap' -> ap_fits ap w -> ap_fits ap' w.
Proof. destruct ap, ap'; simpl; naive_solver. Qed.

Lemma touches_recoverable ks w w' : touches ks w w' -> recoverable w -> recoverable w'.
Proof.
  intros (K & _ & [l El]) Hr HK. rewrite K in HK. specialize (Hr HK). unfold calm in *.
  rewrite El in Hr. by apply Forall_app in Hr as [_ ?].
Qed.

#[export] Hint Resolve touches_one_fault touches_fits touches_recoverable : nidus.

(** The popped fault was the one. *)
Lemma pop_fault_one w f w' : pop_fault w = (f, w') -> one_fault w -> f <> Fine -> calm w'.
Proof.
  unfold pop_fault, one_fault, calm. destruct (w_faults w) as [|f0 fs] eqn:E.
  - intros [= <- <-]. done.
  - intros [= <- <-] Ho Hf. by apply (Ho [] f0 fs).
Qed.

Lemma calm_pop w f w' : calm w -> pop_fault w = (f, w') -> f = Fine /\ calm w'.
Proof.
  unfold pop_fault, calm. destruct (w_faults w) as [|f0 fs] eqn:E; intros Hc [= <- <-].
  - by rewrite E.
  - by apply Forall_cons in Hc.
Qed.

Lemma write_object_faults key bs w : w_faults (write_object key bs w) = w_faults w.
Proof. done. Qed.

Lemma append_work_faults key bs b ex w : w_faults (append_work key bs b ex w) = w_faults w.
Proof. by destruct ex, b. Qed.

Lemma ap_append_fail bs ap w e ap' w' :
  ap_append bs ap w = (Fail e, ap', w') -> one_fault w -> ap_fits ap w -> recoverable w'.
Proof.
  destruct ap as [key|key buf tok|buf]; simpl; [|done|done]. unfold file_append.
  destruct (pop_fault w) as [f w1] eqn:Hp. destruct f as [|ex|ex]; [done| |done].
  intros [= <- <- <-] Ho HK _. unfold calm. rewrite append_work_faults.
  by eapply (pop_fault_one _ _ _ Hp).
Qed.

Lemma ap_sync_fail ap w e ap' w' :
  ap_sync ap w = (Fail e, ap', w') -> one_fault w -> ap_fits ap w -> recoverable w'.
Proof.
  destruct ap as [key|key buf tok|buf]; unfold ap_sync; [| |done].
  - unfold reads, backend_call. destruct (pop_fault w) as [f w1] eqn:Hp.
    destruct f as [|ex|ex]; [done| |done]. intros [= <- <- <-] Ho HK _.
    by eapply (pop_fault_one _ _ _ Hp).
  - intros (_ & Ht & _)%flush_object_spec _ HK Hl. simpl in HK. destruct Ht as [K _]. congruence.
Qed.

(** A rollback that can be made is made. *)
Lemma ap_truncate_recover n ap w :
  recoverable w -> ap_fits ap w -> (n <= length (ap_contents ap w))%nat ->
  exists ap' w', ap_truncate_to n ap w = (Ret tt, ap', w').
Proof.
  intros Hr HK Hn. unfold ap_truncate_to. destruct ap as [key|key buf tok|buf]; cycle 1.
  { cbn [ap_contents] in Hn. rewrite (proj2 (Nat.ltb_ge _ _)) by lia. eauto. }
  { cbn [ap_contents] in Hn. rewrite (proj2 (Nat.ltb_ge _ _)) by lia. eauto. }
  unfold backend_call. destruct (pop_fault w) as [f w1] eqn:Hp.
  destruct (calm_pop _ _ _ (Hr HK) Hp) as [-> _]. eauto.
Qed.
