(* ===== verification/Codec.v ===== *)
(** * Codec: serialization and checksums

    The payload encodings are those of the [bincode] crate and the checksum is
    [crc32fast]; both are reached through the interfaces below.  [dec] accepts
    trailing bytes, as [bincode::deserialize] does.  The checked frame
    [crc32 | payload] is shared by the manifest and its history. *)
From S2P Require Import Prelude Backend.

(** [bincode::serialize] and [bincode::deserialize] at one type. *)
Class Codec (A : Type) := {
  enc : A -> option bytes;
  dec : bytes -> option A
}.

(** What is relied on: decoding an encoding gives the value back, whatever
    follows it. *)
Class CodecLaws (A : Type) `{Codec A} : Prop :=
  dec_enc : forall a bs rest, enc a = Some bs -> dec (bs ++ rest) = Some a.

Lemma dec_enc_exact `{CodecLaws A} a bs : enc a = Some bs -> dec bs = Some a.
Proof. intros E. rewrite <- (app_nil_r bs). by apply dec_enc. Qed.

(** The positional format: the encoding of a value starts with the encoding of
    the value [f] cuts out of it (its leading fields). *)
Class PrefixLaws {A B : Type} `{Codec A} `{Codec B} (f : B -> A) : Prop :=
  enc_prefix : forall b bs, enc b = Some bs ->
    exists b1 rest, enc (f b) = Some b1 /\ bs = b1 ++ rest.

Lemma dec_prefix {A B : Type} `{CodecLaws A} `{Codec B} (f : B -> A) `{!PrefixLaws f} b bs rest :
  enc b = Some bs -> dec (bs ++ rest) = Some (f b).
Proof.
  intros (b1 & r & E1 & ->)%(enc_prefix (f := f)). rewrite <- app_assoc. by apply dec_enc.
Qed.

(** [crc32fast::hash]: a [u32]. *)
Class Crc32 := crc32 : bytes -> Z.
Class Crc32Laws `{Crc32} : Prop :=
  crc32_range : forall bs, (0 <= crc32 bs < 2 ^ 32)%Z.

Definition enc_result `{Codec A} (a : A) : result err bytes :=
  match enc a with Some bs => Ok bs | None => Err EInvalid end.
Definition dec_result `{Codec A} (bs : bytes) : result err A :=
  match dec bs with Some a => Ok a | None => Err ECorrupt end.

(** ** The frame of whole objects *)

Section frame.
Context `{Crc32}.

(** [Manifest::encode], [history::encode_frame]. *)
Definition encode_frame `{Codec A} (a : A) : result err bytes :=
  (let? payload := enc_result a in
   Ok (to_le 4 (crc32 payload) ++ payload))%res.

(** [checked_payload]: the payload once its checksum is verified. *)
Definition checked_payload (bs : bytes) : result err bytes :=
  if (length bs <? 4)%nat then Err ECorrupt
  else
    let stored := from_le (take 4 bs) in
    let payload := drop 4 bs in
    if (crc32 payload =? stored)%Z then Ok payload else Err ECorrupt.

Lemma checked_payload_frame `{!Crc32Laws} payload :
  checked_payload (to_le 4 (crc32 payload) ++ payload) = Ok payload.
Proof.
  unfold checked_payload. rewrite length_app, length_to_le.
  replace (4 + length payload <? 4)%nat with false
    by (symmetry; apply Nat.ltb_ge; lia).
  rewrite (take_app_length' _ _ 4), (drop_app_length' _ _ 4) by (by rewrite length_to_le).
  rewrite from_to_le, Z.eqb_refl; [done|]. apply crc32_range.
Qed.

Lemma encode_frame_payload `{Codec A} (a : A) bs :
  encode_frame a = Ok bs ->
  exists payload, enc a = Some payload /\ bs = to_le 4 (crc32 payload) ++ payload.
Proof.
  unfold encode_frame, enc_result. destruct (enc a) as [p|] eqn:E; [|done].
  intros [= <-]. by exists p.
Qed.

(** A stored checksum that is not the payload's is refused. *)
Lemma checked_payload_detects bs payload :
  checked_payload bs = Ok payload ->
  exists crc, bs = crc ++ payload /\ length crc = 4%nat /\ from_le crc = crc32 payload.
Proof.
  unfold checked_payload. destruct (length bs <? 4)%nat eqn:El; [done|].
  destruct (_ =? _)%Z eqn:Ec; [|done]. intros [= <-]. bdestr.
  exists (take 4 bs). split_and!; [by rewrite take_drop|rewrite length_take; lia|done].
Qed.
End frame.

(** ** A concrete instance, for evaluation

    Any countable type is encoded by its number, in unary-length base 256. *)
Fixpoint pos_bytes (fuel : nat) (z : Z) : bytes :=
  match fuel with
  | O => []
  | S fuel' => if (z =? 0)%Z then [] else (z mod 256)%Z :: pos_bytes fuel' (z / 256)%Z
  end.

(** The bytes of the number, each preceded by [1], closed by [0]. *)
Fixpoint toy_enc (bs : bytes) : bytes :=
  match bs with [] => [0%Z] | b :: bs' => 1%Z :: b :: toy_enc bs' end.
Fixpoint toy_dec (bs : bytes) : option bytes :=
  match bs with
  | 0%Z :: _ => Some []
  | 1%Z :: b :: bs' => (fun r => b :: r) <$> toy_dec bs'
  | _ => None
  end.

Lemma toy_dec_enc bs rest : toy_dec (toy_enc bs ++ rest) = Some bs.
Proof. induction bs as [|b bs IH]; simpl; [done|]. by rewrite IH. Qed.

(** Little-endian, as many bytes as the number has. *)
Definition z_bytes (z : Z) : bytes := pos_bytes (S (Z.to_nat (Z.log2 z))) z.

Lemma from_pos_bytes fuel z :
  (0 <= z < 2 ^ Z.of_nat fuel)%Z -> from_le (pos_bytes fuel z) = z.
Proof.
  revert z. induction fuel as [|fuel IH]; intros z Hz; cbn [pos_bytes].
  - rewrite Nat2Z.inj_0 in Hz. simpl in *. lia.
  - destruct (z =? 0)%Z eqn:E; bdestr; [by subst|]. cbn [from_le].
    rewrite Nat2Z.inj_succ, Z.pow_succ_r in Hz by lia. rewrite IH.
    + pose proof (Z.div_mod z 256). lia.
    + split; [apply Z.div_pos; lia|]. apply Z.div_lt_upper_bound; lia.
Qed.

Lemma from_z_bytes z : (0 <= z)%Z -> from_le (z_bytes z) = z.
Proof.
  intros Hz. apply from_pos_bytes. rewrite Nat2Z.inj_succ, Z2Nat.id by apply Z.log2_nonneg.
  destruct (decide (z = 0)%Z) as [->|]; [simpl; lia|].
  split; [done|]. apply Z.log2_spec. lia.
Qed.

Module ToyCodec.
#[export] Instance toy `{Countable A} : Codec A | 100 := {|
  enc a := Some (toy_enc (z_bytes (Zpos (encode a))));
  dec bs := b ← toy_dec bs; decode (Z.to_pos (from_le b))
|}.

#[export] Instance toy_laws `{Countable A} : CodecLaws A | 100.
Proof.
  intros a bs rest E.
  assert (bs = toy_enc (z_bytes (Zpos (encode a)))) as -> by (symmetry; exact (Some_inj _ _ E)).
  unfold dec, toy. rewrite toy_dec_enc. cbn -[z_bytes from_le].
  rewrite from_z_bytes by lia. apply decode_encode.
Qed.

(** A struct as its leading part followed by the rest of its fields. *)
Definition seq_enc {A B} `{Codec A} `{Codec B} (ab : A * B) : option bytes :=
  b1 ← enc ab.1; b2 ← enc ab.2; Some (b1 ++ b2).
Definition seq_dec {A B} `{Codec A} `{Codec B} (bs : bytes) : option (A * B) :=
  a ← dec (A := A) bs; b1 ← enc a; b ← dec (A := B) (drop (length b1) bs); Some (a, b).

Lemma seq_dec_enc {A B} `{CodecLaws A} `{CodecLaws B} (ab : A * B) bs rest :
  seq_enc ab = Some bs -> seq_dec (bs ++ rest) = Some ab.
Proof.
  destruct ab as [a b]. unfold seq_enc, seq_dec. cbn [fst snd].
  intros (b1 & E1 & (b2 & E2 & [= <-])%bind_Some)%bind_Some.
  rewrite <- app_assoc, (dec_enc a b1) by done. cbn [mbind option_bind]. rewrite E1.
  cbn [mbind option_bind]. rewrite drop_app_length, (dec_enc b b2) by done. done.
Qed.

(** A checksum that only looks at the length. *)
#[export] Instance toy_crc : Crc32 | 100 := fun bs => (Z.of_nat (length bs) mod 2 ^ 32)%Z.
#[export] Instance toy_crc_laws : Crc32Laws | 100.
Proof. intros bs. apply Z.mod_pos_bound. lia. Qed.
End ToyCodec.
