(* ===== verification/Log.v ===== *)
(** * Log: the framed operation log ([src/src/log/mod.rs])

    Encoding and recovery of the operation stream.  [parse_frames] shows that
    the frames of a list of operations parse back to it, [parse_torn] that a
    torn last frame is dropped and nothing else; [open_with] then truncates the
    tail. *)
From S2P Require Import Prelude Floats Model Backend Codec.

Section log.
Context `{Codec Op} `{Crc32}.

(** ** Frames *)

(** [frame]: [len | payload | crc32], appended to [buf]. *)
Definition frame (op : Op) (buf : bytes) : result err bytes :=
  (let? payload := enc_result op in
   if (u32_max <? Z.of_nat (length payload))%Z then Err EInvalid
   else Ok (buf ++ to_le 4 (Z.of_nat (length payload)) ++ payload
                ++ to_le 4 (crc32 payload)))%res.

Inductive ParseResult :=
| Good (op : Op) (next : nat)
| TornTail
| Eof
| Corruption.

Definition parse_frame (data : bytes) (pos : nat) : ParseResult :=
  if (length data <=? pos)%nat then Eof
  else
    let remaining := drop pos data in
    if (length remaining <? 4)%nat then TornTail
    else
      let len := from_le (take 4 remaining) in
      let frame_size := (4 + len + 4)%Z in
      if (Z.of_nat (length remaining) <? frame_size)%Z then TornTail
      else
        let n := Z.to_nat len in
        let payload := take n (drop 4 remaining) in
        let stored_crc := from_le (take 4 (drop (4 + n) remaining)) in
        let more := (frame_size <? Z.of_nat (length remaining))%Z in
        if negb (crc32 payload =? stored_crc)%Z then
          if more then Corruption else TornTail
        else
          match dec payload with
          | Some op => Good op (pos + (4 + n + 4))
          | None => if more then Corruption else TornTail
          end.

(** The loop of [parse_all_frames]; [None] when the fuel runs out. *)
Fixpoint parse_loop (fuel : nat) (data : bytes) (ops : list Op) (pos last_good : nat)
  : option (result err (list Op * nat)) :=
  match fuel with
  | O => None
  | S fuel' =>
      match parse_frame data pos with
      | Good op next => parse_loop fuel' data (ops ++ [op]) next next
      | Eof | TornTail => Some (Ok (ops, last_good))
      | Corruption => Some (Err ECorrupt)
      end
  end.

(** Every frame is at least eight bytes, so the length of the data is fuel
    enough ([parse_loop_total]). *)
Definition parse_all_frames (data : bytes) : result err (list Op * nat) :=
  default (Err ECorrupt) (parse_loop (S (length data)) data [] 0 0).

(** ** The handle: an [OpLog] is its appender *)

Definition log_open_with : M Appender (list Op) :=
  (let* data := ap_read_to_end in
   let* r := of_result (parse_all_frames data) in
   do* when (r.2 <? length data)%nat (ap_truncate_to r.2) in
   ret r.1)%m.

Definition log_open_bounded (limit : nat) : M Appender (list Op) :=
  (let* data := ap_read_to_end in
   if (length data <? limit)%nat then throw EMissing
   else
     let bound := take limit data in
     let* r := of_result (parse_all_frames bound) in
     if negb (r.2 =? length bound)%nat then throw ECorrupt else ret r.1)%m.

Definition log_append (op : Op) : M Appender unit :=
  (let* buf := of_result (frame op []) in ap_append buf)%m.

Definition log_offset : M Appender nat := ap_len.
Definition log_truncate_to (offset : nat) : M Appender unit := ap_truncate_to offset.
Definition log_sync : M Appender unit := ap_sync.

(** The buffer [rewrite] builds. *)
Fixpoint frame_all (ops : list Op) (buf : bytes) : result err bytes :=
  match ops with
  | [] => Ok buf
  | op :: ops' => (let? buf := frame op buf in frame_all ops' buf)%res
  end.

Definition log_rewrite (ops : list Op) : M Appender unit :=
  (let* buf := of_result (frame_all ops []) in ap_rewrite buf)%m.

(** ** The loop terminates *)

Lemma parse_frame_progress data pos op next :
  parse_frame data pos = Good op next -> (pos < length data /\ pos + 8 <= next)%nat.
Proof.
  unfold parse_frame. cbv zeta. destruct (length data <=? pos)%nat eqn:E1; [done|].
  intros E. repeat (case_match; try done). simplify_eq. bdestr. lia.
Qed.

Lemma parse_loop_fuel fuel data ops pos g :
  (length data < pos + fuel)%nat -> (0 < fuel)%nat ->
  exists r, parse_loop fuel data ops pos g = Some r.
Proof.
  revert ops pos g. induction fuel as [|fuel IH]; intros ops pos g Hf Hp; [lia|].
  simpl. destruct (parse_frame data pos) as [op next| | |] eqn:E; eauto.
  apply parse_frame_progress in E as [E1 E2]. apply IH; lia.
Qed.

(** More fuel changes nothing. *)
Lemma parse_loop_mono fuel fuel' data ops pos g r :
  (fuel <= fuel')%nat -> parse_loop fuel data ops pos g = Some r ->
  parse_loop fuel' data ops pos g = Some r.
Proof.
  revert fuel' ops pos g. induction fuel as [|fuel IH]; intros fuel' ops pos g Hf Hr; [done|].
  destruct fuel' as [|fuel']; [lia|]. simpl in *.
  destruct (parse_frame data pos); try done. apply IH; [lia|done].
Qed.

(** reading the log terminates: whatever bytes the log file holds, the
    parse loop ends within as many steps as there are bytes. *)
Theorem parse_loop_total data :
  parse_loop (S (length data)) data [] 0 0 = Some (parse_all_frames data).
Proof.
  unfold parse_all_frames.
  destruct (parse_loop_fuel (S (length data)) data [] 0 0) as [r ->]; [lia..|done].
Qed.

Lemma parse_all_frames_fuel fuel data r :
  parse_loop fuel data [] 0 0 = Some r -> (fuel <= S (length data))%nat ->
  parse_all_frames data = r.
Proof.
  intros Hr Hf. unfold parse_all_frames. by rewrite (parse_loop_mono _ _ _ _ _ _ _ Hf Hr).
Qed.

(** ** What the bytes of a log mean *)

(** The bytes of one operation, and of a list of them. *)
Definition frame_bytes (op : Op) : option bytes :=
  match frame op [] with Ok bs => Some bs | Err _ => None end.

Fixpoint frames (ops : list Op) : option bytes :=
  match ops with
  | [] => Some []
  | op :: ops' => b ← frame_bytes op; bs ← frames ops'; Some (b ++ bs)
  end.

Lemma frame_prefix op buf :
  frame op buf = match frame_bytes op with
                 | Some b => Ok (buf ++ b)
                 | None => Err EInvalid
                 end.
Proof.
  unfold frame_bytes, frame, enc_result. destruct (enc op); simpl; [|done].
  by destruct (_ <? _)%Z.
Qed.

Lemma frame_all_frames ops buf :
  frame_all ops buf = match frames ops with
                      | Some b => Ok (buf ++ b)
                      | None => Err EInvalid
                      end.
Proof.
  revert buf. induction ops as [|op ops IH]; intros buf; simpl; [by rewrite app_nil_r|].
  rewrite frame_prefix. destruct (frame_bytes op) as [b|]; simpl; [|done].
  rewrite IH. destruct (frames ops); simpl; [|done]. by rewrite app_assoc.
Qed.

Lemma frames_app ops1 ops2 :
  frames (ops1 ++ ops2) = b1 ← frames ops1; b2 ← frames ops2; Some (b1 ++ b2).
Proof.
  induction ops1 as [|op ops1 IH]; simpl.
  - by destruct (frames ops2).
  - rewrite IH. destruct (frame_bytes op); simpl; [|done].
    destruct (frames ops1); simpl; [|done]. destruct (frames ops2); simpl; [|done].
    by rewrite app_assoc.
Qed.

Lemma frames_snoc ops op bs b :
  frames ops = Some bs -> frame_bytes op = Some b -> frames (ops ++ [op]) = Some (bs ++ b).
Proof. intros E1 E2. rewrite frames_app, E1. simpl. rewrite E2. simpl. by rewrite app_nil_r. Qed.
End log.

(** ** Parsing what was framed *)

Section recovery.
Context `{!Codec Op} `{!CodecLaws Op} `{!Crc32} `{!Crc32Laws}.

Lemma frame_bytes_shape op b :
  frame_bytes op = Some b ->
  exists payload, enc op = Some payload /\ (Z.of_nat (length payload) <= u32_max)%Z /\
    b = to_le 4 (Z.of_nat (length payload)) ++ payload ++ to_le 4 (crc32 payload).
Proof.
  unfold frame_bytes, frame, enc_result. destruct (enc op) as [p|]; [|done]. cbn [res_bind].
  destruct (_ <? _)%Z eqn:E; [done|]. intros [= <-]. bdestr. by exists p.
Qed.

Lemma frame_bytes_length op b : frame_bytes op = Some b -> (8 <= length b)%nat.
Proof.
  intros (p & _ & _ & ->)%frame_bytes_shape. rewrite !length_app, !length_to_le. lia.
Qed.

(** The length field of a frame, when at least that much of it is there. *)
Lemma frame_len_field (payload t : bytes) :
  (Z.of_nat (length payload) <= u32_max)%Z ->
  from_le (take 4 (to_le 4 (Z.of_nat (length payload)) ++ t)) = Z.of_nat (length payload).
Proof.
  intros Hl. rewrite (take_app_length' _ _ 4) by (by rewrite length_to_le).
  apply from_to_le. unfold u32_max in Hl. split; [lia|]. change (256 ^ Z.of_nat 4)%Z with (2 ^ 32)%Z. lia.
Qed.

Lemma parse_good pre op b rest :
  frame_bytes op = Some b ->
  parse_frame (pre ++ b ++ rest) (length pre) = Good op (length pre + length b).
Proof.
  intros Hb. pose proof (frame_bytes_length _ _ Hb) as H8.
  apply frame_bytes_shape in Hb as (p & He & Hl & Eb).
  assert (length b = 4 + length p + 4)%nat as Lb
    by (rewrite Eb, !length_app, !length_to_le; lia).
  unfold parse_frame. rewrite drop_app_length. cbv zeta.
  rewrite (proj2 (Nat.leb_gt _ _)) by (rewrite !length_app; lia).
  rewrite (proj2 (Nat.ltb_ge _ _)) by (rewrite !length_app; lia).
  assert (from_le (take 4 (b ++ rest)) = Z.of_nat (length p)) as ->.
  { rewrite Eb, <- !app_assoc. by apply frame_len_field. }
  rewrite (proj2 (Z.ltb_ge _ _)) by (rewrite length_app; lia).
  rewrite Nat2Z.id.
  assert (take (length p) (drop 4 (b ++ rest)) = p) as ->.
  { rewrite Eb, <- !app_assoc, (drop_app_length' _ _ 4) by (by rewrite length_to_le).
    by rewrite take_app_length. }
  assert (take 4 (drop (4 + length p) (b ++ rest)) = to_le 4 (crc32 p)) as ->.
  { rewrite Eb, <- !app_assoc, <- drop_drop, (drop_app_length' _ _ 4) by (by rewrite length_to_le).
    rewrite drop_app_length, (take_app_length' _ _ 4) by (by rewrite length_to_le). done. }
  rewrite from_to_le by apply crc32_range. rewrite Z.eqb_refl. cbn [negb].
  rewrite (dec_enc_exact op p He). f_equal. lia.
Qed.

(** A frame cut short anywhere is a torn tail. *)
Lemma parse_cut pre op b n :
  frame_bytes op = Some b -> (0 < n < length b)%nat ->
  parse_frame (pre ++ take n b) (length pre) = TornTail.
Proof.
  intros Hb Hn. apply frame_bytes_shape in Hb as (p & He & Hl & Eb).
  assert (length b = 4 + length p + 4)%nat as Lb
    by (rewrite Eb, !length_app, !length_to_le; lia).
  unfold parse_frame. rewrite drop_app_length. cbv zeta. rewrite length_app, length_take.
  rewrite (proj2 (Nat.leb_gt _ _)) by lia.
  destruct (_ <? 4)%nat eqn:E4; [done|]. bdestr.
  assert (from_le (take 4 (take n b)) = Z.of_nat (length p)) as ->.
  { rewrite take_take, Nat.min_l by lia. rewrite Eb. by apply frame_len_field. }
  by rewrite (proj2 (Z.ltb_lt _ _)) by lia.
Qed.

Lemma parse_end data : parse_frame data (length data) = Eof.
Proof. unfold parse_frame. by rewrite (proj2 (Nat.leb_le _ _)). Qed.

(** The loop walks over whole frames. *)
Lemma parse_loop_frames ops bs rest : forall pre acc g fuel,
  frames ops = Some bs -> (ops = [] -> g = length pre) ->
  parse_loop (length ops + fuel) (pre ++ bs ++ rest) acc (length pre) g =
  parse_loop fuel (pre ++ bs ++ rest) (acc ++ ops) (length (pre ++ bs)) (length (pre ++ bs)).
Proof.
  revert bs. induction ops as [|op ops IH]; intros bs pre acc g fuel Hf Hg.
  - injection Hf as <-. rewrite !app_nil_r, (Hg eq_refl). done.
  - apply bind_Some in Hf as (b & Hb & (bs' & Hbs & [= <-])%bind_Some).
    cbn [length Nat.add parse_loop]. rewrite <- !app_assoc, (parse_good _ _ _ _ Hb).
    replace (length pre + length b)%nat with (length (pre ++ b)) by (by rewrite length_app).
    rewrite (app_assoc pre b). rewrite (IH bs' (pre ++ b)) by done.
    f_equal; rewrite <- !app_assoc; done.
Qed.

Lemma frames_length ops bs : frames ops = Some bs -> (8 * length ops <= length bs)%nat.
Proof.
  revert bs. induction ops as [|op ops IH]; intros bs Hf; [simpl; lia|].
  apply bind_Some in Hf as (b & Hb & (bs' & Hbs & [= <-])%bind_Some).
  apply frame_bytes_length in Hb. apply IH in Hbs. rewrite length_app. cbn [length]. lia.
Qed.

Lemma parse_frames ops bs :
  frames ops = Some bs -> parse_all_frames bs = Ok (ops, length bs).
Proof.
  intros Hf. apply (parse_all_frames_fuel (length ops + 1)).
  - pose proof (parse_loop_frames ops bs [] [] [] 0 1 Hf (fun _ => eq_refl)) as E.
    rewrite app_nil_r in E. cbn [app length] in E. rewrite E. simpl.
    by rewrite parse_end.
  - apply frames_length in Hf. lia.
Qed.

Lemma parse_torn ops bs op b n :
  frames ops = Some bs -> frame_bytes op = Some b -> (n < length b)%nat ->
  parse_all_frames (bs ++ take n b) = Ok (ops, length bs).
Proof.
  intros Hf Hb Hn. destruct (decide (n = 0)%nat) as [->|Hn0].
  { simpl. rewrite app_nil_r. by apply parse_frames. }
  apply (parse_all_frames_fuel (length ops + 1)).
  - pose proof (parse_loop_frames ops bs (take n b) [] [] 0 1 Hf (fun _ => eq_refl)) as E.
    cbn [app length] in E. rewrite E. simpl. by rewrite (parse_cut _ _ _ _ Hb) by lia.
  - apply frames_length in Hf. rewrite length_app. lia.
Qed.

(** Where a cut of the log falls. *)
Lemma frames_cut ops bs n :
  frames ops = Some bs ->
  exists ops1 bs1, ops1 `prefix_of` ops /\ frames ops1 = Some bs1 /\
    (bs1 = take n bs \/
     exists op b k, (ops1 ++ [op]) `prefix_of` ops /\ frame_bytes op = Some b /\
       (k < length b)%nat /\ take n bs = bs1 ++ take k b).
Proof.
  revert bs n. induction ops as [|op ops IH]; intros bs n Hf.
  { injection Hf as <-. exists [], []. rewrite take_nil. auto. }
  apply bind_Some in Hf as (b & Hb & (bs' & Hbs & [= <-])%bind_Some).
  destruct (decide (n < length b)%nat) as [Hn|Hn].
  - exists [], []. split_and!; [apply prefix_nil|done|]. right.
    exists op, b, n. rewrite take_app_le by lia.
    split_and!; try done. apply prefix_cons, prefix_nil.
  - destruct (IH bs' (n - length b)%nat Hbs) as (ops1 & bs1 & Hp & Hf1 & Hcut).
    exists (op :: ops1), (b ++ bs1). split_and!; [by apply prefix_cons| |].
    { simpl. by rewrite Hb, Hf1. }
    rewrite take_app_ge by lia.
    destruct Hcut as [<- | (op' & b' & k & Hp' & Hb' & Hk & ->)]; [by left|].
    right. exists op', b', k. split_and!; try done; [by apply prefix_cons|by rewrite app_assoc].
Qed.

Lemma parse_prefix ops bs n :
  frames ops = Some bs ->
  exists ops1 bs1, ops1 `prefix_of` ops /\ frames ops1 = Some bs1 /\
    bs1 `prefix_of` take n bs /\
    (forall op b, (ops1 ++ [op]) `prefix_of` ops -> frame_bytes op = Some b ->
       (n < length bs1 + length b)%nat) /\
    parse_all_frames (take n bs) = Ok (ops1, length bs1).
Proof.
  intros Hf. destruct (frames_cut ops bs n Hf) as (ops1 & bs1 & Hp & Hf1 & Hcut).
  exists ops1, bs1.
  assert (forall op b, (ops1 ++ [op]) `prefix_of` ops -> frame_bytes op = Some b ->
    (bs1 ++ b) `prefix_of` bs) as Hext.
  { intros op b [r ->] Hb. rewrite <- app_assoc, frames_app, Hf1 in Hf. simpl in Hf.
    rewrite Hb in Hf. simpl in Hf. destruct (frames r) as [br|]; [|done].
    simpl in Hf. injection Hf as <-. rewrite app_assoc. by apply prefix_app_r. }
  assert (bs1 `prefix_of` take n bs) as Hpre.
  { destruct Hcut as [-> | (op & b & k & _ & _ & _ & ->)]; [done|]. by apply prefix_app_r. }
  split_and!; try done.
  - intros op b Hop Hb. pose proof (Hext _ _ Hop Hb) as Hbs.
    destruct (decide (n < length bs1 + length b)%nat) as [|Hge]; [done|exfalso].
    destruct Hbs as [r Er]. assert (length (take n bs) >= length bs1 + length b)%nat as Hlen.
    { rewrite length_take, Er, !length_app. lia. }
    pose proof (frame_bytes_length _ _ Hb).
    destruct Hcut as [E | (op' & b' & k & [r1 Hop'] & Hb' & Hk & E)]; rewrite E in *.
    + lia.
    + destruct Hop as [r2 Hop]. rewrite Hop', <- !app_assoc in Hop.
      apply app_inv_head in Hop. injection Hop as -> _.
      assert (b = b') as -> by congruence.
      rewrite length_app, length_take in Hlen. lia.
  - destruct Hcut as [-> | (op & b & k & _ & Hb & Hk & ->)].
    + by apply parse_frames.
    + by apply (parse_torn _ _ op).
Qed.
End recovery.

(** ** Opening the log *)

Section opening.
Context `{!Codec Op} `{!CodecLaws Op} `{!Crc32} `{!Crc32Laws}.

Lemma pop_fault_nil w : w_faults w = [] -> pop_fault w = (Fine, w).
Proof. unfold pop_fault. by intros ->. Qed.

(** Reading a file back, when no fault strikes. *)
Lemma read_to_end_file key w data :
  w_faults w = [] -> default [] (object w key) = data ->
  ap_read_to_end (ApFile key) w = (Ret data, ApFile key, w).
Proof.
  intros Hf Ho. unfold ap_read_to_end, bind, ap_len, reads, backend_call.
  rewrite pop_fault_nil by done. cbn [ap_contents]. rewrite Ho. cbn [default].
  unfold ap_read_exact_at, bind, reads, backend_call. rewrite pop_fault_nil by done.
  cbn [ap_contents]. rewrite Ho. cbn [default]. unfold read_range.
  rewrite (proj2 (Nat.leb_le _ _)) by lia. simpl. by rewrite firstn_all.
Qed.

Lemma object_write_eq key bs w : object (write_object key bs w) key = Some bs.
Proof. unfold object, write_object. simpl. by rewrite lookup_insert_eq. Qed.

Lemma object_write_ne key key' bs w :
  key <> key' -> object (write_object key bs w) key' = object w key'.
Proof. intros. unfold object, write_object. simpl. by rewrite lookup_insert_ne. Qed.

(** Opening a file whose bytes parse: the operations, and the torn tail gone. *)
Lemma log_open_parsed key w ops good data :
  w_faults w = [] -> default [] (object w key) = data -> parse_all_frames data = Ok (ops, good) ->
  (good <= length data)%nat ->
  exists w', log_open_with (ApFile key) w = (Ret ops, ApFile key, w') /\
    default [] (object w' key) = take good data /\ (is_Some (object w key) -> is_Some (object w' key)) /\ touches [key] w w'.
Proof.
  intros Hw Ho Hparse Hg. unfold log_open_with, bind. rewrite (read_to_end_file _ _ _ Hw Ho).
  unfold of_result. rewrite Hparse. unfold ret at 1. cbn [fst snd].
  destruct (good <? length data)%nat eqn:El; unfold when; bdestr.
  - exists (file_set_len key good w).
    unfold ap_truncate_to, backend_call. rewrite pop_fault_nil by done.
    split; [done|]. split_and!; [|intros _; unfold file_set_len; by rewrite object_write_eq|apply write_object_touches].
    unfold file_set_len. rewrite object_write_eq, Ho. cbn [default]. unfold id.
    replace (good - length data)%nat with 0%nat by lia. by rewrite app_nil_r.
  - exists w. split; [done|]. split_and!; [|done|apply touches_refl]. by rewrite firstn_all2 by lia.
Qed.

(** C17: crash recovery of the log: cut the file that holds the frames of some
    operations at any byte, and opening it returns the longest prefix of the
    operations whose frames are whole, and leaves exactly their frames in
    the file. *)
Theorem log_recovery ops bs n key w :
  frames ops = Some bs -> w_faults w = [] -> object w key = Some (take n bs) ->
  exists ops1 bs1 w',
    log_open_with (ApFile key) w = (Ret ops1, ApFile key, w') /\
    ops1 `prefix_of` ops /\ frames ops1 = Some bs1 /\
    (forall op b, (ops1 ++ [op]) `prefix_of` ops -> frame_bytes op = Some b ->
       (n < length bs1 + length b)%nat) /\
    object w' key = Some bs1 /\
    forall key', key' <> key -> object w' key' = object w key'.
Proof.
  intros Hf Hw Ho.
  destruct (parse_prefix ops bs n Hf) as (ops1 & bs1 & Hp & Hf1 & [r Er] & Hmax & Hparse).
  destruct (log_open_parsed key w ops1 (length bs1) (take n bs)) as (w' & E & Ho' & Hsome & Ht); try done.
  { by rewrite Ho. }
  { rewrite Er, length_app. lia. }
  exists ops1, bs1, w'. split_and!; try done.
  - destruct Hsome as [b Hb]; [by eexists|]. rewrite Hb in Ho' |- *. cbn in Ho'.
    by rewrite Ho', Er, take_app_length.
  - intros key' Hk. eapply touches_object; [exact Ht|]. by intros ->%list_elem_of_singleton.
Qed.

(** The size of the frame its length field declares. *)
Definition declared (d : bytes) : Z := (4 + from_le (take 4 d) + 4)%Z.

(** The bytes begin with a whole frame: checksum and operation. *)
Definition sound_frame (d : bytes) : Prop :=
  let payload := take (Z.to_nat (from_le (take 4 d))) (drop 4 d) in
  (4 <= length d)%nat /\ (declared d <= Z.of_nat (length d))%Z /\
  crc32 payload = from_le (take 4 (drop (4 + Z.to_nat (from_le (take 4 d))) d)) /\ is_Some (dec payload : option Op).

Lemma parse_damaged pre d :
  d <> [] -> ~ sound_frame d ->
  parse_frame (pre ++ d) (length pre) =
  if (4 <=? length d)%nat && (declared d <? Z.of_nat (length d))%Z then Corruption else TornTail.
Proof.
  intros Hne Hbad. assert (0 < length d)%nat by (destruct d; [done|cbn [length]; lia]).
  unfold parse_frame. rewrite drop_app_length. cbv zeta. fold (declared d).
  rewrite (proj2 (Nat.leb_gt _ _)) by (rewrite length_app; lia).
  destruct (Nat.ltb_spec (length d) 4) as [Hs|Hs].
  { by rewrite (proj2 (Nat.leb_gt _ _)) by lia. }
  rewrite (proj2 (Nat.leb_le _ _)) by lia. cbn [andb].
  destruct (Z.ltb_spec (Z.of_nat (length d)) (declared d)) as [Hd|Hd].
  { by rewrite (proj2 (Z.ltb_ge _ _)) by lia. }
  destruct (Z.eqb_spec (crc32 (take (Z.to_nat (from_le (take 4 d))) (drop 4 d)))
    (from_le (take 4 (drop (4 + Z.to_nat (from_le (take 4 d))) d)))) as [Hc|Hc]; cbn [negb]; [|done].
  destruct (dec _) as [op|] eqn:Ed; [|done]. destruct Hbad. split_and!; [done|done|done|]. rewrite Ed. by eexists.
Qed.

(** C33: what becomes of damage: after whole frames, bytes that do not begin
    with a whole frame are reported as corruption exactly when the frame
    their length field declares ends before the file does; else they are
    taken for the torn tail of a crash and everything before them is
    recovered.  So a wrong checksum or an undecodable payload with anything
    behind it is always reported, and a length field damaged so that it
    reaches past the end is not. *)
Theorem log_corruption_detected ops bs d :
  frames ops = Some bs -> d <> [] -> ~ sound_frame d ->
  parse_all_frames (bs ++ d) =
  if (4 <=? length d)%nat && (declared d <? Z.of_nat (length d))%Z then Err ECorrupt else Ok (ops, length bs).
Proof.
  intros Hf Hne Hbad. apply (parse_all_frames_fuel (length ops + 1)).
  - pose proof (parse_loop_frames ops bs d [] [] 0 1 Hf (fun _ => eq_refl)) as E.
    cbn [app length] in E. rewrite E. cbn [parse_loop]. rewrite (parse_damaged bs d Hne Hbad).
    by destruct (_ && _).
  - apply frames_length in Hf. rewrite length_app. lia.
Qed.

(** A bounded open replays exactly a committed prefix: on a log that
    holds more frames, the bound at the end of some frames gives their
    operations; a bound inside a frame is an error, never a shorter list;
    a bound past the end is refused; and the log is left as it was. *)
Theorem log_bounded ops more bs bs2 key w limit :
  frames ops = Some bs -> frames more = Some bs2 ->
  w_faults w = [] -> object w key = Some (bs ++ bs2) ->
  let r := log_open_bounded limit (ApFile key) w in
  (limit = length bs -> r = (Ret ops, ApFile key, w)) /\
  (length bs + length bs2 < limit -> r = (Fail EMissing, ApFile key, w))%nat /\
  (forall op b, (exists tl, more = op :: tl) -> frame_bytes op = Some b ->
     (length bs < limit < length bs + length b)%nat ->
     r = (Fail ECorrupt, ApFile key, w)).
Proof.
  intros Hf Hf2 Hw Ho r. unfold r, log_open_bounded, bind.
  rewrite (read_to_end_file _ _ _ Hw (f_equal (default []) Ho)). cbn [default]. unfold id. rewrite length_app.
  split_and!.
  - intros ->. rewrite (proj2 (Nat.ltb_ge _ _)) by lia. rewrite take_app_length.
    unfold of_result. rewrite (parse_frames _ _ Hf). unfold ret at 1. cbn [fst snd].
    by rewrite Nat.eqb_refl.
  - intros Hl. by rewrite (proj2 (Nat.ltb_lt _ _)) by lia.
  - intros op b [tl ->] Hb Hl. apply bind_Some in Hf2 as (b' & Hb' & (bs' & Hbs & [= <-])%bind_Some).
    assert (b' = b) as -> by congruence.
    rewrite (proj2 (Nat.ltb_ge _ _)) by (rewrite length_app; lia).
    assert (take limit (bs ++ b ++ bs') = bs ++ take (limit - length bs) b) as ->.
    { rewrite take_app_ge by lia. f_equal. apply take_app_le. lia. }
    unfold of_result. rewrite (parse_torn _ _ op b) by (done || lia).
    unfold ret at 1. cbn [fst snd].
    rewrite (proj2 (Nat.eqb_neq _ _)); [done|]. rewrite length_app, length_take. lia.
Qed.
End opening.

(** ** A concrete log *)

Section example.
Import ToyCodec.

Definition ex_ops : list Op :=
  [OpCreateCollection (lit "c");
   OpUpsertText (lit "c") (lit "a") {[lit "k" := VInt 7]};
   OpDelete (lit "c") (lit "a")].

Definition ex_world (key : rstring) (bs : bytes) : World :=
  {| w_kind := LocalFs; w_objects := {[key := (bs, 0%N)]}; w_next := 1; w_faults := [];
     w_clock := [] |}.

(** The bytes of the three operations; the log is cut seven bytes short. *)
Definition ex_bytes : bytes := default [] (frames ex_ops).
Definition ex_cut : nat := length ex_bytes - 7.

Lemma log_recovery_witness :
  exists ops1 bs1 w',
    log_open_with (ApFile (lit "log")) (ex_world (lit "log") (take ex_cut ex_bytes))
      = (Ret ops1, ApFile (lit "log"), w') /\
    ops1 `prefix_of` ex_ops /\ frames ops1 = Some bs1 /\
    (forall op b, (ops1 ++ [op]) `prefix_of` ex_ops -> frame_bytes op = Some b ->
       (ex_cut < length bs1 + length b)%nat) /\
    object w' (lit "log") = Some bs1 /\
    forall key', key' <> lit "log" ->
      object w' key' = object (ex_world (lit "log") (take ex_cut ex_bytes)) key'.
Proof.
  apply (log_recovery ex_ops ex_bytes ex_cut); vm_compute; reflexivity.
Defined.

(** A frame with a wrong checksum, and one whose length was damaged, before
    more of the log. *)
Definition wrong_checksum : bytes := (to_le 4 1 ++ [5] ++ [9; 9; 9; 9] ++ ex_bytes)%Z.
Definition wrong_length : bytes := (to_le 4 (2 ^ 16) ++ drop 4 ex_bytes)%Z.

Lemma log_corruption_detected_witness :
  parse_all_frames (ex_bytes ++ wrong_checksum) = Err ECorrupt /\
  parse_all_frames (ex_bytes ++ wrong_length) = Ok (ex_ops, length ex_bytes).
Proof.
  split.
  - rewrite (log_corruption_detected ex_ops ex_bytes wrong_checksum); [by vm_compute|by vm_compute|done|].
    intros (_ & _ & Hc & _). vm_compute in Hc. done.
  - rewrite (log_corruption_detected ex_ops ex_bytes wrong_length); [by vm_compute|by vm_compute|done|].
    intros (_ & Hc & _). vm_compute in Hc. by destruct Hc.
Defined.

Lemma log_bounded_witness :
  let w := ex_world (lit "log") (ex_bytes ++ ex_bytes) in
  let r := log_open_bounded (length ex_bytes) (ApFile (lit "log")) w in
  (length ex_bytes = length ex_bytes -> r = (Ret ex_ops, ApFile (lit "log"), w)) /\
  (length ex_bytes + length ex_bytes < length ex_bytes ->
     r = (Fail EMissing, ApFile (lit "log"), w))%nat /\
  (forall op b, (exists tl, ex_ops = op :: tl) -> frame_bytes op = Some b ->
     (length ex_bytes < length ex_bytes < length ex_bytes + length b)%nat ->
     r = (Fail ECorrupt, ApFile (lit "log"), w)).
Proof.
  apply (log_bounded ex_ops ex_ops ex_bytes ex_bytes); vm_compute; reflexivity.
Defined.
End example.
