(* ===== verification/Data.v ===== *)
(** * Data: one vector segment ([src/src/data/mod.rs])

    A 64-byte header, then fixed-stride rows of little-endian [f32]s, mirrored
    in RAM while the segment is writable.  [seg_ok] relates the RAM mirror to
    the bytes; [data_open_ok] is recovery from a partial last row. *)
From S2P Require Import Prelude Floats Model Backend Codec.

(** ** Header *)

(** ["NIDUS\0"]. *)
Definition MAGIC : bytes := [78; 73; 68; 85; 83; 0]%Z.
Definition VERSION : Z := 1.
Definition HEADER_LEN : nat := 64.

Definition distance_to_byte (d : Distance) : byte :=
  match d with Cosine => 0 | Euclidean => 1 | DotProduct => 2 end%Z.

Definition byte_to_distance (b : byte) : result err Distance :=
  match b with
  | 0%Z => Ok Cosine
  | 1%Z => Ok Euclidean
  | 2%Z => Ok DotProduct
  | _ => Err ECorrupt
  end.

(** [dimension as u32]. *)
Definition dim_u32 (dimension : nat) : Z := (Z.of_nat dimension mod 2 ^ 32)%Z.

Definition encode_header (dimension : nat) (distance : Distance) : bytes :=
  MAGIC ++ to_le 2 VERSION ++ to_le 4 (dim_u32 dimension) ++ [distance_to_byte distance]
    ++ replicate 51 0%Z.

Definition decode_header (buf : bytes) : result err (nat * Distance) :=
  if negb (bool_decide (take 6 buf = MAGIC)) then Err ECorrupt
  else
    let version := from_le (take 2 (drop 6 buf)) in
    if negb (version =? VERSION)%Z then Err ECorrupt
    else
      let dim := Z.to_nat (from_le (take 4 (drop 8 buf))) in
      (let? distance := byte_to_distance (default 0%Z (buf !! 12%nat)) in
       Ok (dim, distance))%res.

(** [header_from_bytes]: the header of an object already in hand. *)
Definition header_from_bytes (bs : bytes) : result err (nat * Distance) :=
  if (length bs <? HEADER_LEN)%nat then Err ECorrupt
  else decode_header (take HEADER_LEN bs).

(** [peek_header]: the header of a file, [None] when there is no store yet. *)
Definition peek_header {X} (key : rstring) : M X (option (nat * Distance)) :=
  (let* o := reads (fun w => object w key) in
   match o with
   | None => ret None
   | Some bs =>
       if bool_decide (bs = []) then ret None
       else let* h := of_result (header_from_bytes bs) in ret (Some h)
   end)%m.

(** ** Rows *)

Definition floats_to_bytes (floats : list f32) : bytes := mjoin (map f32_to_le_bytes floats).

(** [as_chunks::<4>().0], each read as a little-endian [f32]. *)
Fixpoint le_floats (bs : bytes) : list f32 :=
  match bs with
  | a :: b :: c :: d :: bs' => from_le [a; b; c; d] :: le_floats bs'
  | _ => []
  end.

Inductive Backing :=
| Ram (vectors : list f32)
| Mmap (map : bytes) (rows : nat).

Record DataSegment := {
  sg_dimension : nat;
  sg_distance : Distance;
  sg_backing : Backing;
  sg_appender : option Appender
}.

Definition set_backing (b : Backing) (s : DataSegment) : DataSegment :=
  {| sg_dimension := sg_dimension s; sg_distance := sg_distance s; sg_backing := b;
     sg_appender := sg_appender s |}.
Definition set_appender (ap : Appender) (s : DataSegment) : DataSegment :=
  {| sg_dimension := sg_dimension s; sg_distance := sg_distance s; sg_backing := sg_backing s;
     sg_appender := Some ap |}.

(** Run a computation on an appender; the handle is returned. *)
Definition with_appender {X A} (ap : Appender) (m : M Appender A) : M X (A * Appender) :=
  fun x w =>
    match m ap w with
    | (Ret a, ap', w') => (Ret (a, ap'), x, w')
    | (Fail e, _, w') => (Fail e, x, w')
    | (Dead, _, w') => (Dead, x, w')
    end.

(** [if let Some(ap) = self.appender.as_mut() { m }]. *)
Definition seg_io (m : M Appender unit) : M DataSegment unit := fun s w =>
  match sg_appender s with
  | None => (Ret tt, s, w)
  | Some ap => match m ap w with (o, ap', w') => (o, set_appender ap' s, w') end
  end.

Definition CHUNK : nat := N.to_nat 8192.

(** Streaming [remaining] bytes from [offset] in bounded chunks. *)
Fixpoint read_chunks (fuel offset remaining : nat) (acc : bytes) : M Appender bytes :=
  match fuel with
  | O => ret acc
  | S fuel' =>
      if (remaining =? 0)%nat then ret acc
      else
        let n := Nat.min remaining CHUNK in
        (let* buf := ap_read_exact_at offset n in
         read_chunks fuel' (offset + n) (remaining - n) (acc ++ buf))%m
  end.

(** [remaining] steps are enough: each takes at least one byte. *)
Definition read_stream (offset remaining : nat) : M Appender bytes :=
  read_chunks remaining offset remaining [].

Definition row_stride (dimension : nat) : nat := dimension * 4.
Definition whole_rows (dimension data_bytes : nat) : nat :=
  if (row_stride dimension =? 0)%nat then 0 else data_bytes / row_stride dimension.

(** The body of [open_with]: the rows in RAM. *)
Definition open_rows (dimension : nat) (distance : Distance) : M Appender (list f32) :=
  (let* file_len := ap_len in
   if (file_len =? 0)%nat then
     do* ap_append (encode_header dimension distance) in ret []
   else if (file_len <? HEADER_LEN)%nat then throw ECorrupt
   else
     let* header_buf := ap_read_exact_at 0 HEADER_LEN in
     let* h := of_result (decode_header header_buf) in
     if negb (h.1 =? dimension)%nat then throw EMismatch
     else if negb (bool_decide (h.2 = distance)) then throw EMismatch
     else
       let row_count := whole_rows dimension (file_len - HEADER_LEN) in
       let whole_data_bytes := (row_count * row_stride dimension)%nat in
       let total_floats := (row_count * dimension)%nat in
       let* vectors :=
         (if (total_floats =? 0)%nat then ret []
          else let* bs := read_stream HEADER_LEN whole_data_bytes in ret (le_floats bs)) in
       let good_end := (HEADER_LEN + whole_data_bytes)%nat in
       do* when (good_end <? file_len)%nat (ap_truncate_to good_end) in
       ret vectors)%m.

Definition data_open_with {X} (ap : Appender) (dimension : nat) (distance : Distance)
  : M X DataSegment :=
  (let* va := with_appender ap (open_rows dimension distance) in
   ret {| sg_dimension := dimension; sg_distance := distance; sg_backing := Ram va.1;
          sg_appender := Some va.2 |})%m.

(** [open_mmap]: the mapping is the bytes of the file at the call. *)
Definition data_open_mmap {X} (key : rstring) (dimension : nat) (distance : Distance)
  : M X DataSegment :=
  (let* o := reads (fun w => object w key) in
   match o with
   | None => throw EIo
   | Some bs =>
       if (length bs <? HEADER_LEN)%nat then throw ECorrupt
       else
         let* h := of_result (decode_header (take HEADER_LEN bs)) in
         if negb (h.1 =? dimension)%nat then throw EMismatch
         else if negb (bool_decide (h.2 = distance)) then throw EMismatch
         else ret {| sg_dimension := dimension; sg_distance := distance;
                     sg_backing := Mmap bs (whole_rows dimension (length bs - HEADER_LEN));
                     sg_appender := None |}
   end)%m.

Definition data_in_memory_with (dimension : nat) (distance : Distance) : DataSegment :=
  {| sg_dimension := dimension; sg_distance := distance; sg_backing := Ram [];
     sg_appender := None |}.

Definition rewrite_target (ap : Appender) (dimension : nat) (distance : Distance) : DataSegment :=
  {| sg_dimension := dimension; sg_distance := distance; sg_backing := Ram [];
     sg_appender := Some ap |}.

Definition is_mmap (s : DataSegment) : bool :=
  match sg_backing s with Mmap _ _ => true | Ram _ => false end.

Definition seg_row_count (s : DataSegment) : nat :=
  match sg_backing s with
  | Ram v => length v / Nat.max (sg_dimension s) 1
  | Mmap _ rows => rows
  end.

(** [mmap_rows]. *)
Definition mmap_rows (map : bytes) (rows dimension : nat) : list f32 :=
  le_floats (take (rows * dimension * 4) (drop HEADER_LEN map)).

Definition seg_vectors (s : DataSegment) : list f32 :=
  match sg_backing s with
  | Ram v => v
  | Mmap map rows => mmap_rows map rows (sg_dimension s)
  end.

(** [row]: a slice expression in the source. *)
Definition seg_row (s : DataSegment) (i : nat) : list f32 :=
  take (sg_dimension s) (drop (i * sg_dimension s) (seg_vectors s)).

Definition data_append (vector : list f32) : M DataSegment nat :=
  (let* s := get_st in
   if negb (length vector =? sg_dimension s)%nat then throw EInvalid
   else
     let row_index := seg_row_count s in
     match sg_backing s with
     | Mmap _ _ => throw EInvalid
     | Ram v =>
         do* seg_io (ap_append (floats_to_bytes vector)) in
         do* modify (set_backing (Ram (v ++ vector))) in
         ret row_index
     end)%m.

Definition data_truncate_to (rows : nat) : M DataSegment unit :=
  (let* s := get_st in
   match sg_backing s with
   | Mmap _ _ => throw EInvalid
   | Ram v =>
       let keep_floats := (rows * sg_dimension s)%nat in
       if (length v <? keep_floats)%nat then throw EInvalid
       else
         do* seg_io (ap_truncate_to (HEADER_LEN + rows * sg_dimension s * 4)) in
         modify (set_backing (Ram (take keep_floats v)))
   end)%m.

Definition data_sync : M DataSegment unit := seg_io ap_sync.

Definition data_rewrite (rows : list f32) : M DataSegment unit :=
  (let* s := get_st in
   let dim := sg_dimension s in
   if (0 <? dim)%nat && negb (length rows mod dim =? 0)%nat then throw EInvalid
   else
     do* seg_io (ap_rewrite (encode_header dim (sg_distance s) ++ floats_to_bytes rows)) in
     modify (set_backing (Ram rows)))%m.

(** ** Encodings *)

Lemma length_encode_header dim d : length (encode_header dim d) = HEADER_LEN.
Proof. unfold encode_header. by rewrite !length_app, !length_to_le, length_replicate. Qed.

Lemma byte_distance d : byte_to_distance (distance_to_byte d) = Ok d.
Proof. by destruct d. Qed.

Lemma header_roundtrip_aux dim d rest :
  (Z.of_nat dim < 2 ^ 32)%Z -> decode_header (encode_header dim d ++ rest) = Ok (dim, d).
Proof.
  intros Hd. unfold decode_header.
  assert (encode_header dim d = MAGIC ++ to_le 2 VERSION ++ to_le 4 (dim_u32 dim)
    ++ [distance_to_byte d] ++ replicate 51 0%Z) as E by done.
  rewrite E. clear E.
  change (take 6 ((MAGIC ++ ?x) ++ ?y)) with MAGIC.
  rewrite bool_decide_eq_true_2 by done. cbn [negb].
  rewrite <- !app_assoc.
  rewrite (drop_app_length' MAGIC _ 6) by done.
  rewrite (take_app_length' (to_le 2 VERSION) _ 2) by done.
  change (negb (from_le (to_le 2 VERSION) =? VERSION)%Z) with false. cbn iota.
  assert (drop 8 (MAGIC ++ to_le 2 VERSION ++ to_le 4 (dim_u32 dim)
    ++ [distance_to_byte d] ++ replicate 51 0%Z ++ rest)
    = to_le 4 (dim_u32 dim) ++ [distance_to_byte d] ++ replicate 51 0%Z ++ rest) as ->.
  { rewrite (app_assoc MAGIC). by apply drop_app_length'. }
  rewrite (take_app_length' _ _ 4) by (by rewrite length_to_le).
  rewrite from_to_le by (unfold dim_u32; change (256 ^ Z.of_nat 4)%Z with (2 ^ 32)%Z;
    apply Z.mod_pos_bound; lia).
  rewrite lookup_app_r by (unfold MAGIC; simpl; lia).
  rewrite lookup_app_r by (rewrite length_to_le; unfold MAGIC; simpl; lia).
  rewrite lookup_app_r by (rewrite !length_to_le; unfold MAGIC; simpl; lia).
  rewrite !length_to_le. unfold MAGIC. simpl. rewrite byte_distance. simpl.
  unfold dim_u32. rewrite Z.mod_small by lia. by rewrite Nat2Z.id.
Qed.

Lemma length_f32_le x : length (f32_to_le_bytes x) = 4%nat.
Proof. apply length_to_le. Qed.

Lemma floats_to_bytes_cons x v : floats_to_bytes (x :: v) = f32_to_le_bytes x ++ floats_to_bytes v.
Proof. done. Qed.

Lemma length_floats_to_bytes v : length (floats_to_bytes v) = (4 * length v)%nat.
Proof.
  induction v as [|x v IH]; [done|].
  rewrite floats_to_bytes_cons, length_app, length_f32_le, IH. cbn [length]. lia.
Qed.

Lemma floats_to_bytes_app v1 v2 :
  floats_to_bytes (v1 ++ v2) = floats_to_bytes v1 ++ floats_to_bytes v2.
Proof. unfold floats_to_bytes. by rewrite map_app, join_app. Qed.

Lemma le_floats_bytes v : Forall is_f32 v -> le_floats (floats_to_bytes v) = v.
Proof.
  induction 1 as [|x v Hx Hv IH]; [done|]. rewrite floats_to_bytes_cons.
  destruct (f32_to_le_bytes x) as [|a [|b [|c [|e [|? ?]]]]] eqn:E;
    pose proof (length_f32_le x) as L; rewrite E in L; try done.
  cbn [app le_floats]. rewrite IH. f_equal.
  change (f32_from_le_bytes [a; b; c; e] = x). rewrite <- E. by apply f32_le_roundtrip.
Qed.

Lemma take_floats_to_bytes n v : take (4 * n) (floats_to_bytes v) = floats_to_bytes (take n v).
Proof.
  revert n. induction v as [|x v IH]; intros n.
  { change (floats_to_bytes []) with (@nil Z). by rewrite !take_nil. }
  destruct n as [|n]; [done|]. rewrite floats_to_bytes_cons. cbn [take].
  rewrite floats_to_bytes_cons, take_app_ge by (rewrite length_f32_le; lia).
  rewrite length_f32_le. replace (4 * S n - 4)%nat with (4 * n)%nat by lia. by rewrite IH.
Qed.

(** The segment header round-trips: whatever dimension below [2^32] and
    metric a store is created with is read back, from a file of any length. *)
Theorem header_roundtrip dim d rest :
  (Z.of_nat dim < 2 ^ 32)%Z ->
  header_from_bytes (encode_header dim d ++ rest) = Ok (dim, d).
Proof.
  intros Hd. unfold header_from_bytes.
  rewrite length_app, length_encode_header, (proj2 (Nat.ltb_ge _ _)) by lia.
  rewrite <- (length_encode_header dim d) at 1. rewrite take_app_length.
  rewrite <- (app_nil_r (encode_header dim d)). by apply header_roundtrip_aux.
Qed.

(** ** Streaming reads *)

Lemma wp_read_chunks fuel : forall offset remaining acc R E ap w,
  (remaining <= fuel)%nat -> (offset + remaining <= length (ap_contents ap w))%nat ->
  (forall w', touches [] w w' ->
     R (acc ++ take remaining (drop offset (ap_contents ap w))) ap w') ->
  (forall e w', touches [] w w' -> w_faults w <> [] -> E e ap w') ->
  wp (read_chunks fuel offset remaining acc) R E ap w.
Proof.
  induction fuel as [|fuel IH]; intros offset remaining acc R E ap w Hf Hl HR HE; cbn [read_chunks].
  { apply wp_ret. specialize (HR _ (touches_refl _ _)).
    replace remaining with 0%nat in HR by lia. by rewrite take_0, app_nil_r in HR. }
  destruct (remaining =? 0)%nat eqn:E0; bdestr.
  { apply wp_ret. subst. specialize (HR _ (touches_refl _ _)). by rewrite take_0, app_nil_r in HR. }
  assert (0 < CHUNK)%nat as HC by (apply Nat.ltb_lt; vm_compute; reflexivity).
  apply wp_bind, wp_ap_read; [lia| |intros e w' Ht; by apply HE].
  intros w1 Ht1. pose proof (touches_nil_contents ap _ _ Ht1) as Hc.
  apply IH; [lia|rewrite Hc; lia| |].
  - intros w2 Ht2. rewrite Hc, <- app_assoc, <- drop_drop, take_take_drop.
    replace (Nat.min remaining CHUNK + _)%nat with remaining by lia.
    apply HR. by eapply touches_trans.
  - intros e w2 Ht2 Hw. apply HE; [by eapply touches_trans|].
    destruct Ht1 as (_ & _ & [l Hl1]). rewrite Hl1. intros [_ ?]%app_nil. done.
Qed.

(** ** The invariant: the RAM mirror and the bytes agree *)

Record seg_ok (v : list f32) (s : DataSegment) (w : World) : Prop := {
  so_dim : (0 < sg_dimension s)%nat /\ (Z.of_nat (sg_dimension s) < 2 ^ 32)%Z;
  so_ram : sg_backing s = Ram v;
  so_whole : exists rows, length v = (rows * sg_dimension s)%nat;
  so_f32 : Forall is_f32 v;
  so_bytes : forall ap, sg_appender s = Some ap ->
    ap_contents ap w = encode_header (sg_dimension s) (sg_distance s) ++ floats_to_bytes v
}.

Definition seg_keys (s : DataSegment) : list rstring :=
  match sg_appender s with Some ap => ap_keys ap | None => [] end.

(** The handle is still the same one. *)
Definition seg_same (s s' : DataSegment) : Prop :=
  sg_dimension s' = sg_dimension s /\ sg_distance s' = sg_distance s /\
  match sg_appender s, sg_appender s' with
  | Some ap, Some ap' => ap_same ap ap'
  | None, None => True
  | _, _ => False
  end.

Lemma seg_same_refl s : seg_same s s.
Proof. split_and!; [done..|]. destruct (sg_appender s); [apply ap_same_refl|done]. Qed.

Lemma seg_same_trans s1 s2 s3 : seg_same s1 s2 -> seg_same s2 s3 -> seg_same s1 s3.
Proof.
  intros (D1 & E1 & A1) (D2 & E2 & A2). split_and!; [congruence..|].
  destruct (sg_appender s1), (sg_appender s2), (sg_appender s3); try done.
  by eapply ap_same_trans.
Qed.

Lemma seg_same_keys s s' : seg_same s s' -> seg_keys s' = seg_keys s.
Proof.
  intros (_ & _ & H). unfold seg_keys. destruct (sg_appender s), (sg_appender s'); try done.
  by apply ap_same_keys.
Qed.

Lemma seg_ok_rows v s w : seg_ok v s w -> length v = (seg_row_count s * sg_dimension s)%nat.
Proof.
  intros Hok. destruct (so_whole _ _ _ Hok) as [rows Hr]. destruct (so_dim _ _ _ Hok) as [Hd _].
  unfold seg_row_count. rewrite (so_ram _ _ _ Hok), Nat.max_l by lia.
  rewrite Hr, Nat.div_mul by lia. done.
Qed.

Lemma seg_ok_touches v s w w' ks :
  touches ks w w' -> (forall k, k ∈ seg_keys s -> k ∉ ks) -> seg_ok v s w -> seg_ok v s w'.
Proof.
  intros Ht Hk Hok. split; try apply Hok. intros ap Hap.
  rewrite (ap_contents_touches ap _ _ _ Ht); [by apply Hok|].
  intros k Hin. apply Hk. unfold seg_keys. by rewrite Hap.
Qed.

Lemma set_backing_id b s : sg_backing s = b -> set_backing b s = s.
Proof. intros <-. by destruct s. Qed.

(** The effect of an appender call made through the segment. *)
Lemma seg_io_spec m s w o s' w' :
  (forall ap o ap' w', m ap w = (o, ap', w') -> sg_appender s = Some ap ->
     ap_same ap ap' /\ touches (ap_keys ap) w w') ->
  seg_io m s w = (o, s', w') ->
  seg_same s s' /\ touches (seg_keys s) w w' /\ sg_backing s' = sg_backing s /\
  match sg_appender s with
  | None => o = Ret tt /\ s' = s /\ w' = w
  | Some ap => exists ap', m ap w = (o, ap', w') /\ s' = set_appender ap' s
  end.
Proof.
  intros Hm. unfold seg_io, seg_keys, seg_same. destruct (sg_appender s) as [ap|] eqn:Eap; cycle 1.
  { intros [= <- <- <-]. rewrite Eap. split_and!; auto with nidus. }
  destruct (m ap w) as [[o1 ap'] w1] eqn:E. intros [= <- <- <-].
  destruct (Hm _ _ _ _ E eq_refl) as [Hs Ht]. cbn. split_and!; try done. eauto.
Qed.

(** Appending a row: done, refused with nothing changed, or cut short. *)
Lemma data_append_spec v vector s w o s' w' :
  seg_ok v s w -> clean w -> Forall is_f32 vector -> length vector = sg_dimension s ->
  data_append vector s w = (o, s', w') ->
  seg_same s s' /\ touches (seg_keys s) w w' /\
  match o with
  | Ret row => row = seg_row_count s /\ seg_ok (v ++ vector) s' w'
  | Fail _ => seg_ok v s' w'
  | Dead => forall ap, sg_appender s' = Some ap -> exists n,
      ap_contents ap w' = encode_header (sg_dimension s) (sg_distance s)
        ++ floats_to_bytes v ++ take n (floats_to_bytes vector)
  end.
Proof.
  intros Hok Hc Hf Hl. unfold data_append, bind, get_st.
  rewrite Hl, Nat.eqb_refl. cbn [negb]. rewrite (so_ram _ _ _ Hok).
  destruct (seg_io (ap_append (floats_to_bytes vector)) s w) as [[oa s1] w1] eqn:Eio.
  apply seg_io_spec in Eio as (Hs & Ht & Hb & Hap); cycle 1.
  { intros ap o1 ap' w2 E _. apply ap_append_spec in E as (? & ? & _); done. }
  assert (forall v', (exists rows, length v' = rows * sg_dimension s)%nat -> Forall is_f32 v' ->
    (forall ap, sg_appender s1 = Some ap ->
       ap_contents ap w1 = encode_header (sg_dimension s) (sg_distance s) ++ floats_to_bytes v') ->
    seg_ok v' (set_backing (Ram v') s1) w1) as Hmk.
  { intros v' Hw Hfv Hby. destruct Hs as (Hd & Hdist & _).
    split; cbn; rewrite ?Hd, ?Hdist; try done. apply Hok. }
  destruct oa as [[]|e|].
  - unfold modify, ret. intros [= <- <- <-]. split_and!; try done.
    apply Hmk.
    + exists (seg_row_count s + 1)%nat. rewrite length_app, (seg_ok_rows _ _ _ Hok), Hl. lia.
    + apply Forall_app. split; [apply Hok|done].
    + intros ap Eap. destruct (sg_appender s) as [ap0|] eqn:E0.
      * destruct Hap as (ap' & Em & ->). cbn in Eap. injection Eap as <-.
        apply ap_append_spec in Em as (_ & _ & ->); [|done].
        rewrite (so_bytes _ _ _ Hok) by done. by rewrite <- app_assoc, floats_to_bytes_app.
      * destruct Hap as (_ & -> & _). congruence.
  - intros [= <- <- <-]. split_and!; try done.
    rewrite <- (set_backing_id (Ram v) s1) by (rewrite Hb; apply Hok).
    apply Hmk; [apply Hok|apply Hok|]. intros ap Eap.
    destruct (sg_appender s) as [ap0|] eqn:E0.
    + destruct Hap as (ap' & Em & ->). cbn in Eap. injection Eap as <-.
      apply ap_append_spec in Em as (_ & _ & ->); [|done]. by apply Hok.
    + by destruct Hap as (? & _).
  - intros [= <- <- <-]. split_and!; try done. intros ap Eap.
    destruct (sg_appender s) as [ap0|] eqn:E0.
    + destruct Hap as (ap' & Em & ->). cbn in Eap. injection Eap as <-.
      apply ap_append_spec in Em as (_ & _ & [n ->]); [|done].
      exists n. rewrite (so_bytes _ _ _ Hok) by done. by rewrite <- app_assoc.
    + by destruct Hap as (? & _).
Qed.

Lemma seg_ok_mk v s s1 w1 :
  seg_same s s1 ->
  ((0 < sg_dimension s)%nat /\ (Z.of_nat (sg_dimension s) < 2 ^ 32)%Z) ->
  (exists rows, length v = rows * sg_dimension s)%nat -> Forall is_f32 v ->
  (forall ap, sg_appender s1 = Some ap ->
     ap_contents ap w1 = encode_header (sg_dimension s) (sg_distance s) ++ floats_to_bytes v) ->
  seg_ok v (set_backing (Ram v) s1) w1.
Proof. intros (Hd & Hdist & _) ? ? ? ?. split; cbn; rewrite ?Hd, ?Hdist; done. Qed.

Lemma contents_take dim d v n :
  take (HEADER_LEN + n * 4) (encode_header dim d ++ floats_to_bytes v)
  = encode_header dim d ++ floats_to_bytes (take n v).
Proof.
  rewrite take_app_ge by (rewrite length_encode_header; lia).
  rewrite length_encode_header. replace (HEADER_LEN + n * 4 - HEADER_LEN)%nat with (4 * n)%nat by lia.
  by rewrite take_floats_to_bytes.
Qed.

(** Rolling back to [rows] rows: when it returns, exactly they remain. *)
Lemma data_truncate_spec v rows s w o s' w' :
  seg_ok v s w -> (rows <= seg_row_count s)%nat ->
  data_truncate_to rows s w = (o, s', w') ->
  seg_same s s' /\ touches (seg_keys s) w w' /\
  (forall a, o = Ret a -> seg_ok (take (rows * sg_dimension s) v) s' w').
Proof.
  intros Hok Hr. unfold data_truncate_to, bind, get_st. rewrite (so_ram _ _ _ Hok).
  pose proof (seg_ok_rows _ _ _ Hok) as Hlen.
  assert (rows * sg_dimension s <= length v)%nat as Hle by (rewrite Hlen; nia).
  rewrite (proj2 (Nat.ltb_ge _ _)) by done.
  destruct (seg_io _ s w) as [[oa s1] w1] eqn:Eio.
  assert (forall ap, sg_appender s = Some ap ->
    (HEADER_LEN + rows * sg_dimension s * 4 <= length (ap_contents ap w))%nat) as Hcl.
  { intros ap Eap. rewrite (so_bytes _ _ _ Hok _ Eap), length_app, length_encode_header,
      length_floats_to_bytes. lia. }
  apply seg_io_spec in Eio as (Hs & Ht & Hb & Hap); cycle 1.
  { intros ap o1 ap' w2 E Eap. apply ap_truncate_spec in E as (? & ? & _); [done|by apply Hcl]. }
  destruct oa as [[]|e|]; cycle 1.
  { by intros [= <- <- <-]. }
  { by intros [= <- <- <-]. }
  unfold modify. intros [= <- <- <-]. split_and!; try done. intros _ _.
  apply (seg_ok_mk _ s); [done|apply Hok| | |].
  - exists rows. rewrite length_take. lia.
  - apply Forall_take, Hok.
  - intros ap Eap. destruct (sg_appender s) as [ap0|] eqn:E0.
    + destruct Hap as (ap' & Em & ->). cbn in Eap. injection Eap as <-.
      apply ap_truncate_spec in Em as (_ & _ & ->); [|by apply Hcl].
      rewrite (so_bytes _ _ _ Hok) by done. apply contents_take.
    + destruct Hap as (_ & -> & _). congruence.
Qed.

Lemma data_sync_spec v s w o s' w' :
  seg_ok v s w -> data_sync s w = (o, s', w') ->
  seg_same s s' /\ touches (seg_keys s) w w' /\ seg_ok v s' w'.
Proof.
  intros Hok. unfold data_sync. intros Eio.
  apply seg_io_spec in Eio as (Hs & Ht & Hb & Hap); cycle 1.
  { intros ap o1 ap' w2 E _. by apply ap_sync_spec in E as (? & ? & _). }
  split_and!; try done.
  rewrite <- (set_backing_id (Ram v) s') by (rewrite Hb; apply Hok).
  apply (seg_ok_mk _ s); try apply Hok; [done|].
  intros ap Eap. destruct (sg_appender s) as [ap0|] eqn:E0.
  - destruct Hap as (ap' & Em & ->). cbn in Eap. injection Eap as <-.
    apply ap_sync_spec in Em as (_ & _ & -> & _). by apply Hok.
  - destruct Hap as (_ & -> & _). congruence.
Qed.

(** Rewriting the whole segment: it holds the new rows, or a failure leaves
    the RAM mirror as it was. *)
Lemma data_rewrite_spec v rows s w o s' w' :
  seg_ok v s w -> Forall is_f32 rows -> (length rows mod sg_dimension s = 0)%nat ->
  data_rewrite rows s w = (o, s', w') ->
  seg_same s s' /\ touches (seg_keys s) w w' /\
  (forall a, o = Ret a -> seg_ok rows s' w') /\
  (forall a, o <> Ret a -> sg_backing s' = Ram v).
Proof.
  intros Hok Hf Hm. unfold data_rewrite, bind, get_st.
  rewrite Hm, Nat.eqb_refl, andb_false_r.
  destruct (seg_io _ s w) as [[oa s1] w1] eqn:Eio.
  apply seg_io_spec in Eio as (Hs & Ht & Hb & Hap); cycle 1.
  { intros ap o1 ap' w2 E _. by apply ap_rewrite_spec in E as (? & ? & _). }
  destruct oa as [[]|e|]; cycle 1.
  { intros [= <- <- <-]. split_and!; try done. intros _ _. by rewrite Hb, (so_ram _ _ _ Hok). }
  { intros [= <- <- <-]. split_and!; try done. intros _ _. by rewrite Hb, (so_ram _ _ _ Hok). }
  unfold modify. intros [= <- <- <-]. split_and!; try done; [|intros [] Hn; done].
  intros _ _. destruct (so_dim _ _ _ Hok) as [Hd _].
  apply (seg_ok_mk _ s); [done|apply Hok| |done|].
  - exists (length rows / sg_dimension s)%nat.
    rewrite (Nat.div_mod_eq (length rows) (sg_dimension s)) at 1. rewrite Hm. lia.
  - intros ap Eap. destruct (sg_appender s) as [ap0|] eqn:E0.
    + destruct Hap as (ap' & Em & ->). cbn in Eap. injection Eap as <-.
      apply ap_rewrite_spec in Em as (_ & _ & _ & Hr). by rewrite (Hr tt).
    + destruct Hap as (_ & -> & _). congruence.
Qed.

(** ** The same promises as preconditions *)

Definition seg_fits (s : DataSegment) (w : World) : Prop :=
  forall ap, sg_appender s = Some ap -> ap_fits ap w.

Lemma seg_fits_step ks s s' w w' : seg_same s s' -> touches ks w w' -> seg_fits s w -> seg_fits s' w'.
Proof.
  intros (_ & _ & Hs) Ht Hf ap Hap. rewrite Hap in Hs.
  destruct (sg_appender s) as [ap0|] eqn:E; [|done].
  apply (same_fits ap0 ap); [done|]. eapply touches_fits; [done|]. by apply Hf.
Qed.

(** What a died append leaves behind [v]. *)
Definition data_torn (v vector : list f32) (s : DataSegment) (w : World) : Prop :=
  forall ap, sg_appender s = Some ap -> exists n,
    ap_contents ap w = encode_header (sg_dimension s) (sg_distance s)
      ++ floats_to_bytes v ++ take n (floats_to_bytes vector).

Lemma seg_ok_torn v vector s w : seg_ok v s w -> data_torn v vector s w.
Proof.
  intros Hok ap Hap. exists 0%nat. rewrite take_0, app_nil_r. by apply (so_bytes _ _ _ Hok).
Qed.

Lemma wp_data_append v vector R E s w :
  seg_ok v s w -> clean w -> one_fault w -> seg_fits s w ->
  Forall is_f32 vector -> length vector = sg_dimension s ->
  (forall s' w', seg_same s s' -> touches (seg_keys s) w w' -> seg_ok (v ++ vector) s' w' ->
     R (seg_row_count s) s' w') ->
  (forall e s' w', seg_same s s' -> touches (seg_keys s) w w' -> data_torn v vector s' w' ->
     (e <> None -> seg_ok v s' w' /\ recoverable w') -> E e s' w') ->
  wp (data_append vector) R E s w.
Proof.
  intros Hok Hc Ho Hfit Hf Hl HR HE. apply wp_intro. intros o s' w' Ed.
  pose proof (data_append_spec _ _ _ _ _ _ _ Hok Hc Hf Hl Ed) as (Hs & Ht & Hres).
  destruct o as [row|e|].
  - destruct Hres as [-> Hok']. by apply HR.
  - apply HE; try done; [by apply seg_ok_torn|]. intros _. split; [done|].
    revert Ed. unfold data_append, bind, get_st, seg_io.
    rewrite Hl, Nat.eqb_refl, (so_ram _ _ _ Hok). cbn [negb].
    destruct (sg_appender s) as [ap|] eqn:Eap; [|done].
    destruct (ap_append _ ap w) as [[[[]|e'|] ap1] w1] eqn:Ea; [done| |done].
    intros [= <- <- <-]. eapply ap_append_fail; [done..|]. by apply Hfit.
  - apply HE; try done. intros ap Hap. destruct Hs as (Hd & Hdist & _).
    rewrite Hd, Hdist. by apply Hres.
Qed.

Lemma wp_data_truncate v rows R E s w :
  seg_ok v s w -> recoverable w -> seg_fits s w -> (rows <= seg_row_count s)%nat ->
  (forall s' w', seg_same s s' -> touches (seg_keys s) w w' ->
     seg_ok (take (rows * sg_dimension s) v) s' w' -> R tt s' w') ->
  wp (data_truncate_to rows) R E s w.
Proof.
  intros Hok Hrec Hfit Hr HR. apply wp_intro. intros o s' w' Ed.
  pose proof (data_truncate_spec _ _ _ _ _ _ _ Hok Hr Ed) as (Hs & Ht & Hres).
  destruct o as [[]|e|]; [by apply HR; [..|apply (Hres tt)]|..]; exfalso; revert Ed;
    unfold data_truncate_to, bind, get_st, seg_io; rewrite (so_ram _ _ _ Hok);
    pose proof (seg_ok_rows _ _ _ Hok) as Hlen;
    rewrite (proj2 (Nat.ltb_ge _ _)) by (rewrite Hlen; nia);
    (destruct (sg_appender s) as [ap|] eqn:Eap; [|done]);
    (destruct (ap_truncate_recover (HEADER_LEN + rows * sg_dimension s * 4) ap w)
      as (ap1 & w1 & ->); [done|by apply Hfit| |done]);
    rewrite (so_bytes _ _ _ Hok _ Eap), length_app, length_encode_header, length_floats_to_bytes;
    nia.
Qed.

Lemma wp_data_sync v R E s w :
  seg_ok v s w -> one_fault w -> seg_fits s w ->
  (forall s' w', seg_same s s' -> touches (seg_keys s) w w' -> seg_ok v s' w' -> R tt s' w') ->
  (forall e s' w', seg_same s s' -> touches (seg_keys s) w w' -> seg_ok v s' w' ->
     (e <> None -> recoverable w') -> E e s' w') ->
  wp data_sync R E s w.
Proof.
  intros Hok Ho Hfit HR HE. apply wp_intro. intros o s' w' Ed.
  pose proof (data_sync_spec _ _ _ _ _ _ Hok Ed) as (Hs & Ht & Hok').
  destruct o as [[]|e|]; [by apply HR|apply HE; try done..].
  intros _. revert Ed. unfold data_sync, seg_io. destruct (sg_appender s) as [ap|] eqn:Eap; [|done].
  destruct (ap_sync ap w) as [[oa ap1] w1] eqn:Ea. intros [= -> <- <-].
  eapply ap_sync_fail; [done..|]. by apply Hfit.
Qed.

(** ** Opening *)

Definition file_bytes (dim : nat) (d : Distance) (v : list f32) (torn : bytes) : bytes :=
  encode_header dim d ++ floats_to_bytes v ++ torn.

Lemma whole_rows_file dim rows torn :
  (0 < dim)%nat -> (torn < row_stride dim)%nat ->
  whole_rows dim (4 * (rows * dim) + torn) = rows.
Proof.
  intros Hd Ht. unfold whole_rows, row_stride in *.
  rewrite (proj2 (Nat.eqb_neq _ _)) by lia.
  replace (4 * (rows * dim) + torn)%nat with (torn + rows * (dim * 4))%nat by lia.
  rewrite Nat.div_add by lia. rewrite Nat.div_small by done. done.
Qed.

(** Exits of a run of reads and one last write: the backend failed. *)
Definition fault_exits {X} (E : option err -> X -> World -> Prop) (P : X -> World -> Prop)
    (w : World) : Prop :=
  forall e x' w', w_faults w <> [] -> P x' w' -> E e x' w'.

Lemma touches_faults ks w w' : touches ks w w' -> w_faults w' <> [] -> w_faults w <> [].
Proof. intros (_ & _ & [l ->]) Hn [_ ?]%app_nil. done. Qed.

(** Opening bytes that are a header, whole rows and less than a row more: when
    it returns the rows are in RAM and the partial row is gone, and it fails
    only when the backend does. *)
Lemma wp_open_rows dim d v rows torn R E ap w :
  (0 < dim)%nat -> (Z.of_nat dim < 2 ^ 32)%Z -> length v = (rows * dim)%nat -> Forall is_f32 v ->
  (length torn < row_stride dim)%nat ->
  ap_contents ap w = file_bytes dim d v torn ->
  (forall ap' w', ap_same ap ap' -> touches (ap_keys ap) w w' ->
     ap_contents ap' w' = file_bytes dim d v [] -> R v ap' w') ->
  (forall e ap' w', ap_same ap ap' -> touches (ap_keys ap) w w' -> w_faults w <> [] ->
     E e ap' w') ->
  wp (open_rows dim d) R E ap w.
Proof.
  intros Hd Hd32 Hlen Hf Htorn Hc HR HE. unfold open_rows.
  assert (length (ap_contents ap w) = HEADER_LEN + (4 * (rows * dim) + length torn))%nat as Hl.
  { rewrite Hc. unfold file_bytes. rewrite !length_app, length_encode_header,
      length_floats_to_bytes, Hlen. lia. }
  assert (forall w1, touches [] w w1 -> forall e w', touches [] w1 w' -> w_faults w1 <> [] ->
    E e ap w') as HE'.
  { intros w1 Ht1 e w' Ht Hw. apply HE; [apply ap_same_refl| |by eapply touches_faults].
    apply touches_weaken. by eapply touches_trans. }
  apply wp_bind, wp_ap_len; [|intros e w' Ht Hw; by eapply HE'; [apply touches_refl| |]].
  intros w1 Ht1. rewrite Hl.
  rewrite (proj2 (Nat.eqb_neq _ _)) by (unfold HEADER_LEN; lia).
  rewrite (proj2 (Nat.ltb_ge _ _)) by lia.
  pose proof (touches_nil_contents ap _ _ Ht1) as Hc1.
  apply wp_bind, wp_ap_read; [rewrite Hc1; lia| |exact (HE' _ Ht1)].
  intros w2 Ht2. rewrite Hc1, drop_0.
  assert (touches [] w w2) as Ht12 by (by eapply touches_trans).
  pose proof (touches_nil_contents ap _ _ Ht12) as Hc2.
  assert (take HEADER_LEN (ap_contents ap w) = encode_header dim d) as Hh.
  { rewrite Hc. unfold file_bytes. rewrite <- (length_encode_header dim d). by rewrite take_app_length. }
  rewrite Hh. rewrite <- (app_nil_r (encode_header dim d)), header_roundtrip_aux by done.
  apply wp_bind, wp_ret. cbn [fst snd]. rewrite Nat.eqb_refl, bool_decide_eq_true_2 by done.
  cbn [negb].
  replace (HEADER_LEN + _ - HEADER_LEN)%nat with (4 * (rows * dim) + length torn)%nat by lia.
  rewrite whole_rows_file by done.
  assert (rows * row_stride dim = 4 * length v)%nat as Hstride
    by (unfold row_stride; rewrite Hlen; lia).
  rewrite Hstride. apply wp_bind.
  assert (forall w3, touches [] w w3 ->
    wp (when (HEADER_LEN + 4 * length v <? HEADER_LEN + (4 * (rows * dim) + length torn))%nat
          (ap_truncate_to (HEADER_LEN + 4 * length v)))
      (fun _ ap' w' => R v ap' w') E ap w3) as Htail.
  { intros w3 Ht3. pose proof (touches_nil_contents ap _ _ Ht3) as Hc3.
    assert (take (HEADER_LEN + 4 * length v) (ap_contents ap w) = file_bytes dim d v []) as Htake.
    { rewrite Hc. unfold file_bytes. rewrite app_nil_r, app_assoc. apply take_app_length'.
      rewrite length_app, length_encode_header, length_floats_to_bytes. lia. }
    apply wp_when; intros Hb; bdestr.
    - apply wp_ap_truncate; [rewrite Hc3; lia| |].
      + intros ap' w' Hs Ht Hc'. apply HR; [done|by eapply touches_trans; [apply touches_weaken|]|].
        by rewrite Hc', Hc3.
      + intros e ap' w' Hs Ht Hw _. apply HE; [done|by eapply touches_trans; [apply touches_weaken|]|].
        by eapply touches_faults.
    - apply HR; [apply ap_same_refl|by apply touches_weaken|].
      rewrite Hc3, Hc. unfold file_bytes. destruct torn; [done|cbn [length] in Hb; lia]. }
  destruct (rows * dim =? 0)%nat eqn:Hz; bdestr.
  - apply wp_ret. assert (v = []) as Ev by (apply nil_length_inv; lia). rewrite Ev in Htail |- *.
    apply wp_bind. eapply wp_conseq; [by apply Htail| |done]. done.
  - apply wp_bind, wp_read_chunks; [done|rewrite Hc2; lia| |].
    + intros w3 Ht3. cbn [app]. rewrite Hc2, Hc. unfold file_bytes.
      rewrite <- (length_encode_header dim d) at 1. rewrite drop_app_length.
      rewrite take_app_length' by (by rewrite length_floats_to_bytes).
      apply wp_ret. rewrite le_floats_bytes by done.
      apply wp_bind. eapply wp_conseq; [apply Htail; by eapply touches_trans| |done]. done.
    + exact (HE' _ Ht12).
Qed.

Lemma wp_with_appender {X A} ap (m : M Appender A) R E (x : X) w :
  wp m (fun a ap' w' => R (a, ap') x w') (fun e _ w' => E e x w') ap w ->
  wp (with_appender ap m) R E x w.
Proof. unfold wp, with_appender. by destruct (m ap w) as [[[a0|e0|] y0] w0]. Qed.

(** Opening a file of whole rows and a torn one. *)
Lemma wp_data_open {X} dim d v rows torn key (R : DataSegment -> X -> World -> Prop)
    (E : option err -> X -> World -> Prop) x w :
  (0 < dim)%nat -> (Z.of_nat dim < 2 ^ 32)%Z -> length v = (rows * dim)%nat -> Forall is_f32 v ->
  (length torn < row_stride dim)%nat -> object w key = Some (file_bytes dim d v torn) ->
  (forall s w', seg_ok v s w' -> seg_row_count s = rows ->
     sg_appender s = Some (ApFile key) -> object w' key = Some (file_bytes dim d v []) ->
     touches [key] w w' -> R s x w') ->
  (forall e w', touches [key] w w' -> w_faults w <> [] -> E e x w') ->
  wp (data_open_with (ApFile key) dim d) R E x w.
Proof.
  intros Hd Hd32 Hlen Hf Htorn Ho HR HE. unfold data_open_with. apply wp_bind, wp_with_appender.
  apply (wp_open_rows dim d v rows torn); try done.
  - cbn [ap_contents]. by rewrite Ho.
  - intros ap' w' Hs Ht Hc. destruct ap' as [k'|? ? ?|?]; try done. cbn in Hs. subst k'.
    apply wp_ret. cbn [fst snd].
    assert (seg_ok v {| sg_dimension := dim; sg_distance := d; sg_backing := Ram v;
      sg_appender := Some (ApFile key) |} w') as Hok.
    { split; cbn; eauto. intros ap [= <-]. rewrite Hc. unfold file_bytes. by rewrite app_nil_r. }
    apply HR; try done.
    + apply seg_ok_rows in Hok. cbn [sg_dimension] in Hok. nia.
    + cbn [ap_contents] in Hc. destruct (object w' key) as [b|]; cbn in Hc; [by rewrite Hc|].
      pose proof (length_encode_header dim d) as L. unfold file_bytes in Hc.
      rewrite <- Hc in L || (destruct (encode_header dim d); done).
  - intros e ap' w' _ Ht Hw. by apply HE.
Qed.

(** C24: recovery of a segment: on a file that holds the header, whole rows and a
    torn last row, opening gives exactly the whole rows, and cuts the torn row
    off so that the next row lands on a row boundary. *)
Theorem data_open_recovers dim d v rows torn key w :
  (0 < dim)%nat -> (Z.of_nat dim < 2 ^ 32)%Z -> length v = (rows * dim)%nat -> Forall is_f32 v ->
  (length torn < row_stride dim)%nat -> w_faults w = [] ->
  object w key = Some (file_bytes dim d v torn) ->
  exists s w', data_open_with (ApFile key) dim d tt w = (Ret s, tt, w') /\
    seg_ok v s w' /\ seg_row_count s = rows /\
    object w' key = Some (file_bytes dim d v []).
Proof.
  intros Hd Hd32 Hlen Hf Htorn Hw Ho.
  assert (wp (data_open_with (ApFile key) dim d)
    (fun s _ w' => seg_ok v s w' /\ seg_row_count s = rows /\
       object w' key = Some (file_bytes dim d v [])) (fun _ _ _ => False) tt w) as Hwp.
  { by apply (wp_data_open dim d v rows torn). }
  unfold wp in Hwp. destruct (data_open_with _ _ _ tt w) as [[[s|e|] []] w'] eqn:Eo; [|done..].
  exists s, w'. split; [done|]. exact Hwp.
Qed.

(** ** A concrete segment: two rows and three bytes of a third *)

Section example.
Definition ex_vectors : list f32 := [1065353216; 0; 1073741824; 3212836864]%Z.
Definition ex_segment : bytes := file_bytes 2 Cosine ex_vectors [1; 2; 3]%Z.
Definition ex_disk : World :=
  {| w_kind := LocalFs; w_objects := {[lit "data" := (ex_segment, 0%N)]}; w_next := 1;
     w_faults := []; w_clock := [] |}.

Lemma header_roundtrip_witness :
  header_from_bytes (encode_header 1536 DotProduct ++ [7%Z]) = Ok (1536%nat, DotProduct).
Proof. apply header_roundtrip. by vm_compute. Defined.

Lemma data_open_recovers_witness :
  exists s w', data_open_with (ApFile (lit "data")) 2 Cosine tt ex_disk = (Ret s, tt, w') /\
    seg_ok ex_vectors s w' /\ seg_row_count s = 2%nat /\
    object w' (lit "data") = Some (file_bytes 2 Cosine ex_vectors []).
Proof.
  apply (data_open_recovers 2 Cosine ex_vectors 2 [1; 2; 3]%Z).
  - lia.
  - lia.
  - reflexivity.
  - repeat (apply Forall_cons; split; [by vm_compute|]). apply Forall_nil. done.
  - cbn. lia.
  - reflexivity.
  - reflexivity.
Defined.
End example.
