(* ===== verification/IndexCache.v ===== *)
(** * IndexCache: the framing of derived objects and of checksum sidecars
    ([src/src/index_cache.rs], [src/src/data/checksum.rs])

    A cache object is [magic | version | watermark | key length | key | payload
    | crc32]; anything unexpected makes it absent.  A checksum sidecar is such
    an object with the segment's [crc32] as payload and the number of rows
    covered as watermark. *)
From S2P Require Import Prelude Floats Model Backend Codec Data.

(** ** UTF-8, for the bytes of a key *)
Definition utf8_char (c : char) : bytes :=
  let z := Z.of_N c in
  (if z <? 128 then [z]
   else if z <? 2048 then [192 + z / 64; 128 + z mod 64]
   else if z <? 65536 then [224 + z / 4096; 128 + (z / 64) mod 64; 128 + z mod 64]
   else [240 + z / 262144; 128 + (z / 4096) mod 64; 128 + (z / 64) mod 64; 128 + z mod 64])%Z.
Definition as_bytes (s : rstring) : bytes := mjoin (map utf8_char s).

Definition CACHE_VERSION : Z := 1.
Definition FIXED : nat := 6 + 2 + 8 + 2.

Section cache.
Context `{Crc32}.

(** [frame]. *)
Definition cache_frame {A} `{Codec A} (key : bytes) (watermark : nat) (payload : A)
  : result err bytes :=
  (let? bs := enc_result payload in
   if (2 ^ 16 - 1 <? Z.of_nat (length key))%Z then Err EInvalid
   else Ok (MAGIC ++ to_le 2 CACHE_VERSION ++ to_le 8 (Z.of_nat watermark)
            ++ to_le 2 (Z.of_nat (length key)) ++ key ++ bs ++ to_le 4 (crc32 bs)))%res.

(** [decode]. *)
Definition cache_decode {A} `{Codec A} (bs key : bytes) : option (A * nat) :=
  if (length bs <? FIXED)%nat then None
  else if negb (bool_decide (take 6 bs = MAGIC)) ||
          negb (bool_decide (take 2 (drop 6 bs) = to_le 2 CACHE_VERSION)) then None
  else
    let watermark := Z.to_nat (from_le (take 8 (drop 8 bs))) in
    let key_len := Z.to_nat (from_le (take 2 (drop 16 bs))) in
    let header_len := (FIXED + key_len)%nat in
    if (length bs <? header_len + 4)%nat then None
    else if negb (bool_decide (take key_len (drop FIXED bs) = key)) then None
    else
      let payload := take (length bs - 4 - header_len) (drop header_len bs) in
      let stored_crc := from_le (drop (length bs - 4) bs) in
      if negb (crc32 payload =? stored_crc)%Z then None
      else (fun a => (a, watermark)) <$> dec payload.

Context {X : Type}.

Definition cache_save {A} `{Codec A} (object : rstring) (key : bytes) (watermark : nat)
    (payload : A) : M X unit :=
  (let* buf := of_result (cache_frame key watermark payload) in p_put object buf)%m.

Definition cache_load {A} `{Codec A} (object : rstring) (key : bytes) : M X (option (A * nat)) :=
  (let* o := p_get object in
   match o with
   | Some bs => ret (cache_decode bs key)
   | None => ret None
   end)%m.
End cache.

Section cache_laws.
Context `{!Crc32} `{!Crc32Laws} {A : Type} `{!Codec A} `{!CodecLaws A}.

(** a cache object is read back only as what was saved: with the key it
    was saved under the payload and the watermark come back, and with any
    other key of the same length nothing does. *)
Theorem cache_roundtrip (key key' : bytes) (watermark : nat) (payload : A) bs :
  (Z.of_nat watermark < 2 ^ 64)%Z -> length key' = length key ->
  cache_frame key watermark payload = Ok bs ->
  cache_decode bs key' = if decide (key' = key) then Some (payload, watermark) else None.
Proof.
  intros Hw Hk'. unfold cache_frame, enc_result. destruct (enc payload) as [p|] eqn:Ep; [|done].
  cbn [res_bind]. destruct (_ <? _)%Z eqn:Ek; [done|]. intros [= Hbs]. bdestr.
  set (tail := key ++ p ++ to_le 4 (crc32 p)) in *.
  assert (bs = MAGIC ++ to_le 2 CACHE_VERSION ++ to_le 8 (Z.of_nat watermark)
            ++ to_le 2 (Z.of_nat (length key)) ++ tail) as Ebs by (by rewrite <- Hbs).
  clear Hbs. unfold cache_decode.
  assert (length bs = FIXED + length key + length p + 4)%nat as Lb.
  { rewrite Ebs. unfold tail, FIXED. rewrite !length_app, !length_to_le. simpl. lia. }
  rewrite (proj2 (Nat.ltb_ge _ _)) by (rewrite Lb; lia).
  assert (take 6 bs = MAGIC) as -> by (by rewrite Ebs; apply take_app_length').
  assert (take 2 (drop 6 bs) = to_le 2 CACHE_VERSION) as ->.
  { rewrite Ebs.  rewrite (drop_app_length' MAGIC) by done. by apply take_app_length'. }
  rewrite !bool_decide_eq_true_2 by done. cbn [negb orb].
  assert (drop 8 bs = to_le 8 (Z.of_nat watermark) ++ to_le 2 (Z.of_nat (length key)) ++ tail) as D8.
  { rewrite Ebs.  rewrite (app_assoc MAGIC). by apply drop_app_length'. }
  assert (drop 16 bs = to_le 2 (Z.of_nat (length key)) ++ tail) as D16.
  { change 16%nat with (8 + 8)%nat. rewrite <- drop_drop, D8. apply drop_app_length'.
    by rewrite length_to_le. }
  assert (drop FIXED bs = tail) as D18.
  { change FIXED with (16 + 2)%nat. rewrite <- drop_drop, D16. apply drop_app_length'.
    by rewrite length_to_le. }
  rewrite D8, D16, D18.
  rewrite (take_app_length' _ _ 8), (take_app_length' _ _ 2) by (by rewrite length_to_le).
  rewrite !from_to_le by (split; [lia|]; change (256 ^ Z.of_nat 8)%Z with (2 ^ 64)%Z;
    change (256 ^ Z.of_nat 2)%Z with (2 ^ 16)%Z; lia).
  rewrite !Nat2Z.id.
  rewrite (proj2 (Nat.ltb_ge _ _)) by (rewrite Lb; lia).
  assert (take (length key) tail = key) as -> by apply take_app_length.
  destruct (decide (key' = key)) as [->|Hne]; cycle 1.
  { rewrite bool_decide_eq_false_2 by congruence. done. }
  rewrite bool_decide_eq_true_2 by done. cbn [negb].
  assert (drop (FIXED + length key) bs = p ++ to_le 4 (crc32 p)) as DK.
  { rewrite <- drop_drop, D18. unfold tail. apply drop_app_length. }
  rewrite DK. replace (length bs - 4 - (FIXED + length key))%nat with (length p) by lia.
  assert (take (length p) (p ++ to_le 4 (crc32 p)) = p) as -> by apply take_app_length.
  assert (drop (length bs - 4) bs = to_le 4 (crc32 p)) as ->.
  { replace (length bs - 4)%nat with (FIXED + length key + length p)%nat by lia.
    rewrite <- drop_drop, DK. apply drop_app_length. }
  rewrite from_to_le by apply crc32_range. rewrite Z.eqb_refl. cbn [negb].
  by rewrite (dec_enc_exact payload p Ep).
Qed.
End cache_laws.

(** ** Checksum sidecars *)

Section checksum.
Context `{Crc32} `{Codec Z}.

(** [format!("{segment}.crc")]. *)
Definition crc_object_name (segment : rstring) : rstring := segment ++ lit ".crc".

Definition checksum_key (segment : rstring) (dim : nat) (distance : Distance) : bytes :=
  to_le 4 (dim_u32 dim) ++ [distance_to_byte distance] ++ as_bytes segment.

(** [compute]: the incremental hasher gives the hash of the bytes in order. *)
Definition checksum_compute (rows : nat) : M DataSegment Z :=
  (let* s := get_st in
   let total := (rows * row_stride (sg_dimension s))%nat in
   match sg_backing s, sg_appender s with
   | Mmap map mapped_rows, _ =>
       if (mapped_rows <? rows)%nat then throw EInvalid
       else ret (crc32 (take total (drop HEADER_LEN map)))
   | Ram _, None => throw EInvalid
   | Ram _, Some ap =>
       let* r := with_appender ap (read_stream HEADER_LEN total) in
       do* modify (set_appender r.2) in
       ret (crc32 r.1)
   end)%m.

Definition checksum_save {X} (segment : rstring) (key : bytes) (rows : nat) (crc : Z) : M X unit :=
  cache_save (crc_object_name segment) key rows crc.

Definition checksum_load {X} (segment : rstring) (key : bytes) : M X (option (Z * nat)) :=
  cache_load (crc_object_name segment) key.

Inductive SegmentIntegrity :=
| IntegrityOk (rows_covered rows_total : nat)
| IntegrityMismatch (rows_covered : nat) (expected actual : Z)
| NoChecksum (rows_total : nat).

Definition checksum_verify (segment : rstring) (key : bytes) : M DataSegment SegmentIntegrity :=
  (let* rows_total := gets seg_row_count in
   let* o := checksum_load segment key in
   match o with
   | None => ret (NoChecksum rows_total)
   | Some (expected, rows_covered) =>
       if (rows_total <? rows_covered)%nat then throw ECorrupt
       else
         let* actual := checksum_compute rows_covered in
         ret (if (actual =? expected)%Z then IntegrityOk rows_covered rows_total
              else IntegrityMismatch rows_covered expected actual)
   end)%m.
End checksum.

(** ** A concrete cache object *)

Section example.
Import ToyCodec.

Lemma cache_roundtrip_witness :
  exists bs, cache_frame [1; 2]%Z 40 (7 : Z) = Ok bs /\
    cache_decode bs [1; 2]%Z = Some (7%Z, 40%nat) /\ cache_decode (A := Z) bs [1; 3]%Z = None.
Proof.
  destruct (cache_frame [1; 2]%Z 40 (7 : Z)) as [bs|e] eqn:E; [|by vm_compute in E].
  exists bs. split; [done|]. split.
  - by apply (cache_roundtrip [1; 2]%Z [1; 2]%Z 40 (7 : Z)).
  - by apply (cache_roundtrip [1; 2]%Z [1; 3]%Z 40 (7 : Z)).
Defined.
End example.
