(* ===== verification/Manifest.v ===== *)
(** * Manifest: the commit point and its history
    ([src/src/manifest/mod.rs], [src/src/manifest/history.rs])

    The manifest object names the live segments and carries the recorded open
    profile and the aliases; a history entry records one published commit
    point.  Both are checked frames with versioned payloads: an older payload
    is told apart by decoding its leading fields first. *)
From S2P Require Import Prelude Floats Model Backend Codec.

Definition MANIFEST_KEY : rstring := lit "manifest".
Definition BASE_SEGMENT : rstring := lit "data".
Definition FORMAT_VERSION : N := 3.

Record ManifestV1 := {
  m1_format_version : N;
  m1_dimension : nat;
  m1_distance : Distance;
  m1_segments : list rstring;
  m1_next_id : N;
  m1_version : N
}.

Record ManifestV2 := {
  m2_v1 : ManifestV1;
  m2_profile : OpenProfile
}.

Record Manifest := {
  mf_format_version : N;
  mf_dimension : nat;
  mf_distance : Distance;
  mf_segments : list rstring;
  mf_next_id : N;
  mf_version : N;
  mf_profile : OpenProfile;
  mf_aliases : gmap rstring rstring
}.

(** The leading fields. *)
Definition manifest_v1 (m : Manifest) : ManifestV1 :=
  {| m1_format_version := mf_format_version m; m1_dimension := mf_dimension m;
     m1_distance := mf_distance m; m1_segments := mf_segments m; m1_next_id := mf_next_id m;
     m1_version := mf_version m |}.

Definition lift_v1 (v1 : ManifestV1) (profile : OpenProfile) (aliases : gmap rstring rstring)
  : Manifest :=
  {| mf_format_version := m1_format_version v1; mf_dimension := m1_dimension v1;
     mf_distance := m1_distance v1; mf_segments := m1_segments v1; mf_next_id := m1_next_id v1;
     mf_version := m1_version v1; mf_profile := profile; mf_aliases := aliases |}.

(** [Manifest::fresh], [Manifest::new]. *)
Definition Manifest_new (dimension : nat) (distance : Distance) (segments : list rstring)
    (next_id version : N) (profile : OpenProfile) : Manifest :=
  {| mf_format_version := FORMAT_VERSION; mf_dimension := dimension; mf_distance := distance;
     mf_segments := segments; mf_next_id := next_id; mf_version := version;
     mf_profile := profile; mf_aliases := ∅ |}.

Definition Manifest_fresh (dimension : nat) (distance : Distance) : Manifest :=
  {| mf_format_version := FORMAT_VERSION; mf_dimension := dimension; mf_distance := distance;
     mf_segments := [BASE_SEGMENT]; mf_next_id := 1; mf_version := 1;
     mf_profile := OpenProfile_default; mf_aliases := ∅ |}.

Definition set_aliases (a : gmap rstring rstring) (m : Manifest) : Manifest :=
  {| mf_format_version := mf_format_version m; mf_dimension := mf_dimension m;
     mf_distance := mf_distance m; mf_segments := mf_segments m; mf_next_id := mf_next_id m;
     mf_version := mf_version m; mf_profile := mf_profile m; mf_aliases := a |}.

Section manifest.
Context `{Crc32} `{Codec ManifestV1} `{Codec ManifestV2} `{Codec Manifest}.

Definition manifest_encode (m : Manifest) : result err bytes := encode_frame m.

Definition manifest_decode (bs : bytes) : result err Manifest :=
  (let? payload := checked_payload bs in
   let? v1 := dec_result (A := ManifestV1) payload in
   if (m1_format_version v1 =? 1)%N then Ok (lift_v1 v1 OpenProfile_default ∅)
   else if (m1_format_version v1 =? 2)%N then
     let? v2 := dec_result (A := ManifestV2) payload in
     Ok (lift_v1 (m2_v1 v2) (m2_profile v2) ∅)
   else if (m1_format_version v1 =? 3)%N then dec_result (A := Manifest) payload
   else Err ECorrupt)%res.

Definition manifest_load {X} : M X (option Manifest) :=
  (let* o := p_get MANIFEST_KEY in
   match o with
   | Some bs => let* m := of_result (manifest_decode bs) in ret (Some m)
   | None => ret None
   end)%m.

Definition manifest_store {X} (m : Manifest) : M X unit :=
  (let* bs := of_result (manifest_encode m) in p_put MANIFEST_KEY bs)%m.
End manifest.

Definition validate_alias (name target : rstring) (existing : gmap rstring rstring)
  : result err unit :=
  if bool_decide (name = []) then Err EInvalid
  else if bool_decide (name = target) then Err EInvalid
  else if bool_decide (is_Some (existing !! target)) then Err EInvalid
  else Ok tt.

(** ** Decimal formatting *)

(** The number of decimal digits; [fuel] bits are enough. *)
Fixpoint ndigits (fuel : nat) (n : N) : nat :=
  match fuel with
  | O => 1
  | S fuel' => if (n <? 10)%N then 1 else S (ndigits fuel' (n / 10))
  end.

(** The low [width] digits. *)
Fixpoint pad_digits (width : nat) (n : N) : rstring :=
  match width with
  | O => []
  | S w => pad_digits w (n / 10) ++ [48 + n mod 10]%N
  end.

(** [format!("{n:0width$}")]. *)
Definition fmt_pad (width : nat) (n : N) : rstring :=
  pad_digits (Nat.max width (ndigits (N.size_nat n) n)) n.

Definition is_ascii_digit (c : char) : bool := ((48 <=? c) && (c <=? 57))%N.

Definition parse_digits (ds : rstring) : N := foldl (fun acc c => acc * 10 + (c - 48))%N 0%N ds.

(** [digits.parse::<u64>().ok()] on a non-empty string of digits. *)
Definition parse_u64 (digits : rstring) : option N :=
  let n := parse_digits digits in
  if (n <? 2 ^ 64)%N then Some n else None.

(** ** History *)

Definition HIST_FORMAT_VERSION : N := 2.
Definition HIST_PREFIX : rstring := lit "hist-".
Definition FLOOR_KEY : rstring := lit "hist-floor".

Record HistoryEntryV1 := {
  h1_format_version : N;
  h1_version : N;
  h1_dimension : nat;
  h1_distance : Distance;
  h1_segments : list rstring;
  h1_next_id : N;
  h1_row_count : nat;
  h1_log_offset : nat;
  h1_profile : OpenProfile;
  h1_commit_millis : N
}.

Record HistoryEntry := {
  he_v1 : HistoryEntryV1;
  he_aliases : gmap rstring rstring
}.

Record HistoryFloor := {
  hf_format_version : N;
  hf_oldest_readable : N
}.

(** [HistoryEntry::manifest]. *)
Definition entry_manifest (e : HistoryEntry) : Manifest :=
  set_aliases (he_aliases e)
    (Manifest_new (h1_dimension (he_v1 e)) (h1_distance (he_v1 e)) (h1_segments (he_v1 e))
       (h1_next_id (he_v1 e)) (h1_version (he_v1 e)) (h1_profile (he_v1 e))).

Definition entry_key (version : N) : rstring := HIST_PREFIX ++ fmt_pad 20 version.

Definition version_from_key (key : rstring) : option N :=
  if bool_decide (take (length HIST_PREFIX) key = HIST_PREFIX) then
    let digits := drop (length HIST_PREFIX) key in
    if negb (length digits =? 20)%nat || negb (forallb is_ascii_digit digits) then None
    else parse_u64 digits
  else None.

Section history.
Context `{Crc32} `{Codec HistoryEntryV1} `{Codec HistoryEntry} `{Codec HistoryFloor} {X : Type}.

Definition entry_decode (bs : bytes) : result err HistoryEntry :=
  (let? payload := checked_payload bs in
   let? v1 := dec_result (A := HistoryEntryV1) payload in
   if (h1_format_version v1 =? 1)%N then Ok {| he_v1 := v1; he_aliases := ∅ |}
   else if (h1_format_version v1 =? 2)%N then dec_result (A := HistoryEntry) payload
   else Err ECorrupt)%res.

Definition decode_frame {A} `{Codec A} (bs : bytes) : result err A :=
  (let? payload := checked_payload bs in dec_result payload)%res.

Definition floor_decode (bs : bytes) : result err HistoryFloor :=
  (let? floor := decode_frame (A := HistoryFloor) bs in
   if ((1 <=? hf_format_version floor) && (hf_format_version floor <=? HIST_FORMAT_VERSION))%N
   then Ok floor else Err ECorrupt)%res.

Definition load_entry (version : N) : M X (option HistoryEntry) :=
  (let* o := p_get (entry_key version) in
   match o with
   | Some bs => let* e := of_result (entry_decode bs) in ret (Some e)
   | None => ret None
   end)%m.

Definition load_floor : M X (option HistoryFloor) :=
  (let* o := p_get FLOOR_KEY in
   match o with
   | Some bs => let* f := of_result (floor_decode bs) in ret (Some f)
   | None => ret None
   end)%m.

Definition store_entry (entry : HistoryEntry) : M X unit :=
  (let* bs := of_result (encode_frame entry) in
   p_put (entry_key (h1_version (he_v1 entry))) bs)%m.

Definition store_floor (floor : HistoryFloor) : M X unit :=
  (let* bs := of_result (encode_frame floor) in p_put FLOOR_KEY bs)%m.

Definition delete_entry (version : N) : M X unit := p_delete (entry_key version).

Definition list_versions : M X (list N) :=
  (let* keys := p_list in ret (merge_sort N.le (omap version_from_key keys)))%m.
End history.

(** ** Decimal keys *)

Lemma length_pad_digits w n : length (pad_digits w n) = w.
Proof. revert n. induction w as [|w IH]; intros n; simpl; [done|]. rewrite length_app, IH. simpl. lia. Qed.

Lemma pad_digits_ascii w n : forallb is_ascii_digit (pad_digits w n) = true.
Proof.
  revert n. induction w as [|w IH]; intros n; [done|]. cbn [pad_digits].
  rewrite forallb_app, IH. cbn [forallb]. unfold is_ascii_digit.
  assert (n mod 10 < 10)%N as Hm by (by apply N.mod_lt). revert Hm. generalize (n mod 10)%N.
  intros m Hm. rewrite (proj2 (N.leb_le 48 (48 + m))), (proj2 (N.leb_le (48 + m) 57)) by lia. done.
Qed.

Lemma parse_pad_digits w n : parse_digits (pad_digits w n) = (n mod 10 ^ N.of_nat w)%N.
Proof.
  revert n. unfold parse_digits. induction w as [|w IH]; intros n; cbn [pad_digits].
  { by rewrite N.mod_1_r. }
  rewrite foldl_app, IH. cbn [foldl].
  rewrite Nat2N.inj_succ, N.pow_succ_r', N.Div0.mod_mul_r.
  generalize (n mod 10)%N, ((n / 10) mod 10 ^ N.of_nat w)%N. intros. lia.
Qed.

Lemma pad_parse_digits ds :
  forallb is_ascii_digit ds = true -> pad_digits (length ds) (parse_digits ds) = ds.
Proof.
  induction ds as [|c ds IH] using rev_ind; [done|]. rewrite forallb_app. cbn [forallb].
  intros [Hds [Hc _]%andb_prop]%andb_prop. rewrite length_app. cbn [length].
  replace (length ds + 1)%nat with (S (length ds)) by lia. cbn [pad_digits].
  unfold parse_digits in *. rewrite foldl_app. cbn [foldl].
  set (k := foldl _ _ ds) in *. unfold is_ascii_digit in Hc. bdestr.
  assert ((k * 10 + (c - 48)) / 10 = k)%N as -> by (symmetry; apply (N.div_unique _ _ _ (c - 48)); lia).
  assert ((k * 10 + (c - 48)) mod 10 = c - 48)%N as -> by (symmetry; apply (N.mod_unique _ _ k); lia).
  rewrite IH by done. do 2 f_equal. lia.
Qed.

Lemma ndigits_bound k : forall fuel n,
  (n < 10 ^ N.of_nat (S k))%N -> (ndigits fuel n <= S k)%nat.
Proof.
  induction k as [|k IH]; intros fuel n Hn; destruct fuel as [|fuel]; cbn [ndigits]; try lia.
  - destruct (n <? 10)%N eqn:E; bdestr; [lia|]. change (10 ^ N.of_nat 1)%N with 10%N in Hn. lia.
  - destruct (n <? 10)%N eqn:E; bdestr; [lia|]. apply le_n_S, IH.
    rewrite Nat2N.inj_succ, N.pow_succ_r' in Hn. by apply N.Div0.div_lt_upper_bound.
Qed.

Lemma fmt_pad_20 n : (n < 2 ^ 64)%N -> fmt_pad 20 n = pad_digits 20 n.
Proof.
  intros Hn. unfold fmt_pad. pose proof (ndigits_bound 19 (N.size_nat n) n) as Hd.
  rewrite Nat.max_l; [done|]. apply Hd. etrans; [exact Hn|]. by vm_compute.
Qed.

Lemma version_key_inv key v :
  version_from_key key = Some v -> key = entry_key v /\ (v < 2 ^ 64)%N.
Proof.
  unfold version_from_key. case_bool_decide as Hp; [|done]. cbv zeta.
  set (digits := drop (length HIST_PREFIX) key). rewrite <- (take_drop (length HIST_PREFIX) key), Hp.
  fold digits. clearbody digits.
  destruct (length digits =? 20)%nat eqn:El; [|done].
  destruct (forallb is_ascii_digit digits) eqn:Ed; [|done]. cbn [negb orb]. unfold parse_u64.
  cbv zeta. destruct (_ <? _)%N eqn:E64; [|done]. intros [= <-]. bdestr.
  split; [|done]. unfold entry_key. rewrite fmt_pad_20 by done. rewrite <- El.
  by rewrite pad_parse_digits.
Qed.

Lemma version_key_entry v : (v < 2 ^ 64)%N -> version_from_key (entry_key v) = Some v.
Proof.
  intros Hv. unfold version_from_key, entry_key. rewrite take_app_length, drop_app_length.
  rewrite bool_decide_eq_true_2 by done. cbv zeta. rewrite fmt_pad_20 by done.
  rewrite length_pad_digits, Nat.eqb_refl, pad_digits_ascii. cbn [negb orb]. unfold parse_u64.
  cbv zeta. rewrite parse_pad_digits.
  rewrite N.mod_small; [by rewrite (proj2 (N.ltb_lt _ _))|]. etrans; [exact Hv|]. by vm_compute.
Qed.

(** History keys: a key parses to a version exactly when it is that
    version's entry key, so distinct versions never share a key and the floor
    object, under the same prefix, is never taken for an entry. *)
Theorem version_key_spec key v :
  version_from_key key = Some v <-> key = entry_key v /\ (v < 2 ^ 64)%N.
Proof.
  split; [apply version_key_inv|]. intros [-> Hv]. by apply version_key_entry.
Qed.

(** the history listing is complete and sorted: it returns, once each and
    in ascending order, exactly the versions whose entry object exists; any
    other object of the store (the floor, the manifest, a segment) is left
    out. *)
Theorem list_versions_spec w :
  w_faults w = [] ->
  exists l, list_versions tt w = (Ret l, tt, w) /\ StronglySorted N.lt l /\
    forall v, v ∈ l <-> (v < 2 ^ 64)%N /\ is_Some (object w (entry_key v)).
Proof.
  intros Hw. unfold list_versions, bind, p_list, reads, backend_call, pop_fault. rewrite Hw.
  cbn [ret]. eexists. split; [done|].
  set (l := omap version_from_key (bt_keys (w_objects w))).
  assert (NoDup l) as Hnd.
  { unfold l. generalize (bt_keys_NoDup (w_objects w)). generalize (bt_keys (w_objects w)).
    intros ks. induction 1 as [|k ks Hk _ IH]; [constructor|]. cbn [omap list_omap].
    destruct (version_from_key k) as [v|] eqn:Ev; [|done]. constructor; [|done].
    intros (k' & Hk' & Ek')%list_elem_of_omap. apply version_key_inv in Ev as [-> _].
    apply version_key_inv in Ek' as [-> _]. done. }
  pose proof (merge_sort_Permutation N.le l) as Hp. split.
  - assert (Sorted N.le (merge_sort N.le l)) as Hs by apply (Sorted_merge_sort _ _).
    apply Sorted_StronglySorted in Hs; [|intros x y z ? ?; lia].
    assert (NoDup (merge_sort N.le l)) as Hnd' by (by rewrite Hp).
    revert Hs Hnd'. generalize (merge_sort N.le l). clear.
    induction 1 as [|x l _ IH Hx]; intros Hnd; [constructor|]. inversion_clear Hnd.
    constructor; [auto|]. rewrite Forall_forall in *. intros y Hy. specialize (Hx y Hy).
    assert (x <> y) by (intros ->; done). lia.
  - intros v. rewrite Hp. unfold l, object. rewrite list_elem_of_omap, fmap_is_Some, <- elem_of_bt_keys.
    split.
    + by intros (k & Hk & [-> Hv]%version_key_inv).
    + intros [Hv Hk]. exists (entry_key v). split; [done|]. by apply version_key_entry.
Qed.

(** ** Versions of the payload *)

Section versions.
Context `{!Crc32} `{!Crc32Laws}.
Context `{!Codec ManifestV1} `{!Codec ManifestV2} `{!Codec Manifest}
  `{!CodecLaws ManifestV1} `{!CodecLaws ManifestV2} `{!CodecLaws Manifest}
  `{!PrefixLaws m2_v1} `{!PrefixLaws manifest_v1}.

Lemma frame_payload `{!Codec A} (a : A) bs :
  encode_frame a = Ok bs -> exists payload, enc a = Some payload /\ checked_payload bs = Ok payload.
Proof.
  intros (p & Ep & ->)%encode_frame_payload. exists p. split; [done|]. apply checked_payload_frame.
Qed.

Lemma manifest_decode_v3 m bs :
  mf_format_version m = FORMAT_VERSION -> manifest_encode m = Ok bs -> manifest_decode bs = Ok m.
Proof.
  intros Hv (p & Ep & Hp)%frame_payload. unfold manifest_decode. rewrite Hp. cbn [res_bind].
  unfold dec_result. pose proof (dec_prefix manifest_v1 m p [] Ep) as Hd. rewrite app_nil_r in Hd.
  rewrite Hd. cbn [res_bind manifest_v1 m1_format_version]. rewrite Hv.
  change (FORMAT_VERSION =? 1)%N with false. change (FORMAT_VERSION =? 2)%N with false.
  change (FORMAT_VERSION =? 3)%N with true. cbn iota. by rewrite (dec_enc_exact m p Ep).
Qed.

(** every manifest version is read: a manifest of the current format comes
    back as written, and the frames of the two older formats are lifted, the
    fields they lack being empty. *)
Theorem manifest_versions bs :
  (forall m, mf_format_version m = FORMAT_VERSION -> manifest_encode m = Ok bs ->
     manifest_decode bs = Ok m) /\
  (forall v2, m1_format_version (m2_v1 v2) = 2%N -> encode_frame v2 = Ok bs ->
     manifest_decode bs = Ok (lift_v1 (m2_v1 v2) (m2_profile v2) ∅)) /\
  (forall v1, m1_format_version v1 = 1%N -> encode_frame v1 = Ok bs ->
     manifest_decode bs = Ok (lift_v1 v1 OpenProfile_default ∅)).
Proof.
  split_and!; [intros m; apply manifest_decode_v3|..].
  - intros v2 Hv (p & Ep & Hp)%frame_payload. unfold manifest_decode. rewrite Hp. cbn [res_bind].
    unfold dec_result. pose proof (dec_prefix m2_v1 v2 p [] Ep) as Hd. rewrite app_nil_r in Hd.
    rewrite Hd. cbn [res_bind]. rewrite Hv. cbn. by rewrite (dec_enc_exact v2 p Ep).
  - intros v1 Hv (p & Ep & Hp)%frame_payload. unfold manifest_decode. rewrite Hp. cbn [res_bind].
    unfold dec_result. rewrite (dec_enc_exact v1 p Ep). cbn [res_bind]. by rewrite Hv.
Qed.

(** What a reader sees in the world [w]. *)
Definition manifest_in (w : World) : option (result err Manifest) :=
  manifest_decode <$> object w MANIFEST_KEY.

Lemma wp_manifest_store {X} m R E (x : X) w :
  mf_format_version m = FORMAT_VERSION ->
  (forall w', touches [MANIFEST_KEY] w w' -> manifest_in w' = Some (Ok m) -> R tt x w') ->
  (forall e w', touches [MANIFEST_KEY] w w' ->
     manifest_in w' = manifest_in w \/ manifest_in w' = Some (Ok m) -> E e x w') ->
  wp (manifest_store m) R E x w.
Proof.
  intros Hv HR HE. unfold manifest_store. apply wp_bind, wp_of_result.
  - intros bs Hbs. pose proof (manifest_decode_v3 m bs Hv Hbs) as Hd. apply wp_p_put.
    + intros w' Ht Ho. apply HR; [done|]. unfold manifest_in. rewrite Ho. simpl. by rewrite Hd.
    + intros e w' Ht Ho. apply HE; [done|]. unfold manifest_in, object in *.
      destruct Ho as [->|Ho]; [by left|right]. rewrite Ho. simpl. by rewrite Hd.
  - intros e _. apply HE; [apply touches_refl|by left].
Qed.

(** publishing a manifest is atomic: however the write ends, a reader then
    sees the manifest it saw before or the new one, the new one if the write
    returned, and no other object has changed. *)
Theorem manifest_commit_atomic {X} m (x : X) w o x' w' :
  mf_format_version m = FORMAT_VERSION -> manifest_store m x w = (o, x', w') ->
  (manifest_in w' = manifest_in w \/ manifest_in w' = Some (Ok m)) /\
  (o = Ret tt -> manifest_in w' = Some (Ok m)) /\
  (forall key, key <> MANIFEST_KEY -> object w' key = object w key).
Proof.
  intros Hv Hs.
  assert (wp (manifest_store m) (fun _ _ w' => touches [MANIFEST_KEY] w w' /\
      manifest_in w' = Some (Ok m))
    (fun _ _ w' => touches [MANIFEST_KEY] w w' /\
      (manifest_in w' = manifest_in w \/ manifest_in w' = Some (Ok m))) x w) as Hwp
    by (apply wp_manifest_store; auto).
  pose proof (wp_elim _ _ _ _ _ _ _ _ Hwp Hs) as Hw.
  assert (touches [MANIFEST_KEY] w w') as Ht by (destruct o as [[]|e|]; tauto).
  split_and!.
  - destruct o as [[]|e|]; tauto.
  - intros ->. tauto.
  - intros key Hk. eapply touches_object; [done|]. by intros ->%list_elem_of_singleton.
Qed.
End versions.

Section history_versions.
Context `{!Crc32} `{!Crc32Laws} `{!Codec HistoryEntryV1} `{!Codec HistoryEntry}
  `{!CodecLaws HistoryEntryV1} `{!CodecLaws HistoryEntry} `{!PrefixLaws he_v1}.

(** History entries of both formats are read, the older one with no
    aliases; an entry names the manifest that was current when it was made. *)
Theorem entry_versions bs :
  (forall e, h1_format_version (he_v1 e) = HIST_FORMAT_VERSION -> encode_frame e = Ok bs ->
     entry_decode bs = Ok e) /\
  (forall v1, h1_format_version v1 = 1%N -> encode_frame v1 = Ok bs ->
     entry_decode bs = Ok {| he_v1 := v1; he_aliases := ∅ |}).
Proof.
  split.
  - intros e Hv (p & Ep & Hp)%frame_payload. unfold entry_decode. rewrite Hp. cbn [res_bind].
    unfold dec_result. pose proof (dec_prefix he_v1 e p [] Ep) as Hd. rewrite app_nil_r in Hd.
    rewrite Hd. cbn [res_bind]. rewrite Hv. cbn. by rewrite (dec_enc_exact e p Ep).
  - intros v1 Hv (p & Ep & Hp)%frame_payload. unfold entry_decode. rewrite Hp. cbn [res_bind].
    unfold dec_result. rewrite (dec_enc_exact v1 p Ep). cbn [res_bind]. by rewrite Hv.
Qed.
End history_versions.

(** ** Concrete codecs: leading fields, then the rest *)

Module ToyManifest.
Import ToyCodec.

#[export] Instance v1_eq_dec : EqDecision ManifestV1.
Proof. solve_decision. Defined.
#[export] Program Instance v1_countable : Countable ManifestV1 :=
  inj_countable' (A := N * nat * Distance * list rstring * N * N)
    (fun m => (m1_format_version m, m1_dimension m, m1_distance m, m1_segments m, m1_next_id m,
               m1_version m))
    (fun '(f, d, k, s, n, v) =>
       {| m1_format_version := f; m1_dimension := d; m1_distance := k; m1_segments := s;
          m1_next_id := n; m1_version := v |}) _.
Next Obligation. by intros []. Qed.

#[export] Instance v2_codec : Codec ManifestV2 := {|
  enc m := seq_enc (m2_v1 m, m2_profile m);
  dec bs := (fun r => {| m2_v1 := r.1; m2_profile := r.2 |}) <$> seq_dec bs
|}.
#[export] Instance v3_codec : Codec Manifest := {|
  enc m := seq_enc (manifest_v1 m, (mf_profile m, mf_aliases m));
  dec bs := (fun r => lift_v1 r.1 r.2.1 r.2.2) <$> seq_dec bs
|}.

#[export] Instance v2_laws : CodecLaws ManifestV2.
Proof. intros [v p] bs rest E. unfold dec, v2_codec. by rewrite (seq_dec_enc _ _ _ E). Qed.
#[export] Instance v3_laws : CodecLaws Manifest.
Proof. intros [] bs rest E. unfold dec, v3_codec. by rewrite (seq_dec_enc _ _ _ E). Qed.
#[export] Instance v2_prefix : PrefixLaws m2_v1.
Proof.
  intros m bs (b1 & E1 & (b2 & E2 & [= <-])%bind_Some)%bind_Some. by exists b1, b2.
Qed.
#[export] Instance v3_prefix : PrefixLaws manifest_v1.
Proof.
  intros m bs (b1 & E1 & (b2 & E2 & [= <-])%bind_Some)%bind_Some. by exists b1, b2.
Qed.

#[export] Instance h1_eq_dec : EqDecision HistoryEntryV1.
Proof. solve_decision. Defined.
#[export] Program Instance h1_countable : Countable HistoryEntryV1 :=
  inj_countable' (A := N * N * nat * Distance * list rstring * N * nat * nat * OpenProfile * N)
    (fun h => (h1_format_version h, h1_version h, h1_dimension h, h1_distance h, h1_segments h,
               h1_next_id h, h1_row_count h, h1_log_offset h, h1_profile h, h1_commit_millis h))
    (fun '(f, v, d, k, s, n, r, l, p, c) =>
       {| h1_format_version := f; h1_version := v; h1_dimension := d; h1_distance := k;
          h1_segments := s; h1_next_id := n; h1_row_count := r; h1_log_offset := l;
          h1_profile := p; h1_commit_millis := c |}) _.
Next Obligation. by intros []. Qed.
#[export] Instance entry_codec : Codec HistoryEntry := {|
  enc e := seq_enc (he_v1 e, he_aliases e);
  dec bs := (fun r => {| he_v1 := r.1; he_aliases := r.2 |}) <$> seq_dec bs
|}.
#[export] Instance entry_laws : CodecLaws HistoryEntry.
Proof. intros [v p] bs rest E. unfold dec, entry_codec. by rewrite (seq_dec_enc _ _ _ E). Qed.
#[export] Instance entry_prefix : PrefixLaws he_v1.
Proof.
  intros m bs (b1 & E1 & (b2 & E2 & [= <-])%bind_Some)%bind_Some. by exists b1, b2.
Qed.

#[export] Instance floor_eq_dec : EqDecision HistoryFloor.
Proof. solve_decision. Defined.
#[export] Program Instance floor_countable : Countable HistoryFloor :=
  inj_countable' (A := N * N) (fun f => (hf_format_version f, hf_oldest_readable f))
    (fun '(f, o) => {| hf_format_version := f; hf_oldest_readable := o |}) _.
Next Obligation. by intros []. Qed.
End ToyManifest.

Section example.
Import ToyCodec ToyManifest.

Definition ex_manifest : Manifest :=
  set_aliases {[lit "live" := lit "docs"]} (Manifest_fresh 3 Euclidean).
Definition ex_manifest_v2 : ManifestV2 :=
  {| m2_v1 := {| m1_format_version := 2; m1_dimension := 3; m1_distance := Cosine;
                 m1_segments := [BASE_SEGMENT]; m1_next_id := 1; m1_version := 4 |};
     m2_profile := {| op_ann := None; op_quantization := None; op_query_threads := Some 2%nat;
                      op_mmap := Some true |} |}.

Lemma list_versions_spec_witness :
  let w := {| w_kind := LocalFs;
              w_objects := {[entry_key 12 := ([], 0%N); FLOOR_KEY := ([], 1%N);
                             entry_key 7 := ([], 2%N)]};
              w_next := 3; w_faults := []; w_clock := [] |} in
  exists l, list_versions tt w = (Ret l, tt, w) /\ StronglySorted N.lt l /\
    forall v, v ∈ l <-> (v < 2 ^ 64)%N /\ is_Some (object w (entry_key v)).
Proof. apply list_versions_spec. reflexivity. Defined.

Lemma manifest_versions_witness :
  (exists bs, manifest_encode ex_manifest = Ok bs /\ manifest_decode bs = Ok ex_manifest) /\
  (exists bs, encode_frame ex_manifest_v2 = Ok bs /\
     manifest_decode bs = Ok (lift_v1 (m2_v1 ex_manifest_v2) (m2_profile ex_manifest_v2) ∅)) /\
  (exists bs, encode_frame (m2_v1 ex_manifest_v2) = Ok bs).
Proof.
  split_and!.
  - destruct (manifest_encode ex_manifest) as [bs|e] eqn:E; [|by vm_compute in E].
    exists bs. split; [done|]. by apply (manifest_versions bs).
  - destruct (encode_frame ex_manifest_v2) as [bs|e] eqn:E; [|by vm_compute in E].
    exists bs. split; [done|]. by apply (manifest_versions bs).
  - destruct (encode_frame (m2_v1 ex_manifest_v2)) as [bs|e] eqn:E; [|by vm_compute in E].
    by exists bs.
Defined.

Lemma manifest_commit_atomic_witness :
  let w := {| w_kind := LocalFs; w_objects := ∅; w_next := 3; w_faults := [Fails Whole];
              w_clock := [] |} in
  exists w', manifest_store ex_manifest tt w = (Fail EIo, tt, w') /\
    (manifest_in w' = manifest_in w \/ manifest_in w' = Some (Ok ex_manifest)) /\
    (@Fail unit EIo = Ret tt -> manifest_in w' = Some (Ok ex_manifest)) /\
    (forall key, key <> MANIFEST_KEY -> object w' key = object w key).
Proof.
  intros w. destruct (manifest_store ex_manifest tt w) as [[o []] w'] eqn:E.
  assert (o = Fail EIo) as -> by (vm_compute in E; by injection E).
  exists w'. split; [done|]. by apply (manifest_commit_atomic ex_manifest tt w (Fail EIo) tt w').
Defined.

Lemma entry_versions_witness :
  let e := {| he_v1 := {| h1_format_version := 2; h1_version := 9; h1_dimension := 3;
                          h1_distance := Cosine; h1_segments := [BASE_SEGMENT]; h1_next_id := 1;
                          h1_row_count := 5; h1_log_offset := 120;
                          h1_profile := OpenProfile_default; h1_commit_millis := 7 |};
              he_aliases := {[lit "live" := lit "docs"]} |} in
  exists bs, encode_frame e = Ok bs /\ entry_decode bs = Ok e.
Proof.
  intros e. destruct (encode_frame e) as [bs|er] eqn:E; [|by vm_compute in E].
  exists bs. split; [done|]. by apply (entry_versions bs).
Defined.
End example.
