(* ===== verification/Segments.v ===== *)
(** * Segments: the live segment set as one vector matrix
    ([src/src/data/segments.rs])

    The segments named by the manifest are addressed as one row space; the last
    is the active one.  The list is never empty; where the code indexes it the
    model reads a default that the invariant [segments_ok] rules out. *)
From S2P Require Import Prelude Floats Model Backend Codec Data IndexCache Manifest.

Record Seg := {
  sn_name : rstring;
  sn_data : DataSegment
}.

Record Segments := {
  ss_distance : Distance;
  ss_persistence : bool;    (* [persistence.is_some()] *)
  ss_segs : list Seg;
  ss_base : list nat;
  ss_next_id : N;
  ss_version : N;
  ss_cas : bool
}.

Definition set_segs (l : list Seg) (ss : Segments) : Segments :=
  {| ss_distance := ss_distance ss; ss_persistence := ss_persistence ss; ss_segs := l;
     ss_base := ss_base ss; ss_next_id := ss_next_id ss; ss_version := ss_version ss;
     ss_cas := ss_cas ss |}.
Definition set_version (v : N) (ss : Segments) : Segments :=
  {| ss_distance := ss_distance ss; ss_persistence := ss_persistence ss; ss_segs := ss_segs ss;
     ss_base := ss_base ss; ss_next_id := ss_next_id ss; ss_version := v; ss_cas := ss_cas ss |}.

Definition seg_default : Seg :=
  {| sn_name := BASE_SEGMENT; sn_data := data_in_memory_with 0 Cosine |}.
Definition seg_at (i : nat) (ss : Segments) : Seg := default seg_default (ss_segs ss !! i).
Definition base_at (i : nat) (ss : Segments) : nat := default 0%nat (ss_base ss !! i).
Definition last_index (ss : Segments) : nat := length (ss_segs ss) - 1.
Definition active (ss : Segments) : Seg := seg_at (last_index ss) ss.

Definition put_data (d : DataSegment) (s : Seg) : Seg := {| sn_name := sn_name s; sn_data := d |}.

(** Run a segment operation on [segs[i].data]. *)
Definition zoom_seg {A} (i : nat) (m : M DataSegment A) : M Segments A :=
  zoom (fun ss => sn_data (seg_at i ss))
    (fun d ss => set_segs (alter (put_data d) i (ss_segs ss)) ss) m.

(** Run a segment operation on a segment held in a local variable. *)
Definition with_seg {X A} (d : DataSegment) (m : M DataSegment A) : M X (A * DataSegment) :=
  fun x w =>
    match m d w with
    | (Ret a, d', w') => (Ret (a, d'), x, w')
    | (Fail e, _, w') => (Fail e, x, w')
    | (Dead, _, w') => (Dead, x, w')
    end.

Definition segments_dimension (ss : Segments) : nat := sg_dimension (sn_data (seg_at 0 ss)).
Definition segments_row_count (ss : Segments) : nat :=
  (base_at (last_index ss) ss + seg_row_count (sn_data (active ss)))%nat.
Definition active_rows (ss : Segments) : nat := seg_row_count (sn_data (active ss)).
Definition bump_version (ss : Segments) : Segments := set_version (ss_version ss + 1) ss.
Definition segment_names (ss : Segments) : list rstring := map sn_name (ss_segs ss).
Definition segment_ranges (ss : Segments) : list (nat * nat) :=
  imap (fun i s => (base_at i ss, seg_row_count (sn_data s))) (ss_segs ss).
Definition segment_names_match (names : list rstring) (ss : Segments) : bool :=
  (length (ss_segs ss) =? length names)%nat &&
  forallb (fun p => bool_decide (sn_name p.1 = p.2)) (zip (ss_segs ss) names).

(** [binary_search] on a strictly increasing slice. *)
Definition binary_search (base : list nat) (x : nat) : result nat nat :=
  match list_find (fun b => b = x) base with
  | Some (i, _) => Ok i
  | None => Err (length (filter (fun b => b < x)%nat base))
  end.

Definition segments_row (global : nat) (ss : Segments) : list f32 :=
  if (length (ss_segs ss) =? 1)%nat then seg_row (sn_data (seg_at 0 ss)) global
  else
    let i := match binary_search (ss_base ss) global with Ok i => i | Err i => (i - 1)%nat end in
    seg_row (sn_data (seg_at i ss)) (global - base_at i ss).

Definition segments_vectors (ss : Segments) : list f32 :=
  if (length (ss_segs ss) =? 1)%nat then seg_vectors (sn_data (seg_at 0 ss))
  else foldl (fun all seg => all ++ seg_vectors (sn_data seg)) [] (ss_segs ss).

Definition segments_manifest (profile : OpenProfile) (ss : Segments) : Manifest :=
  Manifest_new (segments_dimension ss) (ss_distance ss) (segment_names ss) (ss_next_id ss)
    (ss_version ss) profile.

Definition segments_in_memory_with (dimension : nat) (distance : Distance) : Segments :=
  {| ss_distance := distance; ss_persistence := false;
     ss_segs := [{| sn_name := BASE_SEGMENT; sn_data := data_in_memory_with dimension distance |}];
     ss_base := [0%nat]; ss_next_id := 1; ss_version := 1; ss_cas := false |}.

(** The seal's object name, [format!("seg-{:08}", next_id)]. *)
Definition sealed_name (next_id : N) : rstring := lit "seg-" ++ fmt_pad 8 next_id.

Section opening.
Context {X : Type}.

(** [local_path] answers for local files with a well-formed name. *)
Definition local_path (key : rstring) : M X bool := fun x w =>
  (Ret (has_native_lock w && is_ok (validate_key key)), x, w).

(** The closure [tally]: the bytes counted so far, refused past [cap]. *)
Definition tally (cap : option nat) (acc seg_bytes : nat) : result err nat :=
  match cap with
  | None => Ok acc
  | Some cap =>
      let acc := (acc + seg_bytes)%nat in
      if (cap <? acc)%nat then Err ELimit else Ok acc
  end.

Definition open_one (dimension : nat) (distance : Distance) (cap : option nat) (mmap cas : bool)
    (is_active : bool) (acc_bytes : nat) (name : rstring) : M X (DataSegment * nat) :=
  (let* mappable := local_path name in
   if mmap && negb is_active && mappable then
     let* data := data_open_mmap name dimension distance in
     let* acc := of_result (tally cap acc_bytes (seg_row_count data * dimension * 4)) in
     ret (data, acc)
   else
     let* ap := appender_for name cas in
     let* la := with_appender ap ap_len in
     let* acc := of_result (tally cap acc_bytes (la.1 - HEADER_LEN)) in
     let* data := data_open_with la.2 dimension distance in
     ret (data, acc))%m.

Fixpoint open_all (dimension : nat) (distance : Distance) (cap : option nat) (mmap cas : bool)
    (names : list rstring) (acc_bytes acc_rows : nat) (segs : list Seg) (base : list nat)
  : M X (list Seg * list nat) :=
  match names with
  | [] => ret (segs, base)
  | name :: names' =>
      (let* da := open_one dimension distance cap mmap cas (bool_decide (names' = [])) acc_bytes name in
       open_all dimension distance cap mmap cas names' da.2 (acc_rows + seg_row_count da.1)
         (segs ++ [{| sn_name := name; sn_data := da.1 |}]) (base ++ [acc_rows]))%m
  end.

Definition segments_open (manifest : Manifest) (cap : option nat) (mmap cas : bool) : M X Segments :=
  (if bool_decide (mf_segments manifest = []) then throw ECorrupt
   else
     let* sb := open_all (mf_dimension manifest) (mf_distance manifest) cap mmap cas
                  (mf_segments manifest) 0 0 [] [] in
     ret {| ss_distance := mf_distance manifest; ss_persistence := true; ss_segs := sb.1;
            ss_base := sb.2; ss_next_id := mf_next_id manifest;
            ss_version := mf_version manifest; ss_cas := cas |})%m.
End opening.

(** [reopen_active]: the fresh active segment and the row count it implies. *)
Definition reopen_active {X} (cap : option nat) (ss : Segments) : M X (DataSegment * nat) :=
  (let last := last_index ss in
   let dim := segments_dimension ss in
   let* ap := appender_for (sn_name (seg_at last ss)) false in
   let* data := data_open_with ap dim (ss_distance ss) in
   let row_count := (base_at last ss + seg_row_count data)%nat in
   match cap with
   | Some cap => if (cap <? row_count * dim * 4)%nat then throw ELimit else ret (data, row_count)
   | None => ret (data, row_count)
   end)%m.

Definition install_active (data : DataSegment) (version : N) (ss : Segments) : Segments :=
  set_version version (set_segs (alter (put_data data) (last_index ss) (ss_segs ss)) ss).

Definition segments_append (vector : list f32) : M Segments nat :=
  (let* ss := get_st in
   let last := last_index ss in
   let base := base_at last ss in
   let* local := zoom_seg last (data_append vector) in
   ret (base + local)%nat)%m.

Definition segments_truncate_to (rows : nat) : M Segments unit :=
  (let* ss := get_st in
   let last := last_index ss in
   let base := base_at last ss in
   if (rows <? base)%nat then throw EInvalid
   else zoom_seg last (data_truncate_to (rows - base)))%m.

Definition segments_sync : M Segments unit :=
  (let* ss := get_st in zoom_seg (last_index ss) data_sync)%m.

Section sealing.
Context `{Crc32} `{Codec Z}.

(** Compute and save the sidecar of [segs[i]]. *)
Definition stamp_checksum (i : nat) (name : rstring) : M Segments unit :=
  (let* ss := get_st in
   let rows := seg_row_count (sn_data (seg_at i ss)) in
   let key := checksum_key name (segments_dimension ss) (ss_distance ss) in
   let* crc := zoom_seg i (checksum_compute rows) in
   checksum_save name key rows crc)%m.

Definition segments_seal : M Segments bool :=
  (let* ss := get_st in
   if (active_rows ss =? 0)%nat then ret false
   else
     let new_base := segments_row_count ss in
     let name := sealed_name (ss_next_id ss) in
     let* data :=
       (if ss_persistence ss then
          let* ap := appender_for name (ss_cas ss) in
          let* d := data_open_with ap (segments_dimension ss) (ss_distance ss) in
          let* r := with_seg d data_sync in
          ret r.2
        else ret (data_in_memory_with (segments_dimension ss) (ss_distance ss))) in
     do* when (ss_persistence ss)
           (stamp_checksum (last_index ss) (sn_name (seg_at (last_index ss) ss))) in
     do* modify (fun ss =>
           {| ss_distance := ss_distance ss; ss_persistence := ss_persistence ss;
              ss_segs := ss_segs ss ++ [{| sn_name := name; sn_data := data |}];
              ss_base := ss_base ss ++ [new_base]; ss_next_id := (ss_next_id ss + 1)%N;
              ss_version := (ss_version ss + 1)%N; ss_cas := ss_cas ss |}) in
     ret true)%m.

Definition segments_rewrite (rows : list f32) : M Segments (list rstring) :=
  (let* ss := get_st in
   let dropped := map sn_name (tail (ss_segs ss)) in
   do* (if is_mmap (sn_data (seg_at 0 ss)) then
          let* ap := appender_for BASE_SEGMENT (ss_cas ss) in
          let* r := with_seg (rewrite_target ap (segments_dimension ss) (ss_distance ss))
                      (data_rewrite rows) in
          modify (fun ss => set_segs
            (alter (fun _ => {| sn_name := BASE_SEGMENT; sn_data := r.2 |}) 0 (ss_segs ss)) ss)
        else
          do* zoom_seg 0 (data_rewrite rows) in
          modify (fun ss => set_segs
            (alter (fun s => {| sn_name := BASE_SEGMENT; sn_data := sn_data s |}) 0 (ss_segs ss)) ss)) in
   do* when (ss_persistence ss)
         (do* stamp_checksum 0 BASE_SEGMENT in
          for_each dropped (fun name => p_delete (crc_object_name name))) in
   do* modify (fun ss =>
         {| ss_distance := ss_distance ss; ss_persistence := ss_persistence ss;
            ss_segs := take 1 (ss_segs ss); ss_base := [0%nat]; ss_next_id := ss_next_id ss;
            ss_version := (ss_version ss + 1)%N; ss_cas := ss_cas ss |}) in
   ret dropped)%m.

(** [verify_checksums]: the segments [i], [i + 1], ... of the list. *)
Fixpoint verify_from (n i : nat) : M Segments (list SegmentIntegrity) :=
  match n with
  | O => ret []
  | S n' =>
      (let* ss := get_st in
       let name := sn_name (seg_at i ss) in
       let key := checksum_key name (segments_dimension ss) (ss_distance ss) in
       let* r := zoom_seg i (checksum_verify name key) in
       let* rs := verify_from n' (S i) in
       ret (r :: rs))%m
  end.

Definition verify_checksums : M Segments (list SegmentIntegrity) :=
  (let* ss := get_st in
   if ss_persistence ss then verify_from (length (ss_segs ss)) 0
   else ret (map (fun s => NoChecksum (seg_row_count (sn_data s))) (ss_segs ss)))%m.
End sealing.

(** ** Row addressing *)

(** The prefix sums of the row counts. *)
Fixpoint bases (acc : nat) (l : list Seg) : list nat :=
  match l with
  | [] => []
  | s :: l' => acc :: bases (acc + seg_row_count (sn_data s)) l'
  end.

Definition total_rows (l : list Seg) : nat :=
  list_sum (map (fun s => seg_row_count (sn_data s)) l).

(** A segment's rows have the store's dimension. *)
Definition seg_shape (dim : nat) (s : Seg) : Prop :=
  sg_dimension (sn_data s) = dim /\
  length (seg_vectors (sn_data s)) = (seg_row_count (sn_data s) * dim)%nat.

Definition concat_vectors (l : list Seg) : list f32 :=
  mjoin (map (fun s => seg_vectors (sn_data s)) l).

Definition find_index (base : list nat) (g : nat) : nat :=
  match binary_search base g with Ok i => i | Err i => (i - 1)%nat end.

Lemma length_bases acc l : length (bases acc l) = length l.
Proof. revert acc. induction l; intros; simpl; auto. Qed.

Lemma bases_ge acc l b : b ∈ bases acc l -> (acc <= b)%nat.
Proof.
  revert acc. induction l as [|s l IH]; intros acc; simpl; [by intros ?%elem_of_nil|].
  intros [->|H%IH]%elem_of_cons; [done|lia].
Qed.

Lemma filter_lt_none g l : Forall (fun b => g <= b)%nat l -> filter (fun b => b < g)%nat l = [].
Proof.
  induction 1 as [|b l Hb _ IH]; [done|]. rewrite filter_cons_False by lia. done.
Qed.

Lemma find_index_hd acc base g :
  acc = g \/ (acc < g)%nat /\ Forall (fun b => g < b)%nat base ->
  find_index (acc :: base) g = 0%nat.
Proof.
  unfold find_index, binary_search. intros [->|[Hlt Hf]]; cbn [list_find].
  - by rewrite decide_True by done.
  - rewrite decide_False by lia.
    assert (list_find (fun b => b = g) base = None) as ->.
    { apply list_find_None. eapply Forall_impl; [done|]. simpl. lia. }
    cbn [fmap option_fmap option_map]. rewrite filter_cons_True by lia. cbn [length].
    rewrite filter_lt_none; [done|]. eapply Forall_impl; [done|]. simpl. lia.
Qed.

Lemma find_index_tl acc b base g :
  (acc < g)%nat -> (b <= g)%nat ->
  find_index (acc :: b :: base) g = S (find_index (b :: base) g).
Proof.
  unfold find_index, binary_search. intros Ha Hb. cbn [list_find].
  rewrite (decide_False (P := acc = g)) by lia.
  destruct (decide (b = g)) as [->|Hne]; [done|].
  destruct (list_find (fun x => x = g) base) as [[i y]|]; [done|].
  cbn [fmap option_fmap option_map]. rewrite !filter_cons_True by lia. cbn [length]. lia.
Qed.

(** The segment the search finds is the one that holds the row. *)
Lemma find_row dim l : forall acc g,
  Forall (seg_shape dim) l ->
  (forall i s, l !! i = Some s -> (S i < length l)%nat -> (0 < seg_row_count (sn_data s))%nat) ->
  (acc <= g < acc + total_rows l)%nat ->
  exists i s b, l !! i = Some s /\ bases acc l !! i = Some b /\ find_index (bases acc l) g = i /\
    (b <= g < b + seg_row_count (sn_data s))%nat /\
    take dim (drop ((g - acc) * dim) (concat_vectors l)) = seg_row (sn_data s) (g - b).
Proof.
  induction l as [|s l IH]; intros acc g Hsh Hne Hg.
  { unfold total_rows in Hg. simpl in Hg. lia. }
  apply Forall_cons in Hsh as [[Hd Hlen] Hsh].
  change (total_rows (s :: l)) with (seg_row_count (sn_data s) + total_rows l)%nat in Hg.
  change (concat_vectors (s :: l)) with (seg_vectors (sn_data s) ++ concat_vectors l).
  cbn [bases]. destruct (decide (g < acc + seg_row_count (sn_data s))%nat) as [Hlt|Hge].
  - exists 0%nat, s, acc. split_and!; try done; [|lia|].
    + apply find_index_hd. destruct (decide (acc = g)); [by left|right]. split; [lia|].
      apply Forall_forall. intros b Hb%bases_ge. lia.
    + unfold seg_row. rewrite Hd. rewrite drop_app_le by (rewrite Hlen; nia).
      apply take_app_le. rewrite length_drop, Hlen. nia.
  - destruct l as [|s2 l]; [unfold total_rows in Hg; simpl in Hg; lia|].
    assert (0 < seg_row_count (sn_data s))%nat as Hpos by (apply (Hne 0%nat s); simpl; [done|lia]).
    destruct (IH (acc + seg_row_count (sn_data s))%nat g) as (i & s' & b & Hi & Hb & Hf & Hr & Hrow);
      [done| |lia|].
    { intros j s' Hj Hlj. apply (Hne (S j) s'); [done|]. simpl in *. lia. }
    exists (S i), s', b. split_and!; try done; [|lia|lia|].
    + cbn [bases] in *. rewrite find_index_tl by lia. by rewrite Hf.
    + rewrite <- Hrow, drop_app_ge by (rewrite Hlen; nia). f_equal. f_equal. rewrite Hlen. nia.
Qed.

(** ** The invariant

    [sealed] are the immutable segments, [name] and [v] the active one and its
    vectors, mirrored in RAM and on its handle. *)
Record segments_ok (sealed : list Seg) (name : rstring) (v : list f32) (ss : Segments) (w : World)
  : Prop := {
  ok_segs : exists d, ss_segs ss = sealed ++ [{| sn_name := name; sn_data := d |}] /\
    seg_ok v d w /\ sg_distance d = ss_distance ss /\
    (forall k, k ∈ seg_keys d -> k = name);
  ok_base : ss_base ss = bases 0 (ss_segs ss);
  ok_shape : Forall (seg_shape (segments_dimension ss)) (ss_segs ss);
  ok_sealed : Forall (fun s => 0 < seg_row_count (sn_data s))%nat sealed
}.

Lemma last_index_snoc ss sealed s : ss_segs ss = sealed ++ [s] -> last_index ss = length sealed.
Proof. intros E. unfold last_index. rewrite E, length_app. simpl. lia. Qed.

Lemma seg_at_last ss sealed s : ss_segs ss = sealed ++ [s] -> seg_at (length sealed) ss = s.
Proof. intros E. unfold seg_at. rewrite E. rewrite lookup_app_r, Nat.sub_diag by lia. done. Qed.

Lemma bases_app acc l1 l2 : bases acc (l1 ++ l2) = bases acc l1 ++ bases (acc + total_rows l1) l2.
Proof.
  revert acc. induction l1 as [|s l1 IH]; intros acc; simpl.
  - by rewrite Nat.add_0_r.
  - rewrite IH. unfold total_rows. simpl. by rewrite Nat.add_assoc.
Qed.

Section ok.
Context (sealed : list Seg) (name : rstring) (v : list f32) (ss : Segments) (w : World).
Context (Hok : segments_ok sealed name v ss w).

Lemma ok_active : exists d, ss_segs ss = sealed ++ [{| sn_name := name; sn_data := d |}] /\
  last_index ss = length sealed /\ sn_data (seg_at (length sealed) ss) = d /\
  base_at (length sealed) ss = total_rows sealed /\ seg_ok v d w /\
  sg_dimension d = segments_dimension ss.
Proof.
  destruct (ok_segs _ _ _ _ _ Hok) as (d & E & Hd & _). exists d.
  split_and!; [done|by apply (last_index_snoc _ _ _ E)|by rewrite (seg_at_last _ _ _ E)| |done|].
  - unfold base_at. rewrite (ok_base _ _ _ _ _ Hok), E, bases_app.
    rewrite lookup_app_r by (by rewrite length_bases).
    rewrite length_bases, Nat.sub_diag. done.
  - pose proof (ok_shape _ _ _ _ _ Hok) as Hs. rewrite E in Hs.
    apply Forall_app in Hs as [_ [[Hs _] _]%Forall_cons]. done.
Qed.

Lemma ok_row_count : segments_row_count ss = total_rows (ss_segs ss).
Proof.
  destruct ok_active as (d & E & El & Ed & Eb & Hd & Hdim).
  unfold segments_row_count, active. rewrite El, Eb, Ed, E. unfold total_rows.
  rewrite map_app, list_sum_app. simpl. lia.
Qed.

Lemma ok_matrix : concat_vectors (ss_segs ss) = concat_vectors sealed ++ v.
Proof.
  destruct ok_active as (d & -> & _ & _ & _ & Hd & _). unfold concat_vectors.
  rewrite map_app, join_app. simpl. rewrite app_nil_r. f_equal. unfold seg_vectors.
  by rewrite (so_ram _ _ _ Hd).
Qed.

Lemma ok_sealed_i i s : ss_segs ss !! i = Some s -> (S i < length (ss_segs ss))%nat ->
  (0 < seg_row_count (sn_data s))%nat.
Proof.
  destruct ok_active as (d & -> & _). intros Hi Hl. rewrite length_app in Hl. simpl in Hl.
  rewrite lookup_app_l in Hi by lia. pose proof (ok_sealed _ _ _ _ _ Hok) as Hs.
  rewrite Forall_lookup in Hs. by eapply Hs.
Qed.

Lemma ok_row g : (g < segments_row_count ss)%nat ->
  segments_row g ss = take (segments_dimension ss) (drop (g * segments_dimension ss)
    (concat_vectors (ss_segs ss))).
Proof.
  intros Hg. rewrite ok_row_count in Hg.
  destruct (find_row (segments_dimension ss) (ss_segs ss) 0 g) as (i & s & b & Hi & Hb & Hf & Hr & E).
  { apply Hok. }
  { apply ok_sealed_i. }
  { lia. }
  rewrite Nat.sub_0_r in E. rewrite E. unfold segments_row.
  rewrite <- (ok_base _ _ _ _ _ Hok) in Hb, Hf.
  destruct (length (ss_segs ss) =? 1)%nat eqn:El; bdestr.
  - assert (i = 0%nat) as -> by (apply lookup_lt_Some in Hi; lia).
    unfold seg_at. rewrite Hi. simpl. f_equal.
    rewrite (ok_base _ _ _ _ _ Hok) in Hb. destruct (ss_segs ss); [done|]. simpl in Hb.
    injection Hb as <-. lia.
  - unfold find_index in Hf. rewrite Hf. unfold seg_at, base_at. rewrite Hi, Hb. done.
Qed.
End ok.

(** ** Operations on the active segment *)

Definition put_active (d : DataSegment) (ss : Segments) : Segments :=
  set_segs (alter (put_data d) (last_index ss) (ss_segs ss)) ss.

Definition active_data (ss : Segments) : DataSegment := sn_data (active ss).

Lemma put_active_segs d ss sealed s :
  ss_segs ss = sealed ++ [s] -> ss_segs (put_active d ss) = sealed ++ [put_data d s].
Proof.
  intros E. unfold put_active. cbn [ss_segs set_segs]. rewrite (last_index_snoc _ _ _ E), E.
  rewrite alter_app_r_alt by lia. by rewrite Nat.sub_diag.
Qed.

Lemma segments_ok_put sealed name v v' ss w d' w' :
  segments_ok sealed name v ss w -> seg_same (active_data ss) d' -> seg_ok v' d' w' ->
  segments_ok sealed name v' (put_active d' ss) w' /\
  segments_dimension (put_active d' ss) = segments_dimension ss.
Proof.
  intros Hok Hs Hd'. destruct (ok_active _ _ _ _ _ Hok) as (d & E & El & Ed & Eb & Hd & Hdim).
  unfold active_data, active in Hs. rewrite El, Ed in Hs. pose proof Hs as (Hsd & Hsdist & _).
  pose proof (put_active_segs d' ss _ _ E) as E'. cbn [put_data sn_name] in E'.
  assert (segments_dimension (put_active d' ss) = segments_dimension ss) as Hdims.
  { unfold segments_dimension, seg_at. rewrite E', E.
    destruct sealed; [|done]. simpl. done. }
  split; [|done]. split.
  - exists d'. split_and!; try done.
    + destruct (ok_segs _ _ _ _ _ Hok) as (d0 & E0 & _ & Hdist & _).
      rewrite E in E0. apply app_inj_tail in E0 as [_ [= ->]]. by rewrite Hsdist.
    + destruct (ok_segs _ _ _ _ _ Hok) as (d0 & E0 & _ & _ & Hk).
      rewrite E in E0. apply app_inj_tail in E0 as [_ [= ->]]. by rewrite (seg_same_keys _ _ Hs).
  - change (ss_base (put_active d' ss)) with (ss_base ss).
    rewrite (ok_base _ _ _ _ _ Hok), E, E', !bases_app. done.
  - rewrite Hdims, E'. pose proof (ok_shape _ _ _ _ _ Hok) as Hsh. rewrite E in Hsh.
    apply Forall_app in Hsh as [Hsh _]. apply Forall_app. split; [done|].
    constructor; [|done]. split; cbn; [congruence|].
    unfold seg_vectors. rewrite (so_ram _ _ _ Hd'). rewrite (seg_ok_rows _ _ _ Hd').
    congruence.
  - apply Hok.
Qed.

Lemma wp_zoom_active {A} (m : M DataSegment A) R E ss w :
  wp m (fun a d w' => R a (put_active d ss) w') (fun e d w' => E e (put_active d ss) w')
    (active_data ss) w ->
  wp (zoom_seg (last_index ss) m) R E ss w.
Proof.
  unfold wp, zoom_seg, zoom, put_active, active_data, active.
  by destruct (m (sn_data (seg_at (last_index ss) ss)) w) as [[[a|e|] d] w'].
Qed.

Definition segments_fits (ss : Segments) (w : World) : Prop := seg_fits (active_data ss) w.

(** The set after an operation on its active segment. *)
Definition seg_step (name : rstring) (ss ss' : Segments) (w w' : World) : Prop :=
  (exists d, ss' = put_active d ss /\ seg_same (active_data ss) d) /\ touches [name] w w'.

Section steps.
Context (sealed : list Seg) (name : rstring) (v : list f32) (ss : Segments) (w : World).
Context (Hok : segments_ok sealed name v ss w).

Lemma active_ok : seg_ok v (active_data ss) w /\
  sg_dimension (active_data ss) = segments_dimension ss /\
  base_at (last_index ss) ss = total_rows sealed /\
  (forall k, k ∈ seg_keys (active_data ss) -> k ∈ [name]).
Proof.
  destruct (ok_active _ _ _ _ _ Hok) as (d & E & El & Ed & Eb & Hd & Hdim).
  unfold active_data, active. rewrite El, Ed. split_and!; try done.
  intros k Hk. destruct (ok_segs _ _ _ _ _ Hok) as (d0 & E0 & _ & _ & Hk0).
  rewrite E in E0. apply app_inj_tail in E0 as [_ [= ->]]. rewrite (Hk0 k Hk). by left.
Qed.

Lemma active_step v' d' w' :
  seg_same (active_data ss) d' -> touches (seg_keys (active_data ss)) w w' -> seg_ok v' d' w' ->
  seg_step name ss (put_active d' ss) w w' /\ segments_ok sealed name v' (put_active d' ss) w' /\
  segments_dimension (put_active d' ss) = segments_dimension ss.
Proof.
  intros Hs Ht Hd. destruct active_ok as (_ & _ & _ & Hk).
  pose proof (segments_ok_put _ _ _ _ _ _ _ _ Hok Hs Hd) as [? ?]. split_and!; try done.
  split; [by exists d'|]. by eapply touches_mono, Ht.
Qed.

Lemma row_count_length :
  (segments_row_count ss * segments_dimension ss
   = total_rows sealed * segments_dimension ss + length v)%nat.
Proof.
  destruct active_ok as (Hd & Hdim & Hb & _). unfold segments_row_count.
  fold (active_data ss). rewrite Hb, (seg_ok_rows _ _ _ Hd), Hdim. lia.
Qed.

(** Appending a row: its global index is the row count of before. *)
Lemma wp_segments_append vector R E :
  clean w -> one_fault w -> segments_fits ss w ->
  Forall is_f32 vector -> length vector = segments_dimension ss ->
  (forall ss' w', seg_step name ss ss' w w' -> segments_ok sealed name (v ++ vector) ss' w' ->
     segments_dimension ss' = segments_dimension ss ->
     R (segments_row_count ss) ss' w') ->
  (forall e ss' w', seg_step name ss ss' w w' -> data_torn v vector (active_data ss') w' ->
     (e <> None -> segments_ok sealed name v ss' w' /\ recoverable w') -> E e ss' w') ->
  wp (segments_append vector) R E ss w.
Proof.
  intros Hc Ho Hfit Hf Hl HR HE. destruct active_ok as (Hd & Hdim & Hb & Hk).
  assert (forall d, active_data (put_active d ss) = d) as Hput.
  { intros d. destruct (ok_active _ _ _ _ _ Hok) as (d0 & E0 & El & _).
    unfold active_data, active. pose proof (put_active_segs d ss _ _ E0) as E'.
    rewrite (last_index_snoc _ _ _ E'), (seg_at_last _ _ _ E'). done. }
  unfold segments_append. apply wp_bind, wp_get_st, wp_bind, wp_zoom_active.
  apply (wp_data_append v); try done; [congruence|..].
  - intros d' w' Hs Ht Hd'. apply wp_ret.
    destruct (active_step _ _ _ Hs Ht Hd') as (? & ? & ?). by apply HR.
  - intros e d' w' Hs Ht Htorn Hrec. apply HE.
    + split; [by exists d'|]. by eapply touches_mono, Ht.
    + by rewrite Hput.
    + intros He. destruct (Hrec He) as [Hd' ?]. split; [|done].
      by apply (active_step _ _ _ Hs Ht Hd').
Qed.

(** Rolling back to a row count not below the sealed rows. *)
Lemma wp_segments_truncate rows R E :
  recoverable w -> segments_fits ss w -> (total_rows sealed <= rows <= segments_row_count ss)%nat ->
  (forall ss' w', seg_step name ss ss' w w' ->
     segments_ok sealed name
       (take ((rows - total_rows sealed) * segments_dimension ss) v) ss' w' ->
     R tt ss' w') ->
  wp (segments_truncate_to rows) R E ss w.
Proof.
  intros Hrec Hfit Hrows HR. destruct active_ok as (Hd & Hdim & Hb & Hk).
  unfold segments_truncate_to. apply wp_bind, wp_get_st. cbv zeta. rewrite Hb.
  rewrite (proj2 (Nat.ltb_ge _ _)) by lia. apply wp_zoom_active.
  apply (wp_data_truncate v); try done.
  - unfold segments_row_count in Hrows. fold (active_data ss) in Hrows. lia.
  - intros d' w' Hs Ht Hd'. rewrite Hdim in Hd'.
    destruct (active_step _ _ _ Hs Ht Hd') as (? & ? & ?). by apply HR.
Qed.

Lemma wp_segments_sync R E :
  one_fault w -> segments_fits ss w ->
  (forall ss' w', seg_step name ss ss' w w' -> segments_ok sealed name v ss' w' -> R tt ss' w') ->
  (forall e ss' w', seg_step name ss ss' w w' -> segments_ok sealed name v ss' w' ->
     (e <> None -> recoverable w') -> E e ss' w') ->
  wp segments_sync R E ss w.
Proof.
  intros Ho Hfit HR HE. destruct active_ok as (Hd & Hdim & Hb & Hk).
  unfold segments_sync. apply wp_bind, wp_get_st, wp_zoom_active.
  apply (wp_data_sync v); try done.
  - intros d' w' Hs Ht Hd'. destruct (active_step _ _ _ Hs Ht Hd') as (? & ? & ?). by apply HR.
  - intros e d' w' Hs Ht Hd' Hr. destruct (active_step _ _ _ Hs Ht Hd') as (? & ? & ?). by apply HE.
Qed.
End steps.

(** rows are addressed globally: on a well-formed segment set the binary
    search over the bases finds the owning segment, and the row read is that
    row of the segments' vectors laid end to end. *)
Theorem segments_row_spec sealed name v ss w g :
  segments_ok sealed name v ss w -> (g < segments_row_count ss)%nat ->
  segments_row g ss = take (segments_dimension ss)
    (drop (g * segments_dimension ss) (concat_vectors (ss_segs ss))).
Proof. intros Hok. by apply (ok_row _ _ _ _ _ Hok). Qed.

Lemma length_concat_vectors dim l :
  Forall (seg_shape dim) l -> length (concat_vectors l) = (total_rows l * dim)%nat.
Proof.
  induction 1 as [|s l [_ Hl] _ IH]; [done|].
  unfold concat_vectors, total_rows in *. simpl. rewrite length_app, Hl, IH. lia.
Qed.

Lemma append_row_count sealed name v vector ss ss' w w' :
  segments_ok sealed name v ss w -> segments_ok sealed name (v ++ vector) ss' w' ->
  segments_dimension ss' = segments_dimension ss -> length vector = segments_dimension ss ->
  segments_row_count ss' = S (segments_row_count ss).
Proof.
  intros Hok Hok' Hd Hl. pose proof (row_count_length _ _ _ _ _ Hok) as H1.
  pose proof (row_count_length _ _ _ _ _ Hok') as H2. rewrite length_app, Hl, Hd in H2.
  destruct (active_ok _ _ _ _ _ Hok) as (Hseg & Hdim & _).
  destruct (so_dim _ _ _ Hseg) as [Hpos _]. rewrite Hdim in Hpos. nia.
Qed.

(** Rows of before are read from a longer matrix as they were. *)
Lemma row_prefix sealed name v added ss ss' w w' g :
  segments_ok sealed name v ss w -> segments_ok sealed name (v ++ added) ss' w' ->
  segments_dimension ss' = segments_dimension ss -> (g < segments_row_count ss)%nat ->
  (g < segments_row_count ss')%nat ->
  segments_row g ss' = segments_row g ss.
Proof.
  intros Hok Hok' Hd Hg Hg'. rewrite (ok_row _ _ _ _ _ Hok), (ok_row _ _ _ _ _ Hok') by done.
  rewrite (ok_matrix _ _ _ _ _ Hok), (ok_matrix _ _ _ _ _ Hok'), Hd, app_assoc.
  pose proof (row_count_length _ _ _ _ _ Hok) as Hn.
  assert (length (concat_vectors sealed) = total_rows sealed * segments_dimension ss)%nat as Hs.
  { destruct (ok_active _ _ _ _ _ Hok) as (d & E & _). pose proof (ok_shape _ _ _ _ _ Hok) as Hsh.
    rewrite E in Hsh. apply Forall_app in Hsh as [Hsh _]. by apply length_concat_vectors. }
  set (dim := segments_dimension ss) in *.
  assert (g * dim + dim <= length (concat_vectors sealed ++ v))%nat as Hle
    by (rewrite length_app, Hs; nia).
  rewrite drop_app_le by lia. apply take_app_le. rewrite length_drop. lia.
Qed.

(** C27: an appended row reads back: when an append returns, the index it gives
    reads the vector just written, and every earlier row, of this segment or of
    a sealed one, is what it was. *)
Theorem append_reads_back sealed name v ss w vector row ss' w' :
  segments_ok sealed name v ss w -> clean w -> one_fault w -> segments_fits ss w ->
  Forall is_f32 vector -> length vector = segments_dimension ss ->
  segments_append vector ss w = (Ret row, ss', w') ->
  row = segments_row_count ss /\ segments_row row ss' = vector /\
  forall g, (g < row)%nat -> segments_row g ss' = segments_row g ss.
Proof.
  intros Hok Hc Ho Hfit Hf Hl E.
  assert (wp (segments_append vector) (fun row ss' w' =>
    row = segments_row_count ss /\ segments_ok sealed name (v ++ vector) ss' w' /\
    segments_dimension ss' = segments_dimension ss) (fun _ _ _ => True) ss w) as Hwp
    by (apply (wp_segments_append _ _ _ _ _ Hok); auto).
  destruct (wp_elim _ _ _ _ _ _ _ _ Hwp E) as (-> & Hok' & Hd). clear Hwp.
  pose proof (append_row_count _ _ _ _ _ _ _ _ Hok Hok' Hd Hl) as Hn.
  split; [done|]. split; [|intros g Hg; eapply row_prefix; eauto; lia].
  rewrite (ok_row _ _ _ _ _ Hok') by lia. rewrite (ok_matrix _ _ _ _ _ Hok'), Hd.
  pose proof (ok_row_count _ _ _ _ _ Hok) as Hrc.
  pose proof (ok_matrix _ _ _ _ _ Hok) as Hm.
  assert (length (concat_vectors (ss_segs ss)) = segments_row_count ss * segments_dimension ss)%nat as Hlen.
  { rewrite Hrc. by apply length_concat_vectors, (ok_shape _ _ _ _ _ Hok). }
  rewrite app_assoc, <- Hm, drop_app_length' by done. rewrite <- Hl. apply firstn_all.
Qed.

(** ** A concrete set: one sealed segment and the active one, in RAM *)

Section example.

Definition ex_seg (name : rstring) (v : list f32) : Seg :=
  {| sn_name := name; sn_data := {| sg_dimension := 2; sg_distance := Euclidean;
                                    sg_backing := Ram v; sg_appender := Some (ApMem
                                      (encode_header 2 Euclidean ++ floats_to_bytes v)) |} |}.
Definition ex_set : Segments :=
  {| ss_distance := Euclidean; ss_persistence := false;
     ss_segs := [ex_seg BASE_SEGMENT [1; 2; 3; 4]%Z; ex_seg (sealed_name 1) [5; 6]%Z];
     ss_base := [0; 2]%nat; ss_next_id := 2; ss_version := 2; ss_cas := false |}.
Definition ex_quiet : World :=
  {| w_kind := LocalFs; w_objects := ∅; w_next := 0; w_faults := []; w_clock := [] |}.

Lemma ex_set_ok : segments_ok [ex_seg BASE_SEGMENT [1; 2; 3; 4]%Z] (sealed_name 1) [5; 6]%Z ex_set ex_quiet.
Proof.
  split.
  - eexists. split; [reflexivity|]. split_and!; [|done|by intros k ?%elem_of_nil].
    split; cbn; [split; [lia|done]|done|by exists 1%nat| |by intros ? [= <-]].
    repeat (apply Forall_cons; split; [by vm_compute|]). by apply Forall_nil.
  - done.
  - repeat constructor.
  - repeat constructor.
Qed.

Lemma segments_row_spec_witness :
  segments_row 2 ex_set = take 2 (drop 4 (concat_vectors (ss_segs ex_set))) /\
  segments_row 2 ex_set = [5; 6]%Z.
Proof.
  split; [|reflexivity].
  refine (segments_row_spec _ _ _ ex_set ex_quiet 2 ex_set_ok _). vm_compute. lia.
Defined.

Lemma append_reads_back_witness :
  exists ss' w', segments_append [7; 8]%Z ex_set ex_quiet = (Ret 3%nat, ss', w') /\
    3%nat = segments_row_count ex_set /\ segments_row 3 ss' = [7; 8]%Z /\
    forall g, (g < 3)%nat -> segments_row g ss' = segments_row g ex_set.
Proof.
  destruct (segments_append [7; 8]%Z ex_set ex_quiet) as [[o ss'] w'] eqn:E.
  assert (o = Ret 3%nat) as -> by (vm_compute in E; by injection E).
  exists ss', w'. split; [done|].
  apply (append_reads_back [ex_seg BASE_SEGMENT [1; 2; 3; 4]%Z] (sealed_name 1) [5; 6]%Z
    ex_set ex_quiet [7; 8]%Z 3 ss' w'); try done.
  - apply ex_set_ok.
  - apply Forall_nil. done.
  - intros l f r Hl. by destruct l.
  - intros ap [= <-]. done.
  - repeat (apply Forall_cons; split; [by vm_compute|]). by apply Forall_nil.
Defined.
End example.
