(* ===== verification/Config.v ===== *)
(** * Config: open-time configuration ([src/src/config.rs])

    The knobs of an open store, the four of them a store can record as its
    profile, and the cross-field checks made before any I/O. *)
From S2P Require Import Prelude Floats Model.

Inductive LeaseWait := LwFail | LwTimeout (secs : N) | LwForever.
Inductive Fsync := PerBatch | OnFlush.
Inductive OpenMode := ReadWrite | ReadOnly.
#[export] Instance Fsync_eq_dec : EqDecision Fsync.
Proof. solve_decision. Defined.
#[export] Instance OpenMode_eq_dec : EqDecision OpenMode.
Proof. solve_decision. Defined.

Record ExplicitFlags := {
  ex_quantization : bool;
  ex_ann : bool;
  ex_query_threads : bool;
  ex_mmap : bool
}.
Definition ExplicitFlags_default : ExplicitFlags :=
  {| ex_quantization := false; ex_ann := false; ex_query_threads := false; ex_mmap := false |}.

Record Config := {
  c_path : rstring;
  c_dimension : nat;
  c_distance : Distance;
  c_fsync : Fsync;
  c_open_mode : OpenMode;
  c_auto_compact : option f32;
  c_lock_ttl : N;                       (* whole seconds *)
  c_lease_wait : LeaseWait;
  c_max_staleness : option N;
  c_max_vector_bytes : option nat;
  c_quantization : option Quantization;
  c_ann : option AnnConfig;
  c_query_threads : nat;
  c_persistence : rstring;
  c_segment_max_rows : option nat;
  c_segment_index_min_rows : option nat;
  c_mmap : bool;
  c_memory : rstring;
  c_cluster : bool;
  c_strict_embedder_identity : bool;
  c_at_version : option N;
  c_history_versions : option nat;
  c_explicit : ExplicitFlags
}.

Definition Config_new (path : rstring) (dimension : nat) : Config :=
  {| c_path := path; c_dimension := dimension; c_distance := Cosine; c_fsync := PerBatch;
     c_open_mode := ReadWrite; c_auto_compact := Some f32_half; c_lock_ttl := 60;
     c_lease_wait := LwFail; c_max_staleness := None; c_max_vector_bytes := None;
     c_quantization := None; c_ann := None; c_query_threads := 1; c_persistence := [];
     c_segment_max_rows := None; c_segment_index_min_rows := None; c_mmap := false;
     c_memory := []; c_cluster := false; c_strict_embedder_identity := false;
     c_at_version := None; c_history_versions := None; c_explicit := ExplicitFlags_default |}.

(** Replace the profile-eligible knobs and their flags. *)
Definition set_knobs (q : option Quantization) (a : option AnnConfig) (threads : nat) (mmap : bool)
    (ex : ExplicitFlags) (c : Config) : Config :=
  {| c_path := c_path c; c_dimension := c_dimension c; c_distance := c_distance c;
     c_fsync := c_fsync c; c_open_mode := c_open_mode c; c_auto_compact := c_auto_compact c;
     c_lock_ttl := c_lock_ttl c; c_lease_wait := c_lease_wait c;
     c_max_staleness := c_max_staleness c; c_max_vector_bytes := c_max_vector_bytes c;
     c_quantization := q; c_ann := a; c_query_threads := threads;
     c_persistence := c_persistence c; c_segment_max_rows := c_segment_max_rows c;
     c_segment_index_min_rows := c_segment_index_min_rows c; c_mmap := mmap;
     c_memory := c_memory c; c_cluster := c_cluster c;
     c_strict_embedder_identity := c_strict_embedder_identity c; c_at_version := c_at_version c;
     c_history_versions := c_history_versions c; c_explicit := ex |}.

Definition cfg_quantization (q : option Quantization) (c : Config) : Config :=
  let ex := c_explicit c in
  set_knobs q (c_ann c) (c_query_threads c) (c_mmap c)
    {| ex_quantization := true; ex_ann := ex_ann ex; ex_query_threads := ex_query_threads ex;
       ex_mmap := ex_mmap ex |} c.
Definition cfg_ann (a : option AnnConfig) (c : Config) : Config :=
  let ex := c_explicit c in
  set_knobs (c_quantization c) a (c_query_threads c) (c_mmap c)
    {| ex_quantization := ex_quantization ex; ex_ann := true;
       ex_query_threads := ex_query_threads ex; ex_mmap := ex_mmap ex |} c.
Definition cfg_query_threads (n : nat) (c : Config) : Config :=
  let ex := c_explicit c in
  set_knobs (c_quantization c) (c_ann c) n (c_mmap c)
    {| ex_quantization := ex_quantization ex; ex_ann := ex_ann ex; ex_query_threads := true;
       ex_mmap := ex_mmap ex |} c.
Definition cfg_mmap (on : bool) (c : Config) : Config :=
  let ex := c_explicit c in
  set_knobs (c_quantization c) (c_ann c) (c_query_threads c) on
    {| ex_quantization := ex_quantization ex; ex_ann := ex_ann ex;
       ex_query_threads := ex_query_threads ex; ex_mmap := true |} c.

Definition apply_profile (p : OpenProfile) (c : Config) : Config :=
  let ex := c_explicit c in
  set_knobs
    (if ex_quantization ex then c_quantization c
     else opt_or (op_quantization p) (c_quantization c))
    (if ex_ann ex then c_ann c else opt_or (op_ann p) (c_ann c))
    (if ex_query_threads ex then c_query_threads c
     else default (c_query_threads c) (op_query_threads p))
    (if ex_mmap ex then c_mmap c else default (c_mmap c) (op_mmap p)) ex c.

Definition to_profile (c : Config) : OpenProfile :=
  let ex := c_explicit c in
  {| op_ann := if ex_ann ex then c_ann c else None;
     op_quantization := if ex_quantization ex then c_quantization c else None;
     op_query_threads := if ex_query_threads ex then Some (c_query_threads c) else None;
     op_mmap := if ex_mmap ex then Some (c_mmap c) else None |}.

Inductive config_error :=
| QuantWithSegmentIndex | PinnedReadWrite | HistoryZero | BinaryNotCosine.

Definition config_validate (c : Config) : result config_error unit :=
  if bool_decide (is_Some (c_quantization c)) && bool_decide (is_Some (c_segment_max_rows c))
     && bool_decide (is_Some (c_segment_index_min_rows c)) then Err QuantWithSegmentIndex
  else if bool_decide (is_Some (c_at_version c)) && bool_decide (c_open_mode c = ReadWrite)
  then Err PinnedReadWrite
  else if bool_decide (c_history_versions c = Some 0%nat) then Err HistoryZero
  else if match c_quantization c with
          | Some q => bool_decide (q_kind q = Binary) && negb (bool_decide (c_distance c = Cosine))
          | None => false
          end then Err BinaryNotCosine
  else Ok tt.

(** ** Properties *)

(** The builder calls, as data. *)
Inductive knob_call :=
| SetQuantization (q : option Quantization)
| SetAnn (a : option AnnConfig)
| SetThreads (n : nat)
| SetMmap (on : bool).

Definition knob_apply (c : Config) (k : knob_call) : Config :=
  match k with
  | SetQuantization q => cfg_quantization q c
  | SetAnn a => cfg_ann a c
  | SetThreads n => cfg_query_threads n c
  | SetMmap on => cfg_mmap on c
  end.

(** The knobs of a configuration. *)
Definition knobs (c : Config) : option Quantization * option AnnConfig * nat * bool :=
  (c_quantization c, c_ann c, c_query_threads c, c_mmap c).

(** A knob never set keeps its built-in value. *)
Definition unset_default (c d : Config) : Prop :=
  (ex_quantization (c_explicit c) = false -> c_quantization c = c_quantization d) /\
  (ex_ann (c_explicit c) = false -> c_ann c = c_ann d) /\
  (ex_query_threads (c_explicit c) = false -> c_query_threads c = c_query_threads d) /\
  (ex_mmap (c_explicit c) = false -> c_mmap c = c_mmap d).

Lemma knobs_unset_default calls c d :
  unset_default c d -> unset_default (foldl knob_apply c calls) d.
Proof.
  revert c. induction calls as [|k calls IH]; intros c Hc; simpl; [done|].
  apply IH. destruct Hc as (H1 & H2 & H3 & H4).
  destruct k; unfold unset_default; simpl; naive_solver.
Qed.

Lemma apply_profile_idem p c : apply_profile p (apply_profile p c) = apply_profile p c.
Proof.
  destruct c as [? ? ? ? ? ? ? ? ? ? ? ? ? ? ? ? ? ? ? ? ? ? [[] [] [] []]],
    p as [[?|] [?|] [?|] [?|]]; done.
Qed.

(** A profile recorded from a configuration reproduces it: whatever builder
    calls made it, a later open that sets no knob itself resolves every knob
    the configuration set to a recorded value as that configuration did, and
    resolving twice changes nothing.  (A knob set to an explicit [None] is
    recorded as unset.) *)
Theorem profile_roundtrip path dim path' dim' calls :
  let source := foldl knob_apply (Config_new path dim) calls in
  let opened := apply_profile (to_profile source) (Config_new path' dim') in
  knobs opened = knobs source /\
  apply_profile (to_profile source) opened = opened.
Proof.
  intros source opened. split; [|apply apply_profile_idem].
  pose proof (knobs_unset_default calls (Config_new path dim) (Config_new path dim)
    ltac:(repeat split)) as (H1 & H2 & H3 & H4). fold source in H1, H2, H3, H4.
  unfold opened, knobs, apply_profile, to_profile. cbn -[source].
  destruct (ex_quantization (c_explicit source)), (ex_ann (c_explicit source)),
    (ex_query_threads (c_explicit source)), (ex_mmap (c_explicit source));
    rewrite ?H1, ?H2, ?H3, ?H4 by done; cbn;
    destruct (c_quantization source), (c_ann source); done.
Qed.

(** An explicit builder call always wins over a recorded profile, knob by
    knob, and a recorded profile never touches anything but the four knobs. *)
Theorem explicit_wins p c k :
  let c' := apply_profile p (knob_apply c k) in
  match k with
  | SetQuantization q => c_quantization c' = q
  | SetAnn a => c_ann c' = a
  | SetThreads n => c_query_threads c' = n
  | SetMmap on => c_mmap c' = on
  end /\
  set_knobs (c_quantization c) (c_ann c) (c_query_threads c) (c_mmap c) (c_explicit c) c' = c.
Proof. destruct c, k; done. Qed.

(** Validation accepts a configuration exactly when the four documented
    conflicts are absent; so a profile that would make a binary quantisation
    meet another metric is refused when it is recorded, not at every later
    open. *)
Theorem config_validate_spec c :
  config_validate c = Ok tt <->
  ~ (is_Some (c_quantization c) /\ is_Some (c_segment_max_rows c) /\
     is_Some (c_segment_index_min_rows c)) /\
  ~ (is_Some (c_at_version c) /\ c_open_mode c = ReadWrite) /\
  c_history_versions c <> Some 0%nat /\
  (forall q, c_quantization c = Some q -> q_kind q = Binary -> c_distance c = Cosine).
Proof.
  unfold config_validate.
  repeat case_bool_decide; simpl; repeat case_match; repeat case_bool_decide; simpl in *;
    try (split; [done|]); naive_solver.
Qed.
