(* ===== verification/Lease.v ===== *)
(** * Lease: writer locks and the cluster lease ([src/src/backend/object.rs])

    On an object store the writer lock is an object holding a time stamp, and
    in cluster mode also the owner's token.  A claim creates it, or takes over a
    stale one with a compare-and-swap; a renewal re-stamps it only while it
    still names the owner.

    Each of these is a sequence of requests to the object store, between which
    other instances make theirs.  So what an instance does is a program, a tree
    of its requests ([LockProg]); [alone] runs one within a store's operation,
    and [lease_step] lets any number of instances take turns, a request at a
    time.  [lease_exclusive] is about their runs. *)
From S2P Require Import Prelude TextPred Backend IndexCache Manifest.

(** ** [str::from_utf8] and [split_whitespace] *)

Definition in_range (lo hi b : Z) : bool := ((lo <=? b) && (b <=? hi))%Z.
Definition cont_byte (b : Z) : bool := in_range 128 191 b.

(** The second byte of a three- and of a four-byte sequence. *)
Definition second3 (b0 b1 : Z) : bool :=
  if (b0 =? 224)%Z then in_range 160 191 b1
  else if (b0 =? 237)%Z then in_range 128 159 b1
  else in_range 225 239 b0 && cont_byte b1.
Definition second4 (b0 b1 : Z) : bool :=
  if (b0 =? 240)%Z then in_range 144 191 b1
  else if (b0 =? 244)%Z then in_range 128 143 b1
  else in_range 241 243 b0 && cont_byte b1.

Fixpoint from_utf8 (bs : bytes) : option rstring :=
  match bs with
  | [] => Some []
  | b0 :: t0 =>
      if (b0 <? 128)%Z then cons (Z.to_N b0) <$> from_utf8 t0
      else
        match t0 with
        | [] => None
        | b1 :: t1 =>
            if in_range 194 223 b0 then
              if cont_byte b1
              then cons (Z.to_N ((b0 - 192) * 64 + (b1 - 128))) <$> from_utf8 t1 else None
            else
              match t1 with
              | [] => None
              | b2 :: t2 =>
                  if in_range 224 239 b0 then
                    if second3 b0 b1 && cont_byte b2
                    then cons (Z.to_N ((b0 - 224) * 4096 + (b1 - 128) * 64 + (b2 - 128)))
                           <$> from_utf8 t2
                    else None
                  else
                    match t2 with
                    | [] => None
                    | b3 :: t3 =>
                        if in_range 240 244 b0 && second4 b0 b1 && cont_byte b2 && cont_byte b3
                        then cons (Z.to_N ((b0 - 240) * 262144 + (b1 - 128) * 4096
                                           + (b2 - 128) * 64 + (b3 - 128))) <$> from_utf8 t3
                        else None
                    end
              end
        end
  end.

(** [char::is_whitespace]. *)
Definition is_whitespace (c : char) : bool :=
  ((9 <=? c) && (c <=? 13) || (c =? 32) || (c =? 0x85) || (c =? 0xA0) || (c =? 0x1680)
   || (0x2000 <=? c) && (c <=? 0x200A) || (c =? 0x2028) || (c =? 0x2029) || (c =? 0x202F)
   || (c =? 0x205F) || (c =? 0x3000))%N.

Definition split_whitespace (s : rstring) : list rstring :=
  List.filter is_nonempty (split_on is_whitespace s).

(** ** Bodies *)

(** [u64::to_string]. *)
Definition u64_to_string (n : N) : rstring := fmt_pad 0 n.

Definition lock_body (ts : N) (owner : option rstring) : bytes :=
  match owner with
  | Some o => as_bytes (u64_to_string ts ++ lit " " ++ o)
  | None => as_bytes (u64_to_string ts)
  end.

Definition parse_owner (bs : bytes) : option rstring :=
  s ← from_utf8 bs; split_whitespace s !! 1%nat.

(** [str::parse::<u64>]: an optional [+], then digits. *)
Definition parse_u64_str (t : rstring) : option N :=
  let digits := match t with c :: (_ :: _) as r => if (c =? chr "+")%N then r else t | _ => t end in
  if bool_decide (digits = []) || negb (forallb is_ascii_digit digits) then None
  else parse_u64 digits.

Definition parse_stamp (bs : bytes) : N :=
  default 0%N (s ← from_utf8 bs; t ← head (split_whitespace s); parse_u64_str t).

Definition is_live (now stamp ttl : N) : bool := (now - stamp <=? ttl)%N.

(** ** Claiming and renewing

    The requests of one instance about the lock object, and its readings of the
    clock. *)
Inductive LockProg (A : Type) :=
| LRet (a : A)
| LThrow (e : err)
| LNow (k : N -> LockProg A)
| LCreate (body : bytes) (k : option bool -> LockProg A)
| LGetCas (k : option (bytes * option N) -> LockProg A)
| LPutCas (body : bytes) (token : option N) (k : CasOutcome -> LockProg A)
| LGet (k : option bytes -> LockProg A)
| LPut (body : bytes) (k : LockProg A)
| LDelete (k : LockProg A).
Arguments LRet {A} a.
Arguments LThrow {A} e.
Arguments LNow {A} k.
Arguments LCreate {A} body k.
Arguments LGetCas {A} k.
Arguments LPutCas {A} body token k.
Arguments LGet {A} k.
Arguments LPut {A} body k.
Arguments LDelete {A} k.

Definition reclaim_create (body : bytes) : LockProg bool :=
  LDelete (LCreate body (fun r => LRet (bool_decide (r = Some true)))).

Definition advisory_claim (ttl now : N) (body : bytes) : LockProg bool :=
  LGet (fun existing =>
    if match existing with Some bs => is_live now (parse_stamp bs) ttl | None => false end
    then LRet false
    else LPut body (LRet true)).

Definition try_claim (ttl : N) (body : bytes) : LockProg bool :=
  LNow (fun now =>
  LCreate body (fun created =>
    match created with
    | Some true => LRet true
    | None => advisory_claim ttl now body
    | Some false =>
        LGetCas (fun cur =>
          match cur with
          | None => reclaim_create body
          | Some (held, token) =>
              if is_live now (parse_stamp held) ttl then LRet false
              else
                match token with
                | Some tok =>
                    LPutCas body (Some tok) (fun o =>
                      match o with
                      | Written _ => LRet true
                      | Stale => LRet false
                      | Unsupported => reclaim_create body
                      end)
                | None => reclaim_create body
                end
          end)
    end)).

(** The claim of [object_try_lock], and that of [ClusterLease::acquire] with the
    minted token. *)
Definition claim_for (ttl : N) (owner : option rstring) : LockProg bool :=
  LNow (fun ts => try_claim ttl (lock_body ts owner)).

(** [renew_lease_object_inner]. *)
Definition renew_lease_object_inner (owner : rstring) : LockProg unit :=
  LGetCas (fun cur =>
    match cur with
    | Some (bs, token) =>
        if negb (bool_decide (parse_owner bs = Some owner)) then LThrow ELeaseLost
        else
          LNow (fun ts =>
            let body := lock_body ts (Some owner) in
            match token with
            | Some tok =>
                LPutCas body (Some tok) (fun o =>
                  match o with
                  | Written _ => LRet tt
                  | Stale =>
                      LGet (fun now_held =>
                        if bool_decide (now_held ≫= parse_owner = Some owner) then LRet tt
                        else LThrow ELeaseLost)
                  | Unsupported => LPut body (LRet tt)
                  end)
            | None => LPut body (LRet tt)
            end)
    | None =>
        LNow (fun ts =>
          let body := lock_body ts (Some owner) in
          LCreate body (fun created =>
            match created with
            | Some true => LRet tt
            | Some false => LThrow ELeaseLost
            | None => LPut body (LRet tt)
            end))
    end).

(** Dropping the guard of a lease. *)
Definition release (owner : rstring) : LockProg unit :=
  LGet (fun o => if bool_decide (o ≫= parse_owner = Some owner) then LDelete (LRet tt) else LRet tt).

(** *** Within a store's operation *)

Section lease.
Context {X : Type}.

Definition now_secs : M X N := fun x w => let (t, w') := read_clock w in (Ret t, x, w').

(** What one request has seen: a reading of the clock, or the contents of the
    object, with the version when the request gives it. *)
Definition Seen : Type := list N * list (bytes * option N).
Definition nothing_seen : Seen := ([], []).

(** The next request: what it has seen, and the rest. *)
Definition request {A} (key : rstring) (p : LockProg A) : M X (Seen * LockProg A) :=
  (match p with
   | LRet _ | LThrow _ => ret (nothing_seen, p)
   | LNow k => let* t := now_secs in ret (([t], []), k t)
   | LCreate body k => let* r := p_try_create_exclusive key body in ret (nothing_seen, k r)
   | LGetCas k =>
       let* cur := p_get_cas key in
       ret (([], match cur with Some held => [held] | None => [] end), k cur)
   | LPutCas body token k => let* o := p_put_cas key body token in ret (nothing_seen, k o)
   | LGet k =>
       let* cur := p_get key in
       ret (([], match cur with Some held => [(held, None)] | None => [] end), k cur)
   | LPut body k => do* p_put key body in ret (nothing_seen, k)
   | LDelete k => do* p_delete key in ret (nothing_seen, k)
   end)%m.

Fixpoint alone {A} (key : rstring) (p : LockProg A) : M X A :=
  (match p with
   | LRet a => ret a
   | LThrow e => throw e
   | LNow k => let* t := now_secs in alone key (k t)
   | LCreate body k => let* r := p_try_create_exclusive key body in alone key (k r)
   | LGetCas k => let* cur := p_get_cas key in alone key (k cur)
   | LPutCas body token k => let* o := p_put_cas key body token in alone key (k o)
   | LGet k => let* cur := p_get key in alone key (k cur)
   | LPut body k => do* p_put key body in alone key k
   | LDelete k => do* p_delete key in alone key k
   end)%m.

Definition object_try_lock (key : rstring) (ttl : N) : M X bool :=
  (do* of_result (validate_key key) in alone key (claim_for ttl None))%m.
Definition lease_acquire (key : rstring) (ttl : N) (owner : rstring) : M X bool :=
  (do* of_result (validate_key key) in alone key (claim_for ttl (Some owner)))%m.
Definition renew_lease_object (key owner : rstring) : M X unit := alone key (renew_lease_object_inner owner).
Definition lease_drop (key owner : rstring) : M X unit := ignore (alone key (release owner)).
Definition lock_drop (key : rstring) : M X unit := ignore (p_delete key).
End lease.

(** *** Instances taking turns *)

Inductive LeaseOp := Acquire (ttl : N) | Renew | Release.

(** What an instance of a given token is at: not in an operation, and whether it
    takes itself for the holder; in one, with what it has seen since it began;
    or its process has ended. *)
Inductive Phase := Idle (holds : bool) | Run (op : LeaseOp) (seen : Seen) (p : LockProg bool) | Gone.
Record LeaseSys := { sy_world : World; sy_insts : list (rstring * Phase) }.

(** Ends [true] when the instance goes on as the holder. *)
Fixpoint then_holds (b : bool) (p : LockProg unit) : LockProg bool :=
  match p with
  | LRet _ => LRet b
  | LThrow e => LThrow e
  | LNow k => LNow (fun t => then_holds b (k t))
  | LCreate body k => LCreate body (fun r => then_holds b (k r))
  | LGetCas k => LGetCas (fun r => then_holds b (k r))
  | LPutCas body token k => LPutCas body token (fun r => then_holds b (k r))
  | LGet k => LGet (fun r => then_holds b (k r))
  | LPut body k => LPut body (then_holds b k)
  | LDelete k => LDelete (then_holds b k)
  end.

Definition lease_prog (owner : rstring) (op : LeaseOp) : LockProg bool :=
  match op with
  | Acquire ttl => claim_for ttl (Some owner)
  | Renew => then_holds true (renew_lease_object_inner owner)
  | Release => then_holds false (release owner)
  end.

(** After an error: a renewal gives the lease up for lost only when it was told
    so. *)
Definition holds_after (op : LeaseOp) (e : err) : bool :=
  match op with Renew => negb (bool_decide (e = ELeaseLost)) | Acquire _ | Release => false end.

Definition see (seen seen' : Seen) : Seen := (seen.1 ++ seen'.1, seen.2 ++ seen'.2).

(** A turn of an instance: it begins the operation [op], makes its next request,
    or ends the operation. *)
Definition phase_turn (key owner : rstring) (op : LeaseOp) (ph : Phase) (w : World) : option (Phase * World) :=
  match ph with
  | Idle holds =>
      match op, holds with
      | Acquire _, true | Renew, false | Release, false => None
      | _, _ => Some (Run op nothing_seen (lease_prog owner op), w)
      end
  | Run _ _ (LRet b) => Some (Idle b, w)
  | Run op _ (LThrow e) => Some (Idle (holds_after op e), w)
  | Run op seen p =>
      let '(o, _, w) := request key p tt w in
      Some (match o with
            | Ret (seen', p) => Run op (see seen seen') p
            | Fail e => Idle (holds_after op e)
            | Dead => Gone
            end, w)
  | Gone => None
  end.

Definition lease_turn (key : rstring) (i : nat) (op : LeaseOp) (s : LeaseSys) : option LeaseSys :=
  '(owner, ph) ← sy_insts s !! i;
  '(ph, w) ← phase_turn key owner op ph (sy_world s);
  Some {| sy_world := w; sy_insts := <[i := (owner, ph)]> (sy_insts s) |}.
Inductive lease_step (key : rstring) (s s' : LeaseSys) : Prop :=
  lease_step_intro i op : lease_turn key i op s = Some s' -> lease_step key s s'.

Fixpoint run_turns (key : rstring) (turns : list (nat * LeaseOp)) (s : LeaseSys) : LeaseSys :=
  match turns with
  | [] => s
  | (i, op) :: turns => run_turns key turns (default s (lease_turn key i op s))
  end.

(** ** Bodies read back *)

(** A Unicode scalar value. *)
Definition is_scalar (c : char) : Prop := (c < 0xD800 \/ 0xE000 <= c < 0x110000)%N.

Lemma in_range_true lo hi b : (lo <= b <= hi)%Z -> in_range lo hi b = true.
Proof. intros ?. unfold in_range. rewrite !(proj2 (Z.leb_le _ _)) by lia. done. Qed.
Lemma in_range_false lo hi b : (b < lo \/ hi < b)%Z -> in_range lo hi b = false.
Proof.
  intros [?|?]; unfold in_range.
  - by rewrite (proj2 (Z.leb_gt lo b)) by lia.
  - rewrite (proj2 (Z.leb_gt b hi)) by lia. apply andb_false_r.
Qed.

Ltac range :=
  unfold cont_byte;
  repeat first [rewrite in_range_true by (Z.to_euclidean_division_equations; lia)
               |rewrite in_range_false by (Z.to_euclidean_division_equations; lia)].

Lemma second3_ok z :
  (2048 <= z < 0xD800 \/ 0xE000 <= z < 65536)%Z ->
  second3 (224 + z / 4096) (128 + (z / 64) mod 64) = true.
Proof.
  intros Hz. unfold second3.
  destruct (224 + z / 4096 =? 224)%Z eqn:E1; bdestr; [by range|].
  destruct (224 + z / 4096 =? 237)%Z eqn:E2; bdestr; [by range|]. by range.
Qed.

Lemma second4_ok z :
  (65536 <= z < 0x110000)%Z ->
  second4 (240 + z / 262144) (128 + (z / 4096) mod 64) = true.
Proof.
  intros Hz. unfold second4.
  destruct (240 + z / 262144 =? 240)%Z eqn:E1; bdestr; [by range|].
  destruct (240 + z / 262144 =? 244)%Z eqn:E2; bdestr; [by range|]. by range.
Qed.

Lemma utf8_2 z : (z = ((192 + z / 64 - 192) * 64 + (128 + z mod 64 - 128)))%Z.
Proof. Z.to_euclidean_division_equations; lia. Qed.
Lemma utf8_3 z :
  (z = (224 + z / 4096 - 224) * 4096 + (128 + (z / 64) mod 64 - 128) * 64 + (128 + z mod 64 - 128))%Z.
Proof. Z.to_euclidean_division_equations; lia. Qed.
Lemma utf8_4 z :
  (z = (240 + z / 262144 - 240) * 262144 + (128 + (z / 4096) mod 64 - 128) * 4096
    + (128 + (z / 64) mod 64 - 128) * 64 + (128 + z mod 64 - 128))%Z.
Proof. Z.to_euclidean_division_equations; lia. Qed.

Lemma from_utf8_char c rest :
  is_scalar c -> from_utf8 (utf8_char c ++ rest) = cons c <$> from_utf8 rest.
Proof.
  unfold is_scalar, utf8_char. intros Hc. set (z := Z.of_N c).
  assert (Z.to_N z = c) as Hz by apply N2Z.id.
  destruct (z <? 128)%Z eqn:E1; cbn [app from_utf8]; [by rewrite E1, Hz|]. bdestr.
  destruct (z <? 2048)%Z eqn:E2; cbn [app from_utf8]; bdestr.
  { rewrite (proj2 (Z.ltb_ge (192 + z / 64) 128)) by (Z.to_euclidean_division_equations; lia).
    range. by rewrite <- utf8_2, Hz. }
  destruct (z <? 65536)%Z eqn:E3; cbn [app from_utf8]; bdestr.
  { rewrite (proj2 (Z.ltb_ge (224 + z / 4096) 128)) by (Z.to_euclidean_division_equations; lia).
    rewrite second3_ok by lia. range. cbn [andb]. by rewrite <- utf8_3, Hz. }
  rewrite (proj2 (Z.ltb_ge (240 + z / 262144) 128)) by (Z.to_euclidean_division_equations; lia).
  rewrite second4_ok by lia. range. cbn [andb]. by rewrite <- utf8_4, Hz.
Qed.

Lemma from_as_bytes s : Forall is_scalar s -> from_utf8 (as_bytes s) = Some s.
Proof.
  induction 1 as [|c s Hc _ IH]; [done|].
  change (as_bytes (c :: s)) with (utf8_char c ++ as_bytes s). by rewrite from_utf8_char, IH.
Qed.

Lemma size_nat_bound n : (n < 2 ^ N.of_nat (N.size_nat n))%N.
Proof.
  destruct n as [|p]; [done|]. simpl. induction p as [p IH|p IH|]; cbn [Pos.size_nat].
  - rewrite Nat2N.inj_succ, N.pow_succ_r'. lia.
  - rewrite Nat2N.inj_succ, N.pow_succ_r'. lia.
  - done.
Qed.

Lemma ndigits_enough fuel : forall n, (n < 2 ^ N.of_nat fuel)%N ->
  (n < 10 ^ N.of_nat (ndigits fuel n))%N.
Proof.
  induction fuel as [|fuel IH]; intros n Hn; cbn [ndigits].
  { rewrite N.pow_0_r in Hn. change (10 ^ N.of_nat 1)%N with 10%N. lia. }
  destruct (n <? 10)%N eqn:E; bdestr; [exact E|].
  rewrite !Nat2N.inj_succ, !N.pow_succ_r' in *.
  assert (n / 10 < 2 ^ N.of_nat fuel)%N as Hd by (apply N.Div0.div_lt_upper_bound; lia).
  apply IH in Hd. revert Hd. generalize (10 ^ N.of_nat (ndigits fuel (n / 10)))%N.
  intros k Hk. pose proof (N.div_mod n 10). pose proof (N.mod_lt n 10). lia.
Qed.

Lemma ndigits_pos fuel n : (0 < ndigits fuel n)%nat.
Proof. destruct fuel; simpl; [lia|]. case_match; lia. Qed.

Lemma u64_string_spec n :
  u64_to_string n <> [] /\ forallb is_ascii_digit (u64_to_string n) = true /\
  parse_digits (u64_to_string n) = n.
Proof.
  unfold u64_to_string, fmt_pad. cbn [Nat.max]. pose proof (ndigits_pos (N.size_nat n) n).
  split_and!; [|apply pad_digits_ascii|].
  - intros E. apply (f_equal length) in E. rewrite length_pad_digits in E. simpl in E. lia.
  - rewrite parse_pad_digits. apply N.mod_small. by apply ndigits_enough, size_nat_bound.
Qed.

Lemma ascii_digit_facts c :
  is_ascii_digit c = true -> is_scalar c /\ is_whitespace c = false /\ (c =? chr "+")%N = false.
Proof.
  unfold is_ascii_digit. intros H. bdestr. unfold is_scalar. split; [lia|].
  change (chr "+") with 43%N.
  split; [|apply N.eqb_neq; lia].
  unfold is_whitespace.
  repeat match goal with
  | |- context [(?a <=? c)%N] => rewrite (proj2 (N.leb_gt a c)) by lia
  | |- context [(c <=? ?a)%N] => rewrite (proj2 (N.leb_gt c a)) by lia
  | |- context [(c =? ?a)%N] => rewrite (proj2 (N.eqb_neq c a)) by lia
  end.
  repeat (rewrite ?andb_false_r, ?orb_false_r; cbn [andb orb]). done.
Qed.

Lemma split_on_none p s : forallb (fun c => negb (p c)) s = true -> split_on p s = [s].
Proof.
  induction s as [|c s IH]; [done|]. cbn [forallb split_on]. intros [Hc Hs]%andb_prop.
  rewrite IH by done. by destruct (p c).
Qed.

Lemma digits_facts ds :
  forallb is_ascii_digit ds = true ->
  Forall is_scalar ds /\ forallb (fun c => negb (is_whitespace c)) ds = true.
Proof.
  induction ds as [|c ds IH]; [done|]. cbn [forallb].
  intros [(Hs & Hw & _)%ascii_digit_facts [Hf Hb]%IH]%andb_prop.
  split; [by constructor|]. by rewrite Hw, Hb.
Qed.

Lemma parse_u64_string n : (n < 2 ^ 64)%N -> parse_u64_str (u64_to_string n) = Some n.
Proof.
  intros Hn. destruct (u64_string_spec n) as (Hne & Hd & Hp). unfold parse_u64_str.
  assert ((match u64_to_string n with
           | c :: (_ :: _) as r => if (c =? chr "+")%N then r else u64_to_string n
           | _ => u64_to_string n end) = u64_to_string n) as ->.
  { destruct (u64_to_string n) as [|c [|c' r]] eqn:E; try done.
    cbn [forallb] in Hd. apply andb_prop in Hd as [(_ & _ & ->)%ascii_digit_facts _]. done. }
  rewrite bool_decide_eq_false_2, Hd by done. cbn [orb negb]. unfold parse_u64. cbv zeta.
  by rewrite Hp, (proj2 (N.ltb_lt _ _)).
Qed.

(** A token an owner can mint: not empty, no white space. *)
Definition owner_ok (o : rstring) : Prop :=
  o <> [] /\ Forall is_scalar o /\ forallb (fun c => negb (is_whitespace c)) o = true.

Lemma lock_body_tokens ts o :
  owner_ok o -> from_utf8 (lock_body ts (Some o)) = Some (u64_to_string ts ++ lit " " ++ o) /\
  split_whitespace (u64_to_string ts ++ lit " " ++ o) = [u64_to_string ts; o].
Proof.
  intros (Hne & Hs & Hw). destruct (u64_string_spec ts) as (Hn & Hd & _).
  destruct (digits_facts _ Hd) as [Hds Hdw]. split.
  - unfold lock_body. apply from_as_bytes, Forall_app. split; [done|].
    apply Forall_app. split; [|done]. constructor; [left; by vm_compute|constructor].
  - unfold split_whitespace. change (lit " " ++ o) with (32%N :: o).
    rewrite split_on_app by done. rewrite !split_on_none by done. cbn [app List.filter].
    unfold is_nonempty. by rewrite !bool_decide_eq_false_2.
Qed.

Lemma parse_owner_body ts o : owner_ok o -> parse_owner (lock_body ts (Some o)) = Some o.
Proof.
  intros Ho. destruct (lock_body_tokens ts o Ho) as [E1 E2]. unfold parse_owner.
  rewrite E1. simpl. unfold lit in E2 |- *. simpl in E2. by rewrite E2.
Qed.

Lemma parse_stamp_body ts o : owner_ok o -> (ts < 2 ^ 64)%N ->
  parse_stamp (lock_body ts (Some o)) = ts.
Proof.
  intros Ho Hts. destruct (lock_body_tokens ts o Ho) as [E1 E2]. unfold parse_stamp.
  rewrite E1. simpl. unfold lit in E2 |- *. simpl in E2. rewrite E2. simpl.
  by rewrite parse_u64_string.
Qed.

(** The lock object round-trips: stamp and owner are read back from the body
    of a lease, the stamp from that of a plain lock, which names no owner. *)
Theorem lock_body_roundtrip ts o :
  (ts < 2 ^ 64)%N -> owner_ok o ->
  parse_stamp (lock_body ts (Some o)) = ts /\ parse_owner (lock_body ts (Some o)) = Some o /\
  parse_stamp (lock_body ts None) = ts /\ parse_owner (lock_body ts None) = None.
Proof.
  intros Hts Ho. split_and!; [by apply parse_stamp_body|by apply parse_owner_body|..];
    destruct (u64_string_spec ts) as (Hn & Hd & _); destruct (digits_facts _ Hd) as [Hds Hdw];
    unfold parse_stamp, parse_owner, lock_body; rewrite from_as_bytes by done; simpl;
    unfold split_whitespace; rewrite split_on_none by done; cbn [List.filter];
    unfold is_nonempty; rewrite bool_decide_eq_false_2 by done; simpl; [|done].
  by rewrite parse_u64_string.
Qed.

(** ** Who writes the lease object *)

(** What an instance of token [o] may do in the operation [op] after [seen]:
    overwrite the version it has read, as long as the contents read allow it;
    delete the object when it has found none, or as the holder. *)
Definition may_replace (o : rstring) (op : LeaseOp) (seen : Seen) (held : bytes) : Prop :=
  match op with
  | Acquire ttl => exists now, seen.1 !! 1%nat = Some now /\ is_live now (parse_stamp held) ttl = false
  | Renew => parse_owner held = Some o
  | Release => False
  end.
Definition may_delete (o : rstring) (op : LeaseOp) (seen : Seen) : Prop :=
  match op with
  | Acquire _ => seen.2 = []
  | Renew => False
  | Release => exists held, seen.2 = [(held, None)] /\ parse_owner held = Some o
  end.

Section exclusion.
Context (key : rstring) (o : rstring) (op : LeaseOp).

(** A program that only does what it may, on a store with compare-and-swap, and
    ends as the holder only right after the object has named [o]. *)
Inductive lawful : Seen -> LockProg bool -> Prop :=
| lawful_ret seen b : lawful seen (LRet b)
| lawful_throw seen e : lawful seen (LThrow e)
| lawful_now seen k : (forall t, lawful (see seen ([t], [])) (k t) /\ k t <> LRet true) -> lawful seen (LNow k)
| lawful_create seen body k :
    parse_owner body = Some o -> op <> Release ->
    (forall b, lawful (see seen nothing_seen) (k (Some b))) -> k (Some false) <> LRet true -> lawful seen (LCreate body k)
| lawful_get_cas seen k :
    lawful (see seen nothing_seen) (k None) -> k None <> LRet true ->
    (forall held v, lawful (see seen ([], [(held, Some v)])) (k (Some (held, Some v))) /\ k (Some (held, Some v)) <> LRet true) ->
    lawful seen (LGetCas k)
| lawful_put_cas seen body held u k :
    parse_owner body = Some o -> (held, Some u) ∈ seen.2 -> may_replace o op seen held ->
    (forall t, lawful (see seen nothing_seen) (k (Written t))) -> lawful (see seen nothing_seen) (k Stale) -> k Stale <> LRet true ->
    lawful seen (LPutCas body (Some u) k)
| lawful_get seen k :
    lawful (see seen nothing_seen) (k None) -> (forall held, lawful (see seen ([], [(held, None)])) (k (Some held))) ->
    (forall r, k r = LRet true -> r ≫= parse_owner = Some o) -> lawful seen (LGet k)
| lawful_delete seen k : may_delete o op seen -> lawful (see seen nothing_seen) k -> k <> LRet true -> lawful seen (LDelete k).
End exclusion.

Lemma see_nothing seen : see seen nothing_seen = seen.
Proof. destruct seen. unfold see. cbn. by rewrite !app_nil_r. Qed.

Lemma claim_lawful o ttl : owner_ok o -> lawful o (Acquire ttl) nothing_seen (lease_prog o (Acquire ttl)).
Proof.
  intros Ho. cbn. unfold claim_for. constructor. intros ts. split; [|done]. unfold try_claim. constructor. intros now. split; [|done].
  apply lawful_create; [by apply parse_owner_body|done| |done]. intros []; [constructor|].
  rewrite see_nothing. apply lawful_get_cas; [|done|].
  - apply lawful_delete; [done| |done]. apply lawful_create; [by apply parse_owner_body|done| |done]. constructor.
  - intros held v. destruct (is_live now (parse_stamp held) ttl) eqn:El; (split; [|done]); [constructor|].
    apply (lawful_put_cas _ _ _ _ held); [by apply parse_owner_body|by left| |constructor..|done]. by exists now.
Qed.
Lemma renew_lawful o : owner_ok o -> lawful o Renew nothing_seen (lease_prog o Renew).
Proof.
  intros Ho. cbn. apply lawful_get_cas; [|done|].
  - constructor. intros ts. split; [|done]. apply lawful_create; [by apply parse_owner_body|done| |done]. intros []; constructor.
  - intros held v. case_bool_decide as Hh; cbn; (split; [|done]); [|constructor]. constructor. intros ts. split; [|done].
    apply (lawful_put_cas _ _ _ _ held); [by apply parse_owner_body|by left|done|constructor| |done].
    apply lawful_get; [case_bool_decide; constructor|intros b; case_bool_decide; constructor|].
    intros r. by case_bool_decide.
Qed.
Lemma release_lawful o : lawful o Release nothing_seen (lease_prog o Release).
Proof.
  cbn. apply lawful_get.
  - case_bool_decide; [done|constructor].
  - intros held. case_bool_decide as Hh; cbn; [|constructor]. apply lawful_delete; [by exists held|constructor|done].
  - intros r. by case_bool_decide.
Qed.
Lemma prog_lawful o op : owner_ok o -> lawful o op nothing_seen (lease_prog o op).
Proof. intros Ho. destruct op; [by apply claim_lawful|by apply renew_lawful|apply release_lawful]. Qed.

(** ** Versions *)

Section versions.
Context (key : rstring).
Local Abbreviation lease w := (w_objects w !! key).

Definition fresh_versions (w : World) : Prop :=
  w_kind w = ObjectStore true /\ forall bs v, lease w = Some (bs, v) -> (v < w_next w)%N.
(** What has been read of a version: it has not other contents. *)
Definition known (w : World) (seen : Seen) : Prop :=
  forall held u, (held, Some u) ∈ seen.2 -> (u < w_next w)%N /\ forall bs, lease w = Some (bs, u) -> bs = held.
(** A version that was replaced. *)
Definition past (x : bytes * N) (w : World) : Prop := (x.2 < w_next w)%N /\ lease w <> Some x.

(** The object is as it was, gone, or a version of its own. *)
Definition moves (w w' : World) : Prop :=
  w_kind w' = w_kind w /\ (w_next w <= w_next w')%N /\
  (lease w' = lease w \/ lease w' = None \/ exists bs, lease w' = Some (bs, w_next w) /\ (w_next w < w_next w')%N).

Lemma moves_same w w' : w_kind w' = w_kind w -> w_next w' = w_next w -> lease w' = lease w -> moves w w'.
Proof. intros ? E ?. split_and!; [done|lia|by left]. Qed.
Lemma moves_fresh w w' : moves w w' -> fresh_versions w -> fresh_versions w'.
Proof.
  intros (K & N & O) [Hk Hv]. split; [congruence|]. intros bs v E. destruct O as [O|[O|(b & O & ?)]].
  - rewrite O in E. apply Hv in E. lia.
  - congruence.
  - rewrite O in E. injection E as <- <-. lia.
Qed.
Lemma moves_known w w' seen : moves w w' -> known w seen -> known w' seen.
Proof.
  intros (K & N & O) Hs held u Hin. destruct (Hs _ _ Hin) as [Hu Hb]. split; [lia|]. intros bs E. destruct O as [O|[O|(b & O & ?)]].
  - rewrite O in E. by apply Hb.
  - congruence.
  - rewrite O in E. injection E as <- <-. lia.
Qed.
Lemma moves_past w w' x : moves w w' -> past x w -> past x w'.
Proof.
  intros (K & N & O) [Hx Hp]. split; [lia|]. destruct O as [-> |[-> |(b & -> & ?)]]; [done..|].
  intros [= <-]. cbn in Hx. lia.
Qed.
Lemma known_see w s1 s2 : known w s1 -> known w s2 -> known w (see s1 s2).
Proof. intros H1 H2 held u. cbn. rewrite elem_of_app. intros [?|?]; [by apply H1|by apply H2]. Qed.
Lemma known_nil w ck : known w (ck, []).
Proof. intros held u ?%elem_of_nil. done. Qed.

Lemma pop_fault_keeps w f w' : pop_fault w = (f, w') ->
  w_kind w' = w_kind w /\ w_next w' = w_next w /\ w_objects w' = w_objects w.
Proof. unfold pop_fault. destruct (w_faults w); intros [= <- <-]; done. Qed.

(** The three kinds of request. *)
Lemma put_cas_turn body exp (x x' : unit) w r w' : fresh_versions w -> p_put_cas key body exp x w = (r, x', w') ->
  moves w w' /\
  (lease w' = lease w \/ snd <$> lease w = exp /\ lease w' = Some (body, w_next w)) /\
  match r with
  | Ret (Written _) => snd <$> lease w = exp /\ lease w' = Some (body, w_next w)
  | Ret Stale => lease w' = lease w
  | Ret Unsupported => False
  | _ => True
  end.
Proof.
  intros [Hk _] E. unfold p_put_cas in E.
  assert (supports_cas w = true) as Hc by (unfold supports_cas; by rewrite Hk). rewrite Hc in E.
  unfold bind, of_result in E. destruct (validate_key key) as [[]|e]; cycle 1.
  { injection E as <- <- <-. split_and!; [by apply moves_same|by left|done]. }
  unfold ret in E. apply backend_call_spec in E as (f & w1 & ex & Hp & -> & -> & Ho). apply pop_fault_keeps in Hp as (K & N & O).
  unfold cas_ok in *. rewrite O in *. case_bool_decide as Hexp.
  - destruct ex; cbn [atomic].
    1, 2: split_and!; [by apply moves_same; [| |rewrite O]|left; by rewrite O|destruct r as [a| |]; [by destruct Ho as (_ & ? & _)|done..]].
    assert (lease (write_object key body w1) = Some (body, w_next w)) as Hl by (cbn; by rewrite lookup_insert_eq, N).
    split_and!; [|by right|].
    + split_and!; [done|cbn; lia|]. right. right. exists body. split; [done|]. cbn. lia.
    + destruct r as [a| |]; [|done..]. by destruct Ho as (_ & _ & ->).
  - split_and!; [by apply moves_same; [| |rewrite O]|left; by rewrite O|].
    destruct r as [a| |]; [|done..]. destruct Ho as (_ & _ & ->). by rewrite O.
Qed.

Lemma reads_turn {A} (f : World -> A) (x x' : unit) w r w' :
  (do* of_result (validate_key key) in reads f)%m x w = (r, x', w') ->
  w_kind w' = w_kind w /\ w_next w' = w_next w /\ w_objects w' = w_objects w /\
  forall a, r = Ret a -> exists w1, w_kind w1 = w_kind w /\ w_objects w1 = w_objects w /\ a = f w1.
Proof.
  unfold bind, of_result, reads. destruct (validate_key key) as [[]|e]; cycle 1.
  { intros [= <- <- <-]. split_and!; try done. }
  unfold ret. intros (f0 & w1 & ex & Hp & -> & -> & Ho)%backend_call_spec. apply pop_fault_keeps in Hp as (K & N & O).
  split_and!; [done..|]. intros a ->. destruct Ho as (_ & _ & ->). by exists w1.
Qed.

Lemma delete_turn (x x' : unit) w r w' : p_delete key x w = (r, x', w') ->
  moves w w' /\ (lease w' = lease w \/ lease w' = None).
Proof.
  unfold p_delete, bind, of_result. destruct (validate_key key) as [[]|e]; cycle 1.
  { intros [= <- <- <-]. split; [by apply moves_same|by left]. }
  unfold ret. intros (f & w1 & ex & Hp & -> & -> & Ho)%backend_call_spec. apply pop_fault_keeps in Hp as (K & N & O).
  destruct ex; cbn [atomic].
  1, 2: split; [by apply moves_same; [| |rewrite O]|left; by rewrite O].
  assert (lease (remove_object key w1) = None) as Hl by (cbn; by rewrite lookup_delete_eq).
  split; [|by right]. split_and!; [done|cbn; lia|]. right. by left.
Qed.

(** ** A turn *)

(** How the turn of an instance that makes the next request of [p] changes the
    object. *)
Definition fair_change (o : rstring) (op : LeaseOp) (seen : Seen) (w w' : World) : Prop :=
  match lease w' with
  | Some (bs, _) =>
      parse_owner bs = Some o /\
      match lease w with
      | None => op <> Release
      | Some (held, u) => (held, Some u) ∈ seen.2 /\ may_replace o op seen held
      end
  | None => may_delete o op seen
  end.
Definition names (o : rstring) (w : World) : Prop := object w key ≫= parse_owner = Some o.

Lemma request_turn o op seen p w r w' :
  lawful o op seen p -> known w seen -> fresh_versions w -> request key p tt w = (r, tt, w') ->
  moves w w' /\ (lease w' = lease w \/ fair_change o op seen w w') /\
  (forall seen' p', r = Ret (seen', p') ->
     lawful o op (see seen seen') p' /\ known w' (see seen seen') /\ (p' = LRet true -> p = LRet true \/ names o w')).
Proof.
  intros Hp Hs Hw E. unfold fair_change, names, object.
  assert (forall s', known w' s' -> moves w w' -> known w' (see seen s')) as Hsee.
  { intros s' H1 Hm. apply known_see; [by eapply moves_known|done]. }
  destruct Hp as [seen b|seen e|seen k Hk|seen body k Hb Hop Hk Hf|seen k Hn Hnt Hk|seen body held u k Hb Hin Hm Hk Hst Hnt|seen k Hn Hk Ht|seen k Hd Hk Hnt];
    cbn [request] in E.
  - injection E as <- <-. split_and!; [by apply moves_same|by left|]. intros ? ? [= <- <-]. split_and!; [constructor| |by left].
    by rewrite see_nothing.
  - injection E as <- <-. split_and!; [by apply moves_same|by left|]. intros ? ? [= <- <-]. split_and!; [constructor| |done].
    by rewrite see_nothing.
  - unfold bind, now_secs in E. destruct (read_clock w) as [t w1] eqn:Er. injection E as <- <-.
    assert (moves w w1) as Hmv by (unfold read_clock in Er; destruct (w_clock w); injection Er as <- <-; by apply moves_same).
    split_and!; [done|left; unfold read_clock in Er; destruct (w_clock w); by injection Er as <- <-|].
    intros ? ? [= <- <-]. destruct (Hk t) as [? ?]. split_and!; [done| |done]. apply Hsee; [apply known_nil|done].
  - unfold p_try_create_exclusive, bind in E. destruct (p_put_cas key body None tt w) as [[r1 []] w1] eqn:Ec.
    apply put_cas_turn in Ec as (Hmv & Hch & Hr); [|done].
    assert (w' = w1) as -> by (destruct r1; by injection E as <- <-).
    split_and!; [done| |].
    + destruct Hch as [?|[He ->]]; [by left|right]. split; [done|]. by destruct (lease w).
    + intros seen' p' ->. destruct r1 as [a| |]; [|done..]. unfold ret in E. injection E as <- <-.
      assert (known w1 (see seen nothing_seen)) by (apply Hsee; [apply known_nil|done]).
      destruct a; [|by split_and!|done]. split_and!; [done..|]. intros _. right. destruct Hr as [_ ->]. cbn. done.
  - unfold bind, p_get_cas in E. match type of E with (let (_, _) := ?t in _) = _ => destruct t as [[r1 []] w1] eqn:Er end. apply reads_turn in Er as (K & N & O & Hr).
    assert (moves w w1) as Hmv by (apply moves_same; [done..|by rewrite O]).
    assert (w' = w1) as -> by (destruct r1; by injection E as <- <-).
    split_and!; [done|left; by rewrite O|]. intros seen' p' ->. destruct r1 as [a| |]; [|done..]. unfold ret in E. injection E as <- <-.
    destruct (Hr _ eq_refl) as (w2 & K2 & O2 & ->). rewrite O2.
    assert (supports_cas w2 = true) as -> by (unfold supports_cas; rewrite K2; by rewrite (proj1 Hw)).
    destruct (lease w) as [[held v]|] eqn:El; cbn [fmap option_fmap option_map fst snd].
    + destruct (Hk held v) as [? ?]. split_and!; [done| |done]. apply Hsee; [|done].
      intros h u [= -> ->]%list_elem_of_singleton. destruct Hw as [_ Hv]. split; [rewrite N; by eapply Hv|]. rewrite O, El. by intros bs [= ->].
    + split_and!; [done| |done]. apply Hsee; [apply known_nil|done].
  - unfold bind in E. destruct (p_put_cas key body (Some u) tt w) as [[r1 []] w1] eqn:Ec.
    apply put_cas_turn in Ec as (Hmv & Hch & Hr); [|done].
    assert (w' = w1) as -> by (destruct r1; by injection E as <- <-).
    split_and!; [done| |].
    + destruct Hch as [?|[He ->]]; [by left|right]. split; [done|]. destruct (lease w) as [[bs v]|] eqn:El; [|done]. cbn in He. injection He as ->.
      destruct (Hs _ _ Hin) as [_ Hbs]. by rewrite (Hbs bs El).
    + intros seen' p' ->. destruct r1 as [a| |]; [|done..]. unfold ret in E. injection E as <- <-.
      assert (known w1 (see seen nothing_seen)) by (apply Hsee; [apply known_nil|done]).
      destruct a; [|by split_and!|done]. split_and!; [done..|]. intros _. right. destruct Hr as [_ ->]. cbn. done.
  - unfold bind, p_get in E. match type of E with (let (_, _) := ?t in _) = _ => destruct t as [[r1 []] w1] eqn:Er end. apply reads_turn in Er as (K & N & O & Hr).
    assert (moves w w1) as Hmv by (apply moves_same; [done..|by rewrite O]).
    assert (w' = w1) as -> by (destruct r1; by injection E as <- <-).
    split_and!; [done|left; by rewrite O|]. intros seen' p' ->. destruct r1 as [a| |]; [|done..]. unfold ret in E. injection E as <- <-.
    destruct (Hr _ eq_refl) as (w2 & K2 & O2 & ->). unfold object. rewrite O2, O.
    destruct (lease w) as [[held v]|]; cbn [fmap option_fmap option_map fst].
    + split_and!; [done| |intros ->%Ht; by right]. apply Hsee; [|done]. by intros h u ?%list_elem_of_singleton.
    + split_and!; [done| |intros ->%Ht; by right]. apply Hsee; [apply known_nil|done].
  - unfold bind in E. destruct (p_delete key tt w) as [[r1 []] w1] eqn:Ed. apply delete_turn in Ed as (Hmv & Hch).
    assert (w' = w1) as -> by (destruct r1; by injection E as <- <-).
    split_and!; [done| |].
    + destruct Hch as [?| ->]; [by left|by right].
    + intros seen' p' ->. destruct r1 as [a| |]; [|done..]. unfold ret in E. injection E as <- <-.
      split_and!; [done| |done]. apply Hsee; [apply known_nil|done].
Qed.
End versions.

(** ** The runs *)

Section runs.
Context (key : rstring).
Local Abbreviation lease s := (w_objects (sy_world s) !! key).
Local Abbreviation step := (lease_step key).

Definition phase_ok (w : World) (inst : rstring * Phase) : Prop :=
  owner_ok inst.1 /\ match inst.2 with Run op seen p => lawful inst.1 op seen p /\ known key w seen | Idle _ | Gone => True end.
Definition sys_ok (s : LeaseSys) : Prop := fresh_versions key (sy_world s) /\ Forall (phase_ok (sy_world s)) (sy_insts s).

(** At first no instance is in an operation. *)
Definition lease_start (s : LeaseSys) : Prop :=
  fresh_versions key (sy_world s) /\ Forall (fun inst => owner_ok inst.1 /\ exists holds, inst.2 = Idle holds) (sy_insts s).
Lemma start_ok s : lease_start s -> sys_ok s.
Proof. intros [Hf Hi]. split; [done|]. eapply Forall_impl; [exact Hi|]. intros [o ph] [Ho [b Hb]]. cbn in Hb. subst. by split. Qed.

(** A turn, by the request it makes. *)
Lemma turn_cases i op s s' : lease_turn key i op s = Some s' ->
  exists o ph ph', sy_insts s !! i = Some (o, ph) /\ sy_insts s' = <[i := (o, ph')]> (sy_insts s) /\
    (sy_world s' = sy_world s /\
       ((exists b, ph' = Idle b) \/ exists op, ph' = Run op nothing_seen (lease_prog o op)) \/
     exists op seen p r, ph = Run op seen p /\ p <> LRet true /\ request key p tt (sy_world s) = (r, tt, sy_world s') /\
       ph' = match r with Ret (seen', p) => Run op (see seen seen') p | Fail e => Idle (holds_after op e) | Dead => Gone end).
Proof.
  unfold lease_turn. destruct (sy_insts s !! i) as [[o ph]|] eqn:Ei; [|done]. cbn [mbind option_bind].
  destruct (phase_turn key o op ph (sy_world s)) as [[ph' w']|] eqn:Ep; [|done]. cbn. intros [= <-]. exists o, ph, ph'. split_and!; [done..|].
  cbn. destruct ph as [b|op1 seen p|]; cbn in Ep; [|  |done].
  - left. assert (Some (Run op nothing_seen (lease_prog o op), sy_world s) = Some (ph', w')) as [= <- <-]
      by (destruct op, b; first [exact Ep|discriminate Ep]). split; [done|]. right. by exists op.
  - destruct p as [b|e|k|body k|k|body tok k|k|body k|k]; [left|left|right..].
    1, 2: injection Ep as <- <-; split; [done|]; left; by eexists.
    all: destruct (request key _ tt (sy_world s)) as [[r []] w1] eqn:Er in Ep; injection Ep as <- <-; exists op1, seen; eexists; exists r; by split_and!.
Qed.

Lemma phase_moves w w' l : moves key w w' -> Forall (phase_ok w) l -> Forall (phase_ok w') l.
Proof.
  intros Hm Hl. eapply Forall_impl; [exact Hl|]. intros [o ph] [Ho Hp]. split; [done|]. destruct ph; try done.
  destruct Hp. split; [done|]. by eapply moves_known.
Qed.

Lemma turn_spec i op s s' : sys_ok s -> lease_turn key i op s = Some s' ->
  sys_ok s' /\ moves key (sy_world s) (sy_world s') /\
  (lease s' = lease s \/ exists o op seen p, sy_insts s !! i = Some (o, Run op seen p) /\ fair_change key o op seen (sy_world s) (sy_world s')) /\
  (forall o op seen, sy_insts s' !! i = Some (o, Run op seen (LRet true)) -> names key o (sy_world s')).
Proof.
  intros [Hf Hl] (o & ph & ph' & Ei & El & Hc)%turn_cases. pose proof (Forall_lookup_1 _ _ _ _ Hl Ei) as [Ho Hp]. cbn in Ho, Hp.
  assert (<[i := (o, ph')]> (sy_insts s) !! i = Some (o, ph')) as Ei' by (apply list_lookup_insert_eq; by eapply lookup_lt_Some).
  destruct Hc as [[Ew Hph]|(op1 & seen & p & r & -> & Hnt & Er & ->)].
  - assert (moves key (sy_world s) (sy_world s')) as Hm by (rewrite Ew; by apply moves_same). split_and!; [|done|left; by rewrite Ew|].
    + split; [by rewrite Ew|]. rewrite El, Ew. apply Forall_insert; [done|]. split; [done|]. cbn.
      destruct Hph as [[b ->]|[op1 ->]]; [done|]. split; [by apply prog_lawful|apply known_nil].
    + intros o1 op2 seen. rewrite El, Ei'. destruct Hph as [[b ->]|[op1 ->]]; [done|]. intros [= _ _ _ Hlr]. by destruct op1.
  - destruct Hp as [Hp Hs]. destruct (request_turn key o op1 seen p _ r _ Hp Hs Hf Er) as (Hm & Hch & Hr). split_and!; [|done| |].
    + split; [by eapply moves_fresh|]. rewrite El. apply Forall_insert; [by eapply phase_moves|]. split; [done|]. cbn.
      destruct r as [[seen' p']|e|]; [|done..]. by destruct (Hr _ _ eq_refl) as (? & ? & _).
    + destruct Hch as [?|Hch]; [by left|right]. by exists o, op1, seen, p.
    + intros o1 op2 seen2. rewrite El, Ei'. destruct r as [[seen' p']|e|]; [|done..]. intros [= <- _ _ ->].
      destruct (Hr _ _ eq_refl) as (_ & _ & Hn). by destruct (Hn eq_refl).
Qed.

Lemma runs_spec s s' : sys_ok s -> rtc step s s' -> sys_ok s' /\ forall x, past key x (sy_world s) -> past key x (sy_world s').
Proof.
  intros Hs Hr. induction Hr as [|s s1 s2 [i op Ht] _ IH]; [done|]. destruct (turn_spec _ _ _ _ Hs Ht) as (Hs1 & Hm & _).
  destruct (IH Hs1) as [? Hp]. split; [done|]. intros x Hx. apply Hp. by eapply moves_past.
Qed.

Lemma superseded_turn o held u op i s s' : validate_key key = Ok tt -> w_faults (sy_world s) = [] ->
  fresh_versions key (sy_world s) ->
  sy_insts s !! i = Some (o, Run Renew nothing_seen (lease_prog o Renew)) -> lease s = Some (held, u) -> parse_owner held <> Some o ->
  lease_turn key i op s = Some s' -> exists seen, sy_insts s' !! i = Some (o, Run Renew seen (LThrow ELeaseLost)).
Proof.
  intros Hv Hfl [Hk _] Ei Hl Hne. unfold lease_turn. rewrite Ei. cbn. unfold bind, p_get_cas, of_result, reads, backend_call, pop_fault.
  rewrite Hv. unfold ret, bind. cbn. rewrite Hfl. cbn. rewrite Hl. cbn. intros [= <-]. cbn.
  rewrite bool_decide_eq_false_2 by done. cbn. rewrite list_lookup_insert_eq by (by eapply lookup_lt_Some). by eexists.
Qed.
End runs.

(** C25: on an object store with compare-and-swap any number of instances claim,
    renew and release the lease, their requests interleaved in any order, their
    requests failing and their processes ending at any point.  At every turn of
    every run: the object changes only to name the instance whose turn it is,
    in place of the very version that instance has read in this operation,
    which a claim does only to a lease stale at the clock it read, and a
    renewal only to its own; or to be gone, by the release of one that has read
    itself as its owner or by a claim that had found no object.  A version once
    replaced never comes back, so of the instances that have read one at most
    one replaces it.  A claim or a renewal succeeds only right after the object
    has named its instance; and a renewal that begins after a takeover is told
    that the lease is lost, when the store answers. *)
Theorem lease_exclusive key s0 s i op s' :
  lease_start key s0 -> rtc (lease_step key) s0 s -> lease_turn key i op s = Some s' ->
  let before := w_objects (sy_world s) !! key in
  let after := w_objects (sy_world s') !! key in
  (after = before \/
   exists o op seen p, sy_insts s !! i = Some (o, Run op seen p) /\
     match after with
     | Some (bs, _) =>
         parse_owner bs = Some o /\
         match before with
         | None => op <> Release
         | Some (held, u) =>
             (held, Some u) ∈ seen.2 /\
             match op with
             | Acquire ttl => exists now, seen.1 !! 1%nat = Some now /\ is_live now (parse_stamp held) ttl = false
             | Renew => parse_owner held = Some o
             | Release => False
             end
         end
     | None =>
         match op with
         | Acquire _ => seen.2 = []
         | Renew => False
         | Release => exists held, seen.2 = [(held, None)] /\ parse_owner held = Some o
         end
     end) /\
  (forall x s1, before = Some x -> after <> Some x -> rtc (lease_step key) s' s1 -> w_objects (sy_world s1) !! key <> Some x) /\
  (forall o op seen, sy_insts s' !! i = Some (o, Run op seen (LRet true)) -> object (sy_world s') key ≫= parse_owner = Some o) /\
  (forall o held u, sy_insts s !! i = Some (o, Run Renew nothing_seen (lease_prog o Renew)) ->
     before = Some (held, u) -> parse_owner held <> Some o -> validate_key key = Ok tt -> w_faults (sy_world s) = [] ->
     exists seen, sy_insts s' !! i = Some (o, Run Renew seen (LThrow ELeaseLost))).
Proof.
  intros H0 Hr Ht before after. destruct (runs_spec key s0 s (start_ok key s0 H0) Hr) as [Hs _].
  destruct (turn_spec key i op s s' Hs Ht) as (Hs' & Hm & Hch & Hn). split_and!; [exact Hch| |exact Hn|].
  - intros x s1 Hb Ha Hr1. destruct (runs_spec key s' s1 Hs' Hr1) as [_ Hp]. apply Hp. split; [|done].
    destruct x as [bs v]. apply Hs in Hb. destruct Hm as (_ & ? & _). cbn. lia.
  - intros o held u Ei Hb Hne Hv Hfl. by eapply superseded_turn; [..|exact Ei|exact Hb|exact Hne|exact Ht]; [| |apply Hs].
Qed.

Section example.

Definition ex_world (stamp : N) (owner : rstring) (clock : list N) : World :=
  {| w_kind := ObjectStore true;
     w_objects := {[lit "lock" := (lock_body stamp (Some owner), 4%N)]}; w_next := 5;
     w_faults := []; w_clock := clock |}.
Definition ex_turns (i : nat) (op : LeaseOp) (n : nat) : list (nat * LeaseOp) := replicate n (i, op).

Lemma lock_body_roundtrip_witness :
  parse_stamp (lock_body 1000 (Some (lit "71-5"))) = 1000%N /\
  parse_owner (lock_body 1000 (Some (lit "71-5"))) = Some (lit "71-5").
Proof.
  destruct (lock_body_roundtrip 1000 (lit "71-5")) as (? & ? & _); [done| |done].
  split_and!; [done| |done]. repeat constructor; by vm_compute.
Defined.

Lemma run_turns_rtc key turns s : rtc (lease_step key) s (run_turns key turns s).
Proof.
  revert s. induction turns as [|[i op] turns IH]; intros s; [done|]. cbn [run_turns].
  destruct (lease_turn key i op s) as [s1|] eqn:E; cbn; [|apply IH]. eapply rtc_l; [by exists i op|apply IH].
Qed.

(** Two claims of a stale lease: both have read it, and ask for it in turn. *)
Definition ex_start : LeaseSys :=
  {| sy_world := ex_world 1000 (lit "71-5") [1100%N; 1100%N; 1101%N; 1101%N];
     sy_insts := [(lit "72-1", Idle false); (lit "73-1", Idle false)] |}.
Definition ex_race : LeaseSys :=
  run_turns (lit "lock") (ex_turns 0 (Acquire 60) 5 ++ ex_turns 1 (Acquire 60) 5) ex_start.
Definition ex_won : LeaseSys := run_turns (lit "lock") (ex_turns 0 (Acquire 60) 1) ex_race.

Lemma ex_start_ok : lease_start (lit "lock") ex_start.
Proof.
  split; [split; [done|]|].
  - intros bs v E. vm_compute in E. injection E as _ <-. done.
  - repeat constructor; try (by exists false); try done; by vm_compute.
Qed.

Lemma lease_exclusive_witness :
  (object (sy_world ex_won) (lit "lock") ≫= parse_owner = Some (lit "72-1")) /\
  forall s, rtc (lease_step (lit "lock")) ex_won s ->
    w_objects (sy_world s) !! lit "lock" <> Some (lock_body 1000 (Some (lit "71-5")), 4%N).
Proof.
  assert (lease_turn (lit "lock") 0 (Acquire 60) ex_race = Some ex_won) as E by done.
  destruct (lease_exclusive (lit "lock") ex_start ex_race 0 (Acquire 60) ex_won) as (_ & H1 & H2 & _);
    [apply ex_start_ok|apply run_turns_rtc|exact E|]. split.
  - eapply H2. by vm_compute.
  - intros s. apply H1; [by vm_compute|]. intros Hx. apply (f_equal (fmap (M := option) snd)) in Hx. vm_compute in Hx. discriminate Hx.
Defined.

(** The loser of the race is told so. *)
Example race_lost :
  map snd (sy_insts (run_turns (lit "lock") (ex_turns 1 (Acquire 60) 2 ++ ex_turns 0 (Acquire 60) 1) ex_won)) =
    [Idle true; Idle false].
Proof. vm_compute. reflexivity. Qed.

(** A claim that finds no object deletes whatever is there by then: the holder
    releases the lease between the two probes of a claim, a third instance
    creates its own, and the claim deletes that and takes the lease too. *)
Example vanished_claim_steals :
  map snd (sy_insts (run_turns (lit "lock")
    (ex_turns 0 (Acquire 60) 4 ++ ex_turns 1 Release 4 ++ ex_turns 0 (Acquire 60) 1 ++ ex_turns 2 (Acquire 60) 5 ++
     ex_turns 0 (Acquire 60) 3)
    {| sy_world := ex_world 1000 (lit "71-5") [1010%N; 1010%N; 1011%N; 1011%N];
       sy_insts := [(lit "72-1", Idle false); (lit "71-5", Idle true); (lit "73-1", Idle false)] |})) =
    [Idle true; Idle false; Idle true].
Proof. vm_compute. reflexivity. Qed.

(** A release deletes whatever is there by then: its stale lease is taken over
    between its read and its delete, and the live lease of the new holder is
    gone, so that a third instance takes one too. *)
Example late_release_steals :
  map snd (sy_insts (run_turns (lit "lock")
    (ex_turns 0 Release 2 ++ ex_turns 1 (Acquire 60) 7 ++ ex_turns 0 Release 2 ++ ex_turns 2 (Acquire 60) 5)
    {| sy_world := ex_world 1000 (lit "71-5") [1100%N; 1100%N; 1101%N; 1101%N];
       sy_insts := [(lit "71-5", Idle true); (lit "72-1", Idle false); (lit "73-1", Idle false)] |})) =
    [Idle false; Idle true; Idle true].
Proof. vm_compute. reflexivity. Qed.
End example.
