(* ===== verification/Fuzzy.v ===== *)
(** * Fuzzy: the mistyped-fragment leg of [suggest] ([src/src/fts/fuzzy.rs])

    One Levenshtein row per character is carried down the prefixes that
    consecutive keys share, and whole subtrees are skipped: those no key of
    which can match any more, and those all of whose keys match at a distance
    already final.  [for_each_within_spec] shows that the walk visits exactly
    the keys within reach, each at its prefix distance, whatever the order of
    the keys.  [None] stands for an index out of range. *)
From S2P Require Import Prelude Floats Model TextPred.

Definition MAX_FUZZY_FRAGMENT : nat := 64.

Definition budget (chars : nat) : nat :=
  if (chars <=? 3)%nat then 0
  else if (chars <=? 7)%nat then 1
  else if (chars <=? MAX_FUZZY_FRAGMENT)%nat then 2
  else 0.

Definition capped_len (fragment : rstring) : nat := length (take (MAX_FUZZY_FRAGMENT + 1) fragment).
Definition budget_for (fragment : rstring) : nat := budget (capped_len fragment).

(** The longest common prefix of two words. *)
Fixpoint lcp (a b : list char) : nat :=
  match a, b with
  | x :: a', y :: b' => if (x =? y)%N then S (lcp a' b') else 0
  | _, _ => 0
  end.

(** The recurrence is that of [filter/text.rs]. *)
Definition extend (prev : list nat) (needle : list char) (c : char) (prefix_len : nat) : list nat :=
  prefix_len :: lev_inner c needle prev prefix_len.

(** [iter().min().unwrap_or(usize::MAX)]: [None] is the largest number. *)
Definition opt_min (a b : option nat) : option nat :=
  match a, b with
  | Some x, Some y => Some (Nat.min x y)
  | Some x, None => Some x
  | None, _ => b
  end.
Definition list_min (l : list nat) : option nat := foldr (fun x m => opt_min (Some x) m) None l.
Definition within (m : option nat) (max : nat) : bool :=
  match m with Some x => (x <=? max)%nat | None => false end.

Record walk_state := {
  ws_rows : list (list nat);
  ws_prev_key : list char;
  ws_pruned_at : option nat;
  ws_settled_at : option (nat * nat);
  ws_rows_computed : nat
}.

Section walk.
Context (needle : list char) (max : nat).

(** The rows of one key from character [k] on, up to the first hopeless row:
    the rows, the best distance, and where to cut the subtree. *)
Fixpoint key_rows (kc : list char) (k : nat) (rows : list (list nat)) (best : option nat) (computed : nat)
  : option (list (list nat) * option nat * option nat * nat) :=
  match kc with
  | [] => Some (rows, best, None, computed)
  | c :: kc' =>
      prev ← rows !! k;
      let row := extend prev needle c (k + 1) in
      last ← row !! length needle;
      let best := opt_min best (Some last) in
      let rows := rows ++ [row] in
      if negb (within (list_min row) max) then Some (rows, best, Some (k + 1), S computed)%nat
      else key_rows kc' (S k) rows best (S computed)
  end.

(** The walk of a key that is neither skipped nor settled. *)
Definition walk_from (ws : walk_state) (key : rstring) (shared : nat)
  : option (walk_state * option nat) :=
  let rows := take (shared + 1) (ws_rows ws) in
  lasts ← mapM (fun r => r !! length needle) rows;
  '(rows, best, cut, computed) ←
    key_rows (drop shared key) shared rows (list_min lasts) (ws_rows_computed ws);
  let found := within best max in
  Some ({| ws_rows := rows; ws_prev_key := key;
           ws_pruned_at := if found then None else cut;
           ws_settled_at := if found then (fun f => (f, default 0 best))%nat <$> cut else None;
           ws_rows_computed := computed |},
        if found then best else None).

(** One key of the map: skipped, settled or walked. *)
Definition step_key (ws : walk_state) (key : rstring) : option (walk_state * option nat) :=
  let shared := lcp (ws_prev_key ws) key in
  if match ws_pruned_at ws with Some p => (p <=? shared)%nat | None => false end then Some (ws, None)
  else
    match ws_settled_at ws with
    | Some (f, distance) =>
        if (f <=? shared)%nat
        then Some ({| ws_rows := ws_rows ws; ws_prev_key := ws_prev_key ws; ws_pruned_at := None;
                      ws_settled_at := ws_settled_at ws; ws_rows_computed := ws_rows_computed ws |},
                   Some distance)
        else walk_from ws key shared
    | None => walk_from ws key shared
    end.

Fixpoint walk_keys {V} (surface : list (rstring * V)) (ws : walk_state)
  : option (walk_state * list (rstring * V * nat)) :=
  match surface with
  | [] => Some (ws, [])
  | (key, stem) :: surface' =>
      '(ws, m) ← step_key ws key;
      '(ws, rest) ← walk_keys surface' ws;
      Some (ws, match m with Some d => (key, stem, d) :: rest | None => rest end)
  end.

Definition walk_init : walk_state :=
  {| ws_rows := [seq 0 (S (length needle))]; ws_prev_key := []; ws_pruned_at := None;
     ws_settled_at := None; ws_rows_computed := 0 |}.
End walk.

(** The calls of [on_match], in order, and the rows computed. *)
Definition for_each_within {V} (surface : list (rstring * V)) (needle : rstring) (max : nat)
  : option (list (rstring * V * nat) * nat) :=
  '(ws, out) ← walk_keys needle max surface (walk_init needle);
  Some (out, ws_rows_computed ws).

(** ** The reference *)

(** The distance from the needle to the nearest prefix of a key. *)
Definition lev (needle p : list char) : nat := lev_ref (rev p) (rev needle).
Definition prefix_distance (needle key : list char) : nat :=
  default 0%nat (list_min (map (fun k => lev needle (take k key)) (seq 0 (S (length key))))).

Definition within_keys {V} (surface : list (rstring * V)) (needle : list char) (max : nat)
  : list (rstring * V * nat) :=
  omap (fun ks : rstring * V =>
    let d := prefix_distance needle ks.1 in
    if (d <=? max)%nat then Some (ks, d) else None) surface.

Example for_each_within_ex :
  for_each_within [(lit "apple", 1%nat); (lit "nickel", 2%nat); (lit "nicklaus", 3%nat);
                   (lit "nidus", 4%nat); (lit "zebra", 5%nat)] (lit "nidu") 1 =
  Some ([(lit "nidus", 4%nat, 0%nat)], 11%nat).
Proof. vm_compute. reflexivity. Qed.

(** ** Rows *)

Lemma take_take_le {A} (l : list A) n m : (n <= m)%nat -> take n (take m l) = take n l.
Proof. intros H. by rewrite take_take, Nat.min_l. Qed.

Lemma lcp_take a b : take (lcp a b) a = take (lcp a b) b.
Proof.
  revert b. induction a as [|x a IH]; intros [|y b]; try done. cbn.
  destruct (N.eqb_spec x y) as [->|]; [|done]. cbn. by rewrite IH.
Qed.

Lemma lcp_le_l a b : (lcp a b <= length a)%nat.
Proof.
  revert b. induction a as [|x a IH]; intros [|y b]; cbn; try lia.
  destruct (x =? y)%N; [|lia]. specialize (IH b). lia.
Qed.

Lemma lcp_le_r a b : (lcp a b <= length b)%nat.
Proof.
  revert b. induction a as [|x a IH]; intros [|y b]; cbn; try lia.
  destruct (x =? y)%N; [|lia]. specialize (IH b). lia.
Qed.

(** A longer shared prefix contains every shorter one. *)
Lemma lcp_take_le a b n : (n <= lcp a b)%nat -> take n a = take n b.
Proof.
  intros H. rewrite <- (take_take_le a n (lcp a b)), lcp_take by done. by apply take_take_le.
Qed.

Lemma opt_min_assoc a b c : opt_min (opt_min a b) c = opt_min a (opt_min b c).
Proof. destruct a, b, c; cbn; try done. f_equal. lia. Qed.

Lemma list_min_app l1 l2 : list_min (l1 ++ l2) = opt_min (list_min l1) (list_min l2).
Proof.
  induction l1 as [|x l1 IH]; [done|]. cbn [app list_min foldr] in *.
  unfold list_min in IH. by rewrite IH, opt_min_assoc.
Qed.

Lemma list_min_cons x l : exists m, list_min (x :: l) = Some m /\ m ∈ x :: l /\ forall y, y ∈ x :: l -> (m <= y)%nat.
Proof.
  revert x. induction l as [|z l IH]; intros x.
  - exists x. split; [done|]. split; [constructor|]. intros y [->|H]%elem_of_cons; [done|by apply elem_of_nil in H].
  - destruct (IH z) as (m & Em & Hin & Hle). exists (Nat.min x m).
    change (list_min (x :: z :: l)) with (opt_min (Some x) (list_min (z :: l))). rewrite Em.
    split; [done|]. split.
    + destruct (Nat.min_spec x m) as [[_ ->]|[_ ->]]; [constructor|by constructor].
    + intros y [->|Hy]%elem_of_cons; [lia|]. specialize (Hle y Hy). lia.
Qed.

Lemma list_min_Some l m : list_min l = Some m -> m ∈ l /\ forall y, y ∈ l -> (m <= y)%nat.
Proof.
  destruct l as [|x l]; [done|]. destruct (list_min_cons x l) as (m' & -> & ?). by intros [= ->].
Qed.

Lemma within_false l max : within (list_min l) max = false <-> forall y, y ∈ l -> (max < y)%nat.
Proof.
  destruct l as [|x l]; cbn [within].
  { split; [|done]. intros _ y H. by apply elem_of_nil in H. }
  destruct (list_min_cons x l) as (m & -> & Hin & Hle). cbn. rewrite Nat.leb_gt. split.
  - intros H y Hy. specialize (Hle y Hy). lia.
  - intros H. by apply H.
Qed.

(** Every entry of a row is at least some entry of the row above it. *)
Lemma lev_ref_above c ra rb :
  exists rb', rb' `suffix_of` rb /\ (lev_ref ra rb' <= lev_ref (c :: ra) rb)%nat.
Proof.
  induction rb as [|y rb IH].
  - exists []. split; [done|]. rewrite !lev_ref_nil_r. cbn. lia.
  - rewrite lev_ref_cons.
    destruct (Nat.min_spec (Nat.min (lev_ref ra rb + (if (c =? y)%N then 0 else 1))
                             (lev_ref ra (y :: rb) + 1)) (lev_ref (c :: ra) rb + 1))
      as [[_ ->]|[_ ->]].
    + destruct (Nat.min_spec (lev_ref ra rb + (if (c =? y)%N then 0 else 1))
                             (lev_ref ra (y :: rb) + 1)) as [[_ ->]|[_ ->]].
      * exists rb. split; [by apply suffix_cons_r|]. lia.
      * exists (y :: rb). split; [done|]. lia.
    + destruct IH as (rb' & Hs & Hle). exists rb'. split; [by apply suffix_cons_r|]. lia.
Qed.

Lemma lev_ref_above_app l ra rb :
  exists rb', rb' `suffix_of` rb /\ (lev_ref ra rb' <= lev_ref (l ++ ra) rb)%nat.
Proof.
  revert rb. induction l as [|c l IH]; intros rb; [by exists rb|].
  destruct (lev_ref_above c (l ++ ra) rb) as (r1 & H1 & L1).
  destruct (IH r1) as (r2 & H2 & L2). exists r2. split; [by etrans|]. cbn [app]. lia.
Qed.

Lemma elem_of_lev_row ra rb b x :
  x ∈ lev_row ra rb b <-> exists b1, b1 `prefix_of` b /\ x = lev_ref ra (rev b1 ++ rb).
Proof.
  revert rb. induction b as [|y b IH]; intros rb; cbn [lev_row].
  - rewrite list_elem_of_singleton. split.
    + intros ->. by exists [].
    + intros (b1 & ->%prefix_nil_inv & ->). done.
  - rewrite elem_of_cons, IH. split.
    + intros [->|(b1 & Hp & ->)]; [exists []; split; [apply prefix_nil|done]|].
      exists (y :: b1). split; [by apply prefix_cons|]. cbn [rev]. by rewrite <- app_assoc.
    + intros ([|z b1] & Hp & ->); [by left|]. right.
      pose proof (prefix_cons_inv_1 _ _ _ _ Hp) as ->. apply prefix_cons_inv_2 in Hp.
      exists b1. split; [done|]. cbn [rev]. by rewrite <- app_assoc.
Qed.

Section spec.
Context (needle : list char) (max : nat).

Definition row_of (p : list char) : list nat := lev_row (rev p) [] needle.

Lemma row_of_last p : row_of p !! length needle = Some (lev needle p).
Proof. unfold row_of, lev. by rewrite lev_row_last, app_nil_r. Qed.

Lemma extend_row p c : extend (row_of p) needle c (length p + 1) = row_of (p ++ [c]).
Proof.
  unfold extend, row_of. rewrite rev_unit. pose proof (lev_inner_row c (rev p) needle []) as E.
  rewrite lev_ref_nil_r in E. cbn [length] in E. rewrite length_rev in E.
  by rewrite Nat.add_1_r, E.
Qed.

(** A row all of whose entries exceed the bound. *)
Definition hopeless (p : list char) : Prop := within (list_min (row_of p)) max = false.

Lemma hopeless_deeper p q : hopeless p -> (max < lev needle (p ++ q))%nat.
Proof.
  intros H. unfold lev. rewrite rev_app_distr.
  destruct (lev_ref_above_app (rev q) (rev p) (rev needle)) as (rb & [u Hu] & Hle).
  eapply Nat.lt_le_trans; [|exact Hle]. unfold hopeless in H. rewrite within_false in H. apply H.
  unfold row_of. apply elem_of_lev_row. exists (rev rb). split.
  - exists (rev u). apply (f_equal (@rev char)) in Hu.
    by rewrite rev_involutive, rev_app_distr in Hu.
  - by rewrite rev_involutive, app_nil_r.
Qed.

(** The best distance over the prefixes of up to [m] characters. *)
Definition best_upto (key : list char) (m : nat) : option nat :=
  list_min (map (fun k => lev needle (take k key)) (seq 0 (S m))).

Lemma best_upto_S key m : best_upto key (S m) = opt_min (best_upto key m) (Some (lev needle (take (S m) key))).
Proof.
  unfold best_upto. rewrite (seq_S (S m)), map_app, list_min_app. done.
Qed.

Lemma best_upto_Some key m : exists b, best_upto key m = Some b.
Proof. unfold best_upto. cbn [seq map]. edestruct list_min_cons as (b & -> & _). by eexists. Qed.

Lemma best_upto_ext key key' m : take m key = take m key' -> best_upto key m = best_upto key' m.
Proof.
  intros H. unfold best_upto. f_equal. apply map_ext_in. intros k [_ Hk]%in_seq. f_equal.
  rewrite <- (take_take_le key k m), <- (take_take_le key' k m), H by lia. done.
Qed.

Lemma prefix_distance_best key b : best_upto key (length key) = Some b -> prefix_distance needle key = b.
Proof. unfold prefix_distance, best_upto. by intros ->. Qed.

Lemma best_upto_hopeless key m n b :
  (m <= n)%nat -> (n <= length key)%nat -> hopeless (take m key) -> best_upto key m = Some b ->
  exists b', best_upto key n = Some b' /\ (if (b <=? max)%nat then b' = b else (max < b')%nat).
Proof.
  intros Hmn Hn Hh Hb. induction Hmn as [|n Hmn IH].
  - exists b. split; [done|]. destruct (Nat.leb_spec b max); [done|lia].
  - destruct IH as (b' & E & Hb'); [lia|]. rewrite best_upto_S, E. eexists. split; [done|].
    assert (max < lev needle (take (S n) key))%nat as Hd.
    { replace (take (S n) key) with (take m key ++ drop m (take (S n) key)); [by apply hopeless_deeper|].
      rewrite <- (take_take_le key m (S n)) by lia. apply take_drop. }
    destruct (Nat.leb_spec b max); lia.
Qed.
End spec.

(** ** The walk *)

Section walk_spec.
Context (needle : list char) (max : nat).

Definition rows_upto (key : list char) (m : nat) : list (list nat) :=
  map (fun k => row_of needle (take k key)) (seq 0 (S m)).

Lemma rows_upto_ext key key' m : take m key = take m key' -> rows_upto key m = rows_upto key' m.
Proof.
  intros H. apply map_ext_in. intros k [_ Hk]%in_seq. f_equal.
  rewrite <- (take_take_le key k m), <- (take_take_le key' k m), H by lia. done.
Qed.

Lemma take_rows_upto key m n : (n <= m)%nat -> take (n + 1) (rows_upto key m) = rows_upto key n.
Proof.
  intros H. unfold rows_upto.
  replace (S m) with (S n + (m - n))%nat by lia. rewrite seq_app, map_app.
  rewrite take_app_length'; [done|]. rewrite length_map, length_seq. lia.
Qed.

Lemma rows_upto_lasts key m :
  mapM (fun r => r !! length needle) (rows_upto key m) =
  Some (map (fun k => lev needle (take k key)) (seq 0 (S m))).
Proof.
  apply mapM_Some. unfold rows_upto. generalize (seq 0 (S m)). intros l.
  induction l as [|k l IH]; cbn [map]; constructor; [apply row_of_last|done].
Qed.

Lemma lookup_rows_upto key m k : (k <= m)%nat -> rows_upto key m !! k = Some (row_of needle (take k key)).
Proof.
  intros H. unfold rows_upto. change (@map) with (@fmap list _). by rewrite list_lookup_fmap, lookup_seq_lt by lia.
Qed.

(** Where a walk ends: at the end of the key, or at a hopeless row. *)
Definition stop_at (key : list char) (m : nat) (cut : option nat) : Prop :=
  match cut with
  | None => m = length key
  | Some f => f = m /\ (0 < m <= length key)%nat /\ hopeless needle max (take m key)
  end.

Lemma key_rows_spec key kc k computed :
  (k <= length key)%nat -> kc = drop k key ->
  exists m cut computed',
    key_rows needle max kc k (rows_upto key k) (best_upto needle key k) computed =
      Some (rows_upto key m, best_upto needle key m, cut, computed') /\ stop_at key m cut.
Proof.
  revert k computed. induction kc as [|c kc IH]; intros k computed Hk E.
  { exists k, None, computed. split; [done|]. cbn.
    apply (f_equal length) in E. rewrite length_drop in E. cbn in E. lia. }
  assert (key !! k = Some c) as Hc.
  { rewrite <- (Nat.add_0_r k), <- lookup_drop, <- E. done. }
  pose proof (lookup_lt_Some _ _ _ Hc) as Hlt.
  cbn [key_rows]. rewrite lookup_rows_upto by done. cbn [mbind option_bind].
  assert (extend (row_of needle (take k key)) needle c (k + 1) = row_of needle (take (S k) key)) as Ee.
  { rewrite (take_S_r _ _ _ Hc), <- extend_row, length_take. f_equal. lia. }
  rewrite Ee, row_of_last. cbn [mbind option_bind].
  rewrite <- best_upto_S.
  assert (rows_upto key k ++ [row_of needle (take (S k) key)] = rows_upto key (S k)) as Er.
  { unfold rows_upto. by rewrite (seq_S (S k)), map_app. }
  rewrite Er. destruct (within (list_min (row_of needle (take (S k) key))) max) eqn:Ew; cbn [negb].
  - apply IH; [lia|]. apply (f_equal (drop 1)) in E. rewrite drop_drop in E.
    rewrite Nat.add_1_r in E. exact E.
  - exists (S k), (Some (S k)), (S computed). rewrite Nat.add_1_r. split; [done|]. cbn. split; [done|].
    split; [lia|exact Ew].
Qed.

(** What a state promises of the keys that share the given prefix. *)
Definition ws_ok (ws : walk_state) : Prop :=
  let key := ws_prev_key ws in
  exists m, ws_rows ws = rows_upto key m /\ (m <= length key)%nat /\
  match ws_pruned_at ws, ws_settled_at ws with
  | None, None => m = length key
  | Some p, None => p = m /\ forall key', take m key' = take m key -> (m <= length key')%nat ->
      (max < prefix_distance needle key')%nat
  | None, Some (f, d) => f = m /\ (d <= max)%nat /\
      forall key', take m key' = take m key -> (m <= length key')%nat -> prefix_distance needle key' = d
  | Some _, Some _ => False
  end.

Lemma ws_ok_init : ws_ok (walk_init needle).
Proof.
  exists 0%nat. split; [|done]. cbn. unfold rows_upto, row_of. cbn [seq map take rev].
  by rewrite (lev_row_seq needle []).
Qed.

Definition answer (key : rstring) : option nat :=
  let d := prefix_distance needle key in if (d <=? max)%nat then Some d else None.

Lemma hopeless_distance key m b :
  (m <= length key)%nat -> hopeless needle max (take m key) -> best_upto needle key m = Some b ->
  forall key', take m key' = take m key -> (m <= length key')%nat ->
    if (b <=? max)%nat then prefix_distance needle key' = b else (max < prefix_distance needle key')%nat.
Proof.
  intros Hm Hh Hb key' Ht Hm'.
  rewrite (best_upto_ext needle key key' m) in Hb by done. rewrite <- Ht in Hh.
  destruct (best_upto_hopeless needle max key' m (length key') b) as (b' & E & H); [done..|].
  apply prefix_distance_best in E as ->. exact H.
Qed.

Lemma walk_from_spec ws key m :
  ws_rows ws = rows_upto (ws_prev_key ws) m -> (lcp (ws_prev_key ws) key <= m)%nat ->
  exists ws', walk_from needle max ws key (lcp (ws_prev_key ws) key) = Some (ws', answer key) /\ ws_ok ws'.
Proof.
  intros Hrows Hm. unfold walk_from. rewrite Hrows, take_rows_upto by done.
  rewrite (rows_upto_ext (ws_prev_key ws) key) by apply lcp_take.
  rewrite rows_upto_lasts. cbn [mbind option_bind].
  change (list_min (map _ (seq 0 (S ?n)))) with (best_upto needle key n).
  destruct (key_rows_spec key (drop (lcp (ws_prev_key ws) key) key) (lcp (ws_prev_key ws) key)
              (ws_rows_computed ws)) as (n & cut & computed & E & Hs); [apply lcp_le_r|done|].
  rewrite E. cbn [mbind option_bind].
  destruct (best_upto_Some needle key n) as [b Hb]. rewrite Hb. cbn [within default from_option].
  eexists. split.
  - f_equal. f_equal. unfold answer. destruct cut as [f|]; cbn in Hs.
    + destruct Hs as (-> & Hn & Hh).
      pose proof (hopeless_distance key n b ltac:(lia) Hh Hb key eq_refl ltac:(lia)) as H.
      destruct (Nat.leb_spec b max) as [Hle|Hlt].
      * rewrite H. by apply Nat.leb_le in Hle as ->.
      * by apply Nat.leb_gt in H as ->.
    + subst n. apply prefix_distance_best in Hb as ->. done.
  - exists n. cbn. split; [done|]. destruct cut as [f|]; cbn in Hs.
    + destruct Hs as (-> & Hn & Hh). split; [lia|].
      pose proof (hopeless_distance key n b ltac:(lia) Hh Hb) as H.
      destruct (Nat.leb_spec b max); cbn; [|done]. done.
    + subst n. split; [done|]. by destruct (b <=? max)%nat.
Qed.

Lemma step_key_spec ws key :
  ws_ok ws -> exists ws', step_key needle max ws key = Some (ws', answer key) /\ ws_ok ws'.
Proof.
  intros (m & Hrows & Hm & Hcut). unfold step_key.
  pose proof (lcp_take_le (ws_prev_key ws) key m) as Ht.
  pose proof (lcp_le_r (ws_prev_key ws) key) as Hl.
  pose proof (lcp_le_l (ws_prev_key ws) key) as Hl'.
  destruct (ws_pruned_at ws) as [p|] eqn:Ep, (ws_settled_at ws) as [[f d]|] eqn:Es; [done|..].
  - destruct Hcut as [-> Hcut]. destruct (Nat.leb_spec m (lcp (ws_prev_key ws) key)).
    + exists ws. split.
      * unfold answer. rewrite (proj2 (Nat.leb_gt _ _)); [done|]. apply Hcut; [by rewrite Ht|lia].
      * exists m. rewrite Ep, Es. auto.
    + apply (walk_from_spec ws key m); [done|lia].
  - destruct Hcut as (-> & Hd & Hcut). destruct (Nat.leb_spec m (lcp (ws_prev_key ws) key)).
    + eexists. split.
      * unfold answer. rewrite (Hcut key); [|by rewrite Ht|lia]. by rewrite (proj2 (Nat.leb_le _ _) Hd).
      * exists m. cbn. auto.
    + apply (walk_from_spec ws key m); [done|lia].
  - apply (walk_from_spec ws key m); [done|lia].
Qed.

Lemma walk_keys_spec {V} (surface : list (rstring * V)) ws :
  ws_ok ws ->
  exists ws', walk_keys needle max surface ws = Some (ws', within_keys surface needle max).
Proof.
  revert ws. induction surface as [|[key v] surface IH]; intros ws Hok; [by exists ws|].
  cbn [walk_keys]. destruct (step_key_spec ws key Hok) as (ws1 & -> & Hok1). cbn [mbind option_bind].
  destruct (IH ws1 Hok1) as (ws2 & ->). cbn [mbind option_bind]. exists ws2.
  unfold within_keys, answer. cbn [omap list_omap fst].
  destruct (prefix_distance needle key <=? max)%nat; reflexivity.
Qed.
End walk_spec.

(** The walk over shared prefixes finds exactly the keys one of whose
    prefixes is within reach of the needle, each at the least distance over
    its prefixes, in the order of the keys: pruning a subtree loses nothing
    and settling one reports the right distance. *)
Theorem for_each_within_spec {V} (surface : list (rstring * V)) (needle : rstring) (max : nat) :
  fst <$> for_each_within surface needle max = Some (within_keys surface needle max).
Proof.
  unfold for_each_within.
  destruct (walk_keys_spec needle max surface _ (ws_ok_init needle max)) as (ws & ->). done.
Qed.

(** The distance is that of the fewest edits turning some prefix of the key into the needle. *)
Lemma prefix_distance_optimal needle key :
  (exists p, p `prefix_of` key /\ edit_script p needle (prefix_distance needle key)) /\
  (forall p n, p `prefix_of` key -> edit_script p needle n -> (prefix_distance needle key <= n)%nat).
Proof.
  destruct (best_upto_Some needle key (length key)) as [b Hb].
  rewrite (prefix_distance_best needle key b Hb).
  apply list_min_Some in Hb as [Hin Hle]. split.
  - apply list_elem_of_In, in_map_iff in Hin as (k & <- & _). exists (take k key).
    split; [apply prefix_take|].
    pose proof (edit_script_rev _ _ _ (lev_ref_script (rev (take k key)) (rev needle))) as H.
    by rewrite !rev_involutive in H.
  - intros p n [q ->] Hn. etrans; [apply Hle|apply lev_ref_minimal, edit_script_rev, Hn].
    apply list_elem_of_In, in_map_iff. exists (length p). rewrite take_app_length. split; [done|].
    apply in_seq. rewrite length_app. lia.
Qed.

(** A fragment too short to correct, or too long to afford, earns no edits. *)
Lemma budget_for_spec fragment :
  (budget_for fragment = 0 <->
   (length fragment <= 3 \/ MAX_FUZZY_FRAGMENT < length fragment))%nat /\ (budget_for fragment <= 2)%nat.
Proof.
  unfold budget_for, capped_len, budget, MAX_FUZZY_FRAGMENT. rewrite length_take.
  repeat match goal with |- context [(?a <=? ?b)%nat] => destruct (Nat.leb_spec a b) end; lia.
Qed.
