(* ===== verification/Analyzer.v ===== *)
(** * Analyzer: from text to terms ([src/src/fts/analyzer.rs], [src/src/fts/fold.rs])

    Text is cut into maximal alphanumeric runs, each lowercased, optionally
    folded to ASCII, dropped when it is a stopword, and reduced to its Porter
    stem.  Every token keeps the byte range it came from: [tokenize_spec]
    says that the ranges cut exactly the runs out of the text. *)
From S2P Require Import Prelude Floats Model TextPred Sort Std.

(** [char::to_lowercase], the Unicode mapping; only what it does to ASCII and
    that it never drops a character are relied on. *)
Class UnicodeLower := {
  to_lowercase : char -> list char;
  to_lowercase_ascii : forall c, (c < 128)%N -> to_lowercase c = [to_ascii_lowercase c];
  to_lowercase_some : forall c, to_lowercase c <> []
}.

(** The mapping cut down to ASCII, for evaluation. *)
Definition ascii_only_lower : UnicodeLower :=
  {| to_lowercase := fun c => [to_ascii_lowercase c];
     to_lowercase_ascii := fun c _ => eq_refl;
     to_lowercase_some := fun c => ltac:(discriminate) |}.

(** ** Folding *)

Definition LATIN1 : list rstring := Eval vm_compute in map lit [
    "a"; "a"; "a"; "a"; "a"; "a"; "ae"; "c"; "e"; "e"; "e"; "e"; "i"; "i"; "i"; "i"; "d"; "n";
    "o"; "o"; "o"; "o"; "o"; ""; "o"; "u"; "u"; "u"; "u"; "y"; "th"; "ss"; "a"; "a"; "a"; "a";
    "a"; "a"; "ae"; "c"; "e"; "e"; "e"; "e"; "i"; "i"; "i"; "i"; "d"; "n"; "o"; "o"; "o"; "o";
    "o"; ""; "o"; "u"; "u"; "u"; "u"; "y"; "th"; "y"]%string.

Definition LATIN_A : list rstring := Eval vm_compute in map lit [
    "a"; "a"; "a"; "a"; "a"; "a"; "c"; "c"; "c"; "c"; "c"; "c"; "c"; "c"; "d"; "d"; "d"; "d"; "e";
    "e"; "e"; "e"; "e"; "e"; "e"; "e"; "e"; "e"; "g"; "g"; "g"; "g"; "g"; "g"; "g"; "g"; "h"; "h";
    "h"; "h"; "i"; "i"; "i"; "i"; "i"; "i"; "i"; "i"; "i"; "i"; "ij"; "ij"; "j"; "j"; "k"; "k";
    "k"; "l"; "l"; "l"; "l"; "l"; "l"; "l"; "l"; "l"; "l"; "n"; "n"; "n"; "n"; "n"; "n"; "n"; "n";
    "n"; "o"; "o"; "o"; "o"; "o"; "o"; "oe"; "oe"; "r"; "r"; "r"; "r"; "r"; "r"; "s"; "s"; "s";
    "s"; "s"; "s"; "s"; "s"; "t"; "t"; "t"; "t"; "t"; "t"; "u"; "u"; "u"; "u"; "u"; "u"; "u"; "u";
    "u"; "u"; "u"; "u"; "w"; "w"; "y"; "y"; "y"; "z"; "z"; "z"; "z"; "z"; "z"; "s"]%string.

Definition folded (ch : char) : option rstring :=
  if ((0xC0 <=? ch) && (ch <=? 0xFF))%N then
    s ← LATIN1 !! N.to_nat (ch - 0xC0); if bool_decide (s = []) then None else Some s
  else if ((0x100 <=? ch) && (ch <=? 0x17F))%N then LATIN_A !! N.to_nat (ch - 0x100)
  else None.

(** An ASCII text is returned before any table is looked at. *)
Definition fold_ascii (text : rstring) : rstring :=
  if forallb (fun c => c <? 128)%N text then text
  else mjoin (map (fun ch => default [ch] (folded ch)) text).

(** ** Stopwords *)

Definition STOPWORDS : list rstring := Eval vm_compute in map lit [
    "a"; "about"; "above"; "after"; "again"; "against"; "all"; "am"; "an"; "and"; "any"; "are";
    "aren't"; "as"; "at"; "be"; "because"; "been"; "before"; "being"; "below"; "between"; "both";
    "but"; "by"; "can"; "can't"; "cannot"; "could"; "couldn't"; "did"; "didn't"; "do"; "does";
    "doesn't"; "doing"; "don't"; "down"; "during"; "each"; "few"; "for"; "from"; "further"; "had";
    "hadn't"; "has"; "hasn't"; "have"; "haven't"; "having"; "he"; "her"; "here"; "hers";
    "herself"; "him"; "himself"; "his"; "how"; "i"; "if"; "in"; "into"; "is"; "isn't"; "it";
    "its"; "itself"; "just"; "me"; "more"; "most"; "my"; "myself"; "no"; "nor"; "not"; "now";
    "of"; "off"; "on"; "once"; "only"; "or"; "other"; "our"; "ours"; "ourselves"; "out"; "over";
    "own"; "same"; "shan't"; "she"; "should"; "shouldn't"; "so"; "some"; "such"; "than"; "that";
    "the"; "their"; "theirs"; "them"; "themselves"; "then"; "there"; "these"; "they"; "this";
    "those"; "through"; "to"; "too"; "under"; "until"; "up"; "very"; "was"; "wasn't"; "we";
    "were"; "weren't"; "what"; "when"; "where"; "which"; "while"; "who"; "whom"; "why"; "will";
    "with"; "won't"; "would"; "wouldn't"; "you"; "your"; "yours"; "yourself"; "yourselves"]%string.

Definition is_stopword (token : rstring) : bool := binary_search (fun w => str_cmp w token) STOPWORDS.

(** ** The Porter stemmer

    The buffer of lowercase letters; every index of the source is below an
    [end] that is at most its length. *)

Definition is_vowel_letter (c : char) : bool :=
  bool_decide (c ∈ [chr "a"; chr "e"; chr "i"; chr "o"; chr "u"]%char).

Fixpoint is_consonant (b : rstring) (i : nat) : bool :=
  match b !! i with
  | None => true
  | Some c =>
      if is_vowel_letter c then false
      else if (c =? chr "y")%N then match i with O => true | S j => negb (is_consonant b j) end
      else true
  end.

(** [while i < end && p(i) { i += 1 }] *)
Fixpoint skip_run (p : nat -> bool) (fuel end_ i : nat) : nat :=
  match fuel with
  | O => i
  | S fuel' => if ((i <? end_)%nat && p i)%bool then skip_run p fuel' end_ (S i) else i
  end.

(** The loop, with fuel for its rounds. *)
Fixpoint measure_loop (b : rstring) (fuel end_ i n : nat) : nat :=
  match fuel with
  | O => n
  | S fuel' =>
      let i := skip_run (fun i => negb (is_consonant b i)) end_ end_ i in
      if (end_ <=? i)%nat then n
      else
        let i := skip_run (is_consonant b) end_ end_ i in
        if (end_ <=? i)%nat then S n else measure_loop b fuel' end_ i (S n)
  end.

Definition measure (b : rstring) (end_ : nat) : nat :=
  measure_loop b (S end_) end_ (skip_run (is_consonant b) end_ end_ 0) 0.

Definition has_vowel (b : rstring) (end_ : nat) : bool :=
  existsb (fun i => negb (is_consonant b i)) (seq 0 end_).

Definition ends_double_consonant (b : rstring) (end_ : nat) : bool :=
  (2 <=? end_)%nat && bool_decide (b !! (end_ - 1)%nat = b !! (end_ - 2)%nat) && is_consonant b (end_ - 1).

Definition cvc (b : rstring) (end_ : nat) : bool :=
  if (end_ <? 3)%nat then false
  else if negb (is_consonant b (end_ - 1)) || is_consonant b (end_ - 2) || negb (is_consonant b (end_ - 3))
  then false
  else negb (bool_decide (b !! (end_ - 1)%nat ∈ Some <$> [chr "w"; chr "x"; chr "y"]%char)).

Definition replace_if (suffix repl : String.string) (min_measure : nat) (b : rstring) : bool * rstring :=
  if negb (ends_with b (lit suffix)) then (false, b)
  else
    let stem_len := (length b - length (lit suffix))%nat in
    if (measure b stem_len <=? min_measure)%nat then (false, b)
    else (true, take stem_len b ++ lit repl).

Definition step1a (b : rstring) : rstring :=
  if ends_with b (lit "sses") then take (length b - 2) b
  else if ends_with b (lit "ies") then take (length b - 2) b
  else if ends_with b (lit "s") && negb (ends_with b (lit "ss")) then take (length b - 1) b
  else b.

Definition fixup1b (b : rstring) : rstring :=
  if ends_with b (lit "at") || ends_with b (lit "bl") || ends_with b (lit "iz") then b ++ lit "e"
  else if ends_double_consonant b (length b)
          && negb (bool_decide (last b ∈ Some <$> [chr "l"; chr "s"; chr "z"]%char))
  then take (length b - 1) b
  else if (measure b (length b) =? 1)%nat && cvc b (length b) then b ++ lit "e"
  else b.

Definition step1b (b : rstring) : rstring :=
  if ends_with b (lit "eed") then (replace_if "eed" "ee" 0 b).2
  else if ends_with b (lit "ed") && has_vowel b (length b - 2) then fixup1b (take (length b - 2) b)
  else if ends_with b (lit "ing") && has_vowel b (length b - 3) then fixup1b (take (length b - 3) b)
  else b.

Definition step1ab (b : rstring) : rstring := step1b (step1a b).

Definition step1c (b : rstring) : rstring :=
  if ends_with b (lit "y") && has_vowel b (length b - 1) then <[(length b - 1)%nat := chr "i"]> b else b.

Fixpoint first_match (pairs : list (String.string * String.string)) (b : rstring) : rstring :=
  match pairs with
  | [] => b
  | (suf, repl) :: pairs' =>
      if ends_with b (lit suf) then
        let stem_len := (length b - length (lit suf))%nat in
        if (0 <? measure b stem_len)%nat then take stem_len b ++ lit repl else b
      else first_match pairs' b
  end.

Definition STEP2 : list (String.string * String.string) :=
  [("ational", "ate"); ("tional", "tion"); ("enci", "ence"); ("anci", "ance"); ("izer", "ize");
   ("bli", "ble"); ("alli", "al"); ("entli", "ent"); ("eli", "e"); ("ousli", "ous");
   ("ization", "ize"); ("ation", "ate"); ("ator", "ate"); ("alism", "al"); ("iveness", "ive");
   ("fulness", "ful"); ("ousness", "ous"); ("aliti", "al"); ("iviti", "ive"); ("biliti", "ble");
   ("logi", "log")]%string.
Definition step2 (b : rstring) : rstring := first_match STEP2 b.

Definition STEP3 : list (String.string * String.string) :=
  [("icate", "ic"); ("ative", ""); ("alize", "al"); ("iciti", "ic"); ("ical", "ic"); ("ful", "");
   ("ness", "")]%string.
Definition step3 (b : rstring) : rstring := first_match STEP3 b.

Definition STEP4 : list String.string :=
  ["al"; "ance"; "ence"; "er"; "ic"; "able"; "ible"; "ant"; "ement"; "ment"; "ent"; "ou"; "ism"; "ate";
   "iti"; "ous"; "ive"; "ize"]%string.

Definition step4_ion (b : rstring) : rstring :=
  if ends_with b (lit "ion") then
    let stem_len := (length b - 3)%nat in
    if (1 <? measure b stem_len)%nat
       && bool_decide (b !! (stem_len - 1)%nat ∈ Some <$> [chr "s"; chr "t"]%char)
    then take stem_len b else b
  else b.

(** The first suffix that is removed ends the step; one that is found but not
    removed does not. *)
Fixpoint step4_loop (sufs : list String.string) (b : rstring) : rstring :=
  match sufs with
  | [] => step4_ion b
  | suf :: sufs' =>
      let '(fired, b') := replace_if suf "" 1 b in
      if fired then b' else step4_loop sufs' b'
  end.
Definition step4 (b : rstring) : rstring := step4_loop STEP4 b.

Definition step5a (b : rstring) : rstring :=
  if ends_with b (lit "e") then
    let stem_len := (length b - 1)%nat in
    let m := measure b stem_len in
    if (1 <? m)%nat || ((m =? 1)%nat && negb (cvc b stem_len)) then take stem_len b else b
  else b.
Definition step5b (b : rstring) : rstring :=
  if ends_with b (lit "ll") && (1 <? measure b (length b))%nat then take (length b - 1) b else b.
Definition step5 (b : rstring) : rstring := step5b (step5a b).

Definition is_ascii_lowercase (c : char) : bool := ((97 <=? c) && (c <=? 122))%N.

(** [word.len()] counts bytes. *)
Definition stem (word : rstring) : rstring :=
  if (str_len word <? 3)%nat || negb (forallb is_ascii_lowercase word) then word
  else step5 (step4 (step3 (step2 (step1c (step1ab word))))).

Example stem_ex :
  map (fun w => stem (lit w))
    ["caresses"; "ponies"; "feed"; "plastered"; "motoring"; "hopping"; "filing"; "happy"; "relational";
     "triplicate"; "adjustment"; "adoption"; "controll"; "nidus"; "at"; "x86"]%string =
  map lit ["caress"; "poni"; "feed"; "plaster"; "motor"; "hop"; "file"; "happi"; "relat";
     "triplic"; "adjust"; "adopt"; "control"; "nidu"; "at"; "x86"]%string.
Proof. vm_compute. reflexivity. Qed.

(** Unlike Porter's step 4, a suffix found but not removed lets a shorter one
    be tried. *)
Example stem_step4_falls_through :
  map (fun w => stem (lit w)) ["element"; "agreement"]%string = map lit ["elem"; "agreem"]%string.
Proof. vm_compute. reflexivity. Qed.

(** ** Tokens and terms *)

Record TermSpan := { ts_term : rstring; ts_start : nat; ts_end : nat }.
#[export] Instance TermSpan_eq_dec : EqDecision TermSpan.
Proof. solve_decision. Defined.

Section analyze.
Context `{UnicodeAlnum} `{UnicodeLower}.

Section tokenize.
Context (ascii_folding : bool) (max_token_len : option nat).

(** The closure [push]: a token longer than the cap is dropped. *)
Definition push (cur : rstring) (start end_ : nat) (out : list TermSpan) : list TermSpan :=
  if match max_token_len with Some max => (max <? length cur)%nat | None => false end then out
  else {| ts_term := if ascii_folding then fold_ascii cur else cur; ts_start := start; ts_end := end_ |} :: out.

Fixpoint tokenize_loop (text : rstring) (i : nat) (cur : rstring) (start : nat) : list TermSpan :=
  match text with
  | [] => if is_nonempty cur then push cur start i [] else []
  | ch :: text' =>
      if is_alphanumeric ch then
        let start := if is_nonempty cur then start else i in
        tokenize_loop text' (i + len_utf8 ch) (cur ++ to_lowercase ch) start
      else if is_nonempty cur then push cur start i (tokenize_loop text' (i + len_utf8 ch) [] start)
      else tokenize_loop text' (i + len_utf8 ch) [] start
  end.

Definition tokenize (text : rstring) : list TermSpan := tokenize_loop text 0 [] 0.
End tokenize.

Definition tokenize_with (text : rstring) (cfg : Analyzer) : list TermSpan :=
  tokenize (an_ascii_folding cfg) (an_max_token_len cfg) text.

Definition keep_token (t : TermSpan) : bool := negb (is_stopword (ts_term t)).
Definition stem_span (t : TermSpan) : TermSpan :=
  {| ts_term := stem (ts_term t); ts_start := ts_start t; ts_end := ts_end t |}.

Definition analyze_spans (text : rstring) (cfg : Analyzer) : list TermSpan :=
  match an_language cfg with
  | English =>
      List.filter (fun t => is_nonempty (ts_term t))
        (map stem_span (List.filter keep_token (tokenize_with text cfg)))
  end.

Definition analyze (text : rstring) (cfg : Analyzer) : list rstring := map ts_term (analyze_spans text cfg).

Definition analyze_surface (text : rstring) (cfg : Analyzer) : list (rstring * rstring) :=
  match an_language cfg with
  | English =>
      omap (fun t =>
        let stemmed := stem (ts_term t) in
        if is_nonempty stemmed then Some (ts_term t, stemmed) else None)
        (List.filter keep_token (tokenize_with text cfg))
  end.

(** [Vec::pop] takes the last token. *)
Definition analyze_with_prefix (text : rstring) (cfg : Analyzer) : list rstring * option rstring :=
  let tokens := tokenize_with text cfg in
  match last tokens with
  | None => ([], None)
  | Some fragment =>
      (match an_language cfg with
       | English =>
           List.filter is_nonempty
             (map (fun t => stem (ts_term t)) (List.filter keep_token (removelast tokens)))
       end, Some (ts_term fragment))
  end.
End analyze.

Example analyze_ex :
  let _ := ascii_only_alnum in let _ := ascii_only_lower in
  analyze_spans (lit "The Running of 2 horses") Analyzer_default =
  [{| ts_term := lit "run"; ts_start := 4; ts_end := 11 |};
   {| ts_term := lit "2"; ts_start := 15; ts_end := 16 |};
   {| ts_term := lit "hors"; ts_start := 17; ts_end := 23 |}].
Proof. vm_compute. reflexivity. Qed.

(** ** Stopwords are looked up *)

Lemma is_stopword_spec token : is_stopword token = true <-> token ∈ STOPWORDS.
Proof.
  unfold is_stopword. rewrite binary_search_spec.
  - split; [intros (x & Hx & E%str_cmp_eq); by subst|]. intros Hin. exists token. by rewrite (proj2 (str_cmp_eq _ _)).
  - by apply (sorted_partitioned str_cmp), (sortedb_sorted str_cmp).
Qed.

(** ** The measure counts the steps from a vowel to a consonant *)

Definition vc_count (b : rstring) (end_ : nat) : nat :=
  length (List.filter (fun i => negb (is_consonant b (i - 1)) && is_consonant b i) (seq 1 (end_ - 1))).

(** The stretch from [i] on. *)
Definition vc_from (b : rstring) (end_ i : nat) : nat :=
  length (List.filter (fun i => negb (is_consonant b (i - 1)) && is_consonant b i) (seq (S i) (end_ - S i))).

Lemma skip_run_spec p fuel end_ i :
  (end_ <= fuel + i)%nat -> (i <= end_)%nat ->
  let j := skip_run p fuel end_ i in
  (i <= j <= end_)%nat /\ (forall k, (i <= k < j)%nat -> p k = true) /\ ((j < end_)%nat -> p j = false).
Proof.
  revert i. induction fuel as [|fuel IH]; intros i Hf Hi; cbn [skip_run].
  { split_and!; [lia|lia|lia|]. lia. }
  destruct (Nat.ltb_spec i end_) as [Hlt|]; cbn [andb]; [|split_and!; intros; lia].
  destruct (p i) eqn:E.
  - destruct (IH (S i)) as ([? ?] & Hr & Hs); [lia..|]. split_and!; [lia|lia| |done].
    intros k Hk. destruct (decide (k = i)) as [->|]; [done|]. apply Hr. lia.
  - split_and!; [lia|lia|intros; lia|done].
Qed.

Lemma vc_from_step b end_ i : (S i < end_)%nat ->
  vc_from b end_ i = ((if negb (is_consonant b i) && is_consonant b (S i) then 1 else 0) + vc_from b end_ (S i))%nat.
Proof.
  intros H. unfold vc_from. replace (end_ - S i)%nat with (S (end_ - S (S i))) by lia.
  cbn [seq List.filter]. rewrite Nat.sub_succ, Nat.sub_0_r.
  by destruct (negb (is_consonant b i) && is_consonant b (S i)).
Qed.

Lemma vc_from_end b end_ i : (end_ <= S i)%nat -> vc_from b end_ i = 0%nat.
Proof. intros H. unfold vc_from. by replace (end_ - S i)%nat with 0%nat by lia. Qed.

(** A run of letters of one kind has no such step. *)
Lemma vc_from_run b end_ i j (k : bool) :
  (i <= j)%nat -> (forall n, (i <= n <= j)%nat -> (n < end_)%nat -> is_consonant b n = k) ->
  vc_from b end_ i = vc_from b end_ j.
Proof.
  intros Hij. induction Hij as [|j Hij IH]; intros Hk; [done|].
  rewrite IH by (intros; apply Hk; lia).
  destruct (decide (S j < end_)%nat) as [Hlt|].
  - rewrite vc_from_step by done. rewrite (Hk j), (Hk (S j)) by lia. by destruct k.
  - rewrite !vc_from_end by lia. done.
Qed.

Lemma measure_loop_spec b fuel end_ i n :
  (end_ <= fuel + i)%nat -> (i <= end_)%nat -> (i < end_ -> is_consonant b i = false)%nat ->
  measure_loop b fuel end_ i n = (n + vc_from b end_ i)%nat.
Proof.
  revert i n. induction fuel as [|fuel IH]; intros i n Hf Hi Hv; cbn [measure_loop].
  { rewrite vc_from_end; lia. }
  destruct (skip_run_spec (fun i => negb (is_consonant b i)) end_ end_ i) as ([Hij Hj] & Hr & Hs); [lia..|].
  revert Hij Hj Hr Hs. generalize (skip_run (fun i => negb (is_consonant b i)) end_ end_ i) as j. intros j Hij Hj Hr Hs.
  destruct (Nat.leb_spec end_ j) as [Hend|Hlt].
  { assert (j = end_) as Ej by lia. destruct (decide (i = end_)) as [->|]; [rewrite vc_from_end; lia|].
    rewrite (vc_from_run b end_ i (end_ - 1) false) by
      (lia || (intros k Hk ?; specialize (Hr k ltac:(lia)); by destruct (is_consonant b k))).
    rewrite vc_from_end; lia. }
  specialize (Hs Hlt). apply negb_false_iff in Hs.
  destruct (skip_run_spec (is_consonant b) end_ end_ j) as ([Hjk Hk] & Hr' & Hs'); [lia..|].
  revert Hjk Hk Hr' Hs'. generalize (skip_run (is_consonant b) end_ end_ j) as k. intros k Hjk Hk Hr' Hs'.
  assert (i < j)%nat as Hlij.
  { destruct (decide (i = j)) as [E|]; [|lia]. rewrite <- E in Hs. rewrite Hv in Hs; [done|lia]. }
  assert (vc_from b end_ i = S (vc_from b end_ j)) as Ei.
  { rewrite (vc_from_run b end_ i (j - 1) false) by
      (lia || (intros m Hm ?; specialize (Hr m ltac:(lia)); by destruct (is_consonant b m))).
    rewrite vc_from_step by lia. specialize (Hr (j - 1)%nat ltac:(lia)).
    replace (S (j - 1)) with j by lia. rewrite Hs. by rewrite Hr. }
  assert (j < k)%nat as Hljk.
  { destruct (decide (j = k)) as [E|]; [|lia]. exfalso. assert (is_consonant b k = false) as Hf' by (apply Hs'; lia). congruence. }
  destruct (Nat.leb_spec end_ k) as [Hkend|Hklt].
  { rewrite Ei, (vc_from_run b end_ j (end_ - 1) true) by (lia || (intros; apply Hr'; lia)).
    rewrite vc_from_end; lia. }
  assert (vc_from b end_ j = vc_from b end_ k) as Ej.
  { rewrite (vc_from_run b end_ j (k - 1) true) by (lia || (intros; apply Hr'; lia)).
    rewrite vc_from_step by lia. replace (S (k - 1)) with k by lia.
    rewrite (Hr' (k - 1)%nat) by lia. done. }
  rewrite IH by (done || lia || (intros; by apply Hs')). rewrite Ei, Ej. lia.
Qed.

Lemma measure_spec b end_ : measure b end_ = vc_count b end_.
Proof.
  unfold measure. destruct (skip_run_spec (is_consonant b) end_ end_ 0) as ([_ Hj] & Hr & Hs); [lia..|].
  set (j := skip_run _ _ _ _) in *.
  rewrite measure_loop_spec by (done || lia). cbn [Nat.add].
  change (vc_count b end_) with (vc_from b end_ 0). symmetry.
  destruct (decide (j = 0)%nat) as [->|]; [done|].
  rewrite (vc_from_run b end_ 0 (j - 1) true) by (lia || (intros; apply Hr; lia)).
  destruct (decide (j < end_)%nat) as [Hlt|].
  - rewrite vc_from_step by lia. replace (S (j - 1)) with j by lia. by rewrite (Hr (j - 1)%nat) by lia.
  - rewrite !vc_from_end; lia.
Qed.

(** ** Stemming never empties a word and never lengthens it *)

Definition stem_ok (n : nat) (b : rstring) : Prop :=
  b <> [] /\ (length b <= n)%nat /\ Forall (fun c => is_ascii_lowercase c = true) b.

Lemma stem_ok_mono n m b : (n <= m)%nat -> stem_ok n b -> stem_ok m b.
Proof. intros H (H1 & H2 & H3). split_and!; [done|lia|done]. Qed.

Lemma stem_ok_take n k b : (0 < k)%nat -> stem_ok n b -> stem_ok n (take k b).
Proof.
  intros Hk (H1 & H2 & H3). split_and!; [|rewrite length_take; lia|by apply Forall_take].
  destruct b, k; (done || lia).
Qed.

(** A stem cut off and a suffix no longer than what was cut. *)
Lemma stem_ok_replace n k b repl :
  (0 < length b - k)%nat -> (length repl <= k)%nat -> Forall (fun c => is_ascii_lowercase c = true) repl ->
  stem_ok n b -> stem_ok n (take (length b - k) b ++ repl).
Proof.
  intros Hk Hr Hl Hb. destruct (stem_ok_take n (length b - k) b Hk Hb) as (H1 & _ & H3).
  destruct Hb as (_ & H2 & _). split_and!.
  - intros [E _]%app_eq_nil. done.
  - rewrite length_app, length_take. lia.
  - by apply Forall_app.
Qed.

Lemma has_vowel_pos b n : has_vowel b n = true -> (0 < n)%nat.
Proof. destruct n; [done|lia]. Qed.

Lemma measure_pos b n : (0 < measure b n)%nat -> (0 < n)%nat.
Proof. rewrite measure_spec. destruct n; [cbn; lia|lia]. Qed.

Lemma lit_lower s : forallb is_ascii_lowercase (lit s) = true -> Forall (fun c => is_ascii_lowercase c = true) (lit s).
Proof. intros H. apply Forall_forall. intros x Hx. rewrite forallb_forall in H. apply H. by apply list_elem_of_In. Qed.

Lemma replace_if_ok n suf repl m b :
  (length (lit repl) <= length (lit suf))%nat -> forallb is_ascii_lowercase (lit repl) = true ->
  stem_ok n b -> stem_ok n (replace_if suf repl m b).2.
Proof.
  intros Hl Hr Hb. unfold replace_if. destruct (negb _); [done|].
  destruct (Nat.leb_spec (measure b (length b - length (lit suf))) m); [done|].
  apply stem_ok_replace; [apply (measure_pos b); lia|done|by apply lit_lower|done].
Qed.

Lemma first_match_ok n pairs b :
  forallb (fun p => (length (lit p.2) <=? length (lit p.1))%nat && forallb is_ascii_lowercase (lit p.2)) pairs
    = true ->
  stem_ok n b -> stem_ok n (first_match pairs b).
Proof.
  induction pairs as [|[suf repl] pairs IH]; cbn [first_match forallb fst snd]; [done|].
  intros [[Hl Hr]%andb_prop Hp]%andb_prop Hb. bdestr.
  destruct (ends_with b (lit suf)); [|by apply IH].
  destruct (Nat.ltb_spec 0 (measure b (length b - length (lit suf)))) as [Hm|]; [|done].
  apply stem_ok_replace; [by eapply measure_pos|done|by apply lit_lower|done].
Qed.

Lemma fixup1b_ok n b : stem_ok n b -> stem_ok (S n) (fixup1b b).
Proof.
  intros Hb. assert (stem_ok (S n) b) as Hb' by (eapply stem_ok_mono; [|done]; lia).
  assert (stem_ok (S n) (b ++ lit "e")) as He.
  { destruct Hb as (H1 & H2 & H3). split_and!.
    - by intros [? _]%app_eq_nil.
    - rewrite length_app. cbn. lia.
    - apply Forall_app. split; [done|]. by apply lit_lower. }
  unfold fixup1b. case_match; [exact He|].
  destruct (ends_double_consonant b (length b)) eqn:E; cbn [andb].
  - case_match; [|case_match; assumption]. apply stem_ok_take; [|done].
    unfold ends_double_consonant in E. apply andb_prop in E as [E _]. apply andb_prop in E as [E _].
    bdestr. lia.
  - case_match; assumption.
Qed.

Lemma step1a_ok n b : (3 <= length b)%nat -> stem_ok n b -> stem_ok n (step1a b).
Proof. intros Hl Hb. unfold step1a. repeat case_match; try done; apply stem_ok_take; (done || lia). Qed.

Lemma step1b_ok n b : stem_ok n b -> stem_ok n (step1b b).
Proof.
  intros Hb. unfold step1b. destruct (ends_with b (lit "eed")).
  { apply replace_if_ok; [cbn; lia|reflexivity|done]. }
  assert (forall k, (1 < k)%nat -> has_vowel b (length b - k) = true ->
    stem_ok n (fixup1b (take (length b - k) b))) as Hcut.
  { intros k Hk Hv. apply has_vowel_pos in Hv. pose proof Hb as (_ & Hn & _).
    apply (stem_ok_mono (S (n - 1))); [lia|].
    apply fixup1b_ok. destruct (stem_ok_take n (length b - k) b Hv Hb) as (H1 & _ & H3).
    split_and!; [done| |done]. rewrite length_take. lia. }
  destruct (ends_with b (lit "ed") && _) eqn:E; [apply andb_prop in E as [_ E]; apply Hcut; [lia|done]|].
  destruct (ends_with b (lit "ing") && _) eqn:E'; [apply andb_prop in E' as [_ E']; apply Hcut; [lia|done]|done].
Qed.

Lemma step1c_ok n b : stem_ok n b -> stem_ok n (step1c b).
Proof.
  intros (H1 & H2 & H3). unfold step1c. destruct (_ && _); [|done]. split_and!.
  - destruct b; [done|]. intros E. apply (f_equal length) in E. rewrite length_insert in E. done.
  - by rewrite length_insert.
  - by apply Forall_insert.
Qed.

Lemma step4_ok n b : stem_ok n b -> stem_ok n (step4 b).
Proof.
  intros Hb. unfold step4. generalize STEP4. intros sufs.
  revert b Hb. induction sufs as [|suf sufs IH]; intros b Hb; cbn [step4_loop].
  - unfold step4_ion. destruct (ends_with b (lit "ion")); [|done]. destruct (_ && _) eqn:E; [|done].
    apply andb_prop in E as [E _]. bdestr. apply stem_ok_take; [apply (measure_pos b); lia|done].
  - pose proof (replace_if_ok n suf "" 1 b) as H. destruct (replace_if suf "" 1 b) as [[] b'];
      [|apply IH]; (apply H; [cbn; lia|reflexivity|done]).
Qed.

Lemma step5_ok n b : stem_ok n b -> stem_ok n (step5 b).
Proof.
  intros Hb. unfold step5. assert (stem_ok n (step5a b)) as Ha.
  { unfold step5a. destruct (ends_with b (lit "e")); [|done]. destruct (_ || _) eqn:E; [|done].
    apply stem_ok_take; [|done]. apply (measure_pos b).
    apply orb_true_iff in E as [E|E]; [|apply andb_prop in E as [E _]]; bdestr; lia. }
  revert Ha. generalize (step5a b). intros c Hc. unfold step5b. destruct (_ && _) eqn:E; [|done].
  apply andb_prop in E as [E _]. apply ends_with_spec in E as [u ->].
  apply stem_ok_take; [|done]. rewrite length_app. cbn. lia.
Qed.

(** The stem of a word is a word no longer than it, of lowercase letters when
    it is; a word that is not made of lowercase letters is its own stem. *)
Theorem stem_bounds word :
  (stem word = [] <-> word = []) /\ (length (stem word) <= length word)%nat /\
  (forallb is_ascii_lowercase word = true -> forallb is_ascii_lowercase (stem word) = true) /\
  (forallb is_ascii_lowercase word = false -> stem word = word).
Proof.
  unfold stem. destruct (Nat.ltb_spec (str_len word) 3) as [|Hl]; cbn [orb]; [done|].
  destruct (forallb is_ascii_lowercase word) eqn:El; cbn [negb]; [|done].
  assert (Forall (fun c => is_ascii_lowercase c = true) word) as Hlow.
  { apply Forall_forall. intros x Hx. rewrite forallb_forall in El. apply El. by apply list_elem_of_In. }
  assert (str_len word = length word) as Hlen.
  { clear Hl El. induction Hlow as [|c w Hc Hw IH]; [done|]. rewrite str_len_cons, IH. cbn.
    unfold is_ascii_lowercase in Hc. bdestr. unfold len_utf8. by rewrite (proj2 (N.ltb_lt _ _)) by lia. }
  rewrite Hlen in Hl. assert (stem_ok (length word) word) as Hok.
  { split_and!; [by destruct word; [cbn in Hl; lia|]|done|done]. }
  assert (stem_ok (length word) (step5 (step4 (step3 (step2 (step1c (step1ab word))))))) as (H1 & H2 & H3).
  { by apply step5_ok, step4_ok, first_match_ok, first_match_ok, step1c_ok, step1b_ok, step1a_ok. }
  split_and!.
  - split; [done|]. intros ->. cbn in Hl. lia.
  - exact H2.
  - intros _. apply forallb_forall. intros x Hx. rewrite Forall_forall in H3. apply H3. by apply list_elem_of_In.
  - done.
Qed.

(** ** Tokens are the runs of the text *)

Section tokenize_spec.
Context `{UnicodeAlnum} `{UnicodeLower} (ascii_folding : bool) (max_token_len : option nat).

Definition lower (w : rstring) : rstring := mjoin (map to_lowercase w).
Definition surface_form (w : rstring) : rstring := if ascii_folding then fold_ascii (lower w) else lower w.
Definition too_long (w : rstring) : bool :=
  match max_token_len with Some max => (max <? length (lower w))%nat | None => false end.

Lemma lower_nil w : lower w = [] <-> w = [].
Proof.
  destruct w as [|c w]; [done|]. split; [|done].
  change (lower (c :: w)) with (to_lowercase c ++ lower w).
  intros [E _]%app_eq_nil. by apply to_lowercase_some in E.
Qed.

Lemma is_nonempty_lower w : is_nonempty (lower w) = is_nonempty w.
Proof. unfold is_nonempty. f_equal. apply bool_decide_ext, lower_nil. Qed.

Lemma lower_snoc w c : lower (w ++ [c]) = lower w ++ to_lowercase c.
Proof. unfold lower. rewrite map_app, join_app. cbn. by rewrite app_nil_r. Qed.

(** The runs of a text with what precedes each: [w] is the run being read. *)
Fixpoint runs (pre w rest : rstring) : list (rstring * rstring) :=
  match rest with
  | [] => if is_nonempty w then [(pre, w)] else []
  | c :: rest' =>
      if is_alphanumeric c then runs pre (w ++ [c]) rest'
      else (if is_nonempty w then [(pre, w)] else []) ++ runs (pre ++ w ++ [c]) [] rest'
  end.

Definition token_of (pw : rstring * rstring) : option TermSpan :=
  if too_long pw.2 then None
  else Some {| ts_term := surface_form pw.2; ts_start := str_len pw.1; ts_end := str_len (pw.1 ++ pw.2) |}.

Lemma push_located pre w out :
  push ascii_folding max_token_len (lower w) (str_len pre) (str_len (pre ++ w)) out =
  omap token_of [(pre, w)] ++ out.
Proof.
  unfold push, token_of, too_long, surface_form. cbn [omap list_omap fst snd].
  destruct max_token_len as [m|]; [destruct (m <? length (lower w))%nat|]; reflexivity.
Qed.

Lemma tokenize_loop_runs rest pre w start :
  (w <> [] -> start = str_len pre) ->
  tokenize_loop ascii_folding max_token_len rest (str_len (pre ++ w)) (lower w) start =
  omap token_of (runs pre w rest).
Proof.
  revert pre w start. induction rest as [|c rest IH]; intros pre w start Hs; cbn [tokenize_loop runs].
  - rewrite is_nonempty_lower. unfold is_nonempty. case_bool_decide as E; [done|]. cbn [negb].
    rewrite Hs by done. rewrite push_located. by rewrite app_nil_r.
  - rewrite is_nonempty_lower. destruct (is_alphanumeric c).
    + rewrite <- lower_snoc. replace (str_len (pre ++ w) + len_utf8 c)%nat with (str_len (pre ++ w ++ [c]))
        by (rewrite !str_len_app; unfold str_len; cbn; lia).
      apply IH. intros _. unfold is_nonempty. case_bool_decide as E; cbn [negb]; [|by apply Hs].
      subst w. by rewrite app_nil_r.
    + replace (str_len (pre ++ w) + len_utf8 c)%nat with (str_len ((pre ++ w ++ [c]) ++ []))
        by (rewrite app_nil_r, !str_len_app; unfold str_len; cbn; lia).
      pose proof (IH (pre ++ w ++ [c]) [] start ltac:(done)) as E'.
      change (lower []) with (@nil char) in E'. rewrite E'. unfold is_nonempty. case_bool_decide as E; cbn [negb].
      * reflexivity.
      * rewrite Hs by done. rewrite push_located. by rewrite omap_app.
Qed.

Lemma runs_tokens pre w rest :
  Forall (fun c => is_alphanumeric c = true) w -> (runs pre w rest).*2 = tokens (w ++ rest).
Proof.
  unfold tokens. revert pre w. induction rest as [|c rest IH]; intros pre w Hw; cbn [runs].
  - rewrite app_nil_r. assert (split_on is_separator w = [w]) as ->; [|cbn; by case_match].
    induction Hw as [|c w Hc Hw IH]; [done|]. cbn [split_on]. unfold is_separator at 1.
    rewrite Hc. cbn [negb]. by rewrite IH.
  - destruct (is_alphanumeric c) eqn:Ec.
    + rewrite IH by (apply Forall_app; split; [done|by constructor]). by rewrite <- app_assoc.
    + rewrite fmap_app, IH by done. assert (split_on is_separator (w ++ c :: rest) = w :: split_on is_separator rest) as ->.
      { induction Hw as [|d w Hd Hw IHw]; cbn [app split_on]; unfold is_separator at 1.
        - by rewrite Ec.
        - rewrite Hd. cbn [negb]. by rewrite IHw. }
      cbn [List.filter app]. by destruct (is_nonempty w).
Qed.

Lemma runs_located pre w rest :
  Forall (fun pw : rstring * rstring => exists c, pre ++ w ++ rest = pw.1 ++ pw.2 ++ c) (runs pre w rest).
Proof.
  revert pre w. induction rest as [|c rest IH]; intros pre w; cbn [runs].
  - case_match; repeat constructor. exists []. done.
  - destruct (is_alphanumeric c).
    + specialize (IH pre (w ++ [c])). rewrite <- app_assoc in IH. exact IH.
    + apply Forall_app. split; [case_match; repeat constructor; by exists (c :: rest)|].
      specialize (IH (pre ++ w ++ [c]) []). rewrite <- !app_assoc in IH. exact IH.
Qed.

(** C30: Every token is a maximal alphanumeric run of the text, lowercased and
    folded, in order, with the byte range that cuts the run out of the text;
    only runs over the cap are left out, and the cap counts the characters of
    the lowercased run, before folding: a run no longer than the cap whose
    lowercase form is longer is left out too ([lowercase_over_cap]). *)
Theorem tokenize_spec text :
  map (fun t => (str_slice text (ts_start t) (ts_end t), ts_term t))
      (tokenize ascii_folding max_token_len text) =
  omap (fun w => if too_long w then None else Some (Some w, surface_form w)) (tokens text).
Proof.
  unfold tokenize. pose proof (tokenize_loop_runs text [] [] 0) as E. cbn in E. rewrite E by done. clear E.
  pose proof (runs_located [] [] text) as Hl. cbn [app] in Hl.
  pose proof (runs_tokens [] [] text) as Ht. cbn [app] in Ht. rewrite <- Ht by constructor. clear Ht.
  induction Hl as [|[p w] l [c Hc] Hl IH]; [done|]. cbn [omap list_omap token_of fst snd fmap list_fmap] in *.
  unfold token_of at 1. cbn [fst snd]. destruct (too_long w); [exact IH|]. cbn [map ts_start ts_end ts_term].
  f_equal; [|exact IH]. f_equal. apply str_slice_Some. exists p, c. done.
Qed.
End tokenize_spec.

(** One character whose lowercase form has two, such as U+0130, is over a cap
    of one. *)
Example lowercase_over_cap `{UnicodeAlnum} `{UnicodeLower} (c : char) (folding : bool) :
  is_alphanumeric c = true -> length (to_lowercase c) = 2%nat -> tokenize folding (Some 1%nat) [c] = [].
Proof.
  intros Hc Hl. unfold tokenize. cbn [tokenize_loop]. rewrite Hc. cbn [app].
  assert (is_nonempty (to_lowercase c) = true) as Hn.
  { unfold is_nonempty. rewrite bool_decide_eq_false_2; [done|]. intros E. by rewrite E in Hl. }
  rewrite Hn. unfold push. by rewrite Hl.
Qed.
