(* ===== verification/Fts.v ===== *)
(** * Fts: the BM25 inverted index ([src/src/fts/mod.rs])

    One index per full-text field: postings with term frequencies, the length
    and the owner of every slot, and the running counts BM25 needs.  A write
    appends a slot and leaves the postings of the old one behind; [fts_ok]
    relates the index to the texts of the live documents, and the answers to
    a query are shown to be those computed from the texts alone. *)
From S2P Require Import Prelude Floats Model TextPred Sort Std Postings Literal Findex Fuzzy Analyzer.

(** [f32::ln]. *)
Class Ln := f32_ln : f32 -> f32.

Record Posting := { po_docnum : N; po_tf : N }.
#[export] Instance Posting_eq_dec : EqDecision Posting.
Proof. solve_decision. Defined.

Record FtsIndex := {
  ft_cfg : FtsField;
  ft_postings : gmap rstring (list Posting);
  ft_surface : gmap rstring rstring;
  ft_doc_len : list N;
  ft_docnum_to_id : list (option rstring);
  ft_id_to_docnum : gmap rstring N;
  ft_doc_count : N;
  ft_total_len : N;
  ft_tombstones : N
}.

Definition FtsIndex_new (cfg : FtsField) : FtsIndex :=
  {| ft_cfg := cfg; ft_postings := ∅; ft_surface := ∅; ft_doc_len := []; ft_docnum_to_id := [];
     ft_id_to_docnum := ∅; ft_doc_count := 0; ft_total_len := 0; ft_tombstones := 0 |}.

Definition u32_succ (n : N) : N := ((n + 1) mod 2 ^ 32)%N.

Definition MAX_PREFIX_EXPANSION : nat := 256.

(** A posting list may be counted through a predicate on docnum and id. *)
Abbreviation admit_fn := (N -> rstring -> bool) (only parsing).

Section index.
Context `{UnicodeAlnum} `{UnicodeLower} `{HashIter}.

(** The invariant keeps every recorded docnum in range of the two slot vectors. *)
Definition fts_tombstone (idx : FtsIndex) (id : rstring) : FtsIndex :=
  match ft_id_to_docnum idx !! id with
  | None => idx
  | Some docnum =>
      let d := N.to_nat docnum in
      {| ft_cfg := ft_cfg idx; ft_postings := ft_postings idx; ft_surface := ft_surface idx;
         ft_doc_len := <[d := 0%N]> (ft_doc_len idx);
         ft_docnum_to_id := <[d := None]> (ft_docnum_to_id idx);
         ft_id_to_docnum := delete id (ft_id_to_docnum idx);
         ft_doc_count := ft_doc_count idx - 1;
         ft_total_len := ft_total_len idx - default 0%N (ft_doc_len idx !! d);
         ft_tombstones := u32_succ (ft_tombstones idx) |}%N
  end.

(** Term frequencies of one document. *)
Definition count_terms (terms : list rstring) : gmap rstring N :=
  fold_left (fun tf t => <[t := u32_succ (default 0%N (tf !! t))]> tf) terms ∅.

Definition add_tf (docnum : N) (m : gmap rstring (list Posting)) (tc : rstring * N) : gmap rstring (list Posting) :=
  <[tc.1 := default [] (m !! tc.1) ++ [{| po_docnum := docnum; po_tf := tc.2 |}]]> m.

Definition add_surface (m : gmap rstring rstring) (ss : rstring * rstring) : gmap rstring rstring :=
  <[ss.1 := ss.2]> m.

Definition fts_index (idx : FtsIndex) (id text : rstring) : FtsIndex :=
  let idx := fts_tombstone idx id in
  let cfg := fts_analyzer (ft_cfg idx) in
  let surface := fold_left add_surface (analyze_surface text cfg) (ft_surface idx) in
  let terms := analyze text cfg in
  let len := as_u32 (length terms) in
  let docnum := as_u32 (length (ft_docnum_to_id idx)) in
  let postings := fold_left (add_tf docnum) (hash_iter (map_to_list (count_terms terms))) (ft_postings idx) in
  {| ft_cfg := ft_cfg idx; ft_postings := postings; ft_surface := surface;
     ft_doc_len := ft_doc_len idx ++ [len];
     ft_docnum_to_id := ft_docnum_to_id idx ++ [Some id];
     ft_id_to_docnum := <[id := docnum]> (ft_id_to_docnum idx);
     ft_doc_count := ft_doc_count idx + 1;
     ft_total_len := ft_total_len idx + len;
     ft_tombstones := ft_tombstones idx |}%N.

Definition slot (idx : FtsIndex) (docnum : N) : option rstring := mjoin (ft_docnum_to_id idx !! N.to_nat docnum).

(** ** Scoring *)

Context `{Ln}.

Definition avgdl_of (doc_count total_len : N) : f32 :=
  if (doc_count =? 0)%N then f32_one
  else f32_div (f32_of_Z (Z.of_N total_len)) (f32_of_Z (Z.of_N doc_count)).
Definition avgdl (idx : FtsIndex) : f32 := avgdl_of (ft_doc_count idx) (ft_total_len idx).

(** [None] when the source skips the term. *)
Definition term_idf (n : f32) (live : nat) : option f32 :=
  let df := f32_of_Z (Z.of_nat live) in
  if f_eqb 23 8 df f32_zero then None
  else Some (f32_ln (f32_add f32_one (f32_div (f32_add (f32_sub n df) f32_half) (f32_add df f32_half)))).

Definition tf_norm (cfg : FtsField) (avgdl : f32) (tf dl : N) : f32 :=
  let '(k1, b) := (fts_k1 cfg, fts_b cfg) in
  let tf := f32_of_Z (Z.of_N tf) in
  let dl := f32_of_Z (Z.of_N dl) in
  f32_div (f32_mul tf (f32_add k1 f32_one))
    (f32_add tf (f32_mul k1 (f32_add (f32_sub f32_one b) (f32_div (f32_mul b dl) avgdl)))).

Definition live_postings (idx : FtsIndex) (ps : list Posting) : list Posting :=
  List.filter (fun p => bool_decide (is_Some (slot idx (po_docnum p)))) ps.

Definition add_score (idx : FtsIndex) (avgdl idf : f32) (scores : gmap N f32) (p : Posting) : gmap N f32 :=
  let dl := default 0%N (ft_doc_len idx !! N.to_nat (po_docnum p)) in
  <[po_docnum p := f32_add (default f32_zero (scores !! po_docnum p))
                     (f32_mul idf (tf_norm (ft_cfg idx) avgdl (po_tf p) dl))]> scores.

Definition score_term (idx : FtsIndex) (n avgdl : f32) (scores : gmap N f32) (term : rstring) : gmap N f32 :=
  match ft_postings idx !! term with
  | None => scores
  | Some postings =>
      let live := live_postings idx postings in
      match term_idf n (length live) with
      | None => scores
      | Some idf => fold_left (add_score idx avgdl idf) live scores
      end
  end.

Fixpoint score_terms (idx : FtsIndex) (n avgdl : f32) (seen : gset rstring) (terms : list rstring)
    (scores : gmap N f32) : gmap N f32 :=
  match terms with
  | [] => scores
  | t :: terms' =>
      if decide (t ∈ seen) then score_terms idx n avgdl seen terms' scores
      else score_terms idx n avgdl ({[t]} ∪ seen) terms' (score_term idx n avgdl scores t)
  end.

Definition fts_score (idx : FtsIndex) (query_terms : list rstring) : list (rstring * f32) :=
  if bool_decide (query_terms = []) || (ft_doc_count idx =? 0)%N then []
  else
    let scores := score_terms idx (f32_of_Z (Z.of_N (ft_doc_count idx))) (avgdl idx) ∅ query_terms ∅ in
    omap (fun ds => (fun id => (id, ds.2)) <$> slot idx ds.1) (hash_iter (map_to_list scores)).

(** ** Counting and completing *)

Definition admitted (idx : FtsIndex) (adm : admit_fn) (p : Posting) : bool :=
  match slot idx (po_docnum p) with Some id => adm (po_docnum p) id | None => false end.

Definition df_where (idx : FtsIndex) (ps : list Posting) (adm : option admit_fn) : nat :=
  match adm with
  | None =>
      if (ft_tombstones idx =? 0)%N then length ps else length (live_postings idx ps)
  | Some adm => length (List.filter (admitted idx adm) ps)
  end.

Definition df_of_stem (idx : FtsIndex) (stemmed : rstring) (adm : option admit_fn) : nat :=
  match ft_postings idx !! stemmed with Some ps => df_where idx ps adm | None => 0%nat end.

Definition by_df : rstring * nat -> rstring * nat -> comparison :=
  cmp_then (cmp_flip (cmp_on snd Nat.compare)) (cmp_on fst str_cmp).

Definition expansion_hits (idx : FtsIndex) (fragment : rstring) : gmap rstring nat :=
  let hits := fold_left (fun m tp =>
      let df := df_where idx tp.2 None in
      if (0 <? df)%nat then <[tp.1 := df]> m else m) (prefix_range (ft_postings idx) fragment) ∅ in
  fold_left (fun m ss =>
      match ft_postings idx !! ss.2 with
      | None => m
      | Some ps =>
          let df := df_where idx ps None in
          if (0 <? df)%nat then <[ss.2 := df]> m else m
      end) (prefix_range (ft_surface idx) fragment) hits.

Definition expand_prefix (idx : FtsIndex) (fragment : rstring) : list rstring * nat :=
  let hits := expansion_hits idx fragment in
  (map fst (take MAX_PREFIX_EXPANSION (sort_by by_df (bt_entries hits))), size hits).

(** [None] when there are no heads. *)
Fixpoint head_docs_loop (idx : FtsIndex) (order : list rstring) (acc : gset N) : gset N :=
  match order with
  | [] => acc
  | term :: order' =>
      match ft_postings idx !! term with
      | None => ∅
      | Some ps =>
          let acc := list_to_set (List.filter (fun d => bool_decide (d ∈ acc)) (map po_docnum ps)) : gset N in
          if bool_decide (acc = ∅) then acc else head_docs_loop idx order' acc
      end
  end.

Definition by_rarity (idx : FtsIndex) : rstring -> rstring -> comparison :=
  cmp_on (fun t => match ft_postings idx !! t with Some ps => length ps | None => 0%nat end) Nat.compare.

Definition head_docs `{SortUnstable} (idx : FtsIndex) (heads : list rstring) : option (gset N) :=
  if bool_decide (heads = []) then None
  else
    match sort_unstable (by_rarity idx) heads with
    | [] => None
    | first :: order =>
        match ft_postings idx !! first with
        | None => Some ∅
        | Some ps => Some (head_docs_loop idx order (list_to_set (map po_docnum (live_postings idx ps))))
        end
    end.

Definition suggest_scored (idx : FtsIndex) (fragment : rstring) (adm : option admit_fn) : list (rstring * nat) :=
  omap (fun ss =>
    let df := df_of_stem idx ss.2 adm in
    if (0 <? df)%nat then Some (ss.1, df) else None) (prefix_range (ft_surface idx) fragment).

(** The closure given to [for_each_within], on one match. *)
Definition fuzzy_match (idx : FtsIndex) (adm : option admit_fn) (m : rstring * rstring * nat)
  : option (rstring * nat * nat) :=
  let df := df_of_stem idx m.1.2 adm in
  if (0 <? df)%nat then Some (m.1.1, df, m.2) else None.

Definition suggest_fuzzy (idx : FtsIndex) (fragment : rstring) (max_edits : nat) (adm : option admit_fn)
  : option (list (rstring * nat * nat)) :=
  match for_each_within (bt_entries (ft_surface idx)) fragment max_edits with
  | Some (found, _) => Some (omap (fuzzy_match idx adm) found)
  | None => None
  end.
End index.

(** ** What the texts say *)

Definition tf_of (t : rstring) (terms : list rstring) : nat :=
  length (List.filter (fun x => bool_decide (x = t)) terms).

Lemma count_pos t terms : (0 < tf_of t terms)%nat <-> t ∈ terms.
Proof.
  unfold tf_of. induction terms as [|x terms IH]; cbn.
  - split; [lia|]. intros Hx. by apply elem_of_nil in Hx.
  - rewrite elem_of_cons, <- IH. case_bool_decide as E; cbn [length]; [|naive_solver].
    split; [by left|lia].
Qed.

Lemma count_le t terms : (tf_of t terms <= length terms)%nat.
Proof. unfold tf_of. induction terms as [|x terms IH]; cbn; [done|]. case_bool_decide; cbn [length]; lia. Qed.

Section reference.
Context `{UnicodeAlnum} `{UnicodeLower} `{Ln} (cfg : FtsField).

Definition terms_of (text : rstring) : list rstring := analyze text (fts_analyzer cfg).

(** The documents that carry a term. *)
Definition df (docs : gmap rstring rstring) (t : rstring) : nat :=
  size (filter (fun kv => t ∈ terms_of kv.2) docs).

Definition total_terms (docs : gmap rstring rstring) : nat :=
  map_fold (fun _ text acc => length (terms_of text) + acc)%nat 0%nat docs.

(** What one term adds to the score of a document. *)
Definition bm25_term (docs : gmap rstring rstring) (text t : rstring) : option f32 :=
  let n := f32_of_Z (Z.of_nat (size docs)) in
  let avg := avgdl_of (N.of_nat (size docs)) (N.of_nat (total_terms docs)) in
  if (tf_of t (terms_of text) =? 0)%nat then None
  else
    idf ← term_idf n (df docs t);
    Some (f32_mul idf (tf_norm cfg avg (N.of_nat (tf_of t (terms_of text)))
                         (N.of_nat (length (terms_of text))))).

Definition add_opt (acc x : option f32) : option f32 :=
  match x with Some v => Some (f32_add (default f32_zero acc) v) | None => acc end.

(** The distinct terms of a query, in the order of their first occurrence. *)
Fixpoint distinct (seen : gset rstring) (q : list rstring) : list rstring :=
  match q with
  | [] => []
  | t :: q' => if decide (t ∈ seen) then distinct seen q' else t :: distinct ({[t]} ∪ seen) q'
  end.

Definition bm25 (docs : gmap rstring rstring) (q : list rstring) (text : rstring) : option f32 :=
  foldl (fun acc t => add_opt acc (bm25_term docs text t)) None (distinct ∅ q).
End reference.

(** ** The invariant *)

Definition posts (idx : FtsIndex) (t : rstring) : list Posting := default [] (ft_postings idx !! t).
Definition is_dead (o : option rstring) : bool := match o with None => true | Some _ => false end.

Section invariant.
Context `{UnicodeAlnum} `{UnicodeLower}.

(** [docs] gives the text of every indexed document. *)
Record fts_ok (idx : FtsIndex) (docs : gmap rstring rstring) : Prop := {
  to_dom : forall id, is_Some (ft_id_to_docnum idx !! id) <-> is_Some (docs !! id);
  to_slot : forall id d, ft_id_to_docnum idx !! id = Some d -> ft_docnum_to_id idx !! N.to_nat d = Some (Some id);
  to_live : forall i id, ft_docnum_to_id idx !! i = Some (Some id) -> ft_id_to_docnum idx !! id = Some (N.of_nat i);
  to_lens : length (ft_doc_len idx) = length (ft_docnum_to_id idx);
  to_len : forall id d text, ft_id_to_docnum idx !! id = Some d -> docs !! id = Some text ->
    ft_doc_len idx !! N.to_nat d = Some (N.of_nat (length (terms_of (ft_cfg idx) text)));
  to_tf : forall id d text, ft_id_to_docnum idx !! id = Some d -> docs !! id = Some text ->
    forall t n, {| po_docnum := d; po_tf := n |} ∈ posts idx t <->
      n = N.of_nat (tf_of t (terms_of (ft_cfg idx) text)) /\ t ∈ terms_of (ft_cfg idx) text;
  to_nodup : forall t, NoDup (po_docnum <$> posts idx t);
  to_range : forall t p, p ∈ posts idx t -> (N.to_nat (po_docnum p) < length (ft_docnum_to_id idx))%nat;
  to_count : ft_doc_count idx = N.of_nat (size docs);
  to_total : ft_total_len idx = N.of_nat (total_terms (ft_cfg idx) docs);
  to_tomb : ft_tombstones idx = N.of_nat (length (List.filter is_dead (ft_docnum_to_id idx)));
  to_surface_sound : forall s st, ft_surface idx !! s = Some st -> st = stem s /\ st <> [];
  to_surface : forall id text s st, docs !! id = Some text ->
    (s, st) ∈ analyze_surface text (fts_analyzer (ft_cfg idx)) -> ft_surface idx !! s = Some st
}.

Lemma total_terms_insert cfg docs id text :
  docs !! id = None -> total_terms cfg (<[id := text]> docs) = (length (terms_of cfg text) + total_terms cfg docs)%nat.
Proof. intros Hn. unfold total_terms. rewrite map_fold_insert_L; [done|intros; lia|done]. Qed.

Lemma total_terms_delete cfg docs id text :
  docs !! id = Some text -> total_terms cfg docs = (length (terms_of cfg text) + total_terms cfg (delete id docs))%nat.
Proof.
  intros Hs. rewrite <- (total_terms_insert cfg (delete id docs) id text) by apply lookup_delete_eq. by rewrite insert_delete_id.
Qed.

Lemma fts_ok_new cfg : fts_ok (FtsIndex_new cfg) ∅.
Proof.
  split; unfold posts; cbn; intros *; rewrite ?lookup_empty; cbn; try done.
  - constructor.
  - intros Hx. by apply elem_of_nil in Hx.
Qed.

Lemma dead_insert l d id :
  l !! d = Some (Some id) ->
  length (List.filter is_dead (<[d := None]> l)) = S (length (List.filter is_dead l)).
Proof.
  revert d. induction l as [|x l IH]; intros [|d]; try done; cbn.
  - by intros [= ->].
  - intros Hd. destruct (is_dead x); cbn [length]; by rewrite IH.
Qed.

Lemma dead_le l : (length (List.filter is_dead l) <= length l)%nat.
Proof. apply filter_length_le. Qed.

Lemma dead_lt l d id : l !! d = Some (Some id) -> (length (List.filter is_dead l) < length l)%nat.
Proof.
  intros Hd. pose proof (dead_insert l d id Hd). pose proof (dead_le (<[d := None]> l)).
  rewrite length_insert in *. lia.
Qed.

Lemma fts_tombstone_ids idx id : ft_id_to_docnum (fts_tombstone idx id) = delete id (ft_id_to_docnum idx).
Proof. unfold fts_tombstone. case_match eqn:E; [done|]. by rewrite delete_id. Qed.

Lemma fts_tombstone_cfg idx id : ft_cfg (fts_tombstone idx id) = ft_cfg idx.
Proof. unfold fts_tombstone. by case_match. Qed.

Lemma fts_tombstone_length idx id :
  length (ft_docnum_to_id (fts_tombstone idx id)) = length (ft_docnum_to_id idx).
Proof. unfold fts_tombstone. case_match; [|done]. apply length_insert. Qed.

Lemma fts_tombstone_ok idx docs id :
  (N.of_nat (length (ft_docnum_to_id idx)) < 2 ^ 32)%N ->
  fts_ok idx docs -> fts_ok (fts_tombstone idx id) (delete id docs).
Proof.
  intros Hlen Hok. unfold fts_tombstone. destruct (ft_id_to_docnum idx !! id) as [d|] eqn:E; cycle 1.
  { rewrite delete_id; [done|]. apply eq_None_not_Some. rewrite <- (to_dom _ _ Hok), E. by intros [? ?]. }
  pose proof (to_slot _ _ Hok _ _ E) as Hslot.
  destruct (proj1 (to_dom _ _ Hok id) ltac:(eauto)) as [text Htext].
  pose proof (to_len _ _ Hok _ _ _ E Htext) as Hl.
  assert (forall id' d', id' <> id -> ft_id_to_docnum idx !! id' = Some d' -> N.to_nat d' <> N.to_nat d) as Hother.
  { intros id' d' Hne Hd' Ed. apply (to_slot _ _ Hok) in Hd'. rewrite Ed in Hd'. congruence. }
  split; cbn [ft_cfg ft_postings ft_surface ft_doc_len ft_docnum_to_id ft_id_to_docnum ft_doc_count ft_total_len
              ft_tombstones]; unfold posts; cbn [ft_postings].
  - intros id'. destruct (decide (id = id')) as [<-|Hne]; [by rewrite !lookup_delete_eq|].
    rewrite !lookup_delete_ne by done. apply Hok.
  - intros id' d' [Hne Hd']%lookup_delete_Some.
    rewrite list_lookup_insert_ne by (intros Ed; by apply (Hother id' d')). by apply Hok.
  - intros i id' Hi. destruct (decide (N.to_nat d = i)) as [<-|Hne].
    + rewrite list_lookup_insert_eq in Hi by (by eapply lookup_lt_Some). done.
    + rewrite list_lookup_insert_ne in Hi by done. rewrite lookup_delete_ne; [by apply Hok|].
      intros <-. apply (to_live _ _ Hok) in Hi. rewrite E in Hi. injection Hi as ->. lia.
  - rewrite !length_insert. apply Hok.
  - intros id' d' text' [Hne Hd']%lookup_delete_Some [_ Ht']%lookup_delete_Some.
    rewrite list_lookup_insert_ne by (intros Ed; by apply (Hother id' d')). by eapply to_len.
  - intros id' d' text' [Hne Hd']%lookup_delete_Some [_ Ht']%lookup_delete_Some. by eapply to_tf.
  - apply Hok.
  - rewrite length_insert. apply Hok.
  - rewrite (to_count _ _ Hok). rewrite map_size_delete_Some by eauto.
    assert (size docs <> 0%nat) by (rewrite map_size_ne_0_lookup; eauto). lia.
  - rewrite Hl, (to_total _ _ Hok), (total_terms_delete _ _ _ _ Htext). simpl default. lia.
  - rewrite (dead_insert _ _ _ Hslot), (to_tomb _ _ Hok). unfold u32_succ.
    pose proof (dead_lt _ _ _ Hslot). rewrite N.mod_small; lia.
  - apply Hok.
  - intros id' text' s st [_ Ht']%lookup_delete_Some. by eapply (to_surface _ _ Hok).
Qed.

(** *** Indexing a document *)

Lemma count_snoc t l x : tf_of t (l ++ [x]) = (tf_of t l + if decide (x = t) then 1 else 0)%nat.
Proof.
  unfold tf_of. rewrite List.filter_app, length_app. cbn. case_bool_decide; case_decide; done.
Qed.

Lemma count_zero t l : t ∉ l -> tf_of t l = 0%nat.
Proof. intros Hn. rewrite <- count_pos in Hn. lia. Qed.

Lemma count_terms_lookup terms t :
  (N.of_nat (length terms) < 2 ^ 32)%N ->
  count_terms terms !! t = if decide (t ∈ terms) then Some (N.of_nat (tf_of t terms)) else None.
Proof.
  unfold count_terms. revert t. induction terms as [|x l IH] using rev_ind; intros t Hl.
  { rewrite decide_False by (by intros ?%elem_of_nil). apply lookup_empty. }
  rewrite length_app in Hl. cbn [length] in Hl. rewrite fold_left_app. cbn [fold_left]. rewrite count_snoc.
  destruct (decide (x = t)) as [->|Hne].
  - rewrite lookup_insert_eq, decide_True by set_solver. f_equal. rewrite IH by lia. unfold u32_succ.
    pose proof (count_le t l) as Hc. change (2 ^ 32)%N with 4294967296%N in *.
    destruct (decide (t ∈ l)) as [|Hn]; simpl default; [|rewrite (count_zero _ _ Hn)];
      rewrite N.mod_small by lia; lia.
  - rewrite lookup_insert_ne, IH by (done || lia). rewrite Nat.add_0_r.
    destruct (decide (t ∈ l)) as [Hin|Hn]; [rewrite decide_True by set_solver|rewrite decide_False by set_solver]; done.
Qed.

Lemma posts_add d l m t :
  NoDup l.*1 ->
  default [] (fold_left (add_tf d) l m !! t) =
  default [] (m !! t) ++ match (list_to_map l : gmap rstring N) !! t with
                         | Some n => [{| po_docnum := d; po_tf := n |}] | None => [] end.
Proof.
  revert m. induction l as [|[x n] l IH]; intros m; cbn [fold_left fmap list_fmap fst].
  { intros _. by rewrite app_nil_r. }
  intros [Hx Hnd]%NoDup_cons. rewrite IH by done. cbn [list_to_map foldr]. unfold add_tf. cbn [fst snd].
  destruct (decide (x = t)) as [->|Hne].
  - rewrite !lookup_insert_eq. rewrite (not_elem_of_list_to_map_1 l t Hx). simpl default. by rewrite app_nil_r.
  - by rewrite !lookup_insert_ne.
Qed.

Lemma posts_index `{HashIter} d terms m t :
  (N.of_nat (length terms) < 2 ^ 32)%N ->
  default [] (fold_left (add_tf d) (hash_iter (map_to_list (count_terms terms))) m !! t) =
  default [] (m !! t) ++
    if decide (t ∈ terms) then [{| po_docnum := d; po_tf := N.of_nat (tf_of t terms) |}] else [].
Proof.
  intros Hl. pose proof (hash_iter_perm (map_to_list (count_terms terms))) as Hp.
  assert (NoDup (hash_iter (map_to_list (count_terms terms))).*1) as Hnd
    by (rewrite Hp; apply NoDup_fst_map_to_list).
  rewrite posts_add by done. f_equal.
  rewrite (list_to_map_proper _ _ Hnd Hp), list_to_map_to_list, count_terms_lookup by done.
  by destruct (decide (t ∈ terms)).
Qed.

Lemma elem_of_analyze_surface s st text cfg :
  (s, st) ∈ analyze_surface text cfg -> st = stem s /\ st <> [].
Proof.
  unfold analyze_surface. destruct (an_language cfg). intros (t & _ & Ht)%list_elem_of_omap.
  unfold is_nonempty in Ht. case_bool_decide as E; [done|]. cbn in Ht. by injection Ht as <- <-.
Qed.

Lemma surface_add ss m s st :
  (forall s st, (s, st) ∈ ss -> st = stem s) -> (forall s st, m !! s = Some st -> st = stem s) ->
  fold_left add_surface ss m !! s = Some st <-> m !! s = Some st \/ (s, st) ∈ ss.
Proof.
  intros Hss. revert m. induction ss as [|[s' st'] ss IH]; intros m Hm; cbn [fold_left].
  { split; [by left|]. intros [?|?%elem_of_nil]; done. }
  assert (st' = stem s') as -> by (apply Hss; constructor).
  rewrite IH.
  - unfold add_surface. cbn [fst snd]. rewrite lookup_insert_Some, elem_of_cons. split.
    + intros [[[<- <-]|[? ?]]|?]; auto.
    + intros [Hs|[[= -> ->]|?]]; auto. destruct (decide (s' = s)) as [->|]; [|auto].
      left. left. by rewrite (Hm _ _ Hs).
  - intros s1 st1 H1. apply Hss. by constructor.
  - intros s1 st1. unfold add_surface. cbn [fst snd]. intros [[<- <-]|[_ ?]]%lookup_insert_Some; eauto.
Qed.

Lemma fts_index_cfg `{HashIter} idx id text : ft_cfg (fts_index idx id text) = ft_cfg idx.
Proof. unfold fts_index. cbn. apply fts_tombstone_cfg. Qed.

Lemma fts_index_length `{HashIter} idx id text :
  length (ft_docnum_to_id (fts_index idx id text)) = S (length (ft_docnum_to_id idx)).
Proof. unfold fts_index. cbn. rewrite length_app, fts_tombstone_length. cbn. lia. Qed.

(** While docnums and term counts fit in [u32]. *)
Lemma fts_index_ok `{HashIter} idx docs id text :
  (N.of_nat (length (ft_docnum_to_id idx)) < 2 ^ 32)%N ->
  (N.of_nat (length (terms_of (ft_cfg idx) text)) < 2 ^ 32)%N ->
  fts_ok idx docs -> fts_ok (fts_index idx id text) (<[id := text]> docs).
Proof.
  intros Hlen Hterms Hok. pose proof (fts_tombstone_ok _ _ id Hlen Hok) as Hok'. clear Hok.
  unfold fts_index. rewrite <- (fts_tombstone_cfg idx id) in *. rewrite <- (fts_tombstone_length idx id) in Hlen.
  rewrite <- (insert_delete_eq docs id text).
  assert (delete id docs !! id = None) as Hfresh by apply lookup_delete_eq.
  revert Hlen Hterms Hok' Hfresh.
  generalize (fts_tombstone idx id) as idx', (delete id docs) as docs'. clear idx docs.
  intros idx docs Hlen Hterms Hok Hfresh. rewrite (as_u32_id _ Hlen).
  change (analyze text (fts_analyzer (ft_cfg idx))) with (terms_of (ft_cfg idx) text).
  rewrite (as_u32_id _ Hterms). set (n := length (ft_docnum_to_id idx)) in *.
  set (ts := terms_of (ft_cfg idx) text) in *.
  assert (ft_id_to_docnum idx !! id = None) as Hid.
  { apply eq_None_not_Some. rewrite (to_dom _ _ Hok), Hfresh. by intros [? ?]. }
  assert (forall id' d, ft_id_to_docnum idx !! id' = Some d -> (N.to_nat d < n)%nat) as Hlt.
  { intros id' d Hd. apply (to_slot _ _ Hok) in Hd. by eapply lookup_lt_Some. }
  split; cbn [ft_cfg ft_postings ft_surface ft_doc_len ft_docnum_to_id ft_id_to_docnum ft_doc_count ft_total_len
              ft_tombstones]; unfold posts; cbn [ft_postings]; try (intros t; rewrite posts_index by done);
    fold (posts idx).
  - intros id'. destruct (decide (id = id')) as [<-|Hne]; [rewrite !lookup_insert_eq; split; eauto|].
    rewrite !lookup_insert_ne by done. apply Hok.
  - intros id' d [[<- <-]|[Hne Hd]]%lookup_insert_Some.
    + rewrite Nat2N.id, lookup_app_r by done. by rewrite Nat.sub_diag.
    + apply lookup_app_l_Some. by apply Hok.
  - intros i id' [Hi|[Hi Hs]]%lookup_app_Some.
    + rewrite lookup_insert_ne; [by apply Hok|]. intros <-. apply (to_live _ _ Hok) in Hi. congruence.
    + apply list_lookup_singleton_Some in Hs as [Hs [= ->]]. rewrite lookup_insert_eq. do 2 f_equal. subst n. lia.
  - rewrite !length_app, (to_lens _ _ Hok). done.
  - intros id' d text' [[<- <-]|[Hne Hd]]%lookup_insert_Some.
    + rewrite lookup_insert_eq. intros [= <-]. rewrite Nat2N.id, lookup_app_r by (by rewrite (to_lens _ _ Hok)).
      by rewrite (to_lens _ _ Hok), Nat.sub_diag.
    + rewrite lookup_insert_ne by done. intros Ht. apply lookup_app_l_Some. by eapply to_len.
  - intros id' d text' Hd Ht t m. rewrite posts_index by done. fold (posts idx t). rewrite elem_of_app.
    apply lookup_insert_Some in Hd as [[<- <-]|[Hne Hd]].
    + rewrite lookup_insert_eq in Ht. injection Ht as <-. split.
      * intros [Hp|Hp].
        { apply (to_range _ _ Hok) in Hp. cbn in Hp. subst n. lia. }
        destruct (decide (t ∈ ts)); [|by apply elem_of_nil in Hp].
        apply list_elem_of_singleton in Hp. by injection Hp as ->.
      * intros [-> Hin]. right. rewrite decide_True by done. constructor.
    + rewrite lookup_insert_ne in Ht by done. rewrite <- (to_tf _ _ Hok _ _ _ Hd Ht). split; [|by left].
      intros [Hp|Hp]; [done|]. destruct (decide (t ∈ ts)); [|by apply elem_of_nil in Hp].
      apply list_elem_of_singleton in Hp. injection Hp as -> _. apply Hlt in Hd. subst n. lia.
  - rewrite fmap_app, NoDup_app. split_and!; [apply Hok| |destruct (decide _); [apply NoDup_singleton|constructor]].
    intros d (p & -> & Hp)%list_elem_of_fmap. apply (to_range _ _ Hok) in Hp.
    destruct (decide _); cbn; [|by intros ?%elem_of_nil]. intros Ed%list_elem_of_singleton. subst n. lia.
  - intros p. rewrite length_app. cbn [length]. intros [Hp|Hp]%elem_of_app.
    + apply (to_range _ _ Hok) in Hp. lia.
    + destruct (decide _); [|by apply elem_of_nil in Hp]. apply list_elem_of_singleton in Hp as ->. cbn. lia.
  - rewrite (to_count _ _ Hok), map_size_insert_None by done. lia.
  - rewrite (to_total _ _ Hok), total_terms_insert by done. fold ts. lia.
  - rewrite (to_tomb _ _ Hok), List.filter_app, length_app. cbn. by rewrite Nat.add_0_r.
  - intros s st. rewrite surface_add.
    + intros [?|Hs]; [by apply Hok|by eapply elem_of_analyze_surface].
    + intros s' st' Hs. by eapply elem_of_analyze_surface.
    + intros s' st' Hs. by apply (to_surface_sound _ _ Hok) in Hs as [? _].
  - intros id' text' s st Ht Hs. apply surface_add.
    + intros s' st' Hs'. by eapply elem_of_analyze_surface.
    + intros s' st' Hs'. by apply (to_surface_sound _ _ Hok) in Hs' as [? _].
    + apply lookup_insert_Some in Ht as [[<- <-]|[Hne Ht]]; [by right|left]. by eapply (to_surface _ _ Hok).
Qed.
End invariant.

(** ** Scores are those of the texts *)

Section scoring.
Context `{UnicodeAlnum} `{UnicodeLower}.
Context (idx : FtsIndex) (docs : gmap rstring rstring) (Hok : fts_ok idx docs).

Lemma slot_Some d id : slot idx d = Some id <-> ft_id_to_docnum idx !! id = Some d.
Proof.
  unfold slot. split.
  - destruct (ft_docnum_to_id idx !! N.to_nat d) as [[id'|]|] eqn:E; try done. intros [= ->].
    apply (to_live _ _ Hok) in E. by rewrite N2Nat.id in E.
  - intros E. by rewrite (to_slot _ _ Hok _ _ E).
Qed.

Lemma slot_doc d id : slot idx d = Some id -> exists text, docs !! id = Some text.
Proof. intros E%slot_Some. apply (to_dom _ _ Hok). eauto. Qed.

Lemma elem_of_live p ps : p ∈ live_postings idx ps <-> p ∈ ps /\ exists id, slot idx (po_docnum p) = Some id.
Proof.
  unfold live_postings. rewrite list_elem_of_In, filter_In, <- list_elem_of_In, bool_decide_eq_true. done.
Qed.

Lemma live_nodup t : NoDup (po_docnum <$> live_postings idx (posts idx t)).
Proof.
  pose proof (to_nodup _ _ Hok t) as Hn. unfold live_postings. revert Hn. generalize (posts idx t).
  induction l as [|p l IH]; [constructor|]. cbn [fmap list_fmap List.filter]. intros [Hp Hn]%NoDup_cons.
  case_bool_decide; [|by apply IH]. cbn [fmap list_fmap]. constructor; [|by apply IH].
  intros (q & Eq & Hq)%list_elem_of_fmap. apply Hp. apply list_elem_of_fmap. exists q. split; [done|].
  apply list_elem_of_In in Hq. apply filter_In in Hq as [Hq _]. by apply list_elem_of_In.
Qed.

(** A document has a live posting of a term exactly when its text has the term. *)
Lemma live_posting t d id text :
  slot idx d = Some id -> docs !! id = Some text ->
  (exists n, {| po_docnum := d; po_tf := n |} ∈ live_postings idx (posts idx t)) <->
  t ∈ terms_of (ft_cfg idx) text.
Proof.
  intros Hs Ht. pose proof (to_tf _ _ Hok _ _ _ (proj1 (slot_Some _ _) Hs) Ht t) as Htf. split.
  - intros (n & [Hp _]%elem_of_live). by apply Htf in Hp as [_ ?].
  - intros Hin. eexists. apply elem_of_live. split; [by apply Htf|]. cbn. eauto.
Qed.

Lemma elem_of_admitted adm p ps :
  p ∈ List.filter (admitted idx adm) ps <->
  p ∈ ps /\ exists id, slot idx (po_docnum p) = Some id /\ adm (po_docnum p) id = true.
Proof.
  rewrite list_elem_of_In, filter_In, <- list_elem_of_In. unfold admitted.
  destruct (slot idx (po_docnum p)) as [id|]; [naive_solver|]. split; [by intros [_ ?]|naive_solver].
Qed.

Lemma live_admitted ps : live_postings idx ps = List.filter (admitted idx (fun _ _ => true)) ps.
Proof. apply filter_ext. intros p. unfold admitted. by destruct (slot idx (po_docnum p)). Qed.

Lemma filter_docnums_nodup (f : Posting -> bool) t : NoDup (po_docnum <$> List.filter f (posts idx t)).
Proof.
  pose proof (to_nodup _ _ Hok t) as Hn. revert Hn. generalize (posts idx t).
  induction l as [|p l IH]; [constructor|]. cbn [fmap list_fmap List.filter]. intros [Hp Hn]%NoDup_cons.
  destruct (f p); [|by apply IH]. cbn [fmap list_fmap]. constructor; [|by apply IH].
  intros (q & Eq & Hq)%list_elem_of_fmap. apply Hp. apply list_elem_of_fmap. exists q. split; [done|].
  apply list_elem_of_In in Hq. apply filter_In in Hq as [Hq _]. by apply list_elem_of_In.
Qed.

(** The postings counted through a predicate on documents are the documents
    that satisfy it and carry the term. *)
Lemma count_admitted (adm : admit_fn) (P : rstring -> Prop) `{!forall id, Decision (P id)} t :
  (forall d id, slot idx d = Some id -> adm d id = true <-> P id) ->
  length (List.filter (admitted idx adm) (posts idx t)) =
  size (filter (fun kv => t ∈ terms_of (ft_cfg idx) kv.2 /\ P kv.1) docs).
Proof.
  intros Hadm. rewrite <- length_map_to_list.
  rewrite <- (length_fmap (fun p => default [] (slot idx (po_docnum p)))), <- (length_fmap fst).
  apply Permutation_length, NoDup_Permutation.
  - pose proof (filter_docnums_nodup (admitted idx adm) t) as Hn.
    assert (Forall (fun p => is_Some (slot idx (po_docnum p))) (List.filter (admitted idx adm) (posts idx t))) as Hl
      by (apply Forall_forall; intros p [_ (id & Hp & _)]%elem_of_admitted; eauto).
    revert Hn Hl. generalize (List.filter (admitted idx adm) (posts idx t)). intros l.
    induction l as [|p l IH]; [constructor|].
    cbn [fmap list_fmap]. intros [Hp Hn]%NoDup_cons [[id Hid] Hl]%Forall_cons. constructor; [|by apply IH].
    rewrite Hid. cbn. intros (q & Eq & Hq)%list_elem_of_fmap. apply Hp, list_elem_of_fmap. exists q. split; [|done].
    rewrite Forall_forall in Hl. destruct (Hl q Hq) as [id' Hid']. rewrite Hid' in Eq. cbn in Eq. subst id'.
    apply slot_Some in Hid, Hid'. congruence.
  - apply NoDup_fst_map_to_list.
  - intros id. rewrite !list_elem_of_fmap. split.
    + intros (p & -> & Hp). apply elem_of_admitted in Hp as (Hp & id' & Hid & Ha). rewrite Hid. cbn.
      destruct (slot_doc _ _ Hid) as [text Ht]. exists (id', text). split; [done|].
      apply elem_of_map_to_list, map_lookup_filter_Some. split; [done|]. cbn. split; [|by apply (Hadm _ _ Hid)].
      pose proof (to_tf _ _ Hok _ _ _ (proj1 (slot_Some _ _) Hid) Ht t (po_tf p)) as Htf.
      destruct p as [d n]. by apply Htf in Hp as [_ ?].
    + intros ([id' text] & -> & Hin). apply elem_of_map_to_list, map_lookup_filter_Some in Hin as [Ht [Hin HP]].
      cbn in *. destruct (proj2 (to_dom _ _ Hok id') ltac:(eauto)) as [d Hd].
      pose proof (to_tf _ _ Hok _ _ _ Hd Ht t) as Htf. apply slot_Some in Hd.
      exists {| po_docnum := d; po_tf := N.of_nat (tf_of t (terms_of (ft_cfg idx) text)) |}.
      cbn. rewrite Hd. split; [done|]. apply elem_of_admitted. cbn. split; [by apply Htf|].
      exists id'. split; [done|]. by apply (Hadm _ _ Hd).
Qed.

Lemma live_count t : length (live_postings idx (posts idx t)) = df (ft_cfg idx) docs t.
Proof.
  rewrite live_admitted, (count_admitted _ (fun _ => True)) by done. unfold df. f_equal.
  apply map_filter_ext. intros id text _. naive_solver.
Qed.

(** Counting without a predicate: the shortcut for an index that never lost a
    document agrees with the walk. *)
Lemma df_where_None t : df_where idx (posts idx t) None = df (ft_cfg idx) docs t.
Proof.
  unfold df_where. rewrite <- live_count. destruct (N.eqb_spec (ft_tombstones idx) 0) as [E|]; [|done].
  rewrite (to_tomb _ _ Hok) in E. f_equal. unfold live_postings.
  assert (forall p, p ∈ posts idx t -> is_Some (slot idx (po_docnum p))) as Hlive.
  { intros p Hp. apply (to_range _ _ Hok) in Hp. apply lookup_lt_is_Some_2 in Hp as [o Ho].
    unfold slot. rewrite Ho. destruct o as [id|]; [by exists id|].
    assert (None ∈ List.filter is_dead (ft_docnum_to_id idx)) as Hin.
    { apply list_elem_of_In, filter_In. split; [|done]. apply list_elem_of_In. by eapply list_elem_of_lookup_2. }
    destruct (List.filter is_dead (ft_docnum_to_id idx)); [by apply elem_of_nil in Hin|done]. }
  revert Hlive. generalize (posts idx t). intros l. induction l as [|p l IH]; intros Hl; [done|]. cbn [List.filter].
  rewrite bool_decide_eq_true_2 by (apply Hl; constructor). f_equal. apply IH. intros q Hq. apply Hl. by constructor.
Qed.

Lemma df_of_stem_posts stemmed adm :
  df_of_stem idx stemmed adm = df_where idx (posts idx stemmed) adm.
Proof.
  unfold df_of_stem, posts. destruct (ft_postings idx !! stemmed); [done|].
  unfold df_where. destruct adm; [done|]. by destruct (ft_tombstones idx =? 0)%N.
Qed.

(** ** Heads *)

(** A document whose text carries every head. *)
Definition carries (heads : list rstring) (id : rstring) : Prop :=
  forall text, docs !! id = Some text -> Forall (fun h => h ∈ terms_of (ft_cfg idx) text) heads.

Definition head_set (heads : list rstring) (acc : gset N) : Prop :=
  (forall d id, slot idx d = Some id -> d ∈ acc <-> carries heads id) /\
  (forall d, d ∈ acc -> exists id, slot idx d = Some id).

Lemma posting_carries t d id :
  slot idx d = Some id -> d ∈ map po_docnum (posts idx t) <-> carries [t] id.
Proof.
  intros Hs. destruct (slot_doc _ _ Hs) as [text Ht].
  pose proof (to_tf _ _ Hok _ _ _ (proj1 (slot_Some _ _) Hs) Ht t) as Htf. unfold carries. split.
  - intros (p & -> & Hp)%list_elem_of_fmap text'. rewrite Ht. intros [= <-]. constructor; [|constructor].
    destruct p as [d n]. by apply Htf in Hp as [_ ?].
  - intros Hc. specialize (Hc text Ht). apply Forall_cons in Hc as [Hc _].
    apply list_elem_of_fmap. eexists. split; [|by apply Htf]. done.
Qed.

Lemma carries_cons h heads id : carries (h :: heads) id <-> carries [h] id /\ carries heads id.
Proof.
  unfold carries. split.
  - intros Hc. split; intros text Ht; specialize (Hc text Ht); apply Forall_cons in Hc as [? ?]; [by repeat constructor|done].
  - intros [H1 H2] text Ht. specialize (H1 text Ht). specialize (H2 text Ht).
    apply Forall_cons in H1 as [? _]. by constructor.
Qed.

Lemma head_docs_loop_spec order acc heads :
  head_set heads acc -> head_set (heads ++ order) (head_docs_loop idx order acc).
Proof.
  revert acc heads. induction order as [|t order IH]; intros acc heads Hacc; cbn [head_docs_loop];
    [by rewrite app_nil_r|].
  destruct (ft_postings idx !! t) as [ps|] eqn:Ep; cycle 1.
  { split; [|intros d Hd; by apply elem_of_empty in Hd].
    intros d id Hs. split; [by intros ?%elem_of_empty|]. intros Hc.
    assert (carries [t] id) as Hct.
    { intros text Ht. specialize (Hc text Ht). apply Forall_app in Hc as [_ Hc].
      apply Forall_cons in Hc as [? _]. by repeat constructor. }
    apply (posting_carries t d id Hs) in Hct. unfold posts in Hct. rewrite Ep in Hct. by apply elem_of_nil in Hct. }
  set (acc' := list_to_set _ : gset N).
  assert (head_set (heads ++ [t]) acc') as Hacc'.
  { assert (forall d, d ∈ acc' <-> d ∈ acc /\ d ∈ map po_docnum (posts idx t)) as Hin.
    { intros d. subst acc'. rewrite elem_of_list_to_set, list_elem_of_In, filter_In, <- list_elem_of_In,
        bool_decide_eq_true. unfold posts. rewrite Ep. simpl default. tauto. }
    split; [|intros d [Hd _]%Hin; by apply Hacc].
    intros d id Hs. rewrite Hin, (proj1 Hacc d id Hs), (posting_carries t d id Hs).
    unfold carries. split.
    - intros [H1 H2] text Ht. apply Forall_app. split; [by apply H1|by apply H2].
    - intros Hc. split; intros text Ht; specialize (Hc text Ht); by apply Forall_app in Hc as [? ?]. }
  case_bool_decide as Eacc; [|rewrite cons_middle, app_assoc; by apply IH].
  split; [|intros d Hd; by apply Hacc']. intros d id Hs. rewrite Eacc. split; [by intros ?%elem_of_empty|].
  intros Hc. rewrite <- Eacc. apply (proj1 Hacc' d id Hs). intros text Ht. specialize (Hc text Ht).
  apply Forall_app in Hc as [? Hc]. apply Forall_cons in Hc as [? _]. apply Forall_app. by repeat constructor.
Qed.

(** The docnums that survive the heads are those of the documents that carry them all. *)
Lemma head_docs_spec `{SortUnstable} heads :
  heads <> [] -> exists acc, head_docs idx heads = Some acc /\ head_set heads acc.
Proof.
  intros Hne. unfold head_docs. rewrite bool_decide_eq_false_2 by done.
  pose proof (sort_unstable_perm (by_rarity idx) heads) as Hp.
  destruct (sort_unstable (by_rarity idx) heads) as [|t order] eqn:Es.
  { by apply Permutation_nil_l in Hp. }
  assert (forall acc, head_set (t :: order) acc -> head_set heads acc) as Hperm.
  { intros acc [Hin Hlive]. split; [|done]. intros d id Hs. rewrite (Hin d id Hs). unfold carries.
    by setoid_rewrite Hp. }
  assert (head_set [t] (list_to_set (map po_docnum (live_postings idx (posts idx t))))) as Hfirst.
  { split.
    - intros d id Hs. rewrite elem_of_list_to_set, <- (posting_carries t d id Hs), !list_elem_of_fmap. split.
      + intros (p & -> & [Hp' _]%elem_of_live). eauto.
      + intros (p & -> & Hp'). exists p. split; [done|]. apply elem_of_live. eauto.
    - intros d. rewrite elem_of_list_to_set, list_elem_of_fmap. by intros (p & -> & [_ Hid]%elem_of_live). }
  destruct (ft_postings idx !! t) as [ps|] eqn:Ep.
  - eexists. split; [done|]. apply Hperm. apply (head_docs_loop_spec order _ [t]).
    unfold posts in Hfirst. rewrite Ep in Hfirst. exact Hfirst.
  - eexists. split; [done|]. apply Hperm.
    unfold posts in Hfirst. rewrite Ep in Hfirst. cbn in Hfirst.
    split; [|intros d Hd; by apply elem_of_empty in Hd].
    intros d id Hs. split; [by intros ?%elem_of_empty|]. intros Hc. apply (proj1 Hfirst d id Hs).
    by apply carries_cons in Hc as [? _].
Qed.

Context `{Ln}.

Lemma fold_add_score (avg idf : f32) l m d :
  NoDup (po_docnum <$> l) ->
  fold_left (add_score idx avg idf) l m !! d =
  match List.find (fun p => bool_decide (po_docnum p = d)) l with
  | Some p => Some (f32_add (default f32_zero (m !! d))
      (f32_mul idf (tf_norm (ft_cfg idx) avg (po_tf p) (default 0%N (ft_doc_len idx !! N.to_nat d)))))
  | None => m !! d
  end.
Proof.
  revert m. induction l as [|p l IH]; intros m; [done|]. cbn [fmap list_fmap fold_left List.find].
  intros [Hp Hn]%NoDup_cons. rewrite IH by done. case_bool_decide as E.
  - subst d. assert (List.find (fun q => bool_decide (po_docnum q = po_docnum p)) l = None) as ->.
    { destruct (List.find _ l) as [q|] eqn:Ef; [|done]. apply find_some in Ef as [Hq Eq%bool_decide_eq_true].
      exfalso. apply Hp, list_elem_of_fmap. exists q. split; [done|by apply list_elem_of_In]. }
    unfold add_score. by rewrite lookup_insert_eq.
  - unfold add_score. by rewrite !lookup_insert_ne by done.
Qed.

Lemma score_term_counts :
  score_term idx (f32_of_Z (Z.of_N (ft_doc_count idx))) (avgdl idx) =
  score_term idx (f32_of_Z (Z.of_nat (size docs)))
    (avgdl_of (N.of_nat (size docs)) (N.of_nat (total_terms (ft_cfg idx) docs))).
Proof. unfold avgdl. by rewrite (to_count _ _ Hok), (to_total _ _ Hok), nat_N_Z. Qed.

Lemma score_term_lookup m t d :
  score_term idx (f32_of_Z (Z.of_N (ft_doc_count idx))) (avgdl idx) m t !! d =
  match slot idx d with
  | Some id => add_opt (m !! d) (bm25_term (ft_cfg idx) docs (default [] (docs !! id)) t)
  | None => m !! d
  end.
Proof.
  rewrite score_term_counts. unfold score_term, bm25_term.
  set (n := f32_of_Z (Z.of_nat (size docs))). set (avg := avgdl_of _ _).
  assert (match ft_postings idx !! t with
          | None => m
          | Some postings =>
              match term_idf n (length (live_postings idx postings)) with
              | None => m
              | Some idf => fold_left (add_score idx avg idf) (live_postings idx postings) m
              end
          end !! d =
          match term_idf n (length (live_postings idx (posts idx t))) with
          | None => m
          | Some idf => fold_left (add_score idx avg idf) (live_postings idx (posts idx t)) m
          end !! d) as ->.
  { unfold posts. destruct (ft_postings idx !! t); [done|]. cbn. by destruct (term_idf n 0). }
  rewrite live_count. destruct (term_idf n (df (ft_cfg idx) docs t)) as [idf|] eqn:Eidf; cbn [mbind option_bind].
  - rewrite fold_add_score by apply live_nodup. destruct (slot idx d) as [id|] eqn:Es; cycle 1.
    { destruct (List.find _ _) as [p|] eqn:Ef; [|done]. apply find_some in Ef as [Hp Ep%bool_decide_eq_true].
      apply list_elem_of_In, elem_of_live in Hp as [_ [id Hid]]. congruence. }
    destruct (slot_doc _ _ Es) as [text Ht]. rewrite Ht. simpl default.
    pose proof (to_tf _ _ Hok _ _ _ (proj1 (slot_Some _ _) Es) Ht t) as Htf.
    destruct (List.find _ _) as [p|] eqn:Ef.
    + apply find_some in Ef as [Hp Ep%bool_decide_eq_true]. subst d.
      apply list_elem_of_In, elem_of_live in Hp as [Hp _]. destruct p as [d k]. cbn in *.
      apply Htf in Hp as [-> Hin]. apply count_pos in Hin. rewrite (proj2 (Nat.eqb_neq _ _)) by lia.
      rewrite (to_len _ _ Hok _ _ _ (proj1 (slot_Some _ _) Es) Ht). done.
    + assert (tf_of t (terms_of (ft_cfg idx) text) = 0%nat) as ->; [|done].
      apply count_zero. intros Hin.
      destruct (proj2 (live_posting t d id text Es Ht) Hin) as [k Hk].
      apply list_elem_of_In in Hk. apply (find_none _ _ Ef) in Hk. cbn in Hk.
      by rewrite bool_decide_eq_true_2 in Hk.
  - destruct (slot idx d); [|done]. by destruct (_ =? 0)%nat.
Qed.

Lemma score_terms_lookup q seen m d :
  score_terms idx (f32_of_Z (Z.of_N (ft_doc_count idx))) (avgdl idx) seen q m !! d =
  match slot idx d with
  | Some id => foldl (fun acc t => add_opt acc (bm25_term (ft_cfg idx) docs (default [] (docs !! id)) t))
                 (m !! d) (distinct seen q)
  | None => m !! d
  end.
Proof.
  revert seen m. induction q as [|t q IH]; intros seen m; cbn [score_terms distinct]; [by destruct (slot idx d)|].
  destruct (decide (t ∈ seen)); [apply IH|]. rewrite IH, score_term_lookup. by destruct (slot idx d).
Qed.

(** The scores of a query, in some order, are exactly the BM25 scores the
    texts of the live documents give, whatever was overwritten or deleted on
    the way, for the documents some term of the query contributes to. *)
Lemma fts_score_perm `{HashIter} q :
  fts_score idx q ≡ₚ omap (fun kv => (fun s => (kv.1, s)) <$> bm25 (ft_cfg idx) docs q kv.2) (map_to_list docs).
Proof.
  unfold fts_score. destruct (bool_decide (q = []) || (ft_doc_count idx =? 0)%N) eqn:E.
  { assert (forall kv, kv ∈ map_to_list docs -> bm25 (ft_cfg idx) docs q kv.2 = None) as Hn.
    { intros kv Hkv. apply orb_true_iff in E as [E%bool_decide_eq_true|E].
      - by subst q.
      - bdestr. rewrite (to_count _ _ Hok) in E. assert (size docs = 0%nat) as E' by lia.
        apply map_size_empty_iff in E'. subst docs. rewrite map_to_list_empty in Hkv. by apply elem_of_nil in Hkv. }
    induction (map_to_list docs) as [|kv l IH]; [done|]. cbn. rewrite Hn by constructor. cbn. apply IH.
    intros kv' Hkv'. apply Hn. by constructor. }
  set (scores := score_terms idx _ _ ∅ q ∅).
  assert (forall d, scores !! d = match slot idx d with
      | Some id => bm25 (ft_cfg idx) docs q (default [] (docs !! id)) | None => None end) as Hs.
  { intros d. subst scores. rewrite score_terms_lookup, lookup_empty. done. }
  clearbody scores. rewrite hash_iter_perm.
  apply NoDup_Permutation.
  - pose proof (NoDup_fst_map_to_list scores) as Hn. revert Hn. generalize (map_to_list scores).
    intros l. induction l as [|[d v] l IH]; [constructor|]. cbn [fmap list_fmap fst omap list_omap snd].
    intros [Hd Hn]%NoDup_cons. destruct (slot idx d) as [id|] eqn:Es; cbn; [|by apply IH].
    constructor; [|by apply IH]. intros ([d' v'] & Hin & Hid')%list_elem_of_omap. cbn in Hid'.
    destruct (slot idx d') as [id'|] eqn:Es'; [|done]. cbn in Hid'. injection Hid' as -> ->.
    apply Hd, list_elem_of_fmap. exists (d', v). split; [|done]. cbn.
    apply slot_Some in Es, Es'. congruence.
  - pose proof (NoDup_fst_map_to_list docs) as Hn. revert Hn. generalize (map_to_list docs).
    intros l. induction l as [|[id text] l IH]; [constructor|]. cbn [fmap list_fmap fst omap list_omap snd].
    intros [Hd Hn]%NoDup_cons. destruct (bm25 _ _ _ text) as [v|] eqn:Es; cbn; [|by apply IH].
    constructor; [|by apply IH]. intros ([id' text'] & Hin & Hid')%list_elem_of_omap. cbn in Hid'.
    destruct (bm25 _ _ _ text') as [v'|]; [|done]. cbn in Hid'. injection Hid' as -> ->.
    apply Hd, list_elem_of_fmap. by exists (id, text').
  - intros [id v]. rewrite !list_elem_of_omap. split.
    + intros ([d v'] & Hin%elem_of_map_to_list & E'). cbn in E'. rewrite Hs in Hin.
      destruct (slot idx d) as [id'|] eqn:Es; [|done]. cbn in E'. injection E' as -> ->.
      destruct (slot_doc _ _ Es) as [text Ht]. rewrite Ht in Hin. simpl default in Hin.
      exists (id, text). split; [by apply elem_of_map_to_list|]. cbn. by rewrite Hin.
    + intros ([id' text] & Hin%elem_of_map_to_list & E'). cbn in E'.
      destruct (bm25 _ _ _ text) as [v'|] eqn:Eb; [|done]. cbn in E'. injection E' as -> ->.
      destruct (proj2 (to_dom _ _ Hok id) ltac:(eauto)) as [d Hd]. apply slot_Some in Hd.
      exists (d, v). split; [|cbn; by rewrite Hd]. apply elem_of_map_to_list.
      rewrite Hs, Hd, Hin. done.
Qed.

(** ** Prefix expansion *)

Lemma fold_insert_spec {A V} (F : gmap rstring V -> A -> gmap rstring V) (f : A -> option rstring)
    (g : rstring -> V) (l : list A) m :
  (forall m x, x ∈ l -> F m x = match f x with Some k => <[k := g k]> m | None => m end) ->
  (forall k v, m !! k = Some v -> v = g k) ->
  (forall k v, fold_left F l m !! k = Some v <->
     m !! k = Some v \/ (v = g k /\ exists x, x ∈ l /\ f x = Some k)) /\
  (forall k v, fold_left F l m !! k = Some v -> v = g k).
Proof.
  intros HF Hm. revert m Hm. induction l as [|x l IH]; intros m Hm; cbn [fold_left].
  { split; [|done]. intros k v. split; [by left|]. intros [?|(_ & x & ?%elem_of_nil & _)]; done. }
  destruct (IH ltac:(intros; apply HF; by constructor) (F m x)) as [HA HB].
  { intros k v. rewrite HF by constructor. destruct (f x) as [k'|]; [|by apply Hm].
    intros [[<- <-]|[_ ?]]%lookup_insert_Some; [done|by apply Hm]. }
  split; [|done]. intros k v. rewrite HA, HF by constructor. split.
  - intros [Hk|(-> & y & Hy & Ey)]; [|right; split; [done|]; exists y; split; [by constructor|done]].
    destruct (f x) as [k'|] eqn:Ef; [|by left].
    apply lookup_insert_Some in Hk as [[<- <-]|[_ ?]]; [|by left]. right. split; [done|].
    exists x. split; [constructor|done].
  - intros [Hk|(-> & y & [->|Hy]%elem_of_cons & Ey)].
    + left. destruct (f x) as [k'|]; [|done]. destruct (decide (k' = k)) as [->|]; [|by rewrite lookup_insert_ne].
      rewrite lookup_insert_eq. f_equal. symmetry. by apply Hm.
    + left. by rewrite Ey, lookup_insert_eq.
    + right. split; [done|]. eauto.
Qed.

(** A stem a fragment reaches: it, or a surface form of it, starts with the fragment. *)
Definition reaches (fragment t : rstring) : Prop :=
  starts_with t fragment = true \/ exists s, ft_surface idx !! s = Some t /\ starts_with s fragment = true.

Lemma elem_of_prefix_range {V} (m : gmap rstring V) p k v :
  (k, v) ∈ prefix_range m p <-> m !! k = Some v /\ starts_with k p = true.
Proof.
  by rewrite prefix_range_spec, list_elem_of_In, filter_In, <- list_elem_of_In, elem_of_bt_entries.
Qed.

Lemma posts_of t ps : ft_postings idx !! t = Some ps -> posts idx t = ps.
Proof. unfold posts. by intros ->. Qed.

Lemma df_pos_posts t : (0 < df (ft_cfg idx) docs t)%nat -> exists ps, ft_postings idx !! t = Some ps.
Proof.
  rewrite <- live_count. unfold posts. destruct (ft_postings idx !! t) as [ps|]; [by eauto|cbn; lia].
Qed.

Lemma expansion_hits_lookup fragment t n :
  expansion_hits idx fragment !! t = Some n <->
  n = df (ft_cfg idx) docs t /\ (0 < n)%nat /\ reaches fragment t.
Proof.
  unfold expansion_hits. set (g := df (ft_cfg idx) docs).
  destruct (fold_insert_spec
    (fun m tp => let n := df_where idx tp.2 None in if (0 <? n)%nat then <[tp.1 := n]> m else m)
    (fun tp : rstring * list Posting => if (0 <? g tp.1)%nat then Some tp.1 else None) g
    (prefix_range (ft_postings idx) fragment) ∅) as [A1 A2].
  { intros m [t' ps] [Hps _]%elem_of_prefix_range. cbn [fst snd].
    rewrite <- (posts_of _ _ Hps), df_where_None. fold g. by destruct (0 <? g t')%nat. }
  { intros k v. by rewrite lookup_empty. }
  set (hits := fold_left _ (prefix_range (ft_postings idx) fragment) ∅) in *.
  destruct (fold_insert_spec
    (fun m (ss : rstring * rstring) =>
      match ft_postings idx !! ss.2 with
      | None => m
      | Some ps => let n := df_where idx ps None in if (0 <? n)%nat then <[ss.2 := n]> m else m
      end)
    (fun ss : rstring * rstring => if (0 <? g ss.2)%nat then Some ss.2 else None) g
    (prefix_range (ft_surface idx) fragment) hits) as [B1 B2].
  { intros m [s st] _. cbn [fst snd]. destruct (ft_postings idx !! st) as [ps|] eqn:Eps.
    - rewrite <- (posts_of _ _ Eps), df_where_None. fold g. by destruct (0 <? g st)%nat.
    - destruct (Nat.ltb_spec 0 (g st)) as [Hg|]; [|done]. apply df_pos_posts in Hg as [ps Hps]. congruence. }
  { exact A2. }
  rewrite B1, A1, lookup_empty. unfold reaches. split.
  - intros [[?|(-> & [t' ps] & Hin & Ef)]|(-> & [s st] & Hin & Ef)]; [done|..];
      apply elem_of_prefix_range in Hin as [Hin Hsw]; cbn [fst snd] in Ef;
      destruct (Nat.ltb_spec 0 (g t')) || destruct (Nat.ltb_spec 0 (g st)); try done; injection Ef as ->; eauto 6.
  - intros (-> & Hpos & [Hsw|(s & Hs & Hsw)]).
    + left. right. split; [done|]. destruct (df_pos_posts _ Hpos) as [ps Hps]. exists (t, ps).
      split; [by apply elem_of_prefix_range|]. cbn [fst]. by rewrite (proj2 (Nat.ltb_lt _ _) Hpos).
    + right. split; [done|]. exists (s, t). split; [by apply elem_of_prefix_range|]. cbn [snd].
      by rewrite (proj2 (Nat.ltb_lt _ _) Hpos).
Qed.

(** A fragment expands to the stems it reaches that some live document
    carries, commonest first and then alphabetically, cut at the cap; the
    number reported is that before the cut. *)
Lemma expand_prefix_ranked fragment :
  exists ranked, expand_prefix idx fragment = (map fst (take MAX_PREFIX_EXPANSION ranked), length ranked) /\
    StronglySorted (cmp_le by_df) ranked /\ NoDup ranked.*1 /\
    forall t n, (t, n) ∈ ranked <-> n = df (ft_cfg idx) docs t /\ (0 < n)%nat /\ reaches fragment t.
Proof.
  exists (sort_by by_df (bt_entries (expansion_hits idx fragment))). split_and!.
  - unfold expand_prefix. by rewrite length_sort_by, length_bt_entries.
  - apply sort_by_sorted. unfold by_df. apply _.
  - rewrite sort_by_perm. apply bt_keys_NoDup.
  - intros t n. rewrite sort_by_perm, elem_of_bt_entries. apply expansion_hits_lookup.
Qed.

End scoring.
