(* ===== verification/FtsStore.v ===== *)
(** * FtsStore: the full-text indexes of a store ([src/src/fts/mod.rs], [Fts])

    One index per declared field of each collection.  [fts_all_ok] says that
    every index holds the texts of its collection's current documents; each
    operation is shown to keep it while the documents change accordingly. *)
From S2P Require Import Prelude Floats Model TextPred Sort Std Codec Postings Literal Findex Fuzzy Analyzer Fts.

Record Fts := {
  fs_fields : gmap (rstring * rstring) FtsIndex;
  fs_schema : gmap rstring (list FtsField)
}.

Definition Fts_default : Fts := {| fs_fields := ∅; fs_schema := ∅ |}.

Definition fts_active (f : Fts) : bool := negb (bool_decide (fs_schema f = ∅)).

(** [expect]: [None] is a panic. *)
Definition FTS_CACHE_VERSION : Z := 4.
Definition fts_cache_key `{Codec (list (rstring * list FtsField))} (f : Fts) : option (list Z) :=
  cons FTS_CACHE_VERSION <$> enc (bt_entries (fs_schema f)).

Definition fts_schema_for (f : Fts) (collection : rstring) : option (list FtsField) := fs_schema f !! collection.

Definition field_analyzer (f : Fts) (collection field : rstring) : option Analyzer :=
  (fun idx => fts_analyzer (ft_cfg idx)) <$> fs_fields f !! (collection, field).

(** The counts are added as [u64]s; their sum does not depend on the order. *)
Definition tombstone_ratio (f : Fts) : f32 :=
  let tomb := map_fold (fun _ idx acc => ft_tombstones idx + acc)%N 0%N (fs_fields f) in
  let live := map_fold (fun _ idx acc => ft_doc_count idx + acc)%N 0%N (fs_fields f) in
  let total := (tomb + live)%N in
  if (total =? 0)%N then f32_zero else f32_div (f32_of_Z (Z.of_N tomb)) (f32_of_Z (Z.of_N total)).

Definition fts_retain_others (collection : rstring) (m : gmap (rstring * rstring) FtsIndex)
  : gmap (rstring * rstring) FtsIndex := filter (fun kv => kv.1.1 <> collection) m.

Definition declare_field (collection : rstring) (m : gmap (rstring * rstring) FtsIndex) (f : FtsField)
  : gmap (rstring * rstring) FtsIndex := <[(collection, fts_field f) := FtsIndex_new f]> m.

Definition fts_set_schema (f : Fts) (collection : rstring) (fields : list FtsField) : Fts :=
  {| fs_fields := fold_left (declare_field collection) fields (fts_retain_others collection (fs_fields f));
     fs_schema := <[collection := fields]> (fs_schema f) |}.

Section ops.
Context `{UnicodeAlnum} `{UnicodeLower} `{HashIter}.

Definition index_field (id : rstring) (attrs : attrs_map) (field : rstring) (idx : FtsIndex) : FtsIndex :=
  let text := field_text attrs field in
  if bool_decide (text = []) then fts_tombstone idx id else fts_index idx id text.

Definition fts_index_doc (f : Fts) (collection id : rstring) (attrs : attrs_map) : Fts :=
  match fs_schema f !! collection with
  | None => f
  | Some decl =>
      {| fs_fields := fold_left (fun m fld =>
           alter (index_field id attrs (fts_field fld)) (collection, fts_field fld) m) decl (fs_fields f);
         fs_schema := fs_schema f |}
  end.

Definition fts_remove_doc (f : Fts) (collection id : rstring) : Fts :=
  match fs_schema f !! collection with
  | None => f
  | Some decl =>
      {| fs_fields := fold_left (fun m fld =>
           alter (fun idx => fts_tombstone idx id) (collection, fts_field fld) m) decl (fs_fields f);
         fs_schema := fs_schema f |}
  end.

Definition fts_drop_collection (f : Fts) (collection : rstring) : Fts :=
  {| fs_fields := fts_retain_others collection (fs_fields f); fs_schema := delete collection (fs_schema f) |}.

Definition fts_clear_indexes (f : Fts) : Fts :=
  {| fs_fields := (fun idx => FtsIndex_new (ft_cfg idx)) <$> fs_fields f; fs_schema := fs_schema f |}.

Definition fts_store_score `{Ln} (f : Fts) (collection field : rstring) (query_terms : list rstring)
  : list (rstring * f32) :=
  match fs_fields f !! (collection, field) with Some idx => fts_score idx query_terms | None => [] end.

Definition fts_expand_prefix (f : Fts) (collection field fragment : rstring) : list rstring * nat :=
  match fs_fields f !! (collection, field) with Some idx => expand_prefix idx fragment | None => ([], 0%nat) end.

Definition fts_suggest (f : Fts) (collection field fragment : rstring) (adm : option admit_fn)
  : list (rstring * nat) :=
  match fs_fields f !! (collection, field) with Some idx => suggest_scored idx fragment adm | None => [] end.

Definition fts_suggest_fuzzy (f : Fts) (collection field fragment : rstring) (max_edits : nat)
    (adm : option admit_fn) : option (list (rstring * nat * nat)) :=
  match fs_fields f !! (collection, field) with
  | Some idx => suggest_fuzzy idx fragment max_edits adm
  | None => Some []
  end.

Definition fts_head_docs `{SortUnstable} (f : Fts) (collection field : rstring) (heads : list rstring)
  : option (gset N) :=
  match fs_fields f !! (collection, field) with Some idx => head_docs idx heads | None => None end.

(** ** The invariant *)

(** The indexed text of a document, when it has any. *)
Definition indexed_text (field : rstring) (attrs : attrs_map) : option rstring :=
  let text := field_text attrs field in if bool_decide (text = []) then None else Some text.
Definition doc_texts (field : rstring) (docs : gmap rstring attrs_map) : gmap rstring rstring :=
  omap (indexed_text field) docs.

Record fts_all_ok (n : nat) (f : Fts) (docs : gmap rstring (gmap rstring attrs_map)) : Prop := {
  fa_dom : forall c, is_Some (fs_schema f !! c) <-> is_Some (docs !! c);
  fa_nodup : forall c fs, fs_schema f !! c = Some fs -> NoDup (map fts_field fs);
  fa_total : forall c fs fld, fs_schema f !! c = Some fs -> fld ∈ fs -> is_Some (fs_fields f !! (c, fts_field fld));
  fa_field : forall c field idx, fs_fields f !! (c, field) = Some idx ->
    exists m fs, docs !! c = Some m /\ fs_schema f !! c = Some fs /\ ft_cfg idx ∈ fs /\
      fts_field (ft_cfg idx) = field /\ fts_ok idx (doc_texts field m) /\
      (length (ft_docnum_to_id idx) <= n)%nat
}.

Lemma fts_all_ok_default : fts_all_ok 0 Fts_default ∅.
Proof. split; cbn; intros *; rewrite ?lookup_empty; done. Qed.

Lemma fts_all_ok_mono n n' f docs : (n <= n')%nat -> fts_all_ok n f docs -> fts_all_ok n' f docs.
Proof.
  intros Hn Hok. split; try apply Hok. intros c field idx Hf.
  destruct (fa_field _ _ _ Hok _ _ _ Hf) as (m & fs & ? & ? & ? & ? & ? & ?). exists m, fs. split_and!; try done. lia.
Qed.

Lemma doc_texts_insert field id attrs docs :
  doc_texts field (<[id := attrs]> docs) =
  match indexed_text field attrs with
  | Some text => <[id := text]> (doc_texts field docs)
  | None => delete id (doc_texts field docs)
  end.
Proof.
  unfold doc_texts. destruct (indexed_text field attrs) eqn:E.
  - by rewrite (omap_insert_Some _ _ _ _ _ E).
  - by rewrite (omap_insert_None _ _ _ _ E).
Qed.

Lemma lookup_declare c fs m k idx :
  fold_left (declare_field c) fs m !! k = Some idx ->
  m !! k = Some idx \/ exists fld, fld ∈ fs /\ k = (c, fts_field fld) /\ idx = FtsIndex_new fld.
Proof.
  revert m. induction fs as [|fld fs IH]; intros m; cbn [fold_left]; [auto|].
  intros [Hm|(g & Hg & -> & ->)]%IH.
  - unfold declare_field in Hm. apply lookup_insert_Some in Hm as [[<- <-]|[_ ?]]; [|auto].
    right. exists fld. split; [constructor|done].
  - right. exists g. split; [by constructor|done].
Qed.

Lemma declare_total c fs m fld :
  fld ∈ fs \/ is_Some (m !! (c, fts_field fld)) -> is_Some (fold_left (declare_field c) fs m !! (c, fts_field fld)).
Proof.
  revert m. induction fs as [|g fs IH]; intros m; cbn [fold_left].
  - intros [Hx|?]; [by apply elem_of_nil in Hx|done].
  - intros Hor. apply IH. unfold declare_field. destruct Hor as [[->|?]%elem_of_cons|Hs]; [|by left|].
    + right. rewrite lookup_insert_eq. eauto.
    + right. destruct (decide ((c, fts_field g) = (c, fts_field fld))) as [->|];
        [rewrite lookup_insert_eq; eauto|by rewrite lookup_insert_ne].
Qed.

Lemma fts_set_schema_ok n f docs c fs :
  NoDup (map fts_field fs) -> fts_all_ok n f docs -> fts_all_ok n (fts_set_schema f c fs) (<[c := ∅]> docs).
Proof.
  intros Hnd Hok. split; cbn [fs_schema fs_fields fts_set_schema].
  - intros c'. destruct (decide (c = c')) as [<-|]; [rewrite !lookup_insert_eq; split; eauto|].
    rewrite !lookup_insert_ne by done. apply Hok.
  - intros c' fs' [[<- <-]|[_ ?]]%lookup_insert_Some; [done|by eapply Hok].
  - intros c' fs' fld [[<- <-]|[Hne Hs]]%lookup_insert_Some Hin; [apply declare_total; by left|].
    destruct (fa_total _ _ _ Hok _ _ _ Hs Hin) as [idx Hidx].
    assert (forall l m, m !! (c', fts_field fld) = Some idx ->
      fold_left (declare_field c) l m !! (c', fts_field fld) = Some idx) as Hkeep.
    { intros l. induction l as [|g l IH]; intros m Hm; [done|]. cbn [fold_left]. apply IH.
      unfold declare_field. rewrite lookup_insert_ne by congruence. done. }
    exists idx. apply Hkeep. unfold fts_retain_others. rewrite map_lookup_filter_Some. split; [done|]. cbn. congruence.
  - intros c' field idx [Hm|(fld & Hin & [= -> ->] & ->)]%lookup_declare.
    + unfold fts_retain_others in Hm. apply map_lookup_filter_Some in Hm as [Hm Hne]. cbn in Hne.
      destruct (fa_field _ _ _ Hok _ _ _ Hm) as (m & fs' & ? & ? & ? & ? & ? & ?).
      exists m, fs'. rewrite !lookup_insert_ne by congruence. done.
    + exists ∅, fs. rewrite !lookup_insert_eq. split_and!; try done.
      * unfold doc_texts. rewrite omap_empty. apply fts_ok_new.
      * cbn. lia.
Qed.

Lemma lookup_alter_fields (g : rstring -> FtsIndex -> FtsIndex) (c : rstring) (fs : list FtsField)
    (m : gmap (rstring * rstring) FtsIndex) (k : rstring * rstring) :
  NoDup (map fts_field fs) ->
  fold_left (fun m fld => alter (g (fts_field fld)) (c, fts_field fld) m) fs m !! k =
  if decide (k.1 = c /\ k.2 ∈ map fts_field fs) then g k.2 <$> m !! k else m !! k.
Proof.
  revert m. induction fs as [|fld fs IH]; intros m Hnd; cbn [fold_left map].
  { rewrite decide_False; [done|]. intros [_ Hin]. by apply elem_of_nil in Hin. }
  apply NoDup_cons in Hnd as [Hf Hnd]. rewrite (IH _ Hnd).
  destruct (decide (k = (c, fts_field fld))) as [->|Hk]; cbn [fst snd].
  - rewrite decide_False by tauto. rewrite decide_True by set_solver. by rewrite lookup_alter_eq.
  - rewrite lookup_alter_ne by done.
    destruct (decide (k.1 = c /\ k.2 ∈ map fts_field fs)) as [[? ?]|Hn].
    + rewrite decide_True; [done|]. set_solver.
    + rewrite decide_False; [done|]. intros [Hc Hin]. apply elem_of_cons in Hin as [Hin|Hin]; [|tauto].
      apply Hk. destruct k. cbn in *. congruence.
Qed.

(** A change to every field of a collection that follows a change of its documents. *)
Lemma alter_fields_ok (n n' : nat) (f f' : Fts) (docs : gmap rstring (gmap rstring attrs_map)) (c : rstring)
    (g : rstring -> FtsIndex -> FtsIndex) (h : gmap rstring attrs_map -> gmap rstring attrs_map) :
  (n <= n')%nat -> fts_all_ok n f docs ->
  (forall fs, fs_schema f !! c = Some fs -> fs_schema f' = fs_schema f /\ fs_fields f' =
     fold_left (fun m fld => alter (g (fts_field fld)) (c, fts_field fld) m) fs (fs_fields f)) ->
  (fs_schema f !! c = None -> f' = f) ->
  (forall (fs : list FtsField) field idx m, fs_schema f !! c = Some fs -> ft_cfg idx ∈ fs -> fts_field (ft_cfg idx) = field ->
     docs !! c = Some m ->
     fts_ok idx (doc_texts field m) -> (length (ft_docnum_to_id idx) <= n)%nat ->
     ft_cfg (g field idx) = ft_cfg idx /\ fts_ok (g field idx) (doc_texts field (h m)) /\
     (length (ft_docnum_to_id (g field idx)) <= n')%nat) ->
  fts_all_ok n' f' (alter h c docs).
Proof.
  intros Hn Hok Hf' Hnone Hg. destruct (fs_schema f !! c) as [fs|] eqn:Hs; cycle 1.
  { rewrite Hnone by done. replace (alter h c docs) with docs; [by eapply fts_all_ok_mono|].
    assert (docs !! c = None) as Hc.
    { apply eq_None_not_Some. rewrite <- (fa_dom _ _ _ Hok), Hs. by intros [? ?]. }
    apply map_eq. intros c'. rewrite lookup_alter. case_decide; [|done]. subst. by rewrite Hc. }
  destruct (Hf' fs eq_refl) as [Es Ef]. pose proof (fa_nodup _ _ _ Hok _ _ Hs) as Hnd.
  split; rewrite ?Es, ?Ef.
  - intros c'. rewrite lookup_alter. case_decide as E; [subst c'|apply Hok]. rewrite fmap_is_Some. apply Hok.
  - apply Hok.
  - intros c' fs' fld Hs' Hin. rewrite lookup_alter_fields by done. pose proof (fa_total _ _ _ Hok _ _ _ Hs' Hin).
    case_decide; [by rewrite fmap_is_Some|done].
  - intros c' field idx Hf. rewrite lookup_alter_fields in Hf by done. cbn [fst snd] in Hf.
    destruct (decide _) as [[-> Hin]|Hnin].
    + apply fmap_Some in Hf as (idx0 & Hf & ->).
      destruct (fa_field _ _ _ Hok _ _ _ Hf) as (m & fs' & Hm & Hs' & Hfn & Hcfg & Hfo & Hl).
      assert (fs' = fs) as -> by congruence.
      destruct (Hg fs field idx0 m eq_refl Hfn Hcfg Hm Hfo Hl) as (Hc & Ho & Hlen).
      exists (h m), fs. rewrite lookup_alter_eq, Hm, Hc. done.
    + destruct (fa_field _ _ _ Hok _ _ _ Hf) as (m & fs' & Hm & Hs' & Hfn & Hcfg & Hfo & Hl).
      exists m, fs'. rewrite lookup_alter_ne; [split_and!; try done; lia|].
      intros <-. apply Hnin. split; [done|]. assert (fs' = fs) as -> by congruence.
      rewrite <- Hcfg. by apply list_elem_of_fmap_2.
Qed.

(** While docnums and term counts fit in [u32]. *)
Lemma fts_index_doc_ok n f docs c id attrs :
  (N.of_nat n < 2 ^ 32)%N ->
  (forall fs fld, fs_schema f !! c = Some fs -> fld ∈ fs ->
     (N.of_nat (length (terms_of fld (field_text attrs (fts_field fld)))) < 2 ^ 32)%N) ->
  fts_all_ok n f docs -> fts_all_ok (S n) (fts_index_doc f c id attrs) (alter <[id := attrs]> c docs).
Proof.
  intros Hn Hterms Hok. apply (alter_fields_ok n (S n) f _ docs c (index_field id attrs) <[id := attrs]>); [lia|done|..].
  - intros fs Hs. unfold fts_index_doc. by rewrite Hs.
  - intros Hs. unfold fts_index_doc. by rewrite Hs.
  - intros fs field idx m Hs Hin Hcfg Hm Hfo Hl. rewrite doc_texts_insert. unfold index_field, indexed_text.
    case_bool_decide as Et.
    + rewrite fts_tombstone_cfg, fts_tombstone_length. split_and!; [done| |lia]. apply fts_tombstone_ok; [lia|done].
    + rewrite fts_index_cfg, fts_index_length. split_and!; [done| |lia]. apply fts_index_ok; [lia| |done].
      rewrite <- Hcfg. by eapply Hterms.
Qed.

Lemma fts_remove_doc_ok n f docs c id :
  (N.of_nat n < 2 ^ 32)%N ->
  fts_all_ok n f docs -> fts_all_ok n (fts_remove_doc f c id) (alter (delete id) c docs).
Proof.
  intros Hn Hok. apply (alter_fields_ok n n f _ docs c (fun _ idx => fts_tombstone idx id) (delete id)); [lia|done|..].
  - intros fs Hs. unfold fts_remove_doc. by rewrite Hs.
  - intros Hs. unfold fts_remove_doc. by rewrite Hs.
  - intros fs field idx m Hs Hin Hcfg Hm Hfo Hl. rewrite fts_tombstone_cfg, fts_tombstone_length.
    split_and!; [done| |done]. unfold doc_texts. rewrite omap_delete. apply fts_tombstone_ok; [lia|done].
Qed.

Lemma fts_drop_collection_ok n f docs c :
  fts_all_ok n f docs -> fts_all_ok n (fts_drop_collection f c) (delete c docs).
Proof.
  intros Hok. split; cbn [fs_schema fs_fields fts_drop_collection].
  - intros c'. destruct (decide (c = c')) as [<-|]; [by rewrite !lookup_delete_eq|].
    rewrite !lookup_delete_ne by done. apply Hok.
  - intros c' fs [_ ?]%lookup_delete_Some. by eapply Hok.
  - intros c' fs fld [Hne Hs]%lookup_delete_Some Hin. destruct (fa_total _ _ _ Hok _ _ _ Hs Hin) as [idx Hidx].
    exists idx. unfold fts_retain_others. rewrite map_lookup_filter_Some. split; [done|]. cbn. congruence.
  - intros c' field idx Hm. unfold fts_retain_others in Hm. apply map_lookup_filter_Some in Hm as [Hm Hne]. cbn in Hne.
    destruct (fa_field _ _ _ Hok _ _ _ Hm) as (m & fs' & ? & ? & ? & ? & ? & ?).
    exists m, fs'. rewrite !lookup_delete_ne by congruence. done.
Qed.

Lemma fts_clear_indexes_ok n f docs :
  fts_all_ok n f docs -> fts_all_ok 0 (fts_clear_indexes f) ((fun _ => ∅) <$> docs).
Proof.
  intros Hok. split; cbn [fs_schema fs_fields fts_clear_indexes].
  - intros c. rewrite lookup_fmap, fmap_is_Some. apply Hok.
  - apply Hok.
  - intros c fs fld Hs Hin. rewrite lookup_fmap, fmap_is_Some. by eapply Hok.
  - intros c field idx. rewrite lookup_fmap. intros (idx0 & Hf & ->)%fmap_Some.
    destruct (fa_field _ _ _ Hok _ _ _ Hf) as (m & fs' & Hm & Hs & ? & ? & ? & ?).
    exists ∅, fs'. rewrite lookup_fmap, Hm. split_and!; try done.
    unfold doc_texts. rewrite omap_empty. apply fts_ok_new.
Qed.
End ops.

Lemma fts_index_counts `{UnicodeAlnum} `{UnicodeLower} `{HashIter} (idx : FtsIndex) id text :
  let was := bool_decide (is_Some (ft_id_to_docnum idx !! id)) in
  (ft_doc_count (fts_index idx id text), ft_tombstones (fts_index idx id text)) =
  if was then (ft_doc_count idx - 1 + 1, u32_succ (ft_tombstones idx))%N
  else (ft_doc_count idx + 1, ft_tombstones idx)%N.
Proof.
  cbv zeta. unfold fts_index, fts_tombstone. by destruct (ft_id_to_docnum idx !! id).
Qed.

(** A declaration that names a field twice is accepted, and then each document
    is indexed once per mention: every live document leaves a dead slot. *)
Example duplicate_field_dead_slots `{UnicodeAlnum} `{UnicodeLower} `{HashIter} (id text : rstring) :
  let fields := [FtsField_new (lit "body"); FtsField_new (lit "body")] in
  let f := fts_index_doc (fts_set_schema Fts_default (lit "notes") fields) (lit "notes") id {[lit "body" := VStr text]} in
  (0 < length text)%nat ->
  is_ok (fts_validate fields) = true /\
  (fun idx => (ft_doc_count idx, ft_tombstones idx)) <$> fs_fields f !! (lit "notes", lit "body") = Some (1%N, 1%N).
Proof.
  intros fields f Ht. split; [by vm_compute|]. subst f fields. unfold fts_index_doc. cbn [fs_schema fts_set_schema].
  rewrite lookup_insert_eq. cbn [fs_fields fts_set_schema fold_left].
  change (fts_field (FtsField_new (lit "body"))) with (lit "body"). rewrite !lookup_alter_eq.
  unfold declare_field. cbn [fts_field FtsField_new]. rewrite lookup_insert_eq. cbn [fmap option_fmap option_map].
  assert (forall idx, index_field id {[lit "body" := VStr text]} (lit "body") idx = fts_index idx id text) as Hidx.
  { intros idx. unfold index_field, field_text. rewrite lookup_singleton_eq, bool_decide_eq_false_2; [done|]. intros E. rewrite E in Ht. cbn in Ht. lia. }
  rewrite !Hidx, fts_index_counts. cbv zeta. rewrite bool_decide_eq_true_2.
  { done. }
  cbn. rewrite lookup_insert_eq. by eexists.
Qed.
