(* ===== verification/Replay.v ===== *)
(** * Replay: the index rebuilt from the log
    ([src/src/store/mod.rs]: [DocEntry], [Collection], [replay_ops])

    The in-RAM index of a store is the collections it holds, the number of rows
    no document references, and the declared schemas.  [apply_op] is one turn
    of the replay loop; operations that reference rows past the data are
    skipped. *)
From S2P Require Import Prelude Floats Model TextPred Filter Literal Findex Analyzer Fts FtsStore.

Record DocEntry := {
  de_rows : gmap rstring nat;
  de_attrs : attrs_map
}.

Record Collection := {
  cl_meta : gmap rstring rstring;
  cl_docs : gmap rstring DocEntry;
  cl_vector_names : list rstring
}.

Definition Collection_new : Collection :=
  {| cl_meta := ∅; cl_docs := ∅; cl_vector_names := [] |}.

Definition set_meta_of (m : gmap rstring rstring) (c : Collection) : Collection :=
  {| cl_meta := m; cl_docs := cl_docs c; cl_vector_names := cl_vector_names c |}.
Definition set_docs (d : gmap rstring DocEntry) (c : Collection) : Collection :=
  {| cl_meta := cl_meta c; cl_docs := d; cl_vector_names := cl_vector_names c |}.
Definition set_names (n : list rstring) (c : Collection) : Collection :=
  {| cl_meta := cl_meta c; cl_docs := cl_docs c; cl_vector_names := n |}.

Definition META_EXPIRES_AT : rstring := lit "nidus.expires_at".
Definition META_ACCESS_COUNT : rstring := lit "nidus.access_count".
Definition META_LAST_ACCESSED : rstring := lit "nidus.last_accessed".

(** [DocEntry::primary_row]: the default vector's row, else the first named. *)
Definition primary_row (e : DocEntry) : option nat :=
  match de_rows e !! DEFAULT_VECTOR with
  | Some r => Some r
  | None => head (bt_values (de_rows e))
  end.

Record Index := {
  ix_collections : gmap rstring Collection;
  ix_dead_rows : nat;
  ix_fts : Fts;
  ix_findex : Findex
}.

Definition Index_empty : Index :=
  {| ix_collections := ∅; ix_dead_rows := 0; ix_fts := Fts_default; ix_findex := Findex_default |}.

(** [entry(collection).or_insert_with(Collection::new)]. *)
Definition entry (collection : rstring) (m : gmap rstring Collection) : Collection :=
  default Collection_new (m !! collection).
Definition touch (collection : rstring) (m : gmap rstring Collection) : gmap rstring Collection :=
  <[collection := entry collection m]> m.

Definition rows_len (o : option DocEntry) : nat :=
  match o with Some e => size (de_rows e) | None => 0 end.

(** The rows of all documents of a collection. *)
Definition doc_rows (c : Collection) : nat :=
  list_sum (map (fun kv => size (de_rows kv.2)) (map_to_list (cl_docs c))).

Definition set_collections (m : gmap rstring Collection) (ix : Index) : Index :=
  {| ix_collections := m; ix_dead_rows := ix_dead_rows ix; ix_fts := ix_fts ix;
     ix_findex := ix_findex ix |}.
Definition add_dead (n : nat) (ix : Index) : Index :=
  {| ix_collections := ix_collections ix; ix_dead_rows := ix_dead_rows ix + n; ix_fts := ix_fts ix;
     ix_findex := ix_findex ix |}.
Definition set_fts (f : Fts) (ix : Index) : Index :=
  {| ix_collections := ix_collections ix; ix_dead_rows := ix_dead_rows ix; ix_fts := f;
     ix_findex := ix_findex ix |}.
Definition set_findex (f : Findex) (ix : Index) : Index :=
  {| ix_collections := ix_collections ix; ix_dead_rows := ix_dead_rows ix; ix_fts := ix_fts ix;
     ix_findex := f |}.

(** [col.docs.insert(id, entry)], counting the rows of the entry replaced. *)
Definition put_doc (collection id : rstring) (e : DocEntry) (ix : Index) : Index :=
  let col := entry collection (ix_collections ix) in
  add_dead (rows_len (cl_docs col !! id))
    (set_collections (<[collection := set_docs (<[id := e]> (cl_docs col)) col]>
                        (ix_collections ix)) ix).

Definition remove_entry (collection id : rstring) (ix : Index) : Index :=
  match ix_collections ix !! collection with
  | None => ix
  | Some col =>
      add_dead (rows_len (cl_docs col !! id))
        (set_collections (<[collection := set_docs (delete id (cl_docs col)) col]>
                            (ix_collections ix)) ix)
  end.

(** The attributes a reinforcement writes. *)
Definition stamp_attrs (access_count last_accessed : Z) (expires_at : option Z) (attrs : attrs_map)
  : attrs_map :=
  let attrs := <[META_LAST_ACCESSED := VDateTime last_accessed]>
                 (<[META_ACCESS_COUNT := VInt access_count]> attrs) in
  match expires_at with
  | Some exp => <[META_EXPIRES_AT := VDateTime exp]> attrs
  | None => attrs
  end.

Definition stamp_doc (collection id : rstring) (access_count last_accessed : Z)
    (expires_at : option Z) (ix : Index) : Index :=
  match ix_collections ix !! collection with
  | None => ix
  | Some col =>
      let stamp e := {| de_rows := de_rows e;
                        de_attrs := stamp_attrs access_count last_accessed expires_at (de_attrs e) |} in
      set_collections (<[collection := set_docs (alter stamp id (cl_docs col)) col]>
                         (ix_collections ix)) ix
  end.

(** [rows.into_iter().collect::<BTreeMap<_, _>>()]: the last pair of a key wins. *)
Definition collect_rows (rows : list (rstring * nat)) : gmap rstring nat :=
  list_to_map (reverse rows).

Definition update_collection (collection : rstring) (f : Collection -> Collection) (ix : Index)
  : Index :=
  set_collections (<[collection := f (entry collection (ix_collections ix))]>
                     (ix_collections ix)) ix.

(** One operation of the replay. *)
Definition apply_op (row_count : nat) (ix : Index) (op : Op) : Index :=
  match op with
  | OpCreateCollection c => set_collections (touch c (ix_collections ix)) ix
  | OpDropCollection c =>
      match ix_collections ix !! c with
      | Some col =>
          add_dead (doc_rows col) (set_collections (delete c (ix_collections ix)) ix)
      | None => ix
      end
  | OpSetMeta c meta => update_collection c (set_meta_of meta) ix
  | OpUpsert c id row attrs =>
      if (row_count <=? row)%nat then ix
      else put_doc c id {| de_rows := {[DEFAULT_VECTOR := row]}; de_attrs := attrs |} ix
  | OpUpsertText c id attrs => put_doc c id {| de_rows := ∅; de_attrs := attrs |} ix
  | OpUpsertVectors c id rows attrs =>
      if existsb (fun nr => row_count <=? nr.2)%nat rows then ix
      else put_doc c id {| de_rows := collect_rows rows; de_attrs := attrs |} ix
  | OpSetVectorNames c names => update_collection c (set_names names) ix
  | OpDelete c id => remove_entry c id ix
  | OpSetFtsSchema c fields =>
      set_fts (fts_set_schema (ix_fts ix) c (map (fun fl => FtsField_language (FtsField_new fl.1) fl.2) fields))
        (set_collections (touch c (ix_collections ix)) ix)
  | OpSetFtsFields c fields =>
      set_fts (fts_set_schema (ix_fts ix) c fields) (set_collections (touch c (ix_collections ix)) ix)
  | OpSetFilterIndex c fields =>
      set_findex (set_schema (ix_findex ix) c fields)
        (set_collections (touch c (ix_collections ix)) ix)
  | OpReinforce c id access_count last_accessed expires_at =>
      stamp_doc c id access_count last_accessed expires_at ix
  end.

Definition replay_ops (ops : list Op) (row_count : nat) : Index :=
  foldl (apply_op row_count) Index_empty ops.

(** ** Facts of replay *)

(** The rows an operation references are below [n]. *)
Definition op_rows (op : Op) : list nat :=
  match op with
  | OpUpsert _ _ row _ => [row]
  | OpUpsertVectors _ _ rows _ => rows.*2
  | _ => []
  end.
Definition in_rows (n : nat) (op : Op) : Prop := Forall (fun r => r < n)%nat (op_rows op).

Lemma replay_app ops1 ops2 n :
  replay_ops (ops1 ++ ops2) n = foldl (apply_op n) (replay_ops ops1 n) ops2.
Proof. apply foldl_app. Qed.

Lemma in_rows_mono n m op : (n <= m)%nat -> in_rows n op -> in_rows m op.
Proof. intros Hnm H. eapply Forall_impl; [exact H|]. simpl. lia. Qed.

Lemma apply_op_in_rows n m ix op : in_rows n op -> in_rows m op -> apply_op n ix op = apply_op m ix op.
Proof.
  unfold in_rows. intros Hn Hm. destruct op; simpl in *; try done.
  - apply Forall_cons in Hn as [Hn _], Hm as [Hm _].
    rewrite (proj2 (Nat.leb_gt n row)), (proj2 (Nat.leb_gt m row)) by done. done.
  - assert (forall k, Forall (fun r => r < k)%nat rows.*2 ->
      existsb (fun nr => k <=? nr.2)%nat rows = false) as H.
    { intros k Hk. apply not_true_iff_false. intros (x & Hx & Hle)%existsb_exists. bdestr.
      rewrite Forall_forall in Hk. specialize (Hk x.2). rewrite list_elem_of_fmap in Hk.
      assert (x.2 < k)%nat; [|lia]. apply Hk. exists x. split; [done|]. by apply list_elem_of_In. }
    by rewrite !H.
Qed.

(** Growing the data changes nothing in what an in-range log means. *)
Lemma replay_in_rows n m ops :
  Forall (in_rows n) ops -> Forall (in_rows m) ops -> replay_ops ops n = replay_ops ops m.
Proof.
  unfold replay_ops. generalize Index_empty. induction ops as [|op ops IH]; intros ix Hn Hm; [done|].
  apply Forall_cons in Hn as [Hn1 Hn], Hm as [Hm1 Hm]. simpl.
  rewrite (apply_op_in_rows n m) by done. by apply IH.
Qed.

(** An operation past the data is as if it were not there. *)
Lemma apply_op_skipped n ix op :
  match op with OpUpsert _ _ _ _ | OpUpsertVectors _ _ _ _ => True | _ => False end ->
  ~ in_rows n op -> apply_op n ix op = ix.
Proof.
  unfold in_rows. destruct op; intros Hup; try done; intros Hn; simpl in *.
  - destruct (n <=? row)%nat eqn:E; [done|]. bdestr. destruct Hn. by repeat constructor.
  - destruct (existsb _ _) eqn:E; [done|]. destruct Hn. apply Forall_forall.
    intros r ([nm r'] & -> & Hin)%list_elem_of_fmap. simpl.
    destruct (decide (r' < n)%nat); [done|]. exfalso.
    apply not_true_iff_false in E. apply E, existsb_exists. exists (nm, r').
    split; [by apply list_elem_of_In|]. simpl. apply Nat.leb_le. lia.
Qed.

Lemma collect_entries (rows : gmap rstring nat) : collect_rows (bt_entries rows) = rows.
Proof.
  unfold collect_rows. rewrite <- (list_to_map_bt_entries rows) at 2.
  apply list_to_map_proper; [|apply reverse_Permutation].
  rewrite fmap_reverse. apply (NoDup_Permutation_proper _ _ (reverse_Permutation _)).
  apply bt_keys_NoDup.
Qed.

(** A dropped collection's filter-index declaration survives the replay, so a
    collection of the same name created later is indexed under it again; the
    live [drop_collection] forgets it. *)
Example drop_keeps_schema :
  let c := lit "notes" in
  let fields := [FilterIndexField_new (lit "tag")] in
  let ops := [OpSetFilterIndex c fields; OpDropCollection c; OpCreateCollection c] in
  schema_for (ix_findex (replay_ops ops 0)) c = Some fields /\
  schema_for (findex_drop_collection (set_schema Findex_default c fields) c) c = None.
Proof. by vm_compute. Qed.
