(* ===== verification/Store.v ===== *)
(** * Store: the state of an open store and its write helpers
    ([src/src/store/mod.rs], [src/src/store/write.rs])

    The store owns its segments, the log handle and the in-RAM index; the
    helpers here are what every mutation funnels through: the writer check, the
    durability barrier, the commit point and its history.  The approximate and
    quantised indexes, the scan-order cache and the memory tier are derived
    accelerators of the read path and are not part of this state. *)
From S2P Require Import FtsStore.
From S2P Require Import Prelude Floats Model Config TextPred Filter Literal Findex.
From S2P Require Import Backend Codec Log Data IndexCache Manifest Segments Lease Replay.

Record Store := {
  st_config : Config;
  st_open_profile : OpenProfile;
  st_baseline_config : Config;
  st_data : Segments;
  st_log : Appender;
  st_persistence : bool;
  st_lease : option rstring;
  st_index : Index;
  st_aliases : gmap rstring rstring;
  st_in_memory : bool;
  st_loaded_log_offset : nat;
  st_manifest_cas : option N;
  st_fenced : bool;
  st_defer_barrier : bool;
  st_pending_barrier : bool;
  st_pinned : option N;
  st_pruned_through : N
}.

Definition with_config (x : Config) (s : Store) : Store :=
  {| st_config := x; st_open_profile := st_open_profile s; st_baseline_config := st_baseline_config s;
     st_data := st_data s; st_log := st_log s; st_persistence := st_persistence s;
     st_lease := st_lease s; st_index := st_index s; st_aliases := st_aliases s;
     st_in_memory := st_in_memory s; st_loaded_log_offset := st_loaded_log_offset s; st_manifest_cas := st_manifest_cas s;
     st_fenced := st_fenced s; st_defer_barrier := st_defer_barrier s; st_pending_barrier := st_pending_barrier s;
     st_pinned := st_pinned s; st_pruned_through := st_pruned_through s |}.
Definition with_open_profile (x : OpenProfile) (s : Store) : Store :=
  {| st_config := st_config s; st_open_profile := x; st_baseline_config := st_baseline_config s;
     st_data := st_data s; st_log := st_log s; st_persistence := st_persistence s;
     st_lease := st_lease s; st_index := st_index s; st_aliases := st_aliases s;
     st_in_memory := st_in_memory s; st_loaded_log_offset := st_loaded_log_offset s; st_manifest_cas := st_manifest_cas s;
     st_fenced := st_fenced s; st_defer_barrier := st_defer_barrier s; st_pending_barrier := st_pending_barrier s;
     st_pinned := st_pinned s; st_pruned_through := st_pruned_through s |}.
Definition with_data (x : Segments) (s : Store) : Store :=
  {| st_config := st_config s; st_open_profile := st_open_profile s; st_baseline_config := st_baseline_config s;
     st_data := x; st_log := st_log s; st_persistence := st_persistence s;
     st_lease := st_lease s; st_index := st_index s; st_aliases := st_aliases s;
     st_in_memory := st_in_memory s; st_loaded_log_offset := st_loaded_log_offset s; st_manifest_cas := st_manifest_cas s;
     st_fenced := st_fenced s; st_defer_barrier := st_defer_barrier s; st_pending_barrier := st_pending_barrier s;
     st_pinned := st_pinned s; st_pruned_through := st_pruned_through s |}.
Definition with_log (x : Appender) (s : Store) : Store :=
  {| st_config := st_config s; st_open_profile := st_open_profile s; st_baseline_config := st_baseline_config s;
     st_data := st_data s; st_log := x; st_persistence := st_persistence s;
     st_lease := st_lease s; st_index := st_index s; st_aliases := st_aliases s;
     st_in_memory := st_in_memory s; st_loaded_log_offset := st_loaded_log_offset s; st_manifest_cas := st_manifest_cas s;
     st_fenced := st_fenced s; st_defer_barrier := st_defer_barrier s; st_pending_barrier := st_pending_barrier s;
     st_pinned := st_pinned s; st_pruned_through := st_pruned_through s |}.
Definition with_index (x : Index) (s : Store) : Store :=
  {| st_config := st_config s; st_open_profile := st_open_profile s; st_baseline_config := st_baseline_config s;
     st_data := st_data s; st_log := st_log s; st_persistence := st_persistence s;
     st_lease := st_lease s; st_index := x; st_aliases := st_aliases s;
     st_in_memory := st_in_memory s; st_loaded_log_offset := st_loaded_log_offset s; st_manifest_cas := st_manifest_cas s;
     st_fenced := st_fenced s; st_defer_barrier := st_defer_barrier s; st_pending_barrier := st_pending_barrier s;
     st_pinned := st_pinned s; st_pruned_through := st_pruned_through s |}.
Definition with_aliases (x : gmap rstring rstring) (s : Store) : Store :=
  {| st_config := st_config s; st_open_profile := st_open_profile s; st_baseline_config := st_baseline_config s;
     st_data := st_data s; st_log := st_log s; st_persistence := st_persistence s;
     st_lease := st_lease s; st_index := st_index s; st_aliases := x;
     st_in_memory := st_in_memory s; st_loaded_log_offset := st_loaded_log_offset s; st_manifest_cas := st_manifest_cas s;
     st_fenced := st_fenced s; st_defer_barrier := st_defer_barrier s; st_pending_barrier := st_pending_barrier s;
     st_pinned := st_pinned s; st_pruned_through := st_pruned_through s |}.
Definition with_manifest_cas (x : option N) (s : Store) : Store :=
  {| st_config := st_config s; st_open_profile := st_open_profile s; st_baseline_config := st_baseline_config s;
     st_data := st_data s; st_log := st_log s; st_persistence := st_persistence s;
     st_lease := st_lease s; st_index := st_index s; st_aliases := st_aliases s;
     st_in_memory := st_in_memory s; st_loaded_log_offset := st_loaded_log_offset s; st_manifest_cas := x;
     st_fenced := st_fenced s; st_defer_barrier := st_defer_barrier s; st_pending_barrier := st_pending_barrier s;
     st_pinned := st_pinned s; st_pruned_through := st_pruned_through s |}.
Definition with_fenced (x : bool) (s : Store) : Store :=
  {| st_config := st_config s; st_open_profile := st_open_profile s; st_baseline_config := st_baseline_config s;
     st_data := st_data s; st_log := st_log s; st_persistence := st_persistence s;
     st_lease := st_lease s; st_index := st_index s; st_aliases := st_aliases s;
     st_in_memory := st_in_memory s; st_loaded_log_offset := st_loaded_log_offset s; st_manifest_cas := st_manifest_cas s;
     st_fenced := x; st_defer_barrier := st_defer_barrier s; st_pending_barrier := st_pending_barrier s;
     st_pinned := st_pinned s; st_pruned_through := st_pruned_through s |}.
Definition with_defer_barrier (x : bool) (s : Store) : Store :=
  {| st_config := st_config s; st_open_profile := st_open_profile s; st_baseline_config := st_baseline_config s;
     st_data := st_data s; st_log := st_log s; st_persistence := st_persistence s;
     st_lease := st_lease s; st_index := st_index s; st_aliases := st_aliases s;
     st_in_memory := st_in_memory s; st_loaded_log_offset := st_loaded_log_offset s; st_manifest_cas := st_manifest_cas s;
     st_fenced := st_fenced s; st_defer_barrier := x; st_pending_barrier := st_pending_barrier s;
     st_pinned := st_pinned s; st_pruned_through := st_pruned_through s |}.
Definition with_pending_barrier (x : bool) (s : Store) : Store :=
  {| st_config := st_config s; st_open_profile := st_open_profile s; st_baseline_config := st_baseline_config s;
     st_data := st_data s; st_log := st_log s; st_persistence := st_persistence s;
     st_lease := st_lease s; st_index := st_index s; st_aliases := st_aliases s;
     st_in_memory := st_in_memory s; st_loaded_log_offset := st_loaded_log_offset s; st_manifest_cas := st_manifest_cas s;
     st_fenced := st_fenced s; st_defer_barrier := st_defer_barrier s; st_pending_barrier := x;
     st_pinned := st_pinned s; st_pruned_through := st_pruned_through s |}.
Definition with_pruned_through (x : N) (s : Store) : Store :=
  {| st_config := st_config s; st_open_profile := st_open_profile s; st_baseline_config := st_baseline_config s;
     st_data := st_data s; st_log := st_log s; st_persistence := st_persistence s;
     st_lease := st_lease s; st_index := st_index s; st_aliases := st_aliases s;
     st_in_memory := st_in_memory s; st_loaded_log_offset := st_loaded_log_offset s; st_manifest_cas := st_manifest_cas s;
     st_fenced := st_fenced s; st_defer_barrier := st_defer_barrier s; st_pending_barrier := st_pending_barrier s;
     st_pinned := st_pinned s; st_pruned_through := x |}.

(** The in-RAM collections and counters, through the index. *)
Definition st_collections (s : Store) : gmap rstring Collection := ix_collections (st_index s).
Definition st_dead_rows (s : Store) : nat := ix_dead_rows (st_index s).
Definition modify_index (f : Index -> Index) : M Store unit :=
  modify (fun s => with_index (f (st_index s)) s).

Definition on_data {A} (m : M Segments A) : M Store A := zoom st_data with_data m.
Definition on_log {A} (m : M Appender A) : M Store A := zoom st_log with_log m.

(** The order in which a [HashMap] is iterated: some permutation. *)
Class HashOrder := {
  hm_order : list rstring -> list rstring;
  hm_order_perm : forall l, hm_order l ≡ₚ l
}.

Definition LOCK_KEY : rstring := lit "lock".
Definition LOG_KEY : rstring := lit "log".
Definition HISTORY_PRUNE_BATCH : N := 32.

(** Run [m]; should it fail, run [undo] and report [m]'s error, or the error of
    [undo]. *)
Definition or_undo {X A} (m : M X A) (undo : M X unit) : M X A :=
  catch m (fun e => (do* undo in throw e)%m).

(** [is_reinforced_attr]. *)
Definition is_reinforced_attr (field : rstring) : bool :=
  bool_decide (field = META_ACCESS_COUNT) || bool_decide (field = META_LAST_ACCESSED)
  || bool_decide (field = META_EXPIRES_AT).

(** [validate_vector_names]; [seen] are the names before. *)
Fixpoint validate_vector_names_from (seen names : list rstring) : result err unit :=
  match names with
  | [] => Ok tt
  | name :: names' =>
      if bool_decide (name = []) then Err EInvalid
      else if bool_decide (name = DEFAULT_VECTOR) then Err EInvalid
      else if bool_decide (name ∈ seen) then Err EInvalid
      else validate_vector_names_from (name :: seen) names'
  end.
Definition validate_vector_names (names : list rstring) : result err unit :=
  validate_vector_names_from [] names.

Section store.
Context `{Crc32} `{Codec Op} `{Codec Manifest} `{Codec HistoryEntry} `{Codec HistoryFloor}.

(** ** The writer check *)

Definition renew_lease : M Store unit :=
  (let* s := get_st in
   match st_lease s with
   | None => ret tt
   | Some owner =>
       catch (renew_lease_object LOCK_KEY owner)
         (fun e => do* when (bool_decide (e = ELeaseLost)) (modify (with_fenced true)) in throw e)
   end)%m.

Definition check_writable : M Store unit :=
  (let* s := get_st in
   if bool_decide (c_open_mode (st_config s) = ReadOnly) then throw EReadOnly
   else renew_lease)%m.

(** ** The commit point *)

(** [now_ms().max(0)]: a reading of the clock. *)
Definition now_millis : M Store N := now_secs.

Definition nrange (first last : N) : list N :=
  map (fun i => first + N.of_nat i)%N (seq 0 (N.to_nat (last + 1 - first))).

Definition prune_history (version n : N) : M Store unit :=
  (let* s := get_st in
   if (version <=? n)%N then ret tt
   else
     let target := (version - n)%N in
     if (target <=? st_pruned_through s)%N then ret tt
     else
       let start := (st_pruned_through s + 1)%N in
       let last := N.min target (start + HISTORY_PRUNE_BATCH - 1) in
       do* for_each (nrange start last)
             (fun v => do* ignore (delete_entry v) in modify (with_pruned_through v)) in
       let* s := get_st in
       ignore (store_floor {| hf_format_version := HIST_FORMAT_VERSION;
                              hf_oldest_readable := (st_pruned_through s + 1)%N |}))%m.

Definition record_history_entry (manifest : Manifest) : M Store unit :=
  (let* s := get_st in
   match c_history_versions (st_config s) with
   | None => ret tt
   | Some n =>
       ignore
         (let* log_offset := on_log log_offset in
          let* millis := now_millis in
          let entry :=
            {| he_v1 := {| h1_format_version := HIST_FORMAT_VERSION;
                           h1_version := mf_version manifest;
                           h1_dimension := mf_dimension manifest;
                           h1_distance := mf_distance manifest;
                           h1_segments := mf_segments manifest;
                           h1_next_id := mf_next_id manifest;
                           h1_row_count := segments_row_count (st_data s);
                           h1_log_offset := log_offset;
                           h1_profile := mf_profile manifest;
                           h1_commit_millis := millis |};
               he_aliases := mf_aliases manifest |} in
          do* store_entry entry in
          prune_history (mf_version manifest) (N.of_nat n))
   end)%m.

Definition persist_manifest : M Store unit :=
  (let* s := get_st in
   if st_in_memory s || bool_decide (c_open_mode (st_config s) = ReadOnly) then ret tt
   else if negb (st_persistence s) then ret tt
   else
     let manifest :=
       set_aliases (st_aliases s) (segments_manifest (st_open_profile s) (st_data s)) in
     do* (if negb (c_cluster (st_config s)) then manifest_store manifest
          else
            let* bs := of_result (manifest_encode manifest) in
            let* o := p_put_cas MANIFEST_KEY bs (st_manifest_cas s) in
            match o with
            | Written (Some t) => modify (with_manifest_cas (Some t))
            | Written None =>
                let* cur := p_get_cas MANIFEST_KEY in
                modify (with_manifest_cas (cur ≫= snd))
            | Stale => throw EFenced
            | Unsupported => manifest_store manifest
            end) in
     record_history_entry manifest)%m.

Definition note_commit_point : M Store unit :=
  (let* s := get_st in
   if st_in_memory s || bool_decide (c_open_mode (st_config s) = ReadOnly) then ret tt
   else if negb (c_cluster (st_config s)) &&
           bool_decide (c_history_versions (st_config s) = None) then ret tt
   else
     do* modify (fun s => with_data (bump_version (st_data s)) s) in
     persist_manifest)%m.

(** ** The durability barrier *)

Definition barrier_now (s : Store) : bool :=
  bool_decide (c_fsync (st_config s) = PerBatch) && negb (st_defer_barrier s).

Definition maybe_sync : M Store unit :=
  (let* s := get_st in
   if negb (barrier_now s) then modify (with_pending_barrier true)
   else
     do* on_data segments_sync in
     do* on_log log_sync in
     note_commit_point)%m.

Definition begin_deferred : M Store bool :=
  (let* s := get_st in
   do* modify (with_defer_barrier true) in ret (st_defer_barrier s))%m.
Definition end_deferred (prev : bool) : M Store unit := modify (with_defer_barrier prev).

Definition commit : M Store unit :=
  (let* s := get_st in
   if negb (st_pending_barrier s) || bool_decide (c_fsync (st_config s) = OnFlush) then ret tt
   else
     do* on_data segments_sync in
     do* on_log log_sync in
     do* note_commit_point in
     modify (with_pending_barrier false))%m.

Definition maybe_seal `{Codec Z} : M Store unit :=
  (let* s := get_st in
   match c_segment_max_rows (st_config s) with
   | None => ret tt
   | Some max =>
       if (max <=? active_rows (st_data s))%nat then
         let* sealed := on_data segments_seal in
         if sealed then persist_manifest else ret tt
       else ret tt
   end)%m.

(** [rollback]. *)
Definition rollback (data_mark log_mark : nat) : M Store unit :=
  (do* on_log (log_truncate_to log_mark) in on_data (segments_truncate_to data_mark))%m.

(** ** Aliases and the recorded profile *)

Definition set_open_profile (p : OpenProfile) : M Store unit :=
  (do* check_writable in
   let* s := get_st in
   match config_validate (apply_profile p (st_baseline_config s)) with
   | Err _ => throw EInvalid
   | Ok _ =>
       do* modify (with_open_profile p) in
       do* modify (fun s => with_data (bump_version (st_data s)) s) in
       persist_manifest
   end)%m.
Definition clear_open_profile : M Store unit := set_open_profile OpenProfile_default.

Definition reject_if_alias (name : rstring) : M Store unit :=
  (let* s := get_st in
   if bool_decide (is_Some (st_aliases s !! name)) then throw EInvalid else ret tt)%m.

Definition set_alias (name target : rstring) : M Store unit :=
  (do* check_writable in
   let* s := get_st in
   do* of_result (validate_alias name target (st_aliases s)) in
   if bool_decide (is_Some (st_collections s !! name)) then throw EInvalid
   else if bool_decide (st_collections s !! target = None) then throw EInvalid
   else
     let prior := st_aliases s !! name in
     if bool_decide (prior = Some target) then ret tt
     else
       do* modify (fun s => with_aliases (<[name := target]> (st_aliases s)) s) in
       do* modify (fun s => with_data (bump_version (st_data s)) s) in
       or_undo persist_manifest
         (modify (fun s => with_aliases
            (match prior with
             | Some p => <[name := p]> (st_aliases s)
             | None => delete name (st_aliases s)
             end) s)))%m.

Definition drop_alias (name : rstring) : M Store bool :=
  (do* check_writable in
   let* s := get_st in
   match st_aliases s !! name with
   | None => ret false
   | Some prior =>
       do* modify (fun s => with_aliases (delete name (st_aliases s)) s) in
       do* modify (fun s => with_data (bump_version (st_data s)) s) in
       do* or_undo persist_manifest
             (modify (fun s => with_aliases (<[name := prior]> (st_aliases s)) s)) in
       ret true
   end)%m.
End store.

(** A store in RAM whose documents carry attributes only, for examples. *)
Definition text_docs (docs : list (rstring * attrs_map)) : gmap rstring DocEntry :=
  list_to_map ((fun d => (d.1, {| de_rows := ∅; de_attrs := d.2 |})) <$> docs).
Definition text_store (cols : list (rstring * list (rstring * attrs_map))) : Store :=
  let config := Config_new (lit "/dev/null/in-memory") 2 in
  {| st_config := config; st_open_profile := OpenProfile_default; st_baseline_config := config;
     st_data := segments_in_memory_with 2 Cosine; st_log := ApMem []; st_persistence := false;
     st_lease := None;
     st_index := {| ix_collections := list_to_map
                      ((fun c => (c.1, set_docs (text_docs c.2) Collection_new)) <$> cols);
                    ix_dead_rows := 0; ix_fts := Fts_default; ix_findex := Findex_default |};
     st_aliases := ∅; st_in_memory := true; st_loaded_log_offset := 0; st_manifest_cas := None;
     st_fenced := false; st_defer_barrier := false; st_pending_barrier := false;
     st_pinned := None; st_pruned_through := 0 |}.
