(* ===== verification/StoreWrite.v ===== *)
(** * StoreWrite: mutations of a store ([src/src/store/write.rs])

    The whole handlers, in the order of their I/O: collections and their
    declarations, the all-or-nothing [upsert], the deletes, reinforcement,
    flush and compaction. *)
From S2P Require Import Prelude Floats Model Config TextPred Filter Literal Findex Std Analyzer Fts FtsStore.
From S2P Require Import Backend Codec Log Data IndexCache Manifest Segments Lease Replay Store.

Section write.
Context `{Crc32} `{Codec Op} `{Codec Manifest} `{Codec HistoryEntry} `{Codec HistoryFloor}
  `{Codec Z}.
Context `{UnicodeAlnum} `{UnicodeLower} `{RegexEngine} `{HashOrder} `{HashIter}.

(** Append one operation to the log. *)
Definition append_op (op : Op) : M Store unit := on_log (log_append op).

(** ** Collections and declarations *)

Definition create_collection (name : rstring) : M Store unit :=
  (do* check_writable in
   let* s := get_st in
   if bool_decide (is_Some (st_aliases s !! name)) then throw EInvalid
   else if bool_decide (is_Some (st_collections s !! name)) then ret tt
   else
     do* modify_index (fun ix => set_collections (touch name (ix_collections ix)) ix) in
     do* append_op (OpCreateCollection name) in
     maybe_sync)%m.

Definition drop_collection (name : rstring) : M Store unit :=
  (do* check_writable in
   do* reject_if_alias name in
   let* s := get_st in
   if existsb (fun at_ => bool_decide (at_.2 = name)) (bt_entries (st_aliases s)) then throw EInvalid
   else
     match st_collections s !! name with
     | None => ret tt
     | Some col =>
         do* modify_index (fun ix =>
               add_dead (doc_rows col) (set_collections (delete name (ix_collections ix)) ix)) in
         do* modify_index (fun ix =>
               if fts_active (ix_fts ix) then set_fts (fts_drop_collection (ix_fts ix) name) ix else ix) in
         do* modify_index (fun ix =>
               if is_active (ix_findex ix)
               then set_findex (findex_drop_collection (ix_findex ix) name) ix else ix) in
         do* append_op (OpDropCollection name) in
         maybe_sync
     end)%m.

(** Create the collection in RAM if absent. *)
Definition implicit_create (collection : rstring) : M Store unit :=
  modify_index (fun ix => set_collections (touch collection (ix_collections ix)) ix).

(** Index a collection's documents in the order of their ids. *)
Definition index_collection (collection : rstring) (ix : Index) : Index :=
  set_findex
    (fold_left (fun fx ie => index_doc fx collection ie.1 (de_attrs ie.2))
       (bt_entries (cl_docs (entry collection (ix_collections ix)))) (ix_findex ix)) ix.

Definition index_collection_text (collection : rstring) (ix : Index) : Index :=
  set_fts
    (fold_left (fun f ie => fts_index_doc f collection ie.1 (de_attrs ie.2))
       (bt_entries (cl_docs (entry collection (ix_collections ix)))) (ix_fts ix)) ix.

Definition set_fts_schema (collection : rstring) (fields : list FtsField) : M Store unit :=
  (do* check_writable in
   do* reject_if_alias collection in
   match fts_validate fields with
   | Err _ => throw EInvalid
   | Ok _ =>
       do* implicit_create collection in
       do* append_op (OpSetFtsFields collection fields) in
       do* maybe_sync in
       do* modify_index (fun ix => set_fts (fts_set_schema (ix_fts ix) collection fields) ix) in
       modify_index (index_collection_text collection)
   end)%m.

Definition set_filter_index (collection : rstring) (fields : list FilterIndexField) : M Store unit :=
  (do* check_writable in
   do* reject_if_alias collection in
   match findex_validate fields with
   | Err _ => throw EInvalid
   | Ok _ =>
       do* implicit_create collection in
       do* append_op (OpSetFilterIndex collection fields) in
       do* maybe_sync in
       do* modify_index (fun ix => set_findex (set_schema (ix_findex ix) collection fields) ix) in
       modify_index (index_collection collection)
   end)%m.

Definition set_vector_names (collection : rstring) (names : list rstring) : M Store unit :=
  (do* check_writable in
   do* reject_if_alias collection in
   do* of_result (validate_vector_names names) in
   do* implicit_create collection in
   do* append_op (OpSetVectorNames collection names) in
   do* maybe_sync in
   modify_index (update_collection collection (set_names names)))%m.

Definition create_collection_with_fts (name : rstring) (fields : list FtsField) : M Store unit :=
  (do* create_collection name in set_fts_schema name fields)%m.

Definition set_meta (collection : rstring) (meta : gmap rstring rstring) : M Store unit :=
  (do* check_writable in
   do* modify_index (update_collection collection (set_meta_of meta)) in
   do* append_op (OpSetMeta collection meta) in
   maybe_sync)%m.

(** ** Upsert *)

(** The named vectors of a record, validated. *)
Definition validate_record (dim : nat) (declared : list rstring) (rec : VRecord)
  : result err (gmap rstring (list f32)) :=
  if bool_decide (is_Some (rec_vectors rec !! DEFAULT_VECTOR)) then Err EInvalid
  else if match rec_vector rec with
          | Some v => negb (length v =? dim)%nat
          | None => false
          end then Err EInvalid
  else
    (let? _ := try_for_each (fun nv =>
         if negb (length nv.2 =? dim)%nat then Err EInvalid
         else if negb (bool_decide (nv.1 ∈ declared)) then Err EInvalid
         else Ok tt) (bt_entries (rec_vectors rec)) in
     Ok (match rec_vector rec with
         | Some v => <[DEFAULT_VECTOR := v]> (rec_vectors rec)
         | None => rec_vectors rec
         end))%res.

Fixpoint validate_records (dim : nat) (declared : list rstring) (records : list VRecord)
  : result err (list (gmap rstring (list f32))) :=
  match records with
  | [] => Ok []
  | rec :: records' =>
      (let? named := validate_record dim declared rec in
       let? rest := validate_records dim declared records' in
       Ok (named :: rest))%res
  end.

(** [StagedUpsert]: id, row of each vector, attributes. *)
Abbreviation Staged := (rstring * gmap rstring nat * attrs_map)%type (only parsing).

(** Phase 1, the vectors of one record in name order. *)
Fixpoint append_vectors (data_mark : nat) (should_normalize : bool)
    (named : list (rstring * list f32)) (rows : gmap rstring nat) : M Store (gmap rstring nat) :=
  match named with
  | [] => ret rows
  | (name, v) :: named' =>
      (let v := if should_normalize then normalize v else v in
       let* row := or_undo (on_data (segments_append v)) (on_data (segments_truncate_to data_mark)) in
       append_vectors data_mark should_normalize named' (<[name := row]> rows))%m
  end.

Fixpoint append_records (data_mark : nat) (should_normalize : bool) (records : list VRecord)
    (per_record : list (gmap rstring (list f32))) (staged : list Staged) : M Store (list Staged) :=
  match records, per_record with
  | rec :: records', named :: per_record' =>
      (let* rows := append_vectors data_mark should_normalize (bt_entries named) ∅ in
       append_records data_mark should_normalize records' per_record'
         (staged ++ [(rec_id rec, rows, rec_attrs rec)]))%m
  | _, _ => ret staged
  end.

(** The operation logged for one staged record. *)
Definition staged_op (collection : rstring) (st : Staged) : Op :=
  let '(id, rows, attrs) := st in
  if bool_decide (rows = ∅) then OpUpsertText collection id attrs
  else OpUpsertVectors collection id (bt_entries rows) attrs.

Definition upsert_ops (need_create : bool) (collection : rstring) (staged : list Staged) : list Op :=
  (if need_create then [OpCreateCollection collection] else []) ++ map (staged_op collection) staged.

(** Phase 5 for one record. *)
Definition commit_staged (collection : rstring) (fts_on findex_on : bool) (ix : Index) (st : Staged)
  : Index :=
  let '(id, rows, attrs) := st in
  let ix := if fts_on then set_fts (fts_index_doc (ix_fts ix) collection id attrs) ix else ix in
  let ix := if findex_on then set_findex (index_doc (ix_findex ix) collection id attrs) ix else ix in
  put_doc collection id {| de_rows := rows; de_attrs := attrs |} ix.

Definition commit_batch (collection : rstring) (staged : list Staged) (ix : Index) : Index :=
  let ix := set_collections (touch collection (ix_collections ix)) ix in
  foldl (commit_staged collection (fts_active (ix_fts ix)) (is_active (ix_findex ix))) ix staged.

Definition vector_count (per_record : list (gmap rstring (list f32))) : nat :=
  list_sum (map size per_record).

(** Phases 1 to 5, once the batch is accepted. *)
Definition upsert_batch (collection : rstring) (need_create : bool) (records : list VRecord)
    (per_record : list (gmap rstring (list f32))) : M Store nat :=
  (let* s := get_st in
   let data_mark := segments_row_count (st_data s) in
   let* log_mark := on_log log_offset in
   let should_normalize := bool_decide (c_distance (st_config s) = Cosine) in
   let* staged := append_records data_mark should_normalize records per_record [] in
   let now := barrier_now s in
   do* when now (or_undo (on_data segments_sync) (on_data (segments_truncate_to data_mark))) in
   do* for_each (upsert_ops need_create collection staged)
         (fun op => or_undo (append_op op) (rollback data_mark log_mark)) in
   do* (if now then or_undo (on_log log_sync) (rollback data_mark log_mark)
        else modify (with_pending_barrier true)) in
   do* modify_index (commit_batch collection staged) in
   do* when now note_commit_point in
   ret (length staged))%m.

Definition upsert (collection : rstring) (records : list VRecord) : M Store nat :=
  (do* check_writable in
   let* s := get_st in
   let declared := match st_collections s !! collection with
                   | Some c => cl_vector_names c
                   | None => []
                   end in
   let* per_record :=
     of_result (validate_records (segments_dimension (st_data s)) declared records) in
   let need_create := bool_decide (st_collections s !! collection = None) in
   if bool_decide (records = []) then
     do* when need_create
           (do* append_op (OpCreateCollection collection) in
            do* maybe_sync in
            implicit_create collection) in
     ret 0%nat
   else
     do* maybe_seal in
     let* s := get_st in
     let projected := ((segments_row_count (st_data s) + vector_count per_record)
                       * segments_dimension (st_data s) * 4)%nat in
     if match c_max_vector_bytes (st_config s) with
        | Some cap => (cap <? projected)%nat
        | None => false
        end then throw ELimit
     else upsert_batch collection need_create records per_record)%m.

(** ** Deletes *)

(** [col.docs.remove(id)] with its postings. *)
Definition remove_doc_entry (collection id : rstring) (ix : Index) : Index :=
  remove_entry collection id
    (set_findex (remove_doc (ix_findex ix) collection id)
       (set_fts (fts_remove_doc (ix_fts ix) collection id) ix)).

Definition has_doc (collection id : rstring) (ix : Index) : bool :=
  match ix_collections ix !! collection with
  | Some col => bool_decide (is_Some (cl_docs col !! id))
  | None => false
  end.

Fixpoint delete_loop (collection : rstring) (ids : list rstring) (count : nat) : M Store nat :=
  match ids with
  | [] => ret count
  | id :: ids' =>
      (let* s := get_st in
       if has_doc collection id (st_index s) then
         do* modify_index (remove_doc_entry collection id) in
         do* append_op (OpDelete collection id) in
         delete_loop collection ids' (S count)
       else delete_loop collection ids' count)%m
  end.

(** [delete]. *)
Definition store_delete (collection : rstring) (ids : list rstring) : M Store nat :=
  (do* check_writable in
   let* s := get_st in
   if bool_decide (st_collections s !! collection = None) then ret 0%nat
   else
     let* count := delete_loop collection ids 0 in
     do* when (0 <? count)%nat maybe_sync in
     ret count)%m.

(** The matching ids of a collection, in the order of its map. *)
Definition matching_ids (filter : Filter) (col : Collection) : list rstring :=
  List.filter (fun id => match cl_docs col !! id with
                         | Some e => matches filter (de_attrs e)
                         | None => false
                         end) (hm_order (bt_keys (cl_docs col))).

Definition delete_where (collection : rstring) (filter : Filter) : M Store nat :=
  (do* check_writable in
   let* s := get_st in
   match st_collections s !! collection with
   | None => ret 0%nat
   | Some col =>
       let to_delete := matching_ids filter col in
       if bool_decide (to_delete = []) then ret 0%nat else store_delete collection to_delete
   end)%m.

(** Every match, as (collection, id), collection by collection. *)
Definition sweep_targets (filter : Filter) (ix : Index) : list (rstring * rstring) :=
  mjoin (map (fun name => match ix_collections ix !! name with
                          | Some col => map (pair name) (matching_ids filter col)
                          | None => []
                          end) (hm_order (bt_keys (ix_collections ix)))).

(** Phase 4: the index, and how many documents left it. *)
Definition sweep_commit (ix : Index) (targets : list (rstring * rstring)) : Index * nat :=
  foldl (fun acc ci =>
    if has_doc ci.1 ci.2 acc.1 then (remove_doc_entry ci.1 ci.2 acc.1, S acc.2) else acc)
    (ix, 0%nat) targets.

Definition delete_where_all (filter : Filter) : M Store nat :=
  (do* check_writable in
   let* s := get_st in
   let targets := sweep_targets filter (st_index s) in
   if bool_decide (targets = []) then ret 0%nat
   else
     let* log_mark := on_log log_offset in
     do* for_each targets (fun ci =>
           or_undo (append_op (OpDelete ci.1 ci.2)) (on_log (log_truncate_to log_mark))) in
     do* or_undo maybe_sync (on_log (log_truncate_to log_mark)) in
     let* s := get_st in
     let swept := sweep_commit (st_index s) targets in
     do* modify_index (fun _ => swept.1) in
     ret swept.2)%m.

(** ** Reinforcement *)

(** The stamps of the documents that exist: id, access count, expiry. *)
Definition stamp_of (now_ms : Z) (extend : option Z) (attrs : attrs_map) : Z * option Z :=
  (match attrs !! META_ACCESS_COUNT with
   | Some (VInt n) => i64_sat (n + 1)
   | _ => 1%Z
   end,
   match extend, attrs !! META_EXPIRES_AT with
   | Some secs, Some (VDateTime cur) =>
       Some (Z.max cur (i64_sat (now_ms + i64_sat (secs * 1000))))
   | _, _ => None
   end).

Definition stamps_of (col : Collection) (now_ms : Z) (extend : option Z) (ids : list rstring)
  : list (rstring * Z * option Z) :=
  omap (fun id => (fun e => let '(n, x) := stamp_of now_ms extend (de_attrs e) in (id, n, x))
                    <$> cl_docs col !! id) ids.

Definition reinforce_op (collection : rstring) (now_ms : Z) (st : rstring * Z * option Z) : Op :=
  let '(id, access_count, expires_at) := st in
  OpReinforce collection id access_count now_ms expires_at.

(** One document stamped, and counted. *)
Definition commit_stamp (collection : rstring) (now_ms : Z) (fts_on findex_on : bool) (acc : Index * nat)
    (st : rstring * Z * option Z) : Index * nat :=
  let '(id, access_count, expires_at) := st in
  if has_doc collection id acc.1 then
    let ix := stamp_doc collection id access_count now_ms expires_at acc.1 in
    (match cl_docs (entry collection (ix_collections ix)) !! id with
     | Some e =>
         let ix := if fts_on then set_fts (fts_index_doc (ix_fts ix) collection id (de_attrs e)) ix else ix in
         if findex_on then set_findex (index_doc (ix_findex ix) collection id (de_attrs e)) ix else ix
     | None => ix
     end, S acc.2)
  else acc.

Definition reinforce (collection : rstring) (ids : list rstring) (now_ms : Z)
    (extend_ttl_seconds : option Z) : M Store nat :=
  (do* check_writable in
   let* s := get_st in
   match st_collections s !! collection with
   | None => ret 0%nat
   | Some col =>
       let stamps := stamps_of col now_ms extend_ttl_seconds ids in
       if bool_decide (stamps = []) then ret 0%nat
       else
         let data_mark := segments_row_count (st_data s) in
         let* log_mark := on_log log_offset in
         do* for_each stamps (fun st =>
               or_undo (append_op (reinforce_op collection now_ms st)) (rollback data_mark log_mark)) in
         let now := barrier_now s in
         do* (if now then or_undo (on_log log_sync) (rollback data_mark log_mark)
              else modify (with_pending_barrier true)) in
         let fts_on :=
           fts_active (ix_fts (st_index s)) &&
           match fs_schema (ix_fts (st_index s)) !! collection with
           | Some d => existsb (fun f => is_reinforced_attr (fts_field f)) d
           | None => false
           end in
         let findex_on :=
           is_active (ix_findex (st_index s)) &&
           match schema_for (ix_findex (st_index s)) collection with
           | Some d => existsb (fun f => is_reinforced_attr (fi_field f)) d
           | None => false
           end in
         let* s := get_st in
         let stamped := foldl (commit_stamp collection now_ms fts_on findex_on) (st_index s, 0%nat) stamps in
         do* modify_index (fun _ => stamped.1) in
         do* when now note_commit_point in
         ret stamped.2
   end)%m.

(** ** Flush and integrity *)

Definition refresh_active_checksum : M Store unit :=
  (let* s := get_st in
   if st_in_memory s || bool_decide (c_open_mode (st_config s) = ReadOnly) then ret tt
   else if negb (st_persistence s) then ret tt
   else
     match last (mf_segments (segments_manifest (st_open_profile s) (st_data s))) with
     | None => throw ECorrupt
     | Some name =>
         let dim := segments_dimension (st_data s) in
         let rows := active_rows (st_data s) in
         let base := (segments_row_count (st_data s) - rows)%nat in
         let crc := crc32 (mjoin (map (fun r => floats_to_bytes (segments_row r (st_data s)))
                                    (seq base rows))) in
         checksum_save name (checksum_key name dim (c_distance (st_config s))) rows crc
     end)%m.

Definition flush : M Store unit :=
  (do* check_writable in
   do* on_data segments_sync in
   do* on_log log_sync in
   let* s := get_st in
   do* when (bool_decide (c_fsync (st_config s) = OnFlush) || st_pending_barrier s)
         note_commit_point in
   do* modify (with_pending_barrier false) in
   do* maybe_seal in
   ignore refresh_active_checksum)%m.

Definition verify_integrity : M Store (list (rstring * SegmentIntegrity)) :=
  (let* s := get_st in
   let names := mf_segments (segments_manifest (st_open_profile s) (st_data s)) in
   let* integrities := on_data verify_checksums in
   ret (zip names integrities))%m.

(** ** Compaction *)

(** What the walk over the live documents builds: the next row, the vectors in
    their new order, the new log, and the new rows of each document. *)
Record Plan := {
  pl_next_row : nat;
  pl_rows : list f32;
  pl_ops : list Op;
  pl_updates : list (rstring * rstring * gmap rstring nat)
}.

Definition Plan_empty : Plan := {| pl_next_row := 0; pl_rows := []; pl_ops := []; pl_updates := [] |}.

Definition plan_op (op : Op) (p : Plan) : Plan :=
  {| pl_next_row := pl_next_row p; pl_rows := pl_rows p; pl_ops := pl_ops p ++ [op];
     pl_updates := pl_updates p |}.

(** Relocate the rows of one document, in name order. *)
Definition relocate (data : Segments) (rows : list (rstring * nat)) (p : nat * list f32)
  : nat * list f32 * list (rstring * nat) :=
  foldl (fun acc nr =>
    let '(next, vs, assigned) := acc in
    (S next, vs ++ segments_row nr.2 data, assigned ++ [(nr.1, next)]))
    (p.1, p.2, []) rows.

Definition plan_doc (data : Segments) (collection : rstring) (p : Plan) (ie : rstring * DocEntry)
  : Plan :=
  let '(id, e) := ie in
  if bool_decide (de_rows e = ∅) then plan_op (OpUpsertText collection id (de_attrs e)) p
  else
    let '(next, vs, assigned) :=
      relocate data (bt_entries (de_rows e)) (pl_next_row p, pl_rows p) in
    let assigned : gmap rstring nat := list_to_map assigned in
    {| pl_next_row := next; pl_rows := vs;
       pl_ops := pl_ops p ++ [OpUpsertVectors collection id (bt_entries assigned) (de_attrs e)];
       pl_updates := pl_updates p ++ [(collection, id, assigned)] |}.

(** The declarations re-emitted for a collection. *)
Definition declaration_ops (ix : Index) (name : rstring) (col : Collection) : list Op :=
  [OpCreateCollection name]
  ++ (if bool_decide (cl_meta col = ∅) then [] else [OpSetMeta name (cl_meta col)])
  ++ (match fs_schema (ix_fts ix) !! name with Some fields => [OpSetFtsFields name fields] | None => [] end)
  ++ (match schema_for (ix_findex ix) name with
      | Some fields => [OpSetFilterIndex name fields] | None => [] end)
  ++ (if bool_decide (cl_vector_names col = []) then []
      else [OpSetVectorNames name (cl_vector_names col)]).

Definition plan_collection (ix : Index) (data : Segments) (p : Plan) (nc : rstring * Collection)
  : Plan :=
  let '(name, col) := nc in
  foldl (plan_doc data name) (foldl (fun p op => plan_op op p) p (declaration_ops ix name col))
    (bt_entries (cl_docs col)).

Definition compact_plan (ix : Index) (data : Segments) : Plan :=
  foldl (plan_collection ix data) Plan_empty (bt_entries (ix_collections ix)).

(** Step 3 for one document. *)
Definition relocate_doc (m : gmap rstring Collection)
    (u : rstring * rstring * gmap rstring nat) : gmap rstring Collection :=
  let '(collection, id, rows) := u in
  alter (fun col => set_docs (alter (fun e => {| de_rows := rows; de_attrs := de_attrs e |}) id
                                (cl_docs col)) col) collection m.

(** [rebuild_findex]: emptied, then every live document in order. *)
Definition rebuild_findex (ix : Index) : Index :=
  if negb (is_active (ix_findex ix)) then ix
  else
    set_findex
      (fold_left (fun fx nc =>
         fold_left (fun fx ie => index_doc fx nc.1 ie.1 (de_attrs ie.2)) (bt_entries (cl_docs nc.2)) fx)
       (bt_entries (ix_collections ix)) (clear_indexes (ix_findex ix))) ix.

(** [rebuild_fts]: the same for the text indexes. *)
Definition rebuild_fts (ix : Index) : Index :=
  if negb (fts_active (ix_fts ix)) then ix
  else
    set_fts
      (fold_left (fun f nc =>
         match fs_schema f !! nc.1 with
         | None => f
         | Some _ => fold_left (fun f ie => fts_index_doc f nc.1 ie.1 (de_attrs ie.2)) (bt_entries (cl_docs nc.2)) f
         end)
       (bt_entries (ix_collections ix)) (fts_clear_indexes (ix_fts ix))) ix.

Definition compact : M Store unit :=
  (do* check_writable in
   let* s := get_st in
   let plan := compact_plan (st_index s) (st_data s) in
   let* versions := (if st_persistence s then list_versions else ret []) in
   let fence := negb (bool_decide (versions = [])) in
   let floor := {| hf_format_version := HIST_FORMAT_VERSION;
                   hf_oldest_readable := (ss_version (st_data s) + 1)%N |} in
   let prior_pruned_through := st_pruned_through s in
   do* when fence
         (do* store_floor floor in
          modify (with_pruned_through
            (N.max prior_pruned_through (hf_oldest_readable floor - 1)))) in
   let* dropped := on_data (segments_rewrite (pl_rows plan)) in
   do* on_log (log_rewrite (pl_ops plan)) in
   do* persist_manifest in
   do* when (st_persistence s) (for_each dropped (fun name => ignore (p_delete name))) in
   do* when fence
         (for_each (take (N.to_nat HISTORY_PRUNE_BATCH)
                      (nrange (prior_pruned_through + 1) (hf_oldest_readable floor - 1)))
            (fun v => ignore (delete_entry v))) in
   do* modify_index (fun ix =>
         set_collections (foldl relocate_doc (ix_collections ix) (pl_updates plan)) ix) in
   do* modify_index (fun ix =>
         {| ix_collections := ix_collections ix; ix_dead_rows := 0; ix_fts := ix_fts ix;
            ix_findex := ix_findex ix |}) in
   do* modify_index rebuild_fts in
   modify_index rebuild_findex)%m.
End write.
