(* ===== verification/StoreOk.v ===== *)
(** * StoreOk: the invariant of an open store

    [store_ok] ties the RAM state of a store to its bytes: the log handle holds
    the frames of the operations committed so far, the index is their replay,
    and the segments mirror the vectors.  [softly] describes the computations
    that only touch the manifest, its history and the writer lock. *)
From S2P Require Import Prelude Floats Model Config TextPred Filter Literal Findex.
From S2P Require Import Backend Codec Log Data IndexCache Manifest Segments Lease Replay Store.

(** ** Soft steps *)

(** The objects of the commit point and of the writer lock. *)
Definition meta_key (k : rstring) : Prop :=
  k = MANIFEST_KEY \/ k = LOCK_KEY \/ take (length HIST_PREFIX) k = HIST_PREFIX.

Definition meta_step (w w' : World) : Prop :=
  w_kind w' = w_kind w /\
  (forall k, ~ meta_key k -> w_objects w' !! k = w_objects w !! k) /\
  w_faults w' `suffix_of` w_faults w.

Record soft (s s' : Store) : Prop := {
  sf_log : st_log s' = st_log s;
  sf_index : st_index s' = st_index s;
  sf_config : st_config s' = st_config s;
  sf_distance : ss_distance (st_data s') = ss_distance (st_data s);
  sf_segs : ss_segs (st_data s') = ss_segs (st_data s);
  sf_base : ss_base (st_data s') = ss_base (st_data s);
  sf_memory : st_in_memory s' = st_in_memory s;
  sf_defer : st_defer_barrier s' = st_defer_barrier s
}.

Lemma soft_refl s : soft s s.
Proof. done. Qed.
Lemma soft_trans s1 s2 s3 : soft s1 s2 -> soft s2 s3 -> soft s1 s3.
Proof. intros [] []. split; congruence. Qed.
Lemma meta_refl w : meta_step w w.
Proof. done. Qed.
Lemma meta_trans w1 w2 w3 : meta_step w1 w2 -> meta_step w2 w3 -> meta_step w1 w3.
Proof.
  intros (K1 & O1 & F1) (K2 & O2 & F2). split_and!; [congruence| |by etrans].
  intros k Hk. by rewrite O2, O1.
Qed.
Lemma touches_meta ks w w' : touches ks w w' -> Forall meta_key ks -> meta_step w w'.
Proof.
  intros (K & O & F) Hk. split_and!; [done| |done]. intros k Hn. apply O.
  intros Hin. rewrite Forall_forall in Hk. by apply Hn, Hk.
Qed.
Lemma touches_nil_meta w w' : touches [] w w' -> meta_step w w'.
Proof. intros Ht. eapply touches_meta; [done|constructor]. Qed.
Lemma meta_touches w w' : meta_step w w' ->
  w_kind w' = w_kind w /\ (forall k, ~ meta_key k -> object w' k = object w k).
Proof. intros (K & O & _). split; [done|]. intros k Hk. unfold object. by rewrite O. Qed.

#[export] Hint Resolve soft_refl meta_refl touches_nil_meta : nidus.

Lemma meta_entry_key v : meta_key (entry_key v).
Proof. right. right. unfold entry_key. by rewrite take_app_length. Qed.
Lemma meta_floor : meta_key FLOOR_KEY.
Proof. right. by right. Qed.
#[export] Hint Resolve meta_entry_key meta_floor : nidus.

Definition softly {A} (m : M Store A) : Prop :=
  forall s w o s' w', m s w = (o, s', w') -> soft s s' /\ meta_step w w'.

Section softly.
Implicit Types s : Store.

Lemma softly_wp {A} (m : M Store A) : softly m <->
  forall s w, wp m (fun _ s' w' => soft s s' /\ meta_step w w')
    (fun _ s' w' => soft s s' /\ meta_step w w') s w.
Proof.
  split.
  - intros H s w. apply wp_intro. intros o s' w' E. apply H in E. by destruct o.
  - intros H s w o s' w' E. pose proof (wp_elim _ _ _ _ _ _ _ _ (H s w) E) as Hr. by destruct o.
Qed.

Lemma softly_ret {A} (a : A) : softly (ret a).
Proof. intros s w o s' w' [= <- <- <-]. auto with nidus. Qed.
Lemma softly_throw {A} e : softly (A := A) (throw e).
Proof. intros s w o s' w' [= <- <- <-]. auto with nidus. Qed.
Lemma softly_get_st : softly get_st.
Proof. intros s w o s' w' [= <- <- <-]. auto with nidus. Qed.
Lemma softly_modify f : (forall s, soft s (f s)) -> softly (modify f).
Proof. intros Hf s w o s' w' [= <- <- <-]. auto with nidus. Qed.
Lemma softly_of_result {A} (r : result err A) : softly (of_result r).
Proof. destruct r; [apply softly_ret|apply softly_throw]. Qed.

Lemma softly_bind {A B} (m : M Store A) (k : A -> M Store B) :
  softly m -> (forall a, softly (k a)) -> softly (bind m k).
Proof.
  intros Hm Hk s w o s' w'. unfold bind. destruct (m s w) as [[[a|e|] s1] w1] eqn:E.
  - intros E2. apply Hm in E as [? ?]. apply Hk in E2 as [? ?].
    split; [by eapply soft_trans|by eapply meta_trans].
  - intros [= <- <- <-]. by apply Hm in E.
  - intros [= <- <- <-]. by apply Hm in E.
Qed.
Lemma softly_catch {A} (m : M Store A) h :
  softly m -> (forall e, softly (h e)) -> softly (catch m h).
Proof.
  intros Hm Hh s w o s' w'. unfold catch. destruct (m s w) as [[[a|e|] s1] w1] eqn:E.
  - intros [= <- <- <-]. by apply Hm in E.
  - intros E2. apply Hm in E as [? ?]. apply Hh in E2 as [? ?].
    split; [by eapply soft_trans|by eapply meta_trans].
  - intros [= <- <- <-]. by apply Hm in E.
Qed.
Lemma softly_ignore {A} (m : M Store A) : softly m -> softly (ignore m).
Proof.
  intros Hm s w o s' w'. unfold ignore. destruct (m s w) as [[[a|e|] s1] w1] eqn:E;
    intros [= <- <- <-]; by apply Hm in E.
Qed.
Lemma softly_when b m : softly m -> softly (when b m).
Proof. destruct b; [done|]. intros _. apply softly_ret. Qed.
Lemma softly_for_each {A} (l : list A) f : (forall a, softly (f a)) -> softly (for_each l f).
Proof.
  intros Hf. induction l as [|a l IH]; [apply softly_ret|]. simpl.
  by apply softly_bind.
Qed.

Lemma softly_put key bs : meta_key key -> softly (p_put key bs).
Proof.
  intros Hk s w o s' w' (-> & Ht & _)%p_put_spec. split; [done|].
  eapply touches_meta; [done|by apply Forall_singleton].
Qed.
Lemma softly_put_cas key bs e : meta_key key -> softly (p_put_cas key bs e).
Proof.
  intros Hk s w o s' w' (-> & Ht & _)%p_put_cas_spec. split; [done|].
  eapply touches_meta; [done|by apply Forall_singleton].
Qed.
Lemma softly_delete key : meta_key key -> softly (p_delete key).
Proof.
  intros Hk. apply softly_wp. intros s w. apply wp_p_delete; intros; (split; [done|]);
    (eapply touches_meta; [done|by apply Forall_singleton]).
Qed.
Lemma softly_reads {A} (f : World -> A) : softly (reads f).
Proof. intros s w o s' w' (-> & Ht & _)%reads_spec. auto with nidus. Qed.
Lemma softly_get key : softly (p_get key).
Proof. apply softly_bind; [apply softly_of_result|]. intros _. apply softly_reads. Qed.
Lemma softly_get_cas key : softly (p_get_cas key).
Proof. apply softly_bind; [apply softly_of_result|]. intros _. apply softly_reads. Qed.
Lemma softly_now : softly now_secs.
Proof.
  intros s w o s' w'. unfold now_secs, read_clock.
  destruct (w_clock w); intros [= <- <- <-]; split; done.
Qed.
Lemma softly_create key bs : meta_key key -> softly (p_try_create_exclusive key bs).
Proof. intros Hk. apply softly_bind; [by apply softly_put_cas|]. intros a. apply softly_ret. Qed.
Lemma softly_log_offset : softly (on_log log_offset).
Proof.
  intros s w o s' w'. unfold on_log, zoom, log_offset, ap_len.
  destruct (st_log s) as [key|key buf tok|buf] eqn:El.
  - destruct (reads _ _ w) as [[o1 y] w1] eqn:E. apply reads_spec in E as (-> & Ht & _).
    intros [= <- <- <-]. split; [|auto with nidus]. split; cbn; auto.
  - intros [= <- <- <-]. split; [|done]. split; cbn; auto.
  - intros [= <- <- <-]. split; [|done]. split; cbn; auto.
Qed.
End softly.

#[export] Hint Resolve softly_ret softly_throw softly_get_st softly_of_result softly_reads
  softly_get softly_get_cas softly_now softly_log_offset : nidus.

(** Decompose a computation of the metadata kind. *)
Ltac softly_step :=
  first
    [ solve [eauto with nidus]
    | apply softly_put; solve [auto with nidus]
    | apply softly_put_cas; solve [auto with nidus]
    | apply softly_delete; solve [auto with nidus]
    | apply softly_create; solve [auto with nidus]
    | apply softly_modify; intros ?; split; reflexivity
    | apply softly_bind; [|intros ?]
    | apply softly_catch; [|intros ?]
    | apply softly_ignore | apply softly_when
    | apply softly_for_each; intros ?
    | case_match ].
Ltac softly := repeat softly_step.

Lemma meta_manifest : meta_key MANIFEST_KEY. Proof. by left. Qed.
Lemma meta_lock : meta_key LOCK_KEY. Proof. right. by left. Qed.
#[export] Hint Resolve meta_manifest meta_lock : nidus.

Section helpers.
Context `{Crc32} `{Codec Op} `{Codec Manifest} `{Codec HistoryEntry} `{Codec HistoryFloor}.

Lemma softly_alone {A} key (p : LockProg A) : meta_key key -> softly (alone key p).
Proof. intros Hk. induction p; cbn [alone]; softly. Qed.
Lemma softly_renew_lease : softly renew_lease.
Proof.
  unfold renew_lease, renew_lease_object. pose proof (softly_alone (A := unit) LOCK_KEY) as Hl.
  softly.
Qed.

Lemma softly_check_writable : softly check_writable.
Proof. unfold check_writable. pose proof softly_renew_lease. softly. Qed.

Lemma softly_prune v n : softly (prune_history v n).
Proof. unfold prune_history, delete_entry, store_floor. softly. Qed.

Lemma softly_persist : softly persist_manifest.
Proof.
  unfold persist_manifest, record_history_entry, manifest_store, store_entry, now_millis.
  pose proof softly_prune. softly.
Qed.

Lemma softly_note_commit : softly note_commit_point.
Proof. unfold note_commit_point. pose proof softly_persist. softly. Qed.
End helpers.

(** ** The bytes of a store *)

Definition io_keys (name : rstring) : list rstring := [name; LOG_KEY].

(** [bs] is what the log holds, [v] the vectors of the active segment. *)
Record io_ok (bs : bytes) (sealed : list Seg) (name : rstring) (v : list f32) (s : Store) (w : World)
  : Prop := {
  io_data : segments_ok sealed name v (st_data s) w;
  io_log : ap_contents (st_log s) w = bs;
  io_log_keys : forall k, k ∈ ap_keys (st_log s) -> k = LOG_KEY;
  io_name : ~ meta_key name /\ name <> LOG_KEY;
  io_log_fits : ap_fits (st_log s) w;
  io_data_fits : segments_fits (st_data s) w
}.

(** The handles are on the files they were on. *)
Definition handles (s s' : Store) : Prop :=
  ap_same (st_log s) (st_log s') /\ seg_same (active_data (st_data s)) (active_data (st_data s')).

Lemma handles_refl s : handles s s.
Proof. split; [apply ap_same_refl|apply seg_same_refl]. Qed.
Lemma handles_trans s1 s2 s3 : handles s1 s2 -> handles s2 s3 -> handles s1 s3.
Proof.
  intros [L1 D1] [L2 D2]. split; [by eapply ap_same_trans|by eapply seg_same_trans].
Qed.
#[export] Hint Resolve handles_refl handles_trans : nidus.

(** Nothing but the contents of the handles changed. *)
Record io_step (s s' : Store) : Prop := {
  is_handles : handles s s';
  is_index : st_index s' = st_index s;
  is_config : st_config s' = st_config s;
  is_defer : st_defer_barrier s' = st_defer_barrier s;
  is_memory : st_in_memory s' = st_in_memory s;
  is_dimension : segments_dimension (st_data s') = segments_dimension (st_data s)
}.

Lemma io_step_refl s : io_step s s.
Proof. split; auto with nidus. Qed.
Lemma io_step_trans s1 s2 s3 : io_step s1 s2 -> io_step s2 s3 -> io_step s1 s3.
Proof. intros [] []. split; [by eapply handles_trans|congruence..]. Qed.
#[export] Hint Resolve io_step_refl io_step_trans : nidus.

Lemma log_not_meta : ~ meta_key LOG_KEY.
Proof. intros [?|[?|?]]; by vm_compute in H. Qed.

Lemma active_data_soft s s' : soft s s' -> active_data (st_data s') = active_data (st_data s).
Proof.
  intros Hs. unfold active_data, active, seg_at, last_index. by rewrite (sf_segs _ _ Hs).
Qed.

Lemma soft_dimension s s' : soft s s' ->
  segments_dimension (st_data s') = segments_dimension (st_data s).
Proof. intros Hs. unfold segments_dimension, seg_at. by rewrite (sf_segs _ _ Hs). Qed.

Lemma soft_rows s s' : soft s s' ->
  segments_row_count (st_data s') = segments_row_count (st_data s).
Proof.
  intros Hs. unfold segments_row_count, active, base_at, seg_at, last_index.
  by rewrite (sf_segs _ _ Hs), (sf_base _ _ Hs).
Qed.

Lemma soft_handles s s' : soft s s' -> handles s s'.
Proof.
  intros Hs. unfold handles. rewrite (sf_log _ _ Hs), (active_data_soft _ _ Hs).
  apply handles_refl.
Qed.

Lemma soft_io_step s s' : soft s s' -> io_step s s'.
Proof.
  intros Hs. pose proof (soft_dimension _ _ Hs). pose proof (soft_handles _ _ Hs).
  destruct Hs. by split.
Qed.

(** The same change of the index on both sides of a step. *)
Lemma io_step_index f s s' : io_step s s' ->
  io_step (with_index (f (st_index s)) s) (with_index (f (st_index s')) s').
Proof. intros [Hh Hi ? ? ? ?]. split; try done. cbn. by rewrite Hi. Qed.

(** Contents of a handle over objects a step leaves alone. *)
Lemma contents_same (P : rstring -> Prop) ap w w' :
  (forall k, P k -> object w' k = object w k) -> (forall k, k ∈ ap_keys ap -> P k) ->
  ap_contents ap w' = ap_contents ap w.
Proof.
  intros Ho Hk. destruct ap; simpl in *; try done. rewrite Ho; [done|]. apply Hk. by left.
Qed.

Lemma fits_kind ap w w' : w_kind w' = w_kind w -> ap_fits ap w -> ap_fits ap w'.
Proof. destruct ap; simpl; congruence. Qed.

Lemma io_ok_soft bs sealed name v s w s' w' :
  soft s s' -> meta_step w w' -> io_ok bs sealed name v s w -> io_ok bs sealed name v s' w'.
Proof.
  intros Hs Hm [Hd Hl Hlk [Hn1 Hn2] Hlf Hdf]. apply meta_touches in Hm as [K O].
  split.
  - destruct Hd as [(d & E & Hok & Hdist & Hk) Hb Hsh Hse]. split.
    + exists d. rewrite (sf_segs _ _ Hs), (sf_distance _ _ Hs). split_and!; try done.
      destruct Hok as [? ? ? ? Hby]. split; try done. intros ap Hap. rewrite <- (Hby ap Hap).
      apply (contents_same (fun k => ~ meta_key k)); [done|]. intros k Hin.
      rewrite (Hk k); [done|]. unfold seg_keys. by rewrite Hap.
    + by rewrite (sf_base _ _ Hs), (sf_segs _ _ Hs).
    + rewrite (soft_dimension _ _ Hs). by rewrite (sf_segs _ _ Hs).
    + done.
  - rewrite (sf_log _ _ Hs), <- Hl. apply (contents_same (fun k => ~ meta_key k)); [done|].
    intros k Hin. rewrite (Hlk k Hin). apply log_not_meta.
  - by rewrite (sf_log _ _ Hs).
  - done.
  - rewrite (sf_log _ _ Hs). by apply (fits_kind _ w).
  - unfold segments_fits. rewrite (active_data_soft _ _ Hs). intros ap Hap.
    apply (fits_kind _ w); [done|]. by apply Hdf.
Qed.

(** ** What a crash leaves

    The log gained a prefix of the bytes [bn], the data a prefix of the rows
    [vn], and the log nothing before the data had it all. *)
Definition crash (bs bn : bytes) (v vn : list f32) (s : Store) (w : World) : Prop :=
  exists k j,
    ap_contents (st_log s) w = bs ++ take k bn /\
    (forall ap, sg_appender (active_data (st_data s)) = Some ap ->
       ap_contents ap w = encode_header (sg_dimension (active_data (st_data s)))
           (sg_distance (active_data (st_data s)))
         ++ floats_to_bytes v ++ take j (floats_to_bytes vn)) /\
    (k = 0%nat \/ (4 * length vn <= j)%nat).

Lemma crash_whole bs bn sealed name v vn k s w :
  io_ok (bs ++ take k bn) sealed name (v ++ vn) s w -> crash bs bn v vn s w.
Proof.
  intros Hio. exists k, (4 * length vn)%nat. split; [apply Hio|]. split; [|by right].
  intros ap Hap. destruct (active_ok _ _ _ _ _ (io_data _ _ _ _ _ _ Hio)) as (Hok & _).
  rewrite (so_bytes _ _ _ Hok _ Hap), floats_to_bytes_app. do 2 f_equal.
  rewrite firstn_all2; [done|]. rewrite length_floats_to_bytes. lia.
Qed.

Lemma crash_none bs bn sealed name v vn s w :
  io_ok bs sealed name v s w -> crash bs bn v vn s w.
Proof.
  intros Hio. exists 0%nat, 0%nat. rewrite !take_0, app_nil_r. split; [apply Hio|].
  split; [|by left]. intros ap Hap.
  destruct (active_ok _ _ _ _ _ (io_data _ _ _ _ _ _ Hio)) as (Hok & _).
  by rewrite (so_bytes _ _ _ Hok _ Hap), app_nil_r.
Qed.

Lemma crash_torn bs bn v mid vec rest s w :
  ap_contents (st_log s) w = bs -> data_torn (v ++ mid) vec (active_data (st_data s)) w ->
  crash bs bn v (mid ++ vec ++ rest) s w.
Proof.
  intros Hl Ht. destruct (sg_appender (active_data (st_data s))) as [ap|] eqn:Eap; cycle 1.
  { exists 0%nat, 0%nat. rewrite take_0, app_nil_r. split_and!; [done| |by left].
    intros ap Hap. by rewrite Eap in Hap. }
  destruct (Ht ap Eap) as [n Hn].
  exists 0%nat, (4 * length mid + Nat.min n (4 * length vec))%nat.
  rewrite take_0, app_nil_r. split_and!; [done| |by left].
  rewrite Eap. intros ap' [= <-]. rewrite Hn, floats_to_bytes_app, <- !app_assoc. do 2 f_equal.
  rewrite !floats_to_bytes_app, take_app_ge by (rewrite length_floats_to_bytes; lia).
  rewrite length_floats_to_bytes, (Nat.add_comm (4 * _)), Nat.add_sub. f_equal.
  rewrite take_app_le by (rewrite length_floats_to_bytes; lia).
  destruct (decide (n <= 4 * length vec)%nat).
  - by rewrite Nat.min_l.
  - rewrite Nat.min_r by lia. rewrite !firstn_all2; rewrite ?length_floats_to_bytes; lia || done.
Qed.

(** ** The calls of a batch *)

Lemma seg_step_touches name ss ss' w w' :
  seg_step name ss ss' w w' -> touches (io_keys name) w w'.
Proof. intros [_ Ht]. eapply touches_mono, Ht. set_solver. Qed.

Section io.
Context `{Codec Op} `{Crc32}.
Context (bs : bytes) (sealed : list Seg) (name : rstring) (v : list f32) (s : Store) (w : World).
Context (Hio : io_ok bs sealed name v s w).

Lemma active_put d : active_data (put_active d (st_data s)) = d.
Proof.
  destruct (ok_active _ _ _ _ _ (io_data _ _ _ _ _ _ Hio)) as (d0 & E0 & _).
  unfold active_data, active. pose proof (put_active_segs d _ _ _ E0) as E'.
  by rewrite (last_index_snoc _ _ _ E'), (seg_at_last _ _ _ E').
Qed.

Lemma seg_step_handles ss' w' :
  seg_step name (st_data s) ss' w w' -> handles s (with_data ss' s).
Proof.
  intros [(d & -> & Hs) _]. split; cbn; [apply ap_same_refl|]. by rewrite active_put.
Qed.

Lemma data_io_step ss' v' w' :
  seg_step name (st_data s) ss' w w' -> segments_ok sealed name v' ss' w' ->
  segments_dimension ss' = segments_dimension (st_data s) ->
  io_ok bs sealed name v' (with_data ss' s) w' /\ io_step s (with_data ss' s).
Proof.
  intros Hstep Hok Hdim. pose proof (seg_step_handles _ _ Hstep) as Hh.
  destruct Hstep as [(d & -> & Hs) Ht]. split; [|by split].
  destruct Hio as [Hd Hl Hlk [Hn1 Hn2] Hlf Hdf]. split; cbn [st_data st_log with_data]; try done.
  - rewrite <- Hl. eapply ap_contents_touches; [exact Ht|]. intros k Hk.
    rewrite (Hlk k Hk). intros E%list_elem_of_singleton. congruence.
  - eapply touches_fits; [exact Ht|done].
  - unfold segments_fits. rewrite active_put.
    eapply seg_fits_step; [exact Hs|exact Ht|done].
Qed.

Lemma wp_io_append vector R E :
  clean w -> one_fault w -> Forall is_f32 vector ->
  length vector = segments_dimension (st_data s) ->
  (forall s' w', io_step s s' -> touches (io_keys name) w w' ->
     io_ok bs sealed name (v ++ vector) s' w' ->
     R (segments_row_count (st_data s)) s' w') ->
  (forall e s' w', io_step s s' -> touches (io_keys name) w w' ->
     io_ok bs sealed name v s' w' -> recoverable w' -> E (Some e) s' w') ->
  (forall s' w', handles s s' -> ap_contents (st_log s') w' = bs ->
     data_torn v vector (active_data (st_data s')) w' -> E None s' w') ->
  wp (on_data (segments_append vector)) R E s w.
Proof.
  intros Hc Ho Hf Hl HR HE HD. apply wp_zoom.
  apply (wp_segments_append sealed name v); try done; [apply Hio|apply Hio|..].
  - intros ss' w' Hs Hok Hdim. destruct (data_io_step _ _ _ Hs Hok Hdim) as [? ?].
    apply HR; try done. by eapply seg_step_touches.
  - intros e ss' w' Hs Htorn Hrec. destruct e as [e|].
    + destruct (Hrec ltac:(done)) as [Hok Hr]. pose proof Hs as [(d & -> & Hsame) _].
      destruct (segments_ok_put sealed name v v (st_data s) w d w') as [_ Hdim];
        [apply Hio|done| |].
      { destruct (active_ok _ _ _ _ _ Hok) as (Hd & _). by rewrite active_put in Hd. }
      destruct (data_io_step _ _ _ Hs Hok Hdim) as [? ?]. apply HE; try done.
      by eapply seg_step_touches.
    + apply HD; [by eapply seg_step_handles| |done]. destruct Hs as [_ Ht]. cbn [st_log with_data].
      rewrite <- (io_log _ _ _ _ _ _ Hio). eapply ap_contents_touches; [exact Ht|]. intros k Hk.
      rewrite (io_log_keys _ _ _ _ _ _ Hio k Hk). intros En%list_elem_of_singleton.
      by apply (proj2 (io_name _ _ _ _ _ _ Hio)).
Qed.

Lemma seg_step_dim ss' v' w' :
  seg_step name (st_data s) ss' w w' -> segments_ok sealed name v' ss' w' ->
  segments_dimension ss' = segments_dimension (st_data s).
Proof.
  intros [(d & -> & Hsame) _] Hok.
  destruct (ok_active _ _ _ _ _ (io_data _ _ _ _ _ _ Hio)) as (d0 & E0 & El & Ed & _ & _ & Hdim0).
  pose proof (put_active_segs d _ _ _ E0) as E'.
  destruct (active_ok _ _ _ _ _ Hok) as (_ & <- & _).
  unfold active_data, active in *. rewrite (last_index_snoc _ _ _ E'), (seg_at_last _ _ _ E').
  cbn. rewrite El, Ed in Hsame. destruct Hsame as (-> & _). done.
Qed.

Lemma wp_io_truncate v0 added mark R E :
  recoverable w -> v = v0 ++ added ->
  (mark * segments_dimension (st_data s)
   = total_rows sealed * segments_dimension (st_data s) + length v0)%nat ->
  (forall s' w', io_step s s' -> touches (io_keys name) w w' -> recoverable w' ->
     io_ok bs sealed name v0 s' w' -> R tt s' w') ->
  wp (on_data (segments_truncate_to mark)) R E s w.
Proof.
  intros Hrec Hv Hmark HR. apply wp_zoom.
  destruct (active_ok _ _ _ _ _ (io_data _ _ _ _ _ _ Hio)) as (Hseg & Hdim & _).
  destruct (so_dim _ _ _ Hseg) as [Hpos _]. rewrite Hdim in Hpos.
  pose proof (row_count_length _ _ _ _ _ (io_data _ _ _ _ _ _ Hio)) as Hlen.
  rewrite Hv, length_app in Hlen.
  apply (wp_segments_truncate sealed name v); [apply Hio|done|apply Hio|nia|].
  intros ss' w' Hs Hok.
  assert (take ((mark - total_rows sealed) * segments_dimension (st_data s)) v = v0) as Et.
  { rewrite Hv. apply take_app_length'. rewrite Nat.mul_sub_distr_r. lia. }
  rewrite Et in Hok. pose proof (seg_step_dim _ _ _ Hs Hok) as Hd.
  destruct (data_io_step _ _ _ Hs Hok Hd) as [? ?]. apply HR; try done.
  - by eapply seg_step_touches.
  - destruct Hs as [_ Ht]. by eapply touches_recoverable.
Qed.

Lemma wp_io_sync R E :
  one_fault w ->
  (forall s' w', io_step s s' -> touches (io_keys name) w w' -> io_ok bs sealed name v s' w' ->
     R tt s' w') ->
  (forall e s' w', io_step s s' -> touches (io_keys name) w w' -> io_ok bs sealed name v s' w' ->
     (e <> None -> recoverable w') -> E e s' w') ->
  wp (on_data segments_sync) R E s w.
Proof.
  intros Ho HR HE. apply wp_zoom.
  apply (wp_segments_sync sealed name v); [apply Hio|done|apply Hio|..].
  - intros ss' w' Hs Hok. pose proof (seg_step_dim _ _ _ Hs Hok) as Hd.
    destruct (data_io_step _ _ _ Hs Hok Hd) as [? ?]. apply HR; try done.
    by eapply seg_step_touches.
  - intros e ss' w' Hs Hok Hr. pose proof (seg_step_dim _ _ _ Hs Hok) as Hd.
    destruct (data_io_step _ _ _ Hs Hok Hd) as [? ?]. apply HE; try done.
    by eapply seg_step_touches.
Qed.

(** The store after a call on its log handle. *)
Lemma log_io_step ap' bs' w' :
  ap_same (st_log s) ap' -> touches (ap_keys (st_log s)) w w' -> ap_contents ap' w' = bs' ->
  io_ok bs' sealed name v (with_log ap' s) w' /\ io_step s (with_log ap' s) /\
  touches (io_keys name) w w'.
Proof.
  intros Hs Ht Hc. destruct Hio as [Hd Hl Hlk [Hn1 Hn2] Hlf Hdf].
  assert (touches [LOG_KEY] w w') as Ht'.
  { eapply touches_mono, Ht. intros k Hk. rewrite (Hlk k Hk). by left. }
  split; [|split; [split; try done; split; [done|apply seg_same_refl]|]]; cycle 1.
  { eapply touches_mono, Ht'. unfold io_keys. set_solver. }
  split; cbn [st_data st_log with_log]; try done.
  - destruct Hd as [(d & E & Hok & Hdist & Hk) Hb Hsh Hse]. split; try done.
    exists d. split_and!; try done. eapply seg_ok_touches; [exact Ht'| |done].
    intros k Hin. rewrite (Hk k Hin). intros En%list_elem_of_singleton. congruence.
  - intros k. rewrite (ap_same_keys _ _ Hs). apply Hlk.
  - eapply same_fits; [exact Hs|]. eapply touches_fits; [exact Ht|done].
  - intros ap Hap. eapply touches_fits; [exact Ht|]. by apply Hdf.
Qed.

Lemma wp_io_log_append op b R E :
  clean w -> one_fault w -> frame_bytes op = Some b ->
  (forall s' w', io_step s s' -> touches (io_keys name) w w' ->
     io_ok (bs ++ b) sealed name v s' w' -> R tt s' w') ->
  (forall e s' w', io_step s s' -> touches (io_keys name) w w' ->
     io_ok bs sealed name v s' w' -> recoverable w' -> E (Some e) s' w') ->
  (forall s' w' n, handles s s' -> io_ok (bs ++ take n b) sealed name v s' w' -> E None s' w') ->
  wp (on_log (log_append op)) R E s w.
Proof.
  intros Hc Ho Hb HR HE HD. apply wp_zoom, wp_bind.
  rewrite frame_prefix, Hb. cbn [app of_result]. apply wp_ret. apply wp_intro.
  intros o ap' w' Ea. pose proof (ap_append_spec _ _ _ _ _ _ Ea Hc) as (Hs & Ht & Hres).
  rewrite (io_log _ _ _ _ _ _ Hio) in Hres. destruct o as [[]|e|].
  - destruct (log_io_step _ _ _ Hs Ht Hres) as (? & ? & ?). by apply HR.
  - destruct (log_io_step _ _ _ Hs Ht Hres) as (? & ? & ?). apply HE; try done.
    eapply ap_append_fail; [exact Ea|done|apply Hio].
  - destruct Hres as [n Hres]. destruct (log_io_step _ _ _ Hs Ht Hres) as (? & ? & ?).
    apply (HD _ _ n); [by apply is_handles|done].
Qed.

Lemma wp_io_log_truncate bs0 added R E :
  recoverable w -> bs = bs0 ++ added ->
  (forall s' w', io_step s s' -> touches (io_keys name) w w' -> recoverable w' ->
     io_ok bs0 sealed name v s' w' -> R tt s' w') ->
  wp (on_log (log_truncate_to (length bs0))) R E s w.
Proof.
  intros Hrec Hbs HR. apply wp_zoom. unfold log_truncate_to. apply wp_intro. intros o ap' w' Et.
  assert (length bs0 <= length (ap_contents (st_log s) w))%nat as Hlen
    by (rewrite (io_log _ _ _ _ _ _ Hio), Hbs, length_app; lia).
  destruct (ap_truncate_recover (length bs0) (st_log s) w) as (ap1 & w1 & E1);
    [done|apply Hio|done|].
  rewrite E1 in Et. injection Et as <- <- <-.
  pose proof (ap_truncate_spec _ _ _ _ _ _ E1 Hlen) as (Hs & Ht & Hres).
  rewrite (io_log _ _ _ _ _ _ Hio), Hbs, take_app_length in Hres.
  destruct (log_io_step _ _ _ Hs Ht Hres) as (? & ? & ?). apply HR; try done.
  by eapply touches_recoverable.
Qed.

Lemma wp_io_log_sync R E :
  one_fault w ->
  (forall s' w', io_step s s' -> touches (io_keys name) w w' -> io_ok bs sealed name v s' w' ->
     R tt s' w') ->
  (forall e s' w', io_step s s' -> touches (io_keys name) w w' -> io_ok bs sealed name v s' w' ->
     (e <> None -> recoverable w') -> E e s' w') ->
  wp (on_log log_sync) R E s w.
Proof.
  intros Ho HR HE. apply wp_zoom. unfold log_sync. apply wp_intro. intros o ap' w' Es.
  pose proof (ap_sync_spec _ _ _ _ _ Es) as (Hs & Ht & Hc & _).
  rewrite (io_log _ _ _ _ _ _ Hio) in Hc. destruct (log_io_step _ _ _ Hs Ht Hc) as (? & ? & ?).
  destruct o as [[]|e|]; [by apply HR|apply HE; try done..].
  intros _. eapply ap_sync_fail; [exact Es|done|apply Hio].
Qed.

Lemma wp_io_log_offset R E :
  (forall s' w', io_step s s' -> touches (io_keys name) w w' -> io_ok bs sealed name v s' w' ->
     R (length bs) s' w') ->
  (forall e s' w', io_step s s' -> touches (io_keys name) w w' -> io_ok bs sealed name v s' w' ->
     E e s' w') ->
  wp (on_log log_offset) R E s w.
Proof.
  intros HR HE. apply wp_zoom. unfold log_offset. apply wp_ap_len.
  - intros w' Ht. rewrite (io_log _ _ _ _ _ _ Hio).
    destruct (log_io_step (st_log s) bs w') as (? & ? & ?);
      [apply ap_same_refl|by apply touches_weaken| |].
    { rewrite (touches_nil_contents _ _ _ Ht). apply Hio. }
    by apply HR.
  - intros e w' Ht _.
    destruct (log_io_step (st_log s) bs w') as (? & ? & ?);
      [apply ap_same_refl|by apply touches_weaken| |].
    { rewrite (touches_nil_contents _ _ _ Ht). apply Hio. }
    by apply HE.
Qed.
End io.
