(* ===== verification/Upsert.v ===== *)
(** * Upsert: the batch insert is all or nothing

    What a batch appends ([stage], [batch_vectors]) and the triple of
    [upsert_batch]: it returns with everything committed, fails with nothing
    changed, or dies leaving a prefix of its bytes. *)
From S2P Require Import Std Analyzer FtsStore.
From S2P Require Import Prelude Floats Model Config TextPred Filter Literal Findex.
From S2P Require Import Backend Codec Log Data IndexCache Manifest Segments Lease Replay Store.
From S2P Require Import StoreWrite StoreOk.

(** ** What a batch writes *)

Definition normed (should_normalize : bool) (v : list f32) : list f32 :=
  if should_normalize then normalize v else v.

(** The rows of one record's vectors, from [row] on. *)
Fixpoint place (row : nat) (named : list (rstring * list f32)) (rows : gmap rstring nat)
  : gmap rstring nat :=
  match named with
  | [] => rows
  | nv :: named' => place (S row) named' (<[nv.1 := row]> rows)
  end.

Fixpoint stage (row : nat) (records : list VRecord) (per_record : list (gmap rstring (list f32)))
  : list (rstring * gmap rstring nat * attrs_map) :=
  match records, per_record with
  | rec :: records', named :: per_record' =>
      (rec_id rec, place row (bt_entries named) ∅, rec_attrs rec)
      :: stage (row + size named) records' per_record'
  | _, _ => []
  end.

Definition record_vectors (should_normalize : bool) (named : list (rstring * list f32)) : list f32 :=
  mjoin (map (fun nv => normed should_normalize nv.2) named).

Fixpoint batch_vectors (should_normalize : bool) (records : list VRecord)
    (per_record : list (gmap rstring (list f32))) : list f32 :=
  match records, per_record with
  | _ :: records', named :: per_record' =>
      record_vectors should_normalize (bt_entries named)
      ++ batch_vectors should_normalize records' per_record'
  | _, _ => []
  end.

(** The vectors handed to the store are [f32]s of its dimension. *)
Definition vectors_fit (dim : nat) (named : list (rstring * list f32)) : Prop :=
  Forall (fun nv => Forall is_f32 nv.2 /\ length nv.2 = dim) named.

Lemma normed_fit b v dim : Forall is_f32 v /\ length v = dim ->
  Forall is_f32 (normed b v) /\ length (normed b v) = dim.
Proof.
  intros [Hf Hl]. destruct b; [|done]. simpl. split; [by apply normalize_range|].
  by rewrite length_normalize.
Qed.

Lemma length_record_vectors b dim named :
  vectors_fit dim named -> length (record_vectors b named) = (length named * dim)%nat.
Proof.
  induction 1 as [|nv named Hnv _ IH]; [done|]. unfold record_vectors in *. simpl.
  rewrite length_app, IH. apply (normed_fit b) in Hnv as [_ ->]. done.
Qed.

Lemma place_app row named1 named2 rows :
  place row (named1 ++ named2) rows = place (row + length named1) named2 (place row named1 rows).
Proof.
  revert row rows. induction named1 as [|nv named1 IH]; intros row rows; simpl.
  - by rewrite Nat.add_0_r.
  - rewrite IH. f_equal. lia.
Qed.

(** A name's row is its position. *)
Lemma place_lookup (row : nat) (named : list (rstring * list f32)) (rows : gmap rstring nat)
    (i : nat) (name : rstring) (v : list f32) :
  NoDup named.*1 -> named !! i = Some (name, v) ->
  place row named rows !! name = Some (row + i)%nat.
Proof.
  revert row rows i. induction named as [|[n w] named IH]; intros row rows i Hnd Hi; [done|].
  apply NoDup_cons in Hnd as [Hn Hnd]. destruct i as [|i]; cbn [place fst snd] in *.
  - injection Hi as -> ->. clear IH. revert Hn. generalize (S row). rewrite Nat.add_0_r.
    assert ((<[name := row]> rows : gmap rstring nat) !! name = Some row) as E
      by apply lookup_insert_eq.
    revert E. generalize (<[name := row]> rows : gmap rstring nat).
    induction named as [|[n w'] named IH]; intros m E r Hn; [done|]. cbn [place fst].
    apply NoDup_cons in Hnd as [_ Hnd]. apply not_elem_of_cons in Hn as [Hne Hn].
    apply IH; [done| |done]. by rewrite lookup_insert_ne by done.
  - rewrite (IH (S row) _ i) by done. f_equal. lia.
Qed.

(** Every row handed out is new and inside the batch. *)
Lemma place_rows (row : nat) (named : list (rstring * list f32)) (name : rstring) (r : nat) :
  place row named ∅ !! name = Some r -> (row <= r < row + length named)%nat.
Proof.
  enough (forall rows : gmap rstring nat, place row named rows !! name = Some r ->
    rows !! name = Some r \/ (row <= r < row + length named)%nat) as H.
  { intros E. by destruct (H ∅ E) as [[=]|]. }
  revert row. induction named as [|nv named IH]; intros row rows E; simpl in *; [by left|].
  destruct (IH _ _ E) as [E'|?]; [|right; lia].
  destruct (decide (nv.1 = name)) as [<-|Hn].
  - rewrite lookup_insert_eq in E'. injection E' as <-. right. lia.
  - rewrite lookup_insert_ne in E' by done. by left.
Qed.

Lemma stage_length row records per_record :
  length records = length per_record -> length (stage row records per_record) = length records.
Proof.
  revert row per_record. induction records as [|rec records IH]; intros row [|named per_record] E;
    simpl in *; try done. f_equal. apply IH. lia.
Qed.

(** ** What committing a batch means for the index *)

Lemma existsb_rows_below (n : nat) (rows : gmap rstring nat) :
  (forall (k : rstring) (r : nat), rows !! k = Some r -> (r < n)%nat) ->
  existsb (fun nr => n <=? nr.2)%nat (bt_entries rows) = false.
Proof.
  intros Hr. apply not_true_iff_false. intros ([k r] & Hin & Hle)%existsb_exists.
  apply list_elem_of_In, elem_of_bt_entries in Hin. apply Hr in Hin. simpl in Hle. bdestr. lia.
Qed.

Lemma apply_staged_op (n : nat) (ix : Index) (collection id : rstring) (rows : gmap rstring nat)
    (attrs : attrs_map) :
  (forall (k : rstring) (r : nat), rows !! k = Some r -> (r < n)%nat) ->
  apply_op n ix (staged_op collection (id, rows, attrs)) =
  put_doc collection id {| de_rows := rows; de_attrs := attrs |} ix.
Proof.
  intros Hr. unfold staged_op. case_bool_decide as E; [by rewrite E|].
  cbn [apply_op]. rewrite existsb_rows_below by done. by rewrite collect_entries.
Qed.

(** What replay rebuilds: everything but the postings of the filter index. *)
Record same_docs (ix ix' : Index) : Prop := {
  sd_collections : ix_collections ix = ix_collections ix';
  sd_dead : ix_dead_rows ix = ix_dead_rows ix'
}.

Lemma same_docs_refl ix : same_docs ix ix.
Proof. done. Qed.
Lemma same_docs_put (c id : rstring) (e : DocEntry) (ix ix' : Index) :
  same_docs ix ix' -> same_docs (put_doc c id e ix) (put_doc c id e ix').
Proof. intros [E1 E2]. unfold put_doc. split; cbn; by rewrite E1, ?E2. Qed.
#[export] Hint Resolve same_docs_refl same_docs_put : nidus.

Lemma commit_staged_docs `{UnicodeAlnum} `{UnicodeLower} `{HashIter} (c : rstring) (fon on : bool) (ix ix' : Index) (id : rstring)
    (rows : gmap rstring nat) (attrs : attrs_map) :
  same_docs ix ix' ->
  same_docs (commit_staged c fon on ix (id, rows, attrs))
    (put_doc c id {| de_rows := rows; de_attrs := attrs |} ix').
Proof.
  intros [E1 E2]. unfold commit_staged, put_doc. destruct fon, on; split; cbn; by rewrite E1, ?E2.
Qed.

Lemma touch_present (c : rstring) (m : gmap rstring Collection) (col : Collection) : m !! c = Some col -> touch c m = m.
Proof. intros E. unfold touch, entry. rewrite E. by rewrite insert_id. Qed.

Lemma touch_put (c id : rstring) (e : DocEntry) (ix : Index) :
  put_doc c id e (set_collections (touch c (ix_collections ix)) ix) = put_doc c id e ix.
Proof.
  unfold put_doc, touch, entry. cbn. rewrite lookup_insert_eq. cbn.
  unfold set_collections, add_dead. cbn. by rewrite insert_insert_eq.
Qed.

(** Committing a batch and replaying its operations give the same documents. *)
Lemma commit_batch_replay `{UnicodeAlnum} `{UnicodeLower} `{HashIter} (c : rstring) (need_create : bool)
    (staged : list (rstring * gmap rstring nat * attrs_map)) (n : nat) (ix ix' : Index) :
  staged <> [] -> need_create = bool_decide (ix_collections ix !! c = None) ->
  same_docs ix ix' ->
  Forall (fun st => forall (k : rstring) (r : nat), st.1.2 !! k = Some r -> (r < n)%nat) staged ->
  same_docs (commit_batch c staged ix) (foldl (apply_op n) ix' (upsert_ops need_create c staged)).
Proof.
  intros Hne -> Hs Hst. unfold commit_batch, upsert_ops. rewrite foldl_app.
  set (fon := fts_active _). clearbody fon. set (on := is_active _). clearbody on.
  assert (same_docs (set_collections (touch c (ix_collections ix)) ix)
    (foldl (apply_op n) ix' (if bool_decide (ix_collections ix !! c = None)
       then [OpCreateCollection c] else []))) as Hs'.
  { destruct Hs as [E1 E2]. case_bool_decide as E; split; cbn; rewrite ?E1, ?E2; try done.
    rewrite <- E1. destruct (ix_collections ix !! c) as [col|] eqn:Ec; [|done].
    by apply (touch_present _ _ col). }
  revert Hs'. clear Hs Hne. generalize (set_collections (touch c (ix_collections ix)) ix).
  intros i Hi. revert i Hi.
  generalize (foldl (apply_op n) ix' (if bool_decide (ix_collections ix !! c = None)
       then [OpCreateCollection c] else [])).
  induction Hst as [|[[id rows] attrs] staged Hr _ IH]; intros j i Hi; [done|].
  cbn [map foldl]. apply IH. rewrite apply_staged_op by done. by apply commit_staged_docs.
Qed.

(** ** The triple of a batch *)

Lemma wp_or_undo {X A} (m : M X A) undo R (E : option err -> X -> World -> Prop) x w :
  wp m R (fun e x' w' => match e with
            | Some e => wp undo (fun _ x'' w'' => E (Some e) x'' w'') E x' w'
            | None => E None x' w'
            end) x w ->
  wp (or_undo m undo) R E x w.
Proof.
  intros H. apply wp_catch. eapply wp_conseq; [exact H|done|]. intros [e|] x' w'; [|done].
  intros Hu. apply wp_bind. eapply wp_conseq; [exact Hu|done|done].
Qed.

Lemma io_ok_same bs sealed name v s s' w :
  st_data s' = st_data s -> st_log s' = st_log s ->
  io_ok bs sealed name v s w -> io_ok bs sealed name v s' w.
Proof. intros Ed El [? ? ? ? ? ?]. split; by rewrite ?Ed, ?El. Qed.

(** Whether a batch ends by publishing a new manifest. *)
Definition announces (s : Store) : bool :=
  barrier_now s &&
  negb (st_in_memory s || bool_decide (c_open_mode (st_config s) = ReadOnly)) &&
  (c_cluster (st_config s) || negb (bool_decide (c_history_versions (st_config s) = None))).

Lemma note_commit_silent `{Crc32} `{Codec Manifest} `{Codec HistoryEntry} `{Codec HistoryFloor} s w :
  barrier_now s = true -> announces s = false -> note_commit_point s w = (Ret tt, s, w).
Proof.
  unfold announces. intros -> Ha. cbn [andb] in Ha. unfold note_commit_point, bind, get_st.
  destruct (_ || _) eqn:E1; [done|]. cbn [negb andb] in Ha.
  apply orb_false_iff in Ha as [-> Hh]. apply negb_false_iff in Hh. by rewrite Hh.
Qed.

Section batch.
Context `{Codec Op} `{Crc32} `{Codec Manifest} `{Codec HistoryEntry} `{Codec HistoryFloor}
  `{UnicodeAlnum} `{UnicodeLower} `{HashIter}.
Context (bs : bytes) (sealed : list Seg) (name : rstring) (v : list f32) (s0 : Store) (w0 : World).
Context (Hio0 : io_ok bs sealed name v s0 w0) (Hclean : clean w0) (Hone : one_fault w0).

Let dim := segments_dimension (st_data s0).
Let mark := segments_row_count (st_data s0).

(** The store inside the batch: [b] in the log and [mid] in the data so far. *)
Record inside (b : bytes) (mid : list f32) (s : Store) (w : World) : Prop := {
  in_io : io_ok (bs ++ b) sealed name (v ++ mid) s w;
  in_step : io_step s0 s;
  in_touches : touches (io_keys name) w0 w
}.

Lemma inside_start : inside [] [] s0 w0.
Proof. split; [by rewrite !app_nil_r|apply io_step_refl|apply touches_refl]. Qed.

Lemma inside_dim b mid s w : inside b mid s w -> segments_dimension (st_data s) = dim.
Proof. intros [_ Hs _]. apply (is_dimension _ _ Hs). Qed.

Lemma mark_length : (mark * dim = total_rows sealed * dim + length v)%nat.
Proof. apply (row_count_length _ _ _ _ _ (io_data _ _ _ _ _ _ Hio0)). Qed.

Lemma dim_pos : (0 < dim)%nat.
Proof.
  destruct (active_ok _ _ _ _ _ (io_data _ _ _ _ _ _ Hio0)) as (Hseg & Hdim & _).
  unfold dim. rewrite <- Hdim. apply (so_dim _ _ _ Hseg).
Qed.

Lemma inside_rows b mid s w n :
  inside b mid s w -> length mid = (n * dim)%nat -> segments_row_count (st_data s) = (mark + n)%nat.
Proof.
  intros Hin Hn. pose proof (row_count_length _ _ _ _ _ (io_data _ _ _ _ _ _ (in_io _ _ _ _ Hin))) as Hr.
  rewrite (inside_dim _ _ _ _ Hin), length_app, Hn in Hr. pose proof mark_length. pose proof dim_pos.
  nia.
Qed.

Lemma inside_next b mid s w b' mid' s' w' :
  inside b mid s w -> io_step s s' -> touches (io_keys name) w w' ->
  io_ok (bs ++ b') sealed name (v ++ mid') s' w' -> inside b' mid' s' w'.
Proof.
  intros [_ Hs Ht] Hs' Ht' Hio. split; [done|by eapply io_step_trans|by eapply touches_trans].
Qed.

Lemma inside_clean b mid s w : inside b mid s w -> clean w /\ one_fault w.
Proof. intros [_ _ Ht]. split; [by eapply touches_clean|by eapply touches_one_fault]. Qed.

(** Taking the rows back. *)
Lemma wp_undo_data b mid s w R E :
  inside b mid s w -> recoverable w ->
  (forall s' w', inside b [] s' w' -> R tt s' w') ->
  wp (on_data (segments_truncate_to mark)) R E s w.
Proof.
  intros Hin Hrec HR. eapply (wp_io_truncate _ _ _ _ _ _ (in_io _ _ _ _ Hin) v mid); try done.
  - rewrite (inside_dim _ _ _ _ Hin). apply mark_length.
  - intros s' w' Hs Ht _ Hio. apply HR. eapply inside_next; try done. by rewrite app_nil_r.
Qed.

Lemma wp_rollback b mid s w R E :
  inside b mid s w -> recoverable w ->
  (forall s' w', inside [] [] s' w' -> R tt s' w') ->
  wp (rollback mark (length bs)) R E s w.
Proof.
  intros Hin Hrec HR. apply wp_bind.
  eapply (wp_io_log_truncate _ _ _ _ _ _ (in_io _ _ _ _ Hin) bs b); try done.
  intros s1 w1 Hs Ht Hrec1 Hio. eapply (wp_undo_data [] mid); [|done..].
  eapply inside_next; try done. by rewrite app_nil_r.
Qed.

(** The three exits of the batch before it commits. *)
Definition aborted (bn : bytes) (vn : list f32) (e : option err) (s : Store) (w : World) : Prop :=
  match e with Some _ => inside [] [] s w | None => handles s0 s /\ crash bs bn v vn s w end.

Lemma wp_append_vectors b n named mid rest rows s w bn R :
  inside [] mid s w -> length mid = (n * dim)%nat -> vectors_fit dim named ->
  (forall s' w', inside [] (mid ++ record_vectors b named) s' w' ->
     R (place (mark + n) named rows) s' w') ->
  wp (append_vectors mark b named rows) R
    (aborted bn (mid ++ record_vectors b named ++ rest)) s w.
Proof.
  revert n mid rows s w. induction named as [|[nm vec] named IH]; intros n mid rows s w Hin Hn Hv HR.
  - apply wp_ret, HR. by rewrite app_nil_r.
  - apply Forall_cons in Hv as [Hvec Hv]. apply (normed_fit b) in Hvec as [Hf Hl].
    cbn [append_vectors fst snd] in *. fold (normed b vec). apply wp_bind, wp_or_undo.
    destruct (inside_clean _ _ _ _ Hin) as [Hc Ho].
    apply (wp_io_append _ _ _ _ _ _ (in_io _ _ _ _ Hin)); try done.
    + by rewrite (inside_dim _ _ _ _ Hin).
    + intros s' w' Hs Ht Hio. rewrite (inside_rows _ _ _ _ n Hin Hn).
      change (record_vectors b ((nm, vec) :: named)) with (normed b vec ++ record_vectors b named).
      rewrite <- app_assoc, (app_assoc mid).
      apply (IH (S n)); [|rewrite length_app, Hn, Hl; lia|done|].
      { eapply inside_next; try done. by rewrite app_nil_r, app_assoc in *. }
      intros s2 w2 Hin2. rewrite Nat.add_succ_r. apply HR.
      change (record_vectors b ((nm, vec) :: named)) with (normed b vec ++ record_vectors b named).
      by rewrite app_assoc.
    + intros e s' w' Hs Ht Hio Hrec. eapply (wp_undo_data [] mid); [by eapply inside_next|done|].
      done.
    + intros s' w' Hh Hl' Ht. rewrite app_nil_r in Hl'.
      split; [eapply handles_trans, Hh; apply is_handles, Hin|].
      change (record_vectors b ((nm, vec) :: named)) with (normed b vec ++ record_vectors b named).
      rewrite <- app_assoc. by apply crash_torn.
Qed.

Lemma wp_append_records b n records per_record mid staged s w bn R :
  inside [] mid s w -> length mid = (n * dim)%nat ->
  Forall (fun named => vectors_fit dim (bt_entries named)) per_record ->
  (forall s' w', inside [] (mid ++ batch_vectors b records per_record) s' w' ->
     R (staged ++ stage (mark + n) records per_record) s' w') ->
  wp (append_records mark b records per_record staged) R
    (aborted bn (mid ++ batch_vectors b records per_record)) s w.
Proof.
  revert n per_record mid staged s w.
  induction records as [|rec records IH]; intros n [|named per_record] mid staged s w Hin Hn Hv HR;
    [apply wp_ret; specialize (HR s w); cbn [stage batch_vectors] in HR;
     rewrite !app_nil_r in HR; by apply HR..|].
  apply Forall_cons in Hv as [Hnm Hv]. cbn [append_records batch_vectors stage] in *. apply wp_bind.
  apply (wp_append_vectors b n); try done. intros s' w' Hin'.
  pose proof (length_record_vectors b _ _ Hnm) as Hlr. rewrite length_bt_entries in Hlr.
  rewrite app_assoc. apply (IH (n + size named)%nat); [done| |done|].
  { rewrite length_app, Hn, Hlr. lia. }
  intros s2 w2 Hin2. rewrite <- (app_assoc staged). cbn [app]. rewrite (Nat.add_assoc mark n).
  apply HR. by rewrite app_assoc.
Qed.

(** [undo] takes the batch back, whatever of it is in the log. *)
Definition undoes (undo : M Store unit) (mid : list f32) : Prop :=
  forall b s w (R : unit -> Store -> World -> Prop) E, inside b mid s w -> recoverable w ->
    (forall s' w', inside [] [] s' w' -> R tt s' w') -> wp undo R E s w.

Lemma rollback_undoes mid : undoes (rollback mark (length bs)) mid.
Proof. intros b s w R E. apply wp_rollback. Qed.

Lemma log_truncate_undoes : undoes (on_log (log_truncate_to (length bs))) [].
Proof.
  intros b s w R E Hin Hrec HR.
  eapply (wp_io_log_truncate _ _ _ _ _ _ (in_io _ _ _ _ Hin) bs b); try done.
  intros s1 w1 Hs Ht _ Hio. apply HR. eapply inside_next; try done. by rewrite app_nil_r.
Qed.

(** Phase 3, the log records. *)
Lemma wp_append_ops {A} (g : A -> Op) (l : list A) undo mid bn s w R :
  undoes undo mid -> inside [] mid s w -> frames (map g l) = Some bn ->
  (forall s' w', inside bn mid s' w' -> R tt s' w') ->
  wp (for_each l (fun a => or_undo (append_op (g a)) undo)) R (aborted bn mid) s w.
Proof.
  intros Hundo Hin Hf HR.
  pose (I := fun rest s w => exists b1 b2 : bytes,
    frames (map g rest) = Some b2 /\ bn = b1 ++ b2 /\ inside b1 mid s w).
  apply (wp_conseq _ (fun _ => I []) _ (aborted bn mid)); [|clear - HR|done]; cycle 1.
  - intros [] s' w' (b1 & b2 & [= <-] & -> & Hin'). apply HR. by rewrite app_nil_r.
  - apply (wp_for_each _ I); [by exists [], bn|].
    clear s w Hin Hf HR. intros a rest s' w' (b1 & b2 & Hf & -> & Hin).
    apply bind_Some in Hf as (b & Hb & (b3 & Hb3 & [= <-])%bind_Some).
    destruct (inside_clean _ _ _ _ Hin) as [Hc Ho]. apply wp_or_undo.
    apply (wp_io_log_append _ _ _ _ _ _ (in_io _ _ _ _ Hin) (g a) b); try done.
    + intros s2 w2 Hs Ht Hio. exists (b1 ++ b), b3. rewrite <- app_assoc. split_and!; try done.
      eapply inside_next; try done. by rewrite app_assoc.
    + intros e s2 w2 Hs Ht Hio Hrec. eapply Hundo; [by eapply inside_next|done|done].
    + intros s2 w2 n Hh Hio. split; [eapply handles_trans, Hh; apply is_handles, Hin|].
      eapply (crash_whole _ _ sealed name _ _ (length b1 + Nat.min n (length b))).
      rewrite <- app_assoc in Hio. rewrite take_app_ge by lia.
      rewrite Nat.add_comm, Nat.add_sub, take_app_le by lia.
      destruct (decide (n <= length b)%nat); [by rewrite Nat.min_l by lia|].
      rewrite Nat.min_r by lia. rewrite firstn_all. by rewrite firstn_all2 in Hio by lia.
Qed.

(** ** The batch as a whole *)

Section whole.
Context (bn : bytes) (vn : list f32) (commit : Index -> Index).

Definition unchanged (s : Store) (w : World) : Prop :=
  io_ok bs sealed name v s w /\ io_step s0 s.

Definition committed (s : Store) (w : World) : Prop :=
  io_ok (bs ++ bn) sealed name (v ++ vn) s w /\
  io_step (with_index (commit (st_index s0)) s0) s.

(** How a batch may stop short of returning: with nothing changed; with the
    batch committed but not announced; or with the process gone. *)
Definition stopped (e : option err) (s : Store) (w : World) : Prop :=
  match e with
  | Some _ => unchanged s w \/ (announces s0 = true /\ committed s w)
  | None => handles s0 s /\ crash bs bn v vn s w
  end.

Lemma aborted_stopped e s w : aborted bn vn e s w -> stopped e s w.
Proof.
  destruct e; [|done]. intros [Hio Hs _]. left. rewrite !app_nil_r in Hio.
  by split.
Qed.

(** A failed or fatal sync. *)
Lemma wp_batch_sync {A} (m : M Store A) b R s w (undo : M Store unit) k :
  b = take k bn -> inside b vn s w ->
  (forall R' (E' : option err -> Store -> World -> Prop),
     (forall a s' w', io_step s s' -> touches (io_keys name) w w' ->
        io_ok (bs ++ b) sealed name (v ++ vn) s' w' -> R' a s' w') ->
     (forall e s' w', io_step s s' -> touches (io_keys name) w w' ->
        io_ok (bs ++ b) sealed name (v ++ vn) s' w' -> (e <> None -> recoverable w') -> E' e s' w') ->
     wp m R' E' s w) ->
  undoes undo vn ->
  (forall a s' w', inside b vn s' w' -> R a s' w') ->
  wp (or_undo m undo) R stopped s w.
Proof.
  intros Hb Hin Hm Hu HR. apply wp_or_undo. apply Hm.
  - intros a s' w' Hs Ht Hio. apply HR. by eapply inside_next.
  - intros [e|] s' w' Hs Ht Hio Hrec.
    + eapply Hu; [by eapply inside_next|by apply Hrec|]. intros s2 w2 Hin2.
      by apply (aborted_stopped (Some e)).
    + rewrite Hb in Hio. split; [|by eapply crash_whole].
      eapply handles_trans; [apply is_handles, Hin|by apply is_handles].
Qed.

(** Phase 5 and the announcement of the commit point. *)
Lemma wp_batch_commit f (n : nat) s w :
  inside bn vn s w -> f (st_index s0) = commit (st_index s0) ->
  wp (do* modify_index f in do* when (barrier_now s0) note_commit_point in ret n)%m
    (fun n' s w => n' = n /\ committed s w) stopped s w.
Proof.
  intros [Hio Hs Ht] Hf. apply wp_bind, wp_modify, wp_bind.
  set (s1 := with_index _ s).
  assert (committed s1 w) as Hcom.
  { split; [by eapply io_ok_same, Hio|]. rewrite <- Hf. by apply io_step_index. }
  assert (forall s' w', soft s1 s' -> meta_step w w' -> committed s' w') as Hsoft.
  { intros s' w' Hs' Hm. destruct Hcom as [Hio' Hix]. split; [by eapply io_ok_soft|].
    eapply io_step_trans; [done|by apply soft_io_step]. }
  apply wp_when; [|by intros _; apply wp_ret]. intros Hb.
  assert (barrier_now s1 = barrier_now s0 /\ announces s1 = announces s0) as [Eb Ea].
  { unfold announces, barrier_now. cbn. by rewrite (is_config _ _ Hs), (is_defer _ _ Hs),
      (is_memory _ _ Hs). }
  destruct (announces s0) eqn:Ha; cycle 1.
  { apply wp_intro. intros o s' w' E. rewrite note_commit_silent in E by (by rewrite ?Eb).
    injection E as <- <- <-. by apply wp_ret. }
  eapply wp_conseq; [apply softly_wp, softly_note_commit|..]; cbn beta.
  - intros [] s' w' [Hs' Hm]. apply wp_ret. split; [done|]. by apply Hsoft.
  - intros [e|] s' w' [Hs' Hm]; [right; split; [done|by apply Hsoft]|].
    split; [eapply handles_trans, soft_handles, Hs'; apply (is_handles _ _ Hs)|].
    apply (crash_whole _ _ sealed name _ _ (length bn)). rewrite firstn_all. by apply Hsoft.
Qed.

(** Phases 3 and 4, then the rest [K]. *)
Lemma wp_log_phases {A B} (g : A -> Op) (l : list A) undo (K : M Store B) R s w :
  undoes undo vn -> inside [] vn s w -> frames (map g l) = Some bn ->
  (forall s' w', inside bn vn s' w' -> wp K R stopped s' w') ->
  wp (do* for_each l (fun a => or_undo (append_op (g a)) undo) in
      do* (if barrier_now s0 then or_undo (on_log log_sync) undo
           else modify (with_pending_barrier true)) in K)%m R stopped s w.
Proof.
  intros Hundo Hin Hops HK. apply wp_bind.
  eapply wp_conseq; [apply (wp_append_ops g l undo _ _ _ _ (fun _ => inside bn vn) Hundo Hin Hops);
    done| |apply aborted_stopped].
  clear s w Hin. intros [] s w Hin. apply wp_bind. destruct (inside_clean _ _ _ _ Hin) as [_ Ho].
  destruct (barrier_now s0) eqn:Hb.
  - apply (wp_batch_sync _ bn _ _ _ _ (length bn)); [by rewrite firstn_all|done| |done|].
    + intros R' E' HR HE. apply (wp_io_log_sync _ _ _ _ _ _ (in_io _ _ _ _ Hin)); try done.
      by intros s' w'; apply HR.
    + intros [] s' w' Hin'. by apply HK.
  - apply wp_modify, HK. destruct Hin as [Hio Hs Ht].
    split; [by eapply io_ok_same, Hio| |done]. destruct Hs. by split.
Qed.

(** Reading the log's length first. *)
Lemma wp_log_mark {A} (K : nat -> M Store A) R :
  (forall s w, inside [] [] s w -> wp (K (length bs)) R stopped s w) ->
  wp (bind (on_log log_offset) K) R stopped s0 w0.
Proof.
  intros HK. apply wp_bind. apply (wp_io_log_offset _ _ _ _ _ _ Hio0).
  - intros s w Hs Ht Hio. apply HK. split; rewrite ?app_nil_r; done.
  - intros [e|] s w Hs Ht Hio; [|by split; [apply is_handles|by eapply crash_none]].
    apply (aborted_stopped (Some e)). split; rewrite ?app_nil_r; done.
Qed.
End whole.

Lemma wp_upsert_batch (collection : rstring) (need_create : bool) (records : list VRecord)
    (per_record : list (gmap rstring (list f32))) (bn : bytes) :
  Forall (fun named => vectors_fit dim (bt_entries named)) per_record ->
  let staged := stage mark records per_record in
  let vn := batch_vectors (bool_decide (c_distance (st_config s0) = Cosine)) records per_record in
  frames (upsert_ops need_create collection staged) = Some bn ->
  wp (upsert_batch collection need_create records per_record)
    (fun n s w => n = length staged /\ committed bn vn (commit_batch collection staged) s w)
    (stopped bn vn (commit_batch collection staged)) s0 w0.
Proof.
  intros Hfit staged vn Hops. apply wp_bind, wp_get_st, wp_log_mark. fold mark.
  intros s w Hin. apply wp_bind.
  eapply wp_conseq; [apply (wp_append_records _ 0 records per_record [] [] s w bn
    (fun st s' w' => st = staged /\ inside [] vn s' w') Hin eq_refl Hfit)| |apply aborted_stopped].
  { intros s' w'. rewrite Nat.add_0_r. by split. }
  clear s w Hin. intros ? s w [-> Hin]. cbv zeta. apply wp_bind.
  rewrite <- (map_id (upsert_ops _ _ _)) in Hops.
  pose proof (fun s w Hin => wp_log_phases bn vn (commit_batch collection staged) (fun op => op)
    (upsert_ops need_create collection staged) (rollback mark (length bs)) _ _ s w
    (rollback_undoes vn) Hin Hops
    (fun s' w' Hin' => wp_batch_commit bn vn _ (commit_batch collection staged) (length staged) s' w'
       Hin' eq_refl)) as Hrest.
  apply wp_when; [|by intros _; apply Hrest].
  intros Hb. destruct (inside_clean _ _ _ _ Hin) as [_ Ho]. apply wp_or_undo.
  apply (wp_io_sync _ _ _ _ _ _ (in_io _ _ _ _ Hin)); [done|..].
  - intros s' w' Hs Ht Hio. apply Hrest. by eapply inside_next.
  - intros [e|] s' w' Hs Ht Hio Hrec.
    + eapply wp_undo_data; [by eapply inside_next|by apply Hrec|]. intros s2 w2 Hin2.
      by apply (aborted_stopped _ _ _ (Some e)).
    + split; [eapply handles_trans; [apply is_handles, Hin|by apply is_handles]|].
      apply (crash_whole _ _ sealed name _ _ 0). by rewrite take_0.
Qed.
End batch.
