(* ===== verification/Atomic.v ===== *)
(** * Atomic: what [upsert] promises ([src/src/store/write.rs])

    The whole handler against its specification [upsert_plan]: the operations
    and the rows a batch adds.  [store_ok] is the invariant of an open store:
    its log holds the frames of the operations committed so far and its index
    is their replay. *)
From S2P Require Import Std Analyzer FtsStore.
From S2P Require Import Prelude Floats Model Config TextPred Filter Literal Findex.
From S2P Require Import Backend Codec Log Data IndexCache Manifest Segments Lease Replay Store.
From S2P Require Import StoreWrite StoreOk Upsert.

(** ** Accepted records *)

(** All the vectors of a record, the default one under its reserved name. *)
Definition rec_named (rec : VRecord) : gmap rstring (list f32) :=
  match rec_vector rec with
  | Some v => <[DEFAULT_VECTOR := v]> (rec_vectors rec)
  | None => rec_vectors rec
  end.

Record accepted (dim : nat) (declared : list rstring) (rec : VRecord) : Prop := {
  ac_reserved : rec_vectors rec !! DEFAULT_VECTOR = None;
  ac_default : forall v : list f32, rec_vector rec = Some v -> length v = dim;
  ac_named : forall (nm : rstring) (v : list f32),
    rec_vectors rec !! nm = Some v -> length v = dim /\ nm ∈ declared
}.

Lemma of_try_each (dim : nat) (declared : list rstring) (l : list (rstring * list f32)) :
  try_for_each (fun nv =>
    if negb (length nv.2 =? dim)%nat then Err EInvalid
    else if negb (bool_decide (nv.1 ∈ declared)) then Err EInvalid
    else Ok tt) l = Ok tt <->
  Forall (fun nv => length nv.2 = dim /\ nv.1 ∈ declared) l.
Proof.
  rewrite try_for_each_ok. apply Forall_proper; [|done]. intros [nm v]. cbn [fst snd].
  destruct (length v =? dim)%nat eqn:E; cbn [negb]; bdestr; [|naive_solver].
  case_bool_decide; cbn [negb]; naive_solver.
Qed.

Lemma validate_record_ok (dim : nat) (declared : list rstring) (rec : VRecord)
    (named : gmap rstring (list f32)) :
  validate_record dim declared rec = Ok named <->
  named = rec_named rec /\ accepted dim declared rec.
Proof.
  unfold validate_record. case_bool_decide as Hd.
  { split; [done|]. intros [_ [E _ _]]. rewrite E in Hd. by destruct Hd. }
  apply eq_None_not_Some in Hd.
  destruct (match rec_vector rec with Some v => negb (length v =? dim)%nat | None => false end) eqn:Ev.
  { split; [done|]. intros [_ [_ E _]]. destruct (rec_vector rec) as [v|]; [|done].
    rewrite (E v eq_refl), Nat.eqb_refl in Ev. done. }
  set (r := try_for_each _ _). pose proof (of_try_each dim declared (bt_entries (rec_vectors rec))) as Hr.
  fold r in Hr. destruct r as [[]|e]; cbn [res_bind].
  - destruct Hr as [Hr _]. specialize (Hr eq_refl). rewrite Forall_forall in Hr. split.
    + intros [= <-]. split; [done|]. split; [done| |].
      * intros v E. rewrite E in Ev. apply negb_false_iff in Ev. by bdestr.
      * intros nm v E%elem_of_bt_entries. by apply (Hr (nm, v)).
    + by intros [-> _].
  - split; [done|]. intros [_ [_ _ Hn]]. exfalso. enough (Err (E := err) (A := unit) e = Ok tt) by done.
    apply Hr, Forall_forall. intros [nm v] E%elem_of_bt_entries. by apply Hn.
Qed.

(** The validation of a record: it is accepted exactly when it does not name the
    reserved vector, all its vectors have the store's dimension and every
    other name is declared; what the batch then stores is all its vectors. *)
Theorem validate_record_spec (dim : nat) (declared : list rstring) (rec : VRecord) :
  (validate_record dim declared rec = Ok (rec_named rec) /\ accepted dim declared rec) \/
  (validate_record dim declared rec = Err EInvalid /\ ~ accepted dim declared rec).
Proof.
  pose proof (validate_record_ok dim declared rec) as Hv.
  destruct (validate_record dim declared rec) as [named|e] eqn:E.
  - left. by destruct (proj1 (Hv named) eq_refl) as [-> ?].
  - right. split.
    + clear Hv. unfold validate_record in E. case_bool_decide; [congruence|].
      destruct (match rec_vector rec with Some v => _ | None => _ end); [congruence|].
      destruct (try_for_each _ _) as [[]|e'] eqn:Et; cbn in E; [done|]. injection E as <-. f_equal.
      revert Et. induction (bt_entries (rec_vectors rec)) as [|nv l IH]; [done|]. cbn [try_for_each].
      destruct (negb (length nv.2 =? dim)%nat); [congruence|].
      destruct (negb _); [congruence|done].
    + intros Ha. by pose proof (proj2 (Hv _) (conj eq_refl Ha)).
Qed.

Lemma validate_records_ok dim declared records pr :
  validate_records dim declared records = Ok pr ->
  pr = map rec_named records /\ Forall (accepted dim declared) records.
Proof.
  revert pr. induction records as [|rec records IH]; intros pr E; cbn in E.
  - injection E as <-. by split.
  - destruct (validate_record dim declared rec) as [named|e] eqn:E1; [|done].
    apply validate_record_ok in E1 as [-> Ha]. cbn in E.
    destruct (validate_records dim declared records) as [rest|e]; [|done]. cbn in E.
    injection E as <-. destruct (IH _ eq_refl) as [-> Hf]. split; [done|by constructor].
Qed.

(** The caller's vectors are [f32]s. *)
Definition rec_f32 (rec : VRecord) : Prop :=
  forall (nm : rstring) (v : list f32), rec_named rec !! nm = Some v -> Forall is_f32 v.

Lemma accepted_fit dim declared records :
  Forall rec_f32 records -> Forall (accepted dim declared) records ->
  Forall (fun named => vectors_fit dim (bt_entries named)) (map rec_named records).
Proof.
  intros Hf Ha. apply Forall_map. rewrite Forall_forall in Hf, Ha. apply Forall_forall.
  intros rec Hin. specialize (Hf rec Hin). specialize (Ha rec Hin). apply Forall_forall.
  intros [nm v] E%elem_of_bt_entries. split; [by apply (Hf nm)|]. revert E. unfold rec_named.
  destruct (rec_vector rec) as [d|] eqn:Ed; cbn [snd].
  - destruct (decide (DEFAULT_VECTOR = nm)) as [<-|Hne].
    + rewrite lookup_insert_eq. intros [= <-]. by apply (ac_default _ _ _ Ha).
    + rewrite lookup_insert_ne by done. by intros [? _]%(ac_named _ _ _ Ha).
  - by intros [? _]%(ac_named _ _ _ Ha).
Qed.

(** ** The specification *)

Definition cosine (s : Store) : bool := bool_decide (c_distance (st_config s) = Cosine).

Definition staged_of (s : Store) (records : list VRecord)
  : list (rstring * gmap rstring nat * attrs_map) :=
  stage (segments_row_count (st_data s)) records (map rec_named records).

(** The operations and the rows a batch adds. *)
Definition upsert_plan (s : Store) (collection : rstring) (records : list VRecord)
  : list Op * list f32 :=
  (upsert_ops (bool_decide (st_collections s !! collection = None)) collection (staged_of s records),
   batch_vectors (cosine s) records (map rec_named records)).

(** The active segment does not need sealing. *)
Definition not_due (s : Store) : Prop :=
  match c_segment_max_rows (st_config s) with
  | Some max => (active_rows (st_data s) < max)%nat
  | None => True
  end.

Lemma soft_plan s s1 c records : soft s s1 -> upsert_plan s1 c records = upsert_plan s c records.
Proof.
  intros Hs. unfold upsert_plan, staged_of, cosine, st_collections.
  by rewrite (sf_index _ _ Hs), (sf_config _ _ Hs), (soft_rows _ _ Hs).
Qed.

Lemma soft_due s s1 : soft s s1 -> not_due s -> not_due s1.
Proof.
  intros Hs. unfold not_due, active_rows. rewrite (sf_config _ _ Hs).
  fold (active_data (st_data s1)) (active_data (st_data s)). by rewrite (active_data_soft _ _ Hs).
Qed.

Lemma soft_announces s s1 : soft s s1 -> announces s1 = announces s.
Proof.
  intros Hs. unfold announces, barrier_now.
  by rewrite (sf_config _ _ Hs), (sf_defer _ _ Hs), (sf_memory _ _ Hs).
Qed.

Lemma meta_clean w w1 : meta_step w w1 -> clean w -> clean w1.
Proof.
  intros (_ & _ & [l El]) Hc. unfold clean in *. rewrite El in Hc. by apply Forall_app in Hc as [_ ?].
Qed.
Lemma meta_one_fault w w1 : meta_step w w1 -> one_fault w -> one_fault w1.
Proof.
  intros (_ & _ & [l El]) Ho l' f r E Hf. apply (Ho (l ++ l') f r); [|done].
  by rewrite El, E, app_assoc.
Qed.

(** ** The whole handler *)

Section upsert.
Context `{!Codec Op} `{!Crc32} `{!Codec Manifest} `{!Codec HistoryEntry} `{!Codec HistoryFloor}
  `{!Codec Z} `{!UnicodeAlnum} `{!UnicodeLower} `{!HashIter}.
Context (collection : rstring) (records : list VRecord).

Definition all_accepted (s : Store) : Prop :=
  Forall (accepted (segments_dimension (st_data s))
    (match st_collections s !! collection with Some c => cl_vector_names c | None => [] end)) records.

(** How the handler ends, the store having held [bs] and [v] in [s0]. *)
Definition upsert_post (bs bn : bytes) (sealed : list Seg) (name : rstring) (v : list f32)
    (s0 : Store) (o : outcome nat) (s : Store) (w : World) : Prop :=
  let done := all_accepted s0 /\ io_ok (bs ++ bn) sealed name (v ++ (upsert_plan s0 collection records).2) s w /\
    io_step (with_index (commit_batch collection (staged_of s0 records) (st_index s0)) s0) s in
  match o with
  | Ret n => n = length records /\ done
  | Fail _ => (io_ok bs sealed name v s w /\ io_step s0 s) \/ (announces s0 = true /\ done)
  | Dead => handles s0 s /\ (io_ok bs sealed name v s w \/
      (all_accepted s0 /\ crash bs bn v (upsert_plan s0 collection records).2 s w))
  end.

Lemma softly_at {A} (m : M Store A) bs bn sealed name v s0 w0 (R : A -> Store -> World -> Prop) :
  softly m -> io_ok bs sealed name v s0 w0 ->
  (forall a s w, soft s0 s -> meta_step w0 w -> R a s w) ->
  wp m R (fun e s w => match e with
                       | Some e => upsert_post bs bn sealed name v s0 (Fail e) s w
                       | None => upsert_post bs bn sealed name v s0 Dead s w
                       end) s0 w0.
Proof.
  intros Hm Hio HR. eapply wp_conseq; [by apply softly_wp| |]; cbn beta.
  - intros a s w [? ?]. by apply HR.
  - intros [e|] s w [Hs Ht]; pose proof (io_ok_soft _ _ _ _ _ _ _ _ Hs Ht Hio) as Hio'.
    + left. split; [done|by apply soft_io_step].
    + split; [by apply soft_handles|by left].
Qed.

(** The soft step before the batch does not show in its result. *)
Lemma soft_done bs bn sealed name v s0 s1 s w :
  soft s0 s1 ->
  committed bs sealed name v s1 bn (batch_vectors (cosine s1) records (map rec_named records))
    (commit_batch collection (staged_of s1 records)) s w ->
  io_ok (bs ++ bn) sealed name (v ++ (upsert_plan s0 collection records).2) s w /\
  io_step (with_index (commit_batch collection (staged_of s0 records) (st_index s0)) s0) s.
Proof.
  intros Hs [Hio Hix]. unfold upsert_plan, staged_of, cosine in *. cbn [snd].
  rewrite <- (sf_config _ _ Hs), <- (soft_rows _ _ Hs). split; [done|].
  eapply io_step_trans; [|exact Hix]. rewrite <- (sf_index _ _ Hs).
  pose proof (io_step_index (fun _ => commit_batch collection
    (stage (segments_row_count (st_data s1)) records (map rec_named records)) (st_index s1))
    _ _ (soft_io_step _ _ Hs)) as Hstep. done.
Qed.

Lemma stopped_post bs bn sealed name v s0 s1 e s w :
  soft s0 s1 -> all_accepted s0 ->
  stopped bs sealed name v s1 bn (batch_vectors (cosine s1) records (map rec_named records))
    (commit_batch collection (staged_of s1 records)) e s w ->
  match e with
  | Some e => upsert_post bs bn sealed name v s0 (Fail e) s w
  | None => upsert_post bs bn sealed name v s0 Dead s w
  end.
Proof.
  intros Hs Hacc Hst. destruct e as [e|]; cbn in *.
  - destruct Hst as [[Hio Hix]|(Ha & Hio & Hix)]; [left; split; [done|]|right].
    + eapply io_step_trans; [by apply soft_io_step|done].
    + rewrite <- (soft_announces _ _ Hs), Ha. split_and!; [done..| |]; by eapply soft_done.
  - unfold cosine. rewrite <- (sf_config _ _ Hs). destruct Hst as [Hh Hc].
    split; [eapply handles_trans; [by apply soft_handles|done]|by right].
Qed.

Lemma upsert_outcome bs bn sealed name v s w o s' w' :
  io_ok bs sealed name v s w -> clean w -> one_fault w -> not_due s ->
  records <> [] -> Forall rec_f32 records ->
  frames (upsert_plan s collection records).1 = Some bn ->
  upsert collection records s w = (o, s', w') ->
  upsert_post bs bn sealed name v s o s' w'.
Proof.
  intros Hio Hc Ho Hdue Hne Hf Hbn Hup.
  assert (wp (upsert collection records)
    (fun n s' w' => upsert_post bs bn sealed name v s (Ret n) s' w')
    (fun e s' w' => match e with
       | Some e => upsert_post bs bn sealed name v s (Fail e) s' w'
       | None => upsert_post bs bn sealed name v s Dead s' w'
       end) s w) as Hwp; [|unfold wp in Hwp; rewrite Hup in Hwp; by destruct o].
  unfold upsert. apply wp_bind. apply softly_at; [apply softly_check_writable|done|].
  intros _ s1 w1 Hs Ht. apply wp_bind, wp_get_st. cbv zeta.
  pose proof (io_ok_soft _ _ _ _ _ _ _ _ Hs Ht Hio) as Hio1.
  assert (forall e, upsert_post bs bn sealed name v s (Fail e) s1 w1) as Hfail.
  { left. split; [done|]. by apply soft_io_step. }
  unfold st_collections. rewrite (sf_index _ _ Hs), (soft_dimension _ _ Hs).
  fold (st_collections s). apply wp_bind, wp_of_result; [|done].
  intros pr [-> Hacc]%validate_records_ok. fold (all_accepted s) in Hacc. rewrite bool_decide_eq_false_2 by done.
  apply wp_bind. unfold maybe_seal. apply wp_bind, wp_get_st.
  pose proof (soft_due _ _ Hs Hdue) as Hdue1. unfold not_due in Hdue1.
  assert (wp (match c_segment_max_rows (st_config s1) with
    | Some max => if (max <=? active_rows (st_data s1))%nat
        then (let* sealed := on_data segments_seal in if sealed then persist_manifest else ret tt)%m
        else ret tt
    | None => ret tt end) (fun _ s' w' => s' = s1 /\ w' = w1) (fun _ _ _ => False) s1 w1) as Hseal.
  { destruct (c_segment_max_rows (st_config s1)) as [max|]; [|by apply wp_ret].
    rewrite (proj2 (Nat.leb_gt _ _)) by done. by apply wp_ret. }
  eapply wp_conseq; [exact Hseal| |done]. intros [] ? ? [-> ->]. apply wp_bind, wp_get_st.
  destruct (match c_max_vector_bytes (st_config s1) with Some cap => _ | None => false end);
    [by apply wp_throw|].
  pose proof (accepted_fit _ _ _ Hf Hacc) as Hfit.
  eapply wp_conseq; [apply (wp_upsert_batch bs sealed name v s1 w1 Hio1)| |].
  - by eapply meta_clean.
  - by eapply meta_one_fault.
  - by rewrite (soft_dimension _ _ Hs).
  - rewrite <- Hbn. unfold upsert_plan, staged_of. by rewrite (soft_rows _ _ Hs).
  - cbn beta. intros n s2 w2 (-> & Hcom). split_and!; [|done|by eapply soft_done..].
    apply stage_length. by rewrite length_map.
  - intros e s2 w2. by apply stopped_post.
Qed.
End upsert.

(** ** The rows of a batch *)

Lemma length_batch_vectors b dim records named :
  length records = length named ->
  Forall (fun n => vectors_fit dim (bt_entries n)) named ->
  length (batch_vectors b records named) = (vector_count named * dim)%nat.
Proof.
  revert records. induction named as [|n named IH]; intros [|rec records] Hl Hf; try done.
  apply Forall_cons in Hf as [Hn Hf]. cbn [batch_vectors].
  rewrite length_app, (length_record_vectors b dim), length_bt_entries, (IH records) by (done || (cbn in Hl; lia)).
  change (vector_count (n :: named)) with (size n + vector_count named)%nat. lia.
Qed.

Lemma stage_below row records named :
  length records = length named ->
  Forall (fun st => forall (k : rstring) (r : nat), st.1.2 !! k = Some r ->
    (r < row + vector_count named)%nat) (stage row records named).
Proof.
  revert row named. induction records as [|rec records IH]; intros row [|n named] Hl; try done.
  cbn [stage]. constructor.
  - intros k r Hk%place_rows. rewrite length_bt_entries in Hk.
    change (vector_count (n :: named)) with (size n + vector_count named)%nat. lia.
  - eapply Forall_impl; [apply IH; cbn in Hl; lia|]. cbn beta. intros st Hst k r Hk%Hst.
    change (vector_count (n :: named)) with (size n + vector_count named)%nat. lia.
Qed.

Lemma staged_in_rows n c need_create staged :
  Forall (fun st : rstring * gmap rstring nat * attrs_map =>
    forall (k : rstring) (r : nat), st.1.2 !! k = Some r -> (r < n)%nat) staged ->
  Forall (in_rows n) (upsert_ops need_create c staged).
Proof.
  intros Hst. apply Forall_app. split; [destruct need_create; repeat constructor|].
  apply Forall_map. eapply Forall_impl; [exact Hst|]. intros [[id rows] attrs] Hr. cbn in *.
  unfold in_rows. case_bool_decide; cbn [op_rows]; [constructor|].
  apply Forall_forall. intros r ([k r'] & -> & Hin%elem_of_bt_entries)%list_elem_of_fmap.
  by apply (Hr k).
Qed.

(** ** The invariant of an open store *)

Section store_ok.
Context `{!Codec Op} `{!Crc32} `{!Codec Manifest} `{!Codec HistoryEntry} `{!Codec HistoryFloor}
  `{!Codec Z} `{!UnicodeAlnum} `{!UnicodeLower} `{!HashIter}.

(** [ops] are the committed operations, [v] the vectors of the active segment,
    after the sealed ones. *)
Record store_ok (ops : list Op) (sealed : list Seg) (name : rstring) (v : list f32) (s : Store)
  (w : World) : Prop := {
  sk_bytes : exists bs, frames ops = Some bs /\ io_ok bs sealed name v s w;
  sk_rows : Forall (in_rows (segments_row_count (st_data s))) ops;
  sk_index : same_docs (st_index s) (replay_ops ops (segments_row_count (st_data s)))
}.

Lemma committed_store_ok ops bs bn sealed name v c records s w s' w' :
  store_ok ops sealed name v s w -> frames ops = Some bs -> io_ok bs sealed name v s w ->
  records <> [] ->
  Forall (fun n => vectors_fit (segments_dimension (st_data s)) (bt_entries n))
    (map rec_named records) ->
  frames (upsert_plan s c records).1 = Some bn ->
  io_ok (bs ++ bn) sealed name (v ++ (upsert_plan s c records).2) s' w' ->
  io_step (with_index (commit_batch c (staged_of s records) (st_index s)) s) s' ->
  store_ok (ops ++ (upsert_plan s c records).1) sealed name (v ++ (upsert_plan s c records).2) s' w' /\
  segments_row_count (st_data s')
  = (segments_row_count (st_data s) + vector_count (map rec_named records))%nat.
Proof.
  intros [_ Hrows Hidx] Hbs Hio Hne Hfit Hbn Hio' Hstep.
  pose proof (is_dimension _ _ Hstep) as Hdim. pose proof (is_index _ _ Hstep) as Hix. cbn in Hdim, Hix.
  set (named := map rec_named records) in *.
  assert (length records = length named) as Hlen by (unfold named; by rewrite length_map).
  assert (segments_row_count (st_data s')
    = (segments_row_count (st_data s) + vector_count named)%nat) as Hrc.
  { pose proof (row_count_length _ _ _ _ _ (io_data _ _ _ _ _ _ Hio)) as R1.
    pose proof (row_count_length _ _ _ _ _ (io_data _ _ _ _ _ _ Hio')) as R2.
    rewrite length_app, Hdim in R2. unfold upsert_plan in R2. cbn [snd] in R2. fold named in R2.
    rewrite (length_batch_vectors _ (segments_dimension (st_data s))) in R2 by done.
    destruct (active_ok _ _ _ _ _ (io_data _ _ _ _ _ _ Hio)) as (Hseg & Hd & _).
    destruct (so_dim _ _ _ Hseg) as [Hpos _]. rewrite Hd in Hpos. nia. }
  split; [|done].
  pose proof (stage_below (segments_row_count (st_data s)) records named Hlen) as Hbelow.
  fold named (staged_of s records) in Hbelow. rewrite <- Hrc in Hbelow.
  assert (Forall (in_rows (segments_row_count (st_data s'))) ops) as Hrows'.
  { eapply Forall_impl; [exact Hrows|]. intros op. apply in_rows_mono. lia. }
  split.
  - exists (bs ++ bn). split; [|done]. by rewrite frames_app, Hbs, Hbn.
  - apply Forall_app. split; [done|]. by apply staged_in_rows.
  - rewrite replay_app, (replay_in_rows _ (segments_row_count (st_data s))) by done.
    rewrite Hix. apply commit_batch_replay; [|done|done|done].
    unfold staged_of. intros E. apply (f_equal length) in E.
    rewrite stage_length in E by done. by destruct records.
Qed.

Lemma kept_store_ok ops bs sealed name v s w s' w' :
  store_ok ops sealed name v s w -> frames ops = Some bs -> io_ok bs sealed name v s w ->
  io_ok bs sealed name v s' w' -> io_step s s' -> store_ok ops sealed name v s' w'.
Proof.
  intros [_ Hrows Hidx] Hbs Hio Hio' Hs.
  assert (segments_row_count (st_data s') = segments_row_count (st_data s)) as Hrc.
  { pose proof (row_count_length _ _ _ _ _ (io_data _ _ _ _ _ _ Hio)) as R1.
    pose proof (row_count_length _ _ _ _ _ (io_data _ _ _ _ _ _ Hio')) as R2.
    rewrite (is_dimension _ _ Hs) in R2.
    destruct (active_ok _ _ _ _ _ (io_data _ _ _ _ _ _ Hio)) as (Hseg & Hd & _).
    destruct (so_dim _ _ _ Hseg) as [Hpos _]. rewrite Hd in Hpos. nia. }
  split; rewrite ?Hrc; [by exists bs|done|]. by rewrite (is_index _ _ Hs).
Qed.

(** The fault model: a failed write leaves nothing behind, and one call fails. *)
Definition one_clean_fault (w : World) : Prop := clean w /\ one_fault w.

Section theorem.
Context (ops : list Op) (sealed : list Seg) (name : rstring) (v : list f32).
Context (collection : rstring) (records : list VRecord) (s : Store) (w : World).

(** What the theorems on a batch ask: a sound store, at most one failing call,
    no seal due, a batch of [f32] vectors whose operations can be encoded. *)
Record batch_ready : Prop := {
  br_store : store_ok ops sealed name v s w;
  br_fault : one_clean_fault w;
  br_due : not_due s;
  br_some : records <> [];
  br_f32 : Forall rec_f32 records;
  br_enc : is_Some (frames (upsert_plan s collection records).1)
}.

(** The store with the batch in it. *)
Definition batch_done (s' : Store) (w' : World) : Prop :=
  store_ok (ops ++ (upsert_plan s collection records).1) sealed name
    (v ++ (upsert_plan s collection records).2) s' w' /\
  st_index s' = commit_batch collection (staged_of s records) (st_index s).

Lemma batch_outcome o s' w' :
  batch_ready -> upsert collection records s w = (o, s', w') ->
  exists bs bn, frames ops = Some bs /\ frames (upsert_plan s collection records).1 = Some bn /\
    io_ok bs sealed name v s w /\ upsert_post collection records bs bn sealed name v s o s' w'.
Proof.
  intros [Hok [Hc Ho] Hdue Hne Hf [bn Hbn]] Hup. destruct (sk_bytes _ _ _ _ _ _ Hok) as (bs & Hbs & Hio).
  exists bs, bn. split_and!; try done. by eapply upsert_outcome.
Qed.

Lemma done_store bs bn s' w' :
  batch_ready -> frames ops = Some bs -> frames (upsert_plan s collection records).1 = Some bn ->
  io_ok bs sealed name v s w -> all_accepted collection records s ->
  io_ok (bs ++ bn) sealed name (v ++ (upsert_plan s collection records).2) s' w' ->
  io_step (with_index (commit_batch collection (staged_of s records) (st_index s)) s) s' ->
  batch_done s' w'.
Proof.
  intros Hr Hbs Hbn Hio Hacc Hio' Hstep. split; [|apply (is_index _ _ Hstep)].
  eapply committed_store_ok; try done; try apply Hr. by eapply accepted_fit, Hacc; apply Hr.
Qed.

(** C1: a batch is all or nothing, under [batch_ready]: the batch is not empty,
    of 32-bit floats and operations that can be framed; at most one call of
    the backend fails, and a call that fails but does not kill the process
    leaves nothing of its work; and the active segment is not due for sealing
    (an upsert that seals and cannot then write the manifest leaves a store
    that is not the one before).  When [upsert] returns, every record went
    in: the log is the old operations followed by exactly the batch's, the
    active segment the old rows followed by exactly the batch's, and the
    index is the replay of that log.  When it reports an error the store
    still is, in RAM and in its files, the store before, except for one case:
    a store that announces its commits (cluster or history) may fail to
    publish the manifest of a batch that is already committed. *)
Theorem upsert_atomic o s' w' :
  batch_ready -> upsert collection records s w = (o, s', w') ->
  match o with
  | Ret n => n = length records /\ batch_done s' w'
  | Fail _ => (store_ok ops sealed name v s' w' /\ st_index s' = st_index s) \/
              (announces s = true /\ batch_done s' w')
  | Dead => handles s s'
  end.
Proof.
  intros Hr Hup. destruct (batch_outcome _ _ _ Hr Hup) as (bs & bn & Hbs & Hbn & Hio & Hpost).
  destruct o as [n|e|].
  - destruct Hpost as (-> & Hacc & Hio' & Hstep). split; [done|]. by eapply done_store.
  - destruct Hpost as [[Hio' Hstep]|(Ha & Hacc & Hio' & Hstep)]; [left|right].
    + split; [|apply (is_index _ _ Hstep)]. eapply (kept_store_ok _ _ _ _ _ s w); try done. apply Hr.
    + split; [done|]. by eapply done_store.
  - apply Hpost.
Qed.
End theorem.
End store_ok.

(** ** A store on local files: one collection with a text, no row yet *)

Module Demo.
Import ToyCodec ToyManifest.

Definition ops : list Op :=
  [OpCreateCollection (lit "c"); OpUpsertText (lit "c") (lit "old") {[lit "k" := VInt 7]}].
Definition log_bytes : bytes := default [] (frames ops).

Definition world (faults : list fault) : World :=
  {| w_kind := LocalFs;
     w_objects := <[LOG_KEY := (log_bytes, 0%N)]> {[BASE_SEGMENT := (encode_header 2 Cosine, 1%N)]};
     w_next := 2; w_faults := faults; w_clock := [] |}.

Definition segment : DataSegment :=
  {| sg_dimension := 2; sg_distance := Cosine; sg_backing := Ram [];
     sg_appender := Some (ApFile BASE_SEGMENT) |}.
Definition segments : Segments :=
  {| ss_distance := Cosine; ss_persistence := true;
     ss_segs := [{| sn_name := BASE_SEGMENT; sn_data := segment |}];
     ss_base := [0%nat]; ss_next_id := 1; ss_version := 1; ss_cas := false |}.
Definition store : Store :=
  {| st_config := Config_new (lit "demo") 2; st_open_profile := OpenProfile_default;
     st_baseline_config := Config_new (lit "demo") 2; st_data := segments; st_log := ApFile LOG_KEY;
     st_persistence := true; st_lease := None; st_index := replay_ops ops 0; st_aliases := ∅;
     st_in_memory := false; st_loaded_log_offset := 0; st_manifest_cas := None; st_fenced := false;
     st_defer_barrier := false; st_pending_barrier := false; st_pinned := None;
     st_pruned_through := 0 |}.

(** A document with the vector (3, 4), and one without. *)
Definition records : list VRecord :=
  [Record_new (lit "a") [f32_of_Z 3; f32_of_Z 4] {[lit "k" := VInt 7]};
   Record_text_only (lit "b") ∅].

Lemma store_sound fs : store_ok ops [] BASE_SEGMENT [] store (world fs).
Proof.
  split.
  - exists log_bytes. split; [by vm_compute|]. split.
    + split; [exists segment|by vm_compute|by repeat constructor|by constructor].
      split_and!; [done| |done|by intros k ?%list_elem_of_singleton].
      split; [split; cbn; lia|done|by exists 0%nat|done|]. intros ap [= <-]. by vm_compute.
    + by vm_compute.
    + by intros k ?%list_elem_of_singleton.
    + split; [|by vm_compute]. intros [E|[E|E]]; by vm_compute in E.
    + done.
    + by intros ap [= <-].
  - by repeat constructor.
  - done.
Qed.

Lemma batch fs : one_clean_fault (world fs) ->
  batch_ready ops [] BASE_SEGMENT [] (lit "c") records store (world fs).
Proof.
  intros Hf. split; [apply store_sound|exact Hf|exact I|discriminate| |eexists; vm_compute; reflexivity].
  apply Forall_cons; split; [|apply Forall_cons; split; [|by apply Forall_nil]]; intros nm x Hx.
  - change (<[DEFAULT_VECTOR := [f32_of_Z 3; f32_of_Z 4]]> (∅ : gmap rstring (list f32)) !! nm = Some x)
      in Hx.
    apply lookup_insert_Some in Hx as [[_ <-]|[_ Hx]]; [|by rewrite lookup_empty in Hx].
    repeat (apply Forall_cons; split; [by vm_compute|]). by apply Forall_nil.
  - change ((∅ : gmap rstring (list f32)) !! nm = Some x) in Hx. by rewrite lookup_empty in Hx.
Qed.

Lemma quiet : one_clean_fault (world []).
Proof. split; [constructor|]. by intros [|? ?] g r E. Qed.

(** The last call of the script does not go through. *)
Lemma last_call n f : torn_fault f = false -> one_clean_fault (world (replicate n Fine ++ [f])).
Proof.
  intros Hf. split.
  - apply Forall_app. split; [by apply Forall_replicate|by repeat constructor].
  - intros l g r E Hg. cbn in E. apply app_eq_app in E as (k & [[E1 E2]|[E1 E2]]).
    + destruct k as [|g' k]; cbn in E2; injection E2 as -> ->; [constructor|]. exfalso. apply Hg.
      assert (g' ∈ replicate n Fine) as [? _]%elem_of_replicate; [|done].
      rewrite E1. apply elem_of_app. right. by left.
    + destruct k as [|g' k]; cbn in E2; injection E2 as E2 E3; [by rewrite <- E3; constructor|by destruct k].
Qed.
End Demo.

Section witness.
Import ToyCodec ToyManifest.
#[local] Existing Instance ascii_only_alnum.
#[local] Existing Instance ascii_only_lower.

(** The fourth call of the batch, a log append, fails. *)
Definition demo_faults : list fault := replicate 3 Fine ++ [Fails Whole].

Lemma upsert_atomic_witness :
  exists s' w', upsert (lit "c") Demo.records Demo.store (Demo.world demo_faults) = (Fail EIo, s', w') /\
    ((store_ok Demo.ops [] BASE_SEGMENT [] s' w' /\ st_index s' = st_index Demo.store) \/
     (announces Demo.store = true /\
      batch_done Demo.ops [] BASE_SEGMENT [] (lit "c") Demo.records Demo.store s' w')).
Proof.
  destruct (upsert (lit "c") Demo.records Demo.store (Demo.world demo_faults)) as [[o s'] w'] eqn:E.
  assert (o = Fail EIo) as -> by (by vm_compute in E; injection E).
  exists s', w'. split; [done|].
  exact (upsert_atomic Demo.ops [] BASE_SEGMENT [] (lit "c") Demo.records Demo.store
    (Demo.world demo_faults) _ s' w' (Demo.batch demo_faults (Demo.last_call 3 (Fails Whole) eq_refl)) E).
Defined.
End witness.
