(* ===== verification/ReadBack.v ===== *)
(** * ReadBack: a committed batch reads back

    After a successful [upsert] every record is found under its id with its
    attributes, and each of its vectors is in the row its name points to; no
    other document moves. *)
From S2P Require Import Std Analyzer FtsStore.
From S2P Require Import Prelude Floats Model Config TextPred Filter Literal Findex.
From S2P Require Import Backend Codec Log Data IndexCache Manifest Segments Lease Replay Store.
From S2P Require Import StoreWrite StoreOk Upsert Atomic.

(** ** The rows added to a matrix *)

Lemma row_added sealed name v added ss ss' w w' x :
  segments_ok sealed name v ss w -> segments_ok sealed name (v ++ added) ss' w' ->
  segments_dimension ss' = segments_dimension ss ->
  (S x * segments_dimension ss <= length added)%nat ->
  segments_row (segments_row_count ss + x) ss'
  = take (segments_dimension ss) (drop (x * segments_dimension ss) added).
Proof.
  intros Hok Hok' Hd Hx.
  pose proof (row_count_length _ _ _ _ _ Hok) as H1. pose proof (row_count_length _ _ _ _ _ Hok') as H2.
  rewrite length_app, Hd in H2.
  destruct (active_ok _ _ _ _ _ Hok) as (Hseg & Hdim & _).
  destruct (so_dim _ _ _ Hseg) as [Hpos _]. rewrite Hdim in Hpos.
  assert (segments_row_count ss + x < segments_row_count ss')%nat as Hlt by nia.
  rewrite (ok_row _ _ _ _ _ Hok') by done. rewrite (ok_matrix _ _ _ _ _ Hok'), Hd. f_equal.
  pose proof (ok_matrix _ _ _ _ _ Hok) as Hm.
  assert (length (concat_vectors (ss_segs ss)) = segments_row_count ss * segments_dimension ss)%nat as Hlen.
  { rewrite (ok_row_count _ _ _ _ _ Hok). by apply length_concat_vectors, (ok_shape _ _ _ _ _ Hok). }
  rewrite app_assoc, <- Hm, Nat.mul_add_distr_r, <- drop_drop.
  by rewrite drop_app_length' by done.
Qed.

(** ** Where a vector is in the rows of its batch *)

Lemma record_vectors_at (b : bool) (dim : nat) (named : list (rstring * list f32)) rest (j : nat)
    (nm : rstring) (vec : list f32) :
  vectors_fit dim named -> named !! j = Some (nm, vec) ->
  take dim (drop (j * dim) (record_vectors b named ++ rest)) = normed b vec.
Proof.
  intros Hfit. revert j. induction Hfit as [|nv named Hnv _ IH]; intros j Hj; [done|].
  change (record_vectors b (nv :: named)) with (normed b nv.2 ++ record_vectors b named).
  apply (normed_fit b) in Hnv as [_ Hl]. rewrite <- app_assoc. destruct j as [|j].
  - injection Hj as ->. cbn [Nat.mul snd] in *. by rewrite drop_0, take_app_length'.
  - cbn in Hj. rewrite Nat.mul_succ_l, Nat.add_comm, <- drop_drop, drop_app_length' by done. by apply IH.
Qed.

(** The [i]-th record: its staged entry, and its vectors among the batch's. *)
Lemma batch_at (b : bool) (dim row : nat) (records : list VRecord)
    (named : list (gmap rstring (list f32))) (i : nat)
    (rec : VRecord) (nm : gmap rstring (list f32)) :
  length records = length named ->
  Forall (fun n => vectors_fit dim (bt_entries n)) named ->
  records !! i = Some rec -> named !! i = Some nm ->
  exists k, stage row records named !! i
            = Some (rec_id rec, place (row + k) (bt_entries nm) ∅, rec_attrs rec) /\
    (k + size nm <= vector_count named)%nat /\
    forall (j : nat) (n : rstring) (vec : list f32), bt_entries nm !! j = Some (n, vec) ->
      take dim (drop ((k + j) * dim) (batch_vectors b records named)) = normed b vec.
Proof.
  revert row named i. induction records as [|r records IH]; intros row [|n0 named] i Hl Hfit Hr Hn; try done.
  apply Forall_cons in Hfit as [Hn0 Hfit]. injection Hl as Hl.
  change (vector_count (n0 :: named)) with (size n0 + vector_count named)%nat.
  cbn [stage batch_vectors]. destruct i as [|i].
  - injection Hr as ->. injection Hn as ->. exists 0%nat. rewrite Nat.add_0_r.
    split_and!; [done|lia|]. intros j n vec Hj. by apply (record_vectors_at _ _ _ _ _ n).
  - destruct (IH (row + size n0)%nat named i) as (k & Hst & Hk & Hv); try done.
    exists (size n0 + k)%nat. split_and!; [|lia|].
    + etrans; [exact Hst|]. by rewrite Nat.add_assoc.
    + intros j n vec Hj. rewrite <- Nat.add_assoc, Nat.mul_add_distr_r, <- drop_drop.
      rewrite drop_app_length'; [by apply (Hv j n)|].
      by rewrite (length_record_vectors b dim), length_bt_entries.
Qed.

(** ** The documents of a collection after a batch *)

Definition docs_of (staged : list (rstring * gmap rstring nat * attrs_map))
    (docs : gmap rstring DocEntry) : gmap rstring DocEntry :=
  foldl (fun m st => <[st.1.1 := {| de_rows := st.1.2; de_attrs := st.2 |}]> m) docs staged.

Lemma commit_batch_collections `{UnicodeAlnum} `{UnicodeLower} `{HashIter} (c : rstring) (staged : list (rstring * gmap rstring nat * attrs_map))
    (ix : Index) :
  ix_collections (commit_batch c staged ix)
  = <[c := set_docs (docs_of staged (cl_docs (entry c (ix_collections ix))))
             (entry c (ix_collections ix))]> (ix_collections ix).
Proof.
  unfold commit_batch. set (fon := fts_active _). clearbody fon. set (on := is_active _). clearbody on.
  set (ix0 := set_collections _ ix).
  assert (ix_collections ix0
    = <[c := set_docs (cl_docs (entry c (ix_collections ix))) (entry c (ix_collections ix))]>
        (ix_collections ix)) as Hix0.
  { cbn. unfold touch. by destruct (entry c (ix_collections ix)). }
  clearbody ix0. revert ix0 Hix0. generalize (cl_docs (entry c (ix_collections ix))).
  generalize (entry c (ix_collections ix)). intros col.
  induction staged as [|[[id rows] attrs] staged IH]; intros docs ix0 Hix0; [done|].
  cbn [foldl docs_of]. apply IH. unfold commit_staged, put_doc.
  destruct fon, on; cbn; rewrite Hix0; unfold entry;  rewrite lookup_insert_eq; cbn; by rewrite insert_insert_eq.
Qed.

Lemma docs_of_other (staged : list (rstring * gmap rstring nat * attrs_map))
    (docs : gmap rstring DocEntry) (id : rstring) :
  (forall st, st ∈ staged -> st.1.1 <> id) -> docs_of staged docs !! id = docs !! id.
Proof.
  revert docs. induction staged as [|st staged IH]; intros docs Hn; [done|]. cbn [docs_of foldl].
  unfold docs_of in IH. rewrite IH by (intros ? ?; apply Hn; by right).
  apply lookup_insert_ne, Hn. by left.
Qed.

Lemma docs_of_last (staged : list (rstring * gmap rstring nat * attrs_map))
    (docs : gmap rstring DocEntry) (i : nat) (st : rstring * gmap rstring nat * attrs_map) :
  staged !! i = Some st ->
  (forall j st', (i < j)%nat -> staged !! j = Some st' -> st'.1.1 <> st.1.1) ->
  docs_of staged docs !! st.1.1 = Some {| de_rows := st.1.2; de_attrs := st.2 |}.
Proof.
  revert docs i. induction staged as [|st0 staged IH]; intros docs i Hi Hlast; [done|].
  destruct i as [|i]; cbn in Hi.
  - injection Hi as ->. change (docs_of (st :: staged) docs)
      with (docs_of staged (<[st.1.1 := {| de_rows := st.1.2; de_attrs := st.2 |}]> docs)).
    rewrite docs_of_other; [apply lookup_insert_eq|].
    intros st' [j Hj]%list_elem_of_lookup. by apply (Hlast (S j)); [lia|].
  - apply (IH _ i Hi). intros j st' Hlt Hj. by apply (Hlast (S j)); [lia|].
Qed.

Lemma stage_ids row records named :
  length records = length named -> (stage row records named).*1.*1 = map rec_id records.
Proof.
  revert row named. induction records as [|r records IH]; intros row [|n named] Hl; try done.
  cbn. f_equal. apply IH. by injection Hl.
Qed.

Lemma place_none (row : nat) (named : list (rstring * list f32)) (rows : gmap rstring nat)
    (nm : rstring) :
  nm ∉ named.*1 -> place row named rows !! nm = rows !! nm.
Proof.
  revert row rows. induction named as [|nv named IH]; intros row rows Hn; [done|]. cbn [place].
  apply not_elem_of_cons in Hn as [Hne Hn]. rewrite IH by done. by apply lookup_insert_ne.
Qed.

(** The live document under an id. *)
Definition find_doc (s : Store) (collection id : rstring) : option DocEntry :=
  col ← st_collections s !! collection; cl_docs col !! id.

Section readback.
Context `{!Codec Op} `{!Crc32} `{!Codec Manifest} `{!Codec HistoryEntry} `{!Codec HistoryFloor}
  `{!Codec Z} `{!UnicodeAlnum} `{!UnicodeLower} `{!HashIter}.
Context (ops : list Op) (sealed : list Seg) (name : rstring) (v : list f32).
Context (collection : rstring) (records : list VRecord) (s : Store) (w : World).
Context (Hready : batch_ready ops sealed name v collection records s w).

(** The document of a record: its attributes, and a row per vector. *)
Definition reads_back (rec : VRecord) (s' : Store) : Prop :=
  exists e, find_doc s' collection (rec_id rec) = Some e /\ de_attrs e = rec_attrs rec /\
    forall nm : rstring,
      match rec_named rec !! nm with
      | Some vec => exists row, de_rows e !! nm = Some row /\
          segments_row row (st_data s') = normed (cosine s) vec
      | None => de_rows e !! nm = None
      end.

(** No later record of the batch has the id of the [i]-th. *)
Definition last_of_id (i : nat) (rec : VRecord) : Prop :=
  forall j rec', (i < j)%nat -> records !! j = Some rec' -> rec_id rec' <> rec_id rec.

Lemma find_doc_done s' (c id : rstring) :
  st_index s' = commit_batch collection (staged_of s records) (st_index s) ->
  find_doc s' c id =
    if decide (c = collection)
    then docs_of (staged_of s records)
           (cl_docs (entry collection (ix_collections (st_index s)))) !! id
    else find_doc s c id.
Proof.
  intros Hix. unfold find_doc, st_collections. rewrite Hix, commit_batch_collections.
  destruct (decide (c = collection)) as [->|Hne].
  - by rewrite lookup_insert_eq.
  - by rewrite lookup_insert_ne by done.
Qed.

Lemma staged_lookup i st : staged_of s records !! i = Some st ->
  exists rec, records !! i = Some rec /\ rec_id rec = st.1.1.
Proof.
  intros Hi. pose proof (stage_ids (segments_row_count (st_data s)) records (map rec_named records)
    ltac:(by rewrite length_map)) as Hids.
  apply (f_equal (fun l => l !! i)) in Hids. fold (staged_of s records) in Hids.
  rewrite !list_lookup_fmap, Hi in Hids. cbn in Hids. symmetry in Hids.
  apply fmap_Some in Hids as (rec & ? & ?). eauto.
Qed.

Lemma committed_reads_back bs bn s' w' i rec :
  io_ok bs sealed name v s w -> all_accepted collection records s ->
  io_ok (bs ++ bn) sealed name (v ++ (upsert_plan s collection records).2) s' w' ->
  io_step (with_index (commit_batch collection (staged_of s records) (st_index s)) s) s' ->
  records !! i = Some rec -> last_of_id i rec -> reads_back rec s'.
Proof.
  intros Hio Hacc Hio' Hstep Hi Hlast.
  pose proof (accepted_fit _ _ _ (br_f32 _ _ _ _ _ _ _ _ Hready) Hacc) as Hfit.
  assert (length records = length (map rec_named records)) as Hlen by (by rewrite length_map).
  assert (map rec_named records !! i = Some (rec_named rec)) as Hn
    by (by rewrite list_lookup_fmap, Hi).
  destruct (batch_at (cosine s) _ (segments_row_count (st_data s)) records _ i rec _ Hlen Hfit Hi Hn)
    as (k & Hst & Hk & Hvec).
  fold (staged_of s records) in Hst. unfold reads_back.
  rewrite (find_doc_done s') by apply (is_index _ _ Hstep). rewrite decide_True by done.
  eexists. split; [apply (docs_of_last _ _ i _ Hst)|].
  { intros j st' Hj (rec' & Hr & <-)%staged_lookup. by apply (Hlast j). }
  cbn [de_attrs de_rows fst snd]. split; [done|]. intros nm.
  destruct (rec_named rec !! nm) as [vec|] eqn:Enm; cycle 1.
  { rewrite place_none; [done|]. intros Hin%elem_of_bt_keys. by rewrite Enm in Hin; destruct Hin. }
  apply elem_of_bt_entries, list_elem_of_lookup in Enm as [j Hj].
  exists (segments_row_count (st_data s) + (k + j))%nat. split.
  { rewrite Nat.add_assoc. apply (place_lookup _ _ _ _ _ vec); [apply bt_keys_NoDup|done]. }
  rewrite <- (Hvec j nm vec Hj). pose proof (lookup_lt_Some _ _ _ Hj) as Hjlt.
  rewrite length_bt_entries in Hjlt.
  eapply row_added; [apply Hio|apply Hio'|apply (is_dimension _ _ Hstep)|].
  cbn [upsert_plan snd]. rewrite (length_batch_vectors _ (segments_dimension (st_data s))) by done.
  nia.
Qed.

(** C20: a successful batch reads back: each record, unless a later one of the batch has its
    id, is found in its collection with its attributes and exactly its vectors,
    normalised when the store's metric is cosine; every other document and
    every row written before is what it was. *)
Theorem upsert_reads_back n s' w' :
  upsert collection records s w = (Ret n, s', w') ->
  (forall i rec, records !! i = Some rec -> last_of_id i rec -> reads_back rec s') /\
  (forall c id : rstring, c <> collection \/ id ∉ map rec_id records ->
     find_doc s' c id = find_doc s c id) /\
  (forall g, (g < segments_row_count (st_data s))%nat ->
     segments_row g (st_data s') = segments_row g (st_data s)).
Proof.
  intros Hup.
  destruct (batch_outcome _ _ _ _ _ _ _ _ _ _ _ Hready Hup)
    as (bs & bn & Hbs & Hbn & Hio & -> & Hacc & Hio' & Hstep).
  split; [|split].
  - intros i rec. by eapply committed_reads_back.
  - intros c id Hne. rewrite (find_doc_done s') by apply (is_index _ _ Hstep).
    destruct (decide (c = collection)) as [->|Hc]; [|done].
    destruct Hne as [?|Hid]; [done|]. rewrite docs_of_other.
    + unfold find_doc, st_collections, entry.
      by destruct (ix_collections (st_index s) !! collection).
    + intros st [i (rec & Hr & <-)%staged_lookup]%list_elem_of_lookup E. apply Hid. rewrite <- E.
      apply (list_elem_of_fmap_2 rec_id). by eapply list_elem_of_lookup_2.
  - intros g Hg. eapply row_prefix; [apply Hio|apply Hio'|apply (is_dimension _ _ Hstep)|done|].
    destruct (active_ok _ _ _ _ _ (io_data _ _ _ _ _ _ Hio)) as (Hseg & Hd & _).
    destruct (so_dim _ _ _ Hseg) as [Hpos _]. rewrite Hd in Hpos.
    pose proof (row_count_length _ _ _ _ _ (io_data _ _ _ _ _ _ Hio)) as Hr1.
    pose proof (row_count_length _ _ _ _ _ (io_data _ _ _ _ _ _ Hio')) as Hr2.
    rewrite (is_dimension _ _ Hstep), length_app in Hr2.
    change (segments_dimension (st_data (with_index _ s))) with (segments_dimension (st_data s)) in Hr2.
    nia.
Qed.
End readback.

Section witness.
Import ToyCodec ToyManifest.
#[local] Existing Instance ascii_only_alnum.
#[local] Existing Instance ascii_only_lower.

Lemma upsert_reads_back_witness :
  exists s' w',
    upsert (lit "c") Demo.records Demo.store (Demo.world []) = (Ret 2%nat, s', w') /\
    (forall i rec, Demo.records !! i = Some rec -> last_of_id Demo.records i rec ->
       reads_back (lit "c") Demo.store rec s') /\
    (forall c id : rstring, c <> lit "c" \/ id ∉ map rec_id Demo.records ->
       find_doc s' c id = find_doc Demo.store c id) /\
    (forall g, (g < segments_row_count (st_data Demo.store))%nat ->
       segments_row g (st_data s') = segments_row g (st_data Demo.store)) /\
    segments_row 0 (st_data s') = [0x3F19999A; 0x3F4CCCCD]%Z.
Proof.
  destruct (upsert (lit "c") Demo.records Demo.store (Demo.world [])) as [[o s'] w'] eqn:E.
  assert (o = Ret 2%nat) as -> by (by vm_compute in E; injection E).
  pose proof (upsert_reads_back Demo.ops [] BASE_SEGMENT [] (lit "c") Demo.records Demo.store
    (Demo.world []) (Demo.batch [] Demo.quiet) 2 s' w' E) as (H1 & H2 & H3).
  exists s', w'. split_and!; [done|exact H1|exact H2|exact H3|].
  vm_compute in E. injection E as <- _. by vm_compute.
Defined.
End witness.
