(* ===== verification/Recovery.v ===== *)
(** * Recovery: what a store finds after the process died in an upsert

    [crash] describes the bytes the dead process left; the lemmas here run the
    open path of the log and of the active segment over them. *)
From S2P Require Import Std Analyzer FtsStore.
From S2P Require Import Prelude Floats Model Config TextPred Filter Literal Findex.
From S2P Require Import Backend Codec Log Data IndexCache Manifest Segments Lease Replay Store.
From S2P Require Import StoreWrite StoreOk Upsert Atomic.

(** The machine is up again: the objects are there, the faults are over. *)
Definition reboot (w : World) : World :=
  {| w_kind := w_kind w; w_objects := w_objects w; w_next := w_next w; w_faults := [];
     w_clock := w_clock w |}.

(** The log and the active segment are local files. *)
Definition on_files (name : rstring) (s : Store) : Prop :=
  st_log s = ApFile LOG_KEY /\ sg_appender (active_data (st_data s)) = Some (ApFile name).

Lemma handles_files name s s' : handles s s' -> on_files name s -> on_files name s'.
Proof.
  intros [Hl (_ & _ & Hd)] [El Ed]. rewrite El in Hl. rewrite Ed in Hd. split.
  - destruct (st_log s'); try done. cbn in Hl. by subst.
  - destruct (sg_appender (active_data (st_data s'))) as [[]|]; try done. cbn in Hd. by subst.
Qed.

(** A prefix of the bytes of some rows is a prefix of the rows and less than a
    row more. *)
Lemma cut_rows dim m (vn : list f32) j :
  (0 < dim)%nat -> length vn = (m * dim)%nat ->
  exists r torn, (r <= m)%nat /\ (length torn < row_stride dim)%nat /\
    ((m * dim * 4 <= j)%nat -> r = m) /\
    take j (floats_to_bytes vn) = floats_to_bytes (take (r * dim) vn) ++ torn.
Proof.
  intros Hd Hl. set (j' := Nat.min j (4 * (m * dim))).
  assert (take j (floats_to_bytes vn) = take j' (floats_to_bytes vn)) as ->.
  { unfold j'. destruct (decide (j <= 4 * (m * dim))%nat); [by rewrite Nat.min_l|].
    rewrite Nat.min_r by lia. rewrite !firstn_all2; rewrite ?length_floats_to_bytes; lia || done. }
  exists (j' / row_stride dim)%nat, (drop (4 * (j' / row_stride dim * dim)) (take j' (floats_to_bytes vn))).
  unfold row_stride. pose proof (Nat.div_mod j' (dim * 4)) as Hdm.
  pose proof (Nat.mod_upper_bound j' (dim * 4)) as Hmod.
  assert (j' / (dim * 4) <= m)%nat as Hr.
  { apply Nat.Div0.div_le_upper_bound. unfold j'. lia. }
  split_and!; [done| | |].
  - rewrite length_drop, length_take, length_floats_to_bytes, Hl. lia.
  - intros Hj. unfold j'. rewrite Nat.min_r by lia.
    replace (4 * (m * dim))%nat with (m * (dim * 4))%nat by lia. apply Nat.div_mul. lia.
  - rewrite <- take_floats_to_bytes.
    rewrite <- (take_drop (4 * (j' / (dim * 4) * dim)) (take j' (floats_to_bytes vn))) at 1.
    rewrite take_take, Nat.min_l by lia. done.
Qed.

Section recovery.
Context `{!Codec Op} `{!CodecLaws Op} `{!Crc32} `{!Crc32Laws}.

(** A log cut inside its last operations. *)
Lemma parse_crash ops bs newops bn k :
  frames ops = Some bs -> frames newops = Some bn ->
  exists ops1 bs1, ops1 `prefix_of` newops /\ frames ops1 = Some bs1 /\ (k = 0%nat -> ops1 = []) /\
    (length bs1 <= length (take k bn))%nat /\
    parse_all_frames (bs ++ take k bn) = Ok (ops ++ ops1, length (bs ++ bs1)).
Proof.
  intros Hbs Hbn. destruct (frames_cut newops bn k Hbn) as (ops1 & bs1 & Hp & Hf1 & Hcut).
  assert (frames (ops ++ ops1) = Some (bs ++ bs1)) as Happ by (by rewrite frames_app, Hbs, Hf1).
  assert (length bs1 <= length (take k bn))%nat as Hle.
  { destruct Hcut as [-> | (op & b & n & _ & _ & _ & ->)]; [done|]. rewrite length_app. lia. }
  exists ops1, bs1. split_and!; try done.
  - intros ->. rewrite take_0 in Hle. apply frames_length in Hf1. destruct ops1; [done|].
    cbn [length] in *. lia.
  - destruct Hcut as [<- | (op & b & n & _ & Hb & Hn & ->)].
    + by apply parse_frames.
    + rewrite app_assoc. by apply (parse_torn _ _ op).
Qed.

(** Reopening after a crash: a prefix of the new operations, a prefix of the new
    rows, and every row the former name is among the latter. *)
Lemma crash_reopens ops bs newops bn sealed name v m vn s w :
  frames ops = Some bs -> frames newops = Some bn ->
  name <> LOG_KEY ->
  (0 < sg_dimension (active_data (st_data s)))%nat ->
  (Z.of_nat (sg_dimension (active_data (st_data s))) < 2 ^ 32)%Z ->
  Forall is_f32 (v ++ vn) ->
  (exists rows, length v = (rows * sg_dimension (active_data (st_data s)))%nat /\
     Forall (in_rows (total_rows sealed + rows)) ops /\
     Forall (in_rows (total_rows sealed + (rows + m))) (ops ++ newops)) ->
  length vn = (m * sg_dimension (active_data (st_data s)))%nat ->
  on_files name s -> crash bs bn v vn s w ->
  exists ops1 v1 d w1 w2,
    ops1 `prefix_of` newops /\ v1 `prefix_of` vn /\
    log_open_with (ApFile LOG_KEY) (reboot w) = (Ret (ops ++ ops1), ApFile LOG_KEY, w1) /\
    data_open_with (ApFile name) (sg_dimension (active_data (st_data s)))
      (sg_distance (active_data (st_data s))) tt w1 = (Ret d, tt, w2) /\
    seg_ok (v ++ v1) d w2 /\
    Forall (in_rows (total_rows sealed + seg_row_count d)) (ops ++ ops1).
Proof.
  intros Hbs Hbn Hname Hd Hd32 Hf (rows & Hlen & Hin & Hin2) Hm [Hlog Happ] (k & j & Hcl & Hcd & Hkj).
  set (dim := sg_dimension (active_data (st_data s))) in *.
  set (dist := sg_distance (active_data (st_data s))) in *.
  rewrite Hlog in Hcl. specialize (Hcd _ Happ). cbn [ap_contents] in Hcl, Hcd.
  destruct (parse_crash ops bs newops bn k Hbs Hbn) as (ops1 & bs1 & Hp & Hf1 & Hk0 & Hle & Hparse).
  destruct (log_open_parsed LOG_KEY (reboot w) (ops ++ ops1) (length (bs ++ bs1)) (bs ++ take k bn))
    as (w1 & Elog & _ & _ & Ht); [done|exact Hcl|done|rewrite !length_app; lia|].
  destruct (cut_rows dim m vn j Hd Hm) as (r & torn & Hr & Htorn & Hfull & Ecut).
  set (v1 := take (r * dim) vn).
  assert (object w1 name = Some (file_bytes dim dist (v ++ v1) torn)) as Hobj.
  { rewrite (touches_object _ _ _ _ Ht) by (by intros ->%list_elem_of_singleton).
    change (object (reboot w) name) with (object w name).
    rewrite Ecut in Hcd. destruct (object w name) as [b|].
    - cbn in Hcd. rewrite Hcd. unfold file_bytes. by rewrite floats_to_bytes_app, !app_assoc.
    - cbn in Hcd. pose proof (length_encode_header dim dist) as L.
      destruct (encode_header dim dist); done. }
  assert (length (v ++ v1) = ((rows + r) * dim)%nat) as Hlv.
  { rewrite length_app. unfold v1. rewrite length_take, Hlen, Hm. nia. }
  assert (v1 `prefix_of` vn) as Hv1 by apply prefix_take.
  assert (Forall is_f32 (v ++ v1)) as Hf1'.
  { apply Forall_app in Hf as [? Hfn]. apply Forall_app. split; [done|]. by apply Forall_take. }
  assert (w_faults w1 = []) as Hw1.
  { destruct Ht as (_ & _ & [l El]). cbn in El. by destruct l. }
  assert (wp (data_open_with (ApFile name) dim dist)
    (fun d _ w2 => seg_ok (v ++ v1) d w2 /\ seg_row_count d = (rows + r)%nat) (fun _ _ _ => False) tt w1)
    as Hwp by (by apply (wp_data_open dim dist (v ++ v1) (rows + r) torn)).
  unfold wp in Hwp. destruct (data_open_with _ _ _ tt w1) as [[[d|e|] []] w2] eqn:Ed; [|done..].
  destruct Hwp as [Hok Hrc]. exists ops1, v1, d, w1, w2. split_and!; try done. rewrite Hrc.
  destruct Hkj as [-> | Hj].
  - rewrite (Hk0 eq_refl), app_nil_r. eapply Forall_impl; [exact Hin|]. intros op.
    apply in_rows_mono. lia.
  - rewrite Hfull by lia. destruct Hp as [rest ->]. rewrite app_assoc in Hin2.
    by apply Forall_app in Hin2 as [? _].
Qed.
End recovery.

Lemma batch_vectors_f32 b records :
  Forall rec_f32 records -> Forall is_f32 (batch_vectors b records (map rec_named records)).
Proof.
  induction 1 as [|rec records Hr _ IH]; [constructor|]. cbn [batch_vectors map].
  apply Forall_app. split; [|done]. unfold record_vectors.
  assert (Forall (fun nv : rstring * list f32 => Forall is_f32 nv.2) (bt_entries (rec_named rec))) as Hnv.
  { apply Forall_forall. intros [nm vec] Hin%elem_of_bt_entries. by apply (Hr nm). }
  induction Hnv as [|nv l Hv _ IHl]; [constructor|]. cbn. apply Forall_app. split; [|done].
  destruct b; [by apply normalize_range|done].
Qed.

Section crash.
Context `{!Codec Op} `{!CodecLaws Op} `{!Crc32} `{!Crc32Laws} `{!Codec Manifest}
  `{!Codec HistoryEntry} `{!Codec HistoryFloor} `{!Codec Z} `{!UnicodeAlnum} `{!UnicodeLower} `{!HashIter}.
Context (ops : list Op) (sealed : list Seg) (name : rstring) (v : list f32).
Context (collection : rstring) (records : list VRecord) (s : Store) (w : World).

(** What the next process finds: [ops1] and [v1] of the batch survived. *)
Definition reopened (ops1 : list Op) (v1 : list f32) (w' : World) : Prop :=
  exists d w1 w2,
    log_open_with (ApFile LOG_KEY) (reboot w') = (Ret (ops ++ ops1), ApFile LOG_KEY, w1) /\
    data_open_with (ApFile name) (segments_dimension (st_data s)) (ss_distance (st_data s)) tt w1
    = (Ret d, tt, w2) /\
    seg_ok (v ++ v1) d w2 /\
    let n := (total_rows sealed + seg_row_count d)%nat in
    Forall (in_rows n) (ops ++ ops1) /\
    replay_ops (ops ++ ops1) n
    = foldl (apply_op n) (replay_ops ops (segments_row_count (st_data s))) ops1.

(** C2: when the process dies inside [upsert] on local files, whatever call it
    was in, reopening succeeds: the log gives the operations committed before
    and a prefix of the batch's, the segment the rows of before and a prefix
    of the batch's, and no surviving operation names a row that is not there,
    so that the replay skips nothing. *)
Theorem upsert_crash_recovers s' w' :
  batch_ready ops sealed name v collection records s w -> on_files name s ->
  upsert collection records s w = (Dead, s', w') ->
  exists ops1 v1,
    ops1 `prefix_of` (upsert_plan s collection records).1 /\
    v1 `prefix_of` (upsert_plan s collection records).2 /\ reopened ops1 v1 w'.
Proof.
  intros Hr Hfiles Hup.
  destruct (batch_outcome _ _ _ _ _ _ _ _ _ _ _ Hr Hup) as (bs & bn & Hbs & Hbn & Hio & Hh & Hpost).
  destruct (active_ok _ _ _ _ _ (io_data _ _ _ _ _ _ Hio)) as (Hseg & Hdim & _).
  destruct (so_dim _ _ _ Hseg) as [Hpos H32]. destruct (so_whole _ _ _ Hseg) as [rows Hrows].
  assert (sg_distance (active_data (st_data s)) = ss_distance (st_data s)) as Hdist.
  { destruct (ok_segs _ _ _ _ _ (io_data _ _ _ _ _ _ Hio)) as (d & E & _ & <- & _).
    unfold active_data, active. by rewrite (last_index_snoc _ _ _ E), (seg_at_last _ _ _ E). }
  pose proof Hh as [_ (Hdim' & Hdist' & _)].
  pose proof (row_count_length _ _ _ _ _ (io_data _ _ _ _ _ _ Hio)) as Hrc.
  rewrite Hrows in Hrc. rewrite Hdim in *.
  assert (segments_row_count (st_data s) = total_rows sealed + rows)%nat as Hn by nia.
  pose proof (sk_rows _ _ _ _ _ _ (br_store _ _ _ _ _ _ _ _ Hr)) as Hin. rewrite Hn in Hin.
  pose proof (io_name _ _ _ _ _ _ Hio) as [_ Hname].
  pose proof (batch_vectors_f32 (cosine s) _ (br_f32 _ _ _ _ _ _ _ _ Hr)) as Hvn.
  pose proof (so_f32 _ _ _ Hseg) as Hv.
  assert (exists newops bn' m vn, newops `prefix_of` (upsert_plan s collection records).1 /\
    vn `prefix_of` (upsert_plan s collection records).2 /\ frames newops = Some bn' /\
    Forall is_f32 vn /\ length vn = (m * segments_dimension (st_data s))%nat /\
    Forall (in_rows (total_rows sealed + (rows + m))) newops /\ crash bs bn' v vn s' w')
    as (newops & bn' & m & vn & Hp & Hpv & Hfn & Hfv & Hm & Hin' & Hcrash).
  { destruct Hpost as [Hio'|[Hacc Hcrash]].
    - exists [], [], 0%nat, []. split_and!; try done; try apply prefix_nil. by eapply crash_none.
    - pose proof (accepted_fit _ _ _ (br_f32 _ _ _ _ _ _ _ _ Hr) Hacc) as Hfit.
      assert (length records = length (map rec_named records)) as Hlen by (by rewrite length_map).
      exists (upsert_plan s collection records).1, bn, (vector_count (map rec_named records)),
        (upsert_plan s collection records).2. split_and!; try done.
      + by apply length_batch_vectors.
      + apply staged_in_rows. rewrite Nat.add_assoc, <- Hn. by apply stage_below. }
  assert (Forall (in_rows (total_rows sealed + (rows + m))) ops) as Hin2.
  { eapply Forall_impl; [exact Hin|]. intros op. apply in_rows_mono. lia. }
  destruct (crash_reopens ops bs newops bn' sealed name v m vn s' w')
    as (ops1 & v1 & d & w1 & w2 & Hp1 & Hv1 & Elog & Edata & Hok & Hrows1); try done;
    rewrite ?Hdim', ?Hdim; try done.
  { by apply Forall_app. }
  { exists rows. split_and!; try done. by apply Forall_app. }
  { by eapply handles_files. }
  exists ops1, v1. split_and!; [by etrans|by etrans|]. exists d, w1, w2.
  rewrite Hdim', Hdist', Hdist in Edata. split_and!; try done. intros n. split; [done|].
  rewrite replay_app. f_equal. apply Forall_app in Hrows1 as [Hr1 _].
  apply replay_in_rows; [done|]. by rewrite Hn.
Qed.
End crash.

(** ** The process dies five bytes into the first row *)

Section witness.
Import ToyCodec ToyManifest.
#[local] Existing Instance ascii_only_alnum.
#[local] Existing Instance ascii_only_lower.

Definition fatal_append : list fault := replicate 1 Fine ++ [Dies (Part 5)].

Lemma upsert_crash_recovers_witness :
  exists s' w', upsert (lit "c") Demo.records Demo.store (Demo.world fatal_append) = (Dead, s', w') /\
    exists ops1 v1,
      ops1 `prefix_of` (upsert_plan Demo.store (lit "c") Demo.records).1 /\
      v1 `prefix_of` (upsert_plan Demo.store (lit "c") Demo.records).2 /\
      reopened Demo.ops [] BASE_SEGMENT [] Demo.store ops1 v1 w'.
Proof.
  destruct (upsert (lit "c") Demo.records Demo.store (Demo.world fatal_append)) as [[o s'] w'] eqn:E.
  assert (o = Dead) as -> by (by vm_compute in E; injection E).
  exists s', w'. split; [done|].
  exact (upsert_crash_recovers Demo.ops [] BASE_SEGMENT [] (lit "c") Demo.records Demo.store
    (Demo.world fatal_append) s' w'
    (Demo.batch fatal_append (Demo.last_call 1 (Dies (Part 5)) eq_refl)) (conj eq_refl eq_refl) E).
Defined.
End witness.
