(* ===== verification/LogOnly.v ===== *)
(** * LogOnly: batches that append no row ([src/src/store/write.rs])

    [reinforce] and [delete_where_all] append operations to the log, cross the
    barrier, and only then touch the index.  Both are all or nothing, and
    both leave the index the replay of the longer log. *)
From S2P Require Import Std Analyzer FtsStore.
From S2P Require Import Prelude Floats Model Config TextPred Filter Literal Findex.
From S2P Require Import Backend Codec Log Data IndexCache Manifest Segments Lease Replay Store.
From S2P Require Import StoreWrite StoreOk Upsert Atomic ReadBack.

(** ** Replay up to the postings *)

#[export] Instance same_docs_equiv : Equivalence same_docs.
Proof.
  split; [done|by intros ? ? [? ?]|].
  intros x y z [E1 E2] [E3 E4]. by split; [rewrite E1|rewrite E2].
Qed.

#[export] Instance apply_op_proper n : Proper (same_docs ==> eq ==> same_docs) (apply_op n).
Proof.
  intros ix ix' [E1 E2] op ? <-.
  destruct op; unfold apply_op, put_doc, remove_entry, stamp_doc, update_collection;
    rewrite <- ?E1; repeat (case_match || (split; cbn)); rewrite ?E1, ?E2; done.
Qed.

Lemma foldl_apply_proper n ix ix' ops :
  same_docs ix ix' -> same_docs (foldl (apply_op n) ix ops) (foldl (apply_op n) ix' ops).
Proof.
  revert ix ix'. induction ops as [|op ops IH]; intros ix ix' Hs; [done|]. cbn. apply IH.
  by rewrite Hs.
Qed.

Lemma set_docs_id col : set_docs (cl_docs col) col = col.
Proof. by destruct col. Qed.

Lemma insert_same_docs (c : rstring) (col : Collection) (ix : Index) :
  ix_collections ix !! c = Some col ->
  same_docs (set_collections (<[c := set_docs (cl_docs col) col]> (ix_collections ix)) ix) ix.
Proof. intros E. split; [|done]. cbn. by rewrite set_docs_id, insert_id. Qed.

Lemma has_doc_spec (c id : rstring) (ix : Index) :
  has_doc c id ix = true <->
  exists col e, ix_collections ix !! c = Some col /\ cl_docs col !! id = Some e.
Proof.
  unfold has_doc. destruct (ix_collections ix !! c) as [col|] eqn:E; [|naive_solver].
  rewrite bool_decide_eq_true. split; [intros [e He]; eauto|].
  intros (? & e & [= <-] & He). by exists e.
Qed.

Lemma apply_reinforce_absent n (c id : rstring) ac la ex ix :
  has_doc c id ix = false -> same_docs (apply_op n ix (OpReinforce c id ac la ex)) ix.
Proof.
  unfold has_doc. cbn [apply_op]. unfold stamp_doc.
  destruct (ix_collections ix !! c) as [col|] eqn:E; [|done]. intros Hn%bool_decide_eq_false.
  apply eq_None_not_Some in Hn. rewrite alter_id; [by apply insert_same_docs|].
  intros e He. congruence.
Qed.

Lemma apply_delete_absent n (c id : rstring) ix :
  has_doc c id ix = false -> same_docs (apply_op n ix (OpDelete c id)) ix.
Proof.
  unfold has_doc. cbn [apply_op]. unfold remove_entry.
  destruct (ix_collections ix !! c) as [col|] eqn:E; [|done]. intros Hn%bool_decide_eq_false.
  apply eq_None_not_Some in Hn. rewrite Hn, delete_id by done.
  split; [|cbn; lia]. cbn. by rewrite set_docs_id, insert_id.
Qed.

Lemma commit_stamp_replay `{UnicodeAlnum} `{UnicodeLower} `{HashIter} n (c : rstring) now fon on (acc : Index * nat) st :
  same_docs (commit_stamp c now fon on acc st).1 (apply_op n acc.1 (reinforce_op c now st)).
Proof.
  destruct st as [[id ac] ex]. unfold commit_stamp, reinforce_op.
  destruct (has_doc c id acc.1) eqn:Hd; [|by rewrite apply_reinforce_absent].
  cbn [apply_op fst]. case_match; [|done]. by destruct fon, on.
Qed.

Lemma stamps_replay `{UnicodeAlnum} `{UnicodeLower} `{HashIter} n (c : rstring) now fon on stamps (acc : Index * nat) ix :
  same_docs acc.1 ix ->
  same_docs (foldl (commit_stamp c now fon on) acc stamps).1
    (foldl (apply_op n) ix (map (reinforce_op c now) stamps)).
Proof.
  revert acc ix. induction stamps as [|st stamps IH]; intros acc ix Hs; [done|]. cbn [foldl map].
  apply IH. by rewrite (commit_stamp_replay n), Hs.
Qed.

Definition delete_op (ci : rstring * rstring) : Op := OpDelete ci.1 ci.2.

Lemma remove_doc_entry_docs `{UnicodeAlnum} `{UnicodeLower} `{HashIter} c id ix ix' :
  same_docs ix ix' -> same_docs (remove_doc_entry c id ix) (remove_entry c id ix').
Proof.
  intros [E1 E2]. unfold remove_doc_entry, remove_entry. cbn. rewrite E1.
  case_match; split; cbn; by rewrite ?E1, ?E2.
Qed.

Lemma sweep_replay `{UnicodeAlnum} `{UnicodeLower} `{HashIter} n targets ix0 ix count :
  same_docs ix0 ix ->
  same_docs (foldl (fun acc ci => if has_doc ci.1 ci.2 acc.1
      then (remove_doc_entry ci.1 ci.2 acc.1, S acc.2) else acc) (ix0, count) targets).1
    (foldl (apply_op n) ix (map delete_op targets)).
Proof.
  revert ix0 ix count. induction targets as [|[c id] targets IH]; intros ix0 ix count Hs; [done|].
  cbn [foldl map]. cbn [fst snd]. destruct (has_doc c id ix0) eqn:Hd; apply IH.
  - by apply remove_doc_entry_docs.
  - rewrite <- Hs. symmetry. by apply apply_delete_absent.
Qed.

(** ** The batch in general *)

Section logonly.
Context `{!Codec Op} `{!Crc32} `{!Codec Manifest} `{!Codec HistoryEntry} `{!Codec HistoryFloor}
  `{!Codec Z} `{!UnicodeAlnum} `{!UnicodeLower} `{!HashIter}.
Context (ops : list Op) (bs : bytes) (sealed : list Seg) (name : rstring) (v : list f32).

Lemma soft_committed bn vn commit s0 s1 s w :
  soft s0 s1 -> committed bs sealed name v s1 bn vn commit s w ->
  committed bs sealed name v s0 bn vn commit s w.
Proof.
  intros Hs [Hio Hstep]. split; [done|]. eapply io_step_trans; [|exact Hstep].
  by apply io_step_index, soft_io_step.
Qed.

Lemma soft_stopped bn vn commit s0 s1 e s w :
  soft s0 s1 -> stopped bs sealed name v s1 bn vn commit e s w ->
  stopped bs sealed name v s0 bn vn commit e s w.
Proof.
  intros Hs. destruct e as [e|]; cbn.
  - intros [[Hio Hstep]|[Ha Hcom]]; [left|right].
    + split; [done|]. eapply io_step_trans; [by apply soft_io_step|done].
    + rewrite <- (soft_announces _ _ Hs). split; [done|]. by eapply soft_committed.
  - intros [Hh Hc]. split; [|done]. eapply handles_trans; [by apply soft_handles|done].
Qed.

(** The writer check before a batch. *)
Lemma wp_checked {A} bn vn commit (m : M Store A) R s w :
  io_ok bs sealed name v s w ->
  (forall s1 w1, soft s s1 -> meta_step w w1 -> io_ok bs sealed name v s1 w1 ->
     wp m R (stopped bs sealed name v s bn vn commit) s1 w1) ->
  wp (do* check_writable in m)%m R (stopped bs sealed name v s bn vn commit) s w.
Proof.
  intros Hio HK. apply wp_bind.
  eapply wp_conseq; [apply softly_wp, softly_check_writable| |]; cbn beta.
  - intros [] s1 w1 [Hs Ht]. apply HK; try done. by eapply io_ok_soft.
  - intros e s1 w1 [Hs Ht]. pose proof (io_ok_soft _ _ _ _ _ _ _ _ Hs Ht Hio) as Hio1.
    destruct e as [e|].
    + left. split; [done|by apply soft_io_step].
    + split; [by apply soft_handles|by eapply crash_none].
Qed.

(** The store after a batch of operations that name no row. *)
Lemma log_store_ok newops bn ix' s w s' w' :
  store_ok ops sealed name v s w -> frames ops = Some bs -> io_ok bs sealed name v s w ->
  frames newops = Some bn -> Forall (fun op => op_rows op = []) newops ->
  io_ok (bs ++ bn) sealed name v s' w' -> io_step (with_index ix' s) s' ->
  (forall n, same_docs ix' (foldl (apply_op n) (st_index s) newops)) ->
  store_ok (ops ++ newops) sealed name v s' w'.
Proof.
  intros [_ Hrows Hidx] Hbs Hio Hbn Hnone Hio' Hstep Hsame.
  assert (segments_row_count (st_data s') = segments_row_count (st_data s)) as Hrc.
  { pose proof (row_count_length _ _ _ _ _ (io_data _ _ _ _ _ _ Hio)) as R1.
    pose proof (row_count_length _ _ _ _ _ (io_data _ _ _ _ _ _ Hio')) as R2.
    rewrite (is_dimension _ _ Hstep) in R2. cbn in R2.
    destruct (active_ok _ _ _ _ _ (io_data _ _ _ _ _ _ Hio)) as (Hseg & Hd & _).
    destruct (so_dim _ _ _ Hseg) as [Hpos _]. rewrite Hd in Hpos. nia. }
  split; rewrite ?Hrc.
  - exists (bs ++ bn). split; [|done]. by rewrite frames_app, Hbs, Hbn.
  - apply Forall_app. split; [done|]. eapply Forall_impl; [exact Hnone|].
    intros op E. unfold in_rows. by rewrite E.
  - rewrite (is_index _ _ Hstep). cbn [st_index with_index].
    rewrite replay_app, (Hsame (segments_row_count (st_data s))).
    by apply foldl_apply_proper.
Qed.
End logonly.

(** ** Reinforcement *)

Section reinforce.
Context `{!Codec Op} `{!Crc32} `{!Codec Manifest} `{!Codec HistoryEntry} `{!Codec HistoryFloor}
  `{!Codec Z} `{!UnicodeAlnum} `{!UnicodeLower} `{!HashIter} `{!RegexEngine} `{!HashOrder}.
Context (ops : list Op) (sealed : list Seg) (name : rstring) (v : list f32).
Context (s : Store) (w : World) (Hok : store_ok ops sealed name v s w) (Hfault : one_clean_fault w).
Context (collection : rstring) (ids : list rstring) (now_ms : Z) (extend : option Z).

Definition reinforce_stamps : list (rstring * Z * option Z) :=
  match st_collections s !! collection with
  | Some col => stamps_of col now_ms extend ids
  | None => []
  end.

Definition reinforce_ops : list Op := map (reinforce_op collection now_ms) reinforce_stamps.

(** The index after the stamps. *)
Definition reinforce_commit (ix : Index) : Index * nat :=
  let fts_on :=
    fts_active (ix_fts ix) &&
    match fs_schema (ix_fts ix) !! collection with
    | Some d => existsb (fun f => is_reinforced_attr (fts_field f)) d
    | None => false
    end in
  let findex_on :=
    is_active (ix_findex ix) &&
    match schema_for (ix_findex ix) collection with
    | Some d => existsb (fun f => is_reinforced_attr (fi_field f)) d
    | None => false
    end in
  foldl (commit_stamp collection now_ms fts_on findex_on) (ix, 0%nat) reinforce_stamps.

Lemma wp_reinforce bs bn :
  frames ops = Some bs -> io_ok bs sealed name v s w -> frames reinforce_ops = Some bn ->
  wp (reinforce collection ids now_ms extend)
    (fun n s' w' => n = (reinforce_commit (st_index s)).2 /\
       committed bs sealed name v s bn [] (fun ix => (reinforce_commit ix).1) s' w')
    (stopped bs sealed name v s bn [] (fun ix => (reinforce_commit ix).1)) s w.
Proof.
  intros Hbs Hio Hbn. destruct Hfault as [Hc Ho].
  apply wp_checked; [done|]. intros s1 w1 Hs Ht Hio1. apply wp_bind, wp_get_st.
  unfold st_collections. rewrite (sf_index _ _ Hs). fold (st_collections s).
  unfold reinforce_ops, reinforce_commit, reinforce_stamps in *.
  assert (committed bs sealed name v s [] [] (fun ix => ix) s1 w1) as Hnone.
  { split; [by rewrite !app_nil_r|]. apply (io_step_trans _ s); [|by apply soft_io_step].
    split; try done. exact (handles_refl s). }
  destruct (st_collections s !! collection) as [col|]; cycle 1.
  { injection Hbn as <-. apply wp_ret. split; [done|]. exact Hnone. }
  case_bool_decide as Est.
  { rewrite Est in *. injection Hbn as <-. apply wp_ret. split; [done|]. exact Hnone. }
  eapply wp_conseq; [|intros n s' w' Hp; exact Hp|intros e s' w'; by apply soft_stopped].
  set (stamps := stamps_of col now_ms extend ids) in *.
  eapply (wp_log_mark bs sealed name v s1 w1 Hio1). intros s2 w2 Hin. cbv zeta.
  apply (wp_log_phases bs sealed name v s1 w1); [by eapply meta_clean|by eapply meta_one_fault| |done|done|].
  { by apply rollback_undoes. }
  intros s3 w3 Hin3. apply wp_bind, wp_get_st.
  rewrite (is_index _ _ (in_step _ _ _ _ _ _ _ _ _ _ Hin3)), (sf_index _ _ Hs).
  lazymatch goal with |- wp _ _ (stopped _ _ _ _ _ _ _ ?commit) _ _ =>
    eapply wp_conseq; [apply (wp_batch_commit bs sealed name v s1 w1 bn [] commit _ _ s3 w3 Hin3)| |done]
  end; cbn beta.
  - by rewrite (sf_index _ _ Hs).
  - intros n s' w' [-> Hcom]. split; [done|]. by eapply soft_committed.
Qed.

(** What a stamp makes of a document: one access more, saturating, at [now_ms];
    an expiry it has moves forward when asked and never back, and one it has
    not is not made up; nothing else changes. *)
Record touched (e e' : DocEntry) : Prop := {
  tc_rows : de_rows e' = de_rows e;
  tc_count : de_attrs e' !! META_ACCESS_COUNT =
    Some (VInt (match de_attrs e !! META_ACCESS_COUNT with Some (VInt n) => i64_sat (n + 1) | _ => 1%Z end));
  tc_last : de_attrs e' !! META_LAST_ACCESSED = Some (VDateTime now_ms);
  tc_expiry : de_attrs e' !! META_EXPIRES_AT =
    match extend, de_attrs e !! META_EXPIRES_AT with
    | Some secs, Some (VDateTime cur) => Some (VDateTime (Z.max cur (i64_sat (now_ms + i64_sat (secs * 1000)))))
    | _, expiry => expiry
    end;
  tc_other : forall k, is_reinforced_attr k = false -> de_attrs e' !! k = de_attrs e !! k
}.

Definition doc_at (ix : Index) (c id : rstring) : option DocEntry :=
  ix_collections ix !! c ≫= fun col => cl_docs col !! id.

(** The named documents of the collection are touched, every other is as it was. *)
Definition reinforced (ix ix' : Index) : Prop :=
  forall c id : rstring,
    match doc_at ix c id, doc_at ix' c id with
    | Some e, Some e' => if decide (c = collection /\ id ∈ ids) then touched e e' else e' = e
    | None, None => True
    | _, _ => False
    end.

(** The named ids that exist, as often as they are named. *)
Definition live_ids (ix : Index) : list rstring :=
  List.filter (fun id => bool_decide (is_Some (doc_at ix collection id))) ids.

Lemma stamp_attrs_other (ac la : Z) (ex : option Z) (attrs : attrs_map) (k : rstring) :
  is_reinforced_attr k = false -> stamp_attrs ac la ex attrs !! k = attrs !! k.
Proof.
  intros Hk. unfold is_reinforced_attr in Hk. apply orb_false_iff in Hk as [Hk K3].
  apply orb_false_iff in Hk as [K1 K2]. apply bool_decide_eq_false in K1, K2, K3.
  unfold stamp_attrs. destruct ex; rewrite !lookup_insert_ne by congruence; done.
Qed.

Lemma stamp_attrs_twice (ac la : Z) (ex : option Z) (attrs : attrs_map) :
  stamp_attrs ac la ex (stamp_attrs ac la ex attrs) = stamp_attrs ac la ex attrs.
Proof.
  apply map_eq. intros k. unfold stamp_attrs. destruct ex; rewrite !lookup_insert; repeat case_decide; done.
Qed.

Definition stamped_entry (now : Z) (nx : Z * option Z) (e : DocEntry) : DocEntry :=
  {| de_rows := de_rows e; de_attrs := stamp_attrs nx.1 now nx.2 (de_attrs e) |}.

Lemma stamped_touched e : touched e (stamped_entry now_ms (stamp_of now_ms extend (de_attrs e)) e).
Proof.
  assert (META_ACCESS_COUNT <> META_LAST_ACCESSED /\ META_ACCESS_COUNT <> META_EXPIRES_AT /\
          META_LAST_ACCESSED <> META_EXPIRES_AT) as (? & ? & ?) by by split_and!.
  split; unfold stamped_entry, stamp_of; cbn [de_rows de_attrs fst snd]; [done|..].
  4:{ intros k. apply stamp_attrs_other. }
  all: unfold stamp_attrs; destruct extend, (de_attrs e !! META_EXPIRES_AT) as [[]|] eqn:Ex;
    repeat (rewrite lookup_insert_eq || rewrite lookup_insert_ne by done); by rewrite ?Ex.
Qed.

Lemma commit_stamp_doc (c : rstring) now fon on (acc : Index * nat) (st : rstring * Z * option Z) c' id' :
  doc_at (commit_stamp c now fon on acc st).1 c' id' =
  (if decide (c' = c /\ id' = st.1.1) then stamped_entry now (st.1.2, st.2) else Datatypes.id) <$> doc_at acc.1 c' id'.
Proof.
  destruct st as [[id ac] ex]. cbn [fst snd].
  assert (doc_at (stamp_doc c id ac now ex acc.1) c' id' =
    (if decide (c' = c /\ id' = id) then stamped_entry now (ac, ex) else Datatypes.id) <$> doc_at acc.1 c' id') as Hst.
  { unfold stamp_doc, doc_at. destruct (ix_collections acc.1 !! c) as [col|] eqn:E.
    - cbn [ix_collections set_collections]. destruct (decide (c = c')) as [<-|Hc].
      + rewrite E, lookup_insert_eq. cbn. destruct (decide (id = id')) as [<-|Hid].
        * by rewrite lookup_alter_eq, decide_True.
        * rewrite lookup_alter_ne, decide_False by naive_solver. by rewrite option_fmap_id.
      + rewrite lookup_insert_ne, decide_False by naive_solver. by rewrite option_fmap_id.
    - destruct (decide (c' = c /\ id' = id)) as [[-> ->]|]; [by rewrite E|]. by rewrite option_fmap_id. }
  unfold commit_stamp. destruct (has_doc c id acc.1) eqn:Hh.
  - cbn [fst]. rewrite <- Hst. by destruct (cl_docs (entry _ _) !! id), fon, on.
  - destruct (decide (c' = c /\ id' = id)) as [[-> ->]|]; [|by rewrite option_fmap_id].
    destruct (doc_at acc.1 c id) as [e|] eqn:E; [|done]. exfalso.
    assert (has_doc c id acc.1 = true); [|congruence]. apply has_doc_spec. unfold doc_at in E.
    apply bind_Some in E as (col & ? & ?). eauto.
Qed.

(** Stamps that agree for each id, in any number. *)
Lemma commit_stamps_doc (c : rstring) now fon on (g : rstring -> Z * option Z) stamps (acc : Index * nat) c' id' :
  (forall st, st ∈ stamps -> g st.1.1 = (st.1.2, st.2)) ->
  doc_at (foldl (commit_stamp c now fon on) acc stamps).1 c' id' =
  (if decide (c' = c /\ id' ∈ map (fun st => st.1.1) stamps) then stamped_entry now (g id') else Datatypes.id)
    <$> doc_at acc.1 c' id'.
Proof.
  revert acc. induction stamps as [|st stamps IH]; intros acc Hg; cbn [foldl map].
  { rewrite decide_False by (intros [_ ?%elem_of_nil]; done). by rewrite option_fmap_id. }
  rewrite IH by (intros; apply Hg; by right). rewrite commit_stamp_doc, <- (Hg st) by by left.
  destruct (doc_at acc.1 c' id') as [e|]; [|done]. cbn. f_equal.
  assert (forall x, stamped_entry now x (stamped_entry now x e) = stamped_entry now x e) as Htw.
  { intros x. unfold stamped_entry. cbn. by rewrite stamp_attrs_twice. }
  destruct (decide (c' = c /\ id' = st.1.1)) as [[-> ->]|Hne].
  - rewrite (decide_True (P := c = c /\ st.1.1 ∈ _ :: _)) by (split; [done|by left]).
    by destruct (decide (c = c /\ st.1.1 ∈ map _ stamps)).
  - destruct (decide (c' = c /\ id' ∈ map _ stamps)) as [[-> ?]|Hn].
    + rewrite decide_True by (split; [done|by right]). done.
    + rewrite decide_False; [done|]. rewrite elem_of_cons. naive_solver.
Qed.

Lemma commit_stamps_count (c : rstring) now fon on stamps (acc : Index * nat) :
  (forall st : rstring * Z * option Z, st ∈ stamps -> is_Some (doc_at acc.1 c st.1.1)) ->
  (foldl (commit_stamp c now fon on) acc stamps).2 = (acc.2 + length stamps)%nat.
Proof.
  revert acc. induction stamps as [|st stamps IH]; intros acc Hl; cbn [foldl length]; [lia|].
  rewrite IH.
  - destruct (Hl st ltac:(by left)) as [e He]. apply bind_Some in He as (col & Hc & He).
    assert (has_doc c st.1.1 acc.1 = true) as Hh by (apply has_doc_spec; eauto).
    destruct st as [[id ac] ex]. unfold commit_stamp. cbn [fst] in Hh. rewrite Hh. cbn [snd]. lia.
  - intros st' Hin. rewrite commit_stamp_doc, fmap_is_Some. apply Hl. by right.
Qed.

Definition stamp_for (ix : Index) (id : rstring) : Z * option Z :=
  match doc_at ix collection id with Some e => stamp_of now_ms extend (de_attrs e) | None => (0%Z, None) end.

Lemma reinforce_stamps_of :
  reinforce_stamps = map (fun id => (id, (stamp_for (st_index s) id).1, (stamp_for (st_index s) id).2)) (live_ids (st_index s)).
Proof.
  unfold reinforce_stamps, live_ids, stamp_for, doc_at, st_collections.
  destruct (ix_collections (st_index s) !! collection) as [col|]; cbn [mbind option_bind].
  - unfold stamps_of. induction ids as [|id l IH]; [done|]. cbn [omap list_omap List.filter].
    destruct (cl_docs col !! id) as [e|] eqn:E; cbn [fmap option_fmap option_map].
    + rewrite bool_decide_eq_true_2 by eauto. cbn [map]. rewrite E, <- IH. by destruct (stamp_of _ _ _).
    + rewrite bool_decide_eq_false_2 by by intros []. exact IH.
  - induction ids as [|id l IH]; [done|]. cbn [List.filter]. by rewrite bool_decide_eq_false_2 by by intros [].
Qed.

Lemma elem_of_live_ids ix id : id ∈ live_ids ix <-> id ∈ ids /\ is_Some (doc_at ix collection id).
Proof.
  unfold live_ids. rewrite list_elem_of_In, filter_In, <- list_elem_of_In. by rewrite bool_decide_eq_true.
Qed.

Lemma reinforce_only :
  reinforced (st_index s) (reinforce_commit (st_index s)).1 /\
  (reinforce_commit (st_index s)).2 = length (live_ids (st_index s)).
Proof.
  unfold reinforce_commit. set (fon := fts_active _ && _). clearbody fon. set (on := is_active _ && _). clearbody on.
  rewrite reinforce_stamps_of. split.
  - intros c id. rewrite (commit_stamps_doc _ _ _ _ (stamp_for (st_index s))).
    2:{ intros st Hst. apply list_elem_of_fmap in Hst as (x & -> & _). cbn. by destruct (stamp_for _ _). }
    cbn [fst]. rewrite map_map. cbn [fst]. rewrite map_id. destruct (doc_at (st_index s) c id) as [e|] eqn:E; [|done]. cbn.
    destruct (decide (c = collection /\ id ∈ ids)) as [[-> Hin]|Hn].
    + rewrite decide_True by (split; [done|]; apply elem_of_live_ids; eauto). unfold stamp_for. rewrite E. apply stamped_touched.
    + rewrite decide_False; [done|]. intros [-> [? _]%elem_of_live_ids]. naive_solver.
  - rewrite commit_stamps_count; [by rewrite length_map|]. intros st Hst.
    apply list_elem_of_fmap in Hst as (x & -> & [_ ?]%elem_of_live_ids). done.
Qed.

(** C28: [reinforce] is all or nothing.  When it returns, each document of the
    collection that was named carries one access more, at the time given, and
    its expiry moved as asked; every other document is as it was, no row
    moved, and the number returned is that of the ids that exist.  The log
    gained exactly one operation per such id and its replay is the new index.
    When it reports an error the store is the one before, but for stamps
    already committed whose commit point could not be published.  At most
    one call of the backend fails, and without half an effect. *)
Theorem reinforce_atomic o s' w' :
  is_Some (frames reinforce_ops) -> reinforce collection ids now_ms extend s w = (o, s', w') ->
  let done := store_ok (ops ++ reinforce_ops) sealed name v s' w' /\
    st_index s' = (reinforce_commit (st_index s)).1 /\ length reinforce_ops = length (live_ids (st_index s)) /\
    reinforced (st_index s) (st_index s') in
  match o with
  | Ret n => n = length (live_ids (st_index s)) /\ done
  | Fail _ => (store_ok ops sealed name v s' w' /\ st_index s' = st_index s) \/
              (announces s = true /\ done)
  | Dead => handles s s'
  end.
Proof.
  intros [bn Hbn] Hrun. destruct (sk_bytes _ _ _ _ _ _ Hok) as (bs & Hbs & Hio).
  pose proof (wp_reinforce bs bn Hbs Hio Hbn) as Hwp. unfold wp in Hwp. rewrite Hrun in Hwp.
  assert (committed bs sealed name v s bn [] (fun ix => (reinforce_commit ix).1) s' w' ->
    store_ok (ops ++ reinforce_ops) sealed name v s' w' /\
    st_index s' = (reinforce_commit (st_index s)).1 /\ length reinforce_ops = length (live_ids (st_index s)) /\
    reinforced (st_index s) (st_index s')) as Hdone.
  { intros [Hio' Hstep]. rewrite app_nil_r in Hio'.
    pose proof (is_index _ _ Hstep) as Hix. cbn in Hix.
    split_and!; [|done|unfold reinforce_ops; by rewrite length_map, reinforce_stamps_of, length_map|rewrite Hix; apply reinforce_only].
    eapply log_store_ok; try done.
    - unfold reinforce_ops. apply Forall_map, Forall_true. by intros [[? ?] ?].
    - intros n. unfold reinforce_ops, reinforce_commit. by apply stamps_replay. }
  cbv zeta. destruct o as [n|e|].
  - destruct Hwp as [-> Hcom]. split; [apply reinforce_only|]. by apply Hdone.
  - destruct Hwp as [[Hio' Hstep]|[Ha Hcom]]; [left|right; split; [done|by apply Hdone]].
    split; [|apply (is_index _ _ Hstep)]. by eapply (kept_store_ok _ _ _ _ _ s w).
  - apply Hwp.
Qed.
End reinforce.

Section witness.
Import ToyCodec ToyManifest.
#[local] Existing Instance ascii_only_alnum.
#[local] Existing Instance ascii_only_lower.

Lemma reinforce_atomic_witness :
  exists s' w', reinforce (lit "c") [lit "old"; lit "absent"] 1000 None Demo.store (Demo.world [])
      = (Ret 1%nat, s', w') /\
    store_ok (Demo.ops ++ [OpReinforce (lit "c") (lit "old") 1 1000 None]) [] BASE_SEGMENT [] s' w' /\
    reinforced (lit "c") [lit "old"; lit "absent"] 1000 None (st_index Demo.store) (st_index s').
Proof.
  destruct (reinforce (lit "c") [lit "old"; lit "absent"] 1000 None Demo.store (Demo.world []))
    as [[o s'] w'] eqn:E.
  assert (o = Ret 1%nat) as -> by (by vm_compute in E; injection E).
  exists s', w'. split; [done|].
  destruct (reinforce_atomic Demo.ops [] BASE_SEGMENT [] Demo.store (Demo.world [])
    (Demo.store_sound []) Demo.quiet (lit "c") [lit "old"; lit "absent"] 1000 None (Ret 1%nat) s' w')
    as (_ & Hok & _ & _ & Honly); [eexists; vm_compute; reflexivity|exact E|]. by split.
Defined.
End witness.
