(* ===== verification/Sweep.v ===== *)
(** * Sweep: [delete_where_all] removes exactly the documents that match
    ([src/src/store/write.rs]) *)
From S2P Require Import Std Analyzer FtsStore.
From S2P Require Import Prelude Floats Model Config TextPred Filter Literal Findex.
From S2P Require Import Backend Codec Log Data IndexCache Manifest Segments Lease Replay Store.
From S2P Require Import StoreWrite StoreOk Upsert Atomic ReadBack LogOnly.

(** The document under an id of an index. *)
Definition doc_at (ix : Index) (c id : rstring) : option DocEntry :=
  ix_collections ix !! c ≫= (fun col => cl_docs col !! id).

Lemma has_doc_at (c id : rstring) ix : has_doc c id ix = bool_decide (is_Some (doc_at ix c id)).
Proof.
  unfold has_doc, doc_at. by destruct (ix_collections ix !! c).
Qed.

Section sweep.
Context `{!UnicodeAlnum} `{!UnicodeLower} `{!HashIter} `{!RegexEngine} `{!HashOrder}.

Lemma elem_of_matching f col (id : rstring) :
  id ∈ matching_ids f col <-> exists e, cl_docs col !! id = Some e /\ matches f (de_attrs e) = true.
Proof.
  unfold matching_ids. rewrite list_elem_of_In, filter_In, <- list_elem_of_In, hm_order_perm,
    elem_of_bt_keys. split.
  - intros [_ Hm]. destruct (cl_docs col !! id) as [e|]; [by exists e|done].
  - intros (e & -> & Hm). split; [by eexists|done].
Qed.

Lemma NoDup_matching f col : NoDup (matching_ids f col).
Proof.
  unfold matching_ids. apply NoDup_ListNoDup, List.NoDup_filter, NoDup_ListNoDup.
  rewrite hm_order_perm. apply bt_keys_NoDup.
Qed.

Lemma elem_of_targets f ix (c id : rstring) :
  (c, id) ∈ sweep_targets f ix <->
  exists e, doc_at ix c id = Some e /\ matches f (de_attrs e) = true.
Proof.
  unfold sweep_targets, doc_at. rewrite list_elem_of_join. split.
  - intros (l & Hin & (nm & -> & Hnm)%list_elem_of_fmap).
    destruct (ix_collections ix !! nm) as [col|] eqn:E; [|by apply elem_of_nil in Hin].
    apply list_elem_of_fmap in Hin as (id' & [= -> ->] & (e & He & Hm)%elem_of_matching).
    exists e. by rewrite E.
  - intros (e & He & Hm). destruct (ix_collections ix !! c) as [col|] eqn:E; [|done].
    exists (map (pair c) (matching_ids f col)). split.
    + apply (list_elem_of_fmap_2 (pair c)), elem_of_matching. by exists e.
    + apply list_elem_of_fmap. exists c. rewrite E. split; [done|].
      rewrite hm_order_perm. apply elem_of_bt_keys. by eexists.
Qed.

Lemma NoDup_targets f ix : NoDup (sweep_targets f ix).
Proof.
  unfold sweep_targets.
  assert (NoDup (hm_order (bt_keys (ix_collections ix)))) as Hnd
    by (rewrite hm_order_perm; apply bt_keys_NoDup).
  induction Hnd as [|c l Hc Hnd IH]; [constructor|]. cbn [map mjoin list_join].
  apply NoDup_app. split_and!; [| |exact IH].
  - destruct (ix_collections ix !! c); [|constructor]. apply NoDup_fmap_2; [|apply NoDup_matching].
    by intros ? ? [= ->].
  - intros [c' id] Hin Hin'. destruct (ix_collections ix !! c) as [col|]; [|by apply elem_of_nil in Hin].
    apply list_elem_of_fmap in Hin as (id' & [= -> ->] & _).
    apply list_elem_of_join in Hin' as (l' & Hin' & (nm & -> & Hnm)%list_elem_of_fmap).
    destruct (ix_collections ix !! nm); [|by apply elem_of_nil in Hin'].
    apply list_elem_of_fmap in Hin' as (id'' & [= -> ->] & _). done.
Qed.

Lemma doc_at_remove (c id c' id' : rstring) ix :
  doc_at (remove_doc_entry c id ix) c' id'
  = if decide ((c, id) = (c', id')) then None else doc_at ix c' id'.
Proof.
  unfold doc_at, remove_doc_entry, remove_entry. cbn [ix_collections set_findex set_fts].
  destruct (ix_collections ix !! c) as [col|] eqn:E.
  - cbn [ix_collections set_collections add_dead set_findex set_fts]. destruct (decide (c = c')) as [<-|Hc].
    + rewrite lookup_insert_eq, E. cbn. destruct (decide (id = id')) as [<-|Hid].
      * rewrite decide_True by done. apply lookup_delete_eq.
      * rewrite decide_False by congruence. by apply lookup_delete_ne.
    + rewrite lookup_insert_ne, decide_False by congruence. done.
  - cbn [ix_collections set_findex set_fts]. case_decide as Heq; [|done]. injection Heq as <- <-. by rewrite E.
Qed.

(** The commit of a sweep: the targets are gone, the rest is there. *)
Lemma sweep_loop targets ix count :
  NoDup targets -> (forall ci, ci ∈ targets -> is_Some (doc_at ix ci.1 ci.2)) ->
  let r := foldl (fun acc ci => if has_doc ci.1 ci.2 acc.1
             then (remove_doc_entry ci.1 ci.2 acc.1, S acc.2) else acc) (ix, count) targets in
  r.2 = (count + length targets)%nat /\
  forall c id, doc_at r.1 c id = if decide ((c, id) ∈ targets) then None else doc_at ix c id.
Proof.
  intros Hnd. revert ix count. induction Hnd as [|[c id] targets Hn Hnd IH]; intros ix count Hin.
  { cbn. split; [lia|]. intros c id. rewrite decide_False; [done|]. apply not_elem_of_nil. }
  cbn [foldl]. rewrite has_doc_at, bool_decide_eq_true_2 by (apply (Hin (c, id)); by left).
  cbn [fst snd]. destruct (IH (remove_doc_entry c id ix) (S count)) as [Hcount Hdoc].
  { intros [c' id'] Hci. cbn [fst snd]. rewrite doc_at_remove, decide_False.
    - apply (Hin (c', id')). by right.
    - intros [= <- <-]. by apply Hn. }
  cbv zeta. split; [rewrite Hcount; cbn [length]; lia|]. intros c' id'. rewrite Hdoc, doc_at_remove.
  destruct (decide ((c', id') ∈ targets)) as [Ht|Ht].
  - rewrite decide_True; [done|by right].
  - destruct (decide ((c, id) = (c', id'))) as [<-|Hne].
    + rewrite decide_True; [done|by left].
    + rewrite decide_False; [done|]. rewrite elem_of_cons. naive_solver.
Qed.

Lemma sweep_commit_spec f ix :
  (sweep_commit ix (sweep_targets f ix)).2 = length (sweep_targets f ix) /\
  forall c id, doc_at (sweep_commit ix (sweep_targets f ix)).1 c id
    = match doc_at ix c id with
      | Some e => if matches f (de_attrs e) then None else Some e
      | None => None
      end.
Proof.
  destruct (sweep_loop (sweep_targets f ix) ix 0 (NoDup_targets f ix)) as [Hc Hd].
  { intros [c id] (e & He & _)%elem_of_targets. by exists e. }
  split; [exact Hc|]. intros c id. unfold sweep_commit. rewrite Hd.
  destruct (decide ((c, id) ∈ sweep_targets f ix)) as [Hin|Hin].
  - apply elem_of_targets in Hin as (e & -> & ->). done.
  - destruct (doc_at ix c id) as [e|] eqn:E; [|done].
    destruct (matches f (de_attrs e)) eqn:Hm; [|done]. exfalso. apply Hin, elem_of_targets. by exists e.
Qed.
End sweep.

(** ** The handler *)

Section handler.
Context `{!Codec Op} `{!Crc32} `{!Codec Manifest} `{!Codec HistoryEntry} `{!Codec HistoryFloor}
  `{!UnicodeAlnum} `{!UnicodeLower} `{!HashIter} `{!RegexEngine} `{!HashOrder}.

(** The barrier inside a batch, when no commit point is announced. *)
Lemma wp_maybe_sync bs sealed name v s0 w0 b s w R E :
  io_ok bs sealed name v s0 w0 -> clean w0 -> one_fault w0 -> announces s0 = false ->
  inside bs sealed name v s0 w0 b [] s w ->
  (forall s' w', inside bs sealed name v s0 w0 b [] s' w' -> R tt s' w') ->
  (forall e s' w', inside bs sealed name v s0 w0 b [] s' w' -> (e <> None -> recoverable w') ->
     E e s' w') ->
  wp maybe_sync R E s w.
Proof.
  intros Hio0 Hc0 Ho0 Ha Hin HR HE.
  assert (forall s w, inside bs sealed name v s0 w0 b [] s w ->
    barrier_now s = barrier_now s0 /\ announces s = announces s0) as Hsame.
  { intros s1 w1 [_ Hs _]. unfold announces, barrier_now.
    by rewrite (is_config _ _ Hs), (is_defer _ _ Hs), (is_memory _ _ Hs). }
  unfold maybe_sync. apply wp_bind, wp_get_st.
  destruct (barrier_now s) eqn:Hb; cbn [negb]; cycle 1.
  { apply wp_modify, HR. destruct Hin as [Hio Hs Ht].
    split; [by eapply io_ok_same, Hio| |done]. destruct Hs. by split. }
  assert (one_fault w) as Ho by (by eapply inside_clean).
  apply wp_bind, (wp_io_sync _ _ _ _ _ _ (in_io _ _ _ _ _ _ _ _ _ _ Hin)); [done|..]; cycle 1.
  { intros e s1 w1 Hs Ht Hio. apply HE. by eapply inside_next. }
  intros s1 w1 Hs Ht Hio. assert (inside bs sealed name v s0 w0 b [] s1 w1) as Hin1
    by (by eapply inside_next).
  assert (one_fault w1) as Ho1 by (by eapply inside_clean).
  apply wp_bind, (wp_io_log_sync _ _ _ _ _ _ (in_io _ _ _ _ _ _ _ _ _ _ Hin1)); [done|..]; cycle 1.
  { intros e s2 w2 Hs2 Ht2 Hio2. apply HE. by eapply inside_next. }
  intros s2 w2 Hs2 Ht2 Hio2. assert (inside bs sealed name v s0 w0 b [] s2 w2) as Hin2
    by (by eapply inside_next).
  destruct (Hsame _ _ Hin) as [Eb _], (Hsame _ _ Hin2) as [Eb2 Ea2].
  apply wp_intro. intros o s3 w3 E3. rewrite note_commit_silent in E3 by congruence.
  injection E3 as <- <- <-. by apply HR.
Qed.

Context (ops : list Op) (sealed : list Seg) (name : rstring) (v : list f32).
Context (filter : Filter) (s : Store) (w : World).

Definition sweep_ops : list Op := map delete_op (sweep_targets filter (st_index s)).

Definition sweep_index (ix : Index) : Index := (sweep_commit ix (sweep_targets filter ix)).1.

Lemma wp_sweep bs bn :
  frames ops = Some bs -> io_ok bs sealed name v s w -> one_clean_fault w -> announces s = false ->
  frames sweep_ops = Some bn ->
  wp (delete_where_all filter)
    (fun n s' w' => n = length (sweep_targets filter (st_index s)) /\
       committed bs sealed name v s bn [] sweep_index s' w')
    (stopped bs sealed name v s bn [] sweep_index) s w.
Proof.
  intros Hbs Hio [Hc Ho] Ha Hbn. apply wp_checked; [done|]. intros s1 w1 Hs Ht Hio1.
  apply wp_bind, wp_get_st. rewrite (sf_index _ _ Hs). unfold sweep_ops in Hbn.
  destruct (sweep_commit_spec filter (st_index s)) as [Hcount _].
  cbv zeta. case_bool_decide as Et.
  { rewrite Et in *. injection Hbn as <-. apply wp_ret. split; [done|].
    split; [by rewrite !app_nil_r|]. apply (io_step_trans _ s); [|by apply soft_io_step].
    unfold sweep_index. rewrite Et. split; try done. exact (handles_refl s). }
  assert (clean w1 /\ one_fault w1) as [Hc1 Ho1]
    by (split; [by eapply meta_clean|by eapply meta_one_fault]).
  assert (announces s1 = false) as Ha1 by (by rewrite (soft_announces _ _ Hs)).
  eapply wp_conseq; [|intros n s' w' Hp; exact Hp|intros e s' w'; by apply soft_stopped].
  eapply (wp_log_mark bs sealed name v s1 w1 Hio1). intros s2 w2 Hin. cbv zeta. apply wp_bind.
  pose proof (log_truncate_undoes bs sealed name v s1 w1) as Hundo.
  eapply wp_conseq; [apply (wp_append_ops bs sealed name v s1 w1 Hc1 Ho1 delete_op _ _ _ bn s2 w2
    (fun _ => inside bs sealed name v s1 w1 bn []) Hundo Hin Hbn); done| |apply aborted_stopped].
  intros [] s3 w3 Hin3. apply wp_bind, wp_or_undo.
  apply (wp_maybe_sync bs sealed name v s1 w1 bn); try done; cycle 1.
  { intros [e|] s4 w4 Hin4 Hrec.
    - eapply Hundo; [done|by apply Hrec|]. intros s5 w5 Hin5.
      apply (aborted_stopped bs sealed name v s1 w1 bn [] sweep_index (Some e)), Hin5.
    - split; [apply is_handles, Hin4|].
      apply (crash_whole _ _ sealed name _ _ (length bn)). rewrite firstn_all. apply Hin4. }
  intros s4 w4 [Hio4 Hs4 _]. apply wp_bind, wp_get_st. cbv zeta. apply wp_bind, wp_modify, wp_ret.
  rewrite (is_index _ _ Hs4), (sf_index _ _ Hs). split; [exact Hcount|].
  eapply soft_committed; [exact Hs|]. split; [by eapply io_ok_same, Hio4|].
  unfold sweep_index. rewrite (sf_index _ _ Hs).
  by apply (io_step_index (fun _ => (sweep_commit (st_index s) (sweep_targets filter (st_index s))).1)).
Qed.

(** C23: [delete_where_all] removes, across all collections, exactly the
    documents whose attributes match, or none at all: when it returns, the
    log gained one deletion per matching document, the count is theirs, a
    document is found exactly when it was there and does not match, and the
    index is the replay of the log; when it reports an error, log and index
    are those of before.  For a store that publishes no commit point at its
    barrier (neither cluster nor history, or the barrier deferred), and at
    most one call of the backend failing and leaving nothing of its work: an
    announcing store whose commit point fails after the log is synced takes
    the deletions back from an object-store log in memory only. *)
Theorem sweep_atomic o s' w' :
  store_ok ops sealed name v s w -> one_clean_fault w -> announces s = false ->
  is_Some (frames sweep_ops) -> delete_where_all filter s w = (o, s', w') ->
  match o with
  | Ret n =>
      n = length (sweep_targets filter (st_index s)) /\
      store_ok (ops ++ sweep_ops) sealed name v s' w' /\
      forall c id : rstring, find_doc s' c id =
        match find_doc s c id with
        | Some e => if matches filter (de_attrs e) then None else Some e
        | None => None
        end
  | Fail _ => store_ok ops sealed name v s' w' /\ st_index s' = st_index s
  | Dead => handles s s'
  end.
Proof.
  intros Hok Hf Ha [bn Hbn] Hrun. destruct (sk_bytes _ _ _ _ _ _ Hok) as (bs & Hbs & Hio).
  pose proof (wp_sweep bs bn Hbs Hio Hf Ha Hbn) as Hwp. unfold wp in Hwp. rewrite Hrun in Hwp.
  destruct o as [n|e|].
  - destruct Hwp as (-> & Hio' & Hstep). rewrite app_nil_r in Hio'. split_and!; [done| |].
    + eapply log_store_ok; try done.
      * unfold sweep_ops. by apply Forall_map, Forall_true.
      * intros n. by apply sweep_replay.
    + intros c id. change (doc_at (st_index s') c id = match doc_at (st_index s) c id with
        | Some e => if matches filter (de_attrs e) then None else Some e | None => None end).
      rewrite (is_index _ _ Hstep). apply sweep_commit_spec.
  - destruct Hwp as [[Hio' Hstep]|[Ha' _]]; [|congruence].
    split; [|apply (is_index _ _ Hstep)]. by eapply (kept_store_ok _ _ _ _ _ s w).
  - apply Hwp.
Qed.
End handler.

Section witness.
Import ToyCodec ToyManifest.
#[local] Existing Instance ascii_only_alnum.
#[local] Existing Instance ascii_only_lower.
#[local] Instance no_engine : RegexEngine := fun _ => None.
#[local] Program Instance any_order : HashOrder := {| hm_order := fun l => l |}.
Next Obligation. done. Qed.

Definition sevens : Filter := {| filter_preds := [PEq (lit "k") (VInt 7)] |}.

Lemma sweep_atomic_witness :
  exists s' w', delete_where_all sevens Demo.store (Demo.world []) = (Ret 1%nat, s', w') /\
    store_ok (Demo.ops ++ [OpDelete (lit "c") (lit "old")]) [] BASE_SEGMENT [] s' w' /\
    find_doc s' (lit "c") (lit "old") = None.
Proof.
  destruct (delete_where_all sevens Demo.store (Demo.world [])) as [[o s'] w'] eqn:E.
  assert (o = Ret 1%nat) as -> by (by vm_compute in E; injection E).
  exists s', w'. split; [done|].
  destruct (sweep_atomic Demo.ops [] BASE_SEGMENT [] sevens Demo.store (Demo.world []) (Ret 1%nat) s' w')
    as (_ & Hok & Hfind); [apply Demo.store_sound|apply Demo.quiet|reflexivity|
      eexists; vm_compute; reflexivity|exact E|].
  split; [exact Hok|]. rewrite Hfind. by vm_compute.
Defined.
End witness.
