(* ===== verification/Compact.v ===== *)
(** * Compact: compaction loses nothing ([src/src/store/write.rs], [compact])

    [compact_plan] walks the live documents in order and lays their rows out
    again from zero.  Here the plan is described by what it moves
    ([docs_moved], [cols_moved]), replayed, and compared with the index it was
    made from. *)
From S2P Require Import Std Analyzer FtsStore.
From S2P Require Import Prelude Floats Model Config TextPred Filter Literal Findex.
From S2P Require Import Backend Codec Log Data IndexCache Manifest Segments Lease Replay Store.
From S2P Require Import StoreWrite StoreOk Upsert ReadBack LogOnly.

(** ** What moves where *)

(** The new rows of a document, from [next] on, in name order. *)
Definition assigned (next : nat) (rows : gmap rstring nat) : list (rstring * nat) :=
  zip (bt_keys rows) (seq next (size rows)).

Definition doc_moved (next : nat) (e : DocEntry) : DocEntry :=
  {| de_rows := list_to_map (assigned next (de_rows e)); de_attrs := de_attrs e |}.

Fixpoint docs_moved (next : nat) (l : list (rstring * DocEntry)) : list (rstring * DocEntry) :=
  match l with
  | [] => []
  | ie :: l' => (ie.1, doc_moved next ie.2) :: docs_moved (next + size (de_rows ie.2)) l'
  end.

Definition rows_in (l : list (rstring * DocEntry)) : nat :=
  list_sum (map (fun ie => size (de_rows ie.2)) l).

(** The rows of the documents as they are, in the order of the walk. *)
Definition old_rows (l : list (rstring * DocEntry)) : list nat :=
  mjoin (map (fun ie => (bt_entries (de_rows ie.2)).*2) l).

Definition cl_entries (col : Collection) : list (rstring * DocEntry) := bt_entries (cl_docs col).

Definition col_moved (next : nat) (col : Collection) : Collection :=
  set_docs (list_to_map (docs_moved next (cl_entries col))) col.

Fixpoint cols_moved (next : nat) (l : list (rstring * Collection)) : list (rstring * Collection) :=
  match l with
  | [] => []
  | nc :: l' => (nc.1, col_moved next nc.2) :: cols_moved (next + rows_in (cl_entries nc.2)) l'
  end.

Definition all_rows (l : list (rstring * Collection)) : list nat :=
  mjoin (map (fun nc => old_rows (cl_entries nc.2)) l).

(** The operations and row updates of the moved documents. *)
Definition doc_op (c : rstring) (ie : rstring * DocEntry) : Op :=
  staged_op c (ie.1, de_rows ie.2, de_attrs ie.2).

Definition doc_update (c : rstring) (ie : rstring * DocEntry)
  : list (rstring * rstring * gmap rstring nat) :=
  if bool_decide (de_rows ie.2 = ∅) then [] else [(c, ie.1, de_rows ie.2)].

Definition doc_updates (c : rstring) (l : list (rstring * DocEntry)) :=
  mjoin (map (doc_update c) l).

(** ** The plan in closed form *)

Section plan.
Context (ix : Index) (data : Segments).

Definition vectors_at (rows : list nat) : list f32 :=
  mjoin (map (fun r => segments_row r data) rows).

Lemma vectors_at_app l1 l2 : vectors_at (l1 ++ l2) = vectors_at l1 ++ vectors_at l2.
Proof. unfold vectors_at. by rewrite map_app, join_app. Qed.

Lemma relocate_spec rows p :
  relocate data rows p
  = (p.1 + length rows, p.2 ++ vectors_at rows.*2, zip rows.*1 (seq p.1 (length rows)))%nat.
Proof.
  unfold relocate.
  enough (forall acc : list (rstring * nat),
    foldl (fun acc nr => let '(next, vs, assigned) := acc in
      (S next, vs ++ segments_row nr.2 data, assigned ++ [(nr.1, next)])) (p.1, p.2, acc) rows
    = (p.1 + length rows, p.2 ++ vectors_at rows.*2, acc ++ zip rows.*1 (seq p.1 (length rows)))%nat)
    as He by apply He.
  destruct p as [next vs]. cbn [fst snd]. revert next vs.
  induction rows as [|nr rows IH]; intros next vs acc; cbn [foldl].
  - cbn. by rewrite Nat.add_0_r, !app_nil_r.
  - rewrite IH. cbn. rewrite Nat.add_succ_r. unfold vectors_at. cbn.
    by rewrite <- !app_assoc.
Qed.

(** The plan [p] with [ops], [rows] and [updates] behind it. *)
Definition plan_add (n : nat) (rows : list nat) (ops : list Op)
    (updates : list (rstring * rstring * gmap rstring nat)) (p : Plan) : Plan :=
  {| pl_next_row := pl_next_row p + n; pl_rows := pl_rows p ++ vectors_at rows;
     pl_ops := pl_ops p ++ ops; pl_updates := pl_updates p ++ updates |}.

Lemma plan_add_add n1 r1 o1 u1 n2 r2 o2 u2 p :
  plan_add n2 r2 o2 u2 (plan_add n1 r1 o1 u1 p)
  = plan_add (n1 + n2) (r1 ++ r2) (o1 ++ o2) (u1 ++ u2) p.
Proof.
  unfold plan_add. cbn. by rewrite vectors_at_app, <- !app_assoc, Nat.add_assoc.
Qed.

Lemma plan_add_nil p : plan_add 0 [] [] [] p = p.
Proof. destruct p. unfold plan_add. cbn. by rewrite Nat.add_0_r, !app_nil_r. Qed.

Lemma assigned_empty next rows :
  list_to_map (assigned next rows) = (∅ : gmap rstring nat) <-> rows = ∅.
Proof.
  unfold assigned. split.
  - intros E. apply map_size_empty_inv. destruct (size rows) as [|n] eqn:Es; [done|].
    assert (length (bt_keys rows) = S n) as Hl
      by (unfold bt_keys; by rewrite length_fmap, length_bt_entries).
    destruct (bt_keys rows) as [|k ks]; [done|]. cbn in E.
    by apply insert_non_empty in E.
  - by intros ->.
Qed.

Lemma plan_doc_spec c p ie :
  plan_doc data c p ie
  = plan_add (size (de_rows ie.2)) ((bt_entries (de_rows ie.2)).*2)
      [doc_op c (ie.1, doc_moved (pl_next_row p) ie.2)]
      (doc_update c (ie.1, doc_moved (pl_next_row p) ie.2)) p.
Proof.
  destruct ie as [id e]. unfold plan_doc, doc_op, doc_update, staged_op. cbn [fst snd doc_moved de_rows de_attrs].
  rewrite relocate_spec. cbn [fst snd].
  assert (zip (bt_entries (de_rows e)).*1 (seq (pl_next_row p) (length (bt_entries (de_rows e))))
    = assigned (pl_next_row p) (de_rows e)) as -> by (unfold assigned; by rewrite length_bt_entries).
  destruct (decide (de_rows e = ∅)) as [E|E].
  - rewrite !bool_decide_eq_true_2 by (done || by apply assigned_empty).
    rewrite E. unfold plan_op, plan_add. cbn. by rewrite Nat.add_0_r, !app_nil_r.
  - rewrite !bool_decide_eq_false_2 by (done || by rewrite assigned_empty).
    unfold plan_add. by rewrite length_bt_entries.
Qed.

Lemma plan_docs_spec c l p :
  foldl (plan_doc data c) p l
  = plan_add (rows_in l) (old_rows l) (map (doc_op c) (docs_moved (pl_next_row p) l))
      (doc_updates c (docs_moved (pl_next_row p) l)) p.
Proof.
  revert p. induction l as [|ie l IH]; intros p; [by rewrite <- (plan_add_nil p) at 1|].
  cbn [foldl docs_moved]. rewrite IH, plan_doc_spec, plan_add_add. done.
Qed.

Lemma plan_ops_spec ops p : foldl (fun p op => plan_op op p) p ops = plan_add 0 [] ops [] p.
Proof.
  revert p. induction ops as [|op ops IH]; intros p; [by rewrite plan_add_nil|]. cbn [foldl].
  rewrite IH. unfold plan_op, plan_add. cbn. by rewrite !app_nil_r, <- app_assoc.
Qed.

Fixpoint cols_ops (next : nat) (l : list (rstring * Collection)) : list Op :=
  match l with
  | [] => []
  | nc :: l' =>
      (declaration_ops ix nc.1 nc.2 ++ map (doc_op nc.1) (docs_moved next (cl_entries nc.2)))
      ++ cols_ops (next + rows_in (cl_entries nc.2)) l'
  end.

Fixpoint cols_updates (next : nat) (l : list (rstring * Collection))
  : list (rstring * rstring * gmap rstring nat) :=
  match l with
  | [] => []
  | nc :: l' =>
      doc_updates nc.1 (docs_moved next (cl_entries nc.2))
      ++ cols_updates (next + rows_in (cl_entries nc.2)) l'
  end.

Definition cols_count (l : list (rstring * Collection)) : nat :=
  list_sum (map (fun nc => rows_in (cl_entries nc.2)) l).

Lemma plan_collections_spec l p :
  foldl (plan_collection ix data) p l
  = plan_add (cols_count l) (all_rows l) (cols_ops (pl_next_row p) l)
      (cols_updates (pl_next_row p) l) p.
Proof.
  revert p. induction l as [|[c col] l IH]; intros p; [by rewrite <- (plan_add_nil p) at 1|].
  cbn [foldl cols_ops cols_updates fst snd]. rewrite IH. unfold plan_collection.
  rewrite plan_ops_spec, plan_docs_spec, !plan_add_add. cbn [pl_next_row plan_add].
  rewrite !Nat.add_0_r, <- app_assoc. done.
Qed.

Lemma compact_plan_spec :
  let l := bt_entries (ix_collections ix) in
  compact_plan ix data
  = {| pl_next_row := cols_count l; pl_rows := vectors_at (all_rows l);
       pl_ops := cols_ops 0 l; pl_updates := cols_updates 0 l |}.
Proof. unfold compact_plan. by rewrite plan_collections_spec. Qed.
End plan.

(** ** Facts of the moved documents *)

Lemma docs_moved_keys next l : (docs_moved next l).*1 = l.*1.
Proof. revert next. induction l as [|ie l IH]; intros next; [done|]. cbn. by rewrite IH. Qed.

Lemma cols_moved_keys next l : (cols_moved next l).*1 = l.*1.
Proof. revert next. induction l as [|nc l IH]; intros next; [done|]. cbn. by rewrite IH. Qed.

Lemma NoDup_zip_fst {A B} (l : list A) (k : list B) : NoDup l -> NoDup (zip l k).*1.
Proof.
  intros Hnd. revert k. induction Hnd as [|x l Hx Hnd IH]; intros [|y k]; cbn; try constructor.
  - intros (p & -> & Hin)%list_elem_of_fmap. apply Hx.
    destruct p as [a b]. by apply elem_of_zip_l in Hin.
  - apply IH.
Qed.

Lemma assigned_lookup (next : nat) (rows : gmap rstring nat) (j : nat) (nm : rstring) (r : nat) :
  bt_entries rows !! j = Some (nm, r) ->
  (list_to_map (assigned next rows) : gmap rstring nat) !! nm = Some (next + j)%nat.
Proof.
  intros Hj. pose proof (lookup_lt_Some _ _ _ Hj) as Hlt. rewrite length_bt_entries in Hlt.
  apply elem_of_list_to_map_1.
  - apply NoDup_zip_fst, bt_keys_NoDup.
  - apply (list_elem_of_lookup_2 _ j). unfold assigned. apply lookup_zip_with_Some.
    exists nm, (next + j)%nat. split_and!; [done| |].
    + unfold bt_keys. by rewrite list_lookup_fmap, Hj.
    + by apply lookup_seq_lt.
Qed.

Lemma assigned_range (next : nat) (rows : gmap rstring nat) (nm : rstring) (r : nat) :
  (list_to_map (assigned next rows) : gmap rstring nat) !! nm = Some r ->
  (next <= r < next + size rows)%nat /\ is_Some (rows !! nm).
Proof.
  intros Hr%elem_of_list_to_map_2. unfold assigned in Hr. split.
  - apply elem_of_zip_r, elem_of_seq in Hr. lia.
  - apply elem_of_zip_l in Hr. by apply elem_of_bt_keys.
Qed.

Lemma rows_in_cons ie l : rows_in (ie :: l) = (size (de_rows ie.2) + rows_in l)%nat.
Proof. done. Qed.

(** The rows of the moved documents are below the end of the walk. *)
Lemma docs_moved_below next l :
  Forall (fun ie => forall (k : rstring) (r : nat), de_rows ie.2 !! k = Some r ->
    (r < next + rows_in l)%nat) (docs_moved next l).
Proof.
  revert next. induction l as [|ie l IH]; intros next; [constructor|]. rewrite rows_in_cons.
  cbn [docs_moved]. constructor.
  - intros k r [? _]%assigned_range. cbn in *. lia.
  - eapply Forall_impl; [apply IH|]. cbn beta. intros ie' Hie k r Hr%Hie. lia.
Qed.

(** ** Replaying the plan *)

(** [R'] is [R] with the collection [c] at [col]. *)
Definition at_col (R : Index) (c : rstring) (col : Collection) (R' : Index) : Prop :=
  same_docs R' (set_collections (<[c := col]> (ix_collections R)) R).

Lemma at_col_eq R c col1 col2 R' : at_col R c col1 R' -> col1 = col2 -> at_col R c col2 R'.
Proof. by intros ? <-. Qed.

Lemma at_col_start n R (c : rstring) :
  ix_collections R !! c = None -> at_col R c Collection_new (apply_op n R (OpCreateCollection c)).
Proof. intros Hc. split; [|done]. cbn. unfold touch, entry. by rewrite Hc. Qed.

Lemma at_col_update R c col R' f : at_col R c col R' -> at_col R c (f col) (update_collection c f R').
Proof.
  intros [E1 E2]. split; [|exact E2]. cbn. rewrite E1. cbn. unfold entry.
  by rewrite lookup_insert_eq, insert_insert_eq.
Qed.

Lemma at_col_names n R c col R' names :
  at_col R c col R' -> at_col R c (set_names names col) (apply_op n R' (OpSetVectorNames c names)).
Proof. apply (at_col_update _ _ _ _ (set_names names)). Qed.

Lemma at_col_meta n R c col R' meta :
  at_col R c col R' -> at_col R c (set_meta_of meta col) (apply_op n R' (OpSetMeta c meta)).
Proof. apply (at_col_update _ _ _ _ (set_meta_of meta)). Qed.

Lemma at_col_touch R c col R' :
  at_col R c col R' -> at_col R c col (set_collections (touch c (ix_collections R')) R').
Proof.
  intros [E1 E2]. split; [|exact E2]. cbn. rewrite E1. cbn. unfold touch, entry.
  by rewrite lookup_insert_eq, insert_insert_eq.
Qed.

Lemma at_col_schema n R c col R' op :
  match op with OpSetFtsFields c' _ | OpSetFilterIndex c' _ => c' = c | _ => False end ->
  at_col R c col R' -> at_col R c col (apply_op n R' op).
Proof.
  intros Hop Hat. apply at_col_touch in Hat as [E1 E2]. by destruct op; try done; subst; split.
Qed.

(** Replaying the declarations of a collection gives it back, without its
    documents. *)
Lemma replay_declarations n ix R (c : rstring) (col : Collection) :
  ix_collections R !! c = None ->
  at_col R c (set_docs ∅ col) (foldl (apply_op n) R (declaration_ops ix c col)).
Proof.
  intros Hc. destruct col as [meta docs names]. unfold declaration_ops. rewrite !foldl_app.
  cbn [cl_meta cl_vector_names]. cbn [foldl].
  destruct (decide (meta = ∅)) as [Em|Em], (decide (names = [])) as [En|En];
    rewrite ?(bool_decide_eq_true_2 _ Em), ?(bool_decide_eq_false_2 _ Em),
      ?(bool_decide_eq_true_2 _ En), ?(bool_decide_eq_false_2 _ En);
    destruct (fs_schema (ix_fts ix) !! c), (schema_for (ix_findex ix) c); subst; cbn [foldl];
    (eapply at_col_eq; [repeat first
      [ apply at_col_names | apply at_col_meta
      | apply at_col_schema; [done|] | apply at_col_start, Hc ]|reflexivity]).
Qed.

(** Replaying the documents of a collection fills it. *)
Lemma replay_docs n R c col R' (l : list (rstring * DocEntry)) :
  NoDup l.*1 -> (forall id : rstring, id ∈ l.*1 -> cl_docs col !! id = None) ->
  Forall (fun ie => forall (k : rstring) (r : nat), de_rows ie.2 !! k = Some r -> (r < n)%nat) l ->
  at_col R c col R' ->
  at_col R c (set_docs (list_to_map l ∪ cl_docs col) col)
    (foldl (apply_op n) R' (map (doc_op c) l)).
Proof.
  revert col R'. induction l as [|[id e] l IH]; intros col R' Hnd Hnew Hbelow Hat.
  { cbn. rewrite (left_id_L ∅ (∪)). by rewrite set_docs_id. }
  apply NoDup_cons in Hnd as [Hid Hnd]. apply Forall_cons in Hbelow as [He Hbelow]. cbn [map foldl].
  assert (at_col R c (set_docs (<[id := e]> (cl_docs col)) col) (apply_op n R' (doc_op c (id, e)))) as Hat'.
  { unfold doc_op. cbn [fst snd]. rewrite apply_staged_op by done.
    destruct Hat as [E1 E2]. split; unfold put_doc; rewrite E1; cbn; unfold entry;
      rewrite lookup_insert_eq; cbn.
    - rewrite insert_insert_eq. by destruct e.
    - rewrite (Hnew id) by (by left). cbn. rewrite E2. cbn. lia. }
  eapply at_col_eq; [apply (IH (set_docs (<[id := e]> (cl_docs col)) col) _ Hnd); [|done|exact Hat']|].
  - intros id' Hin. cbn. rewrite lookup_insert_ne by (intros ->; done). apply Hnew. by right.
  - unfold set_docs. cbn. f_equal. rewrite <- insert_union_r; [by rewrite insert_union_l|].
    by apply not_elem_of_list_to_map_1.
Qed.

Lemma replay_collections n ix l : forall next R,
  NoDup l.*1 -> (forall c : rstring, c ∈ l.*1 -> ix_collections R !! c = None) ->
  (next + cols_count l <= n)%nat ->
  let R' := foldl (apply_op n) R (cols_ops ix next l) in
  ix_collections R' = list_to_map (cols_moved next l) ∪ ix_collections R /\
  ix_dead_rows R' = ix_dead_rows R.
Proof.
  induction l as [|[c col] l IH]; intros next R Hnd Hnew Hn; cbn zeta.
  { cbn. by rewrite (left_id_L ∅ (∪)). }
  apply NoDup_cons in Hnd as [Hc Hnd]. cbn [cols_ops cols_moved fst snd]. rewrite !foldl_app.
  change (cols_count ((c, col) :: l)) with (rows_in (cl_entries col) + cols_count l)%nat in Hn.
  pose proof (replay_declarations n ix R c col (Hnew c ltac:(by left))) as Hat.
  apply (replay_docs n R c _ _ (docs_moved next (cl_entries col))) in Hat; cycle 1.
  { rewrite docs_moved_keys. apply bt_keys_NoDup. }
  { intros id _. apply lookup_empty. }
  { eapply Forall_impl; [apply docs_moved_below|]. cbn beta. intros ie Hie k r Hr%Hie. lia. }
  revert Hat. generalize (foldl (apply_op n) (foldl (apply_op n) R (declaration_ops ix c col))
    (map (doc_op c) (docs_moved next (cl_entries col)))). intros R1 [E1 E2]. cbn in E1, E2.
  destruct (IH (next + rows_in (cl_entries col))%nat R1) as [H1 H2]; [done| |lia|].
  { intros c' Hin. rewrite E1, lookup_insert_ne by (intros ->; done). apply Hnew. by right. }
  split; [|by rewrite H2]. rewrite H1, E1. cbn [list_to_map fst snd foldr].
  rewrite (right_id_L ∅ (∪)). rewrite <- insert_union_r; [|by apply not_elem_of_list_to_map_1; rewrite cols_moved_keys].
  rewrite insert_union_l. done.
Qed.

(** ** The index in RAM *)

Lemma union_covered {A} (m1 m2 : gmap rstring A) :
  (forall i : rstring, is_Some (m2 !! i) -> is_Some (m1 !! i)) -> m1 ∪ m2 = m1.
Proof.
  intros Hc. apply map_eq. intros i. destruct (m1 !! i) as [a|] eqn:E.
  - by rewrite (lookup_union_Some_l _ _ _ _ E).
  - rewrite lookup_union, E. destruct (m2 !! i) as [b|] eqn:E2; [|done].
    destruct (Hc i) as [? ?]; [by eexists|]. congruence.
Qed.

Lemma doc_moved_empty next e : de_rows e = ∅ -> doc_moved next e = e.
Proof. destruct e as [rows attrs]. cbn. intros ->. done. Qed.

Lemma alter_present {A} (m : gmap rstring A) (i : rstring) (x : A) f :
  m !! i = Some x -> alter f i m = <[i := f x]> m.
Proof. intros E. rewrite <- (insert_id m i x E) at 1. apply alter_insert_eq. Qed.

Lemma relocate_head (m : gmap rstring Collection) (c id : rstring) (next : nat) (e : DocEntry)
    (col : Collection) :
  m !! c = Some col -> cl_docs col !! id = Some e ->
  foldl relocate_doc m (doc_update c (id, doc_moved next e))
  = <[c := set_docs (<[id := doc_moved next e]> (cl_docs col)) col]> m.
Proof.
  intros Hc He. unfold doc_update. cbn [snd fst doc_moved de_rows].
  destruct (decide (de_rows e = ∅)) as [E|E].
  - rewrite bool_decide_eq_true_2 by (by apply assigned_empty). cbn [foldl].
    rewrite doc_moved_empty by done. rewrite (insert_id (cl_docs col)) by done.
    by rewrite set_docs_id, insert_id.
  - rewrite bool_decide_eq_false_2 by (by rewrite assigned_empty). cbn [foldl relocate_doc].
    by rewrite (alter_present m c col), (alter_present (cl_docs col) id e).
Qed.

Lemma relocate_docs (m : gmap rstring Collection) (c : rstring) (col : Collection) l next :
  m !! c = Some col -> NoDup l.*1 ->
  Forall (fun ie => cl_docs col !! ie.1 = Some ie.2) l ->
  foldl relocate_doc m (doc_updates c (docs_moved next l))
  = <[c := set_docs (list_to_map (docs_moved next l) ∪ cl_docs col) col]> m.
Proof.
  revert m col next. induction l as [|[id e] l IH]; intros m col next Hc Hnd Hin.
  { cbn. by rewrite (left_id_L ∅ (∪)), set_docs_id, insert_id. }
  apply NoDup_cons in Hnd as [Hid Hnd]. apply Forall_cons in Hin as [He Hin].
  change (doc_updates c (docs_moved next ((id, e) :: l)))
    with (doc_update c (id, doc_moved next e)
          ++ doc_updates c (docs_moved (next + size (de_rows e)) l)).
  rewrite foldl_app, (relocate_head m c id next e col) by done.
  rewrite (IH _ (set_docs (<[id := doc_moved next e]> (cl_docs col)) col));
    [|apply lookup_insert_eq|done|].
  - rewrite insert_insert_eq. f_equal. unfold set_docs. cbn. f_equal.
    rewrite <- insert_union_r; [by rewrite insert_union_l|].
    apply not_elem_of_list_to_map_1. by rewrite docs_moved_keys.
  - rewrite Forall_forall in Hin |- *. intros [id' e'] Hie. cbn.
    rewrite lookup_insert_ne; [by apply (Hin (id', e'))|]. intros ->. apply Hid.
    by apply (list_elem_of_fmap_2 fst _ (id', e')).
Qed.

(** All the documents of a collection at once. *)
Lemma relocate_collection (m : gmap rstring Collection) (c : rstring) (col : Collection) next :
  m !! c = Some col ->
  foldl relocate_doc m (doc_updates c (docs_moved next (cl_entries col)))
  = <[c := col_moved next col]> m.
Proof.
  intros Hc. rewrite (relocate_docs _ _ col); [|done|apply bt_keys_NoDup|]; cycle 1.
  { apply Forall_forall. intros [id e]. apply elem_of_bt_entries. }
  unfold col_moved. rewrite union_covered; [done|]. intros id [e He].
  apply elem_of_bt_entries in He. apply not_eq_None_Some. intros Hn.
  apply not_elem_of_list_to_map_2 in Hn. rewrite docs_moved_keys in Hn. apply Hn.
  by apply (list_elem_of_fmap_2 fst _ (id, e)).
Qed.

Lemma relocate_collections l : forall (m : gmap rstring Collection) next,
  NoDup l.*1 -> Forall (fun nc => m !! nc.1 = Some nc.2) l ->
  foldl relocate_doc m (cols_updates next l) = list_to_map (cols_moved next l) ∪ m.
Proof.
  induction l as [|[c col] l IH]; intros m next Hnd Hin.
  { cbn. by rewrite (left_id_L ∅ (∪)). }
  apply NoDup_cons in Hnd as [Hc Hnd]. apply Forall_cons in Hin as [Hcol Hin].
  cbn [cols_updates cols_moved fst snd]. rewrite foldl_app, (relocate_collection _ c col) by done.
  rewrite IH; [|done|].
  - cbn [list_to_map foldr fst snd]. rewrite <- insert_union_r; [by rewrite insert_union_l|].
    apply not_elem_of_list_to_map_1. by rewrite cols_moved_keys.
  - rewrite Forall_forall in Hin |- *. intros [c' col'] Hie. cbn [fst snd].
    rewrite lookup_insert_ne; [by apply (Hin (c', col'))|]. intros ->. apply Hc.
    by apply (list_elem_of_fmap_2 fst _ (c', col')).
Qed.

(** ** Where every vector went *)

Lemma length_old_rows l : length (old_rows l) = rows_in l.
Proof.
  induction l as [|ie l IH]; [done|]. rewrite rows_in_cons.
  change (old_rows (ie :: l)) with ((bt_entries (de_rows ie.2)).*2 ++ old_rows l).
  by rewrite length_app, length_fmap, length_bt_entries, IH.
Qed.

Lemma length_all_rows l : length (all_rows l) = cols_count l.
Proof.
  induction l as [|nc l IH]; [done|].
  change (all_rows (nc :: l)) with (old_rows (cl_entries nc.2) ++ all_rows l).
  change (cols_count (nc :: l)) with (rows_in (cl_entries nc.2) + cols_count l)%nat.
  by rewrite length_app, length_old_rows, IH.
Qed.

Lemma docs_moved_at next (l : list (rstring * DocEntry)) i (id : rstring) (e : DocEntry) :
  l !! i = Some (id, e) ->
  exists p q, old_rows l = p ++ (bt_entries (de_rows e)).*2 ++ q /\
    docs_moved next l !! i = Some (id, doc_moved (next + length p) e).
Proof.
  revert next i. induction l as [|[id0 e0] l IH]; intros next i Hi; [done|].
  change (old_rows ((id0, e0) :: l)) with ((bt_entries (de_rows e0)).*2 ++ old_rows l).
  destruct i as [|i].
  - injection Hi as -> ->. exists [], (old_rows l). cbn. by rewrite Nat.add_0_r.
  - destruct (IH (next + size (de_rows e0))%nat i Hi) as (p & q & -> & E).
    exists ((bt_entries (de_rows e0)).*2 ++ p), q. rewrite <- app_assoc. split; [done|].
    rewrite length_app, length_fmap, length_bt_entries, Nat.add_assoc. exact E.
Qed.

Lemma cols_moved_at next (l : list (rstring * Collection)) i (c : rstring) (col : Collection) :
  l !! i = Some (c, col) ->
  exists p q, all_rows l = p ++ old_rows (cl_entries col) ++ q /\
    cols_moved next l !! i = Some (c, col_moved (next + length p) col).
Proof.
  revert next i. induction l as [|[c0 col0] l IH]; intros next i Hi; [done|].
  change (all_rows ((c0, col0) :: l)) with (old_rows (cl_entries col0) ++ all_rows l).
  destruct i as [|i].
  - injection Hi as -> ->. exists [], (all_rows l). cbn. by rewrite Nat.add_0_r.
  - destruct (IH (next + rows_in (cl_entries col0))%nat i Hi) as (p & q & -> & E).
    exists (old_rows (cl_entries col0) ++ p), q. rewrite <- app_assoc. split; [done|].
    rewrite length_app, length_old_rows, Nat.add_assoc. exact E.
Qed.

Section vectors.
Context (data : Segments) (dim : nat).

Lemma length_vectors_at rows :
  Forall (fun r => length (segments_row r data) = dim) rows ->
  length (vectors_at data rows) = (length rows * dim)%nat.
Proof.
  induction 1 as [|r rows Hr _ IH]; [done|].
  change (vectors_at data (r :: rows)) with (segments_row r data ++ vectors_at data rows).
  by rewrite length_app, Hr, IH.
Qed.

Lemma vectors_slice (rows : list nat) (k r : nat) :
  Forall (fun r => length (segments_row r data) = dim) rows -> rows !! k = Some r ->
  take dim (drop (k * dim) (vectors_at data rows)) = segments_row r data.
Proof.
  intros Hf. revert k. induction Hf as [|r0 rows Hr _ IH]; intros k Hk; [done|].
  change (vectors_at data (r0 :: rows)) with (segments_row r0 data ++ vectors_at data rows).
  destruct k as [|k].
  - injection Hk as ->. cbn [Nat.mul]. rewrite drop_0. by apply take_app_length'.
  - rewrite Nat.mul_succ_l, Nat.add_comm, <- drop_drop, drop_app_length' by done. by apply IH.
Qed.
End vectors.

(** ** Compaction preserves the store *)

Definition doc_kept (data : Segments) (p : Plan) (e e' : DocEntry) : Prop :=
  de_attrs e' = de_attrs e /\
  forall nm : rstring,
    match de_rows e !! nm, de_rows e' !! nm with
    | Some r, Some r' => (r' < pl_next_row p)%nat /\
        take (segments_dimension data) (drop (r' * segments_dimension data) (pl_rows p))
        = segments_row r data
    | None, None => True
    | _, _ => False
    end.

Definition col_kept (data : Segments) (p : Plan) (col col' : Collection) : Prop :=
  cl_meta col' = cl_meta col /\ cl_vector_names col' = cl_vector_names col /\
  forall id : rstring,
    match cl_docs col !! id, cl_docs col' !! id with
    | Some e, Some e' => doc_kept data p e e'
    | None, None => True
    | _, _ => False
    end.

(** Every row a live document names is in the data. *)
Definition rows_live (ix : Index) (n : nat) : Prop :=
  forall (c id nm : rstring) (col : Collection) (e : DocEntry) (r : nat),
    ix_collections ix !! c = Some col -> cl_docs col !! id = Some e -> de_rows e !! nm = Some r ->
    (r < n)%nat.

Lemma row_length sealed name v ss w g :
  segments_ok sealed name v ss w -> (g < segments_row_count ss)%nat ->
  length (segments_row g ss) = segments_dimension ss.
Proof.
  intros Hok Hg. rewrite (ok_row _ _ _ _ _ Hok) by done. rewrite length_take, length_drop.
  rewrite (length_concat_vectors (segments_dimension ss)) by apply Hok.
  rewrite <- (ok_row_count _ _ _ _ _ Hok). nia.
Qed.

Lemma elem_of_all_rows ix r :
  r ∈ all_rows (bt_entries (ix_collections ix)) ->
  exists (c id nm : rstring) col e, ix_collections ix !! c = Some col /\
    cl_docs col !! id = Some e /\ de_rows e !! nm = Some r.
Proof.
  unfold all_rows. intros (l & Hr & ([c col] & -> & Hc%elem_of_bt_entries)%list_elem_of_fmap)%list_elem_of_join.
  unfold old_rows in Hr. apply list_elem_of_join in Hr as (l' & Hr & ([id e] & -> & He)%list_elem_of_fmap).
  apply elem_of_bt_entries in He. apply list_elem_of_fmap in Hr as ([nm r'] & -> & Hn%elem_of_bt_entries).
  exists c, id, nm, col, e. by split_and!.
Qed.

Section theorem.
Context (sealed : list Seg) (name : rstring) (v : list f32) (ix : Index) (data : Segments) (w : World).
Context (Hok : segments_ok sealed name v data w) (Hlive : rows_live ix (segments_row_count data)).

Let l := bt_entries (ix_collections ix).
Let p := compact_plan ix data.

Lemma rows_fit : Forall (fun r => length (segments_row r data) = segments_dimension data) (all_rows l).
Proof.
  apply Forall_forall. intros r (c & id & nm & col & e & Hc & He & Hr)%elem_of_all_rows.
  eapply row_length; [exact Hok|]. by eapply Hlive.
Qed.

Lemma col_moved_kept (col : Collection) k pre post :
  all_rows l = pre ++ old_rows (cl_entries col) ++ post -> k = length pre ->
  col_kept data p col (col_moved k col).
Proof.
  intros Hall ->. split; [done|]. split; [done|]. intros id.
  assert (NoDup (docs_moved (length pre) (cl_entries col)).*1) as Hnd
    by (rewrite docs_moved_keys; apply bt_keys_NoDup).
  cbn [cl_docs col_moved set_docs]. destruct (cl_docs col !! id) as [e|] eqn:He; cycle 1.
  { rewrite not_elem_of_list_to_map_1; [done|]. rewrite docs_moved_keys. unfold cl_entries.
    intros Hin%elem_of_bt_keys. rewrite He in Hin. by destruct Hin. }
  apply elem_of_bt_entries, list_elem_of_lookup in He as [j Hj].
  destruct (docs_moved_at (length pre) _ _ _ _ Hj) as (pre2 & post2 & Hold & Hmv).
  rewrite (elem_of_list_to_map_1 _ id _ Hnd (list_elem_of_lookup_2 _ _ _ Hmv)).
  split; [done|]. intros nm. cbn [doc_moved de_rows].
  destruct (de_rows e !! nm) as [r|] eqn:Er; cycle 1.
  { destruct (list_to_map _ !! nm) as [r|] eqn:E; [|done].
    apply assigned_range in E as [_ [? ?]]. congruence. }
  apply elem_of_bt_entries, list_elem_of_lookup in Er as [m Hm].
  rewrite (assigned_lookup _ _ _ _ _ Hm).
  assert (all_rows l !! (length pre + length pre2 + m)%nat = Some r) as Hlk.
  { unfold cl_entries in Hall. rewrite Hall, Hold, <- !app_assoc.
    rewrite lookup_app_r by lia. rewrite lookup_app_r by lia.
    replace (length pre + length pre2 + m - length pre - length pre2)%nat with m by lia.
    apply lookup_app_l_Some. by rewrite list_lookup_fmap, Hm. }
  subst p. rewrite compact_plan_spec. cbn [pl_next_row pl_rows]. split.
  - rewrite <- length_all_rows. by eapply lookup_lt_Some.
  - apply vectors_slice; [apply rows_fit|exact Hlk].
Qed.

(** C19: compaction preserves the store: replaying the compacted log over the
    compacted rows gives the index the process has in RAM after relocating
    its documents, with no dead row; every collection keeps its metadata, its
    declared names and its documents, every document its attributes, and each
    of its vectors is, in the new matrix, the one it was in the old. *)
Theorem compact_preserves :
  let R := replay_ops (pl_ops p) (pl_next_row p) in
  length (pl_rows p) = (pl_next_row p * segments_dimension data)%nat /\
  ix_collections R = foldl relocate_doc (ix_collections ix) (pl_updates p) /\
  ix_dead_rows R = 0%nat /\
  forall c : rstring,
    match ix_collections ix !! c, ix_collections R !! c with
    | Some col, Some col' => col_kept data p col col'
    | None, None => True
    | _, _ => False
    end.
Proof.
  intros R.
  destruct (replay_collections (cols_count l) ix l 0 Index_empty) as [Hcols Hdead];
    [apply bt_keys_NoDup|by intros c _; apply lookup_empty|lia|].
  assert (R = foldl (apply_op (cols_count l)) Index_empty (cols_ops ix 0 l)) as HR.
  { unfold R, p. by rewrite compact_plan_spec. }
  rewrite <- HR in Hcols, Hdead.
  change (ix_collections Index_empty) with (∅ : gmap rstring Collection) in Hcols.
  rewrite (right_id_L ∅ (∪)) in Hcols.
  split_and!; [| |exact Hdead|].
  - unfold p. rewrite compact_plan_spec. cbn [pl_rows pl_next_row].
    rewrite (length_vectors_at data (segments_dimension data)) by apply rows_fit.
    by rewrite length_all_rows.
  - unfold p. rewrite compact_plan_spec. cbn [pl_updates]. fold l. rewrite Hcols.
    rewrite relocate_collections; [|apply bt_keys_NoDup|].
    + rewrite union_covered; [done|]. intros c [col Hc%elem_of_bt_entries].
      apply not_eq_None_Some. intros Hn%not_elem_of_list_to_map_2. rewrite cols_moved_keys in Hn.
      apply Hn. by apply (list_elem_of_fmap_2 fst _ (c, col)).
    + apply Forall_forall. intros [c col]. apply elem_of_bt_entries.
  - intros c. rewrite Hcols.
    assert (NoDup (cols_moved 0 l).*1) as Hnd by (rewrite cols_moved_keys; apply bt_keys_NoDup).
    destruct (ix_collections ix !! c) as [col|] eqn:Hc; cycle 1.
    { rewrite not_elem_of_list_to_map_1; [done|]. rewrite cols_moved_keys.
      intros Hin%elem_of_bt_keys. rewrite Hc in Hin. by destruct Hin. }
    apply elem_of_bt_entries, list_elem_of_lookup in Hc as [i Hi].
    destruct (cols_moved_at 0 l i c col Hi) as (pre & post & Hall & Hmv).
    rewrite (elem_of_list_to_map_1 _ c _ Hnd (list_elem_of_lookup_2 _ _ _ Hmv)).
    by apply (col_moved_kept col _ pre post).
Qed.
End theorem.

(** ** An example: three rows in two segments, the middle one dead *)

Definition ex_doc (row : nat) (k : Z) : DocEntry :=
  {| de_rows := {[DEFAULT_VECTOR := row]}; de_attrs := {[lit "k" := VInt k]} |}.
Definition ex_docs : gmap rstring DocEntry := {[lit "a" := ex_doc 2 7; lit "b" := ex_doc 0 8]}.
Definition ex_index : Index :=
  {| ix_collections := {[lit "c" := set_docs ex_docs Collection_new]}; ix_dead_rows := 1;
     ix_fts := ix_fts Index_empty; ix_findex := ix_findex Index_empty |}.

Lemma ex_index_live : rows_live ex_index (segments_row_count ex_set).
Proof.
  intros c id nm col e r Hc He Hr. cbn in Hc. apply lookup_singleton_Some in Hc as [_ <-].
  cbn in He. unfold ex_docs in He. apply lookup_insert_Some in He as [[_ <-]|[_ He]].
  - cbn in Hr. apply lookup_singleton_Some in Hr as [_ <-]. vm_compute. lia.
  - apply lookup_singleton_Some in He as [_ <-]. cbn in Hr.
    apply lookup_singleton_Some in Hr as [_ <-]. vm_compute. lia.
Qed.

Lemma compact_preserves_witness :
  pl_next_row (compact_plan ex_index ex_set) = 2%nat /\
  pl_rows (compact_plan ex_index ex_set) = [5; 6; 1; 2]%Z /\
  ix_dead_rows (replay_ops (pl_ops (compact_plan ex_index ex_set)) 2) = 0%nat.
Proof.
  split; [by vm_compute|]. split; [by vm_compute|].
  exact (proj1 (proj2 (proj2 (compact_preserves [ex_seg BASE_SEGMENT [1; 2; 3; 4]%Z]
    (sealed_name 1) [5; 6]%Z ex_index ex_set ex_quiet ex_set_ok ex_index_live)))).
Defined.
