(* ===== verification/Hits.v ===== *)
(** * Hits: results of a query, and their fusion ([src/src/model.rs], [src/src/fuse.rs])

    The data every query path produces, and reciprocal rank fusion: a
    [HashMap] keyed by document accumulates what each leg contributes, and is
    then sorted.  The iteration order of the map is a parameter; the result
    does not depend on it. *)
From S2P Require Import Prelude Floats Model Sort.

(** ** Hits and the options that shape a ranking *)

Record LegScore := { ls_rank : nat; ls_score : f32 }.
Record Expansion := { ex_matched : nat; ex_scored : nat }.
Record ClauseScore := { cs_field : rstring; cs_score : f32; cs_expansion : option Expansion }.
Record Fragment := { fr_text : rstring; fr_spans : list (nat * nat) }.
Record Highlight := { hl_field : rstring; hl_fragments : list Fragment }.
Record Annotations := {
  an_vector : option LegScore;
  an_text : option LegScore;
  an_clauses : list ClauseScore;
  an_highlights : list Highlight
}.

Record Hit := {
  h_collection : rstring;
  h_id : rstring;
  h_score : f32;
  h_attrs : attrs_map;
  h_annotations : option Annotations;
  h_context : option rstring
}.

Definition Hit_new (collection id : rstring) (score : f32) (attrs : attrs_map) : Hit :=
  {| h_collection := collection; h_id := id; h_score := score; h_attrs := attrs;
     h_annotations := None; h_context := None |}.
Definition set_context (c : option rstring) (h : Hit) : Hit :=
  {| h_collection := h_collection h; h_id := h_id h; h_score := h_score h; h_attrs := h_attrs h;
     h_annotations := h_annotations h; h_context := c |}.

Definition hit_key (h : Hit) : rstring * rstring := (h_collection h, h_id h).

Inductive Projection := PrAll | PrInclude (keys : list rstring) | PrExclude (keys : list rstring).

Definition projection_apply (p : Projection) (attrs : attrs_map) : attrs_map :=
  match p with
  | PrAll => attrs
  | PrInclude keys => list_to_map (omap (fun k => (fun v => (k, v)) <$> attrs !! k) keys)
  | PrExclude keys => filter (fun kv => kv.1 ∉ keys) attrs
  end.

Inductive Pool := PoolMax | PoolSum.

Record LimitPer := { lp_field : rstring; lp_max : nat }.

Record Expand := {
  e_parent_field : rstring;
  e_index_field : rstring;
  e_text_field : rstring;
  e_radius : N
}.

Definition META_TEXT : rstring := lit "nidus.text".
Definition META_PARENT_ID : rstring := lit "nidus.parent_id".
Definition META_CHUNK_INDEX : rstring := lit "nidus.chunk_index".
Definition META_CHAR_START : rstring := lit "nidus.char_start".

Definition Expand_new (radius : N) : Expand :=
  {| e_parent_field := META_PARENT_ID; e_index_field := META_CHUNK_INDEX; e_text_field := META_TEXT;
     e_radius := radius |}.

Record OrderBy := { ob_field : rstring; ob_descending : bool }.

Record Decay := {
  d_field : rstring;
  d_origin : Z;
  d_scale : Z;
  d_decay : f32;
  d_lambda : f32;
  d_missing : f32;
  d_count_field : option rstring;
  d_count_scale : f32;
  d_count_lambda : f32
}.
Inductive RankBy := RankDecay (d : Decay).

Record RerankOpts := { ro_overscan : nat; ro_text_attr : rstring }.

Record SearchOpts := {
  so_top_k : nat;
  so_offset : nat;
  so_filter : Filter;
  so_min_score : option f32;
  so_exact : bool;
  so_projection : Projection;
  so_explain : bool;
  so_plan : bool;
  so_rank_by : option RankBy;
  so_limit_per : option LimitPer;
  so_diversity : option f32;
  so_rerank : option RerankOpts;
  so_expand : option Expand;
  so_names : list rstring;
  so_name_weights : gmap rstring f32;
  so_pool : Pool
}.

Record ListOpts := {
  lo_offset : nat;
  lo_limit : nat;
  lo_filter : Filter;
  lo_projection : Projection;
  lo_order_by : option OrderBy
}.

(** ** Reciprocal rank fusion *)

Abbreviation LegScores := (list (option (nat * f32))) (only parsing).

Record FusionLeg := { fl_hits : list Hit; fl_weight : f32 }.
Definition FusionLeg_new (hits : list Hit) : FusionLeg := {| fl_hits := hits; fl_weight := f32_one |}.
Definition FusionLeg_weight (w : f32) (l : FusionLeg) : FusionLeg :=
  {| fl_hits := fl_hits l; fl_weight := w |}.

Record Acc := { acc_score : f32; acc_attrs : attrs_map; acc_legs : LegScores }.

Definition contribution (weight rrf_k : f32) (rank : nat) : f32 :=
  f32_mul weight (f32_div f32_one (f32_add (f32_add rrf_k (f32_of_Z (Z.of_nat rank))) f32_one)).

(** One hit of leg [leg_idx]. *)
Definition fuse_hit (leg_count leg_idx : nat) (weight rrf_k : f32)
    (fused : gmap (rstring * rstring) Acc) (rh : nat * Hit) : gmap (rstring * rstring) Acc :=
  let '(rank, h) := rh in
  let e := default {| acc_score := f32_zero; acc_attrs := h_attrs h;
                      acc_legs := replicate leg_count None |} (fused !! hit_key h) in
  <[hit_key h := {| acc_score := f32_add (acc_score e) (contribution weight rrf_k rank);
                    acc_attrs := acc_attrs e;
                    acc_legs := <[leg_idx := Some (rank, h_score h)]> (acc_legs e) |}]> fused.

Definition fuse_leg (leg_count : nat) (rrf_k : f32) (fused : gmap (rstring * rstring) Acc)
    (il : nat * FusionLeg) : gmap (rstring * rstring) Acc :=
  foldl (fuse_hit leg_count il.1 (fl_weight il.2) rrf_k) fused (imap pair (fl_hits il.2)).

Definition fused_cmp : Hit * LegScores -> Hit * LegScores -> comparison :=
  cmp_then (cmp_on (fun a => h_score a.1) score_desc)
    (cmp_then (cmp_on (fun a => h_collection a.1) str_cmp) (cmp_on (fun a => h_id a.1) str_cmp)).

Section fuse.
(** The iteration order of the map. *)
Context (order : list ((rstring * rstring) * Acc) -> list ((rstring * rstring) * Acc)).

Definition rrf_fuse (legs : list FusionLeg) (rrf_k : f32) : list (Hit * LegScores) :=
  let fused := foldl (fuse_leg (length legs) rrf_k) ∅ (imap pair legs) in
  sort_by fused_cmp
    (map (fun ka => (Hit_new ka.1.1 ka.1.2 (acc_score ka.2) (acc_attrs ka.2), acc_legs ka.2))
      (order (map_to_list fused))).
End fuse.

(** ** Fusion, document by document *)

(** Rank and hit of a document in a leg. *)
Definition leg_rank (key : rstring * rstring) (leg : FusionLeg) : option (nat * Hit) :=
  list_find (fun h => hit_key h = key) (fl_hits leg).

Definition doc_legs (key : rstring * rstring) (legs : list FusionLeg) : LegScores :=
  map (fun leg => (fun rh : nat * Hit => (rh.1, h_score rh.2)) <$> leg_rank key leg) legs.
Definition doc_score (key : rstring * rstring) (rrf_k : f32) (legs : list FusionLeg) : f32 :=
  foldl f32_add f32_zero
    (omap (fun leg => (fun rh : nat * Hit => contribution (fl_weight leg) rrf_k rh.1)
                        <$> leg_rank key leg) legs).
Definition doc_attrs (key : rstring * rstring) (legs : list FusionLeg) : attrs_map :=
  default ∅ (head (omap (fun leg => (fun rh : nat * Hit => h_attrs rh.2) <$> leg_rank key leg) legs)).

Definition in_leg (key : rstring * rstring) (leg : FusionLeg) : Prop := is_Some (leg_rank key leg).
#[export] Instance in_leg_dec key leg : Decision (in_leg key leg).
Proof. unfold in_leg. apply _. Defined.

(** A leg ranks each document once. *)
Definition leg_ok (leg : FusionLeg) : Prop := NoDup (hit_key <$> fl_hits leg).

Section fuse_spec.
Context (n : nat) (rrf_k : f32).

Lemma fuse_hits_lookup (i : nat) (w : f32) (hits : list Hit) (from : nat)
    (m : gmap (rstring * rstring) Acc) (key : rstring * rstring) :
  NoDup (hit_key <$> hits) ->
  foldl (fuse_hit n i w rrf_k) m (imap (fun r h => (from + r, h))%nat hits) !! key =
  match list_find (fun h => hit_key h = key) hits with
  | None => m !! key
  | Some (r, h) =>
      let e := default {| acc_score := f32_zero; acc_attrs := h_attrs h;
                          acc_legs := replicate n None |} (m !! key) in
      Some {| acc_score := f32_add (acc_score e) (contribution w rrf_k (from + r));
              acc_attrs := acc_attrs e;
              acc_legs := <[i := Some ((from + r)%nat, h_score h)]> (acc_legs e) |}
  end.
Proof.
  revert from m. induction hits as [|h hits IH]; intros from m Hnd; [done|].
  cbn [fmap list_fmap] in Hnd. apply NoDup_cons in Hnd as [Hni Hnd].
  cbn [imap foldl]. rewrite Nat.add_0_r.
  assert (imap ((fun r h0 => (from + r, h0)) ∘ S)%nat hits = imap (fun r h0 => (S from + r, h0))%nat hits)
    as ->.
  { apply imap_ext. intros r x _. cbn. f_equal. lia. }
  rewrite IH by done. cbn [list_find]. destruct (decide (hit_key h = key)) as [<-|Hne].
  - assert (list_find (fun h0 => hit_key h0 = hit_key h) hits = None) as ->.
    { apply list_find_None, Forall_forall. intros x Hx E. apply Hni.
      apply list_elem_of_fmap. by exists x. }
    cbn [fuse_hit]. by rewrite lookup_insert_eq, Nat.add_0_r.
  - cbn [fuse_hit]. rewrite lookup_insert_ne by done.
    destruct (list_find _ hits) as [[r x]|]; cbn; [|done].
    by rewrite Nat.add_succ_r.
Qed.

Lemma fuse_leg_lookup (i : nat) (leg : FusionLeg) (m : gmap (rstring * rstring) Acc)
    (key : rstring * rstring) :
  leg_ok leg ->
  fuse_leg n rrf_k m (i, leg) !! key =
  match leg_rank key leg with
  | None => m !! key
  | Some (r, h) =>
      let e := default {| acc_score := f32_zero; acc_attrs := h_attrs h;
                          acc_legs := replicate n None |} (m !! key) in
      Some {| acc_score := f32_add (acc_score e) (contribution (fl_weight leg) rrf_k r);
              acc_attrs := acc_attrs e;
              acc_legs := <[i := Some (r, h_score h)]> (acc_legs e) |}
  end.
Proof. exact (fuse_hits_lookup i (fl_weight leg) (fl_hits leg) 0 m key). Qed.

(** The accumulator of a document after the first legs. *)
Definition doc_acc (key : rstring * rstring) (legs : list FusionLeg) : option Acc :=
  if decide (Exists (in_leg key) legs) then
    Some {| acc_score := doc_score key rrf_k legs; acc_attrs := doc_attrs key legs;
            acc_legs := doc_legs key legs ++ replicate (n - length legs) None |}
  else None.

Lemma doc_legs_snoc key legs leg :
  doc_legs key (legs ++ [leg]) =
  doc_legs key legs ++ [(fun rh : nat * Hit => (rh.1, h_score rh.2)) <$> leg_rank key leg].
Proof. apply map_app. Qed.

Lemma doc_score_snoc key legs leg :
  doc_score key rrf_k (legs ++ [leg]) =
  match leg_rank key leg with
  | Some rh => f32_add (doc_score key rrf_k legs) (contribution (fl_weight leg) rrf_k rh.1)
  | None => doc_score key rrf_k legs
  end.
Proof.
  unfold doc_score. rewrite omap_app, foldl_app. cbn. by destruct (leg_rank key leg).
Qed.

Lemma not_in_legs key (legs : list FusionLeg) {B} (f : FusionLeg -> nat * Hit -> B) :
  ~ Exists (in_leg key) legs -> omap (fun leg => f leg <$> leg_rank key leg) legs = [].
Proof.
  intros H. induction legs as [|leg legs IH]; [done|]. cbn.
  destruct (leg_rank key leg) eqn:E; [exfalso; apply H; constructor; by exists p|].
  apply IH. intros Hex. apply H. by constructor.
Qed.

Lemma doc_attrs_snoc key legs leg :
  doc_attrs key (legs ++ [leg]) =
  if decide (Exists (in_leg key) legs) then doc_attrs key legs
  else match leg_rank key leg with Some rh => h_attrs rh.2 | None => ∅ end.
Proof.
  unfold doc_attrs. rewrite omap_app. destruct (decide (Exists (in_leg key) legs)) as [Hin|Hni].
  - induction Hin as [l legs' [rh Hrh]|l legs' _ IH]; cbn; [by rewrite Hrh|].
    destruct (leg_rank key l); [done|]. apply IH.
  - rewrite not_in_legs by done. cbn. by destruct (leg_rank key leg).
Qed.

Lemma fuse_acc (legs : list FusionLeg) (key : rstring * rstring) :
  (length legs <= n)%nat -> Forall leg_ok legs ->
  foldl (fuse_leg n rrf_k) ∅ (imap pair legs) !! key = doc_acc key legs.
Proof.
  intros Hn Hok. induction legs as [|leg legs IH] using rev_ind.
  { cbn. rewrite lookup_empty. unfold doc_acc. by destruct (decide _) as [H%Exists_nil|]. }
  apply Forall_app in Hok as [Hok Hleg]. rewrite Forall_singleton in Hleg.
  rewrite length_app in Hn. cbn in Hn. specialize (IH ltac:(lia) Hok).
  rewrite imap_app, foldl_app. cbn [imap foldl]. rewrite Nat.add_0_r.
  rewrite fuse_leg_lookup, IH by done. unfold doc_acc.
  rewrite doc_score_snoc, doc_attrs_snoc. rewrite doc_legs_snoc, length_app. cbn [length].
  replace (n - length legs)%nat with (S (n - (length legs + 1))) by lia.
  assert (forall x, <[length legs := x]> (doc_legs key legs ++ replicate (S (n - (length legs + 1))) None) =
    (doc_legs key legs ++ [x]) ++ replicate (n - (length legs + 1)) None) as Hins.
  { intros x. rewrite <- app_assoc. replace (length legs) with (length (doc_legs key legs) + 0)%nat
      by (unfold doc_legs; rewrite length_map; lia).
    rewrite insert_app_r. done. }
  destruct (leg_rank key leg) as [[r h]|] eqn:Er.
  - rewrite (decide_True (P := Exists (in_leg key) (legs ++ [leg])))
      by (apply Exists_app; right; constructor; by exists (r, h)).
    destruct (decide (Exists (in_leg key) legs)) as [Hin|Hni]; cbn.
    + f_equal. f_equal. apply Hins.
    + f_equal. f_equal.
      * unfold doc_score. by rewrite not_in_legs.
      * rewrite <- (Hins (Some (r, h_score h))). f_equal.
        assert (doc_legs key legs = replicate (length legs) None) as ->.
        { clear -Hni. induction legs as [|l legs IH]; [done|]. cbn.
          destruct (leg_rank key l) eqn:E; [exfalso; apply Hni; constructor; by exists p|].
          f_equal. apply IH. intros Hex. apply Hni. by constructor. }
        rewrite <- replicate_add. f_equal. lia.
  - destruct (decide (Exists (in_leg key) legs)) as [Hin|Hni].
    + rewrite decide_True by (apply Exists_app; by left). f_equal. f_equal. cbn.
      by rewrite <- app_assoc.
    + rewrite decide_False; [done|]. rewrite Exists_app. intros [?|[[? ?]|?%Exists_nil]%Exists_cons]; try done.
      congruence.
Qed.
End fuse_spec.

(** The order of the fused ranking: score descending, then collection, then id. *)
Definition fused_rank : Hit * LegScores -> Hit * LegScores -> comparison :=
  cmp_then (cmp_flip (cmp_on (fun a => h_score a.1) ord_f32))
    (cmp_then (cmp_on (fun a => h_collection a.1) str_cmp) (cmp_on (fun a => h_id a.1) str_cmp)).

#[export] Instance fused_rank_order : CmpOrder fused_rank.
Proof. unfold fused_rank. apply _. Qed.

Definition fused_entry (legs : list FusionLeg) (rrf_k : f32) (hl : Hit * LegScores) : Prop :=
  let key := hit_key hl.1 in
  Exists (in_leg key) legs /\
  hl = (Hit_new key.1 key.2 (doc_score key rrf_k legs) (doc_attrs key legs), doc_legs key legs).

(** reciprocal rank fusion is what it says, document by document: every
    document of some leg appears once, scored by the sum, in leg order, of
    [w / (k + rank + 1)] over the legs that returned it, with the attributes
    of the first of them and each leg's own rank and score; nothing else
    appears; and unless a score is NaN the ranking is sorted by score
    descending, then collection, then id, whatever order the hash map yields. *)
Theorem rrf_fuse_spec
    (order : list ((rstring * rstring) * Acc) -> list ((rstring * rstring) * Acc))
    (legs : list FusionLeg) (rrf_k : f32) :
  (forall l, order l ≡ₚ l) -> Forall leg_ok legs ->
  let out := rrf_fuse order legs rrf_k in
  NoDup (map (fun hl => hit_key hl.1) out) /\
  (forall hl, hl ∈ out <-> fused_entry legs rrf_k hl) /\
  ((forall key, f32_is_nan (doc_score key rrf_k legs) = false) ->
   StronglySorted (cmp_le fused_rank) out).
Proof.
  intros Hord Hok out.
  set (m := foldl (fuse_leg (length legs) rrf_k) ∅ (imap pair legs)).
  assert (forall key, m !! key = doc_acc (length legs) rrf_k key legs) as Hm
    by (intros key; by apply fuse_acc).
  set (f := fun ka : (rstring * rstring) * Acc =>
    (Hit_new ka.1.1 ka.1.2 (acc_score ka.2) (acc_attrs ka.2), acc_legs ka.2)) in *.
  assert (out ≡ₚ map f (map_to_list m)) as Hp.
  { unfold out, rrf_fuse. rewrite sort_by_perm. by rewrite Hord. }
  assert (forall hl, hl ∈ out <-> fused_entry legs rrf_k hl) as Hin.
  { intros hl. rewrite Hp. rewrite list_elem_of_fmap. split.
    - intros ([[c id] a] & -> & Ha%elem_of_map_to_list). rewrite Hm in Ha. unfold doc_acc in Ha.
      destruct (decide _) as [Hex|]; [|done]. injection Ha as <-. split; [done|].
      unfold f. cbn. by rewrite Nat.sub_diag, app_nil_r.
    - intros [Hex ->]. set (key := hit_key hl.1) in *.
      exists (key, {| acc_score := doc_score key rrf_k legs; acc_attrs := doc_attrs key legs;
        acc_legs := doc_legs key legs |}). split; [done|].
      apply elem_of_map_to_list. rewrite Hm. unfold doc_acc. rewrite decide_True by done.
      by rewrite Nat.sub_diag, app_nil_r. }
  split; [|split; [done|]].
  - rewrite Hp, map_map. replace (map _ (map_to_list m)) with (map_to_list m).*1.
    + apply NoDup_fst_map_to_list.
    + apply map_ext. by intros [[c id] a].
  - intros Hnan. unfold out, rrf_fuse. fold m. fold f.
    rewrite (sort_by_ext fused_cmp fused_rank); [apply sort_by_sorted; apply _|].
    intros x y Hx Hy.
    assert (forall z, z ∈ map f (order (map_to_list m)) -> f32_is_nan (h_score z.1) = false) as Hz.
    { intros z Hz. assert (z ∈ out) as [_ ->]%Hin; [|apply Hnan].
      rewrite Hp. by rewrite <- Hord. }
    unfold fused_cmp, fused_rank, cmp_then, cmp_on, cmp_flip. by rewrite score_desc_ord by eauto.
Qed.

(** Two legs that share a document. *)
Definition ex_hit (id : string) (score : f32) : Hit := Hit_new (lit "c") (lit id) score ∅.
Definition ex_legs : list FusionLeg :=
  [FusionLeg_new [ex_hit "a" f32_one; ex_hit "b" f32_half]; FusionLeg_new [ex_hit "b" f32_ten]].

Lemma rrf_fuse_spec_witness :
  map (fun hl => h_id hl.1) (rrf_fuse id ex_legs f32_sixty) = [lit "b"; lit "a"] /\
  NoDup (map (fun hl => hit_key hl.1) (rrf_fuse id ex_legs f32_sixty)) /\
  (forall hl, hl ∈ rrf_fuse id ex_legs f32_sixty <-> fused_entry ex_legs f32_sixty hl).
Proof.
  split; [by vm_compute|].
  destruct (rrf_fuse_spec id ex_legs f32_sixty) as (H1 & H2 & _); [done| |by split].
  repeat constructor; set_solver.
Defined.
