(* ===== verification/Mmr.v ===== *)
(** * Mmr: result diversity ([src/src/store/diversity.rs])

    [select] reorders the head of a ranking greedily by maximal marginal
    relevance.  Its redundancy terms are updated incrementally; the
    specification recomputes them from the candidates selected so far. *)
From S2P Require Import Prelude Floats Model Sort Hits Segments Replay Store.

Definition MMR_OVERFETCH : nat := 4.
Definition MAX_DIVERSITY_WINDOW : nat := 512.

Inductive diversity_error := BadLambda.

Definition diversity_validate (diversity : option f32) : result diversity_error unit :=
  match diversity with
  | None => Ok tt
  | Some lambda =>
      if negb (f32_is_finite lambda) || negb (f32_leb f32_zero lambda && f32_leb lambda f32_one)
      then Err BadLambda else Ok tt
  end.

(** [iter().sum::<f32>()] of the products. *)
Definition sum_products (a b : list f32) : f32 :=
  foldl f32_add f32_neg_zero (zip_with f32_mul a b).

Definition cosine (a : list f32) (na : f32) (b : list f32) (nb : f32) : f32 :=
  if f32_leb na f32_zero || f32_leb nb f32_zero then f32_zero
  else f32_div (sum_products a b) (f32_mul na nb).

Abbreviation Candidate := (option (list f32 * f32)) (only parsing).

Section select.
Context (window : list Candidate) (scores : list f32) (lambda : f32).

Definition mmr_value (score max_sim : f32) : f32 :=
  f32_sub (f32_mul lambda score) (f32_mul (f32_sub f32_one lambda) max_sim).

(** One turn of the search for the best candidate. *)
Definition best_step (taken : list bool) (max_sim : list f32) (best : option (nat * f32)) (i : nat)
  : option (nat * f32) :=
  if default false (taken !! i) then best
  else
    let mmr := mmr_value (default f32_zero (scores !! i)) (default f32_zero (max_sim !! i)) in
    match best with
    | None => Some (i, mmr)
    | Some (_, b) => if f32_ltb b mmr then Some (i, mmr) else best
    end.

Definition sim_step (taken : list bool) (pv : list f32) (pn : f32) (max_sim : list f32) (i : nat)
  : list f32 :=
  if default false (taken !! i) then max_sim
  else
    match window !! i with
    | Some (Some (v, nrm)) => alter (fun m => f32_max m (cosine pv pn v nrm)) i max_sim
    | _ => max_sim
    end.

Fixpoint select_loop (fuel : nat) (taken : list bool) (max_sim : list f32) (order : list nat)
  : list nat :=
  match fuel with
  | O => order
  | S fuel' =>
      match foldl (best_step taken max_sim) None (seq 0 (length window)) with
      | None => order
      | Some (pick, _) =>
          let taken := <[pick := true]> taken in
          let max_sim :=
            match window !! pick with
            | Some (Some (pv, pn)) => foldl (sim_step taken pv pn) max_sim (seq 0 (length window))
            | _ => max_sim
            end in
          select_loop fuel' taken max_sim (order ++ [pick])
      end
  end.

Definition select : list nat :=
  let n := length window in
  select_loop n (replicate n false) (replicate n f32_zero) [].

(** ** The specification *)

(** How redundant candidate [i] is with the ones selected, in order. *)
Definition redundancy (selected : list nat) (i : nat) : f32 :=
  foldl (fun m j =>
    match window !! j, window !! i with
    | Some (Some (pv, pn)), Some (Some (v, nrm)) => f32_max m (cosine pv pn v nrm)
    | _, _ => m
    end) f32_zero selected.

(** The marginal relevance of [i] once [selected] are taken. *)
Definition relevance (selected : list nat) (i : nat) : f32 :=
  mmr_value (default f32_zero (scores !! i)) (redundancy selected i).

(** [i] is a greedy choice: no candidate left is more relevant, and none that
    ranked before [i] is as relevant. *)
Definition greedy (selected : list nat) (i : nat) : Prop :=
  (i < length window)%nat /\ i ∉ selected /\
  forall j, (j < length window)%nat -> j ∉ selected ->
    (forall k, (k < length window)%nat -> k ∉ selected -> f32_is_nan (relevance selected k) = false) ->
    ord_f32 (relevance selected j) (relevance selected i) <> Gt /\
    ((j < i)%nat -> ord_f32 (relevance selected j) (relevance selected i) = Lt).

(** The loop's state mirrors the candidates selected so far. *)
Record mirrors (taken : list bool) (max_sim : list f32) (order : list nat) : Prop := {
  mi_taken : length taken = length window;
  mi_len : length max_sim = length window;
  mi_nodup : NoDup order;
  mi_bound : Forall (fun i => (i < length window)%nat) order;
  mi_flag i : (i < length window)%nat -> taken !! i = Some (bool_decide (i ∈ order));
  mi_sim i : (i < length window)%nat -> i ∉ order -> max_sim !! i = Some (redundancy order i)
}.

Lemma f32_ltb_ord a b :
  f32_is_nan a = false -> f32_is_nan b = false ->
  f32_ltb a b = match ord_f32 a b with Lt => true | _ => false end.
Proof.
  intros Ha Hb. unfold ord_f32. rewrite Ha, Hb. unfold f32_ltb, f_ltb, f32_partial_cmp.
  apply not_true_iff_false in Ha, Hb. rewrite is_nan_sf in Ha, Hb. unfold f_partial_cmp.
  rewrite sf_compare_key by done. cbn. by destruct (key_cmp _ _).
Qed.

(** The scan keeps a running maximum of the candidates left. *)
Lemma best_scan (taken : list bool) (max_sim : list f32) (order : list nat) (k : nat) :
  mirrors taken max_sim order -> (k <= length window)%nat ->
  match foldl (best_step taken max_sim) None (seq 0 k) with
  | None => forall j, (j < k)%nat -> j ∈ order
  | Some (i, b) => (i < k)%nat /\ i ∉ order /\ b = relevance order i /\
      forall j, (j < k)%nat -> j ∉ order ->
        (forall k, (k < length window)%nat -> k ∉ order -> f32_is_nan (relevance order k) = false) ->
        ord_f32 (relevance order j) (relevance order i) <> Gt /\
        ((j < i)%nat -> ord_f32 (relevance order j) (relevance order i) = Lt)
  end.
Proof.
  intros Hm. induction k as [|k IH]; intros Hk; [intros j; cbn; lia|].
  rewrite seq_S, foldl_app. cbn [foldl]. rewrite Nat.add_0_l. specialize (IH ltac:(lia)).
  destruct (foldl _ None (seq 0 k)) as [[i b]|] eqn:E.
  - destruct IH as (Hi & Hni & -> & Hbest). unfold best_step.
    rewrite (mi_flag _ _ _ Hm k) by lia. cbn [from_option id].
    case_bool_decide as Hin.
    { split_and!; [lia|done|done|]. intros j Hj Hnj. apply Hbest; [|done].
      assert (j <> k) by (by intros ->). lia. }
    rewrite (mi_sim _ _ _ Hm k) by (lia || done). cbn [from_option id].
    fold (relevance order k).
    destruct (f32_ltb (relevance order i) (relevance order k)) eqn:El.
    + split_and!; [lia|done|done|]. intros j Hj Hnj Hnan.
      rewrite f32_ltb_ord in El by (apply Hnan; (done || lia)).
      destruct (ord_f32 (relevance order i) (relevance order k)) eqn:Eik; try done.
      destruct (decide (j = k)) as [->|Hjk].
      { split; [by rewrite (cmp_refl ord_f32) by apply _|lia]. }
      assert (ord_f32 (relevance order j) (relevance order k) = Lt) as ->; [|done].
      destruct (Hbest j ltac:(lia) Hnj Hnan) as [Hle _].
      by apply (cmp_le_lt_trans ord_f32 _ (relevance order i)).
    + split_and!; [lia|done|done|]. intros j Hj Hnj Hnan.
      destruct (decide (j = k)) as [->|Hjk].
      * split; [|lia]. rewrite f32_ltb_ord in El by (apply Hnan; (done || lia)).
        rewrite (cmp_antisym ord_f32 (relevance order i)).
        by destruct (ord_f32 (relevance order i) (relevance order k)).
      * apply Hbest; (done || lia).
  - unfold best_step. rewrite (mi_flag _ _ _ Hm k) by lia. cbn [from_option id].
    case_bool_decide as Hin.
    { intros j Hj. destruct (decide (j = k)) as [->|]; [done|]. apply IH. lia. }
    rewrite (mi_sim _ _ _ Hm k) by (lia || done). cbn [from_option id].
    split_and!; [lia|done|done|]. intros j Hj Hnj Hnan.
    destruct (decide (j = k)) as [->|Hjk]; [|by destruct Hnj; apply IH; lia].
    split; [by rewrite (cmp_refl ord_f32) by apply _|lia].
Qed.

Lemma sim_scan (taken : list bool) (pv : list f32) (pn : f32) (max_sim : list f32) (k i : nat) :
  (k <= length max_sim)%nat ->
  length (foldl (sim_step taken pv pn) max_sim (seq 0 k)) = length max_sim /\
  foldl (sim_step taken pv pn) max_sim (seq 0 k) !! i =
  if bool_decide (i < k)%nat && negb (default false (taken !! i)) then
    match window !! i with
    | Some (Some (v, nrm)) => (fun m => f32_max m (cosine pv pn v nrm)) <$> max_sim !! i
    | _ => max_sim !! i
    end
  else max_sim !! i.
Proof.
  induction k as [|k IH]; intros Hk; [done|].
  rewrite seq_S, foldl_app. cbn [foldl]. rewrite Nat.add_0_l. destruct (IH ltac:(lia)) as [Hl IHi].
  set (ms := foldl (sim_step taken pv pn) max_sim (seq 0 k)) in *. unfold sim_step.
  destruct (decide (i = k)) as [->|Hne].
  - rewrite bool_decide_eq_false_2 in IHi by lia. cbn [andb] in IHi.
    rewrite bool_decide_eq_true_2 by lia. cbn [andb].
    destruct (default false (taken !! k)); cbn [negb]; [done|].
    destruct (window !! k) as [[[v nrm]|]|]; [|done..].
    by rewrite length_alter, list_lookup_alter_eq, IHi.
  - assert (bool_decide (i < S k)%nat = bool_decide (i < k)%nat) as -> by (apply bool_decide_ext; lia).
    destruct (default false (taken !! k)); [done|].
    destruct (window !! k) as [[[v nrm]|]|]; [|done..].
    rewrite length_alter, list_lookup_alter_ne by done. done.
Qed.

Lemma redundancy_snoc order j i :
  redundancy (order ++ [j]) i =
  match window !! j, window !! i with
  | Some (Some (pv, pn)), Some (Some (v, nrm)) => f32_max (redundancy order i) (cosine pv pn v nrm)
  | _, _ => redundancy order i
  end.
Proof. unfold redundancy at 1. by rewrite foldl_app. Qed.

Lemma mirrors_pick taken max_sim order pick :
  mirrors taken max_sim order -> (pick < length window)%nat -> pick ∉ order ->
  mirrors (<[pick := true]> taken)
    (match window !! pick with
     | Some (Some (pv, pn)) =>
         foldl (sim_step (<[pick := true]> taken) pv pn) max_sim (seq 0 (length window))
     | _ => max_sim
     end) (order ++ [pick]).
Proof.
  intros Hm Hp Hni. pose proof (mi_taken _ _ _ Hm) as Hlt. pose proof (mi_len _ _ _ Hm) as Hll.
  assert (forall i, (i < length window)%nat ->
    <[pick := true]> taken !! i = Some (bool_decide (i ∈ order ++ [pick]))) as Hflag.
  { intros i Hi. destruct (decide (i = pick)) as [->|Hne].
    - rewrite list_lookup_insert_eq by lia. f_equal. symmetry. apply bool_decide_eq_true.
      apply elem_of_app. right. constructor.
    - rewrite list_lookup_insert_ne, (mi_flag _ _ _ Hm) by done. f_equal. apply bool_decide_ext.
      rewrite elem_of_app, list_elem_of_singleton. tauto. }
  split.
  - by rewrite length_insert.
  - destruct (window !! pick) as [[[pv pn]|]|]; [|done..].
    by rewrite (proj1 (sim_scan _ pv pn max_sim (length window) 0 ltac:(lia))).
  - apply NoDup_app. split; [apply Hm|]. split; [|apply NoDup_singleton].
    intros x Hx ->%list_elem_of_singleton. done.
  - apply Forall_app. split; [apply Hm|by constructor].
  - exact Hflag.
  - intros i Hi Hnin. rewrite redundancy_snoc.
    assert (i ∉ order) as Hnio by (intros ?; apply Hnin, elem_of_app; by left).
    destruct (window !! pick) as [[[pv pn]|]|]; [|by apply (mi_sim _ _ _ Hm)..].
    rewrite (proj2 (sim_scan _ pv pn max_sim (length window) i ltac:(lia))).
    rewrite bool_decide_eq_true_2, (Hflag i Hi) by done.
    rewrite bool_decide_eq_false_2 by done. cbn [from_option id negb andb].
    rewrite (mi_sim _ _ _ Hm i Hi Hnio). by destruct (window !! i) as [[[v nrm]|]|].
Qed.

Lemma select_loop_spec (fuel : nat) taken max_sim order :
  mirrors taken max_sim order -> (length window = length order + fuel)%nat ->
  (forall p i, order !! p = Some i -> greedy (take p order) i) ->
  let out := select_loop fuel taken max_sim order in
  out ≡ₚ seq 0 (length window) /\ forall p i, out !! p = Some i -> greedy (take p out) i.
Proof.
  revert taken max_sim order. induction fuel as [|fuel IH]; intros taken max_sim order Hm Hl Hg; cbn zeta.
  { split; [|done]. cbn [select_loop].
    apply submseteq_length_Permutation; [|rewrite length_seq; lia].
    apply NoDup_submseteq; [apply Hm|]. intros i Hi. apply elem_of_seq.
    pose proof (proj1 (Forall_forall _ _) (mi_bound _ _ _ Hm) i Hi). cbn in *. lia. }
  cbn [select_loop]. pose proof (best_scan taken max_sim order (length window) Hm ltac:(lia)) as Hb.
  destruct (foldl _ None _) as [[pick b]|]; cycle 1.
  { exfalso. assert (length (seq 0 (length window)) <= length order)%nat as Hle.
    { apply submseteq_length, NoDup_submseteq; [apply NoDup_seq|]. intros j Hj%elem_of_seq.
      apply Hb. lia. }
    rewrite length_seq in Hle. lia. }
  destruct Hb as (Hp & Hni & -> & Hbest). apply IH.
  - by apply mirrors_pick.
  - rewrite length_app. cbn. lia.
  - intros p i Hpi. destruct (decide (p < length order)%nat) as [Hlt|Hge].
    + rewrite lookup_app_l in Hpi by done. rewrite take_app_le by lia. by apply Hg.
    + assert (p = length order) as ->.
      { apply lookup_lt_Some in Hpi. rewrite length_app in Hpi. cbn in Hpi. lia. }
      rewrite list_lookup_middle in Hpi by done. injection Hpi as <-.
      rewrite take_app_length. by split_and!.
Qed.

Lemma select_spec :
  select ≡ₚ seq 0 (length window) /\ forall p i, select !! p = Some i -> greedy (take p select) i.
Proof.
  apply select_loop_spec; [|done|by intros p i Hp].
  split; [apply length_replicate..|constructor|constructor| |].
  - intros i Hi. by rewrite lookup_replicate_2.
  - intros i Hi _. by rewrite lookup_replicate_2.
Qed.
End select.

(** ** On the store *)

(** The vector a hit is measured by: the first of the queried names it has,
    else its representative row. *)
Definition candidate_of (s : Store) (names : list rstring) (h : Hit) : Candidate :=
  col ← st_collections s !! h_collection h;
  e ← cl_docs col !! h_id h;
  row ← match head (omap (fun n => de_rows e !! n) names) with
        | Some r => Some r
        | None => primary_row e
        end;
  let v := segments_row row (st_data s) in
  Some (v, f32_sqrt (sum_products v v)).

Definition diversify (s : Store) (lambda : f32) (names : list rstring) (ranked : list Hit) : list Hit :=
  let width := Nat.min (length ranked) MAX_DIVERSITY_WINDOW in
  if (width <? 2)%nat then ranked
  else
    let tail := drop width ranked in
    let head := take width ranked in
    let order := select (map (candidate_of s names) head) (map h_score head) lambda in
    omap (fun i => head !! i) order ++ tail.

Lemma omap_lookup_seq {A} (l : list A) : omap (fun i => l !! i) (seq 0 (length l)) = l.
Proof.
  induction l as [|x l IH]; [done|]. cbn. f_equal. rewrite <- fmap_S_seq.
  transitivity (omap (fun i => l !! i) (seq 0 (length l))); [|exact IH].
  generalize (seq 0 (length l)). intros idx. induction idx as [|i idx IHi]; [done|]. cbn.
  destruct (l !! i); by rewrite IHi.
Qed.

(** Diversity loses and repeats nothing. *)
Lemma diversify_perm (s : Store) (lambda : f32) (names : list rstring) (ranked : list Hit) :
  diversify s lambda names ranked ≡ₚ ranked.
Proof.
  unfold diversify. set (width := Nat.min (length ranked) MAX_DIVERSITY_WINDOW).
  destruct (Nat.ltb_spec width 2); [done|].
  destruct (select_spec (map (candidate_of s names) (take width ranked)) (map h_score (take width ranked)) lambda) as [Hp _].
  rewrite Hp, length_map, omap_lookup_seq. by rewrite take_drop.
Qed.

(** C35: diversity loses nothing and is greedy: [diversify] permutes the ranking,
    leaves everything past the window where it was, and in the window picks
    at each step a candidate of the highest marginal relevance given exactly
    those picked before, ties to the one that ranked first; the incremental
    redundancy terms equal the recomputed ones. *)
Theorem diversify_spec (s : Store) (lambda : f32) (names : list rstring) (ranked : list Hit) :
  let width := Nat.min (length ranked) MAX_DIVERSITY_WINDOW in
  let window := map (candidate_of s names) (take width ranked) in
  let scores := map h_score (take width ranked) in
  let out := diversify s lambda names ranked in
  out ≡ₚ ranked /\ drop width out = drop width ranked /\
  ((2 <= width)%nat -> exists order,
    order ≡ₚ seq 0 width /\ take width out = omap (fun i => ranked !! i) order /\
    forall p i, order !! p = Some i -> greedy window scores lambda (take p order) i).
Proof.
  intros width window scores out.
  destruct (select_spec window scores lambda) as [Hperm Hgreedy].
  assert (length window = width) as Hlw.
  { unfold window. rewrite length_map, length_take. unfold width. lia. }
  rewrite Hlw in Hperm.
  unfold out, diversify. fold width. fold window scores.
  destruct (Nat.ltb_spec width 2) as [Hlt|Hge].
  { split; [done|]. split; [done|]. lia. }
  set (picked := omap (fun i => take width ranked !! i) (select window scores lambda)).
  assert (picked ≡ₚ take width ranked) as Hpk.
  { unfold picked. rewrite Hperm.
    replace width with (length (take width ranked)) at 1 by (rewrite length_take; unfold width; lia).
    by rewrite omap_lookup_seq. }
  assert (length picked = width) as Hlp by (rewrite Hpk, length_take; unfold width; lia).
  split_and!.
  - rewrite Hpk. by rewrite take_drop.
  - by apply drop_app_length'.
  - intros _. exists (select window scores lambda). split_and!; [done| |done].
    rewrite take_app_length' by done. unfold picked.
    assert (Forall (fun i => (i < width)%nat) (select window scores lambda)) as Hb.
    { rewrite Hperm. apply Forall_forall. intros i Hi%elem_of_seq. lia. }
    clear -Hb. induction Hb as [|i l Hi _ IH]; [done|]. cbn.
    rewrite lookup_take_lt by done. destruct (ranked !! i); [by rewrite IH|exact IH].
Qed.
