(* ===== verification/Aggregate.v ===== *)
(** * Aggregate: counts, sums and per-value caps ([src/src/store/aggregate.rs])

    One pass over the live documents accumulates totals and groups;
    [cap_per_value] thins a ranking.  The order in which a [HashMap] yields
    its keys is [HashOrder]. *)
From S2P Require Import Prelude Floats Model TextPred Filter Sort Hits Manifest Lease Replay Store.

Local Open Scope Z_scope.

Record AggregateOpts := {
  ao_filter : Filter;
  ao_sum : list rstring;
  ao_group_by : option rstring
}.
Record Group := { g_value : option Value; g_count : N; g_sums : gmap rstring Value }.
Record Aggregation := {
  ag_count : N;
  ag_sums : gmap rstring Value;
  ag_groups : list Group;
  ag_groups_truncated : bool
}.

Definition LIMIT_PER_OVERFETCH : nat := 8.
Definition MAX_GROUPS : nat := 100 * 100.

Inductive cap_error := CapNoField | CapZero.
Definition limit_per_validate (limit_per : option LimitPer) : result cap_error unit :=
  match limit_per with
  | None => Ok tt
  | Some cap =>
      if bool_decide (lp_field cap = []) then Err CapNoField
      else if (lp_max cap =? 0)%nat then Err CapZero else Ok tt
  end.

Definition validate_group_by (group_by : option rstring) : result cap_error unit :=
  if bool_decide (group_by = Some []) then Err CapNoField else Ok tt.

(** ** Group keys *)

(** [i64] and [u64] in a format string. *)
Definition i64_to_string (z : Z) : rstring :=
  if z <? 0 then lit "-" ++ u64_to_string (Z.to_N (- z)) else u64_to_string (Z.to_N z).

Definition hex_digit (d : Z) : char := Z.to_N (if d <? 10 then 48 + d else 87 + d).
(** [{:016x}], [n] digits. *)
Fixpoint hex_digits (n : nat) (z : Z) : rstring :=
  match n with O => [] | S n' => hex_digits n' (z / 16) ++ [hex_digit (z mod 16)] end.

(** [items.join(sep)]. *)
Fixpoint join_with (sep : rstring) (l : list rstring) : rstring :=
  match l with
  | [] => []
  | [x] => x
  | x :: l' => x ++ sep ++ join_with sep l'
  end.

Definition NUL : char := 0%N.

Definition group_key (v : option Value) : rstring :=
  match v with
  | None => NUL :: lit "missing"
  | Some VNull => NUL :: lit "null"
  | Some (VStr s) => lit "s" ++ s
  | Some (VInt i) => lit "i" ++ i64_to_string i
  | Some (VBool b) => lit "b" ++ (if b then lit "true" else lit "false")
  | Some (VFloat f) => lit "f" ++ hex_digits 16 f
  | Some (VDateTime t) => lit "t" ++ i64_to_string t
  | Some (VList items) => lit "l" ++ join_with [NUL] items
  end.

(** ** Accumulators *)

Definition f64_add := f_add 52 11.
Definition f64_zero : f64 := 0.

(** Count, and per sum field: the integers exactly ([i128]), the floats, and
    whether there was one. *)
Record GAcc := { ga_count : N; ga_sums : list (Z * f64 * bool) }.

Definition GAcc_new (fields : nat) : GAcc :=
  {| ga_count := 0; ga_sums := replicate fields (0, f64_zero, false) |}.

Definition add_slot (attrs : attrs_map) (slot : Z * f64 * bool) (field : rstring) : Z * f64 * bool :=
  match attrs !! field with
  | Some (VInt n) => (slot.1.1 + n, slot.1.2, slot.2)
  | Some (VFloat f) => (slot.1.1, f64_add slot.1.2 f, true)
  | _ => slot
  end.

Definition gacc_add (attrs : attrs_map) (fields : list rstring) (a : GAcc) : GAcc :=
  {| ga_count := ga_count a + 1; ga_sums := zip_with (add_slot attrs) (ga_sums a) fields |}.

Definition finish_slot (slot : Z * f64 * bool) : Value :=
  let '(ints, floats, saw_float) := slot in
  if saw_float then VFloat (f64_add (f64_of_Z ints) floats)
  else if (i64_min <=? ints) && (ints <=? i64_max) then VInt ints else VFloat (f64_of_Z ints).

Definition gacc_finish (fields : list rstring) (a : GAcc) : gmap rstring Value :=
  foldl (fun m fs => <[fs.1 := finish_slot fs.2]> m) ∅ (zip fields (ga_sums a)).

(** ** The pass *)

Record Pass := {
  pa_total : GAcc;
  pa_groups : gmap rstring (option Value * GAcc);
  pa_truncated : bool
}.

Section aggregate.
Context `{UnicodeAlnum} `{RegexEngine} `{HashOrder}.

Definition aggregate_doc (opts : AggregateOpts) (p : Pass) (attrs : attrs_map) : Pass :=
  let total := gacc_add attrs (ao_sum opts) (pa_total p) in
  match ao_group_by opts with
  | None => {| pa_total := total; pa_groups := pa_groups p; pa_truncated := pa_truncated p |}
  | Some group_field =>
      let value := attrs !! group_field in
      let key := group_key value in
      match pa_groups p !! key with
      | Some (v, acc) =>
          {| pa_total := total; pa_groups := <[key := (v, gacc_add attrs (ao_sum opts) acc)]> (pa_groups p);
             pa_truncated := pa_truncated p |}
      | None =>
          if (MAX_GROUPS <=? size (pa_groups p))%nat then
            {| pa_total := total; pa_groups := pa_groups p; pa_truncated := true |}
          else
            let acc := gacc_add attrs (ao_sum opts) (GAcc_new (length (ao_sum opts))) in
            {| pa_total := total; pa_groups := <[key := (value, acc)]> (pa_groups p);
               pa_truncated := pa_truncated p |}
      end
  end.

(** The documents of a collection, as its [HashMap] yields them. *)
Definition docs_values (col : Collection) : list DocEntry :=
  omap (fun id => cl_docs col !! id) (hm_order (bt_keys (cl_docs col))).

Definition aggregate_collection (s : Store) (opts : AggregateOpts) (p : Pass) (col_name : rstring) : Pass :=
  match st_collections s !! col_name with
  | None => p
  | Some col =>
      foldl (fun p e => if matches (ao_filter opts) (de_attrs e) then aggregate_doc opts p (de_attrs e) else p)
        p (docs_values col)
  end.

Definition keyed_cmp : rstring * Group -> rstring * Group -> comparison :=
  cmp_then (cmp_flip (cmp_on (fun kg => g_count kg.2) N.compare)) (cmp_on fst str_cmp).

Definition aggregate (s : Store) (collections : list rstring) (opts : AggregateOpts) : Aggregation :=
  let fields := length (ao_sum opts) in
  let p := foldl (aggregate_collection s opts)
             {| pa_total := GAcc_new fields; pa_groups := ∅; pa_truncated := false |} collections in
  let keyed :=
    sort_by keyed_cmp
      (map (fun kva => (kva.1, {| g_value := kva.2.1; g_count := ga_count kva.2.2;
                                  g_sums := gacc_finish (ao_sum opts) kva.2.2 |}))
         (map_to_list (pa_groups p))) in
  {| ag_count := ga_count (pa_total p); ag_sums := gacc_finish (ao_sum opts) (pa_total p);
     ag_groups := keyed.*2; ag_groups_truncated := pa_truncated p |}.

(** ** Capping *)

Definition attrs_of (s : Store) (collection id : rstring) : option attrs_map :=
  col ← st_collections s !! collection; e ← cl_docs col !! id; Some (de_attrs e).

Definition cap_key (s : Store) (cap : LimitPer) (h : Hit) : rstring :=
  group_key (attrs_of s (h_collection h) (h_id h) ≫= fun a => a !! lp_field cap).

(** The closure of the filter: whether the hit is kept, and the counts. *)
Definition cap_step (s : Store) (cap : LimitPer) (seen : gmap rstring nat) (h : Hit)
  : bool * gmap rstring nat :=
  let key := cap_key s cap h in
  match seen !! key with
  | Some n => (S n <=? lp_max cap, <[key := S n]> seen)%nat
  | None =>
      if (MAX_GROUPS <=? size seen)%nat then (true, seen)
      else (1 <=? lp_max cap, <[key := 1]> seen)%nat
  end.

Fixpoint cap_loop (s : Store) (cap : LimitPer) (seen : gmap rstring nat) (hits : list Hit) : list Hit :=
  match hits with
  | [] => []
  | h :: hits' =>
      let r := cap_step s cap seen h in
      if r.1 then h :: cap_loop s cap r.2 hits' else cap_loop s cap r.2 hits'
  end.

Definition cap_per_value (s : Store) (hits : list Hit) (cap : LimitPer) : list Hit :=
  cap_loop s cap ∅ hits.
End aggregate.

(** ** What the accumulators hold *)

Definition int_of (field : rstring) (d : attrs_map) : option Z :=
  match d !! field with Some (VInt n) => Some n | _ => None end.
Definition float_of (field : rstring) (d : attrs_map) : option f64 :=
  match d !! field with Some (VFloat f) => Some f | _ => None end.

(** The sum of a field over documents: exact while every addend is an integer
    and the sum fits, else a float. *)
Definition sum_over (field : rstring) (ds : list attrs_map) : Value :=
  finish_slot (foldr Z.add 0 (omap (int_of field) ds), foldl f64_add f64_zero (omap (float_of field) ds),
    negb (bool_decide (omap (float_of field) ds = []))).

Definition acc_of (fields : list rstring) (ds : list attrs_map) : GAcc :=
  foldl (fun a d => gacc_add d fields a) (GAcc_new (length fields)) ds.

Lemma acc_of_snoc fields ds d : acc_of fields (ds ++ [d]) = gacc_add d fields (acc_of fields ds).
Proof. unfold acc_of. by rewrite foldl_app. Qed.

Lemma acc_of_count fields ds : ga_count (acc_of fields ds) = N.of_nat (length ds).
Proof.
  induction ds as [|d ds IH] using rev_ind; [done|].
  rewrite acc_of_snoc, length_app. cbn. rewrite IH. lia.
Qed.

Lemma foldr_add_app (l1 l2 : list Z) : foldr Z.add 0 (l1 ++ l2) = foldr Z.add 0 l1 + foldr Z.add 0 l2.
Proof. induction l1 as [|x l1 IH]; cbn; [done|]. rewrite IH. lia. Qed.

Lemma acc_of_sums fields ds :
  ga_sums (acc_of fields ds) =
  map (fun f => (foldr Z.add 0 (omap (int_of f) ds), foldl f64_add f64_zero (omap (float_of f) ds),
    negb (bool_decide (omap (float_of f) ds = [])))) fields.
Proof.
  induction ds as [|d ds IH] using rev_ind.
  { unfold acc_of. cbn. induction fields as [|f fields IHf]; [done|]. cbn. f_equal. exact IHf. }
  rewrite acc_of_snoc. cbn [gacc_add ga_sums]. rewrite IH. clear IH.
  induction fields as [|f fields IHf]; [done|]. cbn [map zip_with]. f_equal; [|exact IHf].
  rewrite !omap_app, foldr_add_app, foldl_app. unfold add_slot, int_of, float_of. cbn [omap list_omap].
  destruct (d !! f) as [[]|] eqn:E; cbn; rewrite ?E; cbn; rewrite ?app_nil_r, ?Z.add_0_r; try done.
  f_equal. rewrite bool_decide_eq_false_2; [done|]. intros H. by apply app_eq_nil in H as [_ ?].
Qed.

Lemma finish_lookup (fields : list rstring) ds f :
  f ∈ fields -> gacc_finish fields (acc_of fields ds) !! f = Some (sum_over f ds).
Proof.
  unfold gacc_finish. rewrite acc_of_sums. intros Hf.
  set (g := fun f => _ : Z * f64 * bool).
  assert (forall m : gmap rstring Value, f ∈ fields \/ m !! f = Some (sum_over f ds) ->
    foldl (fun m fs => <[fs.1 := finish_slot fs.2]> m) m (zip fields (map g fields)) !! f
    = Some (sum_over f ds)) as H; [|apply H; by left].
  clear Hf. induction fields as [|f' fields IH]; intros m Hm; cbn.
  { destruct Hm as [[]%elem_of_nil|Hm]. exact Hm. }
  apply IH. destruct (decide (f = f')) as [->|Hne].
  - right. apply lookup_insert_eq.
  - destruct Hm as [[->|Hin]%elem_of_cons|Hm]; [done|by left|right]. by rewrite lookup_insert_ne.
Qed.

(** ** Group keys tell values apart *)

Lemma i64_to_string_inj (x y : Z) : i64_to_string x = i64_to_string y -> x = y.
Proof.
  unfold i64_to_string.
  assert (forall n rest, lit "-" ++ rest <> u64_to_string n) as Hminus.
  { intros n rest E. destruct (u64_string_spec n) as (_ & Hd & _). by rewrite <- E in Hd. }
  assert (forall a b, u64_to_string a = u64_to_string b -> a = b) as Hinj.
  { intros a b E. destruct (u64_string_spec a) as (_ & _ & <-). rewrite E.
    exact (proj2 (proj2 (u64_string_spec b))). }
  destruct (Z.ltb_spec x 0), (Z.ltb_spec y 0); intros E.
  - apply app_inv_head in E. apply Hinj in E. lia.
  - by apply Hminus in E.
  - symmetry in E. by apply Hminus in E.
  - apply Hinj in E. lia.
Qed.

Lemma hex_digits_inj n : forall x y, 0 <= x < 16 ^ Z.of_nat n -> 0 <= y < 16 ^ Z.of_nat n ->
  hex_digits n x = hex_digits n y -> x = y.
Proof.
  induction n as [|n IH]; intros x y Hx Hy E; [cbn in *; lia|].
  rewrite Nat2Z.inj_succ, Z.pow_succ_r in Hx, Hy by lia. cbn [hex_digits] in E.
  apply app_inj_2 in E as [Eh Ed]; [|done]. injection Ed as Ed.
  apply IH in Eh; [|split; [apply Z.div_pos; lia|apply Z.div_lt_upper_bound; lia]..].
  pose proof (Z.div_mod x 16). pose proof (Z.div_mod y 16).
  pose proof (Z.mod_pos_bound x 16). pose proof (Z.mod_pos_bound y 16).
  unfold hex_digit in Ed. destruct (Z.ltb_spec (x mod 16) 10), (Z.ltb_spec (y mod 16) 10); lia.
Qed.

Definition is_list (v : option Value) : option (list rstring) :=
  match v with Some (VList l) => Some l | _ => None end.

Definition value_ok (v : option Value) : Prop :=
  match v with Some (VFloat f) => 0 <= f < 2 ^ 64 | _ => True end.
#[export] Instance value_ok_dec v : Decision (value_ok v).
Proof. unfold value_ok. destruct v as [[]|]; apply _. Defined.

(** group keys tell apart any two values, and a missing attribute from a null one,
    except for lists: two different lists share a key exactly when joining
    their elements with NUL gives the same string, as the empty list and the
    list of one empty string do. *)
Theorem group_key_spec (v1 v2 : option Value) :
  value_ok v1 -> value_ok v2 ->
  group_key v1 = group_key v2 <->
  v1 = v2 \/ exists l1 l2, is_list v1 = Some l1 /\ is_list v2 = Some l2 /\
               join_with [NUL] l1 = join_with [NUL] l2.
Proof.
  intros H1 H2. split; cycle 1.
  { intros [->|(l1 & l2 & E1 & E2 & E)]; [done|].
    destruct v1 as [[]|], v2 as [[]|]; try done. injection E1 as ->. injection E2 as ->. cbn. by rewrite E. }
  destruct v1 as [[]|], v2 as [[]|]; cbn [group_key]; intros E; try done; try (by left).
  - left. by injection E as ->.
  - left. injection E as E. by apply i64_to_string_inj in E as ->.
  - left. by destruct b, b0.
  - right. injection E as E. by eexists _, _.
  - left. apply app_inv_head in E. apply hex_digits_inj in E as ->; done.
  - left. injection E as E. by apply i64_to_string_inj in E as ->.
Qed.

Lemma group_key_spec_witness :
  group_key (Some (VList [])) = group_key (Some (VList [[]])) /\
  group_key (Some (VInt 1)) <> group_key (Some (VStr (lit "1"))).
Proof.
  split; [apply (group_key_spec (Some (VList [])) (Some (VList [[]]))); [done|done|]|].
  - right. by exists [], [[]].
  - intros [E|(l1 & l2 & E & _)]%group_key_spec; done.
Defined.

(** The values one group takes: equal ones, and lists that read the same once
    their items are joined with NUL. *)
Definition alike (v1 v2 : option Value) : bool :=
  bool_decide (v1 = v2) ||
  match v1, v2 with
  | Some (VList l1), Some (VList l2) => bool_decide (join_with [NUL] l1 = join_with [NUL] l2)
  | _, _ => false
  end.

Lemma alike_key v1 v2 : value_ok v1 -> value_ok v2 -> alike v1 v2 = true <-> group_key v1 = group_key v2.
Proof.
  intros H1 H2. rewrite group_key_spec by done. unfold alike. rewrite orb_true_iff, bool_decide_eq_true. f_equiv. split.
  - destruct v1 as [[]|], v2 as [[]|]; try done. intros ?%bool_decide_eq_true. cbn. eauto.
  - intros (l1 & l2 & E1 & E2 & E). destruct v1 as [[]|], v2 as [[]|]; try done.
    injection E1 as ->. injection E2 as ->. by apply bool_decide_eq_true.
Qed.

Section spec.
Context `{UnicodeAlnum} `{RegexEngine} `{HashOrder}.

(** The documents a pass visits, in order. *)
Definition matching_docs (s : Store) (opts : AggregateOpts) (collections : list rstring) : list attrs_map :=
  mjoin (map (fun c =>
    match st_collections s !! c with
    | None => []
    | Some col => List.filter (matches (ao_filter opts)) (map de_attrs (docs_values col))
    end) collections).

Lemma pass_docs s opts collections p :
  foldl (aggregate_collection s opts) p collections =
  foldl (aggregate_doc opts) p (matching_docs s opts collections).
Proof.
  revert p. induction collections as [|c cs IH]; intros p; [done|].
  change (matching_docs s opts (c :: cs)) with
    (match st_collections s !! c with
     | None => []
     | Some col => List.filter (matches (ao_filter opts)) (map de_attrs (docs_values col))
     end ++ matching_docs s opts cs).
  rewrite foldl_app, <- IH. cbn [foldl]. f_equal. unfold aggregate_collection.
  destruct (st_collections s !! c) as [col|]; [|done]. generalize (docs_values col). intros l.
  clear. revert p. induction l as [|e l IH]; intros p; [done|]. cbn.
  destruct (matches (ao_filter opts) (de_attrs e)); apply IH.
Qed.

Definition same_group (g : rstring) (key : rstring) (d : attrs_map) : bool :=
  bool_decide (group_key (d !! g) = key).

Record pass_ok (gb : option rstring) (fields : list rstring) (ds : list attrs_map) (p : Pass) : Prop := {
  po_total : pa_total p = acc_of fields ds;
  po_size : (size (pa_groups p) <= MAX_GROUPS)%nat;
  po_group key v a : pa_groups p !! key = Some (v, a) -> exists g,
    gb = Some g /\ group_key v = key /\ (exists d, d ∈ ds /\ d !! g = v) /\
    a = acc_of fields (List.filter (same_group g key) ds);
  po_absent g key : gb = Some g -> pa_groups p !! key = None ->
    List.filter (same_group g key) ds = [] \/ (MAX_GROUPS <= size (pa_groups p))%nat;
  po_all g d : gb = Some g -> pa_truncated p = false -> d ∈ ds ->
    is_Some (pa_groups p !! group_key (d !! g))
}.

Lemma filter_snoc {A} (P : A -> bool) l x :
  List.filter P (l ++ [x]) = List.filter P l ++ (if P x then [x] else []).
Proof. rewrite List.filter_app. cbn. by destruct (P x). Qed.

Lemma same_group_snoc g key ds d :
  List.filter (same_group g key) (ds ++ [d]) =
  List.filter (same_group g key) ds ++ (if decide (group_key (d !! g) = key) then [d] else []).
Proof. rewrite filter_snoc. unfold same_group at 2.
  by case_bool_decide; [rewrite decide_True|rewrite decide_False]. Qed.

Lemma pass_step opts ds d p : pass_ok (ao_group_by opts) (ao_sum opts) ds p ->
  pass_ok (ao_group_by opts) (ao_sum opts) (ds ++ [d]) (aggregate_doc opts p d).
Proof.
  intros [Ht Hsz Hg Habs Hall]. unfold aggregate_doc.
  destruct (ao_group_by opts) as [g|] eqn:Eg; cycle 1.
  { split; cbn [pa_total pa_groups pa_truncated]; [by rewrite acc_of_snoc, Ht|done| |congruence|congruence].
    intros key v a Hk. destruct (Hg key v a Hk) as (g & ? & _). congruence. }
  set (key := group_key (d !! g)).
  assert (forall key' v' a', pa_groups p !! key' = Some (v', a') -> key <> key' -> exists g',
    Some g = Some g' /\ group_key v' = key' /\ (exists d', d' ∈ ds ++ [d] /\ d' !! g' = v') /\
    a' = acc_of (ao_sum opts) (List.filter (same_group g' key') (ds ++ [d]))) as Hother.
  { intros key' v' a' Hk Hne. destruct (Hg _ _ _ Hk) as (g' & [= <-] & Hv & Hne' & ->). exists g.
    rewrite same_group_snoc, decide_False by done. rewrite app_nil_r. split_and!; [done|done| |done].
    destruct Hne' as (d' & ? & ?). exists d'. split; [apply elem_of_app; by left|done]. }
  assert (forall key', key <> key' -> pa_groups p !! key' = None ->
    List.filter (same_group g key') (ds ++ [d]) = [] \/ (MAX_GROUPS <= size (pa_groups p))%nat) as Hoabs.
  { intros key' Hne Hk. rewrite same_group_snoc, decide_False by done. rewrite app_nil_r. by apply Habs. }
  destruct (pa_groups p !! key) as [[v acc]|] eqn:Ek.
  - split; cbn [pa_total pa_groups pa_truncated].
    + by rewrite acc_of_snoc, Ht.
    + by rewrite map_size_insert_Some by (by eexists).
    + intros key' v' a' [[<- [= <- <-]]|[Hne Hk]]%lookup_insert_Some; [|by apply Hother].
      destruct (Hg _ _ _ Ek) as (g' & [= <-] & Hv & Hne & ->). exists g.
      rewrite same_group_snoc, decide_True by done. split_and!; [done|done| |by rewrite acc_of_snoc].
      destruct Hne as (d' & ? & ?). exists d'. split; [apply elem_of_app; by left|done].
    + intros g' key' [= <-] [Hk Hne]%lookup_insert_None.
      rewrite map_size_insert_Some by (by eexists). by apply Hoabs.
    + intros g' d' [= <-] Htr [Hd|Hd]%elem_of_app; apply lookup_insert_is_Some.
      * destruct (decide (key = group_key (d' !! g))); [by left|right]. split; [done|]. by apply Hall.
      * apply list_elem_of_singleton in Hd as ->. by left.
  - destruct (Nat.leb_spec MAX_GROUPS (size (pa_groups p))) as [Hfull|Hroom];
      split; cbn [pa_total pa_groups pa_truncated]; try (by rewrite acc_of_snoc, Ht); try done.
    + intros key' v' a' Hk. apply Hother; [done|congruence].
    + intros. by right.
    + rewrite map_size_insert_None by done. lia.
    + intros key' v' a' [[<- [= <- <-]]|[Hne Hk]]%lookup_insert_Some; [|by apply Hother].
      exists g. rewrite same_group_snoc, decide_True by done.
      destruct (Habs g key eq_refl Ek) as [->|Hf]; [|lia]. split_and!; [done|done| |done].
      exists d. split; [apply elem_of_app; right; by left|done].
    + intros g' key' [= <-] [Hk Hne]%lookup_insert_None. rewrite map_size_insert_None by done.
      destruct (Hoabs key' Hne Hk) as [?|?]; [by left|right; lia].
    + intros g' d' [= <-] Htr [Hd|Hd]%elem_of_app; apply lookup_insert_is_Some.
      * destruct (decide (key = group_key (d' !! g))); [by left|right]. split; [done|]. by apply Hall.
      * apply list_elem_of_singleton in Hd as ->. by left.
Qed.

Lemma pass_all opts ds :
  pass_ok (ao_group_by opts) (ao_sum opts) ds
    (foldl (aggregate_doc opts)
      {| pa_total := GAcc_new (length (ao_sum opts)); pa_groups := ∅; pa_truncated := false |} ds).
Proof.
  induction ds as [|d ds IH] using rev_ind.
  - split; cbn [foldl pa_total pa_groups pa_truncated]; try done.
    + rewrite map_size_empty. lia.
    + intros g key _ _. by left.
    + intros g d _ _ Hd. by apply elem_of_nil in Hd.
  - rewrite foldl_app. by apply pass_step.
Qed.

#[local] Instance keyed_cmp_order : CmpOrder keyed_cmp.
Proof. unfold keyed_cmp. apply _. Qed.

(** The documents whose attribute counts as the value [v]. *)
Definition members (same : option Value -> option Value -> bool) (g : rstring) (v : option Value) (ds : list attrs_map)
  : list attrs_map := List.filter (fun d => same (d !! g) v) ds.

(** A reported group is exact: its value is one of a visited document, and its
    count and sums are those of all the visited documents of that value. *)
Definition group_exact (same : option Value -> option Value -> bool) (opts : AggregateOpts) (ds : list attrs_map)
    (grp : Group) : Prop :=
  exists g, ao_group_by opts = Some g /\ (exists d, d ∈ ds /\ d !! g = g_value grp) /\
    let mine := members same g (g_value grp) ds in
    g_count grp = N.of_nat (length mine) /\
    forall f, f ∈ ao_sum opts -> g_sums grp !! f = Some (sum_over f mine).

Lemma members_key g v ds :
  value_ok v -> Forall (fun d => value_ok (d !! g)) ds -> members alike g v ds = List.filter (same_group g (group_key v)) ds.
Proof.
  intros Hv Hds. unfold members. induction Hds as [|d ds Hd _ IH]; [done|]. cbn [List.filter]. rewrite IH.
  assert (alike (d !! g) v = same_group g (group_key v) d) as ->; [|done].
  apply eq_true_iff_eq. rewrite alike_key by done. unfold same_group. by rewrite bool_decide_eq_true.
Qed.

(** Where no two values join alike without being equal. *)
Lemma members_eq g v ds :
  (forall d, d ∈ ds -> alike (d !! g) v = true -> d !! g = v) ->
  members alike g v ds = members (fun a b => bool_decide (a = b)) g v ds.
Proof.
  unfold members. induction ds as [|d ds IH]; intros Hds; [done|]. cbn [List.filter].
  rewrite IH by (intros; apply Hds; [by right|done]).
  assert (alike (d !! g) v = bool_decide (d !! g = v)) as ->; [|done].
  apply eq_true_iff_eq. rewrite bool_decide_eq_true. split; [apply Hds; by left|].
  intros ->. unfold alike. by rewrite bool_decide_eq_true_2.
Qed.

(** C36: an aggregation is exact: the count and every sum are those of the
    matching documents in scope, integer sums without wrap-around; every
    group reported, truncated or not, has the value of some document and the
    count and sums of all those of its value, and no value is reported twice;
    groups come by count descending; and unless the answer says it is
    truncated every matching document is in a reported group.  Values are
    told apart but for lists whose items joined with NUL read the same; where
    no two different ones of the scope do, a group is exactly of one value. *)
Theorem aggregate_spec (s : Store) (collections : list rstring) (opts : AggregateOpts) :
  let ds := matching_docs s opts collections in
  let r := aggregate s collections opts in
  (forall g, ao_group_by opts = Some g -> Forall (fun d => value_ok (d !! g)) ds) ->
  ag_count r = N.of_nat (length ds) /\
  (forall f, f ∈ ao_sum opts -> ag_sums r !! f = Some (sum_over f ds)) /\
  Forall (group_exact alike opts ds) (ag_groups r) /\
  (forall i j a b, ag_groups r !! i = Some a -> ag_groups r !! j = Some b -> alike (g_value a) (g_value b) = true -> i = j) /\
  StronglySorted (fun a b => (g_count b <= g_count a)%N) (ag_groups r) /\
  (length (ag_groups r) <= MAX_GROUPS)%nat /\
  (forall g d, ao_group_by opts = Some g -> ag_groups_truncated r = false -> d ∈ ds ->
    exists grp, grp ∈ ag_groups r /\ alike (d !! g) (g_value grp) = true) /\
  ((forall g d1 d2, ao_group_by opts = Some g -> d1 ∈ ds -> d2 ∈ ds -> alike (d1 !! g) (d2 !! g) = true -> d1 !! g = d2 !! g) ->
    Forall (group_exact (fun a b => bool_decide (a = b)) opts ds) (ag_groups r)).
Proof.
  intros ds r Hok. unfold r, aggregate. rewrite pass_docs. fold ds.
  pose proof (pass_all opts ds) as [Ht Hsz Hg _ Hall].
  set (p := foldl (aggregate_doc opts) _ ds) in *.
  cbn [ag_count ag_sums ag_groups ag_groups_truncated]. rewrite Ht.
  set (mk := fun kva : rstring * (option Value * GAcc) => _ : rstring * Group).
  set (keyed := sort_by keyed_cmp (map mk (map_to_list (pa_groups p)))).
  assert (keyed ≡ₚ map mk (map_to_list (pa_groups p))) as Hp by apply sort_by_perm.
  assert (forall k grp, (k, grp) ∈ keyed -> group_key (g_value grp) = k /\ value_ok (g_value grp) /\ group_exact alike opts ds grp) as Hk.
  { intros k grp Hin. rewrite Hp in Hin.
    apply list_elem_of_fmap in Hin as ([k' [v a]] & E & Hin%elem_of_map_to_list).
    injection E as -> ->. destruct (Hg _ _ _ Hin) as (g & Eg & Hv & Hd & ->). cbn [g_value].
    assert (value_ok v) as Hvok.
    { destruct Hd as (d & Hd & <-). specialize (Hok g Eg). rewrite Forall_forall in Hok. by apply Hok. }
    split_and!; [done|done|]. exists g. cbn [g_value g_count g_sums]. rewrite members_key, Hv by auto.
    split_and!; [done|done|apply acc_of_count|]. intros f Hf. by apply finish_lookup. }
  assert (forall grp, grp ∈ keyed.*2 -> value_ok (g_value grp) /\ group_exact alike opts ds grp) as Hk2.
  { intros grp ([k grp'] & -> & Hin)%list_elem_of_fmap. by apply (Hk k). }
  assert (NoDup (map (fun grp => group_key (g_value grp)) keyed.*2)) as Hnd.
  { assert (map (fun grp => group_key (g_value grp)) keyed.*2 = keyed.*1) as ->.
    { clear -Hk. induction keyed as [|[k grp] l IH]; [done|]. cbn. f_equal.
      - apply (Hk k grp). constructor.
      - apply IH. intros k' grp' Hin. apply Hk. by constructor. }
    rewrite Hp. replace (map mk (map_to_list (pa_groups p))).*1 with (map_to_list (pa_groups p)).*1;
      [apply NoDup_fst_map_to_list|].
    change (map mk ?l) with (mk <$> l). rewrite <- list_fmap_compose. by apply list_fmap_ext. }
  split_and!.
  - apply acc_of_count.
  - intros f Hf. by apply finish_lookup.
  - apply Forall_forall. intros grp Hin. by apply Hk2.
  - intros i j a b Ha Hb Hab. apply (NoDup_lookup _ i j (group_key (g_value a)) Hnd).
    + by rewrite list_lookup_fmap, Ha.
    + apply alike_key in Hab as ->; [by rewrite list_lookup_fmap, Hb|..];
        by eapply Hk2, list_elem_of_lookup_2.
  - pose proof (sort_by_sorted keyed_cmp (map mk (map_to_list (pa_groups p)))) as Hs. fold keyed in Hs.
    clear -Hs. induction Hs as [|[k grp] l Hs IH Hle]; cbn; constructor; [done|].
    apply Forall_forall. intros grp' ([k' g'] & -> & Hin)%list_elem_of_fmap.
    pose proof (proj1 (Forall_forall _ _) Hle _ Hin) as Hc. cbn in Hc.
    unfold cmp_le, keyed_cmp, cmp_then, cmp_flip, cmp_on in Hc. cbn in Hc.
    destruct (N.compare_spec (g_count g') (g_count grp)); (done || cbn; lia).
  - rewrite length_fmap, Hp, length_map, length_map_to_list. done.
  - intros g d Eg Htr Hd. destruct (Hall g d Eg Htr Hd) as [[v a] Hlk].
    assert ((mk (group_key (d !! g), (v, a))).2 ∈ keyed.*2) as Hin.
    { apply list_elem_of_fmap. eexists. split; [done|]. rewrite Hp. apply list_elem_of_fmap.
      eexists. split; [done|]. by apply elem_of_map_to_list. }
    eexists. split; [exact Hin|]. specialize (Hok g Eg). rewrite Forall_forall in Hok. apply alike_key; [by apply Hok|by apply Hk2|].
    by destruct (Hg _ _ _ Hlk) as (_ & _ & Hv & _).
  - intros Hapart. apply Forall_forall. intros grp Hin. destruct (Hk2 _ Hin) as [_ (g & Eg & (d & Hd & Ed) & Hc & Hs)].
    exists g. split_and!; [done|by exists d|..]; rewrite members_eq in * by (rewrite <- Ed; intros; by eapply Hapart); done.
Qed.
End spec.

(** A number and the word for it are two groups; the two lists are one. *)
Section aggregate_example.
#[local] Existing Instance ascii_only_alnum.
#[local] Instance no_regex : RegexEngine := fun _ => None.
#[local] Instance key_order : HashOrder := {| hm_order := fun l => l; hm_order_perm := fun l => reflexivity l |}.

Definition agg_store : Store :=
  text_store [(lit "c", [(lit "1", {[lit "k" := VInt 1]}); (lit "2", {[lit "k" := VStr (lit "1")]});
                         (lit "3", {[lit "k" := VInt 1]}); (lit "4", {[lit "k" := VList []]});
                         (lit "5", {[lit "k" := VList [[]]]})])].
Definition agg_opts : AggregateOpts :=
  {| ao_filter := Filter_default; ao_sum := [lit "k"]; ao_group_by := Some (lit "k") |}.

Lemma aggregate_spec_witness :
  map (fun g => (g_value g, g_count g)) (ag_groups (aggregate agg_store [lit "c"] agg_opts)) =
    [(Some (VInt 1), 2%N); (Some (VList []), 2%N); (Some (VStr (lit "1")), 1%N)] /\
  ag_count (aggregate agg_store [lit "c"] agg_opts) = N.of_nat (length (matching_docs agg_store agg_opts [lit "c"])) /\
  Forall (group_exact alike agg_opts (matching_docs agg_store agg_opts [lit "c"]))
    (ag_groups (aggregate agg_store [lit "c"] agg_opts)).
Proof.
  split; [by vm_compute|].
  destruct (aggregate_spec agg_store [lit "c"] agg_opts) as (Hc & _ & Hg & _); [|by split].
  intros g [= <-]. apply (bool_decide_unpack _). by vm_compute.
Defined.
End aggregate_example.

(** ** Capping keeps the best of each value *)

Section cap_spec.
Context (s : Store) (cap : LimitPer).

Definition has_cap_key (key : rstring) (h : Hit) : bool := bool_decide (cap_key s cap h = key).

Definition key_set (seen : gmap rstring nat) (hits : list Hit) : gset rstring :=
  dom seen ∪ list_to_set (map (cap_key s cap) hits).

Lemma cap_loop_spec (hits : list Hit) (seen : gmap rstring nat) :
  (1 <= lp_max cap)%nat -> (size (key_set seen hits) <= MAX_GROUPS)%nat ->
  cap_loop s cap seen hits `sublist_of` hits /\
  forall key, List.filter (has_cap_key key) (cap_loop s cap seen hits) =
    take (lp_max cap - default 0%nat (seen !! key)) (List.filter (has_cap_key key) hits).
Proof.
  intros Hmax. revert seen. induction hits as [|h hits IH]; intros seen Hsz.
  { split; [constructor|]. intros key. by destruct (lp_max cap - _)%nat. }
  set (k := cap_key s cap h).
  (* one hit with its new count [m]: kept while [m] is within the cap *)
  assert (forall m, (m = S (default 0 (seen !! k)))%nat ->
    let out := if (m <=? lp_max cap)%nat then h :: cap_loop s cap (<[k := m]> seen) hits
               else cap_loop s cap (<[k := m]> seen) hits in
    out `sublist_of` h :: hits /\ forall key, List.filter (has_cap_key key) out =
      take (lp_max cap - default 0%nat (seen !! key)) (List.filter (has_cap_key key) (h :: hits)))
    as Hone.
  { intros m Hm out.
    destruct (IH (<[k := m]> seen)) as [Hs Hf].
    { etrans; [|exact Hsz]. apply subseteq_size. unfold key_set. fold k. set_solver. }
    split; [unfold out; destruct (m <=? lp_max cap)%nat; by constructor|]. intros key.
    assert (List.filter (has_cap_key key) (h :: hits) =
      if bool_decide (k = key) then h :: List.filter (has_cap_key key) hits
      else List.filter (has_cap_key key) hits) as -> by done.
    case_bool_decide as Hk.
    - subst key. specialize (Hf k). rewrite lookup_insert_eq in Hf. cbn [from_option id] in Hf.
      unfold out. destruct (Nat.leb_spec m (lp_max cap)).
      + cbn [List.filter]. unfold has_cap_key at 1. rewrite bool_decide_eq_true_2 by done.
        rewrite Hf. replace (lp_max cap - default 0 (seen !! k))%nat with (S (lp_max cap - m)) by lia. done.
      + rewrite Hf. by replace (lp_max cap - m)%nat with 0%nat by lia;
          replace (lp_max cap - default 0 (seen !! k))%nat with 0%nat by lia.
    - specialize (Hf key). rewrite lookup_insert_ne in Hf by done. unfold out.
      destruct (m <=? lp_max cap)%nat; [|exact Hf].
      cbn [List.filter]. unfold has_cap_key at 1. by rewrite bool_decide_eq_false_2. }
  cbn [cap_loop]. unfold cap_step. fold k. destruct (seen !! k) as [n|] eqn:Ek.
  - cbn [fst snd]. by apply (Hone (S n)).
  - destruct (Nat.leb_spec MAX_GROUPS (size seen)) as [Hfull|Hroom].
    + exfalso. assert (size (dom seen ∪ {[k]} : gset rstring) <= MAX_GROUPS)%nat as Hle.
      { etrans; [|exact Hsz]. apply subseteq_size. unfold key_set. fold k. set_solver. }
      rewrite size_union, size_singleton, size_dom in Hle; [lia|].
      intros x Hx ->%elem_of_singleton. apply elem_of_dom in Hx as [? ?]. congruence.
    + cbn [fst snd]. by apply (Hone 1%nat).
Qed.
End cap_spec.

(** a cap keeps the best of each value: when the ranking carries at most
    [MAX_GROUPS] distinct values, capping drops hits without reordering, and
    the hits kept for any value (a missing one included) are exactly the
    first [max] of those that carry it. *)
Theorem cap_per_value_spec (s : Store) (hits : list Hit) (cap : LimitPer) :
  (1 <= lp_max cap)%nat ->
  (size (list_to_set (map (cap_key s cap) hits) : gset rstring) <= MAX_GROUPS)%nat ->
  cap_per_value s hits cap `sublist_of` hits /\
  forall key, List.filter (has_cap_key s cap key) (cap_per_value s hits cap) =
    take (lp_max cap) (List.filter (has_cap_key s cap key) hits).
Proof.
  intros Hmax Hsz. destruct (cap_loop_spec s cap hits ∅ Hmax) as [H1 H2].
  { unfold key_set. by rewrite dom_empty_L, (left_id_L ∅ (∪)). }
  split; [exact H1|]. intros key. rewrite <- (Nat.sub_0_r (lp_max cap)). exact (H2 key).
Qed.

Definition ex_capped : Store :=
  text_store [(lit "c", [(lit "a", {[lit "src" := VStr (lit "x")]});
                         (lit "b", {[lit "src" := VStr (lit "x")]}); (lit "d", ∅)])].
Definition ex_ranking : list Hit :=
  [Hit_new (lit "c") (lit "b") f32_one ∅; Hit_new (lit "c") (lit "a") f32_one ∅;
   Hit_new (lit "c") (lit "d") f32_one ∅].

Lemma cap_per_value_spec_witness :
  h_id <$> cap_per_value ex_capped ex_ranking {| lp_field := lit "src"; lp_max := 1 |} =
    [lit "b"; lit "d"] /\
  cap_per_value ex_capped ex_ranking {| lp_field := lit "src"; lp_max := 1 |} `sublist_of` ex_ranking.
Proof.
  split; [by vm_compute|].
  apply (cap_per_value_spec ex_capped ex_ranking {| lp_field := lit "src"; lp_max := 1 |}); [done|].
  apply Nat.leb_le. by vm_compute.
Defined.
