(* ===== verification/Expand.v ===== *)
(** * Expand: the surrounding chunks of each hit ([src/src/store/expand.rs])

    [expand_hits] is payload only: it sets the [context] of the hits and
    nothing else.  [None] stands for a panic, that of [BTreeMap::range] on a
    range whose start is after its end. *)
From S2P Require Import Prelude Floats Model Sort Std Hits Replay Store Aggregate.

Local Open Scope Z_scope.

Record Piece := { pc_text : rstring; pc_char_start : option Z }.

Inductive expand_error := NoParentField | NoIndexField | NoTextField.

Definition expand_validate (expand : option Expand) : result expand_error unit :=
  match expand with
  | None => Ok tt
  | Some e =>
      if bool_decide (trim (e_parent_field e) = []) then Err NoParentField
      else if bool_decide (trim (e_index_field e) = []) then Err NoIndexField
      else if bool_decide (trim (e_text_field e) = []) then Err NoTextField else Ok tt
  end.

(** The chunk coordinates of a hit, from the stored record. *)
Definition coords (s : Store) (opts : Expand) (h : Hit) : option (rstring * Z) :=
  match attrs_of s (h_collection h) (h_id h) with
  | None => None
  | Some attrs =>
      match attrs !! e_parent_field opts with
      | Some (VStr parent) =>
          match attrs !! e_index_field opts with
          | Some (VInt index) => Some (parent, index)
          | _ => None
          end
      | _ => None
      end
  end.

(** The chunk a document is, if it is one. *)
Definition piece_of (opts : Expand) (attrs : attrs_map) : option (rstring * Z * Piece) :=
  match attrs !! e_parent_field opts, attrs !! e_index_field opts, attrs !! e_text_field opts with
  | Some (VStr parent), Some (VInt index), Some (VStr text) =>
      let char_start := match attrs !! META_CHAR_START with Some (VInt c) => Some c | _ => None end in
      Some (parent, index, {| pc_text := text; pc_char_start := char_start |})
  | _, _, _ => None
  end.

(** ** Stitching *)

(** [chars().skip(n as usize)], for [n] the signed count the code computes. *)
Definition skip_chars (n : Z) (s : rstring) : rstring :=
  let n := n mod 2 ^ 64 in
  if Z.of_nat (length s) <=? n then [] else drop (Z.to_nat n) s.

Record Stitch := { sc_out : rstring; sc_written_to : option Z }.

Definition stitch_piece (acc : Stitch) (p : Piece) : Stitch :=
  let len := Z.of_nat (length (pc_text p)) in
  let '(text, contiguous) :=
    match sc_written_to acc, pc_char_start p with
    | Some e, Some start =>
        if start <? e then (skip_chars (Z.min (i64_wrap (e - start)) len) (pc_text p), true)
        else (pc_text p, start =? e)
    | _, _ => (pc_text p, false)
    end in
  let written_to :=
    match pc_char_start p with
    | Some start => Some (Z.max (default i64_min (sc_written_to acc)) (i64_wrap (start + len)))
    | None => sc_written_to acc
    end in
  {| sc_out := if bool_decide (text = []) then sc_out acc
               else (if bool_decide (sc_out acc = []) || contiguous then sc_out acc
                     else sc_out acc ++ [10; 10]%N) ++ text;
     sc_written_to := written_to |}.

Definition stitch (window : list Piece) : option rstring :=
  let out := sc_out (foldl stitch_piece {| sc_out := []; sc_written_to := None |} window) in
  if bool_decide (out = []) then None else Some out.

(** [BTreeMap::range(lo..=hi)] over integer keys: the entries in order. *)
Definition bt_range (m : gmap Z Piece) (lo hi : Z) : option (list Piece) :=
  if hi <? lo then None
  else Some (snd <$> sort_by (cmp_on fst Z.compare)
                       (List.filter (fun kp : Z * Piece => (lo <=? kp.1) && (kp.1 <=? hi)) (map_to_list m))).

Abbreviation pieces_map := (gmap (rstring * rstring) (gmap Z Piece)) (only parsing).

Section expand.
Context `{HashOrder}.

Definition add_piece (opts : Expand) (name : rstring) (parents : gset rstring)
    (pieces : pieces_map) (e : DocEntry) : pieces_map :=
  match piece_of opts (de_attrs e) with
  | Some (parent, index, p) =>
      if decide (parent ∈ parents)
      then <[(name, parent) := <[index := p]> (default ∅ (pieces !! (name, parent)))]> pieces
      else pieces
  | None => pieces
  end.

Definition add_collection (s : Store) (opts : Expand) (pieces : pieces_map)
    (np : rstring * gset rstring) : pieces_map :=
  match st_collections s !! np.1 with
  | None => pieces
  | Some col => foldl (add_piece opts np.1 np.2) pieces (docs_values col)
  end.

(** The parents wanted of each collection. *)
Definition want (wanted : gmap rstring (gset rstring)) (hw : Hit * option (rstring * Z))
  : gmap rstring (gset rstring) :=
  match hw.2 with
  | Some (parent, _) =>
      <[h_collection hw.1 := {[parent]} ∪ default ∅ (wanted !! h_collection hw.1)]> wanted
  | None => wanted
  end.

Definition expand_hit (pieces : pieces_map) (radius : Z) (hw : Hit * option (rstring * Z)) : option Hit :=
  match hw.2 with
  | None => Some hw.1
  | Some (parent, index) =>
      match pieces !! (h_collection hw.1, parent) with
      | None => Some hw.1
      | Some by_index =>
          let lo := i64_sat (index - radius) in
          let hi := i64_sat (index + radius) in
          (fun ps => set_context (stitch ps) hw.1) <$> bt_range by_index lo hi
      end
  end.

Definition expand_hits (s : Store) (hits : list Hit) (opts : Expand) : option (list Hit) :=
  let radius := i64_wrap (Z.of_N (e_radius opts)) in
  let windows := map (coords s opts) hits in
  if forallb (fun w => bool_decide (w = None)) windows then Some hits
  else
    let wanted := foldl want ∅ (zip hits windows) in
    let pieces := foldl (add_collection s opts) ∅ (bt_entries wanted) in
    mapM (expand_hit pieces radius) (zip hits windows).
End expand.

(** ** What a hit's context is *)

Definition chunk_piece (opts : Expand) (parent : rstring) (i : Z) (e : DocEntry) : option Piece :=
  match piece_of opts (de_attrs e) with
  | Some (parent', i', p) => if bool_decide (parent' = parent /\ i' = i) then Some p else None
  | None => None
  end.

(** Chunk number [i] of a document; of two that claim the same number, the
    one the iteration meets last. *)
Definition chunk_at `{HashOrder} (s : Store) (opts : Expand) (col_name parent : rstring) (i : Z) : option Piece :=
  match st_collections s !! col_name with
  | None => None
  | Some col => last (omap (chunk_piece opts parent i) (docs_values col))
  end.

Definition lookup2 (pieces : pieces_map) (k : rstring * rstring) (i : Z) : option Piece :=
  pieces !! k ≫= fun m => m !! i.

Section expand_spec.
Context `{HashOrder} (s : Store) (opts : Expand).

Lemma last_opt_snoc {A B} (f : A -> option B) l x :
  last (omap f (l ++ [x])) = match f x with Some y => Some y | None => last (omap f l) end.
Proof.
  rewrite omap_app. cbn. destruct (f x) as [y|]; [by rewrite last_snoc|by rewrite app_nil_r].
Qed.

Lemma add_piece_lookup name parents pieces l k i :
  lookup2 (foldl (add_piece opts name parents) pieces l) k i =
  if bool_decide (k.1 = name /\ k.2 ∈ parents) then
    match last (omap (chunk_piece opts k.2 i) l) with Some p => Some p | None => lookup2 pieces k i end
  else lookup2 pieces k i.
Proof.
  induction l as [|e l IH] using rev_ind; [by case_bool_decide|].
  rewrite foldl_app, last_opt_snoc. cbn [foldl]. unfold add_piece at 1, chunk_piece at 1.
  destruct (piece_of opts (de_attrs e)) as [[[parent index] p]|]; [|exact IH].
  set (acc := foldl _ _ _) in *. destruct (decide (parent ∈ parents)) as [Hp|Hp]; cycle 1.
  { rewrite IH. case_bool_decide as Hk; [|done]. rewrite bool_decide_eq_false_2; [done|].
    intros [-> _]. by destruct Hk. }
  unfold lookup2 at 1. destruct (decide (k = (name, parent))) as [->|Hk]; cbn [fst snd].
  - cbn [fst snd] in IH. rewrite bool_decide_eq_true_2 in IH by done.
    rewrite (bool_decide_eq_true_2 (name = name /\ _)) by done.
    rewrite lookup_insert_eq. cbn [mbind option_bind]. destruct (decide (i = index)) as [->|Hi].
    + by rewrite lookup_insert_eq, bool_decide_eq_true_2.
    + rewrite lookup_insert_ne by done. rewrite (bool_decide_eq_false_2 (_ /\ index = i)) by naive_solver.
      rewrite <- IH. unfold lookup2. by destruct (acc !! _).
  - rewrite lookup_insert_ne by done. fold (lookup2 acc k i). rewrite IH.
    case_bool_decide as Hkk; [|done]. rewrite bool_decide_eq_false_2; [done|].
    intros [-> _]. apply Hk. destruct k. naive_solver.
Qed.

Lemma add_collection_lookup pieces np k i :
  lookup2 (add_collection s opts pieces np) k i =
  if bool_decide (k.1 = np.1 /\ k.2 ∈ np.2) then
    match chunk_at s opts k.1 k.2 i with Some p => Some p | None => lookup2 pieces k i end
  else lookup2 pieces k i.
Proof.
  unfold add_collection, chunk_at. destruct (st_collections s !! np.1) as [col|] eqn:E.
  - rewrite add_piece_lookup. case_bool_decide as Hk; [|done]. destruct Hk as [-> _]. by rewrite E.
  - case_bool_decide as Hk; [|done]. destruct Hk as [-> _]. by rewrite E.
Qed.

Definition wants (k : rstring * rstring) (np : rstring * gset rstring) : bool :=
  bool_decide (k.1 = np.1 /\ k.2 ∈ np.2).

Lemma pieces_lookup l k i :
  lookup2 (foldl (add_collection s opts) ∅ l) k i =
  if existsb (wants k) l then chunk_at s opts k.1 k.2 i else None.
Proof.
  induction l as [|np l IH] using rev_ind.
  { unfold lookup2. cbn [foldl]. by rewrite lookup_empty. }
  rewrite foldl_app. cbn [foldl]. rewrite add_collection_lookup, IH, existsb_app. cbn [existsb].
  fold (wants k np). rewrite orb_false_r.
  destruct (existsb (wants k) l), (wants k np); cbn; try done; by destruct (chunk_at _ _ _ _ _).
Qed.

Lemma want_lookup l col parent :
  parent ∈ default ∅ (foldl want ∅ l !! col) <->
  exists h i, (h, Some (parent, i)) ∈ l /\ h_collection h = col.
Proof.
  induction l as [|[h w] l IH] using rev_ind.
  { cbn [foldl]. rewrite lookup_empty. cbn. split; [set_solver|]. intros (? & ? & Hin & _).
    by apply elem_of_nil in Hin. }
  rewrite foldl_app. cbn [foldl]. unfold want at 1. cbn [fst snd].
  assert (forall h' i, (h', Some (parent, i)) ∈ l ++ [(h, w)] <->
    (h', Some (parent, i)) ∈ l \/ h' = h /\ w = Some (parent, i)) as Hin.
  { intros h' i. rewrite elem_of_app, list_elem_of_singleton. naive_solver. }
  setoid_rewrite Hin. destruct w as [[p i]|]; [|naive_solver].
  destruct (decide (col = h_collection h)) as [->|Hc].
  - rewrite lookup_insert_eq. cbn [default from_option id]. rewrite elem_of_union, elem_of_singleton, IH. naive_solver.
  - rewrite lookup_insert_ne by done. rewrite IH. naive_solver.
Qed.

Lemma bt_range_spec (m : gmap Z Piece) lo hi :
  lo <= hi -> exists ws, bt_range m lo hi = Some ws.*2 /\
    StronglySorted (fun x y => x.1 < y.1) ws /\
    forall i p, (i, p) ∈ ws <-> lo <= i <= hi /\ m !! i = Some p.
Proof.
  intros Hle. unfold bt_range. destruct (Z.ltb_spec hi lo); [lia|].
  set (l := List.filter _ _). exists (sort_by (cmp_on fst Z.compare) l). split; [done|].
  assert (forall i p, (i, p) ∈ l <-> lo <= i <= hi /\ m !! i = Some p) as Hl.
  { intros i p. unfold l. rewrite list_elem_of_In, filter_In, <- list_elem_of_In, elem_of_map_to_list.
    cbn. rewrite andb_true_iff, !Z.leb_le. naive_solver. }
  split; cycle 1. { intros i p. by rewrite sort_by_perm. }
  assert (NoDup (sort_by (cmp_on fst Z.compare) l).*1) as Hnd.
  { rewrite sort_by_perm. unfold l. generalize (NoDup_fst_map_to_list m). generalize (map_to_list m).
    intros ml. induction ml as [|[i p] ml IH]; cbn; [done|]. intros [Hi Hn]%NoDup_cons.
    destruct (_ && _); [|by apply IH]. cbn. apply NoDup_cons. split; [|by apply IH].
    contradict Hi. apply list_elem_of_fmap in Hi as ([i' p'] & -> & Hin).
    apply list_elem_of_In, filter_In in Hin as [Hin%list_elem_of_In _].
    apply list_elem_of_fmap. by exists (i', p'). }
  pose proof (sort_by_sorted (cmp_on (@fst Z Piece) Z.compare) l) as Hs.
  revert Hnd Hs. generalize (sort_by (cmp_on (@fst Z Piece) Z.compare) l). intros ws.
  induction ws as [|x ws IH]; cbn; [constructor|]. intros [Hx Hn]%NoDup_cons Hs.
  apply StronglySorted_inv in Hs as [Hs Hf]. constructor; [by apply IH|].
  apply Forall_forall. intros y Hy. eapply Forall_forall in Hf; [|exact Hy].
  unfold cmp_le, cmp_on in Hf.
  assert (x.1 <> y.1). { contradict Hx. rewrite Hx. apply list_elem_of_fmap. by exists y. }
  rewrite Z.compare_gt_iff in Hf. lia.
Qed.

Lemma wanted_all (hits : list Hit) h parent i :
  h ∈ hits -> coords s opts h = Some (parent, i) ->
  existsb (wants (h_collection h, parent))
    (bt_entries (foldl want ∅ (zip hits (map (coords s opts) hits)))) = true.
Proof.
  intros Hh Hc. set (m := foldl want ∅ _).
  assert (parent ∈ default ∅ (m !! h_collection h)) as Hp.
  { apply want_lookup. exists h, i. split; [|done]. apply list_elem_of_lookup in Hh as [n Hn].
    apply list_elem_of_lookup. exists n. rewrite lookup_zip_with, Hn. cbn.
    by rewrite list_lookup_fmap, Hn, <- Hc. }
  destruct (m !! h_collection h) as [ps|] eqn:E; [|cbn in Hp; set_solver].
  apply existsb_exists. exists (h_collection h, ps). split.
  - apply list_elem_of_In. by apply elem_of_bt_entries.
  - by apply bool_decide_eq_true_2.
Qed.

(** The window of a hit: its document's chunks numbered [lo] to [hi], in order. *)
Definition window (h : Hit) (parent : rstring) (lo hi : Z) (ws : list (Z * Piece)) : Prop :=
  StronglySorted (fun x y => x.1 < y.1) ws /\
  forall i p, (i, p) ∈ ws <-> lo <= i <= hi /\ chunk_at s opts (h_collection h) parent i = Some p.

Definition expanded (radius : Z) (h h' : Hit) : Prop :=
  match coords s opts h with
  | None => h' = h
  | Some (parent, index) =>
      exists ws, window h parent (i64_sat (index - radius)) (i64_sat (index + radius)) ws /\
        h' = set_context (stitch ws.*2) h
  end.

Lemma set_context_none h : h_context h = None -> set_context None h = h.
Proof. destruct h; cbn. by intros ->. Qed.

Lemma expand_hit_spec (hits : list Hit) (pieces : pieces_map) (radius : Z) h :
  0 <= radius -> h_context h = None ->
  (forall parent i j, coords s opts h = Some (parent, i) ->
     lookup2 pieces (h_collection h, parent) j = chunk_at s opts (h_collection h) parent j) ->
  exists h', expand_hit pieces radius (h, coords s opts h) = Some h' /\ expanded radius h h'.
Proof.
  intros Hr Hc Hp. unfold expand_hit, expanded. cbn [fst snd].
  destruct (coords s opts h) as [[parent i]|] eqn:E; [|by exists h].
  assert (i64_sat (i - radius) <= i64_sat (i + radius)) as Hle by (unfold i64_sat; lia).
  specialize (Hp parent i). unfold lookup2 in Hp.
  destruct (pieces !! (h_collection h, parent)) as [m|].
  - destruct (bt_range_spec m _ _ Hle) as (ws & -> & Hs & Hin). eexists. split; [done|].
    exists ws. split; [|done]. split; [done|]. intros j p. rewrite Hin, <- (Hp j) by done. done.
  - exists h. split; [done|]. exists []. split; [|by rewrite set_context_none].
    split; [constructor|]. intros j p. rewrite <- (Hp j) by done. split; [by intros ?%elem_of_nil|].
    by intros [_ ?].
Qed.
End expand_spec.

Lemma mapM_Forall2 {A B} (f : A -> option B) (P : A -> B -> Prop) l :
  (forall x, x ∈ l -> exists y, f x = Some y /\ P x y) -> exists l', mapM f l = Some l' /\ Forall2 P l l'.
Proof.
  induction l as [|x l IH]; intros Hl; [by exists []|].
  destruct (Hl x) as (y & E & HP); [by left|]. destruct IH as (l' & E' & Hf); [intros z Hz; apply Hl; by right|].
  exists (y :: l'). cbn. rewrite E. cbn. rewrite E'. split; [done|]. by constructor.
Qed.

Lemma Forall2_zip {A B C} (f : A -> B) (P : A -> C -> Prop) (l : list A) (l' : list C) :
  Forall2 (fun x y => P x.1 y) (zip l (map f l)) l' -> Forall2 P l l'.
Proof.
  revert l'. induction l as [|x l IH]; cbn; intros l' Hf; inversion Hf; subst; constructor; auto.
Qed.

(** expansion is payload only, and exact: with a radius an [i64] holds it never
    fails, every hit keeps its place, its identity, its score and its
    attributes, a hit without chunk coordinates is untouched, and any other
    gets as context the stitched text of its own document's chunks from
    [radius] before it to [radius] after it, in source order. *)
Theorem expand_hits_spec `{HashOrder} (s : Store) (hits : list Hit) (opts : Expand) :
  Z.of_N (e_radius opts) <= i64_max -> Forall (fun h => h_context h = None) hits ->
  exists hits', expand_hits s hits opts = Some hits' /\
    Forall2 (expanded s opts (Z.of_N (e_radius opts))) hits hits'.
Proof.
  intros Hr Hc. unfold expand_hits.
  rewrite i64_wrap_id by (unfold is_i64; unfold i64_min, i64_max in *; lia).
  destruct (forallb _ _) eqn:Eall.
  { exists hits. split; [done|]. rewrite forallb_forall in Eall. apply Forall_Forall2_diag.
    apply Forall_forall. intros h Hh. unfold expanded.
    destruct (coords s opts h) eqn:E; [|done]. exfalso.
    specialize (Eall (coords s opts h)). rewrite E in Eall. discriminate Eall.
    apply list_elem_of_In, list_elem_of_fmap. by exists h. }
  set (pieces := foldl _ _ _).
  assert (forall hw, hw ∈ zip hits (map (coords s opts) hits) -> exists h',
    expand_hit pieces (Z.of_N (e_radius opts)) hw = Some h' /\
    expanded s opts (Z.of_N (e_radius opts)) hw.1 h') as Hall.
  { intros [h w] Hin. apply list_elem_of_lookup in Hin as [n Hn].
    rewrite lookup_zip_with in Hn. cbn in Hn. destruct (hits !! n) as [h0|] eqn:En; [|done].
    change (map (coords s opts) hits) with (coords s opts <$> hits) in Hn.
    rewrite list_lookup_fmap, En in Hn. cbn in Hn. injection Hn as -> <-. cbn [fst].
    apply list_elem_of_lookup_2 in En. eapply expand_hit_spec; [exact hits|lia|by eapply Forall_forall in Hc|].
    intros parent i j Ew. unfold pieces. rewrite pieces_lookup. by erewrite wanted_all. }
  destruct (mapM_Forall2 _ _ _ Hall) as (hits' & -> & Hf). exists hits'. split; [done|].
  by apply (Forall2_zip (coords s opts)).
Qed.

Definition ex_chunk (i : Z) (text : string) (start : Z) : attrs_map :=
  {[META_PARENT_ID := VStr (lit "doc"); META_CHUNK_INDEX := VInt i; META_TEXT := VStr (lit text);
    META_CHAR_START := VInt start]}.
Definition ex_chunks : Store :=
  text_store [(lit "c", [(lit "k0", ex_chunk 0 "The quick" 0); (lit "k1", ex_chunk 1 "quick brown" 4);
                         (lit "k2", ex_chunk 2 "brown fox" 10)])].

#[export] Instance id_order : HashOrder | 100 := {| hm_order := fun l => l; hm_order_perm := fun l => reflexivity l |}.

Lemma expand_hits_spec_witness :
  (map h_context <$> expand_hits ex_chunks [Hit_new (lit "c") (lit "k1") f32_one ∅] (Expand_new 1)) =
    Some [Some (lit "The quick brown fox")] /\
  exists hits', expand_hits ex_chunks [Hit_new (lit "c") (lit "k1") f32_one ∅] (Expand_new 1) = Some hits' /\
    Forall2 (expanded ex_chunks (Expand_new 1) 1) [Hit_new (lit "c") (lit "k1") f32_one ∅] hits'.
Proof.
  split; [by vm_compute|].
  apply (expand_hits_spec ex_chunks [Hit_new (lit "c") (lit "k1") f32_one ∅] (Expand_new 1)); [done|].
  by repeat constructor.
Defined.

(** ** Stitching reconstructs the source *)

Section stitch_spec.
Context (src : rstring).

(** The characters [[a, b)] of the source. *)
Definition span (a b : nat) : rstring := take (b - a) (drop a src).

(** The chunk that covers [n] characters from [a]. *)
Definition slice_piece (c : nat * nat) : Piece :=
  {| pc_text := span c.1 (c.1 + c.2); pc_char_start := Some (Z.of_nat c.1) |}.

(** Every chunk lies in the source and starts no later than the earlier ones reach. *)
Fixpoint chained (reach : nat) (cs : list (nat * nat)) : Prop :=
  match cs with
  | [] => True
  | c :: cs' => (c.1 <= reach /\ c.1 + c.2 <= length src)%nat /\ chained (reach `max` (c.1 + c.2)) cs'
  end.

Definition reach_all (reach : nat) (cs : list (nat * nat)) : nat :=
  foldl (fun r c => r `max` (c.1 + c.2))%nat reach cs.

Lemma span_app a b c : (a <= b <= c)%nat -> span a b ++ span b c = span a c.
Proof.
  intros H. unfold span. replace b with (a + (b - a))%nat at 3 by lia. rewrite <- drop_drop.
  rewrite take_take_drop. f_equal. lia.
Qed.

Lemma length_span a b : (b <= length src)%nat -> length (span a b) = (b - a)%nat.
Proof. intros H. unfold span. rewrite length_take, length_drop. lia. Qed.

Lemma skip_span a b k : (k <= b - a)%nat -> (b <= length src)%nat -> Z.of_nat (length src) <= i64_max ->
  skip_chars (Z.of_nat k) (span a b) = span (a + k) b.
Proof.
  intros Hk Hb Hsrc. unfold skip_chars, i64_max in *. rewrite length_span, Z.mod_small by lia.
  destruct (Z.leb_spec (Z.of_nat (b - a)) (Z.of_nat k)).
  - unfold span. replace (b - (a + k))%nat with 0%nat by lia. done.
  - rewrite Nat2Z.id. unfold span. rewrite skipn_firstn_comm, drop_drop. f_equal. lia.
Qed.

Lemma stitch_chunk a reach c :
  (a < reach <= length src)%nat -> (c.1 <= reach /\ c.1 + c.2 <= length src)%nat ->
  Z.of_nat (length src) <= i64_max ->
  stitch_piece {| sc_out := span a reach; sc_written_to := Some (Z.of_nat reach) |} (slice_piece c) =
  {| sc_out := span a (reach `max` (c.1 + c.2)); sc_written_to := Some (Z.of_nat (reach `max` (c.1 + c.2))) |}.
Proof.
  intros Ha [Hc1 Hc2] Hsrc. unfold stitch_piece, slice_piece.
  cbn [sc_written_to sc_out pc_char_start pc_text]. rewrite length_span by done.
  set (e := (c.1 + c.2)%nat) in *. assert (Z.of_nat (length src) <= i64_max) as Hs by done. unfold i64_max in Hs.
  rewrite !i64_wrap_id by (unfold is_i64, i64_min, i64_max; lia). cbn [default from_option id].
  assert (bool_decide (span a reach = []) = false) as Hne.
  { apply bool_decide_eq_false_2. intros E. apply (f_equal length) in E. rewrite length_span in E by lia.
    cbn in E. lia. }
  rewrite Hne. cbn [orb].
  destruct (Z.ltb_spec (Z.of_nat c.1) (Z.of_nat reach)) as [Hlt|Hge]; (f_equal; [|f_equal; lia]).
  - rewrite <- Nat2Z.inj_sub, <- Nat2Z.inj_min, skip_span by lia.
    destruct (Nat.le_gt_cases e reach) as [He|He].
    + replace (span (c.1 + (reach - c.1) `min` (e - c.1)) e) with ([] : rstring).
      * rewrite bool_decide_eq_true_2 by done. f_equal. lia.
      * unfold span. by replace (e - (c.1 + (reach - c.1) `min` (e - c.1)))%nat with 0%nat by lia.
    + replace (c.1 + (reach - c.1) `min` (e - c.1))%nat with reach by lia.
      rewrite bool_decide_eq_false_2; [rewrite span_app by lia; f_equal; lia|].
      intros E. apply (f_equal length) in E. rewrite length_span in E by lia. cbn in E. lia.
  - assert (c.1 = reach) as -> by lia. rewrite Z.eqb_refl. clear Hne. case_bool_decide as E.
    + assert (e - reach = 0)%nat by (rewrite <- (length_span reach e) by lia; by rewrite E). f_equal. lia.
    + rewrite span_app by lia. f_equal. lia.
Qed.

Lemma stitch_chained a reach cs :
  (a < reach <= length src)%nat -> chained reach cs -> Z.of_nat (length src) <= i64_max ->
  foldl stitch_piece {| sc_out := span a reach; sc_written_to := Some (Z.of_nat reach) |} (map slice_piece cs) =
  {| sc_out := span a (reach_all reach cs); sc_written_to := Some (Z.of_nat (reach_all reach cs)) |} /\
  (reach <= reach_all reach cs <= length src)%nat.
Proof.
  intros Ha Hc Hsrc. revert reach Ha Hc. induction cs as [|c cs IH]; intros reach Ha Hc; [split; [done|cbn; lia]|].
  destruct Hc as [Hc Hcs]. cbn [map foldl]. rewrite stitch_chunk by done.
  destruct (IH (reach `max` (c.1 + c.2))%nat) as [E Hr]; [lia|done|]. rewrite E. split; [done|].
  change (reach_all reach (c :: cs)) with (reach_all (reach `max` (c.1 + c.2)) cs). lia.
Qed.
End stitch_spec.

(** Stitching overlapping chunks gives the source back character for
    character: when the chunks are slices of one text, the first one is not empty and
    each starts no later than the earlier ones reach, the stitched window
    is the text from where the first begins to where they end,
    whatever they overlap. *)
Lemma stitch_whole (src : rstring) (c : nat * nat) (cs : list (nat * nat)) :
  Z.of_nat (length src) <= i64_max -> (0 < c.2)%nat -> (c.1 + c.2 <= length src)%nat ->
  chained src (c.1 + c.2) cs ->
  stitch (map (slice_piece src) (c :: cs)) = Some (span src c.1 (reach_all (c.1 + c.2) cs)).
Proof.
  intros Hsrc Hn Hc Hcs. unfold stitch. cbn [map foldl].
  assert (span src c.1 (c.1 + c.2) <> []) as Hne.
  { intros E. apply (f_equal length) in E. rewrite length_span in E by lia. cbn in E. lia. }
  assert (stitch_piece {| sc_out := []; sc_written_to := None |} (slice_piece src c) =
    {| sc_out := span src c.1 (c.1 + c.2); sc_written_to := Some (Z.of_nat (c.1 + c.2)) |}) as ->.
  { unfold stitch_piece, slice_piece. cbn [sc_written_to sc_out pc_char_start pc_text default from_option id].
    rewrite length_span by lia. rewrite (bool_decide_eq_false_2 (_ = [])) by done.
    rewrite bool_decide_eq_true_2 by done. cbn [orb app]. unfold i64_max in Hsrc.
    rewrite i64_wrap_id by (unfold is_i64, i64_min, i64_max; lia). unfold i64_min. f_equal. f_equal. lia. }
  destruct (stitch_chained src c.1 (c.1 + c.2) cs) as [-> Hr]; [lia|done|done|]. cbn [sc_out].
  rewrite bool_decide_eq_false_2; [done|].
  intros E. apply (f_equal length) in E. rewrite length_span in E by lia. cbn in E. lia.
Qed.

Example stitch_ex :
  stitch (map (slice_piece (lit "The quick brown fox")) [(0, 9); (4, 11); (10, 9)]%nat) =
    Some (lit "The quick brown fox").
Proof. vm_compute. reflexivity. Qed.
