(* ===== verification/Rank.v ===== *)
(** * Rank: ranking expressions and attribute order ([src/src/store/rank.rs])

    The recency and count penalties every scoring path layers over its base
    score, their validation, and the stable ordering of [list] by an
    attribute.  [f32::powf] is the mathematical library's, a parameter. *)
From Stdlib Require Import SpecFloat.
From S2P Require Import Prelude Floats Model Filter Sort Std Hits Replay Store Aggregate.

Local Open Scope Z_scope.

(** ** Conversions between the two widths *)

(** [x as f32] of an [f64]: rounded to nearest. *)
Definition f_recast (mw ew : Z) (x : spec_float) : Z :=
  match x with
  | S754_finite s p e =>
      bits_of_sf mw ew (binary_normalize (f_prec mw) (f_emax ew) (if s then Zneg p else Zpos p) e s)
  | x => bits_of_sf mw ew x
  end.
Definition f32_of_f64 (x : f64) : f32 := f_recast 23 8 (sf_of_bits 52 11 x).
(** [x as f64] of an [f32]: exact. *)
Definition f64_of_f32 (x : f32) : f64 := f_recast 52 11 (sf_of_bits 23 8 x).
Definition f64_div := f_div 52 11.

Class Powf := powf : f32 -> f32 -> f32.

(** ** Decay *)

Inductive rank_error :=
  RankNoField | RankScale | RankDecayRange | RankLambda | RankMissing | RankCountScale | RankCountLambda.

Definition bad_weight (w : f32) : bool := negb (f32_is_finite w) || f32_ltb w f32_zero.

Definition rank_validate (rank_by : option RankBy) : result rank_error unit :=
  match rank_by with
  | None => Ok tt
  | Some (RankDecay d) =>
      if bool_decide (d_field d = []) && bool_decide (d_count_field d = None) then Err RankNoField
      else if d_scale d <=? 0 then Err RankScale
      else if negb (f32_ltb f32_zero (d_decay d) && f32_ltb (d_decay d) f32_one) then Err RankDecayRange
      else if bad_weight (d_lambda d) then Err RankLambda
      else if negb (f32_leb f32_zero (d_missing d) && f32_leb (d_missing d) f32_one) then Err RankMissing
      else if bool_decide (is_Some (d_count_field d)) && f32_leb (d_count_scale d) f32_zero
      then Err RankCountScale
      else if bad_weight (d_count_lambda d) then Err RankCountLambda
      else Ok tt
  end.

Section decay.
Context `{Powf}.

Definition factor (d : Decay) (attrs : attrs_map) : f32 :=
  match attrs !! d_field d with
  | Some (VDateTime ms) | Some (VInt ms) =>
      let age := Z.max (i64_sat (d_origin d - ms)) 0 in
      powf (d_decay d) (f32_of_f64 (f64_div (f64_of_Z age) (f64_of_Z (d_scale d))))
  | _ => d_missing d
  end.

Definition count_factor (d : Decay) (attrs : attrs_map) : f32 :=
  match d_count_field d with
  | None => f32_zero
  | Some field =>
      let n := match attrs !! field with
               | Some (VInt n) | Some (VDateTime n) => f64_of_Z (Z.max n 0)
               | _ => f64_zero
               end in
      f32_of_f64 (f64_div n (f64_add n (f64_of_f32 (d_count_scale d))))
  end.

Definition adjust (rank_by : option RankBy) (base : f32) (attrs : attrs_map) : f32 :=
  match rank_by with
  | None => base
  | Some (RankDecay d) =>
      let out := if bool_decide (d_field d = []) then base
                 else f32_sub base (f32_mul (d_lambda d) (f32_sub f32_one (factor d attrs))) in
      if bool_decide (is_Some (d_count_field d))
      then f32_sub out (f32_mul (d_count_lambda d) (f32_sub f32_one (count_factor d attrs)))
      else out
  end.

Definition ranked_score (s : Store) (rank_by : option RankBy) (base : f32) (collection id : rstring) : f32 :=
  match rank_by with
  | None => base
  | Some _ =>
      match attrs_of s collection id with
      | Some attrs => adjust rank_by base attrs
      | None => base
      end
  end.
End decay.

(** ** Ordering a list by an attribute *)

(** An entry of a list scan: the primary row, the collection and the id. *)
Record ListEntry := { le_row : option nat; le_col : rstring; le_id : rstring }.

Definition order_key (s : Store) (order : OrderBy) (e : ListEntry) : option Value :=
  attrs_of s (le_col e) (le_id e) ≫= fun attrs => attrs !! ob_field order.

Definition self_comparable (v : Value) : bool := bool_decide (is_Some (value_cmp v v)).

(** The first value of the scan that compares with itself. *)
Definition order_witness (s : Store) (order : OrderBy) (scan : list ListEntry) : option Value :=
  List.find self_comparable (omap (order_key s order) scan).

Definition sortable (witness : Value) (v : option Value) : bool :=
  match v with Some x => bool_decide (is_Some (value_cmp x witness)) | None => false end.

Definition order_cmp (s : Store) (order : OrderBy) (witness : Value) (a b : ListEntry) : comparison :=
  let va := order_key s order a in
  let vb := order_key s order b in
  match sortable witness va, sortable witness vb with
  | true, true =>
      let ord := or_equal (value_cmp (default VNull va) (default VNull vb)) in
      if ob_descending order then CompOpp ord else ord
  | true, false => Lt
  | false, true => Gt
  | false, false => Eq
  end.

Definition order_scan (s : Store) (order : OrderBy) (scan : list ListEntry) : list ListEntry :=
  match order_witness s order scan with
  | None => scan
  | Some witness => sort_by (order_cmp s order witness) scan
  end.

(** ** What the order is *)

(** A total order of values that agrees with [value_cmp] wherever that is
    defined: first by type, then within it. *)
Definition value_tag (v : Value) : nat :=
  match v with
  | VNull => 0 | VInt _ => 1 | VStr _ => 2 | VBool _ => 3 | VFloat _ => 4 | VDateTime _ => 5 | VList _ => 6
  end.
Definition value_str (v : Value) : rstring := match v with VStr s => s | _ => [] end.
Definition value_num (v : Value) : Z * (Z * Z) :=
  match v with
  | VInt z | VDateTime z => (z, (0, 0))
  | VBool b => (if b then 1 else 0, (0, 0))
  | VFloat f => sf_key (sf_of_bits 52 11 f)
  | _ => (0, (0, 0))
  end.
Definition value_total : Value -> Value -> comparison :=
  cmp_then (cmp_on value_tag Nat.compare) (cmp_then (cmp_on value_str str_cmp) (cmp_on value_num key_cmp)).

#[export] Instance value_total_order : CmpOrder value_total.
Proof. unfold value_total, key_cmp. apply _. Qed.

Lemma partial_cmp_some x y :
  is_Some (f64_partial_cmp x y) <->
  sf_of_bits 52 11 x <> S754_nan /\ sf_of_bits 52 11 y <> S754_nan.
Proof.
  unfold f64_partial_cmp, f_partial_cmp.
  destruct (sf_of_bits 52 11 x) as [[]|[]| |[] p e], (sf_of_bits 52 11 y) as [[]|[]| |[] q e'];
    cbn; split; try (intros [? ?]; done); try (intros [? ?]; by eauto); naive_solver.
Qed.

Lemma value_cmp_total a b c : value_cmp a b = Some c -> value_total a b = c.
Proof.
  destruct a as [|s|n|x|l|x|ms], b as [|s'|n'|y|l'|y|ms']; cbn; try done; intros E;
    unfold value_total, cmp_then, cmp_on; cbn.
  - injection E as E. by rewrite E; destruct c.
  - injection E as <-. unfold key_cmp, cmp_then, cmp_on. cbn. by destruct (Z.compare _ _).
  - injection E as <-. by destruct x, y.
  - assert (is_Some (f64_partial_cmp x y)) as Hs by eauto. apply partial_cmp_some in Hs as [Hx Hy].
    revert E. unfold f64_partial_cmp, f_partial_cmp. rewrite sf_compare_key by done. by intros [= ->].
  - injection E as <-. unfold key_cmp, cmp_then, cmp_on. cbn. by destruct (Z.compare _ _).
Qed.

Lemma sortable_cmp w a b :
  sortable w (Some a) = true -> sortable w (Some b) = true -> is_Some (value_cmp a b).
Proof.
  unfold sortable. rewrite !bool_decide_eq_true.
  destruct w as [|s0|n0|x0|l0|x0|ms0], a as [|s|n|x|l|x|ms], b as [|s'|n'|y|l'|y|ms']; cbn;
    try (by intros [? ?]); try (by intros _ [? ?]); try (by eauto).
  rewrite !partial_cmp_some. naive_solver.
Qed.

Section order_spec.
Context (s : Store) (order : OrderBy) (witness : Value).

Definition sorts (e : ListEntry) : bool := sortable witness (order_key s order e).
Definition sort_rank (e : ListEntry) : nat := if sorts e then 0 else 1.
Definition sort_value (e : ListEntry) : Value :=
  if sorts e then default VNull (order_key s order e) else VNull.
Definition sort_total : ListEntry -> ListEntry -> comparison :=
  cmp_then (cmp_on sort_rank Nat.compare)
    (cmp_on sort_value (if ob_descending order then cmp_flip value_total else value_total)).

#[local] Instance sort_total_order : CmpOrder sort_total.
Proof. unfold sort_total. destruct (ob_descending order); apply _. Qed.

Lemma order_cmp_total a b : order_cmp s order witness a b = sort_total a b.
Proof.
  unfold order_cmp, sort_total, cmp_then, cmp_on, sort_value, sort_rank, sorts.
  destruct (sortable witness (order_key s order a)) eqn:Ea, (sortable witness (order_key s order b)) eqn:Eb;
    cbn; try done.
  - destruct (order_key s order a) as [va|]; [|done]. destruct (order_key s order b) as [vb|]; [|done].
    cbn [default from_option id]. destruct (sortable_cmp _ _ _ Ea Eb) as [c E]. rewrite E. cbn [or_equal default from_option id].
    apply value_cmp_total in E. destruct (ob_descending order); [|done].
    unfold cmp_flip. by rewrite (cmp_antisym value_total va vb), E.
  - destruct (ob_descending order); [unfold cmp_flip|]; exact (eq_sym (cmp_refl value_total VNull)) || done.
Qed.

#[local] Instance order_cmp_order : CmpOrder (order_cmp s order witness).
Proof.
  pose proof sort_total_order as H.
  split; [intros x y|intros x y z; unfold cmp_le]; rewrite !order_cmp_total.
  - exact (cmp_antisym sort_total x y).
  - exact (cmp_le_trans sort_total x y z).
Qed.

Lemma after_rest x l :
  sorts x = false -> Forall (cmp_le (order_cmp s order witness) x) l -> List.filter sorts l = [].
Proof.
  intros Ex Hx. induction Hx as [|y l Hy Hl IHl]; [done|]. cbn.
  destruct (sorts y) eqn:Ey; [|exact IHl]. exfalso. apply Hy. unfold order_cmp.
  unfold sorts in Ex, Ey. by rewrite Ex, Ey.
Qed.

(** A sorted list is its sortable part followed by the rest. *)
Lemma sorted_split l :
  StronglySorted (cmp_le (order_cmp s order witness)) l ->
  l = List.filter sorts l ++ List.filter (fun e => negb (sorts e)) l.
Proof.
  induction 1 as [|x l Hs IH Hx]; [done|]. cbn. destruct (sorts x) eqn:Ex; cbn; [by rewrite <- IH|].
  rewrite (after_rest x l Ex Hx) in *. cbn in *. by rewrite <- IH.
Qed.

(** Any class of equals keeps its order of arrival. *)
Lemma class_order (p : ListEntry -> bool) l :
  (forall x y, p x = true -> p y = same_rank (order_cmp s order witness) x y) ->
  List.filter p (sort_by (order_cmp s order witness) l) = List.filter p l.
Proof.
  intros Hp. destruct (List.filter p l) as [|x r] eqn:E.
  - destruct (List.filter p (sort_by _ l)) as [|x r] eqn:E'; [done|]. exfalso.
    assert (In x (x :: r)) as Hx by (by left). rewrite <- E' in Hx. apply filter_In in Hx as [Hx Hn].
    apply list_elem_of_In in Hx. rewrite sort_by_perm in Hx. apply list_elem_of_In in Hx.
    assert (In x []) as []. rewrite <- E. by apply filter_In.
  - assert (p x = true) as Hx.
    { assert (In x (x :: r)) as Hx by (by left). rewrite <- E in Hx. by apply filter_In in Hx as [_ Hx]. }
    rewrite <- E. rewrite !(filter_ext p (same_rank (order_cmp s order witness) x)) by (intros y; by apply Hp).
    apply sort_by_stable. apply _.
Qed.

Lemma rest_order l :
  List.filter (fun e => negb (sorts e)) (sort_by (order_cmp s order witness) l) =
  List.filter (fun e => negb (sorts e)) l.
Proof.
  apply class_order. intros x y Hx%negb_true_iff. unfold same_rank, order_cmp. unfold sorts in *. rewrite Hx.
  destruct (sortable witness (order_key s order y)); reflexivity.
Qed.

(** Equal values of the sortable part. *)
Definition tied (v : Value) (e : ListEntry) : bool :=
  match order_key s order e with
  | Some x => sortable witness (Some x) && bool_decide (value_cmp v x = Some Eq)
  | None => false
  end.

Lemma tied_class v x y :
  tied v x = true -> tied v y = same_rank (order_cmp s order witness) x y.
Proof.
  unfold tied, same_rank, order_cmp.
  destruct (order_key s order x) as [vx|]; [|done]. intros [Hx E]%andb_prop.
  apply bool_decide_eq_true in E. rewrite Hx.
  destruct (order_key s order y) as [vy|]; [|by cbn]. cbn [default from_option id].
  destruct (sortable witness (Some vy)) eqn:Hy; [|done]. cbn [andb].
  destruct (sortable_cmp _ _ _ Hx Hy) as [c Ec]. rewrite Ec. cbn [or_equal default from_option id].
  assert (is_Some (value_cmp v vy)) as [c' Ec'].
  { destruct v as [|?|?|?|?|?|?], vx as [|?|?|?|?|?|?], vy as [|?|?|?|?|?|?]; try done; cbn in *; eauto.
    assert (is_Some (f64_partial_cmp x0 x1)) as [? ?]%partial_cmp_some by eauto.
    assert (is_Some (f64_partial_cmp x1 x2)) as [? ?]%partial_cmp_some by eauto.
    by apply partial_cmp_some. }
  assert (c' = c) as ->.
  { apply value_cmp_total in E, Ec, Ec'. subst c c'. by apply (cmp_eq_l value_total). }
  rewrite Ec'. by destruct c, (ob_descending order).
Qed.

Lemma filter_perm (p : ListEntry -> bool) l l' : l ≡ₚ l' -> List.filter p l ≡ₚ List.filter p l'.
Proof.
  induction 1 as [|x l l' _ IH|x y l|l1 l2 l3 _ IH1 _ IH2]; cbn.
  - done.
  - destruct (p x); by rewrite IH.
  - destruct (p x), (p y); try done. constructor.
  - by rewrite IH1.
Qed.

Lemma filter_filter (p q : ListEntry -> bool) l :
  (forall x, p x = true -> q x = true) -> List.filter p (List.filter q l) = List.filter p l.
Proof.
  intros H. induction l as [|x l IH]; cbn; [done|]. destruct (q x) eqn:Eq; cbn; rewrite IH; [done|].
  destruct (p x) eqn:Ep; [|done]. by rewrite (H _ Ep) in Eq.
Qed.

(** [y] does not belong before [x]. *)
Definition in_order (x y : ListEntry) : Prop :=
  exists vx vy c, order_key s order x = Some vx /\ order_key s order y = Some vy /\
    value_cmp vx vy = Some c /\ c <> if ob_descending order then Lt else Gt.

Lemma sorted_in_order l :
  StronglySorted (cmp_le (order_cmp s order witness)) l -> StronglySorted in_order (List.filter sorts l).
Proof.
  induction 1 as [|x l Hs IH Hx]; [constructor|]. cbn. destruct (sorts x) eqn:Ex; [|exact IH].
  constructor; [exact IH|]. apply Forall_forall. intros y Hy. apply list_elem_of_In, filter_In in Hy as [Hy Ey].
  apply list_elem_of_In in Hy. eapply Forall_forall in Hx; [|exact Hy].
  unfold cmp_le, order_cmp, sorts, in_order in *. rewrite Ex, Ey in Hx.
  destruct (order_key s order x) as [vx|]; [|done]. destruct (order_key s order y) as [vy|]; [|done].
  destruct (sortable_cmp _ _ _ Ex Ey) as [c E]. exists vx, vy, c. split_and!; try done.
  cbn [default from_option id] in Hx. rewrite E in Hx. destruct (ob_descending order), c; done.
Qed.
End order_spec.

(** attribute order is total and stable: ordering keeps every entry; the ones
    whose value compares with the first comparable one come first, in the
    direction asked for, entries with equal values staying in their order of arrival;
    all the others follow in their order of arrival, whichever
    direction is asked for; and without a comparable value nothing moves. *)
Theorem order_scan_spec (s : Store) (order : OrderBy) (scan : list ListEntry) :
  match order_witness s order scan with
  | None => order_scan s order scan = scan
  | Some w => exists front,
      order_scan s order scan = front ++ List.filter (fun e => negb (sorts s order w e)) scan /\
      front ≡ₚ List.filter (sorts s order w) scan /\
      StronglySorted (in_order s order) front /\
      forall v, List.filter (tied s order w v) front = List.filter (tied s order w v) scan
  end.
Proof.
  unfold order_scan. destruct (order_witness s order scan) as [w|]; [|done].
  pose proof (order_cmp_order s order w) as Hord. set (sorted := sort_by _ scan).
  assert (StronglySorted (cmp_le (order_cmp s order w)) sorted) as Hs by (apply sort_by_sorted; apply _).
  exists (List.filter (sorts s order w) sorted). split_and!.
  - rewrite (sorted_split s order w sorted Hs) at 1. f_equal. apply rest_order.
  - apply filter_perm. apply sort_by_perm.
  - by apply (sorted_in_order s order w).
  - intros v. rewrite filter_filter; [apply class_order; apply tied_class|].
    intros x. unfold tied, sorts. destruct (order_key s order x); [|done]. by intros [? _]%andb_prop.
Qed.
