(* ===== verification/Scoring.v ===== *)
(** * Scoring: the scan kernels and the parallel scan ([src/src/store/scoring.rs])

    A kernel scores a chunk of the scan into a bounded collector, looking for
    a cancellation once per [CHECK_EVERY] rows; the parallel scan gives every
    worker a chunk and merges the workers' collectors in the order they were
    spawned.  [tok i] tells whether the [i]-th look of a thread finds the
    request cancelled ([src/src/cancel.rs]); worker [w] looks at [tok w]. *)
From S2P Require Import Prelude Floats Model Sort TopK Std Hits Segments.

Definition CHECK_EVERY : nat := 32 * 32.
Definition PARALLEL_SCAN_WORK_FLOOR : N := 2 ^ 20.

Inductive query_error := QCancelled | QDimension | QOptions | QNoRecord | QNoVector | QPanic.

(** A candidate: its row, and the collection and id of its document. *)
Abbreviation item := (rstring * rstring)%type (only parsing).
Abbreviation scan_entry := (nat * (rstring * rstring))%type (only parsing).
(** A named candidate carries the index of its name. *)
Abbreviation named_entry := (nat * (rstring * rstring) * nat)%type (only parsing).

(** [Ord] of the tuples [(&str, &str)] and [(u64, &str, &str)]. *)
Definition item_cmp : item -> item -> comparison := cmp_then (cmp_on fst str_cmp) (cmp_on snd str_cmp).
Definition row_item_cmp : scan_entry -> scan_entry -> comparison :=
  cmp_then (cmp_on fst Nat.compare) (cmp_on snd item_cmp).

#[export] Instance item_cmp_order : CmpOrder item_cmp.
Proof. unfold item_cmp. apply _. Qed.
#[export] Instance item_cmp_exact : CmpExact item_cmp.
Proof.
  intros [c i] [c' i']. unfold item_cmp, cmp_then, cmp_on. cbn. destruct (str_cmp c c') eqn:E; try done.
  apply str_cmp_eq in E as ->. by intros ->%str_cmp_eq.
Qed.
#[export] Instance row_item_cmp_order : CmpOrder row_item_cmp.
Proof. unfold row_item_cmp. apply _. Qed.
#[export] Instance row_item_cmp_exact : CmpExact row_item_cmp.
Proof.
  intros [r x] [r' x']. unfold row_item_cmp, cmp_then, cmp_on. cbn. destruct (Nat.compare r r') eqn:E; try done.
  apply Nat.compare_eq in E as ->. by intros ->%item_cmp_exact.
Qed.

(** [score < min] skips a candidate. *)
Definition below (min_score : option f32) (score : f32) : bool :=
  match min_score with Some min => f32_ltb score min | None => false end.

(** ** Walking blocks *)

Section blocks.
Context {E S : Type} (step : S -> E -> result query_error S).

Fixpoint walk_block (block : list E) (acc : S) : result query_error S :=
  match block with
  | [] => Ok acc
  | e :: block' => (let? acc := step acc e in walk_block block' acc)%res
  end.

Fixpoint walk_blocks (tok : nat -> bool) (i : nat) (blocks : list (list E)) (acc : S)
  : result query_error S :=
  match blocks with
  | [] => Ok acc
  | b :: bs =>
      if tok i then Err QCancelled
      else (let? acc := walk_block b acc in walk_blocks tok (i + 1) bs acc)%res
  end.
End blocks.

Definition walk {E S} (step : S -> E -> result query_error S) (tok : nat -> bool) (l : list E) (acc : S)
  : result query_error S :=
  walk_blocks step tok 0 (chunks CHECK_EVERY l) acc.

(** ** The kernels *)

Definition score_row (data : Segments) (q : list f32) (score_fn : list f32 -> list f32 -> f32)
    (min_score : option f32) (t : TopK (T := item)) (e : scan_entry) : result query_error (TopK (T := item)) :=
  let score := score_fn q (segments_row e.1 data) in
  Ok (if below min_score score then t else offer item_cmp score e.2 t).

Definition score_chunk (tok : nat -> bool) (data : Segments) (chunk : list scan_entry) (q : list f32)
    (score_fn : list f32 -> list f32 -> f32) (top_k : nat) (min_score : option f32)
  : result query_error (TopK (T := item)) :=
  walk (score_row data q score_fn min_score) tok chunk (TopK_new top_k).

(** [&v[base..end]], for a row of [dim] elements: nothing past the end. *)
Definition code_row {A} (v : list A) (dim row : nat) : option (list A) :=
  if (length v <? row * dim + dim)%nat then None else Some (take dim (drop (row * dim) v)).

Definition score_i8 (is_euclidean : bool) (a b : list Z) : option Z :=
  if is_euclidean then euclidean_neg_sq_i8 a b else dot_i8 a b.

Definition score_row_i8 (quant_vectors : list Z) (dim : nat) (q_i8 : list Z) (is_euclidean : bool)
    (t : TopK (T := scan_entry)) (e : scan_entry) : result query_error (TopK (T := scan_entry)) :=
  match code_row quant_vectors dim e.1 with
  | None => Ok t
  | Some stored =>
      match score_i8 is_euclidean q_i8 stored with
      | Some z => Ok (offer row_item_cmp (f32_of_Z z) e t)
      | None => Err QPanic
      end
  end.

Definition score_chunk_i8 (tok : nat -> bool) (quant_vectors : list Z) (dim : nat) (chunk : list scan_entry)
    (q_i8 : list Z) (is_euclidean : bool) (overscan : nat) : result query_error (TopK (T := scan_entry)) :=
  walk (score_row_i8 quant_vectors dim q_i8 is_euclidean) tok chunk (TopK_new overscan).

Definition score_row_bin (words : list Z) (words_per_row : nat) (q_words : list Z)
    (t : TopK (T := scan_entry)) (e : scan_entry) : result query_error (TopK (T := scan_entry)) :=
  match code_row words words_per_row e.1 with
  | None => Ok t
  | Some stored => Ok (offer row_item_cmp (f32_opp (f32_of_Z (Z.of_nat (hamming q_words stored)))) e t)
  end.

Definition score_chunk_bin (tok : nat -> bool) (words : list Z) (words_per_row : nat) (chunk : list scan_entry)
    (q_words : list Z) (overscan : nat) : result query_error (TopK (T := scan_entry)) :=
  walk (score_row_bin words words_per_row q_words) tok chunk (TopK_new overscan).

(** ** The fan-out *)

(** The workers, in the order they were spawned; the first error is the answer. *)
Fixpoint join_workers {C A} (score_one : (nat -> bool) -> C -> result query_error A) (tok : nat -> nat -> bool)
    (w : nat) (parts : list C) : result query_error (list A) :=
  match parts with
  | [] => Ok []
  | p :: ps =>
      (let? x := score_one (tok w) p in
       let? xs := join_workers score_one tok (w + 1) ps in Ok (x :: xs))%res
  end.

Definition merge_locals {T} (cmp : T -> T -> comparison) (cap : nat) (locals : list (TopK (T := T)))
  : TopK (T := T) :=
  foldl (fun t x => offer cmp x.1 x.2 t) (TopK_new cap) (mjoin (map (into_sorted_desc cmp) locals)).

Definition by_row : scan_entry -> scan_entry -> comparison := cmp_on fst Nat.compare.

Definition parallel_topk `{SortUnstable} {T} (cmp : T -> T -> comparison) (tok : nat -> nat -> bool)
    (scan : list scan_entry) (workers cap : nat)
    (score_one : (nat -> bool) -> list scan_entry -> result query_error (TopK (T := T)))
  : result query_error (TopK (T := T)) :=
  let chunk_len := div_ceil (length scan) workers in
  if (chunk_len =? 0)%nat then Err QPanic
  else
    (let? locals := join_workers (fun tk chunk => score_one tk (sort_unstable by_row chunk)) tok 0
                      (chunks chunk_len scan) in
     Ok (merge_locals cmp cap locals))%res.

(** ** Named vectors *)

Record NamedReduce := { nr_weights : list f32; nr_pool : Pool }.

Definition pool_step (data : Segments) (q : list f32) (score_fn : list f32 -> list f32 -> f32)
    (reduce : NamedReduce) (acc : option f32) (e : named_entry) : option f32 :=
  let w := default f32_one (nr_weights reduce !! e.2) in
  let weighted := f32_mul (score_fn q (segments_row e.1.1 data)) w in
  Some match acc, nr_pool reduce with
       | None, _ => weighted
       | Some a, PoolMax => f32_max a weighted
       | Some a, PoolSum => f32_add a weighted
       end.

(** The pooled score of one record's rows. *)
Definition pooled (data : Segments) (q : list f32) (score_fn : list f32 -> list f32 -> f32)
    (reduce : NamedReduce) (run : list named_entry) : option f32 :=
  foldl (pool_step data q score_fn reduce) None run.

Definition same_record (x y : named_entry) : bool := bool_decide (y.1.2 = x.1.2).

(** [min_score.is_none_or(|m| score >= m)]. *)
Definition reaches (min_score : option f32) (score : f32) : bool :=
  match min_score with Some m => f32_leb m score | None => true end.

Section named.
Context (data : Segments) (q : list f32) (score_fn : list f32 -> list f32 -> f32).
Context (min_score : option f32) (reduce : NamedReduce).

Definition offer_run (t : TopK (T := item)) (key : item) (run : list named_entry) : TopK (T := item) :=
  match pooled data q score_fn reduce run with
  | Some score => if reaches min_score score then offer item_cmp score key t else t
  | None => t
  end.

Fixpoint named_loop (fuel : nat) (tok : nat -> bool) (groups_seen : nat) (chunk : list named_entry)
    (t : TopK (T := item)) : result query_error (TopK (T := item)) :=
  match fuel, chunk with
  | S fuel', e :: rest =>
      let run := e :: take_while (same_record e) rest in
      let groups_seen := S groups_seen in
      if (groups_seen mod CHECK_EVERY =? 0)%nat && tok (groups_seen / CHECK_EVERY)%nat then Err QCancelled
      else named_loop fuel' tok groups_seen (skip_while (same_record e) rest) (offer_run t e.1.2 run)
  | _, _ => Ok t
  end.

Definition score_chunk_named (tok : nat -> bool) (chunk : list named_entry) (top_k : nat)
  : result query_error (TopK (T := item)) :=
  named_loop (length chunk) tok 0 chunk (TopK_new top_k).
End named.

(** [scan[pos]] continues the record of [scan[pos - 1]]. *)
Definition continues (scan : list named_entry) (pos : nat) : bool :=
  match scan !! pos, scan !! (pos - 1)%nat with
  | Some x, Some y => same_record y x
  | _, _ => false
  end.

Fixpoint snap (fuel : nat) (scan : list named_entry) (pos : nat) : nat :=
  match fuel with
  | O => pos
  | S fuel' => if continues scan pos then snap fuel' scan (pos + 1) else pos
  end.

Fixpoint cut_loop (fuel : nat) (scan : list named_entry) (target pos : nat) : list nat :=
  match fuel with
  | O => []
  | S fuel' =>
      if (pos <? length scan)%nat then
        let pos := snap (length scan) scan pos in
        pos :: cut_loop fuel' scan target (pos + target)
      else []
  end.

Fixpoint split_at_cuts (prev : nat) (cuts : list nat) (rest : list named_entry) : list (list named_entry) :=
  match cuts with
  | [] => [rest]
  | c :: cs => take (c - prev) rest :: split_at_cuts c cs (drop (c - prev) rest)
  end.

Definition record_aligned_split (scan : list named_entry) (workers : nat) : list (list named_entry) :=
  if (workers <=? 1)%nat || (length scan =? 0)%nat then [scan]
  else
    let target := div_ceil (length scan) workers in
    split_at_cuts 0 (cut_loop (length scan) scan target (Nat.min target (length scan))) scan.

Definition parallel_topk_grouped {T} (cmp : T -> T -> comparison) (tok : nat -> nat -> bool)
    (scan : list named_entry) (workers cap : nat)
    (score_one : (nat -> bool) -> list named_entry -> result query_error (TopK (T := T)))
  : result query_error (TopK (T := T)) :=
  (let? locals := join_workers score_one tok 0 (record_aligned_split scan workers) in
   Ok (merge_locals cmp cap locals))%res.

(** ** A walk offers what it scores *)

Section walking.
Context {E T : Type} (cmp : T -> T -> comparison) (sc : E -> option (f32 * T)).
Context (step : TopK (T := T) -> E -> result query_error (TopK (T := T))).

Definition offers (t : TopK (T := T)) (l : list (f32 * T)) : TopK (T := T) :=
  foldl (fun t x => offer cmp x.1 x.2 t) t l.
Definition offer_opt (t : TopK (T := T)) (e : E) : TopK (T := T) :=
  match sc e with Some x => offer cmp x.1 x.2 t | None => t end.

Context (Hstep : forall t e, step t e = Ok (offer_opt t e)).

Lemma offers_app t l1 l2 : offers t (l1 ++ l2) = offers (offers t l1) l2.
Proof. apply foldl_app. Qed.

Lemma walk_block_offers block t : walk_block step block t = Ok (offers t (omap sc block)).
Proof.
  revert t. induction block as [|e block IH]; intros t; [done|]. cbn [walk_block]. rewrite Hstep. cbn [res_bind].
  rewrite IH. cbn. unfold offer_opt. by destruct (sc e).
Qed.

Lemma walk_blocks_offers tok i blocks t :
  walk_blocks step tok i blocks t = Ok (offers t (omap sc (mjoin blocks))) \/
  walk_blocks step tok i blocks t = Err QCancelled /\ exists j, tok j = true.
Proof.
  revert i t. induction blocks as [|b bs IH]; intros i t; [by left|]. cbn [walk_blocks].
  destruct (tok i) eqn:Et; [right; by eauto|]. rewrite walk_block_offers. cbn [res_bind].
  change (mjoin (b :: bs)) with (b ++ mjoin bs). rewrite omap_app, offers_app. apply IH.
Qed.

Lemma walk_offers tok l t :
  walk step tok l t = Ok (offers t (omap sc l)) \/
  walk step tok l t = Err QCancelled /\ exists j, tok j = true.
Proof.
  unfold walk. rewrite <- (chunks_join CHECK_EVERY l) at 2 by (unfold CHECK_EVERY; lia).
  apply walk_blocks_offers.
Qed.
End walking.

(** ** The best of the bests *)

Section merging.
Context {T : Type} (cmp : T -> T -> comparison) `{!CmpOrder cmp} `{!CmpExact cmp}.
Let ecmp := entry_cmp cmp.

(** The [k] best, best first. *)
Definition top (k : nat) (l : list (f32 * T)) : list (f32 * T) := take k (sort_by ecmp l).

#[local] Instance ecmp_order : CmpOrder ecmp.
Proof. unfold ecmp, entry_cmp. apply _. Qed.

Lemma take_insert_take k x (l : list (f32 * T)) :
  take k (insert_by ecmp x (take k l)) = take k (insert_by ecmp x l).
Proof.
  revert l. induction k as [|k IH]; intros l; [done|]. destruct l as [|y l]; [done|].
  cbn [take insert_by]. destruct (ecmp x y).
  - cbn [take]. f_equal. destruct k; [done|]. cbn. f_equal. by rewrite take_take, Nat.min_l by lia.
  - cbn [take]. f_equal. destruct k; [done|]. cbn. f_equal. by rewrite take_take, Nat.min_l by lia.
  - cbn [take]. by rewrite IH.
Qed.

Lemma take_inserts k (l : list (f32 * T)) S S' :
  take k S = take k S' -> take k (foldr (insert_by ecmp) S l) = take k (foldr (insert_by ecmp) S' l).
Proof.
  intros H. induction l as [|x l IH]; [done|]. cbn [foldr].
  rewrite <- take_insert_take, IH, take_insert_take. done.
Qed.

Lemma sort_app (l1 l2 : list (f32 * T)) :
  sort_by ecmp (l1 ++ l2) = foldr (insert_by ecmp) (sort_by ecmp l2) l1.
Proof. unfold sort_by. by rewrite foldr_app. Qed.

Lemma top_app_cong k l l1 l2 : top k l1 = top k l2 -> top k (l ++ l1) = top k (l ++ l2).
Proof. intros H. unfold top. rewrite !sort_app. by apply take_inserts. Qed.

Lemma top_idem k l : top k (top k l) = top k l.
Proof.
  unfold top. rewrite (sort_by_id ecmp (take k _)); [by rewrite take_take, Nat.min_id|].
  pose proof (sort_by_sorted ecmp l) as Hs. rewrite <- (take_drop k (sort_by _ l)) in Hs.
  by apply StronglySorted_app in Hs as (_ & ? & _).
Qed.

Lemma top_perm k (l1 l2 : list (f32 * T)) : NoDup l1.*2 -> l1 ≡ₚ l2 -> top k l1 = top k l2.
Proof. intros Hnd Hp. unfold top, ecmp. by rewrite (sort_entries cmp l1 l2). Qed.

Lemma top_sub k l : (top k l).*2 ⊆ l.*2.
Proof.
  intros x Hx. apply list_elem_of_fmap in Hx as (y & -> & Hy). apply list_elem_of_fmap. exists y.
  split; [done|]. apply elem_of_take_in in Hy. by rewrite sort_by_perm in Hy.
Qed.

Lemma top_nodup k l : NoDup l.*2 -> NoDup (top k l).*2.
Proof.
  intros H. unfold top. rewrite fmap_take. eapply sublist_NoDup; [|apply sublist_take].
  by rewrite sort_by_perm.
Qed.

Lemma top_app k l1 l2 : NoDup (l1 ++ l2).*2 -> top k (top k l1 ++ l2) = top k (l1 ++ l2).
Proof.
  intros Hnd. rewrite fmap_app in Hnd. apply NoDup_app in Hnd as (H1 & Hd & H2).
  rewrite (top_perm k (top k l1 ++ l2) (l2 ++ top k l1)), (top_perm k (l1 ++ l2) (l2 ++ l1)).
  - apply top_app_cong. apply top_idem.
  - rewrite fmap_app. by apply NoDup_app.
  - apply Permutation_app_comm.
  - rewrite fmap_app. apply NoDup_app. split_and!; [by apply top_nodup| |done].
    intros x Hx%top_sub. by apply Hd.
  - apply Permutation_app_comm.
Qed.

Lemma top_tops k (ls : list (list (f32 * T))) :
  NoDup (mjoin ls).*2 -> top k (mjoin (map (top k) ls)) = top k (mjoin ls).
Proof.
  induction ls as [|l ls IH]; [done|]. intros Hnd.
  change (mjoin (map (top k) (l :: ls))) with (top k l ++ mjoin (map (top k) ls)).
  change (mjoin (l :: ls)) with (l ++ mjoin ls) in *.
  rewrite (top_app_cong k (top k l) _ (mjoin ls)); [by apply top_app|].
  apply IH. rewrite fmap_app in Hnd. by apply NoDup_app in Hnd as (_ & _ & ?).
Qed.

Lemma offers_top k l : NoDup l.*2 -> into_sorted_desc cmp (offers cmp (TopK_new k) l) = top k l.
Proof. intros Hnd. apply (sorted_heap cmp); [done|]. by apply (scan_heap cmp). Qed.

(** Merging the collectors of the parts of a scan. *)
Lemma merge_top k (ls : list (list (f32 * T))) :
  NoDup (mjoin ls).*2 ->
  into_sorted_desc cmp (merge_locals cmp k (map (offers cmp (TopK_new k)) ls)) = top k (mjoin ls).
Proof.
  intros Hnd. rewrite <- top_tops by done. unfold merge_locals. rewrite map_map.
  assert (map (fun x => into_sorted_desc cmp (offers cmp (TopK_new k) x)) ls = map (top k) ls) as ->.
  { induction ls as [|l ls IH]; [done|]. change (mjoin (l :: ls)) with (l ++ mjoin ls) in Hnd.
    rewrite fmap_app in Hnd. apply NoDup_app in Hnd as (H1 & _ & H2). cbn. rewrite offers_top by done.
    by rewrite IH. }
  apply offers_top.
  induction ls as [|l ls IH]; [constructor|]. change (mjoin (l :: ls)) with (l ++ mjoin ls) in Hnd.
  change (mjoin (map (top k) (l :: ls))) with (top k l ++ mjoin (map (top k) ls)).
  rewrite fmap_app in *. apply NoDup_app in Hnd as (H1 & Hd & H2). apply NoDup_app.
  split_and!; [by apply top_nodup| |by apply IH].
  intros x Hx%top_sub Hx'. apply (Hd x Hx). clear - Hx'.
  induction ls as [|l' ls IH]; [done|].
  change (mjoin (map (top k) (l' :: ls))) with (top k l' ++ mjoin (map (top k) ls)) in Hx'.
  change (mjoin (l' :: ls)) with (l' ++ mjoin ls). rewrite fmap_app in *.
  apply elem_of_app in Hx' as [Hx'%top_sub|Hx']; apply elem_of_app; [by left|right; by apply IH].
Qed.
End merging.

(** ** The parallel scan is the serial one *)

Section workers.
Context {C A : Type} (score_one : (nat -> bool) -> C -> result query_error A) (f : C -> A).
Context (Hone : forall tk p, score_one tk p = Ok (f p) \/ score_one tk p = Err QCancelled /\ exists j, tk j = true).

Lemma join_workers_spec tok w parts :
  join_workers score_one tok w parts = Ok (map f parts) \/
  join_workers score_one tok w parts = Err QCancelled /\ exists w j, tok w j = true.
Proof.
  revert w. induction parts as [|p ps IH]; intros w; [by left|]. cbn [join_workers map].
  destruct (Hone (tok w) p) as [->|[-> [j Hj]]]; cbn [res_bind]; [|right; by eauto].
  destruct (IH (w + 1)%nat) as [->|[-> Hex]]; cbn [res_bind]; [by left|by right].
Qed.
End workers.

(** An outcome of a scan: the ranking, or a cancellation some thread saw. *)
Definition ranks {T} (cmp : T -> T -> comparison) (tok : nat -> nat -> bool) (ranking : list (f32 * T))
    (r : result query_error (TopK (T := T))) : Prop :=
  match r with
  | Ok t => into_sorted_desc cmp t = ranking
  | Err e => e = QCancelled /\ exists w j, tok w j = true
  end.

Section parallel.
Context `{SortUnstable} {T : Type} (cmp : T -> T -> comparison) `{!CmpOrder cmp} `{!CmpExact cmp}.
Context (sc : scan_entry -> option (f32 * T)) (tok : nat -> nat -> bool) (k : nat).
Context (step : TopK (T := T) -> scan_entry -> result query_error (TopK (T := T))).
Context (Hstep : forall t e, step t e = Ok (offer_opt cmp sc t e)).

Lemma omap_perm {X Y} (g : X -> option Y) (l l' : list X) : l ≡ₚ l' -> omap g l ≡ₚ omap g l'.
Proof.
  induction 1 as [|x l l' _ IH|x y l|l1 l2 l3 _ IH1 _ IH2]; cbn; [done| | |by rewrite IH1].
  - destruct (g x); by rewrite IH.
  - destruct (g x), (g y); try done. constructor.
Qed.

Lemma serial_ranks scan :
  NoDup (omap sc scan).*2 -> ranks cmp tok (top cmp k (omap sc scan)) (walk step (tok 0%nat) scan (TopK_new k)).
Proof.
  intros Hnd. destruct (walk_offers cmp sc step Hstep (tok 0%nat) scan (TopK_new k)) as [->|[-> [j Hj]]]; cbn.
  - by apply offers_top.
  - split; [done|]. by exists 0%nat, j.
Qed.

Lemma chunks_sorted_perm n (scan : list scan_entry) :
  (0 < n)%nat -> mjoin (map (sort_unstable by_row) (chunks n scan)) ≡ₚ scan.
Proof.
  intros Hn. rewrite <- (chunks_join n scan) at 2 by done.
  induction (chunks n scan) as [|c cs IH]; [done|].
  change (mjoin (map ?g (c :: cs))) with (g c ++ mjoin (map g cs)). change (mjoin (c :: cs)) with (c ++ mjoin cs).
  by rewrite IH, sort_unstable_perm.
Qed.

Lemma parallel_ranks scan workers :
  (0 < workers)%nat -> scan <> [] -> NoDup (omap sc scan).*2 ->
  ranks cmp tok (top cmp k (omap sc scan))
    (parallel_topk cmp tok scan workers k (fun tk chunk => walk step tk chunk (TopK_new k))).
Proof.
  intros Hw Hne Hnd. unfold parallel_topk.
  assert (0 < div_ceil (length scan) workers)%nat as Hc.
  { unfold div_ceil. destruct scan; [done|]. cbn [length]. apply Nat.div_str_pos. lia. }
  destruct (Nat.eqb_spec (div_ceil (length scan) workers) 0) as [|_]; [lia|].
  set (n := div_ceil _ _) in *. set (parts := chunks n scan).
  set (ls := map (fun c => omap sc (sort_unstable by_row c)) parts).
  assert (mjoin ls ≡ₚ omap sc scan) as Hp.
  { unfold ls. rewrite <- (chunks_sorted_perm n scan Hc) at 1. fold parts.
    induction parts as [|c cs IH]; [done|].
    change (mjoin (map ?g (c :: cs))) with (g c ++ mjoin (map g cs)). by rewrite omap_app, IH. }
  pose proof (join_workers_spec (fun tk chunk => walk step tk (sort_unstable by_row chunk) (TopK_new k))
    (fun c => offers cmp (TopK_new k) (omap sc (sort_unstable by_row c)))
    (fun tk p => walk_offers cmp sc step Hstep tk _ _) tok 0 parts) as [->|[-> Hex]]; cbn [res_bind ranks].
  - assert (map (fun c => offers cmp (TopK_new k) (omap sc (sort_unstable by_row c))) parts =
      map (offers cmp (TopK_new k)) ls) as -> by (unfold ls; by rewrite map_map).
    rewrite (merge_top cmp k ls) by (by rewrite Hp). apply (top_perm cmp); [by rewrite Hp|done].
  - done.
Qed.
End parallel.

(** ** Named scans: the runs of a scan, and how it is cut *)

Fixpoint runs_fuel (fuel : nat) (l : list named_entry) : list (list named_entry) :=
  match fuel, l with
  | S fuel', e :: rest =>
      (e :: take_while (same_record e) rest) :: runs_fuel fuel' (skip_while (same_record e) rest)
  | _, _ => []
  end.
(** The maximal runs of rows of one record. *)
Definition runs (l : list named_entry) : list (list named_entry) := runs_fuel (length l) l.

Lemma runs_fuel_enough f1 f2 l :
  (length l <= f1)%nat -> (length l <= f2)%nat -> runs_fuel f1 l = runs_fuel f2 l.
Proof.
  revert f2 l. induction f1 as [|f1 IH]; intros f2 l H1 H2; [destruct l; [|cbn in H1; lia]; by destruct f2|].
  destruct l as [|e l]; [by destruct f2|]. destruct f2 as [|f2]; [cbn in H2; lia|]. cbn [runs_fuel]. f_equal.
  pose proof (length_skip_while (same_record e) l). cbn in H1, H2. apply IH; lia.
Qed.

Lemma runs_cons e l :
  runs (e :: l) = (e :: take_while (same_record e) l) :: runs (skip_while (same_record e) l).
Proof.
  unfold runs. cbn [length runs_fuel]. f_equal. pose proof (length_skip_while (same_record e) l).
  apply runs_fuel_enough; lia.
Qed.

(** [l1] and [l2] do not share a record at their boundary. *)
Definition seam (l1 l2 : list named_entry) : Prop :=
  forall x y, last l1 = Some x -> head l2 = Some y -> same_record x y = false.

Lemma take_skip_app e l1 l2 :
  (skip_while (same_record e) l1 = [] -> forall y, head l2 = Some y -> same_record e y = false) ->
  take_while (same_record e) (l1 ++ l2) = take_while (same_record e) l1 /\
  skip_while (same_record e) (l1 ++ l2) = skip_while (same_record e) l1 ++ l2.
Proof.
  induction l1 as [|x l1 IH]; cbn.
  - intros Hl. destruct l2 as [|y l2]; [done|]. cbn. by rewrite (Hl eq_refl y eq_refl).
  - intros Hl. destruct (same_record e x); [|done]. destruct (IH Hl) as [-> ->]. done.
Qed.

Lemma same_record_trans e x y : same_record e x = true -> same_record e y = same_record x y.
Proof. unfold same_record. intros ->%bool_decide_eq_true. done. Qed.

Lemma last_run e l x : skip_while (same_record e) l = [] -> last (e :: l) = Some x -> same_record e x = true.
Proof.
  revert e. induction l as [|y l IH]; intros e.
  - intros _ [= <-]. unfold same_record. by apply bool_decide_eq_true.
  - cbn [skip_while]. destruct (same_record e y) eqn:E; [|done]. intros Hs Hl.
    assert (last (y :: l) = Some x) as Hl' by done.
    rewrite (same_record_trans _ _ x E). apply IH; [|done].
    clear - Hs E. induction l as [|z l IH]; [done|]. cbn in *. rewrite <- (same_record_trans _ _ z E).
    destruct (same_record e z); [|done]. by apply IH.
Qed.

Lemma runs_app l1 l2 : seam l1 l2 -> runs (l1 ++ l2) = runs l1 ++ runs l2.
Proof.
  assert (forall n l1, (length l1 <= n)%nat -> seam l1 l2 -> runs (l1 ++ l2) = runs l1 ++ runs l2) as H.
  { induction n as [|n IH]; intros l Hn Hseam; [destruct l; [done|cbn in Hn; lia]|].
    destruct l as [|e l]; [done|]. cbn [app]. rewrite !runs_cons.
    destruct (take_skip_app e l l2) as [-> ->].
    { intros Hs y Hy. destruct (last (e :: l)) as [x|] eqn:Ex; [|by apply last_None in Ex].
      pose proof (last_run _ _ _ Hs Ex) as Hx. rewrite (same_record_trans _ _ y Hx). by apply Hseam. }
    cbn [app]. f_equal. apply IH.
    - pose proof (length_skip_while (same_record e) l). cbn in Hn. lia.
    - intros x y Hx Hy. apply Hseam; [|done].
      rewrite <- (take_skip_while (same_record e) l). rewrite app_comm_cons, last_app, Hx. done. }
  apply (H (length l1)). lia.
Qed.

Lemma snap_spec fuel scan pos :
  (length scan - pos <= fuel)%nat ->
  (pos <= snap fuel scan pos)%nat /\ continues scan (snap fuel scan pos) = false.
Proof.
  revert pos. induction fuel as [|fuel IH]; intros pos Hf; cbn [snap].
  - split; [done|]. unfold continues. by rewrite lookup_ge_None_2 by lia.
  - destruct (continues scan pos) eqn:E; [|done]. destruct (IH (pos + 1)%nat) as [H1 H2]; [lia|].
    split; [lia|done].
Qed.

(** Cuts ascend, and none splits a record. *)
Fixpoint good_cuts (scan : list named_entry) (prev : nat) (cuts : list nat) : Prop :=
  match cuts with
  | [] => True
  | c :: cs => (prev < c)%nat /\ continues scan c = false /\ good_cuts scan c cs
  end.

Lemma cut_loop_good fuel scan target pos prev :
  (0 < target)%nat -> (prev < pos)%nat -> good_cuts scan prev (cut_loop fuel scan target pos).
Proof.
  intros Ht. revert pos prev. induction fuel as [|fuel IH]; intros pos prev Hp; [done|]. cbn [cut_loop].
  destruct (Nat.ltb_spec pos (length scan)); [|done].
  destruct (snap_spec (length scan) scan pos) as [H1 H2]; [lia|]. cbn [good_cuts].
  split_and!; [lia|done|]. apply IH. lia.
Qed.

Lemma split_runs scan prev cuts :
  good_cuts scan prev cuts ->
  mjoin (map runs (split_at_cuts prev cuts (drop prev scan))) = runs (drop prev scan).
Proof.
  revert prev. induction cuts as [|c cs IH]; intros prev; cbn [split_at_cuts good_cuts].
  { intros _. cbn. apply app_nil_r. }
  intros (Hlt & Hc & Hcs). cbn [map].
  change (mjoin (?r :: ?rs)) with (r ++ mjoin rs).
  rewrite drop_drop. replace (prev + (c - prev))%nat with c by lia. rewrite IH by done.
  rewrite <- (take_drop (c - prev) (drop prev scan)) at 2. rewrite drop_drop.
  replace (prev + (c - prev))%nat with c by lia. symmetry. apply runs_app.
  intros x y Hx Hy. unfold continues in Hc.
  rewrite head_lookup, lookup_drop, Nat.add_0_r in Hy. rewrite Hy in Hc.
  assert (scan !! (c - 1)%nat = Some x) as Hx'; [|by rewrite Hx' in Hc].
  assert (c < length scan)%nat as Hcl by (by eapply lookup_lt_Some).
  rewrite last_lookup, length_take, length_drop in Hx.
  rewrite lookup_take_lt in Hx by lia. rewrite lookup_drop in Hx.
  rewrite <- Hx. f_equal. lia.
Qed.

Lemma aligned_runs scan workers :
  mjoin (map runs (record_aligned_split scan workers)) = runs scan.
Proof.
  unfold record_aligned_split. destruct (_ || _) eqn:E; [cbn; apply app_nil_r|].
  apply orb_false_iff in E as [E1%Nat.leb_gt E2%Nat.eqb_neq].
  assert (0 < div_ceil (length scan) workers)%nat.
  { unfold div_ceil. apply Nat.div_str_pos. lia. }
  apply (split_runs scan 0). apply cut_loop_good; lia.
Qed.

Section named_spec.
Context (data : Segments) (q : list f32) (score_fn : list f32 -> list f32 -> f32).
Context (min_score : option f32) (reduce : NamedReduce) (tok : nat -> nat -> bool) (k : nat).

Definition run_key (run : list named_entry) : item := default ([], []) (snd ∘ fst <$> head run).

(** A record's pooled score, when it reaches the minimum. *)
Definition run_score (run : list named_entry) : option (f32 * item) :=
  match pooled data q score_fn reduce run with
  | Some score => if reaches min_score score then Some (score, run_key run) else None
  | None => None
  end.

Lemma named_loop_offers fuel tk seen chunk t :
  named_loop data q score_fn min_score reduce fuel tk seen chunk t =
    Ok (offers item_cmp t (omap run_score (runs_fuel fuel chunk))) \/
  named_loop data q score_fn min_score reduce fuel tk seen chunk t = Err QCancelled /\ exists j, tk j = true.
Proof.
  revert seen chunk t. induction fuel as [|fuel IH]; intros seen chunk t; [by left|].
  destruct chunk as [|e rest]; [by left|]. cbn [named_loop runs_fuel].
  destruct ((_ =? 0)%nat && tk _) eqn:Et; [apply andb_prop in Et as [_ Et]; right; by eauto|].
  destruct (IH (S seen) (skip_while (same_record e) rest)
    (offer_run data q score_fn min_score reduce t e.1.2 (e :: take_while (same_record e) rest)))
    as [->|[-> Hex]]; [left|by right].
  f_equal. set (r := e :: _). set (rs := runs_fuel _ _).
  assert (run_score r = match pooled data q score_fn reduce r with
    | Some score => if reaches min_score score then Some (score, e.1.2) else None | None => None end) as Hr by done.
  change (omap run_score (r :: rs)) with
    (match run_score r with Some y => y :: omap run_score rs | None => omap run_score rs end).
  rewrite Hr. unfold offer_run. destruct (pooled _ _ _ _ _) as [score|]; [|done].
  by destruct (reaches min_score score).
Qed.

Lemma score_chunk_named_offers tk chunk :
  score_chunk_named data q score_fn min_score reduce tk chunk k =
    Ok (offers item_cmp (TopK_new k) (omap run_score (runs chunk))) \/
  score_chunk_named data q score_fn min_score reduce tk chunk k = Err QCancelled /\ exists j, tk j = true.
Proof. apply named_loop_offers. Qed.

(** The records of the scan are each one run. *)
Definition one_run_each (scan : list named_entry) : Prop := NoDup (map run_key (runs scan)).

Lemma run_scores_nodup rs : NoDup (map run_key rs) -> NoDup (omap run_score rs).*2.
Proof.
  induction rs as [|r rs IH]; [constructor|]. cbn [map]. intros [Hr Hrs]%NoDup_cons.
  change (omap run_score (r :: rs)) with
    (match run_score r with Some y => y :: omap run_score rs | None => omap run_score rs end).
  destruct (run_score r) as [y|] eqn:E; [|by apply IH]. cbn. apply NoDup_cons. split; [|by apply IH].
  assert (y.2 = run_key r) as ->.
  { unfold run_score in E. destruct (pooled _ _ _ _ _); [|done]. destruct (reaches _ _); [|done]. by injection E as <-. }
  contradict Hr. apply list_elem_of_fmap in Hr as ([s key] & E' & Hin). cbn in E'. subst key.
  apply list_elem_of_omap in Hin as (r' & Hr' & Es). unfold run_score in Es.
  destruct (pooled _ _ _ _ _); [|done]. destruct (reaches _ _); [|done]. injection Es as _ <-.
  by apply list_elem_of_fmap_2.
Qed.

Lemma named_serial_ranks scan :
  one_run_each scan ->
  ranks item_cmp tok (top item_cmp k (omap run_score (runs scan)))
    (score_chunk_named data q score_fn min_score reduce (tok 0%nat) scan k).
Proof.
  intros Hnd%run_scores_nodup. destruct (score_chunk_named_offers (tok 0%nat) scan) as [->|[-> [j Hj]]]; cbn.
  - by apply offers_top; try apply _.
  - split; [done|]. by exists 0%nat, j.
Qed.

Lemma named_parallel_ranks scan workers :
  one_run_each scan ->
  ranks item_cmp tok (top item_cmp k (omap run_score (runs scan)))
    (parallel_topk_grouped item_cmp tok scan workers k
       (fun tk chunk => score_chunk_named data q score_fn min_score reduce tk chunk k)).
Proof.
  intros Hnd%run_scores_nodup. unfold parallel_topk_grouped.
  set (shards := record_aligned_split scan workers).
  set (ls := map (fun c => omap run_score (runs c)) shards).
  assert (mjoin ls = omap run_score (runs scan)) as Hls.
  { rewrite <- (aligned_runs scan workers). unfold ls. fold shards.
    induction shards as [|c cs IH]; [done|].
    change (mjoin (map ?g (c :: cs))) with (g c ++ mjoin (map g cs)). by rewrite omap_app, IH. }
  pose proof (join_workers_spec
    (fun tk chunk => score_chunk_named data q score_fn min_score reduce tk chunk k)
    (fun c => offers item_cmp (TopK_new k) (omap run_score (runs c)))
    (fun tk p => score_chunk_named_offers tk p) tok 0 shards) as [->|[-> Hex]]; cbn [res_bind ranks]; [|done].
  assert (map (fun c => offers item_cmp (TopK_new k) (omap run_score (runs c))) shards =
    map (offers item_cmp (TopK_new k)) ls) as -> by (unfold ls; by rewrite map_map).
  rewrite (merge_top item_cmp k ls) by (by rewrite Hls). by rewrite Hls.
Qed.
End named_spec.

(** What a candidate scores, when it reaches the minimum. *)
Definition scored (data : Segments) (q : list f32) (score_fn : list f32 -> list f32 -> f32)
    (min_score : option f32) (e : scan_entry) : option (f32 * item) :=
  let score := score_fn q (segments_row e.1 data) in
  if below min_score score then None else Some (score, e.2).

Lemma score_row_offer data q score_fn min_score t e :
  score_row data q score_fn min_score t e = Ok (offer_opt item_cmp (scored data q score_fn min_score) t e).
Proof. unfold score_row, offer_opt, scored. by destruct (below _ _). Qed.

Lemma omap_keys {X K V} (g : X -> option (V * K)) (key : X -> K) (l : list X) :
  (forall x y, g x = Some y -> y.2 = key x) -> NoDup (map key l) -> NoDup (omap g l).*2.
Proof.
  intros Hg. induction l as [|x l IH]; [constructor|]. cbn [map]. intros [Hx Hl]%NoDup_cons.
  change (omap g (x :: l)) with (match g x with Some y => y :: omap g l | None => omap g l end).
  destruct (g x) as [y|] eqn:E; [|by apply IH]. cbn. apply NoDup_cons. split; [|by apply IH].
  rewrite (Hg x y E). contradict Hx. apply list_elem_of_fmap in Hx as ([v k] & E' & Hin). cbn in E'. subst k.
  apply list_elem_of_omap in Hin as (x' & Hx' & E''). apply Hg in E''. cbn in E''. rewrite E''.
  by apply list_elem_of_fmap_2.
Qed.

Lemma scored_nodup data q score_fn min_score (scan : list scan_entry) :
  NoDup scan.*2 -> NoDup (omap (scored data q score_fn min_score) scan).*2.
Proof.
  intros Hnd. apply (omap_keys _ snd); [|done]. intros x y. unfold scored.
  destruct (below _ _); [done|]. by intros [= <-].
Qed.

(** C37: splitting the scan over threads never changes the answer: for any number of
    workers, any scan of distinct documents and any unstable sort, the
    serial and the parallel scan either both rank the [top_k] best of the
    rows reaching the minimum, ties by collection and id, or a thread
    saw the request cancelled. *)
Theorem parallel_scan_exact `{SortUnstable} (data : Segments) (q : list f32)
    (score_fn : list f32 -> list f32 -> f32) (top_k : nat) (min_score : option f32)
    (tok : nat -> nat -> bool) (scan : list scan_entry) (workers : nat) :
  NoDup scan.*2 -> (0 < workers)%nat -> scan <> [] ->
  let best := top item_cmp top_k (omap (scored data q score_fn min_score) scan) in
  ranks item_cmp tok best (score_chunk (tok 0%nat) data scan q score_fn top_k min_score) /\
  ranks item_cmp tok best
    (parallel_topk item_cmp tok scan workers top_k
       (fun tk chunk => score_chunk tk data chunk q score_fn top_k min_score)).
Proof.
  intros Hnd%(scored_nodup data q score_fn min_score) Hw Hne best. unfold score_chunk. split.
  - by apply serial_ranks, Hnd; try apply _; try apply score_row_offer.
  - by apply parallel_ranks; try apply _; try apply score_row_offer.
Qed.

(** pooling named vectors stays exact under the fan-out: when every record's rows are
    adjacent in the scan, the cuts fall between records, so the serial and
    the sharded scan both rank the records by their pooled score, or a
    thread saw the request cancelled. *)
Theorem grouped_scan_exact (data : Segments) (q : list f32) (score_fn : list f32 -> list f32 -> f32)
    (top_k : nat) (min_score : option f32) (reduce : NamedReduce) (tok : nat -> nat -> bool)
    (scan : list named_entry) (workers : nat) :
  one_run_each scan ->
  let best := top item_cmp top_k (omap (run_score data q score_fn min_score reduce) (runs scan)) in
  ranks item_cmp tok best (score_chunk_named data q score_fn min_score reduce (tok 0%nat) scan top_k) /\
  ranks item_cmp tok best
    (parallel_topk_grouped item_cmp tok scan workers top_k
       (fun tk chunk => score_chunk_named data q score_fn min_score reduce tk chunk top_k)).
Proof. intros Hrun best. split; [by apply named_serial_ranks|by apply named_parallel_ranks]. Qed.

(** ** Concrete scans *)

Definition ex_rows : Segments :=
  {| ss_distance := Cosine; ss_persistence := false;
     ss_segs := [{| sn_name := lit "m"; sn_data := {| Data.sg_dimension := 1; Data.sg_distance := Cosine;
        Data.sg_backing := Data.Ram (map f32_of_Z [5; 7; 6; 7]%Z); Data.sg_appender := None |} |}];
     ss_base := [0%nat]; ss_next_id := 1; ss_version := 1; ss_cas := false |}.
Definition ex_scan : list scan_entry :=
  [(0, (lit "c", lit "a")); (1, (lit "c", lit "b")); (2, (lit "c", lit "d")); (3, (lit "b", lit "z"))]%nat.
Definition never (_ _ : nat) : bool := false.

Lemma parallel_scan_exact_witness :
  top item_cmp 2 (omap (scored ex_rows [f32_one] dot None) ex_scan) =
    [(f32_of_Z 7, (lit "b", lit "z")); (f32_of_Z 7, (lit "c", lit "b"))] /\
  ranks item_cmp never [(f32_of_Z 7, (lit "b", lit "z")); (f32_of_Z 7, (lit "c", lit "b"))]
    (parallel_topk item_cmp never ex_scan 3 2
       (fun tk chunk => score_chunk tk ex_rows chunk [f32_one] dot 2 None)).
Proof.
  assert (top item_cmp 2 (omap (scored ex_rows [f32_one] dot None) ex_scan) =
    [(f32_of_Z 7, (lit "b", lit "z")); (f32_of_Z 7, (lit "c", lit "b"))]) as E by by vm_compute.
  split; [exact E|]. rewrite <- E.
  apply (parallel_scan_exact ex_rows [f32_one] dot 2 None never ex_scan 3); [|lia|done].
  apply (bool_decide_unpack _). by vm_compute.
Defined.

Definition ex_named : list named_entry :=
  [(0, (lit "c", lit "a"), 0); (1, (lit "c", lit "a"), 1); (2, (lit "c", lit "b"), 0)]%nat.
Definition ex_pool : NamedReduce := {| nr_weights := [f32_one; f32_half]; nr_pool := PoolSum |}.

Lemma grouped_scan_exact_witness :
  record_aligned_split ex_named 3 = [take 2 ex_named; drop 2 ex_named] /\
  ranks item_cmp never
    (top item_cmp 2 (omap (run_score ex_rows [f32_one] dot None ex_pool) (runs ex_named)))
    (parallel_topk_grouped item_cmp never ex_named 3 2
       (fun tk chunk => score_chunk_named ex_rows [f32_one] dot None ex_pool tk chunk 2)).
Proof.
  split; [by vm_compute|].
  apply (grouped_scan_exact ex_rows [f32_one] dot 2 None ex_pool never ex_named 3).
  apply (bool_decide_unpack _). by vm_compute.
Defined.
