(* ===== verification/Quant.v ===== *)
(** * Quant: the quantised copy of the rows ([src/src/store/quant.rs])

    The int8 and the sign-bit codes that mirror the rows, how a rebuild fits
    them and how an upsert extends them.  The two-pass search that reads
    them is in [Search]. *)
From S2P Require Import Prelude Floats Model Sort TopK Std Hits Segments Scoring.

Record Int8State := { i8_params : QuantParams; i8_vectors : list Z; i8_params_rows : nat }.
Record BinState := { bs_words : list Z; bs_words_per_row : nat }.
Inductive Quant := QInt8 (s : Int8State) | QBinary (s : BinState).

Inductive quant_error := BinaryNeedsCosine.

Definition words_for (dim : nat) : nat := div_ceil dim 64.

Definition Quant_empty (kind : QuantKind) (dim : nat) (distance : Distance) : result quant_error Quant :=
  match kind with
  | Int8 => Ok (QInt8 {| i8_params := from_vectors []; i8_vectors := []; i8_params_rows := 0 |})
  | Binary =>
      if bool_decide (distance = Cosine)
      then Ok (QBinary {| bs_words := []; bs_words_per_row := words_for dim |})
      else Err BinaryNeedsCosine
  end.

(** Row [r] of a flat matrix. *)
Definition flat_row {A} (v : list A) (dim r : nat) : list A := take dim (drop (r * dim) v).
(** [out[r * width .. (r + 1) * width]] overwritten. *)
Definition write_row {A} (out : list A) (width r : nat) (code : list A) : list A :=
  take (r * width) out ++ code ++ drop ((r + 1) * width) out.
(** [Vec::resize(n, 0)]. *)
Definition resize0 (n : nat) (v : list Z) : list Z := take n v ++ replicate (n - length v) 0%Z.

Definition pack_matrix (vectors : list f32) (dim : nat) : list Z :=
  if (dim =? 0)%nat then []
  else
    let words_per_row := words_for dim in
    let rows := (length vectors / dim)%nat in
    foldl (fun out r =>
      write_row out words_per_row r
        (pack_signs_into (flat_row vectors dim r) (flat_row out words_per_row r)))
      (replicate (rows * words_per_row) 0%Z) (seq 0 rows).

Definition REFIT_GROWTH : nat := 2.

Definition rebuild_quant (data : Segments) (quant : option Quant) : option Quant :=
  let dim := segments_dimension data in
  let all := segments_vectors data in
  match quant with
  | None => None
  | Some (QInt8 _) =>
      let params := from_vectors all in
      Some (QInt8 {| i8_params := params; i8_vectors := quantize_all params all;
                     i8_params_rows := segments_row_count data |})
  | Some (QBinary _) =>
      Some (QBinary {| bs_words := pack_matrix all dim; bs_words_per_row := words_for dim |})
  end.

(** The rows an upsert appended. *)
Definition batch_rows (data : Segments) (prev_rows : nat) : list f32 :=
  mjoin (map (fun row => segments_row row data) (seq prev_rows (segments_row_count data - prev_rows))).

Definition extend_quant (data : Segments) (prev_rows : nat) (quant : option Quant) : option Quant :=
  let total := segments_row_count data in
  let dim := segments_dimension data in
  let refit := match quant with
               | Some (QInt8 s) => (i8_params_rows s =? 0)%nat || (i8_params_rows s * REFIT_GROWTH <? total)%nat
               | _ => false
               end in
  if refit then rebuild_quant data quant
  else
    let new_count := (total - prev_rows)%nat in
    let batch := batch_rows data prev_rows in
    match quant with
    | None => None
    | Some (QInt8 s) =>
        Some (QInt8 {| i8_params := i8_params s;
          i8_vectors := foldl (fun out i =>
            write_row out dim (prev_rows + i) (quantize (i8_params s) (flat_row batch dim i)))
            (resize0 (total * dim) (i8_vectors s)) (seq 0 new_count);
          i8_params_rows := i8_params_rows s |})
    | Some (QBinary s) =>
        let wpr := bs_words_per_row s in
        Some (QBinary {| bs_words := foldl (fun out i =>
            write_row out wpr (prev_rows + i)
              (pack_signs_into (flat_row batch dim i) (flat_row out wpr (prev_rows + i))))
            (resize0 (total * wpr) (bs_words s)) (seq 0 new_count);
          bs_words_per_row := wpr |})
    end.

(** ** Every row has its code *)

(** The rows are the flat matrix, row after row. *)
Definition laid_out (data : Segments) : Prop :=
  length (segments_vectors data) = (segments_row_count data * segments_dimension data)%nat /\
  forall r, (r < segments_row_count data)%nat ->
    segments_row r data = flat_row (segments_vectors data) (segments_dimension data) r.

(** The code of a row under the current parameters. *)
Definition code_of (q : Quant) (v : list f32) : list Z :=
  match q with QInt8 s => quantize (i8_params s) v | QBinary s => pack_signs v end.
Definition codes (q : Quant) : list Z := match q with QInt8 s => i8_vectors s | QBinary s => bs_words s end.
Definition code_width (dim : nat) (q : Quant) : nat :=
  match q with QInt8 _ => dim | QBinary _ => words_for dim end.

(** The codes mirror the first [n] rows. *)
Definition mirrors (data : Segments) (n : nat) (q : Quant) : Prop :=
  length (codes q) = (n * code_width (segments_dimension data) q)%nat /\
  (forall s, q = QBinary s -> bs_words_per_row s = words_for (segments_dimension data)) /\
  forall r, (r < n)%nat ->
    code_row (codes q) (code_width (segments_dimension data) q) r = Some (code_of q (segments_row r data)).

Lemma length_quantize p v : length (quantize p v) = length v.
Proof. unfold quantize. destruct (f32_leb _ _); apply length_map. Qed.

Lemma quantize_flat p v dim r : quantize p (flat_row v dim r) = flat_row (quantize p v) dim r.
Proof. unfold quantize, flat_row. destruct (f32_leb _ _); by rewrite skipn_map, firstn_map. Qed.

Lemma length_flat_row {A} (v : list A) dim r n :
  length v = (n * dim)%nat -> (r < n)%nat -> length (flat_row v dim r) = dim.
Proof. intros Hl Hr. unfold flat_row. rewrite length_take, length_drop. nia. Qed.

Lemma code_row_flat {A} (v : list A) dim r n :
  length v = (n * dim)%nat -> (r < n)%nat -> code_row v dim r = Some (flat_row v dim r).
Proof.
  intros Hl Hr. unfold code_row, flat_row. destruct (Nat.ltb_spec (length v) (r * dim + dim)); [nia|done].
Qed.

Lemma write_row_spec {A} (out : list A) width n r code :
  length out = (n * width)%nat -> (r < n)%nat -> length code = width ->
  length (write_row out width r code) = (n * width)%nat /\
  forall r', (r' < n)%nat ->
    flat_row (write_row out width r code) width r' = if (r' =? r)%nat then code else flat_row out width r'.
Proof.
  intros Hl Hr Hc. unfold write_row.
  assert (length (take (r * width) out) = r * width)%nat as Ht by (rewrite length_take; nia).
  split; [rewrite !length_app, Ht, length_drop; nia|]. intros r' Hr'. unfold flat_row.
  destruct (Nat.eqb_spec r' r) as [->|Hne].
  - rewrite drop_app_length' by done. by rewrite take_app_length'.
  - destruct (Nat.lt_ge_cases r' r) as [Hlt|Hge].
    + rewrite drop_app_le by nia. rewrite take_app_le by (rewrite length_drop; nia).
      rewrite skipn_firstn_comm, take_take. f_equal. nia.
    + rewrite drop_app_ge, Ht by nia. rewrite drop_app_ge by nia. rewrite Hc, drop_drop.
      f_equal. f_equal. nia.
Qed.

(** Writing rows [from .. from + k], each once. *)
Lemma write_rows {A} (width n from k : nat) (out : list A) (code : nat -> list A -> list A) :
  length out = (n * width)%nat -> (from + k <= n)%nat ->
  (forall i o, (i < k)%nat -> length o = width -> length (code i o) = width) ->
  let out' := foldl (fun o i => write_row o width (from + i) (code i (flat_row o width (from + i)))) out (seq 0 k) in
  length out' = (n * width)%nat /\
  forall r, (r < n)%nat -> flat_row out' width r =
    if (from <=? r)%nat && (r <? from + k)%nat then code (r - from)%nat (flat_row out width r)
    else flat_row out width r.
Proof.
  intros Hl Hk Hc. induction k as [|k IH].
  { split; [done|]. intros r Hr. rewrite Nat.add_0_r. change (foldl _ out (seq 0 0)) with out.
    destruct (Nat.leb_spec from r), (Nat.ltb_spec r from); done || lia. }
  rewrite seq_S, foldl_app. cbn [foldl]. destruct IH as [Hl' Hrow]; [lia|intros; apply Hc; [lia|done]|].
  set (out' := foldl _ out (seq 0 k)) in *. rewrite !Nat.add_0_l.
  destruct (write_row_spec out' width n (from + k) (code k (flat_row out' width (from + k)))) as [H1 H2];
    [done|lia| |].
  { apply Hc; [lia|]. by apply (length_flat_row _ _ _ n); [|lia]. }
  split; [done|]. intros r Hr. rewrite H2, !Hrow by lia.
  destruct (Nat.eqb_spec r (from + k)) as [->|Hne].
  - destruct (Nat.leb_spec from (from + k)), (Nat.ltb_spec (from + k) (from + k)),
      (Nat.ltb_spec (from + k) (from + S k)); try lia. cbn [andb]. f_equal. lia.
  - destruct (Nat.leb_spec from r), (Nat.ltb_spec r (from + k)), (Nat.ltb_spec r (from + S k)); done || lia.
Qed.

Lemma zeroed_pack v out out' : length out = length out' -> pack_signs_into v out = pack_signs_into v out'.
Proof.
  intros Hl. unfold pack_signs_into. f_equal. revert out' Hl.
  induction out as [|x out IH]; intros [|y out']; cbn; try done. intros [= Hl]. f_equal. by apply IH.
Qed.

Lemma pack_into_pack v out : length out = words_for (length v) -> pack_signs_into v out = pack_signs v.
Proof.
  intros Hl. unfold pack_signs. apply zeroed_pack. rewrite Hl, length_replicate. unfold words_for, div_ceil.
  f_equal. lia.
Qed.

Lemma length_pack_into v out : length (pack_signs_into v out) = length out.
Proof.
  unfold pack_signs_into. assert (length (map (fun _ => 0%Z) out) = length out) as <- by apply length_map.
  generalize (map (fun _ => 0%Z) out). generalize (imap pair v). intros l.
  induction l as [|ix l IH]; intros o; [done|]. cbn [foldl]. rewrite IH.
  destruct (sign_bit ix.2); [|done]. unfold set_bit. apply length_alter.
Qed.

Lemma flat_rows_join {A} (rows : list (list A)) dim i row :
  Forall (fun r => length r = dim) rows -> rows !! i = Some row -> flat_row (mjoin rows) dim i = row.
Proof.
  revert i. induction rows as [|r rows IH]; intros i Hf Hi; [done|].
  apply Forall_cons in Hf as [Hr Hf]. unfold flat_row. change (mjoin (r :: rows)) with (r ++ mjoin rows).
  destruct i as [|i].
  - injection Hi as ->. cbn [Nat.mul drop]. by apply take_app_length'.
  - cbn [Nat.mul]. rewrite <- drop_drop, drop_app_length' by done. by apply IH.
Qed.

Section laid.
Context (data : Segments).
Let dim := segments_dimension data.
Let total := segments_row_count data.

Lemma quant_row_length r : laid_out data -> (r < total)%nat -> length (segments_row r data) = dim.
Proof. intros [Hl Hr] Hlt. rewrite Hr by done. by apply (length_flat_row _ _ _ total). Qed.

Lemma batch_row prev i :
  laid_out data -> (prev + i < total)%nat ->
  flat_row (batch_rows data prev) dim i = segments_row (prev + i) data.
Proof.
  intros Hl Hi. unfold batch_rows. apply flat_rows_join.
  - apply Forall_forall. intros r Hr. apply list_elem_of_fmap in Hr as (j & -> & Hj).
    apply elem_of_seq in Hj. apply quant_row_length; [done|]. fold total in Hj. lia.
  - rewrite list_lookup_fmap, lookup_seq_lt; [done|]. fold total. lia.
Qed.

Lemma words_zero : words_for 0 = 0%nat.
Proof. done. Qed.

Lemma rebuild_mirrors q :
  laid_out data -> exists q', rebuild_quant data (Some q) = Some q' /\ mirrors data total q'.
Proof.
  intros [Hl Hrow]. fold dim total in Hl, Hrow. unfold mirrors, rebuild_quant. fold dim total.
  destruct q as [s|s].
  - eexists. split; [done|]. cbn [codes code_width code_of i8_vectors i8_params]. split_and!.
    + unfold quantize_all. by rewrite length_quantize.
    + done.
    + intros r Hr. unfold quantize_all. rewrite (code_row_flat _ dim r total); [|by rewrite length_quantize|done].
      rewrite <- quantize_flat. f_equal. f_equal. symmetry. by apply Hrow.
  - eexists. split; [done|]. cbn [codes code_width code_of bs_words]. unfold pack_matrix.
    destruct (Nat.eqb_spec dim 0) as [E0|Hd].
    { rewrite E0, words_zero. split_and!; [by rewrite Nat.mul_0_r|by intros ? [= <-]|].
      intros r Hr. unfold code_row. rewrite Nat.mul_0_r. cbn. f_equal. rewrite Hrow by done.
      unfold flat_row. by rewrite E0. }
    assert (length (segments_vectors data) / dim = total)%nat as -> by (rewrite Hl; by apply Nat.div_mul).
    destruct (write_rows (words_for dim) total 0 total (replicate (total * words_for dim) 0%Z)
      (fun i o => pack_signs_into (flat_row (segments_vectors data) dim i) o)) as [H1 H2].
    { by rewrite length_replicate. } { done. } { intros i o _ Ho. by rewrite length_pack_into. }
    cbn [Nat.add] in H1, H2. split_and!; [exact H1|by intros ? [= <-]|].
    intros r Hr. rewrite (code_row_flat _ _ r total H1 Hr), H2 by done.
    destruct (Nat.leb_spec 0 r), (Nat.ltb_spec r total); try lia. cbn [andb]. f_equal.
    rewrite Nat.sub_0_r, <- Hrow by done. apply pack_into_pack.
    rewrite quant_row_length by done. apply (length_flat_row _ _ _ total); [|done]. apply length_replicate.
Qed.
End laid.

Lemma length_resize0 n v : length (resize0 n v) = n.
Proof. unfold resize0. rewrite length_app, length_take, length_replicate. lia. Qed.

Lemma flat_resize (v : list Z) n width r prev :
  length v = (prev * width)%nat -> (r < prev)%nat -> (prev <= n)%nat ->
  flat_row (resize0 (n * width) v) width r = flat_row v width r.
Proof.
  intros Hl Hr Hn. unfold resize0, flat_row.
  pose proof (Nat.mul_le_mono_r prev n width Hn). pose proof (Nat.mul_le_mono_r (S r) prev width Hr).
  rewrite (take_ge v) by lia.
  rewrite drop_app_le by nia. apply take_app_le. rewrite length_drop. nia.
Qed.

(** the quantised copy never drifts from the rows: a rebuild gives every row its
    code under the fitted parameters, and extending after an upsert — which
    either refits or codes only the new rows — keeps exactly one
    code per row, in row order, the old rows' codes untouched. *)
Theorem quant_mirrors (old data : Segments) (prev_rows : nat) (q : Quant) :
  laid_out data -> (prev_rows <= segments_row_count data)%nat ->
  segments_dimension old = segments_dimension data ->
  (forall r, (r < prev_rows)%nat -> segments_row r data = segments_row r old) ->
  mirrors old prev_rows q ->
  (exists q', rebuild_quant data (Some q) = Some q' /\ mirrors data (segments_row_count data) q') /\
  exists q', extend_quant data prev_rows (Some q) = Some q' /\ mirrors data (segments_row_count data) q'.
Proof.
  intros Hlaid Hprev Hdim Hsame (Hlen & Hwpr & Hcode). split; [by apply rebuild_mirrors|].
  rewrite Hdim in *. unfold extend_quant. destruct (match q with QInt8 s => _ | _ => _ end) eqn:Er.
  { destruct q; by apply rebuild_mirrors. }
  set (total := segments_row_count data) in *. set (dim := segments_dimension data) in *.
  assert (forall width (code : nat -> list Z -> list Z) v, length v = (prev_rows * width)%nat ->
    (forall i o, (i < total - prev_rows)%nat -> length o = width -> length (code i o) = width) ->
    let out := foldl (fun o i => write_row o width (prev_rows + i) (code i (flat_row o width (prev_rows + i))))
                 (resize0 (total * width) v) (seq 0 (total - prev_rows)) in
    length out = (total * width)%nat /\ forall r, (r < total)%nat -> exists o,
      length o = width /\ code_row out width r =
        Some (if (prev_rows <=? r)%nat then code (r - prev_rows)%nat o else flat_row v width r)) as Hext.
  { intros width code v Hv Hc out.
    destruct (write_rows width total prev_rows (total - prev_rows) (resize0 (total * width) v) code)
      as [H1 H2]; [apply length_resize0|lia|done|]. fold out in H1, H2. split; [done|]. intros r Hr.
    exists (flat_row (resize0 (total * width) v) width r).
    split; [apply (length_flat_row _ _ _ total); [apply length_resize0|done]|].
    rewrite (code_row_flat _ _ r total H1 Hr), H2 by done.
    destruct (Nat.leb_spec prev_rows r), (Nat.ltb_spec r (prev_rows + (total - prev_rows))); try lia; cbn [andb].
    - done.
    - f_equal. by apply (flat_resize _ _ _ _ prev_rows). }
  destruct q as [s|s]; eexists; (split; [done|]); unfold mirrors; fold dim total; cbn [codes code_width code_of] in *.
  - destruct (Hext dim (fun i _ => quantize (i8_params s) (flat_row (batch_rows data prev_rows) dim i))
      (i8_vectors s) Hlen) as [H1 H2].
    { intros i o Hi _. rewrite length_quantize. unfold dim. rewrite batch_row by (done || lia).
      apply quant_row_length; [done|lia]. }
    cbn [i8_vectors i8_params] in *. split_and!; [exact H1|done|]. intros r Hr.
    destruct (H2 r Hr) as (o & _ & ->). f_equal. destruct (Nat.leb_spec prev_rows r) as [Hge|Hlt].
    + unfold dim. rewrite batch_row by (done || lia). do 2 f_equal. lia.
    + specialize (Hcode r Hlt). rewrite (code_row_flat _ _ r prev_rows Hlen Hlt) in Hcode.
      injection Hcode as ->. by rewrite Hsame.
  - specialize (Hwpr s eq_refl). rewrite Hwpr.
    destruct (Hext (words_for dim) (fun i o => pack_signs_into (flat_row (batch_rows data prev_rows) dim i) o)
      (bs_words s) Hlen) as [H1 H2].
    { intros i o _ Ho. by rewrite length_pack_into. }
    cbn [bs_words bs_words_per_row] in *. split_and!; [exact H1|by intros ? [= <-]|]. intros r Hr.
    destruct (H2 r Hr) as (o & Ho & ->). f_equal. destruct (Nat.leb_spec prev_rows r) as [Hge|Hlt].
    + unfold dim. rewrite batch_row by (done || lia).
      replace (prev_rows + (r - prev_rows))%nat with r by lia. apply pack_into_pack.
      by rewrite quant_row_length.
    + specialize (Hcode r Hlt). rewrite (code_row_flat _ _ r prev_rows Hlen Hlt) in Hcode.
      injection Hcode as ->. by rewrite Hsame.
Qed.

Definition ex_quant : Quant :=
  let p := from_vectors (map f32_of_Z [5; 7]%Z) in
  QInt8 {| i8_params := p; i8_vectors := quantize p (map f32_of_Z [5; 7]%Z); i8_params_rows := 2 |}.

Lemma quant_mirrors_witness :
  (codes <$> extend_quant ex_rows 2 (Some ex_quant)) = Some [91; 127; 109; 127]%Z /\
  exists q', extend_quant ex_rows 2 (Some ex_quant) = Some q' /\ mirrors ex_rows 4 q'.
Proof.
  split; [by vm_compute|].
  apply (quant_mirrors ex_rows ex_rows 2 ex_quant); [|by vm_compute; lia|done|done|].
  - split; [done|]. intros r Hr. assert (r = 0 \/ r = 1 \/ r = 2 \/ r = 3)%nat as H by (vm_compute in Hr; lia).
    by destruct H as [->|[->|[->| ->]]].
  - split_and!; [by vm_compute|done|]. intros r Hr. assert (r = 0 \/ r = 1)%nat as H by lia.
    by destruct H as [->| ->]; vm_compute.
Defined.
