(* ===== verification/Search.v ===== *)
(** * Search: the query path of the store
    ([src/src/store/read.rs], [src/src/store/quant.rs])

    Every ranked surface ranks [depth] deep and hands its ranking to the one
    tail, [finish].  The brute-force path gathers its candidates through the
    filter index, the cached whole-store order or the collections in scope;
    the theorems show that the choice, the number of threads and the sort
    never change the answer.  The approximate indexes ([Ann], [AnnStore]) appear as
    the walks they answer with: any list of rows.  Metrics and the plan
    recorder are left out; a failed allocation is not modelled. *)
From S2P Require Import Prelude Floats Model Config TextPred Filter Literal Findex Narrow Sort TopK Std Hits.
From S2P Require Import Manifest Segments Replay Store Mmr Aggregate Expand Rank Scoring Quant.

(** ** Options *)

Definition usize (n : N) : nat := N.to_nat n.

Definition depth (opts : SearchOpts) : nat :=
  let page := sat_add (N.of_nat (so_offset opts)) (N.of_nat (so_top_k opts)) in
  let cap := match so_limit_per opts with Some _ => LIMIT_PER_OVERFETCH | None => 1 end in
  let spread := match so_diversity opts with Some _ => MMR_OVERFETCH | None => 1 end in
  usize (sat_mul page (N.of_nat (Nat.max cap spread))).

Definition with_page (top_k offset : nat) (limit_per : option LimitPer) (diversity : option f32)
    (opts : SearchOpts) : SearchOpts :=
  {| so_top_k := top_k; so_offset := offset; so_filter := so_filter opts; so_min_score := so_min_score opts;
     so_exact := so_exact opts; so_projection := so_projection opts; so_explain := so_explain opts;
     so_plan := so_plan opts; so_rank_by := so_rank_by opts; so_limit_per := limit_per;
     so_diversity := diversity; so_rerank := so_rerank opts; so_expand := so_expand opts;
     so_names := so_names opts; so_name_weights := so_name_weights opts; so_pool := so_pool opts |}.

Definition deepened (opts : SearchOpts) : SearchOpts :=
  with_page (depth opts) 0 (so_limit_per opts) (so_diversity opts) opts.

Fixpoint distinct_names (seen : gset rstring) (names : list rstring) : bool :=
  match names with
  | [] => true
  | n :: ns => negb (bool_decide (n = [])) && negb (bool_decide (n ∈ seen)) && distinct_names ({[n]} ∪ seen) ns
  end.

Definition validate_names (opts : SearchOpts) : bool :=
  (length (so_names opts) <=? MAX_VECTOR_NAMES)%nat && distinct_names ∅ (so_names opts)
  && forallb (fun w => negb (bad_weight w)) (bt_values (so_name_weights opts)).

Definition check_query_opts (opts : SearchOpts) : result query_error unit :=
  if is_ok (rank_validate (so_rank_by opts)) && is_ok (limit_per_validate (so_limit_per opts))
     && is_ok (diversity_validate (so_diversity opts)) && is_ok (expand_validate (so_expand opts))
     && validate_names opts
  then Ok tt else Err QOptions.

Definition check_weight (w : f32) : result query_error unit := if bad_weight w then Err QOptions else Ok tt.

(** ** The tail *)

Definition paginate {A} (ranked : list A) (offset : nat) : list A :=
  if (offset =? 0)%nat then ranked else if (length ranked <=? offset)%nat then [] else drop offset ranked.

Section tail.
Context `{HashOrder}.

Definition finish (s : Store) (ranked : list Hit) (opts : SearchOpts) : result query_error (list Hit) :=
  let capped := match so_limit_per opts with Some cap => cap_per_value s ranked cap | None => ranked end in
  let spread := match so_diversity opts with
                | Some lambda => diversify s lambda (so_names opts) capped
                | None => capped
                end in
  let hits := take (so_top_k opts) (paginate spread (so_offset opts)) in
  match so_expand opts with
  | Some e => match expand_hits s hits e with Some hits => Ok hits | None => Err QPanic end
  | None => Ok hits
  end.
End tail.

(** ** Accessors *)

Section accessors.
Context `{HashOrder}.

(** The documents of a collection, as its [HashMap] yields them. *)
Definition docs_entries (col : Collection) : list (rstring * DocEntry) :=
  omap (fun id => (fun e => (id, e)) <$> cl_docs col !! id) (hm_order (bt_keys (cl_docs col))).
(** The collections, as their [HashMap] yields them. *)
Definition collections_entries (s : Store) : list (rstring * Collection) :=
  omap (fun name => (fun c => (name, c)) <$> st_collections s !! name) (hm_order (bt_keys (st_collections s))).

Definition collections (s : Store) : list rstring := sort_by str_cmp (map fst (collections_entries s)).

Definition record_from_entry (s : Store) (id : rstring) (e : DocEntry) : VRecord :=
  {| rec_id := id;
     rec_vector := (fun row => segments_row row (st_data s)) <$> de_rows e !! DEFAULT_VECTOR;
     rec_vectors := (fun row => segments_row row (st_data s)) <$> delete DEFAULT_VECTOR (de_rows e);
     rec_attrs := de_attrs e |}.

Definition get (s : Store) (collection id : rstring) : option VRecord :=
  match st_collections s !! collection with
  | None => None
  | Some col => record_from_entry s id <$> cl_docs col !! id
  end.

Definition get_all (s : Store) (collection : rstring) : list VRecord :=
  match st_collections s !! collection with
  | None => []
  | Some col => map (fun ie => record_from_entry s ie.1 ie.2) (docs_entries col)
  end.

(** The concrete collections of a list of names. *)
Definition in_scope (s : Store) (names : list rstring) : list (rstring * Collection) :=
  omap (fun n => (fun c => (n, c)) <$> st_collections s !! n) names.
End accessors.

(** ** Gathering the candidates *)

Section gather.
Context `{UnicodeAlnum} `{RegexEngine} `{RegexSyntax} `{HashOrder} `{SortUnstable}.

Definition has_default (e : DocEntry) : bool := bool_decide (is_Some (de_rows e !! DEFAULT_VECTOR)).

Definition scannable (col : Collection) : nat := length (List.filter has_default (map snd (docs_entries col))).
Definition scannable_doc_count (s : Store) : nat :=
  list_sum (map (fun nc => scannable nc.2) (collections_entries s)).
Definition scannable_in_scope (s : Store) (names : list rstring) : nat :=
  list_sum (map (fun nc => scannable nc.2) (in_scope s names)).

(** A document as a candidate, when it has the default vector and passes the filter. *)
Definition candidate (filter : Filter) (col_name : rstring) (ie : rstring * DocEntry) : option scan_entry :=
  match de_rows ie.2 !! DEFAULT_VECTOR with
  | Some row => if matches filter (de_attrs ie.2) then Some (row, (col_name, ie.1)) else None
  | None => None
  end.

(** The cached order: rebuilt when there is none. *)
Definition build_scan_order (s : Store) : list scan_entry :=
  sort_unstable by_row
    (mjoin (map (fun nc => omap (fun ie => (fun row => (row, (nc.1, ie.1))) <$> de_rows ie.2 !! DEFAULT_VECTOR)
                             (docs_entries nc.2)) (collections_entries s))).
Definition scan_order (s : Store) (cached : option (list scan_entry)) : list scan_entry :=
  match cached with Some order => order | None => build_scan_order s end.

Inductive NarrowOutcome := NInactive | NDeclined | NNarrowed (scan : list scan_entry).

(** All or nothing: [None] when a collection cannot be narrowed. *)
Fixpoint narrow_all (s : Store) (names : list rstring) (filter : Filter)
  : option (list (rstring * list rstring)) :=
  match names with
  | [] => Some []
  | n :: ns =>
      match st_collections s !! n with
      | None => narrow_all s ns filter
      | Some _ =>
          ids ← candidate_ids (ix_findex (st_index s)) n filter;
          rest ← narrow_all s ns filter;
          Some ((n, ids) :: rest)
      end
  end.

Definition narrowed_entries (s : Store) (filter : Filter) (ni : rstring * list rstring) : list scan_entry :=
  match st_collections s !! ni.1 with
  | None => []
  | Some col => omap (fun id => cl_docs col !! id ≫= fun e => candidate filter ni.1 (id, e)) ni.2
  end.

Definition narrowed_scan (s : Store) (names : list rstring) (filter : Filter) : NarrowOutcome :=
  if negb (is_active (ix_findex (st_index s))) then NInactive
  else
    match narrow_all s names filter with
    | None => NDeclined
    | Some narrowed => NNarrowed (mjoin (map (narrowed_entries s filter) narrowed))
    end.

(** A cached entry, looked up again only when there is a filter. *)
Definition passes_cached (s : Store) (filter : Filter) (e : scan_entry) : bool :=
  bool_decide (filter_preds filter = []) ||
  match attrs_of s e.2.1 e.2.2 with Some attrs => matches filter attrs | None => false end.

Definition sorted_scan (s : Store) (cached : option (list scan_entry)) (names : list rstring) (filter : Filter)
  : list scan_entry :=
  match narrowed_scan s names filter with
  | NNarrowed scan => sort_unstable by_row scan
  | _ =>
      if (scannable_in_scope s names =? scannable_doc_count s)%nat
      then List.filter (passes_cached s filter) (scan_order s cached)
      else sort_unstable by_row
             (mjoin (map (fun nc => omap (candidate filter nc.1) (docs_entries nc.2)) (in_scope s names)))
  end.
End gather.

(** ** Ranking *)

(** The derived state a query reads besides the store: the quantised copy,
    the approximate indexes as the walks they answer with, the reverse map
    from rows to documents, and the cached scan order. *)
Record Caches := {
  ca_quant : option Quant;
  ca_ann : option (list f32 -> nat -> list (nat * f32));
  ca_seg_indexes : list (option (list f32 -> nat -> list (nat * f32)));
  ca_row_to_doc : list (option (rstring * rstring * rstring));
  ca_scan_order : option (list scan_entry)
}.

Section ranking.
Context `{UnicodeAlnum} `{RegexEngine} `{RegexSyntax} `{HashOrder} `{SortUnstable} `{Powf}.
(** What each thread sees of the cancellation. *)
Context (tok : nat -> nat -> bool).

Definition score_fn (s : Store) : list f32 -> list f32 -> f32 :=
  match c_distance (st_config s) with Euclidean => euclidean_neg_sq | _ => dot end.

Definition parallel_workers (s : Store) (scan_len : nat) : nat :=
  let threads := Nat.max (c_query_threads (st_config s)) 1 in
  if (1 <? threads)%nat
     && (PARALLEL_SCAN_WORK_FLOOR <=? sat_mul (N.of_nat scan_len) (N.of_nat (segments_dimension (st_data s))))%N
  then threads else 1.

Definition hit_of (s : Store) (projection : Projection) (x : f32 * item) : Hit :=
  Hit_new x.2.1 x.2.2 x.1
    (match attrs_of s x.2.1 x.2.2 with Some attrs => projection_apply projection attrs | None => ∅ end).

Definition hits_from_topk (s : Store) (topk : TopK (T := item)) (projection : Projection) : list Hit :=
  map (hit_of s projection) (into_sorted_desc item_cmp topk).

(** One row of [rank_scan_expr]. *)
Definition expr_row (s : Store) (q : list f32) (opts : SearchOpts) (t : TopK (T := item)) (e : scan_entry)
  : result query_error (TopK (T := item)) :=
  let base := score_fn s q (segments_row e.1 (st_data s)) in
  let score := ranked_score s (so_rank_by opts) base e.2.1 e.2.2 in
  Ok (if below (so_min_score opts) score then t else offer item_cmp score e.2 t).

Definition rank_scan_expr (s : Store) (q : list f32) (scan : list scan_entry) (opts : SearchOpts)
  : result query_error (list Hit) :=
  (let? topk := walk (expr_row s q opts) (tok 0%nat) scan (TopK_new (so_top_k opts)) in
   Ok (hits_from_topk s topk (so_projection opts)))%res.

Definition rank_scan (s : Store) (q : list f32) (scan : list scan_entry) (opts : SearchOpts)
  : result query_error (list Hit) :=
  match so_rank_by opts with
  | Some _ => rank_scan_expr s q scan opts
  | None =>
      let one tk chunk := score_chunk tk (st_data s) chunk q (score_fn s) (so_top_k opts) (so_min_score opts) in
      let workers := parallel_workers s (length scan) in
      (let? topk :=
         if (1 <? workers)%nat then parallel_topk item_cmp tok scan workers (so_top_k opts) one
         else one (tok 0%nat) scan in
       Ok (hits_from_topk s topk (so_projection opts)))%res
  end.

(** ** Named vectors *)

(** One entry per requested name the document carries. *)
Definition named_rows (names : list rstring) (col_name : rstring) (ie : rstring * DocEntry) : list named_entry :=
  omap (fun ni => (fun row => (row, (col_name, ie.1), ni.1)) <$> de_rows ie.2 !! ni.2) (imap pair names).

Definition named_doc (filter : Filter) (names : list rstring) (col_name : rstring) (ie : rstring * DocEntry)
  : list named_entry :=
  if bool_decide (de_rows ie.2 = ∅) || negb (matches filter (de_attrs ie.2)) then []
  else named_rows names col_name ie.

Definition by_named_row : named_entry -> named_entry -> comparison :=
  cmp_on (fun e : named_entry => e.1.1) Nat.compare.

Definition named_scan (s : Store) (scope : list rstring) (filter : Filter) (names : list rstring)
  : list named_entry :=
  sort_unstable by_named_row
    (mjoin (map (fun nc => mjoin (map (named_doc filter names nc.1) (docs_entries nc.2))) (in_scope s scope))).

Definition name_weight (opts : SearchOpts) (name : rstring) : f32 :=
  default f32_one (so_name_weights opts !! name).

Definition rank_scan_named (s : Store) (q : list f32) (scan : list named_entry) (opts : SearchOpts)
  : result query_error (list Hit) :=
  let reduce := {| nr_weights := map (name_weight opts) (so_names opts); nr_pool := so_pool opts |} in
  let one tk chunk :=
    score_chunk_named (st_data s) q (score_fn s) (so_min_score opts) reduce tk chunk (so_top_k opts) in
  let workers := parallel_workers s (length scan) in
  (let? topk :=
     if (1 <? workers)%nat then parallel_topk_grouped item_cmp tok scan workers (so_top_k opts) one
     else one (tok 0%nat) scan in
   Ok (hits_from_topk s topk (so_projection opts)))%res.

(** ** The quantised first pass *)

Definition rescore (s : Store) : nat :=
  match c_quantization (st_config s) with Some q => q_rescore q | None => 1 end.

Definition overscan_of (s : Store) (opts : SearchOpts) : nat :=
  Nat.max (usize (sat_mul (N.of_nat (so_top_k opts)) (N.of_nat (rescore s)))) (so_top_k opts).

Definition rerank_row (s : Store) (q : list f32) (opts : SearchOpts) (t : TopK (T := item))
    (x : f32 * scan_entry) : TopK (T := item) :=
  let base := score_fn s q (segments_row x.2.1 (st_data s)) in
  let score := ranked_score s (so_rank_by opts) base x.2.2.1 x.2.2.2 in
  if below (so_min_score opts) score then t else offer item_cmp score x.2.2 t.

Definition rerank_candidates (s : Store) (q : list f32) (candidates : list (f32 * scan_entry))
    (opts : SearchOpts) : list Hit :=
  hits_from_topk s (foldl (rerank_row s q opts) (TopK_new (so_top_k opts)) candidates) (so_projection opts).

(** The first pass of either scheme, as one worker runs it. *)
Definition first_pass (s : Store) (q : list f32) (overscan : nat) (quant : Quant)
    (tk : nat -> bool) (chunk : list scan_entry) : result query_error (TopK (T := scan_entry)) :=
  match quant with
  | QInt8 st =>
      score_chunk_i8 tk (i8_vectors st) (segments_dimension (st_data s)) chunk (quantize (i8_params st) q)
        (bool_decide (c_distance (st_config s) = Euclidean)) overscan
  | QBinary st => score_chunk_bin tk (bs_words st) (bs_words_per_row st) chunk (pack_signs q) overscan
  end.

Definition two_pass (s : Store) (q : list f32) (scan : list scan_entry) (opts : SearchOpts) (workers : nat)
    (quant : Quant) : result query_error (list Hit) :=
  let overscan := overscan_of s opts in
  (let? topk_q :=
     if (1 <? workers)%nat
     then parallel_topk row_item_cmp tok scan workers overscan (first_pass s q overscan quant)
     else first_pass s q overscan quant (tok 0%nat) scan in
   Ok (rerank_candidates s q (into_sorted_desc row_item_cmp topk_q) opts))%res.

Definition search_quantized (s : Store) (quant : option Quant) (q : list f32) (scan : list scan_entry)
    (opts : SearchOpts) (workers : nat) : option (result query_error (list Hit)) :=
  if (segments_dimension (st_data s) =? 0)%nat then None
  else
    match quant with
    | Some qt => if bool_decide (codes qt = []) then None else Some (two_pass s q scan opts workers qt)
    | None => None
    end.

(** ** The approximate walks *)

(** A walked row that resolves to a live document in scope, and its score. *)
Definition walked (s : Store) (row_to_doc : list (option (rstring * rstring * rstring)))
    (scope : list rstring) (q : list f32) (opts : SearchOpts) (row : nat) : option (f32 * item) :=
  match row_to_doc !! row with
  | Some (Some (col_name, id, name)) =>
      if negb (bool_decide (name = DEFAULT_VECTOR)) then None
      else if negb (bool_decide (col_name ∈ scope)) then None
      else
        match st_collections s !! col_name ≫= fun col => cl_docs col !! id with
        | None => None
        | Some entry =>
            if negb (bool_decide (de_rows entry !! DEFAULT_VECTOR = Some row)) then None
            else if negb (matches (so_filter opts) (de_attrs entry)) then None
            else
              let base := score_fn s q (segments_row row (st_data s)) in
              let score := adjust (so_rank_by opts) base (de_attrs entry) in
              if below (so_min_score opts) score then None else Some (score, (col_name, id))
        end
  | _ => None
  end.

Definition offer_candidates (s : Store) (ca : Caches) (scope : list rstring) (q : list f32) (opts : SearchOpts)
    (candidates : list (nat * f32)) (topk : TopK (T := item)) : TopK (T := item) :=
  foldl (fun t c =>
    match walked s (ca_row_to_doc ca) scope q opts c.1 with
    | Some x => offer item_cmp x.1 x.2 t
    | None => t
    end) topk candidates.

(** [None] once more than [cap] candidates pass. *)
Definition collect_selective_scan (s : Store) (scope : list rstring) (filter : Filter) (cap : nat)
  : option (list scan_entry) :=
  let scan := mjoin (map (fun nc => omap (candidate filter nc.1) (docs_entries nc.2)) (in_scope s scope)) in
  if (cap <? length scan)%nat then None else Some scan.

Definition n_candidates (overscan : nat) (opts : SearchOpts) : nat :=
  Nat.max (usize (sat_mul (N.of_nat (so_top_k opts)) (N.of_nat overscan))) (so_top_k opts).

Definition search_ann (s : Store) (ca : Caches) (scope : list rstring) (q : list f32) (opts : SearchOpts)
  : result query_error (list Hit) :=
  match ca_ann ca with
  | None => Ok []
  | Some ann =>
      if (so_top_k opts =? 0)%nat then Ok []
      else
        let overscan := Nat.max (match c_ann (st_config s) with Some a => a_overscan a | None => 1%nat end) 1 in
        let n := n_candidates overscan opts in
        let total := scannable_doc_count s in
        let narrowed := negb (bool_decide (filter_preds (so_filter opts) = []))
                        || (scannable_in_scope s scope <? total)%nat in
        let walk_it :=
          Ok (hits_from_topk s (offer_candidates s ca scope q opts (ann q n) (TopK_new (so_top_k opts)))
                (so_projection opts)) in
        if narrowed then
          match collect_selective_scan s scope (so_filter opts) (Nat.max (total / overscan) n) with
          | Some scan => rank_scan s q (sort_unstable by_row scan) opts
          | None => walk_it
          end
        else walk_it
  end.

Definition hit_cmp : Hit -> Hit -> comparison :=
  cmp_then (fun a b => score_desc (h_score a) (h_score b))
    (cmp_then (cmp_on h_collection str_cmp) (cmp_on h_id str_cmp)).

(** The row ranges of the segments that have an index. *)
Definition indexed_ranges (s : Store) (ca : Caches) : list (nat * nat) :=
  omap (fun rx : (nat * nat) * option (list f32 -> nat -> list (nat * f32)) =>
          match rx.2 with Some _ => Some (rx.1.1, (rx.1.1 + rx.1.2)%nat) | None => None end)
    (zip (segment_ranges (st_data s)) (ca_seg_indexes ca)).

Definition covered (ranges : list (nat * nat)) (row : nat) : bool :=
  existsb (fun r => (r.1 <=? row)%nat && (row <? r.2)%nat) ranges.

Definition search_segmented (s : Store) (ca : Caches) (scope : list rstring) (q : list f32) (opts : SearchOpts)
  : result query_error (list Hit) :=
  if (so_top_k opts =? 0)%nat then Ok []
  else
    let indexed := indexed_ranges s ca in
    let scan := sort_unstable by_row
      (List.filter (fun e : scan_entry => negb (covered indexed e.1))
         (mjoin (map (fun nc => omap (candidate (so_filter opts) nc.1) (docs_entries nc.2)) (in_scope s scope)))) in
    (let? hits := rank_scan s q scan opts in
     let n := n_candidates (Nat.max (a_overscan AnnConfig_ivf) 1) opts in
     let ivf_topk := foldl (fun t ix => offer_candidates s ca scope q opts (ix q n) t)
                       (TopK_new (so_top_k opts)) (omap id (ca_seg_indexes ca)) in
     Ok (take (so_top_k opts)
           (sort_by hit_cmp (hits ++ hits_from_topk s ivf_topk (so_projection opts)))))%res.

(** ** Search *)

Definition check_query_dim (s : Store) (query : list f32) : result query_error unit :=
  let dim := segments_dimension (st_data s) in
  if (dim =? 0)%nat then Err QDimension
  else if negb (length query =? dim)%nat then Err QDimension else Ok tt.

Definition normalized (s : Store) (query : list f32) : list f32 :=
  if bool_decide (c_distance (st_config s) = Cosine) then normalize query else query.

(** The brute-force branch. *)
Definition search_exact (s : Store) (ca : Caches) (scope : list rstring) (q : list f32) (opts : SearchOpts)
  : result query_error (list Hit) :=
  let scan := sorted_scan s (ca_scan_order ca) scope (so_filter opts) in
  let workers := parallel_workers s (length scan) in
  match (if so_exact opts then None else search_quantized s (ca_quant ca) q scan opts workers) with
  | Some res => res
  | None => rank_scan s q scan opts
  end.

Definition search (s : Store) (ca : Caches) (scope : list rstring) (query : list f32) (opts : SearchOpts)
  : result query_error (list Hit) :=
  (let? _ := check_query_dim s query in
   let? _ := check_query_opts opts in
   let q := normalized s query in
   let deep := deepened opts in
   let? ranked :=
     if negb (bool_decide (so_names deep = [])) then
       rank_scan_named s q (named_scan s scope (so_filter deep) (so_names deep)) deep
     else if bool_decide (is_Some (ca_ann ca)) && negb (so_exact deep) then search_ann s ca scope q deep
     else if existsb (fun ix => bool_decide (is_Some ix)) (ca_seg_indexes ca) && negb (so_exact deep)
     then search_segmented s ca scope q deep
     else search_exact s ca scope q deep in
   finish s ranked opts)%res.

Definition search_similar (s : Store) (ca : Caches) (scope : list rstring) (collection id : rstring)
    (opts : SearchOpts) : result query_error (list Hit) :=
  match st_collections s !! collection ≫= fun col => cl_docs col !! id with
  | None => Err QNoRecord
  | Some entry =>
      match primary_row entry with
      | None => Err QNoVector
      | Some row =>
          let query := segments_row row (st_data s) in
          let wide := with_page (usize (sat_add (N.of_nat (depth opts)) 1)) 0 None None opts in
          (let? ranked := search s ca scope query wide in
           finish s (List.filter (fun h => negb (bool_decide (h_collection h = collection /\ h_id h = id))) ranked)
             opts)%res
      end
  end.
End ranking.

(** ** Listing *)

Section listing.
Context `{UnicodeAlnum} `{RegexEngine} `{RegexSyntax} `{HashOrder} `{SortUnstable}.

Definition list_entry (filter : Filter) (col_name : rstring) (ie : rstring * DocEntry) : option ListEntry :=
  if matches filter (de_attrs ie.2)
  then Some {| le_row := primary_row ie.2; le_col := col_name; le_id := ie.1 |} else None.

Definition list_collection (s : Store) (filter : Filter) (nc : rstring * Collection) : list ListEntry :=
  match candidate_ids (ix_findex (st_index s)) nc.1 filter with
  | Some ids => omap (fun id => cl_docs nc.2 !! id ≫= fun e => list_entry filter nc.1 (id, e)) ids
  | None => omap (list_entry filter nc.1) (docs_entries nc.2)
  end.

(** Rowed documents by row, then text-only ones by id. *)
Definition list_cmp (a b : ListEntry) : comparison :=
  match le_row a, le_row b with
  | Some x, Some y => Nat.compare x y
  | Some _, None => Lt
  | None, Some _ => Gt
  | None, None => str_cmp (le_id a) (le_id b)
  end.

Definition list_docs (s : Store) (scope : list rstring) (opts : ListOpts) : list Hit :=
  let scan := sort_unstable list_cmp (mjoin (map (list_collection s (lo_filter opts)) (in_scope s scope))) in
  let scan := match lo_order_by opts with Some order => order_scan s order scan | None => scan end in
  map (fun e => hit_of s (lo_projection opts) (f32_zero, (le_col e, le_id e)))
    (take (lo_limit opts) (drop (lo_offset opts) scan)).
End listing.
