(* ===== verification/SearchSpec.v ===== *)
(** * SearchSpec: what a query answers

    The candidates of a query are the live documents in scope that carry the
    default vector and pass the filter; [sorted_scan] gathers exactly them,
    whichever way it goes.  The exact path then ranks them, and the
    approximate ones only ever answer with some of them at their exact
    score. *)
From S2P Require Import Prelude Floats Model Config TextPred Filter Literal Findex Narrow Sort TopK Std Hits.
From S2P Require Import Manifest Segments Replay Store Mmr Aggregate Expand Rank Scoring Quant Search.

Section hashing.
Context `{HashOrder}.

Lemma docs_entries_elem col id e : (id, e) ∈ docs_entries col <-> cl_docs col !! id = Some e.
Proof.
  unfold docs_entries. rewrite list_elem_of_omap. split.
  - intros (id' & _ & E). destruct (cl_docs col !! id') eqn:E'; [|done]. cbn in E. by injection E as <- <-.
  - intros E. exists id. rewrite hm_order_perm, elem_of_bt_keys, E. split; [by eexists|done].
Qed.

Lemma docs_entries_nodup col : NoDup (docs_entries col).*1.
Proof.
  unfold docs_entries. assert (NoDup (hm_order (bt_keys (cl_docs col)))) as Hnd.
  { rewrite hm_order_perm. apply bt_keys_NoDup. }
  induction Hnd as [|id l Hid Hnd IH]; [constructor|]. cbn. destruct (cl_docs col !! id) as [e|]; [|done].
  cbn. constructor; [|done]. contradict Hid. apply list_elem_of_fmap in Hid as ([id' e'] & -> & Hin).
  apply list_elem_of_omap in Hin as (id & Hin & E). destruct (cl_docs col !! id); [|done]. cbn in *.
  by injection E as <- <-.
Qed.

Lemma collections_entries_elem s n c : (n, c) ∈ collections_entries s <-> st_collections s !! n = Some c.
Proof.
  unfold collections_entries. rewrite list_elem_of_omap. split.
  - intros (n' & _ & E). destruct (st_collections s !! n') eqn:E'; [|done]. cbn in E. by injection E as <- <-.
  - intros E. exists n. rewrite hm_order_perm, elem_of_bt_keys, E. split; [by eexists|done].
Qed.

Lemma keyed_omap_nodup {V} (m : gmap rstring V) (l : list rstring) :
  NoDup l -> NoDup (omap (fun n => (fun c => (n, c)) <$> m !! n) l).*1.
Proof.
  induction 1 as [|n l Hn Hnd IH]; [constructor|]. cbn. destruct (m !! n) as [c|]; [|done].
  cbn. constructor; [|done]. contradict Hn. apply list_elem_of_fmap in Hn as ([n' c'] & -> & Hin).
  apply list_elem_of_omap in Hin as (n & Hin & E). destruct (m !! n); [|done]. cbn in *.
  by injection E as <- <-.
Qed.

Lemma collections_entries_nodup s : NoDup (collections_entries s).*1.
Proof. apply keyed_omap_nodup. rewrite hm_order_perm. apply bt_keys_NoDup. Qed.

Lemma in_scope_elem s names n c : (n, c) ∈ in_scope s names <-> n ∈ names /\ st_collections s !! n = Some c.
Proof.
  unfold in_scope. rewrite list_elem_of_omap. split.
  - intros (n' & Hin & E). destruct (st_collections s !! n') eqn:E'; [|done]. cbn in E. by injection E as <- <-.
  - intros [Hin E]. exists n. rewrite E. done.
Qed.

Lemma in_scope_nodup s names : NoDup names -> NoDup (in_scope s names).*1.
Proof. apply keyed_omap_nodup. Qed.
End hashing.

(** Gathering per collection: items stay distinct across collections and ids. *)
Lemma gather_nodup {X A} (l : list (rstring * X)) (f : rstring * X -> list (A * item)) :
  NoDup l.*1 -> (forall nx e, e ∈ f nx -> e.2.1 = nx.1) -> (forall nx, nx ∈ l -> NoDup (f nx).*2) ->
  NoDup (mjoin (map f l)).*2.
Proof.
  intros Hnd Hcol Hf. induction l as [|nx l IH]; [constructor|].
  change (mjoin (map f (nx :: l))) with (f nx ++ mjoin (map f l)). rewrite fmap_app.
  cbn in Hnd. apply NoDup_cons in Hnd as [Hn Hnd].
  apply NoDup_app. split_and!; [apply Hf; by left| |apply IH; [done|intros; apply Hf; by right]].
  intros x (e & -> & He)%list_elem_of_fmap (e' & Ee & He')%list_elem_of_fmap.
  apply list_elem_of_join in He' as (l' & He' & Hl'). apply list_elem_of_fmap in Hl' as (nx' & -> & Hnx').
  apply Hcol in He, He'. apply Hn. apply list_elem_of_fmap. exists nx'. split; [congruence|done].
Qed.

Section gathering.
Context `{UnicodeAlnum} `{RegexEngine} `{RegexSyntax} `{!RegexLaws} `{HashOrder} `{SortUnstable}.

(** The documents the index stands for: those of the collections it covers. *)
Definition live_docs_of (s : Store) : findex_docs :=
  map_imap (fun c _ => Some (match st_collections s !! c with
                             | Some col => de_attrs <$> cl_docs col
                             | None => ∅
                             end)) (fx_schema (ix_findex (st_index s))).
(** The filter index holds exactly the live documents. *)
Definition findex_faithful (s : Store) : Prop :=
  exists n, findex_ok n (ix_findex (st_index s)) (live_docs_of s).

(** The reference: every document in scope, asked one by one. *)
Definition matching (s : Store) (names : list rstring) (filter : Filter) : list scan_entry :=
  mjoin (map (fun nc => omap (candidate filter nc.1) (docs_entries nc.2)) (in_scope s names)).

Definition is_candidate (s : Store) (names : list rstring) (filter : Filter) (e : scan_entry) : Prop :=
  exists col entry, e.2.1 ∈ names /\ st_collections s !! e.2.1 = Some col /\
    cl_docs col !! e.2.2 = Some entry /\ de_rows entry !! DEFAULT_VECTOR = Some e.1 /\
    matches filter (de_attrs entry) = true.

Lemma candidate_some filter n id entry e :
  candidate filter n (id, entry) = Some e <->
  e.2 = (n, id) /\ de_rows entry !! DEFAULT_VECTOR = Some e.1 /\ matches filter (de_attrs entry) = true.
Proof.
  unfold candidate. cbn [fst snd]. destruct (de_rows entry !! DEFAULT_VECTOR) as [row|].
  - destruct (matches filter (de_attrs entry)); split; try done.
    + by intros [= <-].
    + destruct e as [r x]. cbn. by intros (-> & [= ->] & _).
    + by intros (_ & _ & ?).
  - split; [done|]. by intros (_ & ? & _).
Qed.

Lemma matching_elem s names filter e : e ∈ matching s names filter <-> is_candidate s names filter e.
Proof.
  unfold matching, is_candidate. rewrite list_elem_of_join. split.
  - intros (l & He & Hl). apply list_elem_of_fmap in Hl as ([n col] & -> & Hin). cbn [fst snd] in He.
    apply in_scope_elem in Hin as [Hn Hcol]. apply list_elem_of_omap in He as ([id entry] & Hdoc & Hc).
    apply docs_entries_elem in Hdoc. apply candidate_some in Hc as (-> & Hrow & Hm).
    exists col, entry. by split_and!.
  - intros (col & entry & Hn & Hcol & Hdoc & Hrow & Hm).
    exists (omap (candidate filter e.2.1) (docs_entries col)). split.
    + apply list_elem_of_omap. exists (e.2.2, entry). split; [by apply docs_entries_elem|].
      apply candidate_some. by destruct e as [r [c i]].
    + apply list_elem_of_fmap. exists (e.2.1, col). split; [done|]. by apply in_scope_elem.
Qed.

Lemma candidate_ids_nodup filter n (l : list (rstring * DocEntry)) :
  NoDup l.*1 -> NoDup (omap (candidate filter n) l).*2.
Proof.
  induction l as [|[id entry] l IH]; [constructor|]. cbn. intros [Hid Hnd]%NoDup_cons.
  destruct (candidate filter n (id, entry)) as [e|] eqn:E; [|by apply IH]. cbn. constructor; [|by apply IH].
  apply candidate_some in E as (-> & _ & _). contradict Hid.
  apply list_elem_of_fmap in Hid as (e' & E' & Hin).
  apply list_elem_of_omap in Hin as ([id' entry'] & Hin & Hc%candidate_some).
  destruct Hc as (Hc & _). rewrite Hc in E'. injection E' as <-.
  apply list_elem_of_fmap. by exists (id, entry').
Qed.

Lemma candidate_col filter n ie e : candidate filter n ie = Some e -> e.2.1 = n.
Proof. destruct ie as [id entry]. intros (-> & _)%candidate_some. done. Qed.

Lemma matching_nodup s names filter : NoDup names -> NoDup (matching s names filter).*2.
Proof.
  intros Hnd. unfold matching. apply gather_nodup.
  - by apply in_scope_nodup.
  - intros nx e (ie & _ & Hc)%list_elem_of_omap. by eapply candidate_col.
  - intros [n col] _. apply candidate_ids_nodup, docs_entries_nodup.
Qed.

Lemma nodup_fst_of_snd {A B} (l : list (A * B)) : NoDup l.*2 -> NoDup l.
Proof. apply NoDup_fmap_1. Qed.

(** Two gatherings of the same candidates. *)
Lemma same_candidates s names filter (l : list scan_entry) :
  NoDup names -> NoDup l -> (forall e, e ∈ l <-> is_candidate s names filter e) -> l ≡ₚ matching s names filter.
Proof.
  intros Hnd Hl He. apply NoDup_Permutation; [done|by apply nodup_fst_of_snd, matching_nodup|].
  intros e. by rewrite He, matching_elem.
Qed.

Lemma narrow_all_spec s names filter l :
  narrow_all s names filter = Some l ->
  (forall n ids, (n, ids) ∈ l -> n ∈ names /\ is_Some (st_collections s !! n) /\
     candidate_ids (ix_findex (st_index s)) n filter = Some ids) /\
  (forall n, n ∈ names -> is_Some (st_collections s !! n) -> exists ids, (n, ids) ∈ l) /\
  (NoDup names -> NoDup l.*1).
Proof.
  revert l. induction names as [|n names IH]; intros l; cbn [narrow_all].
  { intros [= <-]. split_and!; [by intros ? ? ?%elem_of_nil|by intros ? ?%elem_of_nil|constructor]. }
  destruct (st_collections s !! n) as [col|] eqn:Ec.
  - intros (ids & Hids & (rest & Hrest & [= <-])%bind_Some)%bind_Some.
    destruct (IH _ Hrest) as (K1 & K2 & K3). split_and!.
    + intros n' ids' [[= -> ->]|Hin]%elem_of_cons.
      * split_and!; [by left|by rewrite Ec|done].
      * destruct (K1 _ _ Hin) as (? & ? & ?). split_and!; [by right|done|done].
    + intros n' [->|Hin]%elem_of_cons Hs; [exists ids; by left|].
      destruct (K2 _ Hin Hs) as [ids' ?]. exists ids'. by right.
    + intros [Hn Hnd]%NoDup_cons. cbn. constructor; [|by apply K3]. contradict Hn.
      apply list_elem_of_fmap in Hn as ([n' ids'] & -> & Hin). by destruct (K1 _ _ Hin).
  - intros Hrest. destruct (IH _ Hrest) as (K1 & K2 & K3). split_and!.
    + intros n' ids' Hin. destruct (K1 _ _ Hin) as (? & ? & ?). split_and!; [by right|done|done].
    + intros n' [->|Hin]%elem_of_cons Hs; [|by apply K2]. rewrite Ec in Hs. by destruct Hs.
    + intros [_ Hnd]%NoDup_cons. by apply K3.
Qed.

Lemma candidates_live s n filter ids :
  findex_faithful s -> is_Some (st_collections s !! n) ->
  candidate_ids (ix_findex (st_index s)) n filter = Some ids ->
  exists col, st_collections s !! n = Some col /\ NoDup ids /\
    forall id entry, cl_docs col !! id = Some entry -> matches filter (de_attrs entry) = true -> id ∈ ids.
Proof.
  intros [k Hok] [col Hcol] Hc.
  destruct (candidate_ids_sound k _ _ _ _ _ Hok Hc) as (m & Hm & Hnd & Hin & _).
  exists col. split_and!; [done|done|]. intros id entry Hd Hmt. apply (Hin id (de_attrs entry)); [|done].
  unfold live_docs_of in Hm. rewrite map_lookup_imap in Hm.
  destruct (fx_schema (ix_findex (st_index s)) !! n); [|done]. cbn in Hm. injection Hm as <-.
  rewrite Hcol. by rewrite lookup_fmap, Hd.
Qed.

Lemma narrowed_entries_elem s filter n ids col e :
  st_collections s !! n = Some col ->
  e ∈ narrowed_entries s filter (n, ids) <->
  exists entry, e.2.2 ∈ ids /\ e.2.1 = n /\ cl_docs col !! e.2.2 = Some entry /\
    de_rows entry !! DEFAULT_VECTOR = Some e.1 /\ matches filter (de_attrs entry) = true.
Proof.
  intros Hcol. unfold narrowed_entries. cbn [fst snd]. rewrite Hcol, list_elem_of_omap. split.
  - intros (id & Hid & (entry & Hd & Hc)%bind_Some). apply candidate_some in Hc as (E & Hr & Hm).
    exists entry. rewrite E. by split_and!.
  - intros (entry & Hid & Hn & Hd & Hr & Hm). exists e.2.2. split; [done|]. rewrite Hd. cbn.
    apply candidate_some. destruct e as [r [c i]]. cbn in *. by subst.
Qed.

Lemma narrowed_entries_nodup s filter n ids : NoDup ids -> NoDup (narrowed_entries s filter (n, ids)).*2.
Proof.
  intros Hnd. unfold narrowed_entries. destruct (st_collections s !! _) as [col|]; [|constructor]. cbn [fst snd].
  induction Hnd as [|id ids Hid Hnd IH]; [constructor|]. cbn.
  destruct (cl_docs col !! id ≫= _) as [e|] eqn:E; [|done]. cbn. constructor; [|done].
  apply bind_Some in E as (entry & Hd & Hc). apply candidate_some in Hc as (-> & _ & _).
  contradict Hid. apply list_elem_of_fmap in Hid as (e' & E' & Hin).
  apply list_elem_of_omap in Hin as (id' & Hin & (entry' & _ & Hc)%bind_Some).
  apply candidate_some in Hc as (Hc & _). rewrite Hc in E'. by injection E' as <-.
Qed.

Lemma narrowed_candidates s names filter l :
  findex_faithful s -> NoDup names -> narrow_all s names filter = Some l ->
  mjoin (map (narrowed_entries s filter) l) ≡ₚ matching s names filter.
Proof.
  intros Hf Hnd Hl. destruct (narrow_all_spec _ _ _ _ Hl) as (K1 & K2 & K3). apply same_candidates; [done| |].
  - apply nodup_fst_of_snd, gather_nodup; [by apply K3| |].
    + intros [n ids] e. unfold narrowed_entries. cbn [fst snd]. destruct (st_collections s !! n); [|by intros ?%elem_of_nil].
      intros (id & _ & (entry & _ & Hc)%bind_Some)%list_elem_of_omap. by eapply candidate_col.
    + intros [n ids] Hin. apply narrowed_entries_nodup. destruct (K1 _ _ Hin) as (_ & Hs & Hc).
      by destruct (candidates_live _ _ _ _ Hf Hs Hc) as (_ & _ & ? & _).
  - intros e. rewrite list_elem_of_join. unfold is_candidate. split.
    + intros (l' & He & Hl'). apply list_elem_of_fmap in Hl' as ([n ids] & -> & Hin).
      destruct (K1 _ _ Hin) as (Hn & [col Hcol] & _).
      apply (narrowed_entries_elem _ _ _ _ col) in He as (entry & _ & <- & ? & ? & ?); [|done].
      exists col, entry. by split_and!.
    + intros (col & entry & Hn & Hcol & Hd & Hr & Hm). destruct (K2 e.2.1) as [ids Hin]; [done|by eexists|].
      exists (narrowed_entries s filter (e.2.1, ids)). split; [|apply list_elem_of_fmap; by exists (e.2.1, ids)].
      apply (narrowed_entries_elem _ _ _ _ col); [done|]. exists entry. split_and!; try done.
      destruct (K1 _ _ Hin) as (_ & Hs & Hc).
      destruct (candidates_live _ _ _ _ Hf Hs Hc) as (col' & Hcol' & _ & Hin'). eapply Hin'; [|done]. congruence.
Qed.
End gathering.

(** ** The whole-store scope *)

Lemma list_sum_zero l n : list_sum l = 0%nat -> n ∈ l -> n = 0%nat.
Proof.
  unfold list_sum. induction l as [|x l IH]; cbn; intros Hs; [by intros ?%elem_of_nil|].
  intros [->|Hn]%elem_of_cons; [lia|]. apply IH; [lia|done].
Qed.

Lemma NoDup_filter_bool {A} (p : A -> bool) (l : list A) : NoDup l -> NoDup (List.filter p l).
Proof.
  induction 1 as [|x l Hx Hnd IH]; cbn; [constructor|]. destruct (p x); [|done]. constructor; [|done].
  contradict Hx. by apply list_elem_of_In, filter_In in Hx as [Hx%list_elem_of_In _].
Qed.

Section whole.
Context `{UnicodeAlnum} `{RegexEngine} `{RegexSyntax} `{!RegexLaws} `{HashOrder} `{SortUnstable}.

Lemma whole_scope s names c col id entry row :
  NoDup names -> scannable_in_scope s names = scannable_doc_count s ->
  st_collections s !! c = Some col -> cl_docs col !! id = Some entry ->
  de_rows entry !! DEFAULT_VECTOR = Some row -> c ∈ names.
Proof.
  intros Hnd Hsum Hcol Hd Hr. destruct (decide (c ∈ names)) as [|Hc]; [done|]. exfalso.
  assert (in_scope s names ⊆+ collections_entries s) as Hsub.
  { apply NoDup_submseteq; [eapply NoDup_fmap_1; by apply in_scope_nodup|].
    intros [n col'] [_ Hin]%in_scope_elem. by apply collections_entries_elem. }
  apply submseteq_Permutation in Hsub as [rest Hperm].
  unfold scannable_in_scope, scannable_doc_count in Hsum.
  rewrite (list_sum_perm _ _ (Permutation_map (fun nc => scannable nc.2) Hperm)) in Hsum.
  rewrite map_app, list_sum_app in Hsum.
  assert ((c, col) ∈ rest) as Hin.
  { assert ((c, col) ∈ collections_entries s) as Hin by (by apply collections_entries_elem).
    rewrite Hperm in Hin. apply elem_of_app in Hin as [[? _]%in_scope_elem|?]; done. }
  assert (scannable col = 0)%nat as Hz.
  { apply (list_sum_zero (map (fun nc => scannable nc.2) rest)); [lia|].
    apply list_elem_of_fmap. by exists (c, col). }
  unfold scannable in Hz. apply nil_length_inv in Hz.
  assert (In entry []) as []. rewrite <- Hz. apply filter_In. split.
  - apply list_elem_of_In, list_elem_of_fmap. exists (id, entry). split; [done|]. by apply docs_entries_elem.
  - unfold has_default. rewrite Hr. by apply bool_decide_eq_true_2.
Qed.

(** The cached order is the one a rebuild would give; every write drops it. *)
Definition cache_ok (s : Store) (cached : option (list scan_entry)) : Prop :=
  match cached with Some order => order ≡ₚ build_scan_order s | None => True end.

Lemma scan_order_perm s cached :
  cache_ok s cached -> scan_order s cached ≡ₚ
    mjoin (map (fun nc => omap (candidate Filter_default nc.1) (docs_entries nc.2)) (collections_entries s)).
Proof.
  intros Hc. assert (scan_order s cached ≡ₚ build_scan_order s) as -> by (by destruct cached).
  unfold build_scan_order. by rewrite sort_unstable_perm.
Qed.

Lemma all_entries_elem s e :
  e ∈ mjoin (map (fun nc => omap (candidate Filter_default nc.1) (docs_entries nc.2)) (collections_entries s)) <->
  exists col entry, st_collections s !! e.2.1 = Some col /\ cl_docs col !! e.2.2 = Some entry /\
    de_rows entry !! DEFAULT_VECTOR = Some e.1.
Proof.
  rewrite list_elem_of_join. split.
  - intros (l & He & Hl). apply list_elem_of_fmap in Hl as ([n col] & -> & Hin). cbn [fst snd] in He.
    apply collections_entries_elem in Hin.
    apply list_elem_of_omap in He as ([id entry] & Hd%docs_entries_elem & Hc%candidate_some).
    destruct Hc as (E & Hr & _). exists col, entry. rewrite E. by split_and!.
  - intros (col & entry & Hcol & Hd & Hr).
    exists (omap (candidate Filter_default e.2.1) (docs_entries col)). split.
    + apply list_elem_of_omap. exists (e.2.2, entry). split; [by apply docs_entries_elem|].
      apply candidate_some. by destruct e as [r [c i]].
    + apply list_elem_of_fmap. exists (e.2.1, col). split; [done|]. by apply collections_entries_elem.
Qed.

Lemma all_entries_nodup s :
  NoDup (mjoin (map (fun nc => omap (candidate Filter_default nc.1) (docs_entries nc.2)) (collections_entries s))).
Proof.
  apply nodup_fst_of_snd, gather_nodup.
  - apply collections_entries_nodup.
  - intros nx e (ie & _ & Hc)%list_elem_of_omap. by eapply candidate_col.
  - intros [n col] _. apply candidate_ids_nodup, docs_entries_nodup.
Qed.

Lemma attrs_of_doc s c id col entry :
  st_collections s !! c = Some col -> cl_docs col !! id = Some entry -> attrs_of s c id = Some (de_attrs entry).
Proof. intros Hc Hd. unfold attrs_of. rewrite Hc. cbn. by rewrite Hd. Qed.

Lemma passes_cached_matches s filter e col entry :
  st_collections s !! e.2.1 = Some col -> cl_docs col !! e.2.2 = Some entry ->
  passes_cached s filter e = matches filter (de_attrs entry).
Proof.
  intros Hc Hd. unfold passes_cached. rewrite (attrs_of_doc _ _ _ _ _ Hc Hd).
  case_bool_decide as Hf; [|done]. unfold matches. by rewrite Hf.
Qed.

(** Whichever way it goes, the scan is the candidates. *)
Lemma sorted_scan_perm s cached names filter :
  findex_faithful s -> cache_ok s cached -> NoDup names ->
  sorted_scan s cached names filter ≡ₚ matching s names filter.
Proof.
  intros Hf Hc Hnd. unfold sorted_scan, narrowed_scan.
  destruct (negb _), (narrow_all s names filter) as [l|] eqn:Hl; cycle 2.
  { rewrite sort_unstable_perm. by apply narrowed_candidates. }
  all: destruct (Nat.eqb_spec (scannable_in_scope s names) (scannable_doc_count s)) as [Heq|_];
    [|by rewrite sort_unstable_perm].
  all: apply same_candidates; [done|apply NoDup_filter_bool; rewrite scan_order_perm by done; apply all_entries_nodup|];
    intros e; rewrite list_elem_of_In, filter_In, <- list_elem_of_In, scan_order_perm, all_entries_elem by done;
    unfold is_candidate; split.
  all: try (intros [(col & entry & Hcol & Hd & Hr) Hp]; exists col, entry;
    rewrite (passes_cached_matches _ _ _ _ _ Hcol Hd) in Hp;
    by pose proof (whole_scope _ _ _ _ _ _ _ Hnd Heq Hcol Hd Hr)).
  all: intros (col & entry & _ & Hcol & Hd & Hr & Hm); split; [by exists col, entry|];
    by rewrite (passes_cached_matches _ _ _ _ _ Hcol Hd).
Qed.
End whole.

(** ** The exact path *)

(** An answer, or a cancellation some thread saw. *)
Definition answers {A} (tok : nat -> nat -> bool) (a : A) (r : result query_error A) : Prop :=
  match r with Ok x => x = a | Err e => e = QCancelled /\ exists w j, tok w j = true end.

Section exact.
Context `{UnicodeAlnum} `{RegexEngine} `{RegexSyntax} `{!RegexLaws} `{HashOrder} `{SortUnstable} `{Powf}.
Context (tok : nat -> nat -> bool) (s : Store).

(** What a candidate scores under the whole query, when it reaches the minimum. *)
Definition full_score (q : list f32) (opts : SearchOpts) (e : scan_entry) : option (f32 * item) :=
  let score := ranked_score s (so_rank_by opts) (score_fn s q (segments_row e.1 (st_data s))) e.2.1 e.2.2 in
  if below (so_min_score opts) score then None else Some (score, e.2).

Lemma full_score_snd q opts e x : full_score q opts e = Some x -> x.2 = e.2.
Proof. unfold full_score. destruct (below _ _); [done|]. by intros [= <-]. Qed.

Lemma full_score_nodup q opts (scan : list scan_entry) : NoDup scan.*2 -> NoDup (omap (full_score q opts) scan).*2.
Proof. apply (omap_keys _ snd). intros e x. apply full_score_snd. Qed.

Lemma expr_row_offer q opts t e : expr_row s q opts t e = Ok (offer_opt item_cmp (full_score q opts) t e).
Proof. unfold expr_row, offer_opt, full_score. by destruct (below _ _). Qed.

Lemma parallel_workers_pos n : (1 < parallel_workers s n)%nat -> (0 < n)%nat.
Proof.
  unfold parallel_workers. destruct (_ && _) eqn:E; [|lia]. intros _.
  apply andb_prop in E as [_ E%N.leb_le]. destruct n; [|lia]. exfalso. revert E.
  unfold sat_mul, PARALLEL_SCAN_WORK_FLOOR. cbn. lia.
Qed.

Lemma ranks_hits projection ranking r :
  ranks item_cmp tok ranking r ->
  answers tok (map (hit_of s projection) ranking)
    (let? topk := r in Ok (hits_from_topk s topk projection))%res.
Proof. destruct r as [t|e]; cbn; [|done]. intros <-. done. Qed.

Lemma rank_scan_spec q scan opts :
  NoDup scan.*2 ->
  answers tok (map (hit_of s (so_projection opts)) (top item_cmp (so_top_k opts) (omap (full_score q opts) scan)))
    (rank_scan tok s q scan opts).
Proof.
  intros Hnd. pose proof (full_score_nodup q opts scan Hnd) as Hns. unfold rank_scan.
  destruct (so_rank_by opts) as [rb|] eqn:Erb.
  - apply ranks_hits. by apply serial_ranks; try apply _; try apply expr_row_offer.
  - apply ranks_hits.
    assert (omap (full_score q opts) scan = omap (scored (st_data s) q (score_fn s) (so_min_score opts)) scan) as E.
    { assert (forall e, full_score q opts e = scored (st_data s) q (score_fn s) (so_min_score opts) e) as E
        by (intros e; unfold full_score, scored; by rewrite Erb).
      clear Hnd Hns. induction scan as [|e l IH]; [done|]. cbn. rewrite E. destruct (scored _ _ _ _ _); by rewrite IH. }
    rewrite E in *.
    destruct (Nat.ltb_spec 1 (parallel_workers s (length scan))) as [Hw|_].
    + apply parallel_ranks; try apply _; [apply score_row_offer|lia| |done].
      apply parallel_workers_pos in Hw. by destruct scan; [cbn in Hw; lia|].
    + by apply serial_ranks; try apply _; try apply score_row_offer.
Qed.

(** No approximation takes part: asked for, or none is built. *)
Definition brute_force (ca : Caches) (opts : SearchOpts) : Prop :=
  so_names opts = [] /\
  (so_exact opts = true \/
   ca_ann ca = None /\ Forall (fun ix => ix = None) (ca_seg_indexes ca) /\ ca_quant ca = None).

(** The reference ranking of a query: score every candidate, keep the best [n]. *)
Definition reference (names : list rstring) (query : list f32) (opts : SearchOpts) (n : nat) : list Hit :=
  map (hit_of s (so_projection opts))
    (top item_cmp n (omap (full_score (normalized s query) opts) (matching s names (so_filter opts)))).

Lemma search_exact_spec ca names q opts :
  findex_faithful s -> cache_ok s (ca_scan_order ca) -> NoDup names ->
  (so_exact opts = true \/ ca_quant ca = None) ->
  answers tok (map (hit_of s (so_projection opts))
      (top item_cmp (so_top_k opts) (omap (full_score q opts) (matching s names (so_filter opts)))))
    (search_exact tok s ca names q opts).
Proof.
  intros Hf Hc Hnd Hex. unfold search_exact.
  set (scan := sorted_scan _ _ _ _).
  assert (scan ≡ₚ matching s names (so_filter opts)) as Hp by (by apply sorted_scan_perm).
  assert ((if so_exact opts then None
    else search_quantized tok s (ca_quant ca) q scan opts (parallel_workers s (length scan))) = None) as ->.
  { destruct Hex as [->| ->]; [done|]. destruct (so_exact opts); [done|]. unfold search_quantized.
    by destruct (_ =? 0)%nat. }
  assert (NoDup scan.*2) as Hns by (rewrite Hp; by apply matching_nodup).
  erewrite <- (top_perm item_cmp _ (omap (full_score q opts) scan)); [by apply rank_scan_spec| |by apply omap_perm].
  by apply full_score_nodup.
Qed.
End exact.

Lemma brute_exact ca opts : brute_force ca opts -> so_exact (deepened opts) = true \/ ca_quant ca = None.
Proof. cbn. intros [_ [?|(_ & _ & ?)]]; auto. Qed.

(** Without approximations the brute-force branch serves the query. *)
Lemma search_brute `{UnicodeAlnum} `{RegexEngine} `{RegexSyntax} `{HashOrder} `{SortUnstable} `{Powf}
    tok s ca names query opts :
  check_query_dim s query = Ok tt -> check_query_opts opts = Ok tt -> brute_force ca opts ->
  search tok s ca names query opts =
    (let? ranked := search_exact tok s ca names (normalized s query) (deepened opts) in finish s ranked opts)%res.
Proof.
  intros Hd Ho [Hn Hb]. unfold search. rewrite Hd, Ho. cbn [res_bind].
  change (so_names (deepened opts)) with (so_names opts). change (so_exact (deepened opts)) with (so_exact opts).
  rewrite Hn, bool_decide_eq_true_2 by done. cbn [negb].
  assert (bool_decide (is_Some (ca_ann ca)) && negb (so_exact opts) = false) as ->.
  { destruct Hb as [->|(-> & _)]; [apply andb_false_r|]. rewrite bool_decide_eq_false_2; [done|by intros [? ?]]. }
  assert (existsb (fun ix => bool_decide (is_Some ix)) (ca_seg_indexes ca) && negb (so_exact opts) = false) as ->;
    [|done].
  destruct Hb as [->|(_ & Hall & _)]; [apply andb_false_r|].
  assert (existsb (fun ix : option (list f32 -> nat -> list (nat * f32)) => bool_decide (is_Some ix))
    (ca_seg_indexes ca) = false) as ->; [|done].
  induction Hall as [|ix l -> _ IH]; [done|]. cbn. exact IH.
Qed.

(** C3: an exact search is the reference, however it runs: for a query the store accepts over
    distinct collections, with a filter index and a scan cache that stand for the live
    documents, the answer is the tail applied to the [depth] best of
    all live candidates scored one by one — whatever the filter index
    narrows, the cache holds, the number of threads or the order of a
    hash map or an unstable sort — or some thread saw the request cancelled. *)
Theorem exact_search_spec `{UnicodeAlnum} `{RegexEngine} `{RegexSyntax} `{!RegexLaws} `{HashOrder}
    `{SortUnstable} `{Powf} (tok : nat -> nat -> bool) (s : Store) (ca : Caches) (names : list rstring)
    (query : list f32) (opts : SearchOpts) :
  check_query_dim s query = Ok tt -> check_query_opts opts = Ok tt -> NoDup names ->
  findex_faithful s -> cache_ok s (ca_scan_order ca) -> brute_force ca opts ->
  search tok s ca names query opts = finish s (reference s names query opts (depth opts)) opts \/
  search tok s ca names query opts = Err QCancelled /\ exists w j, tok w j = true.
Proof.
  intros Hd Ho Hnd Hf Hc Hb. rewrite search_brute by done.
  pose proof (search_exact_spec tok s ca names (normalized s query) (deepened opts) Hf Hc Hnd
    (brute_exact ca opts Hb)) as Ha.
  destruct (search_exact _ _ _ _ _ _) as [hits|e]; cbn [answers res_bind] in *.
  - left. by subst hits.
  - right. by destruct Ha as [-> ?].
Qed.
