(* ===== verification/SearchPaths.v ===== *)
(** * SearchPaths: pages, approximate answers and their soundness

    Whatever path serves a query, a hit is a live document in scope at its
    exact score; on the exact path the pages of a query are consecutive
    slices of one ranking. *)
From S2P Require Import Analyzer FtsStore.
From S2P Require Import Prelude Floats Model Config TextPred Filter Literal Findex Narrow Sort TopK Std Hits.
From S2P Require Import Manifest Segments Replay Store Mmr Aggregate Expand Rank Scoring Quant Search SearchSpec.

(** ** What a collector may hold *)

Section holding.
Context {T : Type} (cmp : T -> T -> comparison).

Lemma heap_pop_sub (l : list (f32 * T)) w rest : heap_pop cmp l = Some (w, rest) -> w ∈ l /\ rest ⊆ l.
Proof.
  revert w rest. induction l as [|x l IH]; intros w rest; cbn; [done|].
  destruct (heap_pop cmp l) as [[w' rest']|]; [|intros [= <- <-]; set_solver].
  destruct (IH _ _ eq_refl). destruct (entry_cmp cmp w' x); intros [= <- <-]; set_solver.
Qed.

Lemma offer_sub score it t : tk_heap (offer cmp score it t) ⊆ (score, it) :: tk_heap t.
Proof.
  unfold offer. destruct (_ =? 0)%nat; [set_solver|]. destruct (_ <? _)%nat; [done|].
  destruct (heap_pop cmp (tk_heap t)) as [[w rest]|] eqn:E; [|set_solver].
  apply heap_pop_sub in E as [_ Hr]. case_match; cbn; set_solver.
Qed.

Lemma offers_sub t l : tk_heap (offers cmp t l) ⊆ l ++ tk_heap t.
Proof.
  revert t. induction l as [|x l IH]; intros t; [done|]. cbn [offers foldl].
  change (foldl _ ?t l) with (offers cmp t l).
  etrans; [apply IH|]. pose proof (offer_sub x.1 x.2 t). destruct x. set_solver.
Qed.

Lemma sorted_desc_elem (t : TopK (T := T)) x : x ∈ into_sorted_desc cmp t <-> x ∈ tk_heap t.
Proof. unfold into_sorted_desc. by rewrite sort_by_perm. Qed.

(** A result that holds nothing but what [P] allows. *)
Definition holds (P : f32 * T -> Prop) (r : result query_error (TopK (T := T))) : Prop :=
  forall t, r = Ok t -> forall x, x ∈ tk_heap t -> P x.

Lemma offers_holds (P : f32 * T -> Prop) k l : (forall x, x ∈ l -> P x) -> holds P (Ok (offers cmp (TopK_new k) l)).
Proof. intros Hl t [= <-] x Hx%offers_sub. apply Hl. by rewrite app_nil_r in Hx. Qed.

Lemma walk_holds {E} (sc : E -> option (f32 * T)) step (P : f32 * T -> Prop) tk (l : list E) k :
  (forall t e, step t e = Ok (offer_opt cmp sc t e)) ->
  (forall e x, e ∈ l -> sc e = Some x -> P x) -> holds P (walk step tk l (TopK_new k)).
Proof.
  intros Hs HP. destruct (walk_offers cmp sc step Hs tk l (TopK_new k)) as [->|[-> _]]; [|done].
  apply offers_holds. intros x (e & He & Hx)%list_elem_of_omap. by eapply HP.
Qed.

Lemma join_workers_ok {C} (score_one : (nat -> bool) -> C -> result query_error (TopK (T := T))) tok w parts ts :
  join_workers score_one tok w parts = Ok ts ->
  forall t, t ∈ ts -> exists tk p, p ∈ parts /\ score_one tk p = Ok t.
Proof.
  revert w ts. induction parts as [|p ps IH]; intros w ts; cbn; [by intros [= <-] t ?%elem_of_nil|].
  destruct (score_one (tok w) p) as [t0|] eqn:E; [|done]. cbn.
  destruct (join_workers score_one tok (w + 1) ps) as [ts'|] eqn:E'; [|done]. intros [= <-] t.
  intros [->|Ht]%elem_of_cons; [exists (tok w), p; split; [by left|done]|].
  destruct (IH _ _ E' t Ht) as (tk & p' & ? & ?). exists tk, p'. split; [by right|done].
Qed.

Lemma merge_holds (P : f32 * T -> Prop) k ts :
  (forall t, t ∈ ts -> forall x, x ∈ tk_heap t -> P x) -> holds P (Ok (merge_locals cmp k ts)).
Proof.
  intros Hts. apply offers_holds. intros x (l & Hx & Hl)%list_elem_of_join.
  apply list_elem_of_fmap in Hl as (t & -> & Ht). apply sorted_desc_elem in Hx. by eapply Hts.
Qed.

Lemma parallel_holds `{SortUnstable} (P : f32 * T -> Prop) tok scan workers k score_one :
  (forall tk chunk, chunk ⊆ scan -> holds P (score_one tk chunk)) ->
  holds P (parallel_topk cmp tok scan workers k score_one).
Proof.
  intros Hone. unfold parallel_topk. destruct (Nat.eqb_spec (div_ceil (length scan) workers) 0) as [|Hn]; [done|].
  destruct (join_workers _ _ _ _) as [ts|] eqn:E; [|done]. apply merge_holds. intros t Ht.
  destruct (join_workers_ok _ _ _ _ _ E t Ht) as (tk & p & Hp & Hs). refine (Hone tk _ _ t Hs).
  intros e He. rewrite sort_unstable_perm in He.
  rewrite <- (chunks_join (div_ceil (length scan) workers) scan) by lia.
  apply list_elem_of_join. by exists p.
Qed.
End holding.

(** ** Every hit is genuine *)

Section genuine.
Context `{UnicodeAlnum} `{RegexEngine} `{RegexSyntax} `{!RegexLaws} `{HashOrder} `{SortUnstable} `{Powf}.
Context (tok : nat -> nat -> bool) (s : Store) (ca : Caches) (names : list rstring).

(** The score and the document of a live candidate. *)
Definition genuine_entry (q : list f32) (opts : SearchOpts) (x : f32 * item) : Prop :=
  exists e, is_candidate s names (so_filter opts) e /\ full_score s q opts e = Some x.
Definition genuine (q : list f32) (opts : SearchOpts) (h : Hit) : Prop :=
  exists x, genuine_entry q opts x /\ h = hit_of s (so_projection opts) x.

Lemma topk_genuine q opts (r : result query_error (TopK (T := item))) hits :
  holds (genuine_entry q opts) r ->
  (let? topk := r in Ok (hits_from_topk s topk (so_projection opts)))%res = Ok hits -> Forall (genuine q opts) hits.
Proof.
  destruct r as [t|]; [|done]. intros Hr [= <-]. apply Forall_forall. intros h Hh.
  apply list_elem_of_fmap in Hh as (x & -> & Hx). exists x. split; [|done].
  apply (Hr t eq_refl). by apply (sorted_desc_elem item_cmp).
Qed.

Lemma rank_scan_genuine q scan opts hits :
  (forall e, e ∈ scan -> is_candidate s names (so_filter opts) e) ->
  rank_scan tok s q scan opts = Ok hits -> Forall (genuine q opts) hits.
Proof.
  intros Hscan. unfold rank_scan. destruct (so_rank_by opts) as [rb|] eqn:Erb.
  - apply topk_genuine. eapply (walk_holds item_cmp (full_score s q opts)); [apply expr_row_offer|].
    intros e x He Hx. exists e. by split; [apply Hscan|].
  - assert (forall e x, scored (st_data s) q (score_fn s) (so_min_score opts) e = Some x ->
      full_score s q opts e = Some x) as Hsc.
    { intros e x. unfold full_score, scored. by rewrite Erb. }
    assert (forall tk chunk, chunk ⊆ scan -> holds (genuine_entry q opts)
      (score_chunk tk (st_data s) chunk q (score_fn s) (so_top_k opts) (so_min_score opts))) as Hone.
    { intros tk chunk Hsub. eapply (walk_holds item_cmp); [apply score_row_offer|].
      intros e x He Hx. exists e. split; [by apply Hscan, Hsub|by apply Hsc]. }
    destruct (_ <? _)%nat; apply topk_genuine; [by apply parallel_holds|by apply Hone].
Qed.

Lemma first_pass_holds q overscan quant tk (chunk : list scan_entry) :
  holds (fun x => x.2 ∈ chunk) (first_pass s q overscan quant tk chunk).
Proof.
  assert (forall (step : TopK (T := scan_entry) -> scan_entry -> result query_error (TopK (T := scan_entry))) k,
    (forall t e t', step t e = Ok t' -> forall x, x ∈ tk_heap t' -> x ∈ tk_heap t \/ x.2 = e) ->
    holds (fun x => x.2 ∈ chunk) (walk step tk chunk (TopK_new k))) as Hwalk.
  { intros step k Hstep t Ht. unfold walk in Ht.
    assert (forall i blocks t0, walk_blocks step tk i blocks t0 = Ok t -> forall x, x ∈ tk_heap t ->
      x ∈ tk_heap t0 \/ x.2 ∈ mjoin blocks) as Hb.
    { intros i blocks. revert i. induction blocks as [|b bs IH]; intros i t0; cbn [walk_blocks].
      { intros [= <-]. by left. }
      destruct (tk i); [done|]. destruct (walk_block step b t0) as [t1|] eqn:Eb; [|done]. cbn [res_bind].
      intros Hrest x Hx. change (mjoin (b :: bs)) with (b ++ mjoin bs). rewrite elem_of_app.
      destruct (IH _ _ Hrest x Hx) as [Hx1|]; [|by do 2 right].
      clear - Hstep Eb Hx1. revert t0 Eb. induction b as [|e b IHb]; intros t0; cbn; [intros [= <-]; by left|].
      destruct (step t0 e) as [t2|] eqn:Es; [|done]. cbn. intros Eb.
      destruct (IHb _ Eb) as [Hx|[Hx|Hx]].
      - destruct (Hstep _ _ _ Es x Hx) as [|<-]; [by left|right; left; by left].
      - right. left. by right.
      - by do 2 right. }
    intros x Hx. destruct (Hb 0%nat (chunks CHECK_EVERY chunk) (TopK_new k) Ht x Hx) as [Hn|Hj];
      [by apply elem_of_nil in Hn|]. rewrite chunks_join in Hj by (unfold CHECK_EVERY; lia). exact Hj. }
  destruct quant as [st|st]; apply Hwalk; intros t e t'; [unfold score_row_i8|unfold score_row_bin].
  - destruct (code_row _ _ _); [|intros [= <-]; by left]. destruct (score_i8 _ _ _); [|done]. intros [= <-] x Hx.
    apply offer_sub, elem_of_cons in Hx as [->|Hx]; [by right|by left].
  - destruct (code_row _ _ _); [|intros [= <-]; by left]. intros [= <-] x Hx.
    apply offer_sub, elem_of_cons in Hx as [->|Hx]; [by right|by left].
Qed.

Lemma rerank_offers q opts l t :
  foldl (rerank_row s q opts) t l = offers item_cmp t (omap (fun c => full_score s q opts c.2) l).
Proof.
  revert t. induction l as [|c l IH]; intros t; [done|]. cbn [foldl]. rewrite IH. cbn [omap list_omap].
  unfold rerank_row, full_score at 2. by destruct (below _ _).
Qed.

Lemma two_pass_genuine q scan opts workers quant hits :
  (forall e, e ∈ scan -> is_candidate s names (so_filter opts) e) ->
  two_pass tok s q scan opts workers quant = Ok hits -> Forall (genuine q opts) hits.
Proof.
  intros Hscan. unfold two_pass. set (r := if (1 <? workers)%nat then _ else _).
  assert (holds (fun x => x.2 ∈ scan) r) as Hr.
  { unfold r. destruct (_ <? _)%nat; [|apply first_pass_holds].
    apply parallel_holds. intros tk chunk Hsub t Ht x Hx. by apply Hsub, (first_pass_holds _ _ _ _ _ _ Ht). }
  destruct r as [tq|]; [|done]. cbn [res_bind]. intros [= <-]. apply Forall_forall. intros h Hh.
  apply list_elem_of_fmap in Hh as (x & -> & Hx). exists x. split; [|done].
  apply (sorted_desc_elem item_cmp) in Hx.
  rewrite rerank_offers in Hx. apply offers_sub in Hx. rewrite app_nil_r in Hx.
  apply list_elem_of_omap in Hx as (c & Hc & Hs). exists c.2. split; [|done].
  apply Hscan. apply (Hr tq eq_refl). by apply (sorted_desc_elem row_item_cmp).
Qed.

(** A walked row is the row of a candidate, at its exact score. *)
Lemma walked_entry m q opts row x : walked s m names q opts row = Some x ->
  exists e, e.1 = row /\ is_candidate s names (so_filter opts) e /\ full_score s q opts e = Some x.
Proof.
  unfold walked. destruct (m !! row) as [[[[c id] nm]|]|]; [|done..].
  case_bool_decide as Hnm; [|done]. case_bool_decide as Hc; [|done]. cbn [negb].
  destruct (st_collections s !! c ≫= _) as [entry|] eqn:Ed; [|done]. apply bind_Some in Ed as (col & Hcol & Hd).
  case_bool_decide as Hr; [|done]. cbn [negb]. destruct (matches _ _) eqn:Hm; [|done]. cbn [negb]. intros Hx.
  exists (row, (c, id)). split; [done|]. split; [by exists col, entry|]. unfold full_score. cbn [fst snd].
  assert (ranked_score s (so_rank_by opts) (score_fn s q (segments_row row (st_data s))) c id =
    adjust (so_rank_by opts) (score_fn s q (segments_row row (st_data s))) (de_attrs entry)) as ->; [|done].
  unfold ranked_score. rewrite (attrs_of_doc _ _ _ _ _ Hcol Hd). by destruct (so_rank_by opts).
Qed.
Lemma walked_genuine q opts row x :
  walked s (ca_row_to_doc ca) names q opts row = Some x -> genuine_entry q opts x.
Proof. intros (e & _ & Hc & Hx)%walked_entry. by exists e. Qed.

Lemma offer_candidates_sub q opts candidates t x :
  x ∈ tk_heap (offer_candidates s ca names q opts candidates t) -> genuine_entry q opts x \/ x ∈ tk_heap t.
Proof.
  unfold offer_candidates. revert t. induction candidates as [|c l IH]; intros t; [by right|]. cbn [foldl].
  intros Hx%IH. destruct Hx as [|Hx]; [by left|].
  destruct (walked _ _ _ _ _ _) as [y|] eqn:E; [|by right].
  apply offer_sub, elem_of_cons in Hx as [->|Hx]; [|by right]. left. destruct y. by eapply walked_genuine.
Qed.

Lemma hits_genuine q opts (t : TopK (T := item)) :
  (forall x, x ∈ tk_heap t -> genuine_entry q opts x) ->
  Forall (genuine q opts) (hits_from_topk s t (so_projection opts)).
Proof. intros Ht. apply (topk_genuine q opts (Ok t)); [|done]. by intros t' [= <-]. Qed.

Lemma search_ann_genuine q opts hits : search_ann tok s ca names q opts = Ok hits -> Forall (genuine q opts) hits.
Proof.
  unfold search_ann. destruct (ca_ann ca) as [ann|]; [|by intros [= <-]].
  destruct (_ =? 0)%nat; [by intros [= <-]|]. cbn zeta.
  assert (forall c, Forall (genuine q opts) (hits_from_topk s
    (offer_candidates s ca names q opts c (TopK_new (so_top_k opts))) (so_projection opts))) as Hw.
  { intros c. apply hits_genuine. intros x [?|Hx]%offer_candidates_sub; [done|by apply elem_of_nil in Hx]. }
  destruct (_ || _); [|intros [= <-]; apply Hw].
  unfold collect_selective_scan. destruct (_ <? length _)%nat; [intros [= <-]; apply Hw|].
  apply rank_scan_genuine. intros e He. rewrite sort_unstable_perm in He. by apply matching_elem.
Qed.

Lemma search_segmented_genuine q opts hits :
  search_segmented tok s ca names q opts = Ok hits -> Forall (genuine q opts) hits.
Proof.
  unfold search_segmented. destruct (_ =? 0)%nat; [by intros [= <-]|]. cbn zeta.
  destruct (rank_scan _ _ _ _ _) as [h1|] eqn:E; [|done]. cbn [res_bind]. intros [= <-].
  apply Forall_forall. intros h Hh%elem_of_take_in. rewrite sort_by_perm in Hh.
  apply elem_of_app in Hh as [Hh|Hh].
  - eapply Forall_forall in Hh; [exact Hh|]. eapply rank_scan_genuine; [|exact E].
    intros e He. rewrite sort_unstable_perm in He. apply list_elem_of_In, filter_In in He as [He _].
    by apply list_elem_of_In, matching_elem in He.
  - eapply Forall_forall in Hh; [exact Hh|]. apply hits_genuine.
    assert (forall l (t : TopK (T := item)), (forall x, x ∈ tk_heap t -> genuine_entry q opts x) ->
      forall x, x ∈ tk_heap (foldl (fun t ix => offer_candidates s ca names q opts (ix q
        (n_candidates (Nat.max (a_overscan AnnConfig_ivf) 1) opts)) t) t l) -> genuine_entry q opts x) as Hl.
    { induction l as [|ix l IH]; intros t Ht; [done|]. cbn [foldl]. apply IH.
      intros x [?|?]%offer_candidates_sub; [done|by apply Ht]. }
    apply Hl. by intros x ?%elem_of_nil.
Qed.

Lemma search_exact_genuine q opts hits :
  findex_faithful s -> cache_ok s (ca_scan_order ca) -> NoDup names ->
  search_exact tok s ca names q opts = Ok hits -> Forall (genuine q opts) hits.
Proof.
  intros Hf Hc Hnd. unfold search_exact. set (scan := sorted_scan _ _ _ _).
  assert (forall e, e ∈ scan -> is_candidate s names (so_filter opts) e) as Hscan.
  { intros e He. unfold scan in He. rewrite sorted_scan_perm in He by done. by apply matching_elem. }
  destruct (if so_exact opts then None else _) as [res|] eqn:E; [|by apply rank_scan_genuine].
  destruct (so_exact opts); [done|]. unfold search_quantized in E. destruct (_ =? 0)%nat; [done|].
  destruct (ca_quant ca) as [qt|]; [|done]. case_bool_decide; [done|]. injection E as <-.
  by apply two_pass_genuine.
Qed.
End genuine.

(** ** Named vectors *)

(** The rows of each document lie apart from those of the others, as an upsert
    and a compaction lay them: none between two rows of another. *)
Definition rows_apart (s : Store) : Prop :=
  forall (k1 k2 : item) col1 col2 e1 e2 n1 n2 n3 (a b r : nat),
    st_collections s !! k1.1 = Some col1 -> cl_docs col1 !! k1.2 = Some e1 ->
    st_collections s !! k2.1 = Some col2 -> cl_docs col2 !! k2.2 = Some e2 -> k1 <> k2 ->
    de_rows e1 !! n1 = Some a -> de_rows e1 !! n2 = Some b -> de_rows e2 !! n3 = Some r -> ~ (a <= r <= b)%nat.

Definition key_is (key : item) (x : named_entry) : bool := bool_decide (x.1.2 = key).

Section runs.
Context (scan : list named_entry).

Lemma runs_elem r : r ∈ runs scan -> exists e, head r = Some e /\ e ∈ scan /\ Forall (fun x => x.1.2 = run_key r) r.
Proof.
  assert (forall n l, (length l <= n)%nat -> r ∈ runs l -> exists e, head r = Some e /\ e ∈ l /\ Forall (fun x => x.1.2 = run_key r) r) as Hn.
  { induction n as [|n IH]; intros l Hl Hr; (destruct l as [|e l]; [by apply elem_of_nil in Hr|]); [cbn in Hl; lia|].
    rewrite runs_cons in Hr. apply elem_of_cons in Hr as [->|Hr].
    - exists e. split_and!; [done|by left|]. constructor; [done|]. eapply Forall_impl; [apply take_while_all|].
      intros x Hx. unfold same_record in Hx. by apply bool_decide_eq_true in Hx.
    - destruct (IH (skip_while (same_record e) l)) as (x & Hx & Hin & Hf); [|done|].
      { pose proof (length_skip_while (same_record e) l). cbn in Hl. lia. }
      exists x. split_and!; [done| |done]. right. rewrite <- (take_skip_while (same_record e) l). apply elem_of_app. by right. }
  intros Hr. by eapply Hn.
Qed.
End runs.

(** In a scan by rows that lie apart, each run is all of its record. *)
Lemma runs_whole (scan : list named_entry) :
  StronglySorted (fun x y : named_entry => x.1.1 <= y.1.1)%nat scan ->
  (forall x y z, x ∈ scan -> y ∈ scan -> z ∈ scan -> x.1.2 = y.1.2 -> z.1.2 <> x.1.2 -> ~ (x.1.1 <= z.1.1 <= y.1.1)%nat) ->
  forall r, r ∈ runs scan -> r = List.filter (key_is (run_key r)) scan.
Proof.
  remember (length scan) as n eqn:En. revert scan En. induction n as [n IH] using lt_wf_ind. intros [|e l] En Hs Hap r Hr; [by apply elem_of_nil in Hr|].
  rewrite runs_cons in Hr. pose proof (take_skip_while (same_record e) l) as Hl.
  set (run := take_while (same_record e) l) in *. set (rest := skip_while (same_record e) l) in *.
  assert (Forall (fun x => x.1.2 = e.1.2) run) as Hrun.
  { eapply Forall_impl; [apply take_while_all|]. intros x Hx. unfold same_record in Hx. by apply bool_decide_eq_true in Hx. }
  assert (Forall (fun x => x.1.2 <> e.1.2) rest) as Hrest.
  { destruct rest as [|z rest'] eqn:Er; [constructor|]. pose proof (skip_while_head _ _ _ _ Er) as Hz.
    unfold same_record in Hz. apply bool_decide_eq_false in Hz. rewrite Forall_forall. intros y Hy Hk.
    apply StronglySorted_inv in Hs as [Hs Hle]. rewrite <- Hl in Hs, Hle. rewrite Forall_app, Forall_cons in Hle. destruct Hle as (_ & Hez & _).
    apply (Hap e y z); rewrite <- ?Hl; [by left|right; apply elem_of_app; by right|right; apply elem_of_app; right; by left|done|done|].
    split; [done|]. apply elem_of_cons in Hy as [->|Hy]; [done|].
    clear - Hs Hy. induction run as [|x run IHr]; cbn in Hs; [|apply StronglySorted_inv in Hs as [Hs _]; by apply IHr].
    apply StronglySorted_inv in Hs as [_ Hf]. rewrite Forall_forall in Hf. by apply Hf. }
  assert (forall k (l : list named_entry), Forall (fun x => x.1.2 <> k) l -> List.filter (key_is k) l = []) as Hnone.
  { intros k l0 Hf. induction Hf as [|x l0 Hx _ IHl]; [done|]. cbn. unfold key_is at 1. by rewrite bool_decide_eq_false_2. }
  assert (forall k (l : list named_entry), Forall (fun x => x.1.2 = k) l -> List.filter (key_is k) l = l) as Hall.
  { intros k l0 Hf. induction Hf as [|x l0 Hx _ IHl]; [done|]. cbn. unfold key_is at 1. rewrite bool_decide_eq_true_2 by done. by rewrite IHl. }
  rewrite <- Hl. change (e :: run ++ rest) with ((e :: run) ++ rest). rewrite List.filter_app. apply elem_of_cons in Hr as [->|Hr].
  - change (run_key (e :: run)) with e.1.2. rewrite Hall by (by constructor). by rewrite (Hnone _ rest), app_nil_r.
  - rewrite <- Hl in Hs. change (e :: run ++ rest) with ((e :: run) ++ rest) in Hs.
    assert (StronglySorted (fun x y : named_entry => x.1.1 <= y.1.1)%nat rest) as Hsr.
    { clear - Hs. induction (e :: run) as [|x l0 IHl]; [done|]. cbn in Hs. apply StronglySorted_inv in Hs as [Hs _]. by apply IHl. }
    destruct (runs_elem rest r Hr) as (x & Hx & Hin & _).
    assert (run_key r = x.1.2) as Ek by (unfold run_key; by rewrite Hx).
    rewrite Hnone, app_nil_l.
    + eapply (IH (length rest)); [|done|done| |done].
      * rewrite En. cbn. rewrite <- Hl, length_app. lia.
      * intros a b c Ha Hb Hc. apply Hap; rewrite <- ?Hl; right; apply elem_of_app; by right.
    + rewrite Ek. rewrite Forall_forall in Hrest. specialize (Hrest x Hin). constructor; [congruence|].
      eapply Forall_impl; [exact Hrun|]. cbn. congruence.
Qed.

Lemma filter_sorted {A} (R : A -> A -> Prop) p l : StronglySorted R l -> StronglySorted R (List.filter p l).
Proof.
  intros Hs. induction Hs as [|x l Hs IH Hf]; [constructor|]. cbn. destruct (p x); [|done]. constructor; [done|].
  apply Forall_forall. intros y [Hy _]%list_elem_of_In%filter_In. rewrite <- list_elem_of_In in Hy. rewrite Forall_forall in Hf. by apply Hf.
Qed.

Section named_genuine.
Context `{UnicodeAlnum} `{RegexEngine} `{RegexSyntax} `{!RegexLaws} `{HashOrder} `{SortUnstable} `{Powf}.
Context (tok : nat -> nat -> bool) (s : Store) (names : list rstring).

(** A live document of the scope that passes the filter. *)
Definition live_entry (filter : Filter) (key : item) (e : DocEntry) : Prop :=
  exists col, key.1 ∈ names /\ st_collections s !! key.1 = Some col /\ cl_docs col !! key.2 = Some e /\
    matches filter (de_attrs e) = true.
Definition named_reduce (opts : SearchOpts) : NamedReduce :=
  {| nr_weights := map (name_weight opts) (so_names opts); nr_pool := so_pool opts |}.

(** A hit by named vectors: the pooled score of the rows its document has under
    the names asked for, in the order of the rows. *)
Definition genuine_named (q : list f32) (opts : SearchOpts) (h : Hit) : Prop :=
  exists key e rows score, live_entry (so_filter opts) key e /\
    rows ≡ₚ named_rows (so_names opts) key.1 (key.2, e) /\ StronglySorted (fun x y : named_entry => x.1.1 <= y.1.1)%nat rows /\
    pooled (st_data s) q (score_fn s) (named_reduce opts) rows = Some score /\ reaches (so_min_score opts) score = true /\
    h = hit_of s (so_projection opts) (score, key).

Lemma named_rows_elem ns c ie x : x ∈ named_rows ns c ie <->
  x.1.2 = (c, ie.1) /\ exists n, ns !! x.2 = Some n /\ de_rows ie.2 !! n = Some x.1.1.
Proof.
  unfold named_rows. rewrite list_elem_of_omap. split.
  - intros ([i n] & Hin & Hx). apply list_elem_of_lookup in Hin as [j Hj]. rewrite list_lookup_imap in Hj.
    destruct (ns !! j) as [n'|] eqn:En; [|done]. injection Hj as <- <-. cbn in Hx.
    destruct (de_rows ie.2 !! n') as [row|] eqn:Er; [|done]. injection Hx as <-. split; [done|]. by exists n'.
  - destruct x as [[row k] i]. cbn. intros (-> & n & Hn & Hr). exists (i, n). split.
    + apply (list_elem_of_lookup_2 _ i). by rewrite list_lookup_imap, Hn.
    + cbn. by rewrite Hr.
Qed.
Lemma named_rows_nodup ns c ie : NoDup (named_rows ns c ie).
Proof.
  unfold named_rows. apply (NoDup_fmap_1 snd).
  assert (forall k, NoDup (omap (fun ni : nat * rstring => (fun row => (row, (c, ie.1), ni.1)) <$> de_rows ie.2 !! ni.2) (imap (fun i n => (i + k, n)%nat) ns)).*2 /\
    forall i, i ∈ (omap (fun ni : nat * rstring => (fun row => (row, (c, ie.1), ni.1)) <$> de_rows ie.2 !! ni.2) (imap (fun i n => (i + k, n)%nat) ns)).*2 -> (k <= i)%nat) as Hk.
  { induction ns as [|n ns IH]; intros k; [split; [constructor|by intros i ?%elem_of_nil]|]. cbn [imap].
    assert (imap ((fun i n0 => (i + k, n0)%nat) ∘ S) ns = imap (fun i n0 => (i + S k, n0)%nat) ns) as E
      by (apply imap_ext; intros; cbn; f_equal; lia).
    rewrite E. destruct (IH (S k)) as [Hnd Hge]. cbn. destruct (de_rows ie.2 !! n) as [row|]; cbn.
    - split.
      + constructor; [|done]. intros Hin%Hge. lia.
      + intros i [->|Hin%Hge]%elem_of_cons; lia.
    - split; [done|]. intros i Hin%Hge. lia. }
  destruct (Hk 0%nat) as [Hnd _].
  assert (imap (fun i n => (i + 0, n)%nat) ns = imap pair ns) as <-; [|done]. apply imap_ext. intros. cbn. f_equal. lia.
Qed.

Lemma named_doc_rows filter ns c ie : named_doc filter ns c ie = if matches filter (de_attrs ie.2) then named_rows ns c ie else [].
Proof.
  unfold named_doc. destruct (matches filter (de_attrs ie.2)); [|by rewrite orb_true_r]. rewrite orb_false_r.
  case_bool_decide as He; [|done]. destruct (named_rows ns c ie) as [|x l] eqn:E; [done|].
  assert (x ∈ named_rows ns c ie) as Hx by (rewrite E; by left). apply named_rows_elem in Hx as (_ & n & _ & Hr).
  rewrite He, lookup_empty in Hr. done.
Qed.

Lemma named_scan_elem filter ns x : x ∈ named_scan s names filter ns <->
  exists e, live_entry filter x.1.2 e /\ x ∈ named_rows ns x.1.2.1 (x.1.2.2, e).
Proof.
  unfold named_scan. rewrite sort_unstable_perm. split.
  - intros (l & Hx & Hl)%list_elem_of_join. apply list_elem_of_fmap in Hl as ([c col] & -> & Hin). apply in_scope_elem in Hin as [Hn Hcol].
    apply list_elem_of_join in Hx as (l & Hx & Hl). apply list_elem_of_fmap in Hl as ([id e] & -> & Hd). apply docs_entries_elem in Hd. cbn in *.
    rewrite named_doc_rows in Hx. cbn in Hx. destruct (matches filter (de_attrs e)) eqn:Hm; [|by apply elem_of_nil in Hx].
    pose proof Hx as Hk. apply named_rows_elem in Hk as [Hk _]. cbn in Hk. rewrite Hk. exists e. split; [|exact Hx].
    exists col. by split_and!.
  - intros (e & (col & Hn & Hcol & Hd & Hm) & Hx). apply list_elem_of_join.
    exists (mjoin (map (named_doc filter ns x.1.2.1) (docs_entries col))). split.
    + apply list_elem_of_join. exists (named_doc filter ns x.1.2.1 (x.1.2.2, e)). split.
      * rewrite named_doc_rows. cbn. by rewrite Hm.
      * apply list_elem_of_fmap. exists (x.1.2.2, e). split; [done|]. by apply docs_entries_elem.
    + apply list_elem_of_fmap. exists (x.1.2.1, col). split; [done|]. by apply in_scope_elem.
Qed.

Lemma named_scan_nodup filter ns : NoDup names -> NoDup (named_scan s names filter ns).
Proof.
  intros Hnd. unfold named_scan. rewrite sort_unstable_perm.
  assert (forall x c ie, x ∈ named_doc filter ns c ie -> x.1.2 = (c, ie.1)) as Hkey.
  { intros x c ie. rewrite named_doc_rows. destruct (matches _ _); [|by intros ?%elem_of_nil]. by intros [? _]%named_rows_elem. }
  assert (forall A B (f : A -> list B) l, mjoin (map f l) = l ≫= f) as Hb.
  { intros A B f l. induction l as [|x l IH]; [done|]. change (mjoin (map f (x :: l))) with (f x ++ mjoin (map f l)). by rewrite IH. }
  rewrite Hb. apply NoDup_bind.
  - intros [c1 col1] [c2 col2] x [_ Hc1]%in_scope_elem [_ Hc2]%in_scope_elem. rewrite !Hb. intros (i1 & E1 & _)%list_elem_of_bind (i2 & E2 & _)%list_elem_of_bind.
    apply Hkey in E1, E2. rewrite E1 in E2. cbn in *. injection E2 as -> _. rewrite Hc1 in Hc2. by injection Hc2 as ->.
  - intros [c col] _. rewrite Hb. apply NoDup_bind.
    + intros [i1 e1] [i2 e2] x Hd1%docs_entries_elem Hd2%docs_entries_elem E1%Hkey E2%Hkey. rewrite E1 in E2. cbn in *. injection E2 as ->.
      rewrite Hd1 in Hd2. by injection Hd2 as ->.
    + intros ie _. rewrite named_doc_rows. destruct (matches _ _); [apply named_rows_nodup|constructor].
    + eapply NoDup_fmap_1, docs_entries_nodup.
  - eapply NoDup_fmap_1. by apply in_scope_nodup.
Qed.

Lemma named_scan_sorted filter ns : StronglySorted (fun x y : named_entry => x.1.1 <= y.1.1)%nat (named_scan s names filter ns).
Proof.
  unfold named_scan. match goal with |- StronglySorted _ (sort_unstable _ ?l) => pose proof (sort_unstable_sorted by_named_row l _) as Hs end.
  induction Hs as [|x l Hs IH Hf]; [constructor|]. constructor; [done|]. eapply Forall_impl; [exact Hf|].
  intros y. unfold cmp_le, by_named_row, cmp_on. destruct (Nat.compare_spec x.1.1 y.1.1); [lia|lia|done].
Qed.

Lemma named_holds filter ns q min_score reduce workers k :
  holds (fun x => exists r, r ∈ runs (named_scan s names filter ns) /\ run_score (st_data s) q (score_fn s) min_score reduce r = Some x)
    (if (1 <? workers)%nat
     then parallel_topk_grouped item_cmp tok (named_scan s names filter ns) workers k
            (fun tk chunk => score_chunk_named (st_data s) q (score_fn s) min_score reduce tk chunk k)
     else score_chunk_named (st_data s) q (score_fn s) min_score reduce (tok 0%nat) (named_scan s names filter ns) k).
Proof.
  set (scan := named_scan s names filter ns).
  assert (forall tk chunk t, score_chunk_named (st_data s) q (score_fn s) min_score reduce tk chunk k = Ok t ->
    forall x, x ∈ tk_heap t -> exists r, r ∈ runs chunk /\ run_score (st_data s) q (score_fn s) min_score reduce r = Some x) as Hone.
  { intros tk chunk t Et x Hx. destruct (score_chunk_named_offers (st_data s) q (score_fn s) min_score reduce k tk chunk) as [E|[E _]]; [|congruence].
    rewrite Et in E. injection E as ->. apply offers_sub in Hx. rewrite app_nil_r in Hx. by apply list_elem_of_omap in Hx. }
  destruct (_ <? _)%nat; [|intros t Et x Hx; by eapply Hone].
  unfold parallel_topk_grouped. destruct (join_workers _ _ _ _) as [ts|] eqn:E; [|done]. apply merge_holds. intros t Ht x Hx.
  destruct (join_workers_ok _ _ _ _ _ E t Ht) as (tk & p & Hp & Es). destruct (Hone _ _ _ Es x Hx) as (r & Hr & Hs). exists r. split; [|done].
  rewrite <- (aligned_runs scan workers). apply list_elem_of_join. exists (runs p). split; [done|]. by apply list_elem_of_fmap_2.
Qed.

Lemma rank_scan_named_genuine q opts hits :
  NoDup names -> rows_apart s ->
  rank_scan_named tok s q (named_scan s names (so_filter opts) (so_names opts)) opts = Ok hits -> Forall (genuine_named q opts) hits.
Proof.
  intros Hnd Hap. unfold rank_scan_named. fold (named_reduce opts). cbn zeta. set (scan := named_scan _ _ _ _).
  match goal with |- context [res_bind ?r _] => destruct r as [t|] eqn:Er; [|done] end. cbn [res_bind]. intros [= <-].
  apply Forall_forall. intros h Hh. apply list_elem_of_fmap in Hh as (x & -> & Hx). apply (sorted_desc_elem item_cmp) in Hx.
  destruct (named_holds _ _ _ _ _ _ _ t Er x Hx) as (r & Hr & Hs).
  assert (r = List.filter (key_is (run_key r)) scan) as Hw.
  { apply runs_whole; [apply named_scan_sorted| |done]. intros a b c (e1 & (col1 & _ & Hc1 & Hd1 & _) & Ha)%named_scan_elem
      (e2 & (col2 & _ & Hc2 & Hd2 & _) & Hb)%named_scan_elem (e3 & (col3 & _ & Hc3 & Hd3 & _) & Hc)%named_scan_elem Hab Hca.
    rewrite <- Hab in *. rewrite Hc1 in Hc2. injection Hc2 as <-. rewrite Hd1 in Hd2. injection Hd2 as <-.
    apply named_rows_elem in Ha as (_ & n1 & _ & Hr1), Hb as (_ & n2 & _ & Hr2), Hc as (_ & n3 & _ & Hr3). cbn in *.
    eapply (Hap a.1.2 c.1.2); [exact Hc1|exact Hd1|exact Hc3|exact Hd3| |exact Hr1|exact Hr2|exact Hr3]. done. }
  destruct (runs_elem scan r Hr) as (y & Hy & Hys & _). assert (run_key r = y.1.2) as Ek by (unfold run_key; by rewrite Hy).
  apply named_scan_elem in Hys as (e & Hl & _). unfold run_score in Hs. destruct (pooled _ _ _ _ r) as [score|] eqn:Ep; [|done].
  destruct (reaches _ score) eqn:Em; [|done]. injection Hs as <-. exists (run_key r), e, r, score. rewrite Ek. split_and!; [done| | |done|done|done].
  - apply NoDup_Permutation; [rewrite Hw; apply NoDup_filter_bool; by apply named_scan_nodup|apply named_rows_nodup|].
    intros z. rewrite Hw, Ek, list_elem_of_In, filter_In, <- list_elem_of_In. unfold key_is, scan. rewrite bool_decide_eq_true, named_scan_elem. split.
    + intros [(e' & (col' & _ & Hc' & Hd' & _) & Hz) Hk]. rewrite Hk in *. destruct Hl as (col & _ & Hc & Hd & _).
      rewrite Hc in Hc'. injection Hc' as <-. rewrite Hd in Hd'. by injection Hd' as <-.
    + intros Hz. pose proof Hz as Hz'. apply named_rows_elem in Hz' as [Hk _]. cbn in Hk. rewrite <- surjective_pairing in Hk. split; [|done].
      exists e. by rewrite Hk.
  - rewrite Hw. apply filter_sorted, named_scan_sorted.
Qed.
End named_genuine.

(** ** The tail *)

Lemma cap_loop_sublist s cap seen hits : cap_loop s cap seen hits `sublist_of` hits.
Proof.
  revert seen. induction hits as [|h hits IH]; intros seen; [done|]. cbn [cap_loop].
  destruct (cap_step s cap seen h) as [[|] seen']; cbn; by constructor.
Qed.

Lemma cap_loop_sub s cap seen hits : cap_loop s cap seen hits ⊆ hits.
Proof.
  revert seen. induction hits as [|h hits IH]; intros seen; [done|]. cbn [cap_loop].
  destruct (cap_step s cap seen h) as [keep seen']. cbn. specialize (IH seen').
  destruct keep; set_solver.
Qed.

Lemma diversify_sub s lambda ns ranked : diversify s lambda ns ranked ⊆ ranked.
Proof. intros h. by rewrite (diversify_perm s lambda ns ranked). Qed.

Lemma paginate_drop {A} (l : list A) offset : paginate l offset = drop offset l.
Proof.
  unfold paginate. destruct (Nat.eqb_spec offset 0) as [->|_]; [done|].
  destruct (Nat.leb_spec (length l) offset); [|done]. by rewrite drop_ge.
Qed.

Lemma mapM_length {A B} (f : A -> option B) l l' : mapM f l = Some l' -> length l' = length l.
Proof.
  revert l'. induction l as [|x l IH]; intros l'; cbn; [by intros [= <-]|].
  destruct (f x); [|done]. cbn. destruct (mapM f l) as [k|]; [|done]. cbn. intros [= <-]. cbn. by rewrite (IH k).
Qed.

Lemma mapM_elem {A B} (f : A -> option B) l l' y : mapM f l = Some l' -> y ∈ l' -> exists x, x ∈ l /\ f x = Some y.
Proof.
  revert l'. induction l as [|x l IH]; intros l'; cbn; [by intros [= <-] ?%elem_of_nil|].
  destruct (f x) as [z|] eqn:E; [|done]. cbn. destruct (mapM f l) as [k|]; [|done]. cbn. intros [= <-].
  intros [->|Hy]%elem_of_cons; [exists x; split; [by left|done]|].
  destruct (IH k eq_refl Hy) as (x' & ? & ?). exists x'. split; [by right|done].
Qed.

Section finishing.
Context `{HashOrder}.

Lemma expand_hits_sub s hits e hits' : expand_hits s hits e = Some hits' ->
  length hits' = length hits /\
  forall h, h ∈ hits' -> exists h0, h0 ∈ hits /\ set_context None h = set_context None h0.
Proof.
  unfold expand_hits. destruct (forallb _ _); [intros [= <-]; split; [done|]; by eauto|].
  intros Hm. split.
  - rewrite (mapM_length _ _ _ Hm), length_zip_with, length_map. lia.
  - intros h Hh. destruct (mapM_elem _ _ _ _ Hm Hh) as ([h0 w] & Hin & He). exists h0.
    split; [by apply elem_of_zip_l in Hin|]. unfold expand_hit in He. cbn [fst snd] in He.
    destruct w as [[p i]|]; [|by injection He as ->]. destruct (_ !! _); [|by injection He as ->].
    apply fmap_Some in He as (ps & _ & ->). done.
Qed.

Lemma finish_sub s ranked opts hits : finish s ranked opts = Ok hits ->
  (length hits <= so_top_k opts)%nat /\
  forall h, h ∈ hits -> exists h0, h0 ∈ ranked /\ set_context None h = set_context None h0.
Proof.
  unfold finish. set (capped := match so_limit_per opts with Some _ => _ | None => _ end).
  set (spread := match so_diversity opts with Some _ => _ | None => _ end).
  assert (spread ⊆ ranked) as Hsub.
  { assert (capped ⊆ ranked) as Hc by (unfold capped; destruct (so_limit_per opts); [apply cap_loop_sub|done]).
    unfold spread. destruct (so_diversity opts); [|done]. etrans; [apply diversify_sub|done]. }
  set (page := take _ _). assert (page ⊆ ranked) as Hpage.
  { intros h Hh%elem_of_take_in. apply Hsub. rewrite paginate_drop in Hh.
    rewrite <- (take_drop (so_offset opts) spread). apply elem_of_app. by right. }
  assert (length page <= so_top_k opts)%nat as Hlen by (unfold page; rewrite length_take; lia).
  destruct (so_expand opts) as [e|]; [|intros [= <-]; split; [done|]; intros h Hh; exists h; by auto].
  destruct (expand_hits s page e) as [out|] eqn:E; [|done]. intros [= <-].
  apply expand_hits_sub in E as [El Eh]. split; [lia|]. intros h Hh. destruct (Eh h Hh) as (h0 & ? & ?).
  exists h0. by auto.
Qed.

Lemma expand_hit_key pieces radius hw h : expand_hit pieces radius hw = Some h -> hit_key h = hit_key hw.1.
Proof.
  unfold expand_hit. destruct hw.2 as [[p i]|]; [|by intros [= ->]].
  case_match; [|by intros [= ->]]. by intros (ps & _ & ->)%fmap_Some.
Qed.

Lemma expand_hits_keys s hits e hits' : expand_hits s hits e = Some hits' -> hit_key <$> hits' = hit_key <$> hits.
Proof.
  unfold expand_hits. destruct (forallb _ _); [by intros [= <-]|]. set (ws := map _ hits).
  generalize (foldl (add_collection s e) ∅ (bt_entries (foldl want ∅ (zip hits ws)))). intros pieces Hm.
  apply mapM_Some in Hm. assert (hit_key <$> hits' = (fun hw => hit_key hw.1) <$> zip hits ws) as ->.
  { induction Hm as [|hw h l l' E _ IH]; [done|]. cbn. f_equal; [exact (expand_hit_key _ _ _ _ E)|exact IH]. }
  transitivity (hit_key <$> (zip hits ws).*1); [by rewrite <- list_fmap_compose|].
  rewrite fst_zip; [done|]. unfold ws. by rewrite length_map.
Qed.

(** The tail names no hit twice. *)
Lemma finish_keys s ranked opts hits :
  finish s ranked opts = Ok hits -> NoDup (hit_key <$> ranked) -> NoDup (hit_key <$> hits).
Proof.
  unfold finish. set (capped := match so_limit_per opts with Some _ => _ | None => _ end).
  set (spread := match so_diversity opts with Some _ => _ | None => _ end). intros Hf Hnd.
  assert (hit_key <$> hits ⊆+ hit_key <$> ranked) as Hsub.
  2:{ apply submseteq_Permutation in Hsub as [k Hk]. rewrite Hk in Hnd. by apply NoDup_app in Hnd as [? _]. }
  assert (capped ⊆+ ranked) as Hc.
  { unfold capped. destruct (so_limit_per opts); [apply sublist_submseteq, cap_loop_sublist|done]. }
  assert (spread ⊆+ ranked) as Hs.
  { unfold spread. destruct (so_diversity opts); [|done]. by rewrite diversify_perm. }
  assert (forall page, page = take (so_top_k opts) (paginate spread (so_offset opts)) ->
    hit_key <$> page ⊆+ hit_key <$> ranked) as Hp.
  { intros page ->. apply (fmap_submseteq hit_key). etrans; [apply submseteq_take|]. rewrite paginate_drop.
    etrans; [apply submseteq_drop|exact Hs]. }
  destruct (so_expand opts) as [e|]; [|injection Hf as <-; by apply Hp].
  destruct (expand_hits s _ e) as [out|] eqn:E; [|done]. injection Hf as <-.
  rewrite (expand_hits_keys _ _ _ _ E). by apply Hp.
Qed.
End finishing.

(** A hit of the branch that serves the query. *)
Definition genuine_hit `{UnicodeAlnum} `{RegexEngine} `{RegexSyntax} `{!RegexLaws} `{HashOrder} `{Powf}
    (s : Store) (names : list rstring) (q : list f32) (opts : SearchOpts) (h : Hit) : Prop :=
  match so_names opts with [] => genuine s names q opts h | _ => genuine_named s names q opts h end.

(** What the tail is handed: live documents in scope at their exact scores. *)
Lemma search_genuine `{UnicodeAlnum} `{RegexEngine} `{RegexSyntax} `{!RegexLaws} `{HashOrder}
    `{SortUnstable} `{Powf} (tok : nat -> nat -> bool) (s : Store) (ca : Caches) (names : list rstring)
    (query : list f32) (opts : SearchOpts) (hits : list Hit) :
  (so_names opts <> [] -> rows_apart s) -> NoDup names -> findex_faithful s -> cache_ok s (ca_scan_order ca) ->
  search tok s ca names query opts = Ok hits ->
  exists ranked, finish s ranked opts = Ok hits /\ Forall (genuine_hit s names (normalized s query) opts) ranked.
Proof.
  intros Hap Hnd Hf Hc. unfold search. destruct (check_query_dim s query) as [[]|]; [|done].
  destruct (check_query_opts opts) as [[]|]; [|done]. cbn [res_bind].
  change (so_names (deepened opts)) with (so_names opts). case_bool_decide as Hn; cbn [negb]; cycle 1.
  { destruct (rank_scan_named _ _ _ _ _) as [ranked|] eqn:Er; [|done]. intros Hs. exists ranked. split; [exact Hs|].
    apply (rank_scan_named_genuine tok s names _ (deepened opts)) in Er; [|done|by apply Hap].
    unfold genuine_hit. destruct (so_names opts) eqn:E; [done|]. eapply Forall_impl; [exact Er|]. done. }
  set (r := if _ && _ then _ else _). intros Hs. unfold genuine_hit. rewrite Hn.
  assert (exists ranked, r = Ok ranked) as [ranked Er] by (destruct r as [ranked|]; [by eexists|done]).
  rewrite Er in Hs. cbn [res_bind] in Hs. exists ranked. split; [exact Hs|].
  change (Forall (genuine s names (normalized s query) (deepened opts)) ranked). unfold r in Er.
  destruct (bool_decide _ && _); [by eapply search_ann_genuine|].
  destruct (existsb _ _ && _); [by eapply search_segmented_genuine|by eapply search_exact_genuine].
Qed.

(** C4: no path ever returns a wrong hit: whichever branch serves a query — a scan of
    named vectors, an exact scan, the quantised two-pass search, an approximate walk
    or the per-segment fan-out, with whatever the walks, the codes and the reverse map
    hold — at most [top_k] hits come back, and each is a live document of a
    collection in scope that passes the filter, with its attributes projected and at
    its exact score, which reaches the minimum: the score of its row, adjusted by the
    rank expression, or for a query by named vectors, which no rank expression
    adjusts, the weighted scores of its rows of those names, pooled over all of them.
    It is assumed that no collection is given twice in the scope
    ([duplicate_scope_leaks] is the exception), that the filter index and the cached
    scan order describe the store, and for named vectors that the rows of a document
    lie side by side, as a write and a compaction lay them. *)
Theorem search_sound `{UnicodeAlnum} `{RegexEngine} `{RegexSyntax} `{!RegexLaws} `{HashOrder}
    `{SortUnstable} `{Powf} (tok : nat -> nat -> bool) (s : Store) (ca : Caches) (names : list rstring)
    (query : list f32) (opts : SearchOpts) (hits : list Hit) :
  (so_names opts <> [] -> rows_apart s) -> NoDup names -> findex_faithful s -> cache_ok s (ca_scan_order ca) ->
  search tok s ca names query opts = Ok hits ->
  (length hits <= so_top_k opts)%nat /\
  Forall (fun h => genuine_hit s names (normalized s query) opts (set_context None h)) hits.
Proof.
  intros Hap Hnd Hf Hc Hs. destruct (search_genuine tok s ca names query opts hits Hap Hnd Hf Hc Hs) as (ranked & Hfin & Hg).
  apply finish_sub in Hfin as [Hl Hh]. split; [done|]. apply Forall_forall. intros h Hin. destruct (Hh h Hin) as (h0 & Hin0 & ->).
  rewrite Forall_forall in Hg. specialize (Hg h0 Hin0). unfold genuine_hit in *. destruct (so_names opts).
  - destruct Hg as (x & Hx & ->). by exists x.
  - destruct Hg as (key & e & rows & score & K1 & K2 & K3 & K4 & K5 & ->). by exists key, e, rows, score.
Qed.

(** ** Pages *)

(** Nothing reshapes the page. *)
Definition plain_tail (opts : SearchOpts) : Prop :=
  so_limit_per opts = None /\ so_diversity opts = None /\ so_expand opts = None.

Section pages.
Context `{UnicodeAlnum} `{RegexEngine} `{RegexSyntax} `{!RegexLaws} `{HashOrder} `{SortUnstable} `{Powf}.
Context (tok : nat -> nat -> bool) (s : Store) (ca : Caches) (names : list rstring).

(** All the candidates of a query, ranked. *)
Definition ranking (query : list f32) (opts : SearchOpts) : list Hit :=
  map (hit_of s (so_projection opts))
    (sort_by (entry_cmp item_cmp) (omap (full_score s (normalized s query) opts) (matching s names (so_filter opts)))).

Lemma ranking_page query top_k offset cap spread opts :
  ranking query (with_page top_k offset cap spread opts) = ranking query opts.
Proof. unfold ranking, full_score, with_page. cbn [so_projection so_filter so_rank_by so_min_score]. done. Qed.

Lemma reference_take query opts n : reference s names query opts n = take n (ranking query opts).
Proof. unfold reference, ranking, top. by rewrite firstn_map. Qed.

Lemma usize_small n : (N.of_nat n <= usize_max)%N -> usize (N.min (N.of_nat n) usize_max) = n.
Proof. intros Hn. unfold usize. rewrite N.min_l by done. apply Nat2N.id. Qed.

Lemma depth_plain opts :
  plain_tail opts -> (N.of_nat (so_offset opts + so_top_k opts) <= usize_max)%N ->
  depth opts = (so_offset opts + so_top_k opts)%nat.
Proof.
  intros (Hl & Hd & _) Hs. unfold depth. rewrite Hl, Hd. unfold sat_mul, sat_add.
  change (N.of_nat (Nat.max 1 1)) with 1%N. rewrite <- Nat2N.inj_add, N.mul_1_r, (N.min_l (N.of_nat (so_offset opts + so_top_k opts))) by done.
  by apply usize_small.
Qed.

Lemma finish_plain ranked opts :
  plain_tail opts -> finish s ranked opts = Ok (take (so_top_k opts) (drop (so_offset opts) ranked)).
Proof. intros (Hl & Hd & He). unfold finish. by rewrite Hl, Hd, He, paginate_drop. Qed.

Lemma search_plain query opts :
  check_query_dim s query = Ok tt -> check_query_opts opts = Ok tt -> NoDup names ->
  findex_faithful s -> cache_ok s (ca_scan_order ca) -> brute_force ca opts -> plain_tail opts ->
  (N.of_nat (so_offset opts + so_top_k opts) <= usize_max)%N ->
  answers tok (take (so_top_k opts) (drop (so_offset opts) (ranking query opts)))
    (search tok s ca names query opts).
Proof.
  intros Hd Ho Hnd Hf Hc Hb Hp Hs. rewrite search_brute by done.
  pose proof (search_exact_spec tok s ca names (normalized s query) (deepened opts) Hf Hc Hnd
    (brute_exact ca opts Hb)) as Ha.
  destruct (search_exact _ _ _ _ _ _) as [hits|e]; cbn [answers res_bind] in *; [|by destruct Ha as [-> ?]].
  subst hits. rewrite finish_plain by done. cbn [answers].
  change (map _ _) with (reference s names query opts (depth opts)). rewrite reference_take, depth_plain by done.
  rewrite skipn_firstn_comm, take_take, Nat.min_l by lia. done.
Qed.
End pages.

(** C38: pages are slices of one ranking: on the exact path, with no cap, diversity or expansion,
    the page at [offset] of [top_k] hits is that slice of the ranking of
    all candidates, so consecutive pages tile it without gap or overlap — or
    some thread saw the request cancelled. *)
Theorem search_pages `{UnicodeAlnum} `{RegexEngine} `{RegexSyntax} `{!RegexLaws} `{HashOrder}
    `{SortUnstable} `{Powf} (tok : nat -> nat -> bool) (s : Store) (ca : Caches) (names : list rstring)
    (query : list f32) (opts : SearchOpts) (more : nat) :
  check_query_dim s query = Ok tt -> check_query_opts opts = Ok tt -> NoDup names ->
  findex_faithful s -> cache_ok s (ca_scan_order ca) -> brute_force ca opts -> plain_tail opts ->
  (N.of_nat (so_offset opts + so_top_k opts + more) <= usize_max)%N ->
  let page top_k offset :=
    take top_k (drop offset (ranking s names query opts)) in
  answers tok (page (so_top_k opts) (so_offset opts)) (search tok s ca names query opts) /\
  answers tok (page more (so_offset opts + so_top_k opts)%nat)
    (search tok s ca names query (with_page more (so_offset opts + so_top_k opts) None None opts)) /\
  page (so_top_k opts) (so_offset opts) ++ page more (so_offset opts + so_top_k opts)%nat =
  page (so_top_k opts + more)%nat (so_offset opts).
Proof.
  intros Hd Ho Hnd Hf Hc Hb Hp Hs page. unfold page. clear page. split_and!.
  - apply search_plain; [done..|lia].
  - rewrite <- (ranking_page s names query more (so_offset opts + so_top_k opts) None None opts).
    set (opts' := with_page _ _ _ _ _). change more with (so_top_k opts') at 1.
    change (so_offset opts + so_top_k opts)%nat with (so_offset opts') at 1.
    apply search_plain; try done.
    + destruct Hp as (Hl & Hdv & _). unfold opts', check_query_opts in *. cbn. by rewrite Hl, Hdv in Ho.
    + by destruct Hp as (_ & _ & ?).
  - rewrite <- drop_drop. apply take_take_drop.
Qed.

(** ** More like this *)

Definition is_source (collection id : rstring) (h : Hit) : bool :=
  bool_decide (h_collection h = collection /\ h_id h = id).

Lemma filter_all {A} (p : A -> bool) (l : list A) : Forall (fun x => p x = true) l -> List.filter p l = l.
Proof. induction 1 as [|x l Hx _ IH]; cbn; [done|]. by rewrite Hx, IH. Qed.

Lemma take_filter_one {A} (p : A -> bool) (l : list A) n :
  (length (List.filter (fun x => negb (p x)) l) <= 1)%nat ->
  take n (List.filter p (take (S n) l)) = take n (List.filter p l).
Proof.
  revert n. induction l as [|x l IH]; intros n Hl; [done|]. cbn [take List.filter] in *.
  destruct (p x) eqn:E; cbn [negb] in Hl.
  - destruct n as [|n]; [done|]. cbn [take]. f_equal. by apply IH.
  - assert (Forall (fun x => p x = true) l) as Hall.
    { apply Forall_forall. intros y Hy. destruct (p y) eqn:Ey; [done|].
      assert (In y (List.filter (fun x => negb (p x)) l)) as Hin
        by (apply filter_In; split; [by apply list_elem_of_In|by rewrite Ey]).
      cbn in Hl. by destruct (List.filter _ l); [|cbn in Hl; lia]. }
    rewrite (filter_all p l Hall), filter_all; [by rewrite take_take, Nat.min_id|by apply Forall_take].
Qed.

Section similar.
Context `{UnicodeAlnum} `{RegexEngine} `{RegexSyntax} `{!RegexLaws} `{HashOrder} `{SortUnstable} `{Powf}.
Context (tok : nat -> nat -> bool) (s : Store) (ca : Caches) (names : list rstring).

Lemma ranking_keys query opts : NoDup names -> NoDup (map hit_key (ranking s names query opts)).
Proof.
  intros Hnd. unfold ranking. rewrite map_map.
  assert (map (fun x => hit_key (hit_of s (so_projection opts) x))
    (sort_by (entry_cmp item_cmp) (omap (full_score s (normalized s query) opts) (matching s names (so_filter opts)))) =
    (sort_by (entry_cmp item_cmp) (omap (full_score s (normalized s query) opts) (matching s names (so_filter opts)))).*2) as ->.
  { apply map_ext. by intros [v [c i]]. }
  rewrite sort_by_perm. by apply full_score_nodup, matching_nodup.
Qed.

Lemma one_source collection id (l : list Hit) :
  NoDup (map hit_key l) -> (length (List.filter (fun h => negb (negb (is_source collection id h))) l) <= 1)%nat.
Proof.
  induction l as [|h l IH]; cbn; [lia|]. intros [Hh Hnd]%NoDup_cons. rewrite negb_involutive.
  destruct (is_source collection id h) eqn:E; [|by apply IH]. cbn.
  destruct (List.filter _ l) as [|y r] eqn:Ef; [cbn; lia|]. exfalso.
  assert (In y (y :: r)) as Hy by (by left). rewrite <- Ef in Hy. apply filter_In in Hy as [Hy Ey].
  rewrite negb_involutive in Ey. apply bool_decide_eq_true in E as [E1 E2]. apply bool_decide_eq_true in Ey as [E3 E4].
  apply Hh. apply list_elem_of_fmap. exists y. split; [unfold hit_key; congruence|by apply list_elem_of_In].
Qed.
End similar.

(** "more like this" is the search without its source: on the exact path, the answer is
    the page of the ranking for the record's own vector with the record
    itself taken out, wherever it ranked and however many others tie with it —
    or some thread saw the request cancelled. *)
Theorem similar_excludes_source `{UnicodeAlnum} `{RegexEngine} `{RegexSyntax} `{!RegexLaws} `{HashOrder}
    `{SortUnstable} `{Powf} (tok : nat -> nat -> bool) (s : Store) (ca : Caches) (names : list rstring)
    (collection id : rstring) (opts : SearchOpts) (col : Collection) (entry : DocEntry) (row : nat) :
  st_collections s !! collection = Some col -> cl_docs col !! id = Some entry -> primary_row entry = Some row ->
  check_query_dim s (segments_row row (st_data s)) = Ok tt -> check_query_opts opts = Ok tt -> NoDup names ->
  findex_faithful s -> cache_ok s (ca_scan_order ca) -> brute_force ca opts -> plain_tail opts ->
  (N.of_nat (S (so_offset opts + so_top_k opts)) <= usize_max)%N ->
  answers tok
    (take (so_top_k opts) (drop (so_offset opts)
       (List.filter (fun h => negb (is_source collection id h))
          (ranking s names (segments_row row (st_data s)) opts))))
    (search_similar tok s ca names collection id opts).
Proof.
  intros Hcol Hdoc Hrow Hd Ho Hnd Hf Hc Hb Hp Hs. unfold search_similar. rewrite Hcol. cbn [mbind option_bind].
  rewrite Hdoc, Hrow. set (query := segments_row row (st_data s)) in *.
  rewrite (depth_plain opts) by (done || lia). set (d := (so_offset opts + so_top_k opts)%nat).
  assert (usize (sat_add (N.of_nat d) 1) = S d) as ->.
  { unfold sat_add. replace (N.of_nat d + 1)%N with (N.of_nat (S d)) by lia. by apply usize_small. }
  set (wide := with_page (S d) 0 None None opts).
  assert (answers tok (take (S d) (drop 0 (ranking s names query wide))) (search tok s ca names query wide)) as Ha.
  { apply search_plain; try done.
    - destruct Hp as (Hl & Hdv & _). unfold wide, check_query_opts in *. cbn. by rewrite Hl, Hdv in Ho.
    - by destruct Hp as (_ & _ & ?). }
  unfold wide in Ha at 1. rewrite ranking_page, drop_0 in Ha.
  destruct (search tok s ca names query wide) as [ranked|e]; cbn [res_bind answers] in *; [|by destruct Ha as [-> ?]].
  subst ranked. rewrite finish_plain by done. cbn [answers].
  change (fun h => negb (bool_decide (h_collection h = collection /\ h_id h = id)))
    with (fun h => negb (is_source collection id h)).
  set (R := ranking s names query opts). set (p := fun h => negb (is_source collection id h)).
  assert (take d (List.filter p (take (S d) R)) = take d (List.filter p R)) as E
    by (by apply take_filter_one, one_source, ranking_keys).
  assert (forall l : list Hit, take (so_top_k opts) (drop (so_offset opts) l) =
    drop (so_offset opts) (take d l)) as Hcut.
  { intros l. unfold d. rewrite skipn_firstn_comm. f_equal. lia. }
  by rewrite !Hcut, E.
Qed.

(** ** Concrete queries *)

Module Demo.
Import PlainEngine.
#[export] Existing Instance ascii_only_alnum.
#[export] Existing Instance ascii_only_lower.
#[export] Instance flat_powf : Powf := fun _ _ => f32_one.

Definition rowed (row : nat) : DocEntry := {| de_rows := {[DEFAULT_VECTOR := row]}; de_attrs := ∅ |}.
Definition of_docs (docs : list (rstring * DocEntry)) : Collection := set_docs (list_to_map docs) Collection_new.

(** Two collections over the four rows 5, 7, 6 and 7. *)
Definition store : Store :=
  let base := text_store [] in
  {| st_config := {| c_path := c_path (st_config base); c_dimension := 1; c_distance := DotProduct;
       c_fsync := PerBatch; c_open_mode := ReadWrite; c_auto_compact := None; c_lock_ttl := 60;
       c_lease_wait := LwFail; c_max_staleness := None; c_max_vector_bytes := None; c_quantization := None;
       c_ann := None; c_query_threads := 1; c_persistence := []; c_segment_max_rows := None;
       c_segment_index_min_rows := None; c_mmap := false; c_memory := []; c_cluster := false;
       c_strict_embedder_identity := false; c_at_version := None; c_history_versions := c_history_versions (st_config base);
       c_explicit := c_explicit (st_config base) |};
     st_open_profile := st_open_profile base; st_baseline_config := st_config base;
     st_data := ex_rows; st_log := st_log base; st_persistence := false; st_lease := None;
     st_index := {| ix_collections := {[lit "a" := of_docs [(lit "x", rowed 0); (lit "y", rowed 1)];
                                        lit "b" := of_docs [(lit "x", rowed 2); (lit "z", rowed 3)]]};
                    ix_dead_rows := 0; ix_fts := Fts_default; ix_findex := Findex_default |};
     st_aliases := ∅; st_in_memory := true; st_loaded_log_offset := 0; st_manifest_cas := None;
     st_fenced := false; st_defer_barrier := false; st_pending_barrier := false;
     st_pinned := None; st_pruned_through := 0 |}.

Definition opts (top_k offset : nat) : SearchOpts :=
  {| so_top_k := top_k; so_offset := offset; so_filter := Filter_default; so_min_score := None;
     so_exact := true; so_projection := PrAll; so_explain := false; so_plan := false; so_rank_by := None;
     so_limit_per := None; so_diversity := None; so_rerank := None; so_expand := None; so_names := [];
     so_name_weights := ∅; so_pool := PoolMax |}.
Definition caches : Caches :=
  {| ca_quant := None; ca_ann := None; ca_seg_indexes := []; ca_row_to_doc := []; ca_scan_order := None |}.

Lemma faithful : findex_faithful store.
Proof.
  exists 0%nat. assert (live_docs_of store = ∅) as -> by by vm_compute.
  apply findex_ok_default.
Qed.

(** Two documents of two named vectors each. *)
Definition two_rows (a b : nat) : DocEntry := {| de_rows := {[lit "t" := a; lit "u" := b]}; de_attrs := ∅ |}.
Definition named_docs : gmap rstring DocEntry := {[lit "x" := two_rows 0 1; lit "z" := two_rows 2 3]}.
Definition named_store : Store :=
  with_index {| ix_collections := {[lit "b" := set_docs named_docs Collection_new]};
                ix_dead_rows := 0; ix_fts := Fts_default; ix_findex := Findex_default |} store.
Definition named_opts : SearchOpts :=
  {| so_top_k := 9; so_offset := 0; so_filter := Filter_default; so_min_score := None;
     so_exact := true; so_projection := PrAll; so_explain := false; so_plan := false; so_rank_by := None;
     so_limit_per := None; so_diversity := None; so_rerank := None; so_expand := None; so_names := [lit "t"; lit "u"];
     so_name_weights := ∅; so_pool := PoolSum |}.

Lemma named_faithful : findex_faithful named_store.
Proof.
  exists 0%nat. assert (live_docs_of named_store = ∅) as -> by by vm_compute.
  apply findex_ok_default.
Qed.
Lemma two_rows_at a n r : de_rows (two_rows a (S a)) !! n = Some r -> (a <= r <= S a)%nat.
Proof. cbn. intros [[_ <-]|[_ [_ <-]%lookup_singleton_Some]]%lookup_insert_Some; lia. Qed.
Lemma named_apart : rows_apart named_store.
Proof.
  assert (forall (k : item) col e, st_collections named_store !! k.1 = Some col -> cl_docs col !! k.2 = Some e ->
    k = (lit "b", lit "x") /\ e = two_rows 0 1 \/ k = (lit "b", lit "z") /\ e = two_rows 2 3) as Hk.
  { intros [c id] col e Hc He. change (({[lit "b" := set_docs named_docs Collection_new]} : gmap rstring Collection) !! c = Some col) in Hc.
    apply lookup_singleton_Some in Hc as [<- <-]. change (named_docs !! id = Some e) in He. unfold named_docs in He.
    apply lookup_insert_Some in He as [[<- <-]|[_ [<- <-]%lookup_singleton_Some]]; [by left|by right]. }
  intros k1 k2 col1 col2 e1 e2 n1 n2 n3 a b r Hc1 Hd1 Hc2 Hd2 Hne Ha Hb Hr.
  destruct (Hk _ _ _ Hc1 Hd1) as [[-> ->]|[-> ->]], (Hk _ _ _ Hc2 Hd2) as [[-> ->]|[-> ->]]; try done;
    apply two_rows_at in Ha, Hb, Hr; lia.
Qed.

Lemma brute o : so_names o = [] -> so_exact o = true -> brute_force caches o.
Proof. intros. split; [done|by left]. Qed.
End Demo.

Section examples.
Import PlainEngine Demo.

Definition ids_of (r : result query_error (list Hit)) : result query_error (list (rstring * rstring)) :=
  (let? hits := r in Ok (map hit_key hits))%res.

Lemma search_pages_witness :
  ids_of (search never store caches [lit "a"; lit "b"] [f32_one] (opts 2 1)) =
    Ok [(lit "b", lit "z"); (lit "b", lit "x")] /\
  answers never (take (so_top_k (opts 2 1)) (drop (so_offset (opts 2 1))
      (ranking store [lit "a"; lit "b"] [f32_one] (opts 2 1))))
    (search never store caches [lit "a"; lit "b"] [f32_one] (opts 2 1)).
Proof.
  split; [by vm_compute|].
  edestruct (search_pages never store caches [lit "a"; lit "b"] [f32_one] (opts 2 1) 1) as [P _];
    [by vm_compute|by vm_compute| |exact faithful|exact I|by apply brute|by split_and!|by vm_compute|exact P].
  apply (bool_decide_unpack _). by vm_compute.
Defined.

Lemma exact_search_spec_witness :
  let o := with_page 3 0 (Some {| lp_field := lit "src"; lp_max := 2 |}) None (opts 3 0) in
  ids_of (search never store caches [lit "a"; lit "b"] [f32_one] o) =
    Ok [(lit "a", lit "y"); (lit "b", lit "z")] /\
  (search never store caches [lit "a"; lit "b"] [f32_one] o =
     finish store (reference store [lit "a"; lit "b"] [f32_one] o (depth o)) o \/
   search never store caches [lit "a"; lit "b"] [f32_one] o = Err QCancelled /\ exists w j, never w j = true).
Proof.
  intros o. split; [by vm_compute|].
  apply (exact_search_spec never store caches [lit "a"; lit "b"] [f32_one] o);
    [by vm_compute|by vm_compute| |exact faithful|exact I|by apply brute].
  apply (bool_decide_unpack _). by vm_compute.
Defined.

Lemma search_sound_witness :
  exists hits, search never named_store caches [lit "b"] [f32_one] named_opts = Ok hits /\ length hits = 2%nat /\
    Forall (fun h => genuine_named named_store [lit "b"] [f32_one] named_opts (set_context None h)) hits.
Proof.
  destruct (search never named_store caches [lit "b"] [f32_one] named_opts) as [hits|] eqn:E; [|by vm_compute in E].
  exists hits. split; [done|]. split; [by vm_compute in E; injection E as <-|].
  refine (proj2 (search_sound never named_store caches [lit "b"] [f32_one] named_opts hits _ _ named_faithful I E));
    [intros _; apply named_apart|]. apply (bool_decide_unpack _). by vm_compute.
Defined.

Lemma similar_excludes_source_witness :
  ids_of (search_similar never store caches [lit "a"; lit "b"] (lit "a") (lit "y") (opts 2 0)) =
    Ok [(lit "b", lit "z"); (lit "b", lit "x")] /\
  answers never
    (take (so_top_k (opts 2 0)) (drop (so_offset (opts 2 0))
      (List.filter (fun h => negb (is_source (lit "a") (lit "y") h))
      (ranking store [lit "a"; lit "b"] (segments_row 1 (st_data store)) (opts 2 0)))))
    (search_similar never store caches [lit "a"; lit "b"] (lit "a") (lit "y") (opts 2 0)).
Proof.
  split; [by vm_compute|].
  apply (similar_excludes_source never store caches [lit "a"; lit "b"] (lit "a") (lit "y") (opts 2 0)
    (of_docs [(lit "x", rowed 0); (lit "y", rowed 1)]) (rowed 1) 1);
    [by vm_compute|by vm_compute|by vm_compute|by vm_compute|by vm_compute| |exact faithful|exact I|by apply brute|by split_and!|].
  - apply (bool_decide_unpack _). by vm_compute.
  - by vm_compute.
Defined.

(** a repeated collection leaks another's documents: when the scope names one
    collection twice, its documents count twice towards "the scope is the whole
    store", and a search of collection [a] alone, asked for twice, answers
    with a document of collection [b]. *)
Theorem duplicate_scope_leaks :
  exists hits h, search never store caches [lit "a"; lit "a"] [f32_one] (opts 4 0) = Ok hits /\
    h ∈ hits /\ h_collection h = lit "b".
Proof.
  eexists _, (hit_of store PrAll (f32_of_Z 7, (lit "b", lit "z"))).
  split; [vm_compute; reflexivity|]. split; [|by vm_compute].
  apply list_elem_of_lookup. exists 1%nat. by vm_compute.
Qed.
End examples.
