(* ===== verification/StoreOpen.v ===== *)
(** * StoreOpen: opening, refreshing and pinning a store ([src/src/store/mod.rs])

    [open_with] wires the components together: the writer handle, the manifest
    or a pinned history entry, the segments, the log and its replay.
    [refresh] and [refresh_to] move a reader to newer or to recorded state.
    The shared memory tier is a parameter: a snapshot of the index for given
    row count and log length, or nothing.  The filter and full-text indexes are adopted from
    their cache objects when those are exactly current, else rebuilt.  The
    quantised and approximate indexes are not part of the state. *)
From S2P Require Import Std Analyzer FtsStore.
From S2P Require Import Prelude Floats Model Config TextPred Filter Literal Findex.
From S2P Require Import Backend Codec Log Data IndexCache Manifest Segments Lease Replay Store.
From S2P Require Import StoreWrite.

(** Run a computation on a store. *)
Definition with_store {X A} (s : Store) (m : M Store A) : M X (A * Store) :=
  fun x w =>
    match m s w with
    | (Ret a, s', w') => (Ret (a, s'), x, w')
    | (Fail e, _, w') => (Fail e, x, w')
    | (Dead, _, w') => (Dead, x, w')
    end.

(** [in_memory_cfg]. *)
Definition in_memory_cfg (config : Config) : result config_error Store :=
  (let? _ := config_validate config in
   Ok {| st_config := config; st_open_profile := OpenProfile_default; st_baseline_config := config;
         st_data := segments_in_memory_with (c_dimension config) (c_distance config);
         st_log := ApMem []; st_persistence := false; st_lease := None; st_index := Index_empty;
         st_aliases := ∅; st_in_memory := true; st_loaded_log_offset := 0; st_manifest_cas := None;
         st_fenced := false; st_defer_barrier := false; st_pending_barrier := false;
         st_pinned := None; st_pruned_through := 0 |})%res.

(** ** Derived indexes *)

Section derived.
Context `{Crc32} `{Codec Fts} `{Codec (list (rstring * list FtsField))} `{Codec Findex}
  `{Codec (list (rstring * list FilterIndexField))} `{UnicodeAlnum} `{UnicodeLower} `{HashIter}.

(** The maps are serialized in key order. *)
Definition findex_cache_key (fx : Findex) : bytes := default [] (enc (bt_entries (fx_schema fx))).

(** Adopt a cache object written at this very log offset, else rebuild. *)
Definition adopt_or {A} `{Codec A} (object : rstring) (key : bytes) (adopt : A -> Index -> Index)
    (rebuild : Index -> Index) : M Store unit :=
  (let* current := on_log log_offset in
   let* s := get_st in
   if negb (st_persistence s) then modify_index rebuild
   else
     let* loaded := cache_load object key in
     match loaded with
     | Some (cached, watermark) =>
         if (watermark =? current)%nat then modify_index (adopt cached) else modify_index rebuild
     | None => modify_index rebuild
     end)%m.

Definition load_or_build_fts : M Store unit :=
  (let* s := get_st in
   let fts := ix_fts (st_index s) in
   if negb (fts_active fts) then ret tt
   else
     (* the serialization is infallible; a failure would panic *)
     match fts_cache_key fts with
     | None => throw EInvalid
     | Some key => adopt_or (lit "fts") key set_fts rebuild_fts
     end)%m.

Definition load_or_build_findex : M Store unit :=
  (let* s := get_st in
   let fx := ix_findex (st_index s) in
   if negb (is_active fx) then ret tt
   else adopt_or (lit "findex") (findex_cache_key fx) set_findex rebuild_findex)%m.

Definition load_derived : M Store unit := (do* load_or_build_fts in load_or_build_findex)%m.
End derived.

Record StoreVersions := {
  sv_commit_version : N;
  sv_oldest_readable : option N;
  sv_pinned : option N;
  sv_readable : list N
}.

Inductive Role := RWriter | RReader | RClusterWriter | RClusterReader | RInMemory.

Definition role_of (s : Store) : Role :=
  if st_in_memory s then RInMemory
  else
    match c_cluster (st_config s), c_open_mode (st_config s) with
    | true, ReadWrite => RClusterWriter
    | true, ReadOnly => RClusterReader
    | false, ReadWrite => RWriter
    | false, ReadOnly => RReader
    end.

Section opening.
Context {X : Type}.
Context `{Crc32} `{Codec Op} `{Codec Manifest} `{Codec ManifestV1} `{Codec ManifestV2}.
Context `{Codec HistoryEntry} `{Codec HistoryEntryV1} `{Codec HistoryFloor} `{Codec Z}.
Context `{UnicodeAlnum} `{UnicodeLower} `{HashIter} `{RegexEngine} `{HashOrder}.
Context `{Codec Fts} `{Codec (list (rstring * list FtsField))} `{Codec Findex}
  `{Codec (list (rstring * list FilterIndexField))}.

(** The native lock of local files, an operating-system facility. *)
Context (native_lock : rstring -> N -> M X bool).
(** The token a cluster lease mints. *)
Context (owner : rstring).
(** The shared memory tier, when one is configured. *)
Context (tier : option (nat -> nat -> option Index)).

(** One claim of the writer handle. *)
Definition claim_handle (config : Config) : M X bool :=
  (let* native := reads has_native_lock in
   if c_cluster config then lease_acquire LOCK_KEY (c_lock_ttl config) owner
   else if native then native_lock LOCK_KEY (c_lock_ttl config)
   else object_try_lock LOCK_KEY (c_lock_ttl config))%m.

(** The waiting loop of [await_writer_handle], for at most [polls] polls: a
    failed claim is remembered, not fatal. *)
Fixpoint await_loop (polls : nat) (config : Config) (deadline : option N) (last_error : err) : M X unit :=
  match polls with
  | O => throw last_error
  | S polls' =>
      (let* got := catch (let* b := claim_handle config in ret (Ok b)) (fun e => ret (Err e)) in
       match got with
       | Ok true => ret tt
       | _ =>
           let last_error := match got with Err e => e | Ok _ => last_error end in
           let* now := now_secs in
           if match deadline with Some d => (d <=? now)%N | None => false end
           then throw last_error
           else await_loop polls' config deadline last_error
       end)%m
  end.

Definition await_writer_handle (polls : nat) (config : Config) : M X unit :=
  match c_lease_wait config with
  | LwFail => (let* got := claim_handle config in if got then ret tt else throw ELocked)%m
  | LwTimeout limit =>
      (let* now := now_secs in await_loop polls config (Some (now + limit)%N) ELocked)%m
  | LwForever => await_loop polls config None ELocked
  end.

(** [resolve_pinned_entry]. *)
Definition resolve_pinned_entry (config : Config) (version : N) : M X HistoryEntry :=
  (let* m := manifest_load in
   let current := match m with Some m => mf_version m | None => 0%N end in
   if (current <? version)%N then throw EMissing
   else
     let* floor := load_floor in
     let* entry := load_entry version in
     let readable :=
       match entry, floor with
       | Some _, Some f => (hf_oldest_readable f <=? version)%N
       | Some _, None => true
       | None, _ => false
       end in
     match entry with
     | Some e =>
         if negb readable then throw EMissing
         else if negb (h1_dimension (he_v1 e) =? c_dimension config)%nat then throw EMismatch
         else if negb (bool_decide (h1_distance (he_v1 e) = c_distance config)) then throw EMismatch
         else ret e
     | None =>
         (* the error names the oldest version on record *)
         do* (match floor with Some _ => ret tt | None => let* _ := list_versions in ret tt end) in
         throw EMissing
     end)%m.

(** The checks of the manifest against the configuration. *)
Definition check_manifest (config : Config) (m : Manifest) : M X Manifest :=
  if negb (mf_dimension m =? c_dimension config)%nat then throw EMismatch
  else if negb (bool_decide (mf_distance m = c_distance config)) then throw EMismatch
  else ret m.

(** Step 2b. *)
Definition check_cluster (config : Config) : M X unit :=
  (let* native := reads has_native_lock in
   let* cas := reads supports_cas in
   if negb (c_cluster config) then ret tt
   else if native then throw EInvalid
   else if bool_decide (tier = None) then throw EInvalid
   else if negb cas then throw EInvalid else ret tt)%m.

(** Refuse a pinned snapshot whose rows were reclaimed. *)
Definition check_pinned_rows (pinned : option HistoryEntry) (data : Segments) : M X unit :=
  match pinned with
  | Some e => if (segments_row_count data <? h1_row_count (he_v1 e))%nat then throw EMissing else ret tt
  | None => ret tt
  end.

(** Step 6: the log, its operations, the row bound and the watermark. *)
Definition open_log (pinned : option HistoryEntry) (cas : bool) (data : Segments)
  : M X (Appender * list Op * nat * nat) :=
  match pinned with
  | Some e =>
      (let* ap := appender_for LOG_KEY false in
       let* oa := with_appender ap (log_open_bounded (h1_log_offset (he_v1 e))) in
       ret (oa.2, oa.1, h1_row_count (he_v1 e), h1_log_offset (he_v1 e)))%m
  | None =>
      (let* ap := appender_for LOG_KEY cas in
       let* oa := with_appender ap log_open_with in
       let* wa := with_appender oa.2 log_offset in
       ret (wa.2, oa.1, segments_row_count data, wa.1))%m
  end.

(** The in-RAM index: the tier's snapshot when it has the exact one. *)
Definition build_index (pinned : bool) (ops : list Op) (row_count watermark : nat) : Index :=
  match (if pinned then None else tier ≫= fun t => t row_count watermark) with
  | Some ix => ix
  | None => replay_ops ops row_count
  end.

(** The threshold of a writer. *)
Definition auto_compact (s : Store) : option f32 :=
  if bool_decide (c_open_mode (st_config s) = ReadWrite) then c_auto_compact (st_config s) else None.

Definition auto_compact_due (s : Store) : bool :=
  match auto_compact s with
  | Some threshold =>
      let total := Nat.max (segments_row_count (st_data s)) 1 in
      f32_ltb threshold (f32_div (f32_of_Z (Z.of_nat (st_dead_rows s))) (f32_of_Z (Z.of_nat total)))
  | None => false
  end.

(** Step 10, on the index just built; the threshold is the one read in step 6. *)
Definition text_compact_due (threshold : option f32) (s : Store) : bool :=
  match threshold with
  | Some threshold => f32_ltb threshold (tombstone_ratio (ix_fts (st_index s)))
  | None => false
  end.

Definition open_with (polls : nat) (config : Config) : M X Store :=
  (do* of_result (match config_validate config with Ok _ => Ok tt | Err _ => Err EInvalid end) in
   do* check_cluster config in
   let writer := bool_decide (c_open_mode config = ReadWrite) in
   do* when writer (await_writer_handle polls config) in
   let* pinned_entry :=
     (match c_at_version config with
      | Some v => let* e := resolve_pinned_entry config v in ret (Some e)
      | None => ret None
      end) in
   let* on_disk := (match pinned_entry with Some _ => ret None | None => manifest_load end) in
   let* manifest :=
     (match pinned_entry, on_disk with
      | Some e, _ => ret (entry_manifest e)
      | None, Some m => check_manifest config m
      | None, None => ret (Manifest_fresh (c_dimension config) (c_distance config))
      end) in
   let baseline := config in
   let config := apply_profile (mf_profile manifest) config in
   do* of_result (match config_validate config with Ok _ => Ok tt | Err _ => Err EInvalid end) in
   let cas := c_cluster config && writer in
   let* data := segments_open manifest (c_max_vector_bytes config) (c_mmap config) cas in
   do* check_pinned_rows pinned_entry data in
   do* when (bool_decide (on_disk = None) && bool_decide (pinned_entry = None) && writer)
         (manifest_store (segments_manifest (mf_profile manifest) data)) in
   let* manifest_cas :=
     (if cas then
        let* cur := p_get_cas MANIFEST_KEY in
        ret (cur ≫= fun c => c.2)
      else ret None) in
   let* lg := open_log pinned_entry cas data in
   let '(log, ops, row_count, watermark) := lg in
   let index := build_index (bool_decide (is_Some pinned_entry)) ops row_count watermark in
   let* floor := load_floor in
   let s :=
     {| st_config := config; st_open_profile := mf_profile manifest; st_baseline_config := baseline;
        st_data := data; st_log := log; st_persistence := true;
        st_lease := if c_cluster config && writer then Some owner else None;
        st_index := index; st_aliases := mf_aliases manifest; st_in_memory := false;
        st_loaded_log_offset := watermark; st_manifest_cas := manifest_cas; st_fenced := false;
        st_defer_barrier := false; st_pending_barrier := false; st_pinned := c_at_version config;
        st_pruned_through := match floor with
                             | Some f => (hf_oldest_readable f - 1)%N
                             | None => 0%N
                             end |} in
   let* s :=
     (if auto_compact_due s then let* us := with_store s compact in ret us.2 else ret s) in
   let* us := with_store s
     (do* load_derived in
      let* s' := get_st in
      when (text_compact_due (auto_compact s) s') compact)%m in
   ret us.2)%m.
End opening.

(** ** Readers that move *)

Definition with_pinned (x : option N) (s : Store) : Store :=
  {| st_config := st_config s; st_open_profile := st_open_profile s;
     st_baseline_config := st_baseline_config s; st_data := st_data s; st_log := st_log s;
     st_persistence := st_persistence s; st_lease := st_lease s; st_index := st_index s;
     st_aliases := st_aliases s; st_in_memory := st_in_memory s;
     st_loaded_log_offset := st_loaded_log_offset s; st_manifest_cas := st_manifest_cas s;
     st_fenced := st_fenced s; st_defer_barrier := st_defer_barrier s;
     st_pending_barrier := st_pending_barrier s; st_pinned := x;
     st_pruned_through := st_pruned_through s |}.

(** The swap: segments, log, index, watermark, profile and aliases, all at
    once; the configuration takes the query-path knobs of the profile. *)
Definition swap_in (data : Segments) (log : Appender) (index : Index) (watermark : nat)
    (profile : OpenProfile) (aliases : gmap rstring rstring) (s : Store) : Store :=
  let merged := apply_profile profile (st_baseline_config s) in
  {| st_config := set_knobs (c_quantization merged) (c_ann merged) (c_query_threads merged)
                    (c_mmap (st_config s)) (c_explicit (st_config s)) (st_config s);
     st_open_profile := profile; st_baseline_config := st_baseline_config s; st_data := data;
     st_log := log; st_persistence := st_persistence s; st_lease := st_lease s;
     st_index := index; st_aliases := aliases; st_in_memory := st_in_memory s;
     st_loaded_log_offset := watermark; st_manifest_cas := st_manifest_cas s;
     st_fenced := st_fenced s; st_defer_barrier := st_defer_barrier s;
     st_pending_barrier := st_pending_barrier s; st_pinned := st_pinned s;
     st_pruned_through := st_pruned_through s |}.

Section moving.
Context `{Crc32} `{Codec Op} `{Codec Manifest} `{Codec ManifestV1} `{Codec ManifestV2}.
Context `{Codec HistoryEntry} `{Codec HistoryEntryV1} `{Codec HistoryFloor} `{Codec Z}.
Context `{UnicodeAlnum} `{UnicodeLower} `{HashIter} `{RegexEngine} `{HashOrder}.
Context `{Codec Fts} `{Codec (list (rstring * list FtsField))} `{Codec Findex}
  `{Codec (list (rstring * list FilterIndexField))}.
Context (tier : option (nat -> nat -> option Index)).

(** The new segments: the whole set again when the list of segments changed,
    else only the active one. *)
Definition refresh_data (manifest : Manifest) (s : Store) : M Store Segments :=
  if segment_names_match (mf_segments manifest) (st_data s) then
    (let* da := reopen_active (c_max_vector_bytes (st_config s)) (st_data s) in
     ret (install_active da.1 (mf_version manifest) (st_data s)))%m
  else
    segments_open manifest (c_max_vector_bytes (st_config s)) (c_mmap (st_config s)) false.

Definition refresh : M Store bool :=
  (let* s := get_st in
   if st_in_memory s || negb (bool_decide (c_open_mode (st_config s) = ReadOnly)) then ret false
   else if bool_decide (is_Some (st_pinned s)) then ret false
   else if negb (st_persistence s) then ret false
   else
     let* on_disk := manifest_load in
     let* manifest :=
       (match on_disk with
        | Some m => check_manifest (st_config s) m
        | None => ret (Manifest_fresh (c_dimension (st_config s)) (c_distance (st_config s)))
        end) in
     let* on_disk_log_len := on_log log_offset in
     if bool_decide (mf_version manifest = ss_version (st_data s))
        && (on_disk_log_len =? st_loaded_log_offset s)%nat then ret false
     else
       let* data := refresh_data manifest s in
       let* lg := open_log None false data in
       let '(log, ops, row_count, watermark) := lg in
       let index := build_index tier false ops row_count watermark in
       do* modify (swap_in data log index watermark (mf_profile manifest) (mf_aliases manifest)) in
       do* load_derived in
       ret true)%m.

Definition refresh_to (version : N) : M Store unit :=
  (let* s := get_st in
   if st_in_memory s || negb (bool_decide (c_open_mode (st_config s) = ReadOnly)) then throw EInvalid
   else if negb (st_persistence s) then throw EInvalid
   else
     let* e := resolve_pinned_entry (st_config s) version in
     let* data := segments_open (entry_manifest e) (c_max_vector_bytes (st_config s))
                    (c_mmap (st_config s)) false in
     do* check_pinned_rows (Some e) data in
     let* lg := open_log (Some e) false data in
     let '(log, ops, row_count, watermark) := lg in
     do* modify (swap_in data log (replay_ops ops row_count) watermark
                   (h1_profile (he_v1 e)) (he_aliases e)) in
     do* modify (with_pinned (Some version)) in
     load_derived)%m.

Definition versions : M Store StoreVersions :=
  (let* s := get_st in
   if negb (st_persistence s) then
     ret {| sv_commit_version := ss_version (st_data s); sv_oldest_readable := None;
            sv_pinned := st_pinned s; sv_readable := [] |}
   else
     let* m := manifest_load in
     let commit_version := match m with Some m => mf_version m | None => ss_version (st_data s) end in
     let* floor := load_floor in
     let* readable := list_versions in
     let '(oldest, readable) :=
       match floor with
       | Some f => (Some (hf_oldest_readable f),
                    List.filter (fun v => hf_oldest_readable f <=? v)%N readable)
       | None => (head readable, readable)
       end in
     ret {| sv_commit_version := commit_version; sv_oldest_readable := oldest;
            sv_pinned := st_pinned s; sv_readable := readable |})%m.
End moving.
