(* ===== verification/Effect.v ===== *)
(** * Effect: what a computation does to a part of the store

    [seen obs R m]: whatever the files and the injected faults, and however [m]
    ends, the part [obs] of the store before and after is related by [R];
    [via] is about the index.  The input and output of the write path leave
    alone any part that is [Blind] to them, so each handler comes
    down to the few places where it touches that part. *)
From S2P Require Import Std Analyzer FtsStore.
From S2P Require Import Prelude Floats Model Config TextPred Filter Literal Findex.
From S2P Require Import Backend Codec Log Data IndexCache Manifest Segments Lease Replay Store StoreWrite.

(** A part of the store that input and output do not touch. *)
Class Blind {T} (obs : Store -> T) : Prop := {
  blind_data x s : obs (with_data x s) = obs s;
  blind_log x s : obs (with_log x s) = obs s;
  blind_cas x s : obs (with_manifest_cas x s) = obs s;
  blind_fenced x s : obs (with_fenced x s) = obs s;
  blind_defer x s : obs (with_defer_barrier x s) = obs s;
  blind_pending x s : obs (with_pending_barrier x s) = obs s;
  blind_pruned x s : obs (with_pruned_through x s) = obs s
}.
#[export] Instance blind_index : Blind st_index.
Proof. by split. Qed.

Definition seen {T} (obs : Store -> T) (R : T -> T -> Prop) {A} (m : M Store A) : Prop := forall s w, R (obs s) (obs (m s w).1.2).
(** Through the index. *)
Abbreviation via := (seen st_index).

Section via.
Context {T} (obs : Store -> T) (R : T -> T -> Prop) `{!PreOrder R}.
#[local] Abbreviation via m := (seen obs R m).

Lemma via_ret {A} (a : A) : via (ret a).
Proof. intros s w. reflexivity. Qed.
Lemma via_throw {A} e : via (throw e : M Store A).
Proof. intros s w. reflexivity. Qed.
Lemma via_of_result {A} (r : result err A) : via (of_result r).
Proof. destruct r; [apply via_ret|apply via_throw]. Qed.
Lemma via_get : via get_st.
Proof. intros s w. reflexivity. Qed.
Lemma via_modify f : (forall s, R (obs s) (obs (f s))) -> via (modify f).
Proof. intros Hf s w. apply Hf. Qed.
Lemma via_bind {A B} (m : M Store A) (k : A -> M Store B) : via m -> (forall a, via (k a)) -> via (bind m k).
Proof.
  intros Hm Hk s w. unfold bind. specialize (Hm s w). destruct (m s w) as [[[a|e|] s'] w']; [|exact Hm..].
  etransitivity; [exact Hm|apply Hk].
Qed.

Lemma via_get_bind {B} (k : Store -> M Store B) :
  (forall s w, R (obs s) (obs (k s s w).1.2)) -> via (bind get_st k).
Proof. intros Hk s w. apply Hk. Qed.

Lemma via_catch {A} (m : M Store A) h : via m -> (forall e, via (h e)) -> via (catch m h).
Proof.
  intros Hm Hh s w. unfold catch. specialize (Hm s w). destruct (m s w) as [[[a|e|] s'] w']; [exact Hm| |exact Hm].
  etransitivity; [exact Hm|apply Hh].
Qed.
Lemma via_or_undo {A} (m : M Store A) undo : via m -> via undo -> via (or_undo m undo).
Proof. intros Hm Hu. apply via_catch; [done|]. intros e. apply via_bind; [done|]. intros _. apply via_throw. Qed.
Lemma via_ignore {A} (m : M Store A) : via m -> via (ignore m).
Proof. intros Hm s w. unfold ignore. specialize (Hm s w). by destruct (m s w) as [[[a|e|] s'] w']. Qed.
Lemma via_when b m : via m -> via (when b m).
Proof. intros Hm. destruct b; [done|apply via_ret]. Qed.
Lemma via_for_each {A} (l : list A) f : (forall a, a ∈ l -> via (f a)) -> via (for_each l f).
Proof.
  induction l as [|a l IH]; intros Hf; [apply via_ret|]. cbn. apply via_bind; [apply Hf; by left|].
  intros _. apply IH. intros b Hb. apply Hf. by right.
Qed.
Lemma via_on_log `{!Blind obs} {A} (m : M Appender A) : via (on_log m).
Proof. intros s w. unfold on_log, zoom. destruct (m (st_log s) w) as [[o y] w']. cbn. by rewrite blind_log. Qed.
Lemma via_on_data `{!Blind obs} {A} (m : M Segments A) : via (on_data m).
Proof. intros s w. unfold on_data, zoom. destruct (m (st_data s) w) as [[o y] w']. cbn. by rewrite blind_data. Qed.
Lemma via_backend {A} (work : extent -> World -> World) (res : World -> A) : via (backend_call work res).
Proof. intros s w. unfold backend_call. destruct (pop_fault w) as [f w']. by destruct f. Qed.

Lemma via_put_cas key bs expected : via (p_put_cas key bs expected).
Proof.
  intros s w. unfold p_put_cas. destruct (supports_cas w); [|done].
  apply (via_bind (of_result (validate_key key))); [apply via_of_result|]. intros _. apply via_backend.
Qed.
Lemma via_clock : via now_secs.
Proof. intros s w. unfold now_secs. by destruct (read_clock w). Qed.
End via.

Lemma via_modify_index (R : Index -> Index -> Prop) f : (forall ix, R ix (f ix)) -> via R (modify_index f).
Proof. intros Hf s w. apply Hf. Qed.

#[export] Hint Resolve via_ret via_throw via_of_result via_get via_on_log via_on_data via_backend via_put_cas
  via_clock : via.

#[export] Hint Extern 0 (PreOrder _) => typeclasses eauto : via.
#[export] Hint Extern 0 (Blind _) => typeclasses eauto : via.
#[export] Hint Extern 0 (Reflexive _) => typeclasses eauto : via.

(** One layer of a computation that does not touch the index. *)
Ltac via_step :=
  first
    [ solve [eauto 2 with via]
    | apply via_bind; [typeclasses eauto| |intros ?]
    | apply via_or_undo; [typeclasses eauto| |]
    | apply via_catch; [typeclasses eauto| |intros ?]
    | apply via_ignore
    | apply via_when; [typeclasses eauto|]
    | apply via_for_each; [typeclasses eauto|intros ? _]
    | apply via_modify; intros ?; rewrite ?blind_data, ?blind_log, ?blind_cas, ?blind_fenced, ?blind_defer, ?blind_pending, ?blind_pruned;
      reflexivity
    | case_match ].
Ltac via_auto := repeat via_step.

Section quiet.
Context `{Crc32} `{Codec Op} `{Codec Manifest} `{Codec HistoryEntry} `{Codec HistoryFloor} `{Codec Z}.
Context {T} (obs : Store -> T) `{!Blind obs} (R : T -> T -> Prop) `{!PreOrder R}.
#[local] Abbreviation via := (seen obs).

Lemma via_p_get key : via R (p_get key).
Proof. unfold p_get, reads. via_auto. Qed.
Lemma via_p_put key bs : via R (p_put key bs).
Proof. unfold p_put. via_auto. Qed.
Lemma via_p_delete key : via R (p_delete key).
Proof. unfold p_delete. via_auto. Qed.
Lemma via_p_get_cas key : via R (p_get_cas key).
Proof. unfold p_get_cas, reads. via_auto. Qed.
#[local] Hint Resolve via_p_get via_p_put via_p_delete via_p_get_cas : via.

Lemma via_alone {A} key (p : LockProg A) : via R (alone key p).
Proof. induction p; cbn [alone]; unfold p_try_create_exclusive; via_auto. Qed.
#[local] Hint Resolve via_alone : via.
Lemma via_renew_lease : via R renew_lease.
Proof. unfold renew_lease, renew_lease_object. via_auto. Qed.
#[local] Hint Resolve via_renew_lease : via.
Lemma via_check_writable : via R check_writable.
Proof. unfold check_writable. via_auto. Qed.

Lemma via_persist_manifest : via R persist_manifest.
Proof.
  unfold persist_manifest, manifest_store, record_history_entry, store_entry, prune_history, delete_entry, store_floor,
    now_millis. via_auto.
Qed.
#[local] Hint Resolve via_persist_manifest : via.
Lemma via_note_commit_point : via R note_commit_point.
Proof. unfold note_commit_point. via_auto. Qed.
#[local] Hint Resolve via_note_commit_point : via.
Lemma via_maybe_sync : via R maybe_sync.
Proof. unfold maybe_sync. via_auto. Qed.
Lemma via_maybe_seal : via R maybe_seal.
Proof. unfold maybe_seal. via_auto. Qed.
Lemma via_append_op op : via R (append_op op).
Proof. apply via_on_log; typeclasses eauto. Qed.
Lemma via_reject_if_alias name : via R (reject_if_alias name).
Proof. unfold reject_if_alias. via_auto. Qed.
Lemma via_rollback data_mark log_mark : via R (rollback data_mark log_mark).
Proof. unfold rollback. via_auto. Qed.
Lemma via_list_versions : via R list_versions.
Proof. unfold list_versions, p_list, reads. via_auto. Qed.
Lemma via_store_floor floor : via R (store_floor floor).
Proof. unfold store_floor. via_auto. Qed.
Lemma via_delete_entry v : via R (delete_entry v).
Proof. unfold delete_entry. via_auto. Qed.
End quiet.

#[export] Hint Resolve via_p_get via_p_put via_p_delete via_p_get_cas via_check_writable via_persist_manifest
  via_note_commit_point via_maybe_sync via_maybe_seal via_append_op via_reject_if_alias via_rollback via_list_versions
  via_store_floor via_delete_entry : via.
