(* ===== verification/LiveIndex.v ===== *)
(** * LiveIndex: the derived indexes of a store follow its documents

    [live_ok n ix]: the filter index and the full-text index hold exactly the
    attributes of the live documents of the collections they cover, [n]
    bounding the docnums handed out.  Every step of [StoreWrite] on the index
    keeps it. *)
From S2P Require Import Prelude Floats Model Config TextPred Filter Postings Literal Findex Narrow Std Analyzer Fts FtsStore.
From S2P Require Import Manifest Segments Replay Store StoreWrite.

(** ** The documents an index stands for *)

Definition attrs_in (cols : gmap rstring Collection) (c : rstring) : gmap rstring attrs_map :=
  match cols !! c with Some col => de_attrs <$> cl_docs col | None => ∅ end.

Definition live_attrs {A} (schema : gmap rstring A) (cols : gmap rstring Collection)
  : gmap rstring (gmap rstring attrs_map) := map_imap (fun c _ => Some (attrs_in cols c)) schema.

Lemma lookup_live_attrs {A} (schema : gmap rstring A) cols c :
  live_attrs schema cols !! c = (fun _ => attrs_in cols c) <$> schema !! c.
Proof. unfold live_attrs. rewrite map_lookup_imap. by destruct (schema !! c). Qed.

Lemma live_attrs_ext {A} (schema : gmap rstring A) cols cols' :
  (forall c, attrs_in cols' c = attrs_in cols c) -> live_attrs schema cols' = live_attrs schema cols.
Proof. intros He. apply map_eq. intros c. by rewrite !lookup_live_attrs, He. Qed.

Lemma live_attrs_alter {A} (schema : gmap rstring A) cols cols' c h :
  (forall c', c' <> c -> attrs_in cols' c' = attrs_in cols c') -> attrs_in cols' c = h (attrs_in cols c) ->
  live_attrs schema cols' = alter h c (live_attrs schema cols).
Proof.
  intros Hne Hc. apply map_eq. intros c'. rewrite lookup_live_attrs, lookup_alter. case_decide as E.
  - subst c'. rewrite lookup_live_attrs, Hc. by destruct (schema !! c).
  - rewrite lookup_live_attrs, Hne by congruence. done.
Qed.

Lemma live_attrs_declare {A} (schema : gmap rstring A) cols c fs :
  live_attrs (<[c := fs]> schema) cols = <[c := attrs_in cols c]> (live_attrs schema cols).
Proof.
  apply map_eq. intros c'. rewrite lookup_live_attrs. destruct (decide (c = c')) as [<-|].
  - by rewrite !lookup_insert_eq.
  - by rewrite !lookup_insert_ne, lookup_live_attrs.
Qed.

Lemma live_attrs_undeclare {A} (schema : gmap rstring A) cols cols' c :
  (forall c', c' <> c -> attrs_in cols' c' = attrs_in cols c') ->
  live_attrs (delete c schema) cols' = delete c (live_attrs schema cols).
Proof.
  intros Hne. apply map_eq. intros c'. rewrite lookup_live_attrs. destruct (decide (c = c')) as [<-|].
  - by rewrite !lookup_delete_eq.
  - rewrite !lookup_delete_ne, lookup_live_attrs by done. by rewrite Hne.
Qed.

(** What the steps on collections do to [attrs_in]. *)
Lemma attrs_in_entry cols c : attrs_in cols c = de_attrs <$> cl_docs (entry c cols).
Proof. unfold attrs_in, entry. by destruct (cols !! c). Qed.

Lemma attrs_in_set cols c col c' :
  attrs_in (<[c := col]> cols) c' = if decide (c = c') then de_attrs <$> cl_docs col else attrs_in cols c'.
Proof. unfold attrs_in. case_decide as E; [subst; by rewrite lookup_insert_eq|by rewrite lookup_insert_ne]. Qed.

Lemma attrs_in_touch cols c c' : attrs_in (touch c cols) c' = attrs_in cols c'.
Proof. unfold touch. rewrite attrs_in_set. case_decide as E; [subst; by rewrite attrs_in_entry|done]. Qed.

Lemma attrs_in_delete cols c c' : c' <> c -> attrs_in (delete c cols) c' = attrs_in cols c'.
Proof. intros Hne. unfold attrs_in. by rewrite lookup_delete_ne. Qed.

Lemma attrs_in_put c id e ix c' :
  attrs_in (ix_collections (put_doc c id e ix)) c' =
  if decide (c = c') then <[id := de_attrs e]> (attrs_in (ix_collections ix) c') else attrs_in (ix_collections ix) c'.
Proof.
  unfold put_doc. cbn [ix_collections add_dead set_collections]. rewrite attrs_in_set.
  case_decide as E; [|done]. subst c'. cbn [cl_docs set_docs]. by rewrite fmap_insert, attrs_in_entry.
Qed.

Lemma attrs_in_remove c id ix c' :
  attrs_in (ix_collections (remove_entry c id ix)) c' =
  if decide (c = c') then delete id (attrs_in (ix_collections ix) c') else attrs_in (ix_collections ix) c'.
Proof.
  unfold remove_entry. destruct (ix_collections ix !! c) as [col|] eqn:Ec.
  - cbn [ix_collections add_dead set_collections]. rewrite attrs_in_set. case_decide as E; [|done].
    subst c'. cbn [cl_docs set_docs]. unfold attrs_in. by rewrite fmap_delete, Ec.
  - case_decide as E; [|done]. subst c'. unfold attrs_in. by rewrite Ec, delete_empty.
Qed.

Lemma attrs_in_stamp c id ac la ex ix c' :
  attrs_in (ix_collections (stamp_doc c id ac la ex ix)) c' =
  if decide (c = c') then alter (stamp_attrs ac la ex) id (attrs_in (ix_collections ix) c')
  else attrs_in (ix_collections ix) c'.
Proof.
  unfold stamp_doc. destruct (ix_collections ix !! c) as [col|] eqn:Ec.
  - cbn [ix_collections set_collections]. rewrite attrs_in_set. case_decide as E; [|done]. subst c'.
    cbn [cl_docs set_docs]. unfold attrs_in. rewrite Ec. apply map_eq. intros i.
    rewrite lookup_fmap, !lookup_alter. case_decide; [|by rewrite lookup_fmap]. subst. rewrite lookup_fmap.
    by destruct (cl_docs col !! i).
  - case_decide as E; [|done]. subst c'. unfold attrs_in. rewrite Ec. apply map_eq. intros i.
    rewrite lookup_alter, lookup_empty. by case_decide.
Qed.

Lemma attrs_in_relocate m u c : attrs_in (relocate_doc m u) c = attrs_in m c.
Proof.
  destruct u as [[c' id] rows]. unfold relocate_doc, attrs_in. rewrite lookup_alter. case_decide as E; [|done].
  subst c'. destruct (m !! c) as [col|]; [|done]. cbn. apply map_eq. intros i. rewrite !lookup_fmap, lookup_alter.
  case_decide; [|done]. subst. by destruct (cl_docs col !! i).
Qed.

(** ** The invariant *)

Section live.
Context `{UnicodeAlnum} `{UnicodeLower} `{HashIter} `{RegexEngine} `{RegexSyntax}.

(** Term counts of every text fit in [u32]. *)
Definition attrs_short (attrs : attrs_map) : Prop :=
  forall f : FtsField, (N.of_nat (length (terms_of f (field_text attrs (fts_field f)))) < 2 ^ 32)%N.

Lemma length_tokenize_loop folding cap text i cur start :
  (length (tokenize_loop folding cap text i cur start) <= length text + if is_nonempty cur then 1 else 0)%nat.
Proof.
  assert (forall cur start i out, length (push folding cap cur start i out) <= S (length out))%nat as Hpush.
  { intros. unfold push. case_match; cbn [length]; lia. }
  revert i cur start. induction text as [|ch text IH]; intros i cur start; cbn [tokenize_loop length].
  - destruct (is_nonempty cur); [|cbn; lia]. pose proof (Hpush cur start i []). cbn [length] in *. lia.
  - case_match.
    + etransitivity; [apply IH|]. destruct (is_nonempty (cur ++ _)), (is_nonempty cur); lia.
    + destruct (is_nonempty cur).
      * etransitivity; [apply Hpush|]. pose proof (IH (i + len_utf8 ch)%nat [] start). cbn in *. lia.
      * pose proof (IH (i + len_utf8 ch)%nat [] start). cbn in *. lia.
Qed.

Lemma length_terms f text : (length (terms_of f text) <= length text)%nat.
Proof.
  unfold terms_of, analyze, analyze_spans. rewrite length_map. destruct (an_language _).
  etransitivity; [apply filter_length_le|]. rewrite length_map. etransitivity; [apply filter_length_le|].
  unfold tokenize_with, tokenize. etransitivity; [apply length_tokenize_loop|]. cbn. lia.
Qed.

(** Texts of less than 2^32 characters will do. *)
Lemma attrs_short_length attrs :
  (forall k, (N.of_nat (length (field_text attrs k)) < 2 ^ 32)%N) -> attrs_short attrs.
Proof. intros Ht f. pose proof (length_terms f (field_text attrs (fts_field f))). specialize (Ht (fts_field f)). lia. Qed.

Record live_ok (n : nat) (ix : Index) : Prop := {
  lv_findex : findex_exact n (ix_findex ix) (live_attrs (fx_schema (ix_findex ix)) (ix_collections ix));
  lv_fts : fts_all_ok n (ix_fts ix) (live_attrs (fs_schema (ix_fts ix)) (ix_collections ix));
  lv_short : forall c id attrs, attrs_in (ix_collections ix) c !! id = Some attrs -> attrs_short attrs
}.

Lemma live_ok_empty : live_ok 0 Index_empty.
Proof.
  split; cbn; [apply findex_exact_default|apply fts_all_ok_default|].
  intros c id attrs. unfold attrs_in. by rewrite lookup_empty.
Qed.

Lemma live_ok_mono n n' ix : (n <= n')%nat -> live_ok n ix -> live_ok n' ix.
Proof.
  intros Hn [Hx Hf Hs]. split; [by eapply findex_exact_weaken|by eapply fts_all_ok_mono|done].
Qed.

(** *** One document *)

Lemma fts_index_doc_schema f c id attrs : fs_schema (fts_index_doc f c id attrs) = fs_schema f.
Proof. unfold fts_index_doc. by destruct (fs_schema f !! c). Qed.
Lemma index_doc_schema fx c id attrs : fx_schema (index_doc fx c id attrs) = fx_schema fx.
Proof. unfold index_doc. by destruct (fx_schema fx !! c). Qed.
Lemma fts_remove_doc_schema f c id : fs_schema (fts_remove_doc f c id) = fs_schema f.
Proof. unfold fts_remove_doc. by destruct (fs_schema f !! c). Qed.

Lemma fts_index_doc_inactive f c id attrs : fts_active f = false -> fts_index_doc f c id attrs = f.
Proof.
  unfold fts_active, fts_index_doc. intros E%negb_false_iff%bool_decide_eq_true. by rewrite E, lookup_empty.
Qed.
Lemma index_doc_inactive fx c id attrs : is_active fx = false -> index_doc fx c id attrs = fx.
Proof.
  unfold is_active, index_doc. intros E%negb_false_iff%bool_decide_eq_true. by rewrite E, lookup_empty.
Qed.

(** A document put, and indexed on both sides. *)
Lemma live_put n c id attrs ix ix' :
  (N.of_nat n < 2 ^ 32)%N -> attrs_short attrs ->
  (forall c', attrs_in (ix_collections ix') c' =
     if decide (c = c') then <[id := attrs]> (attrs_in (ix_collections ix) c') else attrs_in (ix_collections ix) c') ->
  ix_findex ix' = index_doc (ix_findex ix) c id attrs -> ix_fts ix' = fts_index_doc (ix_fts ix) c id attrs ->
  live_ok n ix -> live_ok (S n) ix'.
Proof.
  intros Hn Hshort Hcols Ex Ef [Hx Hf Hs].
  assert (forall A (schema : gmap rstring A), live_attrs schema (ix_collections ix') =
    alter <[id := attrs]> c (live_attrs schema (ix_collections ix))) as Hl.
  { intros A schema. apply live_attrs_alter; [intros c' Hne|]; rewrite Hcols; by case_decide. }
  split; rewrite ?Ex, ?Ef, ?index_doc_schema, ?fts_index_doc_schema, ?Hl.
  - by apply index_doc_ok.
  - apply fts_index_doc_ok; [done| |done]. intros fs fld _ _. apply Hshort.
  - intros c' id' a'. rewrite Hcols. case_decide; [|apply Hs]. intros [[_ <-]|[_ Ha]]%lookup_insert_Some; [done|].
    by eapply Hs.
Qed.

Lemma live_commit_staged n c fon on ix st :
  (N.of_nat n < 2 ^ 32)%N -> attrs_short st.2 ->
  (fon = false -> fts_active (ix_fts ix) = false) -> (on = false -> is_active (ix_findex ix) = false) ->
  live_ok n ix -> live_ok (S n) (commit_staged c fon on ix st).
Proof.
  destruct st as [[id rows] attrs]. intros Hn Hshort Hfon Hon. apply (live_put _ c id attrs); try done.
  - intros c'. unfold commit_staged. rewrite attrs_in_put. by destruct fon, on.
  - destruct on; [by destruct fon|]. rewrite index_doc_inactive by auto. by destruct fon.
  - destruct fon; [by destruct on|]. rewrite fts_index_doc_inactive by auto. by destruct on.
Qed.

Lemma commit_staged_schemas c fon on ix st :
  fs_schema (ix_fts (commit_staged c fon on ix st)) = fs_schema (ix_fts ix) /\
  fx_schema (ix_findex (commit_staged c fon on ix st)) = fx_schema (ix_findex ix).
Proof.
  destruct st as [[id rows] attrs]. destruct fon, on; cbn; by rewrite ?fts_index_doc_schema, ?index_doc_schema.
Qed.

Lemma live_touch n c ix : live_ok n ix -> live_ok n (set_collections (touch c (ix_collections ix)) ix).
Proof.
  intros [Hx Hf Hs]. split; cbn [ix_findex ix_fts ix_collections set_collections].
  - rewrite (live_attrs_ext _ (ix_collections ix)) by apply attrs_in_touch. done.
  - rewrite (live_attrs_ext _ (ix_collections ix)) by apply attrs_in_touch. done.
  - intros c' id attrs. rewrite attrs_in_touch. apply Hs.
Qed.

(** A whole batch. *)
Lemma live_commit_batch n c staged ix :
  (N.of_nat (n + length staged) < 2 ^ 32)%N -> Forall (fun st => attrs_short st.2) staged ->
  live_ok n ix -> live_ok (n + length staged) (commit_batch c staged ix).
Proof.
  intros Hn Hst Hl. unfold commit_batch.
  assert (live_ok n (set_collections (touch c (ix_collections ix)) ix)) as Hl' by by apply live_touch.
  revert Hl'. generalize (set_collections (touch c (ix_collections ix)) ix). clear Hl ix. intros ix Hl.
  assert (fts_active (ix_fts ix) = false -> fts_active (ix_fts ix) = false) as Hfon by done.
  assert (is_active (ix_findex ix) = false -> is_active (ix_findex ix) = false) as Hon by done.
  revert Hfon Hon. generalize (fts_active (ix_fts ix)) at 1 3. generalize (is_active (ix_findex ix)) at 1 3.
  intros on fon Hfon Hon. revert n ix Hn Hfon Hon Hl. induction Hst as [|st staged Hst _ IH]; intros n ix Hn Hfon Hon Hl.
  { cbn. by rewrite Nat.add_0_r. }
  cbn [foldl length] in *. rewrite <- Nat.add_succ_comm. destruct (commit_staged_schemas c fon on ix st) as [Es Ex].
  apply IH; [lia| | |].
  - unfold fts_active in *. by rewrite Es.
  - unfold is_active in *. by rewrite Ex.
  - apply live_commit_staged; [lia|done..].
Qed.

(** *** Removal *)

Lemma live_remove n c id ix :
  (N.of_nat n < 2 ^ 32)%N -> live_ok n ix -> live_ok n (remove_doc_entry c id ix).
Proof.
  intros Hn [Hx Hf Hs]. unfold remove_doc_entry.
  set (ix0 := set_findex _ _). assert (ix_collections ix0 = ix_collections ix) as Ec by done.
  assert (forall ix0, ix_findex (remove_entry c id ix0) = ix_findex ix0 /\ ix_fts (remove_entry c id ix0) = ix_fts ix0) as He.
  { intros i. unfold remove_entry. by destruct (ix_collections i !! c). }
  destruct (He ix0) as [Ex Ef].
  assert (forall A (schema : gmap rstring A), live_attrs schema (ix_collections (remove_entry c id ix0)) =
    alter (delete id) c (live_attrs schema (ix_collections ix))) as Hl.
  { intros A schema. apply live_attrs_alter; [intros c' Hne|]; rewrite attrs_in_remove, Ec; by case_decide. }
  split; rewrite ?Ex, ?Ef, ?Hl; cbn [ix0 ix_findex ix_fts set_findex set_fts].
  - by apply remove_doc_ok.
  - rewrite fts_remove_doc_schema. by apply fts_remove_doc_ok.
  - intros c' id' a. rewrite attrs_in_remove, Ec. case_decide; [|apply Hs]. intros [_ Ha]%lookup_delete_Some. by eapply Hs.
Qed.

Lemma live_sweep n targets ix :
  (N.of_nat n < 2 ^ 32)%N -> live_ok n ix -> live_ok n (sweep_commit ix targets).1.
Proof.
  intros Hn. unfold sweep_commit. generalize 0%nat. revert ix.
  induction targets as [|ci targets IH]; intros ix k Hl; [done|]. cbn [foldl].
  destruct (has_doc _ _ _); [|by apply IH]. apply IH. by apply live_remove.
Qed.

(** *** Declarations *)

Lemma live_drop n c ix :
  live_ok n ix ->
  let ix1 := add_dead (doc_rows (entry c (ix_collections ix))) (set_collections (delete c (ix_collections ix)) ix) in
  let ix2 := if fts_active (ix_fts ix1) then set_fts (fts_drop_collection (ix_fts ix1) c) ix1 else ix1 in
  live_ok n (if is_active (ix_findex ix2) then set_findex (findex_drop_collection (ix_findex ix2) c) ix2 else ix2).
Proof.
  intros [Hx Hf Hs] ix1 ix2.
  assert (forall A (schema : gmap rstring A), live_attrs (delete c schema) (delete c (ix_collections ix)) =
    delete c (live_attrs schema (ix_collections ix))) as Hl.
  { intros A schema. apply live_attrs_undeclare. intros c' Hne. by apply attrs_in_delete. }
  set (ix3 := if is_active (ix_findex ix2) then _ else _).
  assert (ix_collections ix3 = delete c (ix_collections ix)) as E3.
  { unfold ix3, ix2. by destruct (is_active _), (fts_active _). }
  assert (ix_fts ix3 = ix_fts ix2) as Ef by (unfold ix3; by destruct (is_active _)).
  assert (ix_findex ix2 = ix_findex ix) as Ex by (unfold ix2; by destruct (fts_active _)).
  split.
  - rewrite E3. unfold ix3. rewrite Ex. destruct (is_active (ix_findex ix)) eqn:Ea.
    + cbn [ix_findex set_findex fx_schema findex_drop_collection]. rewrite Hl. by apply findex_drop_collection_ok.
    + rewrite Ex. unfold is_active in Ea. apply negb_false_iff, bool_decide_eq_true in Ea.
      rewrite Ea in Hx |- *. unfold live_attrs in *. rewrite map_imap_empty in Hx |- *. exact Hx.
  - rewrite E3, Ef. unfold ix2. change (ix_fts ix1) with (ix_fts ix). destruct (fts_active (ix_fts ix)) eqn:Ea.
    + cbn [ix_fts set_fts fs_schema fts_drop_collection]. rewrite Hl. by apply fts_drop_collection_ok.
    + change (ix_fts ix1) with (ix_fts ix). unfold fts_active in Ea. apply negb_false_iff, bool_decide_eq_true in Ea.
      rewrite Ea in Hf |- *. unfold live_attrs in *. rewrite map_imap_empty in Hf |- *. exact Hf.
  - rewrite E3. intros c' id a. destruct (decide (c' = c)) as [->|Hne].
    + unfold attrs_in. rewrite lookup_delete_eq. by rewrite lookup_empty.
    + rewrite attrs_in_delete by done. apply Hs.
Qed.

(** *** Indexing many documents *)

Definition put_all (l : list (rstring * DocEntry)) (m : gmap rstring attrs_map) : gmap rstring attrs_map :=
  fold_left (fun m ie => <[ie.1 := de_attrs ie.2]> m) l m.

Lemma put_all_lookup l m id :
  NoDup l.*1 -> put_all l m !! id =
  match (list_to_map l : gmap rstring DocEntry) !! id with Some e => Some (de_attrs e) | None => m !! id end.
Proof.
  unfold put_all. revert m. induction l as [|[x e] l IH]; intros m Hnd; [done|]. cbn in Hnd.
  apply NoDup_cons in Hnd as [Hx Hnd]. cbn [fold_left]. rewrite IH, list_to_map_cons by done.
  destruct (decide (x = id)) as [<-|Hne].
  - rewrite lookup_insert_eq, (not_elem_of_list_to_map_1 l x Hx). by rewrite lookup_insert_eq.
  - by rewrite !lookup_insert_ne.
Qed.

Lemma put_all_entries (docs : gmap rstring DocEntry) : put_all (bt_entries docs) ∅ = de_attrs <$> docs.
Proof.
  apply map_eq. intros id. rewrite put_all_lookup by apply bt_keys_NoDup. rewrite list_to_map_bt_entries, lookup_fmap.
  destruct (docs !! id); [done|]. apply lookup_empty.
Qed.

Lemma alter_twice {V} (f g : V -> V) (c : rstring) (m : gmap rstring V) :
  alter f c (alter g c m) = alter (f ∘ g) c m.
Proof.
  apply map_eq. intros i. destruct (decide (c = i)) as [<-|]; [|by rewrite !lookup_alter_ne].
  rewrite !lookup_alter_eq. by destruct (m !! c).
Qed.

Lemma findex_fold n c l fx docs :
  (N.of_nat (n + length l) < 2 ^ 32)%N -> findex_exact n fx docs ->
  findex_exact (n + length l) (fold_left (fun fx ie => index_doc fx c ie.1 (de_attrs ie.2)) l fx)
    (alter (put_all l) c docs).
Proof.
  revert n fx docs. induction l as [|[id e] l IH]; intros n fx docs Hn Hok; cbn [fold_left length] in *.
  - rewrite Nat.add_0_r. replace (alter (put_all []) c docs) with docs; [done|]. symmetry. by apply alter_id.
  - rewrite <- Nat.add_succ_comm. apply (index_doc_ok n _ _ c id (de_attrs e)) in Hok; [|lia].
    apply IH in Hok; [|lia]. by rewrite alter_twice in Hok.
Qed.

Lemma fts_fold n c l f docs :
  (N.of_nat (n + length l) < 2 ^ 32)%N -> Forall (fun ie : rstring * DocEntry => attrs_short (de_attrs ie.2)) l ->
  fts_all_ok n f docs ->
  fts_all_ok (n + length l) (fold_left (fun f ie => fts_index_doc f c ie.1 (de_attrs ie.2)) l f)
    (alter (put_all l) c docs).
Proof.
  intros Hn Hl. revert n f docs Hn. induction Hl as [|[id e] l He _ IH]; intros n f docs Hn Hok; cbn [fold_left length] in *.
  - rewrite Nat.add_0_r. replace (alter (put_all []) c docs) with docs; [done|]. symmetry. by apply alter_id.
  - rewrite <- Nat.add_succ_comm. apply (fts_index_doc_ok n _ _ c id (de_attrs e)) in Hok; [|lia|intros; apply He].
    apply IH in Hok; [|lia]. by rewrite alter_twice in Hok.
Qed.

Lemma fold_index_schema c l fx :
  fx_schema (fold_left (fun fx (ie : rstring * DocEntry) => index_doc fx c ie.1 (de_attrs ie.2)) l fx) = fx_schema fx.
Proof. revert fx. induction l as [|ie l IH]; intros fx; [done|]. cbn [fold_left]. by rewrite IH, index_doc_schema. Qed.
Lemma fold_fts_schema c l f :
  fs_schema (fold_left (fun f (ie : rstring * DocEntry) => fts_index_doc f c ie.1 (de_attrs ie.2)) l f) = fs_schema f.
Proof. revert f. induction l as [|ie l IH]; intros f; [done|]. cbn [fold_left]. by rewrite IH, fts_index_doc_schema. Qed.

Lemma entries_short n c ix :
  live_ok n ix -> Forall (fun ie : rstring * DocEntry => attrs_short (de_attrs ie.2)) (bt_entries (cl_docs (entry c (ix_collections ix)))).
Proof.
  intros Hl. apply Forall_forall. intros [id e] He%elem_of_bt_entries. apply (lv_short _ _ Hl c id).
  by rewrite attrs_in_entry, lookup_fmap, He.
Qed.

(** The documents a declaration indexes. *)
Definition docs_count (c : rstring) (ix : Index) : nat := size (cl_docs (entry c (ix_collections ix))).

(** Declaring the text fields of a collection, and indexing its documents. *)
Lemma live_set_fts n c fields ix :
  (N.of_nat (n + docs_count c ix) < 2 ^ 32)%N -> NoDup (map fts_field fields) -> live_ok n ix ->
  live_ok (n + docs_count c ix) (index_collection_text c (set_fts (fts_set_schema (ix_fts ix) c fields) ix)).
Proof.
  intros Hn Hnd Hl. pose proof (entries_short n c ix Hl) as Hes. destruct Hl as [Hx Hf Hs].
  unfold docs_count in *. rewrite <- length_bt_entries in *.
  split; cbn [index_collection_text ix_findex ix_fts ix_collections set_fts].
  - eapply findex_exact_weaken; [|exact Hx]. lia.
  - rewrite fold_fts_schema. cbn [fs_schema fts_set_schema]. rewrite live_attrs_declare, attrs_in_entry.
    apply (fts_set_schema_ok n _ _ c fields Hnd), (fts_fold n c _ _ _ Hn Hes) in Hf.
    by rewrite alter_insert_eq, put_all_entries in Hf.
  - exact Hs.
Qed.

Lemma live_set_filter n c fields ix :
  (N.of_nat (n + docs_count c ix) < 2 ^ 32)%N -> NoDup (map fi_field fields) -> live_ok n ix ->
  live_ok (n + docs_count c ix) (index_collection c (set_findex (set_schema (ix_findex ix) c fields) ix)).
Proof.
  intros Hn Hnd [Hx Hf Hs]. unfold docs_count in *. rewrite <- length_bt_entries in *.
  split; cbn [index_collection ix_findex ix_fts ix_collections set_findex].
  - rewrite fold_index_schema. cbn [fx_schema set_schema].
    apply (set_schema_ok n _ _ c fields) in Hx; [|done]. apply (findex_fold n c _ _ _ Hn) in Hx.
    case_bool_decide.
    + rewrite (live_attrs_undeclare _ (ix_collections ix)) by done. rewrite alter_delete_eq in Hx. exact Hx.
    + rewrite live_attrs_declare, attrs_in_entry. by rewrite alter_insert_eq, put_all_entries in Hx.
  - eapply fts_all_ok_mono; [|exact Hf]. lia.
  - exact Hs.
Qed.

(** *** Changes no index sees *)

Lemma live_same_docs n ix ix' :
  (forall c, attrs_in (ix_collections ix') c = attrs_in (ix_collections ix) c) ->
  ix_findex ix' = ix_findex ix -> ix_fts ix' = ix_fts ix -> live_ok n ix -> live_ok n ix'.
Proof.
  intros Ha Ex Ef [Hx Hf Hs]. split; rewrite ?Ex, ?Ef.
  - by rewrite (live_attrs_ext _ (ix_collections ix)).
  - by rewrite (live_attrs_ext _ (ix_collections ix)).
  - intros c id a. rewrite Ha. apply Hs.
Qed.

Lemma attrs_in_relocated us m c : attrs_in (foldl relocate_doc m us) c = attrs_in m c.
Proof. revert m. induction us as [|u us IH]; intros m; [done|]. cbn [foldl]. by rewrite IH, attrs_in_relocate. Qed.

Lemma attrs_in_update c f ix c' :
  (forall col, cl_docs (f col) = cl_docs col) ->
  attrs_in (ix_collections (update_collection c f ix)) c' = attrs_in (ix_collections ix) c'.
Proof.
  intros Hf. unfold update_collection. cbn [ix_collections set_collections]. rewrite attrs_in_set.
  case_decide; [|done]. subst. by rewrite Hf, attrs_in_entry.
Qed.

Lemma fts_all_ok_ext n f docs docs' :
  fts_all_ok n f docs -> (forall c, is_Some (docs' !! c) <-> is_Some (docs !! c)) ->
  (forall c m fs fld, docs !! c = Some m -> fs_schema f !! c = Some fs -> fld ∈ fs ->
     exists m', docs' !! c = Some m' /\ doc_texts (fts_field fld) m' = doc_texts (fts_field fld) m) ->
  fts_all_ok n f docs'.
Proof.
  intros Hok Hdom He. split.
  - intros c. rewrite Hdom. apply Hok.
  - apply Hok.
  - apply Hok.
  - intros c field idx Hf. destruct (fa_field _ _ _ Hok _ _ _ Hf) as (m & fs & Hm & Hs & Hin & Hcfg & Hfo & Hl).
    destruct (He _ _ _ _ Hm Hs Hin) as (m' & Hm' & Et). exists m', fs. rewrite <- Hcfg, Et, Hcfg. done.
Qed.

Lemma findex_exact_ext n fx docs docs' :
  findex_exact n fx docs -> (forall c, is_Some (docs' !! c) <-> is_Some (docs !! c)) ->
  (forall c m fs f, docs !! c = Some m -> fx_schema fx !! c = Some fs -> f ∈ map fi_field fs ->
     exists m', docs' !! c = Some m' /\ docs_text f m' = docs_text f m) ->
  findex_exact n fx docs'.
Proof.
  intros Hok Hdom He. split.
  - intros c. rewrite Hdom. apply Hok.
  - apply Hok.
  - apply Hok.
  - intros c field idx Hf. destruct (xe_field _ _ _ Hok _ _ _ Hf) as (m & fs & g & Hm & Hs & Hg & <- & Ht & Hr & Hfo & Hl).
    destruct (He _ _ _ _ Hm Hs (list_elem_of_fmap_2 fi_field _ _ Hg)) as (m' & Hm' & Et). exists m', fs, g. by rewrite Et.
Qed.

(** *** Stamps *)

Lemma stamp_text ac la ex attrs k :
  (is_reinforced_attr k = false -> field_text (stamp_attrs ac la ex attrs) k = field_text attrs k) /\
  (field_text (stamp_attrs ac la ex attrs) k = [] \/ field_text (stamp_attrs ac la ex attrs) k = field_text attrs k).
Proof.
  split.
  - intros Hk. unfold is_reinforced_attr in Hk. apply orb_false_iff in Hk as [Hk K3].
    apply orb_false_iff in Hk as [K1 K2]. apply bool_decide_eq_false in K1, K2, K3.
    unfold field_text, stamp_attrs. destruct ex; rewrite !lookup_insert_ne by congruence; done.
  - unfold field_text, stamp_attrs. destruct ex; rewrite ?lookup_insert; repeat case_decide; auto.
Qed.

Lemma attrs_short_stamp ac la ex attrs : attrs_short attrs -> attrs_short (stamp_attrs ac la ex attrs).
Proof.
  intros Hs f. destruct (stamp_text ac la ex attrs (fts_field f)) as [_ [->| ->]]; [|apply Hs].
  assert (terms_of f [] = []) as -> by (unfold terms_of, analyze, analyze_spans; by destruct (an_language _)).
  done.
Qed.

(** A stamped collection, seen through a field the stamps do not touch. *)
Lemma stamped_texts {B} (g : attrs_map -> rstring -> B) (c id : rstring) (ac la : Z) (ex : option Z)
    (docs : gmap rstring (gmap rstring attrs_map)) (c' : rstring) (m : gmap rstring attrs_map) (k : rstring) :
  (forall attrs, g (stamp_attrs ac la ex attrs) k = g attrs k) -> docs !! c' = Some m ->
  exists m', alter (alter (stamp_attrs ac la ex) id) c docs !! c' = Some m' /\
    (fun a => g a k) <$> m' = (fun a => g a k) <$> m.
Proof.
  intros Hg Hm. rewrite lookup_alter. case_decide as E; [|by exists m]. subst c'. rewrite Hm. cbn.
  eexists. split; [done|]. apply map_eq. intros i. rewrite !lookup_fmap, lookup_alter. case_decide; [|done]. subst.
  destruct (m !! i); [|done]. cbn. by rewrite Hg.
Qed.

Lemma is_Some_alter {V} (h : V -> V) (c c' : rstring) (docs : gmap rstring V) :
  is_Some (alter h c docs !! c') <-> is_Some (docs !! c').
Proof. rewrite lookup_alter. case_decide; [|done]. subst. by rewrite fmap_is_Some. Qed.

(** A field outside the reinforced attributes, in every declaration of [c]. *)
Definition fts_unstamped (f : Fts) (c : rstring) : Prop :=
  forall fs fld, fs_schema f !! c = Some fs -> fld ∈ fs -> is_reinforced_attr (fts_field fld) = false.
Definition findex_unstamped (fx : Findex) (c : rstring) : Prop :=
  forall fs k, fx_schema fx !! c = Some fs -> k ∈ map fi_field fs -> is_reinforced_attr k = false.

Lemma fts_stamped_ok n f docs (c id : rstring) (ac la : Z) (ex : option Z) :
  fts_unstamped f c -> fts_all_ok n f docs -> fts_all_ok n f (alter (alter (stamp_attrs ac la ex) id) c docs).
Proof.
  intros Hu Hok. apply (fts_all_ok_ext _ _ docs); [done|intros; apply is_Some_alter|].
  intros c' m fs fld Hm Hs Hin. destruct (decide (c = c')) as [<-|Hne].
  - destruct (stamped_texts (fun a k => indexed_text k a) c id ac la ex docs c m (fts_field fld)) as (m' & Hm' & Et);
      [|done|].
    + intros a. unfold indexed_text. rewrite (proj1 (stamp_text _ _ _ _ _)); [done|]. by eapply Hu.
    + exists m'. split; [done|]. unfold doc_texts. apply map_eq. intros i. rewrite !lookup_omap.
      apply (f_equal (fun x : gmap rstring (option rstring) => x !! i)) in Et. rewrite !lookup_fmap in Et.
      destruct (m' !! i), (m !! i); cbn in *; congruence.
  - exists m. by rewrite lookup_alter_ne.
Qed.

Lemma findex_stamped_ok n fx docs (c id : rstring) (ac la : Z) (ex : option Z) :
  findex_unstamped fx c -> findex_exact n fx docs -> findex_exact n fx (alter (alter (stamp_attrs ac la ex) id) c docs).
Proof.
  intros Hu Hok. apply (findex_exact_ext _ _ docs); [done|intros; apply is_Some_alter|].
  intros c' m fs k Hm Hs Hin. destruct (decide (c = c')) as [<-|Hne].
  - apply (stamped_texts field_text); [|done]. intros a. apply stamp_text. by eapply Hu.
  - exists m. by rewrite lookup_alter_ne.
Qed.

Lemma alter_known {V} (h : V -> V) (id : rstring) (m : gmap rstring V) a :
  m !! id = Some a -> alter h id m = <[id := h a]> m.
Proof.
  intros Ha. apply map_eq. intros i. rewrite lookup_alter. case_decide as E.
  - subst. by rewrite Ha, lookup_insert_eq.
  - by rewrite lookup_insert_ne.
Qed.

Lemma live_commit_stamp n c now fon on acc st :
  (N.of_nat n < 2 ^ 32)%N ->
  (fon = false -> fts_unstamped (ix_fts acc.1) c) -> (on = false -> findex_unstamped (ix_findex acc.1) c) ->
  live_ok n acc.1 -> live_ok (S n) (commit_stamp c now fon on acc st).1.
Proof.
  destruct acc as [ix k], st as [[id ac] ex]. cbn [fst]. intros Hn Hfon Hon Hl. unfold commit_stamp. cbn [fst snd].
  destruct (has_doc c id ix) eqn:Hd; [|apply (live_ok_mono n); [lia|done]].
  unfold has_doc in Hd. destruct (ix_collections ix !! c) as [col|] eqn:Ec; [|done].
  apply bool_decide_eq_true in Hd as [e0 He0].
  set (ixs := stamp_doc c id ac now ex ix). cbn [fst].
  assert (attrs_in (ix_collections ix) c !! id = Some (de_attrs e0)) as Ha.
  { unfold attrs_in. by rewrite Ec, lookup_fmap, He0. }
  assert (exists e, cl_docs (entry c (ix_collections ixs)) !! id = Some e /\
            de_attrs e = stamp_attrs ac now ex (de_attrs e0)) as (e & He & Eattrs).
  { unfold ixs, stamp_doc, entry. rewrite Ec. cbn [ix_collections set_collections]. rewrite lookup_insert_eq. cbn.
    rewrite lookup_alter_eq, He0. by eexists. }
  rewrite He, Eattrs. set (a := stamp_attrs ac now ex (de_attrs e0)).
  assert (ix_fts ixs = ix_fts ix /\ ix_findex ixs = ix_findex ix) as [Efs Exs].
  { unfold ixs, stamp_doc. by rewrite Ec. }
  set (ix1 := if fon then _ else _). set (ix' := if on then _ else _).
  assert (ix_collections ix' = ix_collections ixs) as Ecols by (unfold ix', ix1; by destruct on, fon).
  assert (ix_fts ix' = if fon then fts_index_doc (ix_fts ix) c id a else ix_fts ix) as Ef.
  { unfold ix', ix1. rewrite <- Efs. by destruct on, fon. }
  assert (ix_findex ix' = if on then index_doc (ix_findex ix) c id a else ix_findex ix) as Ex.
  { unfold ix', ix1. rewrite <- Exs. by destruct on, fon. }
  destruct Hl as [Hx Hf Hs]. pose proof (attrs_short_stamp ac now ex _ (Hs _ _ _ Ha)) as Hshort. fold a in Hshort.
  assert (forall A (schema : gmap rstring A), live_attrs schema (ix_collections ixs) =
    alter (alter (stamp_attrs ac now ex) id) c (live_attrs schema (ix_collections ix))) as Hl.
  { intros A schema. apply live_attrs_alter; [intros c' Hne|]; unfold ixs; rewrite attrs_in_stamp; by case_decide. }
  assert (forall A (schema : gmap rstring A), live_attrs schema (ix_collections ixs) =
    alter <[id := a]> c (live_attrs schema (ix_collections ix))) as Hl'.
  { intros A schema. apply live_attrs_alter; [intros c' Hne|]; unfold ixs; rewrite attrs_in_stamp; case_decide; try done.
    by apply alter_known. }
  split; rewrite ?Ecols.
  - rewrite Ex. destruct on.
    + rewrite index_doc_schema, Hl'. by apply index_doc_ok.
    + rewrite Hl. apply (findex_exact_weaken n); [lia|]. apply findex_stamped_ok; auto.
  - rewrite Ef. destruct fon.
    + rewrite fts_index_doc_schema, Hl'. apply fts_index_doc_ok; [done|intros; apply Hshort|done].
    + rewrite Hl. apply (fts_all_ok_mono n); [lia|]. apply fts_stamped_ok; auto.
  - intros c' id' a'. unfold ixs. rewrite attrs_in_stamp. case_decide; [|apply Hs]. subst c'.
    rewrite (alter_known _ _ _ _ Ha). intros [[_ <-]|[_ ?]]%lookup_insert_Some; [done|by eapply Hs].
Qed.

Lemma commit_stamp_schemas c now fon on acc st :
  fs_schema (ix_fts (commit_stamp c now fon on acc st).1) = fs_schema (ix_fts acc.1) /\
  fx_schema (ix_findex (commit_stamp c now fon on acc st).1) = fx_schema (ix_findex acc.1).
Proof.
  destruct acc as [ix k], st as [[id ac] ex]. unfold commit_stamp. cbn [fst]. destruct (has_doc c id ix); [|done].
  cbn [fst]. assert (ix_fts (stamp_doc c id ac now ex ix) = ix_fts ix /\ ix_findex (stamp_doc c id ac now ex ix) = ix_findex ix)
    as [Ef Ex] by (unfold stamp_doc; by destruct (ix_collections ix !! c)).
  case_match; [|by rewrite Ef, Ex].
  destruct fon, on; cbn; rewrite ?fts_index_doc_schema, ?index_doc_schema, ?Ef, ?Ex; done.
Qed.

Lemma live_stamps n c now fon on stamps acc :
  (N.of_nat (n + length stamps) < 2 ^ 32)%N ->
  (fon = false -> fts_unstamped (ix_fts acc.1) c) -> (on = false -> findex_unstamped (ix_findex acc.1) c) ->
  live_ok n acc.1 -> live_ok (n + length stamps) (foldl (commit_stamp c now fon on) acc stamps).1.
Proof.
  revert n acc. induction stamps as [|st stamps IH]; intros n acc Hn Hfon Hon Hl; cbn [foldl length] in *.
  { by rewrite Nat.add_0_r. }
  destruct (commit_stamp_schemas c now fon on acc st) as [Es Ex]. rewrite <- Nat.add_succ_comm.
  apply IH; [lia| | |apply live_commit_stamp; [lia|done..]].
  - unfold fts_unstamped. by rewrite Es.
  - unfold findex_unstamped. by rewrite Ex.
Qed.

(** *** Rebuilding *)

(** What a rebuild starts from: well-formed declarations, whatever they hold. *)
Record declared_ok (n : nat) (ix : Index) : Prop := {
  dc_findex : exists docs, findex_exact n (ix_findex ix) docs;
  dc_fts : exists docs, fts_all_ok n (ix_fts ix) docs;
  dc_short : forall c id attrs, attrs_in (ix_collections ix) c !! id = Some attrs -> attrs_short attrs
}.

Lemma live_declared n ix : live_ok n ix -> declared_ok n ix.
Proof. intros [Hx Hf Hs]. split; eauto. Qed.

Definition docs_total (cols : list (rstring * Collection)) : nat := list_sum (map (fun nc => size (cl_docs nc.2)) cols).

Definition fill (l : list (rstring * Collection)) (docs : gmap rstring (gmap rstring attrs_map))
  : gmap rstring (gmap rstring attrs_map) :=
  fold_left (fun d nc => alter (put_all (bt_entries (cl_docs nc.2))) nc.1 d) l docs.

Lemma fill_lookup l docs c :
  NoDup l.*1 -> fill l docs !! c =
  match (list_to_map l : gmap rstring Collection) !! c with
  | Some col => put_all (bt_entries (cl_docs col)) <$> docs !! c
  | None => docs !! c
  end.
Proof.
  unfold fill. revert docs. induction l as [|[x col] l IH]; intros docs Hnd; [done|]. cbn in Hnd.
  apply NoDup_cons in Hnd as [Hx Hnd]. cbn [fold_left fst snd]. rewrite IH, list_to_map_cons by done.
  destruct (decide (x = c)) as [<-|Hne].
  - rewrite lookup_insert_eq, (not_elem_of_list_to_map_1 l x Hx). by rewrite lookup_alter_eq.
  - by rewrite lookup_insert_ne, lookup_alter_ne.
Qed.

Lemma fill_live {A} (schema : gmap rstring A) (cols : gmap rstring Collection) (docs : gmap rstring (gmap rstring attrs_map)) :
  (forall c, is_Some (schema !! c) <-> is_Some (docs !! c)) ->
  fill (bt_entries cols) ((fun _ => ∅) <$> docs) = live_attrs schema cols.
Proof.
  intros Hdom. apply map_eq. intros c. rewrite fill_lookup by apply bt_keys_NoDup.
  rewrite list_to_map_bt_entries, lookup_live_attrs, lookup_fmap. unfold attrs_in.
  specialize (Hdom c). destruct (schema !! c), (docs !! c); cbn;
    [|by destruct Hdom as [[? ?] _]|by destruct Hdom as [_ [? ?]]|by destruct (cols !! c)].
  destruct (cols !! c); cbn; [|done]. by rewrite put_all_entries.
Qed.

Lemma findex_fill n l fx docs :
  (N.of_nat (n + docs_total l) < 2 ^ 32)%N -> findex_exact n fx docs ->
  findex_exact (n + docs_total l)
    (fold_left (fun fx nc => fold_left (fun fx ie => index_doc fx nc.1 ie.1 (de_attrs ie.2)) (bt_entries (cl_docs nc.2)) fx)
       l fx) (fill l docs).
Proof.
  revert n fx docs. induction l as [|nc l IH]; intros n fx docs Hn Hok; [by rewrite Nat.add_0_r|].
  unfold docs_total in *. cbn [fold_left map list_sum foldr] in *. unfold list_sum in *. rewrite Nat.add_assoc in *.
  rewrite <- (length_bt_entries (cl_docs nc.2)) in *. apply IH; [done|]. apply findex_fold; [lia|done].
Qed.

Lemma fts_fill n (l : list (rstring * Collection)) f docs :
  (N.of_nat (n + docs_total l) < 2 ^ 32)%N ->
  Forall (fun nc : rstring * Collection => Forall (fun ie : rstring * DocEntry => attrs_short (de_attrs ie.2)) (bt_entries (cl_docs nc.2))) l ->
  fts_all_ok n f docs ->
  fts_all_ok (n + docs_total l)
    (fold_left (fun f nc => match fs_schema f !! nc.1 with
       | None => f
       | Some _ => fold_left (fun f ie => fts_index_doc f nc.1 ie.1 (de_attrs ie.2)) (bt_entries (cl_docs nc.2)) f
       end) l f) (fill l docs).
Proof.
  intros Hn Hl. revert n f docs Hn. induction Hl as [|nc l Hnc _ IH]; intros n f docs Hn Hok; [by rewrite Nat.add_0_r|].
  unfold docs_total in *. cbn [fold_left map list_sum foldr] in *. unfold list_sum in *. rewrite Nat.add_assoc in *.
  rewrite <- (length_bt_entries (cl_docs nc.2)) in *. apply IH; [done|].
  apply (fts_fold n nc.1 (bt_entries (cl_docs nc.2))) in Hok; [|lia|exact Hnc]. destruct (fs_schema f !! nc.1) eqn:Es; [done|].
  replace (fold_left (fun f ie => fts_index_doc f nc.1 ie.1 (de_attrs ie.2)) (bt_entries (cl_docs nc.2)) f) with f in Hok; [done|].
  clear -Es. induction (bt_entries (cl_docs nc.2)) as [|ie l IH]; [done|]. cbn [fold_left].
  replace (fts_index_doc f nc.1 ie.1 (de_attrs ie.2)) with f; [done|]. unfold fts_index_doc. by rewrite Es.
Qed.

Lemma cols_short ix n :
  declared_ok n ix ->
  Forall (fun nc : rstring * Collection => Forall (fun ie : rstring * DocEntry => attrs_short (de_attrs ie.2)) (bt_entries (cl_docs nc.2)))
    (bt_entries (ix_collections ix)).
Proof.
  intros Hd. apply Forall_forall. intros [c col] Hc%elem_of_bt_entries. apply Forall_forall.
  intros [id e] He%elem_of_bt_entries. apply (dc_short _ _ Hd c id). cbn in He. unfold attrs_in. by rewrite Hc, lookup_fmap, He.
Qed.

Lemma findex_fill_schema (l : list (rstring * Collection)) fx :
  fx_schema (fold_left (fun fx nc => fold_left (fun fx ie => index_doc fx nc.1 ie.1 (de_attrs ie.2))
    (bt_entries (cl_docs nc.2)) fx) l fx) = fx_schema fx.
Proof. revert fx. induction l as [|nc l IH]; intros fx; [done|]. cbn [fold_left]. by rewrite IH, fold_index_schema. Qed.

Lemma fts_fill_schema (l : list (rstring * Collection)) f :
  fs_schema (fold_left (fun f nc => match fs_schema f !! nc.1 with
       | None => f
       | Some _ => fold_left (fun f ie => fts_index_doc f nc.1 ie.1 (de_attrs ie.2)) (bt_entries (cl_docs nc.2)) f
       end) l f) = fs_schema f.
Proof.
  revert f. induction l as [|nc l IH]; intros f; [done|]. cbn [fold_left]. rewrite IH.
  destruct (fs_schema f !! nc.1); [apply fold_fts_schema|done].
Qed.

Lemma rebuilt_findex n ix docs :
  (N.of_nat (n + docs_total (bt_entries (ix_collections ix))) < 2 ^ 32)%N -> findex_exact n (ix_findex ix) docs ->
  findex_exact (n + docs_total (bt_entries (ix_collections ix))) (ix_findex (rebuild_findex ix))
    (live_attrs (fx_schema (ix_findex (rebuild_findex ix))) (ix_collections ix)).
Proof.
  intros Hn Hx. unfold rebuild_findex. destruct (is_active (ix_findex ix)) eqn:Ea; cbn [negb].
  - cbn [ix_findex set_findex]. rewrite findex_fill_schema. cbn [fx_schema clear_indexes].
    rewrite <- (fill_live (fx_schema (ix_findex ix)) _ docs) by apply Hx.
    apply findex_fill; [done|]. by apply clear_indexes_ok.
  - unfold is_active in Ea. apply negb_false_iff, bool_decide_eq_true in Ea.
    apply (findex_exact_weaken n); [lia|]. replace (live_attrs _ _) with docs; [done|].
    apply map_eq. intros c. rewrite lookup_live_attrs, Ea, lookup_empty. apply eq_None_not_Some.
    rewrite <- (xe_dom _ _ _ Hx), Ea, lookup_empty. by intros [? ?].
Qed.

Lemma rebuilt_fts n ix docs :
  (N.of_nat (n + docs_total (bt_entries (ix_collections ix))) < 2 ^ 32)%N -> declared_ok n ix ->
  fts_all_ok n (ix_fts ix) docs ->
  fts_all_ok (n + docs_total (bt_entries (ix_collections ix))) (ix_fts (rebuild_fts ix))
    (live_attrs (fs_schema (ix_fts (rebuild_fts ix))) (ix_collections ix)).
Proof.
  intros Hn Hd Hf. unfold rebuild_fts. destruct (fts_active (ix_fts ix)) eqn:Ea; cbn [negb].
  - cbn [ix_fts set_fts]. rewrite fts_fill_schema. cbn [fs_schema fts_clear_indexes].
    rewrite <- (fill_live (fs_schema (ix_fts ix)) _ docs) by apply Hf.
    apply fts_fill; [done|by eapply cols_short|].
    apply (fts_all_ok_mono 0); [lia|]. by eapply fts_clear_indexes_ok.
  - unfold fts_active in Ea. apply negb_false_iff, bool_decide_eq_true in Ea.
    apply (fts_all_ok_mono n); [lia|]. replace (live_attrs _ _) with docs; [done|].
    apply map_eq. intros c. rewrite lookup_live_attrs, Ea, lookup_empty. apply eq_None_not_Some.
    rewrite <- (fa_dom _ _ _ Hf), Ea, lookup_empty. by intros [? ?].
Qed.

(** Rebuilding both indexes from the documents. *)
Lemma live_rebuild n ix :
  (N.of_nat (n + docs_total (bt_entries (ix_collections ix))) < 2 ^ 32)%N -> declared_ok n ix ->
  live_ok (n + docs_total (bt_entries (ix_collections ix))) (rebuild_findex (rebuild_fts ix)).
Proof.
  intros Hn Hd. destruct (dc_findex _ _ Hd) as [dx Hx], (dc_fts _ _ Hd) as [df Hf].
  assert (ix_collections (rebuild_fts ix) = ix_collections ix /\ ix_findex (rebuild_fts ix) = ix_findex ix) as [Ec Ex].
  { unfold rebuild_fts. by destruct (negb _). }
  assert (ix_collections (rebuild_findex (rebuild_fts ix)) = ix_collections (rebuild_fts ix) /\
          ix_fts (rebuild_findex (rebuild_fts ix)) = ix_fts (rebuild_fts ix)) as [Ec' Ef].
  { unfold rebuild_findex. by destruct (negb _). }
  split; rewrite ?Ec', ?Ef, Ec; [| |apply Hd].
  - pose proof (rebuilt_findex n (rebuild_fts ix) dx) as Hr. rewrite Ec, Ex in Hr. by apply Hr.
  - by eapply rebuilt_fts.
Qed.
End live.
