(* ===== verification/Live.v ===== *)
(** * Live: every write keeps the derived indexes in step

    [history]: any sequence of write operations on a store, each of them
    succeeding, failing at any backend call or cut short, with the files
    changing arbitrarily in between.  [history_live] shows that the filter and
    full-text indexes hold exactly the live documents all along, so queries
    may rely on them; [reopened_live] that what opening does over a replayed
    log establishes it. *)
From S2P Require Import Prelude Floats Model Config TextPred Filter Postings Literal Findex Narrow Std Analyzer Fts FtsStore.
From S2P Require Import Backend Codec Log Data IndexCache Manifest Segments Lease Replay Store StoreWrite StoreOpen.
From S2P Require Import Effect LiveIndex.

(** ** From a known index *)

(** [m], started on index [ix], leaves one in [Q], however it ends. *)
Definition leads {A} (ix : Index) (Q : Index -> Prop) (m : M Store A) : Prop :=
  forall s w, st_index s = ix -> Q (st_index (m s w).1.2).
(** Whatever [m] returns is in [P]. *)
Definition gives {A} (P : A -> Prop) (m : M Store A) : Prop :=
  forall s w a s' w', m s w = (Ret a, s', w') -> P a.

Section leads.
Context (ix : Index) (Q : Index -> Prop).

Lemma leads_quiet {A} (m : M Store A) : via eq m -> Q ix -> leads ix Q m.
Proof. intros Hm HQ s w Hs. by rewrite <- (Hm s w), Hs. Qed.

Lemma leads_bind_gives {A B} (P : A -> Prop) (m : M Store A) (k : A -> M Store B) :
  via eq m -> gives P m -> Q ix -> (forall a, P a -> leads ix Q (k a)) -> leads ix Q (bind m k).
Proof.
  intros Hm HP HQ Hk s w Hs. unfold bind. specialize (Hm s w).
  destruct (m s w) as [[[a|e|] s'] w'] eqn:E; cbn [fst snd] in *; [|by rewrite <- Hm, Hs..].
  apply Hk; [by eapply HP|]. by rewrite <- Hm.
Qed.

Lemma leads_bind {A B} (m : M Store A) (k : A -> M Store B) :
  via eq m -> Q ix -> (forall a, leads ix Q (k a)) -> leads ix Q (bind m k).
Proof. intros Hm HQ Hk. apply (leads_bind_gives (fun _ => True)); auto. by intros ? ? ? ? ?. Qed.

Lemma leads_get {B} (k : Store -> M Store B) :
  (forall s, st_index s = ix -> leads ix Q (k s)) -> leads ix Q (bind get_st k).
Proof. intros Hk s w Hs. by apply Hk. Qed.

Lemma leads_modify f : Q (f ix) -> leads ix Q (modify_index f).
Proof. intros HQ s w Hs. cbn. by rewrite Hs. Qed.
Lemma leads_modify_bind {B} f (k : M Store B) :
  leads (f ix) Q k -> leads ix Q (bind (modify_index f) (fun _ => k)).
Proof. intros Hk s w Hs. apply Hk. cbn. by rewrite Hs. Qed.

Lemma leads_bind_last {A B} (m : M Store A) (k : A -> M Store B) :
  leads ix Q m -> (forall a, via eq (k a)) -> leads ix Q (bind m k).
Proof.
  intros Hm Hk s w Hs. unfold bind. specialize (Hm s w Hs).
  destruct (m s w) as [[[a|e|] s'] w']; cbn [fst snd] in *; [|done..]. by rewrite <- (Hk a s' w').
Qed.

Lemma leads_when b m : Q ix -> leads ix Q m -> leads ix Q (when b m).
Proof. intros HQ Hm. destruct b; [done|]. apply leads_quiet; [apply via_ret; apply _|done]. Qed.
End leads.

Lemma leads_bind_leads {A B} ix (P Q : Index -> Prop) (m : M Store A) (k : A -> M Store B) :
  leads ix P m -> (forall ix', P ix' -> Q ix') -> (forall ix' a, P ix' -> leads ix' Q (k a)) -> leads ix Q (bind m k).
Proof.
  intros Hm HPQ Hk s w Hs. unfold bind. specialize (Hm s w Hs).
  destruct (m s w) as [[[a|e|] s'] w']; cbn [fst snd] in *; [|by apply HPQ..]. by eapply Hk.
Qed.

(** Steps of a handler on a known index. *)
Ltac quiet := solve [via_auto].
Ltac quietly := apply leads_bind; [quiet|assumption|intros ?].
Ltac done_quietly := apply leads_quiet; [quiet|assumption].

(** ** What a batch stages *)

Section staging.
Context {T} (obs : Store -> T) `{!Blind obs}.

Lemma append_vectors_quiet mark norm named rows : seen obs eq (append_vectors mark norm named rows).
Proof.
  revert rows. induction named as [|[name v] named IH]; intros rows; cbn [append_vectors]; [quiet|].
  apply via_bind; [apply _|quiet|]. intros row. apply IH.
Qed.

Lemma append_records_quiet mark norm records per staged : seen obs eq (append_records mark norm records per staged).
Proof.
  revert per staged. induction records as [|rec records IH]; intros [|named per] staged; cbn [append_records]; try quiet.
  apply via_bind; [apply _|apply append_vectors_quiet|]. intros rows. apply IH.
Qed.
End staging.

Lemma append_records_gives mark norm records per staged :
  gives (fun out => exists more, out = staged ++ more /\ (length more <= length records)%nat /\
    Forall (fun st : rstring * gmap rstring nat * attrs_map => exists rec, rec ∈ records /\ st.2 = rec_attrs rec) more)
    (append_records mark norm records per staged).
Proof.
  revert per staged. induction records as [|rec records IH]; intros [|named per] staged s w out s' w'; cbn [append_records];
    try (intros [= <- _ _]; exists []; rewrite app_nil_r; split_and!; [done|cbn; lia|constructor]).
  unfold bind. destruct (append_vectors _ _ _ _ s w) as [[[rows|e|] s1] w1]; [|done..].
  intros (more & -> & Hl & Hf)%IH. exists ((rec_id rec, rows, rec_attrs rec) :: more). split_and!.
  - by rewrite <- app_assoc.
  - cbn [length]. lia.
  - constructor; [exists rec; split; [by left|done]|]. eapply Forall_impl; [exact Hf|].
    intros st (rec' & ? & ?). exists rec'. split; [by right|done].
Qed.

(** ** The handlers *)

Section handlers.
Context `{Crc32} `{Codec Op} `{Codec Manifest} `{Codec HistoryEntry} `{Codec HistoryFloor} `{Codec Z}.
Context `{UnicodeAlnum} `{UnicodeLower} `{HashIter} `{RegexEngine} `{RegexSyntax} `{HashOrder}.

Definition fits (n : nat) : Prop := (N.of_nat n < 2 ^ 32)%N.

Lemma create_live n ix name : live_ok n ix -> leads ix (live_ok n) (create_collection name).
Proof.
  intros Hl. unfold create_collection. quietly. apply leads_get. intros s _. case_match; [apply leads_quiet; [quiet|done]|].
  case_match; [apply leads_quiet; [quiet|done]|]. apply leads_modify_bind, leads_quiet; [quiet|]. by apply live_touch.
Qed.

Lemma drop_live n ix name : live_ok n ix -> leads ix (live_ok n) (drop_collection name).
Proof.
  intros Hl. unfold drop_collection. quietly. quietly.
  apply leads_get. intros s Hs. case_match; [done_quietly|].
  destruct (st_collections s !! name) as [col|] eqn:Ec; [|done_quietly].
  assert (entry name (ix_collections ix) = col) as Ee.
  { subst ix. unfold entry. change (ix_collections (st_index s)) with (st_collections s). by rewrite Ec. }
  do 3 apply leads_modify_bind. apply leads_quiet; [quiet|]. pose proof (live_drop n name ix Hl) as Hd. by rewrite Ee in Hd.
Qed.

Lemma docs_count_touch c ix : docs_count c (set_collections (touch c (ix_collections ix)) ix) = docs_count c ix.
Proof. unfold docs_count. cbn. unfold touch, entry. by rewrite lookup_insert_eq. Qed.

Lemma set_fts_live n ix c fields :
  fits (n + docs_count c ix) -> NoDup (map fts_field fields) -> live_ok n ix ->
  leads ix (live_ok (n + docs_count c ix)) (set_fts_schema c fields).
Proof.
  intros Hn Hnd Hl. assert (live_ok (n + docs_count c ix) ix) as Hl' by (apply (live_ok_mono n); [lia|done]).
  unfold set_fts_schema. quietly. quietly.
  case_match; [|done_quietly]. unfold implicit_create. apply leads_modify_bind.
  apply (live_touch n c) in Hl. apply (live_touch _ c) in Hl'.
  rewrite <- (docs_count_touch c ix) in Hn, Hl' |- *. revert Hn Hl Hl'.
  generalize (set_collections (touch c (ix_collections ix)) ix). intros ix' Hn Hl Hl'.
  do 2 quietly. apply leads_modify_bind, leads_modify. by apply live_set_fts.
Qed.

Lemma set_filter_live n ix c fields :
  fits (n + docs_count c ix) -> live_ok n ix -> leads ix (live_ok (n + docs_count c ix)) (set_filter_index c fields).
Proof.
  intros Hn Hl. assert (live_ok (n + docs_count c ix) ix) as Hl' by (apply (live_ok_mono n); [lia|done]).
  unfold set_filter_index. quietly. quietly.
  destruct (findex_validate fields) as [[]|] eqn:Ev; [|done_quietly].
  apply findex_validate_from_ok in Ev as [_ Hnd]. unfold implicit_create. apply leads_modify_bind.
  apply (live_touch n c) in Hl. apply (live_touch _ c) in Hl'.
  rewrite <- (docs_count_touch c ix) in Hn, Hl' |- *. revert Hn Hl Hl'.
  generalize (set_collections (touch c (ix_collections ix)) ix). intros ix' Hn Hl Hl'.
  do 2 quietly. apply leads_modify_bind, leads_modify. by apply live_set_filter.
Qed.

Lemma update_live n ix c f :
  (forall col, cl_docs (f col) = cl_docs col) -> live_ok n ix -> live_ok n (update_collection c f ix).
Proof. intros Hf. apply live_same_docs; [|done..]. intros c'. by apply attrs_in_update. Qed.

Lemma set_names_live n ix c names : live_ok n ix -> leads ix (live_ok n) (set_vector_names c names).
Proof.
  intros Hl. unfold set_vector_names, implicit_create. do 3 quietly. apply leads_modify_bind.
  apply (live_touch n c) in Hl. do 2 quietly. apply leads_modify. by apply update_live.
Qed.

Lemma set_meta_live n ix c meta : live_ok n ix -> leads ix (live_ok n) (set_meta c meta).
Proof.
  intros Hl. unfold set_meta. quietly. apply leads_modify_bind, leads_quiet; [quiet|]. by apply update_live.
Qed.

(** *** Upserts *)

Lemma upsert_batch_live n ix c need records per :
  fits (n + length records) -> Forall (fun rec => attrs_short (rec_attrs rec)) records -> live_ok n ix ->
  leads ix (live_ok (n + length records)) (upsert_batch c need records per).
Proof.
  intros Hn Hs Hl. assert (live_ok (n + length records) ix) as Hl' by (apply (live_ok_mono n); [lia|done]).
  unfold upsert_batch. apply leads_get. intros s _. apply leads_bind; [quiet|done|intros log_mark].
  eapply leads_bind_gives; [apply (append_records_quiet st_index)|apply append_records_gives|done|].
  intros staged (more & -> & Hlen & Hmore). cbn [app]. do 3 quietly.
  apply leads_modify_bind. apply leads_quiet; [quiet|]. apply (live_ok_mono (n + length more)); [lia|].
  apply live_commit_batch; [unfold fits in Hn; lia| |done]. eapply Forall_impl; [exact Hmore|].
  intros st (rec & Hin & ->). rewrite Forall_forall in Hs. by apply Hs.
Qed.

Lemma upsert_live n ix c records :
  fits (n + length records) -> Forall (fun rec => attrs_short (rec_attrs rec)) records -> live_ok n ix ->
  leads ix (live_ok (n + length records)) (upsert c records).
Proof.
  intros Hn Hs Hl. assert (live_ok (n + length records) ix) as Hl' by (apply (live_ok_mono n); [lia|done]).
  unfold upsert. quietly. apply leads_get. intros s _.
  apply leads_bind; [quiet|done|intros per]. case_match.
  - apply leads_bind_last; [|intros; quiet]. apply leads_when; [done|].
    do 2 quietly. apply leads_modify. by apply live_touch.
  - quietly. apply leads_get. intros s' _. case_match; [done_quietly|].
    by apply upsert_batch_live.
Qed.

(** *** Deletes *)

Lemma delete_loop_live n ix c ids count :
  fits n -> live_ok n ix -> leads ix (live_ok n) (delete_loop c ids count).
Proof.
  intros Hn. revert ix count. induction ids as [|id ids IH]; intros ix count Hl; cbn [delete_loop]; [done_quietly|].
  apply leads_get. intros s _. case_match; [|by apply IH]. apply leads_modify_bind.
  apply (live_remove n c id) in Hl; [|done]. quietly. by apply IH.
Qed.

Lemma delete_live n ix c ids : fits n -> live_ok n ix -> leads ix (live_ok n) (store_delete c ids).
Proof.
  intros Hn Hl. unfold store_delete. quietly. apply leads_get. intros s _.
  case_match; [done_quietly|]. apply leads_bind_last; [by apply delete_loop_live|]. intros. quiet.
Qed.

Lemma delete_where_live n ix c f : fits n -> live_ok n ix -> leads ix (live_ok n) (delete_where c f).
Proof.
  intros Hn Hl. unfold delete_where. quietly. apply leads_get. intros s _.
  case_match; [|done_quietly]. case_match; [done_quietly|]. by apply delete_live.
Qed.

Lemma delete_all_live n ix f : fits n -> live_ok n ix -> leads ix (live_ok n) (delete_where_all f).
Proof.
  intros Hn Hl. unfold delete_where_all. quietly. apply leads_get. intros s _.
  case_match; [done_quietly|]. do 3 quietly.
  apply leads_get. intros s' Hs'. apply leads_modify_bind. apply leads_quiet; [quiet|]. rewrite Hs'. by apply live_sweep.
Qed.

(** *** Reinforcement *)

Lemma unstamped_fts f c :
  fts_active f && match fs_schema f !! c with
                  | Some d => existsb (fun fld => is_reinforced_attr (fts_field fld)) d
                  | None => false
                  end = false -> fts_unstamped f c.
Proof.
  intros Hb fs fld Hs Hin. rewrite Hs in Hb. unfold fts_active in Hb.
  rewrite bool_decide_eq_false_2 in Hb by (intros E; by rewrite E, lookup_empty in Hs). cbn in Hb.
  apply not_true_iff_false. intros Hr. apply not_true_iff_false in Hb. apply Hb, existsb_exists.
  exists fld. split; [by apply list_elem_of_In|done].
Qed.

Lemma unstamped_findex fx c :
  is_active fx && match schema_for fx c with
                  | Some d => existsb (fun f => is_reinforced_attr (fi_field f)) d
                  | None => false
                  end = false -> findex_unstamped fx c.
Proof.
  intros Hb fs k Hs Hin. unfold schema_for in Hb. rewrite Hs in Hb. unfold is_active in Hb.
  rewrite bool_decide_eq_false_2 in Hb by (intros E; by rewrite E, lookup_empty in Hs). cbn in Hb.
  apply not_true_iff_false. intros Hr. apply not_true_iff_false in Hb. apply Hb, existsb_exists.
  apply list_elem_of_fmap in Hin as (f & -> & Hf). exists f. split; [by apply list_elem_of_In|done].
Qed.

Lemma length_stamps col now extend ids : (length (stamps_of col now extend ids) <= length ids)%nat.
Proof.
  unfold stamps_of. induction ids as [|id ids IH]; [done|]. cbn [omap list_omap length].
  destruct (cl_docs col !! id) as [e|]; cbn [fmap option_fmap option_map]; [|lia].
  destruct (stamp_of now extend (de_attrs e)). cbn [length]. lia.
Qed.

Lemma reinforce_live n ix c ids now extend :
  fits (n + length ids) -> live_ok n ix -> leads ix (live_ok (n + length ids)) (reinforce c ids now extend).
Proof.
  intros Hn Hl. assert (live_ok (n + length ids) ix) as Hl' by (apply (live_ok_mono n); [lia|done]).
  unfold reinforce. quietly. apply leads_get. intros s Hs. case_match; [|done_quietly]. case_match; [done_quietly|].
  do 3 quietly. apply leads_get. intros s' Hs'. apply leads_modify_bind, leads_quiet; [quiet|]. rewrite Hs, Hs'.
  pose proof (length_stamps c0 now extend ids) as Hlen.
  apply (live_ok_mono (n + length (stamps_of c0 now extend ids))); [lia|].
  apply live_stamps; cbn [fst]; [unfold fits in Hn; lia|apply unstamped_fts|apply unstamped_findex|done].
Qed.

(** *** Compaction *)

Lemma docs_total_sizes cols :
  docs_total (bt_entries cols) = list_sum (map_to_list ((fun col => size (cl_docs col)) <$> cols)).*2.
Proof.
  unfold docs_total. rewrite map_to_list_fmap, <- list_fmap_compose. apply list_sum_perm.
  apply Permutation_map, bt_entries_perm.
Qed.

Lemma docs_total_relocated us cols : docs_total (bt_entries (foldl relocate_doc cols us)) = docs_total (bt_entries cols).
Proof.
  revert cols. induction us as [|[[c id] rows] us IH]; intros cols; [done|]. cbn [foldl]. rewrite IH, !docs_total_sizes.
  do 2 f_equal. f_equal. apply map_eq. intros c'. unfold relocate_doc. rewrite !lookup_fmap, lookup_alter.
  case_decide; [|done]. subst. destruct (cols !! c'); [|done]. cbn. f_equal.
  rewrite <- !size_dom. f_equal. by rewrite dom_alter_L.
Qed.

Lemma compact_live n ix :
  fits (n + docs_total (bt_entries (ix_collections ix))) -> live_ok n ix ->
  leads ix (live_ok (n + docs_total (bt_entries (ix_collections ix)))) compact.
Proof.
  intros Hn Hl. set (k := (n + _)%nat) in *. assert (live_ok k ix) as Hl' by (apply (live_ok_mono n); [lia|done]).
  unfold compact. quietly. apply leads_get. intros s Hs. do 7 quietly.
  do 3 apply leads_modify_bind. apply leads_modify. set (ix' := {| ix_collections := _ |}).
  assert (docs_total (bt_entries (ix_collections ix')) = docs_total (bt_entries (ix_collections ix))) as Et.
  { apply docs_total_relocated. }
  unfold k. rewrite <- Et. apply live_rebuild; [by rewrite Et|]. apply live_declared.
  apply (live_same_docs n ix); [|done..]. intros c. apply attrs_in_relocated.
Qed.
End handlers.

(** ** Histories *)

Inductive write_op :=
| WCreate (name : rstring)
| WCreateFts (name : rstring) (fields : list FtsField)
| WDrop (name : rstring)
| WSetFts (collection : rstring) (fields : list FtsField)
| WSetFilter (collection : rstring) (fields : list FilterIndexField)
| WSetNames (collection : rstring) (names : list rstring)
| WSetMeta (collection : rstring) (meta : gmap rstring rstring)
| WUpsert (collection : rstring) (records : list VRecord)
| WDelete (collection : rstring) (ids : list rstring)
| WDeleteWhere (collection : rstring) (filter : Filter)
| WDeleteAll (filter : Filter)
| WReinforce (collection : rstring) (ids : list rstring) (now_ms : Z) (extend : option Z)
| WCommit
| WFlush
| WCompact
| WSetAlias (name target : rstring)
| WDropAlias (name : rstring)
| WProfile (p : OpenProfile).

Section histories.
Context `{Crc32} `{Codec Op} `{Codec Manifest} `{Codec HistoryEntry} `{Codec HistoryFloor} `{Codec Z}.
Context `{UnicodeAlnum} `{UnicodeLower} `{HashIter} `{RegexEngine} `{RegexSyntax} `{HashOrder}.

Definition forget {X A} (m : M X A) : M X unit := (let* _ := m in ret tt)%m.

Definition run_write (o : write_op) : M Store unit :=
  match o with
  | WCreate name => create_collection name
  | WCreateFts name fields => create_collection_with_fts name fields
  | WDrop name => drop_collection name
  | WSetFts c fields => set_fts_schema c fields
  | WSetFilter c fields => set_filter_index c fields
  | WSetNames c names => set_vector_names c names
  | WSetMeta c meta => set_meta c meta
  | WUpsert c records => forget (upsert c records)
  | WDelete c ids => forget (store_delete c ids)
  | WDeleteWhere c filter => forget (delete_where c filter)
  | WDeleteAll filter => forget (delete_where_all filter)
  | WReinforce c ids now extend => forget (reinforce c ids now extend)
  | WCommit => commit
  | WFlush => flush
  | WCompact => compact
  | WSetAlias name target => set_alias name target
  | WDropAlias name => forget (drop_alias name)
  | WProfile p => set_open_profile p
  end.

(** A field is declared once ([fts_validate] does not see to it), and the term
    counts of the texts written fit in [u32]. *)
Definition write_fits (o : write_op) : Prop :=
  match o with
  | WCreateFts _ fields | WSetFts _ fields => NoDup (map fts_field fields)
  | WUpsert _ records => Forall (fun rec => attrs_short (rec_attrs rec)) records
  | _ => True
  end.

(** How many docnums a write may hand out. *)
Definition cost (o : write_op) (ix : Index) : nat :=
  match o with
  | WCreateFts c _ | WSetFts c _ | WSetFilter c _ => docs_count c ix
  | WUpsert _ records => length records
  | WReinforce _ ids _ _ => length ids
  | WCompact => docs_total (bt_entries (ix_collections ix))
  | _ => 0%nat
  end.

(** Writes one after the other, each in whatever world it meets and however it
    ends; the number counts the docnums handed out. *)
Inductive history : nat -> Store -> Store -> Prop :=
| history_nil s : history 0 s s
| history_write k s0 s (w : World) o :
    history k s0 s -> write_fits o ->
    history (k + cost o (st_index s)) s0 (run_write o s w).1.2.

Lemma create_docs name : via (fun ix ix' => docs_count name ix' = docs_count name ix) (create_collection name).
Proof.
  assert (PreOrder (fun ix ix' => docs_count name ix' = docs_count name ix)) as Hpre.
  { split; [intros ?; done|]. intros x y z E1 E2. congruence. }
  unfold create_collection. apply via_bind; [done|by via_auto|intros _]. apply via_bind; [done|by via_auto|intros s].
  case_match; [by via_auto|]. case_match; [by via_auto|]. apply via_bind; [done| |intros _; by via_auto].
  apply via_modify_index. intros ix. apply docs_count_touch.
Qed.

Lemma create_fts_live n ix name fields :
  fits (n + docs_count name ix) -> NoDup (map fts_field fields) -> live_ok n ix ->
  leads ix (live_ok (n + docs_count name ix)) (create_collection_with_fts name fields).
Proof.
  intros Hn Hnd Hl. unfold create_collection_with_fts.
  apply (leads_bind_leads ix (fun ix' => live_ok n ix' /\ docs_count name ix' = docs_count name ix)).
  - intros s w Hs. split; [by apply (create_live n ix name Hl s w)|]. by rewrite (create_docs name s w), Hs.
  - intros ix' [Hl' _]. apply (live_ok_mono n); [lia|done].
  - intros ix' _ [Hl' E]. rewrite <- E in Hn |- *. by apply set_fts_live.
Qed.

Lemma leads_forget {A} ix Q (m : M Store A) : leads ix Q m -> leads ix Q (forget m).
Proof. intros Hm. apply leads_bind_last; [done|]. intros _. apply via_ret, _. Qed.

Lemma flush_quiet : via eq flush.
Proof.
  unfold flush. do 3 (apply via_bind; [apply _|quiet|intros _]). apply via_bind; [apply _|quiet|intros s].
  do 3 (apply via_bind; [apply _|quiet|intros _]). apply via_ignore. unfold refresh_active_checksum, checksum_save, cache_save.
  quiet.
Qed.

Lemma write_live n o ix :
  fits (n + cost o ix) -> write_fits o -> live_ok n ix -> leads ix (live_ok (n + cost o ix)) (run_write o).
Proof.
  intros Hn Hw Hl. destruct o; cbn [run_write cost write_fits] in *; rewrite ?Nat.add_0_r in *; try apply leads_forget.
  - by apply create_live.
  - by apply create_fts_live.
  - by apply drop_live.
  - by apply set_fts_live.
  - by apply set_filter_live.
  - by apply set_names_live.
  - by apply set_meta_live.
  - by apply upsert_live.
  - by apply delete_live.
  - by apply delete_where_live.
  - by apply delete_all_live.
  - by apply reinforce_live.
  - apply leads_quiet; [unfold commit; quiet|done].
  - apply leads_quiet; [apply flush_quiet|done].
  - by apply compact_live.
  - apply leads_quiet; [unfold set_alias; quiet|done].
  - apply leads_quiet; [unfold drop_alias; quiet|done].
  - apply leads_quiet; [unfold set_open_profile; quiet|done].
Qed.

Lemma history_keeps k n s0 s :
  history k s0 s -> fits (n + k) -> live_ok n (st_index s0) -> live_ok (n + k) (st_index s).
Proof.
  intros Hh. induction Hh as [s|k s0 s w o Hh IH Hw]; intros Hn Hl; [by rewrite Nat.add_0_r|].
  rewrite Nat.add_assoc in *. apply (write_live (n + k)); [done..| |done]. apply IH; [unfold fits in *; lia|done].
Qed.

(** C6: After any sequence of writes, each of them returning, failing at any call
    or ended by a crash, in whatever state the files are, the filter index and
    the full-text index describe the documents the store holds, for every
    collection and field declared: of a live document exactly the tokens,
    trigrams, terms, frequencies and lengths of its present attributes are
    recorded, no more and no fewer, and the counts are those of the live
    documents.  The words recorded for completion include every word of a
    live text, each under its stem; the index keeps those of deleted texts
    too, until it is rebuilt. *)
Theorem history_live k n s0 s :
  history k s0 s -> fits (n + k) -> live_ok n (st_index s0) ->
  let ix := st_index s in
  findex_exact (n + k) (ix_findex ix) (live_attrs (fx_schema (ix_findex ix)) (ix_collections ix)) /\
  fts_all_ok (n + k) (ix_fts ix) (live_attrs (fs_schema (ix_fts ix)) (ix_collections ix)).
Proof. intros Hh Hn Hl. destruct (history_keeps _ _ _ _ Hh Hn Hl) as [Hx Hf _]. by split. Qed.
End histories.

(** ** Opening *)

Section opened.
Context `{Crc32} `{Codec Fts} `{Codec (list (rstring * list FtsField))} `{Codec Findex}
  `{Codec (list (rstring * list FilterIndexField))}.
Context `{UnicodeAlnum} `{UnicodeLower} `{HashIter} `{RegexEngine} `{RegexSyntax}.








(** ** The caches *)


















End opened.

(** ** A history in memory *)

Module LiveDemo.
Import ToyCodec ToyManifest.
#[export] Existing Instance ascii_only_alnum.
#[export] Existing Instance ascii_only_lower.
#[export] Instance no_engine : RegexEngine := fun _ => None.
#[export] Instance no_syntax : RegexSyntax := fun _ => None.
#[export] Instance any_order : HashOrder := {| hm_order := fun l => l; hm_order_perm := fun l => reflexivity l |}.

Definition notes : rstring := lit "notes".
Definition body : rstring := lit "body".
Definition note (id text : rstring) : VRecord := Record_text_only id {[body := VStr text]}.

Definition quiet_world : World :=
  {| w_kind := LocalFs; w_objects := ∅; w_next := 0; w_faults := []; w_clock := [] |}.
Definition writes : list write_op :=
  [WSetFts notes [FtsField_new body];
   WSetFilter notes [FilterIndexField_new body];
   WUpsert notes [note (lit "a") (lit "Dogs running"); note (lit "b") (lit "The running dog runs")];
   WUpsert notes [note (lit "c") (lit "Cats sleep")];
   WDelete notes [lit "a"]].
Definition after (ops : list write_op) (s : Store) : Store :=
  foldl (fun s o => (run_write o s quiet_world).1.2) s ops.
Definition store : Store := after writes (text_store []).

Lemma short_text (k text : rstring) : (N.of_nat (length text) < 2 ^ 32)%N -> attrs_short {[k := VStr text]}.
Proof.
  intros Ht. apply attrs_short_length. intros k'. unfold field_text. destruct (decide (k = k')) as [<-|Hne].
  - by rewrite lookup_singleton_eq.
  - by rewrite lookup_singleton_ne.
Qed.

Lemma writes_history : history 3 (text_store []) store.
Proof.
  assert (forall k s0 s o k', history k s0 s -> write_fits o -> k' = (k + cost o (st_index s))%nat ->
    history k' s0 (run_write o s quiet_world).1.2) as Hstep by (intros; subst; by constructor).
  unfold store, after, writes. cbn [foldl].
  eapply Hstep; [eapply Hstep; [eapply Hstep; [eapply Hstep; [eapply Hstep; [apply history_nil|..]|..]|..]|..]|..];
    try exact I; try reflexivity.
  - cbn. apply NoDup_singleton.
  - repeat constructor; by apply short_text.
  - repeat constructor; by apply short_text.
Qed.
End LiveDemo.

Section examples.
Import ToyCodec ToyManifest LiveDemo.

Lemma history_live_witness :
  bt_keys (attrs_in (st_collections LiveDemo.store) notes) = [lit "b"; lit "c"] /\
  let ix := st_index LiveDemo.store in
  findex_exact (0 + 3) (ix_findex ix) (live_attrs (fx_schema (ix_findex ix)) (ix_collections ix)) /\
  fts_all_ok (0 + 3) (ix_fts ix) (live_attrs (fs_schema (ix_fts ix)) (ix_collections ix)).
Proof.
  split; [by vm_compute|].
  apply (history_live 3 0 (text_store [])); [exact writes_history|by vm_compute|exact live_ok_empty].
Defined.

(** A log replayed into RAM, before its indexes are built. *)
Definition demo_ops : list Op :=
  [OpSetFtsFields notes [FtsField_new body]; OpUpsertText notes (lit "a") {[body := VStr (lit "Dogs running")]};
   OpUpsertText notes (lit "b") {[body := VStr (lit "Cats")]}; OpDelete notes (lit "b")].
Definition on_disk (ix : Index) : Store :=
  let s := text_store [] in
  {| st_config := st_config s; st_open_profile := st_open_profile s; st_baseline_config := st_baseline_config s;
     st_data := st_data s; st_log := st_log s; st_persistence := true; st_lease := None; st_index := ix;
     st_aliases := ∅; st_in_memory := false; st_loaded_log_offset := 0; st_manifest_cas := None;
     st_fenced := false; st_defer_barrier := false; st_pending_barrier := false; st_pinned := None;
     st_pruned_through := 0 |}.
Definition replayed : Store := on_disk (replay_ops demo_ops 0).

(** A format with one key and one text index to read back, the one of a clean
    shutdown. *)
Definition shut_down : Fts := ix_fts (rebuild_fts (st_index replayed)).
#[local] Instance one_key : Codec (list (rstring * list FtsField)) := {| enc _ := Some [7%Z]; dec _ := None |}.
#[local] Instance no_key : Codec (list (rstring * list FilterIndexField)) := {| enc _ := Some []; dec _ := None |}.
#[local] Instance one_fts : Codec Fts := {| enc _ := Some []; dec _ := Some shut_down |}.
#[local] Instance no_findex : Codec Findex := {| enc _ := Some []; dec _ := None |}.


End examples.
