(* ===== verification/Highlight.v ===== *)
(** * Highlight: excerpts around the matched terms ([src/src/fts/highlight.rs])

    A fragment is a slice of the original text around consecutive matches,
    opened and closed on a token boundary where there is one.  All indices
    are byte indices; [None] stands for the panic of a slice that is out of
    range or off a character boundary, and [fragments_spec] shows there is
    none and that every span is the text of a match. *)
From S2P Require Import Prelude Floats Model TextPred Sort Std Hits Analyzer.

Record HighlightOpts := { ho_max_fragments : nat; ho_fragment_chars : nat }.
Definition HighlightOpts_default : HighlightOpts := {| ho_max_fragments := 1; ho_fragment_chars := 160 |}.

Definition back_chars (text : rstring) (from n : nat) : option nat :=
  '(before, _) ← split_at text from;
  Some (match last (take n (rev (char_indices before))) with Some ic => ic.1 | None => from end).

Definition fwd_chars (text : rstring) (from n : nat) : option nat :=
  '(_, after) ← split_at text from;
  Some (match char_indices after !! n with Some ic => (from + ic.1)%nat | None => str_len text end).

Section fragments.
Context `{UnicodeAlnum} `{UnicodeLower}.

Definition is_break (ic : nat * char) : bool := negb (is_alphanumeric ic.2).

Definition snap_start (text : rstring) (start limit : nat) : option nat :=
  if (start =? 0)%nat then Some 0%nat
  else
    slice ← str_slice text start limit;
    Some (match List.find is_break (char_indices slice) with
          | Some ic => (start + ic.1 + len_utf8 ic.2)%nat
          | None => start
          end).

Definition snap_end (text : rstring) (end_ limit : nat) : option nat :=
  if (end_ =? str_len text)%nat then Some end_
  else
    slice ← str_slice text limit end_;
    Some (match List.find is_break (rev (char_indices slice)) with
          | Some ic => (limit + ic.1)%nat
          | None => end_
          end).

(** The outer loop: at most [remaining] more fragments. *)
Fixpoint fragment_loop (text : rstring) (budget remaining : nat) (ms : list (nat * nat))
  : option (list Fragment) :=
  match remaining, ms with
  | S remaining', (first_start, first_end) :: _ =>
      back ← back_chars text first_start (budget / 2);
      start ← snap_start text back first_start;
      fwd ← fwd_chars text start budget;
      let end_ := Nat.max fwd first_end in
      let here := take_while (fun m => m.2 <=? end_)%nat ms in
      let later := skip_while (fun m => m.2 <=? end_)%nat ms in
      let last_end := match last here with Some m => m.2 | None => first_end end in
      end_ ← snap_end text end_ last_end;
      excerpt ← str_slice text start end_;
      rest ← fragment_loop text budget remaining' later;
      Some ({| fr_text := excerpt; fr_spans := map (fun m => (m.1 - start, m.2 - start)%nat) here |} :: rest)
  | _, _ => Some []
  end.

Definition matched_spans (text : rstring) (cfg : Analyzer) (query_terms : list rstring) : list (nat * nat) :=
  map (fun t => (ts_start t, ts_end t))
    (List.filter (fun t => bool_decide (ts_term t ∈ query_terms)) (analyze_spans text cfg)).

Definition fragments (text : rstring) (cfg : Analyzer) (query_terms : list rstring) (opts : HighlightOpts)
  : option (list Fragment) :=
  fragment_loop text (Nat.max (ho_fragment_chars opts) 1) (Nat.max (ho_max_fragments opts) 1)
    (matched_spans text cfg query_terms).

(** ** Boundaries *)

(** A character boundary of the text. *)
Definition boundary (text : rstring) (n : nat) : Prop := exists a b, text = a ++ b /\ n = str_len a.

Lemma boundary_split text n : boundary text n -> exists a b, split_at text n = Some (a, b) /\ text = a ++ b /\ n = str_len a.
Proof. intros (a & b & -> & ->). exists a, b. by rewrite split_at_app. Qed.

Lemma boundary_end text : boundary text (str_len text).
Proof. exists text, []. by rewrite app_nil_r. Qed.

(** Two boundaries of one text: the earlier prefix is a prefix of the later one. *)
Lemma str_len_prefix a b c d : a ++ b = c ++ d -> (str_len a <= str_len c)%nat -> exists u, c = a ++ u.
Proof.
  intros E Hl. apply app_eq_inv in E as [(k & -> & _)|(k & -> & _)]; [|by exists k].
  rewrite str_len_app in Hl. assert (str_len k = 0%nat) as Hk by lia. apply str_len_nil in Hk as ->.
  exists []. by rewrite !app_nil_r.
Qed.

Lemma slice_boundaries text i j :
  boundary text i -> boundary text j -> (i <= j)%nat ->
  exists a u b, str_slice text i j = Some u /\ text = a ++ u ++ b /\ i = str_len a /\ j = str_len (a ++ u).
Proof.
  intros (a & b & E & ->) (c & d & E' & ->) Hij. rewrite E in E'.
  destruct (str_len_prefix _ _ _ _ E' Hij) as [u ->]. rewrite <- app_assoc in E'. apply app_inv_head in E' as ->.
  exists a, u, d. split_and!; [|done..]. apply str_slice_Some. eauto.
Qed.

Lemma char_indices_lookup s k ic :
  char_indices s !! k = Some ic -> exists u v, s = u ++ ic.2 :: v /\ ic.1 = str_len u /\ length u = k.
Proof.
  unfold char_indices. assert (forall i, char_indices_from i s !! k = Some ic ->
    exists u v, s = u ++ ic.2 :: v /\ ic.1 = (i + str_len u)%nat /\ length u = k) as Hgen.
  { revert k. induction s as [|c s IH]; intros k i; [done|]. destruct k as [|k]; cbn.
    - intros [= <-]. exists [], s. cbn. split_and!; [done|unfold str_len; cbn; lia|done].
    - intros (u & v & -> & Ei & El)%IH. exists (c :: u), v. cbn [length]. split_and!; [done| |lia].
      rewrite str_len_cons. lia. }
  intros (u & v & ? & ? & ?)%Hgen. exists u, v. done.
Qed.

Lemma elem_of_char_indices s ic :
  ic ∈ char_indices s -> exists u v, s = u ++ ic.2 :: v /\ ic.1 = str_len u.
Proof. intros [k Hk]%list_elem_of_lookup. apply char_indices_lookup in Hk as (u & v & ? & ? & _). eauto. Qed.

Lemma back_chars_ok text from n :
  boundary text from -> exists r, back_chars text from n = Some r /\ boundary text r /\ (r <= from)%nat.
Proof.
  intros (a & b & Es & -> & ->)%boundary_split. unfold back_chars. rewrite Es. cbn [mbind option_bind].
  destruct (last _) as [ic|] eqn:El.
  - assert (ic ∈ char_indices a) as Hin.
    { apply last_Some_elem_of in El. apply elem_of_take in El as (k & Hk & _).
      apply list_elem_of_lookup_2 in Hk. by rewrite list_elem_of_In, <- in_rev, <- list_elem_of_In in Hk. }
    apply elem_of_char_indices in Hin as (u & v & -> & ->). eexists. split; [done|]. split.
    + exists u, ((ic.2 :: v) ++ b). by rewrite <- app_assoc.
    + rewrite str_len_app. lia.
  - exists (str_len a). split_and!; [done| |done]. by exists a, b.
Qed.

Lemma fwd_chars_ok text from n :
  boundary text from -> exists r, fwd_chars text from n = Some r /\ boundary text r.
Proof.
  intros (a & b & Es & -> & ->)%boundary_split. unfold fwd_chars. rewrite Es. cbn [mbind option_bind].
  destruct (char_indices b !! n) as [ic|] eqn:El.
  - apply char_indices_lookup in El as (u & v & -> & -> & _). eexists. split; [done|].
    exists (a ++ u), (ic.2 :: v). by rewrite str_len_app, <- app_assoc.
  - eexists. split; [done|]. apply boundary_end.
Qed.

Lemma snap_start_ok text start limit :
  boundary text start -> boundary text limit -> (start <= limit)%nat ->
  exists r, snap_start text start limit = Some r /\ boundary text r /\ (start <= r <= limit)%nat.
Proof.
  intros Hs Hl Hle. unfold snap_start. destruct (Nat.eqb_spec start 0) as [->|].
  { exists 0%nat. split_and!; [done|done|lia|lia]. }
  destruct (slice_boundaries _ _ _ Hs Hl Hle) as (a & u & b & -> & -> & -> & ->). cbn [mbind option_bind].
  destruct (List.find _ _) as [ic|] eqn:Ef.
  - apply find_some in Ef as [Hin _]. apply list_elem_of_In, elem_of_char_indices in Hin as (w & v & -> & ->).
    eexists. split; [done|]. rewrite !str_len_app, str_len_cons. split; [|lia].
    exists (a ++ w ++ [ic.2]), (v ++ b). rewrite <- !app_assoc. cbn. split; [done|].
    rewrite !str_len_app. unfold str_len. cbn. lia.
  - eexists. split; [done|]. split; [done|lia].
Qed.

Lemma snap_end_ok text end_ limit :
  boundary text end_ -> boundary text limit -> (limit <= end_)%nat ->
  exists r, snap_end text end_ limit = Some r /\ boundary text r /\ (limit <= r <= end_)%nat.
Proof.
  intros He Hl Hle. unfold snap_end. destruct (Nat.eqb_spec end_ (str_len text)) as [E|].
  { exists end_. split_and!; (done || lia). }
  destruct (slice_boundaries _ _ _ Hl He Hle) as (a & u & b & -> & -> & -> & ->). cbn [mbind option_bind].
  destruct (List.find _ _) as [ic|] eqn:Ef.
  - apply find_some in Ef as [Hin _]. apply in_rev in Hin.
    apply list_elem_of_In, elem_of_char_indices in Hin as (w & v & -> & ->).
    eexists. split; [done|]. rewrite !str_len_app, str_len_cons. split; [|lia].
    exists (a ++ w), ((ic.2 :: v) ++ b). rewrite <- !app_assoc. by rewrite str_len_app.
  - eexists. split; [done|]. split; [done|lia].
Qed.

(** ** Matches *)

Definition spans_ok (text : rstring) (ms : list (nat * nat)) : Prop :=
  Forall (fun m => boundary text m.1 /\ boundary text m.2 /\ m.1 < m.2)%nat ms /\
  StronglySorted (fun x y => x.2 <= y.1)%nat ms.

Lemma runs_ascending pre w rest :
  Forall (fun pw : rstring * rstring => str_len pre <= str_len pw.1 /\ pw.2 <> [])%nat (runs pre w rest) /\
  StronglySorted (fun x y : rstring * rstring => str_len (x.1 ++ x.2) <= str_len y.1)%nat (runs pre w rest).
Proof.
  revert pre w. induction rest as [|c rest IH]; intros pre w; cbn [runs].
  - unfold is_nonempty. case_bool_decide; cbn [negb]; by repeat constructor.
  - destruct (is_alphanumeric c); [apply IH|]. destruct (IH (pre ++ w ++ [c]) []) as [Hlow Hsort].
    assert (Forall (fun pw : rstring * rstring => str_len (pre ++ w) <= str_len pw.1 /\ pw.2 <> [])%nat
      (runs (pre ++ w ++ [c]) [] rest)) as Hmid.
    { eapply Forall_impl; [exact Hlow|]. intros pw [Hl ?]. split; [|done].
      rewrite app_assoc, str_len_app in Hl. lia. }
    assert (Forall (fun pw : rstring * rstring => str_len pre <= str_len pw.1 /\ pw.2 <> [])%nat
      (runs (pre ++ w ++ [c]) [] rest)) as Hpre.
    { eapply Forall_impl; [exact Hmid|]. intros pw [Hl ?]. split; [|done]. rewrite str_len_app in Hl. lia. }
    unfold is_nonempty. case_bool_decide as E; cbn [negb app]; [done|]. split; constructor; try done.
    eapply Forall_impl; [exact Hmid|]. intros pw [Hl ?]. exact Hl.
Qed.

Lemma StronglySorted_omap {A B} (R : relation A) (S : relation B) (f : A -> option B) l :
  (forall x y a b, R x y -> f x = Some a -> f y = Some b -> S a b) ->
  StronglySorted R l -> StronglySorted S (omap f l).
Proof.
  intros HRS. induction 1 as [|x l Hs IH Hx]; [constructor|]. cbn [omap list_omap].
  destruct (f x) as [a|] eqn:E; [|done]. constructor; [done|].
  apply Forall_forall. intros b (y & Hy & Eb)%list_elem_of_omap. rewrite Forall_forall in Hx.
  by eapply HRS; [apply Hx|..].
Qed.

Lemma StronglySorted_filter {A} (R : relation A) (f : A -> bool) l :
  StronglySorted R l -> StronglySorted R (List.filter f l).
Proof.
  induction 1 as [|x l Hs IH Hx]; [constructor|]. cbn. destruct (f x); [|done]. constructor; [done|].
  apply Forall_forall. intros y Hy. apply list_elem_of_In, filter_In in Hy as [Hy _].
  rewrite Forall_forall in Hx. apply Hx. by apply list_elem_of_In.
Qed.

Lemma StronglySorted_map {A B} (R : relation A) (S : relation B) (f : A -> B) l :
  (forall x y, R x y -> S (f x) (f y)) -> StronglySorted R l -> StronglySorted S (map f l).
Proof.
  intros HRS. induction 1 as [|x l Hs IH Hx]; [constructor|]. cbn. constructor; [done|].
  apply Forall_map. eapply Forall_impl; [exact Hx|]. intros y Hy. by apply HRS.
Qed.

Lemma tokenize_runs folding cap text :
  tokenize folding cap text = omap (token_of folding cap) (runs [] [] text).
Proof. unfold tokenize. pose proof (tokenize_loop_runs folding cap text [] [] 0) as E. cbn in E. by rewrite E. Qed.

(** The terms of a text come from disjoint ranges in order, each a run of alphanumeric characters. *)
Lemma analyze_spans_located text cfg :
  Forall (fun t => boundary text (ts_start t) /\ boundary text (ts_end t) /\ ts_start t < ts_end t /\
    exists w, str_slice text (ts_start t) (ts_end t) = Some w /\ w ∈ tokens text)%nat (analyze_spans text cfg) /\
  StronglySorted (fun s t => ts_end s <= ts_start t)%nat (analyze_spans text cfg).
Proof.
  unfold analyze_spans, tokenize_with. destruct (an_language cfg). rewrite tokenize_runs.
  pose proof (runs_located [] [] text) as Hl. cbn [app] in Hl.
  pose proof (runs_tokens [] [] text ltac:(constructor)) as Ht. cbn [app] in Ht.
  destruct (runs_ascending [] [] text) as [Hn Hs].
  set (folding := an_ascii_folding cfg). set (cap := an_max_token_len cfg).
  split.
  - apply Forall_forall. intros t Ht'. apply list_elem_of_In, filter_In in Ht' as [Ht' _].
    apply in_map_iff in Ht' as (t0 & <- & Ht0). apply filter_In in Ht0 as [Ht0 _]. cbn [stem_span ts_start ts_end].
    apply list_elem_of_In, list_elem_of_omap in Ht0 as ([p w] & Hin & E). unfold token_of in E. cbn [fst snd] in E.
    destruct (too_long cap w); [done|]. injection E as <-. cbn [ts_start ts_end].
    rewrite Forall_forall in Hl, Hn. destruct (Hl _ Hin) as [c Hc]. destruct (Hn _ Hin) as [_ Hne]. cbn in Hc, Hne.
    split_and!.
    + exists p, (w ++ c). done.
    + exists (p ++ w), c. by rewrite <- app_assoc.
    + rewrite str_len_app. assert (str_len w <> 0%nat) by (by rewrite str_len_nil). lia.
    + exists w. split; [apply str_slice_Some; eauto|]. rewrite <- Ht. by apply (list_elem_of_fmap_2 snd) in Hin.
  - apply StronglySorted_filter.
    apply (StronglySorted_map (fun s t => ts_end s <= ts_start t)%nat); [done|]. apply StronglySorted_filter.
    eapply StronglySorted_omap; [|exact Hs]. intros [p w] [p' w'] a b Hle. unfold token_of. cbn [fst snd] in *.
    destruct (too_long cap w), (too_long cap w'); try done. intros [= <-] [= <-]. exact Hle.
Qed.

Lemma matched_spans_ok text cfg q : spans_ok text (matched_spans text cfg q).
Proof.
  destruct (analyze_spans_located text cfg) as [Hl Hs]. unfold matched_spans. split.
  - apply Forall_map, Forall_forall. intros t Ht. apply list_elem_of_In, filter_In in Ht as [Ht _].
    rewrite Forall_forall in Hl. apply list_elem_of_In in Ht. destruct (Hl t Ht) as (? & ? & ? & _). done.
  - apply (StronglySorted_map (fun s t => ts_end s <= ts_start t)%nat); [done|]. by apply StronglySorted_filter.
Qed.

(** ** Fragments are excerpts *)

(** [f] is an excerpt of the text whose spans are the matches [here]. *)
Definition frag_of (text : rstring) (f : Fragment) (here : list (nat * nat)) : Prop :=
  here <> [] /\ exists a b, text = a ++ fr_text f ++ b /\
  here = map (fun s => (str_len a + s.1, str_len a + s.2)%nat) (fr_spans f) /\
  Forall (fun s => exists w, str_slice (fr_text f) s.1 s.2 = Some w /\
    str_slice text (str_len a + s.1) (str_len a + s.2) = Some w) (fr_spans f).

(** The fragments take the matches in order, leaving [rest]. *)
Inductive excerpts (text : rstring) : list Fragment -> list (nat * nat) -> list (nat * nat) -> Prop :=
| ex_nil ms : excerpts text [] ms ms
| ex_cons f here later out rest :
    frag_of text f here -> excerpts text out later rest -> excerpts text (f :: out) (here ++ later) rest.

Lemma spans_ok_app text l1 l2 : spans_ok text (l1 ++ l2) -> spans_ok text l1 /\ spans_ok text l2.
Proof.
  intros [Hf Hs]. apply Forall_app in Hf as [? ?]. split; (split; [done|]).
  - clear - Hs. induction l1 as [|x l1 IH]; [constructor|]. cbn in Hs. inversion Hs as [|? ? Hs' Hx]; subst.
    apply Forall_app in Hx as [Hx _]. constructor; [by apply IH|done].
  - clear - Hs. induction l1 as [|x l1 IH]; [done|]. cbn in Hs. inversion Hs; subst. by apply IH.
Qed.

(** Every match of an ascending list ends no later than its last one. *)
Lemma spans_last text ms m : spans_ok text ms -> last ms = Some m -> Forall (fun x => x.2 <= m.2)%nat ms.
Proof.
  intros [Hf Hs]. revert Hf. induction Hs as [|x l Hs IH Hx]; [done|]. intros [Hxl Hf]%Forall_cons Hl.
  destruct l as [|y l]; [injection Hl as ->; by repeat constructor|]. change (last (x :: y :: l)) with (last (y :: l)) in Hl.
  specialize (IH Hf Hl). constructor; [|done]. apply Forall_cons in Hx as [Hxy _]. apply Forall_cons in IH as [Hy _].
  apply Forall_cons in Hf as [(_ & _ & ?) _]. lia.
Qed.

(** Every match starts no earlier than the first one. *)
Lemma spans_first text m ms : spans_ok text (m :: ms) -> Forall (fun x => m.1 <= x.1)%nat (m :: ms).
Proof.
  intros [Hf Hs]. apply Forall_cons in Hf as [(_ & _ & Hm) _]. inversion Hs as [|? ? _ Hx]; subst.
  constructor; [done|]. eapply Forall_impl; [exact Hx|]. cbn. intros. lia.
Qed.

(** Cutting a range out of an excerpt is cutting it out of the text. *)
Lemma slice_of_slice a u b i j :
  boundary (a ++ u ++ b) i -> boundary (a ++ u ++ b) j ->
  (str_len a <= i)%nat -> (i <= j)%nat -> (j <= str_len (a ++ u))%nat ->
  exists w, str_slice u (i - str_len a) (j - str_len a) = Some w /\ str_slice (a ++ u ++ b) i j = Some w.
Proof.
  intros Hi Hj Hai Hij Hju. destruct (slice_boundaries _ _ _ Hi Hj Hij) as (c & w & d & Es & E & -> & ->).
  exists w. split; [|done]. destruct (str_len_prefix _ _ _ _ E Hai) as [p ->].
  rewrite <- app_assoc in E. apply app_inv_head in E. rewrite app_assoc in E.
  symmetry in E. destruct (str_len_prefix _ _ _ _ E) as [r ->].
  { rewrite !str_len_app in *. lia. }
  apply str_slice_Some. exists p, r. rewrite !str_len_app. rewrite <- app_assoc. split_and!; [done|lia|lia].
Qed.

Lemma fragment_loop_spec text budget remaining ms :
  spans_ok text ms ->
  exists out rest, fragment_loop text budget remaining ms = Some out /\ excerpts text out ms rest /\
    (length out <= remaining)%nat /\ (rest = [] \/ length out = remaining).
Proof.
  revert ms. induction remaining as [|remaining IH]; intros ms Hok.
  { exists [], ms. split_and!; [done|constructor|done|by right]. }
  destruct ms as [|[fs fe] ms]; [exists [], []; split_and!; [done|constructor|cbn; lia|by left]|].
  pose proof Hok as [[(Hfs & Hfe & Hlt) _]%Forall_cons _]. cbn [fst snd] in *. cbn [fragment_loop].
  destruct (back_chars_ok text fs (budget / 2) Hfs) as (back & -> & Hb & Hbl). cbn [mbind option_bind].
  destruct (snap_start_ok text back fs Hb Hfs Hbl) as (start & -> & Hst & Hstl). cbn [mbind option_bind].
  destruct (fwd_chars_ok text start budget Hst) as (fwd & -> & Hfwd). cbn [mbind option_bind].
  set (p := fun m : nat * nat => (m.2 <=? Nat.max fwd fe)%nat).
  assert (boundary text (Nat.max fwd fe)) as Hend.
  { destruct (Nat.max_spec fwd fe) as [[_ ->]|[_ ->]]; done. }
  pose proof (take_skip_while p ((fs, fe) :: ms)) as Esplit.
  pose proof (take_while_all p ((fs, fe) :: ms)) as Hall.
  assert (take_while p ((fs, fe) :: ms) = (fs, fe) :: take_while p ms) as Ehere.
  { cbn [take_while]. unfold p at 1. cbn [snd]. by rewrite (proj2 (Nat.leb_le _ _)) by lia. }
  set (here := take_while p ((fs, fe) :: ms)) in *. set (later := skip_while p ((fs, fe) :: ms)) in *.
  rewrite <- Esplit in Hok. pose proof Hok as [Hokh Hokl]%spans_ok_app.
  destruct (last here) as [m|] eqn:Elast; [|rewrite Ehere in Elast; by apply last_None in Elast].
  pose proof (spans_last _ _ _ Hokh Elast) as Hle. rewrite Ehere in Hokh. pose proof (spans_first _ _ _ Hokh) as Hge.
  rewrite <- Ehere in Hokh, Hge.
  assert (m ∈ here) as Hm by (by apply last_Some_elem_of).
  assert (boundary text m.2 /\ m.1 < m.2 /\ m.2 <= Nat.max fwd fe)%nat as (Hbm & Hmlt & Hme).
  { destruct Hokh as [Hf _]. rewrite Forall_forall in Hf. destruct (Hf m Hm) as (_ & ? & ?). split_and!; [done..|].
    rewrite Forall_forall in Hall. specialize (Hall m Hm). apply Nat.leb_le in Hall. exact Hall. }
  assert (fs <= m.1)%nat as Hfm by (rewrite Forall_forall in Hge; apply (Hge m Hm)).
  destruct (snap_end_ok text (Nat.max fwd fe) m.2 Hend Hbm Hme) as (end_ & -> & Hbe & Hel). cbn [mbind option_bind].
  destruct (slice_boundaries text start end_ Hst Hbe ltac:(lia)) as (a & u & b & -> & Etext & Ea & Eu).
  cbn [mbind option_bind].
  destruct (IH later Hokl) as (out & rest & -> & Hex & Hlen & Hrest). cbn [mbind option_bind].
  eexists _, rest. split; [done|]. split_and!; [|cbn; lia|cbn; destruct Hrest; [by left|right; lia]].
  rewrite <- Esplit. apply ex_cons; [|exact Hex]. split; [by rewrite Ehere|]. exists a, b. cbn [fr_text fr_spans].
  split; [done|]. rewrite <- Ea.
  assert (Forall (fun x => boundary text x.1 /\ boundary text x.2 /\ start <= x.1 /\ x.1 < x.2 /\ x.2 <= end_)%nat here) as Hin.
  { apply Forall_forall. intros x Hx. destruct Hokh as [Hf _]. rewrite Forall_forall in Hf, Hle, Hge.
    destruct (Hf x Hx) as (? & ? & ?). specialize (Hle x Hx). specialize (Hge x Hx). cbn in Hge. split_and!; (done || lia). }
  split.
  - rewrite map_map. rewrite <- (map_id here) at 1. apply map_ext_in. intros [i j] Hx.
    rewrite Forall_forall in Hin. destruct (Hin (i, j) ltac:(by apply list_elem_of_In)) as (_ & _ & ? & ? & ?).
    cbn in *. f_equal; lia.
  - apply Forall_map. eapply Forall_impl; [exact Hin|]. intros [i j] (Hi & Hj & ? & ? & ?). cbn [fst snd] in *.
    replace (start + (i - start))%nat with i by lia. replace (start + (j - start))%nat with j by lia.
    rewrite Etext in Hi, Hj. rewrite Etext, Ea. apply slice_of_slice; (done || lia).
Qed.
End fragments.

(** C29: Highlighting never slices off a character boundary; the fragments are
    excerpts of the text that cover the matched ranges in order, leaving some
    out only when the number of fragments is used up, and each span of a
    fragment cuts out of it the very run of the text that matched. *)
Theorem fragments_spec `{UnicodeAlnum} `{UnicodeLower} text cfg query_terms opts :
  exists out rest,
    fragments text cfg query_terms opts = Some out /\
    excerpts text out (matched_spans text cfg query_terms) rest /\
    (length out <= Nat.max (ho_max_fragments opts) 1)%nat /\
    (rest = [] \/ length out = Nat.max (ho_max_fragments opts) 1) /\
    Forall (fun m => exists t w, t ∈ analyze_spans text cfg /\ m = (ts_start t, ts_end t) /\
      ts_term t ∈ query_terms /\ str_slice text m.1 m.2 = Some w /\ w ∈ tokens text)
      (matched_spans text cfg query_terms).
Proof.
  destruct (fragment_loop_spec text (Nat.max (ho_fragment_chars opts) 1) (Nat.max (ho_max_fragments opts) 1) _
              (matched_spans_ok text cfg query_terms)) as (out & rest & E & Hex & Hl & Hr).
  exists out, rest. split_and!; [done..|]. unfold matched_spans. apply Forall_map, Forall_forall.
  intros t Ht. apply list_elem_of_In, filter_In in Ht as [Ht Hw]. apply list_elem_of_In in Ht.
  apply bool_decide_eq_true in Hw.
  destruct (analyze_spans_located text cfg) as [Hloc _]. rewrite Forall_forall in Hloc.
  destruct (Hloc t Ht) as (_ & _ & _ & w & ? & ?). exists t, w. done.
Qed.

Example fragments_ex :
  let _ := ascii_only_alnum in let _ := ascii_only_lower in
  fragments (lit "The store was running; runs are logged.") Analyzer_default [lit "run"]
    {| ho_max_fragments := 1; ho_fragment_chars := 16 |} =
  Some [{| fr_text := lit "was running;"; fr_spans := [(4, 11)%nat] |}].
Proof. vm_compute. reflexivity. Qed.
