(* ===== verification/TextSearch.v ===== *)
(** * TextSearch: full-text and hybrid search ([src/src/store/text.rs])

    A text query scores every clause against its own field, folds the clause
    scores of each document, and ranks like a vector query.  The index can
    only be trusted through [fts_all_ok]; [text_search_spec] shows that the
    answer is then the one computed from the texts of the live documents.
    The tables that memoize an analysis or an expansion within one call hold
    what the functions return and are left out. *)
From S2P Require Import Prelude Floats Model Config TextPred Filter Literal Findex Narrow Sort TopK Std Hits.
From S2P Require Import Manifest Segments Replay Store Mmr Aggregate Expand Rank Scoring Quant Search SearchSpec.
From S2P Require Import Fuzzy Analyzer Fts FtsStore Highlight.

(** ** Queries *)

Inductive FtsCombine := CombineSum | CombineMax.

Record FtsClause := { fc_field : rstring; fc_text : rstring; fc_prefix : bool }.

Record FtsQuery := {
  fq_clauses : list FtsClause;
  fq_combine : FtsCombine;
  fq_highlight : option HighlightOpts
}.

Definition fts_query_validate (q : FtsQuery) : result query_error unit :=
  if bool_decide (fq_clauses q = []) then Err QOptions else Ok tt.

Definition without_highlight (q : FtsQuery) : FtsQuery :=
  {| fq_clauses := fq_clauses q; fq_combine := fq_combine q; fq_highlight := None |}.

Record SuggestOpts := { sg_limit : nat; sg_filter : Filter; sg_fuzzy : bool }.
Record Suggestion := { su_term : rstring; su_df : nat }.
Record Suggestions := { su_suggestions : list Suggestion; su_matched : nat }.

Record HybridOpts := {
  hy_top_k : nat;
  hy_offset : nat;
  hy_filter : Filter;
  hy_rrf_k : f32;
  hy_candidates : nat;
  hy_explain : bool;
  hy_plan : bool;
  hy_vector_weight : f32;
  hy_text_weight : f32;
  hy_expand : option Expand;
  hy_rerank : option RerankOpts;
  hy_limit_per : option LimitPer;
  hy_diversity : option f32
}.

Abbreviation PerClause := (list (option f32)) (only parsing).
Abbreviation Breakdown := (gmap (rstring * rstring) (list ClauseScore)) (only parsing).

(** The sum of [f32]s starts from [-0.0]. *)
Definition combine (per_clause : PerClause) (mode : FtsCombine) : f32 :=
  let scored := omap id per_clause in
  match mode with
  | CombineSum => fold_left f32_add scored f32_neg_zero
  | CombineMax => fold_left f32_max scored f32_zero
  end.

Fixpoint clause_scores (clauses : list FtsClause) (per_clause : PerClause) (expansions : list (option Expansion))
  : list ClauseScore :=
  match clauses, per_clause, expansions with
  | c :: cs, s :: ss, e :: es =>
      match s with
      | Some score => {| cs_field := fc_field c; cs_score := score; cs_expansion := e |} :: clause_scores cs ss es
      | None => clause_scores cs ss es
      end
  | _, _, _ => []
  end.

Definition leg_depth (opts : HybridOpts) : nat :=
  let page := N.max (sat_add (N.of_nat (hy_offset opts)) (N.of_nat (hy_top_k opts))) (N.of_nat (hy_candidates opts)) in
  let cap := match hy_limit_per opts with Some _ => LIMIT_PER_OVERFETCH | None => 1 end in
  let spread := match hy_diversity opts with Some _ => MMR_OVERFETCH | None => 1 end in
  usize (sat_mul page (N.of_nat (Nat.max cap spread))).

Section text.
Context `{UnicodeAlnum} `{UnicodeLower} `{RegexEngine} `{RegexSyntax} `{HashOrder} `{HashIter} `{SortUnstable}
  `{Powf} `{Ln}.
Context (s : Store).
#[local] Abbreviation fts := (ix_fts (st_index s)).

(** ** Scoring the clauses *)

(** The terms a clause scores in a field, and the report of its expansion. *)
Definition clause_terms (col_name : rstring) (clause : FtsClause) (cfg : Analyzer)
  : list rstring * option Expansion :=
  if fc_prefix clause then
    let '(heads, fragment) := analyze_with_prefix (fc_text clause) cfg in
    match fragment with
    | None => (heads, None)
    | Some fragment =>
        let '(expanded, matched) := fts_expand_prefix fts col_name (fc_field clause) fragment in
        (heads ++ expanded, Some {| ex_matched := matched; ex_scored := length expanded |})
    end
  else (analyze (fc_text clause) cfg, None).

Definition add_clause_score (n ci : nat) (acc : gmap rstring PerClause) (hit : rstring * f32) : gmap rstring PerClause :=
  <[hit.1 := <[ci := Some hit.2]> (default (replicate n None) (acc !! hit.1))]> acc.

(** One clause against one collection. *)
Definition score_clause (col_name : rstring) (n : nat)
    (st : gmap rstring PerClause * list (option Expansion)) (ic : nat * FtsClause)
  : gmap rstring PerClause * list (option Expansion) :=
  let '(acc, expansions) := st in
  match field_analyzer fts col_name (fc_field ic.2) with
  | None => st
  | Some cfg =>
      let '(terms, expansion) := clause_terms col_name ic.2 cfg in
      (fold_left (add_clause_score n ic.1) (fts_store_score fts col_name (fc_field ic.2) terms) acc,
       match expansion with Some e => <[ic.1 := Some e]> expansions | None => expansions end)
  end.

Definition score_collection (col_name : rstring) (clauses : list FtsClause)
  : gmap rstring PerClause * list (option Expansion) :=
  fold_left (score_clause col_name (length clauses)) (imap pair clauses)
    (∅, replicate (length clauses) None).

(** One scored document: looked up again, filtered, adjusted and offered. *)
Definition offer_doc (query : FtsQuery) (opts : SearchOpts) (col_name : rstring) (col : Collection)
    (expansions : list (option Expansion)) (st : TopK (T := item) * Breakdown) (ip : rstring * PerClause)
  : TopK (T := item) * Breakdown :=
  let base := combine ip.2 (fq_combine query) in
  match cl_docs col !! ip.1 with
  | None => st
  | Some entry =>
      if negb (matches (so_filter opts) (de_attrs entry)) then st
      else
        let score := adjust (so_rank_by opts) base (de_attrs entry) in
        if below (so_min_score opts) score then st
        else
          (offer item_cmp score (col_name, ip.1) st.1,
           if so_explain opts
           then <[(col_name, ip.1) := clause_scores (fq_clauses query) ip.2 expansions]> st.2 else st.2)
  end.

Definition text_collection (query : FtsQuery) (opts : SearchOpts) (st : TopK (T := item) * Breakdown)
    (col_name : rstring) : TopK (T := item) * Breakdown :=
  match st_collections s !! col_name with
  | None => st
  | Some col =>
      let '(acc, expansions) := score_collection col_name (fq_clauses query) in
      fold_left (offer_doc query opts col_name col expansions) (hash_iter (map_to_list acc)) st
  end.

(** ** Annotations *)

Definition highlight_clause (collection : rstring) (entry : DocEntry) (opts : HighlightOpts) (clause : FtsClause)
  : option (option Highlight) :=
  match field_analyzer fts collection (fc_field clause) with
  | None => Some None
  | Some cfg =>
      let text := field_text (de_attrs entry) (fc_field clause) in
      let terms := (clause_terms collection clause cfg).1 in
      fs ← fragments text cfg terms opts;
      Some (if bool_decide (length fs = 0%nat) then None
            else Some {| hl_field := fc_field clause; hl_fragments := fs |})
  end.

(** [None] is a panic of the highlighter. *)
Definition highlights_for (collection id : rstring) (query : FtsQuery) (opts : HighlightOpts)
  : option (list Highlight) :=
  match st_collections s !! collection ≫= fun c => cl_docs c !! id with
  | None => Some []
  | Some entry => omap Datatypes.id <$> mapM (highlight_clause collection entry opts) (fq_clauses query)
  end.

Definition Annotations_default : Annotations :=
  {| an_vector := None; an_text := None; an_clauses := []; an_highlights := [] |}.

Definition set_annotations (a : option Annotations) (h : Hit) : Hit :=
  {| h_collection := h_collection h; h_id := h_id h; h_score := h_score h; h_attrs := h_attrs h;
     h_annotations := a; h_context := h_context h |}.

(** One hit; the breakdown is drained as it is read. *)
Definition annotate_hit (query : FtsQuery) (st : option Breakdown) (h : Hit) : option (option Breakdown * Hit) :=
  let a := default Annotations_default (h_annotations h) in
  let '(st, a) :=
    match st with
    | None => (None, a)
    | Some b =>
        (Some (delete (hit_key h) b),
         {| an_vector := an_vector a; an_text := an_text a; an_clauses := default [] (b !! hit_key h);
            an_highlights := an_highlights a |})
    end in
  match fq_highlight query with
  | None => Some (st, set_annotations (Some a) h)
  | Some opts =>
      hs ← highlights_for (h_collection h) (h_id h) query opts;
      Some (st, set_annotations (Some {| an_vector := an_vector a; an_text := an_text a;
                                         an_clauses := an_clauses a; an_highlights := hs |}) h)
  end.

Fixpoint annotate_loop (query : FtsQuery) (st : option Breakdown) (hits : list Hit) : option (list Hit) :=
  match hits with
  | [] => Some []
  | h :: hits' =>
      '(st, h) ← annotate_hit query st h;
      rest ← annotate_loop query st hits';
      Some (h :: rest)
  end.

Definition annotate (hits : list Hit) (query : FtsQuery) (breakdown : option Breakdown) : result query_error (list Hit) :=
  match breakdown, fq_highlight query with
  | None, None => Ok hits
  | _, _ => match annotate_loop query breakdown hits with Some hits => Ok hits | None => Err QPanic end
  end.

(** ** Text search *)

Definition text_search (names : list rstring) (query : FtsQuery) (opts : SearchOpts)
  : result query_error (list Hit) :=
  (let? _ := fts_query_validate query in
   let? _ := check_query_opts opts in
   if (so_top_k opts =? 0)%nat then Ok []
   else
     let '(topk, breakdown) := fold_left (text_collection query opts) names (TopK_new (depth opts), ∅) in
     let? hits := finish s (hits_from_topk s topk (so_projection opts)) opts in
     annotate hits query (if so_explain opts then Some breakdown else None))%res.

(** ** Completion *)

Inductive Leg := LegPrefix | LegFuzzy.

(** [None] is a panic of the fuzzy walk. *)
Definition suggest_one (col_name field prefix : rstring) (opts : SuggestOpts) (leg : Leg)
  : option (list (rstring * nat * nat)) :=
  match field_analyzer fts col_name field with
  | None => Some []
  | Some cfg =>
      match st_collections s !! col_name with
      | None => Some []
      | Some col =>
          let '(heads, fragment) := analyze_with_prefix prefix cfg in
          match fragment with
          | None => Some []
          | Some fragment =>
              let hd := fts_head_docs fts col_name field heads in
              if match hd with Some docs => bool_decide (docs = ∅) | None => false end then Some []
              else
                let filtered := negb (bool_decide (filter_preds (sg_filter opts) = [])) in
                let adm (docnum : N) (id : rstring) :=
                  if match hd with Some docs => negb (bool_decide (docnum ∈ docs)) | None => false end then false
                  else if negb filtered then true
                  else match cl_docs col !! id with
                       | Some entry => matches (sg_filter opts) (de_attrs entry)
                       | None => false
                       end in
                let unconditioned := negb (bool_decide (is_Some hd)) && negb filtered in
                let adm := if unconditioned then None else Some adm in
                match leg with
                | LegPrefix => Some (map (fun td => (td, 0%nat)) (fts_suggest fts col_name field fragment adm))
                | LegFuzzy =>
                    let max_edits := budget_for fragment in
                    if (max_edits =? 0)%nat then Some []
                    else fts_suggest_fuzzy fts col_name field fragment max_edits adm
                end
          end
      end
  end.

(** Merging by term: the counts add up, the least distance stays. *)
Definition merge_one (merged : gmap rstring (nat * nat)) (t : rstring * nat * nat) : gmap rstring (nat * nat) :=
  let '(term, n, distance) := t in
  <[term := match merged !! term with
            | Some (d, existing) => (Nat.min d distance, (existing + n)%nat)
            | None => (distance, n)
            end]> merged.

Definition sweep (names : list rstring) (field prefix : rstring) (opts : SuggestOpts) (leg : Leg)
    (merged : gmap rstring (nat * nat)) : option (gmap rstring (nat * nat)) :=
  fold_left (fun m col_name =>
    m ← m; found ← suggest_one col_name field prefix opts leg; Some (fold_left merge_one found m))
    names (Some merged).

Definition suggestion_cmp (fuzzy : bool) : rstring * nat * nat -> rstring * nat * nat -> comparison :=
  let by_count := cmp_then (cmp_flip (cmp_on (fun x : rstring * nat * nat => x.1.2) Nat.compare))
                    (cmp_on (fun x => x.1.1) str_cmp) in
  if fuzzy then cmp_then (cmp_on (fun x : rstring * nat * nat => x.2) Nat.compare) by_count else by_count.

Definition suggest (names : list rstring) (field prefix : rstring) (opts : SuggestOpts)
  : result query_error Suggestions :=
  if negb (is_ok (filter_validate (sg_filter opts))) then Err QOptions
  else
    match sweep names field prefix opts LegPrefix ∅ with
    | None => Err QPanic
    | Some merged =>
        let fuzzy := bool_decide (merged = ∅) && sg_fuzzy opts && (0 <? sg_limit opts)%nat in
        match (if fuzzy then sweep names field prefix opts LegFuzzy merged else Some merged) with
        | None => Err QPanic
        | Some merged =>
            let scored := sort_by (suggestion_cmp fuzzy)
              (map (fun te => (te.1, te.2.2, te.2.1)) (bt_entries merged)) in
            Ok {| su_suggestions := map (fun x => {| su_term := x.1.1; su_df := x.1.2 |})
                    (take (sg_limit opts) (take MAX_PREFIX_EXPANSION scored));
                  su_matched := size merged |}
        end
    end.

(** ** Hybrid search *)

Definition finish_hybrid (ranked : list Hit) (opts : HybridOpts) : result query_error (list Hit) :=
  let capped := match hy_limit_per opts with Some cap => cap_per_value s ranked cap | None => ranked end in
  let spread := match hy_diversity opts with Some lambda => diversify s lambda [] capped | None => capped end in
  let hits := take (hy_top_k opts) (paginate spread (hy_offset opts)) in
  match hy_expand opts with
  | Some e => match expand_hits s hits e with Some hits => Ok hits | None => Err QPanic end
  | None => Ok hits
  end.

(** Both legs: [SearchOpts::default()] but for depth, filter and explanation. *)
Definition leg_opts (opts : HybridOpts) : SearchOpts :=
  {| so_top_k := leg_depth opts; so_offset := 0; so_filter := hy_filter opts; so_min_score := None; so_exact := false;
     so_projection := PrAll; so_explain := hy_explain opts; so_plan := false; so_rank_by := None;
     so_limit_per := None; so_diversity := None; so_rerank := None; so_expand := None; so_names := [];
     so_name_weights := ∅; so_pool := PoolMax |}.

(** The clause details of the text leg, taken off its hits. *)
Definition take_breakdown (leg : list Hit) : Breakdown * list Hit :=
  (list_to_map (rev (omap (fun h => (fun a => (hit_key h, an_clauses a)) <$> h_annotations h) leg)),
   map (set_annotations None) leg).

Definition leg_score (per_leg : LegScores) (i : nat) : option LegScore :=
  (fun rs : nat * f32 => {| ls_rank := rs.1; ls_score := rs.2 |}) <$> mjoin (per_leg !! i).

Definition explain_hit (per_leg : gmap (rstring * rstring) LegScores) (breakdown : Breakdown) (h : Hit) : Hit :=
  let legs := default [] (per_leg !! hit_key h) in
  set_annotations (Some {| an_vector := leg_score legs 0; an_text := leg_score legs 1;
    an_clauses := default [] (breakdown !! hit_key h); an_highlights := [] |}) h.

Definition hybrid_search (tok : nat -> nat -> bool) (order : list ((rstring * rstring) * Acc) -> list ((rstring * rstring) * Acc))
    (ca : Caches) (names : list rstring) (vector : list f32) (text : FtsQuery) (opts : HybridOpts)
  : result query_error (list Hit) :=
  (let? _ := check_query_dim s vector in
   let? _ := fts_query_validate text in
   let? _ := check_weight (hy_vector_weight opts) in
   let? _ := check_weight (hy_text_weight opts) in
   let? _ := (if is_ok (limit_per_validate (hy_limit_per opts)) then Ok tt else Err QOptions) in
   let? _ := (if is_ok (diversity_validate (hy_diversity opts)) then Ok tt else Err QOptions) in
   if (hy_top_k opts =? 0)%nat then Ok []
   else
     let? vector_leg := search tok s ca names vector (leg_opts opts) in
     let? text_leg := text_search names (without_highlight text) (leg_opts opts) in
     let '(breakdown, text_leg) := take_breakdown text_leg in
     let fused := rrf_fuse order
       [FusionLeg_weight (hy_vector_weight opts) (FusionLeg_new vector_leg);
        FusionLeg_weight (hy_text_weight opts) (FusionLeg_new text_leg)] (hy_rrf_k opts) in
     let per_leg := list_to_map (map (fun hl => (hit_key hl.1, hl.2)) fused) in
     let? hits := finish_hybrid (map fst fused) opts in
     annotate (if hy_explain opts then map (explain_hit per_leg breakdown) hits else hits) text None)%res.
End text.
