(* ===== verification/TextSpec.v ===== *)
(** * TextSpec: what a text query answers

    [text_score] reads a document's clause scores off the texts of the live
    documents: the frequencies, the lengths and the stems a prefix reaches
    ([completions]) are counted there, not in the index.  One thing of the
    index remains, the words it has recorded since its last rebuild
    ([known_words]): all those of the live texts are among them, and a word
    only a deleted text had may still lead a prefix to a stem that lives.
    [text_search_spec] shows that the query ranks exactly the documents that
    have a score, whatever the order of the hash maps on the way, and
    annotates each with its own clauses. *)
From S2P Require Import Prelude Floats Model Config TextPred Filter Literal Findex Narrow Sort TopK Std Hits.
From S2P Require Import Manifest Segments Replay Store Mmr Aggregate Expand Rank Scoring Quant Search SearchSpec.
From S2P Require Import SearchPaths Fuzzy Analyzer Fts FtsStore Highlight TextSearch LiveIndex Live.

(** ** Generic lemmas *)

Lemma fold_insert_at {V} (n ci : nat) (l : list (rstring * V)) (acc : gmap rstring (list (option V))) :
  NoDup l.*1 -> forall k,
  fold_left (fun acc h => <[h.1 := <[ci := Some h.2]> (default (replicate n None) (acc !! h.1))]> acc) l acc !! k =
  match (list_to_map l : gmap rstring V) !! k with
  | Some v => Some (<[ci := Some v]> (default (replicate n None) (acc !! k)))
  | None => acc !! k
  end.
Proof.
  revert acc. induction l as [|[x v] l IH]; intros acc Hnd k; [done|]. cbn in Hnd.
  apply NoDup_cons in Hnd as [Hx Hnd]. cbn [fold_left]. rewrite IH by done. rewrite list_to_map_cons.
  destruct (decide (x = k)) as [<-|Hne].
  - rewrite lookup_insert_eq. rewrite (not_elem_of_list_to_map_1 l x Hx). by rewrite lookup_insert_eq.
  - rewrite !lookup_insert_ne by done. done.
Qed.

Lemma omap_keyed_nodup {A B} (g : rstring * A -> option B) (m : list (rstring * A)) :
  NoDup m.*1 -> NoDup (omap (fun kv => (fun s => (kv.1, s)) <$> g kv) m).*1.
Proof.
  induction m as [|[k a] m IH]; cbn; [done|]. intros [Hk Hnd]%NoDup_cons.
  destruct (g (k, a)); cbn; [|by apply IH]. apply NoDup_cons. split; [|by apply IH].
  contradict Hk. apply list_elem_of_fmap in Hk as ([k' b'] & -> & (y & Hy & E)%list_elem_of_omap).
  apply list_elem_of_fmap. exists y. split; [|done]. destruct (g y); [|done]. by injection E as <- _.
Qed.

(** Reading a keyed gathering back. *)
Lemma keyed_omap_lookup {A B} (g : A -> option B) (m : gmap rstring A) (l : list (rstring * B)) k :
  l ≡ₚ omap (fun kv => (fun s => (kv.1, s)) <$> g kv.2) (map_to_list m) ->
  (list_to_map l : gmap rstring B) !! k = m !! k ≫= g.
Proof.
  intros Hp. assert (NoDup l.*1) as Hnd.
  { rewrite Hp. apply (omap_keyed_nodup (fun kv => g kv.2)), NoDup_fst_map_to_list. }
  apply option_eq. intros b. rewrite <- elem_of_list_to_map by done. rewrite Hp, list_elem_of_omap. split.
  - intros ([k' a] & Hin%elem_of_map_to_list & E). cbn in E. destruct (g a) eqn:Eg; [|done]. cbn in E.
    injection E as <- <-. by rewrite Hin.
  - intros (a & Ha & Hg)%bind_Some. exists (k, a). split; [by apply elem_of_map_to_list|]. cbn. by rewrite Hg.
Qed.

(** ** What a clause means *)

#[export] Instance by_df_order : CmpOrder by_df.
Proof. unfold by_df. apply _. Qed.

Lemma by_df_exact x y : by_df x y = Eq -> x = y.
Proof.
  destruct x as [t n], y as [t' n']. unfold by_df, cmp_then, cmp_flip, cmp_on. cbn.
  destruct (Nat.compare_spec n' n) as [->|?|?]; [|done|done]. by intros ->%str_cmp_eq.
Qed.

Section completion.
Context `{UnicodeAlnum} `{UnicodeLower}.

(** The stems some text carries. *)
Definition stems_of (cfg : FtsField) (docs : gmap rstring rstring) : list rstring :=
  elements (list_to_set (mjoin (map (fun kv => terms_of cfg kv.2) (map_to_list docs))) : gset rstring).

(** A fragment completes to a stem that starts with it, or that a known word
    starting with it has. *)
Definition completes (known : list rstring) (fragment t : rstring) : bool :=
  starts_with t fragment || existsb (fun w => starts_with w fragment && bool_decide (stem w = t)) known.

(** The stems of the texts a fragment completes to, those more texts carry first. *)
Definition completions (cfg : FtsField) (docs : gmap rstring rstring) (known : list rstring) (fragment : rstring)
  : list (rstring * nat) :=
  sort_by by_df (map (fun t => (t, df cfg docs t)) (List.filter (completes known fragment) (stems_of cfg docs))).

(** The terms a clause stands for over some texts. *)
Definition ref_terms (cfg : FtsField) (docs : gmap rstring rstring) (known : list rstring) (clause : FtsClause)
  : list rstring * option Expansion :=
  if fc_prefix clause then
    match analyze_with_prefix (fc_text clause) (fts_analyzer cfg) with
    | (heads, None) => (heads, None)
    | (heads, Some fragment) =>
        let all := completions cfg docs known fragment in
        (heads ++ map fst (take MAX_PREFIX_EXPANSION all),
         Some {| ex_matched := length all; ex_scored := Nat.min MAX_PREFIX_EXPANSION (length all) |})
    end
  else (analyze (fc_text clause) (fts_analyzer cfg), None).

(** The words a field has recorded. *)
Definition known_words (idx : FtsIndex) : list rstring := bt_keys (ft_surface idx).

Lemma elem_of_stems cfg docs t : t ∈ stems_of cfg docs <-> (0 < df cfg docs t)%nat.
Proof.
  unfold stems_of, df. rewrite elem_of_elements, elem_of_list_to_set, list_elem_of_join. split.
  - intros (ts & Ht & Hts). apply list_elem_of_fmap in Hts as ([id text] & -> & Hin%elem_of_map_to_list).
    apply Nat.neq_0_lt_0. rewrite map_size_ne_0_lookup. exists id, text.
    by apply map_lookup_filter_Some.
  - intros Hpos. apply Nat.neq_0_lt_0, map_size_ne_0_lookup in Hpos as (id & text & Hin).
    apply map_lookup_filter_Some in Hin as [Hin Ht]. exists (terms_of cfg text). split; [exact Ht|].
    apply list_elem_of_fmap. exists (id, text). split; [done|]. by apply elem_of_map_to_list.
Qed.

Lemma completes_reaches idx docs fragment t :
  fts_ok idx docs -> (0 < df (ft_cfg idx) docs t)%nat ->
  completes (known_words idx) fragment t = true <-> reaches idx fragment t.
Proof.
  intros Hok Hpos. unfold completes, reaches. rewrite orb_true_iff, existsb_exists. split.
  - intros [?|(w & Hw & [Hsw <-%bool_decide_eq_true]%andb_true_iff)]; [by left|]. right. exists w. split; [|done].
    apply list_elem_of_In, elem_of_bt_keys in Hw as [st Hst].
    by destruct (to_surface_sound _ _ Hok _ _ Hst) as [-> _].
  - intros [?|(w & Hw & Hsw)]; [by left|]. right. exists w. split.
    + apply list_elem_of_In, elem_of_bt_keys. eauto.
    + destruct (to_surface_sound _ _ Hok _ _ Hw) as [-> _]. by rewrite Hsw, bool_decide_eq_true_2.
Qed.

(** What the live index makes of a fragment. *)
Lemma expand_prefix_completions idx docs fragment :
  fts_ok idx docs ->
  let all := completions (ft_cfg idx) docs (known_words idx) fragment in
  expand_prefix idx fragment = (map fst (take MAX_PREFIX_EXPANSION all), length all).
Proof.
  intros Hok. destruct (expand_prefix_ranked idx docs Hok fragment) as (ranked & -> & Hs & Hnd & Hin). cbn zeta.
  assert (completions (ft_cfg idx) docs (known_words idx) fragment = ranked) as ->; [|done].
  unfold completions. apply (sort_by_unique by_df); [intros x y _ _; apply by_df_exact| |done]. apply NoDup_Permutation.
  - by eapply NoDup_fmap_1.
  - apply (NoDup_fmap_1 fst). rewrite <- list_fmap_compose. rewrite list_fmap_id.
    apply NoDup_filter_bool, NoDup_elements.
  - intros [t n]. rewrite Hin, list_elem_of_fmap. split.
    + intros (-> & Hpos & Hr). exists t. split; [done|]. apply list_elem_of_In, filter_In. split.
      * by apply list_elem_of_In, elem_of_stems.
      * by apply (completes_reaches _ docs).
    + intros (t' & [= -> ->] & Ht%list_elem_of_In). apply filter_In in Ht as [Ht%list_elem_of_In%elem_of_stems Hc].
      split_and!; [done..|]. by apply (completes_reaches _ docs) in Hc.
Qed.
End completion.

(** ** The reference *)

Section spec.
Context `{UnicodeAlnum} `{UnicodeLower} `{RegexEngine} `{RegexSyntax} `{HashOrder} `{HashIter} `{SortUnstable}
  `{Powf} `{Ln}.
Context (s : Store).
#[local] Abbreviation fts := (ix_fts (st_index s)).

Definition fts_docs_of : gmap rstring (gmap rstring attrs_map) :=
  map_imap (fun c _ => Some (match st_collections s !! c with
                             | Some col => de_attrs <$> cl_docs col
                             | None => ∅
                             end)) (fs_schema fts).
(** The full-text indexes hold exactly the live documents. *)
Definition fts_faithful : Prop := exists n, fts_all_ok n fts fts_docs_of.

(** BM25 of one document in one field, over the collection's own texts. *)
Definition field_score (c : rstring) (col : Collection) (field : rstring) (terms : list rstring) (attrs : attrs_map)
  : option f32 :=
  idx ← fs_fields fts !! (c, field);
  text ← indexed_text field attrs;
  bm25 (ft_cfg idx) (doc_texts field (de_attrs <$> cl_docs col)) terms text.

(** The terms of a clause over the texts of a collection, in a declared field. *)
Definition clause_meaning (c : rstring) (col : Collection) (clause : FtsClause)
  : option (list rstring * option Expansion) :=
  (fun idx => ref_terms (ft_cfg idx) (doc_texts (fc_field clause) (de_attrs <$> cl_docs col)) (known_words idx) clause)
    <$> fs_fields fts !! (c, fc_field clause).

Definition clause_score (c : rstring) (col : Collection) (attrs : attrs_map) (clause : FtsClause) : option f32 :=
  terms ← clause_meaning c col clause; field_score c col (fc_field clause) terms.1 attrs.

Definition clause_row (c : rstring) (col : Collection) (attrs : attrs_map) (clauses : list FtsClause) : PerClause :=
  map (clause_score c col attrs) clauses.

(** What a document scores, when it matches a clause, the filter and the floor. *)
Definition text_score (query : FtsQuery) (opts : SearchOpts) (c : rstring) (col : Collection) (entry : DocEntry)
  : option f32 :=
  let row := clause_row c col (de_attrs entry) (fq_clauses query) in
  if bool_decide (Forall (.= None) row) then None
  else if negb (matches (so_filter opts) (de_attrs entry)) then None
  else
    let score := adjust (so_rank_by opts) (combine row (fq_combine query)) (de_attrs entry) in
    if below (so_min_score opts) score then None else Some score.

Definition expansion_of (c : rstring) (col : Collection) (clause : FtsClause) : option Expansion :=
  terms ← clause_meaning c col clause; terms.2.

Definition text_details (query : FtsQuery) (c : rstring) (col : Collection) (entry : DocEntry) : list ClauseScore :=
  clause_scores (fq_clauses query) (clause_row c col (de_attrs entry) (fq_clauses query))
    (map (expansion_of c col) (fq_clauses query)).

Definition text_entry (query : FtsQuery) (opts : SearchOpts) (nc : rstring * Collection) (ie : rstring * DocEntry)
  : option (f32 * list ClauseScore * item) :=
  (fun score => (score, text_details query nc.1 nc.2 ie.2, (nc.1, ie.1))) <$> text_score query opts nc.1 nc.2 ie.2.

(** Every scored document in scope, with its clause scores. *)
Definition text_entries (names : list rstring) (query : FtsQuery) (opts : SearchOpts)
  : list (f32 * list ClauseScore * item) :=
  mjoin (map (fun nc => omap (text_entry query opts nc) (docs_entries nc.2)) (in_scope s names)).

Definition text_scored (entries : list (f32 * list ClauseScore * item)) : list (f32 * item) :=
  map (fun x => (x.1.1, x.2)) entries.
Definition text_breakdown (entries : list (f32 * list ClauseScore * item)) : Breakdown :=
  list_to_map (map (fun x => (x.2, x.1.2)) entries).

(** The highlights of a hit, from the meaning of the clauses. *)
Definition ref_highlight (c : rstring) (col : Collection) (entry : DocEntry) (opts : HighlightOpts) (clause : FtsClause)
  : option (option Highlight) :=
  match fs_fields fts !! (c, fc_field clause), clause_meaning c col clause with
  | Some idx, Some terms =>
      let text := field_text (de_attrs entry) (fc_field clause) in
      fs ← fragments text (fts_analyzer (ft_cfg idx)) terms.1 opts;
      Some (match fs with [] => None | _ => Some {| hl_field := fc_field clause; hl_fragments := fs |} end)
  | _, _ => Some None
  end.

Definition ref_highlights (query : FtsQuery) (opts : HighlightOpts) (h : Hit) : option (list Highlight) :=
  match st_collections s !! h_collection h with
  | Some col =>
      match cl_docs col !! h_id h with
      | Some entry => omap Datatypes.id <$> mapM (ref_highlight (h_collection h) col entry opts) (fq_clauses query)
      | None => Some []
      end
  | None => Some []
  end.

(** A hit under its own clause scores, when they are asked for, and its
    highlights; [None] is a panic. *)
Definition ref_annotate_hit (query : FtsQuery) (scores : option Breakdown) (h : Hit) : option Hit :=
  let a := default Annotations_default (h_annotations h) in
  let clauses := match scores with Some b => default [] (b !! hit_key h) | None => an_clauses a end in
  hs ← match fq_highlight query with Some opts => ref_highlights query opts h | None => Some (an_highlights a) end;
  Some (set_annotations (Some {| an_vector := an_vector a; an_text := an_text a; an_clauses := clauses;
                                 an_highlights := hs |}) h).

Definition ref_annotate (query : FtsQuery) (scores : option Breakdown) (hits : list Hit) : result query_error (list Hit) :=
  match scores, fq_highlight query with
  | None, None => Ok hits
  | _, _ => match mapM (ref_annotate_hit query scores) hits with Some hits => Ok hits | None => Err QPanic end
  end.

(** Every word of a live text is known to its field. *)
Definition words_known : Prop :=
  forall c col field idx id e text w st,
    fs_fields fts !! (c, field) = Some idx -> st_collections s !! c = Some col -> cl_docs col !! id = Some e ->
    indexed_text field (de_attrs e) = Some text -> (w, st) ∈ analyze_surface text (fts_analyzer (ft_cfg idx)) ->
    w ∈ known_words idx.

(** ** Scoring a collection *)

Context (Hf : fts_faithful).

Lemma field_texts_ok c col field idx :
  fs_fields fts !! (c, field) = Some idx -> st_collections s !! c = Some col ->
  fts_ok idx (doc_texts field (de_attrs <$> cl_docs col)).
Proof.
  intros Ei Hc. destruct Hf as [n Hok]. destruct (fa_field _ _ _ Hok _ _ _ Ei) as (m & fs & Hm & _ & _ & _ & Hfo & _).
  unfold fts_docs_of in Hm. rewrite map_lookup_imap in Hm. destruct (fs_schema fts !! c); [|done].
  cbn in Hm. rewrite Hc in Hm. by injection Hm as <-.
Qed.

Lemma faithful_words : words_known.
Proof.
  intros c col field idx id e text w st Ei Hc He Ht Hw. apply elem_of_bt_keys. exists st.
  apply (to_surface _ _ (field_texts_ok c col field idx Ei Hc) id text); [|done].
  unfold doc_texts. by rewrite lookup_omap, lookup_fmap, He.
Qed.

(** The code's terms are the meaning of the clause. *)
Lemma clause_terms_meaning c col clause :
  st_collections s !! c = Some col ->
  (fun cfg => clause_terms s c clause cfg) <$> field_analyzer fts c (fc_field clause) = clause_meaning c col clause.
Proof.
  intros Hc. unfold clause_meaning, field_analyzer. destruct (fs_fields fts !! _) as [idx|] eqn:Ei; [|done]. cbn. f_equal.
  unfold clause_terms, ref_terms. destruct (fc_prefix clause); [|done].
  destruct (analyze_with_prefix _ _) as [heads [fragment|]]; [|done]. unfold fts_expand_prefix. rewrite Ei.
  rewrite (expand_prefix_completions _ _ _ (field_texts_ok _ _ _ _ Ei Hc)). cbv zeta. by rewrite length_map, length_take.
Qed.

Lemma store_score_perm c col field terms :
  st_collections s !! c = Some col ->
  fts_store_score fts c field terms ≡ₚ
  omap (fun kv => (fun v => (kv.1, v)) <$> field_score c col field terms kv.2) (map_to_list (de_attrs <$> cl_docs col)).
Proof.
  intros Hc. unfold fts_store_score, field_score. destruct (fs_fields fts !! (c, field)) as [idx|] eqn:Ei.
  - destruct Hf as [n Hok]. destruct (fa_field _ _ _ Hok _ _ _ Ei) as (m & fs & Hm & _ & _ & _ & Hfo & _).
    unfold fts_docs_of in Hm. rewrite map_lookup_imap in Hm. destruct (fs_schema fts !! c); [|done].
    cbn in Hm. rewrite Hc in Hm. injection Hm as <-. rewrite (fts_score_perm _ _ Hfo).
    cbn [mbind option_bind]. generalize (bm25 (ft_cfg idx) (doc_texts field (de_attrs <$> cl_docs col)) terms).
    intros g. unfold doc_texts. generalize (de_attrs <$> cl_docs col). intros m.
    apply NoDup_Permutation.
    + eapply NoDup_fmap_1, (omap_keyed_nodup (fun kv => g kv.2)), NoDup_fst_map_to_list.
    + eapply NoDup_fmap_1, (omap_keyed_nodup (fun kv => indexed_text field kv.2 ≫= g)), NoDup_fst_map_to_list.
    + intros [k v]. rewrite !list_elem_of_omap. split.
      * intros ([k' t] & (a & Et & Ha)%elem_of_map_to_list%lookup_omap_Some & E). exists (k', a).
        split; [by apply elem_of_map_to_list|]. cbn [fst snd] in *. rewrite Et. exact E.
      * intros ([k' a] & Hin%elem_of_map_to_list & E). cbn in E. destruct (indexed_text field a) as [t|] eqn:Et; [|done].
        exists (k', t). split; [|done]. apply elem_of_map_to_list, lookup_omap_Some. eauto.
  - cbn. induction (map_to_list (de_attrs <$> cl_docs col)); [done|]. by cbn.
Qed.

Lemma store_score_lookup c col field terms id :
  st_collections s !! c = Some col ->
  (list_to_map (fts_store_score fts c field terms) : gmap rstring f32) !! id =
  e ← cl_docs col !! id; field_score c col field terms (de_attrs e).
Proof.
  intros Hc. rewrite (keyed_omap_lookup (field_score c col field terms) _ _ _ (store_score_perm c col field terms Hc)).
  rewrite lookup_fmap. by destruct (cl_docs col !! id).
Qed.

Lemma store_score_nodup c col field terms :
  st_collections s !! c = Some col -> NoDup (fts_store_score fts c field terms).*1.
Proof.
  intros Hc. rewrite (store_score_perm c col field terms Hc).
  apply (omap_keyed_nodup (fun kv => field_score c col field terms kv.2)), NoDup_fst_map_to_list.
Qed.

(** The accumulator after the first clauses [done], of [done ++ rest]. *)
Definition partial_row (row : PerClause) (n : nat) : option PerClause :=
  if bool_decide (Forall (.= None) row) then None else Some (row ++ replicate (n - length row) None).

Lemma partial_snoc row x n :
  (length row < n)%nat ->
  partial_row (row ++ [x]) n =
  match x with
  | Some v => Some (<[length row := Some v]> (default (replicate n None) (partial_row row n)))
  | None => partial_row row n
  end.
Proof.
  intros Hn. unfold partial_row. rewrite length_app. cbn [length].
  assert (n - length row = S (n - (length row + 1)))%nat as E by lia.
  assert (<[length row := x]> (row ++ replicate (n - length row) None) =
          (row ++ [x]) ++ replicate (n - (length row + 1)) None) as Ei.
  { rewrite E. cbn [replicate]. rewrite insert_app_r_alt, Nat.sub_diag by lia. cbn. by rewrite <- app_assoc. }
  destruct x as [v|].
  - rewrite bool_decide_eq_false_2 by (rewrite Forall_app, Forall_singleton; naive_solver).
    f_equal. rewrite <- Ei. case_bool_decide as Hr; [|done]. cbn. f_equal.
    assert (row = replicate (length row) None) as Er.
    { symmetry. apply replicate_as_Forall_2; [done|]. eapply Forall_impl; [exact Hr|]. by intros ? ->. }
    rewrite Er at 1. rewrite <- replicate_add. f_equal. lia.
  - rewrite (bool_decide_ext (Forall (.= None) (row ++ [None])) (Forall (.= None) row)) by
      (rewrite Forall_app, Forall_singleton; naive_solver).
    case_bool_decide; [done|]. f_equal. rewrite E. cbn. by rewrite <- app_assoc.
Qed.

Lemma score_clause_step c col pre cl k acc n :
  st_collections s !! c = Some col -> (length pre < n)%nat ->
  (forall id, acc !! id = e ← cl_docs col !! id; partial_row (clause_row c col (de_attrs e) pre) n) ->
  let r := score_clause s c n (acc, map (expansion_of c col) pre ++ replicate (S k) None) (length pre, cl) in
  (forall id, r.1 !! id = e ← cl_docs col !! id; partial_row (clause_row c col (de_attrs e) (pre ++ [cl])) n) /\
  r.2 = map (expansion_of c col) (pre ++ [cl]) ++ replicate k None.
Proof.
  intros Hc Hn Hacc. cbn -[replicate].
  assert (forall id, (e ← cl_docs col !! id; partial_row (clause_row c col (de_attrs e) (pre ++ [cl])) n) =
    e ← cl_docs col !! id; match clause_score c col (de_attrs e) cl with
      | Some v => Some (<[length pre := Some v]> (default (replicate n None) (acc !! id)))
      | None => acc !! id end) as Hrow.
  { intros id. rewrite Hacc. destruct (cl_docs col !! id) as [e|]; [|done]. cbn. unfold clause_row at 1.
    rewrite map_app. cbn [map]. rewrite partial_snoc by (by rewrite length_map). by rewrite length_map. }
  assert (map (expansion_of c col) (pre ++ [cl]) ++ replicate k None =
    <[length pre := expansion_of c col cl]> (map (expansion_of c col) pre ++ replicate (S k) None)) as Hexp.
  { rewrite map_app, <- app_assoc. rewrite insert_app_r_alt by (by rewrite length_map).
    rewrite length_map, Nat.sub_diag. done. }
  rewrite Hexp. unfold clause_score in Hrow. pose proof (eq_refl (expansion_of c col cl)) as Hx. unfold expansion_of at 2 in Hx.
  rewrite Hx. clear Hx Hexp. pose proof (clause_terms_meaning c col cl Hc) as Hm. rewrite <- Hm in *. clear Hm.
  destruct (field_analyzer fts c (fc_field cl)) as [cfg|]; cbn [mbind option_bind fmap option_fmap option_map] in *.
  - destruct (clause_terms s c cl cfg) as [terms expansion] eqn:Et. cbn [fst snd] in *. split.
    + intros id. rewrite Hrow. unfold add_clause_score. cbn [fst].
      rewrite fold_insert_at by (by eapply store_score_nodup).
      rewrite (store_score_lookup c col _ _ _ Hc), Hacc. by destruct (cl_docs col !! id).
    + destruct expansion as [e|]; [done|]. cbn [snd].
      rewrite list_insert_id; [done|]. rewrite lookup_app_r by (by rewrite length_map).
      by rewrite length_map, Nat.sub_diag.
  - split; cbn [fst snd].
    + intros id. rewrite Hrow. rewrite Hacc. by destruct (cl_docs col !! id).
    + rewrite list_insert_id; [done|]. rewrite lookup_app_r by (by rewrite length_map).
      by rewrite length_map, Nat.sub_diag.
Qed.

Lemma score_clauses_spec c col pre rest acc exps n :
  st_collections s !! c = Some col -> n = length (pre ++ rest) ->
  (forall id, acc !! id = e ← cl_docs col !! id; partial_row (clause_row c col (de_attrs e) pre) n) ->
  exps = map (expansion_of c col) pre ++ replicate (length rest) None ->
  let r := fold_left (score_clause s c n) (imap (fun i x => (length pre + i, x)%nat) rest) (acc, exps) in
  (forall id, r.1 !! id = e ← cl_docs col !! id; partial_row (clause_row c col (de_attrs e) (pre ++ rest)) n) /\
  r.2 = map (expansion_of c col) (pre ++ rest).
Proof.
  intros Hc. revert pre acc exps. induction rest as [|cl rest IH]; intros pre acc exps Hn Hacc ->.
  - cbn. by rewrite !app_nil_r.
  - cbn [imap fold_left]. rewrite Nat.add_0_r.
    assert (length pre < n)%nat as Hlt by (rewrite Hn, length_app; cbn; lia).
    destruct (score_clause_step c col pre cl (length rest) acc n Hc Hlt Hacc) as [Ha He].
    cbn [length]. destruct (score_clause s c n _ (length pre, cl)) as [acc' exps'].
    assert (imap ((fun i x => (length pre + i, x)%nat) ∘ S) rest =
            imap (fun i x => (length (pre ++ [cl]) + i, x)%nat) rest) as ->.
    { apply imap_ext. intros i x _. cbn. rewrite length_app. cbn. f_equal. lia. }
    assert (pre ++ cl :: rest = (pre ++ [cl]) ++ rest) as E by by rewrite <- app_assoc.
    rewrite E in *. by apply IH.
Qed.

Lemma score_collection_spec c col clauses :
  st_collections s !! c = Some col ->
  let r := score_collection s c clauses in
  (forall id, r.1 !! id = e ← cl_docs col !! id;
     let row := clause_row c col (de_attrs e) clauses in
     if bool_decide (Forall (.= None) row) then None else Some row) /\
  r.2 = map (expansion_of c col) clauses.
Proof.
  intros Hc. unfold score_collection.
  destruct (score_clauses_spec c col [] clauses ∅ (replicate (length clauses) None) (length clauses)) as [Ha He].
  - done.
  - done.
  - intros id. rewrite lookup_empty. by destruct (cl_docs col !! id).
  - done.
  - cbn [app length Nat.add] in Ha, He. split; [|done]. intros id. cbn zeta. rewrite Ha.
    destruct (cl_docs col !! id) as [e|]; [|done]. cbn. unfold partial_row, clause_row.
    by rewrite length_map, Nat.sub_diag, app_nil_r.
Qed.
(** ** Gathering the scores *)

(** What [offer_doc] makes of a row of the accumulator. *)
Definition offered (query : FtsQuery) (opts : SearchOpts) (c : rstring) (col : Collection)
    (expansions : list (option Expansion)) (ip : rstring * PerClause) : option (f32 * list ClauseScore * item) :=
  entry ← cl_docs col !! ip.1;
  if negb (matches (so_filter opts) (de_attrs entry)) then None
  else
    let score := adjust (so_rank_by opts) (combine ip.2 (fq_combine query)) (de_attrs entry) in
    if below (so_min_score opts) score then None
    else Some (score, clause_scores (fq_clauses query) ip.2 expansions, (c, ip.1)).

Definition collect (explain : bool) (st : TopK (T := item) * Breakdown) (x : f32 * list ClauseScore * item)
  : TopK (T := item) * Breakdown :=
  (offer item_cmp x.1.1 x.2 st.1, if explain then <[x.2 := x.1.2]> st.2 else st.2).

Lemma offer_docs_collect query opts c col expansions l st :
  fold_left (offer_doc query opts c col expansions) l st =
  fold_left (collect (so_explain opts)) (omap (offered query opts c col expansions) l) st.
Proof.
  revert st. induction l as [|ip l IH]; intros st; [done|]. cbn [fold_left]. rewrite IH. cbn.
  unfold offered at 2, offer_doc. destruct (cl_docs col !! ip.1) as [entry|]; [|done]. cbn.
  destruct (negb _); [done|]. by destruct (below _ _).
Qed.

Lemma collect_spec explain l t b :
  NoDup l.*2 ->
  let r := fold_left (collect explain) l (t, b) in
  r.1 = offers item_cmp t (text_scored l) /\ r.2 = if explain then text_breakdown l ∪ b else b.
Proof.
  revert t b. induction l as [|x l IH]; intros t b; cbn [fold_left].
  - intros _. split; [done|]. destruct explain; [|done]. symmetry. apply (left_id_L ∅ (∪)).
  - cbn. intros [Hx Hnd]%NoDup_cons. change (collect explain (t, b) x) with
      (offer item_cmp x.1.1 x.2 t, if explain then <[x.2 := x.1.2]> b else b).
    destruct (IH (offer item_cmp x.1.1 x.2 t) (if explain then <[x.2 := x.1.2]> b else b) Hnd) as [-> ->].
    split; [done|]. destruct explain; [|done]. unfold text_breakdown. cbn.
    rewrite <- insert_union_l. symmetry. apply insert_union_r. apply not_elem_of_list_to_map_1.
    rewrite <- list_fmap_compose. done.
Qed.

Definition gathered (query : FtsQuery) (opts : SearchOpts) (nc : rstring * Collection)
  : list (f32 * list ClauseScore * item) :=
  omap (offered query opts nc.1 nc.2 (map (expansion_of nc.1 nc.2) (fq_clauses query)))
    (hash_iter (map_to_list (score_collection s nc.1 (fq_clauses query)).1)).

Lemma text_collections_collect query opts names st :
  fold_left (text_collection s query opts) names st =
  fold_left (collect (so_explain opts)) (mjoin (map (gathered query opts) (in_scope s names))) st.
Proof.
  revert st. induction names as [|c names IH]; intros st; [done|]. cbn [fold_left]. rewrite IH.
  unfold in_scope at 2. cbn. unfold text_collection at 1.
  destruct (st_collections s !! c) as [col|] eqn:Hc; [|done]. cbn. rewrite fold_left_app. f_equal.
  unfold gathered. cbn [fst snd]. destruct (score_collection_spec c col (fq_clauses query) Hc) as [_ He].
  destruct (score_collection s c (fq_clauses query)) as [acc exps]. cbn [fst snd] in *. subst exps.
  apply offer_docs_collect.
Qed.

Lemma pair_keys_nodup {A} (c : rstring) (l : list (rstring * A)) :
  NoDup l.*1 -> NoDup (map (fun kv => (c, kv.1)) l).
Proof.
  intros Hnd. assert (map (fun kv : rstring * A => (c, kv.1)) l = pair c <$> l.*1) as -> by by rewrite <- list_fmap_compose.
  apply NoDup_fmap_2; [|done]. by intros ? ? [= ->].
Qed.

Lemma gathered_nodup query opts nc : NoDup (gathered query opts nc).*2.
Proof.
  apply (omap_keys _ (fun ip => (nc.1, ip.1))).
  - intros ip y. unfold offered. destruct (cl_docs nc.2 !! ip.1); [|done]. cbn.
    destruct (negb _); [done|]. destruct (below _ _); [done|]. by intros [= <-].
  - apply pair_keys_nodup. rewrite hash_iter_perm. apply NoDup_fst_map_to_list.
Qed.

Lemma entries_nodup query opts nc : NoDup (omap (text_entry query opts nc) (docs_entries nc.2)).*2.
Proof.
  apply (omap_keys _ (fun ie => (nc.1, ie.1))).
  - intros ie y. unfold text_entry. destruct (text_score _ _ _ _ _); [|done]. by intros [= <-].
  - apply pair_keys_nodup, docs_entries_nodup.
Qed.

Lemma gathered_entries query opts nc :
  st_collections s !! nc.1 = Some nc.2 ->
  gathered query opts nc ≡ₚ omap (text_entry query opts nc) (docs_entries nc.2).
Proof.
  intros Hc. destruct (score_collection_spec nc.1 nc.2 (fq_clauses query) Hc) as [Ha _]. apply NoDup_Permutation.
  - eapply NoDup_fmap_1, gathered_nodup.
  - eapply NoDup_fmap_1, entries_nodup.
  - intros x. unfold gathered. rewrite !list_elem_of_omap. split.
    + intros ([id row] & Hin & E). rewrite hash_iter_perm in Hin. apply elem_of_map_to_list in Hin.
      rewrite Ha in Hin. unfold offered in E. cbn [fst snd] in E.
      destruct (cl_docs nc.2 !! id) as [e|] eqn:Ee; [|done]. cbn in Hin, E.
      exists (id, e). split; [by apply docs_entries_elem|]. unfold text_entry, text_score. cbn [fst snd].
      case_bool_decide; [done|]. injection Hin as <-. destruct (negb _); [done|].
      by destruct (below _ _).
    + intros ([id e] & Hin%docs_entries_elem & E). unfold text_entry, text_score in E. cbn [fst snd] in E.
      case_bool_decide as Hr; [done|].
      exists (id, clause_row nc.1 nc.2 (de_attrs e) (fq_clauses query)). split.
      * rewrite hash_iter_perm. apply elem_of_map_to_list. rewrite Ha, Hin. cbn. by rewrite bool_decide_eq_false_2.
      * unfold offered. cbn [fst snd]. rewrite Hin. cbn. destruct (negb _); [done|]. by destruct (below _ _).
Qed.

Lemma gathered_all names query opts :
  mjoin (map (gathered query opts) (in_scope s names)) ≡ₚ text_entries names query opts.
Proof.
  unfold text_entries. assert (Forall (fun nc => st_collections s !! nc.1 = Some nc.2) (in_scope s names)) as Hin.
  { apply Forall_forall. intros [n col] [_ ?]%in_scope_elem. done. }
  induction Hin as [|nc l Hnc _ IH]; [done|]. cbn. by rewrite IH, gathered_entries.
Qed.

Lemma text_entries_nodup names query opts : NoDup names -> NoDup (text_entries names query opts).*2.
Proof.
  intros Hnd. apply gather_nodup.
  - by apply in_scope_nodup.
  - intros nx e (ie & _ & E)%list_elem_of_omap. unfold text_entry in E. destruct (text_score _ _ _ _ _); [|done].
    by injection E as <-.
  - intros nx _. apply entries_nodup.
Qed.
End spec.

(** ** Annotations *)

Section annotating.
Context `{UnicodeAlnum} `{UnicodeLower} `{RegexEngine} `{RegexSyntax} `{HashOrder} `{HashIter} `{SortUnstable}
  `{Powf} `{Ln}.
Context (s : Store) (Hf : fts_faithful s) (query : FtsQuery).

Lemma highlight_clause_ref c col entry opts clause :
  st_collections s !! c = Some col ->
  highlight_clause s c entry opts clause = ref_highlight s c col entry opts clause.
Proof.
  intros Hc. unfold highlight_clause, ref_highlight. rewrite <- (clause_terms_meaning s Hf c col clause Hc).
  unfold field_analyzer. destruct (fs_fields _ !! _) as [idx|]; [|done]. cbn.
  destruct (fragments _ _ _ _) as [[|]|]; done.
Qed.

Lemma highlights_for_ref opts h : highlights_for s (h_collection h) (h_id h) query opts = ref_highlights s query opts h.
Proof.
  unfold highlights_for, ref_highlights. destruct (st_collections s !! h_collection h) as [col|] eqn:Hc; [|done]. cbn.
  destruct (cl_docs col !! h_id h) as [entry|]; [|done]. f_equal.
  apply mapM_ext. intros clause. by apply highlight_clause_ref.
Qed.

Lemma annotate_hit_ref (st scores : option Breakdown) h :
  match st, scores with None, None => True | Some b, Some b0 => b !! hit_key h = b0 !! hit_key h | _, _ => False end ->
  annotate_hit s query st h = pair (delete (hit_key h) <$> st) <$> ref_annotate_hit s query scores h.
Proof.
  unfold annotate_hit, ref_annotate_hit. destruct st as [b|], scores as [b0|]; try done; intros E.
  - rewrite E. destruct (fq_highlight query) as [opts|]; cbn; [|done]. rewrite highlights_for_ref.
    by destruct (ref_highlights _ _ _ _).
  - destruct (fq_highlight query) as [opts|]; cbn; [|by destruct (default _ _)]. rewrite highlights_for_ref.
    by destruct (ref_highlights _ _ _ _).
Qed.

(** The breakdown is drained, so a hit keeps its scores when none is met twice. *)
Lemma annotate_loop_ref (st scores : option Breakdown) hits :
  NoDup (hit_key <$> hits) ->
  (forall h, h ∈ hits ->
   match st, scores with None, None => True | Some b, Some b0 => b !! hit_key h = b0 !! hit_key h | _, _ => False end) ->
  annotate_loop s query st hits = mapM (ref_annotate_hit s query scores) hits.
Proof.
  revert st. induction hits as [|h hits IH]; intros st Hnd Hst; [done|]. cbn in Hnd.
  apply NoDup_cons in Hnd as [Hh Hnd]. cbn [annotate_loop mapM].
  rewrite (annotate_hit_ref st scores h) by (apply Hst; by left).
  destruct (ref_annotate_hit _ _ _ _) as [h'|]; [|done]. cbn [mbind option_bind fmap option_fmap option_map].
  rewrite IH; [done|done|]. intros h1 Hin. specialize (Hst h1 ltac:(by right)).
  destruct st as [b|], scores as [b0|]; try done. cbn. rewrite lookup_delete_ne; [done|].
  intros E. apply Hh. rewrite E. by apply list_elem_of_fmap_2.
Qed.

Lemma annotate_ref scores hits :
  NoDup (hit_key <$> hits) -> annotate s hits query scores = ref_annotate s query scores hits.
Proof.
  intros Hnd. unfold annotate, ref_annotate.
  rewrite (annotate_loop_ref scores scores hits Hnd) by (intros h _; by destruct scores). done.
Qed.

Lemma hits_keys (p : Projection) (l : list (f32 * item)) : hit_key <$> map (hit_of s p) l = l.*2.
Proof. rewrite <- list_fmap_compose. apply list_fmap_ext. by intros ? [? [? ?]] _. Qed.

Lemma top_keys_nodup k (l : list (f32 * item)) : NoDup l.*2 -> NoDup (top item_cmp k l).*2.
Proof.
  intros Hnd. unfold top. rewrite fmap_take. eapply sublist_NoDup; [|apply sublist_take].
  by rewrite (sort_by_perm _ l).
Qed.
End annotating.

(** C7: A text query ranks exactly the live documents in scope that match a
    clause, pass the filter and reach the floor, each at the fold of its
    clauses' BM25 scores over the collection's own texts, ties by collection
    and id; the page goes through the same tail as a vector query, and each
    hit is annotated with its own clause scores and the highlights of its
    own text.  A prefix clause stands for the stems of the live texts its
    fragment reaches, by themselves or through a word the index has
    recorded, those more live texts carry first, cut at the cap; every word
    of a live text is recorded, and one of a deleted text may still be.  The
    query and its options are valid and ask for a hit, the scope names no
    collection twice, and the index describes the documents, as it does after
    any history of writes. *)
Theorem text_search_spec `{UnicodeAlnum} `{UnicodeLower} `{RegexEngine} `{RegexSyntax} `{HashOrder} `{HashIter}
    `{SortUnstable} `{Powf} `{Ln} (s : Store) (names : list rstring) (query : FtsQuery) (opts : SearchOpts) :
  fts_query_validate query = Ok tt -> check_query_opts opts = Ok tt -> (0 < so_top_k opts)%nat ->
  NoDup names -> fts_faithful s ->
  let entries := text_entries s names query opts in
  text_search s names query opts =
  (let? hits := finish s (map (hit_of s (so_projection opts)) (top item_cmp (depth opts) (text_scored entries))) opts in
   ref_annotate s query (if so_explain opts then Some (text_breakdown entries) else None) hits)%res /\
  words_known s.
Proof.
  intros Hq Ho Hk Hnd Hf entries. split; [|by apply faithful_words]. unfold text_search. rewrite Hq, Ho. cbn [res_bind].
  destruct (Nat.eqb_spec (so_top_k opts) 0); [lia|].
  rewrite (text_collections_collect s Hf query opts names). pose proof (gathered_all s Hf names query opts) as Hp.
  pose proof (text_entries_nodup s names query opts Hnd) as He. fold entries in Hp, He.
  assert (NoDup (mjoin (map (gathered s query opts) (in_scope s names))).*2) as Hg by by rewrite Hp.
  destruct (collect_spec (so_explain opts) _ (TopK_new (depth opts)) ∅ Hg) as [E1 E2].
  destruct (fold_left _ _ _) as [topk b]. cbn [fst snd] in E1, E2. subst topk b.
  assert (forall l : list (f32 * list ClauseScore * item), (text_scored l).*2 = l.*2) as Hkeys.
  { intros l. unfold text_scored. by rewrite <- list_fmap_compose. }
  unfold hits_from_topk. rewrite (offers_top item_cmp) by (rewrite Hkeys; exact Hg).
  rewrite (top_perm item_cmp (depth opts) _ (text_scored entries)); [|rewrite Hkeys; exact Hg|by apply Permutation_map].
  assert (NoDup (text_scored entries).*2) as Hte by (rewrite Hkeys; exact He).
  destruct (finish s _ opts) as [hits|] eqn:Efin; [|done]. cbn [res_bind]. rewrite annotate_ref; [|done|].
  2:{ apply (finish_keys _ _ _ _ Efin). rewrite hits_keys. by apply top_keys_nodup. }
  f_equal. destruct (so_explain opts); [|done]. rewrite (right_id_L ∅ (∪)). unfold text_breakdown.
  rewrite (list_to_map_proper (map (fun x => (x.2, x.1.2)) (mjoin (map (gathered s query opts) (in_scope s names))))
    (map (fun x => (x.2, x.1.2)) entries)); [done| |by apply Permutation_map].
  rewrite <- list_fmap_compose. exact Hg.
Qed.

(** ** A text query over a written store *)

Lemma live_fts_faithful `{UnicodeAlnum} `{UnicodeLower} `{RegexEngine} `{RegexSyntax} n s :
  live_ok n (st_index s) -> fts_faithful s.
Proof. intros Hl. exists n. apply Hl. Qed.

Section examples.
Import LiveDemo.

(** Every idf is one. *)
#[local] Instance flat_ln : Ln := fun _ => f32_one.
#[local] Instance flat_pow : Powf := fun _ _ => f32_one.

Definition query (text : rstring) (prefix : bool) : FtsQuery :=
  {| fq_clauses := [{| fc_field := body; fc_text := text; fc_prefix := prefix |}]; fq_combine := CombineSum;
     fq_highlight := None |}.
Definition topts (top_k : nat) (explain : bool) : SearchOpts :=
  {| so_top_k := top_k; so_offset := 0; so_filter := Filter_default; so_min_score := None;
     so_exact := true; so_projection := PrAll; so_explain := explain; so_plan := false; so_rank_by := None;
     so_limit_per := None; so_diversity := None; so_rerank := None; so_expand := None; so_names := [];
     so_name_weights := ∅; so_pool := PoolMax |}.

(** A word recorded from a text since deleted leads its fragment to a stem
    that lives; a text that has only the stem would not. *)
Example recorded_word_completes :
  let cfg := FtsField_new body in
  let docs := {[lit "d" := lit "run"]} in
  completions cfg docs [lit "run"; lit "running"] (lit "runn") = [(lit "run", 1%nat)] /\
  completions cfg docs [lit "run"] (lit "runn") = [].
Proof. vm_compute. by split. Qed.

(** Of the notes written, [a] is deleted, [b] carries the stem twice, [c] a
    word of the prefix. *)
Definition answer : result query_error (list (rstring * rstring)) :=
  (let? hits := text_search LiveDemo.store [notes; lit "none"] (query (lit "RUN") false) (topts 2 true) in
   Ok (map hit_key hits))%res.

Lemma text_search_spec_witness :
  answer = Ok [(notes, lit "b")] /\
  let entries := text_entries LiveDemo.store [notes; lit "none"] (query (lit "RUN") false) (topts 2 true) in
  text_search LiveDemo.store [notes; lit "none"] (query (lit "RUN") false) (topts 2 true) =
  (let? hits := finish LiveDemo.store (map (hit_of LiveDemo.store PrAll)
       (top item_cmp (depth (topts 2 true)) (text_scored entries))) (topts 2 true) in
   ref_annotate LiveDemo.store (query (lit "RUN") false) (Some (text_breakdown entries)) hits)%res /\
  words_known LiveDemo.store.
Proof.
  split; [by vm_compute|].
  apply (text_search_spec LiveDemo.store [notes; lit "none"] (query (lit "RUN") false) (topts 2 true));
    [by vm_compute|by vm_compute|cbn; lia|apply (bool_decide_unpack _); by vm_compute|].
  apply (live_fts_faithful 3). apply (history_keeps 3 0 (text_store []) LiveDemo.store writes_history); [by vm_compute|exact live_ok_empty].
Defined.
End examples.
