(* ===== verification/SuggestSpec.v ===== *)
(** * SuggestSpec: what completion answers

    [completion_df] counts, straight from the live documents, those that carry
    the stem of a completion together with every complete word typed before
    it and pass the filter.  [suggest_spec] shows that the prefix pass ranks
    the known words by exactly that count, summed over the scope. *)
From S2P Require Import Prelude Floats Model Config TextPred Filter Literal Findex Narrow Sort TopK Std Hits.
From S2P Require Import Manifest Segments Replay Store Mmr Aggregate Expand Rank Scoring Quant Search SearchSpec.
From S2P Require Import Fuzzy Analyzer Fts FtsStore Highlight TextSearch LiveIndex Live TextSpec.

Section spec.
Context `{UnicodeAlnum} `{UnicodeLower} `{RegexEngine} `{RegexSyntax} `{SortUnstable}.
Context (s : Store) (field prefix : rstring) (opts : SuggestOpts).
#[local] Abbreviation fts := (ix_fts (st_index s)).

Definition passes (col : Collection) (id : rstring) : Prop :=
  match cl_docs col !! id with Some e => matches (sg_filter opts) (de_attrs e) = true | None => False end.
#[export] Instance passes_dec col id : Decision (passes col id).
Proof. unfold passes. destruct (cl_docs col !! id); apply _. Defined.

(** The documents of a collection behind a completed stem. *)
Definition matching_docs (cfg : FtsField) (col : Collection) (heads : list rstring) (st : rstring) : nat :=
  size (filter (fun kv => st ∈ terms_of cfg kv.2 /\ Forall (fun h => h ∈ terms_of cfg kv.2) heads /\ passes col kv.1)
          (doc_texts field (de_attrs <$> cl_docs col))).

Definition completion_df (c term : rstring) : nat :=
  match fs_fields fts !! (c, field), st_collections s !! c with
  | Some idx, Some col =>
      match analyze_with_prefix prefix (fts_analyzer (ft_cfg idx)), ft_surface idx !! term with
      | (heads, Some fragment), Some st =>
          if starts_with term fragment then matching_docs (ft_cfg idx) col heads st else 0%nat
      | _, _ => 0%nat
      end
  | _, _ => 0%nat
  end.

(** Summed over the scope. *)
Definition total_df (names : list rstring) (term : rstring) : nat :=
  list_sum (map (fun c => completion_df c term) names).

(** ** One collection *)

Context (Hf : fts_faithful s).

(** The predicate the closure [admit] computes, and what it counts. *)
Definition filtered : bool := negb (bool_decide (filter_preds (sg_filter opts) = [])).

Definition admit_fn_of (col : Collection) (hd : option (gset N)) : option admit_fn :=
  if negb (bool_decide (is_Some hd)) && negb filtered then None
  else Some (fun docnum id =>
    if match hd with Some docs => negb (bool_decide (docnum ∈ docs)) | None => false end then false
    else if negb filtered then true
    else match cl_docs col !! id with Some entry => matches (sg_filter opts) (de_attrs entry) | None => false end).

Lemma unfiltered_matches attrs : filtered = false -> matches (sg_filter opts) attrs = true.
Proof. unfold filtered, matches. intros E%negb_false_iff%bool_decide_eq_true. by rewrite E. Qed.

Lemma texts_live col id text :
  doc_texts field (de_attrs <$> cl_docs col) !! id = Some text -> exists e, cl_docs col !! id = Some e.
Proof.
  unfold doc_texts. rewrite lookup_omap, lookup_fmap. destruct (cl_docs col !! id) as [e|]; [by exists e|done].
Qed.

Lemma df_matching (idx : FtsIndex) (col : Collection) (heads : list rstring) st :
  fts_ok idx (doc_texts field (de_attrs <$> cl_docs col)) ->
  df_of_stem idx st (admit_fn_of col (head_docs idx heads)) = matching_docs (ft_cfg idx) col heads st.
Proof.
  intros Hok. rewrite df_of_stem_posts. unfold admit_fn_of, matching_docs.
  set (docs := doc_texts field (de_attrs <$> cl_docs col)) in *.
  assert (forall d id, slot idx d = Some id -> exists text e, docs !! id = Some text /\ cl_docs col !! id = Some e) as Hslot.
  { intros d id Hs. destruct (slot_doc _ _ Hok _ _ Hs) as [text Ht]. destruct (texts_live _ _ _ Ht) as [e He]. eauto. }
  destruct (decide (heads = [])) as [->|Hne].
  - change (head_docs idx []) with (@None (gset N)). rewrite bool_decide_eq_false_2 by (by intros [? ?]). cbn [negb andb].
    destruct filtered eqn:Ef; cbn [negb].
    + cbn [df_where]. rewrite (count_admitted _ _ Hok _ (passes col)).
      * f_equal. apply map_filter_ext. intros id text _. cbn. split; [intros [? ?]; by split_and!|naive_solver].
      * intros d id Hs. destruct (Hslot _ _ Hs) as (text & e & _ & He). unfold passes. by rewrite He.
    + rewrite (df_where_None _ _ Hok). unfold df. f_equal. apply map_filter_ext. intros id text Ht. cbn.
      destruct (texts_live _ _ _ Ht) as [e He]. unfold passes. rewrite He.
      rewrite unfiltered_matches by done. split; [intros ?; by split_and!|naive_solver].
  - destruct (head_docs_spec _ _ Hok heads Hne) as (acc & -> & Hin & _).
    rewrite bool_decide_eq_true_2 by eauto. cbn [negb andb df_where].
    rewrite (count_admitted _ _ Hok _ (fun id => Forall (fun h => h ∈ terms_of (ft_cfg idx) (default [] (docs !! id))) heads /\ passes col id)).
    + f_equal. apply map_filter_ext. intros id text Ht. cbn in *. by rewrite Ht.
    + intros d id Hs. destruct (Hslot _ _ Hs) as (text & e & Ht & He). rewrite Ht. cbn [default].
      assert (d ∈ acc <-> Forall (fun h => h ∈ terms_of (ft_cfg idx) text) heads) as Hc.
      { rewrite (Hin _ _ Hs). unfold carries. split; [by intros Hc; apply Hc|]. intros ? text'. rewrite Ht. by intros [= <-]. }
      rewrite <- Hc. unfold passes. rewrite He. case_bool_decide as Hd; cbn [negb].
      * destruct filtered eqn:Ef; cbn [negb]; [naive_solver|]. rewrite unfiltered_matches by done. naive_solver.
      * naive_solver.
Qed.

Lemma suggest_one_prefix c :
  suggest_one s c field prefix opts LegPrefix =
  Some (match fs_fields fts !! (c, field) with
        | Some idx =>
            match (analyze_with_prefix prefix (fts_analyzer (ft_cfg idx))).2 with
            | Some fragment =>
                omap (fun ss => let n := completion_df c ss.1 in if (0 <? n)%nat then Some (ss.1, n, 0%nat) else None)
                  (prefix_range (ft_surface idx) fragment)
            | None => []
            end
        | None => []
        end).
Proof.
  unfold suggest_one, field_analyzer. destruct (fs_fields fts !! (c, field)) as [idx|] eqn:Ei; [|done]. cbn [fmap option_fmap option_map].
  destruct (st_collections s !! c) as [col|] eqn:Ec.
  2:{ destruct (analyze_with_prefix _ _) as [heads [fragment|]] eqn:Ea; cbn [snd]; [|done]. f_equal. symmetry.
      induction (prefix_range _ _) as [|ss l IH]; [done|]. cbn. unfold completion_df at 1 2. rewrite Ei, Ec. done. }
  destruct (analyze_with_prefix _ _) as [heads [fragment|]] eqn:Ea; cbn [snd]; [|done].
  pose proof (field_texts_ok s Hf c col field idx Ei Ec) as Hok.
  assert (forall ss, ss ∈ prefix_range (ft_surface idx) fragment -> completion_df c ss.1 = matching_docs (ft_cfg idx) col heads ss.2) as Hdf.
  { intros [term st] [Hs Hp]%elem_of_prefix_range. unfold completion_df. cbn [fst snd]. by rewrite Ei, Ec, Ea, Hs, Hp. }
  unfold fts_head_docs. rewrite Ei.
  assert (omap (fun ss => let n := completion_df c ss.1 in if (0 <? n)%nat then Some (ss.1, n, 0%nat) else None)
            (prefix_range (ft_surface idx) fragment) =
          map (fun td => (td, 0%nat)) (suggest_scored idx fragment (admit_fn_of col (head_docs idx heads)))) as Hall.
  { unfold suggest_scored. revert Hdf. generalize (prefix_range (ft_surface idx) fragment). intros l Hdf.
    induction l as [|ss l IH]; [done|]. cbn [omap list_omap]. rewrite Hdf by constructor.
    rewrite (df_matching idx col heads ss.2 Hok). rewrite IH by (intros; apply Hdf; by constructor).
    by destruct (0 <? _)%nat. }
  destruct (match head_docs idx heads with Some docs => bool_decide (docs = ∅) | None => false end) eqn:Eh.
  - destruct (head_docs idx heads) as [docs|] eqn:Ed; [|done]. apply bool_decide_eq_true in Eh. subst docs.
    f_equal. symmetry. assert (heads <> []) as Hne by by intros ->.
    destruct (head_docs_spec _ _ Hok heads Hne) as (acc & Ed' & Hin & _). rewrite Ed in Ed'. injection Ed' as <-.
    assert (forall st, matching_docs (ft_cfg idx) col heads st = 0%nat) as Hz.
    { intros st. unfold matching_docs. apply map_size_empty_iff, map_empty. intros id. apply eq_None_not_Some.
      intros [text [Ht (_ & Hc & _)]%map_lookup_filter_Some]. cbn in *.
      destruct (proj2 (to_dom _ _ Hok id) ltac:(eauto)) as [d Hd]. apply (slot_Some _ _ Hok) in Hd.
      destruct (not_elem_of_empty (C := gset N) d). apply (Hin _ _ Hd). intros text'. rewrite Ht. by intros [= <-]. }
    revert Hdf. clear Hall. generalize (prefix_range (ft_surface idx) fragment). intros l Hdf.
    induction l as [|ss l IH]; [done|]. cbn [omap list_omap]. rewrite Hdf by constructor. rewrite Hz.
    apply IH. intros. apply Hdf. by constructor.
  - f_equal. unfold fts_suggest. rewrite Ei. exact (eq_sym Hall).
Qed.

(** ** Merging the collections *)

Definition tallied (k : nat) : option (nat * nat) := if (k =? 0)%nat then None else Some (0%nat, k).
Definition count_of (t : rstring) (l : list (rstring * nat * nat)) : nat :=
  list_sum (map (fun x => if decide (x.1.1 = t) then x.1.2 else 0%nat) l).

Lemma merge_tally l m (k : rstring -> nat) :
  Forall (fun x : rstring * nat * nat => (0 < x.1.2)%nat /\ x.2 = 0%nat) l -> (forall t, m !! t = tallied (k t)) ->
  forall t, fold_left merge_one l m !! t = tallied (k t + count_of t l).
Proof.
  intros Hl. revert m k. induction Hl as [|[[term n] d] l [Hn Hd] _ IH]; intros m k Hm t.
  { cbn. by rewrite Nat.add_0_r. }
  cbn [fst snd] in Hn, Hd. subst d. cbn [fold_left].
  rewrite (IH _ (fun t => k t + if decide (term = t) then n else 0)%nat).
  - f_equal. unfold count_of, list_sum. cbn [map foldr fst snd]. lia.
  - clear t. intros t. unfold merge_one. destruct (decide (term = t)) as [<-|Hne].
    + rewrite lookup_insert_eq, Hm. unfold tallied. destruct (Nat.eqb_spec (k term) 0) as [->|]; cbn.
      * by destruct (Nat.eqb_spec n 0); [lia|].
      * destruct (Nat.eqb_spec (k term + n) 0); [lia|]. done.
    + by rewrite lookup_insert_ne, Hm, Nat.add_0_r.
Qed.

Lemma count_keyed {V} (l : list (rstring * V)) (f : rstring -> nat) t :
  NoDup l.*1 ->
  count_of t (omap (fun ss => if (0 <? f ss.1)%nat then Some (ss.1, f ss.1, 0%nat) else None) l) =
  if decide (t ∈ l.*1) then f t else 0%nat.
Proof.
  intros Hnd. induction l as [|[x v] l IH].
  { cbn. rewrite decide_False; [done|]. apply not_elem_of_nil. }
  cbn [fmap list_fmap] in Hnd. apply NoDup_cons in Hnd as [Hx Hnd]. specialize (IH Hnd). cbn [omap list_omap fst fmap list_fmap].
  assert (forall o, count_of t (match (if (0 <? f x)%nat then Some (x, f x, 0%nat) else None) with Some y => y :: o | None => o end)
            = ((if decide (x = t) then f x else 0) + count_of t o)%nat) as ->.
  { intros o. destruct (Nat.ltb_spec 0 (f x)) as [Hp|Hp]; [done|]. assert (f x = 0%nat) as -> by lia. by destruct (decide (x = t)). }
  rewrite IH. destruct (decide (x = t)) as [<-|Hne].
  - rewrite (decide_False (P := x ∈ l.*1)) by done. rewrite decide_True by (by left). lia.
  - destruct (decide (t ∈ l.*1)).
    + rewrite decide_True by (by right). lia.
    + rewrite decide_False; [lia|]. rewrite elem_of_cons. naive_solver.
Qed.

Lemma prefix_range_nodup {V} (m : gmap rstring V) p : NoDup (prefix_range m p).*1.
Proof.
  rewrite prefix_range_spec. pose proof (bt_keys_NoDup m) as Hnd. unfold bt_keys in Hnd. revert Hnd.
  generalize (bt_entries m). intros l. induction l as [|x l IH]; [done|]. cbn. intros [Hx Hnd]%NoDup_cons.
  destruct (starts_with x.1 p); [|by apply IH]. cbn. constructor; [|by apply IH]. contradict Hx.
  apply list_elem_of_fmap in Hx as (y & -> & Hy). apply list_elem_of_In, filter_In in Hy as [Hy _].
  apply list_elem_of_fmap_2. by apply list_elem_of_In.
Qed.

Lemma suggest_one_counts c :
  exists found, suggest_one s c field prefix opts LegPrefix = Some found /\
    Forall (fun x : rstring * nat * nat => (0 < x.1.2)%nat /\ x.2 = 0%nat) found /\
    forall t, count_of t found = completion_df c t.
Proof.
  rewrite suggest_one_prefix. eexists. split; [done|]. split.
  - destruct (fs_fields fts !! (c, field)) as [idx|]; [|constructor].
    destruct (analyze_with_prefix _ _).2 as [fragment|]; [|constructor].
    apply Forall_forall. intros x (ss & _ & E)%list_elem_of_omap. cbv beta zeta in E.
    destruct (Nat.ltb_spec 0 (completion_df c ss.1)); [|done]. by injection E as <-.
  - intros t. destruct (fs_fields fts !! (c, field)) as [idx|] eqn:Ei; [|unfold completion_df; by rewrite Ei].
    destruct (analyze_with_prefix prefix (fts_analyzer (ft_cfg idx))) as [heads [fragment|]] eqn:Ea; cbn [snd];
      [|unfold completion_df; rewrite Ei, Ea; by destruct (st_collections s !! c)].
    cbn zeta. rewrite (count_keyed _ (completion_df c)) by apply prefix_range_nodup.
    unfold completion_df. rewrite Ei, Ea. destruct (st_collections s !! c) as [col|]; [|by case_decide].
    case_decide as Hin.
    + done.
    + destruct (ft_surface idx !! t) as [st|] eqn:Es; [|done]. destruct (starts_with t fragment) eqn:Ep; [|done].
      destruct Hin. apply (list_elem_of_fmap_2' fst _ (t, st)); [|done]. by apply elem_of_prefix_range.
Qed.

Lemma sweep_counts names m k :
  (forall t, m !! t = tallied (k t)) ->
  exists merged, sweep s names field prefix opts LegPrefix m = Some merged /\
    forall t, merged !! t = tallied (k t + total_df names t).
Proof.
  unfold sweep. revert m k. induction names as [|c names IH]; intros m k Hm.
  { exists m. split; [done|]. intros t. cbn. by rewrite Nat.add_0_r, Hm. }
  destruct (suggest_one_counts c) as (found & Ef & Hpos & Hcount). cbn [fold_left]. cbn [mbind option_bind]. rewrite Ef.
  cbn [mbind option_bind]. destruct (IH (fold_left merge_one found m) (fun t => k t + completion_df c t)%nat) as (merged & Es & Hmg).
  { intros t. rewrite (merge_tally _ _ k) by done. by rewrite Hcount. }
  exists merged. split; [exact Es|]. intros t. rewrite Hmg. f_equal. unfold total_df, list_sum. cbn [map foldr]. lia.
Qed.
End spec.

(** ** Ranking *)

Lemma sort_by_map {A B} (f : A -> B) (cmp : B -> B -> comparison) l :
  sort_by cmp (map f l) = map f (sort_by (cmp_on f cmp) l).
Proof.
  induction l as [|x l IH]; [done|]. change (insert_by cmp (f x) (sort_by cmp (map f l)) = map f (insert_by (cmp_on f cmp) x (sort_by (cmp_on f cmp) l))).
  rewrite IH. generalize (sort_by (cmp_on f cmp) l). clear. intros l. induction l as [|y l IH]; [done|]. cbn.
  unfold cmp_on at 1. destruct (cmp (f x) (f y)); [done|done|]. cbn. by rewrite IH.
Qed.

Lemma bt_entries_fmap {A B} (f : A -> B) (m : gmap rstring A) :
  bt_entries (f <$> m) ≡ₚ map (fun kv => (kv.1, f kv.2)) (bt_entries m).
Proof.
  rewrite (bt_entries_perm (f <$> m)), map_to_list_fmap. apply (Permutation_map (fun kv => (kv.1, f kv.2))). by rewrite bt_entries_perm.
Qed.

(** C21: Where the prefix pass of [suggest] finds a word, or fuzzy completion is
    off, it ranks every recorded word that completes the typed fragment by the
    number of live documents in scope that carry its stem and those of all the
    complete words before it and pass the filter — counted here from the
    documents themselves — most frequent first, ties in alphabetical order,
    cut at 256 words and then to the limit, and reports how many there are
    before the cut; a word no such document backs is left out.  (A document
    counts for a word when it has its stem, in whatever form.) *)
Theorem suggest_spec `{UnicodeAlnum} `{UnicodeLower} `{RegexEngine} `{RegexSyntax} `{SortUnstable} (s : Store)
    (names : list rstring) (field prefix : rstring) (opts : SuggestOpts) :
  fts_faithful s -> is_ok (filter_validate (sg_filter opts)) = true ->
  (sg_fuzzy opts = false \/ exists t, (0 < total_df s field prefix opts names t)%nat) ->
  exists words : gmap rstring nat,
    (forall t, words !! t = let n := total_df s field prefix opts names t in if (n =? 0)%nat then None else Some n) /\
    suggest s names field prefix opts =
    Ok {| su_suggestions := map (fun x => {| su_term := x.1; su_df := x.2 |})
            (take (sg_limit opts) (take MAX_PREFIX_EXPANSION (sort_by by_df (bt_entries words))));
          su_matched := size words |}.
Proof.
  intros Hf Hv Hz. destruct (sweep_counts s field prefix opts Hf names ∅ (fun _ => 0%nat)) as (merged & Es & Hm).
  { intros t. apply lookup_empty. }
  exists (snd <$> merged). split.
  { intros t. rewrite lookup_fmap, Hm. unfold tallied. cbn. by destruct (_ =? 0)%nat. }
  assert (bool_decide (merged = ∅) && sg_fuzzy opts && (0 <? sg_limit opts)%nat = false) as Ez.
  { destruct Hz as [->|[t Ht]]; [by rewrite andb_false_r|]. rewrite bool_decide_eq_false_2; [done|]. intros ->.
    specialize (Hm t). rewrite lookup_empty in Hm. unfold tallied in Hm. destruct (Nat.eqb_spec (0 + total_df s field prefix opts names t) 0); [lia|done]. }
  unfold suggest. rewrite Hv, Es. cbn [negb]. cbv zeta. rewrite Ez.
  set (count := fun te : rstring * (nat * nat) => (te.1, te.2.2)).
  assert (sort_by by_df (bt_entries (snd <$> merged)) = map count (sort_by (cmp_on count by_df) (bt_entries merged))) as ->.
  { rewrite <- sort_by_map. apply (sort_by_unique by_df); [intros x y _ _; apply by_df_exact| |apply sort_by_sorted, _].
    by rewrite sort_by_perm, (bt_entries_fmap snd). }
  rewrite sort_by_map, !firstn_map, !map_map. f_equal. f_equal. by rewrite map_size_fmap.
Qed.

Section examples.
Import LiveDemo.

Definition sopts (limit : nat) : SuggestOpts := {| sg_limit := limit; sg_filter := Filter_default; sg_fuzzy := true |}.

(** Of the words behind "ru", the live note [b] carries both. *)
Lemma suggest_spec_witness :
  suggest LiveDemo.store [notes; lit "none"] body (lit "ru") (sopts 1) =
    Ok {| su_suggestions := [{| su_term := lit "running"; su_df := 1 |}]; su_matched := 2 |} /\
  exists words : gmap rstring nat,
    (forall t, words !! t = let n := total_df LiveDemo.store body (lit "ru") (sopts 1) [notes; lit "none"] t in
                            if (n =? 0)%nat then None else Some n) /\
    suggest LiveDemo.store [notes; lit "none"] body (lit "ru") (sopts 1) =
    Ok {| su_suggestions := map (fun x => {| su_term := x.1; su_df := x.2 |})
            (take 1 (take MAX_PREFIX_EXPANSION (sort_by by_df (bt_entries words))));
          su_matched := size words |}.
Proof.
  split; [by vm_compute|].
  apply (suggest_spec LiveDemo.store [notes; lit "none"] body (lit "ru") (sopts 1)); [|by vm_compute|].
  - apply (live_fts_faithful 3). apply (history_keeps 3 0 (text_store []) LiveDemo.store writes_history); [by vm_compute|exact live_ok_empty].
  - right. exists (lit "running"). apply Nat.ltb_lt. by vm_compute.
Defined.
End examples.
