(* ===== verification/SqlDate.v ===== *)
(** * SqlDate: timestamp literals ([src/src/sql/datetime.rs])

    An ISO-8601 UTC instant is read to milliseconds since the epoch with
    integer civil-date arithmetic.  [iso8601_reads_calendar] compares it with a
    calendar that counts the days year by year and month by month. *)
From S2P Require Import Prelude Backend IndexCache Manifest.
#[local] Open Scope Z_scope.

(** [i64::checked_*]: the exact result when it fits. *)
Definition checked_i64 (z : Z) : option Z :=
  if (- 2 ^ 63 <=? z) && (z <? 2 ^ 63) then Some z else None.

Definition digit_byte (b : Z) : bool := (48 <=? b) && (b <=? 57).
Definition digits_value (bs : bytes) : Z := foldl (fun acc b => acc * 10 + (b - 48)) 0 bs.
Definition byte_in (set : list Z) (b : option Z) : bool :=
  match b with Some b => bool_decide (b ∈ set) | None => false end.
Definition byte_of (a : Ascii.ascii) : Z := Z.of_N (N_of_ascii a).

(** The closure [n] on a range inside the text: a slice that is all digits is
    valid UTF-8, and at most four digits fit any integer. *)
Definition number_at (b : bytes) (lo hi : nat) : option Z :=
  let t := take (hi - lo) (drop lo b) in
  if forallb digit_byte t then Some (digits_value t) else None.

Fixpoint leading_digits (bs : bytes) : bytes :=
  match bs with
  | b :: bs' => if digit_byte b then b :: leading_digits bs' else []
  | [] => []
  end.

Definition Z_at (digits : bytes) (i : nat) : Z :=
  match digits !! i with Some d => d - 48 | None => 0 end.

Definition is_Z (rest : bytes) : bool :=
  match rest with [] => true | [b] => byte_in [byte_of "Z"; byte_of "z"] (Some b) | _ => false end.

Definition parse_fraction (rest : bytes) : option Z :=
  if is_Z rest then Some 0
  else
    match rest with
    | b :: rest' =>
        if negb (b =? byte_of ".") then None
        else
          let digits := leading_digits rest' in
          if bool_decide (digits = []) then None
          else if negb (is_Z (drop (length digits) rest')) then None
          else Some (((0 * 10 + Z_at digits 0) * 10 + Z_at digits 1) * 10 + Z_at digits 2)
    | [] => None
    end.

(** The day number of a civil date; [/] on [i64] truncates. *)
Definition days_from_civil (year month day : Z) : Z :=
  let y := if month <=? 2 then year - 1 else year in
  let era := Z.quot (if 0 <=? y then y else y - 399) 400 in
  let yoe := y - era * 400 in
  let doy := Z.quot (153 * (if 2 <? month then month - 3 else month + 9) + 2) 5 + day - 1 in
  let doe := yoe * 365 + Z.quot yoe 4 - Z.quot yoe 100 + doy in
  era * 146097 + doe - 719468.

Definition iso8601_to_millis (s : rstring) : option Z :=
  let b := as_bytes s in
  if (length b <? 19)%nat then None
  else if negb (byte_in [byte_of "T"; byte_of "t"; byte_of " "] (b !! 10%nat)) then None
  else if negb (byte_in [byte_of "-"] (b !! 4%nat) && byte_in [byte_of "-"] (b !! 7%nat)
                && byte_in [byte_of ":"] (b !! 13%nat) && byte_in [byte_of ":"] (b !! 16%nat)) then None
  else
    year ← number_at b 0 4; month ← number_at b 5 7; day ← number_at b 8 10;
    hour ← number_at b 11 13; min ← number_at b 14 16; sec ← number_at b 17 19;
    if negb ((1 <=? month) && (month <=? 12)) || negb ((1 <=? day) && (day <=? 31)) then None
    else if (23 <? hour) || (59 <? min) || (60 <? sec) then None
    else
      millis ← parse_fraction (drop 19 b);
      d ← checked_i64 (days_from_civil year month day * 86400);
      m ← checked_i64 ((d + hour * 3600 + min * 60 + sec) * 1000);
      checked_i64 (m + millis).

Example iso_ex :
  map (fun t => iso8601_to_millis (lit t))
    ["1970-01-01T00:00:00Z"; "2023-11-14 22:13:20"; "1969-12-31T23:59:59.5z"; "0000-03-01T00:00:00.1239";
     "2023-11-14T22:13:20+01:00"; "2023-13-01T00:00:00Z"; "2023-1-01T00:00:00Z"]%string =
  [Some 0; Some 1700000000000; Some (-500); Some (-62162035200000 + 123); None; None; None].
Proof. vm_compute. reflexivity. Qed.

(** A day past the end of its month is taken for a day of the next one. *)
Example iso_overlong_day :
  iso8601_to_millis (lit "2023-02-31T00:00:00Z") = iso8601_to_millis (lit "2023-03-03T00:00:00Z") /\
  is_Some (iso8601_to_millis (lit "2023-02-31T00:00:00Z")).
Proof. vm_compute. split; [done|by eexists]. Qed.

(** ** The calendar *)

Definition leap (y : Z) : bool := (y mod 4 =? 0) && (negb (y mod 100 =? 0) || (y mod 400 =? 0)).
Definition month_days (y m : Z) : Z :=
  if m =? 2 then if leap y then 29 else 28
  else if bool_decide (m ∈ [4; 6; 9; 11]) then 30 else 31.

(** Days from the first of January of year 0 to the same day of year [y]. *)
Fixpoint year_start (y : nat) : Z :=
  match y with
  | O => 0
  | S y' => year_start y' + if leap (Z.of_nat y') then 366 else 365
  end.
(** Days from the first of January to the first of month [m + 1]. *)
Fixpoint month_start (y : Z) (m : nat) : Z :=
  match m with O => 0 | S m' => month_start y m' + month_days y (Z.of_nat m) end.

Definition day_number (y m d : nat) : Z :=
  year_start y + month_start (Z.of_nat y) (m - 1) + Z.of_nat d - 1.
Definition epoch_day (y m d : nat) : Z := day_number y m d - day_number 1970 1 1.

Lemma leap_floor y :
  0 <= y ->
  (if leap y then 1 else 0) =
  ((y + 4) / 4 - (y + 100) / 100 + (y + 400) / 400) - ((y + 3) / 4 - (y + 99) / 100 + (y + 399) / 400).
Proof.
  intros Hy. unfold leap.
  destruct (Z.eqb_spec (y mod 4) 0), (Z.eqb_spec (y mod 100) 0), (Z.eqb_spec (y mod 400) 0); cbn [andb orb negb];
    Z.to_euclidean_division_equations; lia.
Qed.

Lemma year_start_floor y :
  year_start y = 365 * Z.of_nat y + ((Z.of_nat y + 3) / 4 - (Z.of_nat y + 99) / 100 + (Z.of_nat y + 399) / 400).
Proof.
  induction y as [|y IH]; [done|]. cbn [year_start]. rewrite IH.
  pose proof (leap_floor (Z.of_nat y) ltac:(lia)) as E. rewrite Nat2Z.inj_succ.
  replace (Z.succ (Z.of_nat y) + 3) with (Z.of_nat y + 4) by lia.
  replace (Z.succ (Z.of_nat y) + 99) with (Z.of_nat y + 100) by lia.
  replace (Z.succ (Z.of_nat y) + 399) with (Z.of_nat y + 400) by lia.
  destruct (leap (Z.of_nat y)); lia.
Qed.

(** The leap days of the shifted year, which starts in March. *)
Lemma era_days y :
  -1 <= y ->
  let era := Z.quot (if 0 <=? y then y else y - 399) 400 in
  let yoe := y - era * 400 in
  era * 146097 + (yoe * 365 + Z.quot yoe 4 - Z.quot yoe 100) = 365 * y + y / 4 - y / 100 + y / 400.
Proof.
  intros Hy. cbv zeta. destruct (Z.leb_spec 0 y).
  - rewrite !Z.quot_div_nonneg; try lia; Z.to_euclidean_division_equations; lia.
  - assert (y = -1) as -> by lia. done.
Qed.

Lemma days_from_civil_leap year month day :
  0 <= year ->
  let y := if month <=? 2 then year - 1 else year in
  days_from_civil year month day =
  365 * y + y / 4 - y / 100 + y / 400 +
  (Z.quot (153 * (if 2 <? month then month - 3 else month + 9) + 2) 5 + day - 1) - 719468.
Proof.
  intros Hy. cbv zeta. unfold days_from_civil. cbv zeta. set (y := if month <=? 2 then year - 1 else year).
  assert (-1 <= y) as Hy' by (subst y; destruct (month <=? 2); lia).
  pose proof (era_days y Hy') as E. cbv zeta in E. lia.
Qed.

(** The days of the months before month [m + 1], in a year that is leap or not. *)
Lemma days_from_civil_calendar (y m d : nat) :
  (1 <= m <= 12)%nat -> days_from_civil (Z.of_nat y) (Z.of_nat m) (Z.of_nat d) = epoch_day y m d.
Proof.
  intros Hm. rewrite days_from_civil_leap by lia. unfold epoch_day, day_number. rewrite (year_start_floor y).
  assert (year_start 1970 + month_start (Z.of_nat 1970) (1 - 1) + Z.of_nat 1 - 1 = 719528) as -> by by vm_compute.
  set (Y := Z.of_nat y). pose proof (leap_floor Y ltac:(lia)) as Hl.
  assert ((Y + 4) / 4 = Y / 4 + 1 /\ (Y + 100) / 100 = Y / 100 + 1 /\ (Y + 400) / 400 = Y / 400 + 1) as (E1 & E2 & E3)
    by (Z.to_euclidean_division_equations; lia).
  assert ((Y + 3) / 4 = (Y - 1) / 4 + 1 /\ (Y + 99) / 100 = (Y - 1) / 100 + 1 /\ (Y + 399) / 400 = (Y - 1) / 400 + 1)
    as (F1 & F2 & F3) by (Z.to_euclidean_division_equations; lia).
  clearbody Y. destruct m as [|[|[|[|[|[|[|[|[|[|[|[|[|m]]]]]]]]]]]]]; try lia.
  all: cbn [Nat.sub month_start].
  all: repeat match goal with
       | |- context [Z.of_nat ?k <=? 2] => let v := eval vm_compute in (Z.of_nat k <=? 2) in change (Z.of_nat k <=? 2) with v
       | |- context [?a `quot` 5] => let v := eval vm_compute in (Z.quot a 5) in change (Z.quot a 5) with v
       end; cbn [bool_decide].
  all: repeat match goal with
       | |- context [month_days ?y ?k] => let v := eval cbv -[leap] in (month_days y k) in change (month_days y k) with v
       end.
  all: destruct (leap _); lia.
Qed.

(** ** The text of an instant *)

(** [2023-11-14T22:13:20.000Z] *)
Definition iso_text (y mo d h mi s ms : nat) : rstring :=
  let pad (w n : nat) := pad_digits w (N.of_nat n) in
  (pad 4 y ++ lit "-" ++ pad 2 mo ++ lit "-" ++ pad 2 d ++ lit "T" ++
   pad 2 h ++ lit ":" ++ pad 2 mi ++ lit ":" ++ pad 2 s ++ lit "." ++ pad 3 ms ++ lit "Z")%nat.

Lemma as_bytes_app a b : as_bytes (a ++ b) = as_bytes a ++ as_bytes b.
Proof. unfold as_bytes. by rewrite map_app, join_app. Qed.

Lemma as_bytes_digits ds : forallb is_ascii_digit ds = true -> as_bytes ds = map Z.of_N ds.
Proof.
  induction ds as [|c ds IH]; [done|]. cbn [forallb]. intros [Hc Hd]%andb_prop.
  change (as_bytes (c :: ds)) with (utf8_char c ++ as_bytes ds). rewrite IH by done. unfold is_ascii_digit in Hc. bdestr.
  unfold utf8_char. by rewrite (proj2 (Z.ltb_lt _ _)) by lia.
Qed.

Lemma digits_value_parse ds acc :
  forallb is_ascii_digit ds = true ->
  foldl (fun acc b => acc * 10 + (b - 48)) (Z.of_N acc) (map Z.of_N ds) =
  Z.of_N (foldl (fun acc c => acc * 10 + (c - 48))%N acc ds).
Proof.
  revert acc. induction ds as [|c ds IH]; [done|]. intros acc. cbn [forallb map foldl]. intros [Hc Hd]%andb_prop.
  rewrite <- IH by done. f_equal. unfold is_ascii_digit in Hc. bdestr. lia.
Qed.

Lemma padded_bytes w n :
  let t := as_bytes (pad_digits w (N.of_nat n)) in
  length t = w /\ forallb digit_byte t = true /\ digits_value t = Z.of_nat n mod 10 ^ Z.of_nat w.
Proof.
  cbv zeta. rewrite as_bytes_digits by apply pad_digits_ascii. split_and!.
  - by rewrite length_map, length_pad_digits.
  - pose proof (pad_digits_ascii w (N.of_nat n)) as Hd. revert Hd. generalize (pad_digits w (N.of_nat n)).
    intros ds. induction ds as [|c ds IH]; [done|]. cbn [forallb map]. intros [Hc Hd]%andb_prop. rewrite IH by done.
    unfold is_ascii_digit in Hc. unfold digit_byte. bdestr.
    by rewrite (proj2 (Z.leb_le _ _)), (proj2 (Z.leb_le _ _)) by lia.
  - change (digits_value (map Z.of_N (pad_digits w (N.of_nat n))) = Z.of_nat n mod 10 ^ Z.of_nat w).
    unfold digits_value. rewrite (digits_value_parse _ 0%N) by apply pad_digits_ascii.
    change (foldl _ 0%N (pad_digits w (N.of_nat n))) with (parse_digits (pad_digits w (N.of_nat n))).
    rewrite parse_pad_digits, N2Z.inj_mod, N2Z.inj_pow, !nat_N_Z. done.
Qed.

Lemma fraction_padded ms :
  Z.of_nat ms < 1000 -> parse_fraction (as_bytes (lit "." ++ pad_digits 3 (N.of_nat ms) ++ lit "Z")) = Some (Z.of_nat ms).
Proof.
  intros Hms. destruct (padded_bytes 3 ms) as (Hl & Hd & Hv). rewrite !as_bytes_app.
  destruct (as_bytes (pad_digits 3 (N.of_nat ms))) as [|a [|b [|c [|? ?]]]]; try done.
  cbn [forallb] in Hd. destruct (digit_byte a) eqn:Ea; [|done]. destruct (digit_byte b) eqn:Eb; [|done].
  destruct (digit_byte c) eqn:Ec; [|done]. unfold parse_fraction.
  change (as_bytes (lit ".")) with [46]. change (as_bytes (lit "Z")) with [90]. cbn [app is_Z leading_digits].
  change (negb (46 =? byte_of ".")) with false. cbv beta iota zeta. rewrite Ea, Eb, Ec.
  change (digit_byte 90) with false. cbv iota. rewrite bool_decide_eq_false_2 by done.
  change (is_Z (drop (length [a; b; c]) [a; b; c; 90])) with true. cbn [negb]. f_equal.
  unfold Z_at. cbn. rewrite <- (Z.mod_small (Z.of_nat ms) (10 ^ Z.of_nat 3)) by lia. rewrite <- Hv. done.
Qed.

(** Name the bytes of a zero-padded number. *)
Ltac padded w n :=
  let Hl := fresh "Hl" in let Hd := fresh "Hd" in let Hv := fresh "Hv" in
  destruct (padded_bytes w n) as (Hl & Hd & Hv);
  lazymatch eval cbv in w with
  | 2%nat => destruct (as_bytes (pad_digits w (N.of_nat n))) as [|? [|? [|? ?]]]
  | 3%nat => destruct (as_bytes (pad_digits w (N.of_nat n))) as [|? [|? [|? [|? ?]]]]
  | _ => destruct (as_bytes (pad_digits w (N.of_nat n))) as [|? [|? [|? [|? [|? ?]]]]]
  end; try discriminate Hl; clear Hl.

Lemma epoch_day_bounds y m d :
  Z.of_nat y < 10000 -> (1 <= m <= 12)%nat -> (d <= 31)%nat -> - 1000000 < epoch_day y m d < 3000000.
Proof.
  intros Hy Hm Hd. rewrite <- days_from_civil_calendar, days_from_civil_leap by lia. cbv zeta.
  assert (0 <= Z.quot (153 * (if 2 <? Z.of_nat m then Z.of_nat m - 3 else Z.of_nat m + 9) + 2) 5 < 400).
  { destruct (Z.ltb_spec 2 (Z.of_nat m)); rewrite Z.quot_div_nonneg by lia; Z.to_euclidean_division_equations; lia. }
  destruct (Z.of_nat m <=? 2); Z.to_euclidean_division_equations; lia.
Qed.

Lemma checked_i64_fits z : - 2 ^ 63 <= z < 2 ^ 63 -> checked_i64 z = Some z.
Proof. intros [H1 H2]. unfold checked_i64. by rewrite (proj2 (Z.leb_le _ _) H1), (proj2 (Z.ltb_lt _ _) H2). Qed.

(** C40: Every instant of the years 0 to 9999 written in ISO 8601 reads back as
    the milliseconds the calendar counts from the epoch to it. *)
Theorem iso8601_reads_calendar (y mo d h mi s ms : nat) :
  Z.of_nat y < 10000 -> (1 <= mo <= 12)%nat -> (1 <= d)%nat -> Z.of_nat d <= month_days (Z.of_nat y) (Z.of_nat mo) ->
  (h < 24)%nat -> (mi < 60)%nat -> (s <= 60)%nat -> Z.of_nat ms < 1000 ->
  iso8601_to_millis (iso_text y mo d h mi s ms) =
  Some ((epoch_day y mo d * 86400 + Z.of_nat h * 3600 + Z.of_nat mi * 60 + Z.of_nat s) * 1000 + Z.of_nat ms).
Proof.
  intros Hy Hmo Hd Hmd Hh Hmi Hs Hms. unfold iso8601_to_millis, iso_text. cbv zeta.
  pose proof (fraction_padded ms Hms) as Hf. rewrite !as_bytes_app in *.
  change (as_bytes (lit "-")) with [45]. change (as_bytes (lit "T")) with [84]. change (as_bytes (lit ":")) with [58].
  change (as_bytes (lit ".")) with [46] in *. change (as_bytes (lit "Z")) with [90] in *.
  assert (d <= 31)%nat as Hd31 by (unfold month_days in Hmd; repeat case_match; lia).
  pose proof (epoch_day_bounds y mo d Hy Hmo Hd31) as Hb.
  padded 3%nat ms. padded 4%nat y. padded 2%nat mo. padded 2%nat d. padded 2%nat h. padded 2%nat mi. padded 2%nat s.
  change (10 ^ Z.of_nat 4) with 10000 in *. change (10 ^ Z.of_nat 2) with 100 in *.
  rewrite !Z.mod_small in * by lia.
  unfold number_at. cbn [app length Nat.ltb Nat.leb take drop Nat.sub].
  repeat match goal with H : forallb digit_byte ?t = true |- _ => rewrite H; clear H end.
  repeat match goal with H : digits_value ?t = _ |- _ => rewrite ?H; clear H end.
  cbn [lookup list_lookup byte_in]. cbn [mbind option_bind app] in *.
  change (bool_decide (84 ∈ [byte_of "T"; byte_of "t"; byte_of " "])) with true.
  change (bool_decide (45 ∈ [byte_of "-"])) with true. change (bool_decide (58 ∈ [byte_of ":"])) with true.
  rewrite !(proj2 (Z.leb_le _ _)), !(proj2 (Z.ltb_ge _ _)) by lia. cbn [negb andb orb].
  rewrite Hf, days_from_civil_calendar by done. rewrite checked_i64_fits by lia. cbn [mbind option_bind].
  rewrite checked_i64_fits by lia. cbn [mbind option_bind]. apply checked_i64_fits. lia.
Qed.

Lemma iso8601_reads_calendar_witness :
  iso_text 2024 2 29 12 30 5 7 = lit "2024-02-29T12:30:05.007Z" /\
  iso8601_to_millis (iso_text 2024 2 29 12 30 5 7) =
  Some ((epoch_day 2024 2 29 * 86400 + Z.of_nat 12 * 3600 + Z.of_nat 30 * 60 + Z.of_nat 5) * 1000 + Z.of_nat 7).
Proof. split; [by vm_compute|]. apply (iso8601_reads_calendar 2024 2 29 12 30 5 7); (lia || by vm_compute). Defined.
