(* ===== verification/SqlLex.v ===== *)
(** * SqlLex: the tokens of a query ([src/src/sql/lex.rs], [src/src/sql/error.rs])

    The lexer walks the bytes of the source; here the bytes from index [i] on
    and [i] itself.  [lex_ok] shows that it ends on every text, that every
    token's range is a slice of the source — so that taking its text never
    panics — and that tokens are in order and end with [Eof]. *)
From S2P Require Import Prelude TextPred Std Backend IndexCache Manifest SqlDate.
#[local] Open Scope Z_scope.

(** ** Errors *)

Definition SQL_PARSE_ERROR : rstring := lit "sql parse error".

(** The section sign and the text of a section. *)
Definition section (s : String.string) : rstring := 0xA7%N :: lit s.
Definition SEC_SYNTAX := section "7.12 SQL syntax".
Definition SEC_GLOB := section "7.1 glob subset".
Definition SEC_ARRAY := section "7.2 array containment".
Definition SEC_BOOL := section "7.3 boolean composition".
Definition SEC_TEXT := section "7.4 fuzzy and token text predicates".
Definition SEC_REGEX := section "7.5 regular expressions".
Definition SEC_RANK := section "7.6 ranking expressions".
Definition SEC_AGG := section "7.7 aggregation and result diversity".
Definition SEC_ANNOTATE := section "7.8 result annotations".
Definition SEC_BATCH := section "7.9 multi-query batching".
Definition SEC_EXPAND := section "7.10 parent rollup and neighbour expansion".
Definition SEC_PLAN := section "7.11 query plans".

Record SqlError := { se_at : nat; se_message : rstring; se_section : rstring }.
Definition SqlError_new (at_ : nat) (message section : rstring) : SqlError :=
  {| se_at := at_; se_message := message; se_section := section |}.

(** [impl Display for SqlError]. *)
Definition SqlError_fmt (e : SqlError) : rstring :=
  SQL_PARSE_ERROR ++ lit " at byte " ++ fmt_pad 0 (N.of_nat (se_at e)) ++ lit ": " ++ se_message e ++
  lit " (" ++ se_section e ++ lit ")".

(** ** Tokens *)

Inductive Kind :=
| KIdent | KQuotedIdent | KStr | KInt | KFloat | KStar | KLParen | KRParen | KLBracket | KRBracket | KComma
| KSemicolon | KMinus | KEq | KNe | KLt | KLe | KGt | KGe | KTilde | KSelect | KFrom | KWhere | KGroup | KBy
| KOrder | KLimit | KOffset | KWith | KAnd | KOr | KNot | KIn | KLike | KIlike | KAsc | KDesc | KExcept | KSum
| KFuse | KPrefix | KTrue | KFalse | KNull | KEof.
#[export] Instance Kind_eq_dec : EqDecision Kind.
Proof. solve_decision. Defined.

Record Token := { tk_kind : Kind; tk_at : nat; tk_text : nat * nat }.

Definition KEYWORDS : list (rstring * Kind) :=
  Eval vm_compute in map (fun wk => (lit wk.1, wk.2))
    [("select", KSelect); ("from", KFrom); ("where", KWhere); ("group", KGroup); ("by", KBy); ("order", KOrder);
     ("limit", KLimit); ("offset", KOffset); ("with", KWith); ("and", KAnd); ("or", KOr); ("not", KNot);
     ("in", KIn); ("like", KLike); ("ilike", KIlike); ("asc", KAsc); ("desc", KDesc); ("except", KExcept);
     ("sum", KSum); ("fuse", KFuse); ("prefix", KPrefix); ("true", KTrue); ("false", KFalse); ("null", KNull)]%string.

Fixpoint assoc_str {A} (key : rstring) (l : list (rstring * A)) : option A :=
  match l with
  | [] => None
  | (k, a) :: l' => if bool_decide (k = key) then Some a else assoc_str key l'
  end.
Definition keyword (word_lc : rstring) : option Kind := assoc_str word_lc KEYWORDS.

Definition is_byte (a : Ascii.ascii) (b : Z) : bool := b =? byte_of a.
(** [char::is_ascii_alphabetic] on a byte taken as a character. *)
Definition alpha_byte (b : Z) : bool := ((65 <=? b) && (b <=? 90)) || ((97 <=? b) && (b <=? 122)).
Definition is_ident_start (b : Z) : bool := alpha_byte b || is_byte "_" b.
Definition is_ident_body (b : Z) : bool :=
  alpha_byte b || digit_byte b || is_byte "_" b || is_byte "." b.

(** ** Scanning *)

Definition tok1 (kind : Kind) (at_ : nat) : Token := {| tk_kind := kind; tk_at := at_; tk_text := (at_, at_ + 1)%nat |}.

(** How many bytes from here on satisfy [p]. *)
Fixpoint run_length (p : Z -> bool) (bs : bytes) : nat :=
  match bs with
  | b :: bs' => if p b then S (run_length p bs') else 0%nat
  | [] => 0%nat
  end.

Definition next_is (p : Z -> bool) (bs : bytes) : bool := match bs with b :: _ => p b | [] => false end.

(** A number literal: the digits, then a fraction, then an exponent, each
    taken only when a digit follows; with whether it is a float and how many
    bytes it has. *)
Definition lex_fraction (bs : bytes) (i : nat) : bool * nat :=
  let rest := drop i bs in
  if next_is (is_byte ".") rest && next_is digit_byte (drop 1 rest)
  then (true, i + (1 + run_length digit_byte (drop 1 rest)))%nat else (false, i).
Definition lex_exponent (bs : bytes) (fi : bool * nat) : bool * nat :=
  let rest := drop fi.2 bs in
  if next_is (fun b => is_byte "e" b || is_byte "E" b) rest then
    let sign := if next_is (fun b => is_byte "+" b || is_byte "-" b) (drop 1 rest) then 1%nat else 0%nat in
    let digits := drop (1 + sign) rest in
    if next_is digit_byte digits then (true, fi.2 + (1 + sign + run_length digit_byte digits))%nat else fi
  else fi.
Definition lex_number (bs : bytes) : Kind * nat :=
  let fi := lex_exponent bs (lex_fraction bs (run_length digit_byte bs)) in
  (if fi.1 then KFloat else KInt, fi.2).

(** The index of the quote that ends a string body, [''] standing for a quote
    within it. *)
Fixpoint quoted_end (bs : bytes) (i : nat) : option nat :=
  match bs with
  | [] => None
  | b :: bs' =>
      if b =? 39 then
        match bs' with
        | b' :: bs'' => if b' =? 39 then quoted_end bs'' (i + 2) else Some i
        | [] => Some i
        end
      else quoted_end bs' (i + 1)
  end.

(** [str::find] of an ASCII character. *)
Fixpoint find_byte (q : Z) (bs : bytes) (i : nat) : option nat :=
  match bs with
  | [] => None
  | b :: bs' => if b =? q then Some i else find_byte q bs' (i + 1)
  end.

(** The bytes that are a token of their own. *)
Definition single (b : Z) : option Kind :=
  match list_find (fun ak => byte_of ak.1 = b)
          [("*"%char, KStar); ("("%char, KLParen); (")"%char, KRParen); ("["%char, KLBracket); ("]"%char, KRBracket);
           (","%char, KComma); (";"%char, KSemicolon); ("-"%char, KMinus); ("~"%char, KTilde); ("="%char, KEq)] with
  | Some (_, ak) => Some ak.2
  | None => None
  end.

Definition is_space (b : Z) : bool := (b =? 32) || (b =? 9) || (b =? 13) || (b =? 10).

(** What the first byte starts: how many bytes it takes, and its token. *)
Definition lex_one (b : Z) (rest : bytes) (i : nat) : result SqlError (nat * option Token) :=
  let span (kind : Kind) (n : nat) : nat * option Token :=
    (n, Some {| tk_kind := kind; tk_at := i; tk_text := (i, i + n)%nat |}) in
  let or_equals (with_eq alone : Kind) := if next_is (is_byte "=") rest then span with_eq 2%nat else span alone 1%nat in
  if is_space b then Ok (1%nat, None)
  else
    match single b with
    | Some kind => Ok (1%nat, Some (tok1 kind i))
    | None =>
        if is_byte "!" b then
          if next_is (is_byte "=") rest then Ok (span KNe 2%nat)
          else Err (SqlError_new i (lit "expected '=' after '!'") SEC_SYNTAX)
        else if is_byte "<" b then Ok (or_equals KLe KLt)
        else if is_byte ">" b then Ok (or_equals KGe KGt)
        else if b =? 39 then
          match quoted_end rest (i + 1) with
          | Some end_ => Ok ((end_ + 1 - i)%nat, Some {| tk_kind := KStr; tk_at := i; tk_text := (i + 1, end_)%nat |})
          | None => Err (SqlError_new i (lit "unterminated string literal") SEC_SYNTAX)
          end
        else if b =? 34 then
          match find_byte 34 rest (i + 1) with
          | Some end_ => Ok ((end_ + 1 - i)%nat, Some {| tk_kind := KQuotedIdent; tk_at := i; tk_text := (i + 1, end_)%nat |})
          | None => Err (SqlError_new i (lit "unterminated quoted identifier") SEC_SYNTAX)
          end
        else if digit_byte b then
          let '(kind, n) := lex_number (b :: rest) in
          if next_is is_ident_start (drop n (b :: rest)) then Err (SqlError_new i (lit "malformed number literal") SEC_SYNTAX)
          else Ok (span kind n)
        else if is_ident_start b then
          let n := S (run_length is_ident_body rest) in
          let word := map Z.to_N (take n (b :: rest)) in
          Ok (span (default KIdent (keyword (str_to_lower word))) n)
        else
          Err (SqlError_new i (lit "unexpected character '" ++ [Z.to_N b] ++ lit "'") SEC_SYNTAX)
    end.

(** [None] when the fuel, one more than the bytes left, runs out. *)
Fixpoint lex_loop (fuel : nat) (bs : bytes) (i : nat) : option (result SqlError (list Token)) :=
  match fuel with
  | O => None
  | S fuel =>
      match bs with
      | [] => Some (Ok [{| tk_kind := KEof; tk_at := i; tk_text := (i, i) |}])
      | b :: rest =>
          match lex_one b rest i with
          | Err e => Some (Err e)
          | Ok (n, tok) =>
              r ← lex_loop fuel (drop n bs) (i + n);
              Some (let? toks := r in Ok (match tok with Some t => t :: toks | None => toks end))%res
          end
      end
  end.

Definition lex (src : rstring) : option (result SqlError (list Token)) :=
  let bs := as_bytes src in lex_loop (S (length bs)) bs 0.

(** [str::replace("''", "'")]. *)
Fixpoint unescape_string (raw : rstring) : rstring :=
  match raw with
  | c :: ((c' :: raw'') as raw') =>
      if (c =? 39)%N && (c' =? 39)%N then 39%N :: unescape_string raw'' else c :: unescape_string raw'
  | _ => raw
  end.

(** The kinds of a text's tokens, for the examples. *)
Definition kinds (src : rstring) : option (result SqlError (list (Kind * nat))) :=
  r ← lex src; Some (let? toks := r in Ok (map (fun t => (tk_kind t, tk_at t)) toks))%res.

Example lex_ex :
  kinds (lit "SeLeCt a.b <= -1.5e+3, 'it''s' != x") =
  Some (Ok [(KSelect, 0); (KIdent, 7); (KLe, 11); (KMinus, 14); (KFloat, 15); (KComma, 21); (KStr, 23); (KNe, 31);
            (KIdent, 34); (KEof, 35)]%nat).
Proof. vm_compute. reflexivity. Qed.

(** ** Bytes and characters *)

Lemma length_utf8_char c : length (utf8_char c) = len_utf8 c.
Proof.
  unfold utf8_char, len_utf8. cbv zeta.
  destruct (N.ltb_spec c 0x80); [by rewrite (proj2 (Z.ltb_lt _ _)) by lia|]. rewrite (proj2 (Z.ltb_ge _ _)) by lia.
  destruct (N.ltb_spec c 0x800); [by rewrite (proj2 (Z.ltb_lt _ _)) by lia|]. rewrite (proj2 (Z.ltb_ge _ _)) by lia.
  destruct (N.ltb_spec c 0x10000); [by rewrite (proj2 (Z.ltb_lt _ _)) by lia|]. by rewrite (proj2 (Z.ltb_ge _ _)) by lia.
Qed.

Lemma as_bytes_cons c s : as_bytes (c :: s) = utf8_char c ++ as_bytes s.
Proof. done. Qed.

Lemma length_as_bytes s : length (as_bytes s) = str_len s.
Proof.
  induction s as [|c s IH]; [done|]. by rewrite as_bytes_cons, length_app, length_utf8_char, IH, str_len_cons.
Qed.

(** A character is one ASCII byte or bytes of 128 and above. *)
Lemma utf8_char_cases c :
  (utf8_char c = [Z.of_N c] /\ (c < 128)%N) \/ (Forall (fun b => 128 <= b) (utf8_char c) /\ (128 <= c)%N).
Proof.
  unfold utf8_char. cbv zeta. destruct (Z.ltb_spec (Z.of_N c) 128); [left; split; [done|lia]|right]. split; [|lia].
  repeat case_match; repeat constructor; bdestr; Z.to_euclidean_division_equations; lia.
Qed.

Definition ascii_byte (b : Z) : Prop := b < 128.

Lemma as_bytes_ascii_cons q b rest :
  as_bytes q = b :: rest -> ascii_byte b -> exists q', q = Z.to_N b :: q' /\ as_bytes q' = rest /\ 0 <= b.
Proof.
  destruct q as [|c q]; [done|]. rewrite as_bytes_cons. unfold ascii_byte. intros E Hb.
  destruct (utf8_char_cases c) as [[Ec Hc]|[Hc _]].
  - rewrite Ec in E. injection E as <- <-. exists q. rewrite N2Z.id. split_and!; [done|done|lia].
  - destruct (utf8_char c) as [|x l] eqn:Ec; [pose proof (length_utf8_char c); pose proof (len_utf8_pos c); rewrite Ec in *; cbn in *; lia|].
    injection E as <- _. apply Forall_cons in Hc as [? _]. lia.
Qed.

(** A prefix of ASCII bytes is a prefix of characters. *)
Lemma ascii_prefix n q :
  (n <= length (as_bytes q))%nat -> Forall ascii_byte (take n (as_bytes q)) ->
  exists v, q = map Z.to_N (take n (as_bytes q)) ++ v /\ as_bytes v = drop n (as_bytes q) /\
            str_len (map Z.to_N (take n (as_bytes q))) = n.
Proof.
  revert q. induction n as [|n IH]; intros q Hn Ha.
  { exists q. by rewrite drop_0. }
  destruct (as_bytes q) as [|b rest] eqn:E; [cbn in Hn; lia|]. cbn [take] in *. apply Forall_cons in Ha as [Hb Ha].
  destruct (as_bytes_ascii_cons q b rest E Hb) as (q' & -> & <- & Hpos). cbn in Hn.
  destruct (IH q' ltac:(lia) Ha) as (v & Eq & Ev & El). exists v. cbn [map app drop]. split_and!; [by rewrite <- Eq|done|].
  rewrite str_len_cons, El. unfold len_utf8. unfold ascii_byte in Hb. by rewrite (proj2 (N.ltb_lt _ _)) by lia.
Qed.

(** ** What the scanners take *)

Lemma run_length_spec p bs : (run_length p bs <= length bs)%nat /\ Forall (fun b => p b = true) (take (run_length p bs) bs).
Proof.
  induction bs as [|b bs [Hl Hf]]; [by split|]. cbn [run_length].
  destruct (p b) eqn:E; cbn [length take]; [split; [lia|by constructor]|split; [lia|constructor]].
Qed.

Lemma next_is_cons p bs : next_is p bs = true -> exists b rest, bs = b :: rest /\ p b = true.
Proof. destruct bs as [|b rest]; [done|]. by exists b, rest. Qed.

Lemma ascii_run p bs (Hp : forall b, p b = true -> ascii_byte b) : Forall ascii_byte (take (run_length p bs) bs).
Proof. eapply Forall_impl; [apply run_length_spec|]. intros b. apply Hp. Qed.

Lemma digit_ascii b : digit_byte b = true -> ascii_byte b.
Proof. unfold digit_byte, ascii_byte. intros H. bdestr. lia. Qed.
Lemma body_ascii b : is_ident_body b = true -> ascii_byte b.
Proof.
  unfold is_ident_body, alpha_byte, digit_byte, ascii_byte, is_byte. intros H.
  repeat match goal with H : _ || _ = true |- _ => apply orb_prop in H as [H|H] end; bdestr; subst;
    first [lia|reflexivity].
Qed.
Lemma start_ascii b : is_ident_start b = true -> ascii_byte b.
Proof.
  intros H. apply body_ascii. unfold is_ident_start, is_ident_body in *. apply orb_prop in H as [->| ->]; [done|]. by rewrite !orb_true_r.
Qed.

(** The first [n] bytes exist and are ASCII. *)
Definition ascii_upto (n : nat) (bs : bytes) : Prop := (n <= length bs)%nat /\ Forall ascii_byte (take n bs).

Lemma ascii_upto_app n m bs : ascii_upto n bs -> ascii_upto m (drop n bs) -> ascii_upto (n + m) bs.
Proof.
  intros [Hl Hn] [Hl' Hm]. rewrite length_drop in Hl'. split; [lia|]. rewrite <- (take_take_drop bs n m). by apply Forall_app.
Qed.

Lemma ascii_upto_run p bs : (forall b, p b = true -> ascii_byte b) -> ascii_upto (run_length p bs) bs.
Proof.
  intros Hp. split; [apply run_length_spec|]. eapply Forall_impl; [apply run_length_spec|]. intros b. apply Hp.
Qed.

Lemma ascii_upto_next p bs : (forall b, p b = true -> ascii_byte b) -> next_is p bs = true -> ascii_upto 1 bs.
Proof. intros Hp (b & rest & -> & Hb)%next_is_cons. split; [cbn; lia|]. repeat constructor. by apply Hp. Qed.

Lemma is_byte_ascii a : (byte_of a <? 128) = true -> forall b, is_byte a b = true -> ascii_byte b.
Proof. intros Ha%Z.ltb_lt b. unfold is_byte. by intros ->%Z.eqb_eq. Qed.

Lemma is_byte_ascii_or a a' :
  (byte_of a <? 128) = true -> (byte_of a' <? 128) = true -> forall b, is_byte a b || is_byte a' b = true -> ascii_byte b.
Proof. intros Ha Ha' b [H|H]%orb_prop; [by apply (is_byte_ascii a)|by apply (is_byte_ascii a')]. Qed.

Lemma lex_number_spec bs k n :
  lex_number bs = (k, n) ->
  ascii_upto n bs /\ (run_length digit_byte bs <= n)%nat /\ (k = KInt \/ k = KFloat).
Proof.
  unfold lex_number. set (i := run_length digit_byte bs).
  assert (ascii_upto i bs) as Hi by apply (ascii_upto_run _ _ digit_ascii).
  assert (ascii_upto (lex_fraction bs i).2 bs /\ (i <= (lex_fraction bs i).2)%nat) as [Hf Hle].
  { unfold lex_fraction. destruct (_ && _) eqn:E; cbn [snd]; [|done]. apply andb_prop in E as [Hdot _]. split; [|lia].
    apply ascii_upto_app; [done|]. apply ascii_upto_app; [|apply (ascii_upto_run _ _ digit_ascii)].
    exact (ascii_upto_next _ _ (is_byte_ascii "." eq_refl) Hdot). }
  revert Hf Hle. generalize (lex_fraction bs i). intros [f j] Hj Hle. cbn [snd] in *.
  assert (ascii_upto (lex_exponent bs (f, j)).2 bs /\ (i <= (lex_exponent bs (f, j)).2)%nat) as [He Hle'].
  { unfold lex_exponent. cbn [snd]. destruct (next_is _ (drop j bs)) eqn:E; cbn [snd]; [|done].
    destruct (next_is digit_byte _) eqn:Ed; cbn [snd]; [|done]. split; [|lia].
    apply ascii_upto_app; [done|]. apply ascii_upto_app; [|apply (ascii_upto_run _ _ digit_ascii)].
    apply ascii_upto_app; [exact (ascii_upto_next _ _ (is_byte_ascii_or "e" "E" eq_refl eq_refl) E)|].
    destruct (next_is _ (drop 1 (drop j bs))) eqn:Es; [exact (ascii_upto_next _ _ (is_byte_ascii_or "+" "-" eq_refl eq_refl) Es)|]. split; [lia|constructor]. }
  intros [= <- <-]. split_and!; [done|lia|]. destruct (lex_exponent bs (f, j)).1; auto.
Qed.

Lemma lex_number_pos b rest k n :
  digit_byte b = true -> lex_number (b :: rest) = (k, n) -> (0 < n)%nat.
Proof. intros Hb E. destruct (lex_number_spec _ _ _ E) as (_ & Hn & _). cbn [run_length] in Hn. rewrite Hb in Hn. lia. Qed.

Lemma str_len_byte b q : 0 <= b -> ascii_byte b -> str_len (Z.to_N b :: q) = S (str_len q).
Proof.
  intros Hp Hb. unfold ascii_byte in Hb. rewrite str_len_cons. unfold len_utf8. by rewrite (proj2 (N.ltb_lt _ _)) by lia.
Qed.

(** The bytes of a character are skipped together. *)
Lemma quoted_end_spec q i e :
  quoted_end (as_bytes q) i = Some e -> exists u v, q = u ++ 39%N :: v /\ e = (i + str_len u)%nat.
Proof.
  assert (forall n q i, (length (as_bytes q) <= n)%nat -> quoted_end (as_bytes q) i = Some e ->
    exists u v, q = u ++ 39%N :: v /\ e = (i + str_len u)%nat) as Hind; [|by apply (Hind (length (as_bytes q)))].
  clear. intros n. induction n as [|n IH]; intros q i Hn.
  { destruct (as_bytes q) eqn:E; [done|cbn in Hn; lia]. }
  assert (forall c q' k, q = c :: q' -> (k = length (utf8_char c)) -> quoted_end (as_bytes q') (i + k) = Some e ->
    exists u v, q = u ++ 39%N :: v /\ e = (i + str_len u)%nat) as Hskip.
  { intros c q' k -> -> He. rewrite as_bytes_cons, length_app in Hn. pose proof (length_utf8_char c). pose proof (len_utf8_pos c).
    destruct (IH q' _ ltac:(lia) He) as (u & v & -> & ->). exists (c :: u), v. split; [done|]. rewrite str_len_cons. lia. }
  destruct q as [|c q]; [done|]. rewrite as_bytes_cons. destruct (utf8_char_cases c) as [[Ec Hc]|[Hc _]].
  - rewrite Ec. cbn [app quoted_end]. destruct (Z.eqb_spec (Z.of_N c) 39) as [E39|E39].
    + assert (c = 39%N) as -> by lia. destruct (as_bytes q) as [|b' rest] eqn:Eq.
      { intros [= <-]. exists [], q. split; [done|]. cbn. lia. }
      destruct (Z.eqb_spec b' 39) as [->|Hb'].
      * destruct (as_bytes_ascii_cons q 39 rest Eq ltac:(done)) as (q' & -> & <- & _). intros He.
        rewrite as_bytes_cons, length_app in Hn. rewrite Ec, Eq in Hn. cbn in Hn.
        destruct (IH q' _ ltac:(lia) He) as (u & v & -> & ->). exists (39%N :: 39%N :: u), v. split; [done|].
        rewrite !str_len_cons. cbn. lia.
      * intros [= <-]. exists [], q. split; [done|]. cbn. lia.
    + apply (Hskip c q 1%nat); [done|by rewrite Ec].
  - assert (forall l i, Forall (fun b => 128 <= b) l -> quoted_end (l ++ as_bytes q) i = quoted_end (as_bytes q) (i + length l)) as Hl.
    { clear. intros l. induction l as [|b l IHl]; intros i; [by rewrite Nat.add_0_r|]. intros [Hb Hl]%Forall_cons. cbn [app quoted_end].
      destruct (Z.eqb_spec b 39); [lia|]. rewrite IHl by done. cbn [length]. f_equal. lia. }
    rewrite Hl by done. by apply (Hskip c q).
Qed.

Lemma find_byte_spec a q i e :
  0 <= a < 128 -> find_byte a (as_bytes q) i = Some e -> exists u v, q = u ++ Z.to_N a :: v /\ e = (i + str_len u)%nat.
Proof.
  intros Ha. revert i. induction q as [|c q IH]; intros i; [done|]. rewrite as_bytes_cons.
  assert (find_byte a (as_bytes q) (i + length (utf8_char c)) = Some e ->
    exists u v, c :: q = u ++ Z.to_N a :: v /\ e = (i + str_len u)%nat) as Hskip.
  { intros (u & v & -> & ->)%IH. exists (c :: u), v. split; [done|]. rewrite str_len_cons, length_utf8_char. lia. }
  destruct (utf8_char_cases c) as [[Ec Hc]|[Hc _]].
  - rewrite Ec in *. cbn [app find_byte]. destruct (Z.eqb_spec (Z.of_N c) a) as [<-|]; [|done].
    intros [= <-]. exists [], q. rewrite N2Z.id. split; [done|]. cbn. lia.
  - assert (forall l i, Forall (fun b => 128 <= b) l -> find_byte a (l ++ as_bytes q) i = find_byte a (as_bytes q) (i + length l)) as Hl.
    { clear IH Hskip. intros l. induction l as [|b l IHl]; intros i'; [by rewrite Nat.add_0_r|]. intros [Hb Hl]%Forall_cons. cbn [app find_byte].
      destruct (Z.eqb_spec b a); [lia|]. rewrite IHl by done. cbn [length]. f_equal. lia. }
    by rewrite Hl.
Qed.

(** ** The lexer *)

(** What one step takes off the text [q] at offset [i]. *)
Definition takes (q : rstring) (i n : nat) (tok : option Token) : Prop :=
  exists u v, q = u ++ v /\ n = str_len u /\ (0 < n)%nat /\
    match tok with
    | Some t => tk_at t = i /\ tk_kind t <> KEof /\
        exists a w z, u = a ++ w ++ z /\ tk_text t = (i + str_len a, i + str_len (a ++ w))%nat
    | None => True
    end.

Lemma takes_span q b rest i n kind :
  as_bytes q = b :: rest -> ascii_upto n (b :: rest) -> (0 < n)%nat -> kind <> KEof ->
  takes q i n (Some {| tk_kind := kind; tk_at := i; tk_text := (i, i + n)%nat |}).
Proof.
  intros Eq [Hl Ha] Hn Hk. destruct (ascii_prefix n q) as (v & Ev & _ & El); [by rewrite Eq..|].
  revert Ev El. generalize (map Z.to_N (take n (as_bytes q))). intros u -> El.
  exists u, v. split_and!; [done..|]. exists [], u, []. rewrite app_nil_r. split; [done|]. cbn [app tk_text].
  rewrite El. f_equal. cbn. lia.
Qed.

Lemma takes_space q b rest i : as_bytes q = b :: rest -> ascii_byte b -> takes q i 1 None.
Proof.
  intros Eq Hb. destruct (as_bytes_ascii_cons q b rest Eq Hb) as (q' & -> & _ & Hp).
  exists [Z.to_N b], q'. rewrite str_len_byte by done. split_and!; (done || cbn; lia).
Qed.

(** A token within two delimiters. *)
Lemma takes_delimited q d rest i end_ kind u v :
  as_bytes q = d :: rest -> ascii_byte d -> 0 <= d -> kind <> KEof ->
  q = Z.to_N d :: u ++ Z.to_N d :: v -> end_ = (i + 1 + str_len u)%nat ->
  takes q i (end_ + 1 - i) (Some {| tk_kind := kind; tk_at := i; tk_text := (i + 1, end_)%nat |}).
Proof.
  intros _ Hd Hp Hk -> ->. exists (Z.to_N d :: u ++ [Z.to_N d]), v.
  assert (forall q, str_len (Z.to_N d :: q) = S (str_len q)) as E by (intros; by apply str_len_byte).
  split_and!.
  - cbn [app]. by rewrite <- app_assoc.
  - rewrite E, str_len_app, E. cbn. lia.
  - lia.
  - done.
  - done.
  - exists [Z.to_N d], u, [Z.to_N d]. split; [done|]. cbn [app tk_text].
    rewrite !E. cbn [str_len map list_sum]. f_equal; cbn; lia.
Qed.

Lemma single_spec b k : single b = Some k -> ascii_byte b /\ k <> KEof.
Proof.
  unfold single. destruct (list_find _ _) as [[j [a k']]|] eqn:E; [|done]. intros [= <-].
  apply list_find_Some in E as (Hj & Hb & _). cbn in Hb. unfold ascii_byte. subst b.
  do 10 (destruct j as [|j]; [injection Hj as <- <-; split; [reflexivity|done]|]). done.
Qed.

Lemma space_ascii b : is_space b = true -> ascii_byte b.
Proof.
  unfold is_space, ascii_byte. intros H. repeat match goal with H : _ || _ = true |- _ => apply orb_prop in H as [H|H] end; bdestr; lia.
Qed.

Lemma keyword_not_eof w : default KIdent (keyword w) <> KEof.
Proof.
  unfold keyword. assert (forall l, Forall (fun wk : rstring * Kind => wk.2 <> KEof) l -> default KIdent (assoc_str w l) <> KEof) as H.
  { intros l. induction 1 as [|[k a] l Ha _ IH]; [done|]. cbn. by case_bool_decide. }
  apply H. unfold KEYWORDS. repeat constructor; done.
Qed.

Lemma lex_one_ok q b rest i :
  as_bytes q = b :: rest ->
  match lex_one b rest i with Err e => se_at e = i | Ok (n, tok) => takes q i n tok end.
Proof.
  intros Eq. unfold lex_one.
  assert (forall k, ascii_byte b -> k <> KEof -> takes q i 1 (Some (tok1 k i))) as H1.
  { intros k Hb Hk. apply (takes_span q b rest); [done| |lia|done]. split; [cbn; lia|by repeat constructor]. }
  assert (forall k, ascii_byte b -> next_is (is_byte "=") rest = true -> k <> KEof ->
    takes q i 2 (Some {| tk_kind := k; tk_at := i; tk_text := (i, i + 2)%nat |})) as H2.
  { intros k Hb Hn Hk. apply (takes_span q b rest); [done| |lia|done].
    apply (ascii_upto_app 1 1); [split; [cbn; lia|by repeat constructor]|].
    exact (ascii_upto_next _ _ (is_byte_ascii "=" eq_refl) Hn). }
  destruct (is_space b) eqn:Esp; [by eapply takes_space; [|apply space_ascii]|].
  destruct (single b) as [k|] eqn:Es; [apply single_spec in Es as [Hb Hk]; by apply H1|].
  destruct (is_byte "!" b) eqn:Eb.
  { apply (is_byte_ascii "!" eq_refl) in Eb. destruct (next_is _ rest) eqn:En; [by apply H2|done]. }
  destruct (is_byte "<" b) eqn:El.
  { apply (is_byte_ascii "<" eq_refl) in El. destruct (next_is _ rest) eqn:En; [by apply H2|by apply H1]. }
  destruct (is_byte ">" b) eqn:Eg.
  { apply (is_byte_ascii ">" eq_refl) in Eg. destruct (next_is _ rest) eqn:En; [by apply H2|by apply H1]. }
  destruct (Z.eqb_spec b 39) as [->|N39].
  { destruct (as_bytes_ascii_cons q 39 rest Eq ltac:(done)) as (q' & Eq' & <- & _).
    destruct (quoted_end _ _) as [e|] eqn:Ee; [|done]. apply quoted_end_spec in Ee as (u & v & -> & ->).
    by eapply (takes_delimited q 39 _ i _ _ u v). }
  destruct (Z.eqb_spec b 34) as [->|N34].
  { destruct (as_bytes_ascii_cons q 34 rest Eq ltac:(done)) as (q' & Eq' & <- & _).
    destruct (find_byte _ _ _) as [e|] eqn:Ee; [|done]. apply find_byte_spec in Ee as (u & v & -> & ->); [|lia].
    by eapply (takes_delimited q 34 _ i _ _ u v). }
  destruct (digit_byte b) eqn:Ed.
  { destruct (lex_number (b :: rest)) as [k n] eqn:En. destruct (next_is is_ident_start _); [done|].
    pose proof (lex_number_pos _ _ _ _ Ed En). destruct (lex_number_spec _ _ _ En) as (Ha & _ & Hk).
    apply (takes_span q b rest); [done|done|done|]. by destruct Hk as [->| ->]. }
  destruct (is_ident_start b) eqn:Ei; [|done]. apply (takes_span q b rest); [done| |lia|apply keyword_not_eof].
  apply (ascii_upto_app 1); [split; [cbn; lia|repeat constructor; by apply start_ascii]|].
  apply (ascii_upto_run _ rest body_ascii).
Qed.

Definition token_text (src : rstring) (t : Token) : option rstring := str_slice src (tk_text t).1 (tk_text t).2.
Definition eof_token (src : rstring) : Token :=
  {| tk_kind := KEof; tk_at := str_len src; tk_text := (str_len src, str_len src) |}.

(** A byte offset between two characters. *)
Definition at_char (src : rstring) (n : nat) : Prop := exists p q, src = p ++ q /\ n = str_len p.

(** Tokens in the order of the text, each a slice of it, the last one [Eof]. *)
Record lexed (src : rstring) (toks : list Token) : Prop := {
  lx_eof : exists body, toks = body ++ [eof_token src] /\ Forall (fun t => tk_kind t <> KEof) body;
  lx_sorted : StronglySorted (fun a b => (tk_text a).2 <= tk_at b)%nat toks;
  lx_slices : Forall (fun t => (tk_at t <= (tk_text t).1)%nat /\ is_Some (token_text src t) /\ at_char src (tk_at t)) toks
}.

Lemma lex_loop_ok src fuel p q i :
  src = p ++ q -> i = str_len p -> (length (as_bytes q) < fuel)%nat ->
  exists r, lex_loop fuel (as_bytes q) i = Some r /\
    match r with
    | Ok toks => lexed src toks /\ Forall (fun t => (i <= tk_at t)%nat) toks
    | Err e => at_char src (se_at e) /\ (se_at e < str_len src)%nat
    end.
Proof.
  intros -> ->. revert p q. induction fuel as [|fuel IH]; intros p q Hf; [lia|]. cbn [lex_loop].
  destruct (as_bytes q) as [|b rest] eqn:Eq.
  { assert (q = []) as ->. { apply str_len_nil. by rewrite <- length_as_bytes, Eq. }
    eexists. split; [done|]. split; [|by repeat constructor]. rewrite app_nil_r. split.
    - by exists [].
    - repeat constructor.
    - constructor; [|constructor]. split_and!; [done| |exists p, []; by rewrite app_nil_r].
      exists []. apply str_slice_Some. exists p, []. by rewrite !app_nil_r. }
  pose proof (lex_one_ok q b rest (str_len p) Eq) as H1. destruct (lex_one b rest (str_len p)) as [[n tok]|e].
  2:{ eexists. split; [done|]. destruct q as [|c q]; [done|]. split; [by exists p, (c :: q)|].
    rewrite H1, str_len_app, str_len_cons. pose proof (len_utf8_pos c). lia. }
  destruct H1 as (u & v & -> & -> & Hpos & Htok). rewrite <- Eq, as_bytes_app in *.
  rewrite (drop_app_length' _ _ (str_len u)) by (by rewrite length_as_bytes). rewrite <- str_len_app.
  destruct (IH (p ++ u) v) as (r & -> & Hr). { rewrite length_app, length_as_bytes in Hf. lia. }
  cbn [mbind option_bind]. eexists. split; [done|]. rewrite <- app_assoc in Hr. destruct r as [toks|e]; [|exact Hr].
  cbn [res_bind]. destruct Hr as [[(body & Ebody & Hb) Hs Hsl] Hat]. rewrite str_len_app in Hat.
  destruct tok as [t|]; cycle 1.
  { split; [split; [by exists body|done|done]|]. eapply Forall_impl; [exact Hat|]. cbn. lia. }
  destruct Htok as (Ht & Hk & a & w & z & -> & Htext). rewrite !str_len_app in Hat. split; [split|].
  - exists (t :: body). rewrite Ebody. split; [done|by constructor].
  - constructor; [done|]. eapply Forall_impl; [exact Hat|]. cbn. rewrite Htext, str_len_app. cbn. lia.
  - constructor; [|done]. unfold token_text. rewrite Htext, Ht. cbn [fst snd]. split_and!; [lia| |by eexists p, _].
    exists w. apply str_slice_Some. exists (p ++ a), (z ++ v). rewrite !str_len_app, <- !app_assoc. split_and!; [done|done|lia].
  - constructor; [lia|]. eapply Forall_impl; [exact Hat|]. cbn. lia.
Qed.

(** Lexing ends on every text.  It yields tokens in the order of the text,
    each with a range that is a slice of it (so reading a token's text never
    panics), and [Eof] last and only there; or an error at a character of the
    text. *)
Theorem lex_ok src :
  exists r, lex src = Some r /\
    match r with
    | Ok toks => lexed src toks
    | Err e => at_char src (se_at e) /\ (se_at e < str_len src)%nat
    end.
Proof.
  destruct (lex_loop_ok src (S (length (as_bytes src))) [] src 0) as (r & Er & Hr); [done|done|lia|].
  exists r. split; [exact Er|]. by destruct r; [destruct Hr|].
Qed.
