(* ===== verification/SqlParse.v ===== *)
(** * SqlParse: from tokens to statements ([src/src/sql/parse.rs])

    A recursive-descent parser over the tokens of [SqlLex], one definition per
    production.  The parser's state is its position and the nesting depth; a
    production fails with a [SqlError], or is stuck ([None]) where the code
    would panic or a loop would run out of fuel: [parse_total] (in
    [SqlParseOk]) shows it never is.  Recursion through parentheses is bounded
    by [MAX_NEST_DEPTH], as in the code. *)
From S2P Require Import Prelude Floats TextPred Std Backend IndexCache Manifest Rank SqlDate SqlLex.
From Stdlib Require Import SpecFloat.

(** ** Numbers

    [str::parse::<i64>] of digits, and [str::parse::<f64>] of a number literal:
    the float nearest to the decimal. *)
Definition parse_i64 (text : rstring) : option Z :=
  let n := Z.of_N (parse_digits text) in
  if bool_decide (text = []) || negb (forallb is_ascii_digit text) then None else checked_i64 n.

Fixpoint split_digits (s : rstring) : rstring * rstring :=
  match s with
  | c :: s' => if is_ascii_digit c then let '(d, r) := split_digits s' in (c :: d, r) else ([], s)
  | [] => ([], [])
  end.

(** [m * 10^e], rounded once. *)
Definition f64_of_decimal (m : N) (e : Z) : f64 :=
  match m with
  | N0 => 0
  | Npos p =>
      if (0 <=? e)%Z then bits_of_sf 52 11 (binary_normalize 53 1024 (Zpos p * 10 ^ e) 0 false)
      else
        match (10 ^ (- e))%Z with
        | Zpos q => bits_of_sf 52 11 (SFdiv 53 1024 (S754_finite false p 0) (S754_finite false q 0))
        | _ => 0
        end
  end%Z.

Definition parse_f64 (text : rstring) : option f64 :=
  let '(int, rest) := split_digits text in
  let '(frac, rest) := match rest with c :: r => if (c =? chr ".")%N then split_digits r else ([], rest) | [] => ([], []) end in
  if bool_decide (int ++ frac = []) then None
  else
    e ← match rest with
        | [] => Some 0%Z
        | c :: r =>
            if (c =? chr "e")%N || (c =? chr "E")%N then
              let '(sign, r) := match r with
                | s :: r' => if (s =? chr "-")%N then ((-1)%Z, r') else if (s =? chr "+")%N then (1%Z, r') else (1%Z, r)
                | [] => (1%Z, [])
                end in
              let '(digits, rest) := split_digits r in
              if bool_decide (digits = []) || negb (bool_decide (rest = [])) then None
              else Some (sign * Z.of_N (parse_digits digits))%Z
            else None
        end;
    Some (f64_of_decimal (parse_digits (int ++ frac)) (e - Z.of_nat (length frac))).

Definition f64_opp : f64 -> f64 := f_opp 52 11.

Example parse_f64_ex :
  map (fun t => parse_f64 (lit t)) ["0.1"; "1e10"; "2.5e-3"; "9007199254740993"; "1e400"; "4.9e-324"; "1e"]%string =
  [Some 0x3FB999999999999A; Some 0x4202A05F20000000; Some 0x3F647AE147AE147B; Some 0x4340000000000000;
   Some 0x7FF0000000000000; Some 1; None]%Z.
Proof. vm_compute. reflexivity. Qed.

(** ** Syntax trees *)

Inductive Selection :=
| SelAll
| SelAllExcept (fields : list rstring)
| SelFields (fields : list rstring)
| SelAggregates (sums : list rstring) (count : bool).

Inductive Lit :=
| LInt (n : Z)
| LDateTime (ms : Z)
| LFloat (x : f64)
| LStr (s : rstring)
| LBool (b : bool)
| LNull.

Inductive CmpOp := CEq | CNe | CLt | CLe | CGt | CGe.

Inductive PredNode :=
| NAny (items : list PredNode)
| NAll (items : list PredNode)
| NNot (inner : PredNode)
| NCmp (field : rstring) (op : CmpOp) (value : Lit)
| NIn (field : rstring) (negate : bool) (values : list Lit)
| NLike (field : rstring) (negate : bool) (pattern : rstring)
| NILike (field pattern : rstring)
| NRegex (field pattern : rstring)
| NContains (field : rstring) (value : Lit)
| NNotContains (field : rstring) (value : Lit)
| NContainsAny (field : rstring) (values : list Lit)
| NFuzzy (field needle : rstring) (edits : Z) (at_ : nat)
| NMatchAll (field query : rstring)
| NMatchAny (field query : rstring)
| NPhrase (field query : rstring).

Record ClauseLit := { cl_field : rstring; cl_text : rstring; cl_prefix : bool }.
Record DecayLit := {
  dl_field : rstring; dl_origin : Z; dl_scale : Z; dl_decay : option f32; dl_lambda : option f32
}.

Inductive Ranking :=
| RKnn (vector : list f32) (decay : option DecayLit) (at_ : nat)
| RMatch (clauses : list ClauseLit) (at_ : nat)
| RHybrid (vector : list f32) (clauses : list ClauseLit) (at_ : nat)
| RField (field : rstring) (desc : bool).

Inductive AnyLit := AVal (l : Lit) | AIdent (s : rstring).
Inductive OptArg := OBare (a : AnyLit) | OKeyed (name : rstring) (a : AnyLit).
Inductive OptValue := VFlag | VScalar (a : AnyLit) | VArgs (args : list OptArg).
Record WithOption := { wo_name : rstring; wo_name_at : nat; wo_value : OptValue }.

Record Statement := {
  sm_at : nat;
  sm_select : Selection;
  sm_from : list rstring;
  sm_filter : option PredNode;
  sm_group_by : option rstring;
  sm_sums : list rstring;
  sm_order : option Ranking;
  sm_limit : option Z;
  sm_offset : option Z;
  sm_with : list WithOption
}.

(** Nested parentheses allowed in [WHERE] ([src/src/sql/mod.rs]). *)
Definition MAX_NEST_DEPTH : nat := 128.

(** ** The parser's monad *)

Record pstate := { ps_pos : nat; ps_depth : nat }.
Definition PM (A : Type) : Type := pstate -> option (result SqlError (A * pstate)).

#[export] Instance PM_ret : MRet PM := fun A a st => Some (Ok (a, st)).
#[export] Instance PM_bind : MBind PM := fun A B f p st =>
  match p st with
  | Some (Ok (a, st')) => f a st'
  | Some (Err e) => Some (Err e)
  | None => None
  end.
Definition stuck {A} : PM A := fun _ => None.
Definition throw {A} (e : SqlError) : PM A := fun _ => Some (Err e).

Section parser.
Context (src : rstring) (toks : list Token).

Definition set_pos (n : nat) (st : pstate) : pstate := {| ps_pos := n; ps_depth := ps_depth st |}.

Definition cur : PM Token := fun st =>
  match toks !! ps_pos st with Some t => Some (Ok (t, st)) | None => None end.
Definition kind : PM Kind := t ← cur; mret (tk_kind t).
Definition here : PM nat := t ← cur; mret (tk_at t).
Definition text (tok : Token) : PM rstring := fun st =>
  match token_text src tok with Some w => Some (Ok (w, st)) | None => None end.
Definition advance : PM unit := fun st =>
  Some (Ok (tt, if (ps_pos st + 1 <? length toks)%nat then set_pos (ps_pos st + 1) st else st)).
Definition bump : PM Token := t ← cur; _ ← advance; mret t.
Definition err {A} (message : String.string) (section : rstring) : PM A :=
  at_ ← here; throw (SqlError_new at_ (lit message) section).
Definition err_at {A} (at_ : nat) (message : String.string) (section : rstring) : PM A :=
  throw (SqlError_new at_ (lit message) section).

Definition eat (k : Kind) : PM bool :=
  k' ← kind; if decide (k' = k) then _ ← bump; mret true else mret false.
(** [expect] words its message from what was expected. *)
Definition expect (k : Kind) (what : String.string) (section : rstring) : PM Token :=
  k' ← kind; if decide (k' = k) then bump else err ("expected " ++ what)%string section.
Definition ident_lc : PM (option rstring) :=
  t ← cur; if decide (tk_kind t = KIdent) then w ← text t; mret (Some (str_to_lower w)) else mret None.
Definition peek2_kind : PM Kind := fun st =>
  Some (Ok (match toks !! (ps_pos st + 1)%nat with Some t => tk_kind t | None => KEof end, st)).
Definition is_word (word : String.string) (w : option rstring) : bool := bool_decide (w = Some (lit word)).
Definition expect_ident_lc (word : String.string) (section : rstring) : PM unit :=
  w ← ident_lc; if is_word word w then _ ← bump; mret tt else err ("expected '" ++ word ++ "'")%string section.
Definition at_call (word : String.string) : PM bool :=
  w ← ident_lc; if is_word word w then k ← peek2_kind; mret (bool_decide (k = KLParen)) else mret false.

(** [while self.eat(sep) { item }]: the fuel is one more than the tokens. *)
Fixpoint many {A} (fuel : nat) (sep : Kind) (item : PM A) : PM (list A) :=
  match fuel with
  | O => stuck
  | S fuel => b ← eat sep; if b : bool then a ← item; l ← many fuel sep item; mret (a :: l) else mret []
  end.
Definition fuel : nat := S (length toks).
Definition sep_by {A} (sep : Kind) (item : PM A) : PM (list A) := a ← item; l ← many fuel sep item; mret (a :: l).
Definition optional {A} (k : Kind) (p : PM A) : PM (option A) :=
  b ← eat k; if b : bool then a ← p; mret (Some a) else mret None.

(** ** Literals *)

Definition parse_field_sec (section : rstring) : PM rstring :=
  k ← kind;
  if decide (k = KIdent \/ k = KQuotedIdent) then tok ← bump; text tok else err "expected a field name" section.
Definition parse_field : PM rstring := parse_field_sec SEC_SYNTAX.
Definition parse_field_list : PM (list rstring) := sep_by KComma parse_field.

(** A failed conversion is reported at the token after the number. *)
Definition parse_signed_number : PM Lit :=
  negative ← eat KMinus;
  k ← kind;
  match k with
  | KInt =>
      tok ← bump; w ← text tok;
      match parse_i64 w with
      | Some n => mret (LInt (if negative : bool then - n else n)%Z)
      | None => err "invalid integer literal" SEC_SYNTAX
      end
  | KFloat =>
      tok ← bump; w ← text tok;
      match parse_f64 w with
      | Some f => mret (LFloat (if negative : bool then f64_opp f else f))
      | None => err "invalid float literal" SEC_SYNTAX
      end
  | _ => err "expected a number" SEC_SYNTAX
  end.

Definition parse_int_lit : PM Z :=
  l ← parse_signed_number;
  match l with LInt n => mret n | LFloat _ => err "expected an integer, found a float" SEC_SYNTAX | _ => stuck end.
Definition parse_float_lit : PM f64 :=
  l ← parse_signed_number;
  match l with LInt n => mret (f64_of_Z n) | LFloat f => mret f | _ => stuck end.
Definition parse_number_f32 : PM f32 := f ← parse_float_lit; mret (f32_of_f64 f).

Definition at_timestamp_lit : PM bool :=
  w ← ident_lc;
  if is_word "timestamp" w
  then k ← peek2_kind; mret (bool_decide (k ∈ [KStr; KInt; KFloat; KMinus]))
  else mret false.

Definition parse_timestamp_lit : PM Lit :=
  at_ ← here;
  _ ← bump;
  k ← kind;
  if decide (k = KStr) then
    tok ← cur; raw ← text tok; _ ← bump;
    match iso8601_to_millis (unescape_string raw) with
    | Some ms => mret (LDateTime ms)
    | None => err_at at_ "timestamp wants an ISO-8601 UTC instant, e.g. '2026-09-13T00:00:00Z'" SEC_SYNTAX
    end
  else if decide (k ∈ [KMinus; KInt; KFloat]) then
    l ← parse_signed_number;
    match l with
    | LInt n => mret (LDateTime n)
    | _ => err_at at_ "timestamp wants whole milliseconds" SEC_SYNTAX
    end
  else err_at at_ "timestamp wants a quoted instant or epoch milliseconds" SEC_SYNTAX.

Definition parse_literal : PM Lit :=
  k ← kind;
  match k with
  | KStr => tok ← cur; raw ← text tok; _ ← bump; mret (LStr (unescape_string raw))
  | KTrue => _ ← bump; mret (LBool true)
  | KFalse => _ ← bump; mret (LBool false)
  | KNull => _ ← bump; mret LNull
  | _ =>
      ts ← at_timestamp_lit;
      if ts : bool then parse_timestamp_lit
      else if decide (k ∈ [KMinus; KInt; KFloat]) then parse_signed_number
      else err "expected a value" SEC_SYNTAX
  end.

Definition parse_string_lit_sec (section : rstring) : PM rstring :=
  k ← kind;
  if decide (k = KStr) then l ← parse_literal; match l with LStr s => mret s | _ => stuck end
  else err "expected a string literal" section.

Definition parse_paren_lit_list (section : rstring) : PM (list Lit) :=
  _ ← expect KLParen "'('" section;
  out ← sep_by KComma parse_literal;
  _ ← expect KRParen "')'" section;
  mret out.

(** ** Predicates *)

Definition FN_NAMES : list String.string :=
  ["contains"; "not_contains"; "contains_any"; "fuzzy"; "match_all"; "match_any"; "phrase"]%string.

Definition parse_fn_predicate (name : rstring) : PM PredNode :=
  let named s := bool_decide (name = lit s) in
  let section := if named "contains" || named "not_contains" || named "contains_any" then SEC_ARRAY else SEC_TEXT in
  _ ← bump;
  _ ← bump;
  field ← parse_field_sec section;
  _ ← expect KComma "','" section;
  node ←
    (if named "contains" then v ← parse_literal; mret (NContains field v)
     else if named "not_contains" then v ← parse_literal; mret (NNotContains field v)
     else if named "contains_any" then vs ← sep_by KComma parse_literal; mret (NContainsAny field vs)
     else if named "fuzzy" then
       needle ← parse_string_lit_sec section;
       _ ← expect KComma "','" section;
       at_ ← here;
       edits ← parse_int_lit;
       mret (NFuzzy field needle edits at_)
     else if named "match_all" then q ← parse_string_lit_sec section; mret (NMatchAll field q)
     else if named "match_any" then q ← parse_string_lit_sec section; mret (NMatchAny field q)
     else if named "phrase" then q ← parse_string_lit_sec section; mret (NPhrase field q)
     else stuck);
  _ ← expect KRParen "')'" section;
  mret node.

Definition cmp_op (k : Kind) : option CmpOp :=
  match k with
  | KEq => Some CEq | KNe => Some CNe | KLt => Some CLt | KLe => Some CLe | KGt => Some CGt | KGe => Some CGe
  | _ => None
  end.

Definition parse_comparison : PM PredNode :=
  field ← parse_field;
  k ← kind;
  match cmp_op k with
  | Some op => _ ← bump; value ← parse_literal; mret (NCmp field op value)
  | None =>
      b ← eat KIn;
      if b : bool then values ← parse_paren_lit_list SEC_SYNTAX; mret (NIn field false values)
      else b ← eat KLike;
      if b : bool then pattern ← parse_string_lit_sec SEC_GLOB; mret (NLike field false pattern)
      else b ← eat KIlike;
      if b : bool then pattern ← parse_string_lit_sec SEC_GLOB; mret (NILike field pattern)
      else b ← eat KTilde;
      if b : bool then pattern ← parse_string_lit_sec SEC_REGEX; mret (NRegex field pattern)
      else b ← eat KNot;
      if b : bool then
        b ← eat KIn;
        if b : bool then values ← parse_paren_lit_list SEC_SYNTAX; mret (NIn field true values)
        else b ← eat KLike;
        if b : bool then pattern ← parse_string_lit_sec SEC_GLOB; mret (NLike field true pattern)
        else err "expected 'IN' or 'LIKE' after 'NOT'" SEC_SYNTAX
      else err "expected a comparison operator, 'IN', 'LIKE', 'ILIKE', or '~'" SEC_SYNTAX
  end.

Definition set_depth (f : nat -> nat) : PM nat := fun st =>
  Some (Ok (f (ps_depth st), {| ps_pos := ps_pos st; ps_depth := f (ps_depth st) |})).

(** The name of a function predicate, when one starts here. *)
Definition fn_name : PM (option rstring) :=
  w ← ident_lc;
  match w with
  | Some name =>
      k ← peek2_kind;
      mret (if decide (k = KLParen /\ name ∈ map lit FN_NAMES) then Some name else None)
  | None => mret None
  end.

(** [inner] is [parse_or] within the parentheses. *)
Definition parse_primary (inner : PM PredNode) : PM PredNode :=
  k ← kind;
  if decide (k = KLParen) then
    depth ← set_depth S;
    if (MAX_NEST_DEPTH <? depth)%nat then err "predicate nesting exceeds 128 levels" SEC_BOOL
    else
      _ ← bump;
      node ← inner;
      _ ← expect KRParen "')'" SEC_BOOL;
      _ ← set_depth Nat.pred;
      mret node
  else
    name ← fn_name;
    match name with
    | Some name => parse_fn_predicate name
    | None => parse_comparison
    end.

Definition parse_not (inner : PM PredNode) : PM PredNode :=
  b ← eat KNot; if b : bool then p ← parse_primary inner; mret (NNot p) else parse_primary inner.

(** One item is itself. *)
Definition group_items (node : list PredNode -> PredNode) (items : list PredNode) : PredNode :=
  match items with [p] => p | _ => node items end.

Definition parse_and (inner : PM PredNode) : PM PredNode :=
  items ← sep_by KAnd (parse_not inner); mret (group_items NAll items).
Definition parse_or_in (inner : PM PredNode) : PM PredNode :=
  items ← sep_by KOr (parse_and inner); mret (group_items NAny items).

(** The recursion, cut at one level more than the depth check lets through. *)
Fixpoint parse_or (levels : nat) : PM PredNode :=
  parse_or_in (match levels with O => stuck | S levels => parse_or levels end).
Definition parse_predicate : PM PredNode := parse_or MAX_NEST_DEPTH.

(** ** Rankings *)

Definition parse_vector : PM (list f32) :=
  _ ← expect KLBracket "'['" SEC_RANK;
  k ← kind;
  out ← (if decide (k = KRBracket) then mret [] else sep_by KComma parse_number_f32);
  _ ← expect KRBracket "']'" SEC_RANK;
  mret out.

Definition parse_decay_tail : PM DecayLit :=
  _ ← expect_ident_lc "decay" SEC_RANK;
  _ ← expect KLParen "'('" SEC_RANK;
  field ← parse_field_sec SEC_RANK;
  _ ← expect KComma "','" SEC_RANK;
  origin ← parse_int_lit;
  _ ← expect KComma "','" SEC_RANK;
  scale ← parse_int_lit;
  tail ← optional KComma (decay ← parse_number_f32; lambda ← optional KComma parse_number_f32; mret (decay, lambda));
  _ ← expect KRParen "')'" SEC_RANK;
  mret {| dl_field := field; dl_origin := origin; dl_scale := scale; dl_decay := fst <$> tail; dl_lambda := tail ≫= snd |}.

Definition parse_clause : PM ClauseLit :=
  field ← parse_field_sec SEC_RANK;
  _ ← expect KComma "','" SEC_RANK;
  t ← parse_string_lit_sec SEC_RANK;
  prefix ← eat KPrefix;
  mret {| cl_field := field; cl_text := t; cl_prefix := prefix |}.
Definition parse_clauses : PM (list ClauseLit) := sep_by KComma parse_clause.

Definition parse_ranking : PM Ranking :=
  at_ ← here;
  knn ← at_call "knn";
  if knn : bool then
    _ ← bump;
    _ ← bump;
    vector ← parse_vector;
    _ ← expect KRParen "')'" SEC_RANK;
    decay ← optional KMinus parse_decay_tail;
    k ← kind;
    if decide (k = KFuse) then
      if decay is Some _ then err "decay and FUSE cannot combine on one knn(...) ranking" SEC_RANK
      else
        _ ← bump;
        _ ← expect_ident_lc "match" SEC_RANK;
        _ ← expect KLParen "'('" SEC_RANK;
        clauses ← parse_clauses;
        _ ← expect KRParen "')'" SEC_RANK;
        mret (RHybrid vector clauses at_)
    else mret (RKnn vector decay at_)
  else
    mtch ← at_call "match";
    if mtch : bool then
      _ ← bump;
      _ ← bump;
      clauses ← parse_clauses;
      _ ← expect KRParen "')'" SEC_RANK;
      mret (RMatch clauses at_)
    else
      field ← parse_field;
      desc ← eat KDesc;
      if desc : bool then mret (RField field true) else _ ← eat KAsc; mret (RField field false).

(** ** [WITH] options *)

Definition parse_any_lit : PM AnyLit :=
  k ← kind;
  if decide (k = KIdent \/ k = KQuotedIdent) then tok ← bump; w ← text tok; mret (AIdent w)
  else l ← parse_literal; mret (AVal l).

Definition parse_with_arg : PM OptArg :=
  v1 ← parse_any_lit;
  k ← kind;
  match v1 with
  | AIdent name =>
      if decide (k = KComma \/ k = KRParen) then mret (OBare v1) else v2 ← parse_any_lit; mret (OKeyed name v2)
  | AVal _ => mret (OBare v1)
  end.

Definition parse_with_value : PM OptValue :=
  k ← kind;
  if decide (k = KLParen) then
    _ ← bump;
    k ← kind;
    args ← (if decide (k = KRParen) then mret [] else sep_by KComma parse_with_arg);
    _ ← expect KRParen "')'" SEC_ANNOTATE;
    mret (VArgs args)
  else a ← parse_any_lit; mret (VScalar a).

Definition parse_with_option : PM WithOption :=
  name_at ← here;
  k ← kind;
  name ← (if decide (k = KIdent) then tok ← bump; text tok else err "expected a WITH option name" SEC_ANNOTATE);
  b ← eat KEq;
  value ← (if b : bool then parse_with_value else mret VFlag);
  mret {| wo_name := name; wo_name_at := name_at; wo_value := value |}.

Definition parse_with_options : PM (list WithOption) :=
  _ ← expect KLParen "'('" SEC_ANNOTATE;
  out ← sep_by KComma parse_with_option;
  _ ← expect KRParen "')'" SEC_ANNOTATE;
  mret out.

(** ** Statements *)

Definition parse_sum : PM rstring :=
  _ ← expect KLParen "'('" SEC_AGG;
  field ← parse_field_sec SEC_AGG;
  _ ← expect KRParen "')'" SEC_AGG;
  mret field.

(** One item of an aggregate projection: a sum, or [count] of everything. *)
Definition parse_aggregate : PM (option rstring) :=
  k ← kind;
  if decide (k = KSum) then _ ← bump; field ← parse_sum; mret (Some field)
  else
    count ← at_call "count";
    if count : bool then
      _ ← bump;
      _ ← expect KLParen "'('" SEC_AGG;
      _ ← expect KStar "'*'" SEC_AGG;
      _ ← expect KRParen "')'" SEC_AGG;
      mret None
    else err "expected sum(field) or count(*)" SEC_AGG.

Definition parse_aggregate_selection : PM Selection :=
  items ← sep_by KComma parse_aggregate;
  mret (SelAggregates (omap (fun i => i) items) (existsb (fun i => negb (bool_decide (is_Some i))) items)).

Definition parse_selection : PM Selection :=
  star ← eat KStar;
  if star : bool then
    k ← kind;
    if decide (k = KExcept) then
      _ ← bump;
      _ ← expect KLParen "'('" SEC_SYNTAX;
      fields ← parse_field_list;
      _ ← expect KRParen "')'" SEC_SYNTAX;
      mret (SelAllExcept fields)
    else mret SelAll
  else
    k ← kind;
    count ← at_call "count";
    if bool_decide (k = KSum) || count then parse_aggregate_selection
    else fields ← parse_field_list; mret (SelFields fields).

Definition parse_scope : PM (list rstring) :=
  star ← eat KStar; if star : bool then mret [] else parse_field_list.

Definition parse_group : PM (rstring * list rstring) :=
  _ ← expect KBy "'BY'" SEC_AGG;
  field ← parse_field_sec SEC_AGG;
  sums ← many fuel KComma (_ ← expect KSum "'SUM'" SEC_AGG; parse_sum);
  mret (field, sums).

Definition parse_statement : PM Statement :=
  at_ ← here;
  _ ← expect KSelect "'SELECT'" SEC_SYNTAX;
  select ← parse_selection;
  _ ← expect KFrom "'FROM'" SEC_SYNTAX;
  from ← parse_scope;
  flt ← optional KWhere parse_predicate;
  group ← optional KGroup parse_group;
  order ← optional KOrder (_ ← expect KBy "'BY'" SEC_SYNTAX; parse_ranking);
  limit ← optional KLimit parse_int_lit;
  offset ← optional KOffset parse_int_lit;
  with_ ← optional KWith parse_with_options;
  mret {| sm_at := at_; sm_select := select; sm_from := from; sm_filter := flt;
          sm_group_by := fst <$> group; sm_sums := default [] (snd <$> group); sm_order := order;
          sm_limit := limit; sm_offset := offset; sm_with := default [] with_ |}.

Fixpoint script_loop (fuel : nat) : PM (list Statement) :=
  match fuel with
  | O => stuck
  | S fuel =>
      k ← kind;
      if decide (k = KEof) then mret []
      else
        s ← parse_statement;
        b ← eat KSemicolon;
        if b : bool then rest ← script_loop fuel; mret (s :: rest) else mret [s]
  end.

Definition parse_script : PM (list Statement) :=
  out ← script_loop fuel;
  k ← kind;
  if decide (k <> KEof) then err "expected ';' between statements" SEC_BATCH
  else if bool_decide (out = []) then err_at 0 "empty query" SEC_SYNTAX
  else mret out.
End parser.

Definition parse (src : rstring) : option (result SqlError (list Statement)) :=
  match lex src with
  | Some (Ok toks) =>
      match parse_script src toks {| ps_pos := 0; ps_depth := 0 |} with
      | Some (Ok (stmts, _)) => Some (Ok stmts)
      | Some (Err e) => Some (Err e)
      | None => None
      end
  | Some (Err e) => Some (Err e)
  | None => None
  end.

(** Examples write a backquote for a double quote. *)
Definition sql (s : String.string) : rstring := map (fun c => if (c =? 96)%N then 34%N else c) (lit s).

Example parse_ex :
  parse (sql "SELECT a, `b c` FROM docs WHERE NOT (x >= -2 OR tags IN ('a', 'it''s')) ORDER BY knn([1, 0.5]) - decay(t, 5, 7, 0.5) LIMIT 3 WITH (exact, limit_per = (f, 2));") =
  Some (Ok [{| sm_at := 0; sm_select := SelFields [lit "a"; lit "b c"]; sm_from := [lit "docs"];
     sm_filter := Some (NNot (NAny [NCmp (lit "x") CGe (LInt (-2)); NIn (lit "tags") false [LStr (lit "a"); LStr (lit "it's")]]));
     sm_group_by := None; sm_sums := [];
     sm_order := Some (RKnn [f32_one; f32_half]
       (Some {| dl_field := lit "t"; dl_origin := 5; dl_scale := 7; dl_decay := Some f32_half; dl_lambda := None |}) 81);
     sm_limit := Some 3%Z; sm_offset := None;
     sm_with := [{| wo_name := lit "exact"; wo_name_at := 131; wo_value := VFlag |};
                 {| wo_name := lit "limit_per"; wo_name_at := 138;
                    wo_value := VArgs [OBare (AIdent (lit "f")); OBare (AVal (LInt 2))] |}] |}]).
Proof. vm_compute. reflexivity. Qed.
