(* ===== verification/SqlParseOk.v ===== *)
(** * SqlParseOk: the parser ends, never panics, and builds well-formed trees

    A small logic of productions: [spec d p Q] says that [p], run at a token
    at nesting depth [d], neither panics nor runs out of fuel, reports errors
    at a token, and otherwise returns something in [Q] at a later position
    and the same depth.  [parse_ok] is the statement about whole texts. *)
From S2P Require Import Prelude Floats TextPred Std Backend IndexCache Manifest Rank SqlDate SqlLex SqlParse.

(** ** Well-formed syntax *)

Definition is_i64 (z : Z) : bool := ((- 2 ^ 63 <=? z) && (z <? 2 ^ 63))%Z.
Definition is_f64 (x : f64) : bool := ((0 <=? x) && (x <? 2 ^ 64))%Z.
Definition is_f32b (x : f32) : bool := ((0 <=? x) && (x <? 2 ^ 32))%Z.
Definition opt_all {A} (p : A -> bool) (o : option A) : bool := match o with Some a => p a | None => true end.
Definition nonempty {A} (l : list A) : bool := match l with [] => false | _ => true end.

Definition lit_wf (l : Lit) : bool :=
  match l with LInt n => is_i64 n | LDateTime n => is_i64 n | LFloat x => is_f64 x | _ => true end.

Fixpoint pred_wf (p : PredNode) : bool :=
  match p with
  | NAny items | NAll items => (2 <=? length items)%nat && forallb pred_wf items
  | NNot inner => pred_wf inner
  | NCmp _ _ v | NContains _ v | NNotContains _ v => lit_wf v
  | NIn _ _ vs | NContainsAny _ vs => nonempty vs && forallb lit_wf vs
  | NFuzzy _ _ edits _ => is_i64 edits
  | _ => true
  end.

Fixpoint pred_height (p : PredNode) : nat :=
  match p with
  | NAny items | NAll items => S (list_max (map pred_height items))
  | NNot inner => S (pred_height inner)
  | _ => 1
  end.
(** The height [parse_or] can build with that many levels of parentheses left. *)
Definition max_height (levels : nat) : nat := 3 * levels + 4.

Definition decay_wf (d : DecayLit) : bool :=
  is_i64 (dl_origin d) && is_i64 (dl_scale d) && opt_all is_f32b (dl_decay d) && opt_all is_f32b (dl_lambda d)
  && (bool_decide (is_Some (dl_decay d)) || negb (bool_decide (is_Some (dl_lambda d)))).
Definition ranking_wf (r : Ranking) : bool :=
  match r with
  | RKnn v d _ => forallb is_f32b v && opt_all decay_wf d
  | RMatch cs _ => nonempty cs
  | RHybrid v cs _ => forallb is_f32b v && nonempty cs
  | RField _ _ => true
  end.
Definition any_wf (a : AnyLit) : bool := match a with AVal l => lit_wf l | AIdent _ => true end.
Definition arg_wf (a : OptArg) : bool := match a with OBare v | OKeyed _ v => any_wf v end.
Definition value_wf (v : OptValue) : bool :=
  match v with VFlag => true | VScalar a => any_wf a | VArgs args => forallb arg_wf args end.
Definition select_wf (s : Selection) : bool :=
  match s with
  | SelAll => true
  | SelAllExcept fields | SelFields fields => nonempty fields
  | SelAggregates sums count => nonempty sums || count
  end.
Definition statement_wf (s : Statement) : bool :=
  select_wf (sm_select s)
  && opt_all (fun p => pred_wf p && (pred_height p <=? max_height MAX_NEST_DEPTH)%nat) (sm_filter s)
  && (bool_decide (is_Some (sm_group_by s)) || bool_decide (sm_sums s = []))
  && opt_all ranking_wf (sm_order s) && opt_all is_i64 (sm_limit s) && opt_all is_i64 (sm_offset s)
  && forallb (fun w => value_wf (wo_value w)) (sm_with s).

(** ** Numbers *)

Lemma is_i64_checked z n : checked_i64 z = Some n -> is_i64 n = true.
Proof. unfold checked_i64, is_i64. destruct (_ && _) eqn:E; [|done]. by intros [= <-]. Qed.

Lemma bits_range mw ew x : (0 <= mw)%Z -> (0 <= ew)%Z -> (0 <= bits_of_sf mw ew x < 2 ^ (1 + (mw + ew)))%Z.
Proof. intros ??. unfold bits_of_sf. apply Z.mod_pos_bound. apply Z.pow_pos_nonneg; lia. Qed.

Lemma f64_bits x : is_f64 (bits_of_sf 52 11 x) = true.
Proof.
  pose proof (bits_range 52 11 x ltac:(done) ltac:(done)) as H. unfold is_f64.
  change (2 ^ (1 + (52 + 11)))%Z with (2 ^ 64)%Z in H. by rewrite (proj2 (Z.leb_le _ _)), (proj2 (Z.ltb_lt _ _)) by apply H.
Qed.
Lemma f32_bits x : is_f32b (bits_of_sf 23 8 x) = true.
Proof.
  pose proof (bits_range 23 8 x ltac:(done) ltac:(done)) as H. unfold is_f32b.
  change (2 ^ (1 + (23 + 8)))%Z with (2 ^ 32)%Z in H. by rewrite (proj2 (Z.leb_le _ _)), (proj2 (Z.ltb_lt _ _)) by apply H.
Qed.
Lemma f32_of_f64_bits x : is_f32b (f32_of_f64 x) = true.
Proof. unfold f32_of_f64, f_recast. case_match; apply f32_bits. Qed.

Lemma parse_f64_bits t x : parse_f64 t = Some x -> is_f64 x = true.
Proof.
  assert (forall m e, is_f64 (f64_of_decimal m e) = true) as Hd.
  { intros m e. unfold f64_of_decimal. destruct m; [done|]. destruct (0 <=? e)%Z; [apply f64_bits|].
    destruct (10 ^ - e)%Z; [done|apply f64_bits|done]. }
  unfold parse_f64. destruct (split_digits t) as [int rest]. destruct (match rest with c :: r => _ | [] => _ end) as [frac rest'].
  destruct (bool_decide _); [done|]. destruct (match rest' with [] => _ | c :: r => _ end) as [e|]; [|done].
  cbn [mbind option_bind]. intros [= <-]. apply Hd.
Qed.

Lemma parse_i64_range t n : parse_i64 t = Some n -> is_i64 n = true /\ is_i64 (- n) = true.
Proof.
  unfold parse_i64. destruct (_ || _); [done|]. intros E. split; [by eapply is_i64_checked|].
  unfold checked_i64 in E. destruct (_ && _) eqn:Eb; [|done]. injection E as <-. unfold is_i64. bdestr.
  by rewrite (proj2 (Z.leb_le _ _)), (proj2 (Z.ltb_lt _ _)) by lia.
Qed.

Lemma iso_range t n : iso8601_to_millis t = Some n -> is_i64 n = true.
Proof.
  unfold iso8601_to_millis. cbv zeta. destruct (_ <? 19)%nat; [done|]. do 2 (destruct (negb _); [done|]).
  intros E. do 6 (apply bind_Some in E as (? & _ & E)). destruct (_ || _); [done|]. destruct (_ || _); [done|].
  do 3 (apply bind_Some in E as (? & _ & E)). by apply is_i64_checked in E.
Qed.

(** ** The logic *)

Section spec.
Context (src : rstring) (toks : list Token) (Hlex : lexed src toks).

Definition err_ok (e : SqlError) : Prop := se_at e = 0 \/ exists t, t ∈ toks /\ se_at e = tk_at t.
Definition ok_st (st : pstate) : Prop := (ps_pos st < length toks)%nat.
Definition after (st st' : pstate) : Prop := ok_st st' /\ (ps_pos st <= ps_pos st')%nat /\ ps_depth st' = ps_depth st.

Definition runs {A} (p : PM A) (st : pstate) (Q : A -> pstate -> Prop) : Prop :=
  match p st with
  | None => False
  | Some (Err e) => err_ok e
  | Some (Ok (a, st')) => Q a st'
  end.
Definition spec {A} (d : nat) (p : PM A) (Q : A -> Prop) : Prop :=
  forall st, ok_st st -> ps_depth st = d -> runs p st (fun a st' => Q a /\ after st st').

Lemma runs_bind {A B} (p : PM A) (f : A -> PM B) st Q :
  runs p st (fun a st' => runs (f a) st' Q) -> runs (p ≫= f) st Q.
Proof. unfold runs, mbind, PM_bind. by destruct (p st) as [[[a st']|e]|]. Qed.

Lemma runs_mono {A} (p : PM A) st (Q R : A -> pstate -> Prop) :
  (forall a st', Q a st' -> R a st') -> runs p st Q -> runs p st R.
Proof. intros HQR. unfold runs. destruct (p st) as [[[a st']|e]|]; [apply HQR|done|done]. Qed.

Lemma after_refl st : ok_st st -> after st st.
Proof. intros ?. unfold after. by split_and!. Qed.
Lemma after_trans a b c : after a b -> after b c -> after a c.
Proof. intros (? & ? & ?) (? & ? & ?). unfold after. split_and!; [done|lia|congruence]. Qed.

Lemma spec_ret {A} d (a : A) (Q : A -> Prop) : Q a -> spec d (mret a) Q.
Proof. intros HQ st Hst _. split; [done|by apply after_refl]. Qed.

Lemma spec_bind {A B} d (p : PM A) (f : A -> PM B) Q R :
  spec d p Q -> (forall a, Q a -> spec d (f a) R) -> spec d (p ≫= f) R.
Proof.
  intros Hp Hf st Hst Hd. apply runs_bind. eapply runs_mono; [|by apply Hp]. intros a st' [Ha (Hok & Hle & Hd')].
  eapply runs_mono; [|apply (Hf a Ha); [done|congruence]]. intros b st'' [Hb Haf]. split; [done|].
  eapply after_trans; [|exact Haf]. unfold after. by split_and!.
Qed.

Lemma spec_mono {A} d (p : PM A) (Q R : A -> Prop) : (forall a, Q a -> R a) -> spec d p Q -> spec d p R.
Proof. intros HQR Hp st Hst Hd. eapply runs_mono; [|by apply Hp]. intros a st' [??]. split; [by apply HQR|done]. Qed.

Lemma spec_at {A} d (p : PM A) Q :
  (forall t, t ∈ toks -> spec d p (fun a => Q a)) -> spec d p Q.
Proof.
  intros H st Hst. destruct (lookup_lt_is_Some_2 toks (ps_pos st) Hst) as [t Ht]. by apply (H t (list_elem_of_lookup_2 _ _ _ Ht)).
Qed.

(** ** The basic productions *)

Lemma token_at st : ok_st st -> exists t, toks !! ps_pos st = Some t /\ t ∈ toks.
Proof.
  intros [t Ht]%lookup_lt_is_Some_2. exists t. split; [done|by eapply list_elem_of_lookup_2].
Qed.

Lemma spec_cur d : spec d (cur toks) (fun t => t ∈ toks).
Proof. intros st Hst _. destruct (token_at st Hst) as (t & Ht & Hin). unfold runs, cur. rewrite Ht. split; [done|by apply after_refl]. Qed.

Lemma spec_text d t : t ∈ toks -> spec d (text src t) (fun _ => True).
Proof.
  intros Hin st Hst _. pose proof (lx_slices _ _ Hlex) as Hs. rewrite Forall_forall in Hs.
  destruct (Hs t Hin) as (_ & [w Hw] & _). unfold runs, text. rewrite Hw. split; [done|by apply after_refl].
Qed.

Lemma spec_kind d : spec d (kind toks) (fun _ => True).
Proof. eapply spec_bind; [apply spec_cur|]. intros t _. by apply spec_ret. Qed.

Lemma spec_here d : spec d (here toks) (fun n => exists t, t ∈ toks /\ n = tk_at t).
Proof. eapply spec_bind; [apply spec_cur|]. intros t Ht. apply spec_ret. by exists t. Qed.

Lemma spec_throw {A} d (e : SqlError) (Q : A -> Prop) : err_ok e -> spec d (throw e) Q.
Proof. by intros He st _ _. Qed.

Lemma spec_err {A} d m s (Q : A -> Prop) : spec d (err toks m s) Q.
Proof. eapply spec_bind; [apply spec_here|]. intros n Hn. apply spec_throw. by right. Qed.

Lemma spec_advance d : spec d (advance toks) (fun _ => True).
Proof.
  intros st Hst _. unfold runs, advance. split; [done|]. unfold after, ok_st in *.
  destruct (Nat.ltb_spec (ps_pos st + 1) (length toks)); cbn; (split_and!; lia).
Qed.

Lemma spec_bump d : spec d (bump toks) (fun t => t ∈ toks).
Proof.
  eapply spec_bind; [apply spec_cur|]. intros t Ht. eapply spec_bind; [apply spec_advance|]. intros _ _. by apply spec_ret.
Qed.

Lemma spec_eat d k : spec d (eat toks k) (fun _ => True).
Proof.
  eapply spec_bind; [apply spec_kind|]. intros k' _. case_decide; [|by apply spec_ret].
  eapply spec_bind; [apply spec_bump|]. intros _ _. by apply spec_ret.
Qed.

Lemma spec_expect d k m s : spec d (expect toks k m s) (fun t => t ∈ toks).
Proof. eapply spec_bind; [apply spec_kind|]. intros k' _. case_decide; [apply spec_bump|apply spec_err]. Qed.

Lemma spec_peek2 d : spec d (peek2_kind toks) (fun _ => True).
Proof. intros st Hst _. split; [done|by apply after_refl]. Qed.

Lemma spec_ident_lc d : spec d (ident_lc src toks) (fun _ => True).
Proof.
  eapply spec_bind; [apply spec_cur|]. intros t Ht. case_decide; [|by apply spec_ret].
  eapply spec_bind; [by apply spec_text|]. intros w _. by apply spec_ret.
Qed.

Lemma spec_expect_word d w s : spec d (expect_ident_lc src toks w s) (fun _ => True).
Proof.
  eapply spec_bind; [apply spec_ident_lc|]. intros o _. destruct (is_word w o); [|apply spec_err].
  eapply spec_bind; [apply spec_bump|]. intros _ _. by apply spec_ret.
Qed.

Lemma spec_at_call d w : spec d (at_call src toks w) (fun _ => True).
Proof.
  eapply spec_bind; [apply spec_ident_lc|]. intros o _. destruct (is_word w o); [|by apply spec_ret].
  eapply spec_bind; [apply spec_peek2|]. intros k _. by apply spec_ret.
Qed.

(** Eating a token that is not the last one moves on. *)
Lemma eat_moves d k st :
  k <> KEof -> ok_st st -> ps_depth st = d ->
  runs (eat toks k) st (fun b st' => after st st' /\ (b = true -> (ps_pos st < ps_pos st')%nat)).
Proof.
  intros Hk Hst _. destruct (token_at st Hst) as (t & Ht & _). unfold runs, eat, kind, bump, cur, mbind, PM_bind, mret, PM_ret.
  rewrite Ht. case_decide as Ek; rewrite ?Ht; [|split; [by apply after_refl|done]].
  unfold advance. destruct (lx_eof _ _ Hlex) as (body & Eb & _).
  assert (ps_pos st + 1 < length toks)%nat as Hlt.
  { unfold ok_st in Hst. assert (length toks = S (length body)) as El by (rewrite Eb, length_app; cbn; lia). destruct (decide (ps_pos st = length body)) as [E|]; [|lia].
    rewrite E, Eb, lookup_app_r, Nat.sub_diag in Ht by lia. cbn in Ht. injection Ht as <-. done. }
  rewrite (proj2 (Nat.ltb_lt _ _) Hlt). unfold after, ok_st. cbn. split; [split_and!; lia|lia].
Qed.

Lemma spec_many {A} d k (p : PM A) Q fuel :
  k <> KEof -> spec d p Q -> forall st, ok_st st -> ps_depth st = d -> (length toks < ps_pos st + fuel)%nat ->
  runs (many toks fuel k p) st (fun l st' => Forall Q l /\ after st st').
Proof.
  intros Hk Hp. induction fuel as [|fuel IH]; intros st Hst Hd Hf; [unfold ok_st in Hst; lia|]. cbn [many].
  apply runs_bind. eapply runs_mono; [|by apply (eat_moves d)]. intros b st1 [Ha1 Hb].
  destruct b; [|split; [constructor|done]]. specialize (Hb eq_refl). destruct Ha1 as (Hok1 & Hle1 & Hd1).
  apply runs_bind. eapply runs_mono; [|by apply Hp; [|congruence]]. intros a st2 [HQ Ha2]. pose proof Ha2 as (Hok2 & Hle2 & Hd2).
  apply runs_bind. eapply runs_mono; [|apply IH; [done|congruence|lia]]. intros l st3 [Hl Ha3].
  split; [by constructor|]. eapply after_trans; [|exact Ha3]. eapply after_trans; [|exact Ha2]. unfold after. by split_and!.
Qed.

Lemma spec_many_fuel {A} d k (p : PM A) Q :
  k <> KEof -> spec d p Q -> spec d (many toks (fuel toks) k p) (Forall Q).
Proof. intros Hk Hp st Hst Hd. eapply spec_many; [done..|]. unfold fuel. lia. Qed.

Lemma spec_sep_by {A} d k (p : PM A) Q :
  k <> KEof -> spec d p Q -> spec d (sep_by toks k p) (fun l => l <> [] /\ Forall Q l).
Proof.
  intros Hk Hp. eapply spec_bind; [exact Hp|]. intros a Ha. eapply spec_bind; [by apply spec_many_fuel|]. intros l Hl.
  apply spec_ret. split; [done|by constructor].
Qed.

Lemma spec_optional {A} d k (p : PM A) Q :
  spec d p Q -> spec d (optional toks k p) (fun o => match o with Some a => Q a | None => True end).
Proof.
  intros Hp. eapply spec_bind; [apply spec_eat|]. intros [] _; [|by apply spec_ret].
  eapply spec_bind; [exact Hp|]. intros a Ha. by apply spec_ret.
Qed.
(** ** Literals *)

#[local] Hint Resolve spec_cur spec_text spec_kind spec_here spec_bump spec_eat spec_expect spec_peek2 spec_ident_lc
  spec_expect_word spec_at_call : sqlspec.

(** Walk through a production: known productions by the hints, then the rest. *)
Ltac prod_step :=
  lazymatch goal with
  | |- forall _, _ => intros ?
  | |- spec _ (mret _) _ => apply spec_ret
  | |- spec _ (err _ _ _) _ => apply spec_err
  | |- spec _ (_ ≫= _) _ => eapply spec_bind; [solve [eauto with sqlspec]|cbv beta]
  | |- spec _ (if decide _ then _ else _) _ => case_decide
  | |- spec _ (if ?b then _ else _) _ => destruct b eqn:?
  end.
Ltac prod := repeat prod_step.

Definition number (l : Lit) : Prop := lit_wf l = true /\ ((exists n, l = LInt n) \/ exists f, l = LFloat f).

Lemma spec_field_sec d s : spec d (parse_field_sec src toks s) (fun _ => True).
Proof. unfold parse_field_sec. prod. by apply spec_text. Qed.
Lemma spec_field d : spec d (parse_field src toks) (fun _ => True).
Proof. apply spec_field_sec. Qed.

Lemma spec_signed_number d : spec d (parse_signed_number src toks) number.
Proof.
  unfold parse_signed_number. prod_step. intros neg _. prod_step. intros k _. destruct k; try apply spec_err.
  - prod. destruct (parse_i64 _) as [n|] eqn:En; [|apply spec_err]. apply parse_i64_range in En as [H1 H2].
    apply spec_ret. split; [by destruct neg|left; by eexists].
  - prod. destruct (parse_f64 _) as [f|] eqn:Ef; [|apply spec_err]. apply parse_f64_bits in Ef.
    apply spec_ret. split; [destruct neg; [apply f64_bits|done]|right; by eexists].
Qed.
#[local] Hint Resolve spec_field_sec spec_field spec_signed_number : sqlspec.

Lemma spec_int_lit d : spec d (parse_int_lit src toks) (fun n => is_i64 n = true).
Proof. unfold parse_int_lit. prod_step. intros l [Hwf [[n ->]|[f ->]]]; [by apply spec_ret|apply spec_err]. Qed.

Lemma spec_number_f32 d : spec d (parse_number_f32 src toks) (fun x => is_f32b x = true).
Proof.
  unfold parse_number_f32, parse_float_lit. eapply (spec_bind _ _ _ (fun _ => True)).
  - prod_step. intros l [_ [[n ->]|[f ->]]]; by apply spec_ret.
  - intros f _. apply spec_ret, f32_of_f64_bits.
Qed.
#[local] Hint Resolve spec_int_lit spec_number_f32 : sqlspec.

Lemma spec_at_timestamp d : spec d (at_timestamp_lit src toks) (fun _ => True).
Proof. unfold at_timestamp_lit. prod; done. Qed.

Lemma spec_timestamp d : spec d (parse_timestamp_lit src toks) (fun l => lit_wf l = true).
Proof.
  unfold parse_timestamp_lit. prod_step. intros at_ (t & Ht & ->).
  assert (forall A m s (Q : A -> Prop), spec d (err_at (tk_at t) m s) Q) as Herr by (intros; apply spec_throw; right; eauto).
  prod; [| |by apply Herr].
  - destruct (iso8601_to_millis _) as [ms|] eqn:E; [|apply Herr]. apply spec_ret. by apply iso_range in E.
  - match goal with H : number _ |- _ => destruct H as [Hwf [[n ->]|[f ->]]] end; [by apply spec_ret|apply Herr].
Qed.
#[local] Hint Resolve spec_at_timestamp spec_timestamp : sqlspec.

Lemma spec_literal d : spec d (parse_literal src toks) (fun l => lit_wf l = true).
Proof.
  unfold parse_literal. prod_step. intros k _.
  assert (spec d (ts ← at_timestamp_lit src toks; if ts : bool then parse_timestamp_lit src toks
      else if decide (k ∈ [KMinus; KInt; KFloat]) then parse_signed_number src toks else err toks "expected a value" SEC_SYNTAX)
    (fun l => lit_wf l = true)) as Hrest.
  { prod; [apply spec_timestamp|]. eapply spec_mono; [|apply spec_signed_number]. by intros l [? _]. }
  destruct k; try exact Hrest; prod; done.
Qed.

Lemma runs_kind st Q :
  ok_st st -> (forall t, toks !! ps_pos st = Some t -> Q (tk_kind t) st) -> runs (kind toks) st Q.
Proof.
  intros Hst H. destruct (token_at st Hst) as (t & Ht & _). unfold runs, kind, cur, mbind, PM_bind. rewrite Ht. by apply H.
Qed.

(** A string token always parses to a string. *)
Lemma literal_str d st t :
  ok_st st -> ps_depth st = d -> toks !! ps_pos st = Some t -> tk_kind t = KStr ->
  runs (parse_literal src toks) st (fun l st' => (exists s, l = LStr s) /\ after st st').
Proof.
  intros Hst Hd Ht Hk. unfold parse_literal. apply runs_bind, runs_kind; [done|]. intros t'. rewrite Ht. intros [= <-].
  rewrite Hk. revert st Hst Hd Ht. intros st Hst Hd _. revert st Hst Hd.
  change (spec d (tok ← cur toks; raw ← text src tok; _ ← bump toks; mret (LStr (unescape_string raw))) (fun l => exists s, l = LStr s)).
  prod. by eexists.
Qed.

Lemma spec_string_lit d s : spec d (parse_string_lit_sec src toks s) (fun _ => True).
Proof.
  intros st Hst Hd. unfold parse_string_lit_sec. apply runs_bind, runs_kind; [done|]. intros t Ht.
  case_decide as Hk; [|by apply (spec_err d)]. apply runs_bind. eapply runs_mono; [|by eapply literal_str].
  intros l st' [[w ->] Ha]. by split.
Qed.
#[local] Hint Resolve spec_literal spec_string_lit : sqlspec.

Lemma spec_sep_by_ne {A} d k (p : PM A) Q :
  k <> KEof -> spec d p Q -> spec d (sep_by toks k p) (fun l => nonempty l = true /\ Forall Q l).
Proof. intros Hk Hp. eapply spec_mono; [|by apply spec_sep_by]. intros l [Hne ?]. by destruct l. Qed.

Lemma Forall_forallb {A} (p : A -> bool) l : Forall (fun a => p a = true) l -> forallb p l = true.
Proof. induction 1 as [|a l Ha _ IH]; [done|]. cbn. by rewrite Ha, IH. Qed.

Lemma spec_lits d : spec d (sep_by toks KComma (parse_literal src toks)) (fun vs => nonempty vs && forallb lit_wf vs = true).
Proof.
  eapply spec_mono; [|apply spec_sep_by_ne; [done|apply spec_literal]]. intros l [-> Hl%Forall_forallb]. exact Hl.
Qed.
#[local] Hint Resolve spec_lits : sqlspec.

Lemma spec_paren_lits d s : spec d (parse_paren_lit_list src toks s) (fun vs => nonempty vs && forallb lit_wf vs = true).
Proof. unfold parse_paren_lit_list. prod. done. Qed.
#[local] Hint Resolve spec_paren_lits : sqlspec.
(** ** Predicates *)

Definition pred_ok (h : nat) (p : PredNode) : Prop := pred_wf p = true /\ (pred_height p <= h)%nat.
Definition leaf (p : PredNode) : Prop := pred_wf p = true /\ pred_height p = 1%nat.

Lemma leaf_primary_ok h p : (1 <= h)%nat -> leaf p -> pred_ok h p.
Proof. intros Hh [? E]. split; [done|lia]. Qed.

Lemma spec_fn_predicate d name : name ∈ map lit FN_NAMES -> spec d (parse_fn_predicate src toks name) leaf.
Proof.
  intros Hin. unfold parse_fn_predicate. cbv zeta. set (sec := if (_ : bool) then SEC_ARRAY else SEC_TEXT). clearbody sec.
  do 4 (prod_step; intros ? _). eapply (spec_bind _ _ _ leaf); [|intros node Hn; prod; done].
  do 7 (case_bool_decide; [prod; done|]).
  exfalso. unfold FN_NAMES in Hin. cbn [map] in Hin. repeat match type of Hin with _ ∈ _ :: _ => apply elem_of_cons in Hin as [Hin|Hin]; [done|] end. by apply elem_of_nil in Hin.
Qed.

Lemma spec_comparison d : spec d (parse_comparison src toks) leaf.
Proof.
  unfold parse_comparison. prod_step. intros field _. prod_step. intros k _. destruct (cmp_op k); prod; done.
Qed.

Lemma spec_fn_name d :
  spec d (fn_name src toks) (fun o => match o with Some n => n ∈ map lit FN_NAMES | None => True end).
Proof. unfold fn_name. prod_step. intros [w|] _; prod; [|done]. case_decide as E; [apply E|done]. Qed.

(** Inside a parenthesis one level deeper, when the check lets it through. *)
Lemma spec_primary d inner h :
  (1 <= h)%nat -> ((d < MAX_NEST_DEPTH)%nat -> spec (S d) inner (pred_ok h)) ->
  spec d (parse_primary src toks inner) (pred_ok h).
Proof.
  intros Hh Hin. unfold parse_primary. prod_step. intros k _. case_decide.
  2:{ eapply spec_bind; [apply spec_fn_name|]. intros [name|] Hname.
      - eapply spec_mono; [|by apply spec_fn_predicate]. intros p. by apply leaf_primary_ok.
      - eapply spec_mono; [|apply spec_comparison]. intros p. by apply leaf_primary_ok. }
  intros st Hst Hd. apply runs_bind. unfold runs at 1, set_depth. rewrite Hd.
  assert (forall st', ok_st st' -> (ps_pos st <= ps_pos st')%nat -> ps_depth st' = S d ->
    runs (node ← inner; _ ← expect toks KRParen "')'" SEC_BOOL; _ ← set_depth Nat.pred; mret node) st'
      (fun a st'' => pred_ok h a /\ after st st'') \/ (MAX_NEST_DEPTH < S d)%nat) as Hrest.
  { intros st' Hst' Hle Hd'. destruct (Nat.ltb_spec MAX_NEST_DEPTH (S d)) as [|Hmax]; [by right|left].
    apply runs_bind. eapply runs_mono; [|by apply (Hin ltac:(lia))]. intros node st1 [Hn (Ho1 & Hl1 & Hd1)].
    apply runs_bind. eapply runs_mono; [|by eapply (spec_expect (S d)); [|congruence]].
    intros tok st2 [_ (Ho2 & Hl2 & Hd2)]. split; [done|]. unfold after. cbn. split_and!; [done|lia|lia]. }
  destruct (Nat.ltb_spec MAX_NEST_DEPTH (S d)) as [Hmax|Hmax].
  { eapply runs_mono; [|by apply (spec_err (S d) _ _ (fun _ => False))]. by intros a st' [[] _]. }
  apply runs_bind. eapply runs_mono; [|by apply (spec_bump (S d))]. intros t st1 [_ (Ho1 & Hl1 & Hd1)].
  destruct (Hrest st1 Ho1 Hl1 Hd1) as [Hr|]; [exact Hr|lia].
Qed.

Lemma group_items_ok h node items :
  (forall l, pred_wf (node l) = (2 <=? length l)%nat && forallb pred_wf l) ->
  (forall l, pred_height (node l) = S (list_max (map pred_height l))) ->
  items <> [] -> Forall (pred_ok h) items -> pred_ok (S h) (group_items node items).
Proof.
  intros Hw Hh Hne Hall. destruct items as [|p [|p' items]]; [done|..]; cbn [group_items].
  - apply Forall_cons in Hall as [[Hp ?] _]. split; [done|lia].
  - split.
    + rewrite Hw. change (2 <=? length (p :: p' :: items))%nat with true. cbn [andb].
      apply Forall_forallb. eapply Forall_impl; [exact Hall|]. by intros q [? _].
    + rewrite Hh. apply le_n_S, list_max_le, Forall_map. eapply Forall_impl; [exact Hall|]. by intros q [_ ?].
Qed.

Lemma spec_not d inner h :
  spec d (parse_primary src toks inner) (pred_ok h) -> spec d (parse_not src toks inner) (pred_ok (S h)).
Proof.
  intros Hp. unfold parse_not. prod_step. intros [] _.
  - eapply spec_bind; [exact Hp|]. intros p [? ?]. apply spec_ret. split; [done|cbn; lia].
  - eapply spec_mono; [|exact Hp]. intros p [? ?]. split; [done|lia].
Qed.

Lemma spec_and d inner h :
  spec d (parse_primary src toks inner) (pred_ok h) -> spec d (parse_and src toks inner) (pred_ok (S (S h))).
Proof.
  intros Hp. unfold parse_and. eapply spec_bind; [apply spec_sep_by; [done|by apply spec_not]|]. intros items [Hne Hall].
  apply spec_ret. by apply group_items_ok.
Qed.

Lemma spec_or_in d inner h :
  spec d (parse_primary src toks inner) (pred_ok h) -> spec d (parse_or_in src toks inner) (pred_ok (S (S (S h)))).
Proof.
  intros Hp. unfold parse_or_in. eapply spec_bind; [apply spec_sep_by; [done|by apply spec_and]|]. intros items [Hne Hall].
  apply spec_ret. by apply group_items_ok.
Qed.

Lemma spec_or levels : forall d,
  (d + levels = MAX_NEST_DEPTH)%nat -> spec d (parse_or src toks levels) (pred_ok (max_height levels)).
Proof.
  induction levels as [|levels IH]; intros d Hd; cbn [parse_or].
  - apply (spec_or_in d _ 1), spec_primary; [done|]. lia.
  - replace (max_height (S levels)) with (S (S (S (max_height levels)))) by (unfold max_height; lia).
    apply spec_or_in, spec_primary; [unfold max_height; lia|]. intros _. apply IH. lia.
Qed.

Lemma spec_predicate : spec 0 (parse_predicate src toks) (pred_ok (max_height MAX_NEST_DEPTH)).
Proof. by apply spec_or. Qed.
(** ** Rankings and options *)

#[local] Hint Resolve spec_comparison : sqlspec.

Lemma spec_vector d : spec d (parse_vector src toks) (fun v => forallb is_f32b v = true).
Proof.
  unfold parse_vector. prod_step. intros _ _. prod_step. intros k _.
  eapply (spec_bind _ _ _ (fun v => forallb is_f32b v = true)); [|intros v Hv; prod; done].
  case_decide; [by apply spec_ret|]. eapply spec_mono; [|apply spec_sep_by_ne; [done|apply spec_number_f32]].
  intros l [_ Hl]. by apply Forall_forallb.
Qed.
#[local] Hint Resolve spec_vector : sqlspec.

Lemma spec_decay_tail d : spec d (parse_decay_tail src toks) (fun x => decay_wf x = true).
Proof.
  unfold parse_decay_tail. prod_step. intros _ _. prod_step. intros _ _. prod_step. intros field _.
  prod_step. intros _ _. prod_step. intros origin Ho. prod_step. intros _ _. prod_step. intros scale Hs.
  eapply spec_bind.
  { apply spec_optional with (Q := fun dl => is_f32b dl.1 = true /\ opt_all is_f32b dl.2 = true).
    prod_step. intros x Hx. eapply spec_bind; [apply spec_optional, spec_number_f32|]. intros o Ho'. apply spec_ret.
    split; [done|]. by destruct o. }
  intros tail Ht. prod. unfold decay_wf. cbn [dl_origin dl_scale dl_decay dl_lambda]. rewrite Ho, Hs.
  destruct tail as [[x o]|]; [|done]. destruct Ht as [Hx Hl]. cbn in *. by rewrite Hx, Hl.
Qed.

Lemma spec_clauses d : spec d (parse_clauses src toks) (fun cs => nonempty cs = true).
Proof.
  eapply spec_mono; [|apply (spec_sep_by_ne d _ _ (fun _ => True)); [done|]]; [by intros cs [? _]|]. unfold parse_clause. prod. done.
Qed.
#[local] Hint Resolve spec_decay_tail spec_clauses : sqlspec.

Lemma spec_ranking d : spec d (parse_ranking src toks) (fun r => ranking_wf r = true).
Proof.
  unfold parse_ranking. prod_step. intros at_ _. prod_step. intros [] _.
  - do 2 (prod_step; intros _ _). prod_step. intros v Hv. prod_step. intros _ _.
    eapply spec_bind; [apply spec_optional, spec_decay_tail|]. intros o Ho. prod_step. intros k _. case_decide.
    + destruct o; [apply spec_err|]. do 3 (prod_step; intros ? _). prod_step. intros cs Hcs. prod. cbn. by rewrite Hv.
    + apply spec_ret. cbn. rewrite Hv. by destruct o.
  - prod; done.
Qed.

Lemma spec_any_lit d : spec d (parse_any_lit src toks) (fun a => any_wf a = true).
Proof. unfold parse_any_lit. prod; [done|exact H1]. Qed.
#[local] Hint Resolve spec_ranking spec_any_lit : sqlspec.

Lemma spec_with_arg d : spec d (parse_with_arg src toks) (fun a => arg_wf a = true).
Proof. unfold parse_with_arg. prod_step. intros v Hv. prod_step. intros k _. destruct v; prod; done. Qed.
#[local] Hint Resolve spec_with_arg : sqlspec.

Lemma spec_with_value d : spec d (parse_with_value src toks) (fun v => value_wf v = true).
Proof.
  unfold parse_with_value. prod_step. intros k _. case_decide; [|by prod].
  prod_step. intros _ _. prod_step. intros k' _. eapply (spec_bind _ _ _ (fun l => forallb arg_wf l = true)); [|intros l Hl; prod; done].
  case_decide; [by apply spec_ret|]. eapply spec_mono; [|apply spec_sep_by_ne; [done|apply spec_with_arg]].
  intros l [_ Hl]. by apply Forall_forallb.
Qed.
#[local] Hint Resolve spec_with_value : sqlspec.

Lemma spec_with_options d :
  spec d (parse_with_options src toks) (fun l => forallb (fun w => value_wf (wo_value w)) l = true).
Proof.
  unfold parse_with_options. prod_step. intros _ _. eapply spec_bind.
  { apply (spec_sep_by_ne d _ _ (fun w => value_wf (wo_value w) = true)); [done|]. unfold parse_with_option.
    prod_step. intros at_ _. prod_step. intros k _. eapply (spec_bind _ _ _ (fun _ => True)).
    - case_decide; prod. by apply spec_text.
    - intros name _. prod_step. intros b _. eapply (spec_bind _ _ _ (fun v => value_wf v = true)); [|intros v Hv; prod; done].
      destruct b; prod; [apply spec_with_value|done]. }
  intros l [_ Hl]. prod. by apply Forall_forallb.
Qed.

(** ** Statements *)

Lemma spec_sum d : spec d (parse_sum src toks) (fun _ => True).
Proof. unfold parse_sum. prod. done. Qed.
#[local] Hint Resolve spec_sum spec_with_options : sqlspec.

Lemma spec_fields d : spec d (parse_field_list src toks) (fun l => nonempty l = true).
Proof. eapply spec_mono; [|apply spec_sep_by_ne; [done|apply spec_field]]. by intros l [? _]. Qed.
#[local] Hint Resolve spec_fields : sqlspec.

Lemma spec_selection d : spec d (parse_selection src toks) (fun s => select_wf s = true).
Proof.
  unfold parse_selection. prod_step. intros [] _; [by prod|]. prod_step. intros k _. prod_step. intros c _.
  destruct (_ || c); [|by prod]. unfold parse_aggregate_selection.
  eapply spec_bind; [apply (spec_sep_by_ne d _ _ (fun _ => True)); [done|unfold parse_aggregate; prod; done]|].
  intros items [Hne _]. apply spec_ret. destruct items as [|[f|] items]; [done|done|]. cbn. by rewrite orb_true_r.
Qed.

Lemma spec_group d : spec d (parse_group src toks) (fun _ => True).
Proof.
  unfold parse_group. prod_step. intros _ _. prod_step. intros f _.
  eapply spec_bind; [apply (spec_many_fuel d _ _ (fun _ => True)); [done|prod; apply spec_sum]|]. intros l _. by apply spec_ret.
Qed.
#[local] Hint Resolve spec_selection spec_group spec_predicate : sqlspec.

Lemma spec_statement : spec 0 (parse_statement src toks) (fun s => statement_wf s = true).
Proof.
  unfold parse_statement. prod_step. intros at_ _. prod_step. intros _ _. prod_step. intros sel Hsel. prod_step. intros _ _.
  eapply (spec_bind _ _ _ (fun _ => True)); [unfold parse_scope; prod; [done|eapply spec_mono; [|apply spec_fields]; done]|].
  intros from _. eapply spec_bind; [apply spec_optional, spec_predicate|]. intros flt Hflt.
  eapply spec_bind; [apply spec_optional, spec_group|]. intros grp _.
  eapply spec_bind; [apply (spec_optional 0 _ _ (fun r => ranking_wf r = true)); prod; apply spec_ranking|]. intros ord Hord.
  eapply spec_bind; [apply spec_optional, spec_int_lit|]. intros lim Hlim.
  eapply spec_bind; [apply spec_optional, spec_int_lit|]. intros off Hoff.
  eapply spec_bind; [apply spec_optional, spec_with_options|]. intros w Hw. apply spec_ret.
  unfold statement_wf. cbn [sm_select sm_filter sm_group_by sm_sums sm_order sm_limit sm_offset sm_with]. rewrite Hsel.
  assert (opt_all (fun p => pred_wf p && (pred_height p <=? max_height MAX_NEST_DEPTH)%nat) flt = true) as ->.
  { destruct flt as [p|]; [|done]. destruct Hflt as [Hp Hh]. cbn [opt_all]. by rewrite Hp, (proj2 (Nat.leb_le _ _) Hh). }
  assert (bool_decide (is_Some (fst <$> grp)) || bool_decide (default [] (snd <$> grp) = []) = true) as ->.
  { destruct grp; [|done]. by rewrite bool_decide_eq_true_2 by (by eexists). }
  assert (opt_all ranking_wf ord = true) as -> by by destruct ord. assert (opt_all is_i64 lim = true) as -> by by destruct lim.
  assert (opt_all is_i64 off = true) as -> by by destruct off. by destruct w.
Qed.

Lemma script_loop_ok fuel : forall st, ok_st st -> ps_depth st = 0 -> (length toks < ps_pos st + fuel)%nat ->
  runs (script_loop src toks fuel) st (fun l st' => Forall (fun s => statement_wf s = true) l /\ after st st').
Proof.
  induction fuel as [|fuel IH]; intros st Hst Hd Hf; [unfold ok_st in Hst; lia|]. cbn [script_loop].
  apply runs_bind, runs_kind; [done|]. intros t _. case_decide; [split; [constructor|by apply after_refl]|].
  apply runs_bind. eapply runs_mono; [|by apply spec_statement]. intros s st1 [Hs Ha1]. pose proof Ha1 as (Ho1 & Hl1 & Hd1).
  apply runs_bind. eapply runs_mono; [|apply (eat_moves 0); [done|done|congruence]]. intros b st2 [Ha2 Hb].
  pose proof Ha2 as (Ho2 & Hl2 & Hd2).
  destruct b; [|split; [by repeat constructor|by eapply after_trans]]. specialize (Hb eq_refl).
  apply runs_bind. eapply runs_mono; [|apply IH; [done|congruence|lia]]. intros l st3 [Hl Ha3].
  split; [by constructor|]. eapply after_trans; [exact Ha1|]. by eapply after_trans.
Qed.

Lemma script_ok :
  runs (parse_script src toks) {| ps_pos := 0; ps_depth := 0 |} (fun l _ => l <> [] /\ Forall (fun s => statement_wf s = true) l).
Proof.
  assert (ok_st {| ps_pos := 0; ps_depth := 0 |}) as H0st.
  { destruct (lx_eof _ _ Hlex) as (body & Eb & _). unfold ok_st. rewrite Eb, length_app. cbn. lia. }
  unfold parse_script. apply runs_bind. eapply runs_mono; [|apply script_loop_ok; [done|done|unfold fuel; cbn; lia]].
  intros out st [Hout (Ho & _ & Hd)]. apply runs_bind, runs_kind; [done|]. intros t Ht. case_decide.
  { eapply runs_mono; [|by apply (spec_err 0 _ _ (fun _ => False))]. by intros a st' [[] _]. }
  case_bool_decide; [by left|]. by split.
Qed.
End spec.

(** C10: Parsing ends on every text without a panic.  What it accepts is one or
    more well-formed statements — integers of 64 bits, floats of their width,
    no empty list where the grammar asks for one, boolean nodes of two or more
    parts, trees no deeper than the nesting limit allows — and what it refuses
    it refuses at a character of the text. *)
Theorem parse_ok src :
  exists r, parse src = Some r /\
    match r with
    | Ok stmts => stmts <> [] /\ Forall (fun s => statement_wf s = true) stmts
    | Err e => at_char src (se_at e)
    end.
Proof.
  destruct (lex_ok src) as (r & El & Hr). unfold parse. rewrite El. destruct r as [toks|e]; [|by exists (Err e); split; [|apply Hr]].
  pose proof (script_ok src toks Hr) as Hs. unfold runs in Hs.
  destruct (parse_script src toks _) as [[[l st]|e]|]; [by exists (Ok l)| |done]. exists (Err e). split; [done|].
  destruct Hs as [->|(t & Ht & ->)]; [by exists [], src|].
  pose proof (lx_slices _ _ Hr) as Hsl. rewrite Forall_forall in Hsl. by apply Hsl.
Qed.
