(* ===== verification/SqlPrint.v ===== *)
(** * SqlPrint: writing statements, and lexing what was written

    A statement is written as a list of token texts, one space after each.
    [lex_render] shows that lexing the text gives those tokens back.  Field
    names are written quoted, numbers in decimal; the decimal text of a float
    is a parameter. *)
From S2P Require Import Prelude Floats TextPred Std Backend IndexCache Manifest Lease Rank SqlDate SqlLex SqlParse SqlParseOk.
#[local] Open Scope Z_scope.

Abbreviation vtok := (Kind * rstring)%type (only parsing).

(** The text of a token in a source, with its delimiters. *)
Definition render_tok (v : vtok) : rstring :=
  match v.1 with
  | KQuotedIdent => [34%N] ++ v.2 ++ [34%N]
  | KStr => [39%N] ++ v.2 ++ [39%N]
  | _ => v.2
  end.
Definition render (ts : list vtok) : rstring := mjoin (map (fun v => render_tok v ++ [32%N]) ts).

Fixpoint escape_string (s : rstring) : rstring :=
  match s with
  | [] => []
  | c :: s' => if (c =? 39)%N then 39%N :: 39%N :: escape_string s' else c :: escape_string s'
  end.

Lemma unescape_escape s : unescape_string (escape_string s) = s.
Proof.
  induction s as [|c s IH]; [done|]. cbn [escape_string]. destruct (N.eqb_spec c 39) as [->|Hc].
  - cbn [unescape_string]. by rewrite IH.
  - destruct s as [|c' s]; [done|]. destruct (escape_string (c' :: s)) as [|x l] eqn:E.
    { cbn in E. by destruct (c' =? 39)%N. }
    change (unescape_string (c :: x :: l)) with
      (if (c =? 39)%N && (x =? 39)%N then 39%N :: unescape_string l else c :: unescape_string (x :: l)).
    rewrite (proj2 (N.eqb_neq _ _) Hc). cbn [andb]. by rewrite IH.
Qed.

(** The texts that lex as a token of their kind. *)
Definition ident_text (w : rstring) : bool :=
  match w with c :: w' => is_ident_start (Z.of_N c) && forallb (fun c => is_ident_body (Z.of_N c)) w' | [] => false end.
Definition SYMBOLS : list (Kind * rstring) :=
  Eval vm_compute in map (fun kw => (kw.1, lit kw.2))
    [(KStar, "*"); (KLParen, "("); (KRParen, ")"); (KLBracket, "["); (KRBracket, "]"); (KComma, ","); (KSemicolon, ";");
     (KMinus, "-"); (KEq, "="); (KNe, "!="); (KLt, "<"); (KLe, "<="); (KGt, ">"); (KGe, ">="); (KTilde, "~")]%string.
(** Digits, or digits on both sides of a point. *)
Definition number_text (k : Kind) (w : rstring) : bool :=
  let '(a, r) := split_digits w in
  nonempty a &&
  match k, r with
  | KInt, [] => true
  | KFloat, c :: b => (c =? 46)%N && nonempty b && forallb is_ascii_digit b
  | _, _ => false
  end.
Definition vtok_ok (v : vtok) : bool :=
  match v.1 with
  | KQuotedIdent => negb (bool_decide (34%N ∈ v.2))
  | KStr => bool_decide (escape_string (unescape_string v.2) = v.2)
  | KInt | KFloat => number_text v.1 v.2
  | KEof => false
  | k =>
      if bool_decide (k ∈ map fst SYMBOLS) then bool_decide ((k, v.2) ∈ SYMBOLS)
      else ident_text v.2 && bool_decide (default KIdent (keyword (str_to_lower v.2)) = k)
  end.

(** ** Lexing one written token *)

(** [n] bytes are taken as a token of kind [k] with text [w]. *)
Definition one_token (v : vtok) : Prop :=
  forall rest i, exists b bs t, as_bytes (render_tok v ++ 32%N :: rest) = b :: bs /\
    lex_one b bs i = Ok (str_len (render_tok v), Some t) /\ tk_kind t = v.1 /\
    exists a z, render_tok v = a ++ v.2 ++ z /\ tk_text t = (i + str_len a, i + str_len (a ++ v.2))%nat.

Lemma byte_char c : (c < 128)%N -> utf8_char c = [Z.of_N c].
Proof. intros Hc. unfold utf8_char. cbv zeta. by rewrite (proj2 (Z.ltb_lt _ _)) by lia. Qed.

Lemma as_bytes_ascii s : Forall (fun c => (c < 128)%N) s -> as_bytes s = map Z.of_N s /\ str_len s = length s.
Proof.
  induction 1 as [|c s Hc _ [IH IHl]]; [done|]. rewrite as_bytes_cons, byte_char, IH by done. split; [done|].
  rewrite str_len_cons, IHl. unfold len_utf8. by rewrite (proj2 (N.ltb_lt _ _)) by lia.
Qed.

Lemma run_length_app p a b rest :
  Forall (fun x => p x = true) a -> p b = false -> run_length p (a ++ b :: rest) = length a.
Proof. intros Ha Hb. induction Ha as [|x a Hx _ IH]; cbn; [by rewrite Hb|]. by rewrite Hx, IH. Qed.

Lemma ident_facts w :
  ident_text w = true ->
  exists c w', w = c :: w' /\ is_ident_start (Z.of_N c) = true /\
    Forall (fun b => is_ident_body b = true) (map Z.of_N w') /\ Forall (fun c => (c < 128)%N) w.
Proof.
  destruct w as [|c w]; [done|]. cbn. intros [Hc Hw]%andb_prop. exists c, w.
  assert (Forall (fun c => is_ident_body (Z.of_N c) = true) w) as Hb.
  { apply Forall_forall. intros x Hx. rewrite forallb_forall in Hw. apply Hw. by apply list_elem_of_In. }
  split_and!; [done|done|by apply Forall_map|]. constructor.
  - apply start_ascii in Hc. unfold ascii_byte in Hc. lia.
  - eapply Forall_impl; [exact Hb|]. intros x Hx%body_ascii. unfold ascii_byte in Hx. cbn in *. lia.
Qed.

Lemma start_not_other b :
  is_ident_start b = true ->
  is_space b = false /\ single b = None /\ is_byte "!" b = false /\ is_byte "<" b = false /\ is_byte ">" b = false /\
  b <> 39 /\ b <> 34 /\ digit_byte b = false.
Proof.
  intros H. assert (65 <= b <= 90 \/ 97 <= b <= 122 \/ b = 95) as Hr.
  { unfold is_ident_start, alpha_byte, is_byte in H.
    repeat match goal with H : _ || _ = true |- _ => apply orb_prop in H as [H|H] end; bdestr; [lia|lia|].
    right. right. by subst b. }
  split_and!.
  - unfold is_space. rewrite !(proj2 (Z.eqb_neq _ _)) by lia. done.
  - unfold single. destruct (list_find _ _) as [[j [a k]]|] eqn:E; [|done].
    apply list_find_Some in E as (Hj & Hb & _). cbn in Hb. exfalso. subst b.
    do 10 (destruct j as [|j]; [injection Hj as <- <-; vm_compute in Hr; naive_solver lia|]). done.
  - apply Z.eqb_neq. change (byte_of "!") with 33. lia.
  - apply Z.eqb_neq. change (byte_of "<") with 60. lia.
  - apply Z.eqb_neq. change (byte_of ">") with 62. lia.
  - lia.
  - lia.
  - unfold digit_byte. destruct (48 <=? b) eqn:E; [|done]. cbn. apply Z.leb_gt. lia.
Qed.

Lemma to_of_N w : map Z.to_N (map Z.of_N w) = w.
Proof. rewrite map_map. rewrite <- (map_id w) at 2. apply map_ext. intros c. apply N2Z.id. Qed.

Lemma one_ident k w :
  ident_text w = true -> default KIdent (keyword (str_to_lower w)) = k -> one_token (k, w).
Proof.
  intros Hw Hk rest i. destruct (ident_facts w Hw) as (c & w' & Ew & Hc & Hb & Ha).
  assert (render_tok (k, w) = w) as Er.
  { unfold render_tok. cbn. pose proof (keyword_not_eof (str_to_lower w)). destruct k; try done.
    all: exfalso; revert Hk; clear; unfold keyword.
    all: assert (forall l, Forall (fun wk : rstring * Kind => wk.2 <> KQuotedIdent /\ wk.2 <> KStr) l ->
           default KIdent (assoc_str (str_to_lower w) l) <> KQuotedIdent /\ default KIdent (assoc_str (str_to_lower w) l) <> KStr) as H
         by (intros l; induction 1 as [|[x a] l Ha _ IH]; [done|]; cbn; by case_bool_decide).
    all: destruct (H KEYWORDS) as [H1 H2]; [unfold KEYWORDS; repeat constructor; done|congruence]. }
  rewrite Er. subst w. cbn [fst snd]. destruct (as_bytes_ascii _ Ha) as [Eb El].
  change ((c :: w') ++ 32%N :: rest) with (c :: (w' ++ 32%N :: rest)).
  exists (Z.of_N c), (as_bytes (w' ++ 32%N :: rest)). apply Forall_cons in Ha as [Hc128 Ha].
  destruct (as_bytes_ascii w' Ha) as [Eb' El'].
  rewrite as_bytes_cons, byte_char by done. destruct (start_not_other _ Hc) as (H1 & H2 & H3 & H4 & H5 & H6 & H7 & H8).
  eexists. split; [done|]. unfold lex_one. rewrite H1, H2, H3, H4, H5, (proj2 (Z.eqb_neq _ _) H6), (proj2 (Z.eqb_neq _ _) H7), H8, Hc.
  rewrite as_bytes_app, Eb'. change (as_bytes (32%N :: rest)) with (32 :: as_bytes rest).
  rewrite run_length_app by done. rewrite length_map.
  change (take (S (length w')) (Z.of_N c :: map Z.of_N w' ++ 32 :: as_bytes rest))
    with (Z.of_N c :: take (length w') (map Z.of_N w' ++ 32 :: as_bytes rest)).
  rewrite (take_app_length' _ _ (length w')) by (by rewrite length_map).
  change (map Z.to_N (Z.of_N c :: map Z.of_N w')) with (map Z.to_N (map Z.of_N (c :: w'))). rewrite to_of_N, Hk.
  rewrite El. cbn [length]. split; [done|]. split; [done|]. exists [], []. rewrite app_nil_r. split; [done|].
  cbn [app tk_text]. rewrite El. f_equal. cbn. lia.
Qed.

Lemma skip_char {A} (f : bytes -> nat -> A) (x : Z) c l i :
  (forall b l i, b <> x -> f (b :: l) i = f l (i + 1)%nat) -> 0 <= x < 128 -> c <> Z.to_N x ->
  f (utf8_char c ++ l) i = f l (i + len_utf8 c)%nat.
Proof.
  intros Hf Hx Hc. destruct (utf8_char_cases c) as [[Ec Hlt]|[Hge _]].
  - rewrite Ec. cbn [app]. rewrite Hf by lia. unfold len_utf8. by rewrite (proj2 (N.ltb_lt _ _)) by lia.
  - rewrite <- length_utf8_char. revert i Hge. generalize (utf8_char c). intros u. induction u as [|b u IH]; intros i Hge.
    { cbn. by rewrite Nat.add_0_r. }
    apply Forall_cons in Hge as [Hb Hge]. cbn [app length]. rewrite Hf by lia. rewrite IH by done. f_equal. lia.
Qed.

Lemma quoted_end_escape s rest i :
  quoted_end (as_bytes (escape_string s ++ 39%N :: 32%N :: rest)) i = Some (i + str_len (escape_string s))%nat.
Proof.
  revert i. induction s as [|c s IH]; intros i; cbn [escape_string].
  { cbn. f_equal. lia. }
  destruct (N.eqb_spec c 39) as [->|Hc].
  - change (as_bytes ((39%N :: 39%N :: escape_string s) ++ 39%N :: 32%N :: rest))
      with (39 :: 39 :: as_bytes (escape_string s ++ 39%N :: 32%N :: rest)). cbn [quoted_end]. cbn [Z.eqb Pos.eqb].
    rewrite IH, !str_len_cons. f_equal. cbn. lia.
  - cbn [app]. rewrite as_bytes_cons, (skip_char quoted_end 39); [|intros b l j Hb%Z.eqb_neq; cbn [quoted_end]; by rewrite Hb|lia|done].
    rewrite IH, str_len_cons. f_equal. lia.
Qed.

Lemma find_byte_quote w rest i :
  34%N ∉ w -> find_byte 34 (as_bytes (w ++ 34%N :: rest)) i = Some (i + str_len w)%nat.
Proof.
  revert i. induction w as [|c w IH]; intros i Hw; [cbn; f_equal; lia|]. apply not_elem_of_cons in Hw as [Hc Hw].
  cbn [app]. rewrite as_bytes_cons, (skip_char (find_byte 34) 34); [|intros b l j Hb%Z.eqb_neq; cbn [find_byte]; by rewrite Hb|lia|done].
  rewrite IH, str_len_cons by done. f_equal. lia.
Qed.

(** A delimited token. *)
Lemma one_delimited k (d : N) w :
  render_tok (k, w) = [d] ++ w ++ [d] ->
  (forall rest i, exists bs, as_bytes ((d :: w ++ [d]) ++ 32%N :: rest) = Z.of_N d :: bs /\ lex_one (Z.of_N d) bs i = Ok ((i + 1 + str_len w + 1 - i)%nat,
       Some {| tk_kind := k; tk_at := i; tk_text := (i + 1, i + 1 + str_len w)%nat |})) ->
  (d < 128)%N -> one_token (k, w).
Proof.
  intros Er Hlex Hd rest i. destruct (Hlex rest i) as (bs & Eb & El). rewrite Er. cbn [app fst snd].
  assert (len_utf8 d = 1%nat) as E1 by (unfold len_utf8; by rewrite (proj2 (N.ltb_lt _ _))).
  eexists _, bs, {| tk_kind := k; tk_at := i; tk_text := (i + 1, i + 1 + str_len w)%nat |}.
  split; [exact Eb|]. rewrite El. split; [|split; [done|]].
  - do 2 f_equal. rewrite str_len_cons, str_len_app, str_len_cons, E1. cbn. lia.
  - exists [d], [d]. split; [done|]. cbn [tk_text app]. rewrite !str_len_cons, E1. cbn [str_len map list_sum foldr].
    f_equal; lia.
Qed.

Lemma one_str w : escape_string (unescape_string w) = w -> one_token (KStr, w).
Proof.
  intros Ew. apply (one_delimited _ 39%N); [done| |done]. intros rest i. eexists. split.
  { cbn [app]. rewrite <- app_assoc. cbn [app]. by rewrite as_bytes_cons. }
  unfold lex_one. cbn [Z.of_N]. change (is_space 39) with false. change (single 39) with (@None Kind).
  change (is_byte "!" 39) with false. change (is_byte "<" 39) with false. change (is_byte ">" 39) with false.
  change (39 =? 39) with true. cbv beta iota zeta. rewrite <- Ew at 1. rewrite quoted_end_escape, Ew. done.
Qed.

Lemma one_quoted w : 34%N ∉ w -> one_token (KQuotedIdent, w).
Proof.
  intros Hw. apply (one_delimited _ 34%N); [done| |done]. intros rest i. eexists. split.
  { cbn [app]. rewrite <- app_assoc. cbn [app]. by rewrite as_bytes_cons. }
  unfold lex_one. cbn [Z.of_N]. change (is_space 34) with false. change (single 34) with (@None Kind).
  change (is_byte "!" 34) with false. change (is_byte "<" 34) with false. change (is_byte ">" 34) with false.
  change (34 =? 39) with false. change (34 =? 34) with true. cbv beta iota zeta. by rewrite find_byte_quote.
Qed.

Lemma one_symbol k w : (k, w) ∈ SYMBOLS -> one_token (k, w).
Proof.
  intros Hin. unfold SYMBOLS in Hin.
  repeat (apply elem_of_cons in Hin as [[= -> ->]|Hin];
    [intros rest i; eexists _, _, _; (split; [reflexivity|]); (split; [reflexivity|]); (split; [reflexivity|]);
     exists [], []; split; [reflexivity|]; cbn; f_equal; lia|]).
  by apply elem_of_nil in Hin.
Qed.

Lemma split_digits_spec s a r :
  split_digits s = (a, r) -> s = a ++ r /\ forallb is_ascii_digit a = true.
Proof.
  revert a r. induction s as [|c s IH]; intros a r; cbn [split_digits]; [by intros [= <- <-]|].
  destruct (is_ascii_digit c) eqn:Ec; [|by intros [= <- <-]].
  destruct (split_digits s) as [a' r'] eqn:E. intros [= <- <-]. destruct (IH _ _ eq_refl) as [-> Ha].
  cbn. by rewrite Ec, Ha.
Qed.

Lemma digit_bytes a : forallb is_ascii_digit a = true ->
  Forall (fun b => digit_byte b = true) (map Z.of_N a) /\ Forall (fun c => (c < 128)%N) a.
Proof.
  induction a as [|c a IH]; [by split|]. cbn [forallb map]. intros [Hc [H1 H2]%IH]%andb_prop.
  unfold is_ascii_digit in Hc. bdestr. split; constructor; try done; [|lia].
  unfold digit_byte. by rewrite (proj2 (Z.leb_le _ _)), (proj2 (Z.leb_le _ _)) by lia.
Qed.

Lemma lex_number_int a rest :
  forallb is_ascii_digit a = true -> lex_number (map Z.of_N a ++ 32 :: rest) = (KInt, length a).
Proof.
  intros Ha. destruct (digit_bytes a Ha) as [Hd _]. unfold lex_number. rewrite run_length_app, length_map by done.
  unfold lex_fraction. rewrite (drop_app_length' _ _ (length a)) by (by rewrite length_map). cbn [next_is andb].
  change (is_byte "." 32) with false. cbn [andb]. unfold lex_exponent. cbn [snd].
  rewrite (drop_app_length' _ _ (length a)) by (by rewrite length_map). done.
Qed.

Lemma lex_number_float a b rest :
  forallb is_ascii_digit a = true -> forallb is_ascii_digit b = true -> b <> [] ->
  lex_number (map Z.of_N (a ++ 46%N :: b) ++ 32 :: rest) = (KFloat, length (a ++ 46%N :: b)).
Proof.
  intros Ha Hb Hne. destruct (digit_bytes a Ha) as [Hda _], (digit_bytes b Hb) as [Hdb _].
  rewrite map_app. change (map Z.of_N (46%N :: b)) with (46 :: map Z.of_N b). rewrite <- app_assoc. cbn [app].
  unfold lex_number. rewrite run_length_app, length_map by done. unfold lex_fraction.
  rewrite (drop_app_length' _ _ (length a)) by (by rewrite length_map). cbn [next_is drop].
  change (is_byte "." 46) with true. rewrite drop_0. cbn [andb].
  assert (next_is digit_byte (map Z.of_N b ++ 32 :: rest) = true) as ->.
  { destruct b as [|c b]; [done|]. by apply Forall_cons in Hdb as [Hc _]. }
  rewrite run_length_app, length_map by done. unfold lex_exponent. cbn [snd].
  replace (drop (length a + (1 + length b)) (map Z.of_N a ++ 46 :: map Z.of_N b ++ 32 :: rest)) with (32 :: rest).
  - cbn [next_is fst]. change (is_byte "e" 32 || is_byte "E" 32) with false. cbn. rewrite length_app. done.
  - rewrite drop_app_ge by (rewrite length_map; lia). rewrite length_map.
    replace (length a + (1 + length b) - length a)%nat with (S (length b)) by lia. cbn [drop].
    symmetry. apply drop_app_length'. by rewrite length_map.
Qed.

Lemma digit_not_other b :
  digit_byte b = true ->
  is_space b = false /\ single b = None /\ is_byte "!" b = false /\ is_byte "<" b = false /\ is_byte ">" b = false /\
  b <> 39 /\ b <> 34.
Proof.
  unfold digit_byte. intros H. bdestr. split_and!.
  - unfold is_space. rewrite !(proj2 (Z.eqb_neq _ _)) by lia. done.
  - unfold single. destruct (list_find _ _) as [[j [a k]]|] eqn:E; [|done].
    apply list_find_Some in E as (Hj & Hb & _). cbn in Hb. exfalso. subst b.
    do 10 (destruct j as [|j]; [injection Hj as <- <-; vm_compute in H, H0; congruence|]). done.
  - apply Z.eqb_neq. change (byte_of "!") with 33. lia.
  - apply Z.eqb_neq. change (byte_of "<") with 60. lia.
  - apply Z.eqb_neq. change (byte_of ">") with 62. lia.
  - lia.
  - lia.
Qed.

Lemma one_number k w : k = KInt \/ k = KFloat -> number_text k w = true -> one_token (k, w).
Proof.
  intros Hk Hw rest i. unfold number_text in Hw. destruct (split_digits w) as [a r] eqn:Es.
  apply split_digits_spec in Es as [-> Ha]. apply andb_prop in Hw as [Hne Hr].
  destruct a as [|c a]; [done|]. clear Hne.
  assert (Forall (fun c => (c < 128)%N) ((c :: a) ++ r) /\
    lex_number (as_bytes ((c :: a) ++ r) ++ 32 :: as_bytes rest) = (k, length ((c :: a) ++ r))) as [Hasc Hlex].
  { destruct (digit_bytes (c :: a) Ha) as [_ Hl]. destruct Hk as [-> | ->].
    - destruct r; [|done]. rewrite app_nil_r. split; [done|]. destruct (as_bytes_ascii _ Hl) as [-> _]. by apply lex_number_int.
    - destruct r as [|x b]; [done|]. apply andb_prop in Hr as [[Hx Hb]%andb_prop Hbd]. apply N.eqb_eq in Hx as ->.
      destruct (digit_bytes b Hbd) as [_ Hlb]. assert (Forall (fun c => (c < 128)%N) ((c :: a) ++ 46%N :: b)) as Hall.
      { apply Forall_app. split; [done|]. constructor; [done|done]. }
      split; [done|]. destruct (as_bytes_ascii _ Hall) as [-> _]. apply lex_number_float; [done|done|by destruct b]. }
  assert (render_tok (k, (c :: a) ++ r) = (c :: a) ++ r) as Er by by destruct Hk as [-> | ->].
  rewrite Er. set (w := (c :: a) ++ r) in *. destruct (as_bytes_ascii w Hasc) as [Eb El].
  assert (digit_byte (Z.of_N c) = true) as Hc by (destruct (digit_bytes (c :: a) Ha) as [H _]; by apply Forall_cons in H as [? _]).
  exists (Z.of_N c), (map Z.of_N (a ++ r) ++ 32 :: as_bytes rest), {| tk_kind := k; tk_at := i; tk_text := (i, i + length w)%nat |}.
  assert (as_bytes (w ++ 32%N :: rest) = Z.of_N c :: map Z.of_N (a ++ r) ++ 32 :: as_bytes rest) as Eall.
  { rewrite as_bytes_app, Eb. done. }
  split; [exact Eall|]. destruct (digit_not_other _ Hc) as (H1 & H2 & H3 & H4 & H5 & H6 & H7).
  unfold lex_one. rewrite H1, H2, H3, H4, H5, (proj2 (Z.eqb_neq _ _) H6), (proj2 (Z.eqb_neq _ _) H7), Hc.
  rewrite <- Eall, as_bytes_app. change (as_bytes (32%N :: rest)) with (32 :: as_bytes rest). rewrite Hlex.
  rewrite (drop_app_length' _ _ (length w)) by (by rewrite Eb, length_map). cbn [next_is].
  change (is_ident_start 32) with false. cbv iota. rewrite El. split; [done|]. split; [done|].
  exists [], []. rewrite app_nil_r. split; [done|]. cbn [app tk_text snd]. rewrite El. f_equal. cbn. lia.
Qed.

Lemma one_token_ok v : vtok_ok v = true -> one_token v.
Proof.
  destruct v as [k w]. intros Hv. unfold vtok_ok in Hv. cbn [fst snd] in Hv.
  assert (forall k, (if bool_decide (k ∈ map fst SYMBOLS) then bool_decide ((k, w) ∈ SYMBOLS)
      else ident_text w && bool_decide (default KIdent (keyword (str_to_lower w)) = k)) = true -> one_token (k, w)) as Hrest.
  { intros k0. destruct (bool_decide (k0 ∈ map fst SYMBOLS)); [intros Hs%bool_decide_eq_true; by apply one_symbol|].
    intros [Hi Hk%bool_decide_eq_true]%andb_prop. by apply one_ident. }
  destruct k; try (by apply Hrest).
  - apply one_quoted. by apply negb_true_iff, bool_decide_eq_false in Hv.
  - apply one_str. by apply bool_decide_eq_true in Hv.
  - apply one_number; auto.
  - apply one_number; auto.
Qed.

(** ** Lexing a written text *)

(** The token read at a place of the source. *)
Definition view (src : rstring) (t : Token) (v : vtok) : Prop := tk_kind t = v.1 /\ token_text src t = Some v.2.

Lemma lex_loop_render src ts : forall fuel p i,
  src = p ++ render ts -> i = str_len p -> (length (as_bytes (render ts)) < fuel)%nat ->
  Forall (fun v => vtok_ok v = true) ts ->
  exists toks, lex_loop fuel (as_bytes (render ts)) i = Some (Ok toks) /\
    Forall2 (view src) toks (ts ++ [(KEof, [])]).
Proof.
  induction ts as [|v ts IH]; intros fuel p i Hsrc Hi Hf Hok.
  { destruct fuel as [|fuel]; [cbn in Hf; lia|]. eexists. split; [done|]. constructor; [|constructor]. split; [done|].
    apply str_slice_Some. cbn in Hsrc. rewrite app_nil_r in Hsrc. subst. exists p, []. by rewrite !app_nil_r. }
  apply Forall_cons in Hok as [Hv Hok]. change (render (v :: ts)) with ((render_tok v ++ [32%N]) ++ render ts) in *.
  rewrite <- app_assoc in *. cbn [app] in *.
  destruct (one_token_ok v Hv (render ts) i) as (b & bs & t & Eb & El & Ek & a & z & Er & Et).
  pose proof Hf as Hf'. rewrite as_bytes_app, length_app in Hf'. rewrite as_bytes_cons, length_app in Hf'.
  change (length (utf8_char 32)) with 1%nat in Hf'.
  pose proof (lex_one_ok _ _ _ i Eb) as Hpos. rewrite El in Hpos. destruct Hpos as (_ & _ & _ & _ & Hpos & _).
  rewrite length_as_bytes in Hf'. destruct fuel as [|[|fuel]]; [lia|lia|]. cbn [lex_loop]. rewrite Eb, El, <- Eb.
  rewrite as_bytes_app, (drop_app_length' _ _ (str_len (render_tok v))) by (by rewrite length_as_bytes).
  change (as_bytes (32%N :: render ts)) with (32 :: as_bytes (render ts)). cbn [lex_loop].
  change (lex_one 32 (as_bytes (render ts)) (i + str_len (render_tok v))) with (@Ok SqlError _ (1%nat, @None Token)). cbv iota beta.
  cbn [drop]. rewrite drop_0.
  destruct (IH fuel (p ++ render_tok v ++ [32%N]) (i + str_len (render_tok v) + 1)%nat) as (toks & -> & Hall); [..|done|].
  - rewrite Hsrc, <- !app_assoc. done.
  - rewrite !str_len_app. cbn. lia.
  - lia.
  - cbn. eexists. split; [done|]. constructor; [|exact Hall]. split; [done|]. unfold token_text. rewrite Et. cbn [fst snd].
    apply str_slice_Some. exists (p ++ a), (z ++ 32%N :: render ts). rewrite Hsrc, Er, Hi, !str_len_app, <- !app_assoc.
    split_and!; [done|done|lia].
Qed.

Lemma lex_render ts :
  Forall (fun v => vtok_ok v = true) ts ->
  exists toks, lex (render ts) = Some (Ok toks) /\ Forall2 (view (render ts)) toks (ts ++ [(KEof, [])]).
Proof. intros Hok. apply (lex_loop_render (render ts) ts _ [] 0); [done|done|lia|done]. Qed.
