(* ===== verification/SqlRound.v ===== *)
(** * SqlRound: a statement written out parses back

    [print_script] writes statements; [parse_print] shows that parsing the
    text gives the statements back, up to the byte offsets kept for error
    messages.  The decimal texts of floats are a parameter, and a statement
    is printable when the text of each of its floats reads back. *)
From S2P Require Import Prelude Floats TextPred Std Backend IndexCache Manifest Lease Rank SqlDate SqlLex SqlParse SqlParseOk SqlPrint.

(** ** Writing *)

(** The digits of a non-negative number, for both widths. *)
Class FloatText := { f64_text : f64 -> rstring; f32_text : f32 -> rstring }.

Definition word (k : Kind) (s : String.string) : vtok := (k, lit s).
Definition p_comma : vtok := word KComma ",".
Definition p_open : vtok := word KLParen "(".
Definition p_close : vtok := word KRParen ")".
Definition p_minus : vtok := word KMinus "-".
Definition p_field (f : rstring) : list vtok := [(KQuotedIdent, f)].
Definition p_str (s : rstring) : list vtok := [(KStr, escape_string s)].
Definition paren (ts : list vtok) : list vtok := [p_open] ++ ts ++ [p_close].
(** The items with [sep] between them. *)
Definition p_list (sep : vtok) (items : list (list vtok)) : list vtok :=
  match items with [] => [] | x :: xs => x ++ mjoin (map (cons sep) xs) end.

Definition p_int (n : Z) : list vtok :=
  (if (n <? 0)%Z then [p_minus] else []) ++ [(KInt, u64_to_string (Z.abs_N n))].

Section print.
Context `{FloatText}.

Definition f64_neg (x : f64) : bool := (2 ^ 63 <=? x)%Z.
Definition f32_neg (x : f32) : bool := (2 ^ 31 <=? x)%Z.
Definition p_f64 (x : f64) : list vtok :=
  if f64_neg x then [p_minus; (KFloat, f64_text x)] else [(KFloat, f64_text x)].
Definition p_f32 (x : f32) : list vtok :=
  if f32_neg x then [p_minus; (KFloat, f32_text x)] else [(KFloat, f32_text x)].

Definition p_lit (l : Lit) : list vtok :=
  match l with
  | LInt n => p_int n
  | LDateTime n => [word KIdent "timestamp"] ++ p_int n
  | LFloat x => p_f64 x
  | LStr s => p_str s
  | LBool b => [if b then word KTrue "TRUE" else word KFalse "FALSE"]
  | LNull => [word KNull "NULL"]
  end.

Definition p_call (name : String.string) (args : list (list vtok)) : list vtok :=
  [word KIdent name] ++ paren (p_list p_comma args).
Definition p_op (op : CmpOp) : vtok :=
  match op with
  | CEq => word KEq "=" | CNe => word KNe "!=" | CLt => word KLt "<" | CLe => word KLe "<="
  | CGt => word KGt ">" | CGe => word KGe ">="
  end.
Definition p_lits (vs : list Lit) : list vtok := paren (p_list p_comma (map p_lit vs)).

Definition is_leaf (p : PredNode) : bool := match p with NAny _ | NAll _ | NNot _ => false | _ => true end.
Definition is_not (p : PredNode) : bool := match p with NNot _ => true | _ => false end.
Definition wrap (p : PredNode) (ts : list vtok) : list vtok := if is_leaf p then ts else paren ts.

Fixpoint p_pred (p : PredNode) : list vtok :=
  match p with
  | NAny items => p_list (word KOr "OR") (map (fun q => if is_not q then p_pred q else wrap q (p_pred q)) items)
  | NAll items => p_list (word KAnd "AND") (map (fun q => if is_not q then p_pred q else wrap q (p_pred q)) items)
  | NNot q => [word KNot "NOT"] ++ wrap q (p_pred q)
  | NCmp f op v => p_field f ++ [p_op op] ++ p_lit v
  | NIn f neg vs => p_field f ++ (if neg then [word KNot "NOT"] else []) ++ [word KIn "IN"] ++ p_lits vs
  | NLike f neg s => p_field f ++ (if neg then [word KNot "NOT"] else []) ++ [word KLike "LIKE"] ++ p_str s
  | NILike f s => p_field f ++ [word KIlike "ILIKE"] ++ p_str s
  | NRegex f s => p_field f ++ [word KTilde "~"] ++ p_str s
  | NContains f v => p_call "contains" [p_field f; p_lit v]
  | NNotContains f v => p_call "not_contains" [p_field f; p_lit v]
  | NContainsAny f vs => p_call "contains_any" (p_field f :: map p_lit vs)
  | NFuzzy f s n _ => p_call "fuzzy" [p_field f; p_str s; p_int n]
  | NMatchAll f s => p_call "match_all" [p_field f; p_str s]
  | NMatchAny f s => p_call "match_any" [p_field f; p_str s]
  | NPhrase f s => p_call "phrase" [p_field f; p_str s]
  end.
(** An item of a conjunction or disjunction. *)
Definition p_item (q : PredNode) : list vtok := if is_not q then p_pred q else wrap q (p_pred q).

(** How deeply its parentheses nest. *)
Fixpoint p_depth (p : PredNode) : nat :=
  match p with
  | NAny items | NAll items => list_max (map (fun q => if is_not q || is_leaf q then p_depth q else S (p_depth q)) items)
  | NNot q => if is_leaf q then 0 else S (p_depth q)
  | _ => 0
  end.

Definition p_clause (c : ClauseLit) : list vtok :=
  p_field (cl_field c) ++ [p_comma] ++ p_str (cl_text c) ++ (if cl_prefix c then [word KPrefix "PREFIX"] else []).
Definition p_clauses (cs : list ClauseLit) : list vtok := p_list p_comma (map p_clause cs).
Definition p_vector (v : list f32) : list vtok :=
  [word KLBracket "["] ++ p_list p_comma (map p_f32 v) ++ [word KRBracket "]"].
Definition p_opt {A} (head : list vtok) (p : A -> list vtok) (o : option A) : list vtok :=
  match o with Some a => head ++ p a | None => [] end.
Definition p_decay (d : DecayLit) : list vtok :=
  [word KIdent "decay"] ++
  paren (p_field (dl_field d) ++ [p_comma] ++ p_int (dl_origin d) ++ [p_comma] ++ p_int (dl_scale d) ++
         p_opt [p_comma] (fun x => p_f32 x ++ p_opt [p_comma] p_f32 (dl_lambda d)) (dl_decay d)).
Definition p_ranking (r : Ranking) : list vtok :=
  match r with
  | RKnn v d _ => [word KIdent "knn"] ++ paren (p_vector v) ++ p_opt [p_minus] p_decay d
  | RMatch cs _ => [word KIdent "match"] ++ paren (p_clauses cs)
  | RHybrid v cs _ =>
      [word KIdent "knn"] ++ paren (p_vector v) ++ [word KFuse "FUSE"; word KIdent "match"] ++ paren (p_clauses cs)
  | RField f desc => p_field f ++ [if desc then word KDesc "DESC" else word KAsc "ASC"]
  end.

Definition p_any (a : AnyLit) : list vtok := match a with AVal l => p_lit l | AIdent s => p_field s end.
Definition p_arg (a : OptArg) : list vtok :=
  match a with OBare v => p_any v | OKeyed name v => p_field name ++ p_any v end.
Definition p_value (v : OptValue) : list vtok :=
  match v with
  | VFlag => []
  | VScalar a => [word KEq "="] ++ p_any a
  | VArgs args => [word KEq "="] ++ paren (p_list p_comma (map p_arg args))
  end.
Definition p_option (w : WithOption) : list vtok := [(KIdent, wo_name w)] ++ p_value (wo_value w).

Definition p_sum (f : rstring) : list vtok := [word KSum "SUM"] ++ paren (p_field f).
Definition p_fields (fs : list rstring) : list vtok := p_list p_comma (map p_field fs).
Definition p_select (s : Selection) : list vtok :=
  match s with
  | SelAll => [word KStar "*"]
  | SelAllExcept fs => [word KStar "*"; word KExcept "EXCEPT"] ++ paren (p_fields fs)
  | SelFields fs => p_fields fs
  | SelAggregates sums count =>
      p_list p_comma (map p_sum sums ++ if count then [[word KIdent "count"] ++ paren [word KStar "*"]] else [])
  end.
Definition p_from (fs : list rstring) : list vtok := match fs with [] => [word KStar "*"] | fs => p_fields fs end.
Definition p_group (g : rstring * list rstring) : list vtok :=
  [word KBy "BY"] ++ p_field g.1 ++ mjoin (map (fun f => p_comma :: p_sum f) g.2).
Definition p_withs (ws : list WithOption) : list vtok := paren (p_list p_comma (map p_option ws)).
Definition group_of (s : Statement) : option (rstring * list rstring) := (fun f => (f, sm_sums s)) <$> sm_group_by s.
Definition with_of (s : Statement) : option (list WithOption) := if nonempty (sm_with s) then Some (sm_with s) else None.

Definition p_statement (s : Statement) : list vtok :=
  [word KSelect "SELECT"] ++ p_select (sm_select s) ++
  [word KFrom "FROM"] ++ p_from (sm_from s) ++
  p_opt [word KWhere "WHERE"] p_pred (sm_filter s) ++
  p_opt [word KGroup "GROUP"] p_group (group_of s) ++
  p_opt [word KOrder "ORDER"] (fun r => [word KBy "BY"] ++ p_ranking r) (sm_order s) ++
  p_opt [word KLimit "LIMIT"] p_int (sm_limit s) ++
  p_opt [word KOffset "OFFSET"] p_int (sm_offset s) ++
  p_opt [word KWith "WITH"] p_withs (with_of s).

Definition print_script (stmts : list Statement) : rstring :=
  render (p_list (word KSemicolon ";") (map p_statement stmts)).

(** ** What can be written *)

Definition field_ok (f : rstring) : bool := negb (bool_decide (34%N ∈ f)).
(** [i64::MIN] has no literal: its digits overflow before the sign. *)
Definition int_ok (n : Z) : bool := ((- 2 ^ 63 <? n) && (n <? 2 ^ 63))%Z.
Definition f64_ok (x : f64) : bool :=
  number_text KFloat (f64_text x)
  && match parse_f64 (f64_text x) with
     | Some y => ((if f64_neg x then f64_opp y else y) =? x)%Z
     | None => false
     end.
Definition f32_ok (x : f32) : bool :=
  number_text KFloat (f32_text x)
  && match parse_f64 (f32_text x) with
     | Some y => (f32_of_f64 (if f32_neg x then f64_opp y else y) =? x)%Z
     | None => false
     end.
Definition lit_ok (l : Lit) : bool :=
  match l with LInt n | LDateTime n => int_ok n | LFloat x => f64_ok x | _ => true end.

Fixpoint pred_printable (p : PredNode) : bool :=
  match p with
  | NAny items | NAll items => forallb pred_printable items
  | NNot q => pred_printable q
  | NCmp f _ v | NContains f v | NNotContains f v => field_ok f && lit_ok v
  | NIn f _ vs | NContainsAny f vs => field_ok f && forallb lit_ok vs
  | NLike f _ _ | NILike f _ | NRegex f _ | NMatchAll f _ | NMatchAny f _ | NPhrase f _ => field_ok f
  | NFuzzy f _ n _ => field_ok f && int_ok n
  end.
Definition decay_ok (d : DecayLit) : bool :=
  field_ok (dl_field d) && int_ok (dl_origin d) && int_ok (dl_scale d)
  && opt_all f32_ok (dl_decay d) && opt_all f32_ok (dl_lambda d).
Definition ranking_ok (r : Ranking) : bool :=
  match r with
  | RKnn v d _ => forallb f32_ok v && opt_all decay_ok d
  | RMatch cs _ => forallb (fun c => field_ok (cl_field c)) cs
  | RHybrid v cs _ => forallb f32_ok v && forallb (fun c => field_ok (cl_field c)) cs
  | RField f _ => field_ok f
  end.
(** A timestamp cannot be an option's value: its first word reads as a name. *)
Definition any_ok (a : AnyLit) : bool :=
  match a with AVal (LDateTime _) => false | AVal l => lit_ok l | AIdent s => field_ok s end.
Definition arg_ok (a : OptArg) : bool :=
  match a with OBare v => any_ok v | OKeyed name v => field_ok name && any_ok v end.
Definition value_ok (v : OptValue) : bool :=
  match v with VFlag => true | VScalar a => any_ok a | VArgs args => forallb arg_ok args end.
Definition option_ok (w : WithOption) : bool := vtok_ok (KIdent, wo_name w) && value_ok (wo_value w).
Definition select_ok (s : Selection) : bool :=
  match s with
  | SelAll => true
  | SelAllExcept fs | SelFields fs => forallb field_ok fs
  | SelAggregates sums _ => forallb field_ok sums
  end.
Definition printable (s : Statement) : bool :=
  select_ok (sm_select s) && forallb field_ok (sm_from s)
  && opt_all (fun p => pred_printable p && (p_depth p <=? MAX_NEST_DEPTH)%nat) (sm_filter s)
  && opt_all field_ok (sm_group_by s) && forallb field_ok (sm_sums s) && opt_all ranking_ok (sm_order s)
  && opt_all int_ok (sm_limit s) && opt_all int_ok (sm_offset s) && forallb option_ok (sm_with s).

(** ** The same statement, wherever it was read *)

Fixpoint unplaced_pred (p : PredNode) : PredNode :=
  match p with
  | NAny items => NAny (map unplaced_pred items)
  | NAll items => NAll (map unplaced_pred items)
  | NNot q => NNot (unplaced_pred q)
  | NFuzzy f s n _ => NFuzzy f s n 0
  | p => p
  end.
Definition unplaced_ranking (r : Ranking) : Ranking :=
  match r with
  | RKnn v d _ => RKnn v d 0
  | RMatch cs _ => RMatch cs 0
  | RHybrid v cs _ => RHybrid v cs 0
  | RField f desc => RField f desc
  end.
Definition unplaced_option (w : WithOption) : WithOption :=
  {| wo_name := wo_name w; wo_name_at := 0; wo_value := wo_value w |}.
Definition unplaced (s : Statement) : Statement :=
  {| sm_at := 0; sm_select := sm_select s; sm_from := sm_from s; sm_filter := unplaced_pred <$> sm_filter s;
     sm_group_by := sm_group_by s; sm_sums := sm_sums s; sm_order := unplaced_ranking <$> sm_order s;
     sm_limit := sm_limit s; sm_offset := sm_offset s; sm_with := map unplaced_option (sm_with s) |}.
End print.

(** ** Productions on written tokens

    [parses d p ts P F]: where the tokens [ts] stand, and what follows them
    satisfies [F], the production [p] reads exactly [ts] at depth [d] and
    returns something in [P]. *)
Section parses.
Context (src : rstring) (toks : list Token).

Definition sees (st : pstate) (vs : list vtok) : Prop := Forall2 (view src) (drop (ps_pos st) toks) vs.

Definition parses {A} (d : nat) (p : PM A) (ts : list vtok) (P : A -> Prop) (F : list vtok -> Prop) : Prop :=
  forall st rest, sees st (ts ++ rest) -> rest <> [] -> ps_depth st = d -> F rest ->
    exists a st', p st = Some (Ok (a, st')) /\ P a /\ sees st' rest /\ ps_depth st' = d.

Definition anything (rest : list vtok) : Prop := True.
(** The next token has none of these kinds. *)
Definition next_not (ks : list Kind) (rest : list vtok) : Prop :=
  match rest with v :: _ => v.1 ∉ ks | [] => True end.

Lemma parses_bind {A B} d (p : PM A) (f : A -> PM B) ts us P Q F G :
  parses d p ts P F -> (forall a, P a -> parses d (f a) us Q G) -> (forall rest, G rest -> F (us ++ rest)) ->
  parses d (p ≫= f) (ts ++ us) Q G.
Proof.
  intros Hp Hf HF st rest Hs Hne Hd HG. rewrite <- app_assoc in Hs.
  destruct (Hp st (us ++ rest) Hs) as (a & st1 & E1 & Ha & Hs1 & Hd1); [by destruct us|done|by apply HF|].
  destruct (Hf a Ha st1 rest Hs1 Hne Hd1 HG) as (b & st2 & E2 & Hb & Hs2 & Hd2).
  exists b, st2. split_and!; [|done..]. unfold mbind, PM_bind. by rewrite E1.
Qed.

Lemma parses_ret {A} d (a : A) (P : A -> Prop) F : P a -> parses d (mret a) [] P F.
Proof. intros HP st rest Hs _ Hd _. by exists a, st. Qed.

Lemma parses_mono {A} d (p : PM A) ts (P Q : A -> Prop) (F G : list vtok -> Prop) :
  parses d p ts P F -> (forall a, P a -> Q a) -> (forall rest, G rest -> F rest) -> parses d p ts Q G.
Proof.
  intros Hp HPQ HFG st rest Hs Hne Hd HG. destruct (Hp st rest Hs Hne Hd (HFG _ HG)) as (a & st' & E & Ha & ?).
  exists a, st'. split_and!; [done|by apply HPQ|naive_solver..].
Qed.

(** Move on one token, then map the result. *)
Lemma parses_map {A B} d (p : PM A) (f : A -> B) ts (P : A -> Prop) (Q : B -> Prop) F :
  parses d p ts P F -> (forall a, P a -> Q (f a)) -> parses d (a ← p; mret (f a)) ts Q F.
Proof.
  intros Hp Hf. rewrite <- (app_nil_r ts). eapply parses_bind; [exact Hp| |done]. intros a Ha. by apply parses_ret, Hf.
Qed.

(** ** The primitives *)

Lemma sees_cons st v vs :
  sees st (v :: vs) -> exists t, toks !! ps_pos st = Some t /\ view src t v.
Proof.
  unfold sees. intros H. inversion H as [|t v' l vs' Hv Hl Et Ev]; subst. exists t. split; [|done].
  by rewrite <- (Nat.add_0_r (ps_pos st)), <- lookup_drop, <- Et.
Qed.

Lemma sees_next st v vs :
  sees st (v :: vs) -> vs <> [] ->
  exists st', advance toks st = Some (Ok (tt, st')) /\ sees st' vs /\ ps_depth st' = ps_depth st /\
    toks !! (ps_pos st + 1)%nat = toks !! ps_pos st'.
Proof.
  intros H Hne. exists (set_pos (ps_pos st + 1) st). unfold sees in *.
  inversion H as [|t v' l vs' Hv Hl Et Ev]; subst.
  assert (drop (ps_pos st + 1) toks = l) as El.
  { rewrite <- drop_drop, <- Et. done. }
  assert (length toks - ps_pos st = S (length l))%nat as Elen by (rewrite <- length_drop, <- Et; done).
  unfold advance. assert (0 < length l)%nat by (rewrite (Forall2_length _ _ _ Hl); destruct vs; [done|cbn; lia]).
  rewrite (proj2 (Nat.ltb_lt _ _)) by lia. split_and!; [done| |done|done]. cbn [ps_pos set_pos]. by rewrite El.
Qed.

Lemma bump_one v d : parses d (bump toks) [v] (fun t => view src t v) anything.
Proof.
  intros st rest Hs Hne Hd _. cbn [app] in Hs. destruct (sees_cons _ _ _ Hs) as (t & Et & Hv).
  destruct (sees_next _ _ _ Hs Hne) as (st' & Ea & Hs' & Hd' & _). exists t, st'.
  split_and!; [|done..|congruence]. unfold bump, cur, mbind, PM_bind, mret, PM_ret. by rewrite Et, Ea.
Qed.

(** A look ahead, which sees the first of [ts] or of what follows. *)
Lemma look {A B} d (q : PM A) a (f : A -> PM B) ts P F :
  (forall st rest, sees st (ts ++ rest) -> rest <> [] -> F rest -> q st = Some (Ok (a, st))) ->
  parses d (f a) ts P F -> parses d (q ≫= f) ts P F.
Proof.
  intros Hq Hf st rest Hs Hne Hd HF. destruct (Hf st rest Hs Hne Hd HF) as (b & st' & Eb & ?). exists b, st'.
  split; [|done]. unfold mbind, PM_bind. by rewrite (Hq st rest).
Qed.

Lemma kind_at st v vs : sees st (v :: vs) -> kind toks st = Some (Ok (v.1, st)).
Proof. intros (t & Et & Ek & _)%sees_cons. unfold kind, cur, mbind, PM_bind. by rewrite Et, Ek. Qed.

Lemma kind_ts {B} d k w (f : Kind -> PM B) ts P F :
  parses d (f k) ((k, w) :: ts) P F -> parses d (kind toks ≫= f) ((k, w) :: ts) P F.
Proof. apply look. intros st rest Hs _ _. by apply kind_at in Hs. Qed.

Lemma kind_rest {B} d (f : Kind -> PM B) P (F : list vtok -> Prop) :
  (forall k, parses d (f k) [] P (fun rest => F rest /\ exists v vs, rest = v :: vs /\ v.1 = k)) ->
  parses d (kind toks ≫= f) [] P F.
Proof.
  intros H st rest Hs Hne Hd HF. destruct rest as [|v vs]; [done|].
  destruct (H v.1 st (v :: vs) Hs Hne Hd) as (b & st' & Eb & ?); [by eauto|]. exists b, st'. split; [|done].
  unfold mbind, PM_bind. by rewrite (kind_at st v vs Hs).
Qed.

Lemma here_any {B} d (f : nat -> PM B) ts P F :
  (forall n, parses d (f n) ts P F) -> parses d (here toks ≫= f) ts P F.
Proof.
  intros H st rest Hs Hne Hd HF. destruct (ts ++ rest) as [|v vs] eqn:E; [by destruct ts|].
  destruct (sees_cons _ _ _ Hs) as (t & Et & _). rewrite <- E in Hs.
  destruct (H (tk_at t) st rest Hs Hne Hd HF) as (b & st' & Eb & ?). exists b, st'. split; [|done].
  unfold here, cur, mbind, PM_bind. by rewrite Et.
Qed.

Lemma cur_ts {B} d v (f : Token -> PM B) ts P F :
  (forall t, view src t v -> parses d (f t) (v :: ts) P F) -> parses d (cur toks ≫= f) (v :: ts) P F.
Proof.
  intros H st rest Hs Hne Hd HF. destruct (sees_cons _ _ _ Hs) as (t & Et & Hv).
  destruct (H t Hv st rest Hs Hne Hd HF) as (b & st' & Eb & ?). exists b, st'. split; [|done].
  unfold cur, mbind, PM_bind. by rewrite Et.
Qed.

Lemma text_then {B} d t v (f : rstring -> PM B) ts P F :
  view src t v -> parses d (f v.2) ts P F -> parses d (text src t ≫= f) ts P F.
Proof. intros [_ Hv]. apply look. intros st rest _ _ _. unfold text. by rewrite Hv. Qed.

Lemma bump_then {B} d v (f : Token -> PM B) ts P F :
  (forall t, view src t v -> parses d (f t) ts P F) -> parses d (bump toks ≫= f) (v :: ts) P F.
Proof. intros H. change (v :: ts) with ([v] ++ ts). eapply parses_bind; [apply bump_one|exact H|done]. Qed.

(** A production that starts with another. *)
Lemma parses_step {A B} d (p : PM A) (f : A -> PM B) ts us vs R P F G :
  ts = us ++ vs -> parses d p us R G -> (forall a, R a -> parses d (f a) vs P F) ->
  (forall rest, F rest -> G (vs ++ rest)) -> parses d (p ≫= f) ts P F.
Proof. intros -> ???. by eapply parses_bind. Qed.

Lemma eat_yes {B} d k w (f : bool -> PM B) ts P F :
  parses d (f true) ts P F -> parses d (eat toks k ≫= f) ((k, w) :: ts) P F.
Proof.
  intros H. apply (parses_step d _ _ _ [(k, w)] ts (fun b => b = true) _ _ anything); [done| |by intros b ->|done].
  unfold eat. apply kind_ts. rewrite decide_True by done. apply bump_then. intros t _. by apply parses_ret.
Qed.

Lemma eat_no {B} d k (f : bool -> PM B) ts P (F : list vtok -> Prop) :
  (forall rest, F rest -> next_not [k] (ts ++ rest)) -> parses d (f false) ts P F ->
  parses d (eat toks k ≫= f) ts P F.
Proof.
  intros Hk. apply look. intros st rest Hs Hne HF. specialize (Hk rest HF).
  destruct (ts ++ rest) as [|v vs] eqn:E; [by destruct ts|].
  unfold eat. unfold mbind at 1, PM_bind at 1. rewrite (kind_at _ _ _ Hs).
  rewrite decide_False; [done|]. intros E'. apply Hk. rewrite E'. constructor.
Qed.

Lemma expect_then {B} d k w m s (f : Token -> PM B) ts P F :
  (forall t, parses d (f t) ts P F) -> parses d (expect toks k m s ≫= f) ((k, w) :: ts) P F.
Proof.
  intros H. apply (parses_step d _ _ _ [(k, w)] ts (fun _ => True) _ _ anything); [done| |by intros t _|done].
  unfold expect. apply kind_ts. rewrite decide_True by done. eapply parses_mono; [apply bump_one|done|done].
Qed.

(** The word at the next token, when it is an identifier. *)
Definition word_of (v : vtok) : option rstring := if decide (v.1 = KIdent) then Some (str_to_lower v.2) else None.

Lemma ident_lc_at st v vs : sees st (v :: vs) -> ident_lc src toks st = Some (Ok (word_of v, st)).
Proof.
  intros Hs. destruct (sees_cons _ _ _ Hs) as (t & Et & Ek & Ev).
  unfold ident_lc, cur, text, mbind, PM_bind, mret, PM_ret, word_of. rewrite Et, Ek. case_decide; [by rewrite Ev|done].
Qed.

Lemma peek2_at st v v' vs : sees st (v :: v' :: vs) -> peek2_kind toks st = Some (Ok (v'.1, st)).
Proof.
  intros Hs. unfold sees in Hs. apply Forall2_cons_inv_r in Hs as (t & l & _ & Hl & Et).
  apply Forall2_cons_inv_r in Hl as (t' & l' & [Ek _] & _ & ->).
  assert (toks !! (ps_pos st + 1)%nat = Some t') as E by (by rewrite <- lookup_drop, Et).
  unfold peek2_kind. by rewrite E, Ek.
Qed.

Lemma expect_word_then {B} d w s (f : unit -> PM B) ts P F :
  str_to_lower (lit w) = lit w -> parses d (f tt) ts P F ->
  parses d (expect_ident_lc src toks w s ≫= f) ((KIdent, lit w) :: ts) P F.
Proof.
  intros Hw H. apply (parses_step d _ _ _ [(KIdent, lit w)] ts (fun _ => True) _ _ anything); [done| |by intros []|done].
  unfold expect_ident_lc. eapply look; [intros st rest Hs _ _; exact (ident_lc_at _ _ _ Hs)|].
  unfold word_of, is_word. cbn [fst snd]. rewrite decide_True, Hw, bool_decide_eq_true_2 by done.
  apply bump_then. intros t _. by apply parses_ret.
Qed.

Lemma call_yes {B} d w u (f : bool -> PM B) ts P F :
  str_to_lower (lit w) = lit w -> parses d (f true) ((KIdent, lit w) :: (KLParen, u) :: ts) P F ->
  parses d (at_call src toks w ≫= f) ((KIdent, lit w) :: (KLParen, u) :: ts) P F.
Proof.
  intros Hw. apply look. intros st rest Hs _ _. unfold at_call, mbind, PM_bind. cbn [app] in Hs.
  rewrite (ident_lc_at _ _ _ Hs). unfold word_of, is_word. cbn [fst snd].
  rewrite decide_True, Hw, bool_decide_eq_true_2 by done. by rewrite (peek2_at _ _ _ _ Hs).
Qed.

Lemma call_no {B} d w v (f : bool -> PM B) ts P F :
  word_of v <> Some (lit w) -> parses d (f false) (v :: ts) P F ->
  parses d (at_call src toks w ≫= f) (v :: ts) P F.
Proof.
  intros Hw. apply look. intros st rest Hs _ _. unfold at_call, mbind, PM_bind. cbn [app] in Hs.
  rewrite (ident_lc_at _ _ _ Hs). unfold is_word. by rewrite bool_decide_eq_false_2.
Qed.

(** ** Lists and options *)

Lemma sees_length st vs : sees st vs -> (length vs <= length toks)%nat.
Proof. intros H%Forall2_length. rewrite length_drop in H. lia. Qed.

Lemma many_parses {A X} d k w (item : PM A) (pr : X -> list vtok) (R : X -> A -> Prop) F (xs : list X) : forall n,
  (forall x, x ∈ xs -> parses d item (pr x) (R x) F) -> (forall rest, F ((k, w) :: rest)) -> (length xs < n)%nat ->
  parses d (many toks n k item) (mjoin (map (fun x => (k, w) :: pr x) xs)) (Forall2 R xs)
    (fun rest => F rest /\ next_not [k] rest).
Proof.
  induction xs as [|x xs IH]; intros n Hi HF Hn; (destruct n as [|n]; [cbn in Hn; lia|]); cbn [many map mjoin].
  - apply eat_no; [by intros rest []|]. apply parses_ret. constructor.
  - apply eat_yes. eapply parses_step; [reflexivity|apply Hi; left| |].
    + intros a Ha. rewrite <- (app_nil_r (mjoin _)).
      eapply parses_step; [reflexivity|apply IH| |].
      * intros y Hy. apply Hi. by right.
      * exact HF.
      * cbn in Hn. lia.
      * intros l Hl. apply (parses_ret _ _ _ (fun rest => F rest /\ next_not [k] rest)). by constructor.
      * done.
    + intros rest [HFr _]. destruct xs; [exact HFr|]. apply HF.
Qed.

Lemma many_fuel_parses {A X} d k w (item : PM A) (pr : X -> list vtok) (R : X -> A -> Prop) F (xs : list X) :
  (forall x, x ∈ xs -> parses d item (pr x) (R x) F) -> (forall rest, F ((k, w) :: rest)) ->
  parses d (many toks (fuel toks) k item) (mjoin (map (fun x => (k, w) :: pr x) xs)) (Forall2 R xs)
    (fun rest => F rest /\ next_not [k] rest).
Proof.
  intros Hi HF st rest Hs Hr Hd HG. pose proof (sees_length _ _ Hs) as Hlen. rewrite length_app in Hlen.
  assert (length xs <= length (mjoin (map (fun x => (k, w) :: pr x) xs)))%nat as Hx.
  { clear. induction xs as [|y xs IH]; [done|].
    change (mjoin (map (fun x => (k, w) :: pr x) (y :: xs))) with (((k, w) :: pr y) ++ mjoin (map (fun x => (k, w) :: pr x) xs)).
    rewrite length_app. cbn [length]. lia. }
  apply (many_parses d k w item pr R F xs (fuel toks)); [done|done|unfold fuel; lia|done..].
Qed.

Lemma sep_by_parses {A X} d k w (item : PM A) (pr : X -> list vtok) (R : X -> A -> Prop) F (xs : list X) :
  xs <> [] -> (forall x, x ∈ xs -> parses d item (pr x) (R x) F) -> (forall rest, F ((k, w) :: rest)) ->
  parses d (sep_by toks k item) (p_list (k, w) (map pr xs)) (Forall2 R xs) (fun rest => F rest /\ next_not [k] rest).
Proof.
  intros Hne Hi HF. destruct xs as [|x xs]; [done|]. cbn [map p_list]. unfold sep_by.
  rewrite (map_map pr (cons (k, w)) xs : _ = map (fun x => (k, w) :: pr x) xs).
  eapply parses_step; [reflexivity|apply Hi; left| |].
  - intros a Ha. eapply parses_map; [apply (many_fuel_parses d k w item pr R F)|].
    + intros y Hy. apply Hi. by right.
    + done.
    + intros l Hl. by constructor.
  - intros rest [HFr _]. destruct xs; [exact HFr|]. apply HF.
Qed.

Lemma optional_parses {A X} d k w (p : PM A) (pr : X -> list vtok) (R : X -> A -> Prop) F (o : option X) :
  (forall x, o = Some x -> parses d p (pr x) (R x) F) ->
  parses d (optional toks k p) (p_opt [(k, w)] pr o) (option_Forall2 R o) (fun rest => F rest /\ next_not [k] rest).
Proof.
  intros Hp. unfold optional. destruct o as [x|]; cbn [p_opt].
  - apply eat_yes. rewrite <- (app_nil_r (pr x)). eapply parses_step; [reflexivity|by apply Hp| |by intros rest []].
    intros a Ha. apply parses_ret. by constructor.
  - apply eat_no; [by intros rest []|]. apply parses_ret. constructor.
Qed.

(** ** Fields and numbers *)

Lemma field_sec_then {B} d s f (g : rstring -> PM B) ts P F :
  parses d (g f) ts P F -> parses d (parse_field_sec src toks s ≫= g) (p_field f ++ ts) P F.
Proof.
  intros H. eapply (parses_step d _ _ _ (p_field f) ts (fun w => w = f) _ _ anything); [done| |by intros w ->|done].
  unfold parse_field_sec, p_field. apply kind_ts. rewrite decide_True by auto. apply bump_then. intros t Ht st rest Hs _ Hd _.
  exists f, st. unfold text. destruct Ht as [_ ->]. done.
Qed.

Lemma field_parses d f s : parses d (parse_field_sec src toks s) (p_field f) (fun w => w = f) anything.
Proof.
  unfold parse_field_sec, p_field. apply kind_ts. rewrite decide_True by auto. apply bump_then. intros t Ht st rest Hs _ Hd _.
  exists f, st. unfold text. destruct Ht as [_ ->]. done.
Qed.

Lemma parse_i64_text n : int_ok n = true -> parse_i64 (u64_to_string (Z.abs_N n)) = Some (Z.abs n).
Proof.
  intros [H1 H2]%andb_prop. apply Z.ltb_lt in H1, H2. destruct (u64_string_spec (Z.abs_N n)) as (Hne & Hd & Hp).
  unfold parse_i64. rewrite bool_decide_eq_false_2, Hd by done. cbn [orb negb]. rewrite Hp, N2Z.inj_abs_N.
  unfold checked_i64. rewrite (proj2 (Z.leb_le _ _)), (proj2 (Z.ltb_lt _ _)) by lia. done.
Qed.

Lemma signed_parses d n :
  int_ok n = true -> parses d (parse_signed_number src toks) (p_int n) (fun l => l = LInt n) anything.
Proof.
  intros Hn. unfold parse_signed_number, p_int. destruct (Z.ltb_spec n 0) as [Hneg|Hpos].
  - apply eat_yes, kind_ts, bump_then. intros t Ht. apply (text_then _ _ _ _ _ _ _ Ht). cbn [snd].
    rewrite parse_i64_text by done. apply parses_ret. f_equal. lia.
  - apply eat_no; [intros rest _ Hk; by apply list_elem_of_singleton in Hk|]. cbn [app].
    apply kind_ts, bump_then. intros t Ht. apply (text_then _ _ _ _ _ _ _ Ht). cbn [snd].
    rewrite parse_i64_text by done. apply parses_ret. f_equal. lia.
Qed.

Lemma int_parses d n : int_ok n = true -> parses d (parse_int_lit src toks) (p_int n) (fun m => m = n) anything.
Proof.
  intros Hn. unfold parse_int_lit. rewrite <- (app_nil_r (p_int n)).
  eapply parses_step; [reflexivity|by apply signed_parses| |done]. intros l ->. by apply parses_ret.
Qed.

(** A number literal with its sign. *)
Lemma signed_float_parses d (neg : bool) w y :
  parse_f64 w = Some y ->
  parses d (parse_signed_number src toks) (if neg then [p_minus; (KFloat, w)] else [(KFloat, w)])
    (fun l => l = LFloat (if neg then f64_opp y else y)) anything.
Proof.
  intros Hw. unfold parse_signed_number. destruct neg.
  - apply eat_yes, kind_ts, bump_then. intros t Ht. apply (text_then _ _ _ _ _ _ _ Ht). cbn [snd]. rewrite Hw.
    by apply parses_ret.
  - apply eat_no; [intros rest _ Hk; by apply list_elem_of_singleton in Hk|].
    apply kind_ts, bump_then. intros t Ht. apply (text_then _ _ _ _ _ _ _ Ht). cbn [snd]. rewrite Hw.
    by apply parses_ret.
Qed.

Context `{FloatText}.

Lemma f64_parses d x : f64_ok x = true -> parses d (parse_signed_number src toks) (p_f64 x) (fun l => l = LFloat x) anything.
Proof.
  intros [_ Hx]%andb_prop. unfold p_f64. destruct (parse_f64 (f64_text x)) as [y|] eqn:Ey; [|done].
  eapply parses_mono; [by apply signed_float_parses| |done]. intros l ->. apply Z.eqb_eq in Hx. by rewrite Hx.
Qed.

Lemma f32_parses d x : f32_ok x = true -> parses d (parse_number_f32 src toks) (p_f32 x) (fun y => y = x) anything.
Proof.
  intros [_ Hx]%andb_prop. unfold p_f32. destruct (parse_f64 (f32_text x)) as [y|] eqn:Ey; [|done].
  apply Z.eqb_eq in Hx. unfold parse_number_f32, parse_float_lit. rewrite <- (app_nil_r (if _ : bool then _ else _)).
  eapply parses_step; [reflexivity| | |done].
  - rewrite <- (app_nil_r (if _ : bool then _ else _)). eapply parses_step; [reflexivity|by apply signed_float_parses| |done].
    intros l ->. by apply (parses_ret _ _ (fun f => f32_of_f64 f = x)).
  - intros f Hf. by apply parses_ret.
Qed.

(** ** Literals *)

Lemma not_word_no {B} d k w (f : bool -> PM B) ts P F :
  k <> KIdent -> parses d (f false) ((k, w) :: ts) P F ->
  parses d (at_timestamp_lit src toks ≫= f) ((k, w) :: ts) P F.
Proof.
  intros Hk. apply look. intros st rest Hs _ _. unfold at_timestamp_lit, mbind, PM_bind. cbn [app] in Hs.
  rewrite (ident_lc_at _ _ _ Hs). unfold word_of. by rewrite decide_False.
Qed.

(** Any number literal. *)
Lemma number_literal d ts l F :
  (exists k w ts', ts = (k, w) :: ts' /\ k ∈ [KMinus; KInt; KFloat]) ->
  parses d (parse_signed_number src toks) ts (fun l' => l' = l) F -> parses d (parse_literal src toks) ts (fun l' => l' = l) F.
Proof.
  intros (k & w & ts' & -> & Hk) Hp. unfold parse_literal. apply kind_ts.
  assert (parses d (at_timestamp_lit src toks ≫= fun ts => if ts : bool then parse_timestamp_lit src toks
      else if decide (k ∈ [KMinus; KInt; KFloat]) then parse_signed_number src toks else err toks "expected a value" SEC_SYNTAX)
    ((k, w) :: ts') (fun l' => l' = l) F) as Hq.
  { apply not_word_no; [intros ->; set_solver|]. by rewrite decide_True. }
  destruct k; try exact Hq; exfalso; clear - Hk; set_solver.
Qed.

Lemma int_starts n : exists k w ts', p_int n = (k, w) :: ts' /\ k ∈ [KMinus; KInt; KFloat].
Proof. unfold p_int. destruct (n <? 0)%Z; do 3 eexists; (split; [reflexivity|]); set_solver. Qed.

Lemma timestamp_parses d n :
  int_ok n = true ->
  parses d (parse_literal src toks) (word KIdent "timestamp" :: p_int n) (fun l => l = LDateTime n) anything.
Proof.
  intros Hn. destruct (int_starts n) as (k & w & ts' & E & Hk). unfold parse_literal. apply kind_ts.
  apply (look d (at_timestamp_lit src toks) true).
  { intros st rest Hs _ _. unfold at_timestamp_lit, mbind, PM_bind. rewrite E in Hs. cbn [app] in Hs.
    rewrite (ident_lc_at _ _ _ Hs). unfold word_of, is_word. cbn [fst snd].
    rewrite decide_True, bool_decide_eq_true_2 by done. rewrite (peek2_at _ _ _ _ Hs). cbn [fst].
    by rewrite bool_decide_eq_true_2 by set_solver. }
  unfold parse_timestamp_lit. apply here_any. intros at_. apply bump_then. intros t _.
  rewrite E. apply kind_ts. rewrite decide_False by (intros ->; set_solver).
  rewrite decide_True by done. rewrite <- E, <- (app_nil_r (p_int n)).
  eapply parses_step; [reflexivity|by apply signed_parses| |done]. intros l ->. by apply parses_ret.
Qed.

Lemma literal_parses d l : lit_ok l = true -> parses d (parse_literal src toks) (p_lit l) (fun l' => l' = l) anything.
Proof.
  intros Hl. destruct l as [n|n|x|s|[]|]; cbn [p_lit lit_ok] in *.
  - apply number_literal; [apply int_starts|by apply signed_parses].
  - by apply timestamp_parses.
  - apply number_literal; [|by apply f64_parses]. unfold p_f64. destruct (f64_neg x); do 3 eexists; (split; [reflexivity|]); set_solver.
  - apply kind_ts, cur_ts. intros t Ht. apply (text_then _ _ _ _ _ _ _ Ht). cbn [snd]. apply bump_then. intros t' _.
    apply parses_ret. by rewrite unescape_escape.
  - apply kind_ts, bump_then. intros t' _. by apply parses_ret.
  - apply kind_ts, bump_then. intros t' _. by apply parses_ret.
  - apply kind_ts, bump_then. intros t' _. by apply parses_ret.
Qed.

Lemma string_parses d sec s : parses d (parse_string_lit_sec src toks sec) (p_str s) (fun s' => s' = s) anything.
Proof.
  unfold parse_string_lit_sec. apply kind_ts. rewrite decide_True by done. rewrite <- (app_nil_r [_]).
  eapply parses_step; [reflexivity|by apply (literal_parses d (LStr s))| |done]. intros l ->. by apply parses_ret.
Qed.

Lemma Forall2_map_eq {A B} (f : A -> B) xs l : Forall2 (fun x y => f y = f x) xs l -> map f l = map f xs.
Proof. induction 1 as [|x y xs l E _ IH]; [done|]. cbn. by rewrite E, IH. Qed.
Lemma Forall2_same {A} (xs l : list A) : Forall2 (fun x y => y = x) xs l -> l = xs.
Proof. induction 1 as [|x y xs l E H' IH]; [done|]. by rewrite E, IH. Qed.

Lemma literals_parse d vs :
  vs <> [] -> forallb lit_ok vs = true ->
  parses d (sep_by toks KComma (parse_literal src toks)) (p_list p_comma (map p_lit vs)) (fun l => l = vs) (next_not [KComma]).
Proof.
  intros Hne Hvs. eapply parses_mono; [apply (sep_by_parses d KComma (lit ",") _ _ (fun x y => y = x) anything); [done| |done]| |].
  - intros x Hx. apply literal_parses. by eapply forallb_forall, list_elem_of_In.
  - intros l. apply Forall2_same.
  - by intros rest Hr.
Qed.

Lemma lits_parse d sec vs :
  vs <> [] -> forallb lit_ok vs = true ->
  parses d (parse_paren_lit_list src toks sec) (p_lits vs) (fun l => l = vs) anything.
Proof.
  intros Hne Hvs. unfold parse_paren_lit_list, p_lits, paren. apply expect_then. intros t.
  eapply parses_step; [reflexivity|by apply literals_parse| |].
  - intros l ->. apply expect_then. intros t'. by apply parses_ret.
  - intros rest _. cbn. by intros Hk%list_elem_of_singleton.
Qed.

(** ** Predicates *)

Definition same_pred (p p' : PredNode) : Prop := unplaced_pred p' = unplaced_pred p.

Lemma p_list_cons {sep x xs} : xs <> [] -> p_list sep (x :: xs) = x ++ sep :: p_list sep xs.
Proof. by destruct xs. Qed.
Lemma p_list_one sep x : p_list sep [x] = x.
Proof. apply app_nil_r. Qed.

Lemma call_shape name f args :
  args <> [] ->
  p_call name (p_field f :: args) =
  (KIdent, lit name) :: (KLParen, lit "(") :: p_field f ++ p_comma :: p_list p_comma args ++ [p_close].
Proof. intros Hne. unfold p_call, paren. rewrite (p_list_cons Hne), <- app_assoc. done. Qed.

Lemma eat_other {B} d k k' w (f : bool -> PM B) ts P F :
  k' <> k -> parses d (f false) ((k', w) :: ts) P F -> parses d (eat toks k ≫= f) ((k', w) :: ts) P F.
Proof. intros Hk. apply eat_no. intros rest _. cbn. by intros ?%list_elem_of_singleton. Qed.

Lemma fn_yes {B} d w u (f : option rstring -> PM B) ts P F :
  bool_decide (str_to_lower (lit w) = lit w) = true -> bool_decide (lit w ∈ map lit FN_NAMES) = true ->
  parses d (f (Some (lit w))) ((KIdent, lit w) :: (KLParen, u) :: ts) P F ->
  parses d (fn_name src toks ≫= f) ((KIdent, lit w) :: (KLParen, u) :: ts) P F.
Proof.
  intros Hw%bool_decide_eq_true Hn%bool_decide_eq_true. apply look. intros st rest Hs _ _. unfold fn_name, mbind, PM_bind. cbn [app] in Hs.
  rewrite (ident_lc_at _ _ _ Hs). unfold word_of. cbn [fst snd]. rewrite decide_True, Hw by done.
  rewrite (peek2_at _ _ _ _ Hs). by rewrite decide_True.
Qed.

Lemma fn_no {B} d k w (f : option rstring -> PM B) ts P F :
  k <> KIdent -> parses d (f None) ((k, w) :: ts) P F -> parses d (fn_name src toks ≫= f) ((k, w) :: ts) P F.
Proof.
  intros Hk. apply look. intros st rest Hs _ _. unfold fn_name, mbind, PM_bind. cbn [app] in Hs.
  rewrite (ident_lc_at _ _ _ Hs). unfold word_of. by rewrite decide_False.
Qed.

Ltac eval_names :=
  repeat match goal with |- context [bool_decide (lit ?a = lit ?b)] =>
    let v := eval vm_compute in (bool_decide (lit a = lit b)) in change (bool_decide (lit a = lit b)) with v end;
  cbn [orb]; cbv iota.
(** Through the name and the field of a function predicate. *)
Ltac call_start :=
  unfold parse_primary; rewrite call_shape by (done || by intros ?%map_eq_nil); apply kind_ts; rewrite decide_False by done;
  apply fn_yes; [vm_compute; reflexivity|vm_compute; reflexivity|]; unfold parse_fn_predicate; cbv zeta; eval_names;
  apply bump_then; intros ? _; apply bump_then; intros ? _; apply field_sec_then, expect_then; intros ?.
(** The arguments, then the parenthesis. *)
Ltac call_args tac :=
  eapply parses_step; [reflexivity|tac|intros ? ->; apply expect_then; intros ?; by apply parses_ret|];
  intros rest _; try done; try (cbn; by intros ?%list_elem_of_singleton).

Lemma then_ret {A B} d (p : PM A) a (f : A -> B) ts (b : B) F :
  parses d p ts (fun a' => a' = a) F -> f a = b -> parses d (a ← p; mret (f a)) ts (fun b' => b' = b) F.
Proof. intros Hp Hf. eapply parses_map; [exact Hp|]. by intros ? ->. Qed.

Lemma primary_fn d inner p :
  match p with NContains _ _ | NNotContains _ _ | NContainsAny _ _ | NMatchAll _ _ | NMatchAny _ _ | NPhrase _ _ => True | _ => False end ->
  pred_wf p = true -> pred_printable p = true ->
  parses d (parse_primary src toks inner) (p_pred p) (fun p' => p' = p) anything.
Proof.
  intros Hp Hwf Hok. destruct p; try done; cbn [p_pred pred_wf pred_printable] in *; bdestr.
  - call_start. rewrite p_list_one. call_args ltac:(eapply then_ret; [by apply literal_parses|reflexivity]).
  - call_start. rewrite p_list_one. call_args ltac:(eapply then_ret; [by apply literal_parses|reflexivity]).
  - assert (values <> []) by (by destruct values). call_start.
    call_args ltac:(eapply then_ret; [by apply literals_parse|reflexivity]).
  - call_start. rewrite p_list_one. call_args ltac:(eapply then_ret; [apply string_parses|reflexivity]).
  - call_start. rewrite p_list_one. call_args ltac:(eapply then_ret; [apply string_parses|reflexivity]).
  - call_start. rewrite p_list_one. call_args ltac:(eapply then_ret; [apply string_parses|reflexivity]).
Qed.

Lemma primary_fuzzy d inner f s n at_ :
  int_ok n = true -> parses d (parse_primary src toks inner) (p_pred (NFuzzy f s n at_)) (same_pred (NFuzzy f s n at_)) anything.
Proof.
  intros Hn. cbn [p_pred]. call_start. rewrite p_list_cons, p_list_one by done.
  eapply (parses_step d _ _ _ _ _ (same_pred (NFuzzy f s n at_))); [reflexivity| |intros node Hnode; apply expect_then; intros ?; by apply parses_ret|].
  - eapply parses_step; [reflexivity|apply string_parses| |done]. intros s' ->. apply expect_then. intros t2. apply here_any. intros at'.
    eapply parses_map; [by apply int_parses|]. by intros m ->.
  - done.
Qed.

Lemma primary_comparison d inner f ts p :
  parses d (parse_comparison src toks) (p_field f ++ ts) (fun p' => p' = p) anything ->
  parses d (parse_primary src toks inner) (p_field f ++ ts) (fun p' => p' = p) anything.
Proof.
  intros Hp. unfold parse_primary, p_field. apply kind_ts. rewrite decide_False by done. by apply fn_no.
Qed.

Lemma comparison_parses d p :
  match p with NCmp _ _ _ | NIn _ _ _ | NLike _ _ _ | NILike _ _ | NRegex _ _ => True | _ => False end ->
  pred_wf p = true -> pred_printable p = true ->
  parses d (parse_comparison src toks) (p_pred p) (fun p' => p' = p) anything.
Proof.
  intros Hp Hwf Hok. destruct p; try done; cbn [p_pred pred_wf pred_printable] in *; bdestr;
    unfold parse_comparison; apply field_sec_then.
  - destruct op; apply kind_ts, bump_then; intros t _; eapply then_ret; (by apply literal_parses) || reflexivity.
  - assert (values <> []) by (by destruct values).
    destruct negate; cbn [app]; apply kind_ts; cbn [cmp_op].
    + do 4 (apply eat_other; [done|]). apply eat_yes, eat_yes. eapply then_ret; [by apply lits_parse|reflexivity].
    + apply eat_yes. eapply then_ret; [by apply lits_parse|reflexivity].
  - destruct negate; cbn [app]; apply kind_ts; cbn [cmp_op].
    + do 4 (apply eat_other; [done|]). apply eat_yes. apply eat_other; [done|]. apply eat_yes.
      eapply then_ret; [apply string_parses|reflexivity].
    + apply eat_other; [done|]. apply eat_yes. eapply then_ret; [apply string_parses|reflexivity].
  - apply kind_ts. cbn [cmp_op]. do 2 (apply eat_other; [done|]). apply eat_yes. eapply then_ret; [apply string_parses|reflexivity].
  - apply kind_ts. cbn [cmp_op]. do 3 (apply eat_other; [done|]). apply eat_yes. eapply then_ret; [apply string_parses|reflexivity].
Qed.

Lemma primary_leaf d inner p :
  is_leaf p = true -> pred_wf p = true -> pred_printable p = true ->
  parses d (parse_primary src toks inner) (p_pred p) (same_pred p) anything.
Proof.
  intros Hl Hwf Hok.
  assert (parses d (parse_primary src toks inner) (p_pred p) (fun p' => p' = p) anything \/
          exists f s n at_, p = NFuzzy f s n at_) as [H'|(f & s & n & at_ & ->)].
  { destruct p; try done; try (left; by apply primary_fn);
      try (left; apply primary_comparison; refine (comparison_parses d _ _ Hwf Hok); exact I).
    right. eauto. }
  - eapply parses_mono; [exact H'| |done]. by intros p' ->.
  - apply primary_fuzzy. cbn in Hok. by bdestr.
Qed.

Lemma primary_paren d inner ts P :
  (S d <= MAX_NEST_DEPTH)%nat -> parses (S d) inner ts P (next_not [KAnd; KOr]) ->
  parses d (parse_primary src toks inner) (paren ts) P anything.
Proof.
  intros Hd Hp. unfold parse_primary, paren. cbn [app]. apply kind_ts. rewrite decide_True by done.
  intros st rest Hs Hne Hdep _. destruct st as [pos dep]. cbn [ps_depth] in Hdep. subst dep.
  set (st' := {| ps_pos := pos; ps_depth := S d |}).
  assert (parses (S d) (_ ← bump toks; node ← inner; t ← expect toks KRParen "')'" SEC_BOOL; mret node)
    (p_open :: ts ++ [p_close]) P anything) as Hbody.
  { apply bump_then. intros t _. eapply parses_step; [reflexivity|exact Hp| |].
    - intros node Hnode. apply expect_then. intros t'. by apply parses_ret.
    - intros rest' _. cbn. set_solver. }
  destruct (Hbody st' rest) as (a & st2 & E & Ha & Hs2 & Hd2); [exact Hs|done|done|done|].
  exists a, {| ps_pos := ps_pos st2; ps_depth := d |}. split_and!; [|done|exact Hs2|done].
  revert E. unfold set_depth, mbind, PM_bind. cbn [ps_depth ps_pos]. fold st'.
  rewrite (proj2 (Nat.ltb_ge _ _) Hd). unfold mbind, PM_bind.
  destruct (bump toks st') as [[[t s1]|]|]; [|done|done]. destruct (inner s1) as [[[node s2]|]|]; [|done|done].
  destruct (expect toks KRParen "')'" SEC_BOOL s2) as [[[t' s3]|]|]; [|done|done].
  intros [= -> ->]. by rewrite Hd2.
Qed.

Definition inner (levels : nat) : PM PredNode := match levels with O => stuck | S l => parse_or src toks l end.
(** The predicate parses wherever its parentheses fit. *)
Definition or_parses (p : PredNode) : Prop :=
  forall levels d, (p_depth p <= levels)%nat -> levels + d = MAX_NEST_DEPTH ->
    parses d (parse_or src toks levels) (p_pred p) (same_pred p) (next_not [KAnd; KOr]).

Lemma primary_wrap d levels p :
  pred_wf p = true -> pred_printable p = true -> or_parses p -> levels + d = MAX_NEST_DEPTH ->
  ((if is_leaf p then 0 else S (p_depth p)) <= levels)%nat ->
  parses d (parse_primary src toks (inner levels)) (wrap p (p_pred p)) (same_pred p) anything.
Proof.
  intros Hwf Hok IH Hd Hl. unfold wrap. destruct (is_leaf p) eqn:El; [by apply primary_leaf|].
  destruct levels as [|levels]; [lia|]. apply primary_paren; [lia|]. apply IH; lia.
Qed.

Lemma item_parses d levels q :
  pred_wf q = true -> pred_printable q = true -> levels + d = MAX_NEST_DEPTH ->
  ((if is_not q || is_leaf q then p_depth q else S (p_depth q)) <= levels)%nat ->
  or_parses q -> (forall q', q = NNot q' -> or_parses q') ->
  parses d (parse_not src toks (inner levels)) (p_item q) (same_pred q) anything.
Proof.
  intros Hwf Hok Hd Hl IH IHn. unfold parse_not, p_item. destruct (is_not q) eqn:En.
  - destruct q; try done. cbn [p_pred p_depth pred_wf pred_printable is_not orb] in *. apply eat_yes.
    eapply parses_map; [apply primary_wrap; eauto; by destruct (is_leaf q)|].
    intros p' Hp'. unfold same_pred in *. cbn. by rewrite Hp'.
  - assert (exists k w ts, wrap q (p_pred q) = (k, w) :: ts /\ k <> KNot) as (k & w & ts & E & Hk).
    { destruct q; try done; cbn; do 3 eexists; done. }
    pose proof (primary_wrap d levels q Hwf Hok IH Hd) as Hq. rewrite E in *.
    apply eat_other; [done|]. apply Hq. cbn [orb] in Hl. destruct (is_leaf q); [lia|done].
Qed.

Lemma item_shape {A B} {same : A -> B -> Prop} q items : Forall2 same [q] items -> exists b, items = [b] /\ same q b.
Proof. intros (b & l & Hb & ->%Forall2_nil_inv_l & ->)%Forall2_cons_inv_l. eauto. Qed.

Lemma and_one d levels q ts :
  parses d (parse_not src toks (inner levels)) ts (same_pred q) anything ->
  parses d (parse_and src toks (inner levels)) ts (same_pred q) (next_not [KAnd]).
Proof.
  intros Hq. unfold parse_and. rewrite <- (p_list_one (KAnd, lit "AND") ts).
  eapply parses_map; [|intros l Hl; destruct (item_shape (same := same_pred) q l Hl) as (b & -> & Hb); exact Hb].
  eapply parses_mono; [apply (sep_by_parses d KAnd (lit "AND") _ (fun _ => ts) same_pred anything [q]); [done| |done]|done|].
  - intros x ->%list_elem_of_singleton. exact Hq.
  - by intros rest Hr.
Qed.

Lemma or_one d levels q ts :
  parses d (parse_and src toks (inner levels)) ts (same_pred q) (next_not [KAnd]) ->
  parses d (parse_or src toks levels) ts (same_pred q) (next_not [KAnd; KOr]).
Proof.
  intros Hq. assert (parse_or src toks levels = parse_or_in src toks (inner levels)) as -> by (by destruct levels).
  unfold parse_or_in. rewrite <- (p_list_one (KOr, lit "OR") ts).
  eapply parses_map; [|intros l Hl; destruct (item_shape (same := same_pred) q l Hl) as (b & -> & Hb); exact Hb].
  eapply parses_mono; [apply (sep_by_parses d KOr (lit "OR") _ (fun _ => ts) same_pred (next_not [KAnd]) [q]); [done| |]|done|].
  - intros x ->%list_elem_of_singleton. exact Hq.
  - intros rest. cbn. set_solver.
  - intros [|v rest]; [done|]. cbn. set_solver.
Qed.

Lemma same_group (node : list PredNode -> PredNode) items l :
  (2 <= length items)%nat -> (forall l, unplaced_pred (node l) = node (map unplaced_pred l)) ->
  Forall2 same_pred items l -> same_pred (node items) (group_items node l).
Proof.
  intros Hlen Hnode Hl. pose proof (Forall2_length _ _ _ Hl) as El.
  pose proof (Forall2_map_eq unplaced_pred _ _ Hl) as E.
  unfold same_pred. destruct l as [|a [|b l]]; [cbn in El; lia..|]. cbn [group_items]. by rewrite !Hnode, E.
Qed.

Lemma pred_parses n p : (pred_height p <= n)%nat -> pred_wf p = true -> pred_printable p = true -> or_parses p.
Proof.
  revert p. induction n as [|n IH]; intros p Hh Hwf Hok levels d Hd Hlev; [destruct p; cbn in Hh; lia|].
  assert (forall items, pred_height (NAny items) <= S n -> forallb pred_wf items = true -> forallb pred_printable items = true ->
    p_depth (NAny items) <= levels -> forall q, q ∈ items ->
    parses d (parse_not src toks (inner levels)) (p_item q) (same_pred q) anything)%nat as Hitems.
  { intros items Hhi Hwfs Hoks Hds q Hq. rewrite forallb_forall in Hwfs, Hoks. pose proof Hq as HIn. apply list_elem_of_In in HIn.
    cbn [pred_height p_depth] in Hhi, Hds. apply le_S_n in Hhi. apply list_max_le in Hds, Hhi.
    rewrite List.Forall_map, List.Forall_forall in Hhi. rewrite List.Forall_map, List.Forall_forall in Hds.
    apply item_parses; auto.
    intros q' ->. specialize (Hhi _ HIn). specialize (Hwfs _ HIn). specialize (Hoks _ HIn). cbn in Hhi, Hwfs, Hoks.
    apply IH; auto. lia. }
  destruct (is_leaf p) eqn:Hleaf.
  { apply or_one, and_one. pose proof (primary_leaf d (inner levels) p Hleaf Hwf Hok) as Hp.
    assert (exists k w ts, p_pred p = (k, w) :: ts /\ k <> KNot) as (k & w & ts & E & Hk).
    { destruct p; try done; cbn; do 3 eexists; done. }
    unfold parse_not. rewrite E in *. by apply eat_other. }
  destruct p as [items|items|q| | | | | | | | | | | |]; try done; cbn [pred_wf pred_printable] in Hwf, Hok; bdestr.
  - assert (parse_or src toks levels = parse_or_in src toks (inner levels)) as -> by (by destruct levels).
    unfold parse_or_in. eapply parses_map; [|intros l Hl; by apply (same_group NAny items)].
    eapply parses_mono; [apply (sep_by_parses d KOr (lit "OR") _ p_item same_pred (next_not [KAnd]) items)|done|].
    + intros ->. cbn in *. lia.
    + intros q Hq. apply and_one. by apply (Hitems items).
    + intros rest. cbn. set_solver.
    + intros [|v rest]; [done|]. cbn. set_solver.
  - apply or_one. unfold parse_and. eapply parses_map; [|intros l Hl; by apply (same_group NAll items)].
    eapply parses_mono; [apply (sep_by_parses d KAnd (lit "AND") _ p_item same_pred anything items)|done|].
    + intros ->. cbn in *. lia.
    + intros q Hq. by apply (Hitems items).
    + done.
    + by intros rest Hr.
  - apply or_one, and_one. cbn [pred_height p_depth] in *. apply (item_parses d levels (NNot q)); [done|done|done|cbn; lia| |].
    + intros levels' d' Hd' Hl'. apply or_one, and_one. unfold parse_not. apply eat_yes.
      eapply parses_map; [apply primary_wrap; [done|done|apply IH; [lia|done|done]|done|cbn in Hd'; by destruct (is_leaf q)]|].
      intros p' Hp'. unfold same_pred in *. cbn. by rewrite Hp'.
    + intros q' [= <-]. apply IH; [lia|done|done].
Qed.

(** ** Lists of things read back exactly *)

Lemma list_parses {A} d k w (item : PM A) (pr : A -> list vtok) F (xs : list A) :
  xs <> [] -> (forall x, x ∈ xs -> parses d item (pr x) (fun y => y = x) F) -> (forall rest, F ((k, w) :: rest)) ->
  parses d (sep_by toks k item) (p_list (k, w) (map pr xs)) (fun l => l = xs) (fun rest => F rest /\ next_not [k] rest).
Proof.
  intros Hne Hi HF. eapply parses_mono; [apply (sep_by_parses d k w item pr (fun x y => y = x) F)| |]; [done..| |done].
  intros l. apply Forall2_same.
Qed.

Lemma opt_parses {A} d k w (p : PM A) (pr : A -> list vtok) F (o : option A) :
  (forall x, o = Some x -> parses d p (pr x) (fun y => y = x) F) ->
  parses d (optional toks k p) (p_opt [(k, w)] pr o) (fun o' => o' = o) (fun rest => F rest /\ next_not [k] rest).
Proof.
  intros Hp. eapply parses_mono; [by apply (optional_parses d k w p pr (fun x y => y = x) F)| |done].
  intros o' Ho. destruct Ho as [x y ->|]; done.
Qed.

Lemma forallb_elem {A} (f : A -> bool) l x : forallb f l = true -> x ∈ l -> f x = true.
Proof. intros H' Hx. rewrite forallb_forall in H'. by apply H', list_elem_of_In. Qed.

(** What follows, when it starts with one of [ks]. *)
Definition next_is (ks : list Kind) (rest : list vtok) : Prop :=
  match rest with v :: _ => v.1 ∈ ks | [] => False end.
Lemma next_is_not ks ks' rest : forallb (fun k => negb (bool_decide (k ∈ ks'))) ks = true -> next_is ks rest -> next_not ks' rest.
Proof.
  intros Hk. destruct rest as [|v rest]; [done|]. cbn. intros Hv Hv'. pose proof (forallb_elem _ _ _ Hk Hv) as E.
  by apply negb_true_iff, bool_decide_eq_false in E.
Qed.
Lemma next_not_opt {A} ks k w (pr : A -> list vtok) o rest :
  k ∉ ks -> next_not ks rest -> next_not ks (p_opt [(k, w)] pr o ++ rest).
Proof. intros Hk. by destruct o. Qed.

Lemma fields_parse d fs :
  fs <> [] -> parses d (parse_field_list src toks) (p_fields fs) (fun l => l = fs) (next_not [KComma]).
Proof.
  intros Hne. eapply parses_mono; [apply (list_parses d KComma (lit ",") _ p_field anything fs Hne)|done|by split].
  - intros x _. apply field_parses.
  - done.
Qed.

(** ** Rankings *)

Lemma vector_parses d v :
  forallb f32_ok v = true -> parses d (parse_vector src toks) (p_vector v) (fun v' => v' = v) anything.
Proof.
  intros Hv. unfold parse_vector, p_vector. apply expect_then. intros t.
  assert (exists k w ts, p_list p_comma (map p_f32 v) ++ [word KRBracket "]"] = (k, w) :: ts /\ (k = KRBracket <-> v = []))
    as (k & w & ts & E & Hk).
  { destruct v as [|x v]; [do 3 eexists; done|]. cbn [map p_list]. unfold p_f32.
    destruct (f32_neg x); do 3 eexists; (split; [reflexivity|by split]). }
  rewrite E. apply kind_ts. rewrite <- E. case_decide as Hd.
  - pose proof (proj1 Hk Hd) as ->.
    eapply (parses_step _ _ _ _ [] _ (fun o => o = []) _ _ anything); [reflexivity|by apply parses_ret| |done].
    intros o ->. apply expect_then. intros t'. by apply parses_ret.
  - eapply parses_step; [reflexivity|apply (list_parses d KComma (lit ",") _ p_f32 anything)| |].
    + by intros ->%Hk.
    + intros x Hx. apply f32_parses. by eapply forallb_elem.
    + done.
    + intros o ->. apply expect_then. intros t'. by apply parses_ret.
    + intros rest _. split; [done|]. cbn. set_solver.
Qed.

Lemma decay_parses d dl :
  decay_wf dl = true -> decay_ok dl = true -> parses d (parse_decay_tail src toks) (p_decay dl) (fun d' => d' = dl) anything.
Proof.
  intros Hwf Hok. unfold decay_wf, decay_ok in *. bdestr. unfold parse_decay_tail, p_decay, paren. rewrite <- !app_assoc.
  apply expect_word_then; [done|]. apply expect_then. intros t1. apply field_sec_then, expect_then. intros t2.
  eapply parses_step; [reflexivity|by apply int_parses| |done]. intros ? ->. apply expect_then. intros t3.
  eapply parses_step; [reflexivity|by apply int_parses| |done]. intros ? ->.
  set (tail := (fun x => (x, dl_lambda dl)) <$> dl_decay dl).
  assert (p_opt [p_comma] (fun x => p_f32 x ++ p_opt [p_comma] p_f32 (dl_lambda dl)) (dl_decay dl) =
          p_opt [p_comma] (fun q : f32 * option f32 => p_f32 q.1 ++ p_opt [p_comma] p_f32 q.2) tail) as ->
    by (unfold tail; by destruct (dl_decay dl)).
  eapply parses_step; [reflexivity|apply (opt_parses _ KComma (lit ",") _ (fun q : f32 * option f32 => p_f32 q.1 ++ p_opt [p_comma] p_f32 q.2)
    (next_not [KComma]) tail)| |].
  - intros [x y] E. unfold tail in E. destruct (dl_decay dl) as [x'|] eqn:Ed; [|done]. injection E as -> <-. cbn [fst snd].
    eapply parses_step; [reflexivity|by apply f32_parses| |done]. intros ? ->.
    eapply parses_map; [eapply parses_mono; [apply (opt_parses _ KComma (lit ",") _ p_f32 anything)|done|by split]|].
    + intros y Ey. apply f32_parses. by rewrite Ey in *.
    + by intros ? ->.
  - intros ? ->. apply expect_then. intros t4. apply parses_ret. unfold tail.
    by destruct dl as [f o s [x|] [y|]].
  - intros rest _. split; cbn; set_solver.
Qed.

Lemma clauses_parse d cs :
  cs <> [] -> parses d (parse_clauses src toks) (p_clauses cs) (fun l => l = cs) (next_is [KRParen]).
Proof.
  intros Hne. eapply parses_mono; [apply (list_parses d KComma (lit ",") _ p_clause (next_not [KPrefix]) cs Hne)|done|].
  - intros c _. unfold parse_clause, p_clause. apply field_sec_then, expect_then. intros t.
    eapply parses_step; [reflexivity|apply string_parses| |done]. intros ? ->. destruct c as [f x []]; cbn [cl_prefix].
    + apply eat_yes. by apply parses_ret.
    + apply eat_no; [done|]. by apply parses_ret.
  - intros rest. cbn. set_solver.
  - intros rest Hr. by split; apply (next_is_not [KRParen]).
Qed.

Definition same_ranking (r r' : Ranking) : Prop := unplaced_ranking r' = unplaced_ranking r.

Lemma nonempty_ne {A} (l : list A) : nonempty l = true -> l <> [].
Proof. by destruct l. Qed.

Lemma opt_none {A} d k w (p : PM A) (pr : A -> list vtok) {B} (f : option A -> PM B) ts P (F : list vtok -> Prop) :
  (forall rest, F rest -> next_not [k] (ts ++ rest)) -> parses d (f None) ts P F ->
  parses d (optional toks k p ≫= f) (p_opt [(k, w)] pr None ++ ts) P F.
Proof.
  intros Hk Hf. eapply (parses_step _ _ _ _ [] ts (fun o => o = None) _ _ (next_not [k])); [done| |by intros ? ->|exact Hk].
  unfold optional. apply eat_no; [done|]. by apply parses_ret.
Qed.

Lemma ranking_parses d r :
  ranking_wf r = true -> ranking_ok r = true ->
  parses d (parse_ranking src toks) (p_ranking r) (same_ranking r) (next_not [KMinus; KFuse]).
Proof.
  intros Hwf Hok. unfold parse_ranking. apply here_any. intros at_. destruct r as [v dl a|cs a|v cs a|f desc]; cbn [ranking_wf ranking_ok p_ranking] in *; bdestr.
  - unfold paren. rewrite <- !app_assoc. apply call_yes; [done|]. apply bump_then. intros t1 _. apply bump_then. intros t2 _.
    eapply parses_step; [reflexivity|by apply vector_parses| |done]. intros ? ->. apply expect_then. intros t3.
    rewrite <- (app_nil_r (p_opt _ _ _)).
    eapply parses_step; [reflexivity|apply (opt_parses _ KMinus (lit "-") _ p_decay anything dl)| |].
    + intros x ->. by apply decay_parses.
    + intros ? ->. apply kind_rest. intros k. destruct (decide (k = KFuse)) as [->|].
      * intros st rest _ _ _ [Hr (x & vs & -> & E)]. exfalso. apply Hr. rewrite E. set_solver.
      * by apply parses_ret.
    + intros rest Hr. split; [done|]. destruct rest; [done|]. cbn in *. set_solver.
  - apply call_no; [done|]. apply call_yes; [done|]. apply bump_then. intros t1 _. apply bump_then. intros t2 _.
    eapply parses_step; [reflexivity|by apply clauses_parse, nonempty_ne| |].
    + intros ? ->. apply expect_then. intros t3. by apply parses_ret.
    + intros rest _. cbn. set_solver.
  - unfold paren. rewrite <- !app_assoc. apply call_yes; [done|]. apply bump_then. intros t1 _. apply bump_then. intros t2 _.
    eapply parses_step; [reflexivity|by apply vector_parses| |done]. intros ? ->. apply expect_then. intros t3.
    apply (opt_none _ _ (lit "-") _ p_decay); [by intros rest _; cbn; set_solver|]. apply kind_ts.
    rewrite decide_True by done. apply bump_then. intros t4 _. apply expect_word_then; [done|]. apply expect_then. intros t5.
    eapply parses_step; [reflexivity|by apply clauses_parse, nonempty_ne| |].
    + intros ? ->. apply expect_then. intros t6. by apply parses_ret.
    + intros rest _. cbn. set_solver.
  - unfold p_field. apply call_no; [done|]. apply call_no; [done|]. apply field_sec_then. destruct desc.
    + apply eat_yes. by apply parses_ret.
    + apply eat_other; [done|]. apply eat_yes. by apply parses_ret.
Qed.

(** ** Options *)

Lemma any_starts a : any_ok a = true ->
  exists k w ts, p_any a = (k, w) :: ts /\ k ∉ [KComma; KRParen; KLParen] /\
    (k ∈ [KIdent; KQuotedIdent] <-> exists s, a = AIdent s).
Proof.
  intros Ha. destruct a as [l|s]; [|do 3 eexists; split; [reflexivity|split; [set_solver|]]].
  - assert (exists k w ts, p_lit l = (k, w) :: ts /\ k ∈ [KMinus; KInt; KFloat; KStr; KTrue; KFalse; KNull]) as (k & w & ts & E & Hk).
    { destruct l as [n| |x| |[]|]; try done; cbn [p_lit];
        [destruct (int_starts n) as (k & w & ts & -> & Hk); do 3 eexists; split; [reflexivity|set_solver]
        |unfold p_f64; destruct (f64_neg x)|..]; do 3 eexists; (split; [reflexivity|set_solver]). }
    exists k, w, ts. split_and!; [done|set_solver|]. split; [|by intros [s ?]]. intros ?. exfalso. set_solver.
  - split; [by eauto|set_solver].
Qed.

Lemma any_parses d a : any_ok a = true -> parses d (parse_any_lit src toks) (p_any a) (fun a' => a' = a) anything.
Proof.
  intros Ha. destruct (any_starts a Ha) as (k & w & ts & E & _ & Hk). unfold parse_any_lit. rewrite E. apply kind_ts.
  destruct a as [l|s].
  - rewrite decide_False; [rewrite <- E; eapply then_ret; [apply literal_parses; by destruct l|done]|].
    intros Hd. destruct (proj1 Hk) as [s ?]; [set_solver|done].
  - rewrite decide_True; [|assert (k ∈ [KIdent; KQuotedIdent]) by (apply Hk; eauto); set_solver].
    injection E as <- <- <-. apply bump_then. intros t Ht. apply (text_then _ _ _ _ _ _ _ Ht). by apply parses_ret.
Qed.

Lemma arg_parses d a :
  arg_ok a = true -> parses d (parse_with_arg src toks) (p_arg a) (fun a' => a' = a) (next_is [KComma; KRParen]).
Proof.
  intros Ha. unfold parse_with_arg. destruct a as [v|name v]; cbn [arg_ok p_arg] in *.
  - rewrite <- (app_nil_r (p_any v)). eapply parses_step; [reflexivity|by apply any_parses| |done]. intros ? ->.
    apply kind_rest. intros k. destruct v as [l|s]; [by apply parses_ret|]. destruct (decide _) as [Hk|Hk]; [by apply parses_ret|].
    intros st rest _ _ _ [Hr (x & vs & -> & E)]. exfalso. apply Hk. cbn in Hr. rewrite E in Hr. set_solver.
  - bdestr. eapply parses_step; [reflexivity|by apply (any_parses d (AIdent name))| |done]. intros ? ->.
    destruct (any_starts v) as (k & w & ts & E & Hk & _); [done|]. rewrite E. apply kind_ts. rewrite decide_False by set_solver.
    rewrite <- E. eapply parses_mono; [eapply then_ret; [by apply any_parses|reflexivity]|done|done].
Qed.

Lemma value_parses d v : v <> VFlag -> value_ok v = true ->
  parses d (parse_with_value src toks) (drop 1 (p_value v)) (fun v' => v' = v) anything.
Proof.
  intros Hv Hok. unfold parse_with_value. destruct v as [|a|args]; [done|..]; cbn [value_ok p_value app drop] in *; rewrite drop_0.
  - destruct (any_starts a Hok) as (k & w & ts & E & Hk & _). rewrite E. apply kind_ts. rewrite decide_False by set_solver.
    rewrite <- E. eapply then_ret; [by apply any_parses|done].
  - unfold paren. cbn [app]. apply kind_ts. rewrite decide_True by done. apply bump_then. intros t _.
    assert (exists k w ts, p_list p_comma (map p_arg args) ++ [p_close] = (k, w) :: ts /\ (k = KRParen <-> args = []))
      as (k & w & ts & E & Hk).
    { destruct args as [|a args]; [do 3 eexists; done|]. apply andb_prop in Hok as [Ha _]. cbn [map p_list].
      destruct a as [v|name v]; cbn [p_arg arg_ok] in *.
      - destruct (any_starts v Ha) as (k & w & ts & -> & Hk & _). do 3 eexists. split; [reflexivity|]. split; [set_solver|done].
      - do 3 eexists. split; [reflexivity|]. by split. }
    rewrite E. apply kind_ts. rewrite <- E. case_decide as Hd.
    + pose proof (proj1 Hk Hd) as ->.
      eapply (parses_step _ _ _ _ [] _ (fun o => o = []) _ _ anything); [reflexivity|by apply parses_ret| |done].
      intros o ->. apply expect_then. intros t'. by apply parses_ret.
    + eapply parses_step; [reflexivity|apply (list_parses d KComma (lit ",") _ p_arg (next_is [KComma; KRParen]))| |].
      * by intros ->%Hk.
      * intros x Hx. apply arg_parses. by eapply forallb_elem.
      * intros rest. cbn. set_solver.
      * intros o ->. apply expect_then. intros t'. by apply parses_ret.
      * intros rest _. split; cbn; set_solver.
Qed.

Definition same_option (w w' : WithOption) : Prop := unplaced_option w' = unplaced_option w.

Lemma option_parses d o :
  option_ok o = true -> parses d (parse_with_option src toks) (p_option o) (same_option o) (next_not [KEq]).
Proof.
  intros [_ Hv]%andb_prop. unfold parse_with_option, p_option. destruct o as [name at_ v]. cbn [wo_name wo_value] in *.
  apply here_any. intros at'. cbn [app]. apply kind_ts.
  eapply (parses_step _ _ _ _ [(KIdent, name)] _ (fun n => n = name) _ _ anything); [reflexivity| | |done].
  - rewrite decide_True by done. apply bump_then. intros t [_ Ht] st rest Hs _ Hd _. exists name, st. unfold text. by rewrite Ht.
  - intros ? ->. destruct v as [|a|args]; cbn [p_value] in *.
    + apply eat_no; [done|]. eapply (parses_step _ _ _ _ [] [] (fun v => v = VFlag) _ _ anything); [done|by apply parses_ret| |done].
      intros ? ->. by apply parses_ret.
    + cbn [app]. apply eat_yes. eapply parses_map; [eapply parses_mono; [by apply (value_parses d (VScalar a))|done|done]|].
      by intros ? ->.
    + cbn [app]. apply eat_yes. eapply parses_map; [eapply parses_mono; [by apply (value_parses d (VArgs args))|done|done]|].
      by intros ? ->.
Qed.

Lemma options_parse d ws :
  ws <> [] -> forallb option_ok ws = true ->
  parses d (parse_with_options src toks) (p_withs ws) (fun ws' => map unplaced_option ws' = map unplaced_option ws) anything.
Proof.
  intros Hne Hok. unfold parse_with_options, p_withs, paren. apply expect_then. intros t.
  eapply parses_step; [reflexivity|apply (sep_by_parses d KComma (lit ",") _ p_option same_option (next_not [KEq]))| |].
  - done.
  - intros x Hx. apply option_parses. by eapply forallb_elem.
  - intros rest. cbn. set_solver.
  - intros l Hl. apply expect_then. intros t'. apply parses_ret. by apply Forall2_map_eq.
  - intros rest _. split; cbn; set_solver.
Qed.

(** ** Statements *)

Lemma sum_parses d f : parses d (parse_sum src toks) (paren (p_field f)) (fun f' => f' = f) anything.
Proof.
  unfold parse_sum, paren. apply expect_then. intros t. apply field_sec_then, expect_then. intros t'. by apply parses_ret.
Qed.

(** The items of an aggregate projection. *)
Definition agg_items (sums : list rstring) (count : bool) : list (option rstring) := map Some sums ++ if count then [None] else [].
Definition p_agg (i : option rstring) : list vtok :=
  match i with Some f => p_sum f | None => [word KIdent "count"] ++ paren [word KStar "*"] end.

Lemma agg_items_back sums count :
  omap (fun i => i) (agg_items sums count) = sums /\
  existsb (fun i => negb (bool_decide (is_Some i))) (agg_items sums count) = count.
Proof.
  unfold agg_items. induction sums as [|f sums [IH1 IH2]]; [by destruct count|]. split; cbn; [by f_equal|exact IH2].
Qed.

Lemma aggregate_parses d i : parses d (parse_aggregate src toks) (p_agg i) (fun i' => i' = i) anything.
Proof.
  unfold parse_aggregate. destruct i as [f|]; cbn [p_agg]; apply kind_ts.
  - rewrite decide_True by done. apply bump_then. intros t _. eapply then_ret; [apply sum_parses|done].
  - rewrite decide_False by done. apply call_yes; [done|]. apply bump_then. intros t _. do 3 (apply expect_then; intros ?).
    by apply parses_ret.
Qed.

Lemma select_parses d s :
  select_wf s = true -> parses d (parse_selection src toks) (p_select s) (fun s' => s' = s) (next_is [KFrom]).
Proof.
  intros Hwf. unfold parse_selection. destruct s as [|fs|fs|sums count]; cbn [p_select select_wf] in *.
  - apply eat_yes, kind_rest. intros k. destruct (decide (k = KExcept)) as [->|]; [|by apply parses_ret].
    intros st rest _ _ _ [Hr (v & vs & -> & E)]. exfalso. cbn in Hr. rewrite E in Hr. set_solver.
  - apply eat_yes. unfold paren. cbn [app]. apply kind_ts. rewrite decide_True by done. apply bump_then. intros t _.
    apply expect_then. intros t'. eapply parses_step; [reflexivity|by apply fields_parse, nonempty_ne| |].
    + intros ? ->. apply expect_then. intros t2. by apply parses_ret.
    + intros rest _. cbn. set_solver.
  - pose proof (fields_parse d fs (nonempty_ne _ Hwf)) as Hp. destruct fs as [|f fs]; [done|].
    apply eat_other; [done|]. apply kind_ts, call_no; [done|]. rewrite bool_decide_eq_false_2 by done. cbn [orb].
    eapply then_ret; [|reflexivity]. eapply parses_mono; [exact Hp|done|]. intros rest. by apply next_is_not.
  - assert (map p_sum sums ++ (if count then [[word KIdent "count"] ++ paren [word KStar "*"]] else []) =
            map p_agg (agg_items sums count)) as ->.
    { unfold agg_items. rewrite map_app. f_equal; [by rewrite map_map|by destruct count]. }
    assert (agg_items sums count <> []) as Hne by (by destruct sums, count).
    assert (parses d (parse_aggregate_selection src toks) (p_list p_comma (map p_agg (agg_items sums count)))
              (fun s => s = SelAggregates sums count) (next_is [KFrom])) as Hp.
    { unfold parse_aggregate_selection. eapply parses_map.
      - eapply parses_mono; [apply (list_parses d KComma (lit ",") _ p_agg anything _ Hne)|done|].
        + intros i _. apply aggregate_parses.
        + done.
        + intros rest Hr. split; [done|]. by apply (next_is_not [KFrom]).
      - intros ? ->. by destruct (agg_items_back sums count) as [-> ->]. }
    destruct sums as [|f sums].
    + destruct count; [|done]. apply eat_other; [done|]. apply kind_ts. apply call_yes; [done|].
      rewrite orb_true_r. exact Hp.
    + apply eat_other; [done|]. apply kind_ts, call_no; [done|]. rewrite bool_decide_eq_true_2 by done. exact Hp.
Qed.

Lemma from_parses d fs :
  parses d (parse_scope src toks) (p_from fs) (fun l => l = fs) (next_not [KComma]).
Proof.
  unfold parse_scope. destruct fs as [|f fs]; cbn [p_from].
  - apply eat_yes. by apply parses_ret.
  - pose proof (fields_parse d (f :: fs) ltac:(done)) as Hp. by apply eat_other.
Qed.

Lemma group_parses d g :
  parses d (parse_group src toks) (p_group g) (fun g' => g' = g) (next_not [KComma]).
Proof.
  destruct g as [f sums]. unfold parse_group, p_group. cbn [fst snd]. apply expect_then. intros t. apply field_sec_then.
  eapply parses_map; [eapply parses_mono; [apply (many_fuel_parses d KComma (lit ",") _ p_sum (fun x y => y = x) anything)|done|by split]|].
  - intros x _. apply expect_then. intros t'. apply sum_parses.
  - done.
  - intros l Hl. by rewrite (Forall2_same _ _ Hl).
Qed.

Lemma option_same {A B} (f : A -> B) o o' : option_Forall2 (fun x y => f y = f x) o o' -> f <$> o' = f <$> o.
Proof. intros [x y E|]; [|done]. cbn. by rewrite E. Qed.

Ltac follow := intros rest ?; rewrite <- ?app_assoc; repeat split;
  repeat (apply next_not_opt; [set_solver|]); try done; by apply (next_is_not [KSemicolon; KEof]).

Lemma statement_parses s :
  statement_wf s = true -> printable s = true ->
  parses 0 (parse_statement src toks) (p_statement s) (fun s' => unplaced s' = unplaced s) (next_is [KSemicolon; KEof]).
Proof.
  intros Hwf Hok. unfold statement_wf, printable in *. bdestr. unfold parse_statement, p_statement. apply here_any. intros at_.
  apply expect_then. intros t1. eapply parses_step; [reflexivity|by apply select_parses| |intros rest _; cbn; set_solver]. intros ? ->.
  apply expect_then. intros t2. eapply parses_step; [reflexivity|by apply from_parses| |follow]. intros ? ->.
  eapply parses_step; [reflexivity|apply (optional_parses 0 KWhere (lit "WHERE") _ p_pred same_pred (next_not [KAnd; KOr]))| |follow].
  { intros p E. rewrite E in *. cbn [opt_all] in *. bdestr. unfold parse_predicate. eapply pred_parses; [reflexivity|done|done| |lia].
    done. }
  intros flt Hflt. eapply parses_step; [reflexivity|apply (opt_parses 0 KGroup (lit "GROUP") _ p_group (next_not [KComma]))| |follow].
  { intros g _. apply group_parses. }
  intros ? ->. eapply parses_step; [reflexivity|apply (optional_parses 0 KOrder (lit "ORDER") _ (fun r => [word KBy "BY"] ++ p_ranking r)
    same_ranking (next_not [KMinus; KFuse]))| |follow].
  { intros r E. rewrite E in *. apply expect_then. intros t3. by apply ranking_parses. }
  intros order Horder. eapply parses_step; [reflexivity|apply (opt_parses 0 KLimit (lit "LIMIT") _ p_int anything)| |follow].
  { intros n E. rewrite E in *. by apply int_parses. }
  intros ? ->. eapply parses_step; [reflexivity|apply (opt_parses 0 KOffset (lit "OFFSET") _ p_int anything)| |follow].
  { intros n E. rewrite E in *. by apply int_parses. }
  intros ? ->.
  eapply parses_map; [eapply parses_mono; [apply (optional_parses 0 KWith (lit "WITH") _ p_withs
    (fun ws ws' => map unplaced_option ws' = map unplaced_option ws) anything)|done|]|].
  { intros ws E. unfold with_of in E. destruct (nonempty (sm_with s)) eqn:En; [|done]. injection E as <-.
    apply options_parse; [by apply nonempty_ne|done]. }
  { follow. }
  intros withs Hw. unfold unplaced. cbn [sm_at sm_select sm_from sm_filter sm_group_by sm_sums sm_order sm_limit sm_offset sm_with].
  f_equal.
  - by apply option_same.
  - unfold group_of. by destruct (sm_group_by s).
  - unfold group_of. destruct (sm_group_by s) eqn:Eg; [done|]. cbn.
    match goal with Hg : _ || bool_decide (_ = []) = true |- _ =>
      apply orb_prop in Hg as [[]%bool_decide_eq_true|Hg%bool_decide_eq_true]; [done|by rewrite Hg] end.
  - by apply option_same.
  - unfold with_of in Hw. destruct (sm_with s) as [|w ws]; inversion Hw; subst; [done|]. done.
Qed.

Lemma script_parses stmts : stmts <> [] -> forall n,
  (length stmts < n)%nat -> forallb statement_wf stmts = true -> forallb printable stmts = true ->
  parses 0 (script_loop src toks n) (p_list (word KSemicolon ";") (map p_statement stmts))
    (fun l => map unplaced l = map unplaced stmts) (next_is [KEof]).
Proof.
  induction stmts as [|s stmts IH]; intros Hne n Hn Hwf Hok; [done|]. destruct n as [|n]; [lia|].
  apply andb_prop in Hwf as [Hs Hwf]. apply andb_prop in Hok as [Hp Hok]. cbn [script_loop map p_list].
  change (p_statement s) with (word KSelect "SELECT" :: drop 1 (p_statement s)). apply kind_ts. rewrite decide_False by done.
  eapply (parses_step _ _ _ _ (p_statement s)); [reflexivity|by apply statement_parses| |].
  - intros s' Es. destruct stmts as [|s2 stmts].
    + apply eat_no; [intros rest; by apply (next_is_not [KEof])|]. apply parses_ret. cbn. by rewrite Es.
    + apply eat_yes. eapply parses_map; [apply IH; [done|cbn in *; lia|done|done]|]. intros l El. cbn [map]. by rewrite Es, El.
  - intros rest Hr. destruct stmts as [|s2 stmts]; [|cbn; set_solver]. destruct rest as [|v rest]; [done|]. cbn in *. set_solver.
Qed.
End parses.

(** ** Every written token reads back *)

Section tokens.
Context `{FloatText}.

Definition all_ok (ts : list vtok) : Prop := Forall (fun v => vtok_ok v = true) ts.

Lemma all_app a b : all_ok a -> all_ok b -> all_ok (a ++ b).
Proof. intros. by apply Forall_app. Qed.
Lemma all_cons v ts : vtok_ok v = true -> all_ok ts -> all_ok (v :: ts).
Proof. by constructor. Qed.
Lemma all_nil : all_ok [].
Proof. constructor. Qed.
Lemma all_list {A} sep (f : A -> list vtok) xs :
  vtok_ok sep = true -> (forall x, x ∈ xs -> all_ok (f x)) -> all_ok (p_list sep (map f xs)).
Proof.
  intros Hsep Hf. destruct xs as [|x xs]; [constructor|]. cbn [map p_list]. apply all_app; [apply Hf; left|].
  assert (forall y, y ∈ xs -> all_ok (f y)) as Hxs by (intros y Hy; apply Hf; by right). clear Hf.
  induction xs as [|y xs IH]; [constructor|]. apply all_cons; [done|]. apply all_app; [apply Hxs; left|].
  apply IH. intros z Hz. apply Hxs. by right.
Qed.
Lemma all_opt {A} v (f : A -> list vtok) o :
  vtok_ok v = true -> (forall x, o = Some x -> all_ok (f x)) -> all_ok (p_opt [v] f o).
Proof. intros Hv Hf. destruct o as [x|]; [|constructor]. apply all_cons; [done|]. by apply Hf. Qed.
Lemma all_paren ts : all_ok ts -> all_ok (paren ts).
Proof. intros Ht. apply all_cons; [done|]. apply all_app; [done|]. apply all_cons; [done|apply all_nil]. Qed.
Lemma all_field f : field_ok f = true -> all_ok (p_field f).
Proof. intros Hf. apply all_cons; [done|apply all_nil]. Qed.
Lemma all_str s : all_ok (p_str s).
Proof. apply all_cons; [|constructor]. unfold vtok_ok. cbn [fst snd]. by rewrite unescape_escape, bool_decide_eq_true_2. Qed.
Lemma all_int n : all_ok (p_int n).
Proof.
  apply all_app; [destruct (n <? 0)%Z; [by apply all_cons; [|apply all_nil]|apply all_nil]|]. apply all_cons; [|constructor]. unfold vtok_ok, number_text. cbn [fst snd].
  destruct (u64_string_spec (Z.abs_N n)) as (Hne & Hd & _).
  assert (forall w, forallb is_ascii_digit w = true -> split_digits w = (w, [])) as Hs.
  { induction w as [|c w IH]; [done|]. cbn. intros [Hc Hw]%andb_prop. by rewrite Hc, IH. }
  rewrite Hs by done. by destruct (u64_to_string (Z.abs_N n)).
Qed.
Lemma all_f64 x : f64_ok x = true -> all_ok (p_f64 x).
Proof. intros [Hx _]%andb_prop. unfold p_f64. destruct (f64_neg x); repeat apply all_cons; done || constructor. Qed.
Lemma all_f32 x : f32_ok x = true -> all_ok (p_f32 x).
Proof. intros [Hx _]%andb_prop. unfold p_f32. destruct (f32_neg x); repeat apply all_cons; done || constructor. Qed.

#[local] Hint Resolve all_nil all_paren all_field all_str all_int all_f64 all_f32 : toks.
(** Lists of tokens piece by piece. *)
Ltac toks :=
  repeat first
    [ assumption
    | progress eauto with toks
    | apply all_paren
    | apply all_app
    | apply all_cons; [reflexivity|]
    | apply all_list; [reflexivity|intros ? ?]
    | apply all_opt; [reflexivity|intros ? ?] ].

Lemma all_lit l : lit_ok l = true -> all_ok (p_lit l).
Proof. destruct l as [| | | |[]|]; cbn [p_lit lit_ok]; intros Hl; toks. Qed.
#[local] Hint Resolve all_lit : toks.

Lemma all_call name args : vtok_ok (word KIdent name) = true -> (forall a, a ∈ args -> all_ok a) -> all_ok (p_call name args).
Proof.
  intros Hn Ha. unfold p_call. apply all_cons; [done|]. apply all_paren. rewrite <- (map_id args). by apply all_list.
Qed.

Lemma all_field_args name f args :
  vtok_ok (word KIdent name) = true -> field_ok f = true -> (forall a, a ∈ args -> all_ok a) -> all_ok (p_call name (p_field f :: args)).
Proof. intros Hn Hf Ha. apply all_call; [done|]. intros a [->|Hin]%elem_of_cons; [by apply all_field|by apply Ha]. Qed.

Lemma all_one (a b : list vtok) : all_ok b -> a ∈ [b] -> all_ok a.
Proof. by intros Hb ->%list_elem_of_singleton. Qed.
Lemma all_lits vs a : forallb lit_ok vs = true -> a ∈ map p_lit vs -> all_ok a.
Proof. intros Hvs (l & -> & Hl)%list_elem_of_fmap. apply all_lit. by eapply forallb_elem. Qed.

Lemma all_pred n p : (pred_height p <= n)%nat -> pred_printable p = true -> all_ok (p_pred p).
Proof.
  revert p. induction n as [|n IH]; intros p Hh Hok; [destruct p; cbn in Hh; lia|].
  assert (forall items, pred_height (NAny items) <= S n -> forallb pred_printable items = true ->
    forall q, q ∈ items -> all_ok (p_item q))%nat as Hitems.
  { intros items Hhi Hoks q Hq. pose proof (forallb_elem _ _ _ Hoks Hq) as Hqo.
    cbn [pred_height] in Hhi. apply le_S_n, list_max_le in Hhi. rewrite List.Forall_map, List.Forall_forall in Hhi.
    apply list_elem_of_In in Hq. specialize (IH q (Hhi q Hq) Hqo). unfold p_item, wrap.
    destruct (is_not q), (is_leaf q); toks. }
  destruct p; cbn [p_pred pred_printable pred_height] in *; bdestr;
    try (apply all_field_args; [reflexivity|assumption|intros a; by apply all_lits]); toks.
  - unfold wrap. destruct (is_leaf p); toks; apply IH; (done || lia).
  - destruct op; toks.
  - destruct negate; toks.
  - apply all_lit. by eapply forallb_elem.
  - destruct negate; toks.
Qed.
#[local] Hint Resolve all_pred : toks.

Lemma all_fields fs : forallb field_ok fs = true -> all_ok (p_fields fs).
Proof. intros Hfs. unfold p_fields. toks. apply all_field. by eapply forallb_elem. Qed.
#[local] Hint Resolve all_fields : toks.

Lemma all_clauses cs : forallb (fun c => field_ok (cl_field c)) cs = true -> all_ok (p_clauses cs).
Proof.
  intros Hcs. unfold p_clauses. apply all_list; [done|]. intros c Hc. pose proof (forallb_elem _ _ _ Hcs Hc). unfold p_clause.
  toks. destruct (cl_prefix c); toks.
Qed.
#[local] Hint Resolve all_clauses : toks.

Lemma all_vector v : forallb f32_ok v = true -> all_ok (p_vector v).
Proof. intros Hv. unfold p_vector. toks. apply all_f32. by eapply forallb_elem. Qed.
#[local] Hint Resolve all_vector : toks.

Lemma all_decay d : decay_ok d = true -> all_ok (p_decay d).
Proof.
  unfold decay_ok, p_decay. intros Hd. bdestr. destruct (dl_decay d), (dl_lambda d); cbn [p_opt opt_all] in *; toks.
Qed.
#[local] Hint Resolve all_decay : toks.

Lemma all_ranking r : ranking_ok r = true -> all_ok (p_ranking r).
Proof.
  destruct r as [v [d|] a|cs a|v cs a|f []]; cbn [ranking_ok p_ranking p_opt opt_all]; intros Hr; bdestr; toks.
Qed.
#[local] Hint Resolve all_ranking : toks.

Lemma all_any a : any_ok a = true -> all_ok (p_any a).
Proof. destruct a as [[]|]; cbn [any_ok p_any]; intros Ha; toks; try done; by apply all_lit. Qed.
#[local] Hint Resolve all_any : toks.

Lemma all_option w : option_ok w = true -> all_ok (p_option w).
Proof.
  unfold option_ok, p_option. destruct w as [name at_ v]. cbn [wo_name wo_value]. intros Hw. bdestr. apply all_app.
  - apply all_cons; [done|apply all_nil].
  - destruct v as [|a|args]; cbn [value_ok p_value] in *; toks.
    destruct x as [a|n a]; match goal with Hx : _ ∈ args |- _ => pose proof (forallb_elem _ _ _ H1 Hx) as Ha end;
      cbn [arg_ok p_arg] in *; bdestr; toks.
Qed.

Lemma all_select s : select_ok s = true -> all_ok (p_select s).
Proof.
  destruct s as [|fs|fs|sums count]; cbn [select_ok p_select]; intros Hs; toks.
  assert (map p_sum sums ++ (if count then [[word KIdent "count"] ++ paren [word KStar "*"]] else []) =
    map p_agg (agg_items sums count)) as ->.
  { unfold agg_items. rewrite map_app. f_equal; [by rewrite map_map|by destruct count]. }
  apply all_list; [done|]. intros [f|] Hf; cbn [p_agg]; unfold p_sum; toks. apply all_field.
  unfold agg_items in Hf. apply elem_of_app in Hf as [(f' & [= <-] & Hf)%list_elem_of_fmap|Hf].
  - by eapply forallb_elem.
  - destruct count; [by apply list_elem_of_singleton in Hf|by inversion Hf].
Qed.

Lemma all_from fs : forallb field_ok fs = true -> all_ok (p_from fs).
Proof. intros Hfs. destruct fs; cbn [p_from]; toks. Qed.

Lemma all_group g : field_ok g.1 = true -> forallb field_ok g.2 = true -> all_ok (p_group g).
Proof.
  destruct g as [f sums]. cbn [fst snd]. intros Hf Hs. unfold p_group. cbn [fst snd]. toks.
  induction sums as [|x sums IH]; [apply all_nil|]. apply andb_prop in Hs as [Hx Hs].
  apply all_cons; [done|]. apply all_app; [|by apply IH]. unfold p_sum. toks.
Qed.
#[local] Hint Resolve all_select all_from all_option : toks.

Lemma all_statement s : printable s = true -> all_ok (p_statement s).
Proof.
  unfold printable, p_statement. intros Hs. bdestr. apply all_cons; [reflexivity|]. apply all_app; [by apply all_select|].
  apply all_cons; [reflexivity|]. apply all_app; [by apply all_from|].
  repeat apply all_app; apply all_opt; try reflexivity; intros x E.
  - rewrite E in *. cbn [opt_all] in *. bdestr. by eapply all_pred.
  - unfold group_of in E. destruct (sm_group_by s) as [g|]; [|done]. injection E as <-. by apply all_group.
  - rewrite E in *. apply all_cons; [reflexivity|]. by apply all_ranking.
  - toks.
  - toks.
  - unfold with_of in E. destruct (nonempty (sm_with s)); [|done]. injection E as <-. unfold p_withs.
    apply all_paren, all_list; [done|]. intros w Hw. apply all_option. by eapply forallb_elem.
Qed.

Lemma print_parses stmts :
  stmts <> [] -> forallb statement_wf stmts = true -> forallb printable stmts = true ->
  exists stmts', parse (print_script stmts) = Some (Ok stmts') /\ map unplaced stmts' = map unplaced stmts.
Proof.
  intros Hne Hwf Hok. unfold print_script. set (ts := p_list (word KSemicolon ";") (map p_statement stmts)).
  assert (all_ok ts) as Hts.
  { apply all_list; [reflexivity|]. intros s Hs. apply all_statement. by eapply forallb_elem. }
  destruct (lex_render ts Hts) as (toks & Hlex & Hview). unfold parse. rewrite Hlex.
  assert (length stmts < fuel toks)%nat as Hfuel.
  { apply Forall2_length in Hview. unfold fuel. rewrite Hview, length_app. cbn [length].
    enough (length stmts <= length ts)%nat by lia. unfold ts. clear. destruct stmts as [|s stmts]; [done|]. cbn [map p_list].
    rewrite length_app. induction stmts as [|s' stmts IH]; [cbn; lia|]. cbn [map] in *.
    change (mjoin (?x :: ?l)) with (x ++ mjoin l). cbn [length] in *. rewrite length_app. cbn [length]. lia. }
  destruct (script_parses (render ts) toks stmts Hne (fuel toks) Hfuel Hwf Hok {| ps_pos := 0; ps_depth := 0 |} [(KEof, [])])
    as (l & st & E & Hl & Hs & _); [exact Hview|done|done|cbn; set_solver|].
  unfold parse_script. unfold mbind at 1, PM_bind at 1. rewrite E. unfold mbind at 1, PM_bind at 1.
  rewrite (kind_at _ _ st _ _ Hs). cbn [fst]. rewrite decide_False by (intros Hk; by apply Hk).
  rewrite bool_decide_eq_false_2 by (intros ->; destruct stmts; done). by exists l.
Qed.

(** C22: writing statements out and parsing the text gives the statements
    back: every clause, predicate, literal, ranking and option, with the
    offsets kept for error messages apart. *)
Theorem parse_print stmts :
  stmts <> [] -> forallb statement_wf stmts = true -> forallb printable stmts = true ->
  exists stmts', parse (print_script stmts) = Some (Ok stmts') /\ map unplaced stmts' = map unplaced stmts.
Proof. apply print_parses. Qed.
End tokens.

(** The decimals of one half and of one. *)
Definition sample_floats : FloatText := {|
  f64_text x := if (x mod 2 ^ 63 =? 0x3FE0000000000000)%Z then lit "0.5" else lit "1.0";
  f32_text x := if (x mod 2 ^ 31 =? 0x3F000000)%Z then lit "0.5" else lit "1.0" |}.

Definition sample_search : Statement := {|
  sm_at := 0; sm_select := SelAllExcept [lit "body"]; sm_from := [lit "docs"; lit "notes"];
  sm_filter := Some (NAll [
    NNot (NAny [NCmp (lit "x") CGe (LInt (-2)); NIn (lit "tags") true [LStr (lit "it's"); LNull]]);
    NAny [NFuzzy (lit "name") (lit "ann") 1 0; NCmp (lit "t") CLt (LDateTime 7); NContainsAny (lit "a b") [LBool true; LFloat 0xBFE0000000000000]]]);
  sm_group_by := None; sm_sums := [];
  sm_order := Some (RKnn [0xBF000000%Z; 0x3F800000%Z]
    (Some {| dl_field := lit "t"; dl_origin := 5; dl_scale := 7; dl_decay := Some 0x3F000000%Z; dl_lambda := Some 0x3F800000%Z |}) 0);
  sm_limit := Some 3%Z; sm_offset := Some 1%Z;
  sm_with := [{| wo_name := lit "exact"; wo_name_at := 0; wo_value := VFlag |};
              {| wo_name := lit "limit_per"; wo_name_at := 0; wo_value := VArgs [OBare (AIdent (lit "f")); OKeyed (lit "n") (AVal (LInt 2))] |}] |}.
Definition sample_totals : Statement := {|
  sm_at := 0; sm_select := SelAggregates [lit "price"] true; sm_from := []; sm_filter := None;
  sm_group_by := Some (lit "city"); sm_sums := [lit "qty"]; sm_order := None; sm_limit := None; sm_offset := None; sm_with := [] |}.

Example print_totals :
  print_script (H := sample_floats) [sample_totals] = sql "SELECT SUM ( `price` ) , count ( * ) FROM * GROUP BY `city` , SUM ( `qty` ) ".
Proof. vm_compute. reflexivity. Qed.

Lemma parse_print_witness :
  exists stmts', parse (print_script (H := sample_floats) [sample_search; sample_totals]) = Some (Ok stmts') /\
    map unplaced stmts' = map unplaced [sample_search; sample_totals].
Proof.
  apply (parse_print (H := sample_floats)); [discriminate|vm_compute; reflexivity|vm_compute; reflexivity].
Defined.
