(* ===== verification/SqlCompile.v ===== *)
(** * SqlCompile: from statements to typed queries ([src/src/sql/compile.rs])

    A statement's [ORDER BY] head picks the entry point that runs it, and its
    other clauses fill the options of that entry point; [WITH] options an
    entry point has no place for are errors.  [compile_all] is the whole front
    end: text in, typed queries out. *)
From S2P Require Import Prelude Floats Model TextPred Std Backend IndexCache Manifest Lease Rank Hits Mmr Aggregate Expand.
From S2P Require Import SqlDate SqlLex SqlParse TextSearch.

(** ** Defaults ([src/src/model.rs]) *)

Definition ListOpts_default : ListOpts :=
  {| lo_offset := 0; lo_limit := 100; lo_filter := Filter_default; lo_projection := PrAll; lo_order_by := None |}.
Definition SearchOpts_default : SearchOpts :=
  {| so_top_k := 0; so_offset := 0; so_filter := Filter_default; so_min_score := None; so_exact := false;
     so_projection := PrAll; so_explain := false; so_plan := false; so_rank_by := None; so_limit_per := None;
     so_diversity := None; so_rerank := None; so_expand := None; so_names := []; so_name_weights := ∅;
     so_pool := PoolMax |}.
Definition HybridOpts_default : HybridOpts :=
  {| hy_top_k := 10; hy_offset := 0; hy_filter := Filter_default; hy_rrf_k := f32_of_Z 60; hy_candidates := 100;
     hy_explain := false; hy_plan := false; hy_vector_weight := f32_one; hy_text_weight := f32_one;
     hy_expand := None; hy_rerank := None; hy_limit_per := None; hy_diversity := None |}.
Definition DEFAULT_RERANK_OVERSCAN : nat := 10.
Definition RerankOpts_default : RerankOpts := {| ro_overscan := DEFAULT_RERANK_OVERSCAN; ro_text_attr := META_TEXT |}.

Definition default_decay : f32 := f32_half.
Definition default_lambda : f32 := f32_one.
Definition default_missing : f32 := f32_one.
Definition default_count_scale : f32 := f32_ten.
Definition default_count_lambda : f32 := f32_one.
Definition Decay_new (field : rstring) (origin scale : Z) : Decay :=
  {| d_field := field; d_origin := origin; d_scale := scale; d_decay := default_decay; d_lambda := default_lambda;
     d_missing := default_missing; d_count_field := None; d_count_scale := default_count_scale;
     d_count_lambda := default_count_lambda |}.
Definition Decay_decay (x : f32) (d : Decay) : Decay :=
  {| d_field := d_field d; d_origin := d_origin d; d_scale := d_scale d; d_decay := x; d_lambda := d_lambda d;
     d_missing := d_missing d; d_count_field := d_count_field d; d_count_scale := d_count_scale d;
     d_count_lambda := d_count_lambda d |}.
Definition Decay_lambda (x : f32) (d : Decay) : Decay :=
  {| d_field := d_field d; d_origin := d_origin d; d_scale := d_scale d; d_decay := d_decay d; d_lambda := x;
     d_missing := d_missing d; d_count_field := d_count_field d; d_count_scale := d_count_scale d;
     d_count_lambda := d_count_lambda d |}.
Definition FtsQuery_multi (clauses : list FtsClause) : FtsQuery :=
  {| fq_clauses := clauses; fq_combine := CombineSum; fq_highlight := None |}.

(** Assignments to one field of the options. *)
Definition so_set_top_k (v : nat) (o : SearchOpts) : SearchOpts :=
  {| so_top_k := v; so_offset := so_offset o; so_filter := so_filter o; so_min_score := so_min_score o;
     so_exact := so_exact o; so_projection := so_projection o; so_explain := so_explain o;
     so_plan := so_plan o; so_rank_by := so_rank_by o; so_limit_per := so_limit_per o;
     so_diversity := so_diversity o; so_rerank := so_rerank o; so_expand := so_expand o;
     so_names := so_names o; so_name_weights := so_name_weights o; so_pool := so_pool o |}.
Definition so_set_offset (v : nat) (o : SearchOpts) : SearchOpts :=
  {| so_top_k := so_top_k o; so_offset := v; so_filter := so_filter o; so_min_score := so_min_score o;
     so_exact := so_exact o; so_projection := so_projection o; so_explain := so_explain o;
     so_plan := so_plan o; so_rank_by := so_rank_by o; so_limit_per := so_limit_per o;
     so_diversity := so_diversity o; so_rerank := so_rerank o; so_expand := so_expand o;
     so_names := so_names o; so_name_weights := so_name_weights o; so_pool := so_pool o |}.
Definition so_set_min_score (v : option f32) (o : SearchOpts) : SearchOpts :=
  {| so_top_k := so_top_k o; so_offset := so_offset o; so_filter := so_filter o; so_min_score := v;
     so_exact := so_exact o; so_projection := so_projection o; so_explain := so_explain o;
     so_plan := so_plan o; so_rank_by := so_rank_by o; so_limit_per := so_limit_per o;
     so_diversity := so_diversity o; so_rerank := so_rerank o; so_expand := so_expand o;
     so_names := so_names o; so_name_weights := so_name_weights o; so_pool := so_pool o |}.
Definition so_set_exact (v : bool) (o : SearchOpts) : SearchOpts :=
  {| so_top_k := so_top_k o; so_offset := so_offset o; so_filter := so_filter o;
     so_min_score := so_min_score o; so_exact := v; so_projection := so_projection o;
     so_explain := so_explain o; so_plan := so_plan o; so_rank_by := so_rank_by o;
     so_limit_per := so_limit_per o; so_diversity := so_diversity o; so_rerank := so_rerank o;
     so_expand := so_expand o; so_names := so_names o; so_name_weights := so_name_weights o;
     so_pool := so_pool o |}.
Definition so_set_explain (v : bool) (o : SearchOpts) : SearchOpts :=
  {| so_top_k := so_top_k o; so_offset := so_offset o; so_filter := so_filter o;
     so_min_score := so_min_score o; so_exact := so_exact o; so_projection := so_projection o;
     so_explain := v; so_plan := so_plan o; so_rank_by := so_rank_by o; so_limit_per := so_limit_per o;
     so_diversity := so_diversity o; so_rerank := so_rerank o; so_expand := so_expand o;
     so_names := so_names o; so_name_weights := so_name_weights o; so_pool := so_pool o |}.
Definition so_set_plan (v : bool) (o : SearchOpts) : SearchOpts :=
  {| so_top_k := so_top_k o; so_offset := so_offset o; so_filter := so_filter o;
     so_min_score := so_min_score o; so_exact := so_exact o; so_projection := so_projection o;
     so_explain := so_explain o; so_plan := v; so_rank_by := so_rank_by o; so_limit_per := so_limit_per o;
     so_diversity := so_diversity o; so_rerank := so_rerank o; so_expand := so_expand o;
     so_names := so_names o; so_name_weights := so_name_weights o; so_pool := so_pool o |}.
Definition so_set_rank_by (v : option RankBy) (o : SearchOpts) : SearchOpts :=
  {| so_top_k := so_top_k o; so_offset := so_offset o; so_filter := so_filter o;
     so_min_score := so_min_score o; so_exact := so_exact o; so_projection := so_projection o;
     so_explain := so_explain o; so_plan := so_plan o; so_rank_by := v; so_limit_per := so_limit_per o;
     so_diversity := so_diversity o; so_rerank := so_rerank o; so_expand := so_expand o;
     so_names := so_names o; so_name_weights := so_name_weights o; so_pool := so_pool o |}.
Definition so_set_limit_per (v : option LimitPer) (o : SearchOpts) : SearchOpts :=
  {| so_top_k := so_top_k o; so_offset := so_offset o; so_filter := so_filter o;
     so_min_score := so_min_score o; so_exact := so_exact o; so_projection := so_projection o;
     so_explain := so_explain o; so_plan := so_plan o; so_rank_by := so_rank_by o; so_limit_per := v;
     so_diversity := so_diversity o; so_rerank := so_rerank o; so_expand := so_expand o;
     so_names := so_names o; so_name_weights := so_name_weights o; so_pool := so_pool o |}.
Definition so_set_diversity (v : option f32) (o : SearchOpts) : SearchOpts :=
  {| so_top_k := so_top_k o; so_offset := so_offset o; so_filter := so_filter o;
     so_min_score := so_min_score o; so_exact := so_exact o; so_projection := so_projection o;
     so_explain := so_explain o; so_plan := so_plan o; so_rank_by := so_rank_by o;
     so_limit_per := so_limit_per o; so_diversity := v; so_rerank := so_rerank o;
     so_expand := so_expand o; so_names := so_names o; so_name_weights := so_name_weights o;
     so_pool := so_pool o |}.
Definition so_set_rerank (v : option RerankOpts) (o : SearchOpts) : SearchOpts :=
  {| so_top_k := so_top_k o; so_offset := so_offset o; so_filter := so_filter o;
     so_min_score := so_min_score o; so_exact := so_exact o; so_projection := so_projection o;
     so_explain := so_explain o; so_plan := so_plan o; so_rank_by := so_rank_by o;
     so_limit_per := so_limit_per o; so_diversity := so_diversity o; so_rerank := v;
     so_expand := so_expand o; so_names := so_names o; so_name_weights := so_name_weights o;
     so_pool := so_pool o |}.
Definition so_set_expand (v : option Expand) (o : SearchOpts) : SearchOpts :=
  {| so_top_k := so_top_k o; so_offset := so_offset o; so_filter := so_filter o;
     so_min_score := so_min_score o; so_exact := so_exact o; so_projection := so_projection o;
     so_explain := so_explain o; so_plan := so_plan o; so_rank_by := so_rank_by o;
     so_limit_per := so_limit_per o; so_diversity := so_diversity o; so_rerank := so_rerank o;
     so_expand := v; so_names := so_names o; so_name_weights := so_name_weights o; so_pool := so_pool o |}.
Definition hy_set_top_k (v : nat) (o : HybridOpts) : HybridOpts :=
  {| hy_top_k := v; hy_offset := hy_offset o; hy_filter := hy_filter o; hy_rrf_k := hy_rrf_k o;
     hy_candidates := hy_candidates o; hy_explain := hy_explain o; hy_plan := hy_plan o;
     hy_vector_weight := hy_vector_weight o; hy_text_weight := hy_text_weight o; hy_expand := hy_expand o;
     hy_rerank := hy_rerank o; hy_limit_per := hy_limit_per o; hy_diversity := hy_diversity o |}.
Definition hy_set_offset (v : nat) (o : HybridOpts) : HybridOpts :=
  {| hy_top_k := hy_top_k o; hy_offset := v; hy_filter := hy_filter o; hy_rrf_k := hy_rrf_k o;
     hy_candidates := hy_candidates o; hy_explain := hy_explain o; hy_plan := hy_plan o;
     hy_vector_weight := hy_vector_weight o; hy_text_weight := hy_text_weight o; hy_expand := hy_expand o;
     hy_rerank := hy_rerank o; hy_limit_per := hy_limit_per o; hy_diversity := hy_diversity o |}.
Definition hy_set_rrf_k (v : f32) (o : HybridOpts) : HybridOpts :=
  {| hy_top_k := hy_top_k o; hy_offset := hy_offset o; hy_filter := hy_filter o; hy_rrf_k := v;
     hy_candidates := hy_candidates o; hy_explain := hy_explain o; hy_plan := hy_plan o;
     hy_vector_weight := hy_vector_weight o; hy_text_weight := hy_text_weight o; hy_expand := hy_expand o;
     hy_rerank := hy_rerank o; hy_limit_per := hy_limit_per o; hy_diversity := hy_diversity o |}.
Definition hy_set_candidates (v : nat) (o : HybridOpts) : HybridOpts :=
  {| hy_top_k := hy_top_k o; hy_offset := hy_offset o; hy_filter := hy_filter o; hy_rrf_k := hy_rrf_k o;
     hy_candidates := v; hy_explain := hy_explain o; hy_plan := hy_plan o;
     hy_vector_weight := hy_vector_weight o; hy_text_weight := hy_text_weight o; hy_expand := hy_expand o;
     hy_rerank := hy_rerank o; hy_limit_per := hy_limit_per o; hy_diversity := hy_diversity o |}.
Definition hy_set_explain (v : bool) (o : HybridOpts) : HybridOpts :=
  {| hy_top_k := hy_top_k o; hy_offset := hy_offset o; hy_filter := hy_filter o; hy_rrf_k := hy_rrf_k o;
     hy_candidates := hy_candidates o; hy_explain := v; hy_plan := hy_plan o;
     hy_vector_weight := hy_vector_weight o; hy_text_weight := hy_text_weight o; hy_expand := hy_expand o;
     hy_rerank := hy_rerank o; hy_limit_per := hy_limit_per o; hy_diversity := hy_diversity o |}.
Definition hy_set_plan (v : bool) (o : HybridOpts) : HybridOpts :=
  {| hy_top_k := hy_top_k o; hy_offset := hy_offset o; hy_filter := hy_filter o; hy_rrf_k := hy_rrf_k o;
     hy_candidates := hy_candidates o; hy_explain := hy_explain o; hy_plan := v;
     hy_vector_weight := hy_vector_weight o; hy_text_weight := hy_text_weight o; hy_expand := hy_expand o;
     hy_rerank := hy_rerank o; hy_limit_per := hy_limit_per o; hy_diversity := hy_diversity o |}.
Definition hy_set_vector_weight (v : f32) (o : HybridOpts) : HybridOpts :=
  {| hy_top_k := hy_top_k o; hy_offset := hy_offset o; hy_filter := hy_filter o; hy_rrf_k := hy_rrf_k o;
     hy_candidates := hy_candidates o; hy_explain := hy_explain o; hy_plan := hy_plan o;
     hy_vector_weight := v; hy_text_weight := hy_text_weight o; hy_expand := hy_expand o;
     hy_rerank := hy_rerank o; hy_limit_per := hy_limit_per o; hy_diversity := hy_diversity o |}.
Definition hy_set_text_weight (v : f32) (o : HybridOpts) : HybridOpts :=
  {| hy_top_k := hy_top_k o; hy_offset := hy_offset o; hy_filter := hy_filter o; hy_rrf_k := hy_rrf_k o;
     hy_candidates := hy_candidates o; hy_explain := hy_explain o; hy_plan := hy_plan o;
     hy_vector_weight := hy_vector_weight o; hy_text_weight := v; hy_expand := hy_expand o;
     hy_rerank := hy_rerank o; hy_limit_per := hy_limit_per o; hy_diversity := hy_diversity o |}.
Definition hy_set_expand (v : option Expand) (o : HybridOpts) : HybridOpts :=
  {| hy_top_k := hy_top_k o; hy_offset := hy_offset o; hy_filter := hy_filter o; hy_rrf_k := hy_rrf_k o;
     hy_candidates := hy_candidates o; hy_explain := hy_explain o; hy_plan := hy_plan o;
     hy_vector_weight := hy_vector_weight o; hy_text_weight := hy_text_weight o; hy_expand := v;
     hy_rerank := hy_rerank o; hy_limit_per := hy_limit_per o; hy_diversity := hy_diversity o |}.
Definition hy_set_rerank (v : option RerankOpts) (o : HybridOpts) : HybridOpts :=
  {| hy_top_k := hy_top_k o; hy_offset := hy_offset o; hy_filter := hy_filter o; hy_rrf_k := hy_rrf_k o;
     hy_candidates := hy_candidates o; hy_explain := hy_explain o; hy_plan := hy_plan o;
     hy_vector_weight := hy_vector_weight o; hy_text_weight := hy_text_weight o; hy_expand := hy_expand o;
     hy_rerank := v; hy_limit_per := hy_limit_per o; hy_diversity := hy_diversity o |}.

(** ** Compiled statements ([src/src/sql/mod.rs]) *)

Inductive Compiled :=
| CSearch (collections : list rstring) (vector : list f32) (opts : SearchOpts)
| CTextSearch (collections : list rstring) (query : FtsQuery) (opts : SearchOpts)
| CHybrid (collections : list rstring) (vector : list f32) (text : FtsQuery) (opts : HybridOpts)
| CList (collections : list rstring) (opts : ListOpts)
| CAggregate (collections : list rstring) (opts : AggregateOpts).

Definition DEFAULT_RANKED_LIMIT : nat := 10.

(** ** Literals and predicates *)

(** [iter().map(f).collect::<Result<Vec<_>, _>>()]. *)
Section collect.
Context {E A B : Type} (f : A -> result E B).
Fixpoint collect (l : list A) : result E (list B) :=
  match l with
  | [] => Ok []
  | a :: l => (let? b := f a in let? bs := collect l in Ok (b :: bs))%res
  end.
End collect.

Definition compile_lit (l : Lit) : Value :=
  match l with
  | LInt n => VInt n
  | LDateTime ms => VDateTime ms
  | LFloat x => VFloat x
  | LStr s => VStr s
  | LBool b => VBool b
  | LNull => VNull
  end.

Definition compile_cmp (op : CmpOp) : rstring -> Value -> Predicate :=
  match op with CEq => PEq | CNe => PNe | CLt => PLt | CLe => PLe | CGt => PGt | CGe => PGe end.

Fixpoint compile_predicate (p : PredNode) : result SqlError Predicate :=
  (match p with
   | NAny items => let? ps := collect compile_predicate items in Ok (PAny ps)
   | NAll items => let? ps := collect compile_predicate items in Ok (PAll ps)
   | NNot inner => let? q := compile_predicate inner in Ok (PNot q)
   | NCmp field op value => Ok (compile_cmp op field (compile_lit value))
   | NIn field negate values =>
       Ok (if negate then PNotIn field (map compile_lit values) else PIn field (map compile_lit values))
   | NLike field negate pattern => Ok (if negate then PNot (PGlob field pattern) else PGlob field pattern)
   | NILike field pattern => Ok (PIGlob field pattern)
   | NRegex field pattern => Ok (PRegex field pattern)
   | NContains field value => Ok (PContains field (compile_lit value))
   | NNotContains field value => Ok (PNotContains field (compile_lit value))
   | NContainsAny field values => Ok (PContainsAny field (map compile_lit values))
   | NFuzzy field needle edits at_ =>
       if (edits <? 0)%Z then Err (SqlError_new at_ (lit "fuzzy edit count must not be negative") SEC_TEXT)
       else Ok (PFuzzy field needle (Z.to_nat edits))
   | NMatchAll field query => Ok (PContainsAllTokens field query)
   | NMatchAny field query => Ok (PContainsAnyToken field query)
   | NPhrase field query => Ok (PContainsTokenSequence field query)
   end)%res.

Definition compile_filter (pred : option PredNode) : result SqlError Filter :=
  (match pred with
   | None => Ok Filter_default
   | Some (NAll items) => let? ps := collect compile_predicate items in Ok {| filter_preds := ps |}
   | Some other => let? p := compile_predicate other in Ok {| filter_preds := [p] |}
   end)%res.

Definition compile_projection (select : Selection) : Projection :=
  match select with
  | SelAll => PrAll
  | SelAllExcept fields => PrExclude fields
  | SelFields fields => PrInclude fields
  | SelAggregates _ _ => PrAll
  end.

Definition compile_clause (c : ClauseLit) : FtsClause :=
  {| fc_field := cl_field c; fc_text := cl_text c; fc_prefix := cl_prefix c |}.
Definition compile_clauses (clauses : list ClauseLit) : FtsQuery := FtsQuery_multi (map compile_clause clauses).

Definition compile_decay (d : DecayLit) : Decay :=
  let decay := Decay_new (dl_field d) (dl_origin d) (dl_scale d) in
  let decay := match dl_decay d with Some x => Decay_decay x decay | None => decay end in
  match dl_lambda d with Some x => Decay_lambda x decay | None => decay end.

Definition to_usize (n : Z) (at_ : nat) (section : rstring) : result SqlError nat :=
  if (n <? 0)%Z then Err (SqlError_new at_ (lit "expected a non-negative integer") section) else Ok (Z.to_nat n).

(** ** The values of [WITH] options *)

Definition key_is (key : rstring) (words : list String.string) : bool := bool_decide (key ∈ map lit words).

Definition with_key_section (key : rstring) : rstring :=
  if key_is key ["annotations"%string] then SEC_ANNOTATE
  else if key_is key ["plan"%string] then SEC_PLAN
  else if key_is key ["context"%string] then SEC_EXPAND
  else if key_is key ["diversity"; "limit_per"]%string then SEC_AGG
  else SEC_RANK.

Definition about (w : WithOption) (what : String.string) : SqlError :=
  SqlError_new (wo_name_at w) (lit "'" ++ wo_name w ++ lit "' " ++ lit what) (with_key_section (str_to_lower (wo_name w))).
Definition contradiction : WithOption -> String.string -> SqlError := about.
Definition bad_value (w : WithOption) (expected : String.string) : SqlError := about w ("requires " ++ expected)%string.

Definition require_flag (w : WithOption) : result SqlError unit :=
  match wo_value w with VFlag => Ok tt | _ => Err (contradiction w "takes no value") end.

Definition lit_i64 (v : AnyLit) : option Z := match v with AVal (LInt n) => Some n | _ => None end.
Definition lit_f32 (v : AnyLit) : option f32 :=
  match v with AVal (LInt n) => Some (f32_of_Z n) | AVal (LFloat f) => Some (f32_of_f64 f) | _ => None end.
Definition lit_field (v : AnyLit) : option rstring :=
  match v with AIdent s => Some s | AVal (LStr s) => Some s | _ => None end.

Definition scalar_f32 (w : WithOption) : result SqlError f32 :=
  match wo_value w with
  | VScalar v => match lit_f32 v with Some x => Ok x | None => Err (bad_value w "a number") end
  | _ => Err (bad_value w "a number")
  end.
Definition scalar_usize (w : WithOption) : result SqlError nat :=
  match wo_value w with
  | VScalar (AVal (LInt n)) => if (0 <=? n)%Z then Ok (Z.to_nat n) else Err (bad_value w "a non-negative integer")
  | _ => Err (bad_value w "a non-negative integer")
  end.
Definition list_args (w : WithOption) : result SqlError (list OptArg) :=
  match wo_value w with VArgs args => Ok args | _ => Err (bad_value w "a parenthesized argument list") end.

Fixpoint keyed (args : list OptArg) (key : String.string) : option AnyLit :=
  match args with
  | [] => None
  | OKeyed name v :: args => if eq_ignore_ascii_case name (lit key) then Some v else keyed args key
  | OBare _ :: args => keyed args key
  end.
Definition bare_at (args : list OptArg) (index : nat) : option AnyLit :=
  omap (fun a => match a with OBare v => Some v | OKeyed _ _ => None end) args !! index.

Definition compile_limit_per (w : WithOption) : result SqlError LimitPer :=
  (let? args := list_args w in
   let bad := Err (bad_value w "(field, n) with a non-negative n") in
   if negb (length args =? 2)%nat then bad
   else match bare_at args 0 ≫= lit_field, bare_at args 1 ≫= lit_i64 with
   | Some field, Some max => if (0 <=? max)%Z then Ok {| lp_field := field; lp_max := Z.to_nat max |} else bad
   | _, _ => bad
   end)%res.

Definition compile_context (w : WithOption) : result SqlError Expand :=
  (let? args := list_args w in
   match keyed args "radius" ≫= lit_i64 with
   | None => Err (bad_value w "at least a radius, e.g. (radius 2)")
   | Some radius =>
       if (radius <? 0)%Z then Err (bad_value w "a non-negative radius")
       else
         let e := Expand_new (Z.to_N radius) in
         Ok {| e_parent_field := default (e_parent_field e) (keyed args "parent" ≫= lit_field);
               e_index_field := default (e_index_field e) (keyed args "index" ≫= lit_field);
               e_text_field := default (e_text_field e) (keyed args "text" ≫= lit_field);
               e_radius := e_radius e |}
   end)%res.

Definition compile_rerank (w : WithOption) : result SqlError RerankOpts :=
  (let? args := list_args w in
   let? overscan := match keyed args "overscan" ≫= lit_i64 with
     | Some n => if (n <? 0)%Z then Err (bad_value w "a non-negative overscan") else Ok (Z.to_nat n)
     | None => Ok (ro_overscan RerankOpts_default)
     end in
   Ok {| ro_overscan := overscan; ro_text_attr := default (ro_text_attr RerankOpts_default) (keyed args "text" ≫= lit_field) |})%res.

Definition compile_weights (w : WithOption) : result SqlError (f32 * f32) :=
  (let? args := list_args w in
   let bad := Err (bad_value w "(vector_weight, text_weight) as two numbers") in
   if negb (length args =? 2)%nat then bad
   else match bare_at args 0 ≫= lit_f32, bare_at args 1 ≫= lit_f32 with
   | Some v, Some t => Ok (v, t)
   | _, _ => bad
   end)%res.

Definition unknown_with_key (w : WithOption) : SqlError :=
  SqlError_new (wo_name_at w) (lit "unknown WITH option '" ++ wo_name w ++ lit "'") SEC_SYNTAX.

(** [for w in with]. *)
Fixpoint for_each_with {O} (apply : WithOption -> O -> result SqlError O) (with_ : list WithOption) (opts : O) : result SqlError O :=
  match with_ with
  | [] => Ok opts
  | w :: with_ => (let? opts := apply w opts in for_each_with apply with_ opts)%res
  end.

Definition apply_search_option (allow_plan : bool) (w : WithOption) (opts : SearchOpts) : result SqlError SearchOpts :=
  (let key s := bool_decide (str_to_lower (wo_name w) = lit s) in
   if key "annotations" then let? _ := require_flag w in Ok (so_set_explain true opts)
   else if key "plan" then
     let? _ := require_flag w in
     if allow_plan then Ok (so_set_plan true opts)
     else Err (contradiction w "requires ORDER BY knn(...) or knn(...) FUSE match(...), not match(...) alone")
   else if key "exact" then let? _ := require_flag w in Ok (so_set_exact true opts)
   else if key "min_score" then let? x := scalar_f32 w in Ok (so_set_min_score (Some x) opts)
   else if key "diversity" then let? x := scalar_f32 w in Ok (so_set_diversity (Some x) opts)
   else if key "limit_per" then let? l := compile_limit_per w in Ok (so_set_limit_per (Some l) opts)
   else if key "context" then let? e := compile_context w in Ok (so_set_expand (Some e) opts)
   else if key "rerank" then let? r := compile_rerank w in Ok (so_set_rerank (Some r) opts)
   else if key "candidates" || key "rrf_k" || key "weights" then
     Err (contradiction w "requires ORDER BY knn(...) FUSE match(...)")
   else Err (unknown_with_key w))%res.
Definition apply_with_search (allow_plan : bool) (with_ : list WithOption) (opts : SearchOpts) : result SqlError SearchOpts :=
  for_each_with (apply_search_option allow_plan) with_ opts.

Definition apply_hybrid_option (w : WithOption) (opts : HybridOpts) : result SqlError HybridOpts :=
  (let key s := bool_decide (str_to_lower (wo_name w) = lit s) in
   if key "annotations" then let? _ := require_flag w in Ok (hy_set_explain true opts)
   else if key "plan" then let? _ := require_flag w in Ok (hy_set_plan true opts)
   else if key "context" then let? e := compile_context w in Ok (hy_set_expand (Some e) opts)
   else if key "rerank" then let? r := compile_rerank w in Ok (hy_set_rerank (Some r) opts)
   else if key "candidates" then let? n := scalar_usize w in Ok (hy_set_candidates n opts)
   else if key "rrf_k" then let? x := scalar_f32 w in Ok (hy_set_rrf_k x opts)
   else if key "weights" then
     let? vt := compile_weights w in Ok (hy_set_text_weight (snd vt) (hy_set_vector_weight (fst vt) opts))
   else if key "exact" || key "min_score" || key "diversity" || key "limit_per" then
     Err (contradiction w "requires a vector-only ORDER BY knn(...), not knn(...) FUSE match(...)")
   else Err (unknown_with_key w))%res.
Definition apply_with_hybrid (with_ : list WithOption) (opts : HybridOpts) : result SqlError HybridOpts :=
  for_each_with apply_hybrid_option with_ opts.

Definition reject_all_with (with_ : list WithOption) (context : String.string) : result SqlError unit :=
  match with_ with
  | [] => Ok tt
  | w :: _ => Err (contradiction w ("is not supported on " ++ context)%string)
  end.

(** ** Statements *)

(** [Vec::dedup]: equal neighbours are one. *)
Fixpoint vec_dedup (l : list rstring) : list rstring :=
  match l with
  | a :: (b :: _) as rest => if bool_decide (a = b) then vec_dedup rest else a :: vec_dedup rest
  | _ => l
  end.

Definition set_page {O} (stmt : Statement) (set_limit set_offset : nat -> O -> O) (opts : O) : result SqlError O :=
  (let? opts := match sm_limit stmt with
     | Some n => let? n := to_usize n (sm_at stmt) SEC_SYNTAX in Ok (set_limit n opts)
     | None => Ok opts
     end in
   match sm_offset stmt with
   | Some n => let? n := to_usize n (sm_at stmt) SEC_SYNTAX in Ok (set_offset n opts)
   | None => Ok opts
   end)%res.

Definition reject_group (stmt : Statement) (at_ : nat) (ranking : String.string) : result SqlError unit :=
  if bool_decide (is_Some (sm_group_by stmt))
  then Err (SqlError_new at_ (lit ("ORDER BY " ++ ranking ++ " cannot combine with GROUP BY")%string) SEC_AGG)
  else Ok tt.

(** The options of a ranked query before its own clauses. *)
Definition ranked_opts (stmt : Statement) : result SqlError SearchOpts :=
  (let? filter := compile_filter (sm_filter stmt) in
   set_page stmt so_set_top_k so_set_offset
     {| so_top_k := DEFAULT_RANKED_LIMIT; so_offset := 0; so_filter := filter; so_min_score := None; so_exact := false;
        so_projection := compile_projection (sm_select stmt); so_explain := false; so_plan := false; so_rank_by := None;
        so_limit_per := None; so_diversity := None; so_rerank := None; so_expand := None; so_names := [];
        so_name_weights := ∅; so_pool := PoolMax |})%res.

Definition compile_search (stmt : Statement) (vector : list f32) (decay : option DecayLit) (at_ : nat) : result SqlError Compiled :=
  (let? _ := reject_group stmt at_ "knn(...)" in
   let? opts := ranked_opts stmt in
   let opts := match decay with Some d => so_set_rank_by (Some (RankDecay (compile_decay d))) opts | None => opts end in
   let? opts := apply_with_search true (sm_with stmt) opts in
   Ok (CSearch (sm_from stmt) vector opts))%res.

Definition compile_text_search (stmt : Statement) (clauses : list ClauseLit) (at_ : nat) : result SqlError Compiled :=
  (let? _ := reject_group stmt at_ "match(...)" in
   let? opts := ranked_opts stmt in
   let? opts := apply_with_search false (sm_with stmt) opts in
   Ok (CTextSearch (sm_from stmt) (compile_clauses clauses) opts))%res.

Definition require_select_all (stmt : Statement) (why : String.string) (section : rstring) : result SqlError unit :=
  match sm_select stmt with
  | SelAll => Ok tt
  | _ => Err (SqlError_new (sm_at stmt) (lit ("SELECT columns are not supported " ++ why)%string) section)
  end.

Definition compile_hybrid (stmt : Statement) (vector : list f32) (clauses : list ClauseLit) (at_ : nat) : result SqlError Compiled :=
  (let? _ := reject_group stmt at_ "knn(...) FUSE match(...)" in
   let? _ := require_select_all stmt "on a FUSE (hybrid) query" SEC_RANK in
   let? filter := compile_filter (sm_filter stmt) in
   let? opts := set_page stmt hy_set_top_k hy_set_offset
     {| hy_top_k := hy_top_k HybridOpts_default; hy_offset := 0; hy_filter := filter; hy_rrf_k := hy_rrf_k HybridOpts_default;
        hy_candidates := hy_candidates HybridOpts_default; hy_explain := false; hy_plan := false;
        hy_vector_weight := f32_one; hy_text_weight := f32_one; hy_expand := None; hy_rerank := None;
        hy_limit_per := None; hy_diversity := None |} in
   let? opts := apply_with_hybrid (sm_with stmt) opts in
   Ok (CHybrid (sm_from stmt) vector (compile_clauses clauses) opts))%res.

Definition compile_aggregate (stmt : Statement) (projected : option (list rstring)) (order_field : option (rstring * bool))
  : result SqlError Compiled :=
  (let? _ := match projected with
     | None => require_select_all stmt "on an aggregate query (GROUP BY)" SEC_AGG
     | Some _ => Ok tt
     end in
   let? _ := (if bool_decide (is_Some (sm_limit stmt)) || bool_decide (is_Some (sm_offset stmt))
              then Err (SqlError_new (sm_at stmt) (lit "LIMIT/OFFSET are not supported on an aggregate query") SEC_AGG)
              else Ok tt) in
   let? _ := (if bool_decide (is_Some order_field)
              then Err (SqlError_new (sm_at stmt) (lit "ORDER BY is not supported on an aggregate query") SEC_AGG)
              else Ok tt) in
   let? _ := reject_all_with (sm_with stmt) "an aggregate query" in
   let? filter := compile_filter (sm_filter stmt) in
   Ok (CAggregate (sm_from stmt)
     {| ao_filter := filter; ao_sum := vec_dedup (default [] projected ++ sm_sums stmt); ao_group_by := sm_group_by stmt |}))%res.

Definition compile_list_or_aggregate (stmt : Statement) (order_field : option (rstring * bool)) : result SqlError Compiled :=
  (let projected := match sm_select stmt with SelAggregates sums _ => Some sums | _ => None end in
   if bool_decide (is_Some (sm_group_by stmt)) || bool_decide (is_Some projected)
   then compile_aggregate stmt projected order_field
   else
     let? _ := reject_all_with (sm_with stmt) "a plain listing query (no ranking, no GROUP BY)" in
     let? filter := compile_filter (sm_filter stmt) in
     let? opts := set_page stmt
       (fun n o => {| lo_offset := lo_offset o; lo_limit := n; lo_filter := lo_filter o; lo_projection := lo_projection o; lo_order_by := lo_order_by o |})
       (fun n o => {| lo_offset := n; lo_limit := lo_limit o; lo_filter := lo_filter o; lo_projection := lo_projection o; lo_order_by := lo_order_by o |})
       {| lo_offset := 0; lo_limit := lo_limit ListOpts_default; lo_filter := filter;
          lo_projection := compile_projection (sm_select stmt); lo_order_by := None |} in
     Ok (CList (sm_from stmt)
       {| lo_offset := lo_offset opts; lo_limit := lo_limit opts; lo_filter := lo_filter opts; lo_projection := lo_projection opts;
          lo_order_by := (fun fd : rstring * bool => {| ob_field := fd.1; ob_descending := fd.2 |}) <$> order_field |}))%res.

Definition compile (stmt : Statement) : result SqlError Compiled :=
  match sm_order stmt with
  | Some (RKnn vector decay at_) => compile_search stmt vector decay at_
  | Some (RMatch clauses at_) => compile_text_search stmt clauses at_
  | Some (RHybrid vector clauses at_) => compile_hybrid stmt vector clauses at_
  | Some (RField field desc) => compile_list_or_aggregate stmt (Some (field, desc))
  | None => compile_list_or_aggregate stmt None
  end.

(** [None]: the parser would panic, which [parse_ok] excludes. *)
Definition compile_all (sql : rstring) : option (result SqlError (list Compiled)) :=
  match parse sql with
  | Some (Ok stmts) => Some (collect compile stmts)
  | Some (Err e) => Some (Err e)
  | None => None
  end.

Example compile_list_ex :
  compile_all (sql "SELECT * FROM docs WHERE a = 1 AND NOT b LIKE 'x*' ORDER BY t DESC LIMIT 5") =
  Some (Ok [CList [lit "docs"]
    {| lo_offset := 0; lo_limit := 5;
       lo_filter := {| filter_preds := [PEq (lit "a") (VInt 1); PNot (PGlob (lit "b") (lit "x*"))] |};
       lo_projection := PrAll; lo_order_by := Some {| ob_field := lit "t"; ob_descending := true |} |}]).
Proof. vm_compute. reflexivity. Qed.

Example compile_plan_ex :
  compile_all (sql "SELECT * FROM docs ORDER BY match(body, 'x') WITH (plan)") =
  Some (Err (SqlError_new 51
    (lit "'plan' requires ORDER BY knn(...) or knn(...) FUSE match(...), not match(...) alone") SEC_PLAN)).
Proof. vm_compute. reflexivity. Qed.

(** The fields summed by [SUM(a)] and [GROUP BY c, SUM(b), SUM(a)]: only equal neighbours merge. *)
Example dedup_neighbours :
  compile_all (sql "SELECT SUM(a) FROM * GROUP BY c, SUM(b), SUM(a)") =
  Some (Ok [CAggregate [] {| ao_filter := Filter_default; ao_sum := [lit "a"; lit "b"; lit "a"]; ao_group_by := Some (lit "c") |}]).
Proof. vm_compute. reflexivity. Qed.
