(* ===== verification/SqlQuery.v ===== *)
(** * SqlQuery: running SQL text ([src/src/lib.rs]), and the text of a query

    The facade's read methods over a store and [query]/[query_batch] over
    them.  [text_of] writes a SQL text for typed options; [text_compiles] shows
    that text compiles to exactly those options, so every query it can write
    runs the same from SQL as from a typed call. *)
From S2P Require Import Prelude Floats Model Config TextPred Filter Literal Findex Narrow Sort TopK Std Hits Backend IndexCache.
From S2P Require Import Manifest Lease Segments Replay Store Mmr Aggregate Expand Rank Scoring Quant Search SearchSpec.
From S2P Require Import Fuzzy Analyzer Fts FtsStore Highlight TextSearch SqlDate SqlLex SqlParse SqlParseOk SqlPrint SqlRound SqlCompile.

(** ** The facade *)

Inductive Scope := ScopeCollection (name : rstring) | ScopeCollections (names : list rstring) | ScopeAll.

(** A query's answer; [planned]: its plan was asked for. *)
Inductive QueryAnswer :=
| QaHits (hits : list Hit) (planned : bool)
| QaAggregation (a : Aggregation).

Inductive run_error := RunSql (e : SqlError) | RunCount (found : nat) | RunQuery (e : query_error) | RunPanic.

Section facade.
Context `{UnicodeAlnum} `{UnicodeLower} `{RegexEngine} `{RegexSyntax} `{HashOrder} `{HashIter} `{SortUnstable}
  `{Powf} `{Ln}.
Context (tok : nat -> nat -> bool) (order : list ((rstring * rstring) * Acc) -> list ((rstring * rstring) * Acc)).
Context (s : Store) (ca : Caches).

Definition resolve_alias (name : rstring) : option rstring := st_aliases s !! name.
Definition concrete (name : rstring) : rstring := default name (resolve_alias name).
Definition collections : list rstring := bt_keys (st_collections s).
Definition scope_names (scope : Scope) : list rstring :=
  match scope with
  | ScopeCollection name => [concrete name]
  | ScopeCollections names => map concrete names
  | ScopeAll => collections
  end.

Definition valid_filter (f : Filter) : result query_error unit := if is_ok (filter_validate f) then Ok tt else Err QOptions.

Definition nidus_list (scope : Scope) (opts : ListOpts) : result query_error (list Hit) :=
  (let? _ := valid_filter (lo_filter opts) in Ok (list_docs s (scope_names scope) opts))%res.
Definition nidus_aggregate (scope : Scope) (opts : AggregateOpts) : result query_error Aggregation :=
  (let? _ := valid_filter (ao_filter opts) in
   let? _ := (if is_ok (validate_group_by (ao_group_by opts)) then Ok tt else Err QOptions) in
   Ok (aggregate s (scope_names scope) opts))%res.
Definition nidus_search (scope : Scope) (query : list f32) (opts : SearchOpts) : result query_error (list Hit) :=
  (let? _ := valid_filter (so_filter opts) in search tok s ca (scope_names scope) query opts)%res.
Definition nidus_text_search (scope : Scope) (query : FtsQuery) (opts : SearchOpts) : result query_error (list Hit) :=
  (let? _ := valid_filter (so_filter opts) in text_search s (scope_names scope) query opts)%res.
Definition nidus_hybrid_search (scope : Scope) (vector : list f32) (text : FtsQuery) (opts : HybridOpts)
  : result query_error (list Hit) :=
  (let? _ := valid_filter (hy_filter opts) in hybrid_search s tok order ca (scope_names scope) vector text opts)%res.

(** No collection named is every collection. *)
Definition scope_of (cols : list rstring) : Scope := if bool_decide (cols = []) then ScopeAll else ScopeCollections cols.

(** The plan itself is not modelled; the hits of a planned query are those of
    the plain one. *)
Definition execute (c : Compiled) : result query_error QueryAnswer :=
  (match c with
   | CSearch cols vector opts =>
       let? hits := nidus_search (scope_of cols) vector opts in Ok (QaHits hits (so_plan opts))
   | CTextSearch cols query opts =>
       let? hits := nidus_text_search (scope_of cols) query opts in Ok (QaHits hits false)
   | CHybrid cols vector text opts =>
       let? hits := nidus_hybrid_search (scope_of cols) vector text opts in Ok (QaHits hits (hy_plan opts))
   | CList cols opts => let? hits := nidus_list (scope_of cols) opts in Ok (QaHits hits false)
   | CAggregate cols opts => let? agg := nidus_aggregate (scope_of cols) opts in Ok (QaAggregation agg)
   end)%res.

Definition run (c : Compiled) : result run_error QueryAnswer :=
  match execute c with Ok a => Ok a | Err e => Err (RunQuery e) end.

Definition query (text : rstring) : result run_error QueryAnswer :=
  match compile_all text with
  | None => Err RunPanic
  | Some (Err e) => Err (RunSql e)
  | Some (Ok [c]) => run c
  | Some (Ok cs) => Err (RunCount (length cs))
  end.
Definition query_batch (text : rstring) : result run_error (list QueryAnswer) :=
  match compile_all text with
  | None => Err RunPanic
  | Some (Err e) => Err (RunSql e)
  | Some (Ok cs) => collect run cs
  end.
End facade.

(** ** Writing typed options as a statement *)

Definition lit_of (v : Value) : option Lit :=
  match v with
  | VNull => Some LNull
  | VStr s => Some (LStr s)
  | VInt n => Some (LInt n)
  | VBool b => Some (LBool b)
  | VFloat x => Some (LFloat x)
  | VDateTime ms => Some (LDateTime ms)
  | VList _ => None
  end.

Fixpoint node_of (p : Predicate) : option PredNode :=
  match p with
  | PEq k v => NCmp k CEq <$> lit_of v
  | PNe k v => NCmp k CNe <$> lit_of v
  | PLt k v => NCmp k CLt <$> lit_of v
  | PLe k v => NCmp k CLe <$> lit_of v
  | PGt k v => NCmp k CGt <$> lit_of v
  | PGe k v => NCmp k CGe <$> lit_of v
  | PGlob k g => Some (NLike k false g)
  | PIGlob k g => Some (NILike k g)
  | PIn k vs => NIn k false <$> mapM lit_of vs
  | PNotIn k vs => NIn k true <$> mapM lit_of vs
  | PContains k v => NContains k <$> lit_of v
  | PNotContains k v => NNotContains k <$> lit_of v
  | PContainsAny k vs => NContainsAny k <$> mapM lit_of vs
  | PAll ps => NAll <$> mapM node_of ps
  | PAny ps => NAny <$> mapM node_of ps
  | PNot p => NNot <$> node_of p
  | PFuzzy k needle e => Some (NFuzzy k needle (Z.of_nat e) 0)
  | PContainsAllTokens k q => Some (NMatchAll k q)
  | PContainsAnyToken k q => Some (NMatchAny k q)
  | PContainsTokenSequence k q => Some (NPhrase k q)
  | PRegex k g => Some (NRegex k g)
  end.

(** One conjunction at the top is the filter's own list. *)
Definition where_of (f : Filter) : option (option PredNode) :=
  match filter_preds f with
  | [] => Some None
  | [PAll _] => None
  | [p] => Some <$> node_of p
  | ps => (fun ns => Some (NAll ns)) <$> mapM node_of ps
  end.

(** A number whose widening reads back the same. *)
Definition number_of (x : f32) : option AnyLit :=
  if (f32_of_f64 (f64_of_f32 x) =? x)%Z then Some (AVal (LFloat (f64_of_f32 x))) else None.
Definition nat_lit (n : nat) : AnyLit := AVal (LInt (Z.of_nat n)).
Definition opt_with (name : String.string) (v : OptValue) : WithOption :=
  {| wo_name := lit name; wo_name_at := 0; wo_value := v |}.
Definition with_flag (name : String.string) (b : bool) : option (list WithOption) :=
  Some (if b then [opt_with name VFlag] else []).
(** An option that is written when it is set. *)
Definition with_some {A} (name : String.string) (value : A -> option OptValue) (o : option A) : option (list WithOption) :=
  match o with Some a => (fun v => [opt_with name v]) <$> value a | None => Some [] end.

Definition number_value (x : f32) : option OptValue := VScalar <$> number_of x.
Definition limit_per_value (l : LimitPer) : option OptValue :=
  Some (VArgs [OBare (AVal (LStr (lp_field l))); OBare (nat_lit (lp_max l))]).
Definition field_arg (name : String.string) (f : rstring) : OptArg := OKeyed (lit name) (AVal (LStr f)).
Definition context_value (e : Expand) : option OptValue :=
  Some (VArgs [OKeyed (lit "radius") (AVal (LInt (Z.of_N (e_radius e)))); field_arg "parent" (e_parent_field e);
               field_arg "index" (e_index_field e); field_arg "text" (e_text_field e)]).
Definition rerank_value (r : RerankOpts) : option OptValue :=
  Some (VArgs [OKeyed (lit "overscan") (nat_lit (ro_overscan r)); field_arg "text" (ro_text_attr r)]).
Definition weights_value (vt : f32 * f32) : option OptValue :=
  v ← number_of vt.1; t ← number_of vt.2; Some (VArgs [OBare v; OBare t]).

Definition search_with (o : SearchOpts) : option (list WithOption) :=
  mjoin <$> mapM id
    [with_flag "annotations" (so_explain o); with_flag "plan" (so_plan o); with_flag "exact" (so_exact o);
     with_some "min_score" number_value (so_min_score o); with_some "diversity" number_value (so_diversity o);
     with_some "limit_per" limit_per_value (so_limit_per o); with_some "context" context_value (so_expand o);
     with_some "rerank" rerank_value (so_rerank o)].
Definition hybrid_with (o : HybridOpts) : option (list WithOption) :=
  mjoin <$> mapM id
    [with_flag "annotations" (hy_explain o); with_flag "plan" (hy_plan o); with_some "context" context_value (hy_expand o);
     with_some "rerank" rerank_value (hy_rerank o);
     with_some "candidates" (fun n => Some (VScalar (nat_lit n))) (Some (hy_candidates o));
     with_some "rrf_k" number_value (Some (hy_rrf_k o));
     with_some "weights" weights_value (Some (hy_vector_weight o, hy_text_weight o))].

Definition clause_of (c : FtsClause) : ClauseLit :=
  {| cl_field := fc_field c; cl_text := fc_text c; cl_prefix := fc_prefix c |}.
Definition clauses_of (q : FtsQuery) : option (list ClauseLit) :=
  match fq_combine q, fq_highlight q with CombineSum, None => Some (map clause_of (fq_clauses q)) | _, _ => None end.

Definition decay_of (d : Decay) : option DecayLit :=
  if bool_decide (d_missing d = default_missing) && bool_decide (d_count_field d = None)
     && bool_decide (d_count_scale d = default_count_scale) && bool_decide (d_count_lambda d = default_count_lambda)
  then Some {| dl_field := d_field d; dl_origin := d_origin d; dl_scale := d_scale d; dl_decay := Some (d_decay d);
               dl_lambda := Some (d_lambda d) |}
  else None.
Definition decay_opt (r : option RankBy) : option (option DecayLit) :=
  match r with Some (RankDecay d) => Some <$> decay_of d | None => Some None end.

Definition select_of (p : Projection) : Selection :=
  match p with PrAll => SelAll | PrInclude keys => SelFields keys | PrExclude keys => SelAllExcept keys end.

(** A statement without grouping. *)
Definition ranked_statement (select : Selection) (cols : list rstring) (where_ : option PredNode) (ranking : option Ranking)
    (limit offset : nat) (with_ : list WithOption) : Statement :=
  {| sm_at := 0; sm_select := select; sm_from := cols; sm_filter := where_; sm_group_by := None; sm_sums := [];
     sm_order := ranking; sm_limit := Some (Z.of_nat limit); sm_offset := Some (Z.of_nat offset); sm_with := with_ |}.

(** What only a typed caller can set. *)
Definition plain_names (o : SearchOpts) : bool :=
  bool_decide (so_names o = []) && bool_decide (so_name_weights o = ∅) && match so_pool o with PoolMax => true | PoolSum => false end.

Definition statement_of (c : Compiled) : option Statement :=
  match c with
  | CSearch cols vector o =>
      w ← where_of (so_filter o);
      d ← decay_opt (so_rank_by o);
      ws ← search_with o;
      if plain_names o
      then Some (ranked_statement (select_of (so_projection o)) cols w (Some (RKnn vector d 0)) (so_top_k o) (so_offset o) ws)
      else None
  | CTextSearch cols q o =>
      w ← where_of (so_filter o);
      cs ← clauses_of q;
      ws ← search_with o;
      if plain_names o && negb (so_plan o) && bool_decide (so_rank_by o = None)
      then Some (ranked_statement (select_of (so_projection o)) cols w (Some (RMatch cs 0)) (so_top_k o) (so_offset o) ws)
      else None
  | CHybrid cols vector q o =>
      w ← where_of (hy_filter o);
      cs ← clauses_of q;
      ws ← hybrid_with o;
      if bool_decide (hy_limit_per o = None) && bool_decide (hy_diversity o = None)
      then Some (ranked_statement SelAll cols w (Some (RHybrid vector cs 0)) (hy_top_k o) (hy_offset o) ws)
      else None
  | CList cols o =>
      w ← where_of (lo_filter o);
      Some (ranked_statement (select_of (lo_projection o)) cols w
        ((fun ob => RField (ob_field ob) (ob_descending ob)) <$> lo_order_by o) (lo_limit o) (lo_offset o) [])
  | CAggregate cols o =>
      w ← where_of (ao_filter o);
      if bool_decide (vec_dedup (ao_sum o) = ao_sum o)
      then Some {| sm_at := 0; sm_select := SelAggregates (ao_sum o) (bool_decide (ao_sum o = [])); sm_from := cols;
                   sm_filter := w; sm_group_by := ao_group_by o; sm_sums := []; sm_order := None; sm_limit := None;
                   sm_offset := None; sm_with := [] |}
      else None
  end.

(** The SQL text of a query, when it has one. *)
Definition text_of `{FloatText} (c : Compiled) : option rstring :=
  s ← statement_of c;
  if statement_wf s && printable s then Some (print_script [s]) else None.

(** ** The statement compiles to the options *)

Lemma compile_lit_of v l : lit_of v = Some l -> compile_lit l = v.
Proof. by destruct v; intros [= <-]. Qed.

Lemma compile_lits_of vs : forall ls, mapM lit_of vs = Some ls -> map compile_lit ls = vs.
Proof.
  intros ls H%mapM_Some. induction H as [|v l vs ls Hv _ IH]; [done|]. cbn. by rewrite (compile_lit_of _ _ Hv), IH.
Qed.

Lemma collect_Forall2 {E A B} (f : A -> result E B) l bs : Forall2 (fun b a => f a = Ok b) bs l -> collect f l = Ok bs.
Proof. induction 1 as [|b a bs l E' _ IH]; [done|]. cbn. by rewrite E', IH. Qed.

Lemma compile_nodes ps : Forall (fun p => forall n, node_of p = Some n -> compile_predicate n = Ok p) ps ->
  forall ns, mapM node_of ps = Some ns -> collect compile_predicate ns = Ok ps.
Proof.
  intros Hps ns H%mapM_Some. apply collect_Forall2. induction H as [|p n ps ns Hn _ IH]; [constructor|].
  apply Forall_cons in Hps as [Hp Hps]. constructor; [by apply Hp|by apply IH].
Qed.

(** Case analysis of a written value. *)
Ltac written :=
  repeat match goal with
  | H : (_ <$> _) = Some _ |- _ => apply fmap_Some in H as (? & ? & ->)
  | H : (_ ≫= _) = Some _ |- _ => apply bind_Some in H as (? & ? & ?)
  | H : Some _ = Some _ |- _ => injection H as <-
  end.

Lemma compile_node p : forall n, node_of p = Some n -> compile_predicate n = Ok p.
Proof.
  apply (predicate_nested_ind (fun p => forall n, node_of p = Some n -> compile_predicate n = Ok p)); clear p.
  - intros p. destruct p; try done; intros n Hn; cbn [node_of] in Hn; written; cbn [compile_predicate compile_cmp];
      try (by erewrite compile_lit_of); try (by erewrite compile_lits_of); try done.
    rewrite (proj2 (Z.ltb_ge _ _)) by lia. by rewrite Nat2Z.id.
  - intros ps Hps n Hn. cbn [node_of] in Hn. written. cbn [compile_predicate]. by rewrite (compile_nodes ps).
  - intros ps Hps n Hn. cbn [node_of] in Hn. written. cbn [compile_predicate]. by rewrite (compile_nodes ps).
  - intros p Hp n Hn. cbn [node_of] in Hn. written. cbn [compile_predicate]. by erewrite Hp.
Qed.

Lemma compile_where f w : where_of f = Some w -> compile_filter w = Ok f.
Proof.
  unfold where_of. destruct f as [ps]. cbn [filter_preds]. destruct ps as [|p [|p2 ps]]; intros H.
  - by written.
  - assert (exists n, node_of p = Some n /\ w = Some n /\ forall qs, p <> PAll qs) as (n & Hn & -> & Hp)
      by (destruct p; written; eauto; done).
    pose proof (compile_node p n Hn) as E.
    assert (compile_filter (Some n) = (let? p := compile_predicate n in Ok {| filter_preds := [p] |})%res) as ->.
    { destruct n as [|items| | | | | | | | | | | | |]; try done. cbn [compile_predicate] in E.
      destruct (collect compile_predicate items); [|done]. injection E as <-. by destruct (Hp a). }
    by rewrite E.
  - assert (exists ns, mapM node_of (p :: p2 :: ps) = Some ns /\ w = Some (NAll ns)) as (ns & Hns & ->).
    { destruct p; apply fmap_Some in H as (ns & ? & ->); eauto. }
    unfold compile_filter. rewrite (compile_nodes (p :: p2 :: ps)); [done| |done]. apply Forall_forall. intros q _. apply compile_node.
Qed.

(** *** Options *)

Lemma each_flag {O} (set : O -> O) (apply : WithOption -> O -> result SqlError O) name b ws rest o :
  with_flag name b = Some ws -> (b = true -> apply (opt_with name VFlag) o = Ok (set o)) ->
  for_each_with apply (ws ++ rest) o = for_each_with apply rest (if b then set o else o).
Proof. intros [= <-] Ha. destruct b; [|done]. cbn. by rewrite Ha. Qed.

Lemma each_some {O A} (set : A -> O -> O) (apply : WithOption -> O -> result SqlError O) name value oa ws rest o :
  with_some name value oa = Some ws -> (forall a v, value a = Some v -> apply (opt_with name v) o = Ok (set a o)) ->
  for_each_with apply (ws ++ rest) o = for_each_with apply rest (match oa with Some a => set a o | None => o end).
Proof.
  intros Hw Ha. destruct oa as [a|]; cbn in Hw; [|by injection Hw as <-]. apply fmap_Some in Hw as (v & Hv & ->). cbn.
  by rewrite (Ha a v Hv).
Qed.

Lemma number_back x l : number_of x = Some l -> lit_f32 l = Some x.
Proof. unfold number_of. destruct (Z.eqb_spec (f32_of_f64 (f64_of_f32 x)) x) as [E|]; [|done]. intros [= <-]. cbn. by rewrite E. Qed.

Lemma scalar_back name x v : number_value x = Some v -> scalar_f32 (opt_with name v) = Ok x.
Proof. intros (l & Hl & ->)%fmap_Some. unfold scalar_f32. cbn. by rewrite (number_back x l). Qed.

Lemma limit_per_back name l v : limit_per_value l = Some v -> compile_limit_per (opt_with name v) = Ok l.
Proof.
  intros [= <-]. unfold compile_limit_per. cbn -[Z.ltb Z.leb Z.of_nat Z.of_N]. rewrite (proj2 (Z.leb_le _ _)) by lia. rewrite Nat2Z.id. by destruct l.
Qed.

Lemma context_back name e v : context_value e = Some v -> compile_context (opt_with name v) = Ok e.
Proof.
  intros [= <-]. unfold compile_context. cbn [wo_value opt_with list_args res_bind].
  set (args := [_; _; _; _]).
  assert (keyed args "radius" = Some (AVal (LInt (Z.of_N (e_radius e)))) /\ keyed args "parent" = Some (AVal (LStr (e_parent_field e))) /\
    keyed args "index" = Some (AVal (LStr (e_index_field e))) /\ keyed args "text" = Some (AVal (LStr (e_text_field e))))
    as (-> & -> & -> & ->) by done.
  cbn [mbind option_bind lit_i64 lit_field default]. rewrite (proj2 (Z.ltb_ge _ _)), N2Z.id by lia. by destruct e.
Qed.

Lemma rerank_back name r v : rerank_value r = Some v -> compile_rerank (opt_with name v) = Ok r.
Proof.
  intros [= <-]. unfold compile_rerank. cbn [wo_value opt_with list_args res_bind]. set (args := [_; _]).
  assert (keyed args "overscan" = Some (nat_lit (ro_overscan r)) /\ keyed args "text" = Some (AVal (LStr (ro_text_attr r))))
    as (-> & ->) by done.
  cbn [mbind option_bind lit_i64 nat_lit lit_field default]. rewrite (proj2 (Z.ltb_ge _ _)), Nat2Z.id by lia. by destruct r.
Qed.

Lemma weights_back name vt v : weights_value vt = Some v -> compile_weights (opt_with name v) = Ok vt.
Proof.
  unfold weights_value. intros (a & Ha & (b & Hb & [= <-])%bind_Some)%bind_Some. unfold compile_weights. cbn.
  rewrite (number_back _ _ Ha), (number_back _ _ Hb). by destruct vt.
Qed.

(** The pieces of a written option list. *)
Lemma mapM_pieces {A} (l : list (option (list A))) ws :
  mjoin <$> mapM id l = Some ws -> exists ps, Forall2 (fun o p => o = Some p) l ps /\ ws = mjoin ps.
Proof. intros (ps & Hps%mapM_Some & ->)%fmap_Some. eauto. Qed.

(** The options in order, each with the setter it goes through. *)
Ltac pieces H :=
  apply mapM_pieces in H as (ps & H & ->);
  repeat match type of H with Forall2 _ (_ :: _) _ => apply Forall2_cons_inv_l in H as (? & ? & ? & H & ->) end;
  apply Forall2_nil_inv_l in H as ->; cbn [mjoin list_join].

(** The options a statement sets without [WITH]. *)
Definition search_blank (o : SearchOpts) : SearchOpts :=
  {| so_top_k := so_top_k o; so_offset := so_offset o; so_filter := so_filter o; so_min_score := None; so_exact := false;
     so_projection := so_projection o; so_explain := false; so_plan := false; so_rank_by := so_rank_by o;
     so_limit_per := None; so_diversity := None; so_rerank := None; so_expand := None; so_names := [];
     so_name_weights := ∅; so_pool := PoolMax |}.
Definition hybrid_blank (o : HybridOpts) : HybridOpts :=
  {| hy_top_k := hy_top_k o; hy_offset := hy_offset o; hy_filter := hy_filter o; hy_rrf_k := hy_rrf_k HybridOpts_default;
     hy_candidates := hy_candidates HybridOpts_default; hy_explain := false; hy_plan := false;
     hy_vector_weight := f32_one; hy_text_weight := f32_one; hy_expand := None; hy_rerank := None;
     hy_limit_per := None; hy_diversity := None |}.

Lemma search_number allow (set : f32 -> SearchOpts -> SearchOpts) name o :
  (forall v, apply_search_option allow (opt_with name v) o = (let? x := scalar_f32 (opt_with name v) in Ok (set x o))%res) ->
  forall x v, number_value x = Some v -> apply_search_option allow (opt_with name v) o = Ok (set x o).
Proof. intros Ha x v Hv. by rewrite Ha, (scalar_back name x v). Qed.

Lemma search_with_back allow o ws :
  search_with o = Some ws -> plain_names o = true -> (so_plan o = true -> allow = true) ->
  apply_with_search allow ws (search_blank o) = Ok o.
Proof.
  intros Hw Hn Hplan. unfold search_with in Hw. unfold apply_with_search. pieces Hw.
  erewrite (each_flag (so_set_explain true)) by (eassumption || done).
  erewrite (each_flag (so_set_plan true)) by (eassumption || (intros Hp; unfold apply_search_option; by rewrite (Hplan Hp))).
  erewrite (each_flag (so_set_exact true)) by (eassumption || done).
  erewrite (each_some (fun x => so_set_min_score (Some x)))
    by (eassumption || (apply (search_number _ (fun x => so_set_min_score (Some x))); done)).
  erewrite (each_some (fun x => so_set_diversity (Some x)))
    by (eassumption || (apply (search_number _ (fun x => so_set_diversity (Some x))); done)).
  erewrite (each_some (fun x => so_set_limit_per (Some x)))
    by (eassumption || (intros a v Hv; unfold apply_search_option; cbn [wo_name opt_with]; pose proof (limit_per_back "limit_per" a v Hv) as E;
    exact (f_equal (fun r => (let? l := r in Ok (so_set_limit_per (Some l) _))%res) E))).
  erewrite (each_some (fun x => so_set_expand (Some x)))
    by (eassumption || (intros a v Hv; exact (f_equal (fun r => (let? l := r in Ok (so_set_expand (Some l) _))%res) (context_back "context" a v Hv)))).
  erewrite (each_some (fun x => so_set_rerank (Some x)))
    by (eassumption || (intros a v Hv; exact (f_equal (fun r => (let? l := r in Ok (so_set_rerank (Some l) _))%res) (rerank_back "rerank" a v Hv)))).
  unfold plain_names in Hn. destruct o as [tk off f ms ex pr expl pl rb lp dv rr xp nm nw po]. cbn in Hn. destruct po; [|by rewrite andb_false_r in Hn].
  bdestr. repeat match goal with H : bool_decide _ = true |- _ => apply bool_decide_eq_true in H; subst end.
  destruct expl, pl, ex, ms, dv, lp, xp, rr; reflexivity.
Qed.

Lemma hybrid_with_back o ws :
  hybrid_with o = Some ws -> hy_limit_per o = None -> hy_diversity o = None ->
  apply_with_hybrid ws (hybrid_blank o) = Ok o.
Proof.
  intros Hw Hl Hd. unfold hybrid_with in Hw. unfold apply_with_hybrid. pieces Hw.
  erewrite (each_flag (hy_set_explain true)) by (eassumption || done).
  erewrite (each_flag (hy_set_plan true)) by (eassumption || done).
  erewrite (each_some (fun x => hy_set_expand (Some x)))
    by (eassumption || (intros a v Hv; exact (f_equal (fun r => (let? l := r in Ok (hy_set_expand (Some l) _))%res) (context_back "context" a v Hv)))).
  erewrite (each_some (fun x => hy_set_rerank (Some x)))
    by (eassumption || (intros a v Hv; exact (f_equal (fun r => (let? l := r in Ok (hy_set_rerank (Some l) _))%res) (rerank_back "rerank" a v Hv)))).
  erewrite (each_some hy_set_candidates)
    by (eassumption || (intros a v [= <-]; unfold apply_hybrid_option, scalar_usize; cbn [wo_value opt_with nat_lit];
                        rewrite (proj2 (Z.leb_le _ _)) by lia; by rewrite Nat2Z.id)).
  erewrite (each_some hy_set_rrf_k)
    by (eassumption || (intros a v Hv; exact (f_equal (fun r => (let? l := r in Ok (hy_set_rrf_k l _))%res) (scalar_back "rrf_k" a v Hv)))).
  erewrite (each_some (fun vt o => hy_set_text_weight (snd vt) (hy_set_vector_weight (fst vt) o)))
    by (eassumption || (intros a v Hv; exact (f_equal (fun r => (let? vt := r in
      Ok (hy_set_text_weight (snd vt) (hy_set_vector_weight (fst vt) _)))%res) (weights_back "weights" a v Hv)))).
  destruct o as [tk off f rk ca expl pl vw tw xp rr lp dv]. cbn in Hl, Hd. subst.
  destruct expl, pl, xp, rr; reflexivity.
Qed.

(** *** Statements *)

Lemma select_back p : compile_projection (select_of p) = p.
Proof. by destruct p. Qed.

Lemma clauses_back q cs : clauses_of q = Some cs -> compile_clauses cs = q.
Proof.
  unfold clauses_of. destruct q as [l [|] [h|]]; try done. cbn. intros [= <-]. unfold compile_clauses, FtsQuery_multi. f_equal.
  rewrite map_map. induction l as [|[] l IH]; [done|]. cbn. by rewrite IH.
Qed.

Lemma decay_back d dl : decay_of d = Some dl -> compile_decay dl = d.
Proof.
  unfold decay_of. destruct (_ && _) eqn:E; [|done]. intros [= <-]. bdestr.
  repeat match goal with H : bool_decide _ = true |- _ => apply bool_decide_eq_true in H end.
  destruct d; cbn in *. by subst.
Qed.

Lemma to_usize_back n at_ sec : to_usize (Z.of_nat n) at_ sec = Ok n.
Proof. unfold to_usize. by rewrite (proj2 (Z.ltb_ge _ _)), Nat2Z.id by lia. Qed.

Lemma set_page_back {O} select cols w r limit offset ws (f g : nat -> O -> O) o :
  set_page (ranked_statement select cols w r limit offset ws) f g o = Ok (g offset (f limit o)).
Proof. unfold set_page. cbn [sm_limit sm_offset sm_at ranked_statement]. by rewrite !to_usize_back. Qed.

Lemma ranked_opts_back o cols w r ws :
  where_of (so_filter o) = Some w ->
  ranked_opts (ranked_statement (select_of (so_projection o)) cols w r (so_top_k o) (so_offset o) ws) =
    Ok (so_set_rank_by None (search_blank o)).
Proof.
  intros Hw. unfold ranked_opts. cbn [sm_filter ranked_statement]. rewrite (compile_where _ _ Hw). cbn [res_bind].
  rewrite set_page_back. cbn [sm_select ranked_statement]. by rewrite select_back.
Qed.

Lemma search_back cols v o s : statement_of (CSearch cols v o) = Some s -> compile s = Ok (CSearch cols v o).
Proof.
  cbn [statement_of]. intros (w & Hw & (d & Hd & (ws & Hws & H)%bind_Some)%bind_Some)%bind_Some. destruct (plain_names o) eqn:Hn; [|done].
  injection H as <-. unfold compile, compile_search. cbn [sm_order ranked_statement]. unfold reject_group. cbn [sm_group_by ranked_statement res_bind bool_decide].
  rewrite (ranked_opts_back o cols w _ ws Hw). cbn [res_bind sm_with sm_from ranked_statement].
  assert (match d with Some d => so_set_rank_by (Some (RankDecay (compile_decay d))) (so_set_rank_by None (search_blank o))
          | None => so_set_rank_by None (search_blank o) end = search_blank o) as ->.
  { unfold decay_opt in Hd. destruct (so_rank_by o) as [[dec]|] eqn:Er.
    - apply fmap_Some in Hd as (dl & Hdl & ->). rewrite (decay_back _ _ Hdl). unfold search_blank. cbn. by rewrite Er.
    - injection Hd as <-. unfold search_blank. cbn. by rewrite Er. }
  by rewrite (search_with_back true o ws Hws Hn).
Qed.

Lemma text_back cols q o s : statement_of (CTextSearch cols q o) = Some s -> compile s = Ok (CTextSearch cols q o).
Proof.
  cbn [statement_of]. intros (w & Hw & (cs & Hcs & (ws & Hws & H)%bind_Some)%bind_Some)%bind_Some.
  destruct (plain_names o && negb (so_plan o) && bool_decide (so_rank_by o = None)) eqn:E; [|done]. injection H as <-.
  apply andb_prop in E as [[Hn Hp]%andb_prop Hr%bool_decide_eq_true].
  unfold compile, compile_text_search. cbn [sm_order ranked_statement]. unfold reject_group. cbn [sm_group_by ranked_statement res_bind bool_decide].
  rewrite (ranked_opts_back o cols w _ ws Hw). cbn [res_bind sm_with sm_from ranked_statement].
  assert (so_set_rank_by None (search_blank o) = search_blank o) as -> by (unfold search_blank; cbn; by rewrite Hr).
  rewrite (search_with_back false o ws Hws Hn) by (intros Hp'; by rewrite Hp' in Hp). cbn [res_bind].
  by rewrite (clauses_back _ _ Hcs).
Qed.

Lemma hybrid_back cols v q o s : statement_of (CHybrid cols v q o) = Some s -> compile s = Ok (CHybrid cols v q o).
Proof.
  cbn [statement_of]. intros (w & Hw & (cs & Hcs & (ws & Hws & H)%bind_Some)%bind_Some)%bind_Some.
  destruct (bool_decide (hy_limit_per o = None) && bool_decide (hy_diversity o = None)) eqn:E; [|done]. injection H as <-.
  apply andb_prop in E as [Hl%bool_decide_eq_true Hd%bool_decide_eq_true].
  unfold compile, compile_hybrid. cbn [sm_order ranked_statement]. unfold reject_group, require_select_all.
  cbn [sm_group_by sm_select sm_filter ranked_statement res_bind bool_decide].
  rewrite (compile_where _ _ Hw). cbn [res_bind]. rewrite set_page_back. cbn [res_bind sm_with sm_from ranked_statement].
  fold (hybrid_blank o). change (apply_with_hybrid ws _) with (apply_with_hybrid ws (hybrid_blank o)).
  rewrite (hybrid_with_back o ws Hws Hl Hd). cbn [res_bind]. by rewrite (clauses_back _ _ Hcs).
Qed.

Lemma list_back cols o s : statement_of (CList cols o) = Some s -> compile s = Ok (CList cols o).
Proof.
  cbn [statement_of]. intros (w & Hw & [= <-])%bind_Some.
  assert (forall of_, of_ = ((fun ob => (ob_field ob, ob_descending ob)) <$> lo_order_by o) ->
    compile_list_or_aggregate (ranked_statement (select_of (lo_projection o)) cols w
      ((fun ob => RField (ob_field ob) (ob_descending ob)) <$> lo_order_by o) (lo_limit o) (lo_offset o) []) of_ = Ok (CList cols o)) as Hc.
  { intros of_ ->. unfold compile_list_or_aggregate. cbn [sm_select sm_group_by sm_with ranked_statement].
    assert (match select_of (lo_projection o) with SelAggregates sums _ => Some sums | _ => None end = None) as -> by (by destruct (lo_projection o)).
    cbn [reject_all_with res_bind bool_decide orb]. cbn [sm_filter ranked_statement]. rewrite (compile_where _ _ Hw). cbn [res_bind].
    rewrite set_page_back. cbn [res_bind sm_from lo_filter lo_projection lo_limit lo_offset sm_select ranked_statement].
    rewrite select_back. by destruct o as [? ? ? ? [[]|]]. }
  unfold compile. cbn [sm_order ranked_statement]. destruct (lo_order_by o) as [ob|]; cbn [fmap option_fmap option_map]; by apply Hc.
Qed.

Lemma aggregate_back cols o s : statement_of (CAggregate cols o) = Some s -> compile s = Ok (CAggregate cols o).
Proof.
  cbn [statement_of]. intros (w & Hw & H)%bind_Some. destruct (bool_decide (vec_dedup (ao_sum o) = ao_sum o)) eqn:E; [|done]. injection H as <-.
  apply bool_decide_eq_true in E. unfold compile, compile_list_or_aggregate. cbn [sm_order sm_select sm_group_by].
  rewrite (bool_decide_eq_true_2 (is_Some (Some _))) by eauto. rewrite orb_true_r.
  unfold compile_aggregate. cbn [sm_limit sm_offset sm_with sm_filter sm_sums sm_from sm_group_by res_bind reject_all_with default].
  rewrite !bool_decide_eq_false_2 by (by intros []). cbn [orb res_bind]. rewrite (compile_where _ _ Hw). cbn [res_bind].
  assert (vec_dedup (id (ao_sum o) ++ []) = ao_sum o) as -> by (by rewrite (app_nil_r (id (ao_sum o)))).
  rewrite (bool_decide_eq_false_2 (is_Some None)) by (by intros []). cbn [res_bind]. by destruct o.
Qed.

Lemma compile_statement c s : statement_of c = Some s -> compile s = Ok c.
Proof. destruct c; [apply search_back|apply text_back|apply hybrid_back|apply list_back|apply aggregate_back]. Qed.

(** *** Offsets only show in errors *)

Definition ok_part {E A} (r : result E A) : option A := match r with Ok a => Some a | Err _ => None end.

Lemma ok_bind {E A B} (r r' : result E A) (f g : A -> result E B) :
  ok_part r = ok_part r' -> (forall a, ok_part (f a) = ok_part (g a)) -> ok_part (res_bind r f) = ok_part (res_bind r' g).
Proof. destruct r, r'; cbn; intros [=]; subst; auto. Qed.

Lemma ok_collect {E A B} (f : A -> result E B) g l :
  Forall (fun a => ok_part (f (g a)) = ok_part (f a)) l -> ok_part (collect f (map g l)) = ok_part (collect f l).
Proof.
  induction 1 as [|a l Ha _ IH]; [done|]. cbn [map collect]. apply ok_bind; [done|]. intros b. by apply ok_bind.
Qed.

Lemma ok_predicate n p : (pred_height p <= n)%nat -> ok_part (compile_predicate (unplaced_pred p)) = ok_part (compile_predicate p).
Proof.
  revert p. induction n as [|n IH]; intros p Hh; [destruct p; cbn in Hh; lia|].
  assert (forall items, pred_height (NAny items) <= S n ->
    ok_part (collect compile_predicate (map unplaced_pred items)) = ok_part (collect compile_predicate items))%nat as Hitems.
  { intros items Hi. apply ok_collect, List.Forall_forall. intros q Hq. apply IH. cbn [pred_height] in Hi.
    apply le_S_n, list_max_le in Hi. rewrite List.Forall_map, List.Forall_forall in Hi. by apply Hi. }
  destruct p; cbn [unplaced_pred compile_predicate]; try done.
  - by apply ok_bind; [apply Hitems|].
  - by apply ok_bind; [apply Hitems|].
  - apply ok_bind; [apply IH; cbn in Hh; lia|done].
  - by destruct (edits <? 0)%Z.
Qed.

Lemma ok_filter o : ok_part (compile_filter (unplaced_pred <$> o)) = ok_part (compile_filter o).
Proof.
  destruct o as [p|]; [|done]. pose proof (ok_predicate (pred_height p) p (le_n _)) as Hp. cbn [fmap option_fmap option_map].
  destruct p; cbn [unplaced_pred compile_filter] in *; try (by apply ok_bind).
  apply ok_bind; [|done]. apply ok_collect, List.Forall_forall. intros q _. by apply (ok_predicate (pred_height q)).
Qed.

Ltac same_option :=
  repeat first
    [ done
    | apply ok_bind; [|intros ?]
    | match goal with |- context [if ?b then _ else _] => destruct b end
    | match goal with |- context [match ?x with _ => _ end] => destruct x end ].

Lemma ok_values w :
  ok_part (require_flag (unplaced_option w)) = ok_part (require_flag w) /\
  ok_part (scalar_f32 (unplaced_option w)) = ok_part (scalar_f32 w) /\
  ok_part (scalar_usize (unplaced_option w)) = ok_part (scalar_usize w) /\
  ok_part (compile_limit_per (unplaced_option w)) = ok_part (compile_limit_per w) /\
  ok_part (compile_context (unplaced_option w)) = ok_part (compile_context w) /\
  ok_part (compile_rerank (unplaced_option w)) = ok_part (compile_rerank w) /\
  ok_part (compile_weights (unplaced_option w)) = ok_part (compile_weights w).
Proof.
  assert (ok_part (list_args (unplaced_option w)) = ok_part (list_args w)) as Hargs
    by (unfold list_args; cbn [wo_value unplaced_option]; by destruct (wo_value w)).
  split_and!.
  - unfold require_flag. cbn [wo_value unplaced_option]. same_option.
  - unfold scalar_f32. cbn [wo_value unplaced_option]. same_option.
  - unfold scalar_usize. cbn [wo_value unplaced_option]. same_option.
  - unfold compile_limit_per. apply ok_bind; [done|]. intros args. cbv zeta. same_option.
  - unfold compile_context. apply ok_bind; [done|]. intros args. cbv zeta. same_option.
  - unfold compile_rerank. apply ok_bind; [done|]. intros args. same_option.
  - unfold compile_weights. apply ok_bind; [done|]. intros args. cbv zeta. same_option.
Qed.

Lemma ok_search_option allow w o :
  ok_part (apply_search_option allow (unplaced_option w) o) = ok_part (apply_search_option allow w o).
Proof.
  destruct (ok_values w) as (? & ? & ? & ? & ? & ? & ?). unfold apply_search_option. cbv zeta. cbn [wo_name unplaced_option]. same_option.
Qed.
Lemma ok_hybrid_option w o : ok_part (apply_hybrid_option (unplaced_option w) o) = ok_part (apply_hybrid_option w o).
Proof.
  destruct (ok_values w) as (? & ? & ? & ? & ? & ? & ?). unfold apply_hybrid_option. cbv zeta. cbn [wo_name unplaced_option]. same_option.
Qed.

Lemma ok_each {O} (apply : WithOption -> O -> result SqlError O) ws o :
  (forall w o, ok_part (apply (unplaced_option w) o) = ok_part (apply w o)) ->
  ok_part (for_each_with apply (map unplaced_option ws) o) = ok_part (for_each_with apply ws o).
Proof. intros Ha. revert o. induction ws as [|w ws IH]; intros o; [done|]. cbn. by apply ok_bind. Qed.

Lemma ok_page {O} s (f g : nat -> O -> O) o : ok_part (set_page (unplaced s) f g o) = ok_part (set_page s f g o).
Proof. unfold set_page, to_usize. cbn [sm_limit sm_offset sm_at unplaced]. same_option. Qed.

Lemma ok_ranked s : ok_part (ranked_opts (unplaced s)) = ok_part (ranked_opts s).
Proof. unfold ranked_opts. apply ok_bind; [apply ok_filter|]. intros f. apply ok_page. Qed.

Lemma ok_projected_aggregate s projected of_ :
  ok_part (compile_aggregate (unplaced s) projected of_) = ok_part (compile_aggregate s projected of_).
Proof.
  unfold compile_aggregate, require_select_all.
  cbn [sm_select sm_from sm_limit sm_offset sm_group_by sm_sums unplaced].
  apply ok_bind; [same_option|intros _]. apply ok_bind; [same_option|intros _]. apply ok_bind; [same_option|intros _].
  apply ok_bind; [by destruct s as [? ? ? ? ? ? ? ? ? []]|intros _]. apply ok_bind; [apply ok_filter|done].
Qed.

Lemma ok_list_or_aggregate s of_ :
  ok_part (compile_list_or_aggregate (unplaced s) of_) = ok_part (compile_list_or_aggregate s of_).
Proof.
  unfold compile_list_or_aggregate. cbv zeta. cbn [sm_select sm_group_by sm_from unplaced].
  destruct (_ || _); [apply ok_projected_aggregate|].
  apply ok_bind; [by destruct s as [? ? ? ? ? ? ? ? ? []]|intros _]. apply ok_bind; [apply ok_filter|]. intros f.
  apply ok_bind; [apply ok_page|done].
Qed.

Lemma ok_compile s : ok_part (compile (unplaced s)) = ok_part (compile s).
Proof.
  assert (forall at_ at' r, ok_part (reject_group (unplaced s) at_ r) = ok_part (reject_group s at' r)) as Hg.
  { intros. unfold reject_group. cbn [sm_group_by unplaced]. by destruct (bool_decide _). }
  unfold compile. cbn [sm_order unplaced]. destruct (sm_order s) as [[v d a|cs a|v cs a|f desc]|];
    cbn [fmap option_fmap option_map unplaced_ranking]; try apply ok_list_or_aggregate.
  - unfold compile_search. apply ok_bind; [apply Hg|intros _]. apply ok_bind; [apply ok_ranked|]. intros o.
    apply ok_bind; [|done]. cbn [sm_with unplaced]. apply ok_each. intros. apply ok_search_option.
  - unfold compile_text_search. apply ok_bind; [apply Hg|intros _]. apply ok_bind; [apply ok_ranked|]. intros o.
    apply ok_bind; [|done]. cbn [sm_with unplaced]. apply ok_each. intros. apply ok_search_option.
  - unfold compile_hybrid. apply ok_bind; [apply Hg|intros _].
    apply ok_bind; [unfold require_select_all; cbn [sm_select unplaced]; by destruct (sm_select s)|intros _].
    apply ok_bind; [apply ok_filter|]. intros f. apply ok_bind; [apply ok_page|]. intros o.
    apply ok_bind; [|done]. cbn [sm_with unplaced]. apply ok_each. intros. apply ok_hybrid_option.
Qed.

(** Statements that differ in offsets only compile alike. *)
Lemma compile_unplaced s s' c : unplaced s' = unplaced s -> compile s = Ok c -> compile s' = Ok c.
Proof.
  intros E Hc. assert (ok_part (compile s') = Some c) as H by (by rewrite <- ok_compile, E, ok_compile, Hc).
  destruct (compile s'); cbn in H; congruence.
Qed.

(** C9: the text written for typed options compiles to exactly those options,
    and running it is running them: a search, text search, hybrid search,
    listing or aggregation a SQL text can express gives the same answer from
    SQL as from the typed call. *)
Theorem text_compiles `{FloatText} c txt :
  text_of c = Some txt ->
  compile_all txt = Some (Ok [c]) /\
  forall `{UnicodeAlnum} `{UnicodeLower} `{RegexEngine} `{RegexSyntax} `{HashOrder} `{HashIter} `{SortUnstable} `{Powf} `{Ln}
    tok order (s : Store) ca, query tok order s ca txt = run tok order s ca c.
Proof.
  unfold text_of. intros (s & Hs & Htxt)%bind_Some. destruct (statement_wf s && printable s) eqn:E; [|done].
  injection Htxt as <-. apply andb_prop in E as [Hwf Hok].
  assert (compile_all (print_script [s]) = Some (Ok [c])) as Hc.
  { destruct (print_parses [s]) as (stmts & Hp & Hu); [done|by cbn; rewrite Hwf|by cbn; rewrite Hok|].
    unfold compile_all. rewrite Hp. destruct stmts as [|s' [|? ?]]; try done.
    apply (f_equal (fun l => default (unplaced s) (head l))) in Hu. cbn [map head default] in Hu.
    cbn [collect]. by rewrite (compile_unplaced s s' c Hu (compile_statement c s Hs)). }
  split; [done|]. intros. unfold query. by rewrite Hc.
Qed.

(** One query of each kind that SQL can express. *)
Definition sample_queries : list Compiled :=
  let page f := so_set_top_k 3 (so_set_offset 1 (search_blank {|
     so_top_k := 0; so_offset := 0; so_filter := f; so_min_score := None; so_exact := false; so_projection := PrExclude [lit "body"];
     so_explain := false; so_plan := false; so_rank_by := None; so_limit_per := None; so_diversity := None; so_rerank := None;
     so_expand := None; so_names := []; so_name_weights := ∅; so_pool := PoolMax |})) in
  let f := {| filter_preds := [PNot (PGlob (lit "path") (lit "*.rs"));
                               PAny [PIn (lit "k") [VInt 1; VStr (lit "it's")]; PFuzzy (lit "name") (lit "ann") 2]] |} in
  let words := FtsQuery_multi [{| fc_field := lit "body"; fc_text := lit "log"; fc_prefix := true |}] in
  [CSearch [lit "docs"] [f32_half]
     (so_set_rank_by (Some (RankDecay (Decay_lambda f32_half (Decay_new (lit "t") 5 7))))
        (so_set_limit_per (Some {| lp_field := lit "path"; lp_max := 2 |})
           (so_set_expand (Some (Expand_new 2)) (so_set_min_score (Some f32_half) (so_set_exact true (page f))))));
   CTextSearch [] words (so_set_explain true (page Filter_default));
   CHybrid [lit "a"; lit "b"] [f32_one] words (hy_set_plan true (hy_set_text_weight f32_half (hy_set_rrf_k f32_one HybridOpts_default)));
   CList [] {| lo_offset := 0; lo_limit := 5; lo_filter := f; lo_projection := PrAll;
               lo_order_by := Some {| ob_field := lit "t"; ob_descending := true |} |};
   CAggregate [lit "docs"] {| ao_filter := Filter_default; ao_sum := [lit "bytes"]; ao_group_by := Some (lit "path") |}].

Example sample_texts : forallb (fun c => bool_decide (is_Some (text_of (H := sample_floats) c))) sample_queries = true.
Proof. vm_compute. reflexivity. Qed.

Lemma text_compiles_witness :
  Forall (fun c => exists txt, text_of (H := sample_floats) c = Some txt /\ compile_all txt = Some (Ok [c])) sample_queries.
Proof.
  repeat constructor.
  all: match goal with |- exists txt, text_of ?c = _ /\ _ =>
    let t := eval vm_compute in (text_of (H := sample_floats) c) in
    match t with Some ?txt => exists txt; assert (text_of (H := sample_floats) c = Some txt) as E by (vm_compute; reflexivity);
      split; [exact E|exact (proj1 (text_compiles c txt E))] end end.
Defined.
