(* ===== verification/Chunk.v ===== *)
(** * Chunk: splitting documents ([src/src/chunk])

    Sizes and offsets count characters, so a source is its list of characters
    and a span a pair of offsets.  The recursive, sentence and markdown
    strategies are modelled; the code strategy splits where an external
    grammar finds symbols.  [src\[i\]] is a lookup: the indices are in range,
    which the theorems of [ChunkOk] show with the rest.  Loops over offsets
    carry as fuel the characters left. *)
From S2P Require Import Prelude Sort TextPred Std.

(** [src\[s..e\]]. *)
Definition slice (src : rstring) (s e : nat) : rstring := take (e - s) (drop s src).
Abbreviation Span := (nat * nat)%type (only parsing).

(** ** Packing ([chunk/mod.rs]) *)

Fixpoint pack_from (max_chars : nat) (group : option Span) (pieces : list Span) : list Span :=
  match pieces with
  | [] => match group with Some g => [g] | None => [] end
  | p :: pieces =>
      match group with
      | None => pack_from max_chars (Some p) pieces
      | Some g =>
          if (p.2 - g.1 <=? max_chars)%nat then pack_from max_chars (Some (g.1, p.2)) pieces
          else g :: pack_from max_chars (Some p) pieces
      end
  end.
Definition pack (pieces : list Span) (max_chars : nat) : list Span := pack_from max_chars None pieces.

(** ** The separator ladder ([chunk/recursive.rs]) *)

Definition SEPARATORS : list rstring := [[10; 10]; [10]; [46; 32]; [32]]%N.

Fixpoint hard_loop (fuel i end_ max_chars : nat) : list Span :=
  match fuel with
  | O => []
  | S fuel =>
      if (i <? end_)%nat then
        let j := Nat.min (i + max_chars) end_ in (i, j) :: hard_loop fuel j end_ max_chars
      else []
  end.
Definition hard_split (start end_ max_chars : nat) : list Span := hard_loop (end_ - start) start end_ max_chars.

Fixpoint tile_loop (fuel : nat) (src : rstring) (end_ : nat) (sep : rstring) (piece_start i : nat) : list Span :=
  let rest := if (piece_start <? end_)%nat then [(piece_start, end_)] else [] in
  match fuel with
  | O => rest
  | S fuel =>
      if (i + length sep <=? end_)%nat then
        if bool_decide (slice src i (i + length sep) = sep) then
          let piece_end := (i + length sep)%nat in
          (piece_start, piece_end) :: tile_loop fuel src end_ sep piece_end piece_end
        else tile_loop fuel src end_ sep piece_start (i + 1)
      else rest
  end.
Definition tile_on_separator (src : rstring) (start end_ : nat) (sep : rstring) : list Span :=
  if (length sep =? 0)%nat || (end_ - start <? length sep)%nat then [(start, end_)]
  else tile_loop (end_ - start) src end_ sep start start.

(** The ladder is what is left of [SEPARATORS]. *)
Fixpoint split_at (src : rstring) (ladder : list rstring) (start end_ max_chars : nat) : list Span :=
  if (end_ <=? start)%nat then []
  else if (end_ - start <=? max_chars)%nat then [(start, end_)]
  else
    match ladder with
    | [] => hard_split start end_ max_chars
    | sep :: ladder =>
        let pieces := tile_on_separator src start end_ sep in
        if (length pieces <? 2)%nat then split_at src ladder start end_ max_chars
        else
          pack (mjoin (map (fun p : Span =>
            if (max_chars <? p.2 - p.1)%nat then split_at src ladder p.1 p.2 max_chars else [p]) pieces)) max_chars
    end.
Definition recursive_split (src : rstring) (start end_ max_chars : nat) : list Span :=
  split_at src SEPARATORS start end_ max_chars.

(** ** Sentences ([chunk/sentence.rs]) *)

Definition terminator (c : option char) : bool := bool_decide (c ∈ [Some (chr "."); Some (chr "!"); Some (chr "?")]).

Fixpoint sentence_loop (fuel : nat) (src : rstring) (end_ piece_start i : nat) : list Span :=
  let rest := if (piece_start <? end_)%nat then [(piece_start, end_)] else [] in
  match fuel with
  | O => rest
  | S fuel =>
      if (i <? end_)%nat then
        if terminator (src !! i) && ((end_ <=? i + 1)%nat || match src !! (i + 1)%nat with Some c => is_whitespace c | None => false end)
        then (piece_start, i + 1)%nat :: sentence_loop fuel src end_ (i + 1) (i + 1)
        else sentence_loop fuel src end_ piece_start (i + 1)
      else rest
  end.
Definition tile_sentences (src : rstring) (start end_ : nat) : list Span :=
  sentence_loop (end_ - start) src end_ start start.

(** Pieces over the budget go down the separator ladder. *)
Definition refine (src : rstring) (max_chars : nat) (pieces : list Span) : list Span :=
  mjoin (map (fun p : Span =>
    if (max_chars <? p.2 - p.1)%nat then recursive_split src p.1 p.2 max_chars else [p]) pieces).
Definition sentence_split (src : rstring) (max_chars : nat) : list Span :=
  pack (refine src max_chars (tile_sentences src 0 (length src))) max_chars.

(** ** Markdown ([chunk/markdown.rs]) *)

Record Line := { l_start : nat; l_end : nat; l_depth_before : nat; l_depth_after : nat; l_is_heading : bool }.

Fixpoint run_of (p : char -> bool) (s : rstring) : nat :=
  match s with c :: s => if p c then S (run_of p s) else 0 | [] => 0 end.
Definition count_leading_spaces (line : rstring) : nat := run_of (fun c => (c =? chr " ")%N) line.

Definition fence_run (line : rstring) : option (char * nat) :=
  let indent := count_leading_spaces line in
  if (3 <? indent)%nat then None
  else
    let rest := drop indent line in
    match rest with
    | [] => None
    | c :: _ =>
        if negb (c =? chr "`")%N && negb (c =? chr "~")%N then None
        else
          let len := run_of (fun ch => (ch =? c)%N) rest in
          if (3 <=? len)%nat then Some (c, len) else None
    end.
Definition fence_open (line : rstring) : option (char * nat) := fence_run line.
Definition fence_close (line : rstring) (fence_char : char) (fence_len : nat) : bool :=
  match fence_run line with Some (c, len) => (c =? fence_char)%N && (fence_len <=? len)%nat | None => false end.

Definition is_atx_heading (line : rstring) : bool :=
  let indent := count_leading_spaces line in
  if (3 <? indent)%nat then false
  else
    let rest := drop indent line in
    let hashes := run_of (fun c => (c =? chr "#")%N) rest in
    if (hashes =? 0)%nat || (6 <? hashes)%nat then false
    else match rest !! hashes with None => true | Some c => (c =? 32)%N || (c =? 9)%N end.

Record fence := { fe_depth : nat; fe_char : char; fe_len : nat }.

(** What a line does to the fence it starts in, and whether it is a heading. *)
Definition step_fence (content : rstring) (f : fence) : fence * bool :=
  if (fe_depth f =? 0)%nat then
    match fence_open content with
    | Some (fc, flen) => ({| fe_depth := 1; fe_char := fc; fe_len := flen |}, false)
    | None => (f, is_atx_heading content)
    end
  else if fence_close content (fe_char f) (fe_len f)
  then ({| fe_depth := 0; fe_char := fe_char f; fe_len := fe_len f |}, false)
  else (f, false).

Fixpoint lines_loop (fuel : nat) (src : rstring) (i : nat) (f : fence) : list Line :=
  match fuel with
  | O => []
  | S fuel =>
      if (i <? length src)%nat then
        let eol := (i + run_of (fun c => negb (c =? 10)%N) (drop i src))%nat in
        let line_end := if (eol <? length src)%nat then (eol + 1)%nat else eol in
        let '(f', heading) := step_fence (slice src i eol) f in
        {| l_start := i; l_end := line_end; l_depth_before := fe_depth f; l_depth_after := fe_depth f'; l_is_heading := heading |}
        :: lines_loop fuel src line_end f'
      else []
  end.
Definition scan_lines (src : rstring) : list Line :=
  lines_loop (length src) src 0 {| fe_depth := 0; fe_char := chr "`"; fe_len := 0 |}.

(** The lines in sections: a section starts at the first line and at every
    later heading. *)
Definition starts_of (lines : list Line) : list nat :=
  0 :: omap (fun il => if (0 <? il.1)%nat && l_is_heading il.2 then Some il.1 else None) (imap pair lines).
Fixpoint ranges_of (starts : list nat) (n : nat) : list Span :=
  match starts with
  | [] => []
  | s :: rest => (s, match rest with s' :: _ => s' | [] => n end) :: ranges_of rest n
  end.
Definition section_ranges (lines : list Line) : list Span := ranges_of (starts_of lines) (length lines).

Definition touches (l : Line) : bool := (l_depth_before l =? 1)%nat || (l_depth_after l =? 1)%nat.
(** The lines after the first of the open group [g], which ends at [ge] and
    touched a fence or not. *)
Fixpoint pack_lines (max_chars : nat) (sec : list Line) (gs ge : nat) (has_fence : bool) : list (nat * nat * bool) :=
  match sec with
  | [] => [(gs, ge, has_fence)]
  | l :: sec =>
      if (max_chars <? l_end l - gs)%nat && (l_depth_before l =? 0)%nat
      then (gs, ge, has_fence) :: pack_lines max_chars sec (l_start l) (l_end l) (touches l)
      else pack_lines max_chars sec gs (l_end l) (has_fence || touches l)
  end.
Definition pack_section (sec : list Line) (max_chars : nat) : list (nat * nat * bool) :=
  match sec with
  | [] => []
  | l :: sec => pack_lines max_chars sec (l_start l) (l_end l) (touches l)
  end.

(** The spans of a group of a section, each with the section's start. *)
Definition split_group (src : rstring) (max_chars sec_start : nat) (g : nat * nat * bool) : list (nat * nat * nat) :=
  let '(gs, ge, has_fence) := g in
  if negb has_fence && (max_chars <? ge - gs)%nat
  then map (fun p : Span => (p, sec_start)) (recursive_split src gs ge max_chars)
  else [(gs, ge, sec_start)].
(** The spans of a section. *)
Definition split_section (src : rstring) (max_chars : nat) (sec : list Line) : list (nat * nat * nat) :=
  match sec, last sec with
  | l :: _, Some z =>
      let sec_start := l_start l in
      if (l_end z - sec_start <=? max_chars)%nat then [(sec_start, l_end z, sec_start)]
      else
        mjoin (map (split_group src max_chars sec_start) (pack_section sec max_chars))
  | _, _ => []
  end.
Definition markdown_split (src : rstring) (max_chars : nat) : list Span * list nat :=
  let lines := scan_lines src in
  let out := mjoin (map (fun r : Span => split_section src max_chars (take (r.2 - r.1) (drop r.1 lines))) (section_ranges lines)) in
  (map fst out, map snd out).

(** ** Code ([chunk/code.rs])

    The symbols of a text are what the external grammars say. *)
Record SymbolChunk := { sy_body : rstring; sy_start_line : nat }.
Class TreeSitter := ts_chunk : rstring -> rstring -> option (list SymbolChunk).

Definition OVERSIZED_SYMBOL_CAP : nat := 20 * 1000.
Definition LANGUAGES : list rstring :=
  map lit ["rust"; "go"; "typescript"; "tsx"; "javascript"; "python"; "java"; "cpp"; "csharp"]%string.
Definition has_grammar (lang : rstring) : bool := bool_decide (lang ∈ LANGUAGES) || bool_decide (lang = lit "c").

Definition line_start_table (src : rstring) : list nat :=
  0 :: omap (fun ic => if (ic.2 =? 10)%N then Some (ic.1 + 1)%nat else None) (imap pair src).

(** [windows(n).position(|w| w == needle)]. *)
Fixpoint position (needle : rstring) (window : rstring) : option nat :=
  if bool_decide (take (length needle) window = needle) then Some 0
  else match window with [] => None | _ :: window => S <$> position needle window end.

Definition first_line (body : rstring) : rstring := take (run_of (fun c => negb (c =? 10)%N) body) body.

Definition locate_symbol (src : rstring) (line_starts : list nat) (sym : SymbolChunk) : option nat :=
  line_idx ← (if (sy_start_line sym =? 0)%nat then None else Some (sy_start_line sym - 1)%nat);
  line_start ← line_starts !! line_idx;
  let line_end := default (length src) (line_starts !! (line_idx + 1)%nat) in
  let fl := first_line (sy_body sym) in
  if bool_decide (fl = []) then None
  else
    let window_end := Nat.min (Nat.max line_end (line_start + length fl)) (length src) in
    offset ← position fl (slice src line_start window_end);
    let start := (line_start + offset)%nat in
    let end_ := (start + length (sy_body sym))%nat in
    if (end_ <=? length src)%nat && bool_decide (slice src start end_ = sy_body sym) then Some start else None.

Definition contains_another (ranges : list Span) (i : nat) (r : Span) : bool :=
  existsb (fun jr : nat * Span =>
    negb (jr.1 =? i)%nat && (r.1 <=? jr.2.1)%nat && (jr.2.2 <=? r.2)%nat && (jr.2.2 - jr.2.1 <? r.2 - r.1)%nat) (imap pair ranges).

Definition locate_symbols (src : rstring) (symbols : list SymbolChunk) (max_chars : nat) : list Span :=
  let symbols := sort_by (cmp_on sy_start_line Nat.compare) symbols in
  let placed := omap (fun sym => (fun s => (s, s + length (sy_body sym))%nat) <$> locate_symbol src (line_start_table src) sym) symbols in
  mjoin (imap (fun i (r : Span) =>
    if contains_another placed i r then []
    else if (r.2 - r.1 <=? OVERSIZED_SYMBOL_CAP)%nat then [r]
    else recursive_split src r.1 r.2 max_chars) placed).

(** [max_by_key]: the last of the largest. *)
Definition most_symbols (candidates : list (list SymbolChunk)) : list SymbolChunk :=
  fold_left (fun best c => if (length best <=? length c)%nat then c else best) candidates [].

Section chunk_text.
Context `{TreeSitter}.

Definition code_split (src : rstring) (max_chars : nat) (language : option rstring) : list Span :=
  let symbols := match language with
    | Some lang => if has_grammar lang then default [] (ts_chunk src lang) else []
    | None => most_symbols (omap (ts_chunk src) LANGUAGES)
    end in
  locate_symbols src symbols max_chars.

(** ** Chunks ([chunk/mod.rs]) *)

Inductive ChunkStrategy := CRecursive | CMarkdown | CSentence | CCode.
Record ChunkOpts := { co_strategy : ChunkStrategy; co_max_chars : nat; co_overlap_chars : nat; co_language : option rstring }.
Definition ChunkOpts_default : ChunkOpts :=
  {| co_strategy := CRecursive; co_max_chars := 1000; co_overlap_chars := 100; co_language := None |}.
Record Chunk := { ck_text : rstring; ck_index : nat; ck_char_start : nat }.
Inductive chunk_error := ChunkBudget | ChunkOverlap.

(** [None]: a slice whose start lies behind its end panics. *)
Fixpoint overlap_loop (src : rstring) (overlap_chars : nat) (floors : option (list nat)) (i prev_original_start : nat) (spans : list Span)
  : option (list Chunk) :=
  match spans with
  | [] => Some []
  | (s, e) :: spans =>
      let floor := default 0 (floors ≫= fun f => f !! i) in
      let actual_start :=
        if (i =? 0)%nat || (overlap_chars =? 0)%nat then s
        else Nat.max (Nat.max (s - overlap_chars) prev_original_start) floor in
      if (actual_start <=? e)%nat && (e <=? length src)%nat then
        rest ← overlap_loop src overlap_chars floors (i + 1) s spans;
        Some ({| ck_text := slice src actual_start e; ck_index := i; ck_char_start := actual_start |} :: rest)
      else None
  end.
Definition apply_overlap (src : rstring) (spans : list Span) (overlap_chars : nat) (floors : option (list nat)) : option (list Chunk) :=
  overlap_loop src overlap_chars floors 0 0 spans.

Definition spans_of (src : rstring) (opts : ChunkOpts) : list Span * option (list nat) :=
  match co_strategy opts with
  | CRecursive => (recursive_split src 0 (length src) (co_max_chars opts), None)
  | CMarkdown => let '(spans, floors) := markdown_split src (co_max_chars opts) in (spans, Some floors)
  | CSentence => (sentence_split src (co_max_chars opts), None)
  | CCode => (code_split src (co_max_chars opts) (co_language opts), None)
  end.

(** The inner [None] is a panic. *)
Definition chunk_text (text : rstring) (opts : ChunkOpts) : result chunk_error (option (list Chunk)) :=
  if (co_max_chars opts =? 0)%nat then Err ChunkBudget
  else if (co_max_chars opts <=? co_overlap_chars opts)%nat then Err ChunkOverlap
  else if bool_decide (trim text = []) then Ok (Some [])
  else
    let '(spans, floors) := spans_of text opts in
    Ok (apply_overlap text spans (co_overlap_chars opts) floors).
End chunk_text.

(** ** Titles

    [str::lines] also takes a carriage return off a line; the trims do too. *)
Definition extract_title (text : rstring) : option rstring :=
  line ← snd <$> list_find (fun l => trim l <> []) (split_on (fun c => (c =? 10)%N) text);
  let trimmed := skip_while is_whitespace line in
  let hashes := run_of (fun c => (c =? chr "#")%N) trimmed in
  if (hashes =? 0)%nat || (6 <? hashes)%nat then None
  else
    let rest := drop hashes trimmed in
    if match rest with [] => true | c :: _ => (c =? 32)%N || (c =? 9)%N end then
      let title := trim rest in if bool_decide (title = []) then None else Some title
    else None.

Definition plain : TreeSitter := fun _ _ => None.
Example recursive_ex :
  chunk_text (H := plain) (lit "one two three. four five") {| co_strategy := CRecursive; co_max_chars := 10; co_overlap_chars := 3; co_language := None |} =
  Ok (Some [{| ck_text := lit "one two "; ck_index := 0; ck_char_start := 0 |};
            {| ck_text := lit "wo three. "; ck_index := 1; ck_char_start := 5 |};
            {| ck_text := lit "e. four five"; ck_index := 2; ck_char_start := 12 |}]).
Proof. vm_compute. reflexivity. Qed.
