(* ===== verification/ChunkOk.v ===== *)
(** * ChunkOk: chunks tile the source

    The spans of the recursive, sentence and markdown strategies lie end to
    end over the whole text ([tiles]) and keep the budget; the overlap moves
    their starts back only.  [chunk_text_spec] states it of whole chunks, and
    [chunks_stitch] that stitching the chunks gives the document back. *)
From S2P Require Import Prelude Sort TextPred Std Model Hits Expand Chunk.

(** Nonempty spans end to end from [a] to [b]. *)
Fixpoint tiles (a b : nat) (l : list Span) : Prop :=
  match l with
  | [] => a = b
  | p :: l => p.1 = a /\ (p.1 < p.2)%nat /\ tiles p.2 b l
  end.
Definition fits (max_chars : nat) (p : Span) : Prop := (p.2 - p.1 <= max_chars)%nat.

Lemma tiles_app a b c l m : tiles a b l -> tiles b c m -> tiles a c (l ++ m).
Proof. revert a. induction l as [|p l IH]; intros a; cbn; [by intros ->|]. naive_solver. Qed.

Lemma tiles_le a b l : tiles a b l -> (a <= b)%nat.
Proof. revert a. induction l as [|p l IH]; intros a; cbn; [lia|]. intros (<- & H & Hl%IH). lia. Qed.

Lemma tiles_one a b : (a < b)%nat -> tiles a b [(a, b)].
Proof. by cbn. Qed.

(** ** Packing *)

Lemma pack_from_tiles m b l : forall g, (g.1 < g.2)%nat -> tiles g.2 b l -> tiles g.1 b (pack_from m (Some g) l).
Proof.
  induction l as [|p l IH]; intros g Hg; cbn [pack_from]; [by intros <-|]. intros (Hp & Hlt & Hl).
  destruct (_ <=? _)%nat; [apply (IH (g.1, p.2)); cbn; [lia|done]|]. cbn. split_and!; [done|done|]. rewrite <- Hp. by apply IH.
Qed.

Lemma pack_tiles m a b l : tiles a b l -> tiles a b (pack l m).
Proof. unfold pack. destruct l as [|p l]; [done|]. intros (<- & Hlt & Hl). by apply pack_from_tiles. Qed.

Lemma pack_from_fits m l : forall g, fits m g -> Forall (fits m) l -> Forall (fits m) (pack_from m (Some g) l).
Proof.
  induction l as [|p l IH]; intros g Hg; cbn [pack_from]; [by repeat constructor|]. intros [Hp Hl]%Forall_cons.
  destruct (Nat.leb_spec (p.2 - g.1) m); [by apply IH|]. constructor; [done|by apply IH].
Qed.

Lemma pack_fits m l : Forall (fits m) l -> Forall (fits m) (pack l m).
Proof. unfold pack. destruct l as [|p l]; [constructor|]. intros [Hp Hl]%Forall_cons. by apply pack_from_fits. Qed.

(** ** The separator ladder *)

Lemma hard_loop_ok m b : (0 < m)%nat -> forall n i, (i <= b)%nat -> (b - i <= n)%nat ->
  tiles i b (hard_loop n i b m) /\ Forall (fits m) (hard_loop n i b m).
Proof.
  intros Hm. induction n as [|n IH]; intros i Hi Hn; cbn [hard_loop]; [split; [cbn; lia|constructor]|].
  destruct (Nat.ltb_spec i b); [|split; [cbn; lia|constructor]].
  destruct (IH (Nat.min (i + m) b)) as [Ht Hf]; [lia|lia|]. split; [cbn; split_and!; [done|lia|done]|].
  constructor; [unfold fits; cbn; lia|done].
Qed.

Lemma tile_loop_tiles src b sep n : sep <> [] -> forall s i, (s <= i <= b)%nat -> tiles s b (tile_loop n src b sep s i).
Proof.
  intros Hsep. induction n as [|n IH]; intros s i Hi; cbn [tile_loop].
  { destruct (Nat.ltb_spec s b); cbn; lia. }
  destruct (Nat.leb_spec (i + length sep) b); [|destruct (Nat.ltb_spec s b); cbn; lia].
  assert (0 < length sep)%nat by (destruct sep; [done|cbn; lia]).
  destruct (bool_decide _).
  - cbn. split_and!; [done|lia|]. apply IH. lia.
  - apply IH. lia.
Qed.

(** The fuel is the characters left: more makes no difference. *)
Lemma tile_loop_fuel src b sep n : sep <> [] -> forall s i, (b - i <= n)%nat ->
  tile_loop (S n) src b sep s i = tile_loop n src b sep s i.
Proof.
  intros Hsep. assert (0 < length sep)%nat as Hl by (destruct sep; [done|cbn; lia]).
  induction n as [|n IH]; intros s i Hi.
  { cbn [tile_loop]. rewrite (proj2 (Nat.leb_gt _ _)) by lia. done. }
  cbn [tile_loop]. destruct (Nat.leb_spec (i + length sep) b); [|done].
  destruct (bool_decide _); cbn [tile_loop] in IH; [f_equal; apply IH; lia|apply IH; lia].
Qed.

Lemma tile_separator_tiles src a b sep : (a < b)%nat -> tiles a b (tile_on_separator src a b sep).
Proof.
  intros Hab. unfold tile_on_separator. destruct (_ || _) eqn:E; [by apply tiles_one|].
  apply tile_loop_tiles; [|lia]. intros ->. done.
Qed.

Lemma tiles_refine a b l (f : Span -> list Span) :
  tiles a b l -> (forall p, p ∈ l -> (p.1 < p.2)%nat -> tiles p.1 p.2 (f p)) -> tiles a b (mjoin (map f l)).
Proof.
  revert a. induction l as [|p l IH]; intros a; [done|]. intros (<- & Hlt & Hl) Hf. cbn [map].
  change (mjoin (f p :: map f l)) with (f p ++ mjoin (map f l)). eapply tiles_app.
  - apply Hf; [left|done].
  - apply IH; [done|]. intros q Hq. apply Hf. by right.
Qed.

Lemma Forall_mjoin {A B} (P : B -> Prop) (f : A -> list B) l :
  (forall a, a ∈ l -> Forall P (f a)) -> Forall P (mjoin (map f l)).
Proof.
  induction l as [|a l IH]; intros H; [constructor|]. cbn [map]. change (mjoin (f a :: map f l)) with (f a ++ mjoin (map f l)).
  apply Forall_app. split; [apply H; left|apply IH; intros x Hx; apply H; by right].
Qed.

Lemma split_at_ok src m ladder : (0 < m)%nat -> forall a b, (a <= b)%nat ->
  tiles a b (split_at src ladder a b m) /\ Forall (fits m) (split_at src ladder a b m).
Proof.
  intros Hm. induction ladder as [|sep ladder IH]; intros a b Hab.
  - cbn [split_at]. destruct (Nat.leb_spec b a); [split; [cbn; lia|constructor]|].
    destruct (Nat.leb_spec (b - a) m); [split; [by apply tiles_one|by repeat constructor]|]. apply hard_loop_ok; lia.
  - cbn [split_at]. destruct (Nat.leb_spec b a); [split; [cbn; lia|constructor]|].
    destruct (Nat.leb_spec (b - a) m); [split; [by apply tiles_one|by repeat constructor]|].
    destruct (_ <? 2)%nat; [by apply IH|]. split.
    + apply pack_tiles. eapply tiles_refine; [by apply tile_separator_tiles|]. intros p _ Hp.
      destruct (_ <? _)%nat; [apply IH; lia|]. destruct p. by apply tiles_one.
    + apply pack_fits, Forall_mjoin. intros p _. destruct (Nat.ltb_spec m (p.2 - p.1)); [apply IH; lia|by repeat constructor].
Qed.

Lemma recursive_ok src m a b : (0 < m)%nat -> (a <= b)%nat ->
  tiles a b (recursive_split src a b m) /\ Forall (fits m) (recursive_split src a b m).
Proof. intros. by apply split_at_ok. Qed.

(** ** Sentences *)

Lemma sentence_loop_tiles src b n : forall s i, (s <= i <= b)%nat -> tiles s b (sentence_loop n src b s i).
Proof.
  induction n as [|n IH]; intros s i Hi; cbn [sentence_loop].
  { destruct (Nat.ltb_spec s b); cbn; lia. }
  destruct (Nat.ltb_spec i b); [|destruct (Nat.ltb_spec s b); cbn; lia].
  destruct (terminator (src !! i) && _); [cbn; split_and!; [done|lia|]; apply IH; lia|apply IH; lia].
Qed.
Lemma sentence_loop_fuel src b n : forall s i, (b - i <= n)%nat -> sentence_loop (S n) src b s i = sentence_loop n src b s i.
Proof.
  induction n as [|n IH]; intros s i Hi.
  { cbn [sentence_loop]. rewrite (proj2 (Nat.ltb_ge _ _)) by lia. done. }
  cbn [sentence_loop]. destruct (Nat.ltb_spec i b); [|done].
  destruct (terminator (src !! i) && _); cbn [sentence_loop] in IH; [f_equal; apply IH; lia|apply IH; lia].
Qed.

Lemma sentence_ok src m : (0 < m)%nat ->
  tiles 0 (length src) (sentence_split src m) /\ Forall (fits m) (sentence_split src m).
Proof.
  intros Hm. unfold sentence_split, refine. split.
  - apply pack_tiles. eapply tiles_refine; [apply sentence_loop_tiles; lia|]. intros p _ Hp.
    destruct (_ <? _)%nat; [apply recursive_ok; lia|]. destruct p. by apply tiles_one.
  - apply pack_fits, Forall_mjoin. intros p _.
    destruct (Nat.ltb_spec m (p.2 - p.1)); [apply recursive_ok; lia|by repeat constructor].
Qed.

(** ** Markdown *)

Definition lspan (l : Line) : Span := (l_start l, l_end l).

Lemma run_of_le p s : (run_of p s <= length s)%nat.
Proof. induction s as [|c s IH]; cbn; [lia|]. destruct (p c); lia. Qed.

Lemma lines_tile src n : forall i f, (i <= length src)%nat -> (length src - i <= n)%nat ->
  tiles i (length src) (map lspan (lines_loop n src i f)).
Proof.
  induction n as [|n IH]; intros i f Hi Hn; cbn [lines_loop]; [cbn; lia|].
  destruct (Nat.ltb_spec i (length src)); [|cbn; lia].
  pose proof (run_of_le (fun c => negb (c =? 10)%N) (drop i src)) as Hr. rewrite length_drop in Hr.
  destruct (step_fence _ f) as [f' h]. cbn [map tiles lspan l_start l_end fst snd].
  destruct (Nat.ltb_spec (i + run_of (fun c => negb (c =? 10)%N) (drop i src)) (length src));
    (split_and!; [done|lia|apply IH; lia]).
Qed.

Lemma tiles_app_inv a b l m : tiles a b (l ++ m) -> exists c, tiles a c l /\ tiles c b m.
Proof.
  revert a. induction l as [|p l IH]; intros a; cbn; [by eauto|]. intros (<- & Hp & (c & Hl & Hm)%IH). exists c. by split_and!.
Qed.

Lemma tiles_in a b l p : tiles a b l -> p ∈ l -> (a <= p.1 /\ p.1 < p.2 <= b)%nat.
Proof.
  revert a. induction l as [|q l IH]; intros a; [by intros _ ?%elem_of_nil|]. intros (<- & Hq & Hl) [->|Hp]%elem_of_cons.
  - apply tiles_le in Hl. lia.
  - destruct (IH _ Hl Hp). lia.
Qed.

(** The starts of the sections are the first line and the headings after it. *)
Definition headings (k : nat) (lines : list Line) : list nat :=
  omap (fun il : nat * Line => if (0 <? il.1)%nat && l_is_heading il.2 then Some il.1 else None) (imap (fun i l => ((k + i)%nat, l)) lines).

Lemma headings_cons k l lines :
  headings k (l :: lines) = (if (0 <? k)%nat && l_is_heading l then [k] else []) ++ headings (S k) lines.
Proof.
  unfold headings. cbn [imap omap list_omap fst snd]. rewrite Nat.add_0_r.
  assert (imap ((fun i l => ((k + i)%nat, l)) ∘ S) lines = imap (fun i l => ((S k + i)%nat, l)) lines) as ->
    by (apply imap_ext; intros; cbn; f_equal; lia).
  by destruct (_ && _).
Qed.

Definition section_of (lines : list Line) (r : Span) : list Line := take (r.2 - r.1) (drop r.1 lines).
(** A nonempty run of lines with a heading at most in front. *)
Definition one_section (sec : list Line) : Prop :=
  match sec with [] => False | _ :: rest => Forall (fun l => l_is_heading l = false) rest end.

(** The sections are the lines cut before every heading. *)
Lemma ranges_sections all : forall lines k s,
  drop k all = lines -> (s < k)%nat -> (k <= length all)%nat -> Forall (fun l => l_is_heading l = false) (take (k - (s + 1)) (drop (s + 1) all)) ->
  Forall one_section (map (section_of all) (ranges_of (s :: headings k lines) (length all))) /\
  mjoin (map (section_of all) (ranges_of (s :: headings k lines) (length all))) = drop s all.
Proof.
  induction lines as [|l lines IH]; intros k s Hd Hs Hk Hh.
  - assert (k = length all) as -> by (apply (f_equal length) in Hd; rewrite length_drop in Hd; cbn in Hd; lia).
    cbn [headings imap omap list_omap ranges_of map]. unfold section_of at 1 2. cbn [fst snd].
    assert (take (length all - s) (drop s all) = drop s all) as E by (apply take_ge; rewrite length_drop; lia). rewrite E.
    split; [|apply app_nil_r]. constructor; [|constructor].
    destruct (lookup_lt_is_Some_2 all s Hs) as [x Hx]. rewrite (drop_S _ _ _ Hx). cbn. rewrite Nat.add_1_r in Hh.
    rewrite take_ge in Hh; [done|rewrite length_drop; lia].
  - assert (all !! k = Some l) as Hl by (rewrite <- (Nat.add_0_r k), <- lookup_drop, Hd; done).
    assert (k < length all)%nat by (by apply lookup_lt_Some in Hl).
    assert (drop (S k) all = lines) as Hd' by (rewrite <- Nat.add_1_r, <- drop_drop, Hd; done).
    rewrite headings_cons, (proj2 (Nat.ltb_lt 0 k)) by lia. cbn [andb]. destruct (l_is_heading l) eqn:El; cbn [app].
    + destruct (IH (S k) k Hd') as [IH1 IH2]; [lia|lia|replace (S k - (k + 1))%nat with 0%nat by lia; constructor|].
      change (ranges_of (s :: k :: headings (S k) lines) (length all)) with ((s, k) :: ranges_of (k :: headings (S k) lines) (length all)).
      cbn [map]. change (mjoin (?x :: ?y)) with (x ++ mjoin y). rewrite IH2. unfold section_of at 1 3. cbn [fst snd].
      destruct (lookup_lt_is_Some_2 all s) as [x Hx]; [lia|]. split.
      * constructor; [|exact IH1]. rewrite (drop_S _ _ _ Hx). replace (k - s)%nat with (S (k - (s + 1))) by lia.
        cbn [take firstn one_section]. by rewrite Nat.add_1_r in *.
      * replace k with (s + (k - s))%nat at 2 by lia. rewrite <- drop_drop. apply take_drop.
    + apply IH; [done|lia|lia|]. replace (S k - (s + 1))%nat with (S (k - (s + 1))) by lia.
      rewrite (take_S_r _ _ l); [|rewrite lookup_drop; rewrite <- Hl; f_equal; lia]. apply Forall_app. split; [done|by repeat constructor].
Qed.

Lemma sections_ok lines : lines <> [] ->
  Forall one_section (map (section_of lines) (section_ranges lines)) /\
  mjoin (map (section_of lines) (section_ranges lines)) = lines.
Proof.
  intros Hne. destruct lines as [|l lines]; [done|]. unfold section_ranges, starts_of.
  assert (omap (fun il : nat * Line => if (0 <? il.1)%nat && l_is_heading il.2 then Some il.1 else None) (imap pair (l :: lines)) =
          headings 1 lines) as -> by (apply (headings_cons 0 l lines)).
  destruct (ranges_sections (l :: lines) lines 1 0) as [H1 H2]; [done|lia|cbn; lia|constructor|]. by split.
Qed.

Definition gspan (g : nat * nat * bool) : Span := (g.1.1, g.1.2).
(** A group that is kept whole although it may be too long touches a fence. *)
Definition has_fence_within (all : list Line) (p : Span) : Prop :=
  exists l, l ∈ all /\ touches l = true /\ (p.1 <= l_start l /\ l_end l <= p.2)%nat.

Lemma pack_lines_tiles m b sec : forall gs ge hf, (gs < ge)%nat -> tiles ge b (map lspan sec) ->
  tiles gs b (map gspan (pack_lines m sec gs ge hf)).
Proof.
  induction sec as [|l sec IH]; intros gs ge hf Hg; cbn [pack_lines map tiles lspan fst snd].
  - intros <-. by apply tiles_one.
  - intros (Hs & Hl & Ht). destruct (_ && _).
    + cbn [map tiles gspan fst snd]. split_and!; [done|done|]. rewrite <- Hs. by apply IH.
    + apply IH; [lia|done].
Qed.

Lemma pack_lines_fence m all b sec : forall gs ge hf, (gs <= ge)%nat -> tiles ge b (map lspan sec) -> (forall l, l ∈ sec -> l ∈ all) ->
  (hf = true -> has_fence_within all (gs, ge)) ->
  Forall (fun g => g.2 = true -> has_fence_within all (gspan g)) (pack_lines m sec gs ge hf).
Proof.
  induction sec as [|l sec IH]; intros gs ge hf Hg; cbn [pack_lines map tiles lspan fst snd]; [by intros; repeat constructor|].
  intros (Hs & Hl & Ht) Hin Hf.
  assert (touches l = true -> has_fence_within all (gs, l_end l) /\ has_fence_within all (l_start l, l_end l)) as Hl'.
  { intros Htl. split; exists l; split_and!; cbn; try lia; try done; apply Hin; left. }
  assert (forall x, x ∈ sec -> x ∈ all) as Hin' by (intros x Hx; apply Hin; by right).
  destruct (_ && _).
  - constructor; [exact Hf|]. apply IH; [lia|done|done|]. intros Htl. by apply Hl'.
  - apply IH; [lia|done|done|]. intros [Hh|Htl]%orb_prop; [|by apply Hl'].
    destruct (Hf Hh) as (x & Hx & Htx & Hs1 & He1). exists x. cbn in *. split_and!; [done|done|lia|lia].
Qed.

Lemma pack_section_ok m all a b sec :
  sec <> [] -> tiles a b (map lspan sec) -> (forall l, l ∈ sec -> l ∈ all) ->
  tiles a b (map gspan (pack_section sec m)) /\
  Forall (fun g => g.2 = true -> has_fence_within all (gspan g)) (pack_section sec m).
Proof.
  destruct sec as [|l sec]; [done|]. intros _ (Hs & Hl & Ht) Hin. cbn [fst snd lspan] in *. subst a. split.
  - by apply pack_lines_tiles.
  - eapply pack_lines_fence; [lia|exact Ht|intros x Hx; apply Hin; by right|]. intros Htl. exists l. cbn. split_and!; [apply Hin; left|done|lia|lia].
Qed.

(** What markdown promises of a span and the start of its section. *)
Definition md_good (src : rstring) (all : list Line) (m a : nat) (pf : nat * nat * nat) : Prop :=
  pf.2 = a /\ (fits m pf.1 \/ has_fence_within all pf.1).

Lemma groups_ok src all m sec_start b gs : (0 < m)%nat -> forall a,
  tiles a b (map gspan gs) -> Forall (fun g => g.2 = true -> has_fence_within all (gspan g)) gs ->
  tiles a b (map fst (mjoin (map (split_group src m sec_start) gs))) /\
  Forall (md_good src all m sec_start) (mjoin (map (split_group src m sec_start) gs)).
Proof.
  intros Hm. induction gs as [|[[s e] hf] gs IH]; intros a Hg Hf; [by split|]. destruct Hg as (Hs & He & Hg). cbn [fst snd gspan] in *.
  apply Forall_cons in Hf as [Hf1 Hf2]. destruct (IH _ Hg Hf2) as [IH1 IH2]. clear IH.
  cbn [map]. change (mjoin (?x :: ?y)) with (x ++ mjoin y). rewrite map_app. subst a.
  unfold split_group at 1 3. destruct (negb hf && (m <? e - s)%nat) eqn:Ec.
  - destruct (recursive_ok src m s e) as [Hr1 Hr2]; [done|lia|]. rewrite map_map, map_id. split; [by eapply tiles_app|].
    apply Forall_app. split; [|exact IH2]. apply List.Forall_map. eapply Forall_impl; [exact Hr2|]. intros p Hp. split; [done|]. by left.
  - split; [by eapply (tiles_app _ _ _ [_]); [apply tiles_one|]|]. constructor; [|exact IH2]. split; [done|]. cbn [fst].
    apply andb_false_iff in Ec as [Ec|Ec]; [right; apply Hf1; by destruct hf|left; apply Nat.ltb_ge in Ec; exact Ec].
Qed.

Lemma split_section_ok src all m a b sec :
  (0 < m)%nat -> sec <> [] -> tiles a b (map lspan sec) -> (forall l, l ∈ sec -> l ∈ all) ->
  tiles a b (map fst (split_section src m sec)) /\ Forall (md_good src all m a) (split_section src m sec).
Proof.
  intros Hm Hne Ht Hin. destruct (pack_section_ok m all a b sec Hne Ht Hin) as [Hg Hf].
  unfold split_section. destruct sec as [|l sec]; [done|].
  assert (exists z, last (l :: sec) = Some z /\ l_end z = b) as (z & -> & Hz).
  { clear - Ht. revert a l Ht. induction sec as [|y sec IH]; intros a l (Hs & Hl & Ht); [exists l; by cbn in *|].
    destruct (IH _ y Ht) as (z & Hz & Eb). by exists z. }
  assert (l_start l = a) as -> by apply Ht. rewrite Hz.
  assert (a < b)%nat by (destruct Ht as (Hs & Hl & Ht); cbn in *; apply tiles_le in Ht; lia).
  destruct (Nat.leb_spec (b - a) m); [|by apply groups_ok].
  split; [by apply tiles_one|]. constructor; [|constructor]. split; [done|]. by left.
Qed.

(** A span and its floor: within the budget or around a fence, and no heading
    between the start of its section and the span. *)
Definition md_span (all : list Line) (m : nat) (pf : nat * nat * nat) : Prop :=
  (pf.2 <= pf.1.1)%nat /\ (fits m pf.1 \/ has_fence_within all pf.1) /\
  (forall l, l ∈ all -> l_is_heading l = true -> ~ (pf.2 < l_start l <= pf.1.1)%nat).

Lemma markdown_sections src all m secs : forall a b, (0 < m)%nat ->
  Forall one_section secs -> tiles a b (map lspan (mjoin secs)) -> (forall l, l ∈ mjoin secs -> l ∈ all) ->
  (forall l, l ∈ all -> l ∈ mjoin secs \/ l_start l < a)%nat ->
  tiles a b (map fst (mjoin (map (split_section src m) secs))) /\
  Forall (md_span all m) (mjoin (map (split_section src m) secs)).
Proof.
  induction secs as [|sec secs IH]; intros a b Hm Hs Ht Hin Hall; [by split|]. apply Forall_cons in Hs as [Hsec Hsecs].
  change (mjoin (sec :: secs)) with (sec ++ mjoin secs) in *. rewrite map_app in Ht. apply tiles_app_inv in Ht as (c & Hc & Hb).
  destruct (split_section_ok src all m a c sec) as [H1 H2]; [done|by intros ->|done|intros l Hl; apply Hin, elem_of_app; by left|].
  destruct (IH c b) as [IH1 IH2]; [done|done|done|intros l Hl; apply Hin, elem_of_app; by right| |].
  { intros l Hl. destruct (Hall l Hl) as [[Hl'|Hl']%elem_of_app|Hl']; [right|by left|right].
    - assert (lspan l ∈ map lspan sec) as Hx by (apply list_elem_of_fmap; eauto). apply (tiles_in _ _ _ _ Hc) in Hx. cbn in Hx. lia.
    - apply tiles_le in Hc. lia. }
  cbn [map]. change (mjoin (?x :: ?y)) with (x ++ mjoin y). rewrite map_app. split; [by eapply tiles_app|].
  apply Forall_app. split; [|exact IH2]. apply Forall_forall. intros [p f] Hpf. rewrite Forall_forall in H2.
  destruct (H2 _ Hpf) as [Ef Hfit]. cbn [fst snd] in *. subst f.
  assert (p ∈ map fst (split_section src m sec)) as Hp by (apply list_elem_of_fmap; by exists (p, a)).
  apply (tiles_in _ _ _ _ H1) in Hp. unfold md_span. cbn [fst snd]. split_and!; [lia|done|].
  intros l Hl Hh Hbad. destruct (Hall l Hl) as [[Hl'|Hl']%elem_of_app|Hl']; [| |lia].
  - destruct sec as [|l0 sec]; [by apply elem_of_nil in Hl'|]. destruct Hc as (Ea & _ & _). cbn in Ea.
    apply elem_of_cons in Hl' as [->|Hl']; [lia|]. cbn in Hsec. rewrite Forall_forall in Hsec. by rewrite (Hsec _ Hl') in Hh.
  - assert (lspan l ∈ map lspan (mjoin secs)) as Hx by (apply list_elem_of_fmap; eauto). apply (tiles_in _ _ _ _ Hb) in Hx. cbn in Hx. lia.
Qed.

Lemma markdown_ok src m : (0 < m)%nat -> src <> [] ->
  tiles 0 (length src) (markdown_split src m).1 /\
  Forall (md_span (scan_lines src) m) (zip (markdown_split src m).1 (markdown_split src m).2) /\
  length (markdown_split src m).2 = length (markdown_split src m).1.
Proof.
  intros Hm Hne. unfold markdown_split. cbn [fst snd].
  assert (tiles 0 (length src) (map lspan (scan_lines src))) as Hl by (apply lines_tile; lia).
  destruct (sections_ok (scan_lines src)) as [H1 H2].
  { intros E. rewrite E in Hl. cbn in Hl. by destruct src. }
  destruct (markdown_sections src (scan_lines src) m (map (section_of (scan_lines src)) (section_ranges (scan_lines src))) 0 (length src))
    as [H3 H4]; [done|done|by rewrite H2|by rewrite H2|intros l Hin; left; by rewrite H2|].
  rewrite map_map in H3, H4. change (map (fun r => split_section src m (section_of (scan_lines src) r))) with
    (map (fun r : Span => split_section src m (take (r.2 - r.1) (drop r.1 (scan_lines src))))) in *.
  split_and!; [exact H3| |by rewrite !length_map].
  clear - H4. induction H4 as [|[p f] l Hp _ IH]; cbn; by constructor.
Qed.

(** ** Whole chunks *)

(** A chunk and the span it comes from: the exact slice up to the span's end,
    moved back by the overlap at most, never before [floor]. *)
Definition chunk_ok (text : rstring) (overlap floor j : nat) (p : Span) (c : Chunk) : Prop :=
  ck_index c = j /\ (floor <= ck_char_start c <= p.1)%nat /\ (p.1 - ck_char_start c <= overlap)%nat /\
  (p.1 < p.2 <= length text)%nat /\ ck_text c = slice text (ck_char_start c) p.2.

Lemma overlap_ok text overlap floors b spans : (b <= length text)%nat -> forall i prev a,
  tiles a b spans -> (prev <= a)%nat ->
  (forall j p, spans !! j = Some p -> default 0 (floors ≫= fun f => f !! (i + j)%nat) <= p.1)%nat ->
  exists chunks, overlap_loop text overlap floors i prev spans = Some chunks /\ length chunks = length spans /\
    forall j p c, spans !! j = Some p -> chunks !! j = Some c ->
      chunk_ok text overlap (default 0 (floors ≫= fun f => f !! (i + j)%nat)) (i + j) p c.
Proof.
  intros Hb. induction spans as [|[s e] spans IH]; intros i prev a Ht Hp Hf; [by exists []|].
  destruct Ht as (Hs & He & Ht). cbn [fst snd] in *. subst a. cbn [overlap_loop].
  pose proof (Hf 0 (s, e) eq_refl) as Hf0. rewrite Nat.add_0_r in Hf0. cbn [fst] in Hf0.
  set (floor := default 0 (floors ≫= fun f => f !! i)) in *.
  set (start := if (i =? 0)%nat || (overlap =? 0)%nat then s else Nat.max (Nat.max (s - overlap) prev) floor).
  assert (floor <= start <= s /\ s - start <= overlap)%nat as [Hst Hov].
  { unfold start. destruct (_ || _); lia. }
  pose proof (tiles_le _ _ _ Ht) as Hle. rewrite (proj2 (Nat.leb_le start e)), (proj2 (Nat.leb_le e (length text))) by lia. cbn [andb].
  destruct (IH (i + 1)%nat s e Ht) as (chunks & -> & Hlen & Hall); [lia| |].
  { intros j p Hj. pose proof (Hf (S j) p Hj) as H. by rewrite <- Nat.add_assoc. }
  eexists. split; [reflexivity|]. split; [cbn; by rewrite Hlen|]. intros [|j] p c Hj Hc.
  - injection Hj as <-. injection Hc as <-. rewrite Nat.add_0_r. unfold chunk_ok. cbn. split_and!; try done; lia.
  - cbn in Hj, Hc. pose proof (Hall j p c Hj Hc) as H. by rewrite <- Nat.add_assoc in H.
Qed.

(** What each strategy promises of a chunk [c] of the span [p]: the budget,
    which a fenced code block of Markdown may exceed; and no Markdown heading
    inside the overlap. *)
Definition strategy_ok (text : rstring) (opts : ChunkOpts) (p : Span) (c : Chunk) : Prop :=
  match co_strategy opts with
  | CMarkdown =>
      (fits (co_max_chars opts) p \/ has_fence_within (scan_lines text) p) /\
      (forall l, l ∈ scan_lines text -> l_is_heading l = true -> ~ (ck_char_start c < l_start l <= p.1)%nat)
  | _ => fits (co_max_chars opts) p
  end.

Lemma trim_nonempty text : trim text <> [] -> text <> [].
Proof. by intros H ->. Qed.

Lemma chunks_spans `{TreeSitter} text opts :
  co_strategy opts <> CCode -> (0 < co_max_chars opts)%nat -> text <> [] ->
  exists chunks, let spans := (spans_of text opts).1 in
    apply_overlap text spans (co_overlap_chars opts) (spans_of text opts).2 = Some chunks /\
    tiles 0 (length text) spans /\ length chunks = length spans /\
    forall j p c, spans !! j = Some p -> chunks !! j = Some c ->
      chunk_ok text (co_overlap_chars opts) 0 j p c /\ strategy_ok text opts p c.
Proof.
  intros Hs Hm Hne. cbv zeta.
  assert (tiles 0 (length text) (spans_of text opts).1 /\
    forall j p, (spans_of text opts).1 !! j = Some p ->
      default 0 ((spans_of text opts).2 ≫= fun f => f !! j) <= p.1 /\
      forall c, default 0 ((spans_of text opts).2 ≫= fun f => f !! j) <= ck_char_start c -> strategy_ok text opts p c)%nat as [Ht Hf].
  { unfold spans_of, strategy_ok. destruct (co_strategy opts); [| | |done].
    - destruct (recursive_ok text (co_max_chars opts) 0 (length text)) as [H1 H2]; [done|lia|]. split; [done|].
      intros j p Hj. cbn. split; [lia|]. intros c _. rewrite Forall_forall in H2. by eapply H2, list_elem_of_lookup_2.
    - destruct (markdown_ok text (co_max_chars opts) Hm Hne) as (H1 & H2 & H3).
      destruct (markdown_split text (co_max_chars opts)) as [spans floors]. cbn [fst snd mbind option_bind] in *. split; [done|].
      intros j p Hj. destruct (lookup_lt_is_Some_2 floors j) as [f Hfj]; [rewrite H3; by eapply lookup_lt_Some|].
      rewrite Hfj. cbn [default from_option id]. rewrite Forall_forall in H2.
      destruct (H2 (p, f)) as (Hle & Hfit & Hh).
      { apply (list_elem_of_lookup_2 _ j). rewrite lookup_zip_with, Hj, Hfj. done. }
      cbn [fst snd] in *. split; [done|]. intros c Hc. split; [done|]. intros l Hl Hlh Hbad. apply (Hh l Hl Hlh). lia.
    - destruct (sentence_ok text (co_max_chars opts) Hm) as [H1 H2]. split; [done|].
      intros j p Hj. cbn. split; [lia|]. intros c _. rewrite Forall_forall in H2. by eapply H2, list_elem_of_lookup_2. }
  destruct (overlap_ok text (co_overlap_chars opts) (spans_of text opts).2 (length text) (spans_of text opts).1) with (i := 0) (prev := 0) (a := 0)
    as (chunks & E & Hlen & Hall); [lia|done|lia|intros j p Hj; by apply Hf|].
  exists chunks. split_and!; [done|done|done|]. intros j p c Hj Hc. pose proof (Hall j p c Hj Hc) as Hok. cbn [Nat.add] in Hok.
  split.
  - destruct Hok as (? & ? & ? & ? & ?). unfold chunk_ok. split_and!; try done; lia.
  - apply (Hf j p Hj). apply Hok.
Qed.

Lemma chunk_text_tiles `{TreeSitter} text opts :
  co_strategy opts <> CCode -> (co_overlap_chars opts < co_max_chars opts)%nat -> trim text <> [] ->
  exists spans chunks, chunk_text text opts = Ok (Some chunks) /\
    tiles 0 (length text) spans /\ length chunks = length spans /\
    forall j p c, spans !! j = Some p -> chunks !! j = Some c ->
      chunk_ok text (co_overlap_chars opts) 0 j p c /\ strategy_ok text opts p c.
Proof.
  intros Hs Hm Hne. destruct (chunks_spans text opts Hs) as (chunks & E & Hall); [lia|by apply trim_nonempty|].
  exists (spans_of text opts).1, chunks. split; [|exact Hall]. unfold chunk_text.
  rewrite (proj2 (Nat.eqb_neq _ _)), (proj2 (Nat.leb_gt _ _)), bool_decide_eq_false_2 by (done || lia).
  destruct (spans_of text opts) as [spans floors]. by rewrite <- E.
Qed.

(** splitting a text cuts it into spans that lie end to end from its first
    character to its last, one chunk each in order, numbered from 0; every
    chunk is the exact slice of the text from its offset to the end of its
    span, moved back by the overlap at most; and each strategy keeps its
    promise: a span within the budget unless Markdown must keep a fenced code
    block whole, and no Markdown heading within an overlap. *)
Theorem chunk_text_spec `{TreeSitter} text opts :
  co_strategy opts <> CCode -> (co_overlap_chars opts < co_max_chars opts)%nat -> trim text <> [] ->
  exists spans chunks, chunk_text text opts = Ok (Some chunks) /\
    tiles 0 (length text) spans /\ length chunks = length spans /\
    forall j p c, spans !! j = Some p -> chunks !! j = Some c ->
      chunk_ok text (co_overlap_chars opts) 0 j p c /\ strategy_ok text opts p c.
Proof. apply chunk_text_tiles. Qed.

Definition sample_opts : ChunkOpts :=
  {| co_strategy := CMarkdown; co_max_chars := 12; co_overlap_chars := 3; co_language := None |}.
Definition sample_doc : rstring := lit "# One" ++ [10%N] ++ lit "alpha beta gamma" ++ [10%N] ++ lit "# Two" ++ [10%N] ++ lit "tail".

Lemma chunk_text_spec_witness :
  exists spans chunks, chunk_text (H := plain) sample_doc sample_opts = Ok (Some chunks) /\
    tiles 0 (length sample_doc) spans /\ length chunks = length spans /\
    forall j p c, spans !! j = Some p -> chunks !! j = Some c ->
      chunk_ok sample_doc 3 0 j p c /\ strategy_ok sample_doc sample_opts p c.
Proof. apply (chunk_text_spec (H := plain) sample_doc sample_opts); [discriminate|cbn; lia|by vm_compute]. Defined.

(** The chunks of [sample_doc]: the last begins at its heading, without overlap. *)
Example sample_chunks :
  (match chunk_text (H := plain) sample_doc sample_opts with
   | Ok (Some chunks) => map (fun c => (ck_char_start c, length (ck_text c))) chunks | _ => [] end) = [(0, 6); (3, 14); (14, 9); (23, 10)]%nat.
Proof. vm_compute. reflexivity. Qed.

(** ** Stitching the chunks *)

(** A chunk as the stored piece of a document. *)
Definition piece_of_chunk (c : Chunk) : Piece :=
  {| pc_text := ck_text c; pc_char_start := Some (Z.of_nat (ck_char_start c)) |}.

Lemma chunks_chained text overlap b spans chunks a i :
  tiles a b spans -> length chunks = length spans ->
  (forall j p c, spans !! j = Some p -> chunks !! j = Some c -> chunk_ok text overlap 0 (i + j) p c) ->
  exists cs, map piece_of_chunk chunks = map (slice_piece text) cs /\ chained text a cs /\ reach_all a cs = b /\
    Forall2 (fun c k => c.1 = ck_char_start k /\ (0 < c.2)%nat) cs chunks.
Proof.
  revert chunks a i. induction spans as [|p spans IH]; intros [|c chunks] a i Ht Hl Hall; try done.
  { exists []. split_and!; [done|done|exact Ht|constructor]. }
  destruct Ht as (<- & Hp & Ht). destruct (IH chunks p.2 (S i) Ht) as (cs & E & Hc & Hr & H2); [cbn in Hl; lia| |].
  { intros j q d Hq Hd. pose proof (Hall (S j) q d Hq Hd) as H. by replace (S i + j)%nat with (i + S j)%nat by lia. }
  destruct (Hall 0%nat p c eq_refl eq_refl) as (_ & Hs & _ & Hlen & Et).
  exists ((ck_char_start c, p.2 - ck_char_start c)%nat :: cs).
  assert (p.1 `max` (ck_char_start c + (p.2 - ck_char_start c)) = p.2)%nat as Emax by lia.
  split_and!.
  - cbn [map]. f_equal; [|exact E]. unfold piece_of_chunk, slice_piece, span. cbn [fst snd].
    replace (ck_char_start c + (p.2 - ck_char_start c))%nat with p.2 by lia. by rewrite Et.
  - cbn [chained fst snd]. rewrite Emax. split; [lia|done].
  - unfold reach_all. cbn [foldl fst snd]. rewrite Emax. exact Hr.
  - constructor; [cbn; split; [done|lia]|done].
Qed.

(** C39: chunking loses nothing: for every strategy over the text but the one for
    code (which keeps declarations only, and of prose nothing), an overlap
    smaller than the budget and a text that is not blank, expanding a hit over
    all the chunks of a document stitches the whole document back together,
    character for character. *)
Theorem chunks_stitch `{TreeSitter} text opts :
  co_strategy opts <> CCode -> (co_overlap_chars opts < co_max_chars opts)%nat -> trim text <> [] ->
  (Z.of_nat (length text) <= i64_max)%Z ->
  exists chunks, chunk_text text opts = Ok (Some chunks) /\ stitch (map piece_of_chunk chunks) = Some text.
Proof.
  intros Hs Hm Hne Hlen. destruct (chunk_text_tiles text opts Hs Hm Hne) as (spans & chunks & E & Ht & Hl & Hall).
  exists chunks. split; [done|].
  destruct (chunks_chained text (co_overlap_chars opts) (length text) spans chunks 0 0) as (cs & -> & Hc & Hr & H2);
    [done|done|intros j p c Hp Hk; by apply (Hall j p c)|].
  destruct H2 as [|c k cs chunks [Hc1 Hc2] H2].
  { cbn in Hr. destruct text; [done|discriminate]. }
  destruct spans as [|p spans]; [done|]. destruct Ht as (Hp & _).
  destruct (Hall 0%nat p k eq_refl eq_refl) as [(_ & Hk & _) _]. assert (c.1 = 0)%nat as Hc0 by lia.
  destruct Hc as [[_ Hce] Hc]. change (reach_all (0 `max` (c.1 + c.2)) cs = length text) in Hr.
  rewrite Nat.max_0_l in Hc, Hr. rewrite (stitch_whole text c cs), Hr, Hc0 by done. f_equal.
  unfold span. rewrite drop_0, Nat.sub_0_r. by apply take_ge.
Qed.

Lemma chunks_stitch_witness :
  exists chunks, chunk_text (H := plain) sample_doc sample_opts = Ok (Some chunks) /\ stitch (map piece_of_chunk chunks) = Some sample_doc.
Proof. apply (chunks_stitch (H := plain) sample_doc sample_opts); [discriminate|cbn; lia|by vm_compute|vm_compute; discriminate]. Defined.
