(* ===== verification/Ann.v ===== *)
(** * Ann: the approximate indexes ([src/src/ann])

    The walk that scores rows in the exact or the quantised space, the
    generator, the inverted-file index and the serial side of the navigable
    graph.  Indexing is explicit: a lookup outside a vector is the panic, so
    the operations live in the option monad and the theorems of [IvfOk] and
    [HnswOk] show they return.  The worker threads of a large build are in
    [HnswPar].

    [f64::ln], the order in which [BinaryHeap] yields equals and the order
    [select_nth_unstable_by] leaves are parameters with the documented laws.
    Node ids are [u32]: they wrap at 2^32 nodes. *)
From S2P Require Import Prelude Floats Model Sort TopK Std Manifest Segments Scoring Quant.

(** ** The standard library *)

(** [f32::total_cmp]: the bits as a sign-magnitude integer. *)
Definition total_key (b : f32) : Z := if (b <? 2 ^ 31)%Z then b else (2 ^ 31 - 1 - b)%Z.
Definition f32_total_cmp : f32 -> f32 -> comparison := cmp_on total_key Z.compare.

Definition f32_neg_infinity : f32 := 0xFF800000.

Class Ln64 := f64_ln : f64 -> f64.

(** [BinaryHeap]: its elements in some order; [peek] is what [pop] removes. *)
Class BinaryHeap := {
  heap_push : forall {A : Type}, (A -> A -> comparison) -> A -> list A -> list A;
  heap_take : forall {A : Type}, (A -> A -> comparison) -> list A -> option (A * list A);
  heap_push_perm : forall {A} (cmp : A -> A -> comparison) x l, heap_push cmp x l ≡ₚ x :: l;
  heap_take_none : forall {A} (cmp : A -> A -> comparison) l, heap_take cmp l = None -> l = [];
  heap_take_some : forall {A} (cmp : A -> A -> comparison) l x l', CmpOrder cmp ->
    heap_take cmp l = Some (x, l') -> l ≡ₚ x :: l' /\ forall y, y ∈ l -> cmp_le cmp y x
}.
Definition heap_peek `{BinaryHeap} {A} (cmp : A -> A -> comparison) (l : list A) : option A :=
  fst <$> heap_take cmp l.

(** [select_nth_unstable_by]: a permutation whose first elements are no greater
    than the rest. *)
Class SelectNth := {
  select_nth : forall {A : Type}, (A -> A -> comparison) -> nat -> list A -> list A;
  select_nth_perm : forall {A} (cmp : A -> A -> comparison) i l, select_nth cmp i l ≡ₚ l;
  select_nth_le : forall {A} (cmp : A -> A -> comparison) i l, CmpOrder cmp -> forall x y,
    x ∈ take (S i) (select_nth cmp i l) -> y ∈ drop (S i) (select_nth cmp i l) -> cmp_le cmp x y
}.

(** Instances: a list scanned for its greatest element, and a full sort. *)
Fixpoint scan_take {A} (cmp : A -> A -> comparison) (l : list A) : option (A * list A) :=
  match l with
  | [] => None
  | x :: l =>
      match scan_take cmp l with
      | None => Some (x, [])
      | Some (y, rest) => match cmp x y with Lt => Some (y, x :: rest) | _ => Some (x, y :: rest) end
      end
  end.

Lemma scan_take_some {A} (cmp : A -> A -> comparison) `{!CmpOrder cmp} l : forall x l',
  scan_take cmp l = Some (x, l') -> l ≡ₚ x :: l' /\ forall y, y ∈ l -> cmp_le cmp y x.
Proof.
  induction l as [|z l IH]; intros x l' H; [done|]. cbn in H. destruct (scan_take cmp l) as [[y rest]|] eqn:E.
  - destruct (IH y rest eq_refl) as [Hp Hle]. destruct (cmp z y) eqn:Ez; injection H as <- <-.
    1,3: split; [by rewrite Hp|]; intros a [->|Ha]%elem_of_cons; [by unfold cmp_le; rewrite cmp_refl|];
      apply (cmp_le_trans cmp a y z); [by apply Hle|unfold cmp_le; rewrite (cmp_antisym cmp z y), Ez; done].
    split; [rewrite Hp; apply Permutation_swap|]. intros a [->|Ha]%elem_of_cons; [unfold cmp_le; congruence|by apply Hle].
  - injection H as <- <-. assert (l = []) as ->.
    { destruct l as [|a l]; [done|]. cbn in E. destruct (scan_take cmp l) as [[]|]; [|done]. by destruct (cmp _ _). }
    split; [done|]. intros a ->%list_elem_of_singleton. unfold cmp_le. by rewrite cmp_refl.
Qed.

#[export] Program Instance scan_heap : BinaryHeap | 100 := {|
  heap_push := fun A _ x l => x :: l; heap_take := @scan_take
|}.
Next Obligation. done. Qed.
Next Obligation.
  intros A cmp [|x l]; [done|]. cbn. destruct (scan_take cmp l) as [[]|]; [|done]. by destruct (cmp _ _).
Qed.
Next Obligation. intros A cmp l x l' Hc H. exact (scan_take_some cmp l x l' H). Qed.

Lemma sorted_take_drop {A} (R : A -> A -> Prop) l i x y :
  StronglySorted R l -> x ∈ take i l -> y ∈ drop i l -> R x y.
Proof.
  intros Hs. revert i. induction Hs as [|z l Hs IH Hz]; intros [|i] Hx Hy; cbn in *; try by apply elem_of_nil in Hx.
  apply elem_of_cons in Hx as [->|Hx]; [|by eapply IH]. rewrite Forall_forall in Hz. apply Hz.
  rewrite <- (take_drop i l). apply elem_of_app. by right.
Qed.

#[export] Program Instance sort_select : SelectNth | 100 := {| select_nth := fun A cmp _ l => sort_by cmp l |}.
Next Obligation. intros. apply sort_by_perm. Qed.
Next Obligation. intros A cmp i l Hc x y Hx Hy. eapply sorted_take_drop; [by apply sort_by_sorted|exact Hx|exact Hy]. Qed.

(** ** The walk ([ann/mod.rs]) *)

Inductive WalkQuant :=
| WNone
| WInt8 (codes : list Z) (dim : nat) (euclidean : bool) (params : QuantParams)
| WBinary (words : list Z) (wpr : nat).
Record Walk := { wk_data : Segments; wk_score_fn : list f32 -> list f32 -> f32; wk_quant : WalkQuant }.
Inductive QueryCode := CF32 | CInt8 (q : list Z) | CBinary (q : list Z).
Record QueryScorer := { qs_walk : Walk; qs_query : list f32; qs_code : QueryCode }.

Definition score_fn_for (d : Distance) : list f32 -> list f32 -> f32 :=
  match d with Cosine | DotProduct => dot | Euclidean => euclidean_neg_sq end.

(** [data.row(row)]. *)
Definition row_at (data : Segments) (row : nat) : option (list f32) :=
  if (row <? segments_row_count data)%nat then Some (segments_row row data) else None.

Definition i8_score (euclidean : bool) (a b : list Z) : option f32 := f32_of_Z <$> score_i8 euclidean a b.
Definition binary_score (a b : list Z) : f32 := f32_opp (f32_of_Z (Z.of_nat (hamming a b))).

Definition Walk_exact (data : Segments) (d : Distance) : Walk :=
  {| wk_data := data; wk_score_fn := score_fn_for d; wk_quant := WNone |}.
Definition Walk_int8 (data : Segments) (codes : list Z) (params : QuantParams) (d : Distance) : Walk :=
  {| wk_data := data; wk_score_fn := score_fn_for d;
     wk_quant := WInt8 codes (segments_dimension data) (bool_decide (d = Euclidean)) params |}.
Definition Walk_binary (data : Segments) (words : list Z) (wpr : nat) : Walk :=
  {| wk_data := data; wk_score_fn := score_fn_for Cosine; wk_quant := WBinary words wpr |}.
(** The walk of the current quantisation ([store/quant.rs]). *)
Definition ann_walk_for (quant : option Quant) (data : Segments) (d : Distance) : Walk :=
  match quant with
  | Some (QInt8 s) => if bool_decide (i8_vectors s = []) then Walk_exact data d else Walk_int8 data (i8_vectors s) (i8_params s) d
  | Some (QBinary s) => if bool_decide (bs_words s = []) then Walk_exact data d else Walk_binary data (bs_words s) (bs_words_per_row s)
  | None => Walk_exact data d
  end.

Definition score_rows (w : Walk) (a b : nat) : option f32 :=
  match wk_quant w with
  | WNone => va ← row_at (wk_data w) a; vb ← row_at (wk_data w) b; Some (wk_score_fn w va vb)
  | WInt8 codes dim euclidean _ => ca ← code_row codes dim a; cb ← code_row codes dim b; i8_score euclidean ca cb
  | WBinary words wpr => wa ← code_row words wpr a; wb ← code_row words wpr b; Some (binary_score wa wb)
  end.

Definition query_scorer (w : Walk) (query : list f32) : QueryScorer :=
  {| qs_walk := w; qs_query := query;
     qs_code := match wk_quant w with
                | WNone => CF32
                | WInt8 _ _ _ params => CInt8 (quantize params query)
                | WBinary _ _ => CBinary (pack_signs query)
                end |}.

(** [None] also where a code meets another walk's metric. *)
Definition qs_score (qs : QueryScorer) (row : nat) : option f32 :=
  match wk_quant (qs_walk qs), qs_code qs with
  | WNone, _ => v ← row_at (wk_data (qs_walk qs)) row; Some (wk_score_fn (qs_walk qs) (qs_query qs) v)
  | WInt8 codes dim euclidean _, CInt8 q => c ← code_row codes dim row; i8_score euclidean q c
  | WBinary words wpr, CBinary q => c ← code_row words wpr row; Some (binary_score q c)
  | _, _ => None
  end.

(** ** The generator *)

Definition u64_wrap (z : Z) : Z := (z mod 2 ^ 64)%Z.
Definition SplitMix64_new (seed : N) : Z := Z.of_N seed.
(** The new state and the number drawn. *)
Definition next_u64 (s : Z) : Z * Z :=
  let s := u64_wrap (s + 0x9E3779B97F4A7C15) in
  let z := u64_wrap (Z.lxor s (Z.shiftr s 30) * 0xBF58476D1CE4E5B9) in
  let z := u64_wrap (Z.lxor z (Z.shiftr z 27) * 0x94D049BB133111EB) in
  (s, Z.lxor z (Z.shiftr z 31)).
Definition f64_one : f64 := f64_of_Z 1.
Definition next_f64 (s : Z) : Z * f64 :=
  let '(s, z) := next_u64 s in
  (s, f64_mul (f64_of_Z (Z.shiftr z 11)) (f_div 52 11 f64_one (f64_of_Z (2 ^ 53)))).
Definition rng_below (n : nat) (s : Z) : Z * nat := let '(s, z) := next_u64 s in (s, Z.to_nat (z mod Z.of_nat n)).

(** ** The inverted file ([ann/ivf.rs]) *)

Record IvfIndex := {
  iv_dim : nat; iv_distance : Distance; iv_n_lists_cfg : nat; iv_n_probe : nat; iv_seed : N;
  iv_centroids : list f32; iv_lists : list (list nat)
}.
Definition KMEANS_ITERS : nat := 12.

Definition IvfIndex_new (cfg : AnnConfig) (dim : nat) (d : Distance) : IvfIndex :=
  {| iv_dim := dim; iv_distance := d; iv_n_lists_cfg := a_n_lists cfg; iv_n_probe := Nat.max (a_n_probe cfg) 1;
     iv_seed := a_seed cfg; iv_centroids := []; iv_lists := [] |}.
Definition iv_set_lists (centroids : list f32) (lists : list (list nat)) (ix : IvfIndex) : IvfIndex :=
  {| iv_dim := iv_dim ix; iv_distance := iv_distance ix; iv_n_lists_cfg := iv_n_lists_cfg ix; iv_n_probe := iv_n_probe ix;
     iv_seed := iv_seed ix; iv_centroids := centroids; iv_lists := lists |}.
Definition ivf_from_parts (cfg : AnnConfig) (dim : nat) (d : Distance) (centroids : list f32) (lists : list (list nat)) : IvfIndex :=
  iv_set_lists centroids lists (IvfIndex_new cfg dim d).
Definition ivf_set_query_params (cfg : AnnConfig) (ix : IvfIndex) : IvfIndex :=
  {| iv_dim := iv_dim ix; iv_distance := iv_distance ix; iv_n_lists_cfg := iv_n_lists_cfg ix;
     iv_n_probe := Nat.max (a_n_probe cfg) 1; iv_seed := iv_seed ix; iv_centroids := iv_centroids ix; iv_lists := iv_lists ix |}.
Definition n_centroids (centroids : list f32) (dim : nat) : nat := (length centroids / Nat.max dim 1)%nat.

(** The centroid with the highest score; the first of equals. *)
Definition nearest_centroid (d : Distance) (dim : nat) (centroids : list f32) (v : list f32) : nat :=
  (foldl (fun best c =>
     let s := score_fn_for d v (flat_row centroids dim c) in
     if f32_ltb best.2 s then (c, s) else best) (0%nat, f32_neg_infinity) (seq 0 (n_centroids centroids dim))).1.

(** The first [k] places of a Fisher-Yates shuffle. *)
Fixpoint shuffle_prefix (k i : nat) (rng : Z) (idx : list nat) : list nat :=
  match k with
  | O => idx
  | S k =>
      let '(rng, r) := rng_below (length idx - i) rng in
      let j := (i + r)%nat in
      shuffle_prefix k (S i) rng
        (match idx !! i, idx !! j with Some x, Some y => <[j := x]> (<[i := y]> idx) | _, _ => idx end)
  end.

(** [for (d, &x) in dst.iter_mut().zip(v) { *d += x }]. *)
Fixpoint add_into (dst v : list f32) : list f32 :=
  match dst, v with
  | d :: dst, x :: v => f32_add d x :: add_into dst v
  | dst, _ => dst
  end.

Definition assign_step (d : Distance) (dim : nat) (centroids : list f32) (vecs : list (nat * list f32)) : list nat :=
  map (fun rv => nearest_centroid d dim centroids rv.2) vecs.

(** The sums and the counts of the members of each centroid. *)
Definition sum_step (dim : nat) (acc : list f32 * list nat) (av : nat * (nat * list f32)) : list f32 * list nat :=
  let c := av.1 in
  (write_row acc.1 dim c (add_into (flat_row acc.1 dim c) av.2.2), alter S c acc.2).
Definition update_centroid (d : Distance) (dim : nat) (sums : list f32) (counts : list nat) (centroids : list f32) (c : nat) : list f32 :=
  let n := default 0%nat (counts !! c) in
  if (n =? 0)%nat then centroids
  else
    let inv := f32_div f32_one (f32_of_Z (Z.of_nat n)) in
    let cen := map (fun s => f32_mul s inv) (flat_row sums dim c) in
    write_row centroids dim c (if bool_decide (d = Cosine) then normalize cen else cen).
Definition update_step (d : Distance) (dim k : nat) (assign : list nat) (vecs : list (nat * list f32)) (centroids : list f32) : list f32 :=
  let '(sums, counts) := foldl (sum_step dim) (replicate (k * dim) f32_zero, replicate k 0%nat) (zip assign vecs) in
  foldl (update_centroid d dim sums counts) centroids (seq 0 k).

(** Lloyd's iterations: the assignment, then the means, until nothing moves. *)
Fixpoint lloyd (iters : nat) (d : Distance) (dim k : nat) (vecs : list (nat * list f32)) (assign : list nat) (centroids : list f32) : list f32 :=
  match iters with
  | O => centroids
  | S iters =>
      let assign' := assign_step d dim centroids vecs in
      let centroids' := update_step d dim k assign' vecs centroids in
      if bool_decide (assign' = assign) then centroids' else lloyd iters d dim k vecs assign' centroids'
  end.

Definition push_row (c row : nat) (lists : list (list nat)) : option (list (list nat)) :=
  l ← lists !! c; Some (<[c := l ++ [row]]> lists).
Definition list_rows (d : Distance) (dim : nat) (centroids : list f32) (vecs : list (nat * list f32)) (lists : list (list nat))
  : option (list (list nat)) :=
  foldl (fun acc rv => lists ← acc; push_row (nearest_centroid d dim centroids rv.2) rv.1 lists) (Some lists) vecs.

Definition f64_round_usize (x : f64) : nat := Z.to_nat (Z.min (2 ^ 64 - 1) (Z.max 0 (default 0%Z (f_round 52 11 x)))).
Definition list_count (n_lists_cfg n : nat) : nat :=
  if (n_lists_cfg =? 0)%nat
  then Nat.min (Nat.max (f64_round_usize (f_sqrt 52 11 (f64_of_Z (Z.of_nat n)))) 1) n
  else Nat.min (Nat.max n_lists_cfg 1) n.

(** Every live row is read, so a row past the end panics wherever the build
    first meets it. *)
Definition with_vectors (data : Segments) (rows : list nat) : option (list (nat * list f32)) :=
  mapM (fun row => (fun v => (row, v)) <$> row_at data row) rows.

Definition ivf_build (w : Walk) (live_rows : list nat) (ix : IvfIndex) : option IvfIndex :=
  let d := iv_distance ix in let dim := iv_dim ix in
  if (dim =? 0)%nat || bool_decide (live_rows = []) then Some (iv_set_lists [] [] ix)
  else
    vecs ← with_vectors (wk_data w) live_rows;
    let k := list_count (iv_n_lists_cfg ix) (length live_rows) in
    let idx := shuffle_prefix k 0 (SplitMix64_new (iv_seed ix)) live_rows in
    seeds ← with_vectors (wk_data w) (take k idx);
    let centroids := foldl (fun cs cv => write_row cs dim cv.1 cv.2.2) (replicate (k * dim) f32_zero) (imap pair seeds) in
    let centroids := lloyd KMEANS_ITERS d dim k vecs (replicate (length live_rows) 0%nat) centroids in
    lists ← list_rows d dim centroids vecs (replicate k []);
    Some (iv_set_lists centroids lists ix).

Definition ivf_insert_rows (w : Walk) (rows : list nat) (ix : IvfIndex) : option IvfIndex :=
  if (iv_dim ix =? 0)%nat || (n_centroids (iv_centroids ix) (iv_dim ix) =? 0)%nat then
    if bool_decide (rows = []) then Some ix else ivf_build w rows ix
  else
    vecs ← with_vectors (wk_data w) rows;
    lists ← list_rows (iv_distance ix) (iv_dim ix) (iv_centroids ix) vecs (iv_lists ix);
    Some (iv_set_lists (iv_centroids ix) lists ix).

Section search.
Context `{SortUnstable} `{SelectNth}.

(** Nearest first. *)
Definition best_first {A} (score : A -> f32) : A -> A -> comparison := cmp_flip (cmp_on score f32_total_cmp).

Definition centroid_scores (ix : IvfIndex) (query : list f32) : list (f32 * nat) :=
  map (fun c => (score_fn_for (iv_distance ix) query (flat_row (iv_centroids ix) (iv_dim ix) c), c))
    (seq 0 (n_centroids (iv_centroids ix) (iv_dim ix))).
(** The rows of the [probe] nearest lists. *)
Definition probed (ix : IvfIndex) (query : list f32) : option (list nat) :=
  let scores := centroid_scores ix query in
  let probe := Nat.min (iv_n_probe ix) (length scores) in
  mjoin <$> mapM (fun sc : f32 * nat => iv_lists ix !! sc.2) (take probe (select_nth (best_first fst) (probe - 1) scores)).

Definition ivf_search (w : Walk) (query : list f32) (n_candidates : nat) (ix : IvfIndex) : option (list (nat * f32)) :=
  if (n_candidates =? 0)%nat || (iv_dim ix =? 0)%nat || (n_centroids (iv_centroids ix) (iv_dim ix) =? 0)%nat then Some []
  else
    rows ← probed ix query;
    scored ← mapM (fun row => (fun s => (row, s)) <$> qs_score (query_scorer w query) row) rows;
    Some (take n_candidates (sort_unstable (best_first snd) scored)).
End search.

(** ** The graph ([ann/hnsw.rs]) *)

(** Node, level, neighbours. *)
Abbreviation Links := (list (list (list nat))) (only parsing).
Definition as_u32 (n : nat) : nat := N.to_nat (N.of_nat n mod 2 ^ 32).

Record Scored := { sd_score : f32; sd_node : nat }.
Definition scored_cmp : Scored -> Scored -> comparison := cmp_on sd_score f32_total_cmp.
Definition min_scored_cmp : Scored -> Scored -> comparison := cmp_flip scored_cmp.

Record HnswGraph := {
  hg_dim : nat; hg_m : nat; hg_m_max0 : nat; hg_ef_construction : nat; hg_ef_search : nat;
  hg_level_mult : f64; hg_rng : Z;
  hg_rows : list nat;
  hg_links : list (list (list nat));
  hg_entry : option nat;
  hg_max_level : nat
}.

Definition hg_set (rng : Z) (rows : list nat) (links : list (list (list nat))) (entry : option nat) (max_level : nat)
    (g : HnswGraph) : HnswGraph :=
  {| hg_dim := hg_dim g; hg_m := hg_m g; hg_m_max0 := hg_m_max0 g; hg_ef_construction := hg_ef_construction g;
     hg_ef_search := hg_ef_search g; hg_level_mult := hg_level_mult g; hg_rng := rng; hg_rows := rows;
     hg_links := links; hg_entry := entry; hg_max_level := max_level |}.
Definition hg_set_links (links : list (list (list nat))) (g : HnswGraph) : HnswGraph :=
  hg_set (hg_rng g) (hg_rows g) links (hg_entry g) (hg_max_level g) g.

Section hnsw_new.
Context `{Ln64}.
Definition HnswGraph_new (cfg : AnnConfig) (dim : nat) : HnswGraph :=
  let m := Nat.max (a_m cfg) 1 in
  {| hg_dim := dim; hg_m := m; hg_m_max0 := Nat.max (N.to_nat (sat_mul (N.of_nat m) 2)) 1;
     hg_ef_construction := Nat.max (a_ef_construction cfg) 1; hg_ef_search := Nat.max (a_ef_search cfg) 1;
     hg_level_mult := if (1 <? m)%nat then f_div 52 11 f64_one (f64_ln (f64_of_Z (Z.of_nat m))) else 0%Z;
     hg_rng := SplitMix64_new (a_seed cfg); hg_rows := []; hg_links := []; hg_entry := None; hg_max_level := 0 |}.
Definition hnsw_from_parts (cfg : AnnConfig) (dim : nat) (rows : list nat) (links : list (list (list nat)))
    (entry : option nat) (max_level : nat) : HnswGraph :=
  let g := HnswGraph_new cfg dim in hg_set (hg_rng g) rows links entry max_level g.
Definition hnsw_set_query_params (cfg : AnnConfig) (g : HnswGraph) : HnswGraph :=
  {| hg_dim := hg_dim g; hg_m := hg_m g; hg_m_max0 := hg_m_max0 g; hg_ef_construction := hg_ef_construction g;
     hg_ef_search := Nat.max (a_ef_search cfg) 1; hg_level_mult := hg_level_mult g; hg_rng := hg_rng g;
     hg_rows := hg_rows g; hg_links := hg_links g; hg_entry := hg_entry g; hg_max_level := hg_max_level g |}.

(** A level drawn from the generator: a truncation, as the product is not negative. *)
Definition random_level (level_mult : f64) (rng : Z) : Z * nat :=
  if f64_eqb level_mult 0%Z then (rng, 0%nat)
  else
    let '(rng, x) := next_f64 rng in
    let u := f_sub 52 11 f64_one x in
    (rng, Z.to_nat (f64_to_u64 (f64_mul (f_opp 52 11 (f64_ln u)) level_mult))).
End hnsw_new.

(** *** Walking the layers *)

Section layers.
Context `{SortUnstable} `{BinaryHeap}.
(** The physical rows of the nodes, and the neighbours of a node at a level:
    [None] outside the vector, no neighbours above the node's levels. *)
Context (rows : list nat) (score : nat -> option f32).

Definition node_score (n : nat) : option f32 := row ← rows !! n; score row.

(** One pass over the neighbours of the node the pass began at. *)
Fixpoint hop (neighbors : list nat) (cur : nat) (cur_score : f32) (improved : bool) : option (nat * f32 * bool) :=
  match neighbors with
  | [] => Some (cur, cur_score, improved)
  | nbr :: neighbors =>
      s ← node_score nbr;
      if f32_ltb cur_score s then hop neighbors nbr s true else hop neighbors cur cur_score improved
  end.

Context (nbrs : nat -> option (list nat)).

(** [None] also without fuel: the score rises, so each node comes once. *)
Fixpoint greedy_loop (fuel : nat) (cur : nat) (cur_score : f32) : option nat :=
  match fuel with
  | O => None
  | S fuel =>
      adj ← nbrs cur;
      '(cur, cur_score, improved) ← hop adj cur cur_score false;
      if improved : bool then greedy_loop fuel cur cur_score else Some cur
  end.
Definition greedy_descend (entry : nat) : option nat :=
  s ← node_score entry; greedy_loop (S (length rows)) entry s.

Record Beam := { bm_visited : list bool; bm_candidates : list Scored; bm_result : list Scored }.

Definition seed_one (b : option Beam) (ep : nat) : option Beam :=
  b ← b; seen ← bm_visited b !! ep;
  if seen : bool then Some b
  else
    s ← node_score ep;
    let sc := {| sd_score := s; sd_node := ep |} in
    Some {| bm_visited := <[ep := true]> (bm_visited b);
            bm_candidates := heap_push scored_cmp sc (bm_candidates b);
            bm_result := heap_push min_scored_cmp sc (bm_result b) |}.
Definition seed_beam (entry_points : list nat) : option Beam :=
  foldl seed_one (Some {| bm_visited := replicate (length rows) false; bm_candidates := []; bm_result := [] |}) entry_points.

Definition worst_of (result : list Scored) : f32 := default f32_neg_infinity (sd_score <$> heap_peek min_scored_cmp result).
Definition heap_drop (result : list Scored) : list Scored := default [] (snd <$> heap_take min_scored_cmp result).

Definition visit (ef : nat) (b : option Beam) (nbr : nat) : option Beam :=
  b ← b; seen ← bm_visited b !! nbr;
  if seen : bool then Some b
  else
    s ← node_score nbr;
    let visited := <[nbr := true]> (bm_visited b) in
    if (length (bm_result b) <? ef)%nat || f32_ltb (worst_of (bm_result b)) s then
      let sc := {| sd_score := s; sd_node := nbr |} in
      let result := heap_push min_scored_cmp sc (bm_result b) in
      Some {| bm_visited := visited; bm_candidates := heap_push scored_cmp sc (bm_candidates b);
              bm_result := if (ef <? length result)%nat then heap_drop result else result |}
    else Some {| bm_visited := visited; bm_candidates := bm_candidates b; bm_result := bm_result b |}.

(** [None] also without fuel: every node is a candidate once. *)
Fixpoint beam_loop (fuel ef : nat) (b : Beam) : option Beam :=
  match fuel with
  | O => None
  | S fuel =>
      match heap_take scored_cmp (bm_candidates b) with
      | None => Some b
      | Some (cand, candidates) =>
          if (ef <=? length (bm_result b))%nat && f32_ltb (sd_score cand) (worst_of (bm_result b)) then Some b
          else
            adj ← nbrs (sd_node cand);
            b ← foldl (visit ef) (Some {| bm_visited := bm_visited b; bm_candidates := candidates; bm_result := bm_result b |}) adj;
            beam_loop fuel ef b
      end
  end.

Definition search_layer (entry_points : list nat) (ef : nat) : option (list Scored) :=
  b ← seed_beam entry_points;
  b ← beam_loop (S (length rows)) ef b;
  Some (sort_unstable (best_first sd_score) (bm_result b)).
End layers.

(** *** Choosing neighbours *)

Section select.
Context (rows : list nat) (w : Walk).

Fixpoint all_nearer (score : f32) (cand_row : nat) (selected : list nat) : option bool :=
  match selected with
  | [] => Some true
  | r :: selected =>
      row ← rows !! r; s ← score_rows w cand_row row;
      if f32_leb s score then all_nearer score cand_row selected else Some false
  end.
Fixpoint keep_loop (m : nat) (candidates : list Scored) (selected : list nat) : option (list nat) :=
  match candidates with
  | [] => Some selected
  | cand :: candidates =>
      if (m <=? length selected)%nat then Some selected
      else
        cand_row ← rows !! sd_node cand;
        keep ← all_nearer (sd_score cand) cand_row selected;
        keep_loop m candidates (if keep : bool then selected ++ [sd_node cand] else selected)
  end.
Fixpoint top_up (m : nat) (candidates : list Scored) (selected : list nat) : list nat :=
  match candidates with
  | [] => selected
  | cand :: candidates =>
      if (m <=? length selected)%nat then selected
      else top_up m candidates (if bool_decide (sd_node cand ∈ selected) then selected else selected ++ [sd_node cand])
  end.
Definition select_neighbors (candidates : list Scored) (m : nat) : option (list nat) :=
  selected ← keep_loop m candidates [];
  Some (if (length selected <? m)%nat then top_up m candidates selected else selected).
End select.

(** *** Inserting *)

Section insert.
Context `{SortUnstable} `{BinaryHeap} `{Ln64}.

Definition links_at (links : list (list (list nat))) (level node : nat) : option (list nat) :=
  lists ← links !! node; Some (default [] (lists !! level)).

Definition cap_at (g : HnswGraph) (level : nat) : nat := if (level =? 0)%nat then hg_m_max0 g else hg_m g.

(** [links[from][level]] overwritten. *)
Definition set_adj (from level : nat) (adj : list nat) (g : HnswGraph) : HnswGraph :=
  hg_set_links (alter <[level := adj]> from (hg_links g)) g.

Definition connect (from to level : nat) (g : HnswGraph) : option HnswGraph :=
  if (from =? to)%nat then Some g
  else
    adj ← hg_links g !! from ≫= fun lists => lists !! level;
    Some (if bool_decide (to ∈ adj) then g else set_adj from level (adj ++ [to]) g).

Definition prune (w : Walk) (node level : nat) (g : HnswGraph) : option HnswGraph :=
  adj ← hg_links g !! node ≫= fun lists => lists !! level;
  if (length adj <=? cap_at g level)%nat then Some g
  else
    base ← hg_rows g !! node;
    scored ← mapM (fun n => row ← hg_rows g !! n; s ← score_rows w base row; Some {| sd_score := s; sd_node := n |}) adj;
    kept ← select_neighbors (hg_rows g) w (sort_unstable (best_first sd_score) scored) (cap_at g level);
    Some (set_adj node level kept g).

Definition link_one (w : Walk) (node level : nat) (g : option HnswGraph) (nbr : nat) : option HnswGraph :=
  g ← g; g ← connect node nbr level g; g ← connect nbr node level g; prune w nbr level g.

(** The layers above the node's: [k] of them over [level]. *)
Fixpoint descend (rows : list nat) (score : nat -> option f32) (links : list (list (list nat))) (level k ep : nat) : option nat :=
  match k with
  | O => Some ep
  | S k =>
      ep ← greedy_descend rows score (links_at links (level + S k)) ep;
      descend rows score links level k ep
  end.

(** The layers from [lc] down to the bottom. *)
Fixpoint insert_layers (w : Walk) (score : nat -> option f32) (node ep : nat) (lc : nat) (entry_points : list nat) (g : HnswGraph)
  : option HnswGraph :=
  found ← search_layer (hg_rows g) score (links_at (hg_links g) lc) entry_points (hg_ef_construction g);
  selected ← select_neighbors (hg_rows g) w found (cap_at g lc);
  g ← foldl (link_one w node lc) (Some g) selected;
  match lc with
  | O => Some g
  | S lc =>
      let next := map sd_node found in
      insert_layers w score node ep lc (if bool_decide (next = []) then [ep] else next) g
  end.

Definition insert_one (w : Walk) (row : nat) (g : HnswGraph) : option HnswGraph :=
  let node := as_u32 (length (hg_rows g)) in
  let '(rng, level) := random_level (hg_level_mult g) (hg_rng g) in
  let rows := hg_rows g ++ [row] in
  let links := hg_links g ++ [replicate (level + 1) []] in
  match hg_entry g with
  | None => Some (hg_set rng rows links (Some node) level g)
  | Some entry =>
      let g := hg_set rng rows links (Some entry) (hg_max_level g) g in
      let score := score_rows w row in
      ep ← descend rows score links level (hg_max_level g - level) entry;
      g ← insert_layers w score node ep (Nat.min level (hg_max_level g)) [ep] g;
      Some (if (hg_max_level g <? level)%nat then hg_set (hg_rng g) (hg_rows g) (hg_links g) (Some node) level g else g)
  end.

Definition hnsw_insert_rows (w : Walk) (rows : list nat) (g : HnswGraph) : option HnswGraph :=
  if (hg_dim g =? 0)%nat then Some g
  else foldl (fun g row => g ← g; insert_one w row g) (Some g) rows.

Definition hnsw_clear (g : HnswGraph) : HnswGraph := hg_set (hg_rng g) [] [] None 0 g.

Definition hnsw_search (w : Walk) (query : list f32) (n_candidates : nat) (g : HnswGraph) : option (list (nat * f32)) :=
  if (n_candidates =? 0)%nat || (hg_dim g =? 0)%nat then Some []
  else
    match hg_entry g with
    | None => Some []
    | Some entry =>
        let score := qs_score (query_scorer w query) in
        ep ← descend (hg_rows g) score (hg_links g) 0 (hg_max_level g) entry;
        let ef := Nat.max (hg_ef_search g) n_candidates in
        found ← search_layer (hg_rows g) score (links_at (hg_links g) 0) [ep] ef;
        mapM (fun s => (fun row => (row, sd_score s)) <$> hg_rows g !! sd_node s) (take n_candidates found)
    end.
End insert.
