(* ===== verification/IvfOk.v ===== *)
(** * IvfOk: the inverted file covers the rows it was given

    Building and inserting put every row into exactly one list, so probing
    all the lists ranks all the rows ([ivf_exhaustive]). *)
From S2P Require Import Prelude Floats Model Sort TopK Std Manifest Segments Scoring Quant Ann.

#[export] Instance f32_total_cmp_order : CmpOrder f32_total_cmp.
Proof. unfold f32_total_cmp. apply _. Qed.
#[export] Instance best_first_order {A} (score : A -> f32) : CmpOrder (best_first score).
Proof. unfold best_first. apply _. Qed.

(** Every row has its vector. *)
Definition rows_in (data : Segments) (rows : list nat) : Prop := Forall (fun r => (r < segments_row_count data)%nat) rows.
(** The rows have the width of the index. *)
Definition row_width (data : Segments) (dim : nat) : Prop :=
  forall r v, row_at data r = Some v -> length v = dim.

Lemma row_at_in data r : (r < segments_row_count data)%nat -> row_at data r = Some (segments_row r data).
Proof. intros H. unfold row_at. by rewrite (proj2 (Nat.ltb_lt _ _) H). Qed.

Lemma with_vectors_some data rows : rows_in data rows ->
  with_vectors data rows = Some (map (fun r => (r, segments_row r data)) rows).
Proof.
  unfold with_vectors, rows_in. induction 1 as [|r rows Hr Hrows IH]; [done|]. cbn. rewrite row_at_in by done. cbn.
  change (mapM (M := option) ?f rows) with (mapM f rows). by rewrite IH.
Qed.

(** ** Centroids keep their number *)

Lemma length_write_row {A} (out : list A) dim n c code :
  length out = (n * dim)%nat -> (c < n)%nat -> length code = dim -> length (write_row out dim c code) = (n * dim)%nat.
Proof. intros Ho Hc Hcode. by apply write_row_spec. Qed.

Lemma length_add_into dst v : length (add_into dst v) = length dst.
Proof. revert v. induction dst as [|d dst IH]; intros [|x v]; cbn; [done..|]. by rewrite IH. Qed.

Section centroids.
Context (d : Distance) (dim k : nat) (Hdim : (0 < dim)%nat).

Lemma n_centroids_mul (cs : list f32) : length cs = (k * dim)%nat -> n_centroids cs dim = k.
Proof. intros H. unfold n_centroids. rewrite H, Nat.max_l by lia. apply Nat.div_mul. lia. Qed.

Lemma nearest_lt cs v : length cs = (k * dim)%nat -> (0 < k)%nat -> (nearest_centroid d dim cs v < k)%nat.
Proof.
  intros Hl Hk. unfold nearest_centroid. rewrite n_centroids_mul by done.
  assert (forall l best, (best.1 < k)%nat -> (forall c, c ∈ l -> (c < k)%nat) ->
    ((foldl (fun best c => let s := score_fn_for d v (flat_row cs dim c) in
        if f32_ltb best.2 s then (c, s) else best) best l).1 < k)%nat) as H.
  { induction l as [|c l IH]; intros best Hb Hc; [done|]. cbn. apply IH; [|intros; apply Hc; by right].
    destruct (f32_ltb _ _); [apply Hc; left|done]. }
  apply H; [done|]. intros c Hc. apply elem_of_seq in Hc. lia.
Qed.

Lemma sum_step_length l acc : length acc.1 = (k * dim)%nat -> Forall (fun av => (av.1 < k)%nat) l ->
  length (foldl (sum_step dim) acc l).1 = (k * dim)%nat.
Proof.
  intros H Hl. revert acc H. induction Hl as [|av l Hav Hl IH]; intros acc H; [done|]. apply IH. cbn.
  apply length_write_row; [done|done|]. rewrite length_add_into. by apply (length_flat_row _ _ _ k).
Qed.

Lemma update_length assign vecs cs : length cs = (k * dim)%nat -> Forall (fun c => (c < k)%nat) assign ->
  length (update_step d dim k assign vecs cs) = (k * dim)%nat.
Proof.
  intros Hl Ha. unfold update_step.
  assert (length (foldl (sum_step dim) (replicate (k * dim) f32_zero, replicate k 0%nat) (zip assign vecs)).1 = (k * dim)%nat) as Hs.
  { apply sum_step_length; [cbn; apply length_replicate|]. apply Forall_forall. intros [c v] Hc.
    apply elem_of_zip_l in Hc. rewrite Forall_forall in Ha. by apply Ha. }
  destruct (foldl _ _ _) as [sums counts]. cbn in Hs.
  assert (forall l cs, (forall c, c ∈ l -> (c < k)%nat) -> length cs = (k * dim)%nat ->
    length (foldl (update_centroid d dim sums counts) cs l) = (k * dim)%nat) as H.
  { induction l as [|c l IH]; intros cs' Hc Hcs; [done|]. cbn. apply IH; [intros; apply Hc; by right|].
    unfold update_centroid. destruct (_ =? 0)%nat; [done|]. apply length_write_row; [done|apply Hc; left|].
    destruct (bool_decide _); rewrite ?length_normalize, length_map; apply (length_flat_row _ _ _ k); try done; apply Hc; left. }
  apply H; [|done]. intros c Hc. apply elem_of_seq in Hc. lia.
Qed.

Lemma lloyd_length iters vecs : (0 < k)%nat -> forall assign cs, length cs = (k * dim)%nat ->
  length (lloyd iters d dim k vecs assign cs) = (k * dim)%nat.
Proof.
  intros Hk. induction iters as [|iters IH]; intros assign cs Hl; [done|]. cbn [lloyd].
  assert (length (update_step d dim k (assign_step d dim cs vecs) vecs cs) = (k * dim)%nat) as Hu.
  { apply update_length; [done|]. apply Forall_map, Forall_forall. intros rv _. by apply nearest_lt. }
  destruct (bool_decide _); [done|by apply IH].
Qed.

Lemma seeds_length (data : Segments) seeds : row_width data dim -> rows_in data (map fst seeds) ->
  (length seeds <= k)%nat -> Forall (fun rv => row_at data rv.1 = Some rv.2) seeds ->
  length (foldl (fun cs cv => write_row cs dim cv.1 cv.2.2) (replicate (k * dim) f32_zero) (imap pair seeds)) = (k * dim)%nat.
Proof.
  intros Hw _ Hk Hs.
  assert (forall l cs, Forall (fun cv : nat * (nat * list f32) => (cv.1 < k)%nat /\ length cv.2.2 = dim) l -> length cs = (k * dim)%nat ->
    length (foldl (fun cs cv => write_row cs dim cv.1 cv.2.2) cs l) = (k * dim)%nat) as H.
  { intros l cs Hl. revert cs. induction Hl as [|cv l [H1 H2] Hl IH]; intros cs Hcs; [done|]. cbn. apply IH. by apply length_write_row. }
  apply H; [|apply length_replicate]. apply Forall_forall. intros [c rv] Hc.
  apply elem_of_lookup_imap in Hc as (i & x & E & Hi). injection E as -> ->. split.
  - cbn. apply lookup_lt_Some in Hi. lia.
  - eapply Hw. rewrite Forall_forall in Hs. eapply Hs, list_elem_of_lookup_2, Hi.
Qed.

(** ** The lists partition the rows *)

Lemma push_row_perm c row lists : (c < length lists)%nat ->
  exists lists', push_row c row lists = Some lists' /\ length lists' = length lists /\ mjoin lists' ≡ₚ row :: mjoin lists.
Proof.
  intros Hc. unfold push_row. destruct (lookup_lt_is_Some_2 lists c Hc) as [l Hl]. rewrite Hl. cbn.
  eexists. split_and!; [done|apply length_insert|].
  rewrite <- (take_drop_middle lists c l Hl) at 2. rewrite insert_take_drop by done.
  rewrite !join_app. change (mjoin (?x :: ?y)) with (x ++ mjoin y). rewrite <- app_assoc. cbn [app].
  by rewrite <- (Permutation_middle l), <- Permutation_middle.
Qed.

Lemma list_rows_perm cs vecs : length cs = (k * dim)%nat -> (0 < k)%nat -> forall lists, length lists = k ->
  exists lists', list_rows d dim cs vecs lists = Some lists' /\ length lists' = k /\
    mjoin lists' ≡ₚ mjoin lists ++ map fst vecs.
Proof.
  intros Hl Hk. unfold list_rows. induction vecs as [|rv vecs IH]; intros lists Hlen; cbn.
  { exists lists. split_and!; [done|done|by rewrite app_nil_r]. }
  destruct (push_row_perm (nearest_centroid d dim cs rv.2) rv.1 lists) as (l1 & -> & Hl1 & Hp1).
  { rewrite Hlen. by apply nearest_lt. }
  destruct (IH l1) as (l2 & -> & Hl2 & Hp2); [by rewrite Hl1|]. exists l2. split_and!; [done|done|].
  rewrite Hp2, Hp1. cbn. by rewrite Permutation_middle.
Qed.
End centroids.

Lemma shuffle_in data k : forall i rng idx, rows_in data idx -> rows_in data (shuffle_prefix k i rng idx).
Proof.
  unfold rows_in. induction k as [|k IH]; intros i rng idx H; [done|]. cbn [shuffle_prefix].
  destruct (rng_below _ rng) as [rng' r]. apply IH. destruct (idx !! i) as [x|] eqn:Hx; [|done].
  destruct (idx !! (i + r)%nat) as [y|] eqn:Hy; [|done].
  apply Forall_insert; [apply Forall_insert; [done|]|].
  - exact (Forall_lookup_1 _ _ _ _ H Hy).
  - exact (Forall_lookup_1 _ _ _ _ H Hx).
Qed.

Lemma list_count_range cfg n : (0 < n)%nat -> (0 < list_count cfg n <= n)%nat.
Proof. intros H. unfold list_count. destruct (cfg =? 0)%nat; lia. Qed.

(** The index holds exactly [rows], one list per centroid. *)
Definition ivf_covers (ix : IvfIndex) (rows : list nat) : Prop :=
  let k := n_centroids (iv_centroids ix) (iv_dim ix) in
  length (iv_centroids ix) = (k * iv_dim ix)%nat /\ length (iv_lists ix) = k /\
  mjoin (iv_lists ix) ≡ₚ rows /\ (k = 0%nat -> rows = []).
Definition same_params (ix ix' : IvfIndex) : Prop :=
  iv_dim ix' = iv_dim ix /\ iv_distance ix' = iv_distance ix /\ iv_n_probe ix' = iv_n_probe ix.

Lemma ivf_build_covers w rows ix :
  (0 < iv_dim ix)%nat -> row_width (wk_data w) (iv_dim ix) -> rows_in (wk_data w) rows ->
  exists ix', ivf_build w rows ix = Some ix' /\ ivf_covers ix' rows /\ same_params ix ix'.
Proof.
  intros Hd Hw Hr. unfold ivf_build. rewrite (proj2 (Nat.eqb_neq _ _)) by lia. case_bool_decide as Hne; cbn [orb].
  { subst rows. eexists. split; [done|]. unfold ivf_covers, same_params. cbn. unfold n_centroids. cbn. rewrite Nat.div_0_l by lia. done. }
  rewrite (with_vectors_some _ rows) by done. cbn [mbind option_bind].
  set (k := list_count _ _). assert (0 < k <= length rows)%nat as Hk.
  { apply list_count_range. destruct rows; [done|cbn; lia]. }
  set (idx := shuffle_prefix _ _ _ _). assert (rows_in (wk_data w) (take k idx)) as Hi.
  { apply Forall_take, shuffle_in, Hr. }
  rewrite with_vectors_some by done. cbn [mbind option_bind].
  set (cs := lloyd _ _ _ _ _ _ _). assert (length cs = k * iv_dim ix)%nat as Hl.
  { apply lloyd_length; [done|lia|]. apply (seeds_length _ _ Hd (wk_data w)); [done| | |].
    - rewrite map_map. cbn. by rewrite map_id.
    - rewrite length_map, length_take. lia.
    - apply Forall_map. eapply Forall_impl; [exact Hi|]. intros r H. cbn. by apply row_at_in. }
  destruct (list_rows_perm (iv_distance ix) (iv_dim ix) k Hd cs (map (fun r => (r, segments_row r (wk_data w))) rows) Hl) with (lists := replicate k ([] : list nat))
    as (lists & -> & Hlen & Hp); [lia|apply length_replicate|].
  eexists. split; [reflexivity|]. unfold ivf_covers, same_params. cbn [iv_set_lists iv_centroids iv_lists iv_dim iv_distance iv_n_probe].
  rewrite (n_centroids_mul (iv_dim ix) k Hd cs Hl). split_and!; try done; [|lia].
  rewrite Hp, map_map. cbn. rewrite map_id. replace (mjoin (replicate k ([] : list nat))) with ([] : list nat); [done|].
  clear. induction k; [done|]. cbn. done.
Qed.

Lemma ivf_insert_covers w rows old ix :
  (0 < iv_dim ix)%nat -> row_width (wk_data w) (iv_dim ix) -> rows_in (wk_data w) rows -> ivf_covers ix old ->
  exists ix', ivf_insert_rows w rows ix = Some ix' /\ ivf_covers ix' (old ++ rows) /\ same_params ix ix'.
Proof.
  intros Hd Hw Hr Hc. pose proof Hc as (Hl & Hn & Hp & H0). unfold ivf_insert_rows. rewrite (proj2 (Nat.eqb_neq _ _)) by lia. cbn [orb].
  destruct (Nat.eqb_spec (n_centroids (iv_centroids ix) (iv_dim ix)) 0) as [E|E].
  - rewrite (H0 E) in Hc |- *. case_bool_decide as Hb.
    + subst rows. exists ix. by split_and!.
    + by apply ivf_build_covers.
  - rewrite with_vectors_some by done. cbn [mbind option_bind].
    destruct (list_rows_perm (iv_distance ix) (iv_dim ix) _ Hd (iv_centroids ix) (map (fun r => (r, segments_row r (wk_data w))) rows) Hl) with (lists := iv_lists ix)
      as (lists & -> & Hlen & Hp'); [lia|done|].
    eexists. split; [reflexivity|]. unfold ivf_covers, same_params. cbn [iv_set_lists iv_centroids iv_lists iv_dim iv_distance iv_n_probe].
    split_and!; try done. rewrite Hp', map_map, Hp. cbn. by rewrite map_id.
Qed.

(** ** Searching *)

Section search.
Context `{SortUnstable} `{SelectNth}.

Lemma mapM_score w query rows sc : (forall r, r ∈ rows -> qs_score (query_scorer w query) r = Some (sc r)) ->
  mapM (fun row => (fun s => (row, s)) <$> qs_score (query_scorer w query) row) rows = Some (map (fun r => (r, sc r)) rows).
Proof.
  induction rows as [|r rows IH]; intros Hs; [done|]. cbn. rewrite Hs by left. cbn.
  change (mapM (M := option) ?f rows) with (mapM f rows). rewrite IH; [done|]. intros x Hx. apply Hs. by right.
Qed.

Lemma probed_some ix query rows : ivf_covers ix rows -> exists l rest, probed ix query = Some l /\ l ++ rest ≡ₚ rows /\
  ((n_centroids (iv_centroids ix) (iv_dim ix) <= iv_n_probe ix)%nat -> rest = []).
Proof.
  intros (Hl & Hn & Hp & Hz). unfold probed. set (k := n_centroids _ _) in *.
  assert (length (centroid_scores ix query) = k) as Hk by (unfold centroid_scores; by rewrite length_map, length_seq).
  set (order := select_nth _ _ _). set (probe := Nat.min _ _).
  assert (map snd order ≡ₚ seq 0 k) as Ho.
  { unfold order. rewrite select_nth_perm. unfold centroid_scores. rewrite map_map. cbn. by rewrite map_id. }
  assert (forall l : list (f32 * nat), (forall c, c ∈ map snd l -> (c < k)%nat) ->
    mapM (fun sc : f32 * nat => iv_lists ix !! sc.2) l = Some (map (fun c => default [] (iv_lists ix !! c)) (map snd l))) as Hm.
  { induction l as [|sc l IH]; intros Hc; [done|]. cbn.
    destruct (lookup_lt_is_Some_2 (iv_lists ix) sc.2) as [x Hx]; [rewrite Hn; apply Hc; left|]. rewrite Hx. cbn.
    change (mapM (M := option) ?f l) with (mapM f l). rewrite IH; [done|]. intros c Hc'. apply Hc. by right. }
  assert (forall c, c ∈ map snd order -> (c < k)%nat) as Hlt by (intros c Hc; rewrite Ho in Hc; apply elem_of_seq in Hc; lia).
  exists (mjoin (map (fun c => default [] (iv_lists ix !! c)) (map snd (take probe order)))),
    (mjoin (map (fun c => default [] (iv_lists ix !! c)) (map snd (drop probe order)))). split_and!.
  - rewrite Hm; [done|]. intros c Hc. apply Hlt. rewrite <- (take_drop probe order), map_app. set_solver.
  - rewrite <- join_app, <- map_app, <- map_app, take_drop. rewrite Ho. rewrite <- Hp. rewrite <- Hn. clear.
    replace (map (fun c => default [] (iv_lists ix !! c)) (seq 0 (length (iv_lists ix)))) with (iv_lists ix); [done|].
    apply list_eq. intros i. rewrite list_lookup_fmap. destruct (decide (i < length (iv_lists ix))%nat) as [Hi|Hi].
    + rewrite lookup_seq_lt by done. cbn. destruct (lookup_lt_is_Some_2 _ _ Hi) as [x Hx]. by rewrite Hx.
    + rewrite (lookup_ge_None_2 (seq _ _)) by (rewrite length_seq; lia). rewrite lookup_ge_None_2 by lia. done.
  - intros Hprobe. assert (drop probe order = []) as ->; [|done]. apply drop_ge.
    assert (length order = k) as ->; [|unfold probe; lia]. rewrite <- (length_map snd), Ho. apply length_seq.
Qed.

(** A search ranks the rows of the lists it probes. *)
Lemma ivf_search_some w query n rows ix sc :
  (0 < iv_dim ix)%nat -> ivf_covers ix rows -> (forall r, r ∈ rows -> qs_score (query_scorer w query) r = Some (sc r)) ->
  exists l rest ranked, l ++ rest ≡ₚ rows /\ ((length (iv_lists ix) <= iv_n_probe ix)%nat -> rest = []) /\
    ranked ≡ₚ map (fun r => (r, sc r)) l /\ StronglySorted (cmp_le (best_first snd)) ranked /\
    ivf_search w query n ix = Some (take n ranked).
Proof.
  intros Hd Hc Hs. destruct (probed_some ix query _ Hc) as (l & rest & El & Hl & Hrest).
  pose proof Hc as (_ & Hn & _ & Hz). rewrite <- Hn in Hrest.
  exists l, rest, (sort_unstable (best_first snd) (map (fun r => (r, sc r)) l)). split_and!; [done|done| | |].
  - apply sort_unstable_perm.
  - apply sort_unstable_sorted. apply _.
  - unfold ivf_search. rewrite (proj2 (Nat.eqb_neq (iv_dim ix) 0)) by lia. rewrite orb_false_r.
    destruct (Nat.eqb_spec n 0) as [->|Hn0]; [done|]. cbn [orb].
    destruct (Nat.eqb_spec (n_centroids (iv_centroids ix) (iv_dim ix)) 0) as [E|E].
    + rewrite (Hz E) in Hl. symmetry in Hl. apply Permutation_nil, app_eq_nil in Hl as [-> _].
      assert (sort_unstable (best_first snd) (map (fun r => (r, sc r)) ([] : list nat)) = []) as ->.
      { apply Permutation_nil. symmetry. apply sort_unstable_perm. } by destruct n.
    + rewrite El. cbn [mbind option_bind]. rewrite (mapM_score _ _ _ sc); [done|]. intros r Hr. apply Hs. rewrite <- Hl. set_solver.
Qed.

(** An inverted file that probes all its lists misses nothing: built over
    rows and extended by more, it answers with every row it was given, once,
    with its score, nearest first, cut at the number asked for. *)
Theorem ivf_exhaustive w query n rows more ix sc :
  (0 < iv_dim ix)%nat -> row_width (wk_data w) (iv_dim ix) -> rows_in (wk_data w) (rows ++ more) ->
  (forall r, r ∈ rows ++ more -> qs_score (query_scorer w query) r = Some (sc r)) ->
  exists ix1 ix2, ivf_build w rows ix = Some ix1 /\ ivf_insert_rows w more ix1 = Some ix2 /\
    ((length (iv_lists ix2) <= iv_n_probe ix2)%nat ->
     exists ranked, ranked ≡ₚ map (fun r => (r, sc r)) (rows ++ more) /\ StronglySorted (cmp_le (best_first snd)) ranked /\
       ivf_search w query n ix2 = Some (take n ranked)).
Proof.
  intros Hd Hw Hr Hs. apply Forall_app in Hr as [Hr1 Hr2].
  destruct (ivf_build_covers w rows ix Hd Hw Hr1) as (ix1 & E1 & Hc1 & Hp1 & _). exists ix1.
  rewrite <- Hp1 in Hd, Hw. destruct (ivf_insert_covers w more rows ix1 Hd Hw Hr2 Hc1) as (ix2 & E2 & Hc2 & Hp2 & _).
  exists ix2. split_and!; [done|done|]. intros Hprobe.
  destruct (ivf_search_some w query n (rows ++ more) ix2 sc) as (l & rest & ranked & Hl & Hrest & Hp & Hso & E); [by rewrite Hp2|done..|].
  rewrite (Hrest Hprobe), app_nil_r in Hl. exists ranked. split_and!; [by rewrite Hp, Hl|done|done].
Qed.
End search.

Definition sample_index : IvfIndex := IvfIndex_new AnnConfig_ivf 1 Cosine.
Definition sample_walk : Walk := Walk_exact ex_rows Cosine.

Lemma sample_width : row_width ex_rows 1.
Proof.
  intros r v. unfold row_at. destruct (Nat.ltb_spec r (segments_row_count ex_rows)) as [Hr|]; [|done]. intros [= <-].
  change (r < 4)%nat in Hr. do 4 (destruct r as [|r]; [by vm_compute|]). lia.
Qed.

Lemma ivf_exhaustive_witness :
  exists ix1 ix2, ivf_build sample_walk [0; 1]%nat sample_index = Some ix1 /\
    ivf_insert_rows sample_walk [2; 3]%nat ix1 = Some ix2 /\
    ((length (iv_lists ix2) <= iv_n_probe ix2)%nat ->
     exists ranked, ranked ≡ₚ map (fun r => (r, default f32_zero (qs_score (query_scorer sample_walk [f32_one]) r))) [0; 1; 2; 3]%nat /\
       StronglySorted (cmp_le (best_first snd)) ranked /\
       ivf_search sample_walk [f32_one] 2 ix2 = Some (take 2 ranked)).
Proof.
  apply (ivf_exhaustive sample_walk [f32_one] 2 [0; 1]%nat [2; 3]%nat sample_index
    (fun r => default f32_zero (qs_score (query_scorer sample_walk [f32_one]) r))); [cbn; lia|apply sample_width| |].
  - repeat constructor; vm_compute; lia.
  - intros r Hr. repeat (apply elem_of_cons in Hr as [->|Hr]; [by vm_compute|]). by apply elem_of_nil in Hr.
Defined.

(** The two nearest of the four rows, found through the lists. *)
Example ivf_search_ex :
  (ix ← ivf_build sample_walk [0; 1]%nat sample_index; ix ← ivf_insert_rows sample_walk [2; 3]%nat ix;
   ivf_search sample_walk [f32_one] 2 ix) = Some [(1, f32_of_Z 7); (3, f32_of_Z 7)]%nat.
Proof. vm_compute. reflexivity. Qed.
