(* ===== verification/HnswWalk.v ===== *)
(** * HnswWalk: the walks over the layers of the graph

    On any closed set of scored nodes the greedy descent and the beam search
    return: the fuel covers every node once.  The descent ends at a node none
    of whose neighbours is nearer; the beam answers with distinct nodes, their
    scores, nearest first.  A beam as wide as the graph finds every node that
    can be reached. *)
From S2P Require Import Prelude Floats Model Sort TopK Std Manifest Segments Scoring Quant Mmr Ann IvfOk.

#[export] Instance scored_cmp_order : CmpOrder scored_cmp.
Proof. unfold scored_cmp. apply _. Qed.
#[export] Instance min_scored_cmp_order : CmpOrder min_scored_cmp.
Proof. unfold min_scored_cmp. apply _. Qed.

(** ** [>] on floats *)

Lemma f32_ltb_nan a b : f32_ltb a b = true -> f32_is_nan a = false /\ f32_is_nan b = false.
Proof.
  unfold f32_ltb, f_ltb, f_partial_cmp, f32_is_nan, f_is_nan.
  destruct (sf_of_bits 23 8 a) as [[]|[]| |[]], (sf_of_bits 23 8 b) as [[]|[]| |[]]; (split; done) || done.
Qed.
Lemma f32_ltb_lt a b : f32_ltb a b = true -> ord_f32 a b = Lt.
Proof.
  intros H. destruct (f32_ltb_nan _ _ H) as [Ha Hb]. rewrite f32_ltb_ord in H by done. by destruct (ord_f32 a b).
Qed.
Lemma f32_ltb_trans a b c : f32_ltb a b = true -> f32_ltb b c = true -> f32_ltb a c = true.
Proof.
  intros H1 H2. destruct (f32_ltb_nan _ _ H1) as [Ha _], (f32_ltb_nan _ _ H2) as [_ Hc].
  rewrite f32_ltb_ord by done. apply f32_ltb_lt in H1, H2.
  by rewrite (cmp_lt_le_trans ord_f32 a b c) by (unfold cmp_le; congruence).
Qed.
Lemma f32_ltb_irrefl a : f32_ltb a a = false.
Proof.
  apply not_true_iff_false. intros H%f32_ltb_lt. by rewrite (cmp_refl ord_f32) in H.
Qed.

(** ** Counting *)

Definition count_false (l : list bool) : nat := length (List.filter negb l).
Lemma count_false_insert l i : l !! i = Some false -> S (count_false (<[i := true]> l)) = count_false l.
Proof.
  unfold count_false. revert i. induction l as [|b l IH]; intros [|i] H; try done.
  - injection H as ->. done.
  - cbn. destruct b; cbn; rewrite <- (IH i) by done; done.
Qed.

Section walks.
Context `{SortUnstable} `{BinaryHeap}.
Context (rows : list nat) (score : nat -> option f32) (nbrs : nat -> option (list nat)).
(** A set of nodes, scored and closed under neighbours. *)
Context (P : nat -> Prop) (sc : nat -> f32).
Context (P_score : forall n, P n -> node_score rows score n = Some (sc n)).
Context (P_row : forall n, P n -> (n < length rows)%nat).
Context (P_nbrs : forall n, P n -> exists adj, nbrs n = Some adj /\ Forall P adj).

(** ** The greedy descent *)

Lemma hop_spec adj : Forall P adj -> forall cur imp, P cur ->
  exists cur' imp', hop rows score adj cur (sc cur) imp = Some (cur', sc cur', imp') /\ P cur' /\
    ((cur' = cur /\ imp' = imp /\ Forall (fun x => f32_ltb (sc cur) (sc x) = false) adj) \/
     (imp' = true /\ f32_ltb (sc cur) (sc cur') = true)).
Proof.
  induction 1 as [|x adj Hx Hadj IH]; intros cur imp Hc; cbn [hop]; [naive_solver|].
  rewrite (P_score x Hx). cbn [mbind option_bind]. destruct (f32_ltb (sc cur) (sc x)) eqn:E.
  - destruct (IH x true Hx) as (c & i & -> & Hc' & Hor). exists c, i. split_and!; [done|done|]. right.
    destruct Hor as [(-> & -> & _)|[-> Hlt]]; [done|]. split; [done|]. by eapply f32_ltb_trans.
  - destruct (IH cur imp Hc) as (c & i & -> & Hc' & Hor). exists c, i. split_and!; [done|done|].
    destruct Hor as [(-> & -> & Hf)|Hr]; [left; split_and!; [done..|by constructor]|by right].
Qed.

Definition above (cur : nat) : nat := length (List.filter (fun n => f32_ltb (sc cur) (sc n)) (seq 0 (length rows))).

Lemma filter_le {A} (f g : A -> bool) l : (forall x, f x = true -> g x = true) ->
  (length (List.filter f l) <= length (List.filter g l))%nat.
Proof.
  intros Hfg. induction l as [|x l IH]; [done|]. cbn. destruct (f x) eqn:E; [rewrite (Hfg x E); cbn; lia|].
  destruct (g x); cbn; lia.
Qed.
Lemma filter_lt {A} (f g : A -> bool) l y : (forall x, f x = true -> g x = true) ->
  y ∈ l -> f y = false -> g y = true -> (length (List.filter f l) < length (List.filter g l))%nat.
Proof.
  intros Hfg Hy Hf Hg. induction Hy as [y l|y x l Hy IH]; cbn.
  - rewrite Hf, Hg. cbn. pose proof (filter_le f g l Hfg). lia.
  - specialize (IH Hf Hg). destruct (f x) eqn:E; [rewrite (Hfg x E); cbn; lia|]. destruct (g x); cbn; lia.
Qed.

Lemma above_lt cur cur' : P cur' -> f32_ltb (sc cur) (sc cur') = true -> (above cur' < above cur)%nat.
Proof.
  intros Hp Hlt. unfold above. apply (filter_lt _ _ _ cur').
  - intros x Hx. by eapply f32_ltb_trans.
  - apply elem_of_seq. pose proof (P_row _ Hp). lia.
  - apply f32_ltb_irrefl.
  - done.
Qed.

(** A node none of whose neighbours is nearer. *)
Definition local_best (n : nat) : Prop :=
  exists adj, nbrs n = Some adj /\ Forall (fun x => f32_ltb (sc n) (sc x) = false) adj.

Lemma greedy_loop_spec fuel : forall cur, P cur -> (above cur < fuel)%nat ->
  exists r, greedy_loop rows score nbrs fuel cur (sc cur) = Some r /\ P r /\ local_best r.
Proof.
  induction fuel as [|fuel IH]; intros cur Hc Hf; [lia|]. cbn [greedy_loop].
  destruct (P_nbrs cur Hc) as (adj & Ea & Ha). rewrite Ea. cbn [mbind option_bind].
  destruct (hop_spec adj Ha cur false Hc) as (c & i & -> & Hc' & Hor). cbn [mbind option_bind].
  destruct Hor as [(-> & -> & Hbest)|[-> Hlt]].
  - exists cur. split_and!; [done|done|]. by exists adj.
  - apply IH; [done|]. pose proof (above_lt cur c Hc' Hlt). lia.
Qed.

Lemma greedy_spec entry : P entry -> exists r, greedy_descend rows score nbrs entry = Some r /\ P r /\ local_best r.
Proof.
  intros Hp. unfold greedy_descend. rewrite (P_score _ Hp). cbn [mbind option_bind]. apply greedy_loop_spec; [done|].
  unfold above. pose proof (filter_length_le (fun n => f32_ltb (sc entry) (sc n)) (seq 0 (length rows))) as Hl.
  rewrite length_seq in Hl. lia.
Qed.

(** ** The beam *)

Definition scored_ok (s : Scored) : Prop := P (sd_node s) /\ sd_score s = sc (sd_node s).
Definition visited (b : Beam) (n : nat) : Prop := bm_visited b !! n = Some true.
Record beam_ok (b : Beam) : Prop := {
  bo_len : length (bm_visited b) = length rows;
  bo_cand : Forall (fun s => scored_ok s /\ visited b (sd_node s)) (bm_candidates b);
  bo_res : Forall (fun s => scored_ok s /\ visited b (sd_node s)) (bm_result b);
  bo_dup : NoDup (map sd_node (bm_result b))
}.
(** What is left to do: the nodes not seen and the candidates. *)
Definition todo (b : Beam) : nat := (count_false (bm_visited b) + length (bm_candidates b))%nat.

Lemma visited_insert b n x v : bm_visited b !! n = Some v -> visited b x ->
  (<[n := true]> (bm_visited b)) !! x = Some true.
Proof.
  unfold visited. intros Hn Hx. destruct (decide (n = x)) as [->|Hne].
  - apply list_lookup_insert_eq. by eapply lookup_lt_Some.
  - by rewrite list_lookup_insert_ne.
Qed.

(** A new node pushed on both heaps. *)
Lemma push_ok b n : beam_ok b -> P n -> bm_visited b !! n = Some false ->
  let s := {| sd_score := sc n; sd_node := n |} in
  let b' := {| bm_visited := <[n := true]> (bm_visited b); bm_candidates := heap_push scored_cmp s (bm_candidates b);
               bm_result := heap_push min_scored_cmp s (bm_result b) |} in
  beam_ok b' /\ todo b' = todo b /\ length (bm_result b') = S (length (bm_result b)).
Proof.
  intros [Hl Hc Hr Hd] Hp Hn s b'.
  assert (forall l, Forall (fun s => scored_ok s /\ visited b (sd_node s)) l ->
    Forall (fun s => scored_ok s /\ visited b' (sd_node s)) (s :: l)) as Hcons.
  { intros l Hf. constructor.
    - split; [by split|]. apply list_lookup_insert_eq. by eapply lookup_lt_Some.
    - eapply Forall_impl; [exact Hf|]. intros x [H1 H2]. split; [done|]. by eapply visited_insert. }
  split; [split; cbn|split].
  - by rewrite length_insert.
  - rewrite heap_push_perm. by apply Hcons.
  - rewrite heap_push_perm. by apply Hcons.
  - rewrite heap_push_perm. cbn. constructor; [|done]. intros (x & E & Hx)%list_elem_of_fmap.
    rewrite Forall_forall in Hr. destruct (Hr x Hx) as [_ Hv]. unfold visited in Hv. rewrite <- E in Hv. congruence.
  - unfold todo, b'. cbn [bm_visited bm_candidates]. rewrite heap_push_perm, <- (count_false_insert _ _ Hn). cbn [length]. lia.
  - cbn. by rewrite heap_push_perm.
Qed.

Lemma heap_take_peek (l : list Scored) : l <> [] -> exists x rest, heap_take min_scored_cmp l = Some (x, rest) /\ l ≡ₚ x :: rest.
Proof.
  intros Hne. destruct (heap_take min_scored_cmp l) as [[x rest]|] eqn:E.
  - exists x, rest. split; [done|]. by eapply heap_take_some in E as [? _]; [|apply _].
  - by apply heap_take_none in E.
Qed.

Lemma drop_ok b : beam_ok b -> bm_result b <> [] ->
  let b' := {| bm_visited := bm_visited b; bm_candidates := bm_candidates b; bm_result := heap_drop (bm_result b) |} in
  beam_ok b' /\ S (length (bm_result b')) = length (bm_result b).
Proof.
  intros [Hl Hc Hr Hd] Hne. destruct (heap_take_peek _ Hne) as (x & rest & E & Hp).
  cbn. unfold heap_drop. rewrite E. cbn. split; [|by rewrite Hp].
  split; cbn; [done|done| |].
  - rewrite Hp in Hr. by apply Forall_cons in Hr as [_ ?].
  - rewrite Hp in Hd. by apply NoDup_cons in Hd as [_ ?].
Qed.

(** Every node seen is kept: the case of a beam as wide as the graph. *)
Definition full (b : Beam) : Prop := forall x, visited b x -> x ∈ map sd_node (bm_result b).
(** A node seen waits among the candidates or has had its neighbours seen. *)
Definition explored (b : Beam) (x : nat) : Prop := forall adj, nbrs x = Some adj -> Forall (visited b) adj.
Definition waits (b : Beam) (x : nat) : Prop := x ∈ map sd_node (bm_candidates b).

Lemma visited_lt b x : beam_ok b -> visited b x -> (x < length rows)%nat.
Proof. intros Hb Hx. rewrite <- (bo_len b Hb). by eapply lookup_lt_Some. Qed.

Lemma result_room b n : beam_ok b -> bm_visited b !! n = Some false -> (length (bm_result b) < length rows)%nat.
Proof.
  intros Hb Hn. assert (length (n :: map sd_node (bm_result b)) <= length (seq 0 (length rows)))%nat as Hl.
  { apply submseteq_length, NoDup_submseteq.
    - constructor; [|apply Hb]. intros (x & E & Hx)%list_elem_of_fmap. destruct Hb as [_ _ Hr _].
      rewrite Forall_forall in Hr. destruct (Hr x Hx) as [_ Hv]. unfold visited in Hv. rewrite <- E in Hv. congruence.
    - intros x [->|Hx]%elem_of_cons; apply elem_of_seq.
      + apply lookup_lt_Some in Hn. rewrite (bo_len b Hb) in Hn. lia.
      + apply list_elem_of_fmap in Hx as (y & -> & Hy). pose proof (bo_res b Hb) as Hr. rewrite Forall_forall in Hr.
        destruct (Hr y Hy) as [_ Hv]. pose proof (visited_lt b _ Hb Hv). lia. }
  cbn in Hl. rewrite length_map, length_seq in Hl. lia.
Qed.

(** What a step of the beam keeps. *)
Record grows (ef : nat) (b b' : Beam) : Prop := {
  gr_seen x : visited b x -> visited b' x;
  gr_size : (length (bm_result b) <= length (bm_result b') <= Nat.max ef (length (bm_result b)))%nat;
  gr_new x : (length rows <= ef)%nat -> visited b' x -> visited b x \/ waits b' x;
  gr_waits x : waits b x -> waits b' x;
  gr_full : (length rows <= ef)%nat -> full b -> full b'
}.

Lemma grows_refl ef b : grows ef b b.
Proof. split; try done; [lia|by left]. Qed.
Lemma grows_trans ef b1 b2 b3 : grows ef b1 b2 -> grows ef b2 b3 -> grows ef b1 b3.
Proof.
  intros [s1 z1 n1 w1 f1] [s2 z2 n2 w2 f2]. split.
  - naive_solver.
  - lia.
  - intros x Hw [Hx|Hx]%n2; [|by right|done]. destruct (n1 x Hw Hx); [by left|right; by apply w2].
  - naive_solver.
  - naive_solver.
Qed.

Lemma visit_spec ef b n : (0 < ef)%nat -> beam_ok b -> P n ->
  exists b', visit rows score ef (Some b) n = Some b' /\ beam_ok b' /\ (todo b' <= todo b)%nat /\ grows ef b b' /\ visited b' n.
Proof.
  intros Hef Hb Hp. unfold visit. cbn [mbind option_bind].
  destruct (lookup_lt_is_Some_2 (bm_visited b) n) as [v Hn]; [rewrite (bo_len b Hb); by apply P_row|].
  rewrite Hn. cbn [mbind option_bind]. destruct v.
  { exists b. split_and!; [done|done|lia|apply grows_refl|done]. }
  rewrite (P_score n Hp). cbn [mbind option_bind].
  assert ((<[n := true]> (bm_visited b)) !! n = Some true) as Hnew by (apply list_lookup_insert_eq; by eapply lookup_lt_Some).
  pose proof (result_room b n Hb Hn) as Hroom.
  destruct (push_ok b n Hb Hp Hn) as (Hb' & Ht & Hlen). cbn zeta in Hb', Ht, Hlen.
  set (s := {| sd_score := sc n; sd_node := n |}) in *.
  set (b' := {| bm_visited := _; bm_candidates := heap_push scored_cmp s _; bm_result := heap_push min_scored_cmp s _ |}) in *.
  assert (grows (Nat.max (S (length (bm_result b))) (length rows)) b b') as [gs gz gn gw gf].
  { split.
    - intros x Hx. by eapply visited_insert.
    - rewrite Hlen. lia.
    - intros x _ Hx. destruct (decide (x = n)) as [->|Hne].
      + right. unfold waits. cbn. rewrite heap_push_perm. left.
      + left. unfold visited in *. cbn in Hx. by rewrite list_lookup_insert_ne in Hx.
    - intros x Hx. unfold waits. cbn. rewrite heap_push_perm. by right.
    - intros _ Hf x Hx. cbn. rewrite heap_push_perm. destruct (decide (x = n)) as [->|Hne]; [left|]. right. apply Hf.
      unfold visited in *. cbn in Hx. by rewrite list_lookup_insert_ne in Hx. }
  destruct (_ || _) eqn:Eor.
  - change (heap_push min_scored_cmp s (bm_result b)) with (bm_result b'). destruct (Nat.ltb_spec ef (length (bm_result b'))) as [Hlt|Hge].
    + destruct (drop_ok b' Hb') as [Hd Hld]; [intros E; by rewrite E in Hlen|]. cbn zeta in Hd, Hld.
      eexists. split; [reflexivity|]. split_and!; [exact Hd|unfold todo in *; cbn in *; lia| |exact Hnew].
      split; [exact gs| |intros x Hw; exfalso; lia|exact gw|]; cbn [bm_result].
      * rewrite Hlen in Hld. cbn in Hld |- *. lia.
      * intros Hw. lia.
    + exists b'. split_and!; [done|done|lia| |exact Hnew]. split; [exact gs|lia|intros x Hw; apply gn; lia|exact gw|]. intros Hw. apply gf. lia.
  - eexists. split; [reflexivity|]. apply orb_false_iff in Eor as [Hge%Nat.ltb_ge _]. split_and!.
    + destruct Hb as [Hl Hc Hr Hd]. split; cbn; [by rewrite length_insert| | |done].
      * eapply Forall_impl; [exact Hc|]. intros x [H1 H2]. split; [done|]. by eapply visited_insert.
      * eapply Forall_impl; [exact Hr|]. intros x [H1 H2]. split; [done|]. by eapply visited_insert.
    + unfold todo. cbn [bm_visited bm_candidates]. rewrite <- (count_false_insert _ _ Hn). lia.
    + split; cbn [bm_result bm_visited bm_candidates].
      * intros x Hx. by eapply visited_insert.
      * lia.
      * intros x Hw. lia.
      * done.
      * lia.
    + exact Hnew.
Qed.

Lemma visits_spec ef adj : (0 < ef)%nat -> Forall P adj -> forall b, beam_ok b ->
  exists b', foldl (visit rows score ef) (Some b) adj = Some b' /\ beam_ok b' /\ (todo b' <= todo b)%nat /\ grows ef b b' /\
    Forall (visited b') adj.
Proof.
  intros Hef. induction 1 as [|n adj Hn Hadj IH]; intros b Hb.
  { exists b. split_and!; [done|done|lia|apply grows_refl|constructor]. }
  change (foldl (visit rows score ef) (Some b) (n :: adj)) with (foldl (visit rows score ef) (visit rows score ef (Some b) n) adj).
  destruct (visit_spec ef b n Hef Hb Hn) as (b1 & -> & Hb1 & Ht1 & Hg1 & Hv1).
  destruct (IH b1 Hb1) as (b2 & -> & Hb2 & Ht2 & Hg2 & Hv2). exists b2.
  split_and!; [done|done|lia|by eapply grows_trans|]. constructor; [by apply (gr_seen _ _ _ Hg2)|done].
Qed.

(** In a wide beam every node seen is kept, and waits or is explored. *)
Definition sweeping (b : Beam) : Prop := full b /\ forall x, visited b x -> waits b x \/ explored b x.

(** A full result of a wide beam holds the whole graph. *)
Lemma whole_graph b : beam_ok b -> (length rows <= length (bm_result b))%nat -> forall x, (x < length rows)%nat -> visited b x.
Proof.
  intros Hb Hl x Hx. destruct (bm_visited b !! x) as [[]|] eqn:E; [done| |].
  - pose proof (result_room b x Hb E). lia.
  - apply lookup_ge_None in E. rewrite (bo_len b Hb) in E. lia.
Qed.

Lemma beam_loop_spec ef fuel : (0 < ef)%nat -> forall b, beam_ok b -> (todo b < fuel)%nat ->
  exists b', beam_loop rows score nbrs fuel ef b = Some b' /\ beam_ok b' /\
    (forall x, visited b x -> visited b' x) /\
    (length (bm_result b) <= length (bm_result b') <= Nat.max ef (length (bm_result b)))%nat /\
    ((length rows <= ef)%nat -> sweeping b -> full b' /\ forall x, visited b' x -> explored b' x).
Proof.
  intros Hef. induction fuel as [|fuel IH]; intros b Hb Hf; [lia|]. cbn [beam_loop].
  destruct (heap_take scored_cmp (bm_candidates b)) as [[cand cands]|] eqn:Et.
  2:{ apply heap_take_none in Et. exists b. split_and!; [done|done|done|lia|lia|]. intros _ [Hfull Hs]. split; [done|].
      intros x Hx. destruct (Hs x Hx) as [Hw|]; [|done]. unfold waits in Hw. rewrite Et in Hw. by apply elem_of_nil in Hw. }
  destruct (_ && _) eqn:Eb.
  { apply andb_true_iff in Eb as [Hle%Nat.leb_le _]. exists b. split_and!; [done|done|done|lia|lia|]. intros Hw [Hfull _].
    split; [done|]. intros x Hx adj Ha. apply Forall_forall. intros y Hy. apply whole_graph; [done|lia|].
    destruct Hb as [_ _ Hr _]. apply Hfull in Hx. apply list_elem_of_fmap in Hx as (z & -> & Hz). rewrite Forall_forall in Hr.
    destruct (Hr z Hz) as [[Hp _] _]. destruct (P_nbrs _ Hp) as (adj' & E & Hadj). rewrite Ha in E. injection E as <-.
    rewrite Forall_forall in Hadj. by apply P_row, Hadj. }
  apply heap_take_some in Et as [Hp _]; [|apply _].
  pose proof Hb as [Hl Hc Hr Hd]. rewrite Hp in Hc. apply Forall_cons in Hc as [[[Hcp _] Hcv] Hc].
  destruct (P_nbrs _ Hcp) as (adj & Ea & Hadj). rewrite Ea. cbn [mbind option_bind].
  set (b1 := {| bm_visited := bm_visited b; bm_candidates := cands; bm_result := bm_result b |}).
  assert (beam_ok b1) as Hb1 by (by split).
  assert (S (todo b1) = todo b) as Ht1 by (unfold todo, b1; cbn [bm_visited bm_candidates]; rewrite Hp; cbn [length]; lia).
  destruct (visits_spec ef adj Hef Hadj b1 Hb1) as (b2 & -> & Hb2 & Ht2 & Hg2 & Hv2). cbn [mbind option_bind].
  destruct (IH b2 Hb2) as (b3 & -> & Hb3 & Hs3 & Hz3 & Hw3); [lia|]. exists b3. pose proof (gr_size _ _ _ Hg2) as Hz2. cbn in Hz2.
  split_and!; [done|done|intros x Hx; by apply Hs3, (gr_seen _ _ _ Hg2)|lia|lia|].
  intros Hw [Hfull Hs]. apply Hw3; [done|]. split; [by apply (gr_full _ _ _ Hg2)|]. intros x Hx.
  destruct (gr_new _ _ _ Hg2 x Hw Hx) as [Hx1|]; [|by left]. change (visited b x) in Hx1.
  destruct (decide (x = sd_node cand)) as [->|Hne].
  { right. intros adj' E. rewrite Ea in E. injection E as <-. done. }
  destruct (Hs x Hx1) as [Hwt|He].
  - left. apply (gr_waits _ _ _ Hg2). unfold waits in *. rewrite Hp in Hwt. cbn in Hwt. by apply elem_of_cons in Hwt as [?|?].
  - right. intros adj' E. eapply Forall_impl; [exact (He adj' E)|]. intros y Hy. by apply (gr_seen _ _ _ Hg2).
Qed.

Lemma seed_spec eps : Forall P eps -> exists b, seed_beam rows score eps = Some b /\ beam_ok b /\ (todo b <= length rows)%nat /\
  (length (bm_result b) <= length eps)%nat /\ Forall (visited b) eps /\ full b /\ forall x, visited b x -> waits b x.
Proof.
  intros Heps. unfold seed_beam.
  set (b0 := {| bm_visited := replicate (length rows) false; bm_candidates := []; bm_result := [] |}).
  assert (beam_ok b0 /\ (todo b0 <= length rows)%nat /\ full b0 /\ forall x, visited b0 x -> waits b0 x) as (Hb0 & Ht0 & Hf0 & Hw0).
  { split_and!.
    - split; cbn; [apply length_replicate|constructor..].
    - unfold todo, b0, count_false. cbn. pose proof (filter_length_le negb (replicate (length rows) false)) as Hfl.
      rewrite length_replicate in Hfl. lia.
    - intros x Hx. unfold visited in Hx. cbn in Hx. by apply lookup_replicate in Hx as [? _].
    - intros x Hx. unfold visited in Hx. cbn in Hx. by apply lookup_replicate in Hx as [? _]. }
  enough (forall b, beam_ok b -> full b -> (forall x, visited b x -> waits b x) ->
    exists b', foldl (seed_one rows score) (Some b) eps = Some b' /\
      beam_ok b' /\ (todo b' <= todo b)%nat /\ (length (bm_result b') <= length eps + length (bm_result b))%nat /\
      (forall x, visited b x -> visited b' x) /\ Forall (visited b') eps /\ full b' /\ forall x, visited b' x -> waits b' x) as Hgo.
  { destruct (Hgo b0 Hb0 Hf0 Hw0) as (b & -> & Hb & Ht & Hl & _ & Hv & Hf & Hw). exists b. cbn in Hl. split_and!; try done; lia. }
  clear Hb0 Ht0 Hf0 Hw0 b0. induction Heps as [|ep eps Hep Heps IH]; intros b Hb Hf Hw.
  { exists b. split_and!; try done; lia. }
  change (foldl (seed_one rows score) (Some b) (ep :: eps)) with (foldl (seed_one rows score) (seed_one rows score (Some b) ep) eps).
  unfold seed_one at 2. cbn [mbind option_bind].
  destruct (lookup_lt_is_Some_2 (bm_visited b) ep) as [v Hn]; [rewrite (bo_len b Hb); by apply P_row|].
  rewrite Hn. cbn [mbind option_bind]. destruct v.
  { destruct (IH b Hb Hf Hw) as (b' & -> & Hb' & Ht' & Hl' & Hs' & Hv' & Hfw). exists b'. cbn [length].
    split_and!; try done; try lia; try apply Hfw. constructor; [by apply Hs'|done]. }
  rewrite (P_score ep Hep). cbn [mbind option_bind]. destruct (push_ok b ep Hb Hep Hn) as (Hb1 & Ht1 & Hl1). cbn zeta in Hb1, Ht1, Hl1 |- *.
  set (b1 := {| bm_visited := <[ep := true]> _; bm_candidates := _; bm_result := _ |}) in *.
  assert (forall x, visited b1 x -> x = ep \/ visited b x) as Hnew.
  { intros x Hx. destruct (decide (x = ep)) as [->|Hne]; [by left|]. right. unfold visited in *. cbn in Hx.
    by rewrite list_lookup_insert_ne in Hx. }
  destruct (IH b1 Hb1) as (b' & -> & Hb' & Ht' & Hl' & Hs' & Hv' & Hfw).
  { intros x Hx. cbn. rewrite heap_push_perm. cbn. apply elem_of_cons. destruct (Hnew x Hx) as [->|Hx']; [by left|right; by apply Hf]. }
  { intros x Hx. unfold waits. cbn. rewrite heap_push_perm. cbn. apply elem_of_cons.
    destruct (Hnew x Hx) as [->|Hx']; [by left|right; by apply Hw]. }
  exists b'. cbn [length]. split_and!; try done; try lia; try apply Hfw.
  - intros x Hx. apply Hs'. by eapply visited_insert.
  - constructor; [|done]. apply Hs'. apply list_lookup_insert_eq. by eapply lookup_lt_Some.
Qed.

(** The beam search: distinct nodes of the set with their scores, nearest
    first, as many as the beam is wide at most. *)
Record found_ok (ef : nat) (found : list Scored) : Prop := {
  fo_nodes : Forall scored_ok found;
  fo_dup : NoDup (map sd_node found);
  fo_sorted : StronglySorted (cmp_le (best_first sd_score)) found;
  fo_len : (length found <= ef)%nat
}.

Lemma search_layer_spec eps ef : (0 < ef)%nat -> Forall P eps ->
  exists found, search_layer rows score nbrs eps ef = Some found /\ found_ok (Nat.max ef (length eps)) found /\
    (eps <> [] -> found <> []) /\
    ((length rows <= ef)%nat -> (forall x, x ∈ eps -> x ∈ map sd_node found) /\
       forall x adj y, x ∈ map sd_node found -> nbrs x = Some adj -> y ∈ adj -> y ∈ map sd_node found).
Proof.
  intros Hef Heps. unfold search_layer. destruct (seed_spec eps Heps) as (b & -> & Hb & Ht & Hl & Hv & Hf & Hw). cbn [mbind option_bind].
  destruct (beam_loop_spec ef (S (length rows)) Hef b Hb) as (b' & -> & Hb' & Hs & Hz & Hwide); [lia|]. cbn [mbind option_bind].
  eexists. split; [reflexivity|]. split_and!.
  - split.
    + rewrite sort_unstable_perm. eapply Forall_impl; [apply Hb'|]. by intros x [? _].
    + rewrite sort_unstable_perm. apply Hb'.
    + apply sort_unstable_sorted. apply _.
    + rewrite sort_unstable_perm. lia.
  - intros Hne E. apply (f_equal length) in E. rewrite sort_unstable_perm in E. destruct eps as [|ep eps]; [done|].
    apply Forall_cons in Hv as [Hv _]. apply Hf in Hv. destruct (bm_result b); [by apply elem_of_nil in Hv|]. cbn in *. lia.
  - intros Hw'. destruct Hwide as [Hf' He]; [done|split; [done|intros x Hx; left; by apply Hw]|]. split.
    + intros x Hx. rewrite sort_unstable_perm. apply Hf', Hs. rewrite Forall_forall in Hv. by apply Hv.
    + intros x adj y Hx Ha Hy. rewrite sort_unstable_perm in Hx |- *. apply Hf'.
      apply list_elem_of_fmap in Hx as (z & -> & Hz'). destruct Hb' as [_ _ Hr _]. rewrite Forall_forall in Hr.
      destruct (Hr z Hz') as [_ Hzv]. pose proof (He _ Hzv adj Ha) as Hadj. rewrite Forall_forall in Hadj. by apply Hadj.
Qed.
End walks.
