(* ===== verification/HnswOk.v ===== *)
(** * HnswOk: the graph stays well formed, and searching it answers

    Inserting keeps the links within the graph, on levels their ends have,
    without loops or doubles, and no node above its degree.  [hnsw_build_search]
    states it of a graph built row by row, with what a search then answers. *)
From S2P Require Import Prelude Floats Model Sort TopK Std Manifest Segments Scoring Quant Ann IvfOk HnswWalk.

(** Any two of the rows can be scored. *)
Definition walkable (w : Walk) (rows : list nat) : Prop :=
  forall a b, a ∈ rows -> b ∈ rows -> is_Some (score_rows w a b).

Lemma walkable_exact data d rows : rows_in data rows -> walkable (Walk_exact data d) rows.
Proof.
  intros Hr a b Ha Hb. unfold rows_in in Hr. rewrite Forall_forall in Hr. unfold score_rows. cbn.
  rewrite !row_at_in by (by apply Hr). by eexists.
Qed.
Lemma walkable_binary data words wpr n rows : length words = (n * wpr)%nat -> Forall (fun r => (r < n)%nat) rows ->
  walkable (Walk_binary data words wpr) rows.
Proof.
  intros Hl Hr a b Ha Hb. rewrite Forall_forall in Hr. unfold score_rows. cbn.
  rewrite !(code_row_flat words wpr _ n) by (try done; by apply Hr). by eexists.
Qed.

(** ** Choosing neighbours *)

Section select.
Context (rows : list nat) (w : Walk) (Hw : walkable w rows).

Definition in_rows (n : nat) : Prop := (n < length rows)%nat.
Lemma in_rows_some n : in_rows n -> exists r, rows !! n = Some r /\ r ∈ rows.
Proof. intros H. destruct (lookup_lt_is_Some_2 rows n H) as [r Hr]. exists r. split; [done|by eapply list_elem_of_lookup_2]. Qed.

Lemma all_nearer_some score cand_row selected : cand_row ∈ rows -> Forall in_rows selected ->
  exists b, all_nearer rows w score cand_row selected = Some b.
Proof.
  intros Hc. induction 1 as [|r selected Hr Hs IH]; [by exists true|]. cbn [all_nearer].
  destruct (in_rows_some r Hr) as (row & -> & Hrow). cbn [mbind option_bind].
  destruct (Hw cand_row row Hc Hrow) as [s ->]. cbn [mbind option_bind]. destruct (f32_leb s score); [done|by exists false].
Qed.

(** Some of [pool], each once, [m] at most. *)
Record chosen (m : nat) (pool selected : list nat) : Prop := {
  ch_in : Forall (.∈ pool) selected;
  ch_dup : NoDup selected;
  ch_len : (length selected <= m)%nat
}.

Lemma chosen_snoc m pool sel n : chosen m pool sel -> (length sel < m)%nat -> n ∈ pool -> n ∉ sel -> chosen m pool (sel ++ [n]).
Proof.
  intros [Hi Hd Hl] Hm Hn Hns. split.
  - apply Forall_app. by repeat constructor.
  - apply NoDup_app. split_and!; [done| |apply NoDup_singleton]. intros x Hx ->%list_elem_of_singleton. done.
  - rewrite length_app. cbn. lia.
Qed.

Lemma keep_loop_spec m cands : Forall (fun c => in_rows (sd_node c)) cands -> NoDup (map sd_node cands) ->
  forall pool sel, chosen m pool sel -> (forall c, c ∈ cands -> sd_node c ∈ pool /\ sd_node c ∉ sel) -> Forall in_rows sel ->
  exists sel', keep_loop rows w m cands sel = Some sel' /\ chosen m pool sel'.
Proof.
  induction 1 as [|c cands Hc Hcs IH]; intros Hd pool sel Hch Hp Hs; cbn [keep_loop]; [by exists sel|].
  cbn in Hd. apply NoDup_cons in Hd as [Hcn Hd].
  destruct (Nat.leb_spec m (length sel)); [by exists sel|]. destruct (in_rows_some _ Hc) as (row & -> & Hrow). cbn [mbind option_bind].
  destruct (all_nearer_some (sd_score c) row sel Hrow Hs) as [keep ->]. cbn [mbind option_bind].
  destruct (Hp c) as [Hp1 Hp2]; [left|]. destruct keep.
  - apply IH; [done|by apply chosen_snoc| |apply Forall_app; by repeat constructor]. intros c' Hc'. destruct (Hp c') as [H1 H2]; [by right|].
    split; [done|]. intros [?|E%list_elem_of_singleton]%elem_of_app; [done|]. apply Hcn. rewrite <- E. by apply (list_elem_of_fmap_2 sd_node).
  - apply IH; [done|done| |done]. intros c' Hc'. apply Hp. by right.
Qed.

Lemma top_up_spec m cands : forall pool sel, chosen m pool sel -> (forall c, c ∈ cands -> sd_node c ∈ pool) ->
  chosen m pool (top_up m cands sel).
Proof.
  induction cands as [|c cands IH]; intros pool sel Hch Hp; cbn [top_up]; [done|].
  destruct (Nat.leb_spec m (length sel)); [done|]. apply IH; [|intros c' Hc'; apply Hp; by right].
  case_bool_decide; [done|]. apply chosen_snoc; [done|done|apply Hp; left|done].
Qed.

Lemma select_neighbors_spec m cands : Forall (fun c => in_rows (sd_node c)) cands -> NoDup (map sd_node cands) ->
  exists sel, select_neighbors rows w cands m = Some sel /\ chosen m (map sd_node cands) sel.
Proof.
  intros Hc Hd. unfold select_neighbors.
  destruct (keep_loop_spec m cands Hc Hd (map sd_node cands) []) as (sel & -> & Hch).
  - split; [constructor|constructor|cbn; lia].
  - intros c Hin. split; [by apply (list_elem_of_fmap_2 sd_node)|by apply not_elem_of_nil].
  - constructor.
  - cbn [mbind option_bind]. eexists. split; [done|]. destruct (_ <? _)%nat; [|done].
    apply top_up_spec; [done|]. intros c Hin. by apply (list_elem_of_fmap_2 sd_node).
Qed.
End select.

(** ** The links *)

Definition adj_at (links : Links) (n l : nat) : option (list nat) := links !! n ≫= fun lists => lists !! l.
(** Node [n] has level [l]. *)
Definition has_level (links : Links) (l n : nat) : Prop := is_Some (adj_at links n l).

(** Every list of neighbours: distinct nodes of the same level, not the node
    itself, and no more than [bound] allows. *)
Definition links_ok (bound : nat -> nat -> nat) (links : Links) : Prop :=
  forall n l adj, adj_at links n l = Some adj ->
    NoDup adj /\ n ∉ adj /\ Forall (has_level links l) adj /\ (length adj <= bound n l)%nat.
Record same_levels (links links' : Links) : Prop := {
  sl_len : length links' = length links;
  sl_has l n : has_level links l n <-> has_level links' l n
}.
Lemma same_levels_refl links : same_levels links links.
Proof. by split. Qed.
Lemma same_levels_trans l1 l2 l3 : same_levels l1 l2 -> same_levels l2 l3 -> same_levels l1 l3.
Proof. intros [H1 H2] [H3 H4]. split; [congruence|]. intros l n. by rewrite (H2 l n). Qed.

Lemma adj_at_alter links from level adj n l :
  adj_at (alter <[level := adj]> from links) n l =
    if bool_decide (n = from /\ l = level /\ has_level links level from) then Some adj else adj_at links n l.
Proof.
  unfold adj_at, has_level, adj_at. destruct (decide (n = from)) as [->|Hn].
  - rewrite list_lookup_alter_eq. destruct (links !! from) as [lists|]; cbn.
    + destruct (decide (l = level)) as [->|Hl].
      * destruct (lists !! level) as [a|] eqn:E.
        -- rewrite bool_decide_eq_true_2 by done. apply list_lookup_insert_eq. by eapply lookup_lt_Some.
        -- rewrite bool_decide_eq_false_2 by (intros (_ & _ & [? ?]); done). rewrite <- E. f_equal.
           rewrite list_insert_ge; [done|]. by apply lookup_ge_None.
      * rewrite bool_decide_eq_false_2 by naive_solver. by apply list_lookup_insert_ne.
    + rewrite bool_decide_eq_false_2; [done|]. intros (_ & _ & [? ?]). done.
  - rewrite bool_decide_eq_false_2 by naive_solver. by rewrite list_lookup_alter_ne.
Qed.

Lemma alter_levels links from level adj : same_levels links (alter <[level := adj]> from links).
Proof.
  split; [apply length_alter|]. intros l n. unfold has_level at 2. rewrite adj_at_alter. case_bool_decide as E; [|done].
  destruct E as (-> & -> & E). split; [by eexists|done].
Qed.

Lemma has_level_lower links l l' n : has_level links l n -> (l' <= l)%nat -> has_level links l' n.
Proof.
  unfold has_level, adj_at. destruct (links !! n) as [lists|]; cbn; [|by intros [? ?]].
  intros H Hl. apply lookup_lt_is_Some in H. apply lookup_lt_is_Some. lia.
Qed.
Lemma has_level_lt links l n : has_level links l n -> (n < length links)%nat.
Proof. unfold has_level, adj_at. intros [x Hx]. destruct (links !! n) eqn:E; [by eapply lookup_lt_Some|done]. Qed.

(** Replacing one list keeps the links well formed. *)
Lemma links_ok_alter bound bound' links from level adj :
  links_ok bound links -> (forall n l, ~ (n = from /\ l = level) -> bound n l <= bound' n l)%nat ->
  NoDup adj -> from ∉ adj -> Forall (has_level links level) adj -> (length adj <= bound' from level)%nat ->
  links_ok bound' (alter <[level := adj]> from links).
Proof.
  intros Hok Hle Hd Hn Hf Hl n l a. rewrite adj_at_alter.
  assert (forall l xs, Forall (has_level links l) xs -> Forall (has_level (alter <[level := adj]> from links) l) xs) as Hlev.
  { intros l' xs Hxs. eapply Forall_impl; [exact Hxs|]. intros x. apply (sl_has _ _ (alter_levels links from level adj)). }
  case_bool_decide as E.
  - destruct E as (-> & -> & _). intros [= <-]. split_and!; auto.
  - intros Ha. destruct (Hok n l a Ha) as (H1 & H2 & H3 & H4). split_and!; auto.
    destruct (decide (n = from /\ l = level)) as [[-> ->]|Hne]; [|specialize (Hle n l Hne); lia].
    exfalso. apply E. split_and!; [done|done|by eexists].
Qed.
Lemma links_ok_le bound bound' links : links_ok bound links -> (forall n l, bound n l <= bound' n l)%nat -> links_ok bound' links.
Proof.
  intros Hok Hle n l adj Ha. destruct (Hok n l adj Ha) as (? & ? & ? & ?). specialize (Hle n l). split_and!; auto; lia.
Qed.

(** ** Steps on the graph *)

Lemma hg_set_links_id g : hg_set_links (hg_links g) g = g.
Proof. by destruct g. Qed.

(** [g'] differs from [g] in the links, which keep their levels and [bound]. *)
Definition relinked (bound : nat -> nat -> nat) (g g' : HnswGraph) : Prop :=
  exists links, g' = hg_set_links links g /\ same_levels (hg_links g) links /\ links_ok bound links.
Definition bump (from level : nat) (bound : nat -> nat -> nat) (n l : nat) : nat :=
  if bool_decide (n = from /\ l = level) then S (bound n l) else bound n l.
Definition trim (node level cap : nat) (bound : nat -> nat -> nat) (n l : nat) : nat :=
  if bool_decide (n = node /\ l = level) then Nat.min cap (bound n l) else bound n l.

Lemma relinked_refl bound g : links_ok bound (hg_links g) -> relinked bound g g.
Proof. intros H. exists (hg_links g). split_and!; [by rewrite hg_set_links_id|apply same_levels_refl|done]. Qed.
Lemma relinked_trans b b' g g1 g2 : relinked b g g1 -> relinked b' g1 g2 -> relinked b' g g2.
Proof.
  intros (l1 & -> & Hs1 & _) (l2 & -> & Hs2 & Ho). exists l2. split_and!; [done|by eapply same_levels_trans|done].
Qed.
Lemma relinked_le b b' g g1 : relinked b g g1 -> (forall n l, b n l <= b' n l)%nat -> relinked b' g g1.
Proof. intros (l1 & -> & Hs & Ho) Hle. exists l1. split_and!; [done|done|by eapply links_ok_le]. Qed.

Section steps.
Context `{SortUnstable} `{BinaryHeap} `{Ln64}.

(** One more neighbour. *)
Lemma links_ok_push bound links from level to adj :
  links_ok bound links -> adj_at links from level = Some adj -> from <> to -> to ∉ adj -> has_level links level to ->
  links_ok (bump from level bound) (alter <[level := adj ++ [to]]> from links).
Proof.
  intros Hok Hf Hne Hin Ht. destruct (Hok _ _ _ Hf) as (Hd & Hn & Hl & Hlen).
  apply (links_ok_alter bound); [done|intros; unfold bump; destruct (bool_decide _); lia| | | |].
  - apply NoDup_app. split_and!; [done| |apply NoDup_singleton]. intros x Hx ->%list_elem_of_singleton. done.
  - intros [?|E%list_elem_of_singleton]%elem_of_app; done.
  - apply Forall_app. by repeat constructor.
  - unfold bump. rewrite bool_decide_eq_true_2 by done. rewrite length_app. cbn. lia.
Qed.
Lemma bump_le bound from level n l : (bound n l <= bump from level bound n l)%nat.
Proof. unfold bump. destruct (bool_decide _); lia. Qed.

Lemma connect_spec bound g from to level :
  links_ok bound (hg_links g) -> from <> to -> has_level (hg_links g) level from -> has_level (hg_links g) level to ->
  exists g', connect from to level g = Some g' /\ relinked (bump from level bound) g g'.
Proof.
  intros Hok Hne [adj Hf] Ht. unfold connect. rewrite (proj2 (Nat.eqb_neq _ _)) by done.
  fold (adj_at (hg_links g) from level). rewrite Hf. cbn [mbind option_bind]. eexists. split; [reflexivity|].
  case_bool_decide as Hin; [eapply relinked_le; [by apply relinked_refl|]; intros; apply bump_le|].
  exists (alter <[level := adj ++ [to]]> from (hg_links g)). split_and!; [done|by apply alter_levels|by apply links_ok_push].
Qed.

Lemma mapM_scored w rows base adj : walkable w rows -> base ∈ rows -> Forall (in_rows rows) adj ->
  exists sc, mapM (fun n => row ← rows !! n; s ← score_rows w base row; Some {| sd_score := s; sd_node := n |}) adj = Some sc /\
    map sd_node sc = adj.
Proof.
  intros Hw Hb. induction 1 as [|n adj Hn Hadj IH]; [by exists []|]. destruct IH as (sc & IH & E).
  destruct (in_rows_some rows n Hn) as (row & Er & Hrow). destruct (Hw base row Hb Hrow) as [s Es].
  exists ({| sd_score := s; sd_node := n |} :: sc). cbn. rewrite Er. cbn. rewrite Es. cbn.
  change (mapM (M := option) ?f adj) with (mapM f adj). rewrite IH. split; [done|]. by rewrite E.
Qed.

(** The neighbours a trim keeps. *)
Lemma kept_spec w rows links level adj node base cap :
  walkable w rows -> length links = length rows -> Forall (has_level links level) adj -> NoDup adj -> rows !! node = Some base ->
  exists sc kept, mapM (fun n => row ← rows !! n; s ← score_rows w base row; Some {| sd_score := s; sd_node := n |}) adj = Some sc /\
    select_neighbors rows w (sort_unstable (best_first sd_score) sc) cap = Some kept /\
    (forall x, x ∈ kept -> x ∈ adj) /\ NoDup kept /\ (length kept <= cap)%nat.
Proof.
  intros Hw Hlen Hl Hd Hb. assert (Forall (in_rows rows) adj) as Hrows.
  { eapply Forall_impl; [exact Hl|]. intros x Hx%has_level_lt. unfold in_rows. lia. }
  destruct (mapM_scored w rows base adj Hw) as (sc & E & Esc); [by eapply list_elem_of_lookup_2|done|]. exists sc.
  set (sorted := sort_unstable _ sc). assert (map sd_node sorted ≡ₚ adj) as Hp by (unfold sorted; by rewrite sort_unstable_perm, Esc).
  destruct (select_neighbors_spec rows w Hw cap sorted) as (kept & -> & [Hki Hkd Hkl]).
  - apply Forall_forall. intros c Hc'. rewrite Forall_forall in Hrows. apply Hrows. rewrite <- Hp. by apply (list_elem_of_fmap_2 sd_node).
  - by rewrite Hp.
  - exists kept. split_and!; try done. intros x Hx. rewrite Forall_forall in Hki. rewrite <- Hp. by apply Hki.
Qed.

(** Trimming a list to [cap], or finding it short enough. *)
Lemma links_ok_short bound links node level adj cap : links_ok bound links -> adj_at links node level = Some adj ->
  (length adj <= cap)%nat -> links_ok (trim node level cap bound) links.
Proof.
  intros Hok Hn Hc n l a Ha. destruct (Hok n l a Ha) as (? & ? & ? & ?). split_and!; try done. unfold trim.
  case_bool_decide as E; [|done]. destruct E as [-> ->]. rewrite Hn in Ha. injection Ha as <-. lia.
Qed.
Lemma links_ok_trim bound links node level adj kept cap : links_ok bound links -> adj_at links node level = Some adj ->
  (forall x, x ∈ kept -> x ∈ adj) -> NoDup kept -> (length kept <= cap)%nat ->
  links_ok (trim node level cap bound) (alter <[level := kept]> node links).
Proof.
  intros Hok Hn Hsub Hkd Hkl. destruct (Hok _ _ _ Hn) as (Hd & Hni & Hl & Hb). apply (links_ok_alter bound); [done| |done| | |].
  - intros n l Hne. unfold trim. by rewrite bool_decide_eq_false_2.
  - intros Hx. by apply Hni, Hsub.
  - apply Forall_forall. intros x Hx. rewrite Forall_forall in Hl. by apply Hl, Hsub.
  - unfold trim. rewrite bool_decide_eq_true_2 by done.
    assert (length kept <= length adj)%nat by (apply submseteq_length, NoDup_submseteq; done). lia.
Qed.

Lemma prune_spec bound w g node level :
  links_ok bound (hg_links g) -> length (hg_links g) = length (hg_rows g) -> walkable w (hg_rows g) ->
  has_level (hg_links g) level node ->
  exists g', prune w node level g = Some g' /\ relinked (trim node level (cap_at g level) bound) g g'.
Proof.
  intros Hok Hlen Hw [adj Hn]. unfold prune. fold (adj_at (hg_links g) node level). rewrite Hn. cbn [mbind option_bind].
  destruct (Nat.leb_spec (length adj) (cap_at g level)) as [Hc|Hc].
  - exists g. split; [done|]. exists (hg_links g).
    split_and!; [by rewrite hg_set_links_id|apply same_levels_refl|by eapply links_ok_short].
  - destruct (lookup_lt_is_Some_2 (hg_rows g) node) as [base Eb]; [rewrite <- Hlen; apply (has_level_lt _ level); by exists adj|].
    rewrite Eb. cbn [mbind option_bind]. destruct (Hok _ _ _ Hn) as (Hd & _ & Hl & _).
    destruct (kept_spec w _ _ level adj node base (cap_at g level) Hw Hlen Hl Hd Eb) as (sc & kept & -> & Ek & H1' & H2' & H3').
    cbn [mbind option_bind]. rewrite Ek. cbn [mbind option_bind]. eexists. split; [reflexivity|].
    exists (alter <[level := kept]> node (hg_links g)). split_and!; [done|by apply alter_levels|by eapply links_ok_trim].
Qed.

(** The bounds while a node is being linked at level [lc]: [j] there, nothing
    yet below, the caps everywhere else. *)
Definition stage (cap : nat -> nat) (node lc j n l : nat) : nat :=
  if (n =? node)%nat then if (l =? lc)%nat then j else if (l <? lc)%nat then 0 else cap l else cap l.

Lemma link_one_spec w g cap0 node level nbr j :
  (forall l, cap_at g l <= cap0 l)%nat -> links_ok (stage cap0 node level j) (hg_links g) -> length (hg_links g) = length (hg_rows g) ->
  walkable w (hg_rows g) -> has_level (hg_links g) level node -> has_level (hg_links g) level nbr ->
  exists g', link_one w node level (Some g) nbr = Some g' /\ relinked (stage cap0 node level (S j)) g g'.
Proof.
  intros Hcap Hok Hlen Hw Hn Hb. unfold link_one. cbn [mbind option_bind].
  destruct (decide (node = nbr)) as [<-|Hne].
  - unfold connect. rewrite Nat.eqb_refl. cbn [mbind option_bind].
    destruct (prune_spec _ w g node level Hok Hlen Hw Hn) as (g' & -> & Hg'). exists g'. split; [done|].
    eapply relinked_le; [exact Hg'|]. intros n l. unfold trim, stage. repeat case_match; lia.
  - destruct (connect_spec _ g node nbr level Hok Hne Hn Hb) as (g1 & -> & Hg1). cbn [mbind option_bind].
    pose proof Hg1 as (l1 & E1 & Hs1 & Ho1).
    destruct (connect_spec (bump node level (stage cap0 node level j)) g1 nbr node level) as (g2 & -> & Hg2);
      [by rewrite E1|done|by rewrite E1; apply (sl_has _ _ Hs1)|by rewrite E1; apply (sl_has _ _ Hs1)|]. cbn [mbind option_bind].
    pose proof (relinked_trans _ _ _ _ _ Hg1 Hg2) as Hg12. pose proof Hg12 as (l2 & E2 & Hs2 & Ho2).
    destruct (prune_spec (bump nbr level (bump node level (stage cap0 node level j))) w g2 nbr level) as (g3 & -> & Hg3).
    + by rewrite E2.
    + rewrite E2. cbn. by rewrite (sl_len _ _ Hs2).
    + by rewrite E2.
    + rewrite E2. by apply (sl_has _ _ Hs2).
    + exists g3. split; [done|]. eapply relinked_le; [by eapply relinked_trans|]. intros n l. rewrite E2.
      change (cap_at (hg_set_links l2 g)) with (cap_at g). unfold trim, bump, stage. specialize (Hcap level).
      destruct (Nat.eqb_spec n node), (Nat.eqb_spec l level), (Nat.ltb_spec l level); repeat case_bool_decide; naive_solver lia.
Qed.

Lemma links_fold_spec w node level cap0 nbrs : forall g j,
  (forall l, cap_at g l <= cap0 l)%nat -> links_ok (stage cap0 node level j) (hg_links g) -> length (hg_links g) = length (hg_rows g) ->
  walkable w (hg_rows g) -> has_level (hg_links g) level node -> Forall (has_level (hg_links g) level) nbrs ->
  exists g', foldl (link_one w node level) (Some g) nbrs = Some g' /\ relinked (stage cap0 node level (j + length nbrs)) g g'.
Proof.
  induction nbrs as [|nbr nbrs IH]; intros g j Hcap Hok Hlen Hw Hn Hf.
  { exists g. split; [done|]. rewrite Nat.add_0_r. by apply relinked_refl. }
  apply Forall_cons in Hf as [Hb Hf].
  destruct (link_one_spec w g cap0 node level nbr j Hcap Hok Hlen Hw Hn Hb) as (g1 & E & Hg1).
  change (foldl ?f (Some g) (nbr :: nbrs)) with (foldl f (f (Some g) nbr) nbrs). rewrite E.
  pose proof Hg1 as (l1 & -> & Hs1 & Ho1).
  destruct (IH (hg_set_links l1 g) (S j)) as (g2 & -> & Hg2); [done|done| |done| | |].
  - cbn. by rewrite (sl_len _ _ Hs1).
  - by apply (sl_has _ _ Hs1).
  - eapply Forall_impl; [exact Hf|]. intros x. apply (sl_has _ _ Hs1).
  - exists g2. split; [done|]. replace (j + length (nbr :: nbrs))%nat with (S j + length nbrs)%nat by (cbn; lia).
    by eapply relinked_trans.
Qed.

(** The nodes of a level are closed under the links of that level. *)
Section level.
Context (rows : list nat) (links : Links) (bound : nat -> nat -> nat) (Hok : links_ok bound links).
Context (Hlen : length links = length rows) (score : nat -> option f32).
Context (Hscore : forall r, r ∈ rows -> is_Some (score r)) (level : nat).

Definition known_score (n : nat) : f32 := default f32_zero (node_score rows score n).

Lemma level_score n : has_level links level n -> node_score rows score n = Some (known_score n).
Proof.
  intros Hn%has_level_lt. unfold known_score. destruct (in_rows_some rows n) as (r & E & Hr); [unfold in_rows; lia|].
  unfold node_score. rewrite E. cbn. by destruct (Hscore r Hr) as [s ->].
Qed.
Lemma level_row n : has_level links level n -> (n < length rows)%nat.
Proof. intros Hn%has_level_lt. lia. Qed.
Lemma level_nbrs n : has_level links level n ->
  exists adj, links_at links level n = Some adj /\ Forall (has_level links level) adj.
Proof.
  intros [adj Ha]. exists adj. unfold links_at. unfold adj_at in Ha. destruct (links !! n) as [lists|] eqn:E; [|done].
  cbn in Ha |- *. rewrite Ha. split; [done|]. by apply (Hok n level adj); unfold adj_at; rewrite E.
Qed.

Lemma level_greedy ep : has_level links level ep ->
  exists r, greedy_descend rows score (links_at links level) ep = Some r /\ has_level links level r.
Proof.
  intros Hep. destruct (greedy_spec rows score (links_at links level) (has_level links level) known_score
    level_score level_row level_nbrs ep Hep) as (r & E & Hr & _). by exists r.
Qed.
End level.

Lemma descend_spec rows links bound score level k : links_ok bound links -> length links = length rows ->
  (forall r, r ∈ rows -> is_Some (score r)) -> forall ep, has_level links (level + k) ep ->
  exists r, descend rows score links level k ep = Some r /\ has_level links level r.
Proof.
  intros Hok Hlen Hs. induction k as [|k IH]; intros ep Hep; [rewrite Nat.add_0_r in Hep; by exists ep|]. cbn [descend].
  destruct (level_greedy rows links bound Hok Hlen score Hs (level + S k) ep Hep) as (r & -> & Hr). cbn [mbind option_bind].
  apply IH. eapply has_level_lower; [exact Hr|lia].
Qed.

Lemma insert_layers_spec w score cap0 node ep lc : forall g eps,
  (0 < hg_ef_construction g)%nat -> (forall l, cap_at g l <= cap0 l)%nat -> links_ok (stage cap0 node lc 0) (hg_links g) ->
  length (hg_links g) = length (hg_rows g) -> walkable w (hg_rows g) -> (forall r, r ∈ hg_rows g -> is_Some (score r)) ->
  has_level (hg_links g) lc node -> has_level (hg_links g) lc ep -> Forall (has_level (hg_links g) lc) eps ->
  exists g', insert_layers w score node ep lc eps g = Some g' /\ relinked (fun _ l => cap0 l) g g'.
Proof.
  induction lc as [lc IH] using lt_wf_ind. intros g eps Hef Hcap Hok Hlen Hw Hs Hn Hep Heps.
  assert (forall links eps, links_ok (stage cap0 node lc 0) links -> same_levels (hg_links g) links -> Forall (has_level links lc) eps ->
    exists found sel, search_layer (hg_rows g) score (links_at links lc) eps (hg_ef_construction g) = Some found /\
      select_neighbors (hg_rows g) w found (cap_at g lc) = Some sel /\ Forall (has_level links lc) sel /\
      (length sel <= cap_at g lc)%nat /\ Forall (has_level links lc) (map sd_node found)) as Hsearch.
  { intros links eps' Hok' Hsl Heps'. assert (length links = length (hg_rows g)) as Hl' by (by rewrite (sl_len _ _ Hsl)).
    destruct (search_layer_spec (hg_rows g) score (links_at links lc) (has_level links lc) (known_score (hg_rows g) score)
      (level_score _ _ Hl' _ Hs lc) (level_row _ _ Hl' lc) (level_nbrs _ _ Hok' lc) eps' (hg_ef_construction g) Hef Heps')
      as (found & E & [Hfn Hfd _ _] & _). exists found.
    assert (Forall (has_level links lc) (map sd_node found)) as Hfl.
    { apply Forall_forall. intros x (s & -> & Hx)%list_elem_of_fmap. rewrite Forall_forall in Hfn. by apply Hfn. }
    destruct (select_neighbors_spec (hg_rows g) w Hw (cap_at g lc) found) as (sel & Es & [Hi _ Hcl]).
    - apply Forall_forall. intros s Hx. apply (level_row (hg_rows g) links Hl' lc). rewrite Forall_forall in Hfn. by apply Hfn.
    - done.
    - exists sel. split_and!; try done. eapply Forall_impl; [exact Hi|]. intros x Hx. rewrite Forall_forall in Hfl. by apply Hfl. }
  destruct (Hsearch (hg_links g) eps Hok (same_levels_refl _) Heps) as (found & sel & Ef & Es & Hsl & Hsc & Hfl).
  destruct (links_fold_spec w node lc cap0 sel g 0 Hcap Hok Hlen Hw Hn Hsl) as (g1 & E1 & Hg1).
  pose proof Hg1 as (l1 & El1 & Hs1 & Ho1).
  destruct lc as [|lc]; cbn [insert_layers]; rewrite Ef; cbn [mbind option_bind]; rewrite Es; cbn [mbind option_bind];
    rewrite E1; cbn [mbind option_bind].
  - exists g1. split; [done|]. eapply relinked_le; [exact Hg1|]. intros n l. unfold stage. pose proof (Hcap 0%nat).
    destruct (Nat.eqb_spec n node); [|done]. destruct (Nat.eqb_spec l 0) as [->|]; [lia|]. destruct (Nat.ltb_spec l 0); lia.
  - assert (forall x, has_level (hg_links g) (S lc) x -> has_level l1 lc x) as Hdown.
    { intros x Hx. apply (sl_has _ _ Hs1). eapply has_level_lower; [exact Hx|lia]. }
    destruct (IH lc ltac:(lia) g1 (if bool_decide (map sd_node found = []) then [ep] else map sd_node found)) as (g2 & -> & Hg2);
      rewrite ?El1; cbn; try done.
    + eapply links_ok_le; [exact Ho1|]. intros n l. unfold stage. pose proof (Hcap (S lc)).
      destruct (Nat.eqb_spec n node); [|done]. destruct (Nat.eqb_spec l (S lc)), (Nat.ltb_spec l (S lc)), (Nat.eqb_spec l lc), (Nat.ltb_spec l lc);
        subst; lia.
    + by rewrite (sl_len _ _ Hs1).
    + by apply Hdown.
    + by apply Hdown.
    + case_bool_decide; [by repeat constructor; apply Hdown|]. eapply Forall_impl; [exact Hfl|]. exact Hdown.
    + exists g2. split; [done|]. eapply relinked_le; [by eapply relinked_trans|]. done.
Qed.
End steps.

(** ** The graph *)

(** [k] times the cap bounds the degrees: once for a graph built serially. *)
Record graph_ok (k : nat) (g : HnswGraph) : Prop := {
  gk_len : length (hg_links g) = length (hg_rows g);
  gk_links : links_ok (fun _ l => k * cap_at g l)%nat (hg_links g);
  gk_base n : (n < length (hg_rows g))%nat -> has_level (hg_links g) 0 n;
  gk_entry : match hg_entry g with
             | None => hg_rows g = []
             | Some e => has_level (hg_links g) (hg_max_level g) e /\
                         forall l n, has_level (hg_links g) l n -> (l <= hg_max_level g)%nat
             end
}.
(** The parameters an insertion leaves as they are. *)
Definition same_tuning (g g' : HnswGraph) : Prop :=
  hg_dim g' = hg_dim g /\ hg_m g' = hg_m g /\ hg_m_max0 g' = hg_m_max0 g /\
  hg_ef_construction g' = hg_ef_construction g /\ hg_ef_search g' = hg_ef_search g.

Lemma node_id_small n : (N.of_nat n < 2 ^ 32)%N -> as_u32 n = n.
Proof. intros H. unfold as_u32. by rewrite N.mod_small, Nat2N.id. Qed.

Lemma adj_at_snoc links lists n l :
  adj_at (links ++ [lists]) n l = if (n =? length links)%nat then lists !! l else adj_at links n l.
Proof.
  unfold adj_at. destruct (Nat.eqb_spec n (length links)) as [->|Hn]; [by rewrite list_lookup_middle|].
  destruct (decide (n < length links)%nat); [by rewrite lookup_app_l|].
  rewrite !lookup_ge_None_2; [done|lia|rewrite length_app; cbn; lia].
Qed.
Lemma has_level_snoc links level n l :
  has_level (links ++ [replicate (level + 1) []]) l n <-> (n = length links /\ (l <= level)%nat) \/ has_level links l n.
Proof.
  unfold has_level at 1. rewrite adj_at_snoc. destruct (Nat.eqb_spec n (length links)) as [->|Hn]; [|unfold has_level; naive_solver].
  rewrite lookup_lt_is_Some, length_replicate. split; [intros; left; lia|]. intros [[_ ?]|H%has_level_lt]; lia.
Qed.
Lemma links_ok_snoc bound links level : links_ok bound links -> links_ok bound (links ++ [replicate (level + 1) []]).
Proof.
  intros Hok n l adj. rewrite adj_at_snoc. destruct (Nat.eqb_spec n (length links)) as [->|Hn].
  - intros [-> _]%lookup_replicate. split_and!; [constructor|by apply not_elem_of_nil|constructor|cbn; lia].
  - intros Ha. destruct (Hok n l adj Ha) as (? & ? & Hf & ?). split_and!; try done.
    eapply Forall_impl; [exact Hf|]. intros x Hx. apply has_level_snoc. by right.
Qed.
Lemma links_ok_fresh bound links level lc : links_ok (fun _ l => bound l) links ->
  links_ok (stage bound (length links) lc 0) (links ++ [replicate (level + 1) []]).
Proof.
  intros Hok n l adj. rewrite adj_at_snoc. unfold stage. destruct (Nat.eqb_spec n (length links)) as [->|Hn].
  - intros [-> _]%lookup_replicate. split_and!; [constructor|by apply not_elem_of_nil|constructor|cbn; lia].
  - intros Ha. destruct (Hok n l adj Ha) as (? & ? & Hf & ?). split_and!; try done.
    eapply Forall_impl; [exact Hf|]. intros x Hx. apply has_level_snoc. by right.
Qed.

Section graph.
Context `{SortUnstable} `{BinaryHeap} `{Ln64}.

Lemma insert_one_ok k w row g :
  (0 < k)%nat -> graph_ok k g -> (0 < hg_ef_construction g)%nat -> (N.of_nat (length (hg_rows g)) < 2 ^ 32)%N -> walkable w (hg_rows g ++ [row]) ->
  exists g', insert_one w row g = Some g' /\ graph_ok k g' /\ same_tuning g g' /\ hg_rows g' = hg_rows g ++ [row].
Proof.
  intros Hk [Hlen Hok Hbase Hent] Hef Hn Hw. unfold insert_one. rewrite node_id_small by done.
  destruct (random_level _ _) as [rng level]. set (links := hg_links g ++ [replicate (level + 1) []]).
  assert (length links = length (hg_rows g ++ [row])) as Hlen' by (unfold links; rewrite !length_app; cbn; lia).
  assert (forall l n, has_level links l n <-> (n = length (hg_rows g) /\ (l <= level)%nat) \/ has_level (hg_links g) l n) as Hlev.
  { intros l n. unfold links. rewrite has_level_snoc. by rewrite Hlen. }
  destruct (hg_entry g) as [entry|] eqn:Ee.
  2:{ eexists. split; [reflexivity|]. split_and!; [|done|done]. split; cbn.
      - done.
      - apply links_ok_snoc. exact Hok.
      - intros n Hn'. apply Hlev. rewrite length_app in Hn'. cbn in Hn'. rewrite Hent in *. cbn in *. left. lia.
      - rewrite Hent in *. destruct (hg_links g); [|done]. split; [apply Hlev; left; cbn; lia|]. intros l n [[_ ?]|Hx%has_level_lt]%Hlev; [done|cbn in Hx; lia]. }
  destruct Hent as [Hentry Hmax].
  set (g0 := hg_set rng (hg_rows g ++ [row]) links (Some entry) (hg_max_level g) g).
  assert (forall r, r ∈ hg_rows g ++ [row] -> is_Some (score_rows w row r)) as Hs.
  { intros r Hr. apply Hw; [|done]. apply elem_of_app. right. left. }
  assert (has_level links (hg_max_level g) entry) as Hentry' by (apply Hlev; by right).
  assert (exists ep, descend (hg_rows g ++ [row]) (score_rows w row) links level (hg_max_level g - level) entry = Some ep /\
    has_level links (Nat.min level (hg_max_level g)) ep) as (ep & Ed & Hep).
  { destruct (Nat.le_gt_cases level (hg_max_level g)).
    - rewrite Nat.min_l by done. apply (descend_spec _ _ (fun _ l => k * cap_at g l)%nat); [by apply links_ok_snoc|done|done|].
      by replace (level + (hg_max_level g - level))%nat with (hg_max_level g) by lia.
    - replace (hg_max_level g - level)%nat with 0%nat by lia. exists entry. by rewrite Nat.min_r by lia. }
  change (hg_rows g0) with (hg_rows g ++ [row]). change (hg_links g0) with links. change (hg_max_level g0) with (hg_max_level g).
  rewrite Ed. cbn [mbind option_bind].
  destruct (insert_layers_spec w (score_rows w row) (fun l => k * cap_at g l)%nat (length (hg_rows g)) ep (Nat.min level (hg_max_level g)) g0 [ep]) as (g1 & -> & Hg1);
    [done| | |done|done|done| |done|by repeat constructor|].
  { intros l. change (cap_at g0 l) with (cap_at g l). nia. }
  { rewrite <- Hlen. by apply links_ok_fresh. }
  { apply Hlev. left. split; [done|lia]. }
  cbn [mbind option_bind]. destruct Hg1 as (l1 & -> & Hs1 & Ho1). cbn [hg_set_links hg_set hg_max_level hg_rng hg_rows hg_links].
  assert (forall l n, has_level l1 l n <-> (n = length (hg_rows g) /\ (l <= level)%nat) \/ has_level (hg_links g) l n) as Hlev1.
  { intros l n. rewrite <- Hlev. symmetry. apply (sl_has _ _ Hs1). }
  assert (forall n, (n < length (hg_rows g ++ [row]))%nat -> has_level l1 0 n) as Hbase1.
  { intros n. rewrite length_app. cbn. intros Hlt. apply Hlev1. destruct (decide (n = length (hg_rows g))); [left; lia|right; apply Hbase; lia]. }
  assert (length l1 = length (hg_rows g ++ [row])) as Hlen1 by (rewrite (sl_len _ _ Hs1); exact Hlen').
  change (hg_max_level g0) with (hg_max_level g). eexists. split; [reflexivity|].
  destruct (Nat.ltb_spec (hg_max_level g) level); (split; [split; cbn; try done|by repeat split]).
  - split; [apply Hlev1; by left|]. intros l n [[_ ?]|Hx%Hmax]%Hlev1; lia.
  - split; [apply Hlev1; by right|]. intros l n [[_ ?]|Hx%Hmax]%Hlev1; lia.
Qed.

Lemma insert_rows_ok k w rows : (0 < k)%nat -> forall g,
  graph_ok k g -> (0 < hg_ef_construction g)%nat -> (N.of_nat (length (hg_rows g ++ rows)) <= 2 ^ 32)%N -> walkable w (hg_rows g ++ rows) ->
  exists g', foldl (fun g row => g ← g; insert_one w row g) (Some g) rows = Some g' /\ graph_ok k g' /\ same_tuning g g' /\
    hg_rows g' = hg_rows g ++ rows.
Proof.
  intros Hk. induction rows as [|row rows IH]; intros g Hg Hef Hn Hw; [exists g; by rewrite app_nil_r|].
  cbn [foldl]. cbn [mbind option_bind]. rewrite length_app in Hn. cbn [length] in Hn.
  destruct (insert_one_ok k w row g Hk Hg Hef) as (g1 & -> & Hg1 & Ht1 & Hr1).
  - lia.
  - intros a b Ha Hb. apply Hw; set_solver.
  - destruct Ht1 as (T1 & T2 & T3 & T4 & T5).
    destruct (IH g1 Hg1) as (g2 & -> & Hg2 & (U1 & U2 & U3 & U4 & U5) & Hr2).
    + by rewrite T4.
    + rewrite Hr1, !length_app. cbn [length]. lia.
    + by rewrite Hr1, <- app_assoc.
    + exists g2. split_and!; [done|done| |by rewrite Hr2, Hr1, <- app_assoc]. unfold same_tuning. split_and!; congruence.
Qed.

(** ** Searching the graph *)

(** Node [y] can be reached from [x] along the bottom layer. *)
Definition edge (g : HnswGraph) (x y : nat) : Prop := exists adj, links_at (hg_links g) 0 x = Some adj /\ y ∈ adj.
Definition best_scores : nat * f32 -> nat * f32 -> comparison := best_first snd.

(** What a search of the graph answers. *)
Record answer_ok (qs : nat -> option f32) (g : HnswGraph) (n : nat) (hits : list (nat * f32)) : Prop := {
  an_len : (length hits <= n)%nat;
  an_some : (0 < n)%nat -> hg_rows g <> [] -> hits <> [];
  an_rows : Forall (fun h => h.1 ∈ hg_rows g /\ qs h.1 = Some h.2) hits;
  an_sorted : StronglySorted (cmp_le best_scores) hits;
  an_dup : NoDup (hg_rows g) -> NoDup (map fst hits);
  an_wide : (0 < n)%nat -> (length (hg_rows g) <= n)%nat -> hg_rows g <> [] ->
    exists ep, forall r, r ∈ map fst hits <-> exists node, rtc (edge g) ep node /\ hg_rows g !! node = Some r
}.

Lemma answer_nil qs g n : n = 0%nat \/ hg_rows g = [] -> answer_ok qs g n [].
Proof.
  intros Hor. split; [cbn; lia|destruct Hor; [lia|done]|apply Forall_nil_2|constructor|intros _; apply NoDup_nil_2|].
  intros. destruct Hor; [lia|done].
Qed.

Lemma answers_map (g : HnswGraph) (qs : nat -> option f32) n found :
  Forall (fun s => exists row, hg_rows g !! sd_node s = Some row /\ qs row = Some (sd_score s)) found ->
  NoDup (map sd_node found) -> StronglySorted (cmp_le (best_first sd_score)) found ->
  exists hits, mapM (fun s => (fun row => (row, sd_score s)) <$> hg_rows g !! sd_node s) (take n found) = Some hits /\
    hits = map (fun s => (default 0%nat (hg_rows g !! sd_node s), sd_score s)) (take n found) /\
    Forall (fun h => h.1 ∈ hg_rows g /\ qs h.1 = Some h.2) hits /\ StronglySorted (cmp_le best_scores) hits /\
    (NoDup (hg_rows g) -> NoDup (map fst hits)).
Proof.
  intros Hf Hd Hs. rewrite <- (take_drop n found) in Hf, Hd, Hs. apply Forall_app in Hf as [Hf _].
  rewrite map_app in Hd. apply NoDup_app in Hd as [Hd _]. apply StronglySorted_app in Hs as (_ & Hs & _).
  revert Hf Hd Hs. generalize (take n found). clear found n. intros l Hf Hd Hs.
  eexists. split_and!; [|reflexivity| | |].
  - induction Hf as [|s l (row & Hr & _) Hf IH]; [done|]. cbn. rewrite Hr. cbn.
    change (mapM (M := option) ?f l) with (mapM f l). rewrite IH; [done| |]; [by apply NoDup_cons in Hd as [_ ?]|by inversion Hs].
  - apply Forall_map. eapply Forall_impl; [exact Hf|]. intros s (row & Hr & Hq). cbn. rewrite Hr. cbn.
    split; [by eapply list_elem_of_lookup_2|done].
  - clear Hf Hd. induction Hs as [|s l Hs IH Hx]; [constructor|]. cbn. constructor; [done|].
    apply Forall_map. eapply Forall_impl; [exact Hx|]. done.
  - intros Hn. rewrite map_map. cbn. clear Hs. induction Hf as [|s l (row & Hr & _) Hf IH]; [constructor|]. cbn in *.
    apply NoDup_cons in Hd as [Hns Hd]. constructor; [|by apply IH]. rewrite Hr. cbn. intros (s' & E & Hs')%list_elem_of_fmap.
    rewrite Forall_forall in Hf. destruct (Hf s' Hs') as (row' & Hr' & _). rewrite Hr' in E. cbn in E. subst row'.
    apply Hns. rewrite (NoDup_lookup _ _ _ _ Hn Hr Hr'). by apply (list_elem_of_fmap_2 sd_node).
Qed.

Lemma hnsw_search_ok k w query n g : graph_ok k g -> (0 < hg_dim g)%nat ->
  (forall r, r ∈ hg_rows g -> is_Some (qs_score (query_scorer w query) r)) ->
  exists hits, hnsw_search w query n g = Some hits /\ answer_ok (qs_score (query_scorer w query)) g n hits.
Proof.
  intros [Hlen Hok Hbase Hent] Hd Hq. unfold hnsw_search. rewrite (proj2 (Nat.eqb_neq (hg_dim g) 0)) by lia. rewrite orb_false_r.
  destruct (Nat.eqb_spec n 0) as [->|Hn].
  { exists []. split; [done|]. apply answer_nil. by left. }
  destruct (hg_entry g) as [entry|]; [|exists []; split; [done|]; apply answer_nil; by right].
  destruct Hent as [He Hmax].
  destruct (descend_spec (hg_rows g) (hg_links g) (fun _ l => k * cap_at g l)%nat (qs_score (query_scorer w query)) 0 (hg_max_level g) Hok Hlen Hq entry He)
    as (ep & -> & Hep). cbn [mbind option_bind].
  set (P := fun x => has_level (hg_links g) 0 x /\ rtc (edge g) ep x).
  assert (forall x, P x -> exists adj, links_at (hg_links g) 0 x = Some adj /\ Forall P adj) as Hnbrs.
  { intros x [Hx Hr]. destruct (level_nbrs _ _ Hok 0 x Hx) as (adj & Ea & Hadj). exists adj. split; [done|].
    apply Forall_forall. intros y Hy. rewrite Forall_forall in Hadj. split; [by apply Hadj|]. eapply rtc_r; [exact Hr|]. by exists adj. }
  destruct (search_layer_spec (hg_rows g) (qs_score (query_scorer w query)) (links_at (hg_links g) 0) P
    (known_score (hg_rows g) (qs_score (query_scorer w query))) (fun x Hx => level_score _ _ Hlen _ Hq 0 x (proj1 Hx))
    (fun x Hx => level_row _ _ Hlen 0 x (proj1 Hx)) Hnbrs [ep] (Nat.max (hg_ef_search g) n))
    as (found & -> & [Hfn Hfd Hfs _] & Hne & Hwide); [lia|by repeat constructor|]. cbn [mbind option_bind].
  assert (Forall (fun s => exists row, hg_rows g !! sd_node s = Some row /\ qs_score (query_scorer w query) row = Some (sd_score s)) found) as Hrows.
  { eapply Forall_impl; [exact Hfn|]. intros s [[Hl _] Hs]. pose proof (level_score _ _ Hlen _ Hq 0 _ Hl) as Hsc.
    unfold node_score in Hsc. destruct (hg_rows g !! sd_node s) as [row|]; [|done]. exists row. split; [done|]. cbn in Hsc. by rewrite Hsc, Hs. }
  destruct (answers_map g (qs_score (query_scorer w query)) n found Hrows Hfd Hfs) as (hits & E & Eh & Ha & Hb & Hc).
  exists hits. split; [exact E|]. split; [|intros _ _|done..|].
  - rewrite Eh, length_map, length_take. lia.
  - rewrite Eh. destruct found as [|s found]; [by destruct Hne|]. by destruct n.
  - intros _ Hw _. exists ep. destruct Hwide as [Hin Hclosed]; [lia|].
    assert (forall x, x ∈ map sd_node found <-> rtc (edge g) ep x) as Hreach.
    { intros x. split.
      - intros (s & -> & Hs)%list_elem_of_fmap. rewrite Forall_forall in Hfn. by apply Hfn.
      - revert x. apply rtc_ind_r; [apply Hin; left|]. intros y z _ (adj & Ea & Hz) Hy. by apply (Hclosed y adj z). }
    assert (length found <= n)%nat as Hfl.
    { rewrite <- (length_map sd_node). etransitivity; [|exact Hw]. rewrite <- (length_seq (length (hg_rows g)) 0).
      apply submseteq_length, NoDup_submseteq; [done|]. intros x (s & -> & Hs)%list_elem_of_fmap.
      rewrite Forall_forall in Hfn. destruct (Hfn s Hs) as [[Hl _] _]. apply elem_of_seq.
      pose proof (level_row _ _ Hlen 0 _ Hl). lia. }
    rewrite Eh, take_ge by done. intros r. rewrite map_map. cbn. split.
    + intros (s & -> & Hs)%list_elem_of_fmap. exists (sd_node s). split; [apply Hreach; by apply (list_elem_of_fmap_2 sd_node)|].
      rewrite Forall_forall in Hrows. destruct (Hrows s Hs) as (row & -> & _). done.
    + intros (node & Hr & Hrow). apply Hreach in Hr as (s & -> & Hs)%list_elem_of_fmap.
      apply list_elem_of_fmap. exists s. by rewrite Hrow.
Qed.

Lemma hnsw_new_ok k cfg dim : graph_ok k (HnswGraph_new cfg dim).
Proof. split; cbn; [done| |lia|done]. intros n l adj. unfold adj_at. by rewrite lookup_nil. Qed.

(** C26: the graph index is well formed and searches of it are sound: inserting
    the rows one by one and more of them later always returns a graph that
    holds exactly those rows, whose links join distinct nodes on levels both
    have, within the degree of each level; and every search of it returns, the
    hits being rows of the graph with their scores, nearest first, none twice,
    none missing that can be reached when the search is as wide as the graph. *)
Theorem hnsw_build_search w cfg dim rows more :
  (0 < dim)%nat -> (N.of_nat (length (rows ++ more)) <= 2 ^ 32)%N -> walkable w (rows ++ more) ->
  exists g1 g, hnsw_insert_rows w rows (HnswGraph_new cfg dim) = Some g1 /\ hnsw_insert_rows w more g1 = Some g /\
    graph_ok 1 g /\ hg_rows g = rows ++ more /\
    forall query n, (forall r, r ∈ rows ++ more -> is_Some (qs_score (query_scorer w query) r)) ->
      exists hits, hnsw_search w query n g = Some hits /\ answer_ok (qs_score (query_scorer w query)) g n hits.
Proof.
  intros Hd Hn Hw. unfold hnsw_insert_rows. cbn [HnswGraph_new hg_dim]. rewrite (proj2 (Nat.eqb_neq dim 0)) by lia.
  destruct (insert_rows_ok 1 w rows ltac:(lia) (HnswGraph_new cfg dim) (hnsw_new_ok 1 cfg dim)) as (g1 & E1 & Hg1 & (T1 & T2 & T3 & T4 & T5) & Hr1).
  { cbn. lia. }
  { cbn. rewrite length_app in Hn. lia. }
  { intros a b Ha Hb. apply Hw; cbn in *; set_solver. }
  cbn in Hr1. destruct (insert_rows_ok 1 w more ltac:(lia) g1 Hg1) as (g & E2 & Hg & (U1 & _) & Hr).
  { rewrite T4. cbn. lia. }
  { by rewrite Hr1. }
  { by rewrite Hr1. }
  exists g1, g. rewrite Hr1 in Hr. split_and!; [done| |done|done|].
  - rewrite T1. cbn [HnswGraph_new hg_dim]. rewrite (proj2 (Nat.eqb_neq dim 0)) by lia. done.
  - intros query n Hq. apply (hnsw_search_ok 1); [done|rewrite U1, T1; done|by rewrite Hr].
Qed.
End graph.

(** A logarithm for the witnesses: the levels do not depend on it here. *)
#[local] Instance flat_ln : Ln64 := fun x => x.

Lemma hnsw_build_search_witness :
  exists g1 g, hnsw_insert_rows sample_walk [0; 1]%nat (HnswGraph_new AnnConfig_hnsw 1) = Some g1 /\
    hnsw_insert_rows sample_walk [2; 3]%nat g1 = Some g /\
    graph_ok 1 g /\ hg_rows g = [0; 1; 2; 3]%nat /\
    forall query n, (forall r, r ∈ [0; 1; 2; 3]%nat -> is_Some (qs_score (query_scorer sample_walk query) r)) ->
      exists hits, hnsw_search sample_walk query n g = Some hits /\ answer_ok (qs_score (query_scorer sample_walk query)) g n hits.
Proof.
  apply (hnsw_build_search sample_walk AnnConfig_hnsw 1 [0; 1]%nat [2; 3]%nat); [lia|done|].
  apply walkable_exact. repeat constructor; vm_compute; lia.
Defined.

(** The two nearest of the four rows, found through the graph. *)
Example hnsw_search_ex :
  (g ← hnsw_insert_rows sample_walk [0; 1; 2; 3]%nat (HnswGraph_new AnnConfig_hnsw 1);
   hnsw_search sample_walk [f32_one] 2 g) = Some [(3, f32_of_Z 7); (1, f32_of_Z 7)]%nat.
Proof. vm_compute. reflexivity. Qed.
