(* ===== verification/HnswPar.v ===== *)
(** * HnswPar: the concurrent build of the graph ([src/src/ann/hnsw.rs])

    Above [PARALLEL_BUILD_MIN] rows a build with several workers inserts the
    nodes concurrently, one mutex per node.  What a worker does to one node is
    a program: a tree of its accesses to the shared state.  A worker that makes
    an edge takes the mutexes of both ends one after the other, each in a step
    of its own, works under them, and gives them back; an access that takes one
    lock and no other while it holds it (the snapshot of a node's neighbours,
    the entry point) is one step.  The workers interleave in any order:
    [par_step] lets any of them take its next step.  A worker has no step while
    the mutex it asks for is held, by itself too; a step that would panic stops
    the worker and poisons what it holds. *)
From S2P Require Import Prelude Floats Model Sort TopK Std Manifest Segments Scoring Quant Ann IvfOk HnswWalk HnswOk.

Definition PARALLEL_BUILD_MIN : nat := 32 * 32.

(** ** The programs *)

(** The accesses to the shared state: the entry point under its lock, a
    snapshot of a node's neighbours, the lock and unlock of a node's mutex, an
    edge made and trimmed, the promotion of the entry point. *)
Inductive Prog :=
| PDone
| PPanic
| PEntry (k : nat * nat -> Prog)
| PNbrs (node level : nat) (k : list nat -> Prog)
| PLock (node : nat) (k : Prog)
| PEdge (node nbr level : nat) (k : Prog)
| PUnlock (node : nat) (k : Prog)
| PPromote (node level : nat) (k : Prog).

Section programs.
Context `{SortUnstable} `{BinaryHeap}.
Context (rows : list nat) (w : Walk) (levels : list nat) (m m_max0 ef_c : nat).

Definition par_cap (level : nat) : nat := if (level =? 0)%nat then m_max0 else m.

(** ** An edge

    What is done under both mutexes. *)

Definition push_adj (links : Links) (node level x : nat) : Links :=
  match adj_at links node level with
  | Some adj => if bool_decide (x ∈ adj) then links else alter <[level := adj ++ [x]]> node links
  | None => links
  end.
Definition edge_and_prune (links : Links) (node nbr level : nat) : option Links :=
  let links := push_adj (push_adj links node level nbr) nbr level node in
  match adj_at links nbr level with
  | None => Some links
  | Some adj =>
      if (par_cap level <? length adj)%nat then
        base ← rows !! nbr;
        scored ← mapM (fun x => row ← rows !! x; s ← score_rows w base row; Some {| sd_score := s; sd_node := x |}) adj;
        kept ← select_neighbors rows w (sort_unstable (best_first sd_score) scored) (par_cap level);
        Some (alter <[level := kept]> nbr links)
      else Some links
  end.

(** The mutexes are taken in the order of the nodes, and the guards dropped in
    the reverse order. *)
Definition link_and_prune (node nbr level : nat) (k : Prog) : Prog :=
  let a := Nat.min node nbr in
  let b := Nat.max node nbr in
  PLock a (PLock b (PEdge node nbr level (PUnlock b (PUnlock a k)))).

(** ** The walks, over snapshots *)

Section node.
Context (score : nat -> option f32).

Fixpoint greedy_locked (fuel level cur : nat) (cur_score : f32) (k : nat -> Prog) : Prog :=
  match fuel with
  | O => PPanic
  | S fuel =>
      PNbrs cur level (fun adj =>
        match hop rows score adj cur cur_score false with
        | None => PPanic
        | Some (cur, cur_score, improved) => if improved : bool then greedy_locked fuel level cur cur_score k else k cur
        end)
  end.
Definition greedy_descend_locked (level entry : nat) (k : nat -> Prog) : Prog :=
  match node_score rows score entry with
  | Some s => greedy_locked (S (length rows)) level entry s k
  | None => PPanic
  end.

Fixpoint beam_locked (fuel ef level : nat) (b : Beam) (k : Beam -> Prog) : Prog :=
  match fuel with
  | O => PPanic
  | S fuel =>
      match heap_take scored_cmp (bm_candidates b) with
      | None => k b
      | Some (cand, candidates) =>
          if (ef <=? length (bm_result b))%nat && f32_ltb (sd_score cand) (worst_of (bm_result b)) then k b
          else
            PNbrs (sd_node cand) level (fun adj =>
              match foldl (visit rows score ef) (Some {| bm_visited := bm_visited b; bm_candidates := candidates; bm_result := bm_result b |}) adj with
              | None => PPanic
              | Some b => beam_locked fuel ef level b k
              end)
      end
  end.
Definition search_layer_locked (eps : list nat) (ef level : nat) (k : list Scored -> Prog) : Prog :=
  match seed_beam rows score eps with
  | None => PPanic
  | Some b => beam_locked (S (length rows)) ef level b (fun b => k (sort_unstable (best_first sd_score) (bm_result b)))
  end.

Fixpoint descend_locked (level k ep : nat) (cont : nat -> Prog) : Prog :=
  match k with
  | O => cont ep
  | S k => greedy_descend_locked (level + S k) ep (fun ep => descend_locked level k ep cont)
  end.

Fixpoint link_all (node level : nat) (selected : list nat) (k : Prog) : Prog :=
  match selected with
  | [] => k
  | nbr :: selected =>
      if (nbr =? node)%nat then link_all node level selected k else link_and_prune node nbr level (link_all node level selected k)
  end.

Fixpoint layers_locked (node ep lc : nat) (eps : list nat) (k : Prog) : Prog :=
  search_layer_locked eps ef_c lc (fun found =>
    match select_neighbors rows w found (par_cap lc) with
    | None => PPanic
    | Some selected =>
        link_all node lc selected
          (match lc with
           | O => k
           | S lc =>
               let next := map sd_node found in
               layers_locked node ep lc (if bool_decide (next = []) then [ep] else next) k
           end)
    end).
End node.

Definition insert_locked (node : nat) : Prog :=
  match rows !! node, levels !! node with
  | Some node_row, Some node_level =>
      let score := score_rows w node_row in
      PEntry (fun e =>
        let '(ep, top) := e in
        descend_locked score node_level (top - node_level) ep (fun ep =>
          layers_locked score node ep (Nat.min node_level top) [ep]
            (if (top <? node_level)%nat then PPromote node node_level PDone else PDone)))
  | _, _ => PPanic
  end.

(** ** The workers *)

Inductive Thread := TIdle | TRun (node : nat) (p : Prog) | TExit | TPanicked.
(** A node's mutex; [Held t]: by the guard of worker [t]. *)
Inductive Lock := Free | Held (t : nat) | Poisoned.
Record ParState := { ps_links : Links; ps_locks : list Lock; ps_entry : nat * nat; ps_counter : nat; ps_threads : list Thread }.

(** A worker that panics drops its guards, which poisons their mutexes. *)
Definition poison (t : nat) (locks : list Lock) : list Lock :=
  map (fun l => match l with Held u => if (u =? t)%nat then Poisoned else l | _ => l end) locks.

(** The next step of worker [t]: the links, the mutexes, the entry, the counter,
    and itself.  [None]: it has ended, or waits for a mutex. *)
Definition thread_step (t : nat) (links : Links) (locks : list Lock) (entry : nat * nat) (counter : nat) (th : Thread)
  : option (Links * list Lock * (nat * nat) * nat * Thread) :=
  let panic := Some (links, poison t locks, entry, counter, TPanicked) in
  match th with
  | TIdle =>
      Some (links, locks, entry, S counter, if (length rows <=? counter)%nat then TExit else TRun counter (insert_locked counter))
  | TRun node PDone => Some (links, locks, entry, counter, TIdle)
  | TRun node PPanic => panic
  | TRun node (PEntry k) => Some (links, locks, entry, counter, TRun node (k entry))
  | TRun node (PNbrs x level k) =>
      match locks !! x, links !! x with
      | Some (Held _), _ => None
      | Some Free, Some lists => Some (links, locks, entry, counter, TRun node (k (default [] (lists !! level))))
      | _, _ => panic
      end
  | TRun node (PLock x k) =>
      match locks !! x with
      | Some (Held _) => None
      | Some Free => Some (links, <[x := Held t]> locks, entry, counter, TRun node k)
      | _ => panic
      end
  | TRun node (PEdge x nbr level k) =>
      match edge_and_prune links x nbr level with
      | Some links => Some (links, locks, entry, counter, TRun node k)
      | None => panic
      end
  | TRun node (PUnlock x k) => Some (links, <[x := Free]> locks, entry, counter, TRun node k)
  | TRun node (PPromote x level k) =>
      Some (links, locks, if (entry.2 <? level)%nat then (x, level) else entry, counter, TRun node k)
  | TExit | TPanicked => None
  end.

Definition par_next (i : nat) (s : ParState) : option ParState :=
  t ← ps_threads s !! i;
  '(links, locks, entry, counter, t) ← thread_step i (ps_links s) (ps_locks s) (ps_entry s) (ps_counter s) t;
  Some {| ps_links := links; ps_locks := locks; ps_entry := entry; ps_counter := counter; ps_threads := <[i := t]> (ps_threads s) |}.
Inductive par_step (s s' : ParState) : Prop := par_step_intro i : par_next i s = Some s' -> par_step s s'.

(** Node 0 is the seed. *)
Definition par_init (workers : nat) : ParState :=
  {| ps_links := map (fun l => replicate (l + 1) []) levels; ps_locks := map (fun _ => Free) levels; ps_entry := (0%nat, default 0%nat (levels !! 0%nat));
     ps_counter := 1; ps_threads := replicate workers TIdle |}.
End programs.

(** ** The build *)

Section build.
Context `{SortUnstable} `{BinaryHeap} `{Ln64}.

Fixpoint draw_levels (n : nat) (level_mult : f64) (rng : Z) : Z * list nat :=
  match n with
  | O => (rng, [])
  | S n =>
      let '(rng, l) := random_level level_mult rng in
      let '(rng, ls) := draw_levels n level_mult rng in
      (rng, l :: ls)
  end.

Definition par_graph (g : HnswGraph) (rng : Z) (live_rows : list nat) (s : ParState) : HnswGraph :=
  hg_set rng live_rows (ps_links s) (Some (ps_entry s).1) (ps_entry s).2 g.

(** A run in which [sched] says whose turn it is; a worker that has exited
    or waits passes. *)
Fixpoint run_schedule (rows : list nat) (w : Walk) (levels : list nat) (m m_max0 ef_c : nat) (sched : list nat) (s : ParState) : ParState :=
  match sched with
  | [] => s
  | t :: sched => run_schedule rows w levels m m_max0 ef_c sched (default s (par_next rows w levels m m_max0 ef_c t s))
  end.

Definition serial_path (live_rows : list nat) (workers : nat) (g : HnswGraph) : bool :=
  ((workers <=? 1) || (hg_dim g =? 0) || (length live_rows <? PARALLEL_BUILD_MIN))%nat.
Definition exited (t : Thread) : bool := match t with TExit => true | _ => false end.

(** The build under a schedule; [None]: a panic, or a schedule that ends before
    the workers do. *)
Definition hnsw_build_on (sched : list nat) (w : Walk) (live_rows : list nat) (workers : nat) (g : HnswGraph) : option HnswGraph :=
  if serial_path live_rows workers g then hnsw_insert_rows w live_rows (hnsw_clear g)
  else
    let '(rng, levels) := draw_levels (length live_rows) (hg_level_mult g) (hg_rng g) in
    let s := run_schedule live_rows w levels (hg_m g) (hg_m_max0 g) (hg_ef_construction g) sched (par_init levels workers) in
    if forallb exited (ps_threads s) then Some (par_graph g rng live_rows s) else None.

(** What a build may return: the one graph of the serial path, and on the
    concurrent one the graph of any run in which every worker exits. *)
Inductive hnsw_build (w : Walk) (live_rows : list nat) (workers : nat) (g : HnswGraph) : HnswGraph -> Prop :=
| build_serial g' :
    serial_path live_rows workers g = true ->
    hnsw_insert_rows w live_rows (hnsw_clear g) = Some g' -> hnsw_build w live_rows workers g g'
| build_parallel rng levels s :
    serial_path live_rows workers g = false ->
    draw_levels (length live_rows) (hg_level_mult g) (hg_rng g) = (rng, levels) ->
    rtc (par_step live_rows w levels (hg_m g) (hg_m_max0 g) (hg_ef_construction g)) (par_init levels workers) s ->
    Forall (fun t => t = TExit) (ps_threads s) ->
    hnsw_build w live_rows workers g (par_graph g rng live_rows s).

Lemma run_schedule_rtc rows w levels m m_max0 ef_c sched s :
  rtc (par_step rows w levels m m_max0 ef_c) s (run_schedule rows w levels m m_max0 ef_c sched s).
Proof.
  revert s. induction sched as [|t sched IH]; intros s; [done|]. cbn [run_schedule].
  destruct (par_next rows w levels m m_max0 ef_c t s) as [s1|] eqn:E; cbn; [|apply IH]. eapply rtc_l; [by exists t|apply IH].
Qed.
Lemma hnsw_build_on_build sched w live_rows workers g g' :
  hnsw_build_on sched w live_rows workers g = Some g' -> hnsw_build w live_rows workers g g'.
Proof.
  unfold hnsw_build_on. destruct (serial_path live_rows workers g) eqn:Es; [by apply build_serial|].
  destruct (draw_levels _ _ _) as [rng levels] eqn:El. cbn zeta. destruct (forallb exited _) eqn:Ex; [|done]. intros [= <-].
  eapply build_parallel; [done|done|apply run_schedule_rtc|]. apply Forall_forall. intros t Ht.
  rewrite forallb_forall in Ex. specialize (Ex t). rewrite <- list_elem_of_In in Ex. specialize (Ex Ht). by destruct t.
Qed.
End build.
