(* ===== verification/HnswParOk.v ===== *)
(** * HnswParOk: any interleaving builds a well-formed graph

    Each program asks only for what the shared state gives at any time: nodes
    of the level it reads, edges between distinct nodes of a level, as many
    as the degree allows ([prog_ok]).  So every step of every worker keeps
    the links well formed ([inv_step]).  And each program keeps to the lock
    order ([disc]): it asks for a mutex above those it holds, reads and waits
    for nodes with none, and makes an edge under both.  So of the workers that
    wait, the one that waits for the highest node waits for one that can move
    ([some_step]), and [hnsw_parallel_build] follows. *)
From S2P Require Import Prelude Floats Model Sort TopK Std Manifest Segments Scoring Quant Ann IvfOk HnswWalk HnswOk HnswPar.

Section parallel.
Context `{SortUnstable} `{BinaryHeap}.
Context (rows : list nat) (w : Walk) (levels : list nat) (m m_max0 ef_c : nat).
Context (Hw : walkable w rows) (Hlv : length levels = length rows) (Hef : (0 < ef_c)%nat).

Local Abbreviation cap := (par_cap m m_max0).

(** Node [x] has level [l]. *)
Definition lv (l x : nat) : Prop := exists top, levels !! x = Some top /\ (l <= top)%nat.
Lemma lv_lt l x : lv l x -> (x < length rows)%nat.
Proof. intros (top & E & _). rewrite <- Hlv. by eapply lookup_lt_Some. Qed.
Lemma lv_lower l l' x : lv l x -> (l' <= l)%nat -> lv l' x.
Proof. intros (top & E & Hl) Hle. exists top. split; [done|lia]. Qed.

(** ** What a program asks for *)

Definition spend (level : nat) (rem : nat -> nat) (l : nat) : nat := if (l =? level)%nat then (rem l - 1)%nat else rem l.
Definition top_of (i : nat) : nat := default 0%nat (levels !! i).

(** The program of node [i] may still make [rem l] edges at level [l]; [owes]
    until its level is known not to exceed the entry's. *)
Inductive prog_ok (i : nat) : (nat -> nat) -> bool -> Prog -> Prop :=
| ok_done rem : prog_ok i rem false PDone
| ok_entry rem owes k :
    (forall e top, levels !! e = Some top -> prog_ok i rem (top <? top_of i)%nat (k (e, top))) -> prog_ok i rem owes (PEntry k)
| ok_nbrs rem owes x level k :
    lv level x -> (forall adj, Forall (lv level) adj -> prog_ok i rem owes (k adj)) -> prog_ok i rem owes (PNbrs x level k)
| ok_lock rem owes x k : (x < length rows)%nat -> prog_ok i rem owes k -> prog_ok i rem owes (PLock x k)
| ok_edge rem owes nbr level k :
    nbr <> i -> lv level i -> lv level nbr -> (0 < rem level)%nat -> prog_ok i (spend level rem) owes k ->
    prog_ok i rem owes (PEdge i nbr level k)
| ok_unlock rem owes x k : prog_ok i rem owes k -> prog_ok i rem owes (PUnlock x k)
| ok_promote rem owes k : lv 0 i -> prog_ok i rem false k -> prog_ok i rem owes (PPromote i (top_of i) k).

Section node.
Context (i row : nat) (Hrow : rows !! i = Some row).
Local Abbreviation score := (score_rows w row).

Lemma row_score r : r ∈ rows -> is_Some (score r).
Proof. intros Hr. apply Hw; [by eapply list_elem_of_lookup_2|done]. Qed.
Lemma lv_score l n : lv l n -> node_score rows score n = Some (known_score rows score n).
Proof.
  intros Hn%lv_lt. unfold known_score. destruct (in_rows_some rows n Hn) as (r & E & Hr).
  unfold node_score. rewrite E. cbn. by destruct (row_score r Hr) as [s ->].
Qed.

Lemma greedy_locked_ok rem owes level k : (forall r, lv level r -> prog_ok i rem owes (k r)) ->
  forall fuel cur, lv level cur -> (above rows (known_score rows score) cur < fuel)%nat ->
  prog_ok i rem owes (greedy_locked rows score fuel level cur (known_score rows score cur) k).
Proof.
  intros Hk. induction fuel as [|fuel IH]; intros cur Hc Hf; [lia|]. cbn [greedy_locked]. apply ok_nbrs; [done|]. intros adj Hadj.
  destruct (hop_spec rows score (lv level) (known_score rows score) (lv_score level) adj Hadj cur false Hc) as (c & im & -> & Hc' & Hor).
  destruct Hor as [(-> & -> & _)|[-> Hlt]]; [by apply Hk|]. apply IH; [done|].
  pose proof (above_lt rows (lv level) (known_score rows score) (lv_lt level) cur c Hc' Hlt). lia.
Qed.
Lemma greedy_descend_ok rem owes level ep k : (forall r, lv level r -> prog_ok i rem owes (k r)) -> lv level ep ->
  prog_ok i rem owes (greedy_descend_locked rows score level ep k).
Proof.
  intros Hk Hep. unfold greedy_descend_locked. rewrite (lv_score level ep Hep). apply greedy_locked_ok; [done|done|].
  unfold above. pose proof (filter_length_le (fun n => f32_ltb (known_score rows score ep) (known_score rows score n)) (seq 0 (length rows))) as Hl.
  rewrite length_seq in Hl. lia.
Qed.

Lemma descend_ok rem owes level k cont : (forall r, lv level r -> prog_ok i rem owes (cont r)) ->
  forall ep, lv (level + k) ep -> prog_ok i rem owes (descend_locked rows score level k ep cont).
Proof.
  intros Hc. induction k as [|k IH]; intros ep Hep; cbn [descend_locked]; [apply Hc; by rewrite Nat.add_0_r in Hep|].
  apply greedy_descend_ok; [|done]. intros r Hr. apply IH. eapply lv_lower; [exact Hr|lia].
Qed.

Local Abbreviation bok level := (beam_ok rows (lv level) (known_score rows score)).

Lemma beam_locked_ok rem owes level k : (forall b, bok level b -> prog_ok i rem owes (k b)) ->
  forall fuel b, bok level b -> (todo b < fuel)%nat -> prog_ok i rem owes (beam_locked rows score fuel ef_c level b k).
Proof.
  intros Hk. induction fuel as [|fuel IH]; intros b Hb Hf; [lia|]. cbn [beam_locked].
  destruct (heap_take scored_cmp (bm_candidates b)) as [[cand cands]|] eqn:Et; [|by apply Hk].
  destruct (_ && _); [by apply Hk|]. apply heap_take_some in Et as [Hp _]; [|apply _].
  pose proof Hb as [Hl Hc Hr Hd]. rewrite Hp in Hc. apply Forall_cons in Hc as [[[Hcp _] _] Hc].
  apply ok_nbrs; [done|]. intros adj Hadj.
  set (b1 := {| bm_visited := bm_visited b; bm_candidates := cands; bm_result := bm_result b |}).
  assert (bok level b1) as Hb1 by (by split).
  assert (S (todo b1) = todo b) as Ht1 by (unfold todo, b1; cbn [bm_visited bm_candidates]; rewrite Hp; cbn [length]; lia).
  destruct (visits_spec rows score (lv level) (known_score rows score) (lv_score level) (lv_lt level) ef_c adj Hef Hadj b1 Hb1)
    as (b2 & -> & Hb2 & Ht2 & _). apply IH; [done|lia].
Qed.

Lemma search_locked_ok rem owes level eps k :
  (forall found, Forall (fun s => lv level (sd_node s)) found -> NoDup (map sd_node found) -> prog_ok i rem owes (k found)) ->
  Forall (lv level) eps -> prog_ok i rem owes (search_layer_locked rows score eps ef_c level k).
Proof.
  intros Hk Heps. unfold search_layer_locked.
  destruct (seed_spec rows score (lv level) (known_score rows score) (lv_score level) (lv_lt level) eps Heps) as (b & -> & Hb & Ht & _).
  apply beam_locked_ok; [|done|lia]. intros b' [_ _ Hr Hd]. apply Hk.
  - rewrite sort_unstable_perm. eapply Forall_impl; [exact Hr|]. by intros s [[? _] _].
  - by rewrite sort_unstable_perm.
Qed.

Lemma link_all_ok owes level sel k : lv level i -> Forall (lv level) sel -> forall rem, (length sel <= rem level)%nat ->
  (forall rem', (forall l, l <> level -> rem' l = rem l) -> prog_ok i rem' owes k) ->
  prog_ok i rem owes (link_all i level sel k).
Proof.
  intros Hi. induction 1 as [|nbr sel Hn Hsel IH]; intros rem Hr Hk; cbn [link_all]; [by apply Hk|]. cbn in Hr.
  destruct (Nat.eqb_spec nbr i); [apply IH; [lia|done]|]. unfold link_and_prune. pose proof (lv_lt _ _ Hi). pose proof (lv_lt _ _ Hn).
  do 2 (apply ok_lock; [lia|]). apply ok_edge; [done|done|done|lia|]. do 2 apply ok_unlock. apply IH.
  - unfold spend. rewrite Nat.eqb_refl. lia.
  - intros rem' Hr'. apply Hk. intros l Hl. rewrite Hr' by done. unfold spend. by rewrite (proj2 (Nat.eqb_neq _ _)).
Qed.

Lemma select_lv found l c : Forall (fun s => lv l (sd_node s)) found -> NoDup (map sd_node found) ->
  exists sel, select_neighbors rows w found c = Some sel /\ Forall (lv l) sel /\ (length sel <= c)%nat.
Proof.
  intros Hf Hd. destruct (select_neighbors_spec rows w Hw c found) as (sel & E & [Hsi _ Hsl]); [|done|].
  { eapply Forall_impl; [exact Hf|]. intros s Hs. exact (lv_lt _ _ Hs). }
  exists sel. split_and!; [done| |done]. apply Forall_forall. intros x Hx. rewrite Forall_forall in Hsi.
  apply Hsi in Hx. apply list_elem_of_fmap in Hx as (s & -> & Hs). rewrite Forall_forall in Hf. by apply Hf.
Qed.

Lemma layers_ok owes ep k : lv 0 i -> lv 0 ep -> (forall rem, prog_ok i rem owes k) -> forall lc eps rem,
  lv lc i -> lv lc ep -> Forall (lv lc) eps -> (forall l, (l <= lc)%nat -> cap l <= rem l)%nat ->
  prog_ok i rem owes (layers_locked rows w m m_max0 ef_c score i ep lc eps k).
Proof.
  intros Hi0 Hep0 Hk. induction lc as [|lc IH]; intros eps rem Hi Hep Heps Hrem; cbn [layers_locked];
    (apply search_locked_ok; [|done]); intros found Hf Hd.
  - destruct (select_lv found 0 (cap 0) Hf Hd) as (sel & -> & Hs & Hsl). specialize (Hrem 0%nat (le_n _)).
    apply link_all_ok; [done|done|lia|]. intros rem' _. apply Hk.
  - destruct (select_lv found (S lc) (cap (S lc)) Hf Hd) as (sel & -> & Hs & Hsl). pose proof (Hrem (S lc) (le_n _)).
    apply link_all_ok; [done|done|lia|]. intros rem' Hr'. apply IH.
    + eapply lv_lower; [exact Hi|lia].
    + eapply lv_lower; [exact Hep|lia].
    + case_bool_decide; [constructor; [eapply lv_lower; [exact Hep|lia]|constructor]|].
      apply Forall_forall. intros x (s & -> & Hx)%list_elem_of_fmap. rewrite Forall_forall in Hf.
      eapply lv_lower; [by apply Hf|lia].
    + intros l Hl. rewrite Hr' by lia. apply Hrem. lia.
Qed.
End node.

Lemma insert_locked_ok i : (i < length rows)%nat -> prog_ok i cap true (insert_locked rows w levels m m_max0 ef_c i).
Proof.
  intros Hi. unfold insert_locked. destruct (lookup_lt_is_Some_2 rows i Hi) as [row Hrow]. rewrite Hrow.
  destruct (lookup_lt_is_Some_2 levels i) as [top Htop]; [by rewrite Hlv|]. rewrite Htop.
  apply ok_entry. intros e etop He. assert (top_of i = top) as Et by (unfold top_of; by rewrite Htop). rewrite Et.
  assert (forall l, (l <= top)%nat -> lv l i) as Hli by (intros l Hl; exists top; done).
  assert (forall owes cont, (forall r, lv (Nat.min top etop) r -> prog_ok i cap owes (cont r)) ->
    prog_ok i cap owes (descend_locked rows (score_rows w row) top (etop - top) e cont)) as Hdesc.
  { intros owes cont Hc. destruct (Nat.le_gt_cases top etop).
    - rewrite Nat.min_l in Hc by done. apply (descend_ok i row Hrow); [done|]. exists etop. split; [done|lia].
    - replace (etop - top)%nat with 0%nat by lia. apply Hc. rewrite Nat.min_r by lia. by exists etop. }
  apply Hdesc. intros r Hr. apply (layers_ok i row Hrow).
  - apply Hli. lia.
  - eapply lv_lower; [exact Hr|lia].
  - intros rem. destruct (etop <? top)%nat; [|constructor]. rewrite <- Et. constructor; [apply Hli; lia|constructor].
  - apply Hli. lia.
  - done.
  - by repeat constructor.
  - done.
Qed.

(** ** An edge *)

Lemma push_spec bound links node level x : links_ok bound links -> node <> x -> has_level links level node -> has_level links level x ->
  same_levels links (push_adj links node level x) /\ links_ok (bump node level bound) (push_adj links node level x).
Proof.
  intros Hok Hne [adj Ha] Hx. unfold push_adj. rewrite Ha. case_bool_decide.
  - split; [apply same_levels_refl|]. eapply links_ok_le; [exact Hok|]. intros. apply bump_le.
  - split; [apply alter_levels|by apply links_ok_push].
Qed.

Lemma edge_spec bound links i nbr level :
  links_ok bound links -> length links = length rows -> i <> nbr -> has_level links level i -> has_level links level nbr ->
  exists links', edge_and_prune rows w m m_max0 links i nbr level = Some links' /\ same_levels links links' /\
    links_ok (trim nbr level (cap level) (bump nbr level (bump i level bound))) links'.
Proof.
  intros Hok Hlen Hne Hi Hn. unfold edge_and_prune.
  destruct (push_spec bound links i level nbr Hok Hne Hi Hn) as [Hs1 Ho1]. set (l1 := push_adj links i level nbr) in *.
  destruct (push_spec (bump i level bound) l1 nbr level i Ho1) as [Hs2 Ho2]; [done|by apply (sl_has _ _ Hs1)|by apply (sl_has _ _ Hs1)|].
  set (l2 := push_adj l1 nbr level i) in *. pose proof (same_levels_trans _ _ _ Hs1 Hs2) as Hs12.
  destruct (proj1 (sl_has _ _ Hs12 level nbr) Hn) as [adj Ha]. rewrite Ha.
  destruct (Nat.ltb_spec (cap level) (length adj)) as [Hc|Hc].
  - destruct (lookup_lt_is_Some_2 rows nbr) as [base Eb]; [rewrite <- Hlen; by eapply has_level_lt|]. rewrite Eb. cbn [mbind option_bind].
    destruct (Ho2 _ _ _ Ha) as (Hd & _ & Hl & _).
    destruct (kept_spec w rows l2 level adj nbr base (cap level) Hw) as (sc & kept & -> & Ek & K1 & K2 & K3);
      [by rewrite (sl_len _ _ Hs12)|done|done|done|].
    cbn [mbind option_bind]. rewrite Ek. cbn [mbind option_bind]. eexists. split_and!; [reflexivity| |by eapply links_ok_trim].
    eapply same_levels_trans; [exact Hs12|apply alter_levels].
  - exists l2. split_and!; [done|done|by eapply links_ok_short].
Qed.

(** ** The invariant *)

(** Node [n] has at most twice its degree in neighbours, less the edges its own
    program may still make. *)
Definition degree (rem : nat -> nat -> nat) (n l : nat) : nat := (2 * cap l - rem n l)%nat.

Record inv (links : Links) (entry : nat * nat) (counter : nat) (ths : list Thread) (rem : nat -> nat -> nat) : Prop := {
  in_len : length links = length rows;
  in_lv l x : has_level links l x <-> lv l x;
  in_links : links_ok (degree rem) links;
  in_rem n l : (rem n l <= cap l)%nat;
  in_fresh n l : (counter <= n)%nat -> rem n l = cap l;
  in_entry : levels !! entry.1 = Some entry.2;
  in_run t i p : ths !! t = Some (TRun i p) ->
    (i < counter)%nat /\ exists owes, prog_ok i (rem i) owes p /\ (owes = false -> (top_of i <= entry.2)%nat);
  in_once t t' i p p' : ths !! t = Some (TRun i p) -> ths !! t' = Some (TRun i p') -> t = t';
  in_alive t : ths !! t <> Some TPanicked;
  in_done i : (i < counter)%nat -> (i < length rows)%nat ->
    (exists t p, ths !! t = Some (TRun i p)) \/ (top_of i <= entry.2)%nat
}.

Lemma run_lookup {A} (ths : list A) t u t0 x : ths !! t = Some t0 -> <[t := x]> ths !! u = if (u =? t)%nat then Some x else ths !! u.
Proof.
  intros Ht. destruct (Nat.eqb_spec u t) as [->|]; [apply list_lookup_insert_eq; by eapply lookup_lt_Some|by apply list_lookup_insert_ne].
Qed.

Lemma inv_run links entry counter ths rem links' entry' rem' t i p p' owes :
  inv links entry counter ths rem -> ths !! t = Some (TRun i p) ->
  (forall n, n <> i -> rem' n = rem n) -> (forall n l, rem' n l <= cap l)%nat ->
  length links' = length rows -> (forall l x, has_level links' l x <-> lv l x) -> links_ok (degree rem') links' ->
  levels !! entry'.1 = Some entry'.2 -> (entry.2 <= entry'.2)%nat ->
  prog_ok i (rem' i) owes p' -> (owes = false -> (top_of i <= entry'.2)%nat) ->
  inv links' entry' counter (<[t := TRun i p']> ths) rem'.
Proof.
  intros [] Ht Hrem Hcap Hl Hlv' Hok He Hle Hp Ho. pose proof (run_lookup ths t) as Hu. destruct (in_run0 _ _ _ Ht) as [Hic _]. split; try done.
  - intros n l Hn. rewrite Hrem by lia. by apply in_fresh0.
  - intros u j q. rewrite (Hu u _ _ Ht). destruct (Nat.eqb_spec u t) as [->|Hut].
    + intros [= <- <-]. split; [done|]. by exists owes.
    + intros Hq. destruct (in_run0 _ _ _ Hq) as (Hj & ow & Hpj & Hoj). split; [done|]. exists ow.
      assert (j <> i) as Hji by (intros ->; apply Hut; by eapply in_once0). rewrite Hrem by done. split; [done|]. intros Hf. specialize (Hoj Hf). lia.
  - intros u v j q q'. rewrite !(Hu _ _ _ Ht). destruct (Nat.eqb_spec u t) as [->|], (Nat.eqb_spec v t) as [->|]; try done.
    + intros [= <- <-] Hq. by eapply in_once0.
    + intros Hq [= <- <-]. by eapply in_once0.
    + by apply in_once0.
  - intros u. rewrite (Hu u _ _ Ht). destruct (u =? t)%nat; [done|apply in_alive0].
  - intros j Hj Hjr. destruct (in_done0 j Hj Hjr) as [(u & q & Hq)|]; [|right; lia]. left.
    destruct (decide (u = t)) as [->|Hut].
    + rewrite Ht in Hq. injection Hq as <- <-. exists t, p'. rewrite (Hu t _ _ Ht). by rewrite Nat.eqb_refl.
    + exists u, q. rewrite (Hu u _ _ Ht). by rewrite (proj2 (Nat.eqb_neq _ _)).
Qed.

(** A worker that stops running: it goes idle after its node, or exits. *)
Lemma inv_stop links entry counter ths rem t t0 t1 :
  inv links entry counter ths rem -> ths !! t = Some t0 -> (t1 = TIdle \/ t1 = TExit) ->
  (forall i p, t0 = TRun i p -> (top_of i <= entry.2)%nat) -> inv links entry counter (<[t := t1]> ths) rem.
Proof.
  intros [] Ht Ht1 Hdone. pose proof (run_lookup ths t) as Hu.
  assert (forall u j q, <[t := t1]> ths !! u = Some (TRun j q) -> u <> t /\ ths !! u = Some (TRun j q)) as Hrun.
  { intros u j q. rewrite (Hu u _ _ Ht). destruct (Nat.eqb_spec u t); [destruct Ht1 as [-> | ->]; done|done]. }
  split; try done.
  - intros u j q [_ Hq]%Hrun. by apply in_run0 in Hq.
  - intros u v j q q' [_ Hq]%Hrun [_ Hq']%Hrun. by eapply in_once0.
  - intros u. rewrite (Hu u _ _ Ht). destruct (u =? t)%nat; [destruct Ht1 as [-> | ->]; done|apply in_alive0].
  - intros j Hj Hjr. destruct (in_done0 j Hj Hjr) as [(u & q & Hq)|]; [|by right].
    destruct (decide (u = t)) as [->|Hut]; [|left; exists u, q; rewrite (Hu u _ _ Ht); by rewrite (proj2 (Nat.eqb_neq _ _))].
    right. rewrite Ht in Hq. injection Hq as ->. by eapply Hdone.
Qed.

Lemma inv_counter links entry counter ths rem : (length rows <= counter)%nat ->
  inv links entry counter ths rem -> inv links entry (S counter) ths rem.
Proof.
  intros Hc []. split; try done.
  - intros n l Hn. apply in_fresh0. lia.
  - intros t i p Hp. destruct (in_run0 t i p Hp) as (Hi & ow & Hw'). split; [lia|]. by exists ow.
  - intros i Hi Hir. apply in_done0; lia.
Qed.

(** An idle worker takes the next node. *)
Lemma inv_take links entry counter ths rem t : (counter < length rows)%nat ->
  inv links entry counter ths rem -> ths !! t = Some TIdle ->
  inv links entry (S counter) (<[t := TRun counter (insert_locked rows w levels m m_max0 ef_c counter)]> ths)
    (fun n => if (n =? counter)%nat then cap else rem n).
Proof.
  intros Hc [] Ht. pose proof (run_lookup ths t) as Hu.
  assert (forall u p, ths !! u <> Some (TRun counter p)) as Hnew by (intros u p Hp; destruct (in_run0 _ _ _ Hp); lia).
  assert (forall n l, (if (n =? counter)%nat then cap else rem n) l = rem n l) as Hsame.
  { intros n l. destruct (Nat.eqb_spec n counter) as [->|]; [symmetry; by apply in_fresh0|done]. }
  split; try done.
  - eapply links_ok_le; [exact in_links0|]. intros n l. unfold degree. by rewrite Hsame.
  - intros n l. rewrite Hsame. apply in_rem0.
  - intros n l Hn. rewrite Hsame. apply in_fresh0. lia.
  - intros u j q. rewrite (Hu u _ _ Ht). destruct (Nat.eqb_spec u t) as [->|Hut].
    + intros [= <- <-]. split; [lia|]. exists true. rewrite Nat.eqb_refl. split; [by apply insert_locked_ok|done].
    + intros Hq. destruct (in_run0 _ _ _ Hq) as (Hj & ow & Hpj). split; [lia|]. exists ow. by rewrite (proj2 (Nat.eqb_neq j counter)) by lia.
  - intros u v j q q'. rewrite !(Hu _ _ _ Ht). destruct (Nat.eqb_spec u t) as [->|], (Nat.eqb_spec v t) as [->|]; try done.
    + intros [= <- <-] Hq. by apply Hnew in Hq.
    + intros Hq [= <- <-]. by apply Hnew in Hq.
    + by apply in_once0.
  - intros u. rewrite (Hu u _ _ Ht). destruct (u =? t)%nat; [done|apply in_alive0].
  - intros j Hj Hjr. destruct (decide (j = counter)) as [->|].
    + left. exists t. eexists. rewrite (Hu t _ _ Ht). by rewrite Nat.eqb_refl.
    + destruct (in_done0 j ltac:(lia) Hjr) as [(u & q & Hq)|]; [|by right]. left. exists u, q. rewrite (Hu u _ _ Ht).
      destruct (Nat.eqb_spec u t) as [->|]; [congruence|done].
Qed.

(** ** The lock order *)

(** What may be asked for with the guards [held], the last taken first. *)
Inductive disc : list nat -> Prog -> Prop :=
| disc_done : disc [] PDone
| disc_panic : disc [] PPanic
| disc_entry k : (forall e, disc [] (k e)) -> disc [] (PEntry k)
| disc_nbrs x level k : (forall adj, disc [] (k adj)) -> disc [] (PNbrs x level k)
| disc_lock held x k : Forall (fun y => y < x)%nat held -> disc (x :: held) k -> disc held (PLock x k)
| disc_edge held x nbr level k : x ∈ held -> nbr ∈ held -> disc held k -> disc held (PEdge x nbr level k)
| disc_unlock held x k : disc held k -> disc (x :: held) (PUnlock x k)
| disc_promote x level k : disc [] k -> disc [] (PPromote x level k).

Lemma link_disc node nbr level k : node <> nbr -> disc [] k -> disc [] (link_and_prune node nbr level k).
Proof.
  intros Hne Hk. unfold link_and_prune. apply disc_lock; [constructor|]. apply disc_lock; [constructor; [lia|constructor]|].
  apply disc_edge; [..|by do 2 apply disc_unlock]; rewrite !elem_of_cons; lia.
Qed.
Lemma greedy_disc score level k : (forall r, disc [] (k r)) ->
  forall fuel cur s, disc [] (greedy_locked rows score fuel level cur s k).
Proof.
  intros Hk. induction fuel as [|fuel IH]; intros cur s; cbn; [constructor|]. constructor. intros adj.
  destruct (hop _ _ _ _ _ _) as [[[c s'] im]|]; [|constructor]. destruct im; [apply IH|apply Hk].
Qed.
Lemma descend_disc score level k cont : (forall r, disc [] (cont r)) -> forall ep, disc [] (descend_locked rows score level k ep cont).
Proof.
  intros Hc. induction k as [|k IH]; intros ep; cbn; [apply Hc|]. unfold greedy_descend_locked.
  destruct (node_score _ _ _); [by apply greedy_disc|constructor].
Qed.
Lemma beam_disc score ef level k : (forall b, disc [] (k b)) -> forall fuel b, disc [] (beam_locked rows score fuel ef level b k).
Proof.
  intros Hk. induction fuel as [|fuel IH]; intros b; cbn; [constructor|]. destruct (heap_take _ _) as [[cand cands]|]; [|apply Hk].
  destruct (_ && _); [apply Hk|]. constructor. intros adj. destruct (foldl _ _ _); [apply IH|constructor].
Qed.
Lemma link_all_disc node level sel k : disc [] k -> disc [] (link_all node level sel k).
Proof.
  intros Hk. induction sel as [|nbr sel IH]; cbn; [done|]. destruct (Nat.eqb_spec nbr node); [done|]. by apply link_disc.
Qed.
Lemma layers_disc score node ep k : disc [] k -> forall lc eps, disc [] (layers_locked rows w m m_max0 ef_c score node ep lc eps k).
Proof.
  intros Hk. induction lc as [|lc IH]; intros eps; cbn [layers_locked]; unfold search_layer_locked;
    (destruct (seed_beam _ _ _); [|constructor]); apply beam_disc; intros b2;
    (destruct (select_neighbors _ _ _ _); [|constructor]); by apply link_all_disc.
Qed.
Lemma insert_locked_disc i : disc [] (insert_locked rows w levels m m_max0 ef_c i).
Proof.
  unfold insert_locked. destruct (rows !! i); [|constructor]. destruct (levels !! i); [|constructor].
  constructor. intros [ep top]. apply descend_disc. intros r. apply layers_disc.
  destruct (_ <? _)%nat; repeat constructor.
Qed.

(** [held t]: the guards of worker [t]. *)
Record lock_inv (locks : list Lock) (ths : list Thread) (held : nat -> list nat) : Prop := {
  li_len : length locks = length rows;
  li_run t i p : ths !! t = Some (TRun i p) -> disc (held t) p;
  li_rest t : (forall i p, ths !! t <> Some (TRun i p)) -> held t = [];
  li_held t x : (x < length rows)%nat -> locks !! x = Some (Held t) <-> x ∈ held t;
  li_clean x : locks !! x <> Some Poisoned;
  li_nodup t : NoDup (held t)
}.

Definition inv_of (s : ParState) : Prop :=
  (exists rem, inv (ps_links s) (ps_entry s) (ps_counter s) (ps_threads s) rem) /\
  exists held, lock_inv (ps_locks s) (ps_threads s) held.

Local Abbreviation step := (par_step rows w levels m m_max0 ef_c).

(** A step of worker [t] that touches no mutex. *)
Lemma lock_same locks ths held t t0 t1 : lock_inv locks ths held -> ths !! t = Some t0 ->
  match t1 with TRun _ p => disc (held t) p | _ => held t = [] end -> lock_inv locks (<[t := t1]> ths) held.
Proof.
  intros [] Ht H1. pose proof (run_lookup ths t) as Hu. split; try done.
  - intros u i p. rewrite (Hu u _ _ Ht). destruct (Nat.eqb_spec u t) as [->|]; [by intros [= ->]|apply li_run0].
  - intros u. rewrite (Hu u _ _ Ht). destruct (Nat.eqb_spec u t) as [->|]; [|apply li_rest0].
    intros Hn. destruct t1; try done. by destruct (Hn node p).
Qed.

(** One that takes a free mutex, and one that gives one back. *)
Lemma lock_take locks ths held t i x k : lock_inv locks ths held -> ths !! t = Some (TRun i (PLock x k)) ->
  locks !! x = Some Free ->
  lock_inv (<[x := Held t]> locks) (<[t := TRun i k]> ths) (fun u => if (u =? t)%nat then x :: held t else held u).
Proof.
  intros [] Ht Hx. pose proof (run_lookup ths t) as Hu. pose proof (run_lookup locks x) as Hl. pose proof (lookup_lt_Some _ _ _ Hx) as Hxl.
  rewrite li_len0 in Hxl. assert (forall u, x ∉ held u) as Hfree by (intros u Hin; apply li_held0 in Hin; [congruence|done]). split.
  - by rewrite length_insert.
  - intros u j p. rewrite (Hu u _ _ Ht). destruct (Nat.eqb_spec u t) as [->|]; [|apply li_run0].
    intros [= <- <-]. specialize (li_run0 _ _ _ Ht). by inversion li_run0.
  - intros u. rewrite (Hu u _ _ Ht). destruct (Nat.eqb_spec u t) as [->|]; [|apply li_rest0]. intros Hn. by destruct (Hn i k).
  - intros u y Hy. rewrite (Hl y _ _ Hx). destruct (Nat.eqb_spec y x) as [->|Hyx], (Nat.eqb_spec u t) as [->|Hut].
    + rewrite elem_of_cons. naive_solver.
    + split; [intros [= ->]; done|]. by intros ?%Hfree.
    + rewrite li_held0 by done. rewrite elem_of_cons. naive_solver.
    + by apply li_held0.
  - intros y. rewrite (Hl y _ _ Hx). destruct (y =? x)%nat; [done|apply li_clean0].
  - intros u. destruct (u =? t)%nat; [|apply li_nodup0]. constructor; [apply Hfree|apply li_nodup0].
Qed.
Lemma lock_give locks ths held t i x k hs : lock_inv locks ths held -> ths !! t = Some (TRun i (PUnlock x k)) ->
  held t = x :: hs -> disc hs k ->
  lock_inv (<[x := Free]> locks) (<[t := TRun i k]> ths) (fun u => if (u =? t)%nat then hs else held u).
Proof.
  intros [] Ht Eh Hk. pose proof (run_lookup ths t) as Hu. pose proof (li_nodup0 t) as Hnd. rewrite Eh in Hnd. apply NoDup_cons in Hnd as [Hxs Hnd].
  assert (forall y, <[x := Free]> locks !! y = if (y =? x)%nat then (if (y <? length rows)%nat then Some Free else None) else locks !! y) as Hl.
  { intros y. destruct (Nat.eqb_spec y x) as [->|]; [|by apply list_lookup_insert_ne]. destruct (Nat.ltb_spec x (length rows)).
    - apply list_lookup_insert_eq. by rewrite li_len0.
    - apply lookup_ge_None_2. rewrite length_insert. lia. }
  split.
  - by rewrite length_insert.
  - intros u j p. rewrite (Hu u _ _ Ht). destruct (Nat.eqb_spec u t) as [->|]; [by intros [= <- <-]|apply li_run0].
  - intros u. rewrite (Hu u _ _ Ht). destruct (Nat.eqb_spec u t) as [->|]; [|apply li_rest0]. intros Hn. by destruct (Hn i k).
  - intros u y Hy. rewrite Hl. destruct (Nat.eqb_spec y x) as [->|Hyx].
    + rewrite (proj2 (Nat.ltb_lt _ _)) by done. split; [done|]. destruct (Nat.eqb_spec u t) as [->|Hut]; [done|].
      intros Hin. apply li_held0 in Hin; [|done]. assert (locks !! x = Some (Held t)) by (apply li_held0; [done|]; rewrite Eh; constructor). congruence.
    + rewrite li_held0 by done. destruct (Nat.eqb_spec u t) as [->|]; [|done]. rewrite Eh, elem_of_cons. naive_solver.
  - intros y. rewrite Hl. destruct (y =? x)%nat; [by destruct (_ <? _)%nat|apply li_clean0].
  - intros u. by destruct (u =? t)%nat.
Qed.

Lemma in_adj links entry counter ths rem l x lists : inv links entry counter ths rem -> links !! x = Some lists ->
  Forall (lv l) (default [] (lists !! l)).
Proof.
  intros Hi Hx. destruct (lists !! l) as [adj|] eqn:E; [|constructor]. cbn.
  destruct (in_links _ _ _ _ _ Hi x l adj) as (_ & _ & Hf & _); [unfold adj_at; by rewrite Hx|].
  eapply Forall_impl; [exact Hf|]. intros y. apply (in_lv _ _ _ _ _ Hi).
Qed.

(** A mutex is free, or the worker waits. *)
Lemma lock_cases locks ths held x : lock_inv locks ths held -> (x < length rows)%nat ->
  locks !! x = Some Free \/ exists u, locks !! x = Some (Held u).
Proof.
  intros [] Hx. destruct (lookup_lt_is_Some_2 locks x) as [[|u|] E]; [by rewrite li_len0|by left|right; by exists u|by destruct (li_clean0 x)].
Qed.

Lemma edges_step s s' : inv_of s -> step s s' -> exists rem, inv (ps_links s') (ps_entry s') (ps_counter s') (ps_threads s') rem.
Proof.
  intros [[rem Hi] [held Hlk]] [t Hs]. unfold par_next in Hs. destruct (ps_threads s !! t) as [t0|] eqn:Ht; [|done]. cbn [mbind option_bind] in Hs.
  destruct s as [links locks entry counter ths]. cbn [ps_links ps_locks ps_entry ps_counter ps_threads] in *. pose proof Hi as [].
  destruct t0 as [|i p| |]; [| |done..].
  - cbn in Hs. injection Hs as <-. cbn. destruct (Nat.leb_spec (length rows) counter).
    + exists rem. apply (inv_stop _ _ _ _ _ t TIdle TExit); [by apply inv_counter|done|by right|done].
    + eexists. by apply inv_take.
  - destruct (in_run0 _ _ _ Ht) as (Hic & owes & Hp & Ho). inversion Hp; subst; cbn -[Nat.ltb] in Hs.
    + injection Hs as <-. exists rem. apply (inv_stop _ _ _ _ _ t (TRun i PDone) TIdle); [done|done|by left|].
      intros j p [= <- <-]. by apply Ho.
    + injection Hs as <-. exists rem. destruct entry as [e top]. apply (inv_run links (e, top) counter ths rem _ _ _ t i _ _ (top <? top_of i)%nat Hi Ht);
        try done; [by apply H1|]. intros Hf%Nat.ltb_ge. exact Hf.
    + destruct (lookup_lt_is_Some_2 links x) as [lists Hx]; [rewrite in_len0; by eapply lv_lt|]. rewrite Hx in Hs.
      destruct (lock_cases _ _ _ x Hlk) as [E|[u E]]; [by eapply lv_lt| |by rewrite E in Hs]. rewrite E in Hs. injection Hs as <-.
      exists rem. apply (inv_run links entry counter ths rem _ _ _ t i _ _ owes Hi Ht); try done. apply H2. by eapply in_adj.
    + destruct (lock_cases _ _ _ x Hlk) as [E|[u E]]; [done| |by rewrite E in Hs]. rewrite E in Hs. injection Hs as <-.
      exists rem. by apply (inv_run links entry counter ths rem _ _ _ t i _ _ owes Hi Ht).
    + destruct (edge_spec (degree rem) links i nbr level in_links0 in_len0) as (links' & E & Hsl & Hok); [done|by apply in_lv0|by apply in_lv0|].
      rewrite E in Hs. injection Hs as <-. exists (fun n => if (n =? i)%nat then spend level (rem i) else rem n).
      apply (inv_run links entry counter ths rem _ _ _ t i _ _ owes Hi Ht); try done; cbn [ps_links].
      * intros n Hn. by rewrite (proj2 (Nat.eqb_neq _ _)).
      * intros n l. destruct (n =? i)%nat; [|done]. unfold spend. pose proof (in_rem0 i l). destruct (l =? level)%nat; lia.
      * by rewrite (sl_len _ _ Hsl).
      * intros l x. rewrite <- (sl_has _ _ Hsl). apply in_lv0.
      * eapply links_ok_le; [exact Hok|]. intros n l. unfold trim, bump, degree, spend. pose proof (in_rem0 i level). pose proof (in_rem0 n l).
        destruct (Nat.eqb_spec n i) as [->|Hni], (Nat.eqb_spec l level) as [->|]; repeat case_bool_decide; naive_solver lia.
      * by rewrite Nat.eqb_refl.
    + injection Hs as <-. exists rem. by apply (inv_run links entry counter ths rem _ _ _ t i _ _ owes Hi Ht).
    + injection Hs as <-. exists rem. apply (inv_run links entry counter ths rem _ _ _ t i _ _ false Hi Ht); try done.
      * cbn -[Nat.ltb]. destruct (entry.2 <? top_of i)%nat; [|exact in_entry0]. cbn. unfold top_of. destruct H1 as (top & E & _). by rewrite E.
      * cbn -[Nat.ltb]. destruct (Nat.ltb_spec entry.2 (top_of i)); cbn; lia.
      * intros _. cbn -[Nat.ltb]. destruct (Nat.ltb_spec entry.2 (top_of i)); cbn; lia.
Qed.

Lemma locks_step s s' : inv_of s -> step s s' -> TPanicked ∉ ps_threads s' -> exists held, lock_inv (ps_locks s') (ps_threads s') held.
Proof.
  intros [_ [held Hlk]] [t Hs] Hal. unfold par_next in Hs. destruct (ps_threads s !! t) as [t0|] eqn:Ht; [|done]. cbn [mbind option_bind] in Hs.
  destruct s as [links locks entry counter ths]. cbn [ps_links ps_locks ps_entry ps_counter ps_threads] in *.
  assert (TPanicked ∈ <[t := TPanicked]> ths) as Hpan.
  { apply (list_elem_of_lookup_2 _ t). apply list_lookup_insert_eq. by eapply lookup_lt_Some. }
  destruct t0 as [|i p| |]; [| |done..].
  - cbn in Hs. injection Hs as <-. exists held. cbn. apply (lock_same _ _ _ _ _ _ Hlk Ht).
    assert (held t = []) as E by (apply (li_rest _ _ _ Hlk); intros i p; by rewrite Ht).
    destruct (_ <=? _)%nat; [done|]. rewrite E. apply insert_locked_disc.
  - pose proof (li_run _ _ _ Hlk _ _ _ Ht) as Hd. remember (held t) as hs eqn:E0.
    destruct Hd as [| |k Hk|x level k Hk|hs x k Hlt Hk|hs x nbr level k Hx Hn Hk|hs x k Hk|x level k Hk]; cbn in Hs.
    + injection Hs as <-. exists held. apply (lock_same _ _ _ _ _ _ Hlk Ht). by rewrite <- E0.
    + by injection Hs as <-.
    + injection Hs as <-. exists held. apply (lock_same _ _ _ _ _ _ Hlk Ht). rewrite <- E0. apply Hk.
    + destruct (locks !! x) as [[|u|]|]; [|done|by injection Hs as <-|by injection Hs as <-].
      destruct (links !! x) as [lists|]; [|by injection Hs as <-]. injection Hs as <-. exists held.
      apply (lock_same _ _ _ _ _ _ Hlk Ht). rewrite <- E0. apply Hk.
    + destruct (locks !! x) as [[|u|]|] eqn:El; [|done|by injection Hs as <-|by injection Hs as <-].
      injection Hs as <-. eexists. by apply (lock_take _ _ _ _ _ _ _ Hlk Ht).
    + destruct (edge_and_prune _ _ _ _ _ _ _ _); [|by injection Hs as <-]. injection Hs as <-. exists held.
      apply (lock_same _ _ _ _ _ _ Hlk Ht). by rewrite <- E0.
    + injection Hs as <-. eexists. by apply (lock_give _ _ _ _ _ _ _ hs Hlk Ht).
    + injection Hs as <-. exists held. apply (lock_same _ _ _ _ _ _ Hlk Ht). by rewrite <- E0.
Qed.

Lemma inv_step s s' : inv_of s -> step s s' -> inv_of s'.
Proof.
  intros Hi Hs. destruct (edges_step s s' Hi Hs) as [rem Hr]. split; [by exists rem|]. apply (locks_step s s' Hi Hs).
  intros [t Ht]%list_elem_of_lookup. by apply (in_alive _ _ _ _ _ Hr) in Ht.
Qed.

Lemma inv_init workers : (0 < length rows)%nat -> inv_of (par_init levels workers).
Proof.
  intros Hr. split; [|exists (fun _ => []); split; cbn].
  2: { by rewrite length_map. }
  2: { intros t i p Ht. by apply lookup_replicate in Ht as [? _]. }
  2: done.
  2: { intros t x Hx. rewrite list_lookup_fmap. destruct (levels !! x); cbn; (split; [done|by intros ?%elem_of_nil]). }
  2: { intros x. rewrite list_lookup_fmap. by destruct (levels !! x). }
  2: { intros t. constructor. }
  exists (fun _ => cap). unfold par_init. cbn [ps_links ps_entry ps_counter ps_threads].
  assert (forall n l, adj_at (map (fun l => replicate (l + 1) []) levels) n l =
    (top ← levels !! n; if (l <=? top)%nat then Some [] else None)) as Hadj.
  { intros n l. unfold adj_at. rewrite list_lookup_fmap. destruct (levels !! n) as [top|]; [|done]. cbn.
    destruct (Nat.leb_spec l top); [apply lookup_replicate_2; lia|apply lookup_ge_None_2; rewrite length_replicate; lia]. }
  destruct (lookup_lt_is_Some_2 levels 0) as [top0 E0]; [by rewrite Hlv|]. split; try done.
  - by rewrite length_map.
  - intros l x. unfold has_level. rewrite Hadj. unfold lv. destruct (levels !! x) as [top|]; cbn.
    + destruct (Nat.leb_spec l top); [naive_solver|]. split; [by intros [? ?]|]. intros (t & [= <-] & ?). lia.
    + split; [by intros [? ?]|]. intros (t & ? & ?). done.
  - intros n l adj. rewrite Hadj. destruct (levels !! n) as [top|]; [|done]. cbn. destruct (l <=? top)%nat; [|done].
    intros [= <-]. split_and!; [constructor|by apply not_elem_of_nil|constructor|cbn; lia].
  - cbn. by rewrite E0.
  - intros t i p Ht. by apply lookup_replicate in Ht as [? _].
  - intros t t' i p p' Ht. by apply lookup_replicate in Ht as [? _].
  - intros t Ht. by apply lookup_replicate in Ht as [? _].
  - intros i Hi _. right. assert (i = 0%nat) as -> by lia. unfold top_of. by rewrite E0.
Qed.

Lemma inv_reach s s' : inv_of s -> rtc step s s' -> inv_of s'.
Proof. intros Hi Hr. induction Hr as [|s s1 s2 Hs _ IH]; [done|]. by apply IH, (inv_step s). Qed.

(** A worker that has not exited can move, or waits for a mutex, and then
    for one above all it holds. *)
Lemma move_or_wait s held t t0 : inv_of s -> lock_inv (ps_locks s) (ps_threads s) held -> ps_threads s !! t = Some t0 -> t0 <> TExit ->
  (exists s', step s s') \/ exists x u, ps_locks s !! x = Some (Held u) /\ Forall (fun y => y < x)%nat (held t).
Proof.
  intros [[rem Hi] _] Hlk Ht Hne.
  assert (forall r, thread_step rows w levels m m_max0 ef_c t (ps_links s) (ps_locks s) (ps_entry s) (ps_counter s) t0 = Some r -> exists s', step s s') as Hgo.
  { intros [[[[links locks] entry] counter] t1] E. eexists. exists t. unfold par_next. rewrite Ht. cbn [mbind option_bind]. by rewrite E. }
  destruct t0 as [|i p| |]; [left; by eapply Hgo| |done|by apply (in_alive _ _ _ _ _ Hi) in Ht].
  pose proof (li_run _ _ _ Hlk _ _ _ Ht) as Hd.
  destruct p as [| | |x level k|x k|x nbr level k|x k|x level k]; cbn in Hgo; try (left; by eapply Hgo).
  - destruct (ps_locks s !! x) as [[|u|]|] eqn:E; [left; destruct (ps_links s !! x); by eapply Hgo| |left; by eapply Hgo..].
    right. exists x, u. split; [done|]. inversion Hd. constructor.
  - destruct (ps_locks s !! x) as [[|u|]|] eqn:E; [left; by eapply Hgo| |left; by eapply Hgo..].
    right. exists x, u. split; [done|]. by inversion Hd.
  - left. destruct (edge_and_prune _ _ _ _ _ _ _ _); by eapply Hgo.
Qed.

(** Of the workers that wait, the one that waits for the highest node waits for
    one that can move. *)
Lemma some_step s t t0 : inv_of s -> ps_threads s !! t = Some t0 -> t0 <> TExit -> exists s', step s s'.
Proof.
  intros Hi Ht Hne. pose proof Hi as [_ [held Hlk]].
  assert (forall d x u, ps_locks s !! x = Some (Held u) -> (length rows - x <= d)%nat -> exists s', step s s') as Hwait.
  { induction d as [|d IH]; intros x u Hx Hd.
    { apply lookup_lt_Some in Hx. rewrite (li_len _ _ _ Hlk) in Hx. lia. }
    pose proof Hx as Hxu. apply (li_held _ _ _ Hlk) in Hxu; [|rewrite <- (li_len _ _ _ Hlk); by eapply lookup_lt_Some].
    destruct (ps_threads s !! u) as [[|j q| |]|] eqn:Eu;
      try (rewrite (li_rest _ _ _ Hlk) in Hxu; [by apply elem_of_nil in Hxu|intros j' q'; by rewrite Eu]).
    destruct (move_or_wait s held u _ Hi Hlk Eu) as [?|(y & v & Hy & Hlt)]; [done..|]. apply (IH y v Hy).
    rewrite Forall_forall in Hlt. specialize (Hlt x Hxu). lia. }
  destruct (move_or_wait s held t t0 Hi Hlk Ht Hne) as [?|(x & u & Hx & _)]; [done|]. by eapply Hwait.
Qed.

(** A worker exits when the nodes are all taken; none comes or goes. *)
Definition exits_late (s : ParState) : Prop := forall t, ps_threads s !! t = Some TExit -> (length rows <= ps_counter s)%nat.
Lemma exit_step s s' : exits_late s -> step s s' -> exits_late s' /\ length (ps_threads s') = length (ps_threads s).
Proof.
  intros He [t Hs]. unfold par_next in Hs. destruct (ps_threads s !! t) as [t0|] eqn:Ht; [|done]. cbn [mbind option_bind] in Hs.
  destruct (thread_step _ _ _ _ _ _ _ _ _ _ _ _) as [[[[[links locks] entry] counter] t1]|] eqn:Et; [|done]. cbn in Hs. injection Hs as <-.
  split; [|apply length_insert]. assert ((ps_counter s <= counter)%nat /\ (t1 = TExit -> (length rows <= ps_counter s)%nat)) as [Hc H1].
  { destruct t0 as [|i []| |]; cbn -[Nat.leb] in Et; repeat case_match; try done; injection Et as <- <- <- <- <-; try done;
      rewrite ?Nat.leb_le in *; split; (lia || done). }
  intros u. cbn. rewrite (run_lookup _ _ _ _ _ Ht). destruct (u =? t)%nat; intros E.
  - injection E as E. specialize (H1 E). lia.
  - specialize (He u E). lia.
Qed.
Lemma exit_reach s s' : exits_late s -> rtc step s s' -> exits_late s' /\ length (ps_threads s') = length (ps_threads s).
Proof.
  intros He Hr. induction Hr as [|s s1 s2 Hs _ IH]; [done|]. destruct (exit_step _ _ He Hs) as [He1 <-]. by apply IH.
Qed.

(** ** Every run ends

    A step takes a node, ends a worker, or goes down the tree of a program. *)

Inductive below_prog : Prog -> Prog -> Prop :=
| bp_entry k e : below_prog (k e) (PEntry k)
| bp_nbrs x level k adj : below_prog (k adj) (PNbrs x level k)
| bp_lock x k : below_prog k (PLock x k)
| bp_edge x nbr level k : below_prog k (PEdge x nbr level k)
| bp_unlock x k : below_prog k (PUnlock x k)
| bp_promote x level k : below_prog k (PPromote x level k).
Inductive below_thread : Thread -> Thread -> Prop :=
| bt_run i p p' : below_prog p' p -> below_thread (TRun i p') (TRun i p)
| bt_idle i p : below_thread TIdle (TRun i p).
Definition one_below (ths' ths : list Thread) : Prop :=
  exists t x x', ths !! t = Some x /\ below_thread x' x /\ ths' = <[t := x']> ths.

Lemma below_prog_wf p : Acc below_prog p.
Proof. induction p; constructor; intros p' Hp'; inversion Hp'; subst; auto. Qed.
Lemma below_thread_wf t : Acc below_thread t.
Proof.
  assert (Acc below_thread TIdle) as Hidle by (constructor; intros t' Ht'; inversion Ht').
  destruct t as [|i p| |]; [done| |constructor; intros t' Ht'; inversion Ht'..].
  induction (below_prog_wf p) as [p _ IH]. constructor. intros t' Ht'. inversion Ht'; subst; [by apply IH|done].
Qed.
Lemma one_below_wf ths : Acc one_below ths.
Proof.
  induction ths as [|x ths IHt]; [constructor; intros ths' (t & y & y' & Hy & _); done|].
  revert ths IHt. induction (below_thread_wf x) as [x _ IHx]. intros ths Hths.
  induction Hths as [ths Hths IH]. constructor. intros ths' ([|t] & y & y' & Hy & Hlt & ->); cbn in *.
  - injection Hy as <-. apply IHx; [done|by constructor].
  - apply IH. by exists t, y, y'.
Qed.

Definition live (t : Thread) : nat := match t with TIdle | TRun _ _ => 1 | _ => 0 end.
Fixpoint alive (ths : list Thread) : nat := match ths with [] => 0 | t :: ths => live t + alive ths end.

Lemma alive_insert ths t x x' : ths !! t = Some x -> (alive (<[t := x']> ths) + live x = alive ths + live x')%nat.
Proof.
  revert t. induction ths as [|y ths IH]; intros [|t] H'; try done; cbn in *.
  - injection H' as ->. lia.
  - rewrite <- !Nat.add_assoc. f_equal. by apply IH.
Qed.

Lemma step_below s s' : step s s' ->
  (length rows - ps_counter s' < length rows - ps_counter s)%nat \/
  (length rows - ps_counter s' <= length rows - ps_counter s /\ alive (ps_threads s') < alive (ps_threads s))%nat \/
  (ps_counter s' = ps_counter s /\ alive (ps_threads s') = alive (ps_threads s) /\ one_below (ps_threads s') (ps_threads s)).
Proof.
  intros [t Hs]. unfold par_next in Hs. destruct (ps_threads s !! t) as [t0|] eqn:Ht; [|done]. cbn [mbind option_bind] in Hs.
  destruct (thread_step _ _ _ _ _ _ _ _ _ _ _ _) as [[[[[links locks] entry] counter] t1]|] eqn:Et; [|done]. cbn in Hs. injection Hs as <-.
  cbn [ps_counter ps_threads]. pose proof (alive_insert _ _ _ t1 Ht) as Ha.
  assert (t1 = TPanicked /\ counter = ps_counter s /\ live t0 = 1%nat \/ live t1 = live t0 /\ counter = ps_counter s /\ below_thread t1 t0 \/
    t0 = TIdle /\ counter = S (ps_counter s) /\ (t1 = TExit \/ (ps_counter s < length rows)%nat)) as Hc.
  { destruct t0 as [|i []| |]; cbn -[Nat.leb] in Et; repeat case_match; try done; injection Et as <- <- <- <- <-;
      first [by left|by right; left; repeat constructor|rewrite ?Nat.leb_le, ?Nat.leb_gt in *; naive_solver]. }
  destruct Hc as [(-> & -> & Hl)|[(Hl & -> & Hb)|(-> & -> & [->|Hlt])]].
  - right. left. rewrite Hl in Ha. cbn in Ha. lia.
  - right. right. split_and!; [done|lia|]. by exists t, t0, t1.
  - right. left. cbn in Ha. lia.
  - left. lia.
Qed.

Lemma runs_end s : Acc (fun s' s => step s s') s.
Proof.
  remember (length rows - ps_counter s)%nat as c eqn:Ec. revert s Ec. induction c as [c IHc] using lt_wf_ind.
  intros s. remember (alive (ps_threads s)) as a eqn:Ea. revert s Ea. induction a as [a IHa] using lt_wf_ind.
  intros s Ea Ec. remember (ps_threads s) as ths eqn:Et. revert s Ea Ec Et.
  induction (one_below_wf ths) as [ths _ IHt]. intros s Ea Ec Et. constructor. intros s' Hs.
  subst ths. destruct (step_below s s' Hs) as [Hlt|[[Hle Hlt]|(E1 & E2 & Hb)]].
  - eapply IHc; [|done]. lia.
  - destruct (decide (length rows - ps_counter s' < length rows - ps_counter s)%nat); [eapply IHc; [|done]; lia|].
    eapply (IHa (alive (ps_threads s'))); [lia|done|lia].
  - eapply IHt; [exact Hb|congruence|lia|done].
Qed.

Lemma run_to_end s : inv_of s -> exists s', rtc step s s' /\ Forall (fun t => t = TExit) (ps_threads s').
Proof.
  intros Hi. induction (runs_end s) as [s _ IH].
  destruct (decide (Forall (fun t => exited t = true) (ps_threads s))) as [Hx|Hx].
  - exists s. split; [done|]. eapply Forall_impl; [exact Hx|]. by intros [].
  - apply not_Forall_Exists, Exists_exists in Hx as (t0 & Hin & Hne); [|intros t; apply _].
    apply list_elem_of_lookup in Hin as [t Ht].
    destruct (some_step s t t0 Hi Ht) as [s1 Hstep]; [by intros ->; apply Hne|].
    destruct (IH s1 Hstep) as (s2 & Hr & Hx2); [by eapply inv_step|].
    exists s2. split; [by eapply rtc_l|done].
Qed.
End parallel.

(** ** The build *)

#[local] Existing Instance flat_ln.

Section build.
Context `{SortUnstable} `{BinaryHeap} `{Ln64}.

Lemma draw_levels_length n lm rng : length (draw_levels n lm rng).2 = n.
Proof.
  revert rng. induction n as [|n IH]; intros rng; [done|]. cbn [draw_levels]. destruct (random_level lm rng) as [r1 l].
  specialize (IH r1). destruct (draw_levels n lm r1) as [r2 ls]. cbn in *. by rewrite IH.
Qed.

(** The graph of a state in which all the workers have exited. *)
Lemma final_ok (g : HnswGraph) rng (rows levels : list nat) s : length levels = length rows -> (0 < length rows)%nat ->
  inv_of rows levels (hg_m g) (hg_m_max0 g) s -> Forall (fun t => t = TExit) (ps_threads s) ->
  (length rows <= ps_counter s)%nat -> graph_ok 2 (par_graph g rng rows s).
Proof.
  intros Hlv Hr [[rem Hi] _] Hx Hc. pose proof Hi as [].
  assert (forall t i p, ps_threads s !! t <> Some (TRun i p)) as Hno.
  { intros t i p Ht. rewrite Forall_forall in Hx. apply list_elem_of_lookup_2, Hx in Ht. done. }
  split; cbn; [done| | |].
  - eapply links_ok_le; [exact in_links0|]. intros n l. unfold degree, cap_at, par_cap. cbn. lia.
  - intros n Hn. apply in_lv0. destruct (lookup_lt_is_Some_2 levels n) as [top E]; [by rewrite Hlv|]. exists top. split; [done|lia].
  - split; [apply in_lv0; by exists (ps_entry s).2|]. intros l n Hl%in_lv0.
    destruct (in_done0 n) as [(t & p & Ht)|Htop]; [pose proof (lv_lt rows levels Hlv l n Hl); lia|by eapply lv_lt|by apply Hno in Ht|].
    destruct Hl as (top & E & Hl). unfold top_of in Htop. rewrite E in Htop. cbn in Htop. lia.
Qed.

Lemma hnsw_clear_ok k g : graph_ok k (hnsw_clear g).
Proof. split; cbn; [done| |lia|done]. intros n l adj. unfold adj_at. by rewrite lookup_nil. Qed.

(** Whatever a build returns holds the rows in a well-formed graph. *)
Lemma hnsw_build_ok w rows workers g g' :
  (0 < hg_dim g)%nat -> (0 < hg_ef_construction g)%nat -> (N.of_nat (length rows) <= 2 ^ 32)%N -> walkable w rows ->
  hnsw_build w rows workers g g' -> graph_ok 2 g' /\ hg_rows g' = rows /\ hg_dim g' = hg_dim g.
Proof.
  intros Hd Hef Hn Hw [g1 _ E|rng levels s Ew El Hs Hx].
  - destruct (insert_rows_ok 2 w rows ltac:(lia) (hnsw_clear g) (hnsw_clear_ok 2 g) Hef) as (gs & Es & Hgs & (Td & _) & Hrs); [done|done|].
    unfold hnsw_insert_rows in E. cbn [hnsw_clear hg_set hg_dim] in E. rewrite (proj2 (Nat.eqb_neq (hg_dim g) 0)) in E by lia.
    rewrite Es in E. by injection E as <-.
  - pose proof (draw_levels_length (length rows) (hg_level_mult g) (hg_rng g)) as Hlv. rewrite El in Hlv. cbn [snd] in Hlv.
    assert (0 < length rows)%nat as Hr.
    { unfold serial_path in Ew. apply orb_false_elim in Ew as [_ Ew%Nat.ltb_ge]. unfold PARALLEL_BUILD_MIN in Ew. lia. }
    pose proof (inv_reach rows w levels (hg_m g) (hg_m_max0 g) (hg_ef_construction g) Hw Hlv Hef _ _
      (inv_init rows levels (hg_m g) (hg_m_max0 g) (hg_ef_construction g) Hlv Hef workers Hr) Hs) as Hi.
    split_and!; [|done|done]. apply (final_ok g rng rows levels s Hlv Hr Hi Hx).
    assert (exits_late rows (par_init levels workers)) as Hlate by (intros t Ht; by apply lookup_replicate in Ht as [? _]).
    destruct (exit_reach rows w levels (hg_m g) (hg_m_max0 g) (hg_ef_construction g) Hlv Hef _ _ Hlate Hs) as [He Hl].
    destruct (ps_threads s) as [|t ths] eqn:Eths.
    + cbn in Hl. rewrite length_replicate in Hl. subst workers. done.
    + apply (He 0%nat). rewrite Eths. apply Forall_cons in Hx as [-> _]. done.
Qed.

(** C11: building the graph with several threads is as safe as building it with
    one.  The mutexes of an edge are taken one by one, and however the workers
    interleave, none of them ever panics, an edge is made and trimmed by a
    worker that holds the mutexes of both ends, no run goes on for ever, and
    none is stuck: as long as a worker has not exited, some worker can take a
    step, so every run comes to its end, where all the rows are in the graph.
    The graph is
    well formed: its links join distinct nodes on levels both have, no node has
    more than twice its degree, the entry is on the highest level, and every
    search of the graph answers as on one built serially. *)
Theorem hnsw_parallel_build w rows workers g :
  (0 < hg_dim g)%nat -> (0 < hg_ef_construction g)%nat -> (0 < length rows)%nat -> (N.of_nat (length rows) <= 2 ^ 32)%N ->
  walkable w rows ->
  let levels := (draw_levels (length rows) (hg_level_mult g) (hg_rng g)).2 in
  let step := par_step rows w levels (hg_m g) (hg_m_max0 g) (hg_ef_construction g) in
  (forall s, rtc step (par_init levels workers) s -> TPanicked ∉ ps_threads s) /\
  (forall s t i x nbr l k, rtc step (par_init levels workers) s -> ps_threads s !! t = Some (TRun i (PEdge x nbr l k)) ->
     ps_locks s !! x = Some (Held t) /\ ps_locks s !! nbr = Some (Held t)) /\
  Acc (fun s' s => step s s') (par_init levels workers) /\
  (forall s t th, rtc step (par_init levels workers) s -> ps_threads s !! t = Some th -> th <> TExit -> exists s', step s s') /\
  (exists g', hnsw_build w rows workers g g') /\
  (forall g', hnsw_build w rows workers g g' ->
     graph_ok 2 g' /\ hg_rows g' = rows /\
     forall query n, (forall r, r ∈ rows -> is_Some (qs_score (query_scorer w query) r)) ->
       exists hits, hnsw_search w query n g' = Some hits /\ answer_ok (qs_score (query_scorer w query)) g' n hits).
Proof.
  intros Hd Hef Hr Hn Hw levels step.
  assert (length levels = length rows) as Hlv by apply draw_levels_length.
  pose proof (inv_init rows levels (hg_m g) (hg_m_max0 g) (hg_ef_construction g) Hlv Hef workers Hr) as Hinit.
  assert (forall s, rtc step (par_init levels workers) s -> inv_of rows levels (hg_m g) (hg_m_max0 g) s) as Hreach.
  { intros s. by apply (inv_reach rows w levels (hg_m g) (hg_m_max0 g) (hg_ef_construction g) Hw Hlv Hef). }
  destruct (insert_rows_ok 2 w rows ltac:(lia) (hnsw_clear g) (hnsw_clear_ok 2 g) Hef) as (gs & Es & Hgs & (Td & _) & Hrs); [done|done|].
  split_and!.
  - intros s Hs [t Ht]%list_elem_of_lookup. destruct (Hreach s Hs) as [[rem Hi] _]. by apply (in_alive _ _ _ _ _ _ _ _ _ Hi) in Ht.
  - intros s t i x nbr l k Hs Ht. destruct (Hreach s Hs) as [[rem Hi] [held Hlk]].
    destruct (in_run _ _ _ _ _ _ _ _ _ Hi _ _ _ Ht) as (_ & owes & Hp & _). pose proof (li_run _ _ _ _ Hlk _ _ _ Ht) as Hdc.
    assert (forall y, y ∈ held t -> (y < length rows)%nat -> ps_locks s !! y = Some (Held t)) as Hy by (intros y ? ?; by apply (li_held _ _ _ _ Hlk)).
    inversion Hdc; subst. inversion Hp; subst. split; apply Hy; try done; by eapply lv_lt.
  - by apply runs_end.
  - intros s t th Hs Ht Hne. by eapply some_step; [..|apply (Hreach s Hs)|exact Ht|].
  - destruct (serial_path rows workers g) eqn:Es'.
    + exists gs. apply build_serial; [done|]. unfold hnsw_insert_rows. cbn [hnsw_clear hg_set hg_dim].
      by rewrite (proj2 (Nat.eqb_neq (hg_dim g) 0)) by lia.
    + destruct (run_to_end rows w levels (hg_m g) (hg_m_max0 g) (hg_ef_construction g) Hw Hlv Hef _ Hinit) as (s & Hs & Hx).
      eexists. eapply build_parallel; [done|apply surjective_pairing|exact Hs|done].
  - intros g' Hb. destruct (hnsw_build_ok w rows workers g g' Hd Hef Hn Hw Hb) as (Hg' & Hr' & Hd').
    split_and!; [done|done|]. intros query n Hq. apply (hnsw_search_ok 2); [done|by rewrite Hd'|by rewrite Hr'].
Qed.
End build.

(** Two workers on four rows. *)
Lemma hnsw_parallel_build_witness :
  let g := HnswGraph_new AnnConfig_hnsw 1 in let rows := [0; 1; 2; 3]%nat in
  let levels := (draw_levels (length rows) (hg_level_mult g) (hg_rng g)).2 in
  let step := par_step rows sample_walk levels (hg_m g) (hg_m_max0 g) (hg_ef_construction g) in
  (forall s, rtc step (par_init levels 2) s -> TPanicked ∉ ps_threads s) /\
  (forall s t i x nbr l k, rtc step (par_init levels 2) s -> ps_threads s !! t = Some (TRun i (PEdge x nbr l k)) ->
     ps_locks s !! x = Some (Held t) /\ ps_locks s !! nbr = Some (Held t)) /\
  Acc (fun s' s => step s s') (par_init levels 2) /\
  (forall s t th, rtc step (par_init levels 2) s -> ps_threads s !! t = Some th -> th <> TExit -> exists s', step s s') /\
  (exists g', hnsw_build sample_walk rows 2 g g') /\
  (forall g', hnsw_build sample_walk rows 2 g g' ->
     graph_ok 2 g' /\ hg_rows g' = rows /\
     forall query n, (forall r, r ∈ rows -> is_Some (qs_score (query_scorer sample_walk query) r)) ->
       exists hits, hnsw_search sample_walk query n g' = Some hits /\ answer_ok (qs_score (query_scorer sample_walk query)) g' n hits).
Proof.
  apply (hnsw_parallel_build sample_walk [0; 1; 2; 3]%nat 2 (HnswGraph_new AnnConfig_hnsw 1)); [cbn; lia..|done|].
  apply walkable_exact. repeat constructor; vm_compute; lia.
Defined.

(** One schedule of the two workers, turn by turn, to its end. *)
Example two_workers :
  let s := run_schedule [0; 1; 2; 3]%nat sample_walk [0; 1; 0; 0]%nat 2 4 8 (mjoin (replicate 40 [0; 1]%nat))
             (par_init [0; 1; 0; 0]%nat 2) in
  (ps_threads s, ps_entry s, ps_links s) =
    ([TExit; TExit], (1, 1)%nat, [[[1; 2; 3]]; [[0; 3]; []]; [[0; 3]]; [[1; 2; 0]]]%nat).
Proof. vm_compute. reflexivity. Qed.
