(* ===== verification/AnnStore.v ===== *)
(** * AnnStore: the approximate indexes of a store
    ([src/src/ann/persist.rs], [src/src/store/mod.rs])

    The cache objects of the indexes with their validity keys, the reverse map
    from rows to documents, and the life of the indexes beside the store:
    built on open or adopted from the cache and caught up, extended by an
    upsert, rebuilt after a compaction, one inverted file per sealed segment.
    The schedule a concurrent build runs under is an argument; a panic, or a
    schedule that stops early, is [None] in the pure operations and [Dead] in
    the ones that touch the backend. *)
From S2P Require Import Prelude Floats Model Config Sort TopK Std Hits.
From S2P Require Import TextPred Filter Literal Findex Narrow.
From S2P Require Import Backend Codec Log Data IndexCache Manifest Segments Replay Store Scoring Quant Search.
From S2P Require Import Ann HnswPar.

(** ** One index ([ann/mod.rs]) *)

Inductive Ann := AHnsw (g : HnswGraph) | AIvf (ix : IvfIndex).
(** The durable state. *)
Inductive AnnSnapshot :=
| SHnsw (rows : list nat) (links : Links) (entry : option nat) (max_level : nat)
| SIvf (centroids : list f32) (lists : list (list nat)).

Section index.
Context `{SortUnstable} `{SelectNth} `{BinaryHeap} `{Ln64}.

Definition Ann_empty (cfg : AnnConfig) (dim : nat) (d : Distance) : Ann :=
  match a_kind cfg with Hnsw => AHnsw (HnswGraph_new cfg dim) | Ivf => AIvf (IvfIndex_new cfg dim d) end.
Definition ann_build (sched : list nat) (w : Walk) (live_rows : list nat) (workers : nat) (a : Ann) : option Ann :=
  match a with
  | AHnsw g => AHnsw <$> hnsw_build_on sched w live_rows workers g
  | AIvf ix => AIvf <$> ivf_build w live_rows ix
  end.
Definition ann_insert_rows (w : Walk) (rows : list nat) (a : Ann) : option Ann :=
  match a with
  | AHnsw g => AHnsw <$> hnsw_insert_rows w rows g
  | AIvf ix => AIvf <$> ivf_insert_rows w rows ix
  end.
Definition snapshot_ref (a : Ann) : AnnSnapshot :=
  match a with
  | AHnsw g => SHnsw (hg_rows g) (hg_links g) (hg_entry g) (hg_max_level g)
  | AIvf ix => SIvf (iv_centroids ix) (iv_lists ix)
  end.
Definition ann_set_query_params (cfg : AnnConfig) (a : Ann) : Ann :=
  match a with AHnsw g => AHnsw (hnsw_set_query_params cfg g) | AIvf ix => AIvf (ivf_set_query_params cfg ix) end.
Definition from_snapshot (cfg : AnnConfig) (dim : nat) (d : Distance) (snap : AnnSnapshot) : Ann :=
  match snap with
  | SHnsw rows links entry max_level => AHnsw (hnsw_from_parts cfg dim rows links entry max_level)
  | SIvf centroids lists => AIvf (ivf_from_parts cfg dim d centroids lists)
  end.
Definition ann_search (w : Walk) (query : list f32) (n : nat) (a : Ann) : option (list (nat * f32)) :=
  match a with AHnsw g => hnsw_search w query n g | AIvf ix => ivf_search w query n ix end.

(** ** The cache objects ([ann/persist.rs]) *)

Definition kind_to_byte (k : AnnKind) : Z := match k with Hnsw => 0 | Ivf => 1 end.
Definition ann_distance_byte (d : Distance) : Z := match d with Cosine => 0 | Euclidean => 1 | DotProduct => 2 end.
Definition quant_to_byte (q : option QuantKind) : Z := match q with None => 0 | Some Int8 => 1 | Some Binary => 2 end.
Definition u32_bytes (n : nat) : bytes := to_le 4 (Z.of_nat n mod 2 ^ 32).
Definition u64_bytes (n : N) : bytes := to_le 8 (Z.of_N n).

Definition validity_key (dim : nat) (d : Distance) (cfg : AnnConfig) (quant : option QuantKind) : bytes :=
  [kind_to_byte (a_kind cfg); ann_distance_byte d; quant_to_byte quant] ++ u32_bytes dim ++ u32_bytes (a_m cfg)
  ++ u32_bytes (a_ef_construction cfg) ++ u32_bytes (a_n_lists cfg) ++ u64_bytes (a_seed cfg).

Context `{Crc32} `{Codec AnnSnapshot}.
Definition ANN_OBJECT : rstring := lit "ann".

Definition save_index {X} (a : Ann) (covered_rows dim : nat) (d : Distance) (cfg : AnnConfig) (quant : option QuantKind) : M X unit :=
  cache_save ANN_OBJECT (validity_key dim d cfg quant) covered_rows (snapshot_ref a).
Definition load_index {X} (dim : nat) (d : Distance) (cfg : AnnConfig) (quant : option QuantKind) : M X (option (Ann * nat)) :=
  (let* o := cache_load ANN_OBJECT (validity_key dim d cfg quant) in
   ret ((fun sc => (from_snapshot cfg dim d sc.1, sc.2)) <$> o))%m.

Definition segment_object_name (segment : rstring) : rstring := segment ++ lit ".ivf".
Record SegmentSlot := { sl_name : rstring; sl_base : nat; sl_rows : nat }.
Definition segment_validity_key (slot : SegmentSlot) (dim : nat) (d : Distance) (cfg : AnnConfig) : bytes :=
  [ann_distance_byte d] ++ u32_bytes dim ++ u32_bytes (a_n_lists cfg) ++ u64_bytes (a_seed cfg)
  ++ u64_bytes (N.of_nat (sl_base slot)) ++ u64_bytes (N.of_nat (sl_rows slot)) ++ as_bytes (sl_name slot).
Definition save_segment {X} (slot : SegmentSlot) (dim : nat) (d : Distance) (cfg : AnnConfig) (ix : IvfIndex) : M X unit :=
  cache_save (segment_object_name (sl_name slot)) (segment_validity_key slot dim d cfg) (sl_rows slot)
    (SIvf (iv_centroids ix) (iv_lists ix)).
Definition load_segment {X} (slot : SegmentSlot) (dim : nat) (d : Distance) (cfg : AnnConfig) : M X (option IvfIndex) :=
  (let* o := cache_load (A := AnnSnapshot) (segment_object_name (sl_name slot)) (segment_validity_key slot dim d cfg) in
   ret (match o with Some (SIvf centroids lists, _) => Some (ivf_from_parts cfg dim d centroids lists) | _ => None end))%m.

(** ** The life of the indexes ([store/mod.rs]) *)

(** The store, its quantised copy, and the indexes beside it. *)
Record AnnState := {
  an_store : Store;
  an_quant : option Quant;
  an_ann : option Ann;
  an_dirty : bool;
  an_row_to_doc : list (option (rstring * rstring * rstring));
  an_seg_indexes : list (option IvfIndex);
  an_seg_dirty : list bool
}.
Definition an_with (ann : option Ann) (dirty : bool) (row_to_doc : list (option (rstring * rstring * rstring))) (a : AnnState) : AnnState :=
  {| an_store := an_store a; an_quant := an_quant a; an_ann := ann; an_dirty := dirty; an_row_to_doc := row_to_doc;
     an_seg_indexes := an_seg_indexes a; an_seg_dirty := an_seg_dirty a |}.
Definition an_with_segs (ixs : list (option IvfIndex)) (dirty : list bool) (a : AnnState) : AnnState :=
  {| an_store := an_store a; an_quant := an_quant a; an_ann := an_ann a; an_dirty := an_dirty a; an_row_to_doc := an_row_to_doc a;
     an_seg_indexes := ixs; an_seg_dirty := dirty |}.

Definition an_data (a : AnnState) : Segments := st_data (an_store a).
Definition an_config (a : AnnState) : Config := st_config (an_store a).
Definition an_walk (a : AnnState) : Walk := ann_walk_for (an_quant a) (an_data a) (c_distance (an_config a)).
Definition effective_query_threads (a : AnnState) : nat := c_query_threads (an_config a).

Context `{HashOrder}.

(** Every row of every document, with its owner. *)
Definition owned_rows (s : Store) : list (nat * (rstring * rstring * rstring)) :=
  mjoin (map (fun nc : rstring * Collection =>
    mjoin (map (fun ie : rstring * DocEntry =>
      map (fun nr : rstring * nat => (nr.2, (nc.1, ie.1, nr.1))) (bt_entries (de_rows ie.2))) (docs_entries nc.2)))
    (collections_entries s)).
(** The rows within the data, in the map and, when of the default vector, live. *)
Definition note_row (acc : list (option (rstring * rstring * rstring)) * list nat) (x : nat * (rstring * rstring * rstring))
  : list (option (rstring * rstring * rstring)) * list nat :=
  if (x.1 <? length acc.1)%nat
  then (<[x.1 := Some x.2]> acc.1, if bool_decide (x.2.2 = DEFAULT_VECTOR) then acc.2 ++ [x.1] else acc.2)
  else acc.
Definition rebuild_row_to_doc (s : Store) : list (option (rstring * rstring * rstring)) * list nat :=
  foldl note_row (replicate (segments_row_count (st_data s)) None, []) (owned_rows s).

Definition rebuild_ann (sched : list nat) (a : AnnState) : option AnnState :=
  match an_ann a with
  | None => Some a
  | Some ix =>
      let '(row_to_doc, live_rows) := rebuild_row_to_doc (an_store a) in
      ix ← ann_build sched (an_walk a) live_rows (effective_query_threads a) ix;
      Some (an_with (Some ix) true row_to_doc a)
  end.

(** The rows of the default vector among the new ones. *)
Definition default_rows (prev_rows : nat) (new_owners : list (nat * rstring * rstring)) : list nat :=
  omap (fun o : nat * rstring * rstring =>
    if bool_decide (o.2 = DEFAULT_VECTOR) && (prev_rows <=? o.1.1)%nat then Some o.1.1 else None) new_owners.
(** An owner recorded; [None] outside the map. *)
Definition note_owner (collection : rstring) (m : option (list (option (rstring * rstring * rstring)))) (o : nat * rstring * rstring)
  : option (list (option (rstring * rstring * rstring))) :=
  m ← m;
  if (o.1.1 <? length m)%nat then Some (<[o.1.1 := Some (collection, o.1.2, o.2)]> m) else None.
Definition extend_ann (collection : rstring) (prev_rows : nat) (new_owners : list (nat * rstring * rstring)) (a : AnnState)
  : option AnnState :=
  match an_ann a with
  | None => Some a
  | Some ix =>
      let total := segments_row_count (an_data a) in
      let grown := an_row_to_doc a ++ replicate (total - length (an_row_to_doc a)) None in
      row_to_doc ← foldl (note_owner collection) (Some grown) new_owners;
      ix ← ann_insert_rows (an_walk a) (default_rows prev_rows new_owners) ix;
      Some (an_with (Some ix) true row_to_doc a)
  end.

Definition retune_ann (cfg : AnnConfig) (a : AnnState) : AnnState :=
  {| an_store := let c := an_config a in
       with_config (set_knobs (c_quantization c) (Some cfg) (c_query_threads c) (c_mmap c) (c_explicit c) c) (an_store a); an_quant := an_quant a;
     an_ann := ann_set_query_params cfg <$> an_ann a; an_dirty := an_dirty a; an_row_to_doc := an_row_to_doc a;
     an_seg_indexes := an_seg_indexes a; an_seg_dirty := an_seg_dirty a |}.

(** A panic ends the process. *)
Definition or_die {X} (f : X -> option X) : M X unit := fun x w =>
  match f x with Some x => (Ret tt, x, w) | None => (Dead, x, w) end.

Definition quant_kind_of (a : AnnState) : option QuantKind := q_kind <$> c_quantization (an_config a).

(** Adopt the cached index and insert every row since, or build one. *)
Definition load_or_build_ann (sched : list nat) : M AnnState unit :=
  (let* a := get_st in
   match c_ann (an_config a), an_ann a with
   | Some cfg, Some _ =>
       let dim := segments_dimension (an_data a) in
       let d := c_distance (an_config a) in
       let total := segments_row_count (an_data a) in
       if negb (st_persistence (an_store a)) then or_die (rebuild_ann sched)
       else
         let* loaded := load_index dim d cfg (quant_kind_of a) in
         match loaded with
         | Some (ix, covered) =>
             if (covered <=? total)%nat then
               let '(row_to_doc, _) := rebuild_row_to_doc (an_store a) in
               if (covered <? total)%nat
               then or_die (fun a =>
                      ix ← ann_insert_rows (an_walk a) (seq covered (total - covered)) ix;
                      Some (an_with (Some ix) true row_to_doc a))
               else modify (an_with (Some ix) false row_to_doc)
             else or_die (rebuild_ann sched)
         | None => or_die (rebuild_ann sched)
         end
   | _, _ => ret tt
   end)%m.

Definition persist_ann : M AnnState unit :=
  (let* a := get_st in
   match c_ann (an_config a), an_ann a with
   | Some cfg, Some ix =>
       if negb (an_dirty a) || negb (st_persistence (an_store a)) then ret tt
       else
         do* save_index ix (segments_row_count (an_data a)) (segments_dimension (an_data a)) (c_distance (an_config a)) cfg
               (quant_kind_of a) in
         modify (fun a => an_with (an_ann a) false (an_row_to_doc a) a)
   | _, _ => ret tt
   end)%m.

(** ** One index per sealed segment *)

Definition seg_indexing_on (a : AnnState) : bool :=
  negb (bool_decide (is_Some (an_ann a))) && bool_decide (is_Some (c_segment_index_min_rows (an_config a))).
Definition segment_ivf_config : AnnConfig := AnnConfig_ivf.

Definition segment_walk (a : AnnState) : Walk := Walk_exact (an_data a) (c_distance (an_config a)).
Definition new_segment_index (a : AnnState) (base rows : nat) : option IvfIndex :=
  ivf_build (segment_walk a) (seq base rows)
    (IvfIndex_new segment_ivf_config (segments_dimension (an_data a)) (c_distance (an_config a))).

(** The index of segment [i] with its dirty flag: a valid sidecar, whatever
    error reading it met, or a new one. *)
Definition segment_index (i : nat) (name : rstring) (base rows : nat) : M AnnState (option IvfIndex * bool) :=
  (let* a := get_st in
   let min := default 0%nat (c_segment_index_min_rows (an_config a)) in
   if (i =? length (segment_ranges (an_data a)) - 1)%nat || (rows <? min)%nat then ret (None, false)
   else
     let* cached := if st_persistence (an_store a)
       then catch (load_segment {| sl_name := name; sl_base := base; sl_rows := rows |} (segments_dimension (an_data a))
                     (c_distance (an_config a)) segment_ivf_config) (fun _ => ret None)
       else ret None in
     match cached with
     | Some ix => ret (Some ix, false)
     | None => fun x w => match new_segment_index a base rows with Some ix => (Ret (Some ix, true), x, w) | None => (Dead, x, w) end
     end)%m.
Fixpoint segment_indexes (i : nat) (segs : list ((nat * nat) * rstring)) : M AnnState (list (option IvfIndex * bool)) :=
  match segs with
  | [] => ret []
  | ((base, rows), name) :: segs =>
      (let* ix := segment_index i name base rows in let* rest := segment_indexes (S i) segs in ret (ix :: rest))%m
  end.
Definition an_refresh_rows (a : AnnState) : AnnState :=
  an_with (an_ann a) (an_dirty a) (rebuild_row_to_doc (an_store a)).1 a.
Definition build_segment_indexes : M AnnState unit :=
  (do* modify (an_with_segs [] []) in
   let* a := get_st in
   if negb (seg_indexing_on a) then ret tt
   else
     do* modify an_refresh_rows in
     let* ixs := segment_indexes 0 (zip (segment_ranges (an_data a)) (segment_names (an_data a))) in
     modify (an_with_segs (map fst ixs) (map snd ixs)))%m.

(** Write the dirty ones. *)
Fixpoint persist_segs (segs : list ((nat * nat) * rstring)) (i : nat) : M AnnState unit :=
  match segs with
  | [] => ret tt
  | ((base, rows), name) :: segs =>
      (let* a := get_st in
       do* match an_seg_indexes a !! i, an_seg_dirty a !! i with
           | Some (Some ix), Some true =>
               do* save_segment {| sl_name := name; sl_base := base; sl_rows := rows |} (segments_dimension (an_data a))
                     (c_distance (an_config a)) segment_ivf_config ix in
               modify (fun a => an_with_segs (an_seg_indexes a) (<[i := false]> (an_seg_dirty a)) a)
           | _, _ => ret tt
           end in
       persist_segs segs (S i))%m
  end.
Definition persist_seg_indexes : M AnnState unit :=
  (let* a := get_st in
   let ranges := segment_ranges (an_data a) in
   if bool_decide (an_seg_indexes a = []) || negb (st_persistence (an_store a))
      || negb (length ranges =? length (an_seg_indexes a))%nat || negb (length (an_seg_dirty a) =? length ranges)%nat
   then ret tt
   else persist_segs (zip ranges (segment_names (an_data a))) 0)%m.

Definition delete_seg_index_sidecars (names : list rstring) : M AnnState unit :=
  (let* a := get_st in
   if negb (st_persistence (an_store a)) then ret tt
   else foldl (fun m name => do* m in ignore (p_delete (segment_object_name name))) (ret tt) names)%m.

Definition index_just_sealed : M AnnState unit :=
  (let* a := get_st in
   if negb (seg_indexing_on a) then ret tt
   else
     let ranges := segment_ranges (an_data a) in
     let sealed := (length ranges - 2)%nat in
     if negb (length (an_seg_indexes a) =? sealed + 1)%nat || negb (length (an_seg_dirty a) =? sealed + 1)%nat
     then build_segment_indexes
     else
       let min := default 0%nat (c_segment_index_min_rows (an_config a)) in
       let '(base, rows) := default (0, 0)%nat (ranges !! sealed) in
       do* modify an_refresh_rows in
       or_die (fun a =>
         built ← (if (min <=? rows)%nat then Some <$> new_segment_index a base rows else Some None);
         Some (an_with_segs (<[sealed := built]> (an_seg_indexes a) ++ [None])
                 (<[sealed := bool_decide (is_Some built)]> (an_seg_dirty a) ++ [false]) a)))%m.

(** ** The caches a query reads *)

(** An index answers with its walk; a walk that panics answers nothing. *)
Definition ann_walk_fn (a : AnnState) (ix : Ann) (q : list f32) (n : nat) : list (nat * f32) :=
  default [] (ann_search (an_walk a) q n ix).
Definition caches_of (scan_order : option (list scan_entry)) (a : AnnState) : Caches :=
  {| ca_quant := an_quant a; ca_ann := ann_walk_fn a <$> an_ann a;
     ca_seg_indexes := map (fun o => (fun ix q n => default [] (ivf_search (segment_walk a) q n ix)) <$> o) (an_seg_indexes a);
     ca_row_to_doc := an_row_to_doc a; ca_scan_order := scan_order |}.
End index.
