(* ===== verification/AnnSpec.v ===== *)
(** * AnnSpec: what a search through an approximate index answers

    The reverse map resolves the rows of the live documents; whatever rows the
    index proposes, the answer is the exact ranking of the candidates among
    them ([rebuilt_ann_search]), and all of them when the index cannot miss. *)
From S2P Require Import Prelude Floats Model Config Sort TopK Std Hits.
From S2P Require Import TextPred Filter Literal Findex Narrow.
From S2P Require Import Backend Codec Log Data IndexCache Manifest Segments Replay Store Mmr Aggregate Expand Rank Scoring Quant Search.
From S2P Require Import SearchSpec SearchPaths Ann IvfOk HnswWalk HnswOk HnswPar HnswParOk AnnStore.

(** ** The reverse map *)

Section owners.
Context `{HashOrder}.

(** Every row of a live document is in the data and belongs to it alone. *)
Record row_owners (s : Store) : Prop := {
  ow_in : Forall (fun x => (x.1 < segments_row_count (st_data s))%nat) (owned_rows s);
  ow_one : NoDup (owned_rows s).*1
}.
Definition live_rows (s : Store) : list nat :=
  map fst (List.filter (fun x => bool_decide (x.2.2 = DEFAULT_VECTOR)) (owned_rows s)).

Lemma owned_rows_elem s row c id name :
  (row, (c, id, name)) ∈ owned_rows s <->
  exists col entry, st_collections s !! c = Some col /\ cl_docs col !! id = Some entry /\ de_rows entry !! name = Some row.
Proof.
  unfold owned_rows. rewrite list_elem_of_join. split.
  - intros (l & Hx & Hl). apply list_elem_of_fmap in Hl as ([n col] & -> & Hn%collections_entries_elem).
    apply list_elem_of_join in Hx as (l' & Hx & Hl'). apply list_elem_of_fmap in Hl' as ([i e] & -> & Hi%docs_entries_elem).
    apply list_elem_of_fmap in Hx as ([nm r] & [= -> -> -> ->] & Hr%elem_of_bt_entries). by exists col, e.
  - intros (col & entry & Hc & Hd & Hr).
    eexists. split; [|apply list_elem_of_fmap; exists (c, col); split; [reflexivity|by apply collections_entries_elem]]. cbn [fst snd].
    apply list_elem_of_join.
    eexists. split; [|apply list_elem_of_fmap; exists (id, entry); split; [reflexivity|by apply docs_entries_elem]]. cbn [fst snd].
    apply list_elem_of_fmap. exists (name, row). split; [reflexivity|by apply elem_of_bt_entries].
Qed.

Lemma note_rows_spec (l : list (nat * (rstring * rstring * rstring))) m live :
  Forall (fun x => (x.1 < length m)%nat) l -> NoDup l.*1 ->
  let r := foldl note_row (m, live) l in
  r.2 = live ++ map fst (List.filter (fun x => bool_decide (x.2.2 = DEFAULT_VECTOR)) l) /\
  (forall row o, (row, o) ∈ l -> r.1 !! row = Some (Some o)) /\
  (forall row, row ∉ l.*1 -> r.1 !! row = m !! row).
Proof.
  revert m live. induction l as [|[x o] l IH]; intros m live Hin Hnd; cbn zeta.
  { cbn. split_and!; [by rewrite app_nil_r|by intros ?? ?%elem_of_nil|done]. }
  apply Forall_cons in Hin as [Hx Hin]. cbn [fst fmap list_fmap] in *. apply NoDup_cons in Hnd as [Hn Hnd]. cbn [foldl].
  unfold note_row at 2 4 6. cbn [fst snd]. rewrite (proj2 (Nat.ltb_lt _ _)) by done.
  match goal with |- context [foldl note_row (?m', ?live')] => destruct (IH m' live') as (E2 & E1 & E0) end;
    [by rewrite length_insert|done|]. cbn zeta in *. split_and!.
  - rewrite E2. cbn [List.filter fst snd]. case_bool_decide; [|done]. by rewrite <- app_assoc.
  - intros row p [[= -> ->]|Hp]%elem_of_cons; [|by apply E1]. rewrite E0 by done. by apply list_lookup_insert_eq.
  - intros row [Hr Hl]%not_elem_of_cons. rewrite E0 by done. by apply list_lookup_insert_ne.
Qed.

(** The map names the owner of every live row, and nothing else. *)
Lemma rebuild_row_to_doc_spec s : row_owners s ->
  (rebuild_row_to_doc s).2 = live_rows s /\
  forall row o, (rebuild_row_to_doc s).1 !! row = Some (Some o) <-> (row, o) ∈ owned_rows s.
Proof.
  intros [Hin Hone]. unfold rebuild_row_to_doc.
  destruct (note_rows_spec (owned_rows s) (replicate (segments_row_count (st_data s)) None) []) as (E2 & E1 & E0);
    [by rewrite length_replicate|done|]. cbn zeta in *. split; [done|]. intros row o. split; [|by apply E1].
  intros E. destruct (decide (row ∈ (owned_rows s).*1)) as [Hr|Hr].
  - apply list_elem_of_fmap in Hr as ([r o'] & -> & Hr). cbn in E. rewrite (E1 _ _ Hr) in E. by injection E as <-.
  - rewrite E0 in E by done. by apply lookup_replicate in E as [? _].
Qed.

Lemma live_rows_elem s row : row ∈ live_rows s <->
  exists c id col entry, st_collections s !! c = Some col /\ cl_docs col !! id = Some entry /\
    de_rows entry !! DEFAULT_VECTOR = Some row.
Proof.
  unfold live_rows. rewrite list_elem_of_fmap. split.
  - intros ([r [[c id] nm]] & -> & Hx). apply list_elem_of_In, filter_In in Hx as [Hx Hb%bool_decide_eq_true]. cbn in *. subst nm.
    apply list_elem_of_In, owned_rows_elem in Hx as (col & e & ?). by exists c, id, col, e.
  - intros (c & id & col & e & Hx). exists (row, (c, id, DEFAULT_VECTOR)). split; [done|].
    apply list_elem_of_In, filter_In. split; [|by apply bool_decide_eq_true_2]. apply list_elem_of_In, owned_rows_elem. by exists col, e.
Qed.

Lemma NoDup_map_filter {A B} (f : A -> B) p (l : list A) : NoDup (map f l) -> NoDup (map f (List.filter p l)).
Proof.
  induction l as [|x l IH]; cbn; [done|]. intros [Hx Hl]%NoDup_cons. destruct (p x); [|by apply IH]. cbn.
  constructor; [|by apply IH]. contradict Hx. apply list_elem_of_fmap in Hx as (y & -> & Hy).
  apply list_elem_of_fmap_2. apply list_elem_of_In, filter_In in Hy as [Hy _]. by apply list_elem_of_In.
Qed.
Lemma live_rows_nodup s : row_owners s -> NoDup (live_rows s).
Proof. intros [_ Hone]. by apply NoDup_map_filter. Qed.
Lemma live_rows_in s : row_owners s -> rows_in (st_data s) (live_rows s).
Proof.
  intros [Hin _]. apply Forall_forall. intros row (c & id & col & e & Hx)%live_rows_elem. rewrite Forall_forall in Hin.
  apply (Hin (row, (c, id, DEFAULT_VECTOR))). apply owned_rows_elem. by exists col, e.
Qed.
End owners.

(** ** The candidates among the rows proposed *)

Section proposed.
Context `{UnicodeAlnum} `{RegexEngine} `{RegexSyntax} `{HashOrder} `{SortUnstable} `{Powf}.
Context (s : Store) (m : list (option (rstring * rstring * rstring))).
Context (Hm : forall row o, m !! row = Some (Some o) <-> (row, o) ∈ owned_rows s).

(** The candidates whose row is among the rows seen. *)
Definition seen_matching (names : list rstring) (filter : Filter) (seen : list nat) : list scan_entry :=
  List.filter (fun e : scan_entry => bool_decide (e.1 ∈ seen)) (matching s names filter).

Lemma seen_elem names filter seen e :
  e ∈ seen_matching names filter seen <-> is_candidate s names filter e /\ e.1 ∈ seen.
Proof.
  unfold seen_matching. rewrite list_elem_of_In, filter_In, <- list_elem_of_In, matching_elem, bool_decide_eq_true. done.
Qed.

Lemma candidate_walked names q opts e : is_candidate s names (so_filter opts) e ->
  walked s m names q opts e.1 = full_score s q opts e.
Proof.
  intros (col & entry & Hc & Hcol & Hd & Hr & Hf). destruct e as [row [c id]]. cbn [fst snd] in *. unfold walked.
  rewrite (proj2 (Hm row (c, id, DEFAULT_VECTOR))) by (apply owned_rows_elem; by exists col, entry).
  rewrite !bool_decide_eq_true_2 by done. cbn [negb]. rewrite Hcol. cbn [mbind option_bind]. rewrite Hd.
  rewrite bool_decide_eq_true_2 by done. cbn [negb]. rewrite Hf. cbn [negb].
  unfold full_score, ranked_score. cbn [fst snd]. rewrite (attrs_of_doc _ _ _ _ _ Hcol Hd). by destruct (so_rank_by opts).
Qed.

Lemma candidate_row names filter e e' :
  is_candidate s names filter e -> is_candidate s names filter e' -> e.2 = e'.2 -> e = e'.
Proof.
  intros (col & en & _ & Hc & Hd & Hr & _) (col' & en' & _ & Hc' & Hd' & Hr' & _) E.
  destruct e as [r x], e' as [r' x']. cbn in *. subst x'. simplify_eq. done.
Qed.

(** Resolving the rows seen gives the candidates among them, with their scores. *)
Lemma walked_rows names q opts seen : NoDup names -> NoDup seen ->
  omap (walked s m names q opts) seen ≡ₚ omap (full_score s q opts) (seen_matching names (so_filter opts) seen).
Proof.
  intros Hn Hs. assert (forall row x, walked s m names q opts row = Some x ->
    exists e, e.1 = row /\ is_candidate s names (so_filter opts) e /\ full_score s q opts e = Some x) as Hw.
  { apply walked_entry. }
  apply NoDup_Permutation.
  - apply (NoDup_fmap_1 snd). clear Hn. induction Hs as [|row seen Hr Hs IH]; [constructor|]. cbn.
    destruct (walked s m names q opts row) as [x|] eqn:E; [|done]. cbn. constructor; [|done]. contradict Hr.
    apply list_elem_of_fmap in Hr as (y & Exy & (row' & Hrow' & Hy)%list_elem_of_omap).
    apply Hw in E as (e & <- & Hc & Hx%full_score_snd). apply Hw in Hy as (e' & <- & Hc' & Hy%full_score_snd).
    rewrite (candidate_row _ _ e e' Hc Hc'); [done|congruence].
  - apply (NoDup_fmap_1 snd), full_score_nodup, NoDup_map_filter, matching_nodup, Hn.
  - intros x. rewrite !list_elem_of_omap. split.
    + intros (row & Hr & E). apply Hw in E as (e & <- & Hc & Hx). exists e. split; [by apply seen_elem|done].
    + intros (e & [Hc Hr]%seen_elem & Hx). exists e.1. split; [done|]. by rewrite candidate_walked.
Qed.

Lemma offer_candidates_offers ca names q opts cands t : ca_row_to_doc ca = m ->
  offer_candidates s ca names q opts cands t = offers item_cmp t (omap (walked s m names q opts) (map fst cands)).
Proof.
  intros <-. unfold offer_candidates. revert t. induction cands as [|c l IH]; intros t; [done|]. cbn [foldl map omap list_omap].
  rewrite IH. by destruct (walked _ _ _ _ _ _).
Qed.

(** The ranking of the candidates among the rows seen. *)
Definition seen_reference (names : list rstring) (q : list f32) (opts : SearchOpts) (n : nat) (seen : list nat) : list Hit :=
  map (hit_of s (so_projection opts)) (top item_cmp n (omap (full_score s q opts) (seen_matching names (so_filter opts) seen))).

Lemma walk_answers ca names q opts cands n : ca_row_to_doc ca = m -> NoDup names -> NoDup (map fst cands) ->
  hits_from_topk s (offer_candidates s ca names q opts cands (TopK_new n)) (so_projection opts) =
    seen_reference names q opts n (map fst cands).
Proof.
  intros Hca Hn Hc. unfold hits_from_topk, seen_reference. f_equal. rewrite offer_candidates_offers by done.
  pose proof (walked_rows names q opts (map fst cands) Hn Hc) as Hp.
  assert (NoDup (omap (full_score s q opts) (seen_matching names (so_filter opts) (map fst cands))).*2) as Hd
    by (apply full_score_nodup, NoDup_map_filter, matching_nodup, Hn).
  rewrite offers_top by (try apply _; by rewrite Hp). symmetry. by apply top_perm; try apply _.
Qed.
End proposed.

(** ** Searching through a rebuilt index *)

Section rebuilt.
Context `{UnicodeAlnum} `{RegexEngine} `{RegexSyntax} `{!RegexLaws} `{HashOrder} `{SortUnstable} `{Powf}.
Context `{SelectNth} `{BinaryHeap} `{Ln64}.

(** The number of rows a query asks the index for. *)
Definition wanted (s : Store) (opts : SearchOpts) : nat :=
  n_candidates (Nat.max (match c_ann (st_config s) with Some cfg => a_overscan cfg | None => 1%nat end) 1) opts.

(** The ranking of the candidates whose row was seen, or of all of them. *)
Lemma search_ann_spec tok s m ca names q opts ann :
  (forall row o, m !! row = Some (Some o) <-> (row, o) ∈ owned_rows s) ->
  ca_ann ca = Some ann -> ca_row_to_doc ca = m -> NoDup names -> NoDup (map fst (ann q (wanted s opts))) ->
  search_ann tok s ca names q opts = Ok (seen_reference s names q opts (so_top_k opts) (map fst (ann q (wanted s opts)))) \/
  answers tok (map (hit_of s (so_projection opts))
      (top item_cmp (so_top_k opts) (omap (full_score s q opts) (matching s names (so_filter opts)))))
    (search_ann tok s ca names q opts).
Proof.
  intros Hm Ha Hr Hn Hd. unfold search_ann. rewrite Ha. cbn zeta. fold (wanted s opts).
  destruct (Nat.eqb_spec (so_top_k opts) 0) as [E|E]; [left; unfold seen_reference; by rewrite E|].
  pose proof (walk_answers s m Hm ca names q opts (ann q (wanted s opts)) (so_top_k opts) Hr Hn Hd) as Hw.
  destruct (_ || _); [|left; by rewrite Hw].
  unfold collect_selective_scan. change (mjoin _) with (matching s names (so_filter opts)).
  destruct (_ <? length _)%nat; [left; by rewrite Hw|]. right.
  assert (NoDup (sort_unstable by_row (matching s names (so_filter opts))).*2) as Hnd
    by (rewrite sort_unstable_perm; by apply matching_nodup).
  erewrite <- (top_perm item_cmp _ (omap (full_score s q opts) (sort_unstable by_row (matching s names (so_filter opts)))));
    [by apply rank_scan_spec|by apply full_score_nodup|apply omap_perm, sort_unstable_perm].
Qed.

(** The index suits the store; it cannot miss when it probes all its lists. *)
Definition index_fits (dim : nat) (ix : Ann) : Prop :=
  match ix with AHnsw g => hg_dim g = dim /\ (0 < hg_ef_construction g)%nat | AIvf ix => iv_dim ix = dim end.
Definition exhaustive (ix : Ann) : Prop :=
  match ix with AHnsw _ => False | AIvf ix => (length (iv_lists ix) <= iv_n_probe ix)%nat end.

Lemma Ann_empty_fits cfg dim d : index_fits dim (Ann_empty cfg dim d).
Proof. unfold Ann_empty. destruct (a_kind cfg); cbn; [split; [done|lia]|done]. Qed.

(** What an index built over the rows proposes for a query. *)
Lemma built_proposes sched w rows workers ix ix' query n dim :
  index_fits dim ix -> (0 < dim)%nat -> row_width (wk_data w) dim -> rows_in (wk_data w) rows -> NoDup rows ->
  (N.of_nat (length rows) <= 2 ^ 32)%N -> walkable w rows -> (forall r, r ∈ rows -> is_Some (qs_score (query_scorer w query) r)) ->
  ann_build sched w rows workers ix = Some ix' ->
  exists hits, ann_search w query n ix' = Some hits /\ NoDup (map fst hits) /\ map fst hits ⊆ rows /\
    (length hits <= n)%nat /\ (exhaustive ix' -> (length rows <= n)%nat -> map fst hits ≡ₚ rows).
Proof.
  intros Hf Hd Hw Hr Hnd Hn Hwalk Hq. destruct ix as [g|ix]; cbn [ann_build]; intros (y & E & ->)%fmap_Some; cbn [ann_search exhaustive].
  - destruct Hf as [Hf Hef]. apply hnsw_build_on_build in E.
    destruct (hnsw_build_ok w rows workers g y) as (Hg & Hrows & Hdim); [lia|done..|].
    destruct (hnsw_search_ok 2 w query n y Hg) as (hits & Es & [Hl _ Hin _ Hdup _]); [lia|by rewrite Hrows|].
    exists hits. split_and!; [done|apply Hdup; by rewrite Hrows| |done|done].
    intros r (h & -> & Hh)%list_elem_of_fmap. rewrite Forall_forall in Hin. rewrite <- Hrows. by apply Hin.
  - cbn in Hf. subst dim. destruct (ivf_build_covers w rows ix Hd Hw Hr) as (y' & E' & Hc & Hp & _).
    rewrite E' in E. injection E as ->. rewrite <- Hp in Hd.
    destruct (ivf_search_some w query n rows y (fun r => default f32_zero (qs_score (query_scorer w query) r)) Hd Hc)
      as (l & rest & ranked & Hl & Hrest & Hpr & _ & Es); [intros r Hin; by destruct (Hq r Hin) as [x ->]|].
    assert (map fst ranked ≡ₚ l) as Hrl by (rewrite Hpr, map_map; cbn; by rewrite map_id).
    assert (NoDup (l ++ rest)) as Hlr by (by rewrite Hl). apply NoDup_app in Hlr as (Hdl & _ & _).
    exists (take n ranked). split_and!; [done| | |rewrite length_take; lia|].
    + rewrite <- firstn_map. apply (sublist_NoDup _ (map fst ranked)); [by rewrite Hrl|apply sublist_take].
    + rewrite <- firstn_map. intros r Hin%elem_of_take_in. rewrite Hrl in Hin. rewrite <- Hl. set_solver.
    + intros Hx Hlen. rewrite (Hrest Hx), app_nil_r in Hl. rewrite take_ge; [by rewrite Hrl|].
      rewrite <- (length_map fst), Hrl, Hl. done.
Qed.

Lemma an_walk_data a : wk_data (an_walk a) = an_data a.
Proof. unfold an_walk, ann_walk_for. destruct (an_quant a) as [[|]|]; try done; by case_bool_decide. Qed.

(** A query that reaches the index. *)
Lemma search_by_index tok s ca names query opts :
  check_query_dim s query = Ok tt -> check_query_opts opts = Ok tt -> so_names opts = [] -> so_exact opts = false ->
  is_Some (ca_ann ca) ->
  search tok s ca names query opts =
    (let? ranked := search_ann tok s ca names (normalized s query) (deepened opts) in finish s ranked opts)%res.
Proof.
  intros Hd Ho Hn He Ha. unfold search. rewrite Hd, Ho. cbn [res_bind].
  change (so_names (deepened opts)) with (so_names opts). change (so_exact (deepened opts)) with (so_exact opts).
  rewrite Hn, He, !bool_decide_eq_true_2 by done. done.
Qed.

(** C5: searching through a rebuilt index is exact over what the index
    proposes: once an index of either kind is rebuilt over the live documents,
    serially or by any schedule of threads, a search is the tail applied to
    the exact ranking of the candidates among the rows it proposed, at most as
    many as were asked for, or of all candidates when the query is selective
    enough; and when an inverted file probes all its lists and as many rows are
    asked for as are live, the answer is the one of an exact search. *)
Theorem rebuilt_ann_search tok sched a a' ix0 order names query opts dim :
  an_ann a = Some ix0 -> index_fits dim ix0 -> (0 < dim)%nat -> row_width (an_data a) dim ->
  row_owners (an_store a) -> (N.of_nat (length (live_rows (an_store a))) <= 2 ^ 32)%N ->
  walkable (an_walk a) (live_rows (an_store a)) ->
  (forall r, r ∈ live_rows (an_store a) -> is_Some (qs_score (query_scorer (an_walk a) (normalized (an_store a) query)) r)) ->
  check_query_dim (an_store a) query = Ok tt -> check_query_opts opts = Ok tt -> so_names opts = [] -> so_exact opts = false ->
  NoDup names -> rebuild_ann sched a = Some a' ->
  exists ix seen, an_store a' = an_store a /\ an_ann a' = Some ix /\
    NoDup seen /\ seen ⊆ live_rows (an_store a) /\ (length seen <= wanted (an_store a) (deepened opts))%nat /\
    (search tok (an_store a') (caches_of order a') names query opts =
       finish (an_store a) (seen_reference (an_store a) names (normalized (an_store a) query) opts (depth opts) seen) opts \/
     search tok (an_store a') (caches_of order a') names query opts =
       finish (an_store a) (reference (an_store a) names query opts (depth opts)) opts \/
     search tok (an_store a') (caches_of order a') names query opts = Err QCancelled /\ exists w j, tok w j = true) /\
    (exhaustive ix -> (length (live_rows (an_store a)) <= wanted (an_store a) (deepened opts))%nat ->
       seen_reference (an_store a) names (normalized (an_store a) query) opts (depth opts) seen =
         reference (an_store a) names query opts (depth opts)).
Proof.
  intros Ha Hfit Hd Hw How Hlen Hwalk Hq Hqd Ho Hns Hne Hnd Hb. set (s := an_store a) in *.
  unfold rebuild_ann in Hb. rewrite Ha in Hb. destruct (rebuild_row_to_doc_spec s How) as [El Hm]. fold s in Hb.
  destruct (rebuild_row_to_doc s) as [m live]. cbn [fst snd] in El, Hm. subst live.
  apply bind_Some in Hb as (ix & Hb & [= <-]).
  destruct (built_proposes sched (an_walk a) (live_rows s) (effective_query_threads a) ix0 ix (normalized s query) (wanted s (deepened opts)) dim) as (hits & Es & Hdup & Hsub & Hl & Hall);
    [done..|by rewrite an_walk_data|rewrite an_walk_data; by apply live_rows_in|by apply live_rows_nodup|done|done|done|exact Hb|].
  exists ix, (map fst hits). cbn [an_with an_store an_ann]. fold s. split_and!; [done|done|done|done|by rewrite length_map| |].
  - set (ca := caches_of _ _). rewrite search_by_index by (try done; by eexists).
    assert (ann_walk_fn (an_with (Some ix) true m a) ix (normalized s query) (wanted s (deepened opts)) = hits) as Ef
      by (unfold ann_walk_fn; change (an_walk (an_with (Some ix) true m a)) with (an_walk a); by rewrite Es).
    destruct (search_ann_spec tok s m ca names (normalized s query) (deepened opts) (ann_walk_fn (an_with (Some ix) true m a) ix) Hm)
      as [E|E]; [done|done|done|by rewrite Ef| |].
    + left. rewrite E, Ef. done.
    + destruct (search_ann _ _ _ _ _ _) as [ranked|e]; cbn [answers res_bind] in *.
      * right. left. by subst ranked.
      * right. right. by destruct E as [-> ?].
  - intros Hx Hn. specialize (Hall Hx Hn). unfold seen_reference, reference. do 2 f_equal. f_equal. unfold seen_matching.
    apply filter_all, Forall_forall. intros e (col & en & _ & Hc & Hdoc & Hr & _)%matching_elem. apply bool_decide_eq_true_2. rewrite Hall.
    apply live_rows_elem. by exists e.2.1, e.2.2, col, en.
Qed.
End rebuilt.

(** ** A concrete index *)

Section examples.
Import PlainEngine Demo.
#[local] Existing Instance flat_ln.

Definition demo_ann : AnnState :=
  {| an_store := store; an_quant := None; an_ann := Some (AIvf sample_index); an_dirty := false; an_row_to_doc := [];
     an_seg_indexes := []; an_seg_dirty := [] |}.
Definition walked_opts : SearchOpts :=
  let o := opts 4 0 in
  {| so_top_k := 4; so_offset := 0; so_filter := so_filter o; so_min_score := None;
     so_exact := false; so_projection := PrAll; so_explain := false; so_plan := false; so_rank_by := None;
     so_limit_per := None; so_diversity := None; so_rerank := None; so_expand := None; so_names := [];
     so_name_weights := ∅; so_pool := PoolMax |}.

Lemma demo_owners : row_owners store.
Proof. split; [|by apply (bool_decide_unpack _); vm_compute]. repeat constructor; vm_compute; lia. Qed.

Definition lists_of (a : option AnnState) : option (nat * nat) :=
  match a with
  | Some a => match an_ann a with Some (AIvf ix) => Some (length (iv_lists ix), iv_n_probe ix) | _ => None end
  | None => None
  end.
Lemma demo_lists : lists_of (rebuild_ann [] demo_ann) = Some (2, 8)%nat.
Proof. vm_compute. reflexivity. Qed.

Lemma demo_search :
  (fun a => ids_of (search never (an_store a) (caches_of None a) [lit "a"; lit "b"] [f32_one] walked_opts)) <$>
    rebuild_ann [] demo_ann =
  Some (Ok [(lit "a", lit "y"); (lit "b", lit "z"); (lit "b", lit "x"); (lit "a", lit "x")]).
Proof. vm_compute. reflexivity. Qed.

(** The four documents through the lists of an inverted file: the exact answer. *)
Lemma rebuilt_ann_search_witness :
  exists a' ix, rebuild_ann [] demo_ann = Some a' /\ an_ann a' = Some ix /\ exhaustive ix /\
    ids_of (search never (an_store a') (caches_of None a') [lit "a"; lit "b"] [f32_one] walked_opts) =
      Ok [(lit "a", lit "y"); (lit "b", lit "z"); (lit "b", lit "x"); (lit "a", lit "x")] /\
    search never (an_store a') (caches_of None a') [lit "a"; lit "b"] [f32_one] walked_opts =
      finish store (reference store [lit "a"; lit "b"] [f32_one] walked_opts (depth walked_opts)) walked_opts.
Proof.
  destruct (rebuild_ann [] demo_ann) as [a'|] eqn:Eb; [|by vm_compute in Eb].
  destruct (rebuilt_ann_search never [] demo_ann a' (AIvf sample_index) None [lit "a"; lit "b"] [f32_one] walked_opts 1)
    as (ix & seen & _ & Ei & Hdup & Hsub & Hlen & Hs & Hx);
    [done|done|lia|apply sample_width|exact demo_owners|by vm_compute| | |by vm_compute|by vm_compute|done|done| |exact Eb|].
  - apply walkable_exact. apply live_rows_in, demo_owners.
  - intros r Hr. assert (r ∈ [0; 1; 2; 3]%nat) as Hin by (assert (live_rows store ≡ₚ [0; 1; 2; 3]%nat) as <- by (vm_compute; reflexivity); done).
    clear Eb Hr. repeat (apply elem_of_cons in Hin as [->|Hin]; [vm_compute; eexists; reflexivity|]). by apply elem_of_nil in Hin.
  - apply (bool_decide_unpack _). by vm_compute.
  - assert (exhaustive ix) as Hex.
    { pose proof demo_lists as E. rewrite Eb in E. unfold lists_of in E. rewrite Ei in E. destruct ix as [g|ix]; [done|].
      injection E as E1 E2. cbn [exhaustive]. rewrite E1, E2. lia. }
    assert (length (live_rows (an_store demo_ann)) = 4%nat) as El by (vm_compute; reflexivity).
    assert (wanted (an_store demo_ann) (deepened walked_opts) = 4%nat) as Ewn by (vm_compute; reflexivity).
    pose proof demo_search as E. rewrite Eb in E. exists a', ix. split_and!; [reflexivity|exact Ei|exact Hex|injection E as E; exact E|].
    specialize (Hx Hex). rewrite El, Ewn in Hx. destruct Hs as [Hs|[Hs|[_ (w & j & Hj)]]]; [|exact Hs|discriminate Hj].
    rewrite Hs. rewrite Hx by apply le_n. reflexivity.
Defined.
End examples.
