(* ===== verification/Memory.v ===== *)
(** * Memory: remembering and recalling texts ([src/src/memory.rs])

    The text-native layer over the facade of a store: a text is embedded and
    written with its provenance and times, a document is cut into chunks that
    replace the chunks of its last version, and a query is embedded, searched and,
    on demand, reinforces what it found.  The embedder and the summarizer are
    services: arguments of the operations.  [caches] are the derived structures
    of a store at the moment of a search.  Every error is [EInvalid] where the
    code reports a text; the warning about an unpinned collection is left out. *)
From S2P Require Import Prelude Floats Model Config TextPred Filter Literal Findex Narrow Sort TopK Std Hits Backend Codec Log.
From S2P Require Import Data IndexCache Manifest Lease Segments Replay Store StoreWrite Mmr Aggregate Expand Rank Scoring Quant Search.
From S2P Require Import Analyzer Fts FtsStore Fuzzy Highlight TextSearch SqlQuery Chunk.

Definition META_EMBEDDER : rstring := lit "nidus.embedder".
Definition META_DIM : rstring := lit "nidus.dim".
Definition META_SUMMARY : rstring := lit "nidus.summary".
Definition META_CREATED_AT : rstring := lit "nidus.created_at".
Definition META_UPDATED_AT : rstring := lit "nidus.updated_at".
Definition VECTOR_TITLE : rstring := lit "title".
Definition DEFAULT_TOP_K : nat := 10.

(** ** Options and results *)

Inductive RememberMode := Raw | Summarize.
Record RememberOpts := {
  rm_mode : RememberMode;
  rm_attrs : attrs_map;
  rm_ttl_seconds : option Z;
  rm_dedupe_threshold : option f32
}.
Record Remembered := { rd_id : rstring; rd_deduped : bool; rd_upserted : nat }.
Record ChunkedRemembered := { cr_parent_id : rstring; cr_chunks : list Remembered; cr_pruned : nat }.

Record Rollup := { ru_per_parent : nat; ru_neighbours : nat }.
Record RecallOpts := {
  rc_top_k : nat;
  rc_min_score : f32;
  rc_filter : option Filter;
  rc_diversity : option f32;
  rc_rollup : option Rollup;
  rc_rank_by : option RankBy;
  rc_reinforce : bool;
  rc_extend_ttl_seconds : option Z
}.

Definition Rollup_new (neighbours : nat) : Rollup := {| ru_per_parent := 1; ru_neighbours := neighbours |}.
Definition as_opts (r : Rollup) : LimitPer * Expand :=
  ({| lp_field := META_PARENT_ID; lp_max := Nat.max (ru_per_parent r) 1 |}, Expand_new (N.of_nat (ru_neighbours r))).

(** An embedding service. *)
Record Embedder := {
  em_embed : rstring -> result err (list f32);
  em_embed_batch : list rstring -> result err (list (list f32));
  em_embed_query : rstring -> result err (list f32);
  em_dimension : nat;
  em_provider_name : rstring;
  em_model_name : rstring
}.
Definition embedder_identity (e : Embedder) : rstring := em_provider_name e ++ lit "/" ++ em_model_name e.

(** ** Reserved attributes *)

Definition RESERVED_RECENCY : list rstring :=
  [META_CREATED_AT; META_UPDATED_AT; META_EXPIRES_AT; META_ACCESS_COUNT; META_LAST_ACCESSED].
Definition RESERVED_CHUNK : list rstring := [META_PARENT_ID; META_CHUNK_INDEX; META_CHAR_START].

Definition strip (keys : list rstring) (attrs : attrs_map) : attrs_map := foldl (fun m k => delete k m) attrs keys.
Definition strip_reserved_recency (attrs : attrs_map) : attrs_map := strip RESERVED_RECENCY attrs.
Definition strip_reserved_chunk (attrs : attrs_map) : attrs_map := strip RESERVED_CHUNK attrs.

Definition stamp_recency (now : Z) (prior_created ttl_seconds : option Z) (attrs : attrs_map) : attrs_map :=
  let attrs := <[META_CREATED_AT := VDateTime (default now prior_created)]> attrs in
  let attrs := <[META_UPDATED_AT := VDateTime now]> attrs in
  match ttl_seconds with
  | Some ttl => <[META_EXPIRES_AT := VDateTime (i64_sat (now + i64_sat (ttl * 1000)))]> attrs
  | None => attrs
  end.

Definition not_expired_predicate (now : Z) : Predicate := PNot (PLe META_EXPIRES_AT (VDateTime now)).

(** [META_PARENT_ID = parent and META_CHUNK_INDEX >= n]. *)
Definition stale_tail (parent_id : rstring) (n : nat) : Filter :=
  {| filter_preds := [PAll [PEq META_PARENT_ID (VStr parent_id); PGe META_CHUNK_INDEX (VInt (Z.of_nat n))]] |}.

(** The id of a chunk: [{parent_id}#{index}]. *)
Definition chunk_id (parent_id : rstring) (index : nat) : rstring :=
  parent_id ++ lit "#" ++ u64_to_string (N.of_nat index).

(** [meta::now_ms]. *)
Definition now_ms {X} : M X Z := (let* t := now_secs in ret (Z.of_N t))%m.

(** A query that fails, panics or answers. *)
Definition of_query {X A} (r : result query_error A) : M X A :=
  match r with
  | Ok a => ret a
  | Err QPanic => fun x w => (Dead, x, w)
  | Err _ => throw EInvalid
  end.

Section memory.
Context `{Crc32} `{Codec Op} `{Codec Manifest} `{Codec HistoryEntry} `{Codec HistoryFloor} `{Codec Z}.
Context `{UnicodeAlnum} `{UnicodeLower} `{RegexEngine} `{RegexSyntax} `{HashOrder} `{HashIter} `{SortUnstable} `{Powf}
  `{TreeSitter}.
Context (tok : nat -> nat -> bool) (caches : Store -> Caches).

(** ** The facade's writes ([lib.rs]) *)

Definition at_concrete {A} (collection : rstring) (f : rstring -> M Store A) : M Store A :=
  (let* s := get_st in f (concrete s collection))%m.
Definition nidus_upsert (collection : rstring) (records : list VRecord) : M Store nat :=
  at_concrete collection (fun c => upsert c records).
Definition nidus_delete_where (collection : rstring) (filter : Filter) : M Store nat :=
  (do* (if is_ok (filter_validate filter) then ret tt else throw EInvalid) in
   at_concrete collection (fun c => delete_where c filter))%m.
Definition nidus_set_meta (collection : rstring) (meta : gmap rstring rstring) : M Store unit :=
  at_concrete collection (fun c => set_meta c meta).
Definition nidus_get (s : Store) (collection id : rstring) : option VRecord := get s (concrete s collection) id.
Definition nidus_get_meta (s : Store) (collection : rstring) : gmap rstring rstring :=
  match st_collections s !! concrete s collection with Some c => cl_meta c | None => ∅ end.
Definition nidus_vector_names (s : Store) (collection : rstring) : list rstring :=
  match st_collections s !! collection with Some c => cl_vector_names c | None => [] end.
(** Concrete names only. *)
Definition has_collection (s : Store) (name : rstring) : bool := bool_decide (is_Some (st_collections s !! name)).
Definition has_fts_schema (s : Store) (name : rstring) : bool := bool_decide (is_Some (fts_schema_for (ix_fts (st_index s)) name)).
(** The name is taken as it is. *)
Definition nidus_reinforce (collection : rstring) (ids : list rstring) (extend_ttl_seconds : option Z) : M Store nat :=
  (let* now := now_ms in reinforce collection ids now extend_ttl_seconds)%m.
Definition deferred {A} (m : M Store A) : M Store A :=
  (let* prev := begin_deferred in
   fun s w => match m s w with
              | (Dead, s, w) => (Dead, s, w)
              | (out, s, w) => (out, (end_deferred prev s w).1.2, w)
              end)%m.
(** Everything that has expired, then the rows. *)
Definition sweep_expired : M Store nat :=
  (let* now := now_ms in
   let* swept := delete_where_all {| filter_preds := [PLe META_EXPIRES_AT (VDateTime now)] |} in
   do* when (0 <? swept)%nat compact in
   ret swept)%m.

(** ** The embedding space of a collection *)

Definition default_fts_fields : list FtsField := [FtsField_new META_TEXT].

Definition bail_if_identity_differs (existing identity : rstring) : M Store unit :=
  if bool_decide (existing = identity) then ret tt else throw EInvalid.
Definition collection_has_rows (s : Store) (collection : rstring) : result query_error bool :=
  (let? a := nidus_aggregate s (ScopeCollection collection) {| ao_filter := Filter_default; ao_sum := []; ao_group_by := None |} in
   Ok (0 <? ag_count a)%N)%res.
(** Refused in strict mode. *)
Definition unpinned_collection : M Store unit :=
  (let* s := get_st in if c_strict_embedder_identity (st_config s) then throw EInvalid else ret tt)%m.

Definition ensure_collection_and_pin (e : Embedder) (collection : rstring) : M Store unit :=
  (let* s := get_st in
   let collection := concrete s collection in
   let identity := embedder_identity e in
   let store_dim := segments_dimension (st_data s) in
   do* (if negb (em_dimension e =? store_dim)%nat then throw EInvalid else ret tt) in
   do* when (negb (has_collection s collection)) (create_collection collection) in
   let* s := get_st in
   let meta := nidus_get_meta s collection in
   do* match meta !! META_EMBEDDER with
       | Some existing => bail_if_identity_differs existing identity
       | None =>
           let* rows := of_query (collection_has_rows s collection) in
           do* when rows unpinned_collection in
           nidus_set_meta collection (<[META_DIM := u64_to_string (N.of_nat store_dim)]> (<[META_EMBEDDER := identity]> meta))
       end in
   let* s := get_st in
   when (negb (has_fts_schema s collection)) (set_fts_schema collection default_fts_fields))%m.

Definition ensure_title_vector_declared (collection : rstring) : M Store unit :=
  (let* s := get_st in
   let collection := concrete s collection in
   let names := nidus_vector_names s collection in
   when (negb (bool_decide (VECTOR_TITLE ∈ names))) (set_vector_names collection (names ++ [VECTOR_TITLE])))%m.

Definition guard_recall_identity (e : Embedder) (collection : rstring) : M Store unit :=
  (let* s := get_st in
   let collection := concrete s collection in
   match nidus_get_meta s collection !! META_EMBEDDER with
   | Some existing => bail_if_identity_differs existing (embedder_identity e)
   | None => when (has_collection s collection) unpinned_collection
   end)%m.

(** ** Writing *)

Record RememberWrite := {
  rw_id : rstring;
  rw_text : rstring;
  rw_attrs : attrs_map;
  rw_ttl_seconds : option Z;
  rw_dedupe_threshold : option f32
}.
Record Prepared := { pr_id : rstring; pr_attrs : attrs_map; pr_vector : option (list f32); pr_deduped : bool }.

Definition record_from (p : Prepared) : VRecord :=
  match pr_vector p with
  | Some v => Record_new (pr_id p) v (pr_attrs p)
  | None => {| rec_id := pr_id p; rec_vector := None; rec_vectors := ∅; rec_attrs := pr_attrs p |}
  end.

(** The attributes of a write before anything is read. *)
Definition own_attrs (write : RememberWrite) (chunk : option (rstring * Z * Z)) : attrs_map :=
  let attrs := strip_reserved_chunk (strip_reserved_recency (rw_attrs write)) in
  let attrs := match chunk with
    | Some (parent_id, index, char_start) =>
        <[META_CHAR_START := VInt char_start]> (<[META_CHUNK_INDEX := VInt index]> (<[META_PARENT_ID := VStr parent_id]> attrs))
    | None => attrs
    end in
  <[META_TEXT := VStr (rw_text write)]> attrs.

Definition dedupe_opts (threshold : f32) (now : Z) : SearchOpts :=
  {| so_top_k := 1; so_offset := 0; so_filter := {| filter_preds := [not_expired_predicate now] |}; so_min_score := Some threshold;
     so_exact := false; so_projection := PrAll; so_explain := false; so_plan := false; so_rank_by := None; so_limit_per := None;
     so_diversity := None; so_rerank := None; so_expand := None; so_names := []; so_name_weights := ∅; so_pool := PoolMax |}.

(** The id to write, and whether it is the one of a near-duplicate. *)
Definition resolve_target (collection : rstring) (write : RememberWrite) (vector : option (list f32)) : M Store (rstring * bool) :=
  (match rw_dedupe_threshold write, vector with
   | Some _, None => throw EInvalid
   | Some threshold, Some v =>
       let* now := now_ms in
       let* s := get_st in
       let* hits := of_query (nidus_search tok s (caches s) (ScopeCollection collection) v (dedupe_opts threshold now)) in
       ret (match hits with hit :: _ => (h_id hit, true) | [] => (rw_id write, false) end)
   | None, _ => ret (rw_id write, false)
   end)%m.

Definition prior_created (existing : option VRecord) : option Z :=
  existing ≫= fun r => match rec_attrs r !! META_CREATED_AT with Some (VDateTime ms) => Some ms | _ => None end.

Definition prepare_remember (collection : rstring) (write : RememberWrite) (vector : option (list f32))
    (chunk : option (rstring * Z * Z)) : M Store Prepared :=
  (let* target := resolve_target collection write vector in
   let* s := get_st in
   let existing := nidus_get s collection target.1 in
   let attrs := own_attrs write chunk in
   let attrs := match existing with
     | Some r => if target.2 then attrs ∪ rec_attrs r else attrs
     | None => attrs
     end in
   let* now := now_ms in
   ret {| pr_id := target.1; pr_attrs := stamp_recency now (prior_created existing) (rw_ttl_seconds write) attrs;
          pr_vector := vector; pr_deduped := target.2 |})%m.

Definition commit_remember (e : Embedder) (collection : rstring) (write : RememberWrite) (vector : list f32) : M Store Remembered :=
  (do* ensure_collection_and_pin e collection in
   let* p := prepare_remember collection write (Some vector) None in
   let* upserted := nidus_upsert collection [record_from p] in
   ret {| rd_id := pr_id p; rd_deduped := pr_deduped p; rd_upserted := upserted |})%m.

Definition embed_and_commit (e : Embedder) (collection embed_text : rstring) (write : RememberWrite) : M Store Remembered :=
  (let* v := of_result (em_embed e embed_text) in commit_remember e collection write v)%m.

Definition remember (e : Embedder) (summarizer : option (rstring -> result err rstring)) (collection id text : rstring)
    (opts : RememberOpts) : M Store Remembered :=
  (let* prepared :=
     match rm_mode opts with
     | Raw => ret (text, rm_attrs opts)
     | Summarize =>
         match summarizer with
         | None => throw EInvalid
         | Some summarize =>
             let* summary := of_result (summarize text) in
             ret (summary, <[META_SUMMARY := VStr summary]> (rm_attrs opts))
         end
     end in
   embed_and_commit e collection prepared.1
     {| rw_id := id; rw_text := text; rw_attrs := prepared.2; rw_ttl_seconds := rm_ttl_seconds opts;
        rw_dedupe_threshold := rm_dedupe_threshold opts |})%m.

(** ** Documents in chunks *)

(** A chunk to write: its vector, and its place in the document. *)
Record ChunkWrite := { cw_write : RememberWrite; cw_vector : option (list f32); cw_index : Z; cw_char_start : Z }.

Definition chunk_write (parent_id : rstring) (opts : RememberOpts) (c : Chunk) (v : option (list f32)) : ChunkWrite :=
  {| cw_write := {| rw_id := chunk_id parent_id (ck_index c); rw_text := ck_text c; rw_attrs := rm_attrs opts;
                    rw_ttl_seconds := rm_ttl_seconds opts; rw_dedupe_threshold := None |};
     cw_vector := v; cw_index := Z.of_nat (ck_index c); cw_char_start := Z.of_nat (ck_char_start c) |}.

Definition add_title (title_vector : option (list f32)) (r : VRecord) : VRecord :=
  match title_vector with
  | Some t => {| rec_id := rec_id r; rec_vector := rec_vector r; rec_vectors := <[VECTOR_TITLE := t]> (rec_vectors r);
                 rec_attrs := rec_attrs r |}
  | None => r
  end.

Fixpoint prepare_chunks (collection parent_id : rstring) (title_vector : option (list f32)) (chunks : list ChunkWrite)
  : M Store (list (VRecord * (rstring * bool))) :=
  match chunks with
  | [] => ret []
  | c :: chunks =>
      (let* p := prepare_remember collection (cw_write c) (cw_vector c) (Some (parent_id, cw_index c, cw_char_start c)) in
       let* rest := prepare_chunks collection parent_id title_vector chunks in
       ret ((add_title title_vector (record_from p), (pr_id p, pr_deduped p)) :: rest))%m
  end.

Definition commit_chunks_inner (collection parent_id : rstring) (chunks : list ChunkWrite) (title_vector : option (list f32))
  : M Store (list Remembered) :=
  (let* prepared := prepare_chunks collection parent_id title_vector chunks in
   let* upserted := nidus_upsert collection (map fst prepared) in
   ret (map (fun p : VRecord * (rstring * bool) => {| rd_id := p.2.1; rd_deduped := p.2.2; rd_upserted := upserted |}) prepared))%m.

Definition commit_remember_chunks_with_title (e : Embedder) (collection parent_id : rstring) (chunks : list ChunkWrite)
    (title_vector : option (list f32)) : M Store (list Remembered) :=
  (do* ensure_collection_and_pin e collection in
   do* when (bool_decide (is_Some title_vector)) (ensure_title_vector_declared collection) in
   commit_chunks_inner collection parent_id chunks title_vector)%m.

(** The chunks of a text, or what ends the write early. *)
Definition chunks_of (text : rstring) (chunk_opts : ChunkOpts) (opts : RememberOpts) : M Store (list Chunk) :=
  match rm_mode opts, rm_dedupe_threshold opts with
  | Summarize, _ => throw EInvalid
  | Raw, Some _ => throw EInvalid
  | Raw, None =>
      match chunk_text text chunk_opts with
      | Err _ => throw EInvalid
      | Ok None => fun s w => (Dead, s, w)
      | Ok (Some chunks) => ret chunks
      end
  end.

(** The writes, the stale tail and the one barrier. *)
Definition replace_chunks (write : M Store (list Remembered)) (collection parent_id : rstring) (n : nat) : M Store ChunkedRemembered :=
  (let* r := deferred
     (let* remembered := write in
      let* pruned := nidus_delete_where collection (stale_tail parent_id n) in
      do* commit in
      ret (remembered, pruned)) in
   ret {| cr_parent_id := parent_id; cr_chunks := r.1; cr_pruned := r.2 |})%m.
Definition no_chunks (parent_id : rstring) : ChunkedRemembered := {| cr_parent_id := parent_id; cr_chunks := []; cr_pruned := 0 |}.

(** [remember_chunked_with]. *)
Definition remember_chunked (e : Embedder) (collection parent_id text : rstring) (chunk_opts : ChunkOpts) (opts : RememberOpts)
  : M Store ChunkedRemembered :=
  (let* chunks := chunks_of text chunk_opts opts in
   if bool_decide (chunks = []) then ret (no_chunks parent_id)
   else
     let title := extract_title text in
     let texts := map ck_text chunks ++ (match title with Some t => [t] | None => [] end) in
     let* vectors := of_result (em_embed_batch e texts) in
     if negb (length vectors =? length texts)%nat then throw EInvalid
     else
       let title_vector := match title with Some _ => last vectors | None => None end in
       let writes := zip_with (fun c v => chunk_write parent_id opts c (Some v)) chunks vectors in
       replace_chunks (commit_remember_chunks_with_title e collection parent_id writes title_vector)
         collection parent_id (length chunks))%m.

Definition remember_chunked_text_only (collection parent_id text : rstring) (chunk_opts : ChunkOpts) (opts : RememberOpts)
  : M Store ChunkedRemembered :=
  (let* chunks := chunks_of text chunk_opts opts in
   if bool_decide (chunks = []) then ret (no_chunks parent_id)
   else
     let* s := get_st in
     let target := concrete s collection in
     replace_chunks
       (let* s := get_st in
        do* when (negb (has_collection s target)) (create_collection target) in
        commit_chunks_inner target parent_id (map (fun c => chunk_write parent_id opts c None) chunks) None)
       target parent_id (length chunks))%m.

(** ** Recalling *)

Definition recall_search_opts (opts : RecallOpts) (now : Z) : SearchOpts :=
  {| so_top_k := if (rc_top_k opts =? 0)%nat then DEFAULT_TOP_K else rc_top_k opts; so_offset := 0;
     so_filter := {| filter_preds := filter_preds (default Filter_default (rc_filter opts)) ++ [not_expired_predicate now] |};
     so_min_score := if f32_ltb f32_zero (rc_min_score opts) then Some (rc_min_score opts) else None;
     so_exact := false; so_projection := PrAll; so_explain := false; so_plan := false; so_rank_by := rc_rank_by opts;
     so_limit_per := fst <$> (as_opts <$> rc_rollup opts); so_diversity := rc_diversity opts; so_rerank := None;
     so_expand := snd <$> (as_opts <$> rc_rollup opts); so_names := []; so_name_weights := ∅; so_pool := PoolMax |}.

Definition reinforce_hits (collection : rstring) (hits : list Hit) (extend_ttl_seconds : option Z) : M Store unit :=
  if bool_decide (hits = []) then ret tt
  else (let* _ := nidus_reinforce collection (map h_id hits) extend_ttl_seconds in ret tt)%m.

(** [recall_with]. *)
Definition recall (e : Embedder) (collection query_text : rstring) (opts : RecallOpts) : M Store (list Hit) :=
  (do* guard_recall_identity e collection in
   let* query := of_result (em_embed_query e query_text) in
   let* now := now_ms in
   let* s := get_st in
   let* hits := of_query (nidus_search tok s (caches s) (ScopeCollection collection) query (recall_search_opts opts now)) in
   do* when (rc_reinforce opts && negb (bool_decide (hits = [])) && negb (bool_decide (c_open_mode (st_config s) = ReadOnly)))
         (reinforce_hits collection hits (rc_extend_ttl_seconds opts)) in
   ret hits)%m.

(** Search and stamp, for callers that embed on their own. *)
Definition commit_recall (collection : rstring) (query : list f32) (search_opts : SearchOpts) (extend_ttl_seconds : option Z)
  : M Store (list Hit) :=
  (let* s := get_st in
   let* hits := of_query (nidus_search tok s (caches s) (ScopeCollection collection) query search_opts) in
   do* reinforce_hits collection hits extend_ttl_seconds in
   ret hits)%m.
End memory.
