(* ===== verification/MemoryOk.v ===== *)
(** * MemoryOk: what remembering and recalling promise

    A successful write leaves exactly the new chunks of a document and no other
    document changed; a recall answers with live, unexpired entries of the
    collection's own embedding space.  The statements are about the attributes
    of the documents, [attrs_at]. *)
From S2P Require Import Prelude Floats Model Config TextPred Filter Literal Findex Narrow Sort TopK Std Hits Backend Codec Log.
From S2P Require Import Data IndexCache Manifest Lease Segments Replay Store StoreWrite Mmr Aggregate Expand Rank Scoring Quant Search.
From S2P Require Import Analyzer Fts FtsStore Fuzzy Highlight TextSearch SqlQuery Chunk ChunkOk SearchSpec SearchPaths.
From S2P Require Import Effect LiveIndex Live Memory.

(** ** The documents of an index *)

Definition attrs_at (ix : Index) (c id : rstring) : option attrs_map :=
  de_attrs <$> (ix_collections ix !! c ≫= fun col => cl_docs col !! id).
Definition same_attrs (ix ix' : Index) : Prop := forall c id, attrs_at ix' c id = attrs_at ix c id.
#[export] Instance same_attrs_preorder : PreOrder same_attrs.
Proof. split; [by intros x c id|]. intros x y z H1 H2 c id. by rewrite H2, H1. Qed.

#[export] Instance same_attrs_symmetric : Symmetric same_attrs.
Proof. intros x y Hxy c id. by rewrite Hxy. Qed.

Lemma attrs_at_entry ix c id : attrs_at ix c id = de_attrs <$> cl_docs (entry c (ix_collections ix)) !! id.
Proof. unfold attrs_at, entry. destruct (ix_collections ix !! c); cbn; [done|]. by rewrite lookup_empty. Qed.

Lemma attrs_at_collection ix c f m c' id :
  ix_collections ix = <[c := f]> m ->
  attrs_at ix c' id = if decide (c' = c) then de_attrs <$> cl_docs f !! id else de_attrs <$> (m !! c' ≫= fun col => cl_docs col !! id).
Proof.
  intros E. unfold attrs_at. rewrite E. destruct (decide (c' = c)) as [->|Hn].
  - by rewrite lookup_insert_eq.
  - by rewrite lookup_insert_ne.
Qed.

(** A collection replaced by one with the same documents. *)
Lemma same_attrs_insert ix ix' c f :
  ix_collections ix' = <[c := f]> (ix_collections ix) -> cl_docs f = cl_docs (entry c (ix_collections ix)) -> same_attrs ix ix'.
Proof.
  intros E Ef c' id. rewrite (attrs_at_collection _ _ _ _ _ _ E). destruct (decide (c' = c)) as [->|]; [|done].
  by rewrite Ef, attrs_at_entry.
Qed.

Lemma attrs_put c id e ix c' id' :
  attrs_at (put_doc c id e ix) c' id' = if decide (c' = c /\ id' = id) then Some (de_attrs e) else attrs_at ix c' id'.
Proof.
  rewrite (attrs_at_collection _ c (set_docs (<[id := e]> (cl_docs (entry c (ix_collections ix)))) (entry c (ix_collections ix))) (ix_collections ix)) by done.
  destruct (decide (c' = c)) as [->|Hc]; [|by rewrite decide_False by naive_solver].
  cbn [cl_docs set_docs]. destruct (decide (id' = id)) as [->|Hi].
  - by rewrite lookup_insert_eq, decide_True by done.
  - rewrite lookup_insert_ne, decide_False by naive_solver. by rewrite attrs_at_entry.
Qed.

Lemma attrs_remove c id ix c' id' :
  attrs_at (remove_entry c id ix) c' id' = if decide (c' = c /\ id' = id) then None else attrs_at ix c' id'.
Proof.
  unfold remove_entry. destruct (ix_collections ix !! c) as [col|] eqn:Ec.
  - rewrite (attrs_at_collection _ c (set_docs (delete id (cl_docs col)) col) (ix_collections ix)) by done.
    destruct (decide (c' = c)) as [->|Hc]; [|by rewrite decide_False by naive_solver].
    cbn [cl_docs set_docs]. destruct (decide (id' = id)) as [->|Hi].
    + by rewrite lookup_delete_eq, decide_True by done.
    + rewrite lookup_delete_ne, decide_False by naive_solver. unfold attrs_at. by rewrite Ec.
  - destruct (decide (c' = c /\ id' = id)) as [[-> ->]|]; [|done]. unfold attrs_at. by rewrite Ec.
Qed.
Lemma attrs_remove_doc c id ix c' id' :
  attrs_at (remove_doc_entry c id ix) c' id' = if decide (c' = c /\ id' = id) then None else attrs_at ix c' id'.
Proof. unfold remove_doc_entry. by rewrite attrs_remove. Qed.

Section batch.
Context `{UnicodeAlnum} `{UnicodeLower} `{HashIter}.

Lemma attrs_commit_staged c f fx ix st c' id' :
  attrs_at (commit_staged c f fx ix st) c' id' = if decide (c' = c /\ id' = st.1.1) then Some st.2 else attrs_at ix c' id'.
Proof. destruct st as [[id rows] attrs]. unfold commit_staged. rewrite attrs_put. cbn [fst snd de_attrs]. by destruct f, fx. Qed.

(** The last write of an id in a batch wins. *)
Lemma attrs_commit_other c staged ix c' id' :
  (c' <> c \/ id' ∉ map (fun st : rstring * gmap rstring nat * attrs_map => st.1.1) staged) ->
  attrs_at (commit_batch c staged ix) c' id' = attrs_at ix c' id'.
Proof.
  intros Hn. unfold commit_batch.
  assert (same_attrs ix (set_collections (touch c (ix_collections ix)) ix)) as Ht by (by eapply same_attrs_insert).
  rewrite <- (Ht c' id'). revert Ht. generalize (set_collections (touch c (ix_collections ix)) ix). intros ix1 _.
  generalize (fts_active (ix_fts ix1)), (is_active (ix_findex ix1)). intros f fx. revert ix1.
  induction staged as [|st staged IH]; intros ix1; [done|]. cbn [foldl]. rewrite IH by (cbn in Hn; set_solver).
  rewrite attrs_commit_staged, decide_False; [done|]. cbn in Hn. set_solver.
Qed.
Lemma attrs_commit_in c staged ix st :
  NoDup (map (fun st : rstring * gmap rstring nat * attrs_map => st.1.1) staged) -> st ∈ staged ->
  attrs_at (commit_batch c staged ix) c st.1.1 = Some st.2.
Proof.
  unfold commit_batch. generalize (set_collections (touch c (ix_collections ix)) ix). intros ix1.
  generalize (fts_active (ix_fts ix1)), (is_active (ix_findex ix1)). intros f fx. revert ix1.
  induction staged as [|st0 staged IH]; intros ix1; [by intros _ ?%elem_of_nil|]. cbn [map foldl].
  intros [Hx Hd]%NoDup_cons [->|Hin]%elem_of_cons; [|by apply IH].
  assert (forall l ix2, st0.1.1 ∉ map (fun st : rstring * gmap rstring nat * attrs_map => st.1.1) l ->
    attrs_at (foldl (commit_staged c f fx) ix2 l) c st0.1.1 = attrs_at ix2 c st0.1.1) as Hl.
  { clear. induction l as [|x l IH]; intros ix2 Hn; [done|]. cbn in *. rewrite IH by set_solver.
    rewrite attrs_commit_staged, decide_False; [done|]. set_solver. }
  rewrite Hl by done. by rewrite attrs_commit_staged, decide_True.
Qed.
End batch.

(** ** What the handlers leave alone *)

#[export] Instance blind_aliases : Blind st_aliases.
Proof. by split. Qed.

(** Steps of a handler, for any part of the store. *)
Ltac seen_step :=
  first [ via_step
        | match goal with |- seen st_aliases _ (modify_index _) => intros ? ?; reflexivity end
        | apply via_modify_index; intros ? ].
Ltac seen_auto := repeat seen_step.

Section quiet.
Context `{Crc32} `{Codec Op} `{Codec Manifest} `{Codec HistoryEntry} `{Codec HistoryFloor} `{Codec Z}.
Context `{UnicodeAlnum} `{UnicodeLower} `{RegexEngine} `{HashOrder} `{HashIter}.

Lemma same_attrs_touch c ix : same_attrs ix (set_collections (touch c (ix_collections ix)) ix).
Proof. by eapply same_attrs_insert. Qed.
Lemma same_attrs_update c f ix : (forall col, cl_docs (f col) = cl_docs col) -> same_attrs ix (update_collection c f ix).
Proof. intros Hf. by eapply same_attrs_insert. Qed.

Lemma create_attrs name : via same_attrs (create_collection name).
Proof. unfold create_collection. seen_auto. apply same_attrs_touch. Qed.
Lemma create_aliases name : seen st_aliases eq (create_collection name).
Proof. unfold create_collection. seen_auto. Qed.

Lemma set_meta_attrs c meta : via same_attrs (set_meta c meta).
Proof. unfold set_meta. seen_auto. by apply same_attrs_update. Qed.
Lemma set_meta_aliases c meta : seen st_aliases eq (set_meta c meta).
Proof. unfold set_meta. seen_auto. Qed.

Lemma set_names_attrs c names : via same_attrs (set_vector_names c names).
Proof. unfold set_vector_names, implicit_create. seen_auto; [apply same_attrs_touch|by apply same_attrs_update]. Qed.
Lemma set_names_aliases c names : seen st_aliases eq (set_vector_names c names).
Proof. unfold set_vector_names, implicit_create. seen_auto. Qed.

Lemma set_fts_attrs c fields : via same_attrs (set_fts_schema c fields).
Proof. unfold set_fts_schema, implicit_create. seen_auto; [apply same_attrs_touch|done..]. Qed.
Lemma set_fts_aliases c fields : seen st_aliases eq (set_fts_schema c fields).
Proof. unfold set_fts_schema, implicit_create. seen_auto. Qed.

Lemma upsert_aliases c records : seen st_aliases eq (upsert c records).
Proof.
  unfold upsert, upsert_batch, implicit_create. seen_auto; apply (append_records_quiet st_aliases).
Qed.
Lemma delete_loop_aliases c ids n : seen st_aliases eq (delete_loop c ids n).
Proof. revert n. induction ids as [|id ids IH]; intros n; cbn [delete_loop]; seen_auto; apply IH. Qed.
Lemma delete_where_aliases c filter : seen st_aliases eq (delete_where c filter).
Proof. unfold delete_where, store_delete. seen_auto. apply delete_loop_aliases. Qed.
End quiet.

(** ** What a handler that returns has done *)

Lemma bind_returns {X A B} (m : M X A) (k : A -> M X B) s w b s' w' :
  bind m k s w = (Ret b, s', w') -> exists a s1 w1, m s w = (Ret a, s1, w1) /\ k a s1 w1 = (Ret b, s', w').
Proof. unfold bind. destruct (m s w) as [[[a|e|] s1] w1]; [|done..]. intros H. by exists a, s1, w1. Qed.
Lemma seen_returns {T A} (obs : Store -> T) R (m : M Store A) s w o s' w' :
  seen obs R m -> m s w = (o, s', w') -> R (obs s) (obs s').
Proof. intros Hm E. specialize (Hm s w). by rewrite E in Hm. Qed.
Lemma quiet_returns {A B} (m : M Store A) (k : A -> M Store B) s w b s' w' :
  via eq m -> bind m k s w = (Ret b, s', w') ->
  exists a s1 w1, st_index s1 = st_index s /\ m s w = (Ret a, s1, w1) /\ k a s1 w1 = (Ret b, s', w').
Proof.
  intros Hm (a & s1 & w1 & E & Hk)%bind_returns. exists a, s1, w1. split_and!; [|done|done].
  symmetry. by apply (seen_returns st_index eq m s w (Ret a) s1 w1).
Qed.
(** Past a step of [H] that leaves the index alone. *)
Ltac skip_quiet H :=
  let Ei := fresh "Ei" in apply quiet_returns in H as (? & ? & ? & Ei & _ & H); [|solve [via_auto]].
(** Past a look at the store. *)
Ltac skip_get H := apply bind_returns in H as (? & ? & ? & [= <- <- <-] & H).

Section returns.
Context `{Crc32} `{Codec Op} `{Codec Manifest} `{Codec HistoryEntry} `{Codec HistoryFloor} `{Codec Z}.
Context `{UnicodeAlnum} `{UnicodeLower} `{RegexEngine} `{HashOrder} `{HashIter}.

Local Abbreviation stagings := (list (rstring * gmap rstring nat * attrs_map)).
Definition staged_attrs (staged : stagings) : list (rstring * attrs_map) := map (fun st : rstring * gmap rstring nat * attrs_map => (st.1.1, st.2)) staged.
Definition record_attrs (records : list VRecord) : list (rstring * attrs_map) := map (fun r => (rec_id r, rec_attrs r)) records.

Lemma append_records_returns mark norm records per staged s w out s' w' :
  length per = length records -> append_records mark norm records per staged s w = (Ret out, s', w') ->
  staged_attrs out = staged_attrs staged ++ record_attrs records.
Proof.
  revert per staged s w. induction records as [|r records IH]; intros [|named per] staged s w Hl; try done; cbn [append_records].
  - intros [= <- _ _]. cbn. by rewrite app_nil_r.
  - intros (rows & s1 & w1 & _ & E)%bind_returns. apply IH in E; [|by injection Hl]. rewrite E. unfold staged_attrs.
    rewrite map_app. cbn. by rewrite <- app_assoc.
Qed.

Lemma validate_records_length dim declared records per : validate_records dim declared records = Ok per -> length per = length records.
Proof.
  revert per. induction records as [|r records IH]; intros per; cbn; [by intros [= <-]|].
  destruct (validate_record _ _ _); [|done]. cbn. destruct (validate_records dim declared records) as [rest|]; [|done]. cbn.
  intros [= <-]. cbn. by rewrite (IH rest).
Qed.

Lemma of_result_returns {X A} (r : result err A) (s s' : X) w w' a : of_result r s w = (Ret a, s', w') -> r = Ok a /\ s' = s.
Proof. destruct r; cbn; [by intros [= -> -> ->]|done]. Qed.

(** The index after an upsert holds the batch. *)
Lemma upsert_returns c records s w n s' w' :
  upsert c records s w = (Ret n, s', w') ->
  exists staged, staged_attrs staged = record_attrs records /\ same_attrs (commit_batch c staged (st_index s)) (st_index s').
Proof.
  unfold upsert. intros E. skip_quiet E. skip_get E.
  apply bind_returns in E as (per & s2 & w2 & [Hper ->]%of_result_returns & E).
  apply validate_records_length in Hper. case_bool_decide as Hrec.
  - subst records. exists []. split; [done|]. apply bind_returns in E as (? & s3 & w3 & Ew & [= _ <- _]). rewrite <- Ei.
    cbn [commit_batch foldl]. destruct (bool_decide (_ = None)); [|injection Ew as _ <- _; symmetry; by eapply same_attrs_insert].
    cbn [when] in Ew. unfold implicit_create in Ew. do 2 skip_quiet Ew. injection Ew as _ <- _. cbn. by rewrite Ei1, Ei0.
  - skip_quiet E. skip_get E.
    destruct (match c_max_vector_bytes _ with Some _ => _ | None => _ end); [done|]. unfold upsert_batch in E.
    skip_get E. skip_quiet E. apply bind_returns in E as (staged & s8 & w8 & Est & E).
    pose proof (append_records_returns _ _ _ _ _ _ _ _ _ _ Hper Est) as Hst.
    apply (seen_returns st_index eq) in Est; [|apply (append_records_quiet st_index)].
    do 3 skip_quiet E. apply bind_returns in E as (? & s9 & w9 & [= _ <- _] & E). skip_quiet E. injection E as _ <- _.
    exists staged. split; [exact Hst|]. cbn in *. congruence.
Qed.

(** The attributes left once those that match are gone. *)
Definition unless (filter : Filter) (o : option attrs_map) : option attrs_map :=
  a ← o; if matches filter a then None else Some a.

Lemma delete_loop_returns c ids count s w n s' w' :
  delete_loop c ids count s w = (Ret n, s', w') ->
  forall c' id, attrs_at (st_index s') c' id = if decide (c' = c /\ id ∈ ids) then None else attrs_at (st_index s) c' id.
Proof.
  revert count s w. induction ids as [|i ids IH]; intros count s w; cbn [delete_loop].
  - intros [= _ <- _] c' id. by rewrite decide_False by (intros [_ []%elem_of_nil]).
  - intros E. skip_get E. destruct (has_doc c i (st_index s)) eqn:Eh.
    + apply bind_returns in E as (? & s1 & w1 & [= _ <- _] & E). skip_quiet E. intros c' id. rewrite (IH _ _ _ E c' id), Ei.
      cbn [st_index with_index]. rewrite attrs_remove_doc. repeat case_decide; set_solver.
    + intros c' id. rewrite (IH _ _ _ E c' id). destruct (decide (c' = c /\ id ∈ ids)) as [|Hn]; [by rewrite decide_True by set_solver|].
      case_decide as Hd; [|done]. assert (id = i) as -> by set_solver. destruct Hd as [-> _].
      unfold has_doc in Eh. unfold attrs_at. destruct (ix_collections (st_index s) !! c) as [col|]; [|done]. cbn.
      apply bool_decide_eq_false in Eh. destruct (cl_docs col !! i); [|done]. exfalso. by apply Eh.
Qed.

Lemma matching_ids_elem filter col id :
  id ∈ matching_ids filter col <-> exists e, cl_docs col !! id = Some e /\ matches filter (de_attrs e) = true.
Proof.
  unfold matching_ids. rewrite list_elem_of_In, filter_In, <- list_elem_of_In, hm_order_perm, elem_of_bt_keys.
  split; [|intros (e & -> & ?); split; [by eexists|done]].
  intros [[e He] Hm]. rewrite He in Hm. by exists e.
Qed.

Lemma delete_where_returns c filter s w n s' w' :
  delete_where c filter s w = (Ret n, s', w') ->
  forall c' id, attrs_at (st_index s') c' id =
    if decide (c' = c) then unless filter (attrs_at (st_index s) c id) else attrs_at (st_index s) c' id.
Proof.
  unfold delete_where. intros E. skip_quiet E. skip_get E.
  assert (forall col, ix_collections (st_index s) !! c = Some col -> forall id,
    unless filter (attrs_at (st_index s) c id) = if decide (id ∈ matching_ids filter col) then None else attrs_at (st_index s) c id) as Hun.
  { intros col Ec id. unfold attrs_at. rewrite Ec. cbn. destruct (cl_docs col !! id) as [e|] eqn:Ed; cbn; [|by destruct (decide _)].
    destruct (matches filter (de_attrs e)) eqn:Em.
    - rewrite decide_True; [done|]. apply matching_ids_elem. by exists e.
    - rewrite decide_False; [done|]. intros (e' & Ed' & Em')%matching_ids_elem. congruence. }
  unfold st_collections in E. rewrite Ei in E. destruct (ix_collections (st_index s) !! c) as [col|] eqn:Ec.
  - specialize (Hun col eq_refl). case_bool_decide as He.
    + injection E as _ <- _. intros c' id. rewrite Ei. destruct (decide (c' = c)) as [->|]; [|done]. rewrite Hun, He.
      by rewrite decide_False by (by intros ?%elem_of_nil).
    + unfold store_delete in E. skip_quiet E. skip_get E. case_bool_decide as Hno; [exfalso; unfold st_collections in Hno; rewrite Ei0, Ei in Hno; by rewrite Ec in Hno|].
      apply bind_returns in E as (count & s2 & w2 & El & E). skip_quiet E. injection E as _ <- _. intros c' id.
      rewrite Ei1, (delete_loop_returns _ _ _ _ _ _ _ _ El c' id), Ei0, Ei.
      destruct (decide (c' = c)) as [->|Hc]; [rewrite Hun|by rewrite decide_False by tauto].
      repeat case_decide; tauto || done.
  - injection E as _ <- _. intros c' id. rewrite Ei. destruct (decide (c' = c)) as [->|]; [|done]. unfold attrs_at. by rewrite Ec.
Qed.
End returns.

(** ** Attributes of a write *)

Lemma strip_lookup keys m k : strip keys m !! k = if decide (k ∈ keys) then None else m !! k.
Proof.
  unfold strip. revert m. induction keys as [|x keys IH]; intros m; [by rewrite decide_False by apply not_elem_of_nil|]. cbn [foldl]. rewrite IH.
  destruct (decide (k = x)) as [->|Hx].
  - rewrite lookup_delete_eq. repeat case_decide; set_solver.
  - rewrite lookup_delete_ne by done. repeat case_decide; set_solver.
Qed.

(** The keys a write stamps, whatever the caller sent. *)
Definition RESERVED : list rstring := META_TEXT :: RESERVED_CHUNK ++ RESERVED_RECENCY.

Lemma stamp_recency_lookup now prior ttl attrs k :
  stamp_recency now prior ttl attrs !! k =
    if decide (k = META_EXPIRES_AT /\ is_Some ttl) then (fun t => VDateTime (i64_sat (now + i64_sat (t * 1000)))) <$> ttl
    else if decide (k = META_UPDATED_AT) then Some (VDateTime now)
    else if decide (k = META_CREATED_AT) then Some (VDateTime (default now prior))
    else attrs !! k.
Proof.
  unfold stamp_recency. destruct ttl as [t|].
  - destruct (decide (k = META_EXPIRES_AT)) as [->|Hk].
    + rewrite lookup_insert_eq, decide_True by (split; [done|by eexists]). done.
    + rewrite lookup_insert_ne by done. rewrite decide_False by tauto.
      destruct (decide (k = META_UPDATED_AT)) as [->|Hu]; [by rewrite lookup_insert_eq|]. rewrite lookup_insert_ne by done.
      destruct (decide (k = META_CREATED_AT)) as [->|Hc]; [by rewrite lookup_insert_eq|by rewrite lookup_insert_ne].
  - rewrite decide_False by (by intros [_ [? ?]]).
    destruct (decide (k = META_UPDATED_AT)) as [->|Hu]; [by rewrite lookup_insert_eq|]. rewrite lookup_insert_ne by done.
    destruct (decide (k = META_CREATED_AT)) as [->|Hc]; [by rewrite lookup_insert_eq|by rewrite lookup_insert_ne].
Qed.

(** What a write holds under a reserved key, and what the caller sent under the others. *)
Lemma own_attrs_lookup write chunk k :
  own_attrs write chunk !! k =
    if decide (k = META_TEXT) then Some (VStr (rw_text write))
    else if decide (k ∈ RESERVED_CHUNK) then
      match chunk with
      | Some (p, i, c) => if decide (k = META_PARENT_ID) then Some (VStr p) else if decide (k = META_CHUNK_INDEX) then Some (VInt i) else Some (VInt c)
      | None => None
      end
    else if decide (k ∈ RESERVED_RECENCY) then None
    else rw_attrs write !! k.
Proof.
  unfold own_attrs, strip_reserved_chunk, strip_reserved_recency.
  destruct (decide (k = META_TEXT)) as [->|Ht]; [by rewrite lookup_insert_eq|]. rewrite lookup_insert_ne by done.
  destruct chunk as [[[p i] c]|]; [|rewrite !strip_lookup; by repeat case_decide].
  destruct (decide (k = META_CHAR_START)) as [->|Hc]; [by rewrite lookup_insert_eq|]. rewrite lookup_insert_ne by done.
  destruct (decide (k = META_CHUNK_INDEX)) as [->|Hi]; [by rewrite lookup_insert_eq|]. rewrite lookup_insert_ne by done.
  destruct (decide (k = META_PARENT_ID)) as [->|Hp]; [by rewrite lookup_insert_eq|]. rewrite lookup_insert_ne by done.
  rewrite !strip_lookup. unfold RESERVED_CHUNK. repeat case_decide; set_solver.
Qed.

(** ** Replacing the chunks of a document *)

Lemma overlap_index src overlap floors i prev spans chunks :
  overlap_loop src overlap floors i prev spans = Some chunks -> forall j c, chunks !! j = Some c -> ck_index c = (i + j)%nat.
Proof.
  revert i prev chunks. induction spans as [|[a e] spans IH]; intros i prev chunks; cbn [overlap_loop]; [by intros [= <-]|].
  destruct (_ && _); [|done]. intros (rest & E & [= <-])%bind_Some [|j] c; cbn; [intros [= <-]; cbn; lia|].
  intros Hj. rewrite (IH _ _ _ E j c Hj). lia.
Qed.
Lemma chunk_text_index `{TreeSitter} text opts chunks j c :
  chunk_text text opts = Ok (Some chunks) -> chunks !! j = Some c -> ck_index c = j.
Proof.
  unfold chunk_text. destruct (_ =? 0)%nat; [done|]. destruct (_ <=? _)%nat; [done|]. case_bool_decide; [by intros [= <-]|].
  destruct (spans_of text opts) as [spans floors]. intros [= E] Hj. by rewrite (overlap_index _ _ _ _ _ _ _ E j c Hj).
Qed.

Lemma u64_to_string_inj a b : u64_to_string a = u64_to_string b -> a = b.
Proof. intros E. destruct (u64_string_spec a) as (_ & _ & <-). rewrite E. apply u64_string_spec. Qed.
Lemma chunk_id_inj parent i j : chunk_id parent i = chunk_id parent j -> i = j.
Proof. unfold chunk_id. intros E%app_inv_head%app_inv_head%u64_to_string_inj. lia. Qed.

Section documents.
Context `{Crc32} `{Codec Op} `{Codec Manifest} `{Codec HistoryEntry} `{Codec HistoryFloor} `{Codec Z}.
Context `{UnicodeAlnum} `{UnicodeLower} `{RegexEngine} `{RegexSyntax} `{HashOrder} `{HashIter} `{SortUnstable} `{Powf}
  `{TreeSitter}.
Context (tok : nat -> nat -> bool) (caches : Store -> Caches).

(** A write with no threshold is prepared for its own id. *)
Lemma prepare_plain collection write vector chunk s w p s' w' :
  rw_dedupe_threshold write = None ->
  prepare_remember tok caches collection write vector chunk s w = (Ret p, s', w') ->
  s' = s /\ pr_id p = rw_id write /\ pr_deduped p = false /\ pr_vector p = vector /\
  exists now, pr_attrs p =
    stamp_recency now (prior_created (nidus_get s collection (rw_id write))) (rw_ttl_seconds write) (own_attrs write chunk).
Proof.
  intros Ht. unfold prepare_remember, resolve_target. rewrite Ht. unfold bind at 1. cbn [ret]. unfold bind at 1. cbn [get_st fst snd].
  unfold now_ms, bind, now_secs. destruct (read_clock w) as [t w1]. cbn. intros [= <- <- <-]. cbn. split_and!; try done.
  exists (Z.of_N t). by destruct (nidus_get s collection (rw_id write)).
Qed.

(** The record stored for a chunk. *)
Definition chunk_stored (parent : rstring) (opts : RememberOpts) (c : Chunk) (ia : rstring * attrs_map) : Prop :=
  ia.1 = chunk_id parent (ck_index c) /\
  exists now prior, ia.2 = stamp_recency now prior (rm_ttl_seconds opts)
    (own_attrs (cw_write (chunk_write parent opts c None)) (Some (parent, Z.of_nat (ck_index c), Z.of_nat (ck_char_start c)))).

Lemma prepare_chunks_returns collection parent title opts (chunks : list Chunk) (vectors : list (option (list f32))) s w out s' w' :
  length vectors = length chunks ->
  prepare_chunks tok caches collection parent title (zip_with (chunk_write parent opts) chunks vectors) s w = (Ret out, s', w') ->
  s' = s /\ Forall2 (chunk_stored parent opts) chunks (record_attrs (map fst out)).
Proof.
  revert vectors s w out s' w'. induction chunks as [|c chunks IH]; intros [|v vectors] s w out s' w' Hl; try done; cbn [zip_with prepare_chunks].
  { intros [= <- <- _]. split; [done|constructor]. }
  intros (p & s1 & w1 & Ep & E)%bind_returns.
  apply prepare_plain in Ep as (-> & Hid & Hde & Hv & now & Ha); [|done].
  apply bind_returns in E as (rest & s2 & w2 & Er & [= <- <- _]).
  destruct (fun H => IH vectors s w1 rest _ _ H Er) as [-> Hf]; [by injection Hl|]. split; [done|]. cbn. constructor; [|exact Hf].
  unfold chunk_stored. cbn [fst snd]. assert (rec_id (add_title title (record_from p)) = pr_id p /\ rec_attrs (add_title title (record_from p)) = pr_attrs p) as [-> ->]
    by (destruct title; cbn; unfold record_from; by destruct (pr_vector p)).
  split; [exact Hid|]. exists now, (prior_created (nidus_get s collection (chunk_id parent (ck_index c)))). exact Ha.
Qed.

(** A computation that stores the chunks of a document in collection [c]. *)
Definition stores (write : M Store (list Remembered)) (s : Store) (c parent : rstring) (opts : RememberOpts) (chunks : list Chunk) : Prop :=
  forall w r s' w', write s w = (Ret r, s', w') ->
    st_aliases s' = st_aliases s /\ length r = length chunks /\
    exists staged, Forall2 (chunk_stored parent opts) chunks (staged_attrs staged) /\
      same_attrs (commit_batch c staged (st_index s)) (st_index s').

Lemma commit_chunks_stores s collection parent opts chunks (vectors : list (option (list f32))) title :
  length vectors = length chunks ->
  stores (commit_chunks_inner tok caches collection parent (zip_with (chunk_write parent opts) chunks vectors) title)
    s (concrete s collection) parent opts chunks.
Proof.
  intros Hl w r s' w'. unfold commit_chunks_inner. intros (out & s1 & w1 & Eo & E)%bind_returns.
  destruct (prepare_chunks_returns _ _ _ _ _ _ _ _ _ _ _ Hl Eo) as [-> Hf].
  apply bind_returns in E as (n & s2 & w2 & Eu & [= <- <- _]). unfold nidus_upsert, at_concrete in Eu. skip_get Eu.
  split; [symmetry; by apply (seen_returns st_aliases eq _ _ _ _ _ _ (upsert_aliases _ _) Eu)|].
  split; [rewrite length_map; apply Forall2_length in Hf; unfold record_attrs in Hf; rewrite !length_map in Hf; done|].
  apply upsert_returns in Eu as (staged & Est & Hs). exists staged. split; [by rewrite Est|exact Hs].
Qed.

(** The new chunks are the document: each is there as written, nothing past
    them is left of it, and no other entry changed. *)
Record document_replaced (c parent : rstring) (opts : RememberOpts) (chunks : list Chunk) (ix ix' : Index) : Prop := {
  dr_chunks i ck : chunks !! i = Some ck -> exists attrs,
    attrs_at ix' c (chunk_id parent i) = Some attrs /\
    attrs !! META_TEXT = Some (VStr (ck_text ck)) /\ attrs !! META_PARENT_ID = Some (VStr parent) /\
    attrs !! META_CHUNK_INDEX = Some (VInt (Z.of_nat i)) /\ attrs !! META_CHAR_START = Some (VInt (Z.of_nat (ck_char_start ck))) /\
    forall k, k ∉ RESERVED -> attrs !! k = rm_attrs opts !! k;
  dr_tail id attrs i : attrs_at ix' c id = Some attrs -> attrs !! META_PARENT_ID = Some (VStr parent) ->
    attrs !! META_CHUNK_INDEX = Some (VInt i) -> (i < Z.of_nat (length chunks))%Z;
  dr_others c' id : (c' <> c \/ forall i, (i < length chunks)%nat -> id <> chunk_id parent i) ->
    attrs_at ix' c' id = if decide (c' = c) then unless (stale_tail parent (length chunks)) (attrs_at ix c id) else attrs_at ix c' id
}.

Lemma stale_tail_matches parent n attrs :
  matches (stale_tail parent n) attrs =
    bool_decide (attrs !! META_PARENT_ID = Some (VStr parent)) &&
    match attrs !! META_CHUNK_INDEX with Some (VInt i) => (Z.of_nat n <=? i)%Z | _ => false end.
Proof.
  unfold matches, stale_tail. cbn [filter_preds forallb matches_one]. rewrite !andb_true_r. f_equal.
  - destruct (attrs !! META_PARENT_ID) as [v|]; [|by rewrite bool_decide_eq_false_2]. destruct v; cbn [value_eqb];
      try (by rewrite bool_decide_eq_false_2). apply bool_decide_ext. split; [by intros ->|by intros [= ->]].
  - unfold range_matches. destruct (attrs !! META_CHUNK_INDEX) as [v|]; [|done]. destruct v as [| |i| | | |]; try done. cbn.
    destruct (Z.compare_spec i (Z.of_nat n)), (Z.leb_spec (Z.of_nat n) i); try (exfalso; lia); by vm_compute.
Qed.

Lemma unless_tail parent n o attrs : unless (stale_tail parent n) o = Some attrs ->
  o = Some attrs /\ forall i, attrs !! META_PARENT_ID = Some (VStr parent) -> attrs !! META_CHUNK_INDEX = Some (VInt i) -> (i < Z.of_nat n)%Z.
Proof.
  unfold unless. intros (a & -> & E)%bind_Some. destruct (matches (stale_tail parent n) a) eqn:Em; [done|]. injection E as ->.
  split; [done|]. intros i Hp Hi. rewrite stale_tail_matches, Hp, Hi, bool_decide_eq_true_2 in Em by done. cbn in Em. lia.
Qed.

(** The attributes of a stored chunk. *)
Lemma chunk_stored_attrs parent opts c ia : chunk_stored parent opts c ia ->
  ia.2 !! META_TEXT = Some (VStr (ck_text c)) /\ ia.2 !! META_PARENT_ID = Some (VStr parent) /\
  ia.2 !! META_CHUNK_INDEX = Some (VInt (Z.of_nat (ck_index c))) /\ ia.2 !! META_CHAR_START = Some (VInt (Z.of_nat (ck_char_start c))) /\
  forall k, k ∉ RESERVED -> ia.2 !! k = rm_attrs opts !! k.
Proof.
  intros (_ & now & prior & ->). split_and!.
  1-4: rewrite stamp_recency_lookup, decide_False by (by intros [? _]); by rewrite !decide_False, own_attrs_lookup by done.
  intros k Hk. unfold RESERVED in Hk. apply not_elem_of_cons in Hk as [Ht Hk]. apply not_elem_of_app in Hk as [Hc Hr].
  rewrite stamp_recency_lookup, own_attrs_lookup. rewrite !decide_False; try done; unfold RESERVED_RECENCY in Hr; set_solver.
Qed.

(** The stored chunks, and the ids they take. *)
Lemma stored_ids parent opts chunks ias :
  (forall j c, chunks !! j = Some c -> ck_index c = j) -> Forall2 (chunk_stored parent opts) chunks ias ->
  map fst ias = map (chunk_id parent) (seq 0 (length chunks)).
Proof.
  intros Hi Hf. apply list_eq. intros j. rewrite !list_lookup_fmap. destruct (chunks !! j) as [c|] eqn:Ec.
  - destruct (Forall2_lookup_l _ _ _ _ _ Hf Ec) as (ia & -> & Hid & _). rewrite lookup_seq_lt by (by eapply lookup_lt_Some).
    cbn. by rewrite Hid, (Hi j c Ec).
  - apply lookup_ge_None in Ec. rewrite !lookup_ge_None_2; [done|by rewrite length_seq|]. apply Forall2_length in Hf. lia.
Qed.

Lemma deferred_returns {A} (m : M Store A) s w a s' w' : deferred m s w = (Ret a, s', w') ->
  exists s1, m (with_defer_barrier true s) w = (Ret a, s1, w') /\ s' = with_defer_barrier (st_defer_barrier s) s1.
Proof.
  unfold deferred, begin_deferred. cbn. destruct (m (with_defer_barrier true s) w) as [[[b|e|] s1] w1]; [|done..].
  cbn. intros [= -> <- <-]. by exists s1.
Qed.

Lemma replace_chunks_returns write collection c parent opts chunks s w r s' w' :
  concrete s collection = c ->
  (forall j ck, chunks !! j = Some ck -> ck_index ck = j) ->
  stores write (with_defer_barrier true s) c parent opts chunks ->
  replace_chunks write collection parent (length chunks) s w = (Ret r, s', w') ->
  length (cr_chunks r) = length chunks /\ document_replaced c parent opts chunks (st_index s) (st_index s').
Proof.
  intros Hc Hidx Hst E. unfold replace_chunks in E. apply bind_returns in E as (p & s1 & w1 & E & [= <- <- _]). cbn [cr_chunks].
  apply deferred_returns in E as (s2 & E & ->). apply bind_returns in E as (rem & s3 & w3 & Ew & E).
  destruct (Hst _ _ _ _ Ew) as (Hal & Hlen & staged & Hf & Hs). cbn [with_defer_barrier st_index st_aliases] in *.
  apply bind_returns in E as (pruned & s4 & w4 & Ed & E). skip_quiet E. injection E as <- <- _. cbn [fst]. split; [exact Hlen|].
  unfold nidus_delete_where in Ed. apply bind_returns in Ed as (? & s5 & w5 & Ev & Ed).
  destruct (is_ok _); [|done]. injection Ev as _ <- _. unfold at_concrete in Ed. skip_get Ed.
  assert (concrete s3 collection = c) as Hc3 by (unfold concrete, resolve_alias in *; by rewrite Hal). rewrite Hc3 in Ed.
  pose proof (delete_where_returns _ _ _ _ _ _ _ Ed) as Hdel.
  cbn [with_defer_barrier st_index].
  assert (forall c' id, attrs_at (st_index x0) c' id = if decide (c' = c)
    then unless (stale_tail parent (length chunks)) (attrs_at (commit_batch c staged (st_index s)) c id)
    else attrs_at (commit_batch c staged (st_index s)) c' id) as Hfin.
  { intros c' id. rewrite Ei, Hdel. by rewrite <- !Hs. }
  clear Ei Hdel Ed Hs. pose proof (stored_ids _ _ _ _ Hidx Hf) as Hids.
  assert (map (fun st : rstring * gmap rstring nat * attrs_map => st.1.1) staged = map (chunk_id parent) (seq 0 (length chunks))) as Hids'.
  { rewrite <- Hids. unfold staged_attrs. by rewrite map_map. }
  assert (NoDup (map (fun st : rstring * gmap rstring nat * attrs_map => st.1.1) staged)) as Hnd.
  { rewrite Hids'. apply NoDup_fmap_2; [intros i j; apply chunk_id_inj|apply NoDup_seq]. }
  split.
  - intros i ck Hck. destruct (Forall2_lookup_l _ _ _ _ _ Hf Hck) as (ia & Hia & Hcs). unfold staged_attrs in Hia.
    apply list_lookup_fmap_Some in Hia as (st & -> & Hst'). pose proof (chunk_stored_attrs _ _ _ _ Hcs) as (Ht & Hp & Hi & Hch & Hk).
    pose proof (attrs_commit_in c staged (st_index s) st Hnd ltac:(by eapply list_elem_of_lookup_2)) as Hin.
    destruct Hcs as [Hid _]. cbn [fst snd] in *. rewrite (Hidx _ _ Hck) in *. exists st.2. split_and!; try done.
    rewrite Hfin, decide_True by done. rewrite <- Hid, Hin. unfold unless. cbn [mbind option_bind].
    rewrite stale_tail_matches, Hi. pose proof (lookup_lt_Some _ _ _ Hck).
    rewrite (proj2 (Z.leb_gt _ _)) by lia. by rewrite andb_false_r.
  - intros id attrs i. rewrite Hfin, decide_True by done. intros [_ Hu]%unless_tail. apply Hu.
  - intros c' id Hn. rewrite Hfin. destruct (decide (c' = c)) as [->|Hcc].
    + rewrite attrs_commit_other; [done|right]. destruct Hn as [?|Hn]; [done|]. rewrite Hids'.
      intros (j & -> & Hj)%list_elem_of_fmap. apply elem_of_seq in Hj. by apply (Hn j); [lia|].
    + apply attrs_commit_other. by left.
Qed.

(** Pinning a collection touches no document. *)
Lemma of_query_seen {T A} (obs : Store -> T) R `{!PreOrder R} (q : result query_error A) : seen obs R (of_query q).
Proof. intros s w. by destruct q as [a|[]]. Qed.
Lemma nidus_set_meta_attrs c meta : via same_attrs (nidus_set_meta c meta).
Proof. intros s w. unfold nidus_set_meta, at_concrete. apply (set_meta_attrs _ _ s w). Qed.
Lemma nidus_set_meta_aliases c meta : seen st_aliases eq (nidus_set_meta c meta).
Proof. intros s w. unfold nidus_set_meta, at_concrete. apply (set_meta_aliases _ _ s w). Qed.

Lemma ensure_attrs e c : via same_attrs (ensure_collection_and_pin e c).
Proof.
  unfold ensure_collection_and_pin, bail_if_identity_differs, unpinned_collection.
  repeat first [apply create_attrs|apply nidus_set_meta_attrs|apply set_fts_attrs|apply of_query_seen; apply _|via_step].
Qed.
Lemma ensure_aliases e c : seen st_aliases eq (ensure_collection_and_pin e c).
Proof.
  unfold ensure_collection_and_pin, bail_if_identity_differs, unpinned_collection.
  repeat first [apply create_aliases|apply nidus_set_meta_aliases|apply set_fts_aliases|apply of_query_seen; apply _|via_step].
Qed.
Lemma title_attrs c : via same_attrs (ensure_title_vector_declared c).
Proof. unfold ensure_title_vector_declared. repeat first [apply set_names_attrs|via_step]. Qed.
Lemma title_aliases c : seen st_aliases eq (ensure_title_vector_declared c).
Proof. unfold ensure_title_vector_declared. repeat first [apply set_names_aliases|via_step]. Qed.

Lemma commit_batch_attrs c staged ix ix' : same_attrs ix ix' -> same_attrs (commit_batch c staged ix) (commit_batch c staged ix').
Proof.
  intros Hs. unfold commit_batch.
  assert (same_attrs (set_collections (touch c (ix_collections ix)) ix) (set_collections (touch c (ix_collections ix')) ix')) as Ht.
  { etransitivity; [symmetry; apply same_attrs_touch|]. etransitivity; [exact Hs|apply same_attrs_touch]. }
  revert Ht. generalize (set_collections (touch c (ix_collections ix)) ix), (set_collections (touch c (ix_collections ix')) ix').
  clear Hs ix ix'. intros ix ix'. generalize (fts_active (ix_fts ix)), (is_active (ix_findex ix)), (fts_active (ix_fts ix')), (is_active (ix_findex ix')).
  intros f fx f' fx'. revert ix ix'. induction staged as [|st staged IH]; intros ix ix' Ht; [done|]. cbn [foldl]. apply IH.
  intros c' id. rewrite !attrs_commit_staged. by rewrite Ht.
Qed.

Lemma with_title_stores e s collection parent opts chunks (vectors : list (option (list f32))) title :
  length vectors = length chunks ->
  stores (commit_remember_chunks_with_title tok caches e collection parent (zip_with (chunk_write parent opts) chunks vectors) title)
    s (concrete s collection) parent opts chunks.
Proof.
  intros Hl w r s' w' E. unfold commit_remember_chunks_with_title in E. apply bind_returns in E as (? & s1 & w1 & E1 & E).
  apply bind_returns in E as (? & s2 & w2 & E2 & E).
  pose proof (seen_returns _ _ _ _ _ _ _ _ (ensure_attrs e collection) E1) as Ha1.
  pose proof (seen_returns _ _ _ _ _ _ _ _ (ensure_aliases e collection) E1) as Hb1. cbv beta in Hb1.
  assert (same_attrs (st_index s1) (st_index s2) /\ st_aliases s1 = st_aliases s2) as [Ha2 Hb2].
  { destruct (bool_decide _); cbn [when] in E2; [|by injection E2 as _ <- _].
    split; [by apply (seen_returns _ _ _ _ _ _ _ _ (title_attrs collection) E2)|by apply (seen_returns _ _ _ _ _ _ _ _ (title_aliases collection) E2)]. }
  destruct (commit_chunks_stores s2 collection parent opts chunks vectors title Hl _ _ _ _ E) as (Ha & Hlen & staged & Hf & Hs).
  split_and!; [congruence|done|]. exists staged. split; [done|].
  assert (concrete s2 collection = concrete s collection) as Ec by (unfold concrete, resolve_alias; by rewrite Hb1, Hb2). rewrite Ec in Hs.
  etransitivity; [|exact Hs]. apply commit_batch_attrs. etransitivity; [exact Ha1|exact Ha2].
Qed.

(** C12: writing a document again replaces it: when a chunked write returns, with an
    embedder or as text only, the text was cut into chunks and either there were none and
    nothing changed, or every chunk is stored under its number with its text, its provenance and the
    caller's attributes, nothing of a longer last version is left,
    and every other entry of the store, that tail apart, is as it was. *)
Theorem remember_chunked_replaces e collection parent text chunk_opts opts s w r s' w' :
  remember_chunked tok caches e collection parent text chunk_opts opts s w = (Ret r, s', w') \/
  remember_chunked_text_only tok caches collection parent text chunk_opts opts s w = (Ret r, s', w') /\
    concrete s (concrete s collection) = concrete s collection ->
  exists chunks, chunk_text text chunk_opts = Ok (Some chunks) /\
    (chunks = [] -> r = no_chunks parent /\ s' = s) /\
    (chunks <> [] -> length (cr_chunks r) = length chunks /\
       document_replaced (concrete s collection) parent opts chunks (st_index s) (st_index s')).
Proof.
  assert (forall k : list Chunk -> M Store ChunkedRemembered,
    bind (chunks_of text chunk_opts opts) k s w = (Ret r, s', w') ->
    exists chunks, chunk_text text chunk_opts = Ok (Some chunks) /\ k chunks s w = (Ret r, s', w')) as Hchunks.
  { intros k E. unfold chunks_of in E. destruct (rm_mode opts), (rm_dedupe_threshold opts); try done.
    destruct (chunk_text text chunk_opts) as [[chunks|]|]; try done. by exists chunks. }
  intros [E|[E Hc]]; apply Hchunks in E as (chunks & Ek & E); exists chunks; (split; [exact Ek|]);
    pose proof (chunk_text_index text chunk_opts chunks) as Hidx; case_bool_decide as Hne.
  1, 3: (split; [by injection E as <- <- _|done]).
  all: split; [done|intros _].
  - apply bind_returns in E as (vectors & s1 & w1 & [_ ->]%of_result_returns & E).
    destruct (Nat.eqb_spec (length vectors) (length (map ck_text chunks ++ match extract_title text with Some t => [t] | None => [] end))) as [Hl|];
      [|done]. cbn [negb] in E. rewrite length_app, length_map in Hl.
    eapply replace_chunks_returns; [done|by intros j ck; apply Hidx| |exact E].
    replace (zip_with (fun c v => chunk_write parent opts c (Some v)) chunks vectors)
      with (zip_with (chunk_write parent opts) chunks (Some <$> take (length chunks) vectors)).
    + change (concrete s collection) with (concrete (with_defer_barrier true s) collection). apply with_title_stores.
      rewrite length_fmap, length_take. lia.
    + rewrite zip_with_fmap_r. rewrite <- (take_ge chunks (length chunks)) at 1 by done. rewrite <- zip_with_take.
      apply take_ge. rewrite length_zip_with. lia.
  - skip_get E. eapply replace_chunks_returns; [exact Hc|by intros j ck; apply Hidx| |exact E].
    intros w1 r1 s1 w2 Ew. skip_get Ew. apply bind_returns in Ew as (? & s2 & w3 & E1 & Ew).
    assert (same_attrs (st_index s) (st_index s2) /\ st_aliases s2 = st_aliases s) as [Ha Hb].
    { destruct (negb _); cbn [when] in E1; [|by injection E1 as _ <- _].
      split; [by apply (seen_returns _ _ _ _ _ _ _ _ (create_attrs _) E1)|symmetry; by apply (seen_returns _ _ _ _ _ _ _ _ (create_aliases _) E1)]. }
    replace (map (fun c => chunk_write parent opts c None) chunks)
      with (zip_with (chunk_write parent opts) chunks (replicate (length chunks) None)) in Ew.
    + destruct (commit_chunks_stores s2 _ _ _ _ _ _ ltac:(apply length_replicate) _ _ _ _ Ew) as (Hal & Hlen & staged & Hf & Hs).
      split_and!; [by rewrite Hal|done|]. exists staged. split; [done|].
      assert (concrete s2 (concrete s collection) = concrete s collection) as Ec by (rewrite <- Hc at 2; unfold concrete, resolve_alias; by rewrite Hb).
      rewrite Ec in Hs. etransitivity; [|exact Hs]. by apply commit_batch_attrs.
    + clear. induction chunks as [|c chunks IH]; [done|]. cbn. by rewrite IH.
Qed.
End documents.

(** ** A document written twice *)

Section examples.
Import ToyCodec LiveDemo.
(** Records of no bytes: nothing is read back. *)
#[local] Instance no_bytes {A} : Codec A | 0 := {| enc _ := Some []; dec _ := None |}.
#[local] Existing Instance plain.
#[local] Instance flat_powf : Powf := fun _ _ => f32_one.

Definition tens : ChunkOpts := {| co_strategy := CRecursive; co_max_chars := 10; co_overlap_chars := 3; co_language := None |}.
Definition tagged : RememberOpts :=
  {| rm_mode := Raw; rm_attrs := {[lit "src" := VStr (lit "mail")]}; rm_ttl_seconds := None; rm_dedupe_threshold := None |}.
Definition no_caches (_ : Store) : Caches :=
  {| ca_quant := None; ca_ann := None; ca_seg_indexes := []; ca_row_to_doc := []; ca_scan_order := None |}.
Definition no_embedder : Embedder :=
  {| em_embed _ := Err EInvalid; em_embed_batch _ := Err EInvalid; em_embed_query _ := Err EInvalid; em_dimension := 0;
     em_provider_name := []; em_model_name := [] |}.
Definition rewrite_as (text : rstring) (s : Store) : outcome ChunkedRemembered * Store * World :=
  remember_chunked_text_only (fun _ _ => false) no_caches
    (lit "docs") (lit "m") text tens tagged s quiet_world.
Definition first_version : Store := (rewrite_as (lit "one two three. four five") (text_store [])).1.2.
Definition second_version := rewrite_as (lit "six") first_version.

Lemma ret_eta {A B C} (x : outcome A * B * C) r : x.1.1 = Ret r -> x = (Ret r, x.1.2, x.2).
Proof. by destruct x as [[? ?] ?]; intros [= ->]. Qed.

Lemma remember_chunked_replaces_witness :
  bt_keys (cl_docs (entry (lit "docs") (st_collections first_version))) = [lit "m#0"; lit "m#1"; lit "m#2"] /\
  bt_keys (cl_docs (entry (lit "docs") (st_collections second_version.1.2))) = [lit "m#0"] /\
  document_replaced (lit "docs") (lit "m") tagged [{| ck_text := lit "six"; ck_index := 0; ck_char_start := 0 |}]
    (st_index first_version) (st_index second_version.1.2).
Proof.
  split; [by vm_compute|]. split; [by vm_compute|].
  assert (chunk_text (lit "six") tens = Ok (Some [{| ck_text := lit "six"; ck_index := 0; ck_char_start := 0 |}])) as Ek'
    by (vm_compute; reflexivity).
  assert (concrete first_version (lit "docs") = lit "docs") as Hc by (vm_compute; reflexivity).
  assert (second_version.1.1 = Ret (match second_version.1.1 with Ret r => r | _ => no_chunks [] end)) as Eo
    by (vm_compute; reflexivity).
  revert Eo. generalize (match second_version.1.1 with Ret r => r | _ => no_chunks [] end). intros r Eo.
  assert (second_version = (Ret r, second_version.1.2, second_version.2)) as E by (by apply ret_eta).
  unfold second_version at 1, rewrite_as in E.
  destruct (remember_chunked_replaces _ _ no_embedder _ _ _ _ _ _ _ _ _ _ (or_intror (conj E (f_equal (concrete first_version) Hc))))
    as (chunks & Ek & _ & Hd).
  rewrite Hc in Hd. rewrite Ek' in Ek. injection Ek as <-. by apply Hd.
Defined.
End examples.
