(* ===== verification/RecallOk.v ===== *)
(** * RecallOk: recalling a memory

    [recall_sound]: what a recall may answer with, and which documents it stamps
    with what. *)
From S2P Require Import Prelude Floats Model Config TextPred Filter Literal Findex Narrow Sort TopK Std Hits Backend Codec Log.
From S2P Require Import Data IndexCache Manifest Lease Segments Replay Store StoreWrite Mmr Aggregate Expand Rank Scoring Quant Search.
From S2P Require Import Analyzer Fts FtsStore Fuzzy Highlight TextSearch SqlQuery Chunk SearchSpec SearchPaths.
From S2P Require Import Effect LiveIndex Live Memory MemoryOk.

(** ** Stamping *)

Lemma attrs_stamp c id n now x ix c' id' :
  attrs_at (stamp_doc c id n now x ix) c' id' =
    if decide (c' = c /\ id' = id) then stamp_attrs n now x <$> attrs_at ix c id else attrs_at ix c' id'.
Proof.
  unfold stamp_doc. destruct (ix_collections ix !! c) as [col|] eqn:Ec.
  - erewrite attrs_at_collection by reflexivity. destruct (decide (c' = c)) as [->|Hc]; [|by rewrite decide_False by naive_solver].
    cbn [cl_docs set_docs]. unfold attrs_at. rewrite Ec. cbn. destruct (decide (id' = id)) as [->|Hi].
    + rewrite lookup_alter_eq, decide_True by done. by destruct (cl_docs col !! id).
    + rewrite lookup_alter_ne, decide_False by naive_solver. done.
  - destruct (decide (c' = c /\ id' = id)) as [[-> ->]|]; [|done]. unfold attrs_at. by rewrite Ec.
Qed.

Lemma stamp_attrs_lookup n now x attrs :
  stamp_attrs n now x attrs !! META_ACCESS_COUNT = Some (VInt n) /\
  stamp_attrs n now x attrs !! META_LAST_ACCESSED = Some (VDateTime now).
Proof.
  unfold stamp_attrs. destruct x; rewrite ?(lookup_insert_ne _ META_EXPIRES_AT) by done;
    rewrite (lookup_insert_ne _ META_LAST_ACCESSED META_ACCESS_COUNT) by done; by rewrite !lookup_insert_eq.
Qed.

Section stamps.
Context `{UnicodeAlnum} `{UnicodeLower} `{HashIter}.
Context (c : rstring) (now : Z) (f fx : bool).

Local Abbreviation stamp := (rstring * Z * option Z)%type.

Lemma attrs_commit_stamp acc (st : stamp) c' id' :
  attrs_at (commit_stamp c now f fx acc st).1 c' id' =
    if decide (c' = c /\ id' = st.1.1) then stamp_attrs st.1.2 now st.2 <$> attrs_at acc.1 c st.1.1 else attrs_at acc.1 c' id'.
Proof.
  destruct st as [[id n] x]. unfold commit_stamp. cbn [fst snd]. destruct (has_doc c id acc.1) eqn:Eh.
  - cbn [fst]. rewrite <- attrs_stamp. by destruct (cl_docs _ !! id), f, fx.
  - destruct (decide (c' = c /\ id' = id)) as [[-> ->]|]; [|done].
    unfold has_doc in Eh. unfold attrs_at. destruct (ix_collections acc.1 !! c) as [col|]; [|done]. cbn.
    apply bool_decide_eq_false in Eh. destruct (cl_docs col !! id); [exfalso; by apply Eh|done].
Qed.

Lemma attrs_stamps_other (stamps : list stamp) acc c' id' : (c' <> c \/ id' ∉ map (fun st : stamp => st.1.1) stamps) ->
  attrs_at (foldl (commit_stamp c now f fx) acc stamps).1 c' id' = attrs_at acc.1 c' id'.
Proof.
  revert acc. induction stamps as [|st stamps IH]; intros acc Hn; [done|]. cbn [foldl]. cbn in Hn. rewrite IH by set_solver.
  rewrite attrs_commit_stamp, decide_False; [done|]. set_solver.
Qed.

(** A document among the stamped ones carries the count of its stamps. *)
Lemma attrs_stamps_in (stamps : list stamp) acc id count :
  id ∈ map (fun st : stamp => st.1.1) stamps -> (forall st, st ∈ stamps -> st.1.1 = id -> st.1.2 = count) ->
  is_Some (attrs_at acc.1 c id) ->
  exists attrs, attrs_at (foldl (commit_stamp c now f fx) acc stamps).1 c id = Some attrs /\
    attrs !! META_ACCESS_COUNT = Some (VInt count) /\ attrs !! META_LAST_ACCESSED = Some (VDateTime now).
Proof.
  revert acc. induction stamps as [|st stamps IH]; intros acc Hin Hc Hs; [by apply elem_of_nil in Hin|]. cbn [foldl].
  assert (is_Some (attrs_at (commit_stamp c now f fx acc st).1 c id)) as Hs'.
  { rewrite attrs_commit_stamp. case_decide as Hd; [|done]. destruct Hd as [_ ->]. by apply fmap_is_Some. }
  destruct (decide (id ∈ map (fun st : stamp => st.1.1) stamps)) as [Ht|Ht].
  { apply IH; [done| |done]. intros st' Hst'. apply Hc. by right. }
  rewrite attrs_stamps_other by (by right). cbn in Hin. apply elem_of_cons in Hin as [->|]; [|done].
  rewrite attrs_commit_stamp, decide_True by done. destruct Hs as [a ->]. cbn. eexists. split; [reflexivity|].
  rewrite <- (Hc st ltac:(left) eq_refl). apply stamp_attrs_lookup.
Qed.
End stamps.

(** The handler that returns has stamped the documents that exist. *)
Section returns.
Context `{Crc32} `{Codec Op} `{Codec Manifest} `{Codec HistoryEntry} `{Codec HistoryFloor} `{Codec Z}.
Context `{UnicodeAlnum} `{UnicodeLower} `{RegexEngine} `{HashOrder} `{HashIter}.

Lemma reinforce_returns c ids now extend s w n s' w' : reinforce c ids now extend s w = (Ret n, s', w') ->
  match st_collections s !! c with
  | None => st_index s' = st_index s
  | Some col => exists f fx,
      st_index s' = (foldl (commit_stamp c now f fx) (st_index s, 0%nat) (stamps_of col now extend ids)).1
  end.
Proof.
  unfold reinforce. intros E. skip_quiet E. skip_get E.
  assert (forall s1 : Store, st_index s1 = st_index s -> st_collections s1 = st_collections s) as Hcol
    by (intros s1 Es; unfold st_collections; by rewrite Es).
  rewrite (Hcol _ Ei) in E. destruct (st_collections s !! c) as [col|]; [|injection E as _ <- _; exact Ei].
  case_bool_decide as Hst; [exists false, false; rewrite Hst; injection E as _ <- _; exact Ei|].
  do 3 skip_quiet E. skip_get E. apply bind_returns in E as (? & s6 & w6 & [= _ <- _] & E). skip_quiet E. injection E as _ <- _.
  do 2 eexists. rewrite Ei3. cbn. by rewrite Ei2, Ei1, Ei0, Ei.
Qed.
End returns.

Lemma stamps_of_attrs col now extend ids st : st ∈ stamps_of col now extend ids ->
  st.1.1 ∈ ids /\ exists e, cl_docs col !! st.1.1 = Some e /\ (st.1.2, st.2) = stamp_of now extend (de_attrs e).
Proof.
  unfold stamps_of. intros (id & Hid & E)%list_elem_of_omap. apply fmap_Some in E as (e & He & ->).
  destruct (stamp_of now extend (de_attrs e)) as [n x] eqn:Es. cbn. split; [done|]. by exists e.
Qed.
Lemma stamps_of_ids col now extend ids id : id ∈ ids -> is_Some (cl_docs col !! id) ->
  id ∈ map (fun st : rstring * Z * option Z => st.1.1) (stamps_of col now extend ids).
Proof.
  intros Hid [e He]. destruct (stamp_of now extend (de_attrs e)) as [n x] eqn:Es. apply list_elem_of_fmap. exists (id, n, x).
  split; [done|]. apply list_elem_of_omap. exists id. split; [done|]. rewrite He. cbn [fmap option_fmap option_map]. by rewrite Es.
Qed.

(** The next access count of a document. *)
Definition next_count (attrs : attrs_map) : Z :=
  match attrs !! META_ACCESS_COUNT with Some (VInt n) => i64_sat (n + 1) | _ => 1%Z end.

(** The documents [ids] of [c] are stamped at [now]; every other is as it was. *)
Definition stamped (c : rstring) (ids : list rstring) (now : Z) (ix ix' : Index) : Prop :=
  (forall id attrs, id ∈ ids -> attrs_at ix c id = Some attrs -> exists attrs', attrs_at ix' c id = Some attrs' /\
     attrs' !! META_ACCESS_COUNT = Some (VInt (next_count attrs)) /\ attrs' !! META_LAST_ACCESSED = Some (VDateTime now)) /\
  forall c' id, c' <> c \/ id ∉ ids -> attrs_at ix' c' id = attrs_at ix c' id.

Lemma foldl_stamped `{UnicodeAlnum} `{UnicodeLower} `{HashIter} c now f fx extend ids ix col : ix_collections ix !! c = Some col ->
  stamped c ids now ix (foldl (commit_stamp c now f fx) (ix, 0%nat) (stamps_of col now extend ids)).1.
Proof.
  intros Ec. split.
  - intros id attrs Hid Ha.
    assert (exists e, cl_docs col !! id = Some e /\ de_attrs e = attrs) as (e & He & <-).
    { unfold attrs_at in Ha. rewrite Ec in Ha. cbn in Ha. apply fmap_Some in Ha as (e & He & ->). by exists e. }
    apply attrs_stamps_in; [by apply stamps_of_ids| |cbn [fst]; by rewrite Ha].
    intros st (_ & e' & He' & Es)%stamps_of_attrs <-. rewrite He in He'. injection He' as <-. by injection Es as -> _.
  - intros c' id Hn. apply attrs_stamps_other. destruct Hn as [?|Hn]; [by left|right].
    intros (st & -> & (Hid & _)%stamps_of_attrs)%list_elem_of_fmap. done.
Qed.

(** ** What a recall sees *)

Section recall.
Context `{Crc32} `{Codec Op} `{Codec Manifest} `{Codec HistoryEntry} `{Codec HistoryFloor} `{Codec Z}.
Context `{UnicodeAlnum} `{UnicodeLower} `{RegexEngine} `{RegexSyntax} `{!RegexLaws} `{HashOrder} `{HashIter} `{SortUnstable} `{Powf}.
Context (tok : nat -> nat -> bool) (caches : Store -> Caches).

Lemma not_expired_matches now attrs : matches_one (not_expired_predicate now) attrs = true <->
  forall ms, attrs !! META_EXPIRES_AT = Some (VDateTime ms) -> (now < ms)%Z.
Proof.
  unfold not_expired_predicate. cbn [matches_one]. unfold range_matches. destruct (attrs !! META_EXPIRES_AT) as [v|]; [|by split].
  destruct v as [| | | | | |ms]; try (split; [by intros _ ? [=]|done]). cbn.
  destruct (Z.compare_spec ms now); (split; [intros Hm ? [= <-]; by try lia|intros Hm; specialize (Hm _ eq_refl); by try lia]).
Qed.

(** A hit of a recall: a live, unexpired document of the collection that passes the filter,
    with its attributes. *)
Definition recalled (s : Store) (c : rstring) (opts : RecallOpts) (now : Z) (h : Hit) : Prop :=
  h_collection h = c /\ attrs_at (st_index s) c (h_id h) = Some (h_attrs h) /\
  matches (default Filter_default (rc_filter opts)) (h_attrs h) = true /\
  (forall ms, h_attrs h !! META_EXPIRES_AT = Some (VDateTime ms) -> (now < ms)%Z).

Lemma genuine_recalled s c q opts now h :
  genuine s [c] q (recall_search_opts opts now) h -> recalled s c opts now h.
Proof.
  intros ([score [n id]] & (e & (col & entry & Hn & Hcol & Hd & _ & Hm) & Hsc) & ->). apply full_score_snd in Hsc. cbn in Hsc.
  rewrite <- Hsc in *. cbn in Hn, Hcol, Hd. apply list_elem_of_singleton in Hn as ->.
  assert (attrs_of s c id = Some (de_attrs entry)) as Ha by (unfold attrs_of; rewrite Hcol; cbn; by rewrite Hd).
  unfold hit_of. cbn [fst snd so_projection recall_search_opts]. rewrite Ha.
  unfold matches in Hm. cbn [so_filter recall_search_opts filter_preds] in Hm. rewrite forallb_app in Hm.
  apply andb_true_iff in Hm as [Hm1 Hm2]. cbn [forallb] in Hm2. rewrite andb_true_r, not_expired_matches in Hm2.
  split_and!; [done| |exact Hm1|exact Hm2]. unfold attrs_at, st_collections in *. rewrite Hcol. cbn. by rewrite Hd.
Qed.

Lemma of_query_returns {X A} (q : result query_error A) (s s' : X) w w' a :
  of_query q s w = (Ret a, s', w') -> q = Ok a /\ s' = s /\ w' = w.
Proof. destruct q as [|[]]; cbn; [by intros [= -> -> ->]|done..]. Qed.

(** The collection is in the embedder's space as far as its pin says, and in a
    strict store there is a pin. *)
Definition same_space (e : Embedder) (s : Store) (c : rstring) : Prop :=
  match nidus_get_meta s c !! META_EMBEDDER with
  | Some identity => identity = embedder_identity e
  | None => c_strict_embedder_identity (st_config s) = true -> st_collections s !! c = None
  end.

(** The guard writes nothing. *)
Lemma guard_returns e collection s w u s' w' : guard_recall_identity e collection s w = (Ret u, s', w') ->
  s' = s /\ w' = w /\ same_space e s (concrete s collection).
Proof.
  unfold guard_recall_identity, bail_if_identity_differs, unpinned_collection. intros E. skip_get E.
  destruct (nidus_get_meta s (concrete s collection) !! META_EMBEDDER) as [x|] eqn:Ex.
  - case_bool_decide; [|done]. injection E as _ <- <-. unfold same_space. by rewrite Ex.
  - unfold same_space. rewrite Ex. unfold has_collection in E. case_bool_decide as Hc; cbn [when] in E.
    + skip_get E. destruct (c_strict_embedder_identity _); [done|]. by injection E as _ <- <-.
    + injection E as _ <- <-. split_and!; [done..|]. intros _. by apply eq_None_not_Some.
Qed.

Lemma search_recalled s collection query opts now hits :
  findex_faithful s -> cache_ok s (ca_scan_order (caches s)) ->
  nidus_search tok s (caches s) (ScopeCollection collection) query (recall_search_opts opts now) = Ok hits ->
  (length hits <= so_top_k (recall_search_opts opts now))%nat /\ Forall (recalled s (concrete s collection) opts now) hits.
Proof.
  intros Hf Hc. unfold nidus_search. destruct (valid_filter _); [|done]. cbn [res_bind scope_names]. intros Hs.
  destruct (search_genuine tok s (caches s) [concrete s collection] query (recall_search_opts opts now) hits (fun Hn => match Hn eq_refl with end)
    (NoDup_singleton _) Hf Hc Hs) as (ranked & Hfin & Hg).
  apply finish_sub in Hfin as [Hl Hh]. split; [exact Hl|]. apply Forall_forall. intros h Hin.
  destruct (Hh h Hin) as (h0 & Hin0 & Eh). rewrite Forall_forall in Hg. specialize (Hg h0 Hin0). apply genuine_recalled in Hg.
  destruct h, h0. by injection Eh as -> -> -> -> ->.
Qed.

(** What becomes of the store: as it was when nothing is to be stamped; else the hits are stamped, in
    the collection of the name the caller gave. *)
Definition reinforced (collection : rstring) (opts : RecallOpts) (hits : list Hit) (now : Z) (s s' : Store) : Prop :=
  if rc_reinforce opts && negb (bool_decide (hits = [])) && negb (bool_decide (c_open_mode (st_config s) = ReadOnly)) then
    match st_collections s !! collection with
    | Some _ => stamped collection (map h_id hits) now (st_index s) (st_index s')
    | None => st_index s' = st_index s
    end
  else s' = s.

(** C13: What a recall answers with: at most [top_k] hits, each a live document of the
    collection the name stands for, with its attributes, that passes the caller's filter and has not
    expired.  A collection pinned to another embedder is refused, and in a strict store one that is not
    pinned at all; otherwise an unpinned collection is answered.
    With [reinforce] on a writable store every hit has its access counted and dated and no other document
    changes, but only when the name is a collection's own: through an alias nothing is stamped.
    Without it the store is as it was. *)
Theorem recall_sound e collection text opts s w hits s' w' :
  findex_faithful s -> cache_ok s (ca_scan_order (caches s)) ->
  recall tok caches e collection text opts s w = (Ret hits, s', w') ->
  let now := Z.of_N (read_clock w).1 in
  (length hits <= so_top_k (recall_search_opts opts now))%nat /\
  Forall (recalled s (concrete s collection) opts now) hits /\
  match nidus_get_meta s (concrete s collection) !! META_EMBEDDER with
  | Some identity => identity = embedder_identity e
  | None => c_strict_embedder_identity (st_config s) = true -> st_collections s !! concrete s collection = None
  end /\
  reinforced collection opts hits (Z.of_N (read_clock (read_clock w).2).1) s s'.
Proof.
  intros Hf Hc E now. unfold recall in E. apply bind_returns in E as (? & s1 & w1 & Eg & E).
  apply guard_returns in Eg as (-> & -> & Hid). apply bind_returns in E as (q & s1 & w1 & Eq & E).
  assert (s1 = s /\ w1 = w) as [-> ->] by (destruct (em_embed_query e text); [by injection Eq|done]).
  apply bind_returns in E as (now' & s1 & w1 & En & E).
  assert (now' = now /\ s1 = s /\ w1 = (read_clock w).2) as (-> & -> & ->).
  { unfold now_ms, now_secs, bind in En. unfold now. destruct (read_clock w) as [t w2]. by injection En as <- <- <-. }
  skip_get E. apply bind_returns in E as (found & s1 & w1 & (Hs & -> & ->)%of_query_returns & E).
  apply bind_returns in E as (? & s1 & w1 & Er & [= <- <- <-]).
  destruct (search_recalled _ _ _ _ _ _ Hf Hc Hs) as [Hl Hh]. split_and!; [exact Hl|exact Hh|exact Hid|].
  unfold reinforced. destruct (_ && _ && _) eqn:Eb; cbn [when] in Er; [|by injection Er].
  unfold reinforce_hits in Er. apply andb_true_iff in Eb as [[_ Eb]%andb_true_iff _].
  apply negb_true_iff in Eb. rewrite Eb in Er. apply bind_returns in Er as (n & s2 & w2 & Er & [= _ <- _]).
  unfold nidus_reinforce in Er. apply bind_returns in Er as (now2 & s3 & w3 & En2 & Er).
  assert (now2 = Z.of_N (read_clock (read_clock w).2).1 /\ s3 = s) as (-> & ->).
  { unfold now_ms, now_secs, bind in En2. destruct (read_clock (read_clock w).2) as [t w4]. by injection En2 as <- <- _. }
  apply reinforce_returns in Er. destruct (st_collections s !! collection) as [col|] eqn:Ec; [|exact Er].
  destruct Er as (f & fx & ->). by apply foldl_stamped.
Qed.
End recall.

(** ** A recall *)

Section examples.
Import PlainEngine Demo ToyCodec ToyManifest.

Definition ones : Embedder :=
  {| em_embed _ := Ok [f32_one]; em_embed_batch texts := Ok (map (fun _ => [f32_one]) texts); em_embed_query _ := Ok [f32_one];
     em_dimension := 1; em_provider_name := lit "demo"; em_model_name := lit "ones" |}.
Definition top_two : RecallOpts :=
  {| rc_top_k := 2; rc_min_score := f32_zero; rc_filter := None; rc_diversity := None; rc_rollup := None; rc_rank_by := None;
     rc_reinforce := true; rc_extend_ttl_seconds := None |}.
Definition noon : World := {| w_kind := LocalFs; w_objects := ∅; w_next := 0; w_faults := []; w_clock := [7%N; 8%N] |}.
Definition asked : outcome (list Hit) * Store * World :=
  recall never (fun _ => Demo.caches) ones (lit "b") (lit "anything") top_two Demo.store noon.
Definition answer : list Hit := match asked.1.1 with Ret hits => hits | _ => [] end.

Lemma recall_sound_witness :
  map h_id answer = [lit "z"; lit "x"] /\ Forall (recalled Demo.store (lit "b") top_two 7) answer /\
  reinforced (lit "b") top_two answer 8 Demo.store asked.1.2.
Proof.
  assert (asked.1.1 = Ret answer) as Eo by by vm_compute.
  assert (asked = (Ret answer, asked.1.2, asked.2)) as E by (by apply ret_eta).
  destruct (recall_sound never (fun _ => Demo.caches) ones (lit "b") (lit "anything") top_two Demo.store noon _ _ _ faithful I E)
    as (_ & Hh & _ & Hr).
  split; [by vm_compute|]. split; [exact Hh|exact Hr].
Defined.
End examples.
