(* ===== verification/Rerank.v ===== *)
(** * Rerank: the cross-encoder stage ([store/rerank.rs], [rerank/apply.rs])

    A query is ranked deeper than its page, the texts of its hits are scored by a
    reranking service, and the page is cut once from the new order.  The service
    is an argument; the plans of the [_with_plan] variants are left out.

    [reranked_search]: the window of the search widened by the overscan and not paged,
    none of it lost, the hits with a text at the service's scores and in their order, the
    others behind them as they were, under the projection the caller asked for. *)
From S2P Require Import Prelude Floats Model Config TextPred Filter Literal Findex Narrow Sort TopK Std Hits Backend.
From S2P Require Import Manifest Segments Replay Store Mmr Aggregate Expand Rank Scoring Quant Search.
From S2P Require Import Analyzer Fts FtsStore Fuzzy Highlight TextSearch SqlQuery SearchSpec SearchPaths.

(** ** The window and the text of a candidate ([store/rerank.rs]) *)

Definition overscan_of (r : option RerankOpts) : nat := match r with Some r => Nat.max (ro_overscan r) 1 | None => 1 end.
Definition rerank_depth (opts : SearchOpts) : nat :=
  usize (sat_mul (N.of_nat (depth opts)) (N.of_nat (overscan_of (so_rerank opts)))).

Definition projection_carries (p : Projection) (field : rstring) : bool :=
  match p with
  | PrAll => true
  | PrInclude keys => bool_decide (field ∈ keys)
  | PrExclude keys => negb (bool_decide (field ∈ keys))
  end.
Definition force_include (p : Projection) (field : rstring) : Projection :=
  match p with
  | PrAll => PrAll
  | PrInclude keys => PrInclude (keys ++ [field])
  | PrExclude keys => PrExclude (filter (fun k => k <> field) keys)
  end.

(** The options of the fetch, and whether the caller's projection keeps the text. *)
Definition widened_opts (opts : SearchOpts) : SearchOpts * bool :=
  let text_attr := match so_rerank opts with Some r => ro_text_attr r | None => META_TEXT end in
  let already_kept := projection_carries (so_projection opts) text_attr in
  let projection := if already_kept then so_projection opts else force_include (so_projection opts) text_attr in
  ({| so_top_k := rerank_depth opts; so_offset := 0; so_filter := so_filter opts; so_min_score := so_min_score opts;
      so_exact := so_exact opts; so_projection := projection; so_explain := so_explain opts; so_plan := so_plan opts;
      so_rank_by := so_rank_by opts; so_limit_per := None; so_diversity := None; so_rerank := so_rerank opts;
      so_expand := None; so_names := so_names opts; so_name_weights := so_name_weights opts; so_pool := so_pool opts |},
   already_kept).

Definition without_attr (key : rstring) (h : Hit) : Hit :=
  {| h_collection := h_collection h; h_id := h_id h; h_score := h_score h; h_attrs := delete key (h_attrs h);
     h_annotations := h_annotations h; h_context := h_context h |}.
Definition retrim (hits : list Hit) (opts : SearchOpts) (already_kept : bool) : list Hit :=
  if already_kept then hits
  else match so_rerank opts with Some r => map (without_attr (ro_text_attr r)) hits | None => hits end.

(** The text a hit can be scored by. *)
Definition usable_text (text_attr : rstring) (attrs : attrs_map) : option rstring :=
  match attrs !! text_attr with
  | Some (VStr s) => if bool_decide (s = []) then None else Some s
  | _ => None
  end.

Fixpoint split_texts (text_attr : rstring) (i : nat) (hits : list Hit) : list rstring * list nat :=
  match hits with
  | [] => ([], [])
  | h :: hits =>
      let '(texts, passthrough) := split_texts text_attr (S i) hits in
      match usable_text text_attr (h_attrs h) with
      | Some s => (s :: texts, passthrough)
      | None => (texts, i :: passthrough)
      end
  end.
Definition candidate_texts (hits : list Hit) (text_attr : rstring) : list rstring * list nat := split_texts text_attr 0 hits.

(** Descending, NaN last. *)
Definition cmp_desc (a b : f32) : comparison :=
  match f32_is_nan a, f32_is_nan b with
  | true, true => Eq
  | true, false => Gt
  | false, true => Lt
  | false, false => or_equal (f32_partial_cmp b a)
  end.
Definition reranked_cmp : Hit -> Hit -> comparison :=
  cmp_then (cmp_on h_score cmp_desc) (cmp_then (cmp_on h_collection str_cmp) (cmp_on h_id str_cmp)).

Definition set_score (score : f32) (h : Hit) : Hit :=
  {| h_collection := h_collection h; h_id := h_id h; h_score := score; h_attrs := h_attrs h;
     h_annotations := h_annotations h; h_context := h_context h |}.

(** [slots.get_mut(i)?.take()] for one index after another. *)
Fixpoint take_slots {A} (index : A -> nat) (f : A -> Hit -> Hit) (slots : list (option Hit)) (l : list A)
  : list Hit * list (option Hit) :=
  match l with
  | [] => ([], slots)
  | x :: l =>
      match slots !! index x with
      | Some (Some h) => let '(out, slots) := take_slots index f (<[index x := None]> slots) l in (f x h :: out, slots)
      | _ => take_slots index f slots l
      end
  end.

Definition apply_scores (hits : list Hit) (scored : list (nat * f32)) (passthrough : list nat) : list Hit :=
  let '(reranked, slots) := take_slots fst (fun x => set_score x.2) (map Some hits) scored in
  let tail := (take_slots id (fun _ h => h) slots passthrough).1 in
  sort_by reranked_cmp reranked ++ tail.

(** ** The stage ([rerank/apply.rs]) *)

Inductive rerank_error := RrQuery (e : query_error) | RrProvider (e : err) | RrCount (scores documents : nat).

(** A reranking service: one score per document, in order. *)
Definition Reranker : Type := rstring -> list rstring -> result err (list f32).

Definition rerank_hits (reranker : Reranker) (query : rstring) (hits : list Hit) (opts : RerankOpts)
  : result rerank_error (list Hit) :=
  let '(texts, passthrough) := candidate_texts hits (ro_text_attr opts) in
  if bool_decide (texts = []) then Ok hits
  else
    let candidate_indices := filter (fun i => i ∉ passthrough) (seq 0 (length hits)) in
    match reranker query texts with
    | Err e => Err (RrProvider e)
    | Ok scores =>
        if negb (length scores =? length candidate_indices)%nat then Err (RrCount (length scores) (length candidate_indices))
        else Ok (apply_scores hits (zip candidate_indices scores) passthrough)
    end.

Definition of_search {A} (r : result query_error A) : result rerank_error A :=
  match r with Ok a => Ok a | Err e => Err (RrQuery e) end.

Section rerank.
Context `{UnicodeAlnum} `{UnicodeLower} `{RegexEngine} `{RegexSyntax} `{HashOrder} `{HashIter} `{SortUnstable} `{Powf} `{Ln}.
Context (tok : nat -> nat -> bool) (order : list ((rstring * rstring) * Acc) -> list ((rstring * rstring) * Acc)).
Context (s : Store) (ca : Caches) (reranker : Reranker).

Definition search_reranked (scope : Scope) (query_vector : list f32) (query_text : rstring) (opts : SearchOpts)
  : result rerank_error (list Hit) :=
  match so_rerank opts with
  | None => of_search (nidus_search tok s ca scope query_vector opts)
  | Some rerank_opts =>
      let '(widened, kept) := widened_opts opts in
      (let? hits := of_search (nidus_search tok s ca scope query_vector widened) in
       let? reranked := rerank_hits reranker query_text hits rerank_opts in
       of_search (finish s (retrim reranked opts kept) opts))%res
  end.

Definition text_search_reranked (scope : Scope) (text : FtsQuery) (query_text : rstring) (opts : SearchOpts)
  : result rerank_error (list Hit) :=
  match so_rerank opts with
  | None => of_search (nidus_text_search s scope text opts)
  | Some rerank_opts =>
      let '(widened, kept) := widened_opts opts in
      (let? hits := of_search (nidus_text_search s scope text widened) in
       let? reranked := rerank_hits reranker query_text hits rerank_opts in
       of_search (finish s (retrim reranked opts kept) opts))%res
  end.

Definition widened_hybrid (opts : HybridOpts) (r : RerankOpts) : HybridOpts :=
  let overscan := N.of_nat (Nat.max (ro_overscan r) 1) in
  {| hy_top_k := usize (sat_mul (sat_add (N.of_nat (hy_offset opts)) (N.of_nat (hy_top_k opts))) overscan); hy_offset := 0;
     hy_filter := hy_filter opts; hy_rrf_k := hy_rrf_k opts; hy_candidates := usize (sat_mul (N.of_nat (hy_candidates opts)) overscan);
     hy_explain := hy_explain opts; hy_plan := hy_plan opts; hy_vector_weight := hy_vector_weight opts;
     hy_text_weight := hy_text_weight opts; hy_expand := None; hy_rerank := hy_rerank opts; hy_limit_per := None;
     hy_diversity := None |}.

Definition hybrid_reranked (scope : Scope) (vector : list f32) (text : FtsQuery) (query_text : rstring) (opts : HybridOpts)
  : result rerank_error (list Hit) :=
  match hy_rerank opts with
  | None => of_search (nidus_hybrid_search tok order s ca scope vector text opts)
  | Some rerank_opts =>
      (let? hits := of_search (nidus_hybrid_search tok order s ca scope vector text (widened_hybrid opts rerank_opts)) in
       let? reranked := rerank_hits reranker query_text hits rerank_opts in
       of_search (finish_hybrid s reranked opts))%res
  end.
End rerank.

(** ** Projections *)

Lemma projection_lookup p attrs k :
  projection_apply p attrs !! k = if projection_carries p k then attrs !! k else None.
Proof.
  destruct p as [|keys|keys]; cbn [projection_apply projection_carries]; [done| |].
  - induction keys as [|k' keys IH]; [done|]. cbn [omap list_omap].
    destruct (attrs !! k') as [v|] eqn:Ev; cbn [fmap option_fmap option_map list_to_map foldr]; cbn [fst snd].
    + destruct (decide (k = k')) as [->|Hn].
      * rewrite lookup_insert_eq, bool_decide_eq_true_2 by (by left). done.
      * rewrite lookup_insert_ne by done. rewrite IH. by rewrite (bool_decide_ext (k ∈ k' :: keys) (k ∈ keys)) by set_solver.
    + rewrite IH. destruct (decide (k = k')) as [->|Hn]; [by rewrite Ev; destruct (bool_decide _), (bool_decide _)|].
      by rewrite (bool_decide_ext (k ∈ k' :: keys) (k ∈ keys)) by set_solver.
  - destruct (bool_decide_reflect (k ∈ keys)) as [Hk|Hk]; cbn [negb].
    + apply map_lookup_filter_None. by right; intros v _ ?.
    + rewrite map_lookup_filter. destruct (attrs !! k); [|done]. cbn. by rewrite option_guard_True.
Qed.

Lemma force_include_carries p field : projection_carries (force_include p field) field = true.
Proof.
  destruct p as [|keys|keys]; cbn; [done|..].
  - apply bool_decide_eq_true. set_solver.
  - rewrite bool_decide_eq_false_2; [done|]. intros [? _]%list_elem_of_filter. done.
Qed.

(** What the fetch adds to a projection is taken off again. *)
Lemma force_include_undone p field attrs : projection_carries p field = false ->
  delete field (projection_apply (force_include p field) attrs) = projection_apply p attrs.
Proof.
  intros Hp. apply map_eq. intros k. rewrite projection_lookup. destruct (decide (k = field)) as [->|Hk].
  - by rewrite lookup_delete_eq, Hp.
  - rewrite lookup_delete_ne, projection_lookup by done. destruct p as [|keys|keys]; cbn [projection_carries force_include]; [done|..].
    + by rewrite (bool_decide_ext (k ∈ keys ++ [field]) (k ∈ keys)) by set_solver.
    + rewrite (bool_decide_ext (k ∈ filter _ keys) (k ∈ keys)); [done|]. rewrite list_elem_of_filter. naive_solver.
Qed.

(** ** Substituting the scores *)

(** The positions at which [P] holds, from [i] on. *)
Fixpoint positions {A} (P : A -> bool) (i : nat) (l : list A) : list nat :=
  match l with [] => [] | x :: l => if P x then i :: positions P (S i) l else positions P (S i) l end.

Section slots.
Context {A : Type} (P : A -> bool).

Lemma positions_ge i l j : j ∈ positions P i l -> (i <= j)%nat.
Proof.
  revert i. induction l as [|x l IH]; intros i; cbn; [by intros ?%elem_of_nil|].
  destruct (P x); [intros [->|Hj]%elem_of_cons; [done|]|intros Hj]; apply IH in Hj; lia.
Qed.
Lemma elem_of_positions i l j : j ∈ positions P i l <-> exists x, (i <= j)%nat /\ l !! (j - i)%nat = Some x /\ P x = true.
Proof.
  revert i. induction l as [|x l IH]; intros i; cbn.
  - split; [by intros ?%elem_of_nil|]. by intros (x & _ & ? & _).
  - assert ((exists y, (i <= j)%nat /\ (x :: l) !! (j - i)%nat = Some y /\ P y = true) <->
      (j = i /\ P x = true) \/ exists y, (S i <= j)%nat /\ l !! (j - S i)%nat = Some y /\ P y = true) as ->.
    { split.
      - intros (y & Hle & Hl & Hy). destruct (decide (j = i)) as [->|Hn]; [left; rewrite Nat.sub_diag in Hl; naive_solver|].
        right. exists y. replace (j - i)%nat with (S (j - S i)) in Hl by lia. split_and!; [lia|done..].
      - intros [[-> Hx]|(y & Hle & Hl & Hy)]; [exists x; by rewrite Nat.sub_diag|].
        exists y. replace (j - i)%nat with (S (j - S i)) by lia. split_and!; [lia|done..]. }
    destruct (P x) eqn:Ep; [rewrite elem_of_cons|]; rewrite IH; naive_solver.
Qed.
Lemma positions_nodup i l : NoDup (positions P i l).
Proof.
  revert i. induction l as [|x l IH]; intros i; cbn; [constructor|]. destruct (P x); [|done].
  constructor; [|done]. intros ?%positions_ge. lia.
Qed.
Lemma positions_lookup (l pre : list A) : omap (fun i => (pre ++ l) !! i) (positions P (length pre) l) = List.filter P l.
Proof.
  revert pre. induction l as [|x l IH]; intros pre; [done|]. cbn [positions List.filter].
  specialize (IH (pre ++ [x])). rewrite length_app, Nat.add_1_r, <- app_assoc in IH. cbn in IH.
  destruct (P x); [|done]. cbn [omap list_omap]. rewrite list_lookup_middle by done. by f_equal.
Qed.
End slots.

Lemma omap_ext_in {A B} (f g : A -> option B) (l : list A) : (forall x, x ∈ l -> f x = g x) -> omap f l = omap g l.
Proof.
  induction l as [|x l IH]; intros Hf; [done|]. cbn [omap list_omap]. rewrite (Hf x) by (by left).
  by rewrite IH by (intros y Hy; apply Hf; by right).
Qed.

(** Taking distinct occupied slots yields them in the order asked, and leaves the others. *)
Lemma take_slots_spec {A} (index : A -> nat) (f : A -> Hit -> Hit) (l : list A) slots :
  NoDup (map index l) -> (forall x, x ∈ l -> exists h, slots !! index x = Some (Some h)) ->
  (take_slots index f slots l).1 = omap (fun x => f x <$> mjoin (slots !! index x)) l /\
  forall j, j ∉ map index l -> (take_slots index f slots l).2 !! j = slots !! j.
Proof.
  revert slots. induction l as [|x l IH]; intros slots Hd Hs; [done|]. cbn [take_slots map] in *.
  apply NoDup_cons in Hd as [Hx Hd]. destruct (Hs x ltac:(left)) as [h Hh]. rewrite Hh.
  assert (forall y, y ∈ l -> <[index x := None]> slots !! index y = slots !! index y) as Hne.
  { intros y Hy. apply list_lookup_insert_ne. intros E. apply Hx. rewrite E. by apply list_elem_of_fmap_2. }
  destruct (IH (<[index x := None]> slots) Hd) as [E1 E2].
  { intros y Hy. rewrite Hne by done. apply Hs. by right. }
  destruct (take_slots index f (<[index x := None]> slots) l) as [out slots'] eqn:Et. cbn [fst snd] in *. split.
  - cbn [omap list_omap]. rewrite Hh. cbn. f_equal. rewrite E1. apply omap_ext_in. intros y Hy. by rewrite Hne.
  - intros j Hj. rewrite E2 by set_solver. apply list_lookup_insert_ne. set_solver.
Qed.

(** ** The reranked window *)

Definition scorable (attr : rstring) (h : Hit) : bool := bool_decide (is_Some (usable_text attr (h_attrs h))).
Definition texts_of (attr : rstring) (hits : list Hit) : list rstring := omap (fun h => usable_text attr (h_attrs h)) hits.

Lemma split_texts_spec attr hits i :
  split_texts attr i hits = (texts_of attr hits, positions (fun h => negb (scorable attr h)) i hits).
Proof.
  revert i. induction hits as [|h hits IH]; intros i; [done|]. cbn [split_texts positions texts_of omap list_omap]. rewrite IH.
  unfold scorable. by destruct (usable_text attr (h_attrs h)).
Qed.

Lemma candidates_positions attr hits :
  filter (fun i => i ∉ positions (fun h => negb (scorable attr h)) 0 hits) (seq 0 (length hits)) = positions (scorable attr) 0 hits.
Proof.
  enough (forall pre, filter (fun i => i ∉ positions (fun h => negb (scorable attr h)) 0 (pre ++ hits)) (seq (length pre) (length hits)) =
    positions (scorable attr) (length pre) hits) as Hp by (apply (Hp [])).
  induction hits as [|h hits IH]; intros pre; [done|]. cbn [length seq positions].
  specialize (IH (pre ++ [h])). rewrite length_app, Nat.add_1_r, <- app_assoc in IH. cbn in IH. rewrite filter_cons.
  assert (length pre ∈ positions (fun h => negb (scorable attr h)) 0 (pre ++ h :: hits) <-> scorable attr h = false) as Hiff.
  { rewrite elem_of_positions, Nat.sub_0_r, list_lookup_middle by done. rewrite <- negb_true_iff. naive_solver lia. }
  destruct (scorable attr h) eqn:Es.
  - rewrite decide_True by naive_solver. by f_equal.
  - by rewrite decide_False by naive_solver.
Qed.

(** The hits with a text at their new scores, in order; then the others. *)
Definition reranking (attr : rstring) (hits : list Hit) (scores : list f32) : list Hit :=
  sort_by reranked_cmp (zip_with set_score scores (List.filter (scorable attr) hits)) ++
  List.filter (fun h => negb (scorable attr h)) hits.

Lemma apply_scores_spec attr hits scores : length scores = length (positions (scorable attr) 0 hits) ->
  apply_scores hits (zip (positions (scorable attr) 0 hits) scores) (positions (fun h => negb (scorable attr h)) 0 hits) =
    reranking attr hits scores.
Proof.
  intros Hl. set (good := positions (scorable attr) 0 hits) in *. set (bad := positions (fun h => negb (scorable attr h)) 0 hits).
  unfold apply_scores, reranking.
  assert (forall i, i ∈ good -> exists h, map Some hits !! i = Some (Some h)) as Hgood.
  { intros i (h & _ & Hh & _)%elem_of_positions. exists h. rewrite Nat.sub_0_r in Hh. by rewrite list_lookup_fmap, Hh. }
  assert (map fst (zip good scores) = good) as Hfst by (by rewrite fst_zip by lia).
  destruct (take_slots_spec fst (fun x : nat * f32 => set_score x.2) (zip good scores) (map Some hits)) as [E1 E2].
  { rewrite Hfst. apply positions_nodup. }
  { intros x Hx. apply Hgood. rewrite <- Hfst. by apply list_elem_of_fmap_2. }
  destruct (take_slots _ _ _ _) as [reranked slots]. cbn [fst snd] in *. rewrite Hfst in E2.
  destruct (take_slots_spec id (fun (_ : nat) (h : Hit) => h) bad slots) as [E3 _].
  { rewrite map_id. apply positions_nodup. }
  { intros i Hi. assert (i ∉ good) as Hng.
    { intros (h & _ & Hh & Hs)%elem_of_positions. apply elem_of_positions in Hi as (h' & _ & Hh' & Hs').
      rewrite Hh in Hh'. injection Hh' as <-. by rewrite Hs in Hs'. }
    unfold id. rewrite E2 by done. apply elem_of_positions in Hi as (h & _ & Hh & _). exists h.
    rewrite Nat.sub_0_r in Hh. by rewrite list_lookup_fmap, Hh. }
  f_equal.
  - f_equal. rewrite E1. pose proof (positions_lookup (scorable attr) hits []) as Hp. cbn [app length] in Hp. fold good in Hp.
    rewrite <- Hp. clear -Hl Hgood. revert scores Hl Hgood. induction good as [|i good IH]; intros [|x scores] Hl Hg; try done.
    cbn [zip zip_with omap list_omap fst snd]. destruct (Hg i ltac:(left)) as [h Hh]. rewrite Hh. rewrite list_lookup_fmap in Hh.
    destruct (hits !! i) as [h'|]; [|done]. injection Hh as ->. cbn. f_equal. apply IH; [by injection Hl|]. intros j Hj. apply Hg. by right.
  - rewrite E3. pose proof (positions_lookup (fun h => negb (scorable attr h)) hits []) as Hp. cbn [app length] in Hp. fold bad in Hp.
    rewrite <- Hp. apply omap_ext_in. intros i Hi. unfold id. rewrite E2.
    + rewrite list_lookup_fmap. by destruct (hits !! i).
    + intros (h & _ & Hh & Hs)%elem_of_positions. apply elem_of_positions in Hi as (h' & _ & Hh' & Hs').
      rewrite Hh in Hh'. injection Hh' as <-. by rewrite Hs in Hs'.
Qed.

#[export] Instance reranked_cmp_order : CmpOrder reranked_cmp.
Proof.
  assert (forall a b, cmp_desc a b = cmp_flip ord_f32 a b) as E.
  { intros a b. unfold cmp_desc, cmp_flip, ord_f32. by destruct (f32_is_nan a), (f32_is_nan b). }
  assert (CmpOrder cmp_desc).
  { split; [intros x y; rewrite !E; apply cmp_antisym, _|]. intros x y z. unfold cmp_le. rewrite !E. apply cmp_le_trans, _. }
  unfold reranked_cmp. apply _.
Qed.

Lemma rerank_hits_ok reranker query hits r out : rerank_hits reranker query hits r = Ok out ->
  let texts := texts_of (ro_text_attr r) hits in
  texts = [] /\ out = hits \/
  exists scores, reranker query texts = Ok scores /\ length scores = length texts /\ out = reranking (ro_text_attr r) hits scores.
Proof.
  intros E texts. unfold rerank_hits, candidate_texts in E. rewrite split_texts_spec in E. fold texts in E.
  case_bool_decide as Ht; [left; by injection E as <-|right]. rewrite candidates_positions in E.
  destruct (reranker query texts) as [scores|]; [|done].
  destruct (Nat.eqb_spec (length scores) (length (positions (scorable (ro_text_attr r)) 0 hits))) as [Hl|]; [|done].
  cbn [negb] in E. injection E as <-. exists scores. split_and!; [done| |by apply apply_scores_spec].
  rewrite Hl. unfold texts, texts_of. generalize 0%nat. clear. induction hits as [|h hits IH]; intros i; [done|].
  cbn [positions omap list_omap]. unfold scorable at 1. destruct (usable_text _ _); cbn; by rewrite IH.
Qed.

Section reranked.
Context `{UnicodeAlnum} `{UnicodeLower} `{RegexEngine} `{RegexSyntax} `{!RegexLaws} `{HashOrder} `{HashIter} `{SortUnstable} `{Powf} `{Ln}.
Context (tok : nat -> nat -> bool) (s : Store) (ca : Caches) (reranker : Reranker).

(** A document of the scope, at its own score, under the caller's projection. *)
Definition window_hit (names : list rstring) (q : list f32) (opts : SearchOpts) (attrs : attrs_map) (h : Hit) : Prop :=
  genuine_hit s names q opts h /\ attrs_of s (h_collection h) (h_id h) = Some attrs.

(** The options of the search that fetches the window: as deep as the page and
    what its tail drops, times the overscan, which counts at least once; from the
    first hit on; nothing capped, spread or expanded yet; the query the caller's. *)
Record widens (opts : SearchOpts) (r : RerankOpts) (wide : SearchOpts) : Prop := {
  wd_top_k : so_top_k wide = usize (sat_mul (N.of_nat (depth opts)) (N.of_nat (Nat.max (ro_overscan r) 1)));
  wd_offset : so_offset wide = 0%nat;
  wd_tail : so_limit_per wide = None /\ so_diversity wide = None /\ so_expand wide = None;
  wd_filter : so_filter wide = so_filter opts;
  wd_min_score : so_min_score wide = so_min_score opts;
  wd_exact : so_exact wide = so_exact opts;
  wd_rank_by : so_rank_by wide = so_rank_by opts;
  wd_names : so_names wide = so_names opts /\ so_name_weights wide = so_name_weights opts /\ so_pool wide = so_pool opts;
  wd_text attrs : projection_apply (so_projection wide) attrs !! ro_text_attr r = attrs !! ro_text_attr r
}.
Lemma widened_widens opts r : so_rerank opts = Some r -> widens opts r (widened_opts opts).1.
Proof.
  intros Hr. split; unfold widened_opts, rerank_depth; rewrite ?Hr; try done. intros attrs. cbn [fst so_projection].
  rewrite projection_lookup. destruct (projection_carries (so_projection opts) (ro_text_attr r)) eqn:Ep; [by rewrite Ep|by rewrite force_include_carries].
Qed.

Definition trimmed (opts : SearchOpts) (already_kept : bool) (h : Hit) : Hit :=
  if already_kept then h else match so_rerank opts with Some r => without_attr (ro_text_attr r) h | None => h end.
Lemma retrim_map hits opts kept : retrim hits opts kept = map (trimmed opts kept) hits.
Proof. unfold retrim, trimmed. destruct kept, (so_rerank opts); by rewrite ?map_id. Qed.

(** A hit of the wider projection is one of the caller's. *)
Lemma widened_genuine names q opts h : genuine_hit s names q (widened_opts opts).1 h ->
  exists score key e, live_entry s names (so_filter opts) key e /\ h = hit_of s (so_projection (widened_opts opts).1) (score, key) /\
    genuine_hit s names q opts (hit_of s (so_projection opts) (score, key)).
Proof.
  unfold genuine_hit. change (so_names (widened_opts opts).1) with (so_names opts). destruct (so_names opts) as [|n ns] eqn:En.
  - intros ([score key] & (e & Hc & Hs) & ->). pose proof (full_score_snd _ _ _ _ _ Hs) as Ek. cbn [snd] in Ek. subst key.
    pose proof Hc as (col & entry & Hn & Hcol & Hd & _ & Hm). exists score, e.2, entry. split_and!; [by exists col|done|].
    exists (score, e.2). split; [|done]. by exists e.
  - intros (key & e & rows & score & Hl & Hp & Hss & Hpo & Hre & ->). exists score, key, e. split_and!; [done|done|].
    by exists key, e, rows, score.
Qed.

Lemma widened_hit names q opts r h : so_rerank opts = Some r -> genuine_hit s names q (widened_opts opts).1 h ->
  exists attrs h', window_hit names q opts attrs h' /\ trimmed opts (widened_opts opts).2 h = h' /\
    hit_key h' = hit_key h /\ h_score h' = h_score h /\ usable_text (ro_text_attr r) (h_attrs h) = usable_text (ro_text_attr r) attrs.
Proof.
  intros Hr (score & [n id] & entry & (col & Hn & Hcol & Hd & Hm) & -> & Hg)%widened_genuine. cbn [fst snd] in *.
  assert (attrs_of s n id = Some (de_attrs entry)) as Ha by (unfold attrs_of; rewrite Hcol; cbn; by rewrite Hd).
  exists (de_attrs entry), (hit_of s (so_projection opts) (score, (n, id))). split_and!.
  - by split.
  - unfold trimmed, widened_opts, hit_of. rewrite Hr. cbn [fst snd so_projection]. rewrite Ha.
    destruct (projection_carries (so_projection opts) (ro_text_attr r)) eqn:Ep; [done|]. unfold without_attr. cbn.
    by rewrite force_include_undone.
  - done.
  - done.
  - unfold hit_of. cbn [fst snd h_attrs Hit_new]. rewrite Ha. unfold usable_text. by rewrite (wd_text _ _ _ (widened_widens _ _ Hr)).
Qed.

Lemma window_genuine scope query opts window :
  (so_names opts <> [] -> rows_apart s) -> NoDup (scope_names s scope) -> findex_faithful s -> cache_ok s (ca_scan_order ca) ->
  nidus_search tok s ca scope query (widened_opts opts).1 = Ok window ->
  Forall (genuine_hit s (scope_names s scope) (normalized s query) (widened_opts opts).1) window.
Proof.
  intros Hn Hnd Hf Hc. unfold nidus_search. destruct (valid_filter _); [|done]. cbn [res_bind]. intros Hs.
  destruct (search_genuine tok s ca _ query (widened_opts opts).1 window Hn Hnd Hf Hc Hs) as (ranked & Hfin & Hg).
  rewrite finish_plain in Hfin by by split_and!. injection Hfin as <-. by apply Forall_take, Forall_drop.
Qed.

Lemma map_sorted (f : Hit -> Hit) l : (forall x y, reranked_cmp (f x) (f y) = reranked_cmp x y) ->
  StronglySorted (cmp_le reranked_cmp) l -> StronglySorted (cmp_le reranked_cmp) (map f l).
Proof.
  intros Hf. induction 1 as [|x l Hs IH Hx]; [constructor|]. cbn [map]. constructor; [done|]. apply Forall_fmap.
  eapply Forall_impl; [exact Hx|]. intros y Hy. unfold cmp_le in *. cbn. by rewrite Hf.
Qed.
Lemma trimmed_cmp opts kept x y : reranked_cmp (trimmed opts kept x) (trimmed opts kept y) = reranked_cmp x y.
Proof. unfold trimmed. by destruct kept, (so_rerank opts). Qed.
Lemma trimmed_key opts kept x : hit_key (trimmed opts kept x) = hit_key x.
Proof. unfold trimmed. by destruct kept, (so_rerank opts). Qed.
Lemma trimmed_score opts kept x h : trimmed opts kept (set_score x h) = set_score x (trimmed opts kept h).
Proof. unfold trimmed. by destruct kept, (so_rerank opts). Qed.

Lemma reranking_keys attr hits scores : length scores = length (texts_of attr hits) ->
  map hit_key (reranking attr hits scores) ≡ₚ map hit_key hits.
Proof.
  intros Hl. unfold reranking. rewrite sort_by_perm, map_app.
  assert (map hit_key (zip_with set_score scores (List.filter (scorable attr) hits)) = map hit_key (List.filter (scorable attr) hits)) as ->.
  { assert (length scores = length (List.filter (scorable attr) hits)) as Hl'.
    { rewrite Hl. unfold texts_of. clear. induction hits as [|h hits IH]; [done|]. cbn [omap list_omap List.filter].
      unfold scorable at 1. destruct (usable_text _ _); cbn; by rewrite IH. }
    revert Hl'. generalize (List.filter (scorable attr) hits). clear. intros l. revert scores.
    induction l as [|h l IH]; intros [|x scores] Hl; [done..|]. cbn. f_equal. apply IH. by injection Hl. }
  rewrite <- map_app. apply Permutation_map. clear. induction hits as [|h hits IH]; [done|]. cbn [List.filter].
  destruct (scorable attr h); cbn [negb app]; [by rewrite IH|]. by rewrite <- Permutation_middle, IH.
Qed.

(** The i-th scorable hit holds the i-th text. *)
Lemma scored_lookup attr hits i h : List.filter (scorable attr) hits !! i = Some h ->
  h ∈ hits /\ exists t, usable_text attr (h_attrs h) = Some t /\ texts_of attr hits !! i = Some t.
Proof.
  revert i. induction hits as [|h' hits IH]; intros i; [done|]. cbn [List.filter texts_of omap list_omap]. unfold scorable at 1.
  destruct (usable_text attr (h_attrs h')) as [t|] eqn:Et; cbn [bool_decide].
  - rewrite bool_decide_eq_true_2 by done. destruct i as [|i]; [intros [= ->]; split; [by left|by exists t]|]. cbn.
    intros (Hin & Hh)%IH. split; [by right|done].
  - rewrite bool_decide_eq_false_2 by (by intros []). intros (Hin & Hh)%IH. split; [by right|done].
Qed.

(** C15: A reranked search loses and invents nothing.  Its window is the answer of one
    search with the caller's query, filter and minimum, from the first hit on, the page's
    depth times the overscan deep, with capping, spreading and expansion left to the end
    ([widens]).  The hits of the window with a text come first, each at the score the
    service gave that very text, best first, and the others follow at their own scores;
    every one is a live document of the scope that passes the filter, under the
    projection the caller asked for although the fetch widened it; and the caller's
    offset, cap, spread and page size cut that order once.  As for any search, no
    collection is twice in the scope, the filter index and the scan order describe the
    store, and for named vectors the rows of a document lie side by side. *)
Theorem reranked_search scope query text opts r answer :
  so_rerank opts = Some r -> (so_names opts <> [] -> rows_apart s) -> NoDup (scope_names s scope) ->
  findex_faithful s -> cache_ok s (ca_scan_order ca) ->
  search_reranked tok s ca reranker scope query text opts = Ok answer ->
  let attr := ro_text_attr r in
  let in_window := window_hit (scope_names s scope) (normalized s query) opts in
  (length answer <= so_top_k opts)%nat /\
  exists wide window texts scores scored rest,
    widens opts r wide /\ nidus_search tok s ca scope query wide = Ok window /\
    map hit_key (scored ++ rest) ≡ₚ map hit_key window /\
    (texts <> [] -> reranker text texts = Ok scores /\ length scores = length texts) /\
    StronglySorted (cmp_le reranked_cmp) scored /\
    (forall h, h ∈ scored -> exists attrs h0 t i, in_window attrs h0 /\ usable_text attr attrs = Some t /\
       texts !! i = Some t /\ scores !! i = Some (h_score h) /\ h = set_score (h_score h) h0) /\
    (forall h, h ∈ rest -> exists attrs, in_window attrs h /\ usable_text attr attrs = None) /\
    finish s (scored ++ rest) opts = Ok answer.
Proof.
  intros Hr Hn Hnd Hf Hc E attr in_window. unfold search_reranked in E. rewrite Hr in E.
  rewrite (surjective_pairing (widened_opts opts)) in E.
  destruct (nidus_search tok s ca scope query (widened_opts opts).1) as [window|] eqn:Es; [|done]. cbn [of_search res_bind] in E.
  pose proof (window_genuine _ _ _ _ Hn Hnd Hf Hc Es) as Hg. rewrite Forall_forall in Hg.
  destruct (rerank_hits reranker text window r) as [out|] eqn:Er; [|done]. cbn [res_bind] in E. rewrite retrim_map in E.
  set (kept := (widened_opts opts).2) in *.
  assert (forall h, h ∈ window -> exists attrs, in_window attrs (trimmed opts kept h) /\
    usable_text attr (h_attrs h) = usable_text attr attrs) as Hw.
  { intros h Hh. destruct (widened_hit _ _ _ r h Hr (Hg h Hh)) as (attrs & h' & Hwin & Etr & _ & _ & Ht).
    exists attrs. fold kept in Etr. by rewrite Etr. }
  assert (finish s (map (trimmed opts kept) out) opts = Ok answer) as Hfin by (by destruct (finish _ _ _); [injection E as ->|]).
  split; [by apply finish_sub in Hfin as [? _]|]. apply rerank_hits_ok in Er as [[Ht ->]|(scores & Hsc & Hl & ->)].
  - exists (widened_opts opts).1, window, [], [], [], (map (trimmed opts kept) window). split; [by apply widened_widens|].
    split_and!; try done; [|by constructor|by intros h ?%elem_of_nil|].
    + cbn [app]. rewrite map_map. by rewrite (map_ext _ _ (trimmed_key opts kept)).
    + intros h (h0 & -> & Hh)%list_elem_of_fmap. destruct (Hw h0 Hh) as (attrs & Hwin & Hu). exists attrs. split; [done|]. rewrite <- Hu.
      destruct (usable_text attr (h_attrs h0)) as [t|] eqn:Et; [|done]. exfalso.
      assert (t ∈ texts_of attr window) as Hin by (apply list_elem_of_omap; by exists h0). fold attr in Ht. rewrite Ht in Hin. by apply elem_of_nil in Hin.
  - unfold reranking in Hfin. rewrite map_app in Hfin. fold attr in Hfin, Hl, Hsc.
    exists (widened_opts opts).1, window, (texts_of attr window), scores. do 2 eexists. split; [by apply widened_widens|]. split; [done|]. split; [|split; [done|split; [|split; [|split; [|exact Hfin]]]]].
    + rewrite <- map_app, map_map, (map_ext _ _ (trimmed_key opts kept)). by apply reranking_keys.
    + apply map_sorted; [apply trimmed_cmp|apply sort_by_sorted, _].
    + intros h (h1 & -> & Hh)%list_elem_of_fmap. rewrite sort_by_perm in Hh.
      apply list_elem_of_lookup in Hh as (i & Hi). rewrite lookup_zip_with in Hi.
      destruct (scores !! i) as [x|] eqn:Ex; [|done]. destruct (List.filter (scorable attr) window !! i) as [h0|] eqn:Eh; [|done].
      injection Hi as <-. apply scored_lookup in Eh as (Hin & t & Hu & Ht). destruct (Hw h0 Hin) as (attrs & Hwin & Hu').
      exists attrs, (trimmed opts kept h0), t, i. rewrite trimmed_score. split_and!; try done. by rewrite <- Hu'.
    + intros h (h0 & -> & Hh)%list_elem_of_fmap. apply list_elem_of_In, filter_In in Hh as [Hin Hs]. apply list_elem_of_In in Hin.
      destruct (Hw h0 Hin) as (attrs & Hwin & Hu). exists attrs. split; [done|]. rewrite <- Hu. unfold scorable in Hs.
      by destruct (usable_text attr (h_attrs h0)).
Qed.
End reranked.

(** ** A reranked search *)

Section examples.
Import PlainEngine Demo.
#[local] Instance no_ln : Ln := fun x => x.

Definition said (row : nat) (text : rstring) : DocEntry := {| de_rows := {[DEFAULT_VECTOR := row]}; de_attrs := {[META_TEXT := VStr text]} |}.
(** The metric ranks y, x and z; only x and y have a text. *)
Definition texts_store : Store :=
  with_index {| ix_collections := {[lit "a" := of_docs [(lit "x", said 0 (lit "right")); (lit "y", said 1 (lit "wrong")); (lit "z", rowed 2)]]};
                ix_dead_rows := 0; ix_fts := Fts_default; ix_findex := Findex_default |} Demo.store.
Definition asks : SearchOpts :=
  {| so_top_k := 3; so_offset := 0; so_filter := Filter_default; so_min_score := None; so_exact := true;
     so_projection := PrInclude []; so_explain := false; so_plan := false; so_rank_by := None; so_limit_per := None;
     so_diversity := None; so_rerank := Some {| ro_overscan := 2; ro_text_attr := META_TEXT |}; so_expand := None;
     so_names := []; so_name_weights := ∅; so_pool := PoolMax |}.
Definition right_one : Reranker := fun _ texts => Ok (map (fun t => if bool_decide (t = lit "right") then f32_one else f32_zero) texts).
Definition reranked_answer : list Hit :=
  match search_reranked never texts_store Demo.caches right_one (ScopeCollection (lit "a")) [f32_one] [] asks with Ok l => l | _ => [] end.

Lemma reranked_search_witness :
  map h_id reranked_answer = [lit "x"; lit "y"; lit "z"] /\ map h_attrs reranked_answer = [∅; ∅; ∅] /\
  exists wide scored rest, so_top_k wide = 6%nat /\ StronglySorted (cmp_le reranked_cmp) scored /\
    finish texts_store (scored ++ rest) asks = Ok reranked_answer.
Proof.
  split; [by vm_compute|]. split; [by vm_compute|].
  assert (findex_faithful texts_store) as Hf.
  { exists 0%nat. assert (live_docs_of texts_store = ∅) as -> by by vm_compute. apply findex_ok_default. }
  assert (search_reranked never texts_store Demo.caches right_one (ScopeCollection (lit "a")) [f32_one] [] asks = Ok reranked_answer) as E
    by (vm_compute; reflexivity).
  destruct (reranked_search never texts_store Demo.caches right_one (ScopeCollection (lit "a")) [f32_one] [] asks
    {| ro_overscan := 2; ro_text_attr := META_TEXT |} reranked_answer eq_refl
    (fun Hn => match Hn eq_refl with end) (NoDup_singleton _) Hf I E)
    as (_ & wide & _ & _ & _ & scored & rest & Hw & _ & _ & _ & Hs & _ & _ & Hfin).
  exists wide, scored, rest. split; [rewrite (wd_top_k _ _ _ Hw); by vm_compute|by split].
Defined.
End examples.
