(* ===== verification/EmbedCache.v ===== *)
(** * EmbedCache: the content-hash cache of embeddings ([embed/cache.rs])

    A decorator over an embedder: texts already seen are answered from a map, the
    others are asked for in one call, and the oldest entries go when there are
    too many.  Each region under the mutex is one function of the entries;
    [meanwhile] is what other callers do to them during the call.  The wrapped
    embedder and the hash of a text are arguments.  [None] is a panic.

    [cached_embed_transparent]: a cached batch answers what the wrapped embedder
    would, with at most one call for exactly the texts not yet seen, whatever other callers do
    meanwhile.  [embed_cache_reopens]: what is saved is there on reopening, and only for the same
    embedder. *)
From S2P Require Import Prelude Floats Model Backend Codec Data IndexCache Manifest Lease.

Definition EMBED_CACHE_OBJECT : rstring := lit "embed-cache".
Definition DEFAULT_MAX_ENTRIES : nat := 50000.

Definition embed_validity_key (identity : rstring) (dimension : nat) : bytes :=
  as_bytes (lit "embed-cache-v1|" ++ identity ++ lit "|" ++ u64_to_string (N.of_nat dimension)).

Record CacheStats := { cs_hits : nat; cs_misses : nat; cs_evicted : nat }.
Definition CacheStats_default : CacheStats := {| cs_hits := 0; cs_misses := 0; cs_evicted := 0 |}.

Record Entries := { en_map : gmap N (list f32); en_order : list N; en_dirty : bool; en_stats : CacheStats }.
Definition Entries_default : Entries := {| en_map := ∅; en_order := []; en_dirty := false; en_stats := CacheStats_default |}.

Definition note_hit (s : CacheStats) : CacheStats := {| cs_hits := S (cs_hits s); cs_misses := cs_misses s; cs_evicted := cs_evicted s |}.
Definition note_miss (s : CacheStats) : CacheStats := {| cs_hits := cs_hits s; cs_misses := S (cs_misses s); cs_evicted := cs_evicted s |}.
Definition note_evicted (s : CacheStats) : CacheStats := {| cs_hits := cs_hits s; cs_misses := cs_misses s; cs_evicted := S (cs_evicted s) |}.
Definition set_stats (f : CacheStats -> CacheStats) (e : Entries) : Entries :=
  {| en_map := en_map e; en_order := en_order e; en_dirty := en_dirty e; en_stats := f (en_stats e) |}.

(** [map.insert(hash, vector)], and the order when the hash is new. *)
Definition remember_vector (hash : N) (vector : list f32) (e : Entries) : Entries :=
  {| en_map := <[hash := vector]> (en_map e);
     en_order := match en_map e !! hash with None => en_order e ++ [hash] | Some _ => en_order e end;
     en_dirty := en_dirty e; en_stats := en_stats e |}.

(** The loop that drops the oldest while there are too many. *)
Fixpoint evict (max_entries : nat) (order : list N) (map : gmap N (list f32)) (stats : CacheStats)
  : gmap N (list f32) * list N * CacheStats :=
  match order with
  | victim :: rest =>
      if (max_entries <? length order)%nat then evict max_entries rest (delete victim map) (note_evicted stats)
      else (map, order, stats)
  | [] => (map, order, stats)
  end.

Definition entries_insert (hash : N) (vector : list f32) (max_entries : nat) (e : Entries) : Entries :=
  let e := remember_vector hash vector e in
  let '(map, order, stats) := evict max_entries (en_order e) (en_map e) (en_stats e) in
  {| en_map := map; en_order := order; en_dirty := true; en_stats := stats |}.

(** [CachedEmbedder], but for the embedder it wraps. *)
Record CachedEmbedder := { ce_persistent : bool; ce_key : bytes; ce_max_entries : nat; ce_entries : Entries }.

(** ** Opening and saving *)

Section persistence.
Context `{Crc32} `{Codec (list (N * list f32))}.

Definition adopt_entry (dimension : nat) (e : Entries) (hv : N * list f32) : Entries :=
  if (length hv.2 =? dimension)%nat then remember_vector hv.1 hv.2 e else e.

(** [open]: whatever cannot be read is an empty cache. *)
Definition cached_open {X} (persistent : bool) (identity : rstring) (dimension max_entries : nat) : M X CachedEmbedder :=
  (let key := embed_validity_key identity dimension in
   let* stored := if persistent then catch (cache_load EMBED_CACHE_OBJECT key) (fun _ => ret None) else ret None in
   let entries := match stored with
     | Some (l, _) => foldl (adopt_entry dimension) Entries_default l
     | None => Entries_default
     end in
   ret {| ce_persistent := persistent; ce_key := key; ce_max_entries := max_entries; ce_entries := entries |})%m.

Definition cache_payload (e : Entries) : list (N * list f32) := omap (fun h => (fun v => (h, v)) <$> en_map e !! h) (en_order e).
Definition set_clean (c : CachedEmbedder) : CachedEmbedder :=
  {| ce_persistent := ce_persistent c; ce_key := ce_key c; ce_max_entries := ce_max_entries c;
     ce_entries := {| en_map := en_map (ce_entries c); en_order := en_order (ce_entries c); en_dirty := false;
                      en_stats := en_stats (ce_entries c) |} |}.
Definition cached_save : M CachedEmbedder unit :=
  (let* c := get_st in
   if negb (ce_persistent c) then ret tt
   else if negb (en_dirty (ce_entries c)) then ret tt
   else
     let payload := cache_payload (ce_entries c) in
     do* cache_save EMBED_CACHE_OBJECT (ce_key c) (length payload) payload in
     modify set_clean)%m.
End persistence.

(** ** Embedding *)

Section embedding.
Context (content_hash : rstring -> N).
(** The wrapped embedder's [embed_batch]. *)
Context (inner : list rstring -> result err (list (list f32))).

(** The first region: what is cached, and the texts to ask for with their places. *)
Fixpoint lookup_phase (i : nat) (texts : list rstring) (e : Entries) : list (option (list f32)) * list (nat * rstring) * Entries :=
  match texts with
  | [] => ([], [], e)
  | t :: texts =>
      match en_map e !! content_hash t with
      | Some v =>
          let '(out, missing, e) := lookup_phase (S i) texts (set_stats note_hit e) in (Some v :: out, missing, e)
      | None =>
          let '(out, missing, e) := lookup_phase (S i) texts (set_stats note_miss e) in (None :: out, (i, t) :: missing, e)
      end
  end.

(** The second: the vectors fetched are cached and spliced in. *)
Fixpoint fill_phase (max_entries : nat) (fetched : list ((nat * rstring) * list f32)) (out : list (option (list f32))) (e : Entries)
  : list (option (list f32)) * Entries :=
  match fetched with
  | [] => (out, e)
  | ((i, t), v) :: fetched => fill_phase max_entries fetched (<[i := Some v]> out) (entries_insert (content_hash t) v max_entries e)
  end.

(** [embed_batch], with the batches asked of the wrapped embedder. *)
Definition cached_embed_batch (meanwhile : Entries -> Entries) (max_entries : nat) (texts : list rstring) (e : Entries)
  : option (result err (list (list f32))) * Entries * list (list rstring) :=
  if (max_entries =? 0)%nat then (Some (inner texts), meanwhile e, [texts])
  else
    let '(out, missing, e) := lookup_phase 0 texts e in
    if bool_decide (missing = []) then (Ok <$> mapM id out, e, [])
    else
      let wanted := missing.*2 in
      let e := meanwhile e in
      match inner wanted with
      | Err er => (Some (Err er), e, [wanted])
      | Ok fetched =>
          if negb (length fetched =? length wanted)%nat then (Some (Err EInvalid), e, [wanted])
          else let '(out, e) := fill_phase max_entries (zip missing fetched) out e in (Ok <$> mapM id out, e, [wanted])
      end.

(** [embed]: [remove(0)] panics on an empty answer. *)
Definition cached_embed (meanwhile : Entries -> Entries) (max_entries : nat) (text : rstring) (e : Entries)
  : option (result err (list f32)) * Entries * list (list rstring) :=
  let '(r, e, calls) := cached_embed_batch meanwhile max_entries [text] e in
  (match r with
   | Some (Ok (v :: _)) => Some (Ok v)
   | Some (Ok []) => None
   | Some (Err er) => Some (Err er)
   | None => None
   end, e, calls).
End embedding.

Lemma mapM_id_Some {A} (l : list A) : mapM id (map Some l) = Some l.
Proof. induction l as [|x l IH]; [done|]. cbn. by rewrite IH. Qed.

Section ok.
Context (content_hash : rstring -> N) (f : rstring -> list f32) (T : rstring -> Prop).
(** Among the texts at hand no two share a hash. *)
Context (Hfree : forall t t', T t -> T t' -> content_hash t = content_hash t' -> t = t').

Record entries_ok (e : Entries) : Prop := {
  eo_nodup : NoDup (en_order e);
  eo_order h : h ∈ en_order e <-> is_Some (en_map e !! h);
  eo_vectors h v : en_map e !! h = Some v -> exists t, T t /\ content_hash t = h /\ v = f t
}.

Lemma entries_default_ok : entries_ok Entries_default.
Proof.
  split; cbn; [constructor| |].
  - intros h. rewrite lookup_empty. split; [by intros ?%elem_of_nil|by intros [? ?]].
  - intros h v. by rewrite lookup_empty.
Qed.

Lemma remember_vector_ok t e : T t -> entries_ok e -> entries_ok (remember_vector (content_hash t) (f t) e).
Proof.
  intros Ht [Hd Ho Hv]. unfold remember_vector. split; cbn.
  - destruct (en_map e !! content_hash t) eqn:Em; [done|]. apply NoDup_app. split_and!; [done| |apply NoDup_singleton].
    intros h Hh ->%list_elem_of_singleton. apply Ho in Hh as [? Hh]. by rewrite Hh in Em.
  - intros h. destruct (en_map e !! content_hash t) eqn:Em.
    + rewrite Ho. destruct (decide (h = content_hash t)) as [->|Hn]; [rewrite Em, lookup_insert_eq; naive_solver|by rewrite lookup_insert_ne].
    + rewrite elem_of_app, list_elem_of_singleton, Ho.
      destruct (decide (h = content_hash t)) as [->|Hn]; [rewrite lookup_insert_eq; naive_solver|rewrite lookup_insert_ne by done; naive_solver].
  - intros h v. destruct (decide (h = content_hash t)) as [->|Hn]; [rewrite lookup_insert_eq; intros [= <-]; by exists t|].
    rewrite lookup_insert_ne by done. apply Hv.
Qed.

(** Eviction takes the oldest until the rest fits. *)
Lemma evict_spec max order map stats : NoDup order ->
  (evict max order map stats).1.2 = drop (length order - max) order /\
  forall h, (evict max order map stats).1.1 !! h = if decide (h ∈ take (length order - max) order) then None else map !! h.
Proof.
  revert map stats. induction order as [|victim order IH]; intros map stats Hd.
  - cbn. split; [done|]. intros h. by rewrite decide_False by (by intros ?%elem_of_nil).
  - apply NoDup_cons in Hd as [Hv Hd]. cbn [evict]. destruct (Nat.ltb_spec max (length (victim :: order))) as [Hl|Hl]; cbn [length] in *.
    + destruct (IH (delete victim map) (note_evicted stats) Hd) as [E1 E2].
      replace (S (length order) - max)%nat with (S (length order - max)) by lia. cbn [drop take]. split; [exact E1|].
      intros h. rewrite E2. destruct (decide (h = victim)) as [->|Hn].
      * rewrite lookup_delete_eq, (decide_True (P := victim ∈ victim :: _)) by (by left). by case_decide.
      * rewrite lookup_delete_ne by done. apply decide_ext. set_solver.
    + replace (S (length order) - max)%nat with 0%nat by lia. split; [done|]. intros h. by rewrite decide_False by (by intros ?%elem_of_nil).
Qed.

Lemma entries_insert_ok t max e : T t -> entries_ok e ->
  entries_ok (entries_insert (content_hash t) (f t) max e) /\ (length (en_order (entries_insert (content_hash t) (f t) max e)) <= max)%nat.
Proof.
  intros Ht He. pose proof (remember_vector_ok t e Ht He) as [Hd Ho Hv]. unfold entries_insert.
  generalize dependent (remember_vector (content_hash t) (f t) e). intros e1 Hd Ho Hv.
  destruct (evict_spec max (en_order e1) (en_map e1) (en_stats e1) Hd) as [E1 E2].
  destruct (evict _ _ _ _) as [[map order] stats]. cbn [fst snd] in *. subst order.
  set (n := (length (en_order e1) - max)%nat) in *. split; [|cbn; rewrite length_drop; lia].
  pose proof (take_drop n (en_order e1)) as Hsplit. rewrite <- Hsplit in Hd. apply NoDup_app in Hd as (Hd1 & Hdis & Hd2).
  split; cbn; [done| |].
  - intros h. rewrite E2. case_decide as Hh; [split; [by intros ?%(Hdis h Hh)|by intros [? ?]]|].
    rewrite <- Ho. pose proof (elem_of_app (take n (en_order e1)) (drop n (en_order e1)) h) as Hin. rewrite Hsplit in Hin. naive_solver.
  - intros h v. rewrite E2. case_decide; [done|]. apply Hv.
Qed.

(** ** The two regions *)

Lemma lookup_phase_spec i texts e out missing e' : lookup_phase content_hash i texts e = (out, missing, e') ->
  out = map (fun t => en_map e !! content_hash t) texts /\
  missing.*2 = List.filter (fun t => bool_decide (en_map e !! content_hash t = None)) texts /\
  (forall j t, (j, t) ∈ missing -> (i <= j)%nat /\ texts !! (j - i)%nat = Some t) /\
  (forall j t, texts !! j = Some t -> en_map e !! content_hash t = None -> (i + j, t)%nat ∈ missing) /\
  en_map e' = en_map e /\ en_order e' = en_order e.
Proof.
  revert i e out missing e'. induction texts as [|t texts IH]; intros i e out missing e'; cbn [lookup_phase].
  - intros [= <- <- <-]. split_and!; try done. by intros j t ?%elem_of_nil.
  - destruct (en_map e !! content_hash t) as [v|] eqn:Em.
    + destruct (lookup_phase _ _ _ _) as [[out1 missing1] e1] eqn:El. intros [= <- <- <-].
      apply IH in El as (-> & E2 & E3 & E4 & E5 & E6). cbn [set_stats en_map] in *. cbn [map List.filter]. rewrite Em.
      rewrite bool_decide_eq_false_2 by done. split_and!; try done.
      * intros j t' (Hle & Ht)%E3. split; [lia|]. by replace (j - i)%nat with (S (j - S i)) by lia.
      * intros [|j] t' Ht Hn; [cbn in Ht; injection Ht as <-; by rewrite Em in Hn|]. rewrite Nat.add_succ_r. by apply (E4 j).
    + destruct (lookup_phase _ _ _ _) as [[out1 missing1] e1] eqn:El. intros [= <- <- <-].
      apply IH in El as (-> & E2 & E3 & E4 & E5 & E6). cbn [set_stats en_map] in *. cbn [map List.filter fmap list_fmap]. rewrite Em.
      rewrite bool_decide_eq_true_2 by done. split_and!; try done; [by f_equal| |].
      * intros j t' [[= -> ->]|(Hle & Ht)%E3]%elem_of_cons; [by rewrite Nat.sub_diag|]. split; [lia|].
        by replace (j - i)%nat with (S (j - S i)) by lia.
      * intros [|j] t' Ht Hn; [cbn in Ht; injection Ht as <-; rewrite Nat.add_0_r; by left|]. rewrite Nat.add_succ_r. right. by apply (E4 j).
Qed.

(** Filling the missing places completes the answer. *)
Lemma fill_phase_spec max texts fetched out e :
  length out = length texts -> Forall (fun x : (nat * rstring) * list f32 => T x.1.2 /\ texts !! x.1.1 = Some x.1.2 /\ x.2 = f x.1.2) fetched ->
  (forall j t, texts !! j = Some t -> out !! j = Some (Some (f t)) \/ j ∈ fetched.*1.*1) -> entries_ok e ->
  let r := fill_phase content_hash max fetched out e in
  r.1 = map (fun t => Some (f t)) texts /\ entries_ok r.2 /\ (fetched <> [] -> (length (en_order r.2) <= max)%nat).
Proof.
  revert out e. induction fetched as [|[[i t] v] fetched IH]; intros out e Hl Hf Hout He; cbn [fill_phase]; cbv zeta.
  - cbn [fst snd]. split_and!; try done. apply list_eq. intros j. rewrite list_lookup_fmap. destruct (texts !! j) as [t|] eqn:Ej.
    + by destruct (Hout j t Ej) as [->|?%elem_of_nil].
    + apply lookup_ge_None in Ej. apply lookup_ge_None. lia.
  - apply Forall_cons in Hf as [(Ht & Hi & Hv) Hf]. cbn [fst snd] in *. subst v.
    destruct (entries_insert_ok t max e Ht He) as [He' Hlen].
    assert (forall j t', texts !! j = Some t' -> <[i := Some (f t)]> out !! j = Some (Some (f t')) \/ j ∈ fetched.*1.*1) as Hout'.
    { intros j t' Hj. destruct (decide (i = j)) as [<-|Hn].
      - left. rewrite list_lookup_insert_eq; [congruence|]. rewrite Hl. by eapply lookup_lt_Some.
      - rewrite list_lookup_insert_ne by done. destruct (Hout j t' Hj) as [?|Hin]; [by left|right]. set_solver. }
    destruct (IH _ _ ltac:(by rewrite length_insert) Hf Hout' He') as (E1 & E2 & E3). split_and!; [done..|].
    intros _. destruct fetched; [exact Hlen|by apply E3].
Qed.

(** ** A batch *)

Context (inner : list rstring -> result err (list (list f32))).
(** The wrapped embedder gives each text its vector, or fails. *)
Definition faithful_inner : Prop := forall l, inner l = Ok (map f l) \/ exists e, inner l = Err e.
(** What other callers do keeps the cache well formed. *)
Definition keeps (meanwhile : Entries -> Entries) : Prop := forall e, entries_ok e -> entries_ok (meanwhile e).

(** C16: the cache is transparent: a batch through it answers the vectors the
    wrapped embedder would, or the error of the one call it makes, and never panics;
    the call is for exactly the texts not yet cached, none when all are; the
    cache stays well formed and within its bound, whatever other callers do
    to it during the call. *)
Theorem cached_embed_transparent meanwhile max texts e r e' calls :
  faithful_inner -> keeps meanwhile -> Forall T texts -> entries_ok e ->
  cached_embed_batch content_hash inner meanwhile max texts e = (r, e', calls) ->
  let unseen := List.filter (fun t => bool_decide (en_map e !! content_hash t = None)) texts in
  entries_ok e' /\
  calls = (if (max =? 0)%nat then [texts] else if bool_decide (unseen = []) then [] else [unseen]) /\
  (r = Some (Ok (map f texts)) /\ (max <> 0%nat -> unseen <> [] -> (length (en_order e') <= max)%nat) \/
   exists wanted er, calls = [wanted] /\ inner wanted = Err er /\ r = Some (Err er)).
Proof.
  intros Hin Hk HT He E unseen. unfold cached_embed_batch in E.
  destruct (Nat.eqb_spec max 0) as [Hm|Hm].
  { injection E as <- <- <-. split_and!; [by apply Hk|done|]. destruct (Hin texts) as [->|[er Her]]; [by left|right].
    exists texts, er. by rewrite Her. }
  destruct (lookup_phase content_hash 0 texts e) as [[out missing] e1] eqn:El.
  apply lookup_phase_spec in El as (-> & Em & Em1 & Em2 & Emap & Eord). fold unseen in Em.
  assert (entries_ok e1) as He1.
  { destruct He as [Hd Ho Hv]. split; [by rewrite Eord|intros h; by rewrite Eord, Emap|intros h v; rewrite Emap; apply Hv]. }
  assert (forall t v, T t -> en_map e !! content_hash t = Some v -> v = f t) as Hcached.
  { intros t v Ht Hv. destruct (eo_vectors e He _ _ Hv) as (t' & Ht' & Hh & ->). by rewrite (Hfree t' t). }
  rewrite Forall_forall in HT.
  destruct (decide (missing = [])) as [->|Hne].
  { rewrite bool_decide_eq_true_2 in E by done. injection E as <- <- <-. cbn in Em. rewrite <- Em. cbn. split_and!; [done..|]. left. split; [|done].
    assert (map (fun t => en_map e !! content_hash t) texts = map Some (map f texts)) as ->; [|by rewrite mapM_id_Some].
    rewrite map_map. apply map_ext_in. intros t Ht%list_elem_of_In.
    destruct (en_map e !! content_hash t) as [v|] eqn:Ev; [by rewrite (Hcached t v) by auto|].
    apply list_elem_of_lookup in Ht as (j & Hj). specialize (Em2 j t Hj Ev). by apply elem_of_nil in Em2. }
  assert (unseen <> []) as Hun by (rewrite <- Em; by destruct missing).
  rewrite !bool_decide_eq_false_2 in * by done. rewrite Em in E.
  pose proof (Hk e1 He1) as Hmid. destruct (Hin unseen) as [Hi|[er Hi]]; rewrite Hi in E; cycle 1.
  { injection E as <- <- <-. split_and!; [done..|]. right. by exists unseen, er. }
  rewrite length_map, Nat.eqb_refl in E. cbn [negb] in E.
  destruct (fill_phase_spec max texts (zip missing (map f unseen)) (map (fun t => en_map e !! content_hash t) texts) (meanwhile e1))
    as (E1 & E2 & E3).
  { by rewrite length_map. }
  { apply Forall_forall. intros [[j t] v] Hx. apply list_elem_of_lookup in Hx as (k & Hx). apply lookup_zip_with_Some in Hx as (x & v' & [= <- <-] & Hx & Hv).
    rewrite list_lookup_fmap, <- Em, list_lookup_fmap, Hx in Hv. cbn in Hv. injection Hv as <-. cbn.
    apply list_elem_of_lookup_2 in Hx. apply Em1 in Hx as [_ Hx]. rewrite Nat.sub_0_r in Hx. split_and!; [|done..]. apply HT. by eapply list_elem_of_lookup_2. }
  { intros j t Hj. rewrite list_lookup_fmap, Hj. cbn. destruct (en_map e !! content_hash t) as [v|] eqn:Ev.
    - left. do 2 f_equal. apply (Hcached t v); [|done]. apply HT. by eapply list_elem_of_lookup_2.
    - right. rewrite fst_zip by (by rewrite length_map, <- Em, length_fmap). specialize (Em2 j t Hj Ev). apply list_elem_of_fmap. by exists (j, t). }
  { done. }
  destruct (fill_phase _ _ _ _ _) as [out e2]. cbn [fst snd] in *. injection E as <- <- <-. split_and!; [done..|]. left.
  rewrite E1, <- map_map, mapM_id_Some. split; [done|]. intros _ _. apply E3. destruct missing as [|x missing]; [done|].
  rewrite <- Em. done.
Qed.
End ok.

(** ** Saved and reopened *)

Lemma adopt_payload dimension (l : list (N * list f32)) (e : Entries) :
  NoDup l.*1 -> (forall h, h ∈ l.*1 -> en_map e !! h = None) -> Forall (fun hv : N * list f32 => length hv.2 = dimension) l ->
  let e' := foldl (adopt_entry dimension) e l in
  en_order e' = en_order e ++ l.*1 /\ en_map e' = list_to_map l ∪ en_map e.
Proof.
  revert e. induction l as [|[h v] l IH]; intros e Hd Hn Hl; cbn [foldl]; cbv zeta.
  - cbn. by rewrite app_nil_r, (left_id_L ∅ _).
  - apply NoDup_cons in Hd as [Hh Hd]. apply Forall_cons in Hl as [Hv Hl]. cbn [fst snd] in *.
    assert (adopt_entry dimension e (h, v) = remember_vector h v e) as -> by (unfold adopt_entry; cbn [snd fst]; by rewrite Hv, Nat.eqb_refl).
    assert (en_map e !! h = None) as Hm by (apply Hn; by left).
    destruct (IH (remember_vector h v e)) as [E1 E2]; [done| |done|].
    { intros h' Hh'. cbn. rewrite lookup_insert_ne by (intros <-; done). apply Hn. by right. }
    rewrite E1, E2. cbn. rewrite Hm. split; [by rewrite <- app_assoc|].
    rewrite <- insert_union_r; [by rewrite insert_union_l|]. apply not_elem_of_list_to_map_1. exact Hh.
Qed.

Lemma payload_fst e : (forall h, h ∈ en_order e -> is_Some (en_map e !! h)) -> (cache_payload e).*1 = en_order e.
Proof.
  unfold cache_payload. induction (en_order e) as [|h l IH]; intros Hs; [done|]. cbn [omap list_omap].
  destruct (Hs h ltac:(left)) as [v Hv]. rewrite Hv. cbn. f_equal. apply IH. intros h' Hh'. apply Hs. by right.
Qed.
Lemma payload_elem e h v : (h, v) ∈ cache_payload e <-> h ∈ en_order e /\ en_map e !! h = Some v.
Proof.
  unfold cache_payload. rewrite list_elem_of_omap. split.
  - intros (h' & Hh & E). apply fmap_Some in E as (v' & Hv & [= -> ->]). done.
  - intros [Hh Hv]. exists h. by rewrite Hv.
Qed.

Section reopened.
Context `{!Crc32} `{!Crc32Laws} `{!Codec (list (N * list f32))} `{!CodecLaws (list (N * list f32))}.

(** the cache survives: what a dirty cache saves, opening it again with a backend that answers
    gives back, entry for entry and in the order of eviction, when the embedder and dimension
    are the same, and an empty cache when its key is another of that length. *)
Theorem embed_cache_reopens content_hash f T c w c' w' identity dimension identity' dimension' max (w'' : World) :
  entries_ok content_hash f T (ce_entries c) -> (forall h v, en_map (ce_entries c) !! h = Some v -> length v = dimension) ->
  (Z.of_nat (length (en_order (ce_entries c))) < 2 ^ 64)%Z ->
  ce_persistent c = true -> en_dirty (ce_entries c) = true -> ce_key c = embed_validity_key identity dimension ->
  length (embed_validity_key identity' dimension') = length (ce_key c) ->
  (embed_validity_key identity' dimension' = ce_key c -> dimension' = dimension) ->
  cached_save c w = (Ret tt, c', w') -> object w'' EMBED_CACHE_OBJECT = object w' EMBED_CACHE_OBJECT -> calm w'' ->
  en_dirty (ce_entries c') = false /\
  exists c2 w3, cached_open true identity' dimension' max tt w'' = (Ret c2, tt, w3) /\
    let same := decide (embed_validity_key identity' dimension' = ce_key c) in
    en_map (ce_entries c2) = (if same then en_map (ce_entries c) else ∅) /\
    en_order (ce_entries c2) = (if same then en_order (ce_entries c) else []).
Proof.
  intros Hok Hdim Hbound Hp Hdirty Hkey Hlen Hsame E Hobj Hcalm. unfold cached_save, bind at 1, get_st in E. rewrite Hp, Hdirty in E. cbn [negb] in E.
  set (payload := cache_payload (ce_entries c)) in *. unfold bind at 1 in E.
  destruct (cache_save EMBED_CACHE_OBJECT (ce_key c) (length payload) payload c w) as [[[u|er|] c1] w1] eqn:Es; [|done..].
  injection E as <- <-. unfold cache_save, bind in Es.
  destruct (cache_frame (ce_key c) (length payload) payload) as [bs|] eqn:Ef; [|done]. cbn [of_result ret] in Es.
  apply p_put_spec in Es as (-> & _ & _ & Hput). specialize (Hput u eq_refl). rewrite Hput in Hobj. split; [done|].
  assert (payload.*1 = en_order (ce_entries c)) as Hfst by (apply payload_fst; intros h Hh; by apply (eo_order _ _ _ _ Hok)).
  assert (length payload = length (en_order (ce_entries c))) as Hlp by (by rewrite <- Hfst, length_fmap).
  pose proof (cache_roundtrip (ce_key c) (embed_validity_key identity' dimension') (length payload) payload bs ltac:(by rewrite Hlp) Hlen Ef) as Hdec.
  unfold cached_open, bind, catch, cache_load, p_get, bind.
  change (validate_key EMBED_CACHE_OBJECT) with (Ok tt : result err unit). cbn [of_result ret].
  unfold reads, backend_call. destruct (pop_fault w'') as [fa w3] eqn:Epop.
  assert (fa = Fine /\ object w3 EMBED_CACHE_OBJECT = Some bs) as [-> Eo].
  { split; [|unfold object in *; pose proof (pop_fault_spec _ _ _ Epop) as (O & _); by rewrite O].
    unfold pop_fault in Epop. unfold calm in Hcalm. destruct (w_faults w'') as [|x l]; [by injection Epop|].
    injection Epop as <- _. by apply Forall_cons in Hcalm as [-> _]. }
  rewrite Eo. cbn [ret]. do 2 eexists. split; [reflexivity|]. cbv zeta. cbn [ce_entries]. rewrite Hdec.
  destruct (decide _) as [Ek|_]; [|done]. pose proof (Hsame Ek) as ->.
  destruct (adopt_payload dimension payload Entries_default) as [E1 E2].
  - rewrite Hfst. apply (eo_nodup _ _ _ _ Hok).
  - intros h _. apply lookup_empty.
  - apply Forall_forall. intros [h v] [_ Hv]%payload_elem. by apply (Hdim h).
  - rewrite E1, E2. cbn. rewrite (right_id_L ∅ _). split; [|exact Hfst]. apply map_eq. intros h.
    assert (NoDup payload.*1) as Hnd by (rewrite Hfst; apply (eo_nodup _ _ _ _ Hok)).
    destruct (en_map (ce_entries c) !! h) as [v|] eqn:Ev.
    + apply elem_of_list_to_map_1; [done|]. apply payload_elem. split; [|done]. apply (eo_order _ _ _ _ Hok). by exists v.
    + apply not_elem_of_list_to_map_1. rewrite Hfst. intros [? Hs]%(eo_order _ _ _ _ Hok). by rewrite Hs in Ev.
Qed.
End reopened.

(** ** Two batches *)

Section examples.
Definition by_length (t : rstring) : N := N.of_nat (length t).
Definition one_vector (t : rstring) : list f32 := [Z.of_nat (length t)].
Definition known : list rstring := [lit "a"; lit "bb"; lit "ccc"].
Definition provider (l : list rstring) : result err (list (list f32)) := Ok (map one_vector l).
Definition batch (texts : list rstring) (e : Entries) := cached_embed_batch by_length provider (fun e => e) 2 texts e.
Definition warm : Entries := (batch [lit "a"; lit "bb"] Entries_default).1.2.

Lemma cached_embed_transparent_witness :
  (batch [lit "bb"; lit "ccc"; lit "bb"] warm).1.1 = Some (Ok [[2%Z]; [3%Z]; [2%Z]]) /\
  (batch [lit "bb"; lit "ccc"; lit "bb"] warm).2 = [[lit "ccc"]] /\
  (length (en_order (batch [lit "bb"; lit "ccc"; lit "bb"] warm).1.2) <= 2)%nat.
Proof.
  assert (forall t t', t ∈ known -> t' ∈ known -> by_length t = by_length t' -> t = t') as Hfree.
  { intros t t' Ht Ht' E. unfold known in *. repeat (apply elem_of_cons in Ht as [->|Ht]); try (by apply elem_of_nil in Ht);
      repeat (apply elem_of_cons in Ht' as [->|Ht']); try (by apply elem_of_nil in Ht'); done. }
  assert (faithful_inner one_vector provider) as Hin by (intros l; by left).
  assert (keeps by_length one_vector (fun t => t ∈ known) (fun e => e)) as Hk by (intros ? He; exact He).
  assert (entries_ok by_length one_vector (fun t => t ∈ known) warm) as Hw.
  { apply (cached_embed_transparent _ _ _ Hfree provider (fun e => e) 2 [lit "a"; lit "bb"] Entries_default _ _ _ Hin Hk
      ltac:(repeat constructor; set_solver) (entries_default_ok _ _ _) eq_refl). }
  split; [by vm_compute|].
  destruct (cached_embed_transparent _ _ _ Hfree provider (fun e => e) 2 [lit "bb"; lit "ccc"; lit "bb"] warm _ _ _ Hin Hk
    ltac:(repeat constructor; set_solver) Hw eq_refl) as (_ & -> & [[_ Hl]|(wanted & er & _ & Hf & _)]); [|done].
  split; [by vm_compute|]. by apply Hl.
Defined.
End examples.
