(* ===== verification/Commit.v ===== *)
(** * Commit: group commit of concurrent writes ([server/commit.rs])

    Writes queue; the first becomes the leader's cue, and a leader takes the whole
    queue under one store guard, applies every write with its barrier deferred, takes one
    barrier for all, and answers.  Threads interleave between the regions under the
    queue's mutex and the store's guard: each is one step of [cstep].  A write that
    panics poisons the guard and ends its leader; a runtime that shuts down is left out. *)
From S2P Require Import Prelude Floats Model Config Std Backend Codec Log Data Manifest Lease Segments Replay Store StoreWrite.
From S2P Require Import Filter SqlQuery Memory.

Section commit.
Context `{Crc32} `{Codec Op} `{Codec Manifest} `{Codec HistoryEntry} `{Codec HistoryFloor} `{Codec Z}.
Context {V : Type}.

(** A queued write: its oneshot channel and the closure. *)
Record Job := { jb_id : nat; jb_write : M Store V }.

Inductive ack_error := AckFailed (e : err) | AckNotDurable (e : err) | AckUnavailable.
Definition answer : Type := nat * result ack_error V.

(** [apply]: the write with its barrier deferred; its own failure is an outcome. *)
Definition apply_job (j : Job) : M Store (result err V) := fun s w =>
  match deferred (jb_write j) s w with
  | (Ret v, s, w) => (Ret (Ok v), s, w)
  | (Fail e, s, w) => (Ret (Err e), s, w)
  | (Dead, s, w) => (Dead, s, w)
  end.

Fixpoint apply_all (group : list Job) : M Store (list (nat * result err V)) :=
  match group with
  | [] => ret []
  | j :: group => (let* out := apply_job j in let* outs := apply_all group in ret ((jb_id j, out) :: outs))%m
  end.

(** [ack]. *)
Definition ack (barrier : option err) (out : nat * result err V) : answer :=
  (out.1, match out.2, barrier with
          | Ok v, None => Ok v
          | Ok _, Some reason => Err (AckNotDurable reason)
          | Err e, _ => Err (AckFailed e)
          end).

Definition attempt_commit : M Store (option err) := catch (do* commit in ret None)%m (fun e => ret (Some e)).

(** The body of [commit_group] under the guard. *)
Definition commit_group (group : list Job) : M Store (list answer) :=
  (let* outs := apply_all group in
   let needs_barrier := existsb (fun out : nat * result err V => is_ok out.2) outs in
   let* barrier := if needs_barrier then attempt_commit else ret None in
   ret (map (ack barrier) outs))%m.

(** The channel of a dropped job. *)
Definition dropped (j : Job) : answer := (jb_id j, Err AckUnavailable).

(** ** Threads *)

(** Where a leader is: at its look at the queue, with a group taken, or answering. *)
Inductive Leader := LCheck | LGroup (group : list Job) | LAcks (acks : list answer).

Record Committer := {
  cm_queue : list Job;
  cm_leader : bool;
  cm_leaders : list Leader;               (* the threads running [drive] *)
  cm_store : option (Store * World);      (* [None] until the store is open *)
  cm_poisoned : bool;
  cm_answers : list answer;
  cm_groups : N;
  cm_writes : N;
  cm_submitted : N
}.

Definition Committer_new (store : option (Store * World)) : Committer :=
  {| cm_queue := []; cm_leader := false; cm_leaders := []; cm_store := store; cm_poisoned := false; cm_answers := [];
     cm_groups := 0; cm_writes := 0; cm_submitted := 0 |}.

Definition depth (c : Committer) : N := (cm_submitted c - cm_writes c)%N.

(** Enqueue and election, in one region. *)
Definition submit (j : Job) (c : Committer) : Committer :=
  {| cm_queue := cm_queue c ++ [j]; cm_leader := true;
     cm_leaders := if cm_leader c then cm_leaders c else cm_leaders c ++ [LCheck];
     cm_store := cm_store c; cm_poisoned := cm_poisoned c; cm_answers := cm_answers c; cm_groups := cm_groups c;
     cm_writes := cm_writes c; cm_submitted := (cm_submitted c + 1)%N |}.

(** A leader's look at the queue: stand down, or take all of it. *)
Definition check_queue (c : Committer) (before after : list Leader) : Committer :=
  match cm_queue c with
  | [] =>
      {| cm_queue := []; cm_leader := false; cm_leaders := before ++ after; cm_store := cm_store c; cm_poisoned := cm_poisoned c;
         cm_answers := cm_answers c; cm_groups := cm_groups c; cm_writes := cm_writes c; cm_submitted := cm_submitted c |}
  | group =>
      {| cm_queue := []; cm_leader := cm_leader c; cm_leaders := before ++ LGroup group :: after; cm_store := cm_store c;
         cm_poisoned := cm_poisoned c; cm_answers := cm_answers c; cm_groups := cm_groups c; cm_writes := cm_writes c;
         cm_submitted := cm_submitted c |}
  end.

(** [with_store], and [StandDown] when a write unwinds. *)
Definition run_group (group : list Job) (c : Committer) (before after : list Leader) : Committer :=
  match (if cm_poisoned c then None else cm_store c) with
  | None =>
      {| cm_queue := cm_queue c; cm_leader := cm_leader c; cm_leaders := before ++ LCheck :: after; cm_store := cm_store c;
         cm_poisoned := cm_poisoned c; cm_answers := cm_answers c ++ map dropped group; cm_groups := cm_groups c;
         cm_writes := cm_writes c; cm_submitted := cm_submitted c |}
  | Some (s, w) =>
      let groups := (cm_groups c + 1)%N in
      let writes := (cm_writes c + N.of_nat (length group))%N in
      match commit_group group s w with
      | (Ret acks, s, w) =>
          {| cm_queue := cm_queue c; cm_leader := cm_leader c; cm_leaders := before ++ LAcks acks :: after;
             cm_store := Some (s, w); cm_poisoned := false; cm_answers := cm_answers c; cm_groups := groups;
             cm_writes := writes; cm_submitted := cm_submitted c |}
      | (_, s, w) =>
          {| cm_queue := cm_queue c; cm_leader := false; cm_leaders := before ++ after;
             cm_store := Some (s, w); cm_poisoned := true; cm_answers := cm_answers c ++ map dropped group; cm_groups := groups;
             cm_writes := writes; cm_submitted := cm_submitted c |}
      end
  end.

Definition send_ack (acks : list answer) (c : Committer) (before after : list Leader) : Committer :=
  match acks with
  | [] =>
      {| cm_queue := cm_queue c; cm_leader := cm_leader c; cm_leaders := before ++ LCheck :: after; cm_store := cm_store c;
         cm_poisoned := cm_poisoned c; cm_answers := cm_answers c; cm_groups := cm_groups c; cm_writes := cm_writes c;
         cm_submitted := cm_submitted c |}
  | a :: acks =>
      {| cm_queue := cm_queue c; cm_leader := cm_leader c; cm_leaders := before ++ LAcks acks :: after; cm_store := cm_store c;
         cm_poisoned := cm_poisoned c; cm_answers := cm_answers c ++ [a]; cm_groups := cm_groups c; cm_writes := cm_writes c;
         cm_submitted := cm_submitted c |}
  end.

(** One region of a leader. *)
Definition lead (l : Leader) (c : Committer) (before after : list Leader) : Committer :=
  match l with
  | LCheck => check_queue c before after
  | LGroup group => run_group group c before after
  | LAcks acks => send_ack acks c before after
  end.

Definition open_store (sw : Store * World) (c : Committer) : Committer :=
  {| cm_queue := cm_queue c; cm_leader := cm_leader c; cm_leaders := cm_leaders c; cm_store := Some sw;
     cm_poisoned := cm_poisoned c; cm_answers := cm_answers c; cm_groups := cm_groups c; cm_writes := cm_writes c;
     cm_submitted := cm_submitted c |}.

Inductive cstep : Committer -> Committer -> Prop :=
| step_submit j c : cstep c (submit j c)
| step_lead l c before after : cm_leaders c = before ++ l :: after -> cstep c (lead l c before after)
| step_open sw c : cm_store c = None -> cstep c (open_store sw c).
End commit.
Arguments Job V : clear implicits.
Arguments Committer V : clear implicits.
Arguments Leader V : clear implicits.
Arguments answer V : clear implicits.
