(* ===== verification/CommitOk.v ===== *)
(** * CommitOk: what the group commit promises its writers

    [group_commit_serves]: however threads interleave, one leader at most, every
    write answered once and in the order it came, none acknowledged before the barrier that
    covers it, and none left waiting once the leader rests.  The exception is
    [panic_strands_writes]. *)
From S2P Require Import Prelude Floats Model Config Std Backend Codec Log Data Manifest Lease Segments Replay Store StoreWrite.
From S2P Require Import Filter Aggregate SqlQuery Memory Effect LiveIndex Live MemoryOk Commit.

Section ok.
Context `{Crc32} `{Codec Op} `{Codec Manifest} `{Codec HistoryEntry} `{Codec HistoryFloor} `{Codec Z}.
Context {V : Type} (store : option (Store * World)).

(** A group a leader has run, and the store and the world it ran it on. *)
Record GroupRun := { gr_group : list (Job V); gr_store : Store; gr_world : World }.
Definition group_runs (l : Leader V) (c : Committer V) : list GroupRun :=
  match l, (if cm_poisoned c then None else cm_store c) with
  | LGroup group, Some (s, w) => [{| gr_group := group; gr_store := s; gr_world := w |}]
  | _, _ => []
  end.

(** A history: the writes submitted and the groups run, in order, and where it
    has led. *)
Inductive served : Committer V -> list (Job V) -> list GroupRun -> Prop :=
| served_new : served (Committer_new store) [] []
| served_submit c js gs j : served c js gs -> served (submit j c) (js ++ [j]) gs
| served_lead c js gs l before after : served c js gs -> cm_leaders c = before ++ l :: after ->
    served (lead l c before after) js (gs ++ group_runs l c)
| served_open c js gs sw : served c js gs -> cm_store c = None -> served (open_store sw c) js gs.

(** The answers and writes in a leader's hands. *)
Definition in_hand (l : Leader V) : list nat :=
  match l with LCheck => [] | LGroup group => map jb_id group | LAcks acks => map fst acks end.
Definition pending_acks (l : Leader V) : list (answer V) := match l with LAcks acks => acks | _ => [] end.

(** A write of the history whose barrier has been taken: it returned [v] when a
    leader ran its group [g] on the store as it was, and the commit that followed
    on the store the group left returned, with no barrier pending unless the
    store only syncs when flushed. *)
Definition durable (gs : list GroupRun) (i : nat) (v : V) : Prop :=
  exists g outs s1 w1 s2 w2, g ∈ gs /\
    apply_all (gr_group g) (gr_store g) (gr_world g) = (Ret outs, s1, w1) /\ (i, Ok v) ∈ outs /\
    commit s1 w1 = (Ret tt, s2, w2) /\ (st_pending_barrier s2 = false \/ c_fsync (st_config s2) = OnFlush).
Definition honest (gs : list GroupRun) (a : answer V) : Prop := match a.2 with Ok v => durable gs a.1 v | Err _ => True end.
Lemma honest_later gs gs' l : Forall (honest gs) l -> Forall (honest (gs ++ gs')) l.
Proof.
  intros Hl. eapply Forall_impl; [exact Hl|]. intros [i [v|e]]; [|done]. intros (g & outs & s1 & w1 & s2 & w2 & Hg & Hr).
  exists g, outs, s1, w1, s2, w2. split; [apply elem_of_app; by left|exact Hr].
Qed.

Lemma apply_all_ids group s w outs s' w' : apply_all group s w = (Ret outs, s', w') -> map fst outs = map (jb_id (V := V)) group.
Proof.
  revert s w outs. induction group as [|j group IH]; intros s w outs; cbn [apply_all]; [by intros [= <- _ _]|].
  intros (out & s1 & w1 & _ & (rest & s2 & w2 & Er & [= <- <- <-])%bind_returns)%bind_returns. cbn. by rewrite (IH _ _ _ Er).
Qed.

(** A barrier that was taken leaves none pending. *)
Lemma commit_settles s w s' w' : commit s w = (Ret tt, s', w') ->
  st_pending_barrier s' = false \/ c_fsync (st_config s') = OnFlush.
Proof.
  unfold commit. intros E. skip_get E. destruct (st_pending_barrier s) eqn:Ep; cbn [negb orb] in E; [|by injection E as <- <-; left].
  case_bool_decide; [by injection E as <- <-; right|]. left.
  do 3 apply bind_returns in E as (? & ? & ? & _ & E). by injection E as <- _.
Qed.

(** The answers of a group: one per write, in order, and none before its barrier. *)
Lemma commit_group_acks group s w acks s' w' : commit_group group s w = (Ret acks, s', w') ->
  map fst acks = map (jb_id (V := V)) group /\ Forall (honest [{| gr_group := group; gr_store := s; gr_world := w |}]) acks.
Proof.
  unfold commit_group. intros (outs & s1 & w1 & Ea & (barrier & s2 & w2 & Eb & [= <- <- <-])%bind_returns)%bind_returns.
  pose proof (apply_all_ids _ _ _ _ _ _ Ea) as Hids. split; [by rewrite map_map|].
  apply Forall_fmap, Forall_forall. intros [i out] Hin. unfold compose, ack, honest. cbn [fst snd].
  destruct out as [v|e]; [|done]. destruct barrier as [e|]; [done|].
  assert (existsb (fun out : nat * result err V => is_ok out.2) outs = true) as Hex
    by (apply existsb_exists; exists (i, Ok v); by rewrite <- list_elem_of_In).
  rewrite Hex in Eb. unfold attempt_commit, catch, bind in Eb. destruct (commit s1 w1) as [[[[]|e|] s3] w3] eqn:Ec; [|done..].
  eexists _, outs, s1, w1, s3, w3. split_and!; [by left|done..|]. by eapply commit_settles.
Qed.

Record invariant (c : Committer V) (js : list (Job V)) (gs : list GroupRun) : Prop := {
  iv_leader : if cm_leader c then exists l, cm_leaders c = [l] else cm_leaders c = [];
  iv_fifo : map fst (cm_answers c) ++ mjoin (map in_hand (cm_leaders c)) ++ map jb_id (cm_queue c) = map jb_id js;
  iv_honest : Forall (honest gs) (cm_answers c) /\ Forall (fun l => Forall (honest gs) (pending_acks l)) (cm_leaders c);
  iv_served : cm_poisoned c = false -> cm_leader c = false -> cm_queue c = []
}.

Lemma singleton_split {A} (before after : list A) l x : [x] = before ++ l :: after -> x = l /\ before = [] /\ after = [].
Proof. destruct before as [|y before]; cbn; [by intros [= <- <-]|]. intros [= _ E]. by destruct before. Qed.

(** The writes of a group dropped unanswered. *)
Lemma dropped_honest gs (group : list (Job V)) : Forall (honest gs) (map dropped group).
Proof. apply Forall_fmap, Forall_forall. by intros. Qed.

Lemma lead_invariant c js gs l before after : invariant c js gs -> cm_leaders c = before ++ l :: after ->
  invariant (lead l c before after) js (gs ++ group_runs l c).
Proof.
  intros [Hl Hf [Ha Hp] Hs] El. destruct (cm_leader c) eqn:Ec; [|rewrite Hl in El; by destruct before].
  destruct Hl as [l' Hl]. rewrite Hl in *. apply singleton_split in El as (-> & -> & ->).
  cbn [map mjoin list_join app] in Hf. rewrite app_nil_r in Hf. rewrite Forall_singleton in Hp. cbn [pending_acks] in Hp.
  apply (honest_later _ (group_runs l c)) in Ha, Hp.
  destruct l as [|group|acks]; cbn [lead in_hand pending_acks] in *.
  - unfold check_queue. destruct (cm_queue c) as [|j q] eqn:Eq; split; cbn [cm_leader cm_leaders cm_answers cm_queue cm_poisoned app map].
    + done.
    + exact Hf.
    + by split.
    + done.
    + rewrite Ec. by eexists.
    + cbn. rewrite !app_nil_r. exact Hf.
    + split; [done|]. by rewrite Forall_singleton.
    + by rewrite Ec.
  - unfold run_group. unfold group_runs in *. destruct (if cm_poisoned c then None else cm_store c) as [[s w]|] eqn:Es.
    + destruct (commit_group group s w) as [[[acks|e|] s'] w'] eqn:Eg.
      * apply commit_group_acks in Eg as [Hids Hh]. split; cbn; try done.
        -- rewrite Ec. by eexists.
        -- by rewrite app_nil_r, Hids.
        -- split; [done|]. rewrite Forall_singleton. cbn. eapply Forall_impl; [exact Hh|]. intros [i [v|e]]; [|done].
           intros (g & outs & s1 & w1 & s2 & w2 & Hg & Hr). exists g, outs, s1, w1, s2, w2. split; [apply elem_of_app; by right|exact Hr].
        -- intros _. by rewrite Ec.
      * split; cbn; try done; [|split; [|constructor]].
        -- rewrite map_app, map_map, <- app_assoc. exact Hf.
        -- apply Forall_app. split; [done|apply dropped_honest].
      * split; cbn; try done; [|split; [|constructor]].
        -- rewrite map_app, map_map, <- app_assoc. exact Hf.
        -- apply Forall_app. split; [done|apply dropped_honest].
    + split; cbn; try done.
      * rewrite Ec. by eexists.
      * rewrite map_app, map_map, <- app_assoc. exact Hf.
      * split; [|by repeat constructor]. apply Forall_app. split; [done|apply dropped_honest].
      * intros _. by rewrite Ec.
  - unfold send_ack. destruct acks as [|a acks]; split; cbn [cm_leader cm_leaders cm_answers cm_queue cm_poisoned app map].
    + rewrite Ec. by eexists.
    + exact Hf.
    + split; [done|]. by repeat constructor.
    + by rewrite Ec.
    + rewrite Ec. by eexists.
    + cbn. rewrite app_nil_r, map_app, <- app_assoc. exact Hf.
    + apply Forall_cons in Hp as [Hh Hp]. split; [apply Forall_app; split; [done|by rewrite Forall_singleton]|]. by rewrite Forall_singleton.
    + by rewrite Ec.
Qed.

Lemma served_invariant c js gs : served c js gs -> invariant c js gs.
Proof.
  induction 1 as [|c js gs j Hr IH|c js gs l before after Hr IH El|c js gs sw Hr IH Eo].
  - by split; cbn; try split.
  - destruct IH as [Hl Hf [Ha Hp] Hs]. split; cbn.
    + destruct (cm_leader c); [done|]. rewrite Hl. by eexists.
    + rewrite !map_app. cbn. rewrite <- Hf. destruct (cm_leader c); [by rewrite !app_assoc|].
      rewrite Hl. cbn. by rewrite !app_assoc.
    + split; [done|]. destruct (cm_leader c); [done|]. rewrite Hl. by repeat constructor.
    + done.
  - by apply lead_invariant.
  - destruct IH as [Hl Hf [Ha Hp] Hs]. split; cbn; done.
Qed.

(** ** The leader comes to rest *)

Definition lead_step (c c' : Committer V) : Prop := exists l, cm_leaders c = [l] /\ c' = lead l c [] [].

Lemma lead_one c l : cm_leaders c = [l] -> rtc lead_step c (lead l c [] []).
Proof. intros E. apply rtc_once. by exists l. Qed.

Lemma acks_sent acks c : cm_leaders c = [LAcks acks] ->
  exists c', rtc lead_step c c' /\ cm_leaders c' = [LCheck] /\ cm_queue c' = cm_queue c.
Proof.
  revert c. induction acks as [|a acks IH]; intros c E.
  - exists (lead (LAcks []) c [] []). split; [by apply lead_one|done].
  - destruct (IH (lead (LAcks (a :: acks)) c [] []) eq_refl) as (c' & Hr & Hl & Hq). exists c'.
    split; [etrans; [by apply lead_one|exact Hr]|done].
Qed.

Lemma group_run group c : cm_leaders c = [LGroup group] ->
  exists c', rtc lead_step c c' /\ (cm_leaders c' = [] \/ cm_leaders c' = [LCheck] /\ cm_queue c' = cm_queue c).
Proof.
  intros E. pose proof (lead_one _ _ E) as Hr. cbn [lead] in Hr. unfold run_group in Hr.
  destruct (if cm_poisoned c then None else cm_store c) as [[s w]|]; [|eexists; split; [exact Hr|by right]].
  destruct (commit_group group s w) as [[[acks|e|] s'] w']; [|eexists; split; [exact Hr|by left]..].
  match type of Hr with rtc _ _ ?c1 => destruct (acks_sent acks c1 eq_refl) as (c' & Hr' & Hl & Hq) end.
  exists c'. split; [by etrans|]. by right.
Qed.

Lemma check_rests c : cm_leaders c = [LCheck] -> exists c', rtc lead_step c c' /\ cm_leaders c' = [].
Proof.
  assert (forall c, cm_leaders c = [LCheck] -> cm_queue c = [] -> exists c', rtc lead_step c c' /\ cm_leaders c' = []) as Hempty.
  { intros c1 E Eq. pose proof (lead_one _ _ E) as Hr. cbn [lead] in Hr. unfold check_queue in Hr. rewrite Eq in Hr. by eexists. }
  intros E. destruct (cm_queue c) as [|j q] eqn:Eq; [by apply Hempty|].
  pose proof (lead_one _ _ E) as Hr. cbn [lead] in Hr. unfold check_queue in Hr. rewrite Eq in Hr.
  match type of Hr with rtc _ _ ?c1 => destruct (group_run (j :: q) c1 eq_refl) as (c2 & Hr2 & Hc2) end.
  destruct Hc2 as [Hl|[Hl Hq]]; [exists c2; split; [by etrans|done]|].
  destruct (Hempty c2 Hl Hq) as (c3 & Hr3 & Hl3). exists c3. split; [|done]. etrans; [exact Hr|]. by etrans.
Qed.

Lemma leader_rests c l : cm_leaders c = [l] -> exists c', rtc lead_step c c' /\ cm_leaders c' = [].
Proof.
  intros E. destruct l as [|group|acks].
  - by apply check_rests.
  - destruct (group_run group c E) as (c1 & Hr & [Hl|[Hl _]]); [by exists c1|].
    destruct (check_rests c1 Hl) as (c2 & Hr2 & Hl2). exists c2. split; [by etrans|done].
  - destruct (acks_sent acks c E) as (c1 & Hr & Hl & _).
    destruct (check_rests c1 Hl) as (c2 & Hr2 & Hl2). exists c2. split; [by etrans|done].
Qed.

Lemma served_leads c c' js gs : served c js gs -> rtc lead_step c c' -> exists gs', served c' js gs'.
Proof.
  intros Hs Hr. revert gs Hs. induction Hr as [|c c1 c2 (l & El & ->) Hr IH]; intros gs Hs; [by exists gs|].
  eapply IH. by apply (served_lead c js gs l [] []).
Qed.

(** C14: However writers and leaders interleave: at most one leader runs, and the flag says so; every
    write is in exactly one place, answered, in the leader's hands or queued, in the order it was
    submitted; a write answered as done returned that value when a leader of this history ran its
    group on the store as it was then, and the barrier taken on the store that run left returned and
    left none pending (on a store that syncs only when flushed it is a commit without one); and the
    leader, left alone, comes to rest, with every write answered unless one has panicked. *)
Theorem group_commit_serves c js gs : served c js gs ->
  (if cm_leader c then exists l, cm_leaders c = [l] else cm_leaders c = []) /\
  map fst (cm_answers c) ++ mjoin (map in_hand (cm_leaders c)) ++ map jb_id (cm_queue c) = map jb_id js /\
  (forall i v, (i, Ok v) ∈ cm_answers c ->
     exists g outs s1 w1 s2 w2, g ∈ gs /\
       apply_all (gr_group g) (gr_store g) (gr_world g) = (Ret outs, s1, w1) /\ (i, Ok v) ∈ outs /\
       commit s1 w1 = (Ret tt, s2, w2) /\ (st_pending_barrier s2 = false \/ c_fsync (st_config s2) = OnFlush)) /\
  exists c', rtc lead_step c c' /\ cm_leaders c' = [] /\ (cm_poisoned c' = false -> map fst (cm_answers c') = map jb_id js).
Proof.
  intros Hs. destruct (served_invariant _ _ _ Hs) as [Hl Hf [Ha _] _]. split_and!; [done|done| |].
  - intros i v Hin. rewrite Forall_forall in Ha. exact (Ha _ Hin).
  - assert (exists c', rtc lead_step c c' /\ cm_leaders c' = []) as (c' & Hr & Hl').
    { destruct (cm_leader c); [|by exists c]. destruct Hl as [l Hl]. by apply (leader_rests c l). }
    exists c'. split_and!; [done|done|]. intros Hp. destruct (served_leads _ _ _ _ Hs Hr) as [gs' Hs'].
    destruct (served_invariant _ _ _ Hs') as [Hl2 Hf2 _ Hq].
    destruct (cm_leader c'); [destruct Hl2 as [l Hl2]; by rewrite Hl' in Hl2|].
    rewrite Hl', (Hq Hp eq_refl) in Hf2. cbn in Hf2. by rewrite !app_nil_r in Hf2.
Qed.
End ok.

(** A write that panics strands the writes queued behind it: its leader clears the flag on
    its way out, but nobody looks at the queue again until another write is submitted. *)
Lemma panic_strands_writes `{Crc32} `{Codec Op} `{Codec Manifest} `{Codec HistoryEntry} `{Codec HistoryFloor} `{Codec Z}
    {V : Type} (s : Store) (w : World) (j : Job V) :
  exists c gs panics, served (Some (s, w)) c [panics; j] gs /\ cm_queue c = [j] /\ cm_answers c = [dropped panics] /\
    forall c', cstep c c' -> exists j', c' = submit j' c.
Proof.
  set (panics := {| jb_id := 0; jb_write := fun s w => (Dead, s, w) |} : Job V).
  pose proof (served_submit _ _ _ _ panics (served_new (Some (s, w)))) as Hrun.
  apply (served_lead _ _ _ _ LCheck [] []) in Hrun; [|done].
  apply (served_submit _ _ _ _ j) in Hrun. apply (served_lead _ _ _ _ (LGroup [panics]) [] []) in Hrun; [|done].
  eexists _, _, panics. split; [exact Hrun|]. split_and!; [done|done|].
  intros c' Hc. inversion Hc as [j' ? E|l ? before after El|sw ? Eo]; subst; [by exists j'| |done].
  by destruct before.
Qed.

(** ** Two writes in one group *)

Section examples.
Import ToyCodec.
#[local] Instance no_bytes {A} : Codec A | 0 := {| enc _ := Some []; dec _ := None |}.

Definition seven : Job nat := {| jb_id := 1; jb_write := ret 7%nat |}.
Definition refused : Job nat := {| jb_id := 2; jb_write := throw EInvalid |}.
Definition two_queued : Committer nat :=
  submit refused (submit seven (Committer_new (Some (text_store [], LiveDemo.quiet_world)))).
Definition answered : Committer nat :=
  lead (LAcks [(2%nat, Err (AckFailed EInvalid))]) (lead (LAcks [(1%nat, Ok 7%nat); (2%nat, Err (AckFailed EInvalid))])
    (lead (LGroup [seven; refused]) (lead LCheck two_queued [] []) [] []) [] []) [] [].

(** The one group of the history. *)
Definition the_group : GroupRun :=
  {| gr_group := [seven; refused]; gr_store := text_store []; gr_world := LiveDemo.quiet_world |}.

Lemma group_commit_serves_witness :
  cm_answers answered = [(1%nat, Ok 7%nat); (2%nat, Err (AckFailed EInvalid))] /\
  exists g outs s1 w1 s2 w2, g ∈ [the_group] /\
    apply_all (gr_group g) (gr_store g) (gr_world g) = (Ret outs, s1, w1) /\ (1%nat, Ok 7%nat) ∈ outs /\
    commit s1 w1 = (Ret tt, s2, w2) /\ (st_pending_barrier s2 = false \/ c_fsync (st_config s2) = OnFlush).
Proof.
  pose proof (served_new (V := nat) (Some (text_store [], LiveDemo.quiet_world))) as Hs.
  apply (served_submit _ _ _ _ seven) in Hs. apply (served_submit _ _ _ _ refused) in Hs.
  apply (served_lead _ _ _ _ LCheck [] []) in Hs; [|done].
  apply (served_lead _ _ _ _ (LGroup [seven; refused]) [] []) in Hs; [|done].
  apply (served_lead _ _ _ _ (LAcks [(1%nat, Ok 7%nat); (2%nat, Err (AckFailed EInvalid))]) [] []) in Hs; [|by vm_compute].
  apply (served_lead _ _ _ _ (LAcks [(2%nat, Err (AckFailed EInvalid))]) [] []) in Hs; [|by vm_compute].
  split; [by vm_compute|].
  destruct (group_commit_serves _ _ _ _ Hs) as (_ & _ & Hd & _). apply Hd. by left.
Defined.
End examples.
